(* ===== verification/_CoqProject ===== *)
-Q . S2P
Prelude.v
Types.v
ValidatorSet.v
VoteSet.v
HeightVoteSet.v
PartSet.v
SignAggr.v
EpochVotes.v
Epoch.v
Block.v
Proposer.v
RoundState.v
Consensus.v
ConsensusSafety.v
ConsensusSteps.v
ConsensusRun.v
Rlp.v
RlpDecode.v
RlpCanon.v
TrieKeys.v
Trie.v
TrieNodes.v
TrieDb.v
TrieHash.v
TrieProof.v
TrieIter.v
StateObject.v
StateDb.v
StateSpec.v
StateTrie.v
StateRefine.v
StateFlush.v
StateFacts.v
StateIter.v
Ledger.v
Staking.v
VmBase.v
VmMachine.v
VmContracts.v
VmInstr.v
VmRun.v
VmStateDb.v
VmWords.v
VmJumps.v
VmLogic.v
VmSafeOps.v
VmSafeGas.v
VmSafePre.v
VmSafeRun.v
VmStateSafe.v
VmTheorems.v
StateTransition.v
