(* ===== verification/Prelude.v ===== *)
(** * Neatio: a verification library of a proof-of-stake chain node

    Neatio is a Go node of a proof-of-stake chain: a Tendermint-style consensus engine
    (NeatPoS) on top of the go-ethereum code base.  This library translates parts of it
    into Rocq functions and proves what makes them correct.  All paths below are under
    src/.

    ** The parts of the program and how they interact

    A node holds a chain of blocks.  For each height the consensus engine
    (consensus/neatpos) runs rounds: a proposer, chosen by the hash of the last header,
    sends a block in parts; the validators prevote and precommit; the proposer replaces
    the votes of a quorum by one aggregated signature; a verified aggregate of precommits
    commits the block, which is handed to the chain.  Validators and rewards are fixed
    for an epoch, a range of blocks; the next epoch is proposed inside a block.  Executing
    a block changes the accounts in the state database (core/state), which keeps them in
    Merkle Patricia tries (trie), whose nodes are RLP encodings (rlp) in a key-value store.

    ** Which file models what

    - Prelude: byte strings, 64-bit integers, panics as values ([outcome]), loops,
      weighted tallies, tactics.
    - Types, ValidatorSet, VoteSet, HeightVoteSet, PartSet, SignAggr:
      consensus/neatpos/types and the vote and aggregate stores of
      consensus/neatpos/consensus.
    - EpochVotes, Epoch: consensus/neatpos/epoch.
    - Block, Proposer: consensus blocks, their validation, and the choice of proposers.
    - RoundState, Consensus: the state of the round machine and one definition per
      handler of consensus/neatpos/consensus/state.go; ConsensusSafety, ConsensusSteps and
      ConsensusRun hold the theorems about all handlers and a computed run.
    - Rlp, RlpDecode, RlpCanon: rlp (the encoder with its buffer of list headers, the
      decoding stream, the raw walkers).
    - TrieKeys, Trie, TrieNodes, TrieDb, TrieHash, TrieProof, TrieIter: trie (key
      encodings, operations, node codec, the reference-counted database, hashing and
      committing, Merkle proofs, iterators).
    - StateObject, StateDb, StateFlush: core/state (accounts with their caches and the
      journal; the methods of StateDB, snapshots; Finalise, Commit, Copy and the address
      sets).  StateTrie instantiates its database with the tries above.
    - StateSpec, StateRefine, StateFacts: the abstract state, the refinement, and runs of
      the code at its edges.
    - StateIter: the walks of core/state over the tries of an account, with a program
      logic for methods of the state database ([does]) and its rules for such loops.
    - Ledger, Staking: what the accounts hold and have staked, and the transactions of the
      chain contract (internal/neatapi/api.go, core/types/pending_ops.go, neatabi/abi).
    - VmBase, VmMachine, VmContracts, VmInstr, VmRun: core/vm with common/math and params
      (words, memory, stack and jump analysis; gas and memory functions; precompiled
      contracts; instructions; jump table, interpreter loop, calls and creations).
      VmStateDb makes the state database an instance of the interface [VmState].
    - VmWords, VmJumps, VmLogic, VmSafeOps, VmSafeGas, VmSafePre, VmSafeRun, VmStateSafe,
      VmTheorems: arithmetic and jumps; a weakest-precondition logic for the machine, what
      it asks of the state ([VmSafe], [VmSafeLaws]), the proof for every instruction, gas
      function and precompiled contract, its instance for the state database, and the
      theorems on calls.
    - StateTransition: core/state_transition.go, state_transition1.go and gaspool.go.

    ** How the code is represented

    A Go struct is a record, a pointer that may be nil an [option], a map a [gmap], a
    slice a list with the panics of Go's indexing written out.  [int] and [uint64] are
    [Z] with the wrap-around of their width ([i64], [u64]); [big.Int] is [Z].  A method
    is a function from the receiver to its result and the new receiver; a panic is the
    outcome [Panic].  Handlers that send messages or set timers record them in a trace.
    Where the code shares memory between slices (EpochVotes) the backing array is
    modelled.  Code that is not in the repository (BLS signatures, the Merkle tree and
    codecs of third-party packages, SHA-256, Keccak, sort.Slice) is a class of operations
    ([NeatLib], [MerkleLib], [BlockLib], [EpochWire], [VrfLib], [KeccakLib], [CryptoLib],
    [ChainLib], [GoSort]) and a class of the documented laws that a theorem uses; every such
    class has an instance that the witnesses evaluate.

    ** What the theorems show

    - Votes and quorums: the quorum of a round is always more than half of the power; a
      reported majority is backed by verified votes; two accepted commits share a signer.
    - The round machine: in every reachable state a committed block, a lock, a precommit
      and a prevote are justified by verified aggregates or by the checks of the
      proposal; rounds never go back except for a proposal of a lower round.
    - Epochs: the next validator set, the reward and the block range; agreement between
      the proposing and the validating side; a restart finds the epoch entered last.
    - RLP: the encoder writes the reference encoding, decoding inverts it and, but for nil
      tags and arrays of one byte, accepts nothing else.
    - Part sets: a complete set reads back the block that was split, or one of its parts is
      a forgery ([forged]) of the hash or of a Merkle proof.
    - Tries: the operations are those of a finite map, the root hash binds the map,
      commits can be read back, also from disk alone, proofs are sound and complete, and
      an iteration visits every entry once.  Where these compare hashes they ask that
      Keccak does not collide on the nodes concerned.
    - The state database: the methods in [op] refine an abstract state in which a snapshot
      is a copy, so that for them caches, lazy loading and the journal are not observable
      and a revert restores the accounts.  Empty, Finalise and Commit can tell a reverted
      state from the original; StateFacts has the runs.
    - Stakes: registering, delegating, withdrawing and their counterparts return, change
      nobody's wealth and keep the books of candidates and delegators balanced.
    - The machine: calls end without a panic, within their gas, whatever the code; a
      failed call leaves the accounts as they were, a static call changes nothing that a
      contract can read; the arithmetic
      instructions and jumps do what they should.  Jump analysis is cached by code hash,
      so these theorems allow one more outcome, [Collision]: two different codes with the
      same Keccak hash have been found.
    - Messages: the gas that a message reports, takes from the block and makes its sender
      pay agree; no message makes money; a call that fails costs its gas and nothing else.

    ** Bounds and fuel

    Recursion that is not structural carries fuel, and the theorems say how much is
    enough: [decode] needs the nesting of the type plus the size of the value; trie
    operations use [fuel_for], twice the key length plus a constant, which no walk down a
    key exceeds; [Commit] of the trie database needs the height of the trie plus two;
    [VerifyProof] one step per proof node; an iterator, and with it a walk of the state
    database, one step per trie node; a call of the machine needs 1025 levels, one more than
    the depth that the code allows, and one round of the interpreter per unit of gas, because
    every instruction that does not end the run costs gas, but for [EXTCODEHASH] of
    Constantinople, which is free and does not jump: where it exists, a round per unit of gas
    and byte of code ([rounds]).  Gas is bounded by 2^46, far above the gas limit of a block:
    with more one can pay for a modular exponentiation with an exponent of more than 2^48
    bytes, which Go cannot allocate and panics ([maxAlloc]).  A model that runs out of fuel returns an error that the
    theorems exclude.

    ** Not modelled

    Sockets, peers, discovery and RPC (p2p, rpc, neatptc, neatcli), the command line, key
    stores, console and contracts bindings (cmd, accounts, console, contracts), logging,
    metrics and event feeds are input and output around the modelled parts.  The gossip
    routines of the consensus reactor are goroutines over peer connections; the round
    machine is proved for every order of messages and timeouts, so it does not rely on
    them.  The cryptographic code is either third-party or assembly-backed arithmetic and
    is represented by its laws.

    Parts of the modelled packages that are left out: the dump and the sync of the state
    database, tracing of the machine and its pool of integers, the loop of the block
    processor with the end of an epoch, the decoding of the arguments of the chain contract
    (accounts/abi), the transaction pool, the header chain and the storage of blocks, the
    gossip and the RLP codecs of consensus messages.  Go's iteration over a map has no fixed
    order; where the trie database walks one (the children of a node, the preimages) the
    model takes the order of the finite map, and the theorems speak of that order.  The
    validator set of an epoch is a value, so the check of validateBlock for a nil set has no
    counterpart. *)

From Stdlib Require Import ZArith Lia Sorting.Sorted.
From stdpp Require Import base tactics strings numbers gmap list.

Local Open Scope Z_scope.

(** ** Byte strings

    A Go [[]byte] (and a Go string used as raw bytes, such as a map key) is a
    list of [Z], one per byte.  Human-readable Go strings (chain ids, peer keys)
    are Rocq strings. *)

Abbreviation bytes := (list Z).

(** [bytes.Compare]: lexicographic order, a strict prefix is smaller. *)
Fixpoint bytes_Compare (a b : bytes) : Z :=
  match a, b with
  | [], [] => 0
  | [], _ :: _ => -1
  | _ :: _, [] => 1
  | x :: a', y :: b' =>
      if x <? y then -1 else if y <? x then 1 else bytes_Compare a' b'
  end.

(** [bytes.Equal] *)
Definition bytes_Equal (a b : bytes) : bool := bool_decide (a = b).

(** ** Machine integers

    Go's [uint64] is [Z] reduced modulo [2^64]; Go's [int] and [int64] (64-bit
    targets) are [Z] reduced to the two's-complement range. *)

Definition u64 (z : Z) : Z := z mod 2 ^ 64.
Definition i64 (z : Z) : Z := (z + 2 ^ 63) mod 2 ^ 64 - 2 ^ 63.

Definition in_u64 (z : Z) : Prop := 0 <= z < 2 ^ 64.
Definition in_i64 (z : Z) : Prop := - 2 ^ 63 <= z < 2 ^ 63.

(** ** Outcomes of a Go call: a value, or a panic *)

Inductive outcome (A : Type) : Type :=
| Ret (a : A)
| Panic (why : string).
Arguments Ret {A} a.
Arguments Panic {A} why.

Global Instance outcome_ret : MRet outcome := @Ret.
Global Instance outcome_bind : MBind outcome := λ A B f m,
  match m with Ret a => f a | Panic w => Panic w end.

Definition is_panic {A} (m : outcome A) : Prop := ∃ w, m = Panic w.

(** Indexing a Go slice: out of range is a run-time panic. *)
Definition slice_get {A} (l : list A) (i : Z) : outcome A :=
  if bool_decide (i < 0) then Panic "index out of range"
  else match l !! Z.to_nat i with
       | Some a => Ret a
       | None => Panic "index out of range"
       end.

Definition slice_set {A} (l : list A) (i : Z) (a : A) : outcome (list A) :=
  if bool_decide (0 <= i < Z.of_nat (length l)) then Ret (<[Z.to_nat i := a]> l)
  else Panic "index out of range".

(** ** Record updates

    [r <| f := v |>] is the record [r] with the field [f] set to [v], the assignment
    [r.f = v] of Go; [r <| f ::= g |>] applies [g] to the field.  A record type declares
    its eta expansion; the setter of a field is found by abstracting the field in it. *)

Class Settable (R : Type) := { rec_eta : R → R }.
Class Setter {R A} (proj : R → A) := rec_upd : (A → A) → R → R.
Arguments rec_upd {R A} proj {_} f r.

Ltac find_setter :=
  lazymatch goal with
  | |- @Setter ?R ?A ?proj =>
      let e := eval hnf in (@rec_eta R _) in
      lazymatch e with context [proj] => idtac end;
      lazymatch eval pattern proj in e with
      | ?setter _ => exact (λ f : A → A, setter (λ r : R, f (proj r)))
      end
  end.

Global Hint Extern 1 (Setter _) => find_setter : typeclass_instances.

Declare Scope record_scope.
Notation "r <| f := v |>" := (rec_upd f (λ _, v) r)
  (at level 1, left associativity, f global, format "r <| f  :=  v |>") : record_scope.
Notation "r <| f ::= g |>" := (rec_upd f g r)
  (at level 1, left associativity, f global, format "r <| f  ::=  g |>") : record_scope.

(** ** Methods on a mutable receiver: state and panics *)

Definition stM (S A : Type) : Type := S → outcome (A * S).

Global Instance stM_ret {S} : MRet (stM S) := λ A a s, Ret (a, s).
Global Instance stM_bind {S} : MBind (stM S) := λ A B f m s,
  match m s with Ret (a, s') => f a s' | Panic w => Panic w end.

Definition sget {S} : stM S S := λ s, Ret (s, s).
Definition smod {S} (f : S → S) : stM S () := λ s, Ret ((), f s).
Definition slift {S A} (m : outcome A) : stM S A := λ s, match m with Ret a => Ret (a, s) | Panic w => Panic w end.
Definition spanic {S A} (why : string) : stM S A := λ _, Panic why.

Lemma sbind_run {S A B} (m : stM S A) (f : A → stM S B) s a s' :
  m s = Ret (a, s') → (m ≫= f) s = f a s'.
Proof. unfold mbind, stM_bind. by intros ->. Qed.

Lemma sbind_panic {S A B} (m : stM S A) (f : A → stM S B) s w : m s = Panic w → (m ≫= f) s = Panic w.
Proof. unfold mbind, stM_bind. by intros ->. Qed.

(** One step of a method: the first call returns. *)
Ltac srun := erewrite sbind_run by first [eassumption|reflexivity].

(** The body of a loop over a slice or a map. *)
Fixpoint sfor {S A} (f : A → stM S ()) (l : list A) : stM S () :=
  match l with
  | [] => mret ()
  | a :: l => f a;; sfor f l
  end.

(** The same with an early return of an error. *)
Fixpoint sfor_err {S A E} (f : A → stM S (option E)) (l : list A) : stM S (option E) :=
  match l with
  | [] => mret None
  | a :: l =>
      r ← f a;
      match r with Some e => mret (Some e) | None => sfor_err f l end
  end.

(** ** Iterating over a map *)

(** Go's [range] over a map: every entry once, in an order that is not specified. *)
Class GoRange := range : ∀ {A}, gmap bytes A → list (bytes * A).

Class GoRangeLaws {R : GoRange} : Prop := range_perm : ∀ A (m : gmap bytes A), range m ≡ₚ map_to_list m.

(** The same over the keys of a [map[K]struct{}]. *)
Definition range_set {R : GoRange} (X : gset bytes) : list bytes := (range (gset_to_gmap () X)).*1.

Definition toy_range : GoRange := λ A m, map_to_list m.

Global Instance toy_range_laws : @GoRangeLaws toy_range.
Proof. by intros A m. Qed.

(** ** sort.Slice *)

(** Go's [sort.Slice(x, less)]: the elements of [x], in an order in which no
    element is [less] than an earlier one when [less] is a strict weak ordering. *)
Class GoSort := {
  sort_Slice : ∀ {A}, (A → A → bool) → list A → list A
}.

Definition strict_weak {A} (less : A → A → bool) : Prop :=
  (∀ x, less x x = false) ∧
  (∀ x y, less x y = true → less y x = false) ∧
  (∀ x y z, less y x = false → less z y = false → less z x = false).

Class GoSortLaws {SORT : GoSort} : Prop := {
  sort_Slice_perm : ∀ A (less : A → A → bool) l, sort_Slice less l ≡ₚ l;
  sort_Slice_sorted : ∀ A (less : A → A → bool) l, strict_weak less →
    StronglySorted (λ x y, less y x = false) (sort_Slice less l)
}.

(** ** Automation *)

Create HintDb neat.

(** Turn boolean tests into propositions and let [lia] see them. *)
Ltac bsimp :=
  repeat match goal with
  | H : (_ && _)%bool = true |- _ => apply andb_true_iff in H as [? ?]
  | H : (_ || _)%bool = false |- _ => apply orb_false_iff in H as [? ?]
  | H : negb _ = true |- _ => apply negb_true_iff in H
  | H : negb _ = false |- _ => apply negb_false_iff in H
  | H : bool_decide _ = true |- _ => apply bool_decide_eq_true in H
  | H : bool_decide _ = false |- _ => apply bool_decide_eq_false in H
  | H : (_ =? _) = true |- _ => apply Z.eqb_eq in H
  | H : (_ =? _) = false |- _ => apply Z.eqb_neq in H
  | H : (_ <? _) = true |- _ => apply Z.ltb_lt in H
  | H : (_ <? _) = false |- _ => apply Z.ltb_ge in H
  | H : (_ <=? _) = true |- _ => apply Z.leb_le in H
  | H : (_ <=? _) = false |- _ => apply Z.leb_gt in H
  end.

(** [lia] with division and remainder by constants. *)
Ltac dlia := Z.div_mod_to_equations; lia.

(** Case analysis on the scrutinee of a [match] or [if] in a hypothesis. *)
Ltac case_in H :=
  match type of H with
  | context [match ?x with _ => _ end] =>
      lazymatch x with
      | context [match _ with _ => _ end] => fail
      | _ => let E := fresh "E" in destruct x eqn:E
      end
  end.

Ltac case_goal :=
  match goal with
  | |- context [match ?x with _ => _ end] =>
      lazymatch x with
      | context [match _ with _ => _ end] => fail
      | _ => let E := fresh "E" in destruct x eqn:E
      end
  end.

(** ** Generic lemmas *)

Lemma outcome_bind_Ret {A B} (m : outcome A) (f : A → outcome B) b :
  m ≫= f = Ret b → ∃ a, m = Ret a ∧ f a = Ret b.
Proof. destruct m as [a|w]; [|done]. intros H. by exists a. Qed.

Lemma i64_small z : in_i64 z → i64 z = z.
Proof. unfold in_i64, i64. intros H. rewrite Z.mod_small; lia. Qed.

Lemma u64_small z : in_u64 z → u64 z = z.
Proof. unfold in_u64, u64. intros H. by rewrite Z.mod_small. Qed.

Lemma u64_range z : in_u64 (u64 z).
Proof. unfold in_u64, u64. apply Z.mod_pos_bound. lia. Qed.

Lemma i64_range z : in_i64 (i64 z).
Proof.
  unfold in_i64, i64.
  pose proof (Z.mod_pos_bound (z + 2 ^ 63) (2 ^ 64)). lia.
Qed.

(** [u64] undoes [i64] on unsigned values: [uint64(int(x)) = x]. *)
Lemma u64_i64 z : in_u64 z → u64 (i64 z) = z.
Proof.
  unfold in_u64, u64, i64. intros H.
  rewrite Zminus_mod_idemp_l. replace (z + 2 ^ 63 - 2 ^ 63) with z by lia.
  by rewrite Z.mod_small.
Qed.

Lemma i64_u64 z : in_i64 z → i64 (u64 z) = z.
Proof.
  unfold in_i64, u64, i64. intros H.
  rewrite Zplus_mod_idemp_l, Z.mod_small; lia.
Qed.

(** Or-ing a value below a shifted one is adding it. *)
Lemma lor_shiftl_add a x n : 0 <= n → 0 <= x < 2 ^ n → Z.lor (Z.shiftl a n) x = a * 2 ^ n + x.
Proof.
  intros Hn Hx. rewrite <-Z.shiftl_mul_pow2 by lia.
  assert (Z.land (Z.shiftl a n) x = 0) as H.
  { apply Z.bits_inj'. intros i Hi. rewrite Z.land_spec, Z.bits_0.
    destruct (decide (i < n)) as [Hlt|Hge]; [by rewrite Z.shiftl_spec_low|].
    destruct (decide (x = 0)) as [->|]; [by rewrite Z.bits_0, andb_false_r|].
    rewrite (Z.bits_above_log2 x i); [by rewrite andb_false_r|lia|]. apply Z.log2_lt_pow2; [lia|].
    apply (Z.lt_le_trans _ (2 ^ n)); [lia|]. apply Z.pow_le_mono_r; lia. }
  by rewrite Z.add_nocarry_lxor, Z.lxor_lor.
Qed.

Lemma slice_get_Ret {A} (l : list A) i a :
  slice_get l i = Ret a ↔ 0 <= i ∧ l !! Z.to_nat i = Some a.
Proof.
  unfold slice_get. case_bool_decide; [naive_solver lia|].
  destruct (l !! Z.to_nat i); naive_solver lia.
Qed.

Lemma slice_get_Panic {A} (l : list A) i :
  is_panic (slice_get l i) ↔ ¬ (0 <= i < Z.of_nat (length l)).
Proof.
  unfold slice_get, is_panic. case_bool_decide; [split; [lia|eauto]|].
  destruct (l !! Z.to_nat i) eqn:E.
  - apply lookup_lt_Some in E. split; [naive_solver|lia].
  - apply lookup_ge_None in E. split; [lia|eauto].
Qed.

Lemma slice_get_lookup {A} (l : list A) i :
  0 <= i < Z.of_nat (length l) → ∃ a, slice_get l i = Ret a ∧ l !! Z.to_nat i = Some a.
Proof.
  intros H. destruct (lookup_lt_is_Some_2 l (Z.to_nat i)) as [a Ha]; [lia|].
  exists a. split; [|done]. apply slice_get_Ret. split; [lia|done].
Qed.

Lemma slice_set_ok {A} (l : list A) i a :
  0 <= i < Z.of_nat (length l) → slice_set l i a = Ret (<[Z.to_nat i := a]> l).
Proof. intros H. unfold slice_set. by rewrite bool_decide_eq_true_2. Qed.

Lemma bytes_Equal_true a b : bytes_Equal a b = true ↔ a = b.
Proof. apply bool_decide_eq_true. Qed.

Lemma bytes_Compare_0 a b : bytes_Compare a b = 0 ↔ a = b.
Proof.
  revert b. induction a as [|x a IH]; intros [|y b]; simpl; try done.
  destruct (Z.ltb_spec x y); [split; [done|intros [= -> ->]; lia]|].
  destruct (Z.ltb_spec y x); [split; [done|intros [= -> ->]; lia]|].
  rewrite IH. assert (x = y) as -> by lia. naive_solver.
Qed.

Lemma elem_of_range_set `{GoRangeLaws} (X : gset bytes) k : k ∈ range_set X ↔ k ∈ X.
Proof.
  unfold range_set. rewrite list_elem_of_fmap. split.
  - intros ([k' []] & -> & Hin). cbn. rewrite range_perm in Hin. apply elem_of_map_to_list in Hin.
    by apply lookup_gset_to_gmap_Some in Hin as [? _].
  - intros Hk. exists (k, ()). split; [done|]. rewrite range_perm. apply elem_of_map_to_list.
    by apply lookup_gset_to_gmap_Some.
Qed.

Lemma NoDup_range `{GoRangeLaws} {A} (m : gmap bytes A) : NoDup (range m).*1.
Proof. rewrite range_perm. apply NoDup_fst_map_to_list. Qed.

(** *** A sample of [sort.Slice]: insertion *)

Fixpoint insert_by {A} (less : A → A → bool) (x : A) (l : list A) : list A :=
  match l with
  | [] => [x]
  | y :: l' => if less x y then x :: l else y :: insert_by less x l'
  end.

Definition toy_sort : GoSort := {| sort_Slice A less := foldr (insert_by less) [] |}.

Lemma insert_by_perm {A} (less : A → A → bool) x l : insert_by less x l ≡ₚ x :: l.
Proof.
  induction l as [|y l IH]; simpl; [done|]. destruct (less x y); [done|].
  rewrite IH. apply Permutation_swap.
Qed.

Lemma insert_by_sorted {A} (less : A → A → bool) x l :
  strict_weak less → StronglySorted (λ x y, less y x = false) l →
  StronglySorted (λ x y, less y x = false) (insert_by less x l).
Proof.
  intros (Hirr & Hasym & Htr) Hl. induction Hl as [|y l Hl IH Hy]; simpl.
  - repeat constructor.
  - destruct (less x y) eqn:E.
    + constructor; [by constructor|]. constructor; [by apply Hasym|].
      eapply Forall_impl; [exact Hy|]. intros z Hz. simpl in *. eapply Htr; [|exact Hz].
      by apply Hasym.
    + constructor; [done|]. rewrite insert_by_perm. by constructor.
Qed.

Global Instance toy_sort_laws : @GoSortLaws toy_sort.
Proof.
  split; simpl.
  - intros A less l. induction l as [|x l IH]; simpl; [done|]. by rewrite insert_by_perm, IH.
  - intros A less l Hsw. induction l as [|x l IH]; simpl; [constructor|].
    by apply insert_by_sorted.
Qed.

(** ** Weighted tallies

    [tally f ps] is the total weight of the positions of [ps] selected by [f]:
    the voting power of a set of validator indices. *)

Definition sumZ (l : list Z) : Z := foldr Z.add 0 l.

Definition tally (f : nat → bool) (ps : list Z) : Z :=
  sumZ (imap (λ i p, if f i then p else 0) ps).

Lemma tally_cons f p ps :
  tally f (p :: ps) = (if f O then p else 0) + tally (f ∘ S) ps.
Proof. reflexivity. Qed.

Lemma tally_ext f g ps :
  (∀ i, (i < length ps)%nat → f i = g i) → tally f ps = tally g ps.
Proof.
  revert f g. induction ps as [|p ps IH]; intros f g H; [done|].
  rewrite !tally_cons, (H O) by (simpl; lia). f_equal.
  apply IH. intros i Hi. apply H. simpl. lia.
Qed.

Lemma tally_false ps : tally (λ _, false) ps = 0.
Proof. induction ps as [|p ps IH]; [done|]. rewrite tally_cons. exact IH. Qed.

Lemma tally_true ps : tally (λ _, true) ps = sumZ ps.
Proof. induction ps as [|p ps IH]; [done|]. rewrite tally_cons. simpl. by rewrite <-IH. Qed.

(** Selecting one more position adds exactly its weight. *)
Lemma tally_add f g ps i p :
  ps !! i = Some p → f i = false → g i = true → (∀ j, j ≠ i → g j = f j) →
  tally g ps = tally f ps + p.
Proof.
  revert f g i. induction ps as [|q ps IH]; intros f g i Hi Hf Hg Hj; [done|].
  rewrite !tally_cons. destruct i as [|i]; simpl in Hi.
  - simplify_eq. rewrite Hf, Hg.
    rewrite (tally_ext (g ∘ S) (f ∘ S)) by (intros j _; apply Hj; lia). lia.
  - rewrite (Hj O) by lia.
    rewrite (IH (f ∘ S) (g ∘ S) i Hi Hf Hg) by (intros j ?; apply Hj; lia). lia.
Qed.

Lemma tally_mono f g ps :
  Forall (λ p, 0 <= p) ps → (∀ i, f i = true → g i = true) → tally f ps <= tally g ps.
Proof.
  intros Hps. revert f g. induction Hps as [|p ps Hp Hps IH]; intros f g H; [done|].
  rewrite !tally_cons. specialize (IH (f ∘ S) (g ∘ S) (λ i, H (S i))).
  pose proof (H O). destruct (f O), (g O); naive_solver lia.
Qed.

Lemma tally_nonneg f ps : Forall (λ p, 0 <= p) ps → 0 <= tally f ps.
Proof.
  intros H. rewrite <-(tally_false ps). by apply tally_mono.
Qed.

Lemma tally_le_total f ps : Forall (λ p, 0 <= p) ps → tally f ps <= sumZ ps.
Proof. intros H. rewrite <-tally_true. by apply tally_mono. Qed.

(** Inclusion and exclusion. *)
Lemma tally_union f g ps :
  tally f ps + tally g ps =
  tally (λ i, f i || g i) ps + tally (λ i, f i && g i) ps.
Proof.
  revert f g. induction ps as [|p ps IH]; intros f g; [done|].
  rewrite !tally_cons. specialize (IH (f ∘ S) (g ∘ S)). unfold compose in *.
  destruct (f O), (g O); simpl; lia.
Qed.

(** A set of positive weight is inhabited. *)
Lemma tally_pos f ps :
  0 < tally f ps → ∃ i p, ps !! i = Some p ∧ f i = true ∧ 0 < p.
Proof.
  revert f. induction ps as [|p ps IH]; intros f H; [done|].
  rewrite tally_cons in H. destruct (decide (0 < tally (f ∘ S) ps)) as [Ht|Ht].
  - destruct (IH _ Ht) as (i & q & ? & ? & ?). by exists (S i), q.
  - exists O, p. destruct (f O); simpl; repeat split; lia.
Qed.

(** ** Counting loops

    [for_loop k i body s] runs [body i], ..., [body (i + k - 1)] on the state [s],
    stopping at the first panic: Go's [for i := ...; i < n; i++]. *)

Fixpoint for_loop {S : Type} (k : nat) (i : Z) (body : Z → S → outcome S) (s : S) : outcome S :=
  match k with
  | O => Ret s
  | Datatypes.S k' => body i s ≫= for_loop k' (i + 1) body
  end.

(** The loop rule: an invariant kept by every iteration holds at the end, and
    the loop does not panic. *)
Lemma for_loop_inv {S : Type} (P : Z → S → Prop) k i body (s : S) :
  P i s →
  (∀ j t, i <= j < i + Z.of_nat k → P j t → ∃ t', body j t = Ret t' ∧ P (j + 1) t') →
  ∃ s', for_loop k i body s = Ret s' ∧ P (i + Z.of_nat k) s'.
Proof.
  revert i s. induction k as [|k IH]; intros i s Hs Hb.
  - exists s. split; [done|]. by replace (i + Z.of_nat 0) with i by lia.
  - destruct (Hb i s) as (t & Ht & HPt); [lia|done|]. simpl. rewrite Ht. simpl.
    destruct (IH (i + 1) t HPt) as (s' & Hs' & HP).
    { intros j u Hj. apply Hb. lia. }
    exists s'. split; [done|].
    by replace (i + Z.of_nat (Datatypes.S k)) with (i + 1 + Z.of_nat k) by lia.
Qed.

(** The rule for loops that may panic. *)
Lemma for_loop_returns {S : Type} (P : S → Prop) k i body (s s' : S) :
  P s → (∀ j t t', P t → body j t = Ret t' → P t') → for_loop k i body s = Ret s' → P s'.
Proof.
  intros Hs Hb. revert i s Hs. induction k as [|k IH]; intros i s Hs; cbn.
  - by intros [= <-].
  - destruct (body i s) as [t|why] eqn:Ht; cbn; [|done]. by apply IH, (Hb i s).
Qed.

(** Selecting the positions below a bound, one at a time. *)
Lemma tally_step f ps j p :
  0 <= j → ps !! Z.to_nat j = Some p →
  tally (λ x, (Z.of_nat x <? j + 1) && f x) ps =
  tally (λ x, (Z.of_nat x <? j) && f x) ps + (if f (Z.to_nat j) then p else 0).
Proof.
  intros Hj Hp. destruct (f (Z.to_nat j)) eqn:Ef.
  - apply (tally_add _ _ _ (Z.to_nat j) p); [done| | |].
    + apply andb_false_iff. left. apply Z.ltb_ge. lia.
    + apply andb_true_iff. split; [apply Z.ltb_lt; lia|exact Ef].
    + intros x Hx. f_equal.
      destruct (Z.ltb_spec (Z.of_nat x) (j + 1)), (Z.ltb_spec (Z.of_nat x) j);
        first [reflexivity|exfalso; lia].
  - rewrite Z.add_0_r. apply tally_ext. intros x _.
    destruct (decide (x = Z.to_nat j)) as [->|Hx]; [by rewrite Ef, !andb_false_r|].
    f_equal. destruct (Z.ltb_spec (Z.of_nat x) (j + 1)), (Z.ltb_spec (Z.of_nat x) j);
      first [reflexivity|exfalso; lia].
Qed.

Lemma tally_below f ps n :
  Z.of_nat (length ps) <= n →
  tally (λ x, (Z.of_nat x <? n) && f x) ps = tally f ps.
Proof.
  intros Hn. apply tally_ext. intros x Hx.
  destruct (Z.ltb_spec (Z.of_nat x) n); [done|lia].
Qed.

Lemma tally_none_below f ps : tally (λ x, (Z.of_nat x <? 0) && f x) ps = 0.
Proof.
  etrans; [|apply (tally_false ps)]. apply tally_ext. intros x _.
  destruct (Z.ltb_spec (Z.of_nat x) 0); [lia|done].
Qed.

(** A finite set whose elements are all in a list is no larger than the list. *)
Lemma size_subset_length `{Countable A} (X : gset A) (l : list A) :
  (∀ x, x ∈ X → x ∈ l) → (size X <= length l)%nat.
Proof.
  revert X. induction l as [|a l IH]; intros X HX.
  - assert (X = ∅) as -> by (apply set_eq; intros x; split; [intros Hx%HX; set_solver|set_solver]).
    by rewrite size_empty.
  - transitivity (size ({[a]} ∪ X ∖ {[a]})).
    { apply subseteq_size. intros x Hx. destruct (decide (x = a)); set_solver. }
    rewrite size_union by set_solver. rewrite size_singleton. simpl. apply le_n_S, IH.
    intros x. rewrite elem_of_difference, elem_of_singleton. intros [Hx Hne].
    by apply HX, list_elem_of_In in Hx as [->|Hx%list_elem_of_In].
Qed.

(** Reading the value of a computation that is known to return. *)
Definition is_Ret {A} (m : outcome A) : bool := match m with Ret _ => true | Panic _ => false end.

Definition from_Ret {A} (d : A) (m : outcome A) : A := match m with Ret a => a | Panic _ => d end.

Lemma from_Ret_eq {A} (d : A) m : is_Ret m = true → m = Ret (from_Ret d m).
Proof. by destruct m. Qed.

(** Filtering a list of which every element passes, and filtering without duplicates. *)
Lemma filter_all {A} (P : A → Prop) `{∀ x, Decision (P x)} (l : list A) :
  (∀ x, x ∈ l → P x) → filter P l = l.
Proof.
  induction l as [|a l IH]; intros Hall; [done|]. rewrite filter_cons_True.
  - f_equal. apply IH. intros x Hx. apply Hall. by apply elem_of_cons; right.
  - apply Hall. by apply elem_of_cons; left.
Qed.

Lemma NoDup_fmap_filter {A B} (f : A → B) (P : A → Prop) `{∀ x, Decision (P x)} (l : list A) :
  NoDup (f <$> l) → NoDup (f <$> filter P l).
Proof.
  induction l as [|a l IH]; intros Hnd; [done|]. rewrite fmap_cons in Hnd.
  apply NoDup_cons in Hnd as [Ha Hnd]. rewrite filter_cons. case_decide; [|auto].
  rewrite fmap_cons. apply NoDup_cons. split; [|auto].
  intros (x & Hx & Hin)%list_elem_of_fmap. apply Ha. rewrite Hx. apply list_elem_of_fmap.
  exists x. split; [done|]. by apply list_elem_of_filter in Hin as [_ ?].
Qed.

(** ** Sums over addresses *)

Fixpoint sum_over (f : bytes → Z) (L : list bytes) : Z :=
  match L with [] => 0 | a :: L => f a + sum_over f L end.

#[global] Instance sum_over_perm f : Proper ((≡ₚ) ==> (=)) (sum_over f).
Proof. induction 1; cbn; lia. Qed.

Lemma sum_over_ext f f' L : (∀ a, a ∈ L → f' a = f a) → sum_over f' L = sum_over f L.
Proof. induction L as [|a L IH]; cbn; [done|]. intros H. rewrite (H a), IH by set_solver. done. Qed.

(** Only what is not zero counts. *)
Lemma sum_over_nonzero f L : sum_over f (filter (λ a, f a ≠ 0) L) = sum_over f L.
Proof. induction L as [|a L IH]; [done|]. rewrite filter_cons. case_decide; cbn; rewrite ?IH; lia. Qed.

Lemma sum_over_add f g L : sum_over (λ a, f a + g a) L = sum_over f L + sum_over g L.
Proof. induction L as [|a L IH]; cbn; lia. Qed.

(** [f] with [v] more at [x]. *)
Definition raise (x : bytes) (v : Z) (f : bytes → Z) : bytes → Z := λ y, f y + (if decide (x = y) then v else 0).

Lemma raise_eq x v f : raise x v f x = f x + v.
Proof. unfold raise. by rewrite decide_True. Qed.

Lemma raise_ne x y v f : x ≠ y → raise x v f y = f y.
Proof. intros. unfold raise. rewrite decide_False by done. lia. Qed.

Lemma sum_over_raise x v f L : NoDup L → x ∈ L → sum_over (raise x v f) L = sum_over f L + v.
Proof.
  intros Hnd Hx. induction L as [|a L IH]; [by apply elem_of_nil in Hx|]. apply NoDup_cons in Hnd as [Ha Hnd]. cbn.
  destruct (decide (x = a)) as [->|Hne].
  - rewrite raise_eq, (sum_over_ext f (raise a v f)); [lia|]. intros b Hb. apply raise_ne. by intros ->.
  - rewrite raise_ne, IH by set_solver. lia.
Qed.

Lemma sum_over_zero f L : (∀ a, a ∈ L → f a = 0) → sum_over f L = 0.
Proof. induction L as [|a L IH]; cbn; [done|]. intros H. rewrite (H a), IH by set_solver. done. Qed.
