(* ===== verification/Types.v ===== *)
(** * Consensus data types and the third-party interface

    The records of [consensus/neatpos/types] that travel between the components
    (block ids, part-set headers, votes, validators, commits), the canonical
    forms that are signed, and the class [NeatLib] of what the code calls in the
    packages [github.com/neatlib/common-go], [crypto-go], [wire-go] and
    [merkle-go], whose sources are not part of the repository.  [NeatLibLaws]
    names the documented behaviour of the bit arrays the proofs rely on;
    [toy_lib] is a small executable instance. *)

From Stdlib Require Import ZArith Lia.
From stdpp Require Import base tactics strings numbers gmap list.
From S2P Require Import Prelude.

Local Open Scope Z_scope.

(** ** Addresses (common/types.go)

    32 bytes: longer inputs are cropped from the left, shorter ones padded. *)

Definition NeatAddressLength : nat := 32.

Definition BytesToAddress (b : bytes) : bytes :=
  let b := if (NeatAddressLength <? length b)%nat then drop (length b - NeatAddressLength) b else b in
  replicate (NeatAddressLength - length b) 0 ++ b.

Lemma BytesToAddress_id b : length b = NeatAddressLength → BytesToAddress b = b.
Proof.
  intros H. unfold BytesToAddress. rewrite H. simpl. rewrite H. done.
Qed.

(** ** Part-set headers and block ids (types/part_set.go, types/block.go) *)

Record PartSetHeader := mkPartSetHeader {
  psh_Total : Z;
  psh_Hash : bytes
}.

Definition psh_zero : PartSetHeader := mkPartSetHeader 0 [].

Definition psh_IsZero (psh : PartSetHeader) : bool := psh_Total psh =? 0.

Definition psh_Equals (psh other : PartSetHeader) : bool :=
  (psh_Total psh =? psh_Total other) && bytes_Equal (psh_Hash psh) (psh_Hash other).

Record BlockID := mkBlockID {
  bid_Hash : bytes;
  bid_PartsHeader : PartSetHeader
}.

Definition bid_zero : BlockID := mkBlockID [] psh_zero.

Definition bid_IsZero (blockID : BlockID) : bool :=
  (Z.of_nat (length (bid_Hash blockID)) =? 0) && psh_IsZero (bid_PartsHeader blockID).

Definition bid_Equals (blockID other : BlockID) : bool :=
  bytes_Equal (bid_Hash blockID) (bid_Hash other) &&
  psh_Equals (bid_PartsHeader blockID) (bid_PartsHeader other).

(** ** Canonical forms (types/canonical_json.go) *)

Record CanonicalJSONPartSetHeader := mkCanonicalPSH {
  cpsh_Hash : bytes;
  cpsh_Total : Z
}.

Record CanonicalJSONBlockID := mkCanonicalBID {
  cbid_Hash : bytes;
  cbid_PartsHeader : CanonicalJSONPartSetHeader
}.

Record CanonicalJSONVote := mkCanonicalVote {
  cv_BlockID : CanonicalJSONBlockID;
  cv_Height : Z;
  cv_Round : Z;
  cv_Type : Z
}.

Record CanonicalJSONProposal := mkCanonicalProposal {
  cp_BlockPartsHeader : CanonicalJSONPartSetHeader;
  cp_Height : Z;
  cp_POLBlockID : CanonicalJSONBlockID;
  cp_POLRound : Z;
  cp_Round : Z;
  cp_Hash : bytes
}.

Definition CanonicalPartSetHeader (psh : PartSetHeader) : CanonicalJSONPartSetHeader :=
  mkCanonicalPSH (psh_Hash psh) (psh_Total psh).

Definition CanonicalBlockID (blockID : BlockID) : CanonicalJSONBlockID :=
  mkCanonicalBID (bid_Hash blockID) (CanonicalPartSetHeader (bid_PartsHeader blockID)).

(** ** The third-party interface *)

Class NeatLib := {
  (* common-go: [*BitArray], the nil pointer included *)
  BitArray : Type;
  nilBitArray : BitArray;
  ba_isNil : BitArray → bool;
  NewBitArray : Z → BitArray;
  ba_Size : BitArray → Z;
  ba_GetIndex : BitArray → Z → bool;
  ba_SetIndex : BitArray → Z → bool → BitArray;
  (* crypto-go: keys and BLS signatures; [None] is a nil interface or slice *)
  PubKey : Type;
  Signature : Type;
  PubKey_Equals : PubKey → PubKey → bool;
  Signature_Equals : option Signature → option Signature → bool;
  VerifyBytes : PubKey → bytes → option Signature → bool;
  BLSPubKeyAggregate : list PubKey → option PubKey;
  BLSSignatureAggregate : list (option Signature) → option Signature;
  (* wire-go encoders *)
  wire_BinaryBytes_PSH : PartSetHeader → bytes;
  wire_JSON_OnceVote : string → CanonicalJSONVote → bytes;
  wire_JSON_OnceProposal : string → CanonicalJSONProposal → bytes;
}.

(** What the code relies on of [common-go]'s bit arrays: a new array is clear,
    setting a bit changes that bit only, and an index out of range is ignored. *)
Class NeatLibLaws {LIB : NeatLib} : Prop := {
  ba_nil_spec : ba_isNil nilBitArray = true;
  ba_new_nonnil n : 0 < n → ba_isNil (NewBitArray n) = false;
  ba_size_range b : in_u64 (ba_Size b);
  ba_new_size n : in_u64 n → ba_Size (NewBitArray n) = n;
  ba_new_get n i : ba_GetIndex (NewBitArray n) i = false;
  ba_set_size b i v : ba_Size (ba_SetIndex b i v) = ba_Size b;
  ba_set_nil b i v : ba_isNil (ba_SetIndex b i v) = ba_isNil b;
  ba_set_get_eq b i v : 0 <= i < ba_Size b → ba_GetIndex (ba_SetIndex b i v) i = v;
  ba_set_get_ne b i j v : i ≠ j → ba_GetIndex (ba_SetIndex b i v) j = ba_GetIndex b j;
}.

(** ** Votes, validators, proposals, commits *)

Section types.
Context {LIB : NeatLib}.

(** [BlockID.Key]: the hash followed by the encoded parts header. *)
Definition bid_Key (blockID : BlockID) : bytes :=
  bid_Hash blockID ++ wire_BinaryBytes_PSH (bid_PartsHeader blockID).

Record Validator := mkValidator {
  v_Address : bytes;
  v_PubKey : PubKey;
  v_VotingPower : Z;
  v_RemainingEpoch : Z
}.

Definition NewValidator (address : bytes) (pubKey : PubKey) (votingPower : Z) : Validator :=
  mkValidator address pubKey votingPower 0.

Definition v_Equals (v other : Validator) : bool :=
  bytes_Equal (v_Address v) (v_Address other) &&
  PubKey_Equals (v_PubKey v) (v_PubKey other) &&
  (v_VotingPower v =? v_VotingPower other).

Definition VoteTypePrevote : Z := 1.
Definition VoteTypePrecommit : Z := 2.

Definition IsVoteTypeValid (type_ : Z) : bool :=
  (type_ =? VoteTypePrevote) || (type_ =? VoteTypePrecommit).

Record Vote := mkVote {
  vote_ValidatorAddress : bytes;
  vote_ValidatorIndex : Z;
  vote_Height : Z;
  vote_Round : Z;
  vote_Type : Z;
  vote_BlockID : BlockID;
  vote_Signature : option Signature;
  vote_SignBytes : bytes
}.

Definition CanonicalVote (vote : Vote) : CanonicalJSONVote :=
  mkCanonicalVote (CanonicalBlockID (vote_BlockID vote)) (vote_Height vote)
    (vote_Round vote) (vote_Type vote).

(** [SignBytes(chainID, vote)]: what a validator signs. *)
Definition SignBytes_Vote (chainID : string) (vote : Vote) : bytes :=
  wire_JSON_OnceVote chainID (CanonicalVote vote).

Record Proposal := mkProposal {
  prop_NodeID : string;
  prop_Height : Z;
  prop_Round : Z;
  prop_Hash : bytes;
  prop_BlockPartsHeader : PartSetHeader;
  prop_POLRound : Z;
  prop_POLBlockID : BlockID;
  prop_ProposerNetAddr : string;
  prop_ProposerPeerKey : string;
  prop_Signature : option Signature
}.

Definition NewProposal (height round : Z) (hash : bytes) (blockPartsHeader : PartSetHeader)
    (polRound : Z) (polBlockID : BlockID) (peerKey : string) : Proposal :=
  mkProposal "" height round hash blockPartsHeader polRound polBlockID "" peerKey None.

(** [CanonicalProposal] leaves the [Hash] field of the canonical form empty. *)
Definition CanonicalProposal (proposal : Proposal) : CanonicalJSONProposal :=
  mkCanonicalProposal (CanonicalPartSetHeader (prop_BlockPartsHeader proposal))
    (prop_Height proposal) (CanonicalBlockID (prop_POLBlockID proposal))
    (prop_POLRound proposal) (prop_Round proposal) [].

Definition SignBytes_Proposal (chainID : string) (proposal : Proposal) : bytes :=
  wire_JSON_OnceProposal chainID (CanonicalProposal proposal).

Record Commit := mkCommit {
  commit_BlockID : BlockID;
  commit_Height : Z;
  commit_Round : Z;
  commit_SignAggr : option Signature;
  commit_BitArray : BitArray
}.

Definition commit_Type (commit : Commit) : Z := VoteTypePrecommit.

End types.

(** ** Lemmas *)

Lemma psh_Equals_true a b : psh_Equals a b = true ↔ a = b.
Proof.
  destruct a, b. unfold psh_Equals. simpl.
  rewrite andb_true_iff, Z.eqb_eq, bytes_Equal_true. naive_solver.
Qed.

Lemma bid_Equals_true a b : bid_Equals a b = true ↔ a = b.
Proof.
  destruct a, b. unfold bid_Equals. simpl.
  rewrite andb_true_iff, bytes_Equal_true, psh_Equals_true. naive_solver.
Qed.

Lemma bid_Equals_refl b : bid_Equals b b = true.
Proof. by apply bid_Equals_true. Qed.

Global Instance PartSetHeader_eq_dec : EqDecision PartSetHeader.
Proof. solve_decision. Defined.

Global Instance BlockID_eq_dec : EqDecision BlockID.
Proof. solve_decision. Defined.

(** ** An executable instance

    Bit arrays are lists of booleans (the empty one is nil), an aggregated key
    is the list of its members, and a signature is the list of signers together
    with the signed message. *)

Definition string_bytes (s : string) : bytes :=
  (λ a, Z.of_nat (Ascii.nat_of_ascii a)) <$> String.list_ascii_of_string s.

Definition frame (b : bytes) : bytes := Z.of_nat (length b) :: b.

Definition toy_BID (b : CanonicalJSONBlockID) : bytes :=
  frame (cbid_Hash b) ++ cpsh_Total (cbid_PartsHeader b) :: frame (cpsh_Hash (cbid_PartsHeader b)).

Definition toy_lib : NeatLib := {|
  BitArray := list bool;
  nilBitArray := [];
  ba_isNil b := bool_decide (b = []);
  NewBitArray n := replicate (Z.to_nat n) false;
  ba_Size b := u64 (Z.of_nat (length b));
  ba_GetIndex b i := if i <? 0 then false else default false (b !! Z.to_nat i);
  ba_SetIndex b i v := if i <? 0 then b else <[Z.to_nat i := v]> b;
  PubKey := list Z;
  Signature := list Z * bytes;
  PubKey_Equals a b := bool_decide (a = b);
  Signature_Equals a b := bool_decide (a = b);
  VerifyBytes pk msg sig := bool_decide (sig = Some (pk, msg));
  BLSPubKeyAggregate pks := match pks with [] => None | _ => Some (concat pks) end;
  BLSSignatureAggregate sigs :=
    match omap id sigs with
    | [] => None
    | (s, m) :: rest => Some (s ++ concat (rest.*1), m)
    end;
  wire_BinaryBytes_PSH psh := psh_Total psh :: frame (psh_Hash psh);
  wire_JSON_OnceVote chain v :=
    frame (string_bytes chain) ++ toy_BID (cv_BlockID v) ++ [cv_Height v; cv_Round v; cv_Type v];
  wire_JSON_OnceProposal chain p :=
    frame (string_bytes chain) ++ toy_BID (cp_POLBlockID p) ++
    cpsh_Total (cp_BlockPartsHeader p) :: frame (cpsh_Hash (cp_BlockPartsHeader p)) ++
    [cp_Height p; cp_POLRound p; cp_Round p]
|}.

Global Instance toy_laws : @NeatLibLaws toy_lib.
Proof.
  split; simpl; intros *.
  - done.
  - intros H. apply bool_decide_eq_false.
    destruct (Z.to_nat n) eqn:E; [lia|done].
  - apply u64_range.
  - intros H. rewrite length_replicate, u64_small; unfold in_u64 in *; lia.
  - destruct (i <? 0) eqn:Ei; [done|].
    destruct (replicate _ _ !! _) eqn:E; [|done].
    by apply lookup_replicate in E as [-> _].
  - destruct (i <? 0); [done|]. by rewrite length_insert.
  - destruct (i <? 0); [done|]. by destruct b, (Z.to_nat i).
  - intros H. destruct (Z.ltb_spec i 0); [lia|].
    rewrite list_lookup_insert_eq; [done|].
    unfold u64 in H. pose proof (Z.mod_le (Z.of_nat (length b)) (2 ^ 64)). lia.
  - intros H. destruct (Z.ltb_spec i 0); [done|].
    destruct (Z.ltb_spec j 0); [done|].
    by rewrite list_lookup_insert_ne by lia.
Qed.
