(* ===== verification/ValidatorSet.v ===== *)
(** * Validator sets and commits (consensus/neatpos/types/validator_set.go)

    The quorum threshold of [vote_set.go], the validator set with its lookups
    and updates, the tally of a bit array and the verification of a commit.
    The theorems: the threshold is the formula its comment gives and lies
    between half and all of the power, a tally is the power of the marked
    validators, [VerifyCommit] accepts exactly the commits with a valid aggregate
    signature of a quorum, and two accepted commits share voting power. *)

From Stdlib Require Import ZArith Lia.
From stdpp Require Import base tactics strings numbers gmap list.
From S2P Require Import Prelude Types.

Local Open Scope Z_scope.

(** ** The quorum threshold (vote_set.go) *)

Definition LooseRound : Z := 30.
Definition HalfLooseRound : Z := 15.

Definition Loose23MajorThreshold (totalVotingPower round : Z) : Z :=
  let round := if HalfLooseRound <=? round then HalfLooseRound else round in
  let quorum1 := totalVotingPower * i64 (2 * LooseRound - round) in
  let quorum1 := quorum1 + 3 * LooseRound in
  quorum1 / (3 * LooseRound).

(** ** The validator set *)

Section validator_set.
Context {LIB : NeatLib}.

(** [Validators] is a slice of pointers; [None] is the nil slice. *)
Record ValidatorSet := mkValidatorSet {
  vs_Validators : option (list Validator);
  vs_totalVotingPower : option Z
}.

Definition vals (valSet : ValidatorSet) : list Validator := default [] (vs_Validators valSet).

Definition vs_Size (valSet : ValidatorSet) : Z := Z.of_nat (length (vals valSet)).

(** [sort.Sort(ValidatorsByAddress(...))], as an insertion sort. *)
Definition ValidatorsByAddress_Less (a b : Validator) : bool :=
  bytes_Compare (v_Address a) (v_Address b) =? -1.

Fixpoint insert_by_address (v : Validator) (l : list Validator) : list Validator :=
  match l with
  | [] => [v]
  | w :: l' => if ValidatorsByAddress_Less w v then w :: insert_by_address v l' else v :: l
  end.

Definition NewValidatorSet (vs : list Validator) : ValidatorSet :=
  mkValidatorSet (Some (foldr insert_by_address [] vs)) None.

(** The search loop shared by [GetByAddress], [Add] and [Remove]. *)
Fixpoint index_of (address : bytes) (l : list Validator) (i : Z) : Z :=
  match l with
  | [] => -1
  | v :: l' =>
      if bytes_Compare address (v_Address v) =? 0 then i else index_of address l' (i + 1)
  end.

Definition HasAddress (valSet : ValidatorSet) (address : bytes) : bool :=
  existsb (λ v, bytes_Compare address (v_Address v) =? 0) (vals valSet).

Definition GetByAddress (valSet : ValidatorSet) (address : bytes) : Z * option Validator :=
  let idx := index_of address (vals valSet) 0 in
  if negb (idx =? -1) then (idx, vals valSet !! Z.to_nat idx) else (0, None).

(** [GetByIndex] indexes the slice: there is no range check. *)
Definition GetByIndex (valSet : ValidatorSet) (index : Z) : outcome (bytes * Validator) :=
  val ← slice_get (vals valSet) index;
  mret (v_Address val, val).

Definition TotalVotingPower (valSet : ValidatorSet) : Z := i64 (vs_Size valSet).

Definition vs_Equals (valSet other : ValidatorSet) : bool :=
  if negb (Nat.eqb (length (vals valSet)) (length (vals other))) then false
  else forallb (λ v,
         match GetByAddress valSet (v_Address v) with
         | (_, None) => false
         | (_, Some val) => v_Equals val v
         end) (vals other).

Definition vs_Add (valSet : ValidatorSet) (val : Validator) : ValidatorSet * bool :=
  let idx := index_of (v_Address val) (vals valSet) 0 in
  if idx =? -1 then (mkValidatorSet (Some (vals valSet ++ [val])) None, true)
  else (valSet, false).

Definition vs_Update (valSet : ValidatorSet) (val : Validator) : ValidatorSet * bool :=
  match GetByAddress valSet (v_Address val) with
  | (_, None) => (valSet, false)
  | (index, Some _) =>
      (mkValidatorSet (Some (<[Z.to_nat index := val]> (vals valSet))) None, true)
  end.

(** The visible result of [Remove]; its effect on the shared backing array is
    modelled where a caller iterates over it. *)
Definition vs_Remove (valSet : ValidatorSet) (address : bytes)
    : ValidatorSet * option Validator * bool :=
  let idx := index_of address (vals valSet) 0 in
  if idx =? -1 then (valSet, None, false)
  else
    let removedVal := vals valSet !! Z.to_nat idx in
    let newValidators :=
      if idx + 1 <? vs_Size valSet
      then take (Z.to_nat idx) (vals valSet) ++ drop (Z.to_nat (idx + 1)) (vals valSet)
      else take (Z.to_nat idx) (vals valSet) in
    (mkValidatorSet (Some newValidators) None, removedVal, true).

(** ** Tallies over a bit array *)

Inductive TallyErr := InvalidBitmapNil | InvalidValidatorsNil | SizeNotEqual.

(** The sums [(powerSum, votesSum, totalVotes)], or an error. *)
Definition TalliedVotingPower (valSet : ValidatorSet) (bitMap : BitArray)
    : outcome ((Z * Z * Z) + TallyErr) :=
  if ba_isNil bitMap then mret (inr InvalidBitmapNil)
  else match vs_Validators valSet with
  | None => mret (inr InvalidValidatorsNil)
  | Some validators =>
      if negb (vs_Size valSet =? i64 (ba_Size bitMap)) then mret (inr SizeNotEqual)
      else
        sums ← for_loop (Z.to_nat (ba_Size bitMap)) 0
          (λ i '(powerSum, votesSum, totalVotes),
             v ← slice_get validators i;
             let '(powerSum, votesSum) :=
               if ba_GetIndex bitMap i
               then (powerSum + 1, votesSum + v_VotingPower v) else (powerSum, votesSum) in
             mret (powerSum, votesSum, totalVotes + v_VotingPower v))
          (0, 0, 0);
        mret (inl sums)
  end.

Definition AggrPubKey (valSet : ValidatorSet) (bitMap : BitArray) : outcome (option PubKey) :=
  if ba_isNil bitMap then mret None
  else if negb (i64 (ba_Size bitMap) =? vs_Size valSet) then mret None
  else
    pks ← for_loop (Z.to_nat (ba_Size bitMap)) 0
      (λ i pks, if ba_GetIndex bitMap i
                then v ← slice_get (vals valSet) i; mret (pks ++ [v_PubKey v])
                else mret pks) [];
    mret (BLSPubKeyAggregate pks).

(** ** Commit verification *)

Inductive CommitErr :=
| InvalidCommitNil | WrongSetSize | WrongHeight | WrongSignature
| TallyError (e : TallyErr) | InsufficientPower.

(** The vote an aggregate signature stands for. *)
Definition aggregate_vote (blockID : BlockID) (height round type_ : Z) : Vote :=
  mkVote [] 0 height (u64 round) type_ blockID None [].

Definition VerifyCommit (valSet : ValidatorSet) (chainID : string) (height : Z)
    (commit : option Commit) : outcome (option CommitErr) :=
  match commit with
  | None => mret (Some InvalidCommitNil)
  | Some commit =>
      if negb (u64 (vs_Size valSet) =? ba_Size (commit_BitArray commit))
      then mret (Some WrongSetSize)
      else if negb (height =? commit_Height commit) then mret (Some WrongHeight)
      else
        pubKey ← AggrPubKey valSet (commit_BitArray commit);
        match pubKey with
        | None => Panic "nil pointer dereference"
        | Some pubKey =>
            let vote := aggregate_vote (commit_BlockID commit) (commit_Height commit)
                          (commit_Round commit) (commit_Type commit) in
            if negb (VerifyBytes pubKey (SignBytes_Vote chainID vote) (commit_SignAggr commit))
            then mret (Some WrongSignature)
            else
              t ← TalliedVotingPower valSet (commit_BitArray commit);
              match t with
              | inr e => mret (Some (TallyError e))
              | inl (_, votesSum, totalVotes) =>
                  let quorum := Loose23MajorThreshold totalVotes (commit_Round commit) in
                  if quorum <=? votesSum then mret None else mret (Some InsufficientPower)
              end
        end
  end.

(** ** Specification-level views *)

(** The powers by index, their total, and the marked positions of a bit array. *)
Definition powers (valSet : ValidatorSet) : list Z := v_VotingPower <$> vals valSet.
Definition total_power (valSet : ValidatorSet) : Z := sumZ (powers valSet).
Definition marked (b : BitArray) (i : nat) : bool := ba_GetIndex b (Z.of_nat i).

(** The keys of the marked validators, in index order. *)
Definition marked_keys (valSet : ValidatorSet) (b : BitArray) : list PubKey :=
  omap id (imap (λ i v, if marked b i then Some (v_PubKey v) else None) (vals valSet)).

(** Powers are token amounts: never negative. *)
Definition powers_nonneg (valSet : ValidatorSet) : Prop := Forall (λ p, 0 <= p) (powers valSet).

Definition addresses (valSet : ValidatorSet) : list bytes := v_Address <$> vals valSet.

End validator_set.

(** ** The threshold *)

(** For a round the code can be in, [Loose23MajorThreshold] without the clamp. *)
Lemma threshold_unfold T r :
  0 <= r < 2 ^ 63 →
  Loose23MajorThreshold T r = (T * (60 - Z.min r 15) + 90) / 90.
Proof.
  intros Hr. unfold Loose23MajorThreshold, HalfLooseRound, LooseRound.
  destruct (Z.leb_spec 15 r) as [H|H].
  - rewrite i64_small by (unfold in_i64; lia). by rewrite Z.min_r by lia.
  - rewrite i64_small by (unfold in_i64; lia). by rewrite Z.min_l by lia.
Qed.

Lemma threshold_lower T r :
  0 <= r < 2 ^ 63 → T * (60 - Z.min r 15) < 90 * Loose23MajorThreshold T r.
Proof.
  intros Hr. rewrite threshold_unfold by done.
  generalize (T * (60 - Z.min r 15)). intros x. dlia.
Qed.

Lemma threshold_pos T r :
  0 <= T → 0 <= r < 2 ^ 63 → 0 < Loose23MajorThreshold T r.
Proof. intros HT Hr. pose proof (threshold_lower T r Hr). nia. Qed.

(** For every total and every round of an int the quorum equals the closed form
    max(((60 - r) T + 90) / 90, T / 2 + 1). *)
Theorem Loose23MajorThreshold_formula T r :
  0 <= T → 0 <= r < 2 ^ 63 →
  Loose23MajorThreshold T r =
    Z.max (((2 * LooseRound - r) * T + 3 * LooseRound) / (3 * LooseRound)) (T / 2 + 1).
Proof.
  intros HT Hr. rewrite threshold_unfold by done. unfold LooseRound.
  destruct (Z.le_gt_cases r 15) as [H|H].
  - rewrite Z.min_l by lia. rewrite Z.max_l; [f_equal; lia|].
    assert (T / 2 + 1 = (T * 45 + 90) / 90) as -> by dlia.
    apply Z.div_le_mono; nia.
  - rewrite Z.min_r by lia. rewrite Z.max_r; [dlia|].
    assert (T / 2 + 1 = (T * 45 + 90) / 90) as -> by dlia.
    apply Z.div_le_mono; nia.
Qed.

(** C40. The quorum of a round is always more than half of the power, never grows with
    the round, never exceeds two thirds plus one nor the total, and is exactly two
    thirds plus one at round 0. *)
Theorem Loose23MajorThreshold_bounds T r r' :
  0 < T → 0 <= r <= r' → r' < 2 ^ 63 →
  T / 2 < Loose23MajorThreshold T r' ∧
  Loose23MajorThreshold T r' <= Loose23MajorThreshold T r ∧
  Loose23MajorThreshold T r <= T * 2 / 3 + 1 ∧
  Loose23MajorThreshold T r <= T ∧
  Loose23MajorThreshold T 0 = T * 2 / 3 + 1.
Proof.
  intros HT Hr Hr'. rewrite !threshold_unfold by lia.
  replace (Z.min 0 15) with 0 by lia.
  assert (T / 2 + 1 = (T * 45 + 90) / 90) as H2 by dlia.
  assert (T * 2 / 3 + 1 = (T * 60 + 90) / 90) as H3 by dlia.
  rewrite H3. replace (60 - 0) with 60 by lia. repeat split.
  - enough ((T * 45 + 90) / 90 <= (T * (60 - Z.min r' 15) + 90) / 90) by lia.
    apply Z.div_le_mono; nia.
  - apply Z.div_le_mono; nia.
  - apply Z.div_le_mono; nia.
  - transitivity ((T * 60 + 90) / 90); [apply Z.div_le_mono; nia|]. clear -HT. dlia.
Qed.

(** ** Tallies *)

Section tally_props.
Context {LIB : NeatLib} {LAWS : NeatLibLaws}.

Lemma length_powers valSet : Z.of_nat (length (powers valSet)) = vs_Size valSet.
Proof. unfold powers, vs_Size. by rewrite length_fmap. Qed.

Lemma powers_lookup valSet i v :
  vals valSet !! i = Some v → powers valSet !! i = Some (v_VotingPower v).
Proof. intros H. unfold powers. by rewrite list_lookup_fmap, H. Qed.

(** [int(bitMap.Size())] is compared with a slice length. *)
Lemma i64_size_eq valSet b :
  vs_Size valSet < 2 ^ 63 →
  (vs_Size valSet =? i64 (ba_Size b)) = (vs_Size valSet =? ba_Size b).
Proof.
  intros Hn. pose proof (ba_size_range b) as Hb. unfold in_u64 in Hb.
  assert (0 <= vs_Size valSet) by (unfold vs_Size; lia).
  apply eq_bool_prop_intro. rewrite !Is_true_true, !Z.eqb_eq. split; intros H1.
  - rewrite <-(u64_i64 (ba_Size b)), <-H1 by done. by rewrite u64_small by (unfold in_u64; lia).
  - rewrite <-H1, i64_small; [done|unfold in_i64; lia].
Qed.

(** The loop of [TalliedVotingPower] computes the three weighted sums. *)
Lemma tally_loop validators tvp b :
  let valSet := mkValidatorSet (Some validators) tvp in
  for_loop (Z.to_nat (vs_Size valSet)) 0
    (λ i '(powerSum, votesSum, totalVotes),
       v ← slice_get validators i;
       let '(powerSum, votesSum) :=
         if ba_GetIndex b i
         then (powerSum + 1, votesSum + v_VotingPower v) else (powerSum, votesSum) in
       mret (powerSum, votesSum, totalVotes + v_VotingPower v)) (0, 0, 0)
  = Ret (tally (marked b) (replicate (length validators) 1),
         tally (marked b) (powers valSet), total_power valSet).
Proof.
  intros valSet. set (ones := replicate (length validators) 1).
  edestruct (for_loop_inv (λ j s,
    s = (tally (λ x, (Z.of_nat x <? j) && marked b x) ones,
         tally (λ x, (Z.of_nat x <? j) && marked b x) (powers valSet),
         tally (λ x, (Z.of_nat x <? j) && true) (powers valSet))))
    as (s' & -> & ->); cycle 2.
  - rewrite Z.add_0_l, Z2Nat.id by (unfold vs_Size; lia).
    unfold ones, total_power. rewrite <-tally_true, !tally_below; [done|..].
    + by rewrite length_powers.
    + by rewrite length_powers.
    + rewrite length_replicate. unfold vs_Size, vals, valSet. simpl. lia.
  - by rewrite !tally_none_below.
  - intros j t Hj ->. assert (0 <= j < Z.of_nat (length validators)) as Hj'.
    { unfold vs_Size, vals, valSet in Hj. simpl in Hj. lia. }
    destruct (slice_get_lookup validators j Hj') as (v & Hget & Hv).
    rewrite Hget. simpl.
    assert (powers valSet !! Z.to_nat j = Some (v_VotingPower v)) as Hp by by apply powers_lookup.
    assert (ones !! Z.to_nat j = Some 1) as H1 by (apply lookup_replicate_2; lia).
    rewrite !(tally_step _ _ _ _ (proj1 Hj') Hp), (tally_step _ _ _ _ (proj1 Hj') H1).
    assert (marked b (Z.to_nat j) = ba_GetIndex b j) as ->.
    { unfold marked. by rewrite Z2Nat.id by lia. }
    destruct (ba_GetIndex b j); (eexists; split; [reflexivity|]);
      rewrite ?Z.add_0_r; reflexivity.
Qed.

Lemma TalliedVotingPower_spec valSet b :
  vs_Size valSet < 2 ^ 63 →
  TalliedVotingPower valSet b = Ret (
    if ba_isNil b then inr InvalidBitmapNil
    else if bool_decide (vs_Validators valSet = None) then inr InvalidValidatorsNil
    else if negb (vs_Size valSet =? ba_Size b) then inr SizeNotEqual
    else inl (tally (marked b) (replicate (length (vals valSet)) 1),
              tally (marked b) (powers valSet), total_power valSet)).
Proof.
  intros Hn. unfold TalliedVotingPower. destruct (ba_isNil b); [done|].
  destruct valSet as [[validators|] tvp]; [|done]. cbn [vs_Validators].
  rewrite i64_size_eq by done. case_bool_decide; [done|].
  destruct (Z.eqb_spec (vs_Size (mkValidatorSet (Some validators) tvp)) (ba_Size b))
    as [He|He]; [|done].
  simpl negb. cbv iota. rewrite <-He, tally_loop. done.
Qed.

Lemma aggr_loop valSet b :
  for_loop (length (vals valSet)) 0
    (λ i pks, if ba_GetIndex b i
              then v ← slice_get (vals valSet) i; mret (pks ++ [v_PubKey v])
              else mret pks) []
  = Ret (marked_keys valSet b).
Proof.
  set (f := λ i v, if marked b i then Some (v_PubKey v) else None).
  edestruct (for_loop_inv (λ j pks, pks = omap id (imap f (take (Z.to_nat j) (vals valSet)))))
    as (s' & Hs & Hp); cycle 2.
  - rewrite Hs. f_equal. rewrite Hp, Z.add_0_l, Nat2Z.id, firstn_all. reflexivity.
  - done.
  - intros j t Hj ->. rewrite Z.add_0_l in Hj.
    destruct (slice_get_lookup (vals valSet) j Hj) as (v & Hget & Hv).
    replace (Z.to_nat (j + 1)) with (S (Z.to_nat j)) by lia.
    rewrite (take_S_r _ _ _ Hv), imap_app, omap_app, length_take_le
      by (apply lookup_lt_Some in Hv; lia).
    simpl. assert (f (Z.to_nat j + 0)%nat v =
      if ba_GetIndex b j then Some (v_PubKey v) else None) as ->.
    { unfold f, marked. by replace (Z.of_nat (Z.to_nat j + 0)) with j by lia. }
    destruct (ba_GetIndex b j); simpl.
    + rewrite Hget. simpl. by eexists.
    + rewrite app_nil_r. by eexists.
Qed.

Lemma AggrPubKey_spec valSet b :
  vs_Size valSet < 2 ^ 63 →
  AggrPubKey valSet b = Ret (
    if ba_isNil b || negb (vs_Size valSet =? ba_Size b) then None
    else BLSPubKeyAggregate (marked_keys valSet b)).
Proof.
  intros Hn. unfold AggrPubKey. destruct (ba_isNil b); [done|].
  rewrite Z.eqb_sym, i64_size_eq by done. simpl orb.
  destruct (Z.eqb_spec (vs_Size valSet) (ba_Size b)) as [He|He]; [|done].
  simpl negb. cbv iota. rewrite <-He. unfold vs_Size at 1. rewrite Nat2Z.id.
  by rewrite aggr_loop.
Qed.

(** A bit array that marks a quorum of [valSet] at [round]. *)
Definition quorum_marked (valSet : ValidatorSet) (b : BitArray) (round : Z) : Prop :=
  ba_isNil b = false ∧ ba_Size b = vs_Size valSet ∧
  Loose23MajorThreshold (total_power valSet) round <= tally (marked b) (powers valSet).

(** [sig] is a valid aggregate signature of the marked validators on [msg]. *)
Definition aggregate_signed (valSet : ValidatorSet) (b : BitArray) (msg : bytes)
    (sig : option Signature) : Prop :=
  ∃ pk, BLSPubKeyAggregate (marked_keys valSet b) = Some pk ∧ VerifyBytes pk msg sig = true.

Lemma VerifyCommit_spec valSet chainID height c :
  vs_Size valSet < 2 ^ 63 → vs_Validators valSet ≠ None →
  VerifyCommit valSet chainID height (Some c) = Ret None ↔
    height = commit_Height c ∧
    quorum_marked valSet (commit_BitArray c) (commit_Round c) ∧
    aggregate_signed valSet (commit_BitArray c)
      (SignBytes_Vote chainID (aggregate_vote (commit_BlockID c) (commit_Height c)
         (commit_Round c) VoteTypePrecommit))
      (commit_SignAggr c).
Proof.
  intros Hn Hnil. unfold VerifyCommit, quorum_marked, aggregate_signed, commit_Type.
  rewrite AggrPubKey_spec, TalliedVotingPower_spec by done.
  rewrite (bool_decide_eq_false_2 (vs_Validators valSet = None)) by done.
  rewrite u64_small by (unfold in_u64, vs_Size in *; lia).
  destruct (Z.eqb_spec (vs_Size valSet) (ba_Size (commit_BitArray c))) as [He|He];
    [|simpl; naive_solver congruence].
  destruct (Z.eqb_spec height (commit_Height c)) as [Hh|Hh]; [|simpl; naive_solver].
  simpl. destruct (ba_isNil (commit_BitArray c)); [simpl; naive_solver|]. simpl.
  destruct (BLSPubKeyAggregate _) as [pk|]; [|naive_solver].
  destruct (VerifyBytes pk _ _) eqn:Hv; simpl; [|naive_solver congruence].
  destruct (Z.leb_spec (Loose23MajorThreshold (total_power valSet) (commit_Round c))
    (tally (marked (commit_BitArray c)) (powers valSet))); naive_solver lia.
Qed.

(** Two quorums of the same set share voting power. *)
Lemma quorum_overlap valSet b1 b2 r1 r2 :
  powers_nonneg valSet → 0 <= r1 < 2 ^ 63 → 0 <= r2 < 2 ^ 63 →
  quorum_marked valSet b1 r1 → quorum_marked valSet b2 r2 →
  (30 - Z.min r1 15 - Z.min r2 15) * total_power valSet <
    90 * tally (λ i, marked b1 i && marked b2 i) (powers valSet).
Proof.
  intros Hp Hr1 Hr2 (_ & _ & H1) (_ & _ & H2).
  pose proof (tally_union (marked b1) (marked b2) (powers valSet)).
  pose proof (tally_le_total (λ i, marked b1 i || marked b2 i) _ Hp).
  pose proof (threshold_lower (total_power valSet) r1 Hr1).
  pose proof (threshold_lower (total_power valSet) r2 Hr2).
  unfold total_power in *. nia.
Qed.

Lemma quorum_common_signer valSet b1 b2 r1 r2 :
  powers_nonneg valSet → 0 <= r1 < 2 ^ 63 → 0 <= r2 < 2 ^ 63 →
  quorum_marked valSet b1 r1 → quorum_marked valSet b2 r2 →
  ∃ i v, vals valSet !! i = Some v ∧ 0 < v_VotingPower v ∧
    marked b1 i = true ∧ marked b2 i = true.
Proof.
  intros Hp Hr1 Hr2 Hq1 Hq2. pose proof (quorum_overlap _ _ _ _ _ Hp Hr1 Hr2 Hq1 Hq2) as Ho.
  assert (0 <= total_power valSet) as HT
    by (unfold total_power; rewrite <-tally_true; by apply tally_nonneg).
  destruct (tally_pos (λ i, marked b1 i && marked b2 i) (powers valSet))
    as (i & p & Hi & Hm & Hpos); [nia|].
  unfold powers in Hi. apply list_lookup_fmap_Some in Hi as (v & -> & Hv).
  apply andb_true_iff in Hm as [Hm1 Hm2]. by exists i, v.
Qed.

(** C9. Two commits that VerifyCommit accepts for the same validator set and height
    always share a signer with positive power, and the power signed by both exceeds (30
    - min(r1,15) - min(r2,15))/90 of the total: more than a third at round 0, still
    positive once the quorum is relaxed. *)
Theorem verified_commits_share_a_signer valSet chainID height c1 c2 :
  vs_Size valSet < 2 ^ 63 → vs_Validators valSet ≠ None → powers_nonneg valSet →
  0 <= commit_Round c1 < 2 ^ 63 → 0 <= commit_Round c2 < 2 ^ 63 →
  VerifyCommit valSet chainID height (Some c1) = Ret None →
  VerifyCommit valSet chainID height (Some c2) = Ret None →
  (30 - Z.min (commit_Round c1) 15 - Z.min (commit_Round c2) 15) * total_power valSet <
    90 * tally (λ i, marked (commit_BitArray c1) i && marked (commit_BitArray c2) i)
           (powers valSet) ∧
  ∃ i v, vals valSet !! i = Some v ∧ 0 < v_VotingPower v ∧
    marked (commit_BitArray c1) i = true ∧ marked (commit_BitArray c2) i = true.
Proof.
  intros Hn Hnil Hp Hr1 Hr2 (_ & Hq1 & _)%VerifyCommit_spec
    (_ & Hq2 & _)%VerifyCommit_spec; [|done..].
  split; [by apply quorum_overlap|exact (quorum_common_signer _ _ _ _ _ Hp Hr1 Hr2 Hq1 Hq2)].
Qed.

End tally_props.

(** ** A validator set is a finite map from addresses

    [as_map] forgets the order of the slice; on sets without duplicate addresses
    [Add], [Update] and [Remove] are the map operations. *)

Section map_view.
Context {LIB : NeatLib}.

Definition as_map (valSet : ValidatorSet) : gmap bytes Validator :=
  list_to_map ((λ v, (v_Address v, v)) <$> vals valSet).

Definition no_dup (valSet : ValidatorSet) : Prop := NoDup (addresses valSet).

Lemma index_of_spec a l i :
  0 <= i →
  (index_of a l i = -1 ∧ a ∉ v_Address <$> l) ∨
  (∃ k v, index_of a l i = i + Z.of_nat k ∧ l !! k = Some v ∧ v_Address v = a).
Proof.
  revert i. induction l as [|w l IH]; intros i Hi; simpl.
  - left. split; [done|]. apply not_elem_of_nil.
  - destruct (Z.eqb_spec (bytes_Compare a (v_Address w)) 0) as [E|E].
    + right. exists O, w. apply bytes_Compare_0 in E. naive_solver lia.
    + destruct (IH (i + 1)) as [[-> Hn]|(k & v & -> & Hk & Hv)]; [lia|left|right].
      * split; [done|]. rewrite not_elem_of_cons. split; [|done].
        intros ->. apply E. by apply bytes_Compare_0.
      * exists (S k), v. split; [lia|done].
Qed.

Lemma as_map_lookup_None valSet a : as_map valSet !! a = None ↔ a ∉ addresses valSet.
Proof.
  unfold as_map, addresses. rewrite <-not_elem_of_list_to_map.
  by rewrite <-list_fmap_compose.
Qed.

Lemma as_map_lookup valSet k v :
  no_dup valSet → vals valSet !! k = Some v → as_map valSet !! v_Address v = Some v.
Proof.
  intros Hnd Hk. apply elem_of_list_to_map_1.
  - by rewrite <-list_fmap_compose.
  - apply list_elem_of_fmap. exists v. split; [done|]. by eapply list_elem_of_lookup_2.
Qed.

Lemma GetByAddress_lookup valSet a :
  no_dup valSet → snd (GetByAddress valSet a) = as_map valSet !! a.
Proof.
  intros Hnd. unfold GetByAddress.
  destruct (index_of_spec a (vals valSet) 0) as [[-> Hn]|(k & v & -> & Hk & <-)]; [lia|..].
  - symmetry. by apply as_map_lookup_None.
  - rewrite Z.add_0_l. destruct (Z.eqb_spec (Z.of_nat k) (-1)); [lia|].
    simpl snd. by rewrite Nat2Z.id, Hk, (as_map_lookup _ _ _ Hnd Hk).
Qed.

(** [Remove] cuts one element out of the slice. *)
Lemma vs_Remove_found valSet a k v :
  index_of a (vals valSet) 0 = Z.of_nat k → vals valSet !! k = Some v →
  vs_Remove valSet a = (mkValidatorSet (Some (delete k (vals valSet))) None, Some v, true).
Proof.
  intros Hi Hk. unfold vs_Remove. rewrite Hi.
  destruct (Z.eqb_spec (Z.of_nat k) (-1)); [lia|].
  rewrite Nat2Z.id, Hk. repeat f_equal. rewrite delete_take_drop.
  replace (Z.to_nat (Z.of_nat k + 1)) with (S k) by lia. unfold vs_Size.
  destruct (Z.ltb_spec (Z.of_nat k + 1) (Z.of_nat (length (vals valSet)))); [done|].
  rewrite (drop_ge _ (S k)) by lia. by rewrite app_nil_r.
Qed.

Lemma vals_Some l t : vals (mkValidatorSet (Some l) t) = l.
Proof. reflexivity. Qed.

Lemma no_dup_index valSet a k v w :
  no_dup valSet → vals valSet !! k = Some v → v_Address v = a →
  delete k (vals valSet) ≡ₚ w → NoDup (a :: (v_Address <$> w)) ∧
  as_map valSet = <[a := v]> (list_to_map ((λ v, (v_Address v, v)) <$> w)).
Proof.
  intros Hnd Hk <- Hw. pose proof (delete_Permutation _ _ _ Hk) as Hp. rewrite Hw in Hp.
  split.
  - change (NoDup (v_Address <$> v :: w)). by rewrite <-Hp.
  - unfold as_map. change (list_to_map ((λ v, (v_Address v, v)) <$> vals valSet) =
      (list_to_map ((λ v, (v_Address v, v)) <$> v :: w) : gmap bytes Validator)).
    apply list_to_map_proper; [|by rewrite Hp].
    by rewrite <-list_fmap_compose.
Qed.

Lemma as_map_snoc valSet l tvp v :
  vals valSet = l → v_Address v ∉ addresses valSet →
  as_map (mkValidatorSet (Some (l ++ [v])) tvp) = <[v_Address v := v]> (as_map valSet).
Proof.
  intros <- Hn. unfold as_map. rewrite vals_Some, fmap_app. apply list_to_map_snoc.
  by rewrite <-list_fmap_compose.
Qed.

Lemma vs_Add_refines valSet v :
  no_dup valSet →
  let '(valSet', added) := vs_Add valSet v in
  no_dup valSet' ∧ added = bool_decide (as_map valSet !! v_Address v = None) ∧
  as_map valSet' = if added then <[v_Address v := v]> (as_map valSet) else as_map valSet.
Proof.
  intros Hnd. unfold vs_Add.
  destruct (index_of_spec (v_Address v) (vals valSet) 0) as [[-> Hn]|(k & w & -> & Hk & Hw)];
    [lia|..].
  - simpl. split_and!.
    + unfold no_dup, addresses. rewrite vals_Some, fmap_app. apply NoDup_app.
      split_and!; [done| |apply NoDup_singleton].
      intros x Hx ->%list_elem_of_singleton. by apply Hn.
    + symmetry. apply bool_decide_eq_true. by apply as_map_lookup_None.
    + by apply as_map_snoc.
  - destruct (Z.eqb_spec (0 + Z.of_nat k) (-1)); [lia|]. split_and!; [done| |done].
    symmetry. apply bool_decide_eq_false. rewrite <-Hw. by rewrite (as_map_lookup _ k).
Qed.

Lemma vs_Update_refines valSet v :
  no_dup valSet →
  let '(valSet', updated) := vs_Update valSet v in
  no_dup valSet' ∧ updated = bool_decide (is_Some (as_map valSet !! v_Address v)) ∧
  as_map valSet' = if updated then <[v_Address v := v]> (as_map valSet) else as_map valSet.
Proof.
  intros Hnd. unfold vs_Update, GetByAddress.
  destruct (index_of_spec (v_Address v) (vals valSet) 0) as [[-> Hn]|(k & w & -> & Hk & Hw)];
    [lia|..].
  - simpl. split_and!; [done| |done]. symmetry. apply bool_decide_eq_false.
    rewrite (proj2 (as_map_lookup_None _ _) Hn). by intros [? ?].
  - rewrite Z.add_0_l. destruct (Z.eqb_spec (Z.of_nat k) (-1)); [lia|].
    simpl. rewrite Nat2Z.id, Hk. set (vs' := mkValidatorSet _ _).
    assert (vals vs' !! k = Some v) as Hk'.
    { apply list_lookup_insert_eq. by eapply lookup_lt_Some. }
    assert (no_dup vs') as Hnd'.
    { unfold no_dup, addresses, vs'. rewrite vals_Some, list_fmap_insert, list_insert_id; [done|].
      by rewrite list_lookup_fmap, Hk, <-Hw. }
    split_and!; [done| |].
    + symmetry. apply bool_decide_eq_true. rewrite <-Hw, (as_map_lookup _ k) by done. eauto.
    + destruct (no_dup_index valSet (v_Address v) k w _ Hnd Hk Hw (reflexivity _)) as [_ ->].
      destruct (no_dup_index vs' (v_Address v) k v (delete k (vals valSet)) Hnd' Hk') as [_ ->];
        [done| |by rewrite insert_insert_eq].
      rewrite !delete_take_drop. unfold vs'. rewrite vals_Some.
      by rewrite take_insert_ge, drop_insert_lt by lia.
Qed.

Lemma vs_Remove_refines valSet a :
  no_dup valSet →
  let '(valSet', val, removed) := vs_Remove valSet a in
  no_dup valSet' ∧ val = as_map valSet !! a ∧ removed = bool_decide (is_Some val) ∧
  as_map valSet' = delete a (as_map valSet).
Proof.
  intros Hnd.
  destruct (index_of_spec a (vals valSet) 0) as [[Hi Hn]|(k & v & Hi & Hk & Hv)]; [lia|..].
  - unfold vs_Remove. rewrite Hi. simpl. apply as_map_lookup_None in Hn.
    rewrite Hn. split_and!; [done|done|done|]. by rewrite delete_id.
  - rewrite Z.add_0_l in Hi. rewrite (vs_Remove_found _ _ _ _ Hi Hk).
    destruct (no_dup_index valSet a k v _ Hnd Hk Hv (reflexivity _))
      as [[Ha Hnd']%NoDup_cons Hmap].
    rewrite Hmap, lookup_insert_eq. split_and!; [done|done|done|].
    rewrite delete_insert_id; [done|].
    apply not_elem_of_list_to_map_1. by rewrite <-list_fmap_compose.
Qed.

End map_view.

(** ** Properties of the operations *)

Section properties.
Context {LIB : NeatLib} {LAWS : NeatLibLaws}.

(** TalliedVotingPower returns the number and the power of the marked validators
    and the total power, or the error of the first failing check. *)
Theorem TalliedVotingPower_correct valSet b :
  vs_Size valSet < 2 ^ 63 →
  TalliedVotingPower valSet b = Ret (
    if ba_isNil b then inr InvalidBitmapNil
    else if bool_decide (vs_Validators valSet = None) then inr InvalidValidatorsNil
    else if negb (vs_Size valSet =? ba_Size b) then inr SizeNotEqual
    else inl (tally (marked b) (replicate (length (vals valSet)) 1),
              tally (marked b) (powers valSet), total_power valSet)).
Proof. apply TalliedVotingPower_spec. Qed.

(** C31. VerifyCommit accepts a commit exactly when its height is the expected one, its
    bitmap marks a quorum of the power for its round, and the aggregate signature
    verifies under the aggregated keys of the marked validators. *)
Theorem VerifyCommit_accepts_iff valSet chainID height c :
  vs_Size valSet < 2 ^ 63 → vs_Validators valSet ≠ None →
  VerifyCommit valSet chainID height (Some c) = Ret None ↔
    height = commit_Height c ∧
    quorum_marked valSet (commit_BitArray c) (commit_Round c) ∧
    aggregate_signed valSet (commit_BitArray c)
      (SignBytes_Vote chainID (aggregate_vote (commit_BlockID c) (commit_Height c)
         (commit_Round c) VoteTypePrecommit))
      (commit_SignAggr c).
Proof. apply VerifyCommit_spec. Qed.

(** On validator sets without duplicate addresses, GetByAddress, Add, Update and
    Remove are lookup, insert, update and delete of a finite map from addresses to
    validators. *)
Theorem validator_set_refines_map valSet v a :
  no_dup valSet →
  snd (GetByAddress valSet a) = as_map valSet !! a ∧
  (let '(valSet', added) := vs_Add valSet v in
   no_dup valSet' ∧ added = bool_decide (as_map valSet !! v_Address v = None) ∧
   as_map valSet' = if added then <[v_Address v := v]> (as_map valSet) else as_map valSet) ∧
  (let '(valSet', updated) := vs_Update valSet v in
   no_dup valSet' ∧ updated = bool_decide (is_Some (as_map valSet !! v_Address v)) ∧
   as_map valSet' = if updated then <[v_Address v := v]> (as_map valSet) else as_map valSet) ∧
  (let '(valSet', val, removed) := vs_Remove valSet a in
   no_dup valSet' ∧ val = as_map valSet !! a ∧ removed = bool_decide (is_Some val) ∧
   as_map valSet' = delete a (as_map valSet)).
Proof.
  intros Hnd. split_and!; [by apply GetByAddress_lookup|by apply vs_Add_refines
    |by apply vs_Update_refines|by apply vs_Remove_refines].
Qed.

End properties.

(** ** Concrete instances

    Four validators with powers 10, 20, 30 and 40 over [toy_lib]. *)

Definition ex_val (i p : Z) : @Validator toy_lib := mkValidator (LIB := toy_lib) [i] [i] p 0.

Definition ex_valSet : @ValidatorSet toy_lib :=
  mkValidatorSet (LIB := toy_lib)
    (Some [ex_val 1 10; ex_val 2 20; ex_val 3 30; ex_val 4 40]) None.

Definition ex_block (h : Z) : BlockID := mkBlockID [h] (mkPartSetHeader 1 [h]).

(** A commit of [ex_block 7] at height 5, round 2, by the validators of [who]. *)
Definition ex_commit (who : list bool) : @Commit toy_lib :=
  let keys := omap id (imap (λ i v, if default false (who !! i) then Some (v_PubKey v) else None)
                         (@vals toy_lib ex_valSet)) in
  mkCommit (LIB := toy_lib) (ex_block 7) 5 2
    (Some (concat keys,
           @SignBytes_Vote toy_lib "neatio" (aggregate_vote (ex_block 7) 5 2 VoteTypePrecommit)))
    who.

Lemma Loose23MajorThreshold_formula_witness : Loose23MajorThreshold 100 20 = 51.
Proof. rewrite (Loose23MajorThreshold_formula 100 20) by lia. reflexivity. Defined.

Lemma Loose23MajorThreshold_bounds_witness :
  Loose23MajorThreshold 100 9 <= Loose23MajorThreshold 100 3.
Proof. apply (Loose23MajorThreshold_bounds 100 3 9); lia. Defined.

Lemma TalliedVotingPower_correct_witness :
  @TalliedVotingPower toy_lib ex_valSet [true; false; true; false] = Ret (inl (2, 40, 100)).
Proof.
  rewrite (@TalliedVotingPower_correct toy_lib toy_laws) by (vm_compute; done).
  vm_compute. reflexivity.
Defined.

Lemma VerifyCommit_accepts_iff_witness :
  @VerifyCommit toy_lib ex_valSet "neatio" 5 (Some (ex_commit [false; false; true; true])) =
    Ret None.
Proof.
  apply (@VerifyCommit_accepts_iff toy_lib toy_laws); [vm_compute; done|done|].
  split; [done|]. split.
  - split_and!; vm_compute; done.
  - eexists. split; vm_compute; reflexivity.
Defined.

Lemma verified_commits_share_a_signer_witness :
  ∃ i v, @vals toy_lib ex_valSet !! i = Some v ∧ 0 < v_VotingPower v ∧
    @marked toy_lib [false; false; true; true] i = true ∧
    @marked toy_lib [false; true; true; true] i = true.
Proof.
  refine (proj2 (@verified_commits_share_a_signer toy_lib toy_laws ex_valSet "neatio" 5
    (ex_commit [false; false; true; true]) (ex_commit [false; true; true; true])
    _ _ _ _ _ _ _)); [done|done| |done|done|vm_compute; reflexivity|vm_compute; reflexivity].
  apply (bool_decide_unpack _). vm_compute. exact I.
Defined.

Lemma validator_set_refines_map_witness :
  @as_map toy_lib (fst (fst (@vs_Remove toy_lib ex_valSet [3]))) !! [3] = None.
Proof.
  assert (@no_dup toy_lib ex_valSet) as Hnd.
  { unfold no_dup, addresses. apply (bool_decide_unpack _). vm_compute. exact I. }
  destruct (@validator_set_refines_map toy_lib ex_valSet (ex_val 5 50) [3] Hnd)
    as (_ & _ & _ & Hr).
  destruct (vs_Remove ex_valSet [3]) as [[vs' val] removed] eqn:E. simpl.
  destruct Hr as (_ & _ & _ & ->). apply lookup_delete_eq.
Defined.

(** Equality looks for the validators of the other set only: a set that has one of them twice
    equals a set that has both. *)
Lemma Equals_one_way :
  @vs_Equals toy_lib (mkValidatorSet (Some [ex_val 1 10; ex_val 2 20]) None)
                     (mkValidatorSet (Some [ex_val 1 10; ex_val 1 10]) None) = true ∧
  @vs_Equals toy_lib (mkValidatorSet (Some [ex_val 1 10; ex_val 1 10]) None)
                     (mkValidatorSet (Some [ex_val 1 10; ex_val 2 20]) None) = false.
Proof. split; reflexivity. Qed.
