(* ===== verification/VoteSet.v ===== *)
(** * Vote sets (consensus/neatpos/types/vote_set.go)

    [VoteSet] collects the votes of one height, round and type.  [addVote] is the
    whole method, with its checks in the order of the code and its panics;
    [SetPeerMaj23] records a peer's claim.  The invariant [vst_wf] ties the
    canonical votes, the per-block votes, the bit arrays, the sums and the
    majority together; every operation keeps it, the majority is found exactly
    when a block has a quorum, and the panics of the method are characterised. *)

From Stdlib Require Import ZArith Lia.
From stdpp Require Import base tactics strings numbers gmap list.
From S2P Require Import Prelude Types ValidatorSet.

Local Open Scope Z_scope.

Section vote_set.
Context {LIB : NeatLib}.

(** ** Votes for one block *)

Record blockVotes := mkBlockVotes {
  bv_peerMaj23 : bool;
  bv_bitArray : BitArray;
  bv_votes : list (option Vote);
  bv_sum : Z
}.

Definition newBlockVotes (peerMaj23 : bool) (numValidators : Z) : blockVotes :=
  mkBlockVotes peerMaj23 (NewBitArray (u64 numValidators))
    (replicate (Z.to_nat numValidators) None) 0.

Definition bv_addVerifiedVote (bv : blockVotes) (vote : Vote) (votingPower : Z)
    : outcome blockVotes :=
  let valIndex := vote_ValidatorIndex vote in
  existing ← slice_get (bv_votes bv) valIndex;
  match existing with
  | None =>
      votes ← slice_set (bv_votes bv) valIndex (Some vote);
      mret (mkBlockVotes (bv_peerMaj23 bv) (ba_SetIndex (bv_bitArray bv) valIndex true)
              votes (bv_sum bv + votingPower))
  | Some _ => mret bv
  end.

Definition bv_getByIndex (bv : option blockVotes) (index : Z) : outcome (option Vote) :=
  match bv with
  | None => mret None
  | Some bv => slice_get (bv_votes bv) index
  end.

(** ** The vote set *)

Record VoteSet := mkVoteSet {
  vst_chainID : string;
  vst_height : Z;
  vst_round : Z;
  vst_type : Z;
  vst_valSet : ValidatorSet;
  vst_votesBitArray : BitArray;
  vst_votes : list (option Vote);
  vst_sum : Z;
  vst_maj23 : option BlockID;
  vst_votesByBlock : gmap bytes blockVotes;
  vst_peerMaj23s : gmap string BlockID
}.

Definition NewVoteSet (chainID : string) (height round type_ : Z) (valSet : ValidatorSet)
    : outcome VoteSet :=
  if height =? 0 then Panic "Cannot make VoteSet for height == 0, doesn't make sense."
  else mret (mkVoteSet chainID height round type_ valSet
               (NewBitArray (u64 (vs_Size valSet)))
               (replicate (Z.to_nat (vs_Size valSet)) None) 0 None ∅ ∅).

(** Field updates. *)
Definition set_ledger (vs : VoteSet) (ba : BitArray) (votes : list (option Vote)) (sum : Z)
    : VoteSet :=
  mkVoteSet (vst_chainID vs) (vst_height vs) (vst_round vs) (vst_type vs) (vst_valSet vs)
    ba votes sum (vst_maj23 vs) (vst_votesByBlock vs) (vst_peerMaj23s vs).

Definition set_votesByBlock (vs : VoteSet) (m : gmap bytes blockVotes) : VoteSet :=
  mkVoteSet (vst_chainID vs) (vst_height vs) (vst_round vs) (vst_type vs) (vst_valSet vs)
    (vst_votesBitArray vs) (vst_votes vs) (vst_sum vs) (vst_maj23 vs) m (vst_peerMaj23s vs).

Definition set_maj23 (vs : VoteSet) (maj23 : option BlockID) (votes : list (option Vote))
    : VoteSet :=
  mkVoteSet (vst_chainID vs) (vst_height vs) (vst_round vs) (vst_type vs) (vst_valSet vs)
    (vst_votesBitArray vs) votes (vst_sum vs) maj23 (vst_votesByBlock vs) (vst_peerMaj23s vs).

Definition set_peerMaj23s (vs : VoteSet) (m : gmap string BlockID) : VoteSet :=
  mkVoteSet (vst_chainID vs) (vst_height vs) (vst_round vs) (vst_type vs) (vst_valSet vs)
    (vst_votesBitArray vs) (vst_votes vs) (vst_sum vs) (vst_maj23 vs) (vst_votesByBlock vs) m.

Inductive VoteErr :=
| ErrVoteUnexpectedStep | ErrVoteInvalidValidatorIndex | ErrVoteInvalidValidatorAddress
| ErrVoteInvalidSignature | ErrVoteInvalidBlockHash
| ErrVoteConflictingVotes (VoteA VoteB : Vote).

(** [getVote]: the vote known for an index and a block key. *)
Definition getVote (vs : VoteSet) (valIndex : Z) (blockKey : bytes) : outcome (option Vote) :=
  existing ← slice_get (vst_votes vs) valIndex;
  let in_block := bv_getByIndex (vst_votesByBlock vs !! blockKey) valIndex in
  match existing with
  | Some existing =>
      if bytes_Equal (bid_Key (vote_BlockID existing)) blockKey then mret (Some existing)
      else in_block
  | None => in_block
  end.

(** [for i, vote := range votesByBlock.votes { if vote != nil { voteSet.votes[i] = vote } }] *)
Definition copy_votes (src dst : list (option Vote)) : outcome (list (option Vote)) :=
  for_loop (length src) 0
    (λ i votes, match src !! Z.to_nat i with
                | Some (Some vote) => slice_set votes i (Some vote)
                | _ => mret votes
                end) dst.

(** The second half of [addVerifiedVote]: from the quorum computation on. *)
Definition add_to_block (vs : VoteSet) (bv : blockVotes) (vote : Vote) (blockKey : bytes)
    (votingPower : Z) (conflicting : option Vote) : outcome (VoteSet * bool * option Vote) :=
  let origSum := bv_sum bv in
  t ← TalliedVotingPower (vst_valSet vs) (bv_bitArray bv);
  match t with
  | inr _ => mret (vs, false, conflicting)
  | inl (_, _, totalVotes) =>
      let quorum := Loose23MajorThreshold totalVotes (i64 (vote_Round vote)) in
      bv' ← bv_addVerifiedVote bv vote votingPower;
      let vs := set_votesByBlock vs (<[blockKey := bv']> (vst_votesByBlock vs)) in
      if (origSum <? quorum) && (quorum <=? bv_sum bv') then
        match vst_maj23 vs with
        | None =>
            votes ← copy_votes (bv_votes bv') (vst_votes vs);
            mret (set_maj23 vs (Some (vote_BlockID vote)) votes, true, conflicting)
        | Some _ => mret (vs, true, conflicting)
        end
      else mret (vs, true, conflicting)
  end.

Definition addVerifiedVote (vs : VoteSet) (vote : Vote) (blockKey : bytes) (votingPower : Z)
    : outcome (VoteSet * bool * option Vote) :=
  let valIndex := vote_ValidatorIndex vote in
  existing ← slice_get (vst_votes vs) valIndex;
  st ← match existing with
       | Some existing =>
           if bid_Equals (vote_BlockID existing) (vote_BlockID vote)
           then Panic "addVerifiedVote does not expect duplicate votes"
           else if match vst_maj23 vs with
                   | Some maj23 => bytes_Equal (bid_Key maj23) blockKey
                   | None => false
                   end
           then votes ← slice_set (vst_votes vs) valIndex (Some vote);
                mret (set_ledger vs (ba_SetIndex (vst_votesBitArray vs) valIndex true) votes
                        (vst_sum vs), Some existing)
           else mret (vs, Some existing)
       | None =>
           votes ← slice_set (vst_votes vs) valIndex (Some vote);
           mret (set_ledger vs (ba_SetIndex (vst_votesBitArray vs) valIndex true) votes
                   (vst_sum vs + votingPower), None)
       end;
  let '(vs, conflicting) := st in
  match vst_votesByBlock vs !! blockKey, conflicting with
  | Some bv, Some _ =>
      if negb (bv_peerMaj23 bv) then mret (vs, false, conflicting)
      else add_to_block vs bv vote blockKey votingPower conflicting
  | Some bv, None => add_to_block vs bv vote blockKey votingPower conflicting
  | None, Some _ => mret (vs, false, conflicting)
  | None, None =>
      let bv := newBlockVotes false (vs_Size (vst_valSet vs)) in
      add_to_block (set_votesByBlock vs (<[blockKey := bv]> (vst_votesByBlock vs)))
        bv vote blockKey votingPower conflicting
  end.

Definition vst_step_matches (vs : VoteSet) (vote : Vote) : bool :=
  (vote_Height vote =? vst_height vs) && (i64 (vote_Round vote) =? vst_round vs) &&
  (vote_Type vote =? vst_type vs).

Definition addVote (vs : VoteSet) (vote : Vote) : outcome (VoteSet * bool * option VoteErr) :=
  let valIndex := vote_ValidatorIndex vote in
  let valAddr := vote_ValidatorAddress vote in
  let blockKey := bid_Key (vote_BlockID vote) in
  if (valIndex <? 0) || bool_decide (valAddr = [])
  then Panic "Validator index or address was not set in vote."
  else if negb (vst_step_matches vs vote) then mret (vs, false, Some ErrVoteUnexpectedStep)
  else
    lookup ← GetByIndex (vst_valSet vs) (i64 valIndex);
    let '(lookupAddr, val) := lookup in
    if negb (bytes_Equal valAddr lookupAddr)
    then mret (vs, false, Some ErrVoteInvalidValidatorAddress)
    else
      known ← getVote vs (i64 valIndex) blockKey;
      match known with
      | Some existing =>
          if Signature_Equals (vote_Signature existing) (vote_Signature vote)
          then mret (vs, false, None)
          else mret (vs, false, Some ErrVoteInvalidSignature)
      | None =>
          if negb (VerifyBytes (v_PubKey val) (SignBytes_Vote (vst_chainID vs) vote)
                     (vote_Signature vote))
          then mret (vs, false, Some ErrVoteInvalidSignature)
          else
            r ← addVerifiedVote vs vote blockKey (v_VotingPower val);
            match r with
            | (vs', added, Some conflicting) =>
                mret (vs', added, Some (ErrVoteConflictingVotes conflicting vote))
            | (vs', true, None) => mret (vs', true, None)
            | (vs', false, None) => Panic "Expected to add non-conflicting vote"
            end
      end.

(** [AddVote] on a pointer: the nil receiver is a sanity panic. *)
Definition vst_AddVote (voteSet : option VoteSet) (vote : Vote)
    : outcome (VoteSet * bool * option VoteErr) :=
  match voteSet with
  | None => Panic "AddVote() on nil VoteSet"
  | Some vs => addVote vs vote
  end.

Definition vst_SetPeerMaj23 (vs : VoteSet) (peerID : string) (blockID : BlockID) : VoteSet :=
  let blockKey := bid_Key blockID in
  match vst_peerMaj23s vs !! peerID with
  | Some _ => vs
  | None =>
      let vs := set_peerMaj23s vs (<[peerID := blockID]> (vst_peerMaj23s vs)) in
      match vst_votesByBlock vs !! blockKey with
      | Some bv =>
          if bv_peerMaj23 bv then vs
          else set_votesByBlock vs
                 (<[blockKey := mkBlockVotes true (bv_bitArray bv) (bv_votes bv) (bv_sum bv)]>
                    (vst_votesByBlock vs))
      | None =>
          set_votesByBlock vs
            (<[blockKey := newBlockVotes true (vs_Size (vst_valSet vs))]> (vst_votesByBlock vs))
      end
  end.

(** Readers; a nil vote set has no majority. *)
Definition vst_HasTwoThirdsMajority (voteSet : option VoteSet) : bool :=
  match voteSet with
  | None => false
  | Some vs => bool_decide (is_Some (vst_maj23 vs))
  end.

Definition vst_TwoThirdsMajority (voteSet : option VoteSet) : BlockID * bool :=
  match voteSet with
  | None => (bid_zero, false)
  | Some vs => match vst_maj23 vs with
               | Some b => (b, true)
               | None => (bid_zero, false)
               end
  end.

Definition vst_IsCommit (voteSet : option VoteSet) : bool :=
  match voteSet with
  | None => false
  | Some vs =>
      if negb (vst_type vs =? VoteTypePrecommit) then false
      else bool_decide (is_Some (vst_maj23 vs))
  end.

Definition vst_GetByIndex (voteSet : option VoteSet) (valIndex : Z) : outcome (option Vote) :=
  match voteSet with
  | None => mret None
  | Some vs => slice_get (vst_votes vs) valIndex
  end.

Definition vst_GetByAddress (voteSet : option VoteSet) (address : bytes)
    : outcome (option Vote) :=
  match voteSet with
  | None => mret None
  | Some vs =>
      match GetByAddress (vst_valSet vs) address with
      | (_, None) => Panic "GetByAddress(address) returned nil"
      | (valIndex, Some _) => slice_get (vst_votes vs) valIndex
      end
  end.

Definition vst_BitArrayByBlockID (voteSet : option VoteSet) (blockID : BlockID) : option BitArray :=
  match voteSet with
  | None => None
  | Some vs => bv_bitArray <$> vst_votesByBlock vs !! bid_Key blockID
  end.

(** [voteSet.sum == voteSet.valSet.TotalVotingPower()] compares two [*big.Int]
    pointers, the second freshly allocated: it is never true. *)
Definition vst_HasAll (vs : VoteSet) : bool := false.

End vote_set.

(** ** Ledgers: votes by index, their bit array and their sum *)

Section ledger.
Context {LIB : NeatLib} {LAWS : NeatLibLaws}.

(** The indices that have a vote. *)
Definition has_vote (votes : list (option Vote)) (i : nat) : bool :=
  match votes !! i with Some (Some _) => true | _ => false end.

Record ledger_ok (valSet : ValidatorSet) (votes : list (option Vote)) (ba : BitArray) (sum : Z)
    : Prop := {
  led_len : Z.of_nat (length votes) = vs_Size valSet;
  led_size : ba_Size ba = vs_Size valSet;
  led_nil : 0 < vs_Size valSet → ba_isNil ba = false;
  led_bits : ∀ i, (i < length votes)%nat → marked ba i = has_vote votes i;
  led_sum : sum = tally (has_vote votes) (powers valSet)
}.

Lemma has_vote_insert votes i v j :
  (i < length votes)%nat →
  has_vote (<[i := Some v]> votes) j = bool_decide (i = j) || has_vote votes j.
Proof.
  intros Hi. unfold has_vote. case_bool_decide as E; simpl.
  - subst. by rewrite list_lookup_insert_eq.
  - by rewrite list_lookup_insert_ne.
Qed.

Lemma has_vote_replicate n j : has_vote (replicate n None) j = false.
Proof.
  unfold has_vote. destruct (replicate n None !! j) as [[v|]|] eqn:E; [|done..].
  by apply lookup_replicate in E as [? _].
Qed.

Lemma marked_set ba i j :
  0 <= Z.of_nat i < ba_Size ba →
  marked (ba_SetIndex ba (Z.of_nat i) true) j = bool_decide (i = j) || marked ba j.
Proof.
  intros Hi. unfold marked. case_bool_decide as E; simpl.
  - subst. by rewrite ba_set_get_eq.
  - rewrite ba_set_get_ne; [done|lia].
Qed.

Lemma ledger_new valSet :
  vs_Size valSet < 2 ^ 63 →
  ledger_ok valSet (replicate (Z.to_nat (vs_Size valSet)) None)
    (NewBitArray (u64 (vs_Size valSet))) 0.
Proof.
  intros Hn. assert (0 <= vs_Size valSet) as H0 by (unfold vs_Size; lia).
  rewrite u64_small by (unfold in_u64; lia). split.
  - rewrite length_replicate. lia.
  - apply ba_new_size. unfold in_u64. lia.
  - apply ba_new_nonnil.
  - intros i Hi. unfold marked. by rewrite ba_new_get, has_vote_replicate.
  - rewrite <-(tally_false (powers valSet)). apply tally_ext. intros i _.
    by rewrite has_vote_replicate.
Qed.

Lemma ledger_add valSet votes ba sum i val v :
  ledger_ok valSet votes ba sum → votes !! i = Some None → vals valSet !! i = Some val →
  ledger_ok valSet (<[i := Some v]> votes) (ba_SetIndex ba (Z.of_nat i) true)
    (sum + v_VotingPower val).
Proof.
  intros [Hl Hs Hnil Hb Hsum] Hi Hv. pose proof (lookup_lt_Some _ _ _ Hi) as Hlt. split.
  - by rewrite length_insert.
  - by rewrite ba_set_size.
  - by rewrite ba_set_nil.
  - intros j. rewrite length_insert. intros Hj.
    rewrite marked_set, has_vote_insert, Hb by lia. done.
  - rewrite Hsum. symmetry. apply (tally_add _ _ _ i).
    + by apply powers_lookup.
    + unfold has_vote. by rewrite Hi.
    + rewrite has_vote_insert by done. by rewrite bool_decide_eq_true_2.
    + intros j Hj. rewrite has_vote_insert by done. by rewrite bool_decide_eq_false_2.
Qed.

(** Writing over positions that already have a vote changes neither the sum nor
    the marks. *)
Lemma ledger_ext valSet votes votes' ba ba' sum :
  ledger_ok valSet votes ba sum → length votes' = length votes →
  (∀ i, has_vote votes' i = has_vote votes i) →
  ba_Size ba' = ba_Size ba → ba_isNil ba' = ba_isNil ba →
  (∀ i, (i < length votes)%nat → marked ba' i = marked ba i) →
  ledger_ok valSet votes' ba' sum.
Proof.
  intros [Hl Hs Hnil Hb Hsum] Hlen Hhas Hs' Hn' Hm. split.
  - by rewrite Hlen.
  - by rewrite Hs'.
  - by rewrite Hn'.
  - intros i. rewrite Hlen. intros Hi. rewrite Hm, Hhas by done. by apply Hb.
  - rewrite Hsum. apply tally_ext. intros i _. by rewrite Hhas.
Qed.

Lemma ledger_replace valSet votes ba sum i e v :
  ledger_ok valSet votes ba sum → votes !! i = Some (Some e) →
  ledger_ok valSet (<[i := Some v]> votes) (ba_SetIndex ba (Z.of_nat i) true) sum.
Proof.
  intros Hled Hi. pose proof (lookup_lt_Some _ _ _ Hi) as Hlt.
  assert (has_vote votes i = true) as Hhas by (unfold has_vote; by rewrite Hi).
  apply (ledger_ext _ votes _ ba); [done|by rewrite length_insert| |apply ba_set_size
    |apply ba_set_nil|].
  - intros j. rewrite has_vote_insert by done.
    case_bool_decide; [subst; by rewrite Hhas|done].
  - intros j Hj. pose proof (led_len _ _ _ _ Hled). pose proof (led_size _ _ _ _ Hled).
    rewrite marked_set by lia. case_bool_decide; [|done]. subst.
    rewrite (led_bits _ _ _ _ Hled) by done. by rewrite Hhas.
Qed.

(** The result of [copy_votes]. *)
Definition overlay (src dst : list (option Vote)) : list (option Vote) :=
  imap (λ i d, match src !! i with Some (Some v) => Some v | _ => d end) dst.

Lemma length_overlay src dst : length (overlay src dst) = length dst.
Proof. apply length_imap. Qed.

Lemma overlay_lookup src dst i :
  overlay src dst !! i =
    (λ d, match src !! i with Some (Some v) => Some v | _ => d end) <$> dst !! i.
Proof. unfold overlay. apply list_lookup_imap. Qed.

Lemma copy_votes_spec src dst :
  length src = length dst → copy_votes src dst = Ret (overlay src dst).
Proof.
  intros Hlen. unfold copy_votes.
  edestruct (for_loop_inv (λ j s, s = overlay (take (Z.to_nat j) src) dst)) as (s' & -> & ->);
    cycle 2.
  - by rewrite Z.add_0_l, Nat2Z.id, firstn_all.
  - apply list_eq. intros i. rewrite overlay_lookup. simpl. by destruct (dst !! i).
  - intros j t Hj ->. rewrite Z.add_0_l in Hj.
    destruct (lookup_lt_is_Some_2 src (Z.to_nat j)) as [o Ho]; [lia|]. rewrite Ho.
    assert (∀ k, overlay (take (Z.to_nat (j + 1)) src) dst !! k =
      if decide (k = Z.to_nat j)
      then (λ d, match o with Some v => Some v | None => d end) <$> dst !! k
      else overlay (take (Z.to_nat j) src) dst !! k) as Hstep.
    { intros k. rewrite !overlay_lookup.
      replace (Z.to_nat (j + 1)) with (S (Z.to_nat j)) by lia.
      destruct (decide (k = Z.to_nat j)) as [->|Hne].
      - rewrite lookup_take_lt by lia. rewrite Ho. by destruct o.
      - destruct (decide (k < Z.to_nat j)%nat).
        + by rewrite !lookup_take_lt by lia.
        + by rewrite !lookup_take_ge by lia. }
    assert (overlay (take (Z.to_nat j) src) dst !! Z.to_nat j = dst !! Z.to_nat j) as Hsame.
    { rewrite overlay_lookup, lookup_take_ge by lia. by destruct (dst !! Z.to_nat j). }
    destruct o as [v|]; [rewrite slice_set_ok by (rewrite length_overlay; lia)|];
      (eexists; split; [reflexivity|]); apply list_eq; intros k; rewrite Hstep.
    + destruct (decide (k = Z.to_nat j)) as [->|Hne].
      * rewrite list_lookup_insert_eq by (rewrite length_overlay; lia).
        by destruct (lookup_lt_is_Some_2 dst (Z.to_nat j)) as [? ->]; [lia|].
      * by rewrite list_lookup_insert_ne.
    + destruct (decide (k = Z.to_nat j)) as [->|Hne]; [|done].
      rewrite Hsame. by destruct (dst !! Z.to_nat j).
Qed.

Lemma ledger_overlay valSet src dst ba sum :
  ledger_ok valSet dst ba sum →
  (∀ i v, src !! i = Some (Some v) → has_vote dst i = true) →
  ledger_ok valSet (overlay src dst) ba sum.
Proof.
  intros Hled Hsub. apply (ledger_ext _ dst _ ba); [done|apply length_overlay| |done..].
  intros i. unfold has_vote at 1. rewrite overlay_lookup.
  destruct (src !! i) as [[v|]|] eqn:E; simpl.
  - rewrite (Hsub i v E). pose proof (Hsub i v E) as Hh. unfold has_vote in Hh.
    by destruct (dst !! i).
  - unfold has_vote. by destruct (dst !! i) as [[?|]|].
  - unfold has_vote. by destruct (dst !! i) as [[?|]|].
Qed.

End ledger.

(** ** The invariant *)

Section vote_set_props.
Context {LIB : NeatLib} {LAWS : NeatLibLaws}.

(** [v] is a vote of validator [i] for the height, round and type of [vs], with a
    signature that verifies under that validator's key. *)
Definition valid_vote (vs : VoteSet) (i : nat) (v : Vote) : Prop :=
  vote_ValidatorIndex v = Z.of_nat i ∧ vst_step_matches vs v = true ∧
  ∃ val, vals (vst_valSet vs) !! i = Some val ∧
    vote_ValidatorAddress v = v_Address val ∧
    VerifyBytes (v_PubKey val) (SignBytes_Vote (vst_chainID vs) v) (vote_Signature v) = true.

Definition quorum (vs : VoteSet) : Z :=
  Loose23MajorThreshold (total_power (vst_valSet vs)) (vst_round vs).

(** The fields no operation changes. *)
Definition same_static (vs vs' : VoteSet) : Prop :=
  vst_chainID vs' = vst_chainID vs ∧ vst_height vs' = vst_height vs ∧
  vst_round vs' = vst_round vs ∧ vst_type vs' = vst_type vs ∧ vst_valSet vs' = vst_valSet vs.

(** The parameters a vote set is made with. *)
Definition good_params (valSet : ValidatorSet) (round : Z) : Prop :=
  vs_Validators valSet ≠ None ∧ vs_Size valSet < 2 ^ 63 ∧ powers_nonneg valSet ∧
  0 <= round < 2 ^ 63.

(** The votes recorded for the block with key [k]. *)
Record bv_ok (vs : VoteSet) (k : bytes) (bv : blockVotes) : Prop := {
  bvo_ledger : ledger_ok (vst_valSet vs) (bv_votes bv) (bv_bitArray bv) (bv_sum bv);
  bvo_valid : ∀ i v, bv_votes bv !! i = Some (Some v) →
    valid_vote vs i v ∧ bid_Key (vote_BlockID v) = k ∧ has_vote (vst_votes vs) i = true
}.

Record vst_wf (vs : VoteSet) : Prop := {
  wf_params : good_params (vst_valSet vs) (vst_round vs);
  wf_ledger : ledger_ok (vst_valSet vs) (vst_votes vs) (vst_votesBitArray vs) (vst_sum vs);
  wf_valid : ∀ i v, vst_votes vs !! i = Some (Some v) → valid_vote vs i v;
  wf_blocks : ∀ k bv, vst_votesByBlock vs !! k = Some bv → bv_ok vs k bv;
  wf_tracked : vst_maj23 vs = None → ∀ i v, vst_votes vs !! i = Some (Some v) →
    ∃ bv, vst_votesByBlock vs !! bid_Key (vote_BlockID v) = Some bv ∧
      bv_votes bv !! i = Some (Some v);
  wf_nomaj : vst_maj23 vs = None → ∀ k bv, vst_votesByBlock vs !! k = Some bv →
    bv_sum bv < quorum vs;
  wf_maj : ∀ b, vst_maj23 vs = Some b → ∃ bv, vst_votesByBlock vs !! bid_Key b = Some bv ∧
    quorum vs <= bv_sum bv ∧ ∃ i v, bv_votes bv !! i = Some (Some v) ∧ vote_BlockID v = b
}.

Lemma valid_vote_static vs vs' i v :
  same_static vs vs' → valid_vote vs i v → valid_vote vs' i v.
Proof.
  intros (H1 & H2 & H3 & H4 & H5). unfold valid_vote, vst_step_matches.
  by rewrite H1, H2, H3, H4, H5.
Qed.

Lemma quorum_pos vs : vst_wf vs → 0 < quorum vs.
Proof.
  intros Hwf. destruct (wf_params _ Hwf) as (_ & _ & Hp & Hr).
  apply threshold_pos; [|done]. unfold total_power.
  pose proof (tally_le_total (λ _, false) _ Hp) as H. by rewrite tally_false in H.
Qed.

Lemma NewVoteSet_wf chainID height round type_ valSet :
  good_params valSet round → height ≠ 0 →
  ∃ vs, NewVoteSet chainID height round type_ valSet = Ret vs ∧ vst_wf vs.
Proof.
  intros Hgp Hh. unfold NewVoteSet. destruct (Z.eqb_spec height 0); [done|].
  eexists; split; [reflexivity|]. destruct Hgp as (Hnil & Hn & Hp & Hr).
  split; simpl; try done; try set_solver.
  - by apply ledger_new.
  - intros i v Hi. apply lookup_replicate in Hi as [? _]. done.
  - intros _ i v Hi. apply lookup_replicate in Hi as [? _]. done.
Qed.

(** *** Recording a vote in its block's ledger *)

(** [pre_block vs bv vote k i val]: [vote] of validator [i] was verified, is in the
    canonical votes, and is about to be recorded in [bv], the ledger of its key. *)
Record pre_block (vs : VoteSet) (bv : blockVotes) (vote : Vote) (i : nat) (val : Validator)
    : Prop := {
  pb_params : good_params (vst_valSet vs) (vst_round vs);
  pb_entry : vst_votesByBlock vs !! bid_Key (vote_BlockID vote) = Some bv;
  pb_free : bv_votes bv !! i = Some None;
  pb_val : vals (vst_valSet vs) !! i = Some val;
  pb_valid : valid_vote vs i vote;
  pb_has : has_vote (vst_votes vs) i = true;
  pb_ledger : ledger_ok (vst_valSet vs) (vst_votes vs) (vst_votesBitArray vs) (vst_sum vs);
  pb_votes : ∀ i v, vst_votes vs !! i = Some (Some v) → valid_vote vs i v;
  pb_blocks : ∀ k bv, vst_votesByBlock vs !! k = Some bv → bv_ok vs k bv;
  pb_tracked : vst_maj23 vs = None → ∀ j v, vst_votes vs !! j = Some (Some v) →
    (j = i ∧ v = vote) ∨
    ∃ bv, vst_votesByBlock vs !! bid_Key (vote_BlockID v) = Some bv ∧
      bv_votes bv !! j = Some (Some v);
  pb_nomaj : vst_maj23 vs = None → ∀ k bv, vst_votesByBlock vs !! k = Some bv →
    bv_sum bv < quorum vs;
  pb_maj : ∀ b, vst_maj23 vs = Some b → ∃ bv, vst_votesByBlock vs !! bid_Key b = Some bv ∧
    quorum vs <= bv_sum bv ∧ ∃ i v, bv_votes bv !! i = Some (Some v) ∧ vote_BlockID v = b
}.

(** The ledger after the vote is recorded. *)
Definition bv_with (bv : blockVotes) (vote : Vote) (i : nat) (val : Validator) : blockVotes :=
  mkBlockVotes (bv_peerMaj23 bv) (ba_SetIndex (bv_bitArray bv) (Z.of_nat i) true)
    (<[i := Some vote]> (bv_votes bv)) (bv_sum bv + v_VotingPower val).

Lemma bv_addVerifiedVote_spec bv vote i p :
  vote_ValidatorIndex vote = Z.of_nat i → bv_votes bv !! i = Some None →
  bv_addVerifiedVote bv vote p = Ret (mkBlockVotes (bv_peerMaj23 bv)
    (ba_SetIndex (bv_bitArray bv) (Z.of_nat i) true)
    (<[i := Some vote]> (bv_votes bv)) (bv_sum bv + p)).
Proof.
  intros Hi Hfree. pose proof (lookup_lt_Some _ _ _ Hfree) as Hlt.
  unfold bv_addVerifiedVote. rewrite Hi.
  destruct (slice_get_lookup (bv_votes bv) (Z.of_nat i)) as (o & Hget & Ho); [lia|].
  rewrite Nat2Z.id in Ho. rewrite Ho in Hfree. simplify_eq. rewrite Hget. simpl.
  rewrite slice_set_ok by lia. simpl. by rewrite Nat2Z.id.
Qed.

Lemma bv_with_ok vs bv vote i val :
  pre_block vs bv vote i val → bv_ok vs (bid_Key (vote_BlockID vote)) (bv_with bv vote i val).
Proof.
  intros [_ He Hf Hv Hvv Hh _ _ Hb _ _ _]. pose proof (Hb _ _ He) as [Hled Hval]. split.
  - by apply ledger_add.
  - simpl. intros j v. destruct (decide (i = j)) as [<-|Hne].
    + rewrite list_lookup_insert_eq by (by eapply lookup_lt_Some). naive_solver.
    + rewrite list_lookup_insert_ne by done. apply Hval.
Qed.

(** The state once the vote is recorded, before a majority is looked for. *)
Definition recorded (vs : VoteSet) (bv : blockVotes) (vote : Vote) (i : nat) (val : Validator)
    : VoteSet :=
  set_votesByBlock vs
    (<[bid_Key (vote_BlockID vote) := bv_with bv vote i val]> (vst_votesByBlock vs)).

(** A ledger's facts carry over to a state that differs in the canonical votes only
    by more positions filled. *)
Lemma bv_ok_mono vs vs' k bv :
  same_static vs vs' →
  (∀ i, has_vote (vst_votes vs) i = true → has_vote (vst_votes vs') i = true) →
  bv_ok vs k bv → bv_ok vs' k bv.
Proof.
  intros Hst Hmono [Hled Hval]. split.
  - destruct Hst as (_ & _ & _ & _ & ->). done.
  - intros i v Hi. destruct (Hval i v Hi) as (H1 & H2 & H3).
    eauto using valid_vote_static.
Qed.

Lemma recorded_blocks vs bv vote i val k bv' :
  pre_block vs bv vote i val →
  vst_votesByBlock (recorded vs bv vote i val) !! k = Some bv' →
  bv_ok (recorded vs bv vote i val) k bv'.
Proof.
  intros Hpb. unfold recorded. simpl. rewrite lookup_insert_Some. intros [[<- <-]|[_ Hk]].
  - by apply bv_with_ok in Hpb as [? ?]; split.
  - by apply (pb_blocks _ _ _ _ _ Hpb) in Hk as [? ?]; split.
Qed.

Lemma recorded_tracked vs bv vote i val :
  pre_block vs bv vote i val → vst_maj23 vs = None →
  ∀ j v, vst_votes vs !! j = Some (Some v) →
    ∃ bv', vst_votesByBlock (recorded vs bv vote i val) !! bid_Key (vote_BlockID v) = Some bv' ∧
      bv_votes bv' !! j = Some (Some v).
Proof.
  intros Hpb Hm j v Hj. unfold recorded. simpl.
  pose proof (lookup_lt_Some _ _ _ (pb_free _ _ _ _ _ Hpb)) as Hlt.
  destruct (pb_tracked _ _ _ _ _ Hpb Hm j v Hj) as [[-> ->]|(bv' & Hk & Hbv)].
  - exists (bv_with bv vote i val). rewrite lookup_insert_eq. split; [done|].
    simpl. by rewrite list_lookup_insert_eq.
  - destruct (decide (bid_Key (vote_BlockID vote) = bid_Key (vote_BlockID v))) as [He|He].
    + rewrite He, lookup_insert_eq. eexists; split; [done|]. simpl.
      rewrite <-He in Hk. rewrite (pb_entry _ _ _ _ _ Hpb) in Hk. simplify_eq.
      rewrite list_lookup_insert_ne; [done|]. intros ->.
      by rewrite (pb_free _ _ _ _ _ Hpb) in Hbv.
    + rewrite lookup_insert_ne by done. eauto.
Qed.

(** An established majority survives the recording. *)
Lemma recorded_maj vs bv vote i val b :
  pre_block vs bv vote i val → vst_maj23 vs = Some b →
  ∃ bv', vst_votesByBlock (recorded vs bv vote i val) !! bid_Key b = Some bv' ∧
    quorum vs <= bv_sum bv' ∧ ∃ i v, bv_votes bv' !! i = Some (Some v) ∧ vote_BlockID v = b.
Proof.
  intros Hpb Hm. destruct (pb_maj _ _ _ _ _ Hpb b Hm) as (bv' & Hk & Hq & j & v & Hj & Hv).
  unfold recorded. simpl.
  destruct (decide (bid_Key (vote_BlockID vote) = bid_Key b)) as [He|He].
  - rewrite He, lookup_insert_eq. eexists; split; [done|].
    rewrite <-He, (pb_entry _ _ _ _ _ Hpb) in Hk. simplify_eq. simpl.
    assert (0 <= v_VotingPower val).
    { destruct (pb_params _ _ _ _ _ Hpb) as (_ & _ & Hp & _). unfold powers_nonneg in Hp.
      rewrite Forall_lookup in Hp. eapply Hp, powers_lookup, (pb_val _ _ _ _ _ Hpb). }
    split; [lia|]. exists j, v. rewrite list_lookup_insert_ne; [done|]. intros ->.
    by rewrite (pb_free _ _ _ _ _ Hpb) in Hj.
  - rewrite lookup_insert_ne by done. eauto 10.
Qed.

(** No quorum is reached: the recorded state is well formed. *)
Lemma recorded_wf_below vs bv vote i val :
  pre_block vs bv vote i val →
  (vst_maj23 vs = None → bv_sum bv + v_VotingPower val < quorum vs) →
  vst_wf (recorded vs bv vote i val).
Proof.
  intros Hpb Hlow. pose proof Hpb as [Hgp _ _ _ _ _ Hled Hvotes _ _ Hno _]. split.
  - done.
  - done.
  - done.
  - eauto using recorded_blocks.
  - intros Hm j v Hj. by apply (recorded_tracked _ _ _ _ _ Hpb Hm).
  - simpl. intros Hm k bv'. rewrite lookup_insert_Some. intros [[_ <-]|[_ Hk]].
    + simpl. by apply Hlow.
    + by eapply Hno.
  - intros b Hm. exact (recorded_maj _ _ _ _ _ _ Hpb Hm).
Qed.

(** The quorum is reached for the first time. *)
Lemma recorded_wf_cross vs bv vote i val :
  pre_block vs bv vote i val → quorum vs <= bv_sum bv + v_VotingPower val →
  vst_wf (set_maj23 (recorded vs bv vote i val) (Some (vote_BlockID vote))
            (overlay (bv_votes (bv_with bv vote i val)) (vst_votes vs))).
Proof.
  intros Hpb Hq. pose proof (bv_with_ok _ _ _ _ _ Hpb) as [_ Hval].
  pose proof (lookup_lt_Some _ _ _ (pb_free _ _ _ _ _ Hpb)) as Hlt.
  assert (ledger_ok (vst_valSet vs)
    (overlay (bv_votes (bv_with bv vote i val)) (vst_votes vs)) (vst_votesBitArray vs)
    (vst_sum vs)) as Hled.
  { apply ledger_overlay; [apply Hpb|]. intros j v Hj. by apply Hval in Hj as (_ & _ & ?). }
  split; try done.
  - apply Hpb.
  - intros j v Hj. change (overlay (bv_votes (bv_with bv vote i val)) (vst_votes vs) !! j
      = Some (Some v)) in Hj. rewrite overlay_lookup in Hj.
    apply fmap_Some in Hj as (d & E' & Hd).
    destruct (bv_votes (bv_with bv vote i val) !! j) as [[w|]|] eqn:E; simplify_eq.
    + exact (proj1 (Hval _ _ E)).
    + exact (pb_votes _ _ _ _ _ Hpb _ _ E').
    + exact (pb_votes _ _ _ _ _ Hpb _ _ E').
  - intros k bv' Hk. apply (bv_ok_mono (recorded vs bv vote i val)); [done| |].
    + intros j. simpl. unfold has_vote at 1. rewrite <-Bool.not_false_iff_true.
      intros Hj. unfold has_vote. rewrite overlay_lookup.
      destruct (vst_votes vs !! j) as [[w|]|]; [|done..]. simpl.
      by destruct (<[i:=Some vote]> (bv_votes bv) !! j) as [[?|]|].
    + by apply recorded_blocks.
  - simpl. intros b [= <-]. exists (bv_with bv vote i val). rewrite lookup_insert_eq.
    split; [done|]. split; [done|]. exists i, vote. simpl.
    by rewrite list_lookup_insert_eq.
Qed.

(** The vote of validator [i] is kept with the votes for its block. *)
Definition vote_recorded (vs : VoteSet) (i : nat) (vote : Vote) : Prop :=
  ∃ bv, vst_votesByBlock vs !! bid_Key (vote_BlockID vote) = Some bv ∧
    bv_votes bv !! i = Some (Some vote).

(** Nothing recorded is lost: a vote that is kept with its block stays there, and a
    validator that has a canonical vote keeps it, unless it is replaced by one for the
    block of the majority. *)
Record keeps_votes (vs vs' : VoteSet) : Prop := {
  kv_block i v : vote_recorded vs i v → vote_recorded vs' i v;
  kv_canon i v : vst_votes vs !! i = Some (Some v) →
    ∃ v', vst_votes vs' !! i = Some (Some v') ∧
      (v' = v ∨ ∃ b, vst_maj23 vs' = Some b ∧ bid_Key (vote_BlockID v') = bid_Key b)
}.

Lemma keeps_same vs vs' :
  (∀ i v, vote_recorded vs i v → vote_recorded vs' i v) →
  (∀ i v, vst_votes vs !! i = Some (Some v) → vst_votes vs' !! i = Some (Some v)) → keeps_votes vs vs'.
Proof. intros Hb Hc. constructor; [done|]. intros i v Hv. exists v. auto. Qed.

Lemma recorded_keeps_block vs bv vote i val j v :
  pre_block vs bv vote i val → vote_recorded vs j v → vote_recorded (recorded vs bv vote i val) j v.
Proof.
  intros Hpb (bv' & Hk & Hj). unfold vote_recorded, recorded. simpl.
  destruct (decide (bid_Key (vote_BlockID vote) = bid_Key (vote_BlockID v))) as [He|He].
  - rewrite He, lookup_insert_eq. eexists; split; [done|]. simpl.
    rewrite <-He, (pb_entry _ _ _ _ _ Hpb) in Hk. simplify_eq.
    rewrite list_lookup_insert_ne; [done|]. intros ->. by rewrite (pb_free _ _ _ _ _ Hpb) in Hj.
  - rewrite lookup_insert_ne by done. eauto.
Qed.

Lemma recorded_keeps vs bv vote i val : pre_block vs bv vote i val → keeps_votes vs (recorded vs bv vote i val).
Proof. intros Hpb. apply keeps_same; [intros j v; by apply recorded_keeps_block|done]. Qed.

Lemma recorded_keeps_cross vs bv vote i val : pre_block vs bv vote i val →
  keeps_votes vs (set_maj23 (recorded vs bv vote i val) (Some (vote_BlockID vote))
                    (overlay (bv_votes (bv_with bv vote i val)) (vst_votes vs))).
Proof.
  intros Hpb. constructor; [intros j v; by apply recorded_keeps_block|].
  intros j v Hj. change (vst_votes (set_maj23 _ _ ?l)) with l. rewrite overlay_lookup, Hj. simpl.
  pose proof (bv_with_ok _ _ _ _ _ Hpb) as [_ Hval].
  destruct (<[i:=Some vote]> (bv_votes bv) !! j) as [[w|]|] eqn:Ew; [|by eauto..].
  exists w. split; [done|]. right. eexists. split; [done|]. by apply Hval in Ew as (_ & ? & _).
Qed.

Lemma add_to_block_spec vs bv vote i val conflicting :
  pre_block vs bv vote i val →
  ∃ vs', add_to_block vs bv vote (bid_Key (vote_BlockID vote)) (v_VotingPower val) conflicting
           = Ret (vs', true, conflicting) ∧
    vst_wf vs' ∧ same_static vs vs' ∧
    (∀ b, vst_maj23 vs = Some b → vst_maj23 vs' = Some b) ∧
    vst_peerMaj23s vs' = vst_peerMaj23s vs ∧ vote_recorded vs' i vote ∧ keeps_votes vs vs'.
Proof.
  intros Hpb. pose proof (recorded_keeps _ _ _ _ _ Hpb) as Hkeep. pose proof Hpb as [(Hnil & Hn & Hp & Hr) He Hf Hv (Hvi & Hstep & _) _ _ _ Hb _ _ _].
  pose proof (bvo_ledger _ _ _ (Hb _ _ He)) as Hled.
  pose proof (lookup_lt_Some _ _ _ Hf) as Hlt.
  assert (0 < vs_Size (vst_valSet vs)) as Hpos.
  { rewrite <-(led_len _ _ _ _ Hled). lia. }
  assert (i64 (vote_Round vote) = vst_round vs) as Hround.
  { unfold vst_step_matches in Hstep. bsimp. lia. }
  unfold add_to_block. rewrite TalliedVotingPower_spec by done.
  rewrite (led_nil _ _ _ _ Hled) by done.
  rewrite bool_decide_eq_false_2 by done. rewrite (led_size _ _ _ _ Hled), Z.eqb_refl. simpl.
  rewrite (bv_addVerifiedVote_spec _ _ i) by done. simpl. rewrite Hround.
  fold (quorum vs). fold (bv_with bv vote i val). fold (recorded vs bv vote i val).
  assert (vote_recorded (recorded vs bv vote i val) i vote) as Hrec.
  { exists (bv_with bv vote i val). simpl. rewrite lookup_insert_eq. split; [done|]. simpl.
    by rewrite list_lookup_insert_eq. }
  assert (0 <= v_VotingPower val) as Hpv.
  { unfold powers_nonneg in Hp. rewrite Forall_lookup in Hp. by eapply Hp, powers_lookup. }
  destruct ((bv_sum bv <? quorum vs) && (quorum vs <=? bv_sum bv + v_VotingPower val)) eqn:Hc.
  - bsimp. destruct (vst_maj23 vs) as [b|] eqn:Hm.
    + eexists; split; [reflexivity|]. split_and!; try done.
      * apply recorded_wf_below; [done|congruence].
      * by intros ? [= <-].
    + change (<[i:=Some vote]> (bv_votes bv)) with (bv_votes (bv_with bv vote i val)).
      rewrite copy_votes_spec.
      * eexists; split; [reflexivity|]. split_and!; try done.
        -- by apply recorded_wf_cross.
        -- by apply recorded_keeps_cross.
      * simpl. rewrite length_insert.
        pose proof (led_len _ _ _ _ Hled). pose proof (led_len _ _ _ _ (pb_ledger _ _ _ _ _ Hpb)).
        lia.
  - eexists; split; [reflexivity|]. split_and!; try done.
    apply recorded_wf_below; [done|]. intros Hm.
    pose proof (pb_nomaj _ _ _ _ _ Hpb Hm _ _ He). bsimp. lia.
Qed.

(** *** The state around [add_to_block] *)

(** Tracking a block: its entry is new and empty, or keeps its votes. *)
Lemma wf_track vs k bv :
  vst_wf vs →
  match vst_votesByBlock vs !! k with
  | None => ∃ peer, bv = newBlockVotes peer (vs_Size (vst_valSet vs))
  | Some bv0 => ∃ peer, bv = mkBlockVotes peer (bv_bitArray bv0) (bv_votes bv0) (bv_sum bv0)
  end →
  vst_wf (set_votesByBlock vs (<[k := bv]> (vst_votesByBlock vs))).
Proof.
  intros Hwf Hbv. pose proof (quorum_pos _ Hwf) as Hq.
  destruct Hwf as [Hgp Hled Hval Hb Htr Hno Hmaj].
  assert (bv_ok vs k bv ∧ (vst_maj23 vs = None → bv_sum bv < quorum vs)) as [Hok Hlow].
  { destruct (vst_votesByBlock vs !! k) as [bv0|] eqn:E.
    - destruct Hbv as [peer ->]. destruct (Hb k bv0 E) as [? ?].
      split; [by split|]. intros Hm. by apply (Hno Hm _ _ E).
    - destruct Hbv as [peer ->]. split; [|done]. split.
      + apply ledger_new. by apply Hgp.
      + intros i v Hi. by apply lookup_replicate in Hi as [? _]. }
  split; try done; simpl.
  - intros k' bv'. rewrite lookup_insert_Some. intros [[<- <-]|[_ Hk]].
    + by destruct Hok; split.
    + by destruct (Hb _ _ Hk); split.
  - intros Hm i v Hi. destruct (Htr Hm i v Hi) as (bv' & Hk & Hi').
    destruct (decide (k = bid_Key (vote_BlockID v))) as [->|Hne].
    + rewrite lookup_insert_eq. rewrite Hk in Hbv. destruct Hbv as [peer ->]. by eexists.
    + rewrite lookup_insert_ne by done. eauto.
  - intros Hm k' bv'. rewrite lookup_insert_Some. intros [[<- <-]|[_ Hk]]; [by apply Hlow|].
    by apply (Hno Hm _ _ Hk).
  - intros b Hm. destruct (Hmaj b Hm) as (bv' & Hk & Hq' & i & v & Hi & Hv).
    destruct (decide (k = bid_Key b)) as [->|Hne].
    + rewrite lookup_insert_eq. rewrite Hk in Hbv. destruct Hbv as [peer ->].
      eexists; split; [done|]. split; [done|]. eauto.
    + rewrite lookup_insert_ne by done. eauto 10.
Qed.

(** Replacing the canonical vote of a validator once there is a majority. *)
Lemma wf_replace vs i e vote :
  vst_wf vs → vst_maj23 vs ≠ None → vst_votes vs !! i = Some (Some e) → valid_vote vs i vote →
  vst_wf (set_ledger vs (ba_SetIndex (vst_votesBitArray vs) (Z.of_nat i) true)
            (<[i := Some vote]> (vst_votes vs)) (vst_sum vs)).
Proof.
  intros [Hgp Hled Hval Hb _ _ Hmaj] Hm Hi Hvv.
  pose proof (lookup_lt_Some _ _ _ Hi) as Hlt.
  split; try done; simpl.
  - by eapply ledger_replace.
  - intros j v. destruct (decide (i = j)) as [<-|Hne].
    + rewrite list_lookup_insert_eq by done. by intros [= <-].
    + rewrite list_lookup_insert_ne by done. apply Hval.
  - intros k bv Hk. apply (bv_ok_mono vs); [done| |by apply Hb].
    intros j Hj. simpl. rewrite has_vote_insert by done. by rewrite Hj, orb_true_r.
Qed.

(** A validator without a vote votes for a tracked block. *)
Lemma pre_block_fill vs bv vote i val :
  vst_wf vs → vst_votesByBlock vs !! bid_Key (vote_BlockID vote) = Some bv →
  vst_votes vs !! i = Some None → vals (vst_valSet vs) !! i = Some val → valid_vote vs i vote →
  pre_block (set_ledger vs (ba_SetIndex (vst_votesBitArray vs) (Z.of_nat i) true)
               (<[i := Some vote]> (vst_votes vs)) (vst_sum vs + v_VotingPower val))
    bv vote i val.
Proof.
  intros [Hgp Hled Hval Hb Htr Hno Hmaj] He Hi Hv Hvv.
  pose proof (lookup_lt_Some _ _ _ Hi) as Hlt.
  split; try done; simpl.
  - destruct (Hb _ _ He) as [Hbl Hbv].
    destruct (lookup_lt_is_Some_2 (bv_votes bv) i) as [[w|] Hw]; [|by apply Hbv in Hw as
      (_ & _ & Hh); unfold has_vote in Hh; rewrite Hi in Hh|done].
    pose proof (led_len _ _ _ _ Hled). pose proof (led_len _ _ _ _ Hbl). lia.
  - rewrite has_vote_insert by done. by rewrite bool_decide_eq_true_2.
  - by apply ledger_add.
  - intros j v. destruct (decide (i = j)) as [<-|Hne].
    + rewrite list_lookup_insert_eq by done. by intros [= <-].
    + rewrite list_lookup_insert_ne by done. apply Hval.
  - intros k bv' Hk. apply (bv_ok_mono vs); [done| |by apply Hb].
    intros j Hj. simpl. rewrite has_vote_insert by done. by rewrite Hj, orb_true_r.
  - intros Hm j v. destruct (decide (i = j)) as [<-|Hne].
    + rewrite list_lookup_insert_eq by done. intros [= <-]. by left.
    + rewrite list_lookup_insert_ne by done. intros Hj. right. by apply Htr.
Qed.

(** A validator with a canonical vote votes for another tracked block. *)
Lemma pre_block_conflict vs bv vote i val e :
  vst_wf vs → vst_votesByBlock vs !! bid_Key (vote_BlockID vote) = Some bv →
  bv_votes bv !! i = Some None → vst_votes vs !! i = Some (Some e) →
  vals (vst_valSet vs) !! i = Some val → valid_vote vs i vote →
  pre_block vs bv vote i val.
Proof.
  intros [Hgp Hled Hval Hb Htr Hno Hmaj] He Hf Hi Hv Hvv. split; try done.
  - unfold has_vote. by rewrite Hi.
  - intros Hm j v Hj. right. by apply Htr.
Qed.

(** [getVote] does not panic in range; what it means that it finds nothing. *)
Lemma getVote_spec vs i k :
  vst_wf vs → (i < length (vst_votes vs))%nat →
  ∃ o, getVote vs (Z.of_nat i) k = Ret o ∧
    match o with
    | Some v => valid_vote vs i v ∧ bid_Key (vote_BlockID v) = k ∧
        (vst_votes vs !! i = Some (Some v) ∨ vote_recorded vs i v)
    | None => (∀ e, vst_votes vs !! i = Some (Some e) → bid_Key (vote_BlockID e) ≠ k) ∧
        (∀ bv, vst_votesByBlock vs !! k = Some bv → bv_votes bv !! i = Some None)
    end.
Proof.
  intros Hwf Hi. unfold getVote.
  destruct (slice_get_lookup (vst_votes vs) (Z.of_nat i)) as (o & Hget & Ho); [lia|].
  rewrite Nat2Z.id in Ho. rewrite Hget. simpl.
  set (canon := ∀ e, vst_votes vs !! i = Some (Some e) → bid_Key (vote_BlockID e) ≠ k).
  assert (canon → ∃ o, bv_getByIndex (vst_votesByBlock vs !! k) (Z.of_nat i) = Ret o ∧
    match o with
    | Some v => valid_vote vs i v ∧ bid_Key (vote_BlockID v) = k ∧
        (vst_votes vs !! i = Some (Some v) ∨ vote_recorded vs i v)
    | None => canon ∧ (∀ bv, vst_votesByBlock vs !! k = Some bv → bv_votes bv !! i = Some None)
    end) as Hblock.
  { intros Hc. destruct (vst_votesByBlock vs !! k) as [bv|] eqn:Hk; [|exists None; naive_solver].
    destruct (wf_blocks _ Hwf _ _ Hk) as [Hbl Hbv].
    pose proof (led_len _ _ _ _ Hbl). pose proof (led_len _ _ _ _ (wf_ledger _ Hwf)).
    destruct (slice_get_lookup (bv_votes bv) (Z.of_nat i)) as (o' & Hget' & Ho'); [lia|].
    rewrite Nat2Z.id in Ho'. simpl. exists o'. split; [done|].
    destruct o' as [v|]; [|naive_solver]. destruct (Hbv _ _ Ho') as (Hv1 & Hv2 & _).
    split; [done|]. split; [done|]. right. exists bv. by rewrite Hv2. }
  destruct o as [e|]; [|apply Hblock; intros e; unfold canon; by rewrite Ho].
  destruct (bytes_Equal (bid_Key (vote_BlockID e)) k) eqn:Hk.
  - exists (Some e). split; [done|]. apply bytes_Equal_true in Hk.
    split; [by apply (wf_valid _ Hwf)|]. split; [done|by left].
  - apply Hblock. intros e' He' Hk'. rewrite Ho in He'. simplify_eq.
    apply not_true_iff_false in Hk. by rewrite bytes_Equal_true in Hk.
Qed.

(** *** [addVerifiedVote] and [addVote] *)

(** What both guarantee of the state they leave. *)
Definition vst_evolves (vs vs' : VoteSet) : Prop :=
  same_static vs vs' ∧ vst_peerMaj23s vs' = vst_peerMaj23s vs ∧
  (∀ b, vst_maj23 vs = Some b → vst_maj23 vs' = Some b) ∧ keeps_votes vs vs'.

#[global] Instance vst_evolves_refl : Reflexive vst_evolves.
Proof. intros vs. split; [by repeat split|]. split; [done|]. split; [done|]. by apply keeps_same. Qed.

#[global] Instance vst_evolves_trans : Transitive vst_evolves.
Proof.
  intros vs1 vs2 vs3 ((H1 & H2 & H3 & H4 & H5) & Hp & Hm & [Hb Hc]) ((G1 & G2 & G3 & G4 & G5) & Gp & Gm & [Gb Gc]).
  split; [split_and!; congruence|]. split; [congruence|]. split; [auto|]. constructor; [auto|].
  intros i v Hv. destruct (Hc i v Hv) as (v' & Hv' & Hor), (Gc i v' Hv') as (v'' & Hv'' & Gor).
  exists v''. split; [done|]. destruct Gor as [->|]; [|by right].
  destruct Hor as [->|(b & Hb' & Hk)]; [by left|]. right. eauto.
Qed.

Lemma add_to_block_post vs0 vs bv vote i val conflicting :
  pre_block vs bv vote i val → vst_evolves vs0 vs →
  ∃ vs' added,
    add_to_block vs bv vote (bid_Key (vote_BlockID vote)) (v_VotingPower val) conflicting
      = Ret (vs', added, conflicting) ∧ vst_wf vs' ∧ vst_evolves vs0 vs' ∧
    (conflicting = None → added = true) ∧ (added = true → vote_recorded vs' i vote).
Proof.
  intros Hpb Hev. destruct (add_to_block_spec _ _ _ _ _ conflicting Hpb)
    as (vs' & -> & Hwf & Hst & Hm & Hp & Hrec & Hkeep).
  exists vs', true. split_and!; try done. transitivity vs; [done|]. by split_and!.
Qed.

(** A canonical vote is set, or replaced by one for the block of the majority. *)
Lemma evolves_ledger vs i vote ba sum :
  (∀ e, vst_votes vs !! i = Some (Some e) →
     ∃ b, vst_maj23 vs = Some b ∧ bid_Key (vote_BlockID vote) = bid_Key b) →
  vst_evolves vs (set_ledger vs ba (<[i := Some vote]> (vst_votes vs)) sum).
Proof.
  intros Hi. split; [by repeat split|]. split; [done|]. split; [done|]. constructor; [done|].
  intros j v Hj. simpl. destruct (decide (i = j)) as [<-|Hne].
  - exists vote. rewrite list_lookup_insert_eq by (by eapply lookup_lt_Some). split; [done|]. right. by eapply Hi.
  - exists v. rewrite list_lookup_insert_ne by done. by split; [|left].
Qed.

Lemma evolves_track vs k bv :
  vst_votesByBlock vs !! k = None → vst_evolves vs (set_votesByBlock vs (<[k := bv]> (vst_votesByBlock vs))).
Proof.
  intros Hk. split; [by repeat split|]. split; [done|]. split; [done|]. apply keeps_same; [|done].
  intros i v (bv' & Hb & Hv). exists bv'. split; [|done]. simpl. rewrite lookup_insert_ne; [done|congruence].
Qed.

Lemma addVerifiedVote_spec vs vote i val :
  vst_wf vs → valid_vote vs i vote → vals (vst_valSet vs) !! i = Some val →
  getVote vs (Z.of_nat i) (bid_Key (vote_BlockID vote)) = Ret None →
  ∃ vs' added conflicting,
    addVerifiedVote vs vote (bid_Key (vote_BlockID vote)) (v_VotingPower val)
      = Ret (vs', added, conflicting) ∧ vst_wf vs' ∧ vst_evolves vs vs' ∧
    vst_votes vs !! i = Some conflicting ∧
    (conflicting = None → added = true) ∧ (added = true → vote_recorded vs' i vote).
Proof.
  intros Hwf Hvv Hv Hget. pose proof Hvv as (Hvi & _ & _).
  assert (i < length (vst_votes vs))%nat as Hlt.
  { pose proof (led_len _ _ _ _ (wf_ledger _ Hwf)) as Hl. unfold vs_Size in Hl.
    apply lookup_lt_Some in Hv. lia. }
  destruct (getVote_spec vs i (bid_Key (vote_BlockID vote)) Hwf Hlt) as (o & Ho & Hcan).
  rewrite Hget in Ho. simplify_eq. destruct Hcan as [Hcan Hfree].
  unfold addVerifiedVote. rewrite Hvi.
  destruct (slice_get_lookup (vst_votes vs) (Z.of_nat i)) as (c & Hc & Hi); [lia|].
  rewrite Nat2Z.id in Hi. rewrite Hc, slice_set_ok by lia. rewrite Nat2Z.id. simpl.
  destruct c as [e|].
  - assert (bid_Equals (vote_BlockID e) (vote_BlockID vote) = false) as ->.
    { apply not_true_iff_false. rewrite bid_Equals_true. intros Heq. apply (Hcan e Hi).
      by rewrite Heq. }
    assert (∃ vs1, (if match vst_maj23 vs with
                       | Some maj23 => bytes_Equal (bid_Key maj23) (bid_Key (vote_BlockID vote))
                       | None => false
                       end
                    then Ret (set_ledger vs (ba_SetIndex (vst_votesBitArray vs) (Z.of_nat i) true)
                           (<[i:=Some vote]> (vst_votes vs)) (vst_sum vs), Some e)
                    else Ret (vs, Some e)) = Ret (vs1, Some e) ∧
      vst_wf vs1 ∧ vst_evolves vs vs1 ∧ vst_votesByBlock vs1 = vst_votesByBlock vs ∧
      has_vote (vst_votes vs1) i = true) as (vs1 & Hr & Hwf1 & Hev & Hbb & Hh).
    { destruct (vst_maj23 vs) as [b|] eqn:Hm; [destruct (bytes_Equal _ _) eqn:Hbe|];
        (eexists; split; [reflexivity|]); split_and!; try done.
      - eapply wf_replace; [done|by rewrite Hm|done|done].
      - apply evolves_ledger. intros _ _. exists b. by apply bytes_Equal_true in Hbe.
      - simpl. rewrite has_vote_insert by done. by rewrite bool_decide_eq_true_2.
      - unfold has_vote. by rewrite Hi.
      - unfold has_vote. by rewrite Hi. }
    change (@mret outcome _) with (@Ret). rewrite Hr. simpl. rewrite Hbb. clear Hr.
    destruct (vst_votesByBlock vs !! bid_Key (vote_BlockID vote)) as [bv|] eqn:Hk;
      [destruct (bv_peerMaj23 bv); simpl|].
    + unfold has_vote in Hh. destruct (vst_votes vs1 !! i) as [[e1|]|] eqn:He1; [|done..].
      destruct Hev as [Hst Hev']. edestruct (add_to_block_post vs vs1 bv vote i val (Some e))
        as (vs' & added & Heq & Hpost); [|by split|].
      { eapply pre_block_conflict; [done|by rewrite Hbb|by apply Hfree|done| |].
        - by destruct Hst as (_ & _ & _ & _ & ->).
        - by eapply valid_vote_static. }
      exists vs', added, (Some e). naive_solver.
    + exists vs1, false, (Some e). by split_and!.
    + exists vs1, false, (Some e). by split_and!.
  - simpl. destruct (vst_votesByBlock vs !! bid_Key (vote_BlockID vote)) as [bv|] eqn:Hk.
    + destruct (add_to_block_post vs _ bv vote i val None
        (pre_block_fill vs bv vote i val Hwf Hk Hi Hv Hvv)
        ltac:(apply evolves_ledger; intros ?; by rewrite Hi))
        as (vs' & added & Heq & Hpost).
      exists vs', added, None. split; [exact Heq|]. naive_solver.
    + pose proof (wf_track vs (bid_Key (vote_BlockID vote))
        (newBlockVotes false (vs_Size (vst_valSet vs))) Hwf) as Hwf0.
      rewrite Hk in Hwf0. specialize (Hwf0 ltac:(by eexists)).
      destruct (add_to_block_post vs _ _ vote i val None
        (pre_block_fill _ _ vote i val Hwf0 (lookup_insert_eq _ _ _) Hi Hv Hvv)
        ltac:(etransitivity; [by apply evolves_track|]; apply evolves_ledger; intros ?; simpl; by rewrite Hi))
        as (vs' & added & Heq & Hpost).
      exists vs', added, None. split; [exact Heq|]. naive_solver.
Qed.

(** The outcomes of [addVote], one per branch of the code. *)
Inductive addVote_post (vs : VoteSet) (vote : Vote)
    : outcome (VoteSet * bool * option VoteErr) → Prop :=
| av_no_address why :
    vote_ValidatorAddress vote = [] → addVote_post vs vote (Panic why)
| av_step :
    vote_ValidatorAddress vote ≠ [] → vst_step_matches vs vote = false →
    addVote_post vs vote (Ret (vs, false, Some ErrVoteUnexpectedStep))
| av_index why :
    vote_ValidatorAddress vote ≠ [] → vst_step_matches vs vote = true →
    ¬ vote_ValidatorIndex vote < vs_Size (vst_valSet vs) →
    addVote_post vs vote (Panic why)
| av_address i val :
    vst_step_matches vs vote = true → vote_ValidatorIndex vote = Z.of_nat i →
    vals (vst_valSet vs) !! i = Some val → vote_ValidatorAddress vote ≠ v_Address val →
    addVote_post vs vote (Ret (vs, false, Some ErrVoteInvalidValidatorAddress))
| av_known i known :
    vote_ValidatorIndex vote = Z.of_nat i →
    valid_vote vs i known → bid_Key (vote_BlockID known) = bid_Key (vote_BlockID vote) →
    vst_votes vs !! i = Some (Some known) ∨ vote_recorded vs i known →
    addVote_post vs vote (Ret (vs, false,
      if Signature_Equals (vote_Signature known) (vote_Signature vote) then None
      else Some ErrVoteInvalidSignature))
| av_signature i :
    vote_ValidatorIndex vote = Z.of_nat i → ¬ valid_vote vs i vote →
    addVote_post vs vote (Ret (vs, false, Some ErrVoteInvalidSignature))
| av_added i vs' :
    valid_vote vs i vote → vst_votes vs !! i = Some None →
    vst_wf vs' → vst_evolves vs vs' → vote_recorded vs' i vote →
    addVote_post vs vote (Ret (vs', true, None))
| av_conflict i e vs' added :
    valid_vote vs i vote → vst_votes vs !! i = Some (Some e) →
    bid_Key (vote_BlockID e) ≠ bid_Key (vote_BlockID vote) →
    vst_wf vs' → vst_evolves vs vs' → (added = true → vote_recorded vs' i vote) →
    addVote_post vs vote (Ret (vs', added, Some (ErrVoteConflictingVotes e vote))).

Lemma addVote_spec vs vote :
  vst_wf vs → in_u64 (vote_ValidatorIndex vote) → addVote_post vs vote (addVote vs vote).
Proof.
  intros Hwf Hu. unfold addVote.
  destruct (Z.ltb_spec (vote_ValidatorIndex vote) 0); [unfold in_u64 in Hu; lia|]. simpl.
  case_bool_decide as Ha; [by apply av_no_address|].
  destruct (vst_step_matches vs vote) eqn:Hstep; simpl; [|by apply av_step].
  destruct (wf_params _ Hwf) as (_ & Hn & _ & _).
  destruct (decide (vote_ValidatorIndex vote < vs_Size (vst_valSet vs))) as [Hlt|Hge]; cycle 1.
  { destruct (proj2 (slice_get_Panic (vals (vst_valSet vs)) (i64 (vote_ValidatorIndex vote))))
      as [why Hwhy]; [|unfold GetByIndex; rewrite Hwhy; by apply av_index].
    fold (vs_Size (vst_valSet vs)). pose proof (u64_i64 (vote_ValidatorIndex vote) Hu) as Hr.
    intros Hin. rewrite u64_small in Hr by (unfold in_u64; lia). lia. }
  rewrite i64_small by (unfold in_i64; lia).
  assert (vote_ValidatorIndex vote = Z.of_nat (Z.to_nat (vote_ValidatorIndex vote))) as Hi by lia.
  set (i := Z.to_nat (vote_ValidatorIndex vote)) in *. rewrite Hi.
  unfold GetByIndex.
  destruct (slice_get_lookup (vals (vst_valSet vs)) (Z.of_nat i)) as (val & -> & Hv).
  { fold (vs_Size (vst_valSet vs)). lia. }
  rewrite Nat2Z.id in Hv. simpl.
  destruct (bytes_Equal (vote_ValidatorAddress vote) (v_Address val)) eqn:Hb; simpl; cycle 1.
  { apply (av_address _ _ i val); try done. intros He. apply not_true_iff_false in Hb.
    by rewrite bytes_Equal_true in Hb. }
  apply bytes_Equal_true in Hb.
  destruct (getVote_spec vs i (bid_Key (vote_BlockID vote)) Hwf) as (known & Hget & Hk).
  { pose proof (led_len _ _ _ _ (wf_ledger _ Hwf)). lia. }
  rewrite Hget. simpl. destruct known as [known|].
  { destruct Hk as (Hk1 & Hk2 & Hk3). pose proof (av_known _ _ i known Hi Hk1 Hk2 Hk3) as Hp.
    by destruct (Signature_Equals _ _). }
  destruct (VerifyBytes _ _ _) eqn:Hsig; simpl; cycle 1.
  { apply (av_signature _ _ i); [done|]. intros (_ & _ & val' & Hv' & _ & Hs).
    rewrite Hv in Hv'. simplify_eq. congruence. }
  assert (valid_vote vs i vote) as Hvv by (split; [done|split; [done|by exists val]]).
  destruct (addVerifiedVote_spec vs vote i val Hwf Hvv Hv Hget)
    as (vs' & added & conflicting & -> & Hwf' & Hev & Hc & Hn1 & Hrec). simpl.
  destruct conflicting as [e|].
  - destruct added; apply (av_conflict _ _ i); try done; by apply Hk.
  - rewrite Hn1 in * by done. by apply (av_added _ _ i); auto.
Qed.

Lemma SetPeerMaj23_wf vs peerID blockID :
  vst_wf vs → vst_wf (vst_SetPeerMaj23 vs peerID blockID).
Proof.
  intros Hwf. unfold vst_SetPeerMaj23. destruct (vst_peerMaj23s vs !! peerID); [done|].
  assert (vst_wf (set_peerMaj23s vs (<[peerID := blockID]> (vst_peerMaj23s vs)))) as Hwf1.
  { destruct Hwf. split; try done. intros k bv Hk.
    by apply (bv_ok_mono vs); [repeat split|auto|auto]. }
  simpl. pose proof (λ bv, wf_track _ (bid_Key blockID) bv Hwf1) as Ht. simpl in Ht.
  destruct (vst_votesByBlock vs !! bid_Key blockID) as [bv|] eqn:Hk.
  - destruct (bv_peerMaj23 bv); [done|]. apply Ht. by eexists.
  - apply Ht. by eexists.
Qed.

(** *** Reachable vote sets *)

(** The vote sets a sequence of [AddVote] and [SetPeerMaj23] calls can produce.
    Vote indices are [uint64]. *)
Inductive vst_reachable : VoteSet → Prop :=
| vr_new chainID height round type_ valSet vs :
    good_params valSet round → NewVoteSet chainID height round type_ valSet = Ret vs →
    vst_reachable vs
| vr_add vs vote vs' added err :
    vst_reachable vs → in_u64 (vote_ValidatorIndex vote) →
    vst_AddVote (Some vs) vote = Ret (vs', added, err) → vst_reachable vs'
| vr_peer vs peerID blockID :
    vst_reachable vs → vst_reachable (vst_SetPeerMaj23 vs peerID blockID).

Lemma addVote_wf vs vote vs' added err :
  vst_wf vs → in_u64 (vote_ValidatorIndex vote) →
  addVote vs vote = Ret (vs', added, err) → vst_wf vs' ∧ vst_evolves vs vs'.
Proof.
  intros Hwf Hu Heq. pose proof (addVote_spec vs vote Hwf Hu) as Hp.
  rewrite Heq in Hp. by inversion Hp; subst.
Qed.

Lemma reachable_wf vs : vst_reachable vs → vst_wf vs.
Proof.
  induction 1 as [chainID height round type_ valSet vs Hgp Hnew|vs vote vs' added err _ IH Hu Ha
    |vs peerID blockID _ IH].
  - destruct (decide (height = 0)) as [->|Hh]; [done|].
    destruct (NewVoteSet_wf chainID height round type_ valSet Hgp Hh) as (vs1 & He & Hwf).
    by rewrite He in Hnew; simplify_eq.
  - by apply (addVote_wf vs vote vs' added err).
  - by apply SetPeerMaj23_wf.
Qed.

(** The signers recorded for the block of [b]. *)
Definition block_signers (vs : VoteSet) (b : BlockID) (i : nat) : bool :=
  match vst_votesByBlock vs !! bid_Key b with
  | Some bv => has_vote (bv_votes bv) i
  | None => false
  end.

(** The validators whose canonical vote is for the block with key [k]. *)
Definition canonical_signers (vs : VoteSet) (k : bytes) (i : nat) : bool :=
  match vst_votes vs !! i with
  | Some (Some v) => bytes_Equal (bid_Key (vote_BlockID v)) k
  | _ => false
  end.

(** C22. AddVote on a reachable vote set behaves as specified on each branch: panic,
    wrong step, wrong address, an already recorded vote, bad signature, a new vote
    recorded, or a conflicting vote reported with both votes. The invariant is kept,
    every vote that is recorded for a block stays recorded for it, and the vote that
    counts for a validator stays or is replaced by one for the block of the majority. *)
Theorem addVote_correct vs vote :
  vst_reachable vs → in_u64 (vote_ValidatorIndex vote) →
  addVote_post vs vote (vst_AddVote (Some vs) vote).
Proof. intros Hr Hu. apply addVote_spec; [by apply reachable_wf|done]. Qed.

(** AddVote panics exactly when the vote has an empty validator address or, for the
    right step, an index beyond the validator set. *)
Theorem addVote_panics_iff vs vote :
  vst_reachable vs → in_u64 (vote_ValidatorIndex vote) →
  is_panic (vst_AddVote (Some vs) vote) ↔
    vote_ValidatorAddress vote = [] ∨
    (vst_step_matches vs vote = true ∧ vs_Size (vst_valSet vs) <= vote_ValidatorIndex vote).
Proof.
  intros Hr%reachable_wf Hu. split.
  - intros [w Hw]. simpl in Hw. pose proof (addVote_spec vs vote Hr Hu) as Hp. rewrite Hw in Hp.
    inversion Hp; subst; [by left|right; split; [done|lia]].
  - simpl. unfold addVote, is_panic. intros [->|[-> Hge]]; [rewrite orb_true_r; eauto|].
    destruct (_ || _); [eauto|]. simpl.
    destruct (proj2 (slice_get_Panic (vals (vst_valSet vs)) (i64 (vote_ValidatorIndex vote))))
      as [why Hwhy]; [|unfold GetByIndex; rewrite Hwhy; by eexists].
    fold (vs_Size (vst_valSet vs)). pose proof (u64_i64 (vote_ValidatorIndex vote) Hu) as Hi.
    destruct (wf_params _ Hr) as (_ & Hn & _). intros Hin.
    rewrite u64_small in Hi by (unfold in_u64; lia). lia.
Qed.

(** C2. In every reachable vote set, a reported two-thirds majority for a block is
    backed by votes that pass every check (index, height, round, type, address,
    signature) of validators whose power reaches the quorum of the round, and at least
    one such vote is for exactly that block id. *)
Theorem majority_sound vs b :
  vst_reachable vs → vst_TwoThirdsMajority (Some vs) = (b, true) →
  quorum vs <= tally (block_signers vs b) (powers (vst_valSet vs)) ∧
  (∃ i v, valid_vote vs i v ∧ vote_BlockID v = b) ∧
  ∀ i, block_signers vs b i = true →
    ∃ v, valid_vote vs i v ∧ bid_Key (vote_BlockID v) = bid_Key b.
Proof.
  intros Hr%reachable_wf Hm. simpl in Hm. destruct (vst_maj23 vs) as [b'|] eqn:Hmaj; simplify_eq.
  destruct (wf_maj _ Hr b Hmaj) as (bv & Hk & Hq & i & v & Hi & Hv).
  destruct (wf_blocks _ Hr _ _ Hk) as [Hled Hval]. unfold block_signers. rewrite Hk.
  split; [by rewrite (led_sum _ _ _ _ Hled) in Hq|]. split.
  - exists i, v. split; [|done]. by apply Hval.
  - intros j. unfold has_vote. destruct (bv_votes bv !! j) as [[w|]|] eqn:Hj; [|done..].
    intros _. exists w. by apply Hval in Hj as (? & ? & _).
Qed.

(** When a reachable vote set reports no majority, the recorded power of the first
    votes for any one block is below the quorum of the round. *)
Theorem majority_complete vs k :
  vst_reachable vs → vst_HasTwoThirdsMajority (Some vs) = false →
  tally (canonical_signers vs k) (powers (vst_valSet vs)) < quorum vs.
Proof.
  intros Hr%reachable_wf Hm. simpl in Hm. apply bool_decide_eq_false in Hm.
  assert (vst_maj23 vs = None) as Hno by (destruct (vst_maj23 vs); [by destruct Hm; eexists|done]).
  destruct (wf_params _ Hr) as (_ & _ & Hp & _).
  assert (∀ i, canonical_signers vs k i = true → ∃ bv, vst_votesByBlock vs !! k = Some bv ∧
    has_vote (bv_votes bv) i = true) as Hin.
  { intros i. unfold canonical_signers. destruct (vst_votes vs !! i) as [[v|]|] eqn:Hi; [|done..].
    intros <-%bytes_Equal_true. destruct (wf_tracked _ Hr Hno i v Hi) as (bv & Hk & Hbi).
    exists bv. split; [done|]. unfold has_vote. by rewrite Hbi. }
  destruct (vst_votesByBlock vs !! k) as [bv|] eqn:Hk.
  - apply Z.le_lt_trans with (bv_sum bv); [|by eapply wf_nomaj].
    rewrite (led_sum _ _ _ _ (bvo_ledger _ _ _ (wf_blocks _ Hr _ _ Hk))).
    apply tally_mono; [done|]. intros i Hi. by destruct (Hin i Hi) as (? & [= <-] & ?).
  - apply Z.le_lt_trans with 0; [|by apply quorum_pos].
    rewrite <-(tally_false (powers (vst_valSet vs))). apply tally_mono; [done|].
    intros i Hi. by destruct (Hin i Hi) as (? & ? & _).
Qed.

(** A majority, once reported, is for the same block after any further vote,
    conflicting votes included. *)
Theorem majority_stable vs vote vs' added err b :
  vst_reachable vs → in_u64 (vote_ValidatorIndex vote) →
  vst_AddVote (Some vs) vote = Ret (vs', added, err) →
  vst_TwoThirdsMajority (Some vs) = (b, true) →
  vst_TwoThirdsMajority (Some vs') = (b, true).
Proof.
  intros Hr%reachable_wf Hu Ha. simpl in Ha.
  destruct (addVote_wf _ _ _ _ _ Hr Hu Ha) as [_ (_ & _ & Hm & _)]. simpl.
  destruct (vst_maj23 vs) as [b'|]; [|done]. intros [= ->]. by rewrite (Hm b eq_refl).
Qed.

End vote_set_props.

(** ** Concrete instances *)

(** The prevote of validator [i] of [ex_valSet] for [ex_block h], height 5, round 2. *)
Definition ex_vote (i h : Z) : @Vote toy_lib :=
  let unsigned := mkVote (LIB := toy_lib) [i + 1] i 5 2 VoteTypePrevote (ex_block h) None [] in
  mkVote (LIB := toy_lib) [i + 1] i 5 2 VoteTypePrevote (ex_block h)
    (Some ([i + 1], @SignBytes_Vote toy_lib "neatio" unsigned)) [].

Definition ex_add (vs : @VoteSet toy_lib) (vote : @Vote toy_lib) : @VoteSet toy_lib :=
  match addVote vs vote with Ret (vs', _, _) => vs' | Panic _ => vs end.

Definition ex_vst0 : @VoteSet toy_lib :=
  match @NewVoteSet toy_lib "neatio" 5 2 VoteTypePrevote ex_valSet with
  | Ret vs => vs
  | Panic _ => mkVoteSet (LIB := toy_lib) "" 0 0 0 ex_valSet [] [] 0 None ∅ ∅
  end.

(** Validators 2 and 3 vote for block 7: a quorum of 70 out of 100. *)
Definition ex_vst1 : @VoteSet toy_lib := ex_add ex_vst0 (ex_vote 3 7).
Definition ex_vst2 : @VoteSet toy_lib := ex_add ex_vst1 (ex_vote 2 7).

Lemma ex_good_params : @good_params toy_lib ex_valSet 2.
Proof.
  split_and!; [done|done| |lia|lia]. apply (bool_decide_unpack _). vm_compute. exact I.
Qed.

Lemma ex_reach0 : @vst_reachable toy_lib ex_vst0.
Proof. by apply (vr_new "neatio" 5 2 VoteTypePrevote ex_valSet), eq_refl; apply ex_good_params. Qed.

Lemma ex_reach_add vs vote :
  vst_reachable vs → in_u64 (vote_ValidatorIndex vote) → vst_reachable (ex_add vs vote).
Proof.
  intros Hr Hu. unfold ex_add. destruct (addVote vs vote) as [[[vs' a] e]|w] eqn:E; [|done].
  by apply (vr_add vs vote vs' a e).
Qed.

Lemma ex_add_Ret vs vote :
  match addVote vs vote with Ret (_, true, None) => true | _ => false end = true →
  addVote vs vote = Ret (ex_add vs vote, true, None).
Proof. unfold ex_add. by destruct (addVote vs vote) as [[[vs' []] [e|]]|w]. Qed.

Lemma ex_reach1 : @vst_reachable toy_lib ex_vst1.
Proof. apply ex_reach_add; [apply ex_reach0|done]. Qed.

Lemma ex_reach2 : @vst_reachable toy_lib ex_vst2.
Proof. apply ex_reach_add; [apply ex_reach1|done]. Qed.

Lemma addVote_correct_witness :
  addVote_post ex_vst1 (ex_vote 2 7) (vst_AddVote (Some ex_vst1) (ex_vote 2 7)).
Proof. apply (@addVote_correct toy_lib toy_laws); [apply ex_reach1|done]. Defined.

Lemma addVote_panics_iff_witness : is_panic (vst_AddVote (Some ex_vst1) (ex_vote 4 7)).
Proof.
  apply (@addVote_panics_iff toy_lib toy_laws); [apply ex_reach1|done|].
  right. split; vm_compute; done.
Defined.

Lemma majority_sound_witness :
  65 <= tally (@block_signers toy_lib ex_vst2 (ex_block 7)) [10; 20; 30; 40].
Proof.
  transitivity (@quorum toy_lib ex_vst2); [vm_compute; done|].
  refine (proj1 (@majority_sound toy_lib toy_laws ex_vst2 (ex_block 7) ex_reach2 _)).
  vm_compute. reflexivity.
Defined.

Lemma majority_complete_witness :
  tally (@canonical_signers toy_lib ex_vst1 (@bid_Key toy_lib (ex_block 7))) [10; 20; 30; 40] <
    @quorum toy_lib ex_vst1.
Proof.
  refine (@majority_complete toy_lib toy_laws ex_vst1 (@bid_Key toy_lib (ex_block 7)) ex_reach1 _).
  vm_compute. reflexivity.
Defined.

Lemma majority_stable_witness :
  vst_TwoThirdsMajority (Some (ex_add ex_vst2 (ex_vote 1 9))) = (ex_block 7, true).
Proof.
  refine (@majority_stable toy_lib toy_laws ex_vst2 (ex_vote 1 9) (ex_add ex_vst2 (ex_vote 1 9))
    true None (ex_block 7) ex_reach2 _ _ _); [done| |vm_compute; reflexivity].
  apply ex_add_Ret. vm_compute. reflexivity.
Defined.
