(* ===== verification/HeightVoteSet.v ===== *)
(** * Vote sets of a height (consensus/neatpos/consensus/height_vote_set.go)

    [HeightVoteSet] keeps a prevote and a precommit [VoteSet] for every round from
    0 to the current one, plus catch-up rounds that peers opened.  The operations
    follow the code, panics included; the invariant [hvs_wf] bounds the rounds that
    peers can make the node track and says that every tracked vote set is one a
    sequence of [AddVote]/[SetPeerMaj23] calls produces. *)

From Stdlib Require Import ZArith Lia.
From stdpp Require Import base tactics strings numbers gmap list.
From S2P Require Import Prelude Types ValidatorSet VoteSet.

Local Open Scope Z_scope.

Section height_vote_set.
Context {LIB : NeatLib}.

Record RoundVoteSet := mkRoundVoteSet {
  rvs_Prevotes : VoteSet;
  rvs_Precommits : VoteSet
}.

Record HeightVoteSet := mkHeightVoteSet {
  hvs_chainID : string;
  hvs_height : Z;
  hvs_valSet : ValidatorSet;
  hvs_round : Z;
  hvs_roundVoteSets : gmap Z RoundVoteSet;
  hvs_peerCatchupRounds : gmap string (list Z)
}.

(** Field updates. *)
Definition hvs_set_rounds (hvs : HeightVoteSet) (m : gmap Z RoundVoteSet) : HeightVoteSet :=
  mkHeightVoteSet (hvs_chainID hvs) (hvs_height hvs) (hvs_valSet hvs) (hvs_round hvs) m
    (hvs_peerCatchupRounds hvs).

Definition hvs_set_round (hvs : HeightVoteSet) (round : Z) : HeightVoteSet :=
  mkHeightVoteSet (hvs_chainID hvs) (hvs_height hvs) (hvs_valSet hvs) round
    (hvs_roundVoteSets hvs) (hvs_peerCatchupRounds hvs).

Definition hvs_set_catchup (hvs : HeightVoteSet) (m : gmap string (list Z)) : HeightVoteSet :=
  mkHeightVoteSet (hvs_chainID hvs) (hvs_height hvs) (hvs_valSet hvs) (hvs_round hvs)
    (hvs_roundVoteSets hvs) m.

Definition hvs_addRound (hvs : HeightVoteSet) (round : Z) : outcome HeightVoteSet :=
  match hvs_roundVoteSets hvs !! round with
  | Some _ => Panic "addRound() for an existing round"
  | None =>
      prevotes ← NewVoteSet (hvs_chainID hvs) (hvs_height hvs) round VoteTypePrevote
                   (hvs_valSet hvs);
      precommits ← NewVoteSet (hvs_chainID hvs) (hvs_height hvs) round VoteTypePrecommit
                     (hvs_valSet hvs);
      mret (hvs_set_rounds hvs
              (<[round := mkRoundVoteSet prevotes precommits]> (hvs_roundVoteSets hvs)))
  end.

(** [Reset] keeps the old [round] while round 0 is added, as the code does. *)
Definition hvs_Reset (hvs : HeightVoteSet) (height : Z) (valSet : ValidatorSet)
    : outcome HeightVoteSet :=
  hvs ← hvs_addRound (mkHeightVoteSet (hvs_chainID hvs) height valSet (hvs_round hvs) ∅ ∅) 0;
  mret (hvs_set_round hvs 0).

Definition NewHeightVoteSet (chainID : string) (height : Z) (valSet : ValidatorSet)
    : outcome HeightVoteSet :=
  hvs_Reset (mkHeightVoteSet chainID 0 (mkValidatorSet None None) 0 ∅ ∅) height valSet.

(** [for r := hvs.round + 1; r <= round; r++]: the rounds already opened are kept.
    The loop is the code's for [round] below the greatest [int]. *)
Definition hvs_SetRound (hvs : HeightVoteSet) (round : Z) : outcome HeightVoteSet :=
  if negb (hvs_round hvs =? 0) && (round <? i64 (hvs_round hvs + 1))
  then Panic "SetRound() must increment hvs.round"
  else
    hvs ← for_loop (Z.to_nat (round - hvs_round hvs)) (hvs_round hvs + 1)
            (λ r hvs, match hvs_roundVoteSets hvs !! r with
                      | Some _ => mret hvs
                      | None => hvs_addRound hvs r
                      end) hvs;
    mret (hvs_set_round hvs round).

Definition hvs_ResetTop2Round (hvs : HeightVoteSet) (round : Z) : outcome HeightVoteSet :=
  if (hvs_round hvs <? round) || (round <? 1)
  then Panic "hvs.ResetTop2Round() must have enough round to reset"
  else
    hvs ← for_loop (Z.to_nat (hvs_round hvs - (round - 1) + 1)) (round - 1)
            (λ r hvs, mret (hvs_set_rounds hvs (delete r (hvs_roundVoteSets hvs)))) hvs;
    hvs ← hvs_addRound hvs (round - 1);
    hvs ← hvs_addRound hvs round;
    mret (hvs_set_round hvs round).

(** [getVoteSet]: nil when the round is not tracked; a sanity panic on a bad type. *)
Definition hvs_getVoteSet (hvs : HeightVoteSet) (round type_ : Z) : outcome (option VoteSet) :=
  match hvs_roundVoteSets hvs !! round with
  | None => mret None
  | Some rvs =>
      if type_ =? VoteTypePrevote then mret (Some (rvs_Prevotes rvs))
      else if type_ =? VoteTypePrecommit then mret (Some (rvs_Precommits rvs))
      else Panic "Unexpected vote type"
  end.

(** Writing back a vote set that was changed through its pointer. *)
Definition hvs_putVoteSet (hvs : HeightVoteSet) (round type_ : Z) (vs : VoteSet)
    : HeightVoteSet :=
  match hvs_roundVoteSets hvs !! round with
  | None => hvs
  | Some rvs =>
      hvs_set_rounds hvs
        (<[round := if type_ =? VoteTypePrevote then mkRoundVoteSet vs (rvs_Precommits rvs)
                    else mkRoundVoteSet (rvs_Prevotes rvs) vs]> (hvs_roundVoteSets hvs))
  end.

Inductive HvsErr := ErrUnwantedRound | ErrVote (e : VoteErr).

(** [added, err = voteSet.AddVote(vote)], the vote set changed in place. *)
Definition hvs_add_to (hvs : HeightVoteSet) (voteSet : option VoteSet) (vote : Vote)
    : outcome (HeightVoteSet * bool * option HvsErr) :=
  match vst_AddVote voteSet vote with
  | Panic why => Panic why
  | Ret (vs', added, err) =>
      Ret (hvs_putVoteSet hvs (i64 (vote_Round vote)) (vote_Type vote) vs', added, ErrVote <$> err)
  end.

Definition hvs_AddVote (hvs : HeightVoteSet) (vote : Vote) (peerKey : string)
    : outcome (HeightVoteSet * bool * option HvsErr) :=
  if negb (IsVoteTypeValid (vote_Type vote)) then mret (hvs, false, None)
  else
    let round := i64 (vote_Round vote) in
    voteSet ← hvs_getVoteSet hvs round (vote_Type vote);
    match voteSet with
    | Some vs => hvs_add_to hvs (Some vs) vote
    | None =>
        let rndz := default [] (hvs_peerCatchupRounds hvs !! peerKey) in
        if Z.of_nat (length rndz) <? 2 then
          hvs ← hvs_addRound hvs round;
          voteSet ← hvs_getVoteSet hvs round (vote_Type vote);
          let hvs := hvs_set_catchup hvs
                       (<[peerKey := rndz ++ [round]]> (hvs_peerCatchupRounds hvs)) in
          hvs_add_to hvs voteSet vote
        else mret (hvs, false, Some ErrUnwantedRound)
    end.

Definition hvs_Prevotes (hvs : HeightVoteSet) (round : Z) : outcome (option VoteSet) :=
  hvs_getVoteSet hvs round VoteTypePrevote.

Definition hvs_Precommits (hvs : HeightVoteSet) (round : Z) : outcome (option VoteSet) :=
  hvs_getVoteSet hvs round VoteTypePrecommit.

(** [for r := hvs.round; r >= 0; r--]: [n] rounds are left, the next is [n - 1]. *)
Fixpoint hvs_POLInfo_from (hvs : HeightVoteSet) (n : nat) : outcome (Z * BlockID) :=
  match n with
  | O => mret (-1, bid_zero)
  | S n =>
      rvs ← hvs_getVoteSet hvs (Z.of_nat n) VoteTypePrevote;
      let '(polBlockID, ok) := vst_TwoThirdsMajority rvs in
      if ok then mret (Z.of_nat n, polBlockID) else hvs_POLInfo_from hvs n
  end.

Definition hvs_POLInfo (hvs : HeightVoteSet) : outcome (Z * BlockID) :=
  hvs_POLInfo_from hvs (Z.to_nat (hvs_round hvs + 1)).

Definition hvs_SetPeerMaj23 (hvs : HeightVoteSet) (round type_ : Z) (peerID : string)
    (blockID : BlockID) : outcome HeightVoteSet :=
  if negb (IsVoteTypeValid type_) then mret hvs
  else
    voteSet ← hvs_getVoteSet hvs round type_;
    match voteSet with
    | None => mret hvs
    | Some vs => mret (hvs_putVoteSet hvs round type_ (vst_SetPeerMaj23 vs peerID blockID))
    end.

End height_vote_set.

(** ** The invariant *)

Section height_vote_set_props.
Context {LIB : NeatLib} {LAWS : NeatLibLaws}.

(** [vs] is the vote set of [hvs] for a round and a type. *)
Definition tracks (hvs : HeightVoteSet) (round type_ : Z) (vs : VoteSet) : Prop :=
  vst_reachable vs ∧ vst_chainID vs = hvs_chainID hvs ∧ vst_height vs = hvs_height hvs ∧
  vst_round vs = round ∧ vst_type vs = type_ ∧ vst_valSet vs = hvs_valSet hvs.

Definition rvs_ok (hvs : HeightVoteSet) (round : Z) (rvs : RoundVoteSet) : Prop :=
  0 <= round → round < 2 ^ 63 ∧ tracks hvs round VoteTypePrevote (rvs_Prevotes rvs) ∧
    tracks hvs round VoteTypePrecommit (rvs_Precommits rvs).

Record hvs_wf (hvs : HeightVoteSet) : Prop := {
  hw_params : good_params (hvs_valSet hvs) 0 ∧ hvs_height hvs ≠ 0;
  hw_round : 0 <= hvs_round hvs < 2 ^ 63 - 1;
  hw_dom : ∀ r, 0 <= r <= hvs_round hvs → is_Some (hvs_roundVoteSets hvs !! r);
  hw_new : ∀ r, is_Some (hvs_roundVoteSets hvs !! r) →
    0 <= r <= hvs_round hvs ∨
    ∃ peer l, hvs_peerCatchupRounds hvs !! peer = Some l ∧ r ∈ l;
  hw_catchup : ∀ peer l, hvs_peerCatchupRounds hvs !! peer = Some l → (length l <= 2)%nat;
  hw_sets : ∀ r rvs, hvs_roundVoteSets hvs !! r = Some rvs → rvs_ok hvs r rvs
}.

Lemma NewVoteSet_reachable chainID height round type_ valSet :
  good_params valSet 0 → height ≠ 0 → in_i64 round →
  ∃ vs, NewVoteSet chainID height round type_ valSet = Ret vs ∧
    (0 <= round → vst_reachable vs) ∧ vst_chainID vs = chainID ∧ vst_height vs = height ∧
    vst_round vs = round ∧ vst_type vs = type_ ∧ vst_valSet vs = valSet.
Proof.
  intros (Hnil & Hn & Hp & _) Hh Hr.
  assert (0 <= round → good_params valSet round) as Hgp.
  { intros H0. unfold in_i64 in Hr. by split_and!; [..|lia]. }
  pose proof (vr_new chainID height round type_ valSet) as Hnew.
  unfold NewVoteSet in *. destruct (Z.eqb_spec height 0); [done|].
  eexists. split; [reflexivity|]. split; [|done]. intros H0. by apply Hnew; auto.
Qed.

Lemma addRound_ok hvs r :
  good_params (hvs_valSet hvs) 0 → hvs_height hvs ≠ 0 → in_i64 r →
  hvs_roundVoteSets hvs !! r = None →
  ∃ rvs, hvs_addRound hvs r =
      Ret (hvs_set_rounds hvs (<[r := rvs]> (hvs_roundVoteSets hvs))) ∧ rvs_ok hvs r rvs.
Proof.
  intros Hgp Hh Hr Hnone. unfold hvs_addRound. rewrite Hnone.
  destruct (NewVoteSet_reachable (hvs_chainID hvs) (hvs_height hvs) r VoteTypePrevote
    (hvs_valSet hvs) Hgp Hh Hr) as (pv & -> & Hpv & Hpv').
  destruct (NewVoteSet_reachable (hvs_chainID hvs) (hvs_height hvs) r VoteTypePrecommit
    (hvs_valSet hvs) Hgp Hh Hr) as (pc & -> & Hpc & Hpc').
  simpl. eexists; split; [reflexivity|]. intros H0. unfold in_i64 in Hr.
  split; [lia|]. simpl. by split; (split; [auto|]).
Qed.

Lemma Reset_ok hvs height valSet :
  good_params valSet 0 → height ≠ 0 →
  ∃ hvs', hvs_Reset hvs height valSet = Ret hvs' ∧ hvs_wf hvs'.
Proof.
  intros Hgp Hh. unfold hvs_Reset.
  destruct (addRound_ok (mkHeightVoteSet (hvs_chainID hvs) height valSet (hvs_round hvs) ∅ ∅) 0)
    as (rvs & -> & Hok); [done|done|done|done|]. simpl.
  eexists; split; [reflexivity|]. split; simpl.
  - done.
  - lia.
  - intros r Hr. assert (r = 0) as -> by lia. rewrite lookup_insert_eq. eauto.
  - intros r [x Hx]. apply lookup_insert_Some in Hx as [[<- _]|[_ Hx]]; [left; lia|done].
  - done.
  - intros r x Hx. apply lookup_insert_Some in Hx as [[<- <-]|[_ Hx]]; [done|done].
Qed.

(** Opening a round: the current round grows to it, or a peer is charged for it. *)
Lemma wf_open hvs r rvs round catchup :
  hvs_wf hvs → rvs_ok hvs r rvs → hvs_roundVoteSets hvs !! r = None →
  0 <= round < 2 ^ 63 - 1 →
  (∀ q, 0 <= q <= round → q = r ∨ is_Some (hvs_roundVoteSets hvs !! q)) →
  (∀ q, 0 <= q <= hvs_round hvs → 0 <= q <= round) →
  (∀ q peer l, hvs_peerCatchupRounds hvs !! peer = Some l → q ∈ l →
     ∃ peer l, catchup !! peer = Some l ∧ q ∈ l) →
  (0 <= r <= round ∨ ∃ peer l, catchup !! peer = Some l ∧ r ∈ l) →
  (∀ peer l, catchup !! peer = Some l → (length l <= 2)%nat) →
  hvs_wf (mkHeightVoteSet (hvs_chainID hvs) (hvs_height hvs) (hvs_valSet hvs) round
            (<[r := rvs]> (hvs_roundVoteSets hvs)) catchup).
Proof.
  intros Hwf Hok Hnone Hround Hdom Hmono Hcm Hr Hlen. split; simpl; try done.
  - apply Hwf.
  - intros q Hq. destruct (decide (q = r)) as [->|Hne]; [rewrite lookup_insert_eq; eauto|].
    rewrite lookup_insert_ne by done. destruct (Hdom q Hq); [done|done].
  - intros q [x Hx]. apply lookup_insert_Some in Hx as [[<- _]|[_ Hx]]; [done|].
    destruct (hw_new _ Hwf q) as [Hq|(peer & l & Hl & Hq)]; [eauto|left; auto|].
    right. by eapply Hcm.
  - intros q x Hx. apply lookup_insert_Some in Hx as [[<- <-]|[_ Hx]]; [done|].
    by apply (hw_sets _ Hwf).
Qed.

(** Raising the current round over rounds that are all tracked. *)
Lemma wf_raise hvs round :
  hvs_wf hvs → hvs_round hvs <= round < 2 ^ 63 - 1 →
  (∀ q, 0 <= q <= round → is_Some (hvs_roundVoteSets hvs !! q)) →
  hvs_wf (hvs_set_round hvs round).
Proof.
  intros [Hp Hr _ Hnew Hc Hs] Hround Hdom. split; simpl; try done; [lia|].
  intros q Hq. destruct (Hnew q Hq); [left; lia|by right].
Qed.

Lemma SetRound_wf hvs round hvs' :
  hvs_wf hvs → 0 <= round < 2 ^ 63 - 1 → hvs_SetRound hvs round = Ret hvs' →
  hvs_wf hvs' ∧ hvs_round hvs' = round.
Proof.
  intros Hwf Hround. pose proof (hw_round _ Hwf) as Hr. unfold hvs_SetRound.
  destruct (_ && _) eqn:Hg; [done|].
  assert (hvs_round hvs <= round) as Hle.
  { rewrite i64_small in Hg by (unfold in_i64; lia).
    destruct (Z.eqb_spec (hvs_round hvs) 0); [lia|]. simpl in Hg. lia. }
  edestruct (for_loop_inv (λ j s, hvs_wf (hvs_set_round s (j - 1)))
    (Z.to_nat (round - hvs_round hvs)) (hvs_round hvs + 1)) as (s' & Hs & Hwf'); cycle 2.
  - rewrite Hs. simpl. intros [= <-]. split; [|done].
    by replace (hvs_round hvs + 1 + Z.of_nat (Z.to_nat (round - hvs_round hvs)) - 1)
      with round in Hwf' by lia.
  - replace (hvs_round hvs + 1 - 1) with (hvs_round hvs) by lia. by destruct hvs.
  - intros j s Hj Hs. replace (j + 1 - 1) with j by lia.
    destruct (hvs_roundVoteSets s !! j) as [x|] eqn:E.
    + eexists; split; [reflexivity|].
      apply (wf_raise (hvs_set_round s (j - 1)) j); [done|simpl; lia|].
      intros q Hq. destruct (decide (q = j)) as [->|Hne]; [eauto|].
      apply (hw_dom _ Hs). simpl. lia.
    + destruct (hw_params _ Hs) as [Hgp Hh].
      destruct (addRound_ok s j Hgp Hh) as (rvs & -> & Hok); [unfold in_i64; lia|done|].
      eexists; split; [reflexivity|].
      apply (wf_open (hvs_set_round s (j - 1)) j rvs j (hvs_peerCatchupRounds s));
        simpl; try done; try lia.
      * intros q Hq. destruct (decide (q = j)) as [->|Hne]; [by left|right].
        apply (hw_dom _ Hs). simpl. lia.
      * eauto.
      * exact (hw_catchup _ Hs).
Qed.

(** After the deletions of [ResetTop2Round], only the rounds below are left. *)
Lemma delete_loop hvs k i :
  ∃ m, for_loop k i (λ r hvs, mret (hvs_set_rounds hvs (delete r (hvs_roundVoteSets hvs)))) hvs
       = Ret (hvs_set_rounds hvs m) ∧
    ∀ r, m !! r = if decide (i <= r < i + Z.of_nat k) then None else hvs_roundVoteSets hvs !! r.
Proof.
  edestruct (for_loop_inv (λ j s, ∃ m, s = hvs_set_rounds hvs m ∧
    ∀ r, m !! r = if decide (i <= r < j) then None else hvs_roundVoteSets hvs !! r) k i)
    as (s' & Hs & m & -> & Hm); [| |by exists m].
  - exists (hvs_roundVoteSets hvs). split; [by destruct hvs|].
    intros r. by case_decide; [lia|].
  - intros j s Hj (m & -> & Hm). eexists; split; [reflexivity|].
    exists (delete j m). split; [done|]. intros r.
    destruct (decide (r = j)) as [->|Hne].
    + rewrite lookup_delete_eq. by rewrite decide_True by lia.
    + rewrite lookup_delete_ne by done. rewrite Hm. repeat case_decide; auto; lia.
Qed.

Lemma ResetTop2Round_wf hvs round hvs' :
  hvs_wf hvs → hvs_ResetTop2Round hvs round = Ret hvs' → hvs_wf hvs' ∧ hvs_round hvs' = round.
Proof.
  intros Hwf. pose proof (hw_round _ Hwf) as Hr. unfold hvs_ResetTop2Round.
  destruct (_ || _) eqn:Hg; [done|]. bsimp. apply Z.ltb_ge in H, H0.
  destruct (delete_loop hvs (Z.to_nat (hvs_round hvs - (round - 1) + 1)) (round - 1))
    as (m & -> & Hm). simpl.
  assert (∀ r, m !! r = if decide (round - 1 <= r <= hvs_round hvs) then None
                        else hvs_roundVoteSets hvs !! r) as Hm'.
  { intros r. rewrite Hm. repeat case_decide; auto; lia. }
  destruct (hw_params _ Hwf) as [Hgp Hh].
  destruct (addRound_ok (hvs_set_rounds hvs m) (round - 1) Hgp Hh) as (rvs1 & -> & Hok1);
    [unfold in_i64; lia|simpl; rewrite Hm', decide_True by lia; done|]. simpl.
  destruct (addRound_ok (hvs_set_rounds (hvs_set_rounds hvs m) (<[round - 1:=rvs1]> m)) round
    Hgp Hh) as (rvs2 & -> & Hok2);
    [unfold in_i64; lia|simpl; rewrite lookup_insert_ne, Hm', decide_True by lia; done|].
  simpl. intros [= <-]. split; [|done]. destruct Hwf as [_ _ Hdom Hnew Hc Hs].
  assert (∀ q x, <[round:=rvs2]> (<[round - 1:=rvs1]> m) !! q = Some x →
    (q = round ∧ x = rvs2) ∨ (q = round - 1 ∧ x = rvs1) ∨
    (¬ (round - 1 <= q <= hvs_round hvs) ∧ hvs_roundVoteSets hvs !! q = Some x)) as Hin.
  { intros q x Hx. apply lookup_insert_Some in Hx as [[<- <-]|[_ Hx]]; [by left|right].
    apply lookup_insert_Some in Hx as [[<- <-]|[_ Hx]]; [by left|right].
    rewrite Hm' in Hx. case_decide; [done|]. done. }
  split; simpl; try done; [lia|..].
  - intros q Hq. destruct (decide (q = round)) as [->|]; [rewrite lookup_insert_eq; eauto|].
    rewrite lookup_insert_ne by done.
    destruct (decide (q = round - 1)) as [->|]; [rewrite lookup_insert_eq; eauto|].
    rewrite lookup_insert_ne by done. rewrite Hm', decide_False by lia. apply Hdom. lia.
  - intros q [x Hx]. destruct (Hin q x Hx) as [[-> _]|[[-> _]|[Hq Hx']]]; [left; lia..|].
    destruct (Hnew q) as [?|?]; [eauto|left; lia|by right].
  - intros q x Hx. destruct (Hin q x Hx) as [[-> ->]|[[-> ->]|[Hq Hx']]]; [done..|].
    by apply Hs.
Qed.

(** Storing a vote set back. *)
Lemma putVoteSet_wf hvs r t vs :
  hvs_wf hvs → IsVoteTypeValid t = true → (0 <= r → tracks hvs r t vs) →
  hvs_wf (hvs_putVoteSet hvs r t vs).
Proof.
  intros Hwf Ht Hvs. unfold hvs_putVoteSet.
  destruct (hvs_roundVoteSets hvs !! r) as [rvs|] eqn:E; [|done].
  destruct Hwf as [Hp Hr Hdom Hnew Hc Hs]. split; simpl; try done.
  - intros q Hq. destruct (decide (q = r)) as [->|]; [rewrite lookup_insert_eq; eauto|].
    rewrite lookup_insert_ne by done. auto.
  - intros q Hq. apply Hnew. destruct (decide (q = r)) as [->|]; [eauto|].
    by rewrite lookup_insert_ne in Hq.
  - intros q x Hx. apply lookup_insert_Some in Hx as [[<- <-]|[_ Hx]]; [|by apply Hs].
    intros H0. destruct (Hs r rvs E H0) as (Hlt & Hpv & Hpc). specialize (Hvs H0).
    unfold IsVoteTypeValid in Ht.
    destruct (Z.eqb_spec t VoteTypePrevote) as [->|]; [done|].
    destruct (Z.eqb_spec t VoteTypePrecommit) as [->|]; [done|done].
Qed.

Lemma getVoteSet_tracks hvs r t vs :
  hvs_wf hvs → 0 <= r → hvs_getVoteSet hvs r t = Ret (Some vs) →
  r < 2 ^ 63 ∧ tracks hvs r t vs.
Proof.
  intros Hwf H0. unfold hvs_getVoteSet.
  destruct (hvs_roundVoteSets hvs !! r) as [rvs|] eqn:E; [|done].
  destruct (hw_sets _ Hwf r rvs E H0) as (Hlt & Hpv & Hpc).
  destruct (Z.eqb_spec t VoteTypePrevote) as [->|]; [by intros [= <-]|].
  destruct (Z.eqb_spec t VoteTypePrecommit) as [->|]; [by intros [= <-]|done].
Qed.

Lemma getVoteSet_None hvs r t :
  hvs_getVoteSet hvs r t = Ret None ↔ hvs_roundVoteSets hvs !! r = None.
Proof.
  unfold hvs_getVoteSet. destruct (hvs_roundVoteSets hvs !! r); [|done].
  repeat (case_match; try naive_solver).
Qed.

Lemma AddVote_tracks hvs r t vs vote vs' added err :
  tracks hvs r t vs → in_u64 (vote_ValidatorIndex vote) →
  vst_AddVote (Some vs) vote = Ret (vs', added, err) → tracks hvs r t vs'.
Proof.
  intros (Hre & Hst) Hu Ha.
  destruct (addVote_wf vs vote vs' added err (reachable_wf _ Hre) Hu Ha)
    as [_ ((H1 & H2 & H3 & H4 & H5) & _ & _)].
  split; [by eapply vr_add|]. rewrite H1, H2, H3, H4, H5. done.
Qed.

Lemma hvs_add_to_wf hvs vs vote hvs' added err :
  IsVoteTypeValid (vote_Type vote) = true → hvs_wf hvs → in_u64 (vote_ValidatorIndex vote) →
  hvs_getVoteSet hvs (i64 (vote_Round vote)) (vote_Type vote) = Ret (Some vs) →
  hvs_add_to hvs (Some vs) vote = Ret (hvs', added, err) → hvs_wf hvs'.
Proof.
  intros Ht Hwf Hu Hget. unfold hvs_add_to.
  destruct (vst_AddVote (Some vs) vote) as [[[vs' a] e]|] eqn:Ha; [|done]. simpl.
  intros [= <- _ _]. apply putVoteSet_wf; [done|done|]. intros H0.
  eapply AddVote_tracks; [by eapply getVoteSet_tracks|done|done].
Qed.

Lemma AddVote_wf hvs vote peer hvs' added err :
  hvs_wf hvs → in_u64 (vote_ValidatorIndex vote) →
  hvs_AddVote hvs vote peer = Ret (hvs', added, err) → hvs_wf hvs'.
Proof.
  intros Hwf Hu. unfold hvs_AddVote.
  destruct (IsVoteTypeValid (vote_Type vote)) eqn:Ht; simpl; [|by intros [= <- _ _]].
  set (r := i64 (vote_Round vote)).
  destruct (hvs_getVoteSet hvs r (vote_Type vote)) as [[vs|]|] eqn:Hget; [| |done].
  { by apply hvs_add_to_wf. }
  simpl. set (rndz := default [] (hvs_peerCatchupRounds hvs !! peer)).
  destruct (Z.ltb_spec (Z.of_nat (length rndz)) 2) as [Hlen|]; [|by intros [= <- _ _]].
  apply getVoteSet_None in Hget. destruct (hw_params _ Hwf) as [Hgp Hh].
  destruct (addRound_ok hvs r Hgp Hh) as (rvs & -> & Hok); [apply i64_range|done|]. simpl.
  set (hvs1 := hvs_set_catchup _ _).
  destruct (hvs_getVoteSet (hvs_set_rounds hvs _) r (vote_Type vote)) as [[vs|]|] eqn:Hg;
    [|done|done].
  apply hvs_add_to_wf; [done| |done|exact Hg].
  apply (wf_open hvs r rvs); try done.
  - apply (hw_round _ Hwf).
  - intros q Hq. right. by apply (hw_dom _ Hwf).
  - intros q p l Hl Hq. destruct (decide (p = peer)) as [->|Hne].
    + exists peer, (rndz ++ [r]). rewrite lookup_insert_eq. split; [done|].
      unfold rndz. rewrite Hl. simpl. apply elem_of_app. by left.
    + exists p, l. by rewrite lookup_insert_ne.
  - right. exists peer, (rndz ++ [r]). rewrite lookup_insert_eq. split; [done|].
    apply elem_of_app. right. by apply list_elem_of_singleton.
  - intros p l. rewrite lookup_insert_Some. intros [[_ <-]|[_ Hl]]; [|by eapply hw_catchup].
    rewrite length_app. simpl. lia.
Qed.

Lemma SetPeerMaj23_tracks hvs r t vs peer b :
  tracks hvs r t vs → tracks hvs r t (vst_SetPeerMaj23 vs peer b).
Proof.
  intros (Hre & Hst). split; [by apply vr_peer|]. unfold vst_SetPeerMaj23.
  repeat (case_match; try done).
Qed.

Lemma hvs_SetPeerMaj23_wf hvs r t peer b hvs' :
  hvs_wf hvs → hvs_SetPeerMaj23 hvs r t peer b = Ret hvs' → hvs_wf hvs'.
Proof.
  intros Hwf. unfold hvs_SetPeerMaj23.
  destruct (IsVoteTypeValid t) eqn:Ht; simpl; [|by intros [= <-]].
  destruct (hvs_getVoteSet hvs r t) as [[vs|]|] eqn:Hg; simpl; [|by intros [= <-]|done].
  intros [= <-]. apply putVoteSet_wf; [done|done|]. intros H0.
  by apply SetPeerMaj23_tracks; eapply getVoteSet_tracks.
Qed.

(** ** Reachable states *)

Inductive hvs_reachable : HeightVoteSet → Prop :=
| hr_new chainID height valSet hvs :
    good_params valSet 0 → NewHeightVoteSet chainID height valSet = Ret hvs → hvs_reachable hvs
| hr_reset hvs height valSet hvs' :
    hvs_reachable hvs → good_params valSet 0 → hvs_Reset hvs height valSet = Ret hvs' →
    hvs_reachable hvs'
| hr_vote hvs vote peer hvs' added err :
    hvs_reachable hvs → in_u64 (vote_ValidatorIndex vote) →
    hvs_AddVote hvs vote peer = Ret (hvs', added, err) → hvs_reachable hvs'
| hr_round hvs round hvs' :
    hvs_reachable hvs → 0 <= round < 2 ^ 63 - 1 → hvs_SetRound hvs round = Ret hvs' →
    hvs_reachable hvs'
| hr_top2 hvs round hvs' :
    hvs_reachable hvs → hvs_ResetTop2Round hvs round = Ret hvs' → hvs_reachable hvs'
| hr_peer hvs round type_ peer b hvs' :
    hvs_reachable hvs → hvs_SetPeerMaj23 hvs round type_ peer b = Ret hvs' → hvs_reachable hvs'.

Lemma Reset_wf hvs height valSet hvs' :
  good_params valSet 0 → hvs_Reset hvs height valSet = Ret hvs' → hvs_wf hvs'.
Proof.
  intros Hgp Heq. destruct (decide (height = 0)) as [->|Hh]; [done|].
  destruct (Reset_ok hvs height valSet Hgp Hh) as (h & He & Hwf). congruence.
Qed.

Lemma hvs_reachable_wf hvs : hvs_reachable hvs → hvs_wf hvs.
Proof.
  induction 1; eauto using Reset_wf, AddVote_wf, hvs_SetPeerMaj23_wf.
  - by eapply SetRound_wf.
  - by eapply ResetTop2Round_wf.
Qed.

(** The rounds peers were charged for. *)
Definition catchup_rounds (hvs : HeightVoteSet) : list Z :=
  concat (snd <$> map_to_list (hvs_peerCatchupRounds hvs)).

Lemma length_catchup_rounds hvs :
  hvs_wf hvs →
  Z.of_nat (length (catchup_rounds hvs)) <= 2 * Z.of_nat (size (hvs_peerCatchupRounds hvs)).
Proof.
  intros Hwf. rewrite <-length_map_to_list. unfold catchup_rounds.
  assert (Forall (λ x, (length x.2 <= 2)%nat) (map_to_list (hvs_peerCatchupRounds hvs))) as Hl.
  { apply Forall_forall. intros [p l] Hin. apply elem_of_map_to_list in Hin.
    by eapply hw_catchup. }
  induction Hl as [|x l Hx Hl IH]; [simpl; lia|].
  rewrite fmap_cons. simpl concat. rewrite length_app. simpl length. lia.
Qed.

Lemma tracked_size hvs :
  hvs_wf hvs →
  Z.of_nat (size (hvs_roundVoteSets hvs)) <=
    hvs_round hvs + 1 + 2 * Z.of_nat (size (hvs_peerCatchupRounds hvs)).
Proof.
  intros Hwf. pose proof (hw_round _ Hwf) as Hr. pose proof (length_catchup_rounds _ Hwf) as Hc.
  rewrite <-size_dom.
  pose proof (size_subset_length (dom (hvs_roundVoteSets hvs))
    (seqZ 0 (hvs_round hvs + 1) ++ catchup_rounds hvs)) as Hs.
  rewrite length_app, length_seqZ in Hs. transitivity (Z.of_nat (Z.to_nat (hvs_round hvs + 1) +
    length (catchup_rounds hvs))); [apply inj_le, Hs|lia].
  intros r [x Hx]%elem_of_dom. apply elem_of_app.
  destruct (hw_new _ Hwf r) as [Hq|(p & l & Hl & Hq)]; [eauto|left; apply elem_of_seqZ; lia|right].
  apply list_elem_of_In, in_concat. exists l. rewrite <-!list_elem_of_In.
  split; [|done]. apply list_elem_of_fmap. exists (p, l). by rewrite elem_of_map_to_list.
Qed.

(** A reachable height vote set has well-formed prevote and precommit sets for
    every round up to its current one, and holds at most two further rounds per peer. *)
Theorem tracked_rounds hvs :
  hvs_reachable hvs →
  (∀ r, 0 <= r <= hvs_round hvs → ∃ pv pc,
     hvs_Prevotes hvs r = Ret (Some pv) ∧ hvs_Precommits hvs r = Ret (Some pc) ∧
     tracks hvs r VoteTypePrevote pv ∧ tracks hvs r VoteTypePrecommit pc) ∧
  Z.of_nat (size (hvs_roundVoteSets hvs)) <=
    hvs_round hvs + 1 + 2 * Z.of_nat (size (hvs_peerCatchupRounds hvs)).
Proof.
  intros Hwf%hvs_reachable_wf. split; [|by apply tracked_size].
  intros r Hr. destruct (hw_dom _ Hwf r Hr) as [rvs E].
  destruct (hw_sets _ Hwf r rvs E) as (_ & Hpv & Hpc); [lia|].
  unfold hvs_Prevotes, hvs_Precommits, hvs_getVoteSet. rewrite E.
  by exists (rvs_Prevotes rvs), (rvs_Precommits rvs).
Qed.

(** The majority of the prevotes of a round, if any. *)
Definition prevote_majority (hvs : HeightVoteSet) (r : Z) : BlockID * bool :=
  vst_TwoThirdsMajority (rvs_Prevotes <$> hvs_roundVoteSets hvs !! r).

Lemma POLInfo_from_spec hvs n :
  ∃ r b, hvs_POLInfo_from hvs n = Ret (r, b) ∧ -1 <= r < Z.of_nat n ∧
    (0 <= r → prevote_majority hvs r = (b, true)) ∧
    (∀ q, r < q < Z.of_nat n → 0 <= q → (prevote_majority hvs q).2 = false).
Proof.
  induction n as [|n IH].
  - exists (-1), bid_zero. split; [done|]. split; [lia|]. split; intros; lia.
  - simpl. assert (hvs_getVoteSet hvs (Z.of_nat n) VoteTypePrevote =
      Ret (rvs_Prevotes <$> hvs_roundVoteSets hvs !! Z.of_nat n)) as ->.
    { unfold hvs_getVoteSet. by destruct (_ !! _). }
    simpl. fold (prevote_majority hvs (Z.of_nat n)).
    destruct (prevote_majority hvs (Z.of_nat n)) as [b ok] eqn:Hm. destruct ok.
    + exists (Z.of_nat n), b. split; [done|]. split; [lia|]. split; [done|]. intros; lia.
    + destruct IH as (r & b' & -> & Hr & Hmaj & Hno). exists r, b'. split; [done|].
      split; [lia|]. split; [done|]. intros q Hq H0.
      destruct (decide (q = Z.of_nat n)) as [->|]; [by rewrite Hm|]. apply Hno; lia.
Qed.

(** POLInfo returns the highest round up to the current one with a prevote
    majority, with the block of that majority, or -1 when there is none. *)
Theorem POLInfo_correct hvs :
  hvs_reachable hvs →
  ∃ r b, hvs_POLInfo hvs = Ret (r, b) ∧ -1 <= r <= hvs_round hvs ∧
    (∀ q, r < q <= hvs_round hvs → 0 <= q → (prevote_majority hvs q).2 = false) ∧
    (0 <= r → ∃ pv, hvs_Prevotes hvs r = Ret (Some pv) ∧
       tracks hvs r VoteTypePrevote pv ∧ vst_maj23 pv = Some b).
Proof.
  intros Hwf%hvs_reachable_wf. pose proof (hw_round _ Hwf) as Hr0.
  destruct (POLInfo_from_spec hvs (Z.to_nat (hvs_round hvs + 1))) as (r & b & He & Hr & Hm & Hno).
  exists r, b. split; [done|]. split; [lia|]. split; [intros; apply Hno; lia|].
  intros H0. specialize (Hm H0). destruct (hw_dom _ Hwf r) as [rvs E]; [lia|].
  destruct (hw_sets _ Hwf r rvs E H0) as (_ & Hpv & _). exists (rvs_Prevotes rvs).
  unfold hvs_Prevotes, hvs_getVoteSet. rewrite E. split; [done|]. split; [done|].
  unfold prevote_majority in Hm. rewrite E in Hm. simpl in Hm.
  destruct (vst_maj23 (rvs_Prevotes rvs)); naive_solver.
Qed.

End height_vote_set_props.

(** ** Concrete instances *)

Definition ex_hvs_init : @HeightVoteSet toy_lib :=
  mkHeightVoteSet (LIB := toy_lib) "neatio" 5 ex_valSet 0 ∅ ∅.

Definition ex_hvs0 : @HeightVoteSet toy_lib :=
  from_Ret ex_hvs_init (@NewHeightVoteSet toy_lib "neatio" 5 ex_valSet).

Definition ex_hvs_add (hvs : @HeightVoteSet toy_lib) (vote : @Vote toy_lib) :=
  from_Ret (hvs, false, None) (hvs_AddVote hvs vote "peer").

(** The prevotes of [ex_vst2], received while in round 0: a catch-up round. *)
Definition ex_hvs1 : @HeightVoteSet toy_lib := fst (fst (ex_hvs_add ex_hvs0 (ex_vote 3 7))).
Definition ex_hvs2 : @HeightVoteSet toy_lib := fst (fst (ex_hvs_add ex_hvs1 (ex_vote 2 7))).
Definition ex_hvs3 : @HeightVoteSet toy_lib := from_Ret ex_hvs2 (hvs_SetRound ex_hvs2 3).

Lemma ex_hvs_add_reachable hvs vote :
  hvs_reachable hvs → in_u64 (vote_ValidatorIndex vote) →
  hvs_reachable (fst (fst (ex_hvs_add hvs vote))).
Proof.
  intros Hr Hu. unfold ex_hvs_add.
  destruct (hvs_AddVote hvs vote "peer") as [[[hvs' a] e]|] eqn:E; [|done].
  by eapply hr_vote.
Qed.

Lemma ex_hvs3_reachable : @hvs_reachable toy_lib ex_hvs3.
Proof.
  apply (hr_round ex_hvs2 3); [|lia|apply from_Ret_eq; vm_compute; reflexivity].
  do 2 (apply ex_hvs_add_reachable; [|done]).
  apply (hr_new "neatio" 5 ex_valSet); [|apply from_Ret_eq; vm_compute; reflexivity].
  destruct ex_good_params as (H1 & H2 & H3 & _). by split_and!.
Qed.

Lemma tracked_rounds_witness :
  Z.of_nat (size (hvs_roundVoteSets ex_hvs3)) <= 6 ∧ hvs_peerCatchupRounds ex_hvs3 !! "peer" = Some [2].
Proof.
  split; [|vm_compute; reflexivity].
  refine (Z.le_trans _ _ _ (proj2 (@tracked_rounds toy_lib toy_laws ex_hvs3 ex_hvs3_reachable)) _).
  vm_compute. done.
Defined.

Lemma POLInfo_correct_witness :
  ∃ r b, hvs_POLInfo ex_hvs3 = Ret (r, b) ∧ -1 <= r <= hvs_round ex_hvs3 ∧
    (r, b) = (2, ex_block 7).
Proof.
  destruct (@POLInfo_correct toy_lib toy_laws ex_hvs3 ex_hvs3_reachable) as (r & b & He & Hr & _).
  exists r, b. split; [done|]. split; [done|].
  assert (hvs_POLInfo ex_hvs3 = Ret (2, ex_block 7)) as He' by (vm_compute; reflexivity).
  congruence.
Defined.
