(* ===== verification/PartSet.v ===== *)
(** * Part sets (consensus/neatpos/types/part_set.go)

    A block travels in parts.  [NewPartSetFromData] splits the bytes and attaches a
    Merkle proof to each part; [NewPartSetFromHeader] makes an empty set that
    [AddPart] fills; [PartSetReader] reads the bytes of a complete set back.  The
    Merkle tree and the hash are third-party code: [MerkleLib] lists the operations,
    [MerkleLaws] what the proofs rely on.  The theorems give every branch of
    [AddPart], the exact behaviour of [Read], and that a set filled with parts that
    verify against the header of some data reads back that data, unless one of the parts
    is a collision of the hash or a forged proof. *)

From Stdlib Require Import ZArith Lia.
From stdpp Require Import base tactics strings numbers gmap list.
From S2P Require Import Prelude Types.

Local Open Scope Z_scope.

(** ** Third-party operations *)

Class MerkleLib := {
  SimpleProof : Type;
  zeroProof : SimpleProof;
  (** merkle.SimpleProofsFromHashables, on the hashes of the leaves *)
  SimpleProofsFromHashables : list bytes → bytes * list SimpleProof;
  (** [proof.Verify index total leafHash rootHash] *)
  Proof_Verify : SimpleProof → Z → Z → bytes → bytes → bool;
  ripemd160 : bytes → bytes;
  MinInt : Z → Z → Z
}.

Class MerkleLaws {MLIB : MerkleLib} : Prop := {
  MinInt_spec : ∀ a b, MinInt a b = Z.min a b;
  proofs_length : ∀ leaves,
    length (SimpleProofsFromHashables leaves).2 = length leaves;
  (** a proof made for a leaf verifies at its index *)
  proofs_verify : ∀ leaves i h p, leaves !! i = Some h →
    (SimpleProofsFromHashables leaves).2 !! i = Some p →
    Proof_Verify p (Z.of_nat i) (Z.of_nat (length leaves)) h (SimpleProofsFromHashables leaves).1
      = true
}.

Section part_set.
Context {LIB : NeatLib} {MLIB : MerkleLib}.

Record Part := mkPart {
  p_Index : Z;
  p_Bytes : bytes;
  p_Proof : SimpleProof
}.

(** [Part.Hash]; the cache holds this value. *)
Definition p_Hash (part : Part) : bytes := ripemd160 (p_Bytes part).

Record PartSet := mkPartSet {
  ps_total : Z;
  ps_hash : bytes;
  ps_parts : list (option Part);
  ps_bitArray : BitArray;
  ps_count : Z
}.

(** [data[lo:hi]] *)
Definition slice_sub (data : bytes) (lo hi : Z) : outcome bytes :=
  if bool_decide (0 <= lo <= hi) && (hi <=? Z.of_nat (length data))
  then Ret (take (Z.to_nat (hi - lo)) (drop (Z.to_nat lo) data))
  else Panic "slice bounds out of range".

Definition NewPartSetFromData (data : bytes) (partSize : Z) : outcome PartSet :=
  if partSize =? 0 then Panic "integer divide by zero"
  else
    let len := Z.of_nat (length data) in
    let total := Z.quot (i64 (len + partSize - 1)) partSize in
    if total <? 0 then Panic "makeslice: len out of range"
    else
      st ← for_loop (Z.to_nat total) 0
             (λ i '(parts, ba),
                chunk ← slice_sub data (i64 (i * partSize)) (MinInt len (i64 ((i + 1) * partSize)));
                parts ← slice_set parts i (Some (mkPart i chunk zeroProof));
                mret (parts, ba_SetIndex ba (u64 i) true))
             (replicate (Z.to_nat total) None, NewBitArray (u64 total));
      let '(parts, ba) := st in
      let '(root, proofs) := SimpleProofsFromHashables (p_Hash <$> omap id parts) in
      parts ← for_loop (Z.to_nat total) 0
                (λ i parts,
                   proof ← slice_get proofs i;
                   part ← slice_get parts i;
                   match part with
                   | None => Panic "nil pointer dereference"
                   | Some part =>
                       slice_set parts i (Some (mkPart (p_Index part) (p_Bytes part) proof))
                   end) parts;
      mret (mkPartSet total root parts ba total).

(** [make([]*Part, header.Total)]: the run-time refuses more pointers than it can
    address (2^48 bytes). *)
Definition NewPartSetFromHeader (header : PartSetHeader) : outcome PartSet :=
  if 2 ^ 45 <? psh_Total header then Panic "makeslice: len out of range"
  else mret (mkPartSet (i64 (psh_Total header)) (psh_Hash header)
               (replicate (Z.to_nat (psh_Total header)) None)
               (NewBitArray (psh_Total header)) 0).

Definition ps_Header (ps : option PartSet) : PartSetHeader :=
  match ps with
  | None => psh_zero
  | Some ps => mkPartSetHeader (u64 (ps_total ps)) (ps_hash ps)
  end.

Definition ps_HasHeader (ps : option PartSet) (header : PartSetHeader) : bool :=
  match ps with
  | None => false
  | Some _ => psh_Equals (ps_Header ps) header
  end.

Definition ps_HashesTo (ps : option PartSet) (hash : bytes) : bool :=
  match ps with
  | None => false
  | Some ps => bytes_Equal (ps_hash ps) hash
  end.

Inductive PartErr := ErrPartSetUnexpectedIndex | ErrPartSetInvalidProof.

Definition ps_AddPart (ps : PartSet) (part : Part) (verify : bool)
    : outcome (PartSet * bool * option PartErr) :=
  if ps_total ps <=? p_Index part then mret (ps, false, Some ErrPartSetUnexpectedIndex)
  else
    existing ← slice_get (ps_parts ps) (p_Index part);
    match existing with
    | Some _ => mret (ps, false, None)
    | None =>
        if verify && negb (Proof_Verify (p_Proof part) (p_Index part) (ps_total ps)
                             (p_Hash part) (ps_hash ps))
        then mret (ps, false, Some ErrPartSetInvalidProof)
        else
          parts ← slice_set (ps_parts ps) (p_Index part) (Some part);
          mret (mkPartSet (ps_total ps) (ps_hash ps) parts
                  (ba_SetIndex (ps_bitArray ps) (u64 (p_Index part)) true)
                  (i64 (ps_count ps + 1)), true, None)
    end.

Definition ps_GetPart (ps : PartSet) (index : Z) : outcome (option Part) :=
  slice_get (ps_parts ps) index.

Definition ps_IsComplete (ps : PartSet) : bool := ps_count ps =? ps_total ps.

(** ** The reader *)

(** [psr_rest] is what the current [bytes.Reader] has left. *)
Record PartSetReader := mkPartSetReader {
  psr_i : Z;
  psr_parts : list (option Part);
  psr_rest : bytes
}.

Definition part_bytes (parts : list (option Part)) (i : Z) : outcome bytes :=
  part ← slice_get parts i;
  match part with
  | None => Panic "nil pointer dereference"
  | Some part => mret (p_Bytes part)
  end.

Definition NewPartSetReader (parts : list (option Part)) : outcome PartSetReader :=
  b ← part_bytes parts 0;
  mret (mkPartSetReader 0 parts b).

Definition ps_GetReader (ps : PartSet) : outcome PartSetReader :=
  if ps_IsComplete ps then NewPartSetReader (ps_parts ps)
  else Panic "Cannot GetReader() on incomplete PartSet".

(** [bytes.Reader.Read] into a buffer of [n] bytes. *)
Definition bytes_Read (rest : bytes) (n : nat) : bytes * bytes * bool :=
  match rest with
  | [] => ([], [], true)
  | _ => (take n rest, drop n rest, false)
  end.

(** [Read] into a buffer of [n] bytes: the bytes read, whether [io.EOF] is
    returned, and the reader after it.  Every part takes at most two calls. *)
Fixpoint psr_Read (fuel : nat) (psr : PartSetReader) (n : nat)
    : outcome (bytes * bool * PartSetReader) :=
  match fuel with
  | O => Panic "out of fuel"
  | S fuel =>
      let readerLen := length (psr_rest psr) in
      if (n <=? readerLen)%nat then
        let '(b, rest, eof) := bytes_Read (psr_rest psr) n in
        mret (b, eof, mkPartSetReader (psr_i psr) (psr_parts psr) rest)
      else if (0 <? readerLen)%nat then
        r1 ← psr_Read fuel psr readerLen;
        let '(b1, eof1, psr1) := r1 in
        if (eof1 : bool) then mret (b1, true, psr1)
        else
          r2 ← psr_Read fuel psr1 (n - readerLen);
          let '(b2, eof2, psr2) := r2 in
          mret (b1 ++ b2, eof2, psr2)
      else
        let i := psr_i psr + 1 in
        if Z.of_nat (length (psr_parts psr)) <=? i
        then mret ([], true, mkPartSetReader i (psr_parts psr) (psr_rest psr))
        else
          b ← part_bytes (psr_parts psr) i;
          psr_Read fuel (mkPartSetReader i (psr_parts psr) b) n
  end.

End part_set.

(** ** The invariant of a set that is being filled *)

Section filling.
Context {LIB : NeatLib} {LAWS : NeatLibLaws} {MLIB : MerkleLib}.

(** The number of parts that are present. *)
Fixpoint present (parts : list (option Part)) : nat :=
  match parts with
  | [] => O
  | Some _ :: parts => S (present parts)
  | None :: parts => present parts
  end.

Lemma present_le parts : (present parts <= length parts)%nat.
Proof. induction parts as [|[p|] parts IH]; simpl; lia. Qed.

Lemma present_insert parts i p :
  parts !! i = Some None → present (<[i := Some p]> parts) = S (present parts).
Proof.
  revert i. induction parts as [|o parts IH]; intros i; [done|]. destruct i as [|i]; simpl.
  - intros [= ->]. done.
  - intros Hi. specialize (IH i Hi). destruct o; lia.
Qed.

Lemma present_all parts :
  present parts = length parts → ∃ l, parts = Some <$> l.
Proof.
  induction parts as [|[p|] parts IH]; intros Hp; simpl in *.
  - by exists [].
  - destruct IH as [l ->]; [lia|]. by exists (p :: l).
  - pose proof (present_le parts). lia.
Qed.

(** Every stored part sits at its index and verifies against the root. *)
Record ps_wf (ps : PartSet) : Prop := {
  pw_total : ps_total ps = Z.of_nat (length (ps_parts ps));
  pw_small : ps_total ps <= 2 ^ 45;
  pw_count : ps_count ps = Z.of_nat (present (ps_parts ps));
  pw_size : ba_Size (ps_bitArray ps) = ps_total ps;
  pw_bits : ∀ i, (i < length (ps_parts ps))%nat → ba_GetIndex (ps_bitArray ps) (Z.of_nat i) =
    match ps_parts ps !! i with Some (Some _) => true | _ => false end;
  pw_parts : ∀ i p, ps_parts ps !! i = Some (Some p) →
    p_Index p = Z.of_nat i ∧
    Proof_Verify (p_Proof p) (p_Index p) (ps_total ps) (p_Hash p) (ps_hash ps) = true
}.

Lemma NewPartSetFromHeader_wf header ps :
  in_u64 (psh_Total header) → NewPartSetFromHeader header = Ret ps →
  ps_wf ps ∧ ps_Header (Some ps) = header.
Proof.
  intros Hu. unfold in_u64 in Hu. unfold NewPartSetFromHeader.
  destruct (Z.ltb_spec (2 ^ 45) (psh_Total header)); [done|]. intros [= <-].
  rewrite i64_small by (unfold in_i64; lia). split; [split|]; simpl.
  - rewrite length_replicate. lia.
  - done.
  - by induction (Z.to_nat (psh_Total header)).
  - apply ba_new_size. done.
  - intros i Hi. rewrite ba_new_get.
    destruct (replicate _ _ !! i) as [[p|]|] eqn:E; [|done..].
    by apply lookup_replicate in E as [? _].
  - intros i p Hi. by apply lookup_replicate in Hi as [? _].
  - rewrite u64_small by done. by destruct header.
Qed.

(** The outcomes of [AddPart], one per branch. *)
Inductive AddPart_post (ps : PartSet) (part : Part) (verify : bool)
    : outcome (PartSet * bool * option PartErr) → Prop :=
| ap_index : ps_total ps <= p_Index part →
    AddPart_post ps part verify (Ret (ps, false, Some ErrPartSetUnexpectedIndex))
| ap_negative why : p_Index part < 0 → AddPart_post ps part verify (Panic why)
| ap_known p : ps_parts ps !! Z.to_nat (p_Index part) = Some (Some p) →
    AddPart_post ps part verify (Ret (ps, false, None))
| ap_proof : verify = true →
    Proof_Verify (p_Proof part) (p_Index part) (ps_total ps) (p_Hash part) (ps_hash ps) = false →
    AddPart_post ps part verify (Ret (ps, false, Some ErrPartSetInvalidProof))
| ap_added ps' : ps_parts ps !! Z.to_nat (p_Index part) = Some None →
    ps_parts ps' = <[Z.to_nat (p_Index part) := Some part]> (ps_parts ps) →
    ps_total ps' = ps_total ps → ps_hash ps' = ps_hash ps →
    ps_count ps' = ps_count ps + 1 → ps_count ps' <= ps_total ps →
    (verify = true → ps_wf ps') →
    AddPart_post ps part verify (Ret (ps', true, None)).

Lemma AddPart_spec ps part verify :
  ps_wf ps → AddPart_post ps part verify (ps_AddPart ps part verify).
Proof.
  intros Hwf. unfold ps_AddPart.
  destruct (Z.leb_spec (ps_total ps) (p_Index part)) as [Hge|Hlt]; [by apply ap_index|].
  destruct (decide (p_Index part < 0)) as [Hneg|Hpos].
  { destruct (proj2 (slice_get_Panic (ps_parts ps) (p_Index part))) as [w ->]; [lia|].
    by apply ap_negative. }
  destruct Hwf as [Ht Hsm Hc Hs Hb Hp].
  destruct (slice_get_lookup (ps_parts ps) (p_Index part)) as (o & -> & Ho); [lia|]. simpl.
  destruct o as [p|]; [by eapply ap_known|].
  destruct (verify && _) eqn:Hv; [bsimp; by apply ap_proof|].
  rewrite slice_set_ok by lia. simpl.
  pose proof (present_insert _ _ part Ho) as Hpi.
  pose proof (present_le (<[Z.to_nat (p_Index part) := Some part]> (ps_parts ps))) as Hle.
  rewrite length_insert in Hle.
  rewrite i64_small by (unfold in_i64; lia). rewrite u64_small by (unfold in_u64; lia).
  eapply ap_added; simpl; [done|done|done|done|done|lia|].
  intros ->. split; simpl.
  - by rewrite length_insert.
  - done.
  - lia.
  - by rewrite ba_set_size.
  - intros i. rewrite length_insert. intros Hi.
    destruct (decide (i = Z.to_nat (p_Index part))) as [->|Hne].
    + rewrite list_lookup_insert_eq by done. rewrite Z2Nat.id by lia.
      by rewrite ba_set_get_eq by lia.
    + rewrite list_lookup_insert_ne by done. rewrite ba_set_get_ne by lia. by apply Hb.
  - intros i q. destruct (decide (i = Z.to_nat (p_Index part))) as [->|Hne].
    + rewrite list_lookup_insert_eq by lia. intros [= <-]. rewrite Z2Nat.id by lia.
      split; [done|]. bsimp. by apply negb_false_iff in Hv.
    + rewrite list_lookup_insert_ne by done. apply Hp.
Qed.

Lemma IsComplete_spec ps :
  ps_wf ps → ps_IsComplete ps = true → ∃ l, ps_parts ps = Some <$> l.
Proof.
  intros Hwf Hc. unfold ps_IsComplete in Hc. apply Z.eqb_eq in Hc.
  rewrite (pw_total _ Hwf), (pw_count _ Hwf) in Hc. apply present_all. lia.
Qed.

End filling.

(** ** Reading *)

Section reading.
Context {MLIB : MerkleLib}.

(** The bytes a reader has not delivered yet, over the parts [l]. *)
Definition stream (l : list Part) (i : Z) (rest : bytes) : bytes :=
  rest ++ concat (p_Bytes <$> drop (Z.to_nat (i + 1)) l).

Lemma part_bytes_get (l : list Part) i p :
  l !! i = Some p → part_bytes (Some <$> l) (Z.of_nat i) = Ret (p_Bytes p).
Proof.
  intros Hi. unfold part_bytes.
  destruct (slice_get_lookup (Some <$> l) (Z.of_nat i)) as (o & -> & Ho).
  { rewrite length_fmap. apply lookup_lt_Some in Hi. lia. }
  rewrite Nat2Z.id, list_lookup_fmap, Hi in Ho. simpl in Ho. by simplify_eq.
Qed.

(** [io.EOF] comes with a read past the end, or an empty read at the end of a part. *)
Definition read_eof (l : list Part) (i : Z) (rest : bytes) (n : nat) : bool :=
  match n with
  | O => bool_decide (rest = [])
  | _ => bool_decide (length (stream l i rest) < n)%nat
  end.

(** What a call delivers and where it leaves the reader. *)
Definition Read_result (l : list Part) (i : Z) (rest : bytes) (n : nat)
    (r : outcome (bytes * bool * PartSetReader)) : Prop :=
  ∃ i' rest', r = Ret (take n (stream l i rest), read_eof l i rest n,
                       mkPartSetReader i' (Some <$> l) rest') ∧
    0 <= i' ∧ stream l i' rest' = drop n (stream l i rest).

Lemma bytes_Read_spec (rest : bytes) n :
  bytes_Read rest n = (take n rest, drop n rest, bool_decide (rest = [])).
Proof. destruct rest; [by rewrite take_nil, drop_nil|done]. Qed.

Lemma Read_within l i rest n fuel :
  0 <= i → (n <= length rest)%nat → (1 <= fuel)%nat →
  psr_Read fuel (mkPartSetReader i (Some <$> l) rest) n =
    Ret (take n rest, bool_decide (rest = []), mkPartSetReader i (Some <$> l) (drop n rest)).
Proof.
  intros Hi Hn Hf. destruct fuel as [|fuel]; [lia|]. simpl.
  rewrite (proj2 (Nat.leb_le _ _) Hn). by rewrite bytes_Read_spec.
Qed.

(** At the end of a part with bytes still wanted: the next part, or the end. *)
Lemma Read_next l fuel i n :
  0 <= i → (0 < n)%nat →
  (Z.of_nat (length l) <= i + 1 ∨
   ∃ p, l !! Z.to_nat (i + 1) = Some p ∧
     Read_result l (i + 1) (p_Bytes p) n
       (psr_Read fuel (mkPartSetReader (i + 1) (Some <$> l) (p_Bytes p)) n)) →
  Read_result l i [] n (psr_Read (S fuel) (mkPartSetReader i (Some <$> l) []) n).
Proof.
  intros Hi Hn Hcase. simpl. rewrite (proj2 (Nat.leb_gt _ _)) by lia. rewrite length_fmap.
  destruct Hcase as [Hend|(p & Hp & i' & rest' & Hr & Hi' & Hs')].
  - rewrite (proj2 (Z.leb_le _ _) Hend). exists (i + 1), []. unfold read_eof, stream.
    rewrite !drop_ge by lia. simpl. rewrite take_nil, drop_nil. split; [|split; [lia|done]].
    destruct n; [lia|]. by rewrite bool_decide_eq_true_2 by lia.
  - pose proof (lookup_lt_Some _ _ _ Hp) as Hlt. rewrite (proj2 (Z.leb_gt _ _)) by lia.
    pose proof (part_bytes_get l _ p Hp) as Hg. rewrite Z2Nat.id in Hg by lia.
    rewrite Hg. simpl.
    assert (stream l i [] = stream l (i + 1) (p_Bytes p)) as Hst.
    { unfold stream. rewrite (drop_S _ _ _ Hp). simpl.
      by replace (Z.to_nat (i + 1 + 1)) with (S (Z.to_nat (i + 1))) by lia. }
    exists i', rest'. rewrite Hst, Hr. split; [|done]. destruct n; [lia|].
    unfold read_eof. by rewrite Hst.
Qed.

(** The current part ends before the buffer is full. *)
Lemma Read_long l fuel i rest n b eof psr :
  0 <= i → (0 < length rest < n)%nat → (1 <= fuel)%nat →
  psr_Read fuel (mkPartSetReader i (Some <$> l) []) (n - length rest) = Ret (b, eof, psr) →
  psr_Read (S fuel) (mkPartSetReader i (Some <$> l) rest) n = Ret (rest ++ b, eof, psr).
Proof.
  intros Hi Hn Hf Hr. simpl. rewrite (proj2 (Nat.leb_gt _ _)) by lia.
  rewrite (proj2 (Nat.ltb_lt _ _)) by lia. rewrite Read_within by lia.
  rewrite take_ge, drop_ge by lia. rewrite bool_decide_eq_false_2.
  - simpl. by rewrite Hr.
  - intros ->. simpl in Hn. lia.
Qed.

Lemma Read_spec l fuel i rest n :
  0 <= i →
  (2 * (length l - Z.to_nat (i + 1)) + (if decide (rest = []) then 1 else 2) <= fuel)%nat →
  Read_result l i rest n (psr_Read fuel (mkPartSetReader i (Some <$> l) rest) n).
Proof.
  revert i rest n. induction fuel as [|fuel IH]; intros i rest n Hi Hf;
    [case_decide; lia|].
  destruct (decide (n <= length rest)%nat) as [Hn|Hn].
  { rewrite Read_within by lia. exists i, (drop n rest). unfold stream.
    rewrite take_app_le, drop_app_le by lia. split; [|done]. do 3 f_equal.
    unfold read_eof. destruct n; [done|]. unfold stream. rewrite length_app.
    rewrite (bool_decide_eq_false_2 (_ < S n)%nat) by lia.
    rewrite bool_decide_eq_false_2; [done|]. intros ->. simpl in Hn. lia. }
  destruct rest as [|x rest].
  - rewrite decide_True in Hf by done. apply Read_next; [done|simpl in Hn; lia|].
    destruct (decide (Z.of_nat (length l) <= i + 1)) as [?|Hmore]; [by left|right].
    destruct (lookup_lt_is_Some_2 l (Z.to_nat (i + 1))) as [p Hp]; [lia|].
    exists p. split; [done|]. apply IH; [lia|]. case_decide; lia.
  - rewrite decide_False in Hf by done. set (r := x :: rest) in *.
    assert (1 <= fuel)%nat as Hfu by lia.
    assert (0 < length r < n)%nat as Hlen by (split; [simpl; lia|lia]).
    destruct (IH i [] (n - length r)%nat Hi) as (i' & rest' & Hr & Hi' & Hs');
      [rewrite decide_True by done; lia|].
    exists i', rest'. rewrite (Read_long _ _ _ _ _ _ _ _ Hi Hlen Hfu Hr).
    change (stream l i r) with (r ++ stream l i []).
    rewrite take_app_ge, drop_app_ge by lia. split; [|done]. do 3 f_equal.
    unfold read_eof. change (stream l i r) with (r ++ stream l i []). rewrite length_app.
    destruct n; [lia|]. destruct (S n - length r)%nat eqn:E; [lia|].
    apply bool_decide_ext. lia.
Qed.

End reading.

(** ** Splitting *)

Section splitting.
Context {LIB : NeatLib} {LAWS : NeatLibLaws} {MLIB : MerkleLib} {MLAWS : MerkleLaws}.

(** The [i]-th chunk of [k] bytes, and the number of chunks. *)
Definition chunk (data : bytes) (k i : nat) : bytes := take k (drop (i * k) data).

Definition chunk_count (data : bytes) (k : nat) : nat := (length data + k - 1) / k.

Definition chunks (data : bytes) (k : nat) : list bytes :=
  chunk data k <$> seq 0 (chunk_count data k).

Lemma concat_chunks_prefix data k n : concat (chunk data k <$> seq 0 n) = take (n * k) data.
Proof.
  induction n as [|n IH]; [done|].
  rewrite seq_S, fmap_app, concat_app, IH. simpl. unfold chunk. rewrite app_nil_r.
  rewrite take_take_drop. f_equal. lia.
Qed.

Lemma chunk_count_bounds data k :
  (0 < k)%nat → (length data <= chunk_count data k * k < length data + k)%nat.
Proof.
  intros Hk. unfold chunk_count.
  pose proof (Nat.div_mod_eq (length data + k - 1) k).
  pose proof (Nat.mod_upper_bound (length data + k - 1) k). nia.
Qed.

Lemma concat_chunks data k : (0 < k)%nat → concat (chunks data k) = data.
Proof.
  intros Hk. unfold chunks. rewrite concat_chunks_prefix, take_ge; [done|].
  by apply chunk_count_bounds.
Qed.

Lemma chunk_count_Z data k :
  (0 < k)%nat →
  Z.quot (Z.of_nat (length data) + Z.of_nat k - 1) (Z.of_nat k) = Z.of_nat (chunk_count data k).
Proof.
  intros Hk. unfold chunk_count. rewrite Z.quot_div_nonneg by lia.
  rewrite Nat2Z.inj_div. f_equal. lia.
Qed.

Lemma slice_chunk data k i :
  (0 < k)%nat → (i < chunk_count data k)%nat →
  Z.of_nat (length data) + Z.of_nat k < 2 ^ 63 →
  slice_sub data (i64 (Z.of_nat i * Z.of_nat k))
    (MinInt (Z.of_nat (length data)) (i64 ((Z.of_nat i + 1) * Z.of_nat k)))
  = Ret (chunk data k i).
Proof.
  intros Hk Hi Hs. pose proof (chunk_count_bounds data k Hk) as Hb.
  assert (i * k < length data)%nat as Hik by nia.
  assert ((Z.of_nat i + 1) * Z.of_nat k <= Z.of_nat (length data) + Z.of_nat k) as Hik1 by nia.
  rewrite MinInt_spec, !i64_small by (unfold in_i64; nia). unfold slice_sub.
  rewrite bool_decide_eq_true_2 by nia. rewrite (proj2 (Z.leb_le _ _)) by lia. simpl. f_equal.
  unfold chunk. replace (Z.to_nat (Z.of_nat i * Z.of_nat k)) with (i * k)%nat by lia.
  destruct (Z.min_spec (Z.of_nat (length data)) ((Z.of_nat i + 1) * Z.of_nat k))
    as [[Hc ->]|[Hc ->]].
  - rewrite !take_ge; [done|..]; rewrite length_drop; nia.
  - f_equal. lia.
Qed.

(** The parts before the proofs are attached. *)
Definition raw_part (data : bytes) (k i : nat) : Part :=
  mkPart (Z.of_nat i) (chunk data k i) zeroProof.

Lemma split_loop data k :
  (0 < k)%nat → Z.of_nat (length data) + Z.of_nat k < 2 ^ 63 →
  let n := chunk_count data k in
  ∃ ba, for_loop n 0
    (λ i '(parts, ba),
       chunk ← slice_sub data (i64 (i * Z.of_nat k))
                 (MinInt (Z.of_nat (length data)) (i64 ((i + 1) * Z.of_nat k)));
       parts ← slice_set parts i (Some (mkPart i chunk zeroProof));
       mret (parts, ba_SetIndex ba (u64 i) true))
    (replicate n None, NewBitArray (u64 (Z.of_nat n)))
  = Ret (Some <$> (raw_part data k <$> seq 0 n), ba).
Proof.
  intros Hk Hs n.
  edestruct (for_loop_inv (λ j (s : list (option Part) * BitArray), s.1 = (Some <$> (raw_part data k <$> seq 0 (Z.to_nat j)))
    ++ replicate (n - Z.to_nat j) None) n 0) as ([parts ba] & Hl & Hp); cycle 2.
  - exists ba. rewrite Hl. cbn [fst] in Hp. rewrite Z.add_0_l, Nat2Z.id, Nat.sub_diag, app_nil_r in Hp.
    by rewrite Hp.
  - simpl. by rewrite Nat.sub_0_r.
  - intros j [parts ba] Hj Hp. simpl in Hp.
    assert (j = Z.of_nat (Z.to_nat j)) as Ej by lia. set (i := Z.to_nat j) in *.
    pose proof (slice_chunk data k i Hk ltac:(lia) Hs) as Hsc. rewrite <-Ej in Hsc.
    rewrite Hsc. simpl.
    rewrite slice_set_ok.
    + simpl. eexists; split; [reflexivity|]. simpl.
      replace (Z.to_nat (j + 1)) with (S i) by lia. rewrite Hp, seq_S, !fmap_app, <-app_assoc.
      rewrite insert_app_r_alt by (rewrite !length_fmap, length_seq; lia).
      rewrite !length_fmap, length_seq. fold i. rewrite Nat.sub_diag. f_equal.
      destruct (n - i)%nat eqn:E; [lia|]. simpl. unfold raw_part. rewrite <-Ej.
      by replace (n - S i)%nat with n0 by lia.
    + rewrite Hp, length_app, !length_fmap, length_seq, length_replicate. lia.
Qed.

(** The parts once the proofs are attached. *)
Definition proved_part (data : bytes) (k : nat) (proofs : list SimpleProof) (i : nat) : Part :=
  mkPart (Z.of_nat i) (chunk data k i) (default zeroProof (proofs !! i)).

Lemma proof_loop data k n proofs :
  length proofs = n →
  for_loop n 0
    (λ i parts,
       proof ← slice_get proofs i;
       part ← slice_get parts i;
       match part with
       | None => Panic "nil pointer dereference"
       | Some part => slice_set parts i (Some (mkPart (p_Index part) (p_Bytes part) proof))
       end) (Some <$> (raw_part data k <$> seq 0 n))
  = Ret (Some <$> (proved_part data k proofs <$> seq 0 n)).
Proof.
  intros Hlen.
  edestruct (for_loop_inv (λ j s, s = Some <$> ((proved_part data k proofs <$> seq 0 (Z.to_nat j))
    ++ (raw_part data k <$> seq (Z.to_nat j) (n - Z.to_nat j)))) n 0) as (s & -> & ->); cycle 2.
  - by rewrite Z.add_0_l, Nat2Z.id, Nat.sub_diag, app_nil_r.
  - by rewrite Nat.sub_0_r.
  - intros j s Hj ->. destruct (slice_get_lookup proofs j) as (pr & -> & Hpr); [lia|].
    set (i := Z.to_nat j) in *. destruct (n - i)%nat as [|m] eqn:E; [lia|].
    change (seq i (S m)) with (i :: seq (S i) m). rewrite fmap_cons, !fmap_app, fmap_cons.
    set (t := Some <$> (raw_part data k <$> seq (S i) m)).
    set (l := Some <$> (proved_part data k proofs <$> seq 0 i)).
    assert (length l = i) as Hl by (unfold l; by rewrite !length_fmap, length_seq).
    assert (slice_get (l ++ Some (raw_part data k i) :: t) j = Ret (Some (raw_part data k i)))
      as Hget.
    { apply slice_get_Ret. split; [lia|]. fold i. by rewrite list_lookup_middle. }
    simpl. rewrite Hget. simpl. rewrite slice_set_ok by (rewrite length_app, Hl; simpl; lia).
    eexists; split; [reflexivity|]. fold i.
    rewrite insert_app_r_alt by lia. rewrite Hl, Nat.sub_diag. simpl.
    replace (Z.to_nat (j + 1)) with (S i) by lia. replace (n - S i)%nat with m by lia.
    rewrite seq_S, !fmap_app, <-app_assoc. unfold l. f_equal. simpl. f_equal.
    unfold proved_part. by rewrite Hpr.
Qed.

Lemma leaves_eq data k n :
  p_Hash <$> omap id (Some <$> (raw_part data k <$> seq 0 n))
  = ripemd160 <$> (chunk data k <$> seq 0 n).
Proof.
  assert (∀ l : list Part, omap id (Some <$> l) = l) as Hid.
  { induction l as [|x l IH]; [done|]. simpl. f_equal. apply IH. }
  rewrite Hid, <-!list_fmap_compose. done.
Qed.

(** What [NewPartSetFromData] returns. *)
Lemma NewPartSetFromData_spec data k :
  (0 < k)%nat → Z.of_nat (length data) + Z.of_nat k < 2 ^ 63 →
  let leaves := ripemd160 <$> chunks data k in
  ∃ ba, NewPartSetFromData data (Z.of_nat k) = Ret (mkPartSet
    (Z.of_nat (chunk_count data k)) (SimpleProofsFromHashables leaves).1
    (Some <$> (proved_part data k (SimpleProofsFromHashables leaves).2
                 <$> seq 0 (chunk_count data k))) ba
    (Z.of_nat (chunk_count data k))).
Proof.
  intros Hk Hs leaves. unfold NewPartSetFromData.
  destruct (Z.eqb_spec (Z.of_nat k) 0); [lia|].
  rewrite i64_small by (unfold in_i64; lia). rewrite chunk_count_Z by done.
  destruct (Z.ltb_spec (Z.of_nat (chunk_count data k)) 0); [lia|]. rewrite Nat2Z.id.
  destruct (split_loop data k Hk Hs) as (ba & Hl). rewrite Hl. simpl mbind.
  rewrite leaves_eq. fold (chunks data k). fold leaves.
  pose proof (proofs_length leaves) as Hpl.
  destruct (SimpleProofsFromHashables leaves) as [root proofs]. simpl.
  rewrite proof_loop; [by exists ba|]. simpl in Hpl. rewrite Hpl. unfold leaves, chunks.
  by rewrite !length_fmap, length_seq.
Qed.

End splitting.

(** ** Properties *)

Section properties.
Context {LIB : NeatLib} {LAWS : NeatLibLaws} {MLIB : MerkleLib} {MLAWS : MerkleLaws}.

(** The sets made from a header by adding parts with verification. *)
Inductive fills (header : PartSetHeader) : PartSet → Prop :=
| fill_new ps : NewPartSetFromHeader header = Ret ps → fills header ps
| fill_add ps part ps' added err :
    fills header ps → ps_AddPart ps part true = Ret (ps', added, err) → fills header ps'.

Lemma fills_wf header ps :
  in_u64 (psh_Total header) → fills header ps → ps_wf ps ∧ ps_Header (Some ps) = header.
Proof.
  intros Hu. induction 1 as [ps Hn|ps part ps' added err _ [Hwf Hh] Ha].
  - by apply NewPartSetFromHeader_wf.
  - pose proof (AddPart_spec ps part true Hwf) as Hp. rewrite Ha in Hp.
    inversion Hp; subst; try done. split; [auto|]. simpl in *. congruence.
Qed.

(** AddPart of a part set filled against a header behaves as specified on each
    branch, keeps the header, and the set is complete exactly when every part is
    present. *)
Theorem AddPart_correct header ps part :
  in_u64 (psh_Total header) → fills header ps →
  AddPart_post ps part true (ps_AddPart ps part true) ∧ ps_Header (Some ps) = header ∧
  (ps_IsComplete ps = true ↔ ∀ i, 0 <= i < ps_total ps → ∃ p, ps_GetPart ps i = Ret (Some p)).
Proof.
  intros Hu Hf. destruct (fills_wf _ _ Hu Hf) as [Hwf Hh].
  split; [by apply AddPart_spec|]. split; [done|]. split.
  - intros Hc i Hi. destruct (IsComplete_spec _ Hwf Hc) as [l Hl]. unfold ps_GetPart.
    destruct (slice_get_lookup (ps_parts ps) i) as (o & -> & Ho);
      [by rewrite <-(pw_total _ Hwf)|].
    rewrite Hl, list_lookup_fmap in Ho. destruct (l !! Z.to_nat i); naive_solver.
  - intros Hall. unfold ps_IsComplete. apply Z.eqb_eq.
    rewrite (pw_total _ Hwf), (pw_count _ Hwf). f_equal.
    assert (∀ i o, ps_parts ps !! i = Some o → is_Some o) as Hsome.
    { intros i o Hi. pose proof (lookup_lt_Some _ _ _ Hi) as Hlt.
      destruct (Hall (Z.of_nat i)) as [p Hp]; [rewrite (pw_total _ Hwf); lia|].
      unfold ps_GetPart in Hp. apply slice_get_Ret in Hp as [_ Hp].
      rewrite Nat2Z.id, Hi in Hp. simplify_eq. eauto. }
    clear -Hsome. induction (ps_parts ps) as [|o parts IH]; [done|].
    destruct (Hsome O o eq_refl) as [p ->]. simpl. f_equal. apply IH.
    intros i. apply (Hsome (S i)).
Qed.

(** PartSetReader.Read into a buffer of any length returns the next bytes of the
    concatenated parts and the end-of-file flag as specified, within a number of steps
    linear in the number of parts. *)
Theorem Read_correct (l : list Part) i rest n :
  0 <= i →
  Read_result l i rest n
    (psr_Read (2 * length l + 2) (mkPartSetReader i (Some <$> l) rest) n).
Proof. intros Hi. apply Read_spec; [done|]. case_decide; lia. Qed.

(** Each entry of a list is good, or one of them is bad. *)
Lemma all_or_one {A} (l : list A) (P : nat → A → Prop) (Q : A → Prop) :
  (∀ i x, l !! i = Some x → P i x ∨ Q x) → (∀ i x, l !! i = Some x → P i x) ∨ ∃ x, x ∈ l ∧ Q x.
Proof.
  revert P. induction l as [|x l IH]; intros P H; [by left|].
  destruct (H 0%nat x eq_refl) as [Hx|Hx]; [|right; exists x; by split; [left|]].
  destruct (IH (λ i, P (S i))) as [Hl|(y & Hy & HQ)]; [intros i; apply (H (S i))| |].
  - left. intros [|i] y Hy; [by injection Hy as <-|by apply Hl].
  - right. exists y. by split; [right|].
Qed.

(** A part that is not the one of [data] and verifies nevertheless: its bytes have the hash
    of that part, or its proof is accepted for a leaf that is not in the tree. *)
Inductive forged (data : bytes) (k : nat) (p : Part) : Prop :=
| hash_collision i :
    p_Index p = Z.of_nat i → p_Bytes p ≠ chunk data k i →
    ripemd160 (p_Bytes p) = ripemd160 (chunk data k i) → forged data k p
| proof_forgery i :
    p_Index p = Z.of_nat i → ripemd160 (p_Bytes p) ≠ ripemd160 (chunk data k i) →
    Proof_Verify (p_Proof p) (Z.of_nat i) (Z.of_nat (chunk_count data k)) (ripemd160 (p_Bytes p))
      (SimpleProofsFromHashables (ripemd160 <$> chunks data k)).1 = true → forged data k p.

(** A part that verifies against the header of [data] carries the bytes of [data]. *)
Lemma verified_chunk data k i p :
  p_Index p = Z.of_nat i →
  Proof_Verify (p_Proof p) (Z.of_nat i) (Z.of_nat (chunk_count data k)) (p_Hash p)
    (SimpleProofsFromHashables (ripemd160 <$> chunks data k)).1 = true →
  p_Bytes p = chunk data k i ∨ forged data k p.
Proof.
  intros Hi Hv. destruct (decide (p_Bytes p = chunk data k i)); [by left|right].
  destruct (decide (ripemd160 (p_Bytes p) = ripemd160 (chunk data k i))).
  - by eapply hash_collision.
  - by eapply proof_forgery.
Qed.

(** A complete set under the header of [data] holds the chunks of [data], or a forgery. *)
Lemma complete_chunks data k src ps :
  (0 < k)%nat → Z.of_nat (length data) + Z.of_nat k < 2 ^ 63 →
  NewPartSetFromData data (Z.of_nat k) = Ret src →
  fills (ps_Header (Some src)) ps → ps_IsComplete ps = true →
  ∃ l, ps_parts ps = Some <$> l ∧ (p_Bytes <$> l = chunks data k ∨ ∃ p, p ∈ l ∧ forged data k p).
Proof.
  intros Hk Hs Hsrc Hf Hc.
  destruct (NewPartSetFromData_spec data k Hk Hs) as [ba Hspec]. rewrite Hspec in Hsrc.
  injection Hsrc as <-. pose proof (chunk_count_bounds data k Hk) as Hb.
  assert (Z.of_nat (chunk_count data k) < 2 ^ 63) as Hn by nia.
  apply fills_wf in Hf as [Hwf Hh]; [|apply u64_range].
  destruct (IsComplete_spec _ Hwf Hc) as [l Hl]. exists l. split; [done|].
  pose proof (pw_total _ Hwf) as Ht. pose proof (pw_small _ Hwf) as Hsm.
  unfold ps_Header in Hh. injection Hh as Hh1 Hh2. simpl in Hh1, Hh2.
  rewrite !u64_small in Hh1 by (unfold in_u64; lia).
  assert (length l = chunk_count data k) as Hln by (rewrite Hl, length_fmap in Ht; lia).
  destruct (all_or_one l (λ i p, p_Bytes p = chunk data k i) (forged data k)) as [Hall|Hbad]; [|left|by right].
  - intros i p Hp. destruct (pw_parts _ Hwf i p) as [Hpi Hpv]; [by rewrite Hl, list_lookup_fmap, Hp|].
    apply verified_chunk; [done|]. by rewrite <-Hpi, <-Hh1, <-Hh2.
  - apply list_eq. intros i. unfold chunks. rewrite !list_lookup_fmap.
    destruct (decide (i < chunk_count data k)%nat) as [Hi|Hi].
    + rewrite lookup_seq_lt by done. destruct (lookup_lt_is_Some_2 l i) as [p Hp]; [lia|].
      rewrite Hp. simpl. f_equal. by apply Hall.
    + rewrite (lookup_ge_None_2 l) by lia. by rewrite lookup_seq_ge by lia.
Qed.

(** A full set reads back the concatenation of its parts. *)
Lemma full_set_reads ps p0 l0 data :
  ps_IsComplete ps = true → ps_parts ps = Some <$> (p0 :: l0) →
  concat (p_Bytes <$> (p0 :: l0)) = data →
  ∃ psr psr', ps_GetReader ps = Ret psr ∧
    psr_Read (2 * length (ps_parts ps) + 2) psr (length data + 1) = Ret (data, true, psr').
Proof.
  intros Hc Hl Hcat. unfold ps_GetReader, NewPartSetReader. rewrite Hc, Hl.
  change 0 with (Z.of_nat 0). rewrite (part_bytes_get _ 0 p0) by done. simpl mbind.
  eexists. destruct (Read_spec (p0 :: l0) (2 * length (Some <$> (p0 :: l0)) + 2) 0 (p_Bytes p0)
    (length data + 1)) as (i' & rest' & Hr & _); [lia|rewrite length_fmap; case_decide; lia|].
  exists (mkPartSetReader i' (Some <$> (p0 :: l0)) rest'). split; [reflexivity|].
  assert (stream (p0 :: l0) 0 (p_Bytes p0) = data) as Hst by done.
  unfold read_eof in Hr. rewrite Hst, take_ge in Hr by lia.
  rewrite Nat.add_1_r in *. rewrite bool_decide_eq_true_2 in Hr by lia. exact Hr.
Qed.

(** C32. A part set filled by parts that verify against the header of a split block and
    complete reads back exactly the bytes that were split, unless one of the received
    parts is a forgery: other bytes with the RIPEMD-160 hash of the part, or a Merkle
    proof that is accepted for another hash than that of the part. *)
Theorem part_set_integrity data k src ps :
  (0 < k)%nat → Z.of_nat (length data) + Z.of_nat k < 2 ^ 63 → data ≠ [] →
  NewPartSetFromData data (Z.of_nat k) = Ret src →
  fills (ps_Header (Some src)) ps → ps_IsComplete ps = true →
  (∃ psr psr', ps_GetReader ps = Ret psr ∧
     psr_Read (2 * length (ps_parts ps) + 2) psr (length data + 1) = Ret (data, true, psr')) ∨
  (∃ p, Some p ∈ ps_parts ps ∧ forged data k p).
Proof.
  intros Hk Hs Hne Hsrc Hf Hc.
  destruct (complete_chunks data k src ps Hk Hs Hsrc Hf Hc) as (l & Hl & [Hb|(p & Hin & Hp)]).
  - left. destruct l as [|p0 l0].
    + destruct Hne. rewrite <-(concat_chunks data k Hk), <-Hb. done.
    + eapply full_set_reads; [done|done|]. rewrite Hb. by apply concat_chunks.
  - right. exists p. split; [|done]. rewrite Hl. apply list_elem_of_fmap. eauto.
Qed.

(** Every part of a split block is accepted by a part set built from the header
    that still misses it. *)
Theorem split_parts_are_accepted data k src ps i part :
  (0 < k)%nat → Z.of_nat (length data) + Z.of_nat k < 2 ^ 63 →
  NewPartSetFromData data (Z.of_nat k) = Ret src →
  fills (ps_Header (Some src)) ps → ps_GetPart src i = Ret (Some part) →
  ps_parts ps !! Z.to_nat i = Some None →
  ∃ ps', ps_AddPart ps part true = Ret (ps', true, None) ∧
    ps_count ps' = ps_count ps + 1 ∧ ps_parts ps' !! Z.to_nat i = Some (Some part).
Proof.
  intros Hk Hs Hsrc Hf Hget Hfree.
  destruct (NewPartSetFromData_spec data k Hk Hs) as [ba Hspec]. rewrite Hspec in Hsrc.
  injection Hsrc as <-. pose proof (chunk_count_bounds data k Hk) as Hb.
  assert (Z.of_nat (chunk_count data k) < 2 ^ 63) as Hn by nia.
  apply fills_wf in Hf as [Hwf Hh]; [|apply u64_range].
  pose proof (pw_total _ Hwf) as Ht. pose proof (pw_small _ Hwf) as Hsm.
  unfold ps_Header in Hh. injection Hh as Hh1 Hh2. simpl in Hh1, Hh2.
  rewrite !u64_small in Hh1 by (unfold in_u64; lia).
  unfold ps_GetPart in Hget. simpl in Hget. apply slice_get_Ret in Hget as [Hi Hget].
  rewrite !list_lookup_fmap in Hget.
  destruct (decide (Z.to_nat i < chunk_count data k)%nat) as [Hlt|Hge];
    [|by rewrite lookup_seq_ge in Hget by lia].
  rewrite lookup_seq_lt in Hget by done. simpl in Hget. injection Hget as <-.
  set (leaves := ripemd160 <$> chunks data k) in *.
  set (proofs := (SimpleProofsFromHashables leaves).2) in *.
  assert (length leaves = chunk_count data k) as Hll.
  { unfold leaves, chunks. by rewrite !length_fmap, length_seq. }
  destruct (lookup_lt_is_Some_2 proofs (Z.to_nat i)) as [pr Hpr].
  { unfold proofs. by rewrite proofs_length, Hll. }
  assert (leaves !! Z.to_nat i = Some (ripemd160 (chunk data k (Z.to_nat i)))) as Hleaf.
  { unfold leaves, chunks. by rewrite !list_lookup_fmap, lookup_seq_lt by done. }
  pose proof (proofs_verify leaves _ _ _ Hleaf Hpr) as Hv. rewrite Hll in Hv.
  pose proof (AddPart_spec ps (proved_part data k proofs (Z.to_nat i)) true Hwf) as Hp.
  inversion Hp as [Hx|w Hx|p Hx|_ Hx|ps' Hx Hparts Htot Hhash Hcnt Hle Hwf' Heq]; simpl in *;
    rewrite ?Nat2Z.id in *.
  - lia.
  - lia.
  - congruence.
  - rewrite Hpr in Hx. simpl in Hx. unfold p_Hash in Hx. simpl in Hx. congruence.
  - exists ps'. split; [done|]. split; [done|]. rewrite Hparts.
    apply list_lookup_insert_eq. by eapply lookup_lt_Some.
Qed.

End properties.

(** ** Concrete instances

    A Merkle library whose root lists the leaves and whose proofs carry them. *)

Definition toy_root (leaves : list bytes) : bytes := concat (frame <$> leaves).

Definition toy_merkle : MerkleLib := {|
  SimpleProof := list bytes;
  zeroProof := [];
  SimpleProofsFromHashables leaves := (toy_root leaves, replicate (length leaves) leaves);
  Proof_Verify p i n h root :=
    bool_decide (root = toy_root p) && bool_decide (n = Z.of_nat (length p)) &&
    bool_decide (0 <= i) && bool_decide (p !! Z.to_nat i = Some h);
  ripemd160 b := b;
  MinInt := Z.min
|}.

Global Instance toy_merkle_laws : @MerkleLaws toy_merkle.
Proof.
  split; simpl.
  - done.
  - intros leaves. apply length_replicate.
  - intros leaves i h p Hi Hp. apply lookup_replicate in Hp as [-> _].
    rewrite Nat2Z.id. rewrite !bool_decide_eq_true_2; [done|done|lia|done|done].
Qed.

Definition ex_data : bytes := [1; 2; 3; 4; 5].

Definition ex_ps_empty : @PartSet toy_lib toy_merkle :=
  mkPartSet (LIB := toy_lib) (MLIB := toy_merkle) 0 [] [] [] 0.

Definition ex_src : @PartSet toy_lib toy_merkle :=
  from_Ret ex_ps_empty (@NewPartSetFromData toy_lib toy_merkle ex_data 2).

Definition ex_part (i : Z) : @Part toy_merkle :=
  match ps_GetPart ex_src i with
  | Ret (Some p) => p
  | _ => mkPart (MLIB := toy_merkle) (-1) [] []
  end.

Definition ex_fill0 : @PartSet toy_lib toy_merkle :=
  from_Ret ex_ps_empty (NewPartSetFromHeader (ps_Header (Some ex_src))).

Definition ex_fill (ps : @PartSet toy_lib toy_merkle) (part : @Part toy_merkle) :=
  fst (fst (from_Ret (ps, false, None) (ps_AddPart ps part true))).

Lemma ex_fill_fills h ps part : fills h ps → fills h (ex_fill ps part).
Proof.
  intros Hf. unfold ex_fill. destruct (ps_AddPart ps part true) as [[[ps' a] e]|] eqn:E; [|done].
  by eapply fill_add.
Qed.

Lemma ex_fill0_fills : fills (ps_Header (Some ex_src)) ex_fill0.
Proof. apply fill_new, from_Ret_eq. vm_compute. reflexivity. Qed.

Lemma ex_src_eq : @NewPartSetFromData toy_lib toy_merkle ex_data (Z.of_nat 2) = Ret ex_src.
Proof. apply from_Ret_eq. vm_compute. reflexivity. Qed.

(** The parts arrive out of order. *)
Definition ex_full : @PartSet toy_lib toy_merkle :=
  ex_fill (ex_fill (ex_fill ex_fill0 (ex_part 2)) (ex_part 0)) (ex_part 1).

Lemma AddPart_correct_witness :
  AddPart_post ex_fill0 (ex_part 1) true (ps_AddPart ex_fill0 (ex_part 1) true).
Proof.
  refine (proj1 (@AddPart_correct toy_lib toy_laws toy_merkle _ ex_fill0 (ex_part 1) _
    ex_fill0_fills)). vm_compute. split; [discriminate|reflexivity].
Defined.

Lemma Read_correct_witness :
  ∃ psr, psr_Read 4 (mkPartSetReader (MLIB := toy_merkle) 0 [Some (ex_part 0)] [1; 2]) 1 =
    Ret ([1], false, psr).
Proof.
  destruct (@Read_correct toy_merkle [ex_part 0] 0 [1; 2] 1 ltac:(lia))
    as (i' & rest' & Hr & _).
  eexists. exact Hr.
Defined.

Lemma part_set_integrity_witness :
  ∃ psr psr', ps_GetReader ex_full = Ret psr ∧
    psr_Read (2 * length (ps_parts ex_full) + 2) psr 6 = Ret (ex_data, true, psr').
Proof.
  destruct (@part_set_integrity toy_lib toy_laws toy_merkle toy_merkle_laws ex_data 2 ex_src ex_full)
    as [H|(p & Hin & Hp)]; [lia|done|done|apply ex_src_eq| |vm_compute; reflexivity|exact H|].
  - do 3 apply ex_fill_fills. apply ex_fill0_fills.
  - exfalso. revert Hin. vm_compute. intros Hin.
    repeat (apply elem_of_cons in Hin as [[= ->]|Hin]); [..|by apply elem_of_nil in Hin];
      destruct Hp as [i Hi Hne _|i Hi Hne _]; simpl in Hi, Hne;
      first [replace i with 0%nat in Hne by lia|replace i with 1%nat in Hne by lia|replace i with 2%nat in Hne by lia];
      by destruct Hne.
Defined.

Lemma split_parts_are_accepted_witness :
  ∃ ps', ps_AddPart ex_fill0 (ex_part 1) true = Ret (ps', true, None) ∧ ps_count ps' = 1.
Proof.
  destruct (@split_parts_are_accepted toy_lib toy_laws toy_merkle toy_merkle_laws ex_data 2 ex_src
    ex_fill0 1 (ex_part 1)) as (ps' & Ha & Hc & _);
    [lia|done|apply ex_src_eq|apply ex_fill0_fills|vm_compute; reflexivity
    |vm_compute; reflexivity|].
  exists ps'. split; [exact Ha|]. rewrite Hc. vm_compute. reflexivity.
Defined.
