(* ===== verification/SignAggr.v ===== *)
(** * Signature aggregates (types/sign_aggr.go, consensus/height_sign_aggr.go)

    The proposer of a round replaces the votes of a quorum by one [SignAggr].  This
    file models the aggregate, the per-height store [HeightVoteSignAggr], the check
    [blsVerifySignAggr] of consensus/state.go and the commit made from an aggregate.
    The theorems say what an accepted aggregate proves, when the commit made from it
    passes [VerifyCommit], that a stored aggregate is never replaced, and what the
    check leaves unauthenticated. *)

From Stdlib Require Import ZArith Lia.
From stdpp Require Import base tactics strings numbers gmap list.
From S2P Require Import Prelude Types ValidatorSet.

Local Open Scope Z_scope.

Section sign_aggr.
Context {LIB : NeatLib}.

Record SignAggr := mkSignAggr {
  sa_ChainID : string;
  sa_Height : Z;
  sa_Round : Z;
  sa_Type : Z;
  sa_NumValidators : Z;
  sa_BlockID : BlockID;
  sa_Maj23 : BlockID;
  sa_BitArray : BitArray;
  sa_Sum : Z;
  sa_SignatureAggr : option Signature;
  sa_SignBytes : bytes
}.

Definition MakeSignAggr (height round mtype numValidators : Z) (blockID : BlockID)
    (chainID : string) (bitArray : BitArray) (signAggr : option Signature) : SignAggr :=
  mkSignAggr chainID height round mtype numValidators blockID blockID bitArray 0 signAggr [].

(** [SignAggr] and [SignRound] on a pointer. *)
Definition sa_SignAggr (sa : option SignAggr) : option Signature :=
  match sa with Some sa => sa_SignatureAggr sa | None => None end.

Definition sa_SignRound (sa : option SignAggr) : Z :=
  match sa with Some sa => sa_Round sa | None => -1 end.

Definition sa_HasTwoThirdsMajority (sa : SignAggr) (valSet : option ValidatorSet)
    : outcome bool :=
  match valSet with
  | None => mret false
  | Some valSet =>
      t ← TalliedVotingPower valSet (sa_BitArray sa);
      match t with
      | inr _ => mret false
      | inl (_, votesSum, totalVotes) =>
          mret (Loose23MajorThreshold totalVotes (sa_Round sa) <=? votesSum)
      end
  end.

(** [if sa == nil { sa.Maj23 = blockID }]: a no-op, or a nil dereference. *)
Definition sa_SetMaj23 (sa : option SignAggr) (blockID : BlockID) : outcome (option SignAggr) :=
  match sa with
  | None => Panic "nil pointer dereference"
  | Some sa => mret (Some sa)
  end.

Definition sa_IsCommit (sa : option SignAggr) : bool :=
  match sa with
  | None => false
  | Some sa =>
      if negb (sa_Type sa =? VoteTypePrecommit) then false
      else negb (Bool.eqb (bid_IsZero (sa_Maj23 sa)) false)
  end.

Definition sa_MakeCommit (sa : SignAggr) : Commit :=
  mkCommit (sa_Maj23 sa) (sa_Height sa) (sa_Round sa) (sa_SignAggr (Some sa)) (sa_BitArray sa).

Definition sa_SignAggrVerify (sa : SignAggr) (msg : option bytes) (valSet : option ValidatorSet)
    : outcome bool :=
  match msg, valSet with
  | Some msg, Some vs =>
      if negb (i64 (ba_Size (sa_BitArray sa)) =? vs_Size vs) then mret false
      else
        pubKey ← AggrPubKey vs (sa_BitArray sa);
        match pubKey with
        | None => Panic "nil pointer dereference"
        | Some pk =>
            if VerifyBytes pk msg (sa_SignatureAggr sa)
            then sa_HasTwoThirdsMajority sa valSet else mret false
        end
  | _, _ => mret false
  end.

Definition sa_HasAll (sa : SignAggr) (valSet : ValidatorSet) : bool :=
  sa_Sum sa =? TotalVotingPower valSet.

Definition sa_TwoThirdsMajority (sa : option SignAggr) : BlockID * bool :=
  match sa with
  | None => (bid_zero, false)
  | Some sa => if bid_IsZero (sa_Maj23 sa) then (bid_zero, false) else (sa_Maj23 sa, true)
  end.

(** [blsVerifySignAggr] of consensus/state.go, on [cs.Validators]. *)
Inductive AggrErr :=
| ErrNilSignature | ErrTally (e : TallyErr) | ErrNoAggrPubKey | ErrAggrSignature.

Definition blsVerifySignAggr (validators : ValidatorSet) (sa : SignAggr)
    : outcome (bool * option AggrErr) :=
  match sa_SignAggr (Some sa) with
  | None => mret (false, Some ErrNilSignature)
  | Some sig =>
      t ← TalliedVotingPower validators (sa_BitArray sa);
      match t with
      | inr e => mret (false, Some (ErrTally e))
      | inl (_, votesSum, totalVotes) =>
          let quorum := Loose23MajorThreshold totalVotes (sa_Round sa) in
          let maj23 := quorum <=? votesSum in
          aggrPubKey ← AggrPubKey validators (sa_BitArray sa);
          match aggrPubKey with
          | None => mret (false, Some ErrNoAggrPubKey)
          | Some pk =>
              let vote := aggregate_vote (sa_BlockID sa) (sa_Height sa) (sa_Round sa)
                            (sa_Type sa) in
              if negb (VerifyBytes pk (SignBytes_Vote (sa_ChainID sa) vote) (Some sig))
              then mret (false, Some ErrAggrSignature)
              else mret (maj23, None)
          end
      end
  end.

(** ** The aggregates of a height *)

Record RoundVoteSignAggr := mkRoundVoteSignAggr {
  rva_Prevotes : option SignAggr;
  rva_Precommits : option SignAggr
}.

Record HeightVoteSignAggr := mkHeightVoteSignAggr {
  hva_chainID : string;
  hva_height : Z;
  hva_valSet : ValidatorSet;
  hva_round : Z;
  hva_rounds : gmap Z RoundVoteSignAggr
}.

Definition hva_set_rounds (hvs : HeightVoteSignAggr) (m : gmap Z RoundVoteSignAggr)
    : HeightVoteSignAggr :=
  mkHeightVoteSignAggr (hva_chainID hvs) (hva_height hvs) (hva_valSet hvs) (hva_round hvs) m.

Definition hva_set_round (hvs : HeightVoteSignAggr) (round : Z) : HeightVoteSignAggr :=
  mkHeightVoteSignAggr (hva_chainID hvs) (hva_height hvs) (hva_valSet hvs) round
    (hva_rounds hvs).

Definition hva_addRound (hvs : HeightVoteSignAggr) (round : Z) : outcome HeightVoteSignAggr :=
  match hva_rounds hvs !! round with
  | Some _ => Panic "addRound() for an existing round"
  | None =>
      mret (hva_set_rounds hvs (<[round := mkRoundVoteSignAggr None None]> (hva_rounds hvs)))
  end.

Definition hva_Reset (hvs : HeightVoteSignAggr) (height : Z) (valSet : ValidatorSet)
    : outcome HeightVoteSignAggr :=
  hvs ← hva_addRound (mkHeightVoteSignAggr (hva_chainID hvs) height valSet (hva_round hvs) ∅) 0;
  mret (hva_set_round hvs 0).

Definition NewHeightVoteSignAggr (chainID : string) (height : Z) (valSet : ValidatorSet)
    : outcome HeightVoteSignAggr :=
  hva_Reset (mkHeightVoteSignAggr chainID 0 (mkValidatorSet None None) 0 ∅) height valSet.

(** The loop is the code's for [round] below the greatest [int]. *)
Definition hva_SetRound (hvs : HeightVoteSignAggr) (round : Z) : outcome HeightVoteSignAggr :=
  if negb (hva_round hvs =? 0) && (round <? i64 (hva_round hvs + 1))
  then Panic "SetRound() must increment hvs.round"
  else
    hvs ← for_loop (Z.to_nat (round - hva_round hvs)) (hva_round hvs + 1)
            (λ r hvs, match hva_rounds hvs !! r with
                      | Some _ => mret hvs
                      | None => hva_addRound hvs r
                      end) hvs;
    mret (hva_set_round hvs round).

Definition hva_ResetTop2Round (hvs : HeightVoteSignAggr) (round : Z)
    : outcome HeightVoteSignAggr :=
  if (hva_round hvs <? round) || (round <? 1)
  then Panic "HeightVoteSignAggr.ResetTop2Round() must have enough round to reset"
  else
    hvs ← for_loop (Z.to_nat (hva_round hvs - (round - 1) + 1)) (round - 1)
            (λ r hvs, mret (hva_set_rounds hvs (delete r (hva_rounds hvs)))) hvs;
    hvs ← hva_addRound hvs (round - 1);
    hvs ← hva_addRound hvs round;
    mret (hva_set_round hvs round).

Definition hva_getSignAggr (hvs : HeightVoteSignAggr) (round type_ : Z)
    : outcome (option SignAggr) :=
  match hva_rounds hvs !! round with
  | None => mret None
  | Some rvs =>
      if type_ =? VoteTypePrevote then mret (rva_Prevotes rvs)
      else if type_ =? VoteTypePrecommit then mret (rva_Precommits rvs)
      else Panic "Unexpected vote type"
  end.

Definition hva_AddSignAggr (hvs : HeightVoteSignAggr) (sa : SignAggr)
    : outcome (HeightVoteSignAggr * bool) :=
  if negb (IsVoteTypeValid (sa_Type sa)) then mret (hvs, false)
  else
    existing ← hva_getSignAggr hvs (sa_Round sa) (sa_Type sa);
    match existing with
    | Some _ => mret (hvs, false)
    | None =>
        match hva_rounds hvs !! sa_Round sa with
        | None => mret (hvs, false)
        | Some rvs =>
            if sa_Type sa =? VoteTypePrevote then
              mret (hva_set_rounds hvs (<[sa_Round sa :=
                      mkRoundVoteSignAggr (Some sa) (rva_Precommits rvs)]> (hva_rounds hvs)), true)
            else if sa_Type sa =? VoteTypePrecommit then
              mret (hva_set_rounds hvs (<[sa_Round sa :=
                      mkRoundVoteSignAggr (rva_Prevotes rvs) (Some sa)]> (hva_rounds hvs)), true)
            else mret (hvs, false)
        end
    end.

Definition hva_Prevotes (hvs : HeightVoteSignAggr) (round : Z) : outcome (option SignAggr) :=
  hva_getSignAggr hvs round VoteTypePrevote.

Definition hva_Precommits (hvs : HeightVoteSignAggr) (round : Z) : outcome (option SignAggr) :=
  hva_getSignAggr hvs round VoteTypePrecommit.

(** [for r := hvs.round; r >= 0; r--]: [n] rounds are left, the next is [n - 1]. *)
Fixpoint hva_POLInfo_from (hvs : HeightVoteSignAggr) (n : nat) : outcome (Z * BlockID) :=
  match n with
  | O => mret (-1, bid_zero)
  | S n =>
      rvs ← hva_getSignAggr hvs (Z.of_nat n) VoteTypePrevote;
      let '(polBlockID, ok) := sa_TwoThirdsMajority rvs in
      if ok then mret (Z.of_nat n, polBlockID) else hva_POLInfo_from hvs n
  end.

Definition hva_POLInfo (hvs : HeightVoteSignAggr) : outcome (Z * BlockID) :=
  hva_POLInfo_from hvs (Z.to_nat (hva_round hvs + 1)).

End sign_aggr.

Section sign_aggr_props.
Context {LIB : NeatLib} {LAWS : NeatLibLaws}.

(** The message an aggregate claims its signers signed. *)
Definition sa_message (sa : SignAggr) : bytes :=
  SignBytes_Vote (sa_ChainID sa)
    (aggregate_vote (sa_BlockID sa) (sa_Height sa) (sa_Round sa) (sa_Type sa)).

Lemma blsVerify_spec validators sa :
  vs_Size validators < 2 ^ 63 → vs_Validators validators ≠ None →
  ∃ maj23 err, blsVerifySignAggr validators sa = Ret (maj23, err) ∧
    ((maj23 = true ∧ err = None) ↔
       is_Some (sa_SignatureAggr sa) ∧
       quorum_marked validators (sa_BitArray sa) (sa_Round sa) ∧
       aggregate_signed validators (sa_BitArray sa) (sa_message sa) (sa_SignatureAggr sa)).
Proof.
  intros Hn Hnil. unfold blsVerifySignAggr, quorum_marked, aggregate_signed, sa_message.
  simpl sa_SignAggr. destruct (sa_SignatureAggr sa) as [sig|] eqn:Hsig.
  2:{ do 2 eexists. split; [reflexivity|]. split; [naive_solver|]. by intros [[? ?] _]. }
  rewrite TalliedVotingPower_spec, AggrPubKey_spec by done.
  rewrite (bool_decide_eq_false_2 (vs_Validators validators = None)) by done.
  destruct (ba_isNil (sa_BitArray sa)).
  { do 2 eexists. split; [reflexivity|]. split; [by intros [? _]|]. by intros (_ & (? & _) & _). }
  destruct (Z.eqb_spec (vs_Size validators) (ba_Size (sa_BitArray sa))) as [He|He]; simpl.
  2:{ do 2 eexists. split; [reflexivity|]. split; [by intros [? _]|].
      intros (_ & (_ & ? & _) & _). congruence. }
  destruct (BLSPubKeyAggregate _) as [pk|]; simpl.
  2:{ do 2 eexists. split; [reflexivity|]. split; [by intros [? _]|].
      by intros (_ & _ & pk & ? & _). }
  destruct (VerifyBytes pk _ _) eqn:Hv; simpl.
  2:{ do 2 eexists. split; [reflexivity|]. split; [by intros [? _]|].
      intros (_ & _ & pk' & ? & ?). congruence. }
  do 2 eexists. split; [reflexivity|].
  destruct (Z.leb_spec (Loose23MajorThreshold (total_power validators) (sa_Round sa))
    (tally (marked (sa_BitArray sa)) (powers validators))) as [Hq|Hq].
  - split; [intros _|done]. split; [eauto|]. split; [done|]. by exists pk.
  - split; [by intros [? _]|]. intros (_ & (_ & _ & ?) & _). lia.
Qed.

(** C33. blsVerifySignAggr never panics on a message with a validator set, and reports a
    verified majority exactly when the signature is present, the bitmap marks a quorum
    and the aggregate signature verifies on the sign bytes of the block id. *)
Theorem blsVerifySignAggr_accepts_iff validators sa :
  vs_Size validators < 2 ^ 63 → vs_Validators validators ≠ None →
  ∃ maj23 err, blsVerifySignAggr validators sa = Ret (maj23, err) ∧
    ((maj23 = true ∧ err = None) ↔
       is_Some (sa_SignatureAggr sa) ∧
       quorum_marked validators (sa_BitArray sa) (sa_Round sa) ∧
       aggregate_signed validators (sa_BitArray sa) (sa_message sa) (sa_SignatureAggr sa)).
Proof. apply blsVerify_spec. Qed.

Lemma accepted_aggregate_spec validators chainID sa :
  vs_Size validators < 2 ^ 63 → vs_Validators validators ≠ None →
  sa_ChainID sa = chainID → sa_Type sa = VoteTypePrecommit → sa_Maj23 sa = sa_BlockID sa →
  blsVerifySignAggr validators sa = Ret (true, None) →
  VerifyCommit validators chainID (sa_Height sa) (Some (sa_MakeCommit sa)) = Ret None ∧
  sa_HasTwoThirdsMajority sa (Some validators) = Ret true.
Proof.
  intros Hn Hnil Hc Ht Hm Hb.
  destruct (blsVerify_spec validators sa Hn Hnil) as (maj23 & err & He & Hiff).
  rewrite Hb in He. simplify_eq. destruct (proj1 Hiff) as (_ & Hq & Hs); [done|]. split.
  - apply VerifyCommit_spec; [done|done|]. unfold sa_MakeCommit. simpl. rewrite Hm.
    split; [done|]. split; [done|]. unfold sa_message in Hs. by rewrite Ht in Hs.
  - unfold sa_HasTwoThirdsMajority. rewrite TalliedVotingPower_spec by done.
    destruct Hq as (-> & -> & Hq). rewrite bool_decide_eq_false_2, Z.eqb_refl by done. simpl.
    by rewrite (proj2 (Z.leb_le _ _) Hq).
Qed.

(** A precommit aggregate that passes blsVerifySignAggr, with the chain id of the
    chain and Maj23 equal to its block id, makes a commit that VerifyCommit accepts, and
    HasTwoThirdsMajority holds of it. *)
Theorem accepted_aggregate_commits validators chainID sa :
  vs_Size validators < 2 ^ 63 → vs_Validators validators ≠ None →
  sa_ChainID sa = chainID → sa_Type sa = VoteTypePrecommit → sa_Maj23 sa = sa_BlockID sa →
  blsVerifySignAggr validators sa = Ret (true, None) →
  VerifyCommit validators chainID (sa_Height sa) (Some (sa_MakeCommit sa)) = Ret None ∧
  sa_HasTwoThirdsMajority sa (Some validators) = Ret true.
Proof. apply accepted_aggregate_spec. Qed.

(** ** The store *)

(** The aggregate kept for a round and a type. *)
Definition stored (hvs : HeightVoteSignAggr) (round type_ : Z) : option SignAggr :=
  rvs ← hva_rounds hvs !! round;
  if type_ =? VoteTypePrevote then rva_Prevotes rvs
  else if type_ =? VoteTypePrecommit then rva_Precommits rvs else None.

Lemma getSignAggr_stored hvs round type_ :
  IsVoteTypeValid type_ = true → hva_getSignAggr hvs round type_ = Ret (stored hvs round type_).
Proof.
  unfold IsVoteTypeValid, hva_getSignAggr, stored.
  destruct (hva_rounds hvs !! round); simpl; [|done].
  destruct (type_ =? VoteTypePrevote); [done|]. by destruct (type_ =? VoteTypePrecommit).
Qed.

Lemma AddSignAggr_spec hvs sa :
  ∃ hvs' added, hva_AddSignAggr hvs sa = Ret (hvs', added) ∧
    hva_round hvs' = hva_round hvs ∧ hva_height hvs' = hva_height hvs ∧
    hva_chainID hvs' = hva_chainID hvs ∧ hva_valSet hvs' = hva_valSet hvs ∧
    (∀ r, is_Some (hva_rounds hvs' !! r) ↔ is_Some (hva_rounds hvs !! r)) ∧
    added = IsVoteTypeValid (sa_Type sa) && bool_decide (is_Some (hva_rounds hvs !! sa_Round sa))
              && bool_decide (stored hvs (sa_Round sa) (sa_Type sa) = None) ∧
    ∀ round type_, stored hvs' round type_ =
      if added && (round =? sa_Round sa) && (type_ =? sa_Type sa) then Some sa
      else stored hvs round type_.
Proof.
  unfold hva_AddSignAggr. destruct (IsVoteTypeValid (sa_Type sa)) eqn:Ht; simpl.
  2:{ by exists hvs, false. }
  rewrite getSignAggr_stored by done. simpl.
  destruct (stored hvs (sa_Round sa) (sa_Type sa)) as [old|] eqn:Ho.
  { exists hvs, false. rewrite andb_false_r. by split_and!. }
  destruct (hva_rounds hvs !! sa_Round sa) as [rvs|] eqn:Hr.
  2:{ exists hvs, false. by split_and!. }
  assert (∀ rvs' r, is_Some (<[sa_Round sa := rvs']> (hva_rounds hvs) !! r) ↔
    is_Some (hva_rounds hvs !! r)) as Hdom.
  { intros rvs' r. destruct (decide (r = sa_Round sa)) as [->|].
    - rewrite lookup_insert_eq, Hr. split; eauto.
    - by rewrite lookup_insert_ne. }
  assert (∀ rvs' t, stored (hva_set_rounds hvs (<[sa_Round sa := rvs']> (hva_rounds hvs)))
    (sa_Round sa) t = if t =? VoteTypePrevote then rva_Prevotes rvs'
      else if t =? VoteTypePrecommit then rva_Precommits rvs' else None) as Hsame.
  { intros rvs' t. unfold stored. simpl. by rewrite lookup_insert_eq. }
  unfold IsVoteTypeValid in Ht.
  assert (∀ rvs' r t, r ≠ sa_Round sa → stored (hva_set_rounds hvs
    (<[sa_Round sa := rvs']> (hva_rounds hvs))) r t = stored hvs r t) as Hother.
  { intros rvs' r t Hne. unfold stored. simpl. by rewrite lookup_insert_ne. }
  rewrite !bool_decide_eq_true_2 by eauto.
  destruct (Z.eqb_spec (sa_Type sa) VoteTypePrevote) as [E|E];
    [|destruct (Z.eqb_spec (sa_Type sa) VoteTypePrecommit) as [E'|E']; [|done]];
    do 2 eexists; (split; [reflexivity|]); do 4 (split; [done|]); (split; [apply Hdom|]); (split; [done|]);
    intros r t; simpl;
    (destruct (Z.eqb_spec r (sa_Round sa)) as [->|]; [|by apply Hother]);
    rewrite Hsame; unfold stored; rewrite Hr; simpl.
  - rewrite E. by destruct (Z.eqb_spec t VoteTypePrevote).
  - rewrite E'. destruct (Z.eqb_spec t VoteTypePrevote) as [->|]; [done|].
    by destruct (Z.eqb_spec t VoteTypePrecommit).
Qed.

(** AddSignAggr stores an aggregate exactly when its type is valid, its round is
    tracked and the slot is empty; it changes no other slot and never replaces a stored
    aggregate. *)
Theorem AddSignAggr_first_wins hvs sa :
  ∃ hvs' added, hva_AddSignAggr hvs sa = Ret (hvs', added) ∧
    added = IsVoteTypeValid (sa_Type sa) && bool_decide (is_Some (hva_rounds hvs !! sa_Round sa))
              && bool_decide (stored hvs (sa_Round sa) (sa_Type sa) = None) ∧
    (∀ round type_, stored hvs' round type_ =
       if added && (round =? sa_Round sa) && (type_ =? sa_Type sa) then Some sa
       else stored hvs round type_) ∧
    (∀ round type_ old, stored hvs round type_ = Some old → stored hvs' round type_ = Some old).
Proof.
  destruct (AddSignAggr_spec hvs sa) as (hvs' & added & -> & _ & _ & _ & _ & _ & Ha & Hs).
  exists hvs', added. split; [done|]. split; [done|]. split; [done|].
  intros round type_ old Ho. rewrite Hs. destruct added; [|done]. symmetry in Ha. bsimp.
  destruct (Z.eqb_spec round (sa_Round sa)) as [->|]; [|done].
  destruct (Z.eqb_spec type_ (sa_Type sa)) as [->|]; [|done]. simpl. congruence.
Qed.

Lemma hva_POLInfo_from_spec hvs n :
  ∃ r b, hva_POLInfo_from hvs n = Ret (r, b) ∧ -1 <= r < Z.of_nat n ∧
    (0 <= r → sa_TwoThirdsMajority (stored hvs r VoteTypePrevote) = (b, true)) ∧
    (∀ q, r < q < Z.of_nat n → 0 <= q →
       (sa_TwoThirdsMajority (stored hvs q VoteTypePrevote)).2 = false).
Proof.
  induction n as [|n IH].
  - exists (-1), bid_zero. split; [done|]. split; [lia|]. split; intros; lia.
  - simpl. rewrite getSignAggr_stored by done. simpl.
    destruct (sa_TwoThirdsMajority (stored hvs (Z.of_nat n) VoteTypePrevote)) as [b ok] eqn:Hm.
    destruct ok.
    + exists (Z.of_nat n), b. split; [done|]. split; [lia|]. split; [done|]. intros; lia.
    + destruct IH as (r & b' & -> & Hr & Hmaj & Hno). exists r, b'. split; [done|].
      split; [lia|]. split; [done|]. intros q Hq H0.
      destruct (decide (q = Z.of_nat n)) as [->|]; [by rewrite Hm|]. apply Hno; lia.
Qed.

Lemma hva_POLInfo_spec hvs :
  -1 <= hva_round hvs →
  ∃ r b, hva_POLInfo hvs = Ret (r, b) ∧ -1 <= r <= hva_round hvs ∧
    (0 <= r → sa_TwoThirdsMajority (stored hvs r VoteTypePrevote) = (b, true)) ∧
    (∀ q, r < q <= hva_round hvs → 0 <= q →
       (sa_TwoThirdsMajority (stored hvs q VoteTypePrevote)).2 = false).
Proof.
  intros H0. destruct (hva_POLInfo_from_spec hvs (Z.to_nat (hva_round hvs + 1)))
    as (r & b & He & Hr & Hm & Hno).
  exists r, b. split; [done|]. split; [lia|]. split; [done|]. intros; apply Hno; lia.
Qed.

(** Changing rounds keeps or drops aggregates, it never makes up one. *)
Definition keeps_stored (hvs hvs' : HeightVoteSignAggr) : Prop :=
  ∀ r t sa, stored hvs' r t = Some sa → stored hvs r t = Some sa.

Lemma addRound_keeps hvs r hvs' : hva_addRound hvs r = Ret hvs' → keeps_stored hvs hvs'.
Proof.
  unfold hva_addRound. destruct (hva_rounds hvs !! r) eqn:E; [done|]. intros [= <-].
  intros r' t sa. unfold stored. cbn. destruct (decide (r' = r)) as [->|].
  - rewrite lookup_insert_eq. cbn. by destruct (t =? VoteTypePrevote), (t =? VoteTypePrecommit).
  - by rewrite lookup_insert_ne.
Qed.

Lemma SetRound_keeps hvs r hvs' : hva_SetRound hvs r = Ret hvs' → keeps_stored hvs hvs'.
Proof.
  unfold hva_SetRound. destruct (_ && _); [done|].
  destruct (for_loop _ _ _ _) as [h|] eqn:E; cbn; [|done]. intros [= <-].
  change (keeps_stored hvs h). eapply (for_loop_returns (keeps_stored hvs)); [by intros ??? | |exact E].
  intros j t t' Ht. cbn beta. destruct (hva_rounds t !! j); [intros H; by injection H as <-|].
  intros H%addRound_keeps r' ty sa Hs. by apply Ht, H.
Qed.

Lemma ResetTop2Round_keeps hvs r hvs' :
  hva_ResetTop2Round hvs r = Ret hvs' → keeps_stored hvs hvs'.
Proof.
  unfold hva_ResetTop2Round. destruct (_ || _); [done|].
  destruct (for_loop _ _ _ _) as [h|] eqn:E; cbn; [|done].
  assert (keeps_stored hvs h) as Hh.
  { eapply (for_loop_returns (keeps_stored hvs)); [by intros ??? | |exact E].
    intros j t t' Ht [= <-] r' ty sa Hs. apply Ht. revert Hs. unfold stored. cbn.
    destruct (decide (r' = j)) as [->|]; [by rewrite lookup_delete_eq|by rewrite lookup_delete_ne]. }
  destruct (hva_addRound h _) as [h1|] eqn:E1; cbn; [|done].
  destruct (hva_addRound h1 _) as [h2|] eqn:E2; cbn; [|done]. intros [= <-] r' t sa Hs.
  apply Hh, (addRound_keeps _ _ _ E1), (addRound_keeps _ _ _ E2). exact Hs.
Qed.

Lemma NewHeightVoteSignAggr_empty chainID height valSet hvs r t :
  NewHeightVoteSignAggr chainID height valSet = Ret hvs → stored hvs r t = None.
Proof.
  unfold NewHeightVoteSignAggr, hva_Reset. destruct (hva_addRound _ 0) as [h|] eqn:E; cbn; [|done].
  intros [= <-]. change (stored h r t = None).
  destruct (stored h r t) as [sa|] eqn:Hs; [|done].
  apply (addRound_keeps _ _ _ E) in Hs. unfold stored in Hs. cbn [hva_rounds] in Hs.
  by rewrite lookup_empty in Hs.
Qed.

End sign_aggr_props.

(** ** Concrete instances *)

(** An aggregate over [ex_block 7] at height 5, round 2, by the validators of [who],
    that announces [ex_block maj] as its majority. *)
Definition ex_aggr (who : list bool) (maj : Z) : @SignAggr toy_lib :=
  let keys := omap id (imap (λ i v, if default false (who !! i) then Some (v_PubKey v) else None)
                         (@vals toy_lib ex_valSet)) in
  mkSignAggr (LIB := toy_lib) "neatio" 5 2 VoteTypePrecommit 4 (ex_block 7) (ex_block maj) who 0
    (Some (concat keys,
           @SignBytes_Vote toy_lib "neatio" (aggregate_vote (ex_block 7) 5 2 VoteTypePrecommit))) [].

Lemma blsVerifySignAggr_accepts_iff_witness :
  @quorum_marked toy_lib ex_valSet [false; false; true; true] 2.
Proof.
  destruct (@blsVerifySignAggr_accepts_iff toy_lib toy_laws ex_valSet
    (ex_aggr [false; false; true; true] 7)) as (maj23 & err & He & Hiff); [done|done|].
  apply Hiff.
  assert (match blsVerifySignAggr ex_valSet (ex_aggr [false; false; true; true] 7) with
          | Ret (true, None) => true | _ => false end = true) as Hc by (vm_compute; reflexivity).
  rewrite He in Hc. by destruct maj23, err.
Defined.

Lemma accepted_aggregate_commits_witness :
  @VerifyCommit toy_lib ex_valSet "neatio" 5
    (Some (sa_MakeCommit (ex_aggr [false; false; true; true] 7))) = Ret None.
Proof.
  refine (proj1 (@accepted_aggregate_commits toy_lib toy_laws ex_valSet "neatio"
    (ex_aggr [false; false; true; true] 7) _ _ _ _ _ _)); [done|done|done|done|done|].
  vm_compute. reflexivity.
Defined.

(** An accepted aggregate can announce a majority for a block nobody signed: the
    check covers [BlockID], the readers use [Maj23]. *)
Lemma accepted_majority_unsigned :
  ∃ (sa : @SignAggr toy_lib) (b : BlockID),
    blsVerifySignAggr ex_valSet sa = Ret (true, None) ∧
    sa_TwoThirdsMajority (Some sa) = (b, true) ∧ b ≠ sa_BlockID sa ∧
    VerifyCommit ex_valSet "neatio" 5 (Some (sa_MakeCommit sa)) = Ret (Some WrongSignature).
Proof.
  exists (ex_aggr [false; false; true; true] 8), (ex_block 8).
  split; [vm_compute; reflexivity|]. split; [vm_compute; reflexivity|].
  split; [done|vm_compute; reflexivity].
Qed.
