(* ===== verification/EpochVotes.v ===== *)
(** * Epoch votes and the next validator set (epoch/epoch_vote.go, epoch/epoch.go)

    [StoreVote] keeps the votes of candidates for the next epoch;
    [updateEpochValidatorSet] applies them to a validator set, caps its size and
    lists the refunds; [DryRunUpdateEpochValidatorSet] first recomputes the powers in
    a [range] loop that removes elements of the slice it ranges over.  The loop is
    modelled on the backing array and on validator pointers, so that the aliasing of
    the slices shows.  [sort.Slice] is not stable: it is a function about which only
    its documentation is used. *)

From Stdlib Require Import ZArith Lia Sorting.Sorted.
From stdpp Require Import base tactics strings numbers gmap sorting list.
From S2P Require Import Prelude Types ValidatorSet.

Local Open Scope Z_scope.

(** ** Votes *)

Section votes.
Context {LIB : NeatLib}.

(** [ev_ptr] is the identity of the vote object: Go compares the pointers. *)
Record EpochValidatorVote := mkEpochValidatorVote {
  ev_ptr : Z;
  ev_Address : bytes;
  ev_PubKey : option PubKey;
  ev_Amount : option Z;
  ev_Salt : string;
  ev_VoteHash : bytes;
  ev_TxHash : bytes
}.

Record EpochValidatorVoteSet := mkEpochValidatorVoteSet {
  evs_Votes : list EpochValidatorVote;
  evs_votesByAddress : gmap bytes EpochValidatorVote
}.

Definition NewEpochValidatorVoteSet : EpochValidatorVoteSet := mkEpochValidatorVoteSet [] ∅.

Definition GetVoteByAddress (voteSet : EpochValidatorVoteSet) (address : bytes)
    : option EpochValidatorVote :=
  evs_votesByAddress voteSet !! address.

(** The first index whose pointer is [ptr], or -1. *)
Fixpoint index_of_ptr (ptr : Z) (votes : list EpochValidatorVote) (i : Z) : Z :=
  match votes with
  | [] => -1
  | v :: votes => if ev_ptr v =? ptr then i else index_of_ptr ptr votes (i + 1)
  end.

Definition StoreVote (voteSet : EpochValidatorVoteSet) (vote : EpochValidatorVote)
    : outcome EpochValidatorVoteSet :=
  votes ← match evs_votesByAddress voteSet !! ev_Address vote with
          | None => mret (evs_Votes voteSet)
          | Some oldVote =>
              let index := index_of_ptr (ev_ptr oldVote) (evs_Votes voteSet) 0 in
              if index =? -1 then Panic "slice bounds out of range"
              else mret (take (Z.to_nat index) (evs_Votes voteSet) ++
                         drop (Z.to_nat (index + 1)) (evs_Votes voteSet))
          end;
  mret (mkEpochValidatorVoteSet (votes ++ [vote])
          (<[ev_Address vote := vote]> (evs_votesByAddress voteSet))).

Definition evs_IsEmpty (voteSet : option EpochValidatorVoteSet) : bool :=
  match voteSet with
  | None => true
  | Some voteSet => Z.of_nat (length (evs_Votes voteSet)) =? 0
  end.

(** [Copy]: the map is rebuilt from the list. *)
Definition evs_Copy (voteSet : option EpochValidatorVoteSet) : option EpochValidatorVoteSet :=
  match voteSet with
  | None => None
  | Some voteSet =>
      Some (mkEpochValidatorVoteSet (evs_Votes voteSet)
              (foldl (λ m v, <[ev_Address v := v]> m) ∅ (evs_Votes voteSet)))
  end.

(** ** Applying the votes *)

Definition MinimumValidatorsSize : Z := 1.
Definition MaximumValidatorsSize : Z := 100.

(** [Amount] is nil for a knocked out validator. *)
Record RefundValidatorAmount := mkRefund {
  rf_Address : bytes;
  rf_Amount : option Z;
  rf_Voteout : bool
}.

Inductive UpdateErr := FailedAdd | FailedRemove | FailedUpdate.

(** One vote: the new set, the refunds so far and the number of new validators. *)
Definition apply_vote (st : ValidatorSet * list RefundValidatorAmount * Z)
    (v : EpochValidatorVote)
    : (ValidatorSet * list RefundValidatorAmount * Z) + UpdateErr :=
  let '(validators, refund, newValSize) := st in
  match ev_Amount v, ev_PubKey v with
  | Some amount, Some pubKey =>
      if String.eqb (ev_Salt v) "" then inl st
      else
        match GetByAddress validators (ev_Address v) with
        | (_, None) =>
            let '(validators', added) :=
              vs_Add validators (NewValidator (ev_Address v) pubKey amount) in
            if negb added then inr FailedAdd
            else inl (validators', refund, i64 (newValSize + 1))
        | (_, Some validator) =>
            if Z.sgn amount =? 0 then
              let refund := refund ++
                [mkRefund (ev_Address v) (Some (v_VotingPower validator)) false] in
              let '(validators', _, removed) := vs_Remove validators (v_Address validator) in
              if negb removed then inr FailedRemove
              else inl (validators', refund, newValSize)
            else
              let refund :=
                if amount <? v_VotingPower validator
                then refund ++
                  [mkRefund (ev_Address v) (Some (v_VotingPower validator - amount)) false]
                else refund in
              let '(validators', updated) :=
                vs_Update validators (mkValidator (v_Address validator) (v_PubKey validator)
                                        amount (v_RemainingEpoch validator)) in
              if negb updated then inr FailedUpdate
              else inl (validators', refund, newValSize)
        end
  | _, _ => inl st
  end.

Fixpoint apply_votes (st : ValidatorSet * list RefundValidatorAmount * Z)
    (votes : list EpochValidatorVote)
    : (ValidatorSet * list RefundValidatorAmount * Z) + UpdateErr :=
  match votes with
  | [] => inl st
  | v :: votes =>
      match apply_vote st v with
      | inl st => apply_votes st votes
      | inr e => inr e
      end
  end.

(** [if v.RemainingEpoch > 0 { v.RemainingEpoch-- }] *)
Definition dec_remaining (v : Validator) : Validator :=
  if 0 <? v_RemainingEpoch v
  then mkValidator (v_Address v) (v_PubKey v) (v_VotingPower v) (v_RemainingEpoch v - 1)
  else v.

(** The order of the cut: remaining epochs first, then voting power, both descending. *)
Definition rank_less (a b : Validator) : bool :=
  if v_RemainingEpoch a =? v_RemainingEpoch b
  then v_VotingPower b <? v_VotingPower a
  else v_RemainingEpoch b <? v_RemainingEpoch a.

(** The size the set is cut to. *)
Definition clamp_size (valSize : Z) : Z :=
  if MaximumValidatorsSize <? valSize then MaximumValidatorsSize
  else if valSize <? MinimumValidatorsSize then MinimumValidatorsSize
  else valSize.

Definition updateEpochValidatorSet {SORT : GoSort} (validators : ValidatorSet)
    (voteSet : option EpochValidatorVoteSet)
    : (ValidatorSet * list RefundValidatorAmount) + UpdateErr :=
  let oldValSize := vs_Size validators in
  let votes := match voteSet with Some s => evs_Votes s | None => [] end in
  match (if negb (evs_IsEmpty voteSet) then apply_votes (validators, [], 0) votes
         else inl (validators, [], 0)) with
  | inr e => inr e
  | inl (validators, refund, newValSize) =>
      let valSize := clamp_size (i64 (oldValSize + newValSize)) in
      let l := dec_remaining <$> vals validators in
      if valSize <? Z.of_nat (length l) then
        let l := sort_Slice rank_less l in
        let knockout := drop (Z.to_nat valSize) l in
        inl (mkValidatorSet (Some (take (Z.to_nat valSize) l)) (vs_totalVotingPower validators),
             refund ++
               ((λ k, mkRefund (BytesToAddress (v_Address k)) None true) <$> knockout))
      else inl (mkValidatorSet ((λ _, l) <$> vs_Validators validators)
                  (vs_totalVotingPower validators), refund)
  end.

End votes.

(** ** The votes as a fold over a map *)

Section apply_props.
Context {LIB : NeatLib}.

(** A vote counts once its amount, key and salt are revealed. *)
Definition revealed (v : EpochValidatorVote) : option (Z * PubKey) :=
  match ev_Amount v, ev_PubKey v with
  | Some amount, Some pubKey => if String.eqb (ev_Salt v) "" then None else Some (amount, pubKey)
  | _, _ => None
  end.

(** What a vote does to the map of validators, and to the count of new ones. *)
Definition vote_effect (st : gmap bytes Validator * Z) (v : EpochValidatorVote)
    : gmap bytes Validator * Z :=
  let '(m, n) := st in
  match revealed v with
  | None => (m, n)
  | Some (amount, pubKey) =>
      match m !! ev_Address v with
      | None => (<[ev_Address v := NewValidator (ev_Address v) pubKey amount]> m, n + 1)
      | Some val =>
          if amount =? 0 then (delete (ev_Address v) m, n)
          else (<[ev_Address v := mkValidator (ev_Address v) (v_PubKey val) amount
                                    (v_RemainingEpoch val)]> m, n)
      end
  end.

Lemma as_map_address valSet a v : as_map valSet !! a = Some v → v_Address v = a.
Proof.
  unfold as_map. intros H. apply elem_of_list_to_map_2 in H.
  apply list_elem_of_fmap in H as (w & Hw & _). by simplify_eq.
Qed.

Lemma as_map_size valSet : no_dup valSet → Z.of_nat (size (as_map valSet)) = vs_Size valSet.
Proof.
  intros Hnd. unfold as_map, vs_Size. rewrite map_size_list_to_map.
  - by rewrite length_fmap.
  - by rewrite <-list_fmap_compose.
Qed.

(** The operations keep the slice non-nil. *)
Lemma vs_Remove_nonnil validators a :
  vs_Validators validators ≠ None → vs_Validators (vs_Remove validators a).1.1 ≠ None.
Proof. unfold vs_Remove. by destruct (_ =? -1). Qed.

Lemma vs_Update_nonnil validators v :
  vs_Validators validators ≠ None → vs_Validators (vs_Update validators v).1 ≠ None.
Proof. unfold vs_Update. by destruct (GetByAddress _ _) as [? [?|]]. Qed.

Lemma vs_Add_nonnil validators v :
  vs_Validators validators ≠ None → vs_Validators (vs_Add validators v).1 ≠ None.
Proof. unfold vs_Add. by destruct (_ =? -1). Qed.

Lemma apply_vote_spec validators refund n v :
  no_dup validators → vs_Validators validators ≠ None → 0 <= n < 2 ^ 63 - 1 →
  ∃ validators' refund' n', apply_vote (validators, refund, n) v = inl (validators', refund', n') ∧
    no_dup validators' ∧ vs_Validators validators' ≠ None ∧
    (as_map validators', n') = vote_effect (as_map validators, n) v.
Proof.
  intros Hnd Hnn Hn. unfold apply_vote, vote_effect, revealed.
  destruct (ev_Amount v) as [amount|]; [|by exists validators, refund, n].
  destruct (ev_PubKey v) as [pk|]; [|by exists validators, refund, n].
  destruct (String.eqb (ev_Salt v) ""); [by exists validators, refund, n|].
  pose proof (GetByAddress_lookup validators (ev_Address v) Hnd) as Hget.
  destruct (GetByAddress validators (ev_Address v)) as [i o]. simpl in Hget. subst o.
  destruct (as_map validators !! ev_Address v) as [val|] eqn:Hl.
  - pose proof (as_map_address _ _ _ Hl) as Ha. rewrite Ha.
    destruct (Z.eqb_spec amount 0) as [->|Hne].
    + simpl. pose proof (vs_Remove_refines validators (ev_Address v) Hnd) as Hr.
      pose proof (vs_Remove_nonnil validators (ev_Address v) Hnn) as Hnn'.
      destruct (vs_Remove validators (ev_Address v)) as [[vs' x] removed].
      destruct Hr as (Hnd' & -> & -> & Hm). rewrite Hl, bool_decide_eq_true_2 by eauto. simpl.
      do 3 eexists. split; [reflexivity|]. split; [done|]. split; [done|]. by rewrite Hm.
    + assert ((Z.sgn amount =? 0) = false) as -> by (apply Z.eqb_neq; lia).
      set (val' := mkValidator _ _ _ _).
      pose proof (vs_Update_refines validators val' Hnd) as Hu.
      pose proof (vs_Update_nonnil validators val' Hnn) as Hnn'.
      destruct (vs_Update validators val') as [vs' upd]. destruct Hu as (Hnd' & -> & Hm).
      simpl in *. rewrite Hl in *. rewrite bool_decide_eq_true_2 in * by eauto. simpl.
      do 3 eexists. split; [reflexivity|]. split; [done|]. split; [done|]. by rewrite Hm.
  - set (val' := NewValidator (ev_Address v) pk amount).
    pose proof (vs_Add_refines validators val' Hnd) as Ha.
    pose proof (vs_Add_nonnil validators val' Hnn) as Hnn'.
    destruct (vs_Add validators val') as [vs' added]. destruct Ha as (Hnd' & -> & Hm).
    simpl in *. rewrite Hl in *. rewrite bool_decide_eq_true_2 in * by done. simpl.
    rewrite i64_small by (unfold in_i64; lia).
    do 3 eexists. split; [reflexivity|]. split; [done|]. split; [done|]. by rewrite Hm.
Qed.

Lemma vote_effect_count m n v : n <= (vote_effect (m, n) v).2 <= n + 1.
Proof.
  unfold vote_effect. destruct (revealed v) as [[amount pk]|]; [|simpl; lia].
  destruct (m !! ev_Address v); [destruct (amount =? 0)|]; simpl; lia.
Qed.

Lemma apply_votes_spec votes validators refund n :
  no_dup validators → vs_Validators validators ≠ None →
  0 <= n → n + Z.of_nat (length votes) < 2 ^ 63 →
  ∃ validators' refund' n',
    apply_votes (validators, refund, n) votes = inl (validators', refund', n') ∧
    no_dup validators' ∧ vs_Validators validators' ≠ None ∧
    (as_map validators', n') = foldl vote_effect (as_map validators, n) votes ∧
    n <= n' <= n + Z.of_nat (length votes).
Proof.
  revert validators refund n. induction votes as [|v votes IH]; intros validators refund n
    Hnd Hnn Hn Hlen; cbn [apply_votes length foldl] in *.
  - exists validators, refund, n. split_and!; try done; lia.
  - destruct (apply_vote_spec validators refund n v Hnd Hnn) as (vs1 & r1 & n1 & -> & Hnd1 & Hnn1 & He);
      [lia|].
    pose proof (vote_effect_count (as_map validators) n v) as Hc. rewrite <-He in *. simpl in Hc.
    destruct (IH vs1 r1 n1 Hnd1 Hnn1) as (vs2 & r2 & n2 & Ha & H1 & H2 & H3 & H4); [lia|lia|].
    exists vs2, r2, n2. split_and!; try done; lia.
Qed.

End apply_props.

(** ** The cut *)

Section cut.
Context {LIB : NeatLib} {SORT : GoSort} {SORTLAWS : GoSortLaws}.

Lemma rank_less_strict_weak : strict_weak rank_less.
Proof.
  unfold strict_weak, rank_less. split_and!.
  - intros x. rewrite Z.eqb_refl. apply Z.ltb_irrefl.
  - intros x y. destruct (Z.eqb_spec (v_RemainingEpoch x) (v_RemainingEpoch y)) as [E|E].
    + rewrite E, Z.eqb_refl. lia.
    + destruct (Z.eqb_spec (v_RemainingEpoch y) (v_RemainingEpoch x)); lia.
  - intros x y z.
    destruct (Z.eqb_spec (v_RemainingEpoch y) (v_RemainingEpoch x));
      destruct (Z.eqb_spec (v_RemainingEpoch z) (v_RemainingEpoch y));
      destruct (Z.eqb_spec (v_RemainingEpoch z) (v_RemainingEpoch x)); lia.
Qed.

(** Nothing that is cut ranks before something that is kept. *)
Lemma cut_keeps_best l k v w :
  v ∈ take k (sort_Slice rank_less l) → w ∈ drop k (sort_Slice rank_less l) →
  rank_less w v = false.
Proof.
  intros Hv Hw.
  pose proof (sort_Slice_sorted _ rank_less l rank_less_strict_weak) as Hs.
  rewrite <-(take_drop k (sort_Slice rank_less l)) in Hs.
  by apply (StronglySorted_app_1_elem_of _ _ _ _ _ Hs).
Qed.

Lemma dec_remaining_address v : v_Address (dec_remaining v) = v_Address v.
Proof. unfold dec_remaining. by destruct (0 <? v_RemainingEpoch v). Qed.

Lemma addresses_dec (l : list Validator) : v_Address <$> (dec_remaining <$> l) = v_Address <$> l.
Proof. rewrite <-list_fmap_compose. apply list_fmap_ext. intros. apply dec_remaining_address. Qed.

(** The map of a set without duplicates is membership. *)
Lemma as_map_elem valSet a v :
  no_dup valSet → as_map valSet !! a = Some v ↔ v ∈ vals valSet ∧ v_Address v = a.
Proof.
  intros Hnd. split.
  - intros H. split; [|by eapply as_map_address]. unfold as_map in H.
    apply elem_of_list_to_map_2, list_elem_of_fmap in H as (w & Hw & Hin). by simplify_eq.
  - intros [Hin <-]. apply list_elem_of_lookup in Hin as [k Hk]. by eapply as_map_lookup.
Qed.

Lemma dec_map_elem valSet a v :
  no_dup valSet →
  (dec_remaining <$> as_map valSet) !! a = Some v ↔
    v ∈ dec_remaining <$> vals valSet ∧ v_Address v = a.
Proof.
  intros Hnd. rewrite lookup_fmap_Some. split.
  - intros (w & <- & Hw). apply as_map_elem in Hw as [Hin <-]; [|done].
    rewrite dec_remaining_address. split; [|done]. apply list_elem_of_fmap. eauto.
  - intros [Hin <-]. apply list_elem_of_fmap in Hin as (w & -> & Hw). exists w. split; [done|].
    apply as_map_elem; [done|]. by rewrite dec_remaining_address.
Qed.

(** The last part of [updateEpochValidatorSet], from the decided size on. *)
Lemma cut_spec (valSet : ValidatorSet) (valSize : Z) :
  no_dup valSet → 0 <= valSize →
  let l := dec_remaining <$> vals valSet in
  let s := sort_Slice rank_less l in
  let keep := mkValidatorSet (Some (take (Z.to_nat valSize) s)) (vs_totalVotingPower valSet) in
  valSize < Z.of_nat (length l) →
  no_dup keep ∧ vs_Size keep = valSize ∧
  (∀ a v, as_map keep !! a = Some v → (dec_remaining <$> as_map valSet) !! a = Some v) ∧
  (∀ a v b w, as_map keep !! a = Some v → (dec_remaining <$> as_map valSet) !! b = Some w →
     as_map keep !! b = None → rank_less w v = false ∧ w ∈ drop (Z.to_nat valSize) s).
Proof.
  intros Hnd H0 l s keep Hlt. pose proof (sort_Slice_perm _ rank_less l) as Hp. fold s in Hp.
  assert (NoDup (v_Address <$> s)) as Hs.
  { rewrite Hp. unfold l. rewrite addresses_dec. exact Hnd. }
  rewrite <-(take_drop (Z.to_nat valSize) s) in Hs. rewrite fmap_app in Hs.
  apply NoDup_app in Hs as (Hk & _ & _).
  assert (no_dup keep) as Hnk by exact Hk. split; [done|].
  assert (∀ v, v ∈ s ↔ v ∈ l) as Hin by (intros v; by rewrite Hp).
  split; [|split].
  - unfold vs_Size, keep. rewrite vals_Some, length_take, Hp. lia.
  - intros a v Hv. apply as_map_elem in Hv as [Hv Ha]; [|done]. apply dec_map_elem; [done|].
    split; [|done]. apply Hin. unfold keep in Hv. rewrite vals_Some in Hv.
    by apply elem_of_take in Hv as (i & Hi & _); eapply list_elem_of_lookup_2.
  - intros a v b w Hv Hw Hnone. apply dec_map_elem in Hw as [Hw Hb]; [|done].
    apply Hin in Hw. rewrite <-(take_drop (Z.to_nat valSize) s) in Hw.
    apply elem_of_app in Hw as [Hw|Hw].
    + assert (as_map keep !! b = Some w) as Hc; [|congruence].
      apply as_map_elem; [done|]. unfold keep. by rewrite vals_Some.
    + split; [|done]. apply as_map_elem in Hv as [Hv _]; [|done]. apply (cut_keeps_best l (Z.to_nat valSize)); [|done]. unfold keep in Hv. by rewrite vals_Some in Hv.
Qed.

(** C36. updateEpochValidatorSet applies the revealed votes in order, keeps the
    addresses distinct, bounds the size, decrements the remaining epochs, and cuts only
    validators that do not rank before a kept one, each refunded. *)
Theorem updateEpochValidatorSet_correct validators voteSet :
  let votes := match voteSet with Some s => evs_Votes s | None => [] end in
  no_dup validators → vs_Validators validators ≠ None →
  vs_Size validators + Z.of_nat (length votes) < 2 ^ 63 →
  let '(m, added) := foldl vote_effect (as_map validators, 0) votes in
  ∃ valSet refund, updateEpochValidatorSet validators voteSet = inl (valSet, refund) ∧
    no_dup valSet ∧
    vs_Size valSet = Z.min (Z.of_nat (size m)) (clamp_size (vs_Size validators + added)) ∧
    (∀ a v, as_map valSet !! a = Some v → (dec_remaining <$> m) !! a = Some v) ∧
    (∀ a v b w, as_map valSet !! a = Some v → (dec_remaining <$> m) !! b = Some w →
       as_map valSet !! b = None →
       rank_less w v = false ∧ mkRefund (BytesToAddress b) None true ∈ refund).
Proof.
  intros votes Hnd Hnn Hsz. assert (0 <= vs_Size validators) as Hs0 by (unfold vs_Size; lia).
  destruct (apply_votes_spec votes validators [] 0 Hnd Hnn) as
    (vs1 & r1 & n1 & Ha & Hnd1 & Hnn1 & He & Hn1); [lia|lia|].
  rewrite <-He.
  assert ((if negb (evs_IsEmpty voteSet) then apply_votes (validators, [], 0) votes
           else inl (validators, [], 0)) = inl (vs1, r1, n1)) as Hv.
  { destruct voteSet as [[[|v l] mm]|]; simpl in *; [done|done|done]. }
  unfold updateEpochValidatorSet. fold votes. rewrite Hv.
  rewrite i64_small by (unfold in_i64; lia).
  set (valSize := clamp_size (vs_Size validators + n1)).
  assert (0 <= valSize) as Hvs.
  { unfold valSize, clamp_size, MaximumValidatorsSize, MinimumValidatorsSize.
    destruct (_ <? _); [lia|]. destruct (_ <? _); lia. }
  rewrite (as_map_size _ Hnd1). rewrite length_fmap. fold (vs_Size vs1).
  destruct (Z.ltb_spec valSize (vs_Size vs1)) as [Hlt|Hge].
  - destruct (cut_spec vs1 valSize Hnd1 Hvs) as (H1 & H2 & H3 & H4).
    { by rewrite length_fmap. }
    do 2 eexists. split; [reflexivity|]. split; [done|]. split; [rewrite H2; lia|].
    split; [done|]. intros a v b w Hv' Hw Hb. destruct (H4 a v b w Hv' Hw Hb) as [Hr Hd].
    split; [done|]. apply elem_of_app. right. apply list_elem_of_fmap. exists w.
    apply dec_map_elem in Hw as [_ ->]; [|done]. done.
  - destruct (vs_Validators vs1) as [l1|] eqn:Hl1; [|done]. simpl.
    set (vs2 := mkValidatorSet _ _).
    assert (no_dup vs2) as Hnd2.
    { unfold no_dup, addresses, vs2. rewrite vals_Some, addresses_dec. exact Hnd1. }
    assert (∀ a v, as_map vs2 !! a = Some v ↔ (dec_remaining <$> as_map vs1) !! a = Some v)
      as Heq.
    { intros a v. rewrite as_map_elem, dec_map_elem by done. unfold vs2. by rewrite vals_Some. }
    do 2 eexists. split; [reflexivity|]. split; [done|]. split.
    + unfold vs_Size at 1, vs2. rewrite vals_Some, length_fmap. fold (vs_Size vs1). lia.
    + split; [intros a v; by rewrite Heq|]. intros a v b w _ Hw Hb.
      apply Heq in Hw. congruence.
Qed.

End cut.

(** ** Storing votes *)

Section store.
Context {LIB : NeatLib}.

(** The list and the map hold the same votes, one per address. *)
Record evs_ok (s : EpochValidatorVoteSet) : Prop := {
  eo_addr : NoDup (ev_Address <$> evs_Votes s);
  eo_ptr : NoDup (ev_ptr <$> evs_Votes s);
  eo_map : ∀ a v, evs_votesByAddress s !! a = Some v ↔ v ∈ evs_Votes s ∧ ev_Address v = a
}.

Lemma index_of_ptr_found votes v i :
  0 <= i → v ∈ votes → NoDup (ev_ptr <$> votes) →
  ∃ k, index_of_ptr (ev_ptr v) votes i = i + Z.of_nat k ∧ votes !! k = Some v.
Proof.
  revert i. induction votes as [|w votes IH]; intros i Hi Hin Hnd; [by apply elem_of_nil in Hin|].
  simpl. rewrite fmap_cons in Hnd. apply NoDup_cons in Hnd as [Hw Hnd].
  destruct (Z.eqb_spec (ev_ptr w) (ev_ptr v)) as [E|E].
  - exists O. split; [lia|]. apply elem_of_cons in Hin as [->|Hin]; [done|].
    destruct Hw. rewrite E. apply list_elem_of_fmap. eauto.
  - apply elem_of_cons in Hin as [->|Hin]; [done|].
    destruct (IH (i + 1)) as (k & -> & Hk); [lia|done|done|]. exists (S k). split; [lia|done].
Qed.

Lemma NoDup_fmap_inj {A B} (f : A → B) l x y :
  NoDup (f <$> l) → x ∈ l → y ∈ l → f x = f y → x = y.
Proof.
  intros Hnd Hx Hy Hf. apply list_elem_of_lookup in Hx as [i Hi], Hy as [j Hj].
  assert (i = j) as ->; [|congruence].
  eapply (NoDup_lookup (f <$> l)); [done|by rewrite list_lookup_fmap, Hi|].
  by rewrite list_lookup_fmap, Hj, Hf.
Qed.

(** The votes that stay, in their order. *)
Definition other_votes (s : EpochValidatorVoteSet) (a : bytes) : list EpochValidatorVote :=
  filter (λ v, ev_Address v ≠ a) (evs_Votes s).

Lemma filter_delete_addr (l : list EpochValidatorVote) k v :
  NoDup (ev_Address <$> l) → l !! k = Some v →
  delete k l = filter (λ w, ev_Address w ≠ ev_Address v) l.
Proof.
  revert k. induction l as [|w l IH]; intros k Hnd Hk; [done|].
  rewrite fmap_cons in Hnd. apply NoDup_cons in Hnd as [Hw Hnd]. destruct k as [|k]; simpl in *.
  - simplify_eq. rewrite filter_cons_False by (by intros []). symmetry. apply filter_all.
    intros x Hx He. apply Hw. rewrite <-He. apply list_elem_of_fmap. eauto.
  - rewrite filter_cons_True; [by rewrite (IH k)|]. intros He. apply Hw. rewrite He.
    apply list_elem_of_fmap. exists v. split; [done|]. by eapply list_elem_of_lookup_2.
Qed.

Lemma StoreVote_spec s vote :
  evs_ok s → (ev_ptr vote ∉ ev_ptr <$> evs_Votes s) →
  StoreVote s vote = Ret (mkEpochValidatorVoteSet (other_votes s (ev_Address vote) ++ [vote])
                            (<[ev_Address vote := vote]> (evs_votesByAddress s))).
Proof.
  intros Hok Hfresh. unfold StoreVote, other_votes.
  destruct (evs_votesByAddress s !! ev_Address vote) as [old|] eqn:Ho.
  - apply (eo_map _ Hok) in Ho as [Hin Ha].
    destruct (index_of_ptr_found (evs_Votes s) old 0) as (k & -> & Hk);
      [lia|done|apply Hok|]. rewrite Z.add_0_l.
    destruct (Z.eqb_spec (Z.of_nat k) (-1)); [lia|]. simpl. do 3 f_equal.
    replace (Z.to_nat (Z.of_nat k + 1)) with (S k) by lia.
    rewrite Nat2Z.id, <-delete_take_drop, <-Ha. apply filter_delete_addr; [apply Hok|done].
  - simpl. do 3 f_equal. symmetry. apply filter_all. intros x Hx He.
    assert (evs_votesByAddress s !! ev_Address vote = Some x) by (by apply (eo_map _ Hok)).
    congruence.
Qed.

(** StoreVote replaces the vote of the address by the new one at the end of the
    list, keeps the list and the address index consistent, and leaves the other
    addresses alone. *)
Theorem StoreVote_correct s vote :
  evs_ok s → (ev_ptr vote ∉ ev_ptr <$> evs_Votes s) →
  ∃ s', StoreVote s vote = Ret s' ∧ evs_ok s' ∧
    evs_Votes s' = other_votes s (ev_Address vote) ++ [vote] ∧
    ∀ a, GetVoteByAddress s' a =
      if decide (a = ev_Address vote) then Some vote else GetVoteByAddress s a.
Proof.
  intros Hok Hfresh. eexists. split; [by apply StoreVote_spec|].
  assert (∀ v, v ∈ other_votes s (ev_Address vote) ↔
    ev_Address v ≠ ev_Address vote ∧ v ∈ evs_Votes s) as Hin.
  { intros v. unfold other_votes. by rewrite list_elem_of_filter. }
  split; [split|split].
  - simpl. rewrite fmap_app. apply NoDup_app. split_and!.
    + apply NoDup_fmap_filter, (eo_addr _ Hok).
    + intros a (v & -> & Hv)%list_elem_of_fmap Ha%list_elem_of_singleton.
      by apply Hin in Hv as [? _].
    + apply NoDup_singleton.
  - simpl. rewrite fmap_app. apply NoDup_app. split_and!.
    + apply NoDup_fmap_filter, (eo_ptr _ Hok).
    + intros a (v & -> & Hv)%list_elem_of_fmap Ha%list_elem_of_singleton.
      apply Hin in Hv as [_ Hv]. apply Hfresh. rewrite <-Ha. apply list_elem_of_fmap. eauto.
    + apply NoDup_singleton.
  - simpl. intros a v. rewrite elem_of_app, list_elem_of_singleton, Hin, lookup_insert_Some.
    rewrite (eo_map _ Hok). split; [|naive_solver].
    intros [[<- <-]|(Hne & Hv & Ha)]; [by split; [right|]|]. split; [left|done]. naive_solver.
  - done.
  - intros a. unfold GetVoteByAddress. simpl. case_decide as E.
    + subst. apply lookup_insert_eq.
    + by apply lookup_insert_ne.
Qed.

End store.

(** ** Recomputing the powers while removing from the slice

    [newValidators.Remove] cuts its element out with [append], in the array the
    [range] loop of the caller runs over. *)

Section range_remove.
Context {LIB : NeatLib}.

(** A slice of pointers: the backing array, the current length, and the objects
    the pointers stand for. *)
Record vslice := mkVslice {
  sl_arr : list nat;
  sl_len : nat;
  sl_store : list Validator
}.

Definition vslice_of (l : list Validator) : vslice :=
  mkVslice (seq 0 (length l)) (length l) l.

(** The validators the slice shows. *)
Definition vslice_vals (s : vslice) : list Validator :=
  omap (λ p, sl_store s !! p) (take (sl_len s) (sl_arr s)).

(** [Remove]: the elements after the index move down by one; the last cell keeps
    its pointer and falls out of the slice. *)
Definition vslice_remove (s : vslice) (address : bytes) : vslice :=
  let idx := index_of address (vslice_vals s) 0 in
  if idx =? -1 then s
  else
    let k := Z.to_nat idx in
    mkVslice (take k (sl_arr s) ++ take (sl_len s - 1 - k) (drop (S k) (sl_arr s)) ++
              drop (sl_len s - 1) (sl_arr s))
      (sl_len s - 1) (sl_store s).

(** [v.VotingPower = power], through the pointer. *)
Definition vslice_set_power (s : vslice) (p : nat) (power : Z) : vslice :=
  mkVslice (sl_arr s) (sl_len s)
    (alter (λ v, mkValidator (v_Address v) (v_PubKey v) power (v_RemainingEpoch v)) p
       (sl_store s)).

(** The loop of [DryRunUpdateEpochValidatorSet], [power] the recomputed power of an
    address; [n] cells are left, the next one is [i]. *)
Fixpoint range_update (power : bytes → Z) (n i : nat) (s : vslice) : vslice :=
  match n with
  | O => s
  | S n =>
      let s' := match sl_arr s !! i with
                | None => s
                | Some p =>
                    match sl_store s !! p with
                    | None => s
                    | Some v =>
                        let newVotingPower := power (v_Address v) in
                        if Z.sgn newVotingPower =? 0 then vslice_remove s (v_Address v)
                        else vslice_set_power s p newVotingPower
                    end
                end in
      range_update power n (S i) s'
  end.

(** The balances the power is made of (core/state). *)
Record PowerView := mkPowerView {
  pv_TotalProxied : bytes → Z;
  pv_TotalDepositProxied : bytes → Z;
  pv_TotalPendingRefund : bytes → Z;
  pv_Deposit : bytes → Z
}.

Definition dry_run_power (state : PowerView) (address : bytes) : Z :=
  let vAddr := BytesToAddress address in
  pv_TotalProxied state vAddr + pv_TotalDepositProxied state vAddr
    - pv_TotalPendingRefund state vAddr + pv_Deposit state vAddr.

Definition DryRunUpdateEpochValidatorSet {SORT : GoSort} (state : PowerView)
    (validators : ValidatorSet) (voteSet : option EpochValidatorVoteSet)
    : ValidatorSet + UpdateErr :=
  let n := length (vals validators) in
  let s := range_update (dry_run_power state) n 0 (vslice_of (vals validators)) in
  match updateEpochValidatorSet
          (mkValidatorSet ((λ _, vslice_vals s) <$> vs_Validators validators) None) voteSet with
  | inl (valSet, _) => inl valSet
  | inr e => inr e
  end.

(** *** What the loop guarantees *)

Lemma omap_lookup_all {A B} (f : A → option B) (l : list A) k :
  (∀ x, x ∈ l → is_Some (f x)) → omap f l !! k = (l !! k) ≫= f.
Proof.
  revert k. induction l as [|x l IH]; intros k Hall; [done|].
  destruct (Hall x) as [y Hy]; [by apply elem_of_cons; left|].
  simpl. rewrite Hy. destruct k as [|k]; [done|]. simpl. apply IH.
  intros z Hz. apply Hall. by apply elem_of_cons; right.
Qed.

(** The slice shows distinct pointers into a store that keeps its addresses. *)
Record slice_ok (l : list Validator) (s : vslice) : Prop := {
  so_len : (sl_len s <= length (sl_arr s))%nat;
  so_arr : ∀ p, p ∈ sl_arr s → (p < length l)%nat;
  so_nodup : NoDup (take (sl_len s) (sl_arr s));
  so_addr : v_Address <$> sl_store s = v_Address <$> l
}.

Lemma so_store l s p : slice_ok l s → (p < length l)%nat →
  ∃ v w, sl_store s !! p = Some v ∧ l !! p = Some w ∧ v_Address v = v_Address w.
Proof.
  intros Hok Hp. destruct (lookup_lt_is_Some_2 l p Hp) as [w Hw].
  assert ((v_Address <$> sl_store s) !! p = Some (v_Address w)) as Ha.
  { by rewrite (so_addr _ _ Hok), list_lookup_fmap, Hw. }
  apply list_lookup_fmap_Some in Ha as (v & Hv & Ha). eauto 10.
Qed.

Lemma vslice_vals_lookup l s k :
  slice_ok l s → vslice_vals s !! k = (take (sl_len s) (sl_arr s) !! k) ≫= (λ p, sl_store s !! p).
Proof.
  intros Hok. apply omap_lookup_all. intros p Hp.
  apply elem_of_take in Hp as (i & Hi & _). apply list_elem_of_lookup_2 in Hi.
  destruct (so_store l s p Hok) as (v & w & -> & _); [by apply Hok|eauto].
Qed.

Lemma vslice_remove_ok l s k p v :
  slice_ok l s → index_of (v_Address v) (vslice_vals s) 0 = Z.of_nat k →
  take (sl_len s) (sl_arr s) !! k = Some p →
  slice_ok l (vslice_remove s (v_Address v)) ∧
  take (sl_len (vslice_remove s (v_Address v))) (sl_arr (vslice_remove s (v_Address v)))
    = delete k (take (sl_len s) (sl_arr s)) ∧
  sl_store (vslice_remove s (v_Address v)) = sl_store s.
Proof.
  intros Hok Hidx Hk. unfold vslice_remove. rewrite Hidx.
  destruct (Z.eqb_spec (Z.of_nat k) (-1)) as [|_]; [lia|]. rewrite Nat2Z.id.
  pose proof (so_len _ _ Hok) as Hl. apply lookup_lt_Some in Hk as Hkl. rewrite length_take in Hkl.
  set (arr := sl_arr s) in *. set (n := sl_len s) in *.
  assert (take (n - 1) (take k arr ++ take (n - 1 - k) (drop (S k) arr) ++ drop (n - 1) arr)
    = delete k (take n arr)) as Ht.
  { rewrite app_assoc, take_app_le
      by (rewrite length_app, !length_take, length_drop; lia).
    rewrite take_ge by (rewrite length_app, !length_take, length_drop; lia).
    rewrite delete_take_drop, take_take, skipn_firstn_comm.
    f_equal; [f_equal; lia|f_equal; lia]. }
  simpl. split; [|done]. split; simpl.
  - rewrite !length_app, !length_take, !length_drop. lia.
  - intros q Hq. apply Hok. rewrite !elem_of_app in Hq. destruct Hq as [Hq|[Hq|Hq]].
    + apply elem_of_take in Hq as (i & Hi & _). by eapply list_elem_of_lookup_2.
    + apply elem_of_take in Hq as (i & Hi & _). rewrite lookup_drop in Hi.
      by eapply list_elem_of_lookup_2.
    + apply list_elem_of_lookup in Hq as [i Hi]. rewrite lookup_drop in Hi.
      by eapply list_elem_of_lookup_2.
  - rewrite Ht. pose proof (so_nodup _ _ Hok) as Hnd. fold arr n in Hnd.
    rewrite (delete_Permutation _ _ _ Hk) in Hnd. by apply NoDup_cons in Hnd as [_ ?].
  - apply Hok.
Qed.

Definition with_power (v : Validator) (power : Z) : Validator :=
  mkValidator (v_Address v) (v_PubKey v) power (v_RemainingEpoch v).

(** What holds of the slice after any number of iterations. *)
Record range_ok (power : bytes → Z) (l : list Validator) (s : vslice) : Prop := {
  ro_slice : slice_ok l s;
  ro_kept : ∀ p v, l !! p = Some v → power (v_Address v) ≠ 0 →
    p ∈ take (sl_len s) (sl_arr s);
  ro_store : ∀ p v w, l !! p = Some v → sl_store s !! p = Some w →
    w = v ∨ (w = with_power v (power (v_Address v)) ∧ power (v_Address v) ≠ 0)
}.

Lemma range_remove_step power l s v p :
  NoDup (v_Address <$> l) → range_ok power l s → sl_store s !! p = Some v →
  power (v_Address v) = 0 → range_ok power l (vslice_remove s (v_Address v)).
Proof.
  intros Hnd Hro Hv Hz. pose proof (ro_slice _ _ _ Hro) as Hok.
  destruct (index_of_spec (v_Address v) (vslice_vals s) 0) as [[Hi _]|(k & w & Hi & Hk & Hw)];
    [lia|unfold vslice_remove; by rewrite Hi|].
  rewrite Z.add_0_l in Hi. rewrite (vslice_vals_lookup l s k Hok) in Hk.
  destruct (take (sl_len s) (sl_arr s) !! k) as [q|] eqn:Hq; [|done]. simpl in Hk.
  destruct (vslice_remove_ok l s k q v Hok Hi Hq) as (Hok' & Ht & Hs). split; [done| |].
  - intros r x Hr Hx. rewrite Ht. pose proof (ro_kept _ _ _ Hro r x Hr Hx) as Hin.
    rewrite (delete_Permutation _ _ _ Hq) in Hin. apply elem_of_cons in Hin as [->|Hin]; [|done].
    assert (q < length l)%nat as Hql by (by eapply lookup_lt_Some).
    destruct (so_store l s q Hok Hql) as (v' & w' & Hv' & Hw' & Ha).
    rewrite Hk in Hv'. rewrite Hr in Hw'. simplify_eq. congruence.
  - rewrite Hs. apply Hro.
Qed.

Lemma range_set_step power l s v p :
  range_ok power l s → sl_store s !! p = Some v → power (v_Address v) ≠ 0 →
  range_ok power l (vslice_set_power s p (power (v_Address v))).
Proof.
  intros Hro Hv Hz. destruct Hro as [[H1 H2 H3 H4] Hk Hs]. split; [split|..]; simpl; try done.
  - rewrite <-H4. apply list_eq. intros i. rewrite !list_lookup_fmap.
    destruct (decide (i = p)) as [->|Hne].
    + rewrite list_lookup_alter_eq, Hv. done.
    + by rewrite list_lookup_alter_ne.
  - intros q x w Hq. destruct (decide (q = p)) as [->|Hne].
    + rewrite list_lookup_alter_eq, Hv. simpl. intros [= <-]. right.
      assert ((v_Address <$> sl_store s) !! p = (v_Address <$> l) !! p) as Ha by by rewrite H4.
      rewrite !list_lookup_fmap, Hv, Hq in Ha. simpl in Ha. injection Ha as Ha.
      by destruct (Hs p x v Hq Hv) as [->|[-> _]].
    + rewrite list_lookup_alter_ne by done. by apply Hs.
Qed.

Lemma range_update_ok power l n i s :
  NoDup (v_Address <$> l) → range_ok power l s → range_ok power l (range_update power n i s).
Proof.
  intros Hnd. revert i s. induction n as [|n IH]; intros i s Hro; [done|]. simpl. apply IH.
  destruct (sl_arr s !! i) as [p|]; [|done].
  destruct (sl_store s !! p) as [v|] eqn:Hv; [|done].
  destruct (Z.eqb_spec (Z.sgn (power (v_Address v))) 0) as [Hz|Hz].
  - by eapply range_remove_step; eauto; lia.
  - apply range_set_step; [done|done|lia].
Qed.

Lemma range_ok_init power l : range_ok power l (vslice_of l).
Proof.
  unfold vslice_of. split; [split|..]; simpl.
  - by rewrite length_seq.
  - intros p Hp. apply elem_of_seq in Hp. lia.
  - rewrite take_ge by (by rewrite length_seq). apply NoDup_seq.
  - done.
  - intros p v Hp _. rewrite take_ge by (by rewrite length_seq). apply elem_of_seq.
    apply lookup_lt_Some in Hp. lia.
  - intros p v w Hp Hw. left. congruence.
Qed.

(** The range loop that updates powers and removes validators from the slice it
    ranges over never drops a validator with power, and every validator it leaves is an
    original one, with its old or its new power. *)
Theorem range_update_safe power l :
  NoDup (v_Address <$> l) →
  let result := vslice_vals (range_update power (length l) 0 (vslice_of l)) in
  (∀ v, v ∈ l → power (v_Address v) ≠ 0 →
     v ∈ result ∨ with_power v (power (v_Address v)) ∈ result) ∧
  (∀ w, w ∈ result → ∃ v, v ∈ l ∧
     (w = v ∨ (w = with_power v (power (v_Address v)) ∧ power (v_Address v) ≠ 0))).
Proof.
  intros Hnd result. set (s := range_update power (length l) 0 (vslice_of l)) in *.
  assert (range_ok power l s) as Hro by (by apply range_update_ok, range_ok_init).
  pose proof (ro_slice _ _ _ Hro) as Hok. split.
  - intros v Hv Hz. apply list_elem_of_lookup in Hv as [p Hp].
    pose proof (ro_kept _ _ _ Hro p v Hp Hz) as Hin. apply list_elem_of_lookup in Hin as [k Hk].
    destruct (so_store l s p Hok) as (w & v' & Hw & Hv' & _); [by eapply lookup_lt_Some|].
    assert (w ∈ result) as Hres.
    { eapply (list_elem_of_lookup_2 _ k). unfold result.
      by rewrite (vslice_vals_lookup l s k Hok), Hk. }
    destruct (ro_store _ _ _ Hro p v w Hp Hw) as [->|[-> _]]; auto.
  - intros w Hw. apply list_elem_of_lookup in Hw as [k Hk].
    unfold result in Hk. rewrite (vslice_vals_lookup l s k Hok) in Hk.
    destruct (take (sl_len s) (sl_arr s) !! k) as [p|] eqn:Hp; [|done]. simpl in Hk.
    assert (p < length l)%nat as Hpl.
    { apply Hok. rewrite lookup_take_Some in Hp. destruct Hp. by eapply list_elem_of_lookup_2. }
    destruct (lookup_lt_is_Some_2 l p Hpl) as [v Hv]. exists v.
    split; [by eapply list_elem_of_lookup_2|]. by apply (ro_store _ _ _ Hro p).
Qed.

(** Without removals every power is recomputed. *)
Lemma range_update_all power l n :
  (∀ v, v ∈ l → power (v_Address v) ≠ 0) → (n <= length l)%nat →
  range_update power n (length l - n)
    (mkVslice (seq 0 (length l)) (length l)
       (((λ v, with_power v (power (v_Address v))) <$> take (length l - n) l) ++
        drop (length l - n) l))
  = mkVslice (seq 0 (length l)) (length l) ((λ v, with_power v (power (v_Address v))) <$> l).
Proof.
  intros Hall. induction n as [|n IH]; intros Hn.
  - simpl. rewrite Nat.sub_0_r, take_ge, drop_ge, app_nil_r by lia. done.
  - cbn [range_update sl_arr sl_store]. set (i := (length l - S n)%nat).
    rewrite lookup_seq_lt by lia. cbn [Nat.add].
    destruct (lookup_lt_is_Some_2 l i) as [v Hv]; [lia|].
    set (f := λ v, with_power v (power (v_Address v))).
    assert (length (f <$> take i l) = i) as Hlen by (rewrite length_fmap, length_take; lia).
    rewrite (drop_S _ _ _ Hv). rewrite lookup_app_r, Hlen, Nat.sub_diag by lia. cbn [lookup list_lookup].
    assert (power (v_Address v) ≠ 0) as Hz by (apply Hall; by eapply list_elem_of_lookup_2).
    destruct (Z.eqb_spec (Z.sgn (power (v_Address v))) 0) as [E|_]; [lia|].
    replace (S i) with (length l - n)%nat by lia. unfold vslice_set_power. cbn [sl_arr sl_len sl_store].
    fold f in IH. rewrite <-IH by lia. f_equal. f_equal.
    replace (length l - n)%nat with (S i) by lia. rewrite (take_S_r _ _ _ Hv), fmap_app, <-app_assoc.
    rewrite alter_app_r_alt by lia. rewrite Hlen, Nat.sub_diag. done.
Qed.

(** When no validator has to be removed, the range loop gives each validator its
    new power, in order. *)
Theorem range_update_no_removal power l :
  (∀ v, v ∈ l → power (v_Address v) ≠ 0) →
  vslice_vals (range_update power (length l) 0 (vslice_of l)) =
    (λ v, with_power v (power (v_Address v))) <$> l.
Proof.
  intros Hall. pose proof (range_update_all power l (length l) Hall ltac:(lia)) as H.
  rewrite Nat.sub_diag, drop_0 in H. simpl in H. unfold vslice_of. rewrite H.
  unfold vslice_vals. simpl. rewrite take_ge by (by rewrite length_seq).
  apply list_eq. intros k. rewrite omap_lookup_all.
  - destruct (decide (k < length l)%nat).
    + by rewrite lookup_seq_lt.
    + rewrite lookup_seq_ge by lia. symmetry. apply lookup_ge_None. rewrite length_fmap. lia.
  - intros p Hp. apply lookup_lt_is_Some. rewrite length_fmap. apply elem_of_seq in Hp. lia.
Qed.

End range_remove.

(** ** Concrete instances *)

(** A vote by account [i] for [amount]. *)
Definition ex_evote (ptr i amount : Z) : @EpochValidatorVote toy_lib :=
  mkEpochValidatorVote (LIB := toy_lib) ptr [i] (Some [i]) (Some amount) "salt" [] [].

Definition ex_evotes : @EpochValidatorVoteSet toy_lib :=
  mkEpochValidatorVoteSet (LIB := toy_lib) [ex_evote 1 2 0; ex_evote 2 9 50]
    (<[[2] := ex_evote 1 2 0]> (<[[9] := ex_evote 2 9 50]> ∅)).

Lemma ex_no_dup : @no_dup toy_lib ex_valSet.
Proof. unfold no_dup, addresses. apply (bool_decide_unpack _). vm_compute. exact I. Qed.

Lemma updateEpochValidatorSet_correct_witness :
  ∃ valSet refund, @updateEpochValidatorSet toy_lib toy_sort ex_valSet (Some ex_evotes) =
    inl (valSet, refund) ∧ vs_Size valSet = 4.
Proof.
  pose proof (@updateEpochValidatorSet_correct toy_lib toy_sort toy_sort_laws ex_valSet
    (Some ex_evotes) ex_no_dup ltac:(done) ltac:(done)) as H.
  destruct (foldl vote_effect _ _) as [m added] eqn:E.
  destruct H as (vs' & r & He & _ & Hs & _). exists vs', r. split; [exact He|]. rewrite Hs.
  assert (size m = 4%nat ∧ added = 1) as [-> ->]; [|vm_compute; reflexivity].
  change m with (m, added).1. change added with (m, added).2 at 2. rewrite <-E.
  split; vm_compute; reflexivity.
Defined.

Lemma StoreVote_correct_witness :
  ∃ s', StoreVote ex_evotes (ex_evote 3 2 70) = Ret s' ∧
    GetVoteByAddress s' [2] = Some (ex_evote 3 2 70).
Proof.
  destruct (@StoreVote_correct toy_lib ex_evotes (ex_evote 3 2 70)) as (s' & He & _ & _ & Hg).
  - split.
    + apply (bool_decide_unpack _). vm_compute. exact I.
    + apply (bool_decide_unpack _). vm_compute. exact I.
    + intros a v. simpl. rewrite !lookup_insert_Some, lookup_empty, !elem_of_cons.
      assert (@ev_Address toy_lib v = @ev_Address toy_lib v) by done.
      split; [naive_solver|]. intros [[->|[->|Hv]] <-]; simpl; [by left|by right; split; [|left]|].
      by apply elem_of_nil in Hv.
  - apply (bool_decide_unpack _). vm_compute. exact I.
  - exists s'. split; [exact He|]. by rewrite Hg.
Defined.

(** Powers that drop validators 1 and 2 and change validator 3. *)
Definition ex_power (a : bytes) : Z :=
  match a with [3] => 33 | [4] => 44 | _ => 0 end.

Lemma range_update_safe_witness :
  @with_power toy_lib (ex_val 4 40) 44 ∈
    vslice_vals (range_update ex_power 4 0 (vslice_of (vals ex_valSet))) ∨
  ex_val 4 40 ∈ vslice_vals (range_update ex_power 4 0 (vslice_of (vals ex_valSet))).
Proof.
  destruct (proj1 (@range_update_safe toy_lib ex_power (vals ex_valSet) ex_no_dup)
    (ex_val 4 40)) as [H|H]; [|done|by right|by left].
  do 3 (apply elem_of_cons; right). by apply elem_of_cons; left.
Defined.

Lemma range_update_no_removal_witness :
  vslice_vals (range_update (λ _, 9) 4 0 (vslice_of (vals ex_valSet))) =
    [ex_val 1 9; ex_val 2 9; ex_val 3 9; ex_val 4 9].
Proof. apply (@range_update_no_removal toy_lib (λ _, 9) (vals ex_valSet)). done. Defined.

(** The element after a removed one is skipped: validator 2, whose power is 0, stays
    with its old power, and so does validator 3 when only validator 2 is removed. *)
Lemma range_update_skips :
  vslice_vals (range_update ex_power 4 0 (vslice_of (vals ex_valSet))) =
    [ex_val 2 20; ex_val 3 33; ex_val 4 44] ∧
  vslice_vals (range_update (λ a, if bool_decide (a = [2]) then 0 else 9) 4 0
                 (vslice_of (vals ex_valSet))) =
    [ex_val 1 9; ex_val 3 30; ex_val 4 9].
Proof. split; reflexivity. Qed.
