(* ===== verification/Epoch.v ===== *)
(** * Epochs (consensus/neatpos/epoch/epoch.go, epoch/scheme.go)

    An epoch is a range of blocks with a validator set and a reward per block.  The
    file models the stored epochs, the proposal and validation of the next epoch, the
    estimate of its length and reward, the change of epoch, and the search of the
    epoch of a block.  The database holds encoded epochs; its model maps a number to
    what decoding gives back, the exported fields; the codec is a parameter
    ([EpochWire]).  Times are nanoseconds since the
    Unix epoch, in UTC; [AddDate] is the proleptic Gregorian calendar of Go's [time]. *)

From Stdlib Require Import ZArith Lia.
From stdpp Require Import base tactics strings numbers gmap sorting list.
From S2P Require Import Prelude Types ValidatorSet EpochVotes.

Local Open Scope Z_scope.

(** ** Calendar *)

Definition days_from_civil (y m d : Z) : Z :=
  let y := if m <=? 2 then y - 1 else y in
  let era := y / 400 in
  let yoe := y mod 400 in
  let mp := (m + 9) mod 12 in
  let doy := (153 * mp + 2) / 5 + d - 1 in
  let doe := yoe * 365 + yoe / 4 - yoe / 100 + doy in
  era * 146097 + doe - 719468.

Definition civil_from_days (z : Z) : Z * Z * Z :=
  let z := z + 719468 in
  let era := z / 146097 in
  let doe := z mod 146097 in
  let yoe := (doe - doe / 1460 + doe / 36524 - doe / 146096) / 365 in
  let y := yoe + era * 400 in
  let doy := doe - (365 * yoe + yoe / 4 - yoe / 100) in
  let mp := (5 * doy + 2) / 153 in
  let d := doy - (153 * mp + 2) / 5 + 1 in
  let m := if mp <? 10 then mp + 3 else mp - 9 in
  (if m <=? 2 then y + 1 else y, m, d).

Definition ns_per_day : Z := 86400 * 1000000000.

(** [t.AddDate(years, 0, 0)] *)
Definition AddDate (t years : Z) : Z :=
  let '(y, m, d) := civil_from_days (t / ns_per_day) in
  days_from_civil (y + years) m d * ns_per_day + t mod ns_per_day.

(** The zero [time.Time]: January 1, year 1. *)
Definition zero_time : Z := -62135596800 * 1000000000.

(** [t.Sub(u)]: a [Duration] is an [int64], the difference saturates. *)
Definition time_Sub (t u : Z) : Z := Z.max (- 2 ^ 63) (Z.min (2 ^ 63 - 1) (t - u)).

(** [a / b] on [int64]. *)
Definition div64 (a b : Z) : outcome Z :=
  if b =? 0 then Panic "integer divide by zero" else mret (i64 (Z.quot a b)).

(** ** Data *)

Section epoch.
Context {LIB : NeatLib}.

Definition EPOCH_NOT_EXIST : Z := 0.
Definition EPOCH_PROPOSED_NOT_VOTED : Z := 1.
Definition EPOCH_VOTED_NOT_SAVED : Z := 2.
Definition EPOCH_SAVED : Z := 3.

Record RewardScheme := mkRewardScheme {
  rs_TotalReward : Z;
  rs_RewardFirstYear : Z;
  rs_EpochNumberPerYear : Z;
  rs_TotalYear : Z
}.

(** The exported fields. *)
Record EpochData := mkEpochData {
  ed_Number : Z;
  ed_RewardPerBlock : Z;
  ed_StartBlock : Z;
  ed_EndBlock : Z;
  ed_StartTime : Z;
  ed_EndTime : Z;
  ed_BlockGenerated : Z;
  ed_Status : Z;
  ed_Validators : ValidatorSet
}.

(** The codec of wire-go: [wire_Bytes] is [wire.BinaryBytes] of an epoch,
    [wire_FromBytes] is [wire.ReadBinaryBytes] ([None] is an error), and [wire_epoch]
    is what reading gives back of a written epoch: all but the resolution of the times. *)
Class EpochWire := {
  wire_epoch : EpochData → EpochData;
  wire_Bytes : EpochData → bytes;
  wire_FromBytes : bytes → option EpochData
}.

Class EpochWireLaws {WIRE : EpochWire} := {
  wire_Number d : ed_Number (wire_epoch d) = ed_Number d;
  wire_RewardPerBlock d : ed_RewardPerBlock (wire_epoch d) = ed_RewardPerBlock d;
  wire_StartBlock d : ed_StartBlock (wire_epoch d) = ed_StartBlock d;
  wire_EndBlock d : ed_EndBlock (wire_epoch d) = ed_EndBlock d;
  wire_Status d : ed_Status (wire_epoch d) = ed_Status d;
  wire_Validators d : vals (ed_Validators (wire_epoch d)) = vals (ed_Validators d)
}.

Context {WIRE : EpochWire}.

#[warnings="-register-all"] Inductive Epoch := mkEpoch {
  ep_data : EpochData;
  ep_validatorVoteSet : option EpochValidatorVoteSet;
  ep_rs : option RewardScheme;
  ep_previousEpoch : option Epoch;
  ep_nextEpoch : option Epoch
}.

Record EpochDB := mkEpochDB {
  db_epochs : gmap Z EpochData;
  db_latest : option Z;
  db_votes : gmap Z EpochValidatorVoteSet;
  db_rs : option RewardScheme
}.

(** Field updates. *)
Definition ed_set_status (d : EpochData) (status : Z) : EpochData :=
  mkEpochData (ed_Number d) (ed_RewardPerBlock d) (ed_StartBlock d) (ed_EndBlock d)
    (ed_StartTime d) (ed_EndTime d) (ed_BlockGenerated d) status (ed_Validators d).

Definition ed_set_end_time (d : EpochData) (t : Z) : EpochData :=
  mkEpochData (ed_Number d) (ed_RewardPerBlock d) (ed_StartBlock d) (ed_EndBlock d)
    (ed_StartTime d) t (ed_BlockGenerated d) (ed_Status d) (ed_Validators d).

Definition ed_enter (d : EpochData) (t : Z) (vs : ValidatorSet) : EpochData :=
  mkEpochData (ed_Number d) (ed_RewardPerBlock d) (ed_StartBlock d) (ed_EndBlock d)
    t (ed_EndTime d) (ed_BlockGenerated d) (ed_Status d) vs.

Definition ep_set_data (e : Epoch) (d : EpochData) : Epoch :=
  mkEpoch d (ep_validatorVoteSet e) (ep_rs e) (ep_previousEpoch e) (ep_nextEpoch e).

Definition ep_set_next (e : Epoch) (next : option Epoch) : Epoch :=
  mkEpoch (ep_data e) (ep_validatorVoteSet e) (ep_rs e) (ep_previousEpoch e) next.

Definition db_put (db : EpochDB) (n : Z) (d : EpochData) : EpochDB :=
  mkEpochDB (<[n := wire_epoch d]> (db_epochs db)) (db_latest db) (db_votes db) (db_rs db).

Definition db_set_latest (db : EpochDB) (n : Z) : EpochDB :=
  mkEpochDB (db_epochs db) (Some n) (db_votes db) (db_rs db).

(** ** Loading and saving *)

Definition ep_FromBytes (buf : bytes) : option Epoch :=
  if bool_decide (buf = []) then None
  else (λ d, mkEpoch d None None None None) <$> wire_FromBytes buf.

Definition ep_Bytes (epoch : Epoch) : bytes := wire_Bytes (ep_data epoch).

Definition loadOneEpoch (db : EpochDB) (epochNumber : Z) : option Epoch :=
  (λ d, mkEpoch d None None None None) <$> db_epochs db !! epochNumber.

Definition LoadEpochVoteSet (db : EpochDB) (epochNumber : Z) : option EpochValidatorVoteSet :=
  evs_Copy (db_votes db !! epochNumber).

Definition LoadRewardScheme (db : EpochDB) : option RewardScheme := db_rs db.

Definition LoadOneEpoch (db : EpochDB) (epochNumber : Z) : outcome Epoch :=
  match loadOneEpoch db epochNumber with
  | None => Panic "nil pointer dereference"
  | Some epoch =>
      let rs := LoadRewardScheme db in
      let with_rs (votes : option EpochValidatorVoteSet) (e : Epoch) :=
        mkEpoch (ep_data e) votes rs (ep_previousEpoch e) (ep_nextEpoch e) in
      let previous :=
        if 0 <? epochNumber
        then with_rs None <$> loadOneEpoch db (u64 (epochNumber - 1)) else None in
      let next :=
        with_rs (LoadEpochVoteSet db (u64 (epochNumber + 1))) <$>
          loadOneEpoch db (u64 (epochNumber + 1)) in
      mret (mkEpoch (ep_data epoch) (LoadEpochVoteSet db epochNumber) rs previous next)
  end.

(** [Save]: the next epoch is marked saved through its pointer. *)
Definition ep_Save (db : EpochDB) (epoch : Epoch) : EpochDB * Epoch :=
  let d := ep_data epoch in
  let db := db_set_latest (db_put db (ed_Number d) d) (ed_Number d) in
  match ep_nextEpoch epoch with
  | Some next =>
      if ed_Status (ep_data next) =? EPOCH_VOTED_NOT_SAVED then
        let next := ep_set_data next (ed_set_status (ep_data next) EPOCH_SAVED) in
        (db_put db (ed_Number (ep_data next)) (ep_data next), ep_set_next epoch (Some next))
      else (db, epoch)
  | None => (db, epoch)
  end.

(** From the genesis document, or from the database after a restart. *)
Record GenesisValidator := mkGenesisValidator {
  gv_EthAccount : bytes;
  gv_PubKey : PubKey;
  gv_Amount : Z;
  gv_RemainingEpoch : Z
}.

Record OneEpochDoc := mkOneEpochDoc {
  oe_Number : Z;
  oe_RewardPerBlock : Z;
  oe_StartBlock : Z;
  oe_EndBlock : Z;
  oe_Status : Z;
  oe_Validators : list GenesisValidator
}.

Definition MakeOneEpoch (oneEpoch : OneEpochDoc) (now : Z) : Epoch :=
  let validators :=
    (λ v, mkValidator (gv_EthAccount v) (gv_PubKey v) (gv_Amount v) (gv_RemainingEpoch v)) <$>
      oe_Validators oneEpoch in
  mkEpoch
    (mkEpochData (oe_Number oneEpoch) (oe_RewardPerBlock oneEpoch) (oe_StartBlock oneEpoch)
       (oe_EndBlock oneEpoch) now 0 0 (oe_Status oneEpoch) (NewValidatorSet validators))
    None None None None.

Definition rs_Save (db : EpochDB) (rs : RewardScheme) : EpochDB :=
  mkEpochDB (db_epochs db) (db_latest db) (db_votes db) (Some rs).

Definition SetRewardScheme (e : Epoch) (rs : option RewardScheme) : Epoch :=
  mkEpoch (ep_data e) (ep_validatorVoteSet e) rs (ep_previousEpoch e) (ep_nextEpoch e).

Definition InitEpoch (db : EpochDB) (rewardScheme : RewardScheme) (currentEpoch : OneEpochDoc)
    (now : Z) : outcome (EpochDB * Epoch) :=
  match db_latest db with
  | None =>
      let db := rs_Save db rewardScheme in
      let '(db, ep) := ep_Save db (MakeOneEpoch currentEpoch now) in
      mret (db, SetRewardScheme ep (Some rewardScheme))
  | Some epNo =>
      ep ← LoadOneEpoch db epNo;
      mret (db, ep)
  end.

(** [GetNextEpoch] loads the next epoch on demand. *)
Definition GetNextEpoch (db : EpochDB) (epoch : Epoch) : Epoch * option Epoch :=
  match ep_nextEpoch epoch with
  | Some next => (epoch, Some next)
  | None =>
      let n := u64 (ed_Number (ep_data epoch) + 1) in
      let next := (λ e, mkEpoch (ep_data e) (LoadEpochVoteSet db n) (ep_rs epoch)
                          (ep_previousEpoch e) (ep_nextEpoch e)) <$> loadOneEpoch db n in
      (ep_set_next epoch next, next)
  end.

Definition SetNextEpoch (epoch : Epoch) (next : option Epoch) : Epoch :=
  ep_set_next epoch
    ((λ n, mkEpoch (ep_data n) (ep_validatorVoteSet n) (ep_rs epoch) (ep_previousEpoch n)
             (ep_nextEpoch n)) <$> next).

(** [copy]: the neighbours are copied without theirs. *)
Definition ep_copy_shallow (e : Epoch) : Epoch :=
  mkEpoch (ep_data e) (evs_Copy (ep_validatorVoteSet e)) (ep_rs e) None None.

Definition ep_Copy (e : Epoch) : Epoch :=
  mkEpoch (ep_data e) (evs_Copy (ep_validatorVoteSet e)) (ep_rs e)
    (ep_copy_shallow <$> ep_previousEpoch e) (ep_copy_shallow <$> ep_nextEpoch e).

(** ** Proposing the next epoch *)

Definition ShouldProposeNextEpoch (epoch : Epoch) (curBlockHeight : Z) : bool :=
  match ep_nextEpoch epoch with
  | Some _ => false
  | None =>
      (ed_StartBlock (ep_data epoch) <? curBlockHeight) && negb (curBlockHeight =? 1) &&
      negb (curBlockHeight =? ed_EndBlock (ep_data epoch))
  end.

Definition calculateRewardPerEpochByYear (rewardFirstYear year totalYear epochNumberPerYear : Z)
    : outcome Z :=
  if totalYear <? year then mret 0
  else if epochNumberPerYear =? 0 then Panic "division by zero"
  else mret (rewardFirstYear / epochNumberPerYear).

Definition EMERGENCY_BLOCKS_OF_NEXT_EPOCH : Z := 100.

(** The reward per block and the number of blocks of the next epoch.  [big.Int]'s
    [Div] is Euclidean; the dividends here are not negative and it agrees with [/]. *)
Definition estimateForNextEpoch (db : EpochDB) (epoch : Epoch) (lastBlockHeight lastBlockTime : Z)
    : outcome (Z * Z) :=
  match ep_rs epoch, loadOneEpoch db 0 with
  | Some rs, Some zeroEpoch =>
      let d := ep_data epoch in
      let rewardFirstYear := rs_RewardFirstYear rs in
      let epochNumberPerYear := rs_EpochNumberPerYear rs in
      let totalYear := rs_TotalYear rs in
      let initStartTime := ed_StartTime (ep_data zeroEpoch) in
      if epochNumberPerYear =? 0 then Panic "integer divide by zero"
      else
        let thisYear := ed_Number d / epochNumberPerYear in
        let nextYear := u64 (thisYear + 1) in
        timePerBlockOfEpoch ←
          match ep_previousEpoch epoch with
          | Some prev =>
              let p := ep_data prev in
              div64 (time_Sub (ed_EndTime p) (ed_StartTime p))
                (i64 (u64 (ed_EndBlock p - ed_StartBlock p)))
          | None =>
              div64 (time_Sub lastBlockTime (ed_StartTime d))
                (i64 (u64 (lastBlockHeight - ed_StartBlock d)))
          end;
        let timePerBlockOfEpoch :=
          if timePerBlockOfEpoch =? 0 then 1000000000 else timePerBlockOfEpoch in
        let epochLeftThisYear :=
          u64 (epochNumberPerYear - ed_Number d mod epochNumberPerYear - 1) in
        let nextYearStartTime := AddDate initStartTime (i64 nextYear) in
        let emergency (blocks : Z) :=
          if blocks <? EMERGENCY_BLOCKS_OF_NEXT_EPOCH
          then EMERGENCY_BLOCKS_OF_NEXT_EPOCH else blocks in
        if epochLeftThisYear =? 0 then
          let nextYearEndTime := AddDate nextYearStartTime 1 in
          let timeLeftNextYear := time_Sub nextYearEndTime nextYearStartTime in
          epochTime ← div64 timeLeftNextYear (i64 epochNumberPerYear);
          q ← div64 epochTime timePerBlockOfEpoch;
          let blocksOfNextEpoch := emergency (u64 q) in
          reward ← calculateRewardPerEpochByYear rewardFirstYear (i64 nextYear) (i64 totalYear)
                     (i64 epochNumberPerYear);
          mret (reward / i64 blocksOfNextEpoch, blocksOfNextEpoch)
        else
          let timeLeftThisYear := time_Sub nextYearStartTime lastBlockTime in
          blocks ← (if 0 <? timeLeftThisYear then
                      epochTime ← div64 timeLeftThisYear (i64 epochLeftThisYear);
                      q ← div64 epochTime timePerBlockOfEpoch;
                      mret (u64 q)
                    else mret 0);
          let blocksOfNextEpoch := emergency blocks in
          reward ← calculateRewardPerEpochByYear rewardFirstYear (i64 thisYear) (i64 totalYear)
                     (i64 epochNumberPerYear);
          mret (reward / i64 blocksOfNextEpoch, blocksOfNextEpoch)
  | _, _ => Panic "nil pointer dereference"
  end.

Definition ProposeNextEpoch (db : EpochDB) (epoch : Epoch) (lastBlockHeight lastBlockTime : Z)
    : outcome Epoch :=
  r ← estimateForNextEpoch db epoch lastBlockHeight lastBlockTime;
  let '(rewardPerBlock, blocks) := r in
  let d := ep_data epoch in
  mret (mkEpoch
    (mkEpochData (u64 (ed_Number d + 1)) rewardPerBlock (u64 (ed_EndBlock d + 1))
       (u64 (ed_EndBlock d + blocks)) zero_time zero_time 0 EPOCH_PROPOSED_NOT_VOTED
       (ed_Validators d))
    None None None None).

(** [Equals] without the neighbours. *)
Definition ed_Equals (e other : EpochData) : bool :=
  (ed_Number e =? ed_Number other) && (ed_RewardPerBlock e =? ed_RewardPerBlock other) &&
  (ed_StartBlock e =? ed_StartBlock other) && (ed_EndBlock e =? ed_EndBlock other) &&
  vs_Equals (ed_Validators e) (ed_Validators other).

Definition ep_Equals (epoch other : option Epoch) (checkPrevNext : bool) : bool :=
  match epoch, other with
  | None, None => true
  | Some e, Some o =>
      let neighbour (a b : option Epoch) :=
        match a, b with
        | None, None => true
        | Some a, Some b => ed_Equals (ep_data a) (ep_data b)
        | _, _ => false
        end in
      if negb (ed_Equals (ep_data e) (ep_data o)) then false
      else if checkPrevNext then
        neighbour (ep_previousEpoch e) (ep_previousEpoch o) &&
        neighbour (ep_nextEpoch e) (ep_nextEpoch o)
      else true
  | _, _ => false
  end.

(** [true] stands for the nil error.  The refusal is logged with [next.String()]. *)
Definition ValidateNextEpoch (db : EpochDB) (epoch : Epoch) (next : option Epoch)
    (lastHeight lastBlockTime : Z) : outcome bool :=
  myNextEpoch ← ProposeNextEpoch db epoch lastHeight lastBlockTime;
  if ep_Equals (Some myNextEpoch) next false then mret true
  else match next with
       | None => Panic "nil pointer dereference"
       | Some _ => mret false
       end.

(** ** Changing epoch *)

Definition EnterNewEpoch (db : EpochDB) (epoch : Epoch) (newValidators : ValidatorSet) (now : Z)
    : option (EpochDB * Epoch) :=
  match ep_nextEpoch epoch with
  | None => None
  | Some _ =>
      let epoch := ep_set_data epoch (ed_set_end_time (ep_data epoch) now) in
      let '(db, epoch) := ep_Save db epoch in
      next ← ep_nextEpoch epoch;
      let next := mkEpoch (ed_enter (ep_data next) now newValidators) (ep_validatorVoteSet next)
                    (ep_rs next) (Some (ep_Copy epoch)) None in
      Some (ep_Save db next)
  end.

Definition UpdateEpochEndTime (db : EpochDB) (epNumber endTime : Z) : EpochDB :=
  match loadOneEpoch db epNumber with
  | None => db
  | Some ep => db_put db epNumber (ed_set_end_time (ep_data ep) endTime)
  end.

(** ** The epoch of a block *)

Definition in_epoch (d : EpochData) (blockNumber : Z) : bool :=
  (ed_StartBlock d <=? blockNumber) && (blockNumber <=? ed_EndBlock d).

(** [for number := epoch.Number - 1; number >= 0; number--] on [uint64]: the test is
    always true, the loop ends when no epoch is stored.  [None] is out of fuel. *)
Fixpoint search_epoch (fuel : nat) (db : EpochDB) (number blockNumber : Z)
    : option (option Epoch) :=
  match fuel with
  | O => None
  | S fuel =>
      match loadOneEpoch db number with
      | None => Some None
      | Some ep =>
          if in_epoch (ep_data ep) blockNumber then Some (Some ep)
          else search_epoch fuel db (u64 (number - 1)) blockNumber
      end
  end.

Definition GetEpochByBlockNumber (fuel : nat) (db : EpochDB) (epoch : Epoch) (blockNumber : Z)
    : option (option Epoch) :=
  if in_epoch (ep_data epoch) blockNumber then Some (Some epoch)
  else search_epoch fuel db (u64 (ed_Number (ep_data epoch) - 1)) blockNumber.

End epoch.

(** ** The calendar is consistent *)





(** ** The estimate *)

Section estimate.
Context {LIB : NeatLib} {WIRE : EpochWire}.











End estimate.

(** ** Proposal and validation of the next epoch *)

Section proposal.
Context {LIB : NeatLib} {WIRE : EpochWire}.

Lemma ProposeNextEpoch_spec db epoch h t next :
  ProposeNextEpoch db epoch h t = Ret next ↔
  ∃ reward blocks, estimateForNextEpoch db epoch h t = Ret (reward, blocks) ∧
    next = mkEpoch
      (mkEpochData (u64 (ed_Number (ep_data epoch) + 1)) reward
         (u64 (ed_EndBlock (ep_data epoch) + 1)) (u64 (ed_EndBlock (ep_data epoch) + blocks))
         zero_time zero_time 0 EPOCH_PROPOSED_NOT_VOTED (ed_Validators (ep_data epoch)))
      None None None None.
Proof.
  unfold ProposeNextEpoch. destruct (estimateForNextEpoch db epoch h t) as [[r b]|why]; cbn.
  - split.
    + intros [= <-]. by exists r, b.
    + by intros (? & ? & [= <- <-] & ->).
  - split; [done|]. by intros (? & ? & ? & ?).
Qed.

Lemma vs_Equals_elem valSet other v :
  no_dup valSet → vs_Equals valSet other = true → v ∈ vals other →
  ∃ w, w ∈ vals valSet ∧ v_Address w = v_Address v ∧ v_VotingPower w = v_VotingPower v ∧
    PubKey_Equals (v_PubKey w) (v_PubKey v) = true.
Proof.
  unfold vs_Equals. intros Hnd H Hv. destruct (negb _); [done|].
  rewrite forallb_forall in H. specialize (H v (proj1 (list_elem_of_In _ _) Hv)).
  pose proof (GetByAddress_lookup valSet (v_Address v) Hnd) as E.
  destruct (GetByAddress valSet (v_Address v)) as [i [w|]]; [|done]. cbn in E.
  exists w. split.
  - symmetry in E. apply elem_of_list_to_map_2, list_elem_of_fmap in E as (x & [= _ ->] & Hx). done.
  - unfold v_Equals in H. rewrite !andb_true_iff, bytes_Equal_true, Z.eqb_eq in H. naive_solver.
Qed.

Lemma vs_Equals_refl valSet :
  no_dup valSet → (∀ k, PubKey_Equals k k = true) → vs_Equals valSet valSet = true.
Proof.
  intros Hnd Hk. unfold vs_Equals. rewrite Nat.eqb_refl. cbn [negb].
  apply forallb_forall. intros v Hv%list_elem_of_In.
  pose proof (GetByAddress_lookup valSet (v_Address v) Hnd) as E.
  apply list_elem_of_lookup in Hv as [k Hv].
  rewrite (as_map_lookup _ _ _ Hnd Hv) in E.
  destruct (GetByAddress valSet (v_Address v)) as [i [w|]]; cbn in E; simplify_eq.
  unfold v_Equals. rewrite Hk, Z.eqb_refl, !andb_true_r. by apply bytes_Equal_true.
Qed.

(** Address and power of a validator. *)
Definition v_stake (v : Validator) : bytes * Z := (v_Address v, v_VotingPower v).

(** What [Equals] finds of two epochs. It looks up the validators of [next] in [mine] and
    compares the numbers of them; only if [next] has no address twice are the two sets the
    same. *)
Definition same_epoch (mine next : Epoch) : Prop :=
  ed_Number (ep_data next) = ed_Number (ep_data mine) ∧
  ed_RewardPerBlock (ep_data next) = ed_RewardPerBlock (ep_data mine) ∧
  ed_StartBlock (ep_data next) = ed_StartBlock (ep_data mine) ∧
  ed_EndBlock (ep_data next) = ed_EndBlock (ep_data mine) ∧
  length (vals (ed_Validators (ep_data next))) = length (vals (ed_Validators (ep_data mine))) ∧
  (∀ v, v ∈ vals (ed_Validators (ep_data next)) →
    ∃ w, w ∈ vals (ed_Validators (ep_data mine)) ∧ v_Address w = v_Address v ∧
         v_VotingPower w = v_VotingPower v ∧ PubKey_Equals (v_PubKey w) (v_PubKey v) = true) ∧
  (no_dup (ed_Validators (ep_data next)) →
    v_stake <$> vals (ed_Validators (ep_data next)) ≡ₚ v_stake <$> vals (ed_Validators (ep_data mine))).

(** As many validators, each of them among the others, and no address twice. *)
Lemma same_stakes (l l' : list Validator) :
  NoDup (v_Address <$> l) → length l = length l' →
  (∀ v, v ∈ l → ∃ w, w ∈ l' ∧ v_Address w = v_Address v ∧ v_VotingPower w = v_VotingPower v) →
  v_stake <$> l ≡ₚ v_stake <$> l'.
Proof.
  intros Hnd Hlen Hin. apply NoDup_Permutation_bis.
  - apply NoDup_ListNoDup. apply (NoDup_fmap_1 fst). by rewrite <-list_fmap_compose.
  - rewrite !length_fmap. lia.
  - intros x Hx. apply list_elem_of_In, list_elem_of_fmap in Hx as (v & -> & Hv).
    destruct (Hin v Hv) as (w & Hw & Ha & Hp). apply list_elem_of_In, list_elem_of_fmap.
    exists w. split; [unfold v_stake; congruence|done].
Qed.


(** C39. ValidateNextEpoch accepts the epoch that ProposeNextEpoch computes from the
    same state. Whatever it accepts has the same number, block range and reward and as
    many validators, each with the address, key and power of one of the computed epoch;
    and if no address occurs twice in it, then its validators have the same addresses
    and powers up to their order. *)
Theorem next_epoch_agreement db epoch h t mine :
  no_dup (ed_Validators (ep_data epoch)) → (∀ k, PubKey_Equals k k = true) →
  ProposeNextEpoch db epoch h t = Ret mine →
  ValidateNextEpoch db epoch (Some mine) h t = Ret true ∧
  ∀ next, ValidateNextEpoch db epoch (Some next) h t = Ret true → same_epoch mine next.
Proof.
  intros Hnd Hk Hp. unfold ValidateNextEpoch. rewrite Hp. cbn [mbind outcome_bind].
  assert (ed_Validators (ep_data mine) = ed_Validators (ep_data epoch)) as Hv.
  { apply ProposeNextEpoch_spec in Hp as (? & ? & _ & ->). done. }
  unfold ep_Equals, ed_Equals. split.
  - rewrite !Z.eqb_refl, vs_Equals_refl by (rewrite ?Hv; done). done.
  - intros next. destruct (vs_Equals _ _) eqn:Hvs.
    2: { rewrite andb_false_r. done. }
    repeat match goal with |- context [?a =? ?b] => destruct (Z.eqb_spec a b) end; cbn; try done.
    intros _. unfold same_epoch.
    assert (length (vals (ed_Validators (ep_data next))) = length (vals (ed_Validators (ep_data mine)))) as Hlen.
    { unfold vs_Equals in Hvs. destruct (Nat.eqb_spec (length (vals (ed_Validators (ep_data mine))))
        (length (vals (ed_Validators (ep_data next))))); [by symmetry|done]. }
    pose proof (λ v, vs_Equals_elem _ _ v (eq_ind_r no_dup Hnd Hv) Hvs) as Hin.
    split_and!; try done. intros Hn. apply same_stakes; [done|done|]. intros v Hx.
    destruct (Hin v Hx) as (w & ? & ? & ? & _). by exists w.
Qed.

End proposal.

(** ** The search of an epoch and the change of epoch *)

Section search.
Context {LIB : NeatLib} {WIRE : EpochWire}.

(** Epoch [n] as seen from the current epoch. *)
Definition epoch_at (db : EpochDB) (epoch : Epoch) (n : Z) : option EpochData :=
  if n =? ed_Number (ep_data epoch) then Some (ep_data epoch) else db_epochs db !! n.

(** The stored epochs below the current one tile the chain. *)
Record epoch_chain (db : EpochDB) (epoch : Epoch) : Prop := {
  ec_number : 0 <= ed_Number (ep_data epoch) < 2 ^ 64 - 1;
  ec_stored n : 0 <= n <= ed_Number (ep_data epoch) →
    ∃ d, epoch_at db epoch n = Some d ∧ ed_StartBlock d <= ed_EndBlock d;
  ec_tiles n d e : 0 <= n < ed_Number (ep_data epoch) →
    epoch_at db epoch n = Some d → epoch_at db epoch (n + 1) = Some e →
    ed_StartBlock e = ed_EndBlock d + 1;
  ec_top : db_epochs db !! (2 ^ 64 - 1) = None
}.

Lemma search_epoch_spec fuel db (k : nat) b :
  Z.of_nat k < 2 ^ 64 - 1 →
  (∀ n, 0 <= n < Z.of_nat k → is_Some (db_epochs db !! n)) →
  db_epochs db !! (2 ^ 64 - 1) = None → (k < fuel)%nat →
  ∃ r, search_epoch fuel db (u64 (Z.of_nat k - 1)) b = Some r ∧
    match r with
    | Some ep => ∃ n, 0 <= n < Z.of_nat k ∧ db_epochs db !! n = Some (ep_data ep) ∧
                      in_epoch (ep_data ep) b = true
    | None => ∀ n d, 0 <= n < Z.of_nat k → db_epochs db !! n = Some d → in_epoch d b = false
    end.
Proof.
  revert fuel. induction k as [|k IH]; intros [|fuel] Hk Hs Ht Hf; try lia.
  - cbn [search_epoch]. unfold loadOneEpoch.
    change (u64 (Z.of_nat 0 - 1)) with (2 ^ 64 - 1). rewrite Ht.
    exists None. split; [done|]. intros; lia.
  - replace (Z.of_nat (S k) - 1) with (Z.of_nat k) by lia.
    rewrite u64_small by (unfold in_u64; lia). cbn [search_epoch]. unfold loadOneEpoch.
    destruct (Hs (Z.of_nat k)) as [d Hd]; [lia|]. rewrite Hd. cbn [fmap option_fmap option_map ep_data].
    destruct (in_epoch d b) eqn:Hin.
    + eexists. split; [done|]. cbn. exists (Z.of_nat k). split; [lia|done].
    + destruct (IH fuel) as (r & Hr & Hpost); [lia|intros; apply Hs; lia|done|lia|].
      exists r. split; [done|]. destruct r as [ep|].
      * destruct Hpost as (n & Hn & ?). exists n. split; [lia|done].
      * intros n e Hn He. destruct (decide (n = Z.of_nat k)) as [->|]; [by simplify_eq|].
        apply (Hpost n); [lia|done].
Qed.

Lemma in_epoch_spec d b : in_epoch d b = true ↔ ed_StartBlock d <= b <= ed_EndBlock d.
Proof. unfold in_epoch. rewrite andb_true_iff, !Z.leb_le. done. Qed.

(** Epochs of a chain are ordered like their numbers. *)
Lemma chain_ordered db epoch n m d e :
  epoch_chain db epoch → 0 <= n → n < m → m <= ed_Number (ep_data epoch) →
  epoch_at db epoch n = Some d → epoch_at db epoch m = Some e → ed_EndBlock d < ed_StartBlock e.
Proof.
  intros C Hn Hlt Hm Hd. revert e. remember (Z.to_nat (m - n - 1)) as k eqn:Ek.
  revert m Hlt Hm Ek. induction k as [|k IH]; intros m Hlt Hm Ek e He.
  - assert (m = n + 1) as -> by lia. pose proof (ec_tiles _ _ C n d e ltac:(lia) Hd He). lia.
  - destruct (ec_stored _ _ C (m - 1)) as (x & Hx & Hle); [lia|].
    pose proof (IH (m - 1) ltac:(lia) ltac:(lia) ltac:(lia) x Hx) as Hlt'.
    pose proof (ec_tiles _ _ C (m - 1) x e ltac:(lia) Hx) as Ht.
    replace (m - 1 + 1) with m in Ht by lia. specialize (Ht He). lia.
Qed.

Lemma chain_unique db epoch n m d e b :
  epoch_chain db epoch → 0 <= n <= ed_Number (ep_data epoch) →
  0 <= m <= ed_Number (ep_data epoch) →
  epoch_at db epoch n = Some d → epoch_at db epoch m = Some e →
  in_epoch d b = true → in_epoch e b = true → n = m.
Proof.
  intros C Hn Hm Hd He [Hd1 Hd2]%in_epoch_spec [He1 He2]%in_epoch_spec.
  destruct (Z.lt_trichotomy n m) as [H|[H|H]]; [|done|].
  - pose proof (chain_ordered _ _ n m d e C ltac:(lia) H ltac:(lia) Hd He). lia.
  - pose proof (chain_ordered _ _ m n e d C ltac:(lia) H ltac:(lia) He Hd). lia.
Qed.

(** Every block from the start of epoch 0 is in an epoch. *)
Lemma chain_covers db epoch d0 b :
  epoch_chain db epoch → epoch_at db epoch 0 = Some d0 →
  ed_StartBlock d0 <= b <= ed_EndBlock (ep_data epoch) →
  ∃ n d, 0 <= n <= ed_Number (ep_data epoch) ∧ epoch_at db epoch n = Some d ∧
         in_epoch d b = true.
Proof.
  intros C H0 Hb.
  assert (∀ k : nat, Z.of_nat k <= ed_Number (ep_data epoch) → ∀ e,
    epoch_at db epoch (Z.of_nat k) = Some e → b <= ed_EndBlock e →
    ∃ n d, 0 <= n <= Z.of_nat k ∧ epoch_at db epoch n = Some d ∧ in_epoch d b = true) as Hall.
  { induction k as [|k IH]; intros Hk e He Hbe.
    - change (Z.of_nat 0) with 0 in *. rewrite H0 in He. injection He as <-.
      exists 0, d0. rewrite in_epoch_spec. split_and!; try done; lia.
    - destruct (decide (ed_StartBlock e <= b)) as [Hs|Hs].
      + exists (Z.of_nat (S k)), e. rewrite in_epoch_spec. split_and!; try done; lia.
      + destruct (ec_stored _ _ C (Z.of_nat k)) as (x & Hx & _); [lia|].
        replace (Z.of_nat (S k)) with (Z.of_nat k + 1) in He by lia.
        pose proof (ec_tiles _ _ C (Z.of_nat k) x e ltac:(lia) Hx He).
        destruct (IH ltac:(lia) x Hx ltac:(lia)) as (n & d & ? & ?). exists n, d. split; [lia|done]. }
  pose proof (ec_number _ _ C).
  destruct (Hall (Z.to_nat (ed_Number (ep_data epoch))) ltac:(lia) (ep_data epoch))
    as (n & d & Hn & Hd); [rewrite Z2Nat.id by lia; unfold epoch_at; by rewrite Z.eqb_refl|lia|].
  exists n, d. split; [lia|done].
Qed.

(** Every epoch of the chain lies between the start of epoch 0 and the current end. *)
Lemma chain_range db epoch n d d0 :
  epoch_chain db epoch → 0 <= n <= ed_Number (ep_data epoch) →
  epoch_at db epoch 0 = Some d0 → epoch_at db epoch n = Some d →
  ed_StartBlock d0 <= ed_StartBlock d ∧ ed_EndBlock d <= ed_EndBlock (ep_data epoch).
Proof.
  intros C Hn H0 Hd. set (N := ed_Number (ep_data epoch)) in *.
  assert (epoch_at db epoch N = Some (ep_data epoch)) as HN
    by (unfold epoch_at; by rewrite Z.eqb_refl).
  assert (∀ m e, 0 <= m <= N → epoch_at db epoch m = Some e → ed_StartBlock e <= ed_EndBlock e) as Hle.
  { intros m e Hm He. destruct (ec_stored _ _ C m Hm) as (x & Hx & Hle). congruence. }
  split.
  - destruct (decide (n = 0)) as [->|Hn0]; [by simplify_eq|].
    pose proof (chain_ordered _ _ 0 n _ _ C ltac:(lia) ltac:(lia) ltac:(lia) H0 Hd).
    pose proof (Hle 0 d0 ltac:(lia) H0). lia.
  - destruct (decide (n = N)) as [->|Hn0]; [rewrite HN in Hd; by injection Hd as ->|].
    pose proof (chain_ordered _ _ n N _ _ C ltac:(lia) ltac:(lia) ltac:(lia) Hd HN).
    pose proof (Hle N _ ltac:(lia) HN). lia.
Qed.

Lemma GetEpochByBlockNumber_spec fuel db epoch b :
  epoch_chain db epoch → (Z.to_nat (ed_Number (ep_data epoch)) < fuel)%nat →
  ∃ r, GetEpochByBlockNumber fuel db epoch b = Some r ∧
    match r with
    | Some ep => ∃ n, 0 <= n <= ed_Number (ep_data epoch) ∧
        epoch_at db epoch n = Some (ep_data ep) ∧ in_epoch (ep_data ep) b = true
    | None => ∀ n d, 0 <= n <= ed_Number (ep_data epoch) → epoch_at db epoch n = Some d →
        in_epoch d b = false
    end.
Proof.
  intros C Hf. pose proof (ec_number _ _ C) as HN. unfold GetEpochByBlockNumber, epoch_at.
  destruct (in_epoch (ep_data epoch) b) eqn:Hin.
  { eexists. split; [done|]. exists (ed_Number (ep_data epoch)).
    rewrite Z.eqb_refl. split; [lia|done]. }
  destruct (search_epoch_spec fuel db (Z.to_nat (ed_Number (ep_data epoch))) b)
    as (r & Hr & Hpost); [lia| |apply C|done|].
  { intros n Hn. destruct (ec_stored _ _ C n) as (d & Hd & _); [lia|].
    unfold epoch_at in Hd. destruct (Z.eqb_spec n (ed_Number (ep_data epoch))); [lia|done]. }
  rewrite Z2Nat.id in * by lia. exists r. split; [done|]. destruct r as [ep|].
  - destruct Hpost as (n & Hn & ?). exists n.
    destruct (Z.eqb_spec n (ed_Number (ep_data epoch))); [lia|]. split; [lia|done].
  - intros n d Hn Hd. destruct (Z.eqb_spec n (ed_Number (ep_data epoch))); [by simplify_eq|].
    apply (Hpost n); [lia|done].
Qed.

(** On a store whose epochs tile the chain, GetEpochByBlockNumber terminates within
    Number + 1 iterations although its loop test on an unsigned counter is always true,
    finds an epoch exactly for the blocks of the chain, and that epoch is the one
    containing the block. *)
Theorem GetEpochByBlockNumber_correct fuel db epoch b d0 :
  epoch_chain db epoch → (Z.to_nat (ed_Number (ep_data epoch)) < fuel)%nat →
  epoch_at db epoch 0 = Some d0 →
  ∃ r, GetEpochByBlockNumber fuel db epoch b = Some r ∧
    (is_Some r ↔ ed_StartBlock d0 <= b <= ed_EndBlock (ep_data epoch)) ∧
    ∀ n d, 0 <= n <= ed_Number (ep_data epoch) → epoch_at db epoch n = Some d →
      (in_epoch d b = true ↔ ep_data <$> r = Some d).
Proof.
  intros C Hf H0. destruct (GetEpochByBlockNumber_spec fuel db epoch b C Hf) as (r & Hr & Hpost).
  exists r. split; [done|]. destruct r as [ep|].
  - destruct Hpost as (n & Hn & Hat & Hin). split.
    + split; [|by eauto]. intros _. apply in_epoch_spec in Hin as [H1 H2].
      pose proof (chain_range _ _ _ _ _ C Hn H0 Hat). lia.
    + intros m d Hm Hd. split.
      * intros Hdb. rewrite <-(chain_unique _ _ _ _ _ _ _ C Hn Hm Hat Hd Hin Hdb) in Hd.
        cbn. congruence.
      * intros [= <-]. done.
  - split.
    + split; [by intros [? ?]|]. intros Hb.
      destruct (chain_covers _ _ _ _ C H0 Hb) as (n & d & Hn & Hd & Hin).
      by rewrite (Hpost n d Hn Hd) in Hin.
    + intros n d Hn Hd. rewrite (Hpost n d Hn Hd). done.
Qed.

(** ** Entering the next epoch *)

Section enter.
Context {LAWS : EpochWireLaws}.

(** The fields of an epoch that survive a restart. *)
Definition same_data (d e : EpochData) : Prop :=
  ed_Number d = ed_Number e ∧ ed_RewardPerBlock d = ed_RewardPerBlock e ∧
  ed_StartBlock d = ed_StartBlock e ∧ ed_EndBlock d = ed_EndBlock e ∧
  ed_Status d = ed_Status e ∧ vals (ed_Validators d) = vals (ed_Validators e).

Lemma wire_same d : same_data (wire_epoch d) d.
Proof.
  unfold same_data. split_and!; [apply wire_Number|apply wire_RewardPerBlock|
    apply wire_StartBlock|apply wire_EndBlock|apply wire_Status|apply wire_Validators].
Qed.

Lemma EnterNewEpoch_spec db epoch newValidators now next :
  ep_nextEpoch epoch = Some next →
  ∃ db' e', EnterNewEpoch db epoch newValidators now = Some (db', e') ∧
    ep_data e' = ed_enter (ed_set_status (ep_data next)
      (if ed_Status (ep_data next) =? EPOCH_VOTED_NOT_SAVED then EPOCH_SAVED
       else ed_Status (ep_data next))) now newValidators ∧
    ep_nextEpoch e' = None ∧ ep_rs e' = ep_rs next ∧
    ep_validatorVoteSet e' = ep_validatorVoteSet next ∧
    (∃ p, ep_previousEpoch e' = Some p ∧ ep_data p = ed_set_end_time (ep_data epoch) now) ∧
    db' = db_set_latest (db_put (db_put db (ed_Number (ep_data epoch))
            (ed_set_end_time (ep_data epoch) now)) (ed_Number (ep_data next)) (ep_data e'))
            (ed_Number (ep_data next)).
Proof.
  intros Hn. unfold EnterNewEpoch. rewrite Hn. unfold ep_Save. cbn [ep_nextEpoch ep_set_data ep_data].
  rewrite Hn. destruct next as [dn vn rn pn nn]. cbn.
  destruct (Z.eqb_spec (ed_Status dn) EPOCH_VOTED_NOT_SAVED) as [E|E]; cbn.
  - do 2 eexists. split; [reflexivity|]. cbn. split_and!; try done; [by eexists|].
    unfold db_put, db_set_latest. cbn. by rewrite insert_insert_eq.
  - rewrite Hn. cbn. do 2 eexists. split; [reflexivity|]. cbn.
    split_and!; try done; by eexists.
Qed.

(** A restart loads the latest epoch and its predecessor. *)
Lemma InitEpoch_latest db rs doc t N d d' :
  0 <= N < 2 ^ 64 - 1 → db_latest db = Some (N + 1) →
  db_epochs db !! (N + 1) = Some d → db_epochs db !! N = Some d' →
  ∃ r p, InitEpoch db rs doc t = Ret (db, r) ∧ ep_data r = d ∧ ep_rs r = db_rs db ∧
    ep_previousEpoch r = Some p ∧ ep_data p = d'.
Proof.
  intros HN H3 H1 H2. unfold InitEpoch. rewrite H3. unfold LoadOneEpoch, loadOneEpoch.
  rewrite H1. cbn [fmap option_fmap option_map mbind outcome_bind mret outcome_ret].
  destruct (Z.ltb_spec 0 (N + 1)) as [_|]; [|lia].
  rewrite (u64_small (N + 1 - 1)) by (unfold in_u64; lia).
  replace (N + 1 - 1) with N by lia. rewrite H2. cbn [fmap option_fmap option_map].
  do 2 eexists. split; [reflexivity|]. done.
Qed.

(** C38. After EnterNewEpoch a restart with InitEpoch loads the entered epoch with its
    number, range, reward, status and new validators, with the ended epoch as previous
    one; no other stored epoch changes. *)
Theorem EnterNewEpoch_restart db epoch newValidators now next rs doc t :
  ep_nextEpoch epoch = Some next → 0 <= ed_Number (ep_data epoch) < 2 ^ 64 - 1 →
  ed_Number (ep_data next) = ed_Number (ep_data epoch) + 1 →
  ∃ db' e' r p, EnterNewEpoch db epoch newValidators now = Some (db', e') ∧
    ed_Number (ep_data e') = ed_Number (ep_data epoch) + 1 ∧
    ed_Validators (ep_data e') = newValidators ∧ ed_StartTime (ep_data e') = now ∧
    InitEpoch db' rs doc t = Ret (db', r) ∧ same_data (ep_data r) (ep_data e') ∧
    ep_rs r = db_rs db ∧
    ep_previousEpoch r = Some p ∧ same_data (ep_data p) (ep_data epoch) ∧
    ∀ n, n ≠ ed_Number (ep_data epoch) → n ≠ ed_Number (ep_data epoch) + 1 →
      db_epochs db' !! n = db_epochs db !! n.
Proof.
  intros Hn HN Hnum.
  destruct (EnterNewEpoch_spec db epoch newValidators now next Hn)
    as (db' & e' & He & Hd & _ & _ & _ & _ & Hdb).
  set (N := ed_Number (ep_data epoch)) in *.
  assert (db_epochs db' !! (N + 1) = Some (wire_epoch (ep_data e'))) as H1.
  { subst db'. cbn. rewrite Hnum. apply lookup_insert_eq. }
  assert (db_epochs db' !! N = Some (wire_epoch (ed_set_end_time (ep_data epoch) now))) as H2.
  { subst db'. cbn. rewrite Hnum, lookup_insert_ne by lia. apply lookup_insert_eq. }
  assert (db_latest db' = Some (N + 1)) as H3 by (subst db'; cbn; by rewrite Hnum).
  destruct (InitEpoch_latest db' rs doc t N _ _ HN H3 H1 H2) as (r & p & Hi & Hr & Hrs & Hp & Hpd).
  exists db', e', r, p. rewrite Hd at 1 2 3. split_and!; try done.
  - rewrite Hr. apply wire_same.
  - rewrite Hrs. by subst db'.
  - rewrite Hpd. destruct (wire_same (ed_set_end_time (ep_data epoch) now)) as (?&?&?&?&?&?).
    unfold same_data. cbn. done.
  - intros n Hn1 Hn2. subst db'. cbn. rewrite Hnum, !lookup_insert_ne by lia. done.
Qed.

End enter.

End search.

(** ** Examples *)

(** A codec that keeps the milliseconds of the times. *)
Definition toy_wire {LIB : NeatLib} : EpochWire := {|
  wire_epoch d := mkEpochData (ed_Number d) (ed_RewardPerBlock d) (ed_StartBlock d) (ed_EndBlock d)
    (ed_StartTime d / 1000000 * 1000000) (ed_EndTime d / 1000000 * 1000000)
    (ed_BlockGenerated d) (ed_Status d) (ed_Validators d);
  wire_Bytes d := [ed_Number d];
  wire_FromBytes b := None
|}.

Lemma toy_wire_laws {LIB : NeatLib} : @EpochWireLaws LIB toy_wire.
Proof. by constructor. Qed.

(** Twenty million coins a year, 4380 epochs a year, ten years. *)
Definition ex_scheme : RewardScheme := mkRewardScheme (200000000 * 10 ^ 18) (20000000 * 10 ^ 18) 4380 10.

(** Epoch [n] has 7200 blocks of one second; epoch 0 starts on January 1, 2021. *)
Definition ex_epoch_data (n : Z) : @EpochData toy_lib :=
  mkEpochData n 0 (n * 7200 + 1) ((n + 1) * 7200)
    ((1609459200 + n * 7200) * 1000000000) ((1609459200 + (n + 1) * 7200) * 1000000000)
    0 EPOCH_SAVED ex_valSet.

Definition ex_epoch_alone (n : Z) : @Epoch toy_lib :=
  mkEpoch (ex_epoch_data n) None (Some ex_scheme) None None.

Definition ex_epoch (n : Z) : @Epoch toy_lib :=
  mkEpoch (ex_epoch_data n) None (Some ex_scheme) (Some (ex_epoch_alone (n - 1)))
    (Some (ex_epoch_alone (n + 1))).

Definition ex_db : @EpochDB toy_lib :=
  mkEpochDB {[ 0 := ex_epoch_data 0; 1 := ex_epoch_data 1; 2 := ex_epoch_data 2 ]} (Some 2) ∅
    (Some ex_scheme).



Lemma next_epoch_agreement_witness :
  ∃ mine, @ProposeNextEpoch toy_lib ex_db (ex_epoch 2) 15000 (1609474200 * 1000000000) = Ret mine ∧
    @ValidateNextEpoch toy_lib ex_db (ex_epoch 2) (Some mine) 15000 (1609474200 * 1000000000)
      = Ret true.
Proof.
  destruct (@ProposeNextEpoch toy_lib ex_db (ex_epoch 2) 15000 (1609474200 * 1000000000))
    as [mine|why] eqn:E.
  - exists mine. split; [reflexivity|].
    refine (proj1 (@next_epoch_agreement toy_lib ex_db (ex_epoch 2) 15000
      (1609474200 * 1000000000) mine _ _ E)).
    + apply (bool_decide_unpack _). vm_compute. exact I.
    + intros k. apply (bool_decide_eq_true_2 _). reflexivity.
  - exfalso. assert (is_Ret (@ProposeNextEpoch toy_lib ex_db (ex_epoch 2) 15000
      (1609474200 * 1000000000)) = true) as H by (vm_compute; reflexivity).
    rewrite E in H. discriminate H.
Defined.

Lemma ex_db_lookup n :
  db_epochs ex_db !! n = (if (n =? 0) || (n =? 1) || (n =? 2) then Some (ex_epoch_data n) else None).
Proof.
  unfold ex_db. cbn [db_epochs].
  destruct (Z.eqb_spec n 0) as [->|]; [by rewrite lookup_insert_eq|].
  rewrite lookup_insert_ne by lia.
  destruct (Z.eqb_spec n 1) as [->|]; [by rewrite lookup_insert_eq|].
  rewrite lookup_insert_ne by lia.
  destruct (Z.eqb_spec n 2) as [->|]; [by rewrite lookup_singleton_eq|].
  by rewrite lookup_singleton_ne by lia.
Qed.

Lemma ex_epoch_at n :
  0 <= n <= 2 → epoch_at ex_db (ex_epoch 2) n = Some (ex_epoch_data n).
Proof.
  intros Hn. unfold epoch_at. rewrite ex_db_lookup. cbn [ex_epoch ep_data ex_epoch_data ed_Number].
  destruct (Z.eqb_spec n 2) as [->|]; [done|].
  assert (n = 0 ∨ n = 1) as [->| ->] by lia; done.
Qed.

Lemma ex_chain : epoch_chain ex_db (ex_epoch 2).
Proof.
  constructor; cbn [ex_epoch ep_data ed_Number ex_epoch_data].
  - lia.
  - intros n Hn. exists (ex_epoch_data n). split; [by apply ex_epoch_at|]. cbn. lia.
  - intros n d e Hn Hd He. rewrite ex_epoch_at in Hd by lia. rewrite ex_epoch_at in He by lia.
    injection Hd as <-. injection He as <-. cbn. lia.
  - by rewrite ex_db_lookup.
Qed.

(** Block 7201 is the first of epoch 1; three iterations are enough. *)
Lemma GetEpochByBlockNumber_correct_witness :
  ∃ r, @GetEpochByBlockNumber toy_lib 3 ex_db (ex_epoch 2) 7201 = Some r ∧
    ep_data <$> r = Some (ex_epoch_data 1).
Proof.
  destruct (@GetEpochByBlockNumber_correct toy_lib 3 ex_db (ex_epoch 2) 7201 (ex_epoch_data 0)
    ex_chain) as (r & H1 & _ & H3).
  - cbn. lia.
  - apply ex_epoch_at. lia.
  - exists r. split; [exact H1|]. apply (H3 1 (ex_epoch_data 1)).
    + cbn. lia.
    + apply ex_epoch_at. lia.
    + reflexivity.
Defined.

Lemma EnterNewEpoch_restart_witness :
  ∃ db' e', @EnterNewEpoch toy_lib toy_wire ex_db (ex_epoch 2) ex_valSet 5 = Some (db', e') ∧
    ed_Number (ep_data e') = 3.
Proof.
  destruct (@EnterNewEpoch_restart toy_lib toy_wire toy_wire_laws ex_db (ex_epoch 2) ex_valSet 5
    (ex_epoch_alone 3) ex_scheme (mkOneEpochDoc 0 0 0 0 0 []) 0) as (db' & e' & r & p & H1 & H2 & _).
  - reflexivity.
  - cbn. lia.
  - reflexivity.
  - exists db', e'. split; [exact H1|exact H2].
Defined.
