(* ===== verification/Block.v ===== *)
(** * Consensus blocks and the state of the chain (types/block.go, types/neatpos.go,
    state/state.go, state/execution.go)

    A consensus block wraps a chain block with the data of the consensus engine, the
    extra data.  The file models its construction, basic validation and hash, the
    state that the round machine works on, the validation of a block against the
    commit it carries, and the hooks that follow an inserted block.  The codecs and
    hashes of third-party packages, and the RLP codec of the wrapped chain block, are
    the parameters of [BlockLib]. *)

From Stdlib Require Import ZArith Lia.
From stdpp Require Import base tactics strings numbers gmap sorting list.
From S2P Require Import Prelude Types ValidatorSet PartSet EpochVotes Epoch.

Local Open Scope Z_scope.

(** ** Data *)

(** What the engine reads of a transaction: [To()] and [Data()]. *)
Record Tx := mkTx {
  tx_To : option bytes;
  tx_Data : bytes
}.

(** What the engine reads of a chain block; [eb_Rest] stands for the other fields. *)
Record EthBlock := mkEthBlock {
  eb_Number : Z;
  eb_Txs : list Tx;
  eb_Rest : bytes
}.

Definition NumberU64 (b : EthBlock) : Z := u64 (eb_Number b).

Section block_data.
Context {LIB : NeatLib}.

Record NeatconExtra := mkNeatconExtra {
  nce_ChainID : string;
  nce_Height : Z;
  nce_Time : Z;
  nce_NeedToSave : bool;
  nce_NeedToBroadcast : bool;
  nce_EpochNumber : Z;
  nce_SeenCommitHash : bytes;
  nce_ValidatorsHash : bytes;
  nce_SeenCommit : option Commit;
  nce_EpochBytes : bytes
}.

(** [NeatconExtra{}] *)
Definition nce_zero : NeatconExtra :=
  mkNeatconExtra "" 0 zero_time false false 0 [] [] None [].

(** The map that [NeatconExtra.Hash] hands to [merkle.SimpleHashFromMap]. *)
Record NceDigest := mkNceDigest {
  dg_ChainID : string;
  dg_Height : Z;
  dg_Time : Z;
  dg_NeedToSave : bool;
  dg_NeedToBroadcast : bool;
  dg_EpochNumber : Z;
  dg_Validators : bytes;
  dg_EpochBytes : bytes
}.

Class BlockLib := {
  TX3ProofData : Type;
  (** the state, receipts and pending operations of an executed block *)
  ExecResult : Type;
  SimpleHashFromMap : NceDigest → bytes;
  (** [merkle.SimpleHashFromBinary] of a commit *)
  Commit_Hash : Commit → bytes;
  (** [merkle.SimpleHashFromHashables] of the validators *)
  SimpleHashFromValidators : list Validator → bytes;
  (** wire-go around the RLP of the chain block; [None] is an error *)
  wire_Block : EthBlock → option NeatconExtra → list TX3ProofData → bytes;
  wire_ReadBlock : bytes → option (EthBlock * option NeatconExtra * list TX3ProofData);
  wire_ReadExtra : bytes → option NeatconExtra
}.

Context {BLIB : BlockLib} {MLIB : MerkleLib}.

Record TdmBlock := mkTdmBlock {
  tb_Block : EthBlock;
  tb_NcExtra : option NeatconExtra;
  tb_TX3ProofData : list TX3ProofData;
  tb_IntermediateResult : option ExecResult
}.

(** [b.NcExtra.f] *)
Definition tb_extra (b : TdmBlock) : outcome NeatconExtra :=
  match tb_NcExtra b with
  | None => Panic "nil pointer dereference"
  | Some te => mret te
  end.

(** ** Operations *)

Definition nce_Hash (te : NeatconExtra) : bytes :=
  if bool_decide (nce_ValidatorsHash te = []) then []
  else SimpleHashFromMap
    (mkNceDigest (nce_ChainID te) (nce_Height te) (nce_Time te) (nce_NeedToSave te)
       (nce_NeedToBroadcast te) (nce_EpochNumber te) (nce_ValidatorsHash te)
       (nce_EpochBytes te)).

(** An empty extra field is the zero value; [None] is an error. *)
Definition ExtractNeatconExtra (extra : bytes) : option NeatconExtra :=
  if bool_decide (extra = []) then Some nce_zero else wire_ReadExtra extra.

Definition vs_Hash (valSet : ValidatorSet) : bytes :=
  match vals valSet with
  | [] => []
  | vs => SimpleHashFromValidators vs
  end.

Definition tb_ToBytes (b : TdmBlock) : bytes :=
  wire_Block (tb_Block b) (tb_NcExtra b) (tb_TX3ProofData b).

Definition tb_FromBytes (data : bytes) : option TdmBlock :=
  (λ '(block, ncExtra, tx3), mkTdmBlock block ncExtra tx3 None) <$> wire_ReadBlock data.

Definition tb_MakePartSet (b : TdmBlock) (partSize : Z) : outcome PartSet :=
  NewPartSetFromData (tb_ToBytes b) partSize.

Definition MakeBlock (height : Z) (chainID : string) (commit : option Commit) (block : EthBlock)
    (valHash : bytes) (epochNumber : Z) (epochBytes : bytes) (tx3ProofData : list TX3ProofData)
    (partSize now : Z) : outcome (TdmBlock * PartSet) :=
  let ncExtra := mkNeatconExtra chainID height now false false epochNumber [] valHash commit
                   epochBytes in
  let tdmBlock := mkTdmBlock block (Some ncExtra) tx3ProofData None in
  parts ← tb_MakePartSet tdmBlock partSize;
  mret (tdmBlock, parts).

(** [true] stands for the nil error. *)
Definition ValidateBasic (b : TdmBlock) (ncExtra : NeatconExtra) : outcome bool :=
  te ← tb_extra b;
  if negb (bool_decide (nce_ChainID te = nce_ChainID ncExtra)) then mret false
  else mret (nce_Height te =? u64 (nce_Height ncExtra + 1)).

(** [Hash] on a pointer.  Its side effect fills [SeenCommitHash], a cache that the hash
    does not read and that [finalizeCommit] overwrites. *)
Definition tb_Hash (b : option TdmBlock) : outcome bytes :=
  match b with
  | None => mret []
  | Some b =>
      te ← tb_extra b;
      match nce_SeenCommit te with
      | None => mret []
      | Some _ => mret (nce_Hash te)
      end
  end.

Definition tb_HashesTo (b : option TdmBlock) (hash : bytes) : outcome bool :=
  if bool_decide (hash = []) then mret false
  else match b with
       | None => mret false
       | Some _ => h ← tb_Hash b; mret (bytes_Equal h hash)
       end.

(** ** The state of the chain *)

Context {WIRE : EpochWire}.

Record SmState := mkSmState {
  sm_NcExtra : option NeatconExtra;
  sm_Epoch : option Epoch
}.

(** The validators of the last block and of the next one; [None] with an error. *)
Definition GetValidators (s : SmState) : outcome (option (ValidatorSet * ValidatorSet)) :=
  match sm_Epoch s with
  | None => mret None
  | Some epoch =>
      match sm_NcExtra s with
      | None => Panic "nil pointer dereference"
      | Some te =>
          let d := ep_data epoch in
          if nce_EpochNumber te =? ed_Number d
          then mret (Some (ed_Validators d, ed_Validators d))
          else if nce_EpochNumber te =? u64 (ed_Number d - 1)
          then match ep_previousEpoch epoch with
               | None => Panic "nil pointer dereference"
               | Some prev => mret (Some (ed_Validators (ep_data prev), ed_Validators d))
               end
          else mret None
      end
  end.

Definition MakeGenesisState (chainID : string) (now : Z) : SmState :=
  mkSmState (Some (mkNeatconExtra chainID 0 now false false 0 [] [] None [])) None.

Inductive BlockErr := ErrBasic | ErrNoEpoch | ErrCommit (e : CommitErr).

(** [None] is the nil error; the outer [None] is out of fuel in the epoch search.  The validators
    of an epoch are a set, never nil. *)
Definition validateBlock (fuel : nat) (db : EpochDB) (s : SmState) (block : TdmBlock)
    : outcome (option (option BlockErr)) :=
  match sm_NcExtra s with
  | None => Panic "nil pointer dereference"
  | Some last =>
      ok ← ValidateBasic block last;
      if negb ok then mret (Some (Some ErrBasic))
      else
        match sm_Epoch s with
        | None => Panic "nil pointer dereference"
        | Some ep =>
            te ← tb_extra block;
            match GetEpochByBlockNumber fuel db ep (nce_Height te) with
            | None => mret None
            | Some None => mret (Some (Some ErrNoEpoch))
            | Some (Some epoch) =>
                err ← VerifyCommit (ed_Validators (ep_data epoch)) (nce_ChainID te)
                        (nce_Height te) (nce_SeenCommit te);
                mret (Some (ErrCommit <$> err))
            end
        end
  end.

(** ** Hooks of an inserted block *)

Definition ep_set_validators (e : Epoch) (vs : ValidatorSet) : Epoch :=
  let d := ep_data e in
  ep_set_data e (mkEpochData (ed_Number d) (ed_RewardPerBlock d) (ed_StartBlock d) (ed_EndBlock d)
    (ed_StartTime d) (ed_EndTime d) (ed_BlockGenerated d) (ed_Status d) vs).

Definition ep_set_status (e : Epoch) (status : Z) : Epoch :=
  ep_set_data e (ed_set_status (ep_data e) status).

Definition ep_set_start_time (e : Epoch) (t : Z) : Epoch :=
  let d := ep_data e in
  ep_set_data e (mkEpochData (ed_Number d) (ed_RewardPerBlock d) (ed_StartBlock d) (ed_EndBlock d)
    t (ed_EndTime d) (ed_BlockGenerated d) (ed_Status d) (ed_Validators d)).

Definition ep_set_previous (e : Epoch) (prev : option Epoch) : Epoch :=
  mkEpoch (ep_data e) (ep_validatorVoteSet e) (ep_rs e) prev (ep_nextEpoch e).

(** [number] and [extra] of the header of the block. *)
Definition updateLocalEpoch (db : EpochDB) (currentEpoch : Epoch) (number : Z) (extra : bytes)
    : outcome (EpochDB * Epoch) :=
  if number =? 0 then mret (db, currentEpoch)
  else
    match ExtractNeatconExtra extra with
    | None => Panic "nil pointer dereference"
    | Some ncExtra =>
        let d := ep_data currentEpoch in
        match ep_FromBytes (nce_EpochBytes ncExtra) with
        | None => mret (db, currentEpoch)
        | Some epochInBlock =>
            if ed_Number (ep_data epochInBlock) =? u64 (ed_Number d + 1) then
              currentEpoch ←
                (if (number =? u64 (ed_StartBlock d + 1)) || (number =? 2) then
                   mret (SetNextEpoch currentEpoch
                     (Some (SetRewardScheme (ep_set_status epochInBlock EPOCH_VOTED_NOT_SAVED)
                              (ep_rs currentEpoch))))
                 else if number =? ed_EndBlock d then
                   match GetNextEpoch db currentEpoch with
                   | (_, None) => Panic "nil pointer dereference"
                   | (currentEpoch, Some nextEp) =>
                       mret (ep_set_next currentEpoch
                         (Some (ep_set_status
                            (ep_set_validators nextEp (ed_Validators (ep_data epochInBlock)))
                            EPOCH_VOTED_NOT_SAVED)))
                   end
                 else mret currentEpoch);
              mret (ep_Save db currentEpoch)
            else if ed_Number (ep_data epochInBlock) =? ed_Number d then
              let start := ed_StartTime (ep_data epochInBlock) in
              let '(db, currentEpoch) := ep_Save db (ep_set_start_time currentEpoch start) in
              if 0 <? ed_Number d then
                match ep_previousEpoch currentEpoch with
                | None => Panic "nil pointer dereference"
                | Some prev =>
                    mret (UpdateEpochEndTime db (u64 (ed_Number d - 1)) start,
                          ep_set_previous currentEpoch
                            (Some (ep_set_data prev (ed_set_end_time (ep_data prev) start))))
                end
              else mret (db, currentEpoch)
            else mret (db, currentEpoch)
        end
    end.

(** [GetEpochValidatorVoteSet] loads the votes on demand. *)
Definition GetEpochValidatorVoteSet (db : EpochDB) (e : Epoch)
    : Epoch * option EpochValidatorVoteSet :=
  match ep_validatorVoteSet e with
  | Some votes => (e, Some votes)
  | None =>
      let votes := LoadEpochVoteSet db (ed_Number (ep_data e)) in
      (mkEpoch (ep_data e) votes (ep_rs e) (ep_previousEpoch e) (ep_nextEpoch e), votes)
  end.

(** The epoch with the new validators of the next one, and whether mining is started. *)
Definition autoStartMining {SORT : GoSort} (db : EpochDB) (currentEpoch : Epoch) (number : Z)
    (state : PowerView) (self : bytes) (started : bool) : outcome (Epoch * bool) :=
  let d := ep_data currentEpoch in
  if number =? u64 (ed_EndBlock d - 1) then
    match GetNextEpoch db currentEpoch with
    | (_, None) => Panic "nil pointer dereference"
    | (currentEpoch, Some nextEp) =>
        let '(nextEp, votes) := GetEpochValidatorVoteSet db nextEp in
        match DryRunUpdateEpochValidatorSet state (ed_Validators d) votes with
        | inr _ => Panic "can not update the validator set base on the vote"
        | inl nextValidators =>
            mret (ep_set_next currentEpoch (Some (ep_set_validators nextEp nextValidators)),
                  HasAddress nextValidators self && negb started)
        end
    end
  else mret (currentEpoch, false).

End block_data.

(** ** Properties *)

Section block_props.
Context {LIB : NeatLib} {LAWS : NeatLibLaws} {BLIB : BlockLib} {WIRE : EpochWire}.

(** The hash that the validators vote on covers the extra data only: two blocks with
    the same extra data and different transactions have the same hash. *)
Lemma block_hash_ignores_body b1 b2 te tx1 tx2 r1 r2 :
  tb_Hash (Some (mkTdmBlock b1 te tx1 r1)) = tb_Hash (Some (mkTdmBlock b2 te tx2 r2)).
Proof. reflexivity. Qed.

Lemma ValidateBasic_true b ncExtra :
  ValidateBasic b ncExtra = Ret true ↔
  ∃ te, tb_NcExtra b = Some te ∧ nce_ChainID te = nce_ChainID ncExtra ∧
    nce_Height te = u64 (nce_Height ncExtra + 1).
Proof.
  unfold ValidateBasic, tb_extra. destruct (tb_NcExtra b) as [te|]; cbn.
  - case_bool_decide as H; cbn.
    + split.
      * intros [= E%Z.eqb_eq]. by exists te.
      * intros (? & [= <-] & _ & ->). by rewrite Z.eqb_refl.
    + split; [done|]. by intros (? & [= <-] & ? & _).
  - split; [done|]. by intros (? & ? & _).
Qed.

(** C34. validateBlock accepts a block exactly when it has the chain id of the last
    block, the next height, and a seen commit that VerifyCommit accepts for the
    validators of the epoch that contains the height. *)
Theorem validateBlock_accepts_iff fuel db last ep te b tx3 res :
  epoch_chain db ep → (Z.to_nat (ed_Number (ep_data ep)) < fuel)%nat →
  validateBlock fuel db (mkSmState (Some last) (Some ep)) (mkTdmBlock b (Some te) tx3 res)
    = Ret (Some None) ↔
  nce_ChainID te = nce_ChainID last ∧ nce_Height te = u64 (nce_Height last + 1) ∧
  ∃ n d, 0 <= n <= ed_Number (ep_data ep) ∧ epoch_at db ep n = Some d ∧
    in_epoch d (nce_Height te) = true ∧
    VerifyCommit (ed_Validators d) (nce_ChainID te) (nce_Height te) (nce_SeenCommit te)
      = Ret None.
Proof.
  intros C Hf. unfold validateBlock. cbn [sm_NcExtra sm_Epoch].
  pose proof (ValidateBasic_true (mkTdmBlock b (Some te) tx3 res) last) as HV.
  destruct (ValidateBasic _ last) as [[]|why] eqn:E; cbn [mbind outcome_bind negb].
  - destruct (proj1 HV eq_refl) as (x & [= <-] & Hc & Hh). clear HV.
    cbn [tb_extra tb_NcExtra mret outcome_ret mbind outcome_bind].
    destruct (GetEpochByBlockNumber_spec fuel db ep (nce_Height te) C Hf) as (r & -> & Hr).
    destruct r as [e|].
    + destruct Hr as (n & Hn & Hat & Hin).
      destruct (VerifyCommit _ _ _ _) as [err|why] eqn:Hvc; cbn.
      * split.
        -- intros H. split_and!; [done|done|]. exists n, (ep_data e). destruct err; [done|].
           split_and!; try done; lia.
        -- intros (_ & _ & m & d & Hm & Hd & Hdin & Hv).
           rewrite <-(chain_unique _ _ _ _ _ _ _ C Hn Hm Hat Hd Hin Hdin) in Hd.
           rewrite Hat in Hd. injection Hd as <-. rewrite Hvc in Hv. by injection Hv as ->.
      * split; [done|]. intros (_ & _ & m & d & Hm & Hd & Hdin & Hv).
        rewrite <-(chain_unique _ _ _ _ _ _ _ C Hn Hm Hat Hd Hin Hdin) in Hd.
        rewrite Hat in Hd. injection Hd as <-. by rewrite Hvc in Hv.
    + split; [done|]. intros (_ & _ & m & d & Hm & Hd & Hdin & _).
      by rewrite (Hr m d Hm Hd) in Hdin.
  - split; [done|]. intros (Hc & Hh & _).
    assert (Ret false = Ret true) as [=]. apply HV. by exists te.
  - cbn in E. destruct (bool_decide _) in E; done.
Qed.

End block_props.

(** ** Examples *)

Definition toy_commit : @Commit toy_lib := mkCommit (LIB := toy_lib) bid_zero 0 0 None [].

(** A codec that keeps the number of the block, the height and the epoch. *)
Definition toy_block : @BlockLib toy_lib := {|
  TX3ProofData := Z;
  ExecResult := Z;
  SimpleHashFromMap d := [dg_Height d; dg_EpochNumber d; dg_Time d];
  Commit_Hash c := [commit_Height c];
  SimpleHashFromValidators vs := concat (v_Address <$> vs);
  wire_Block b te _ :=
    eb_Number b :: match te with Some te => [nce_Height te; nce_EpochNumber te] | None => [] end;
  wire_ReadBlock data :=
    match data with
    | [n; h; e] => Some (mkEthBlock n [] [],
        Some (mkNeatconExtra "neatio" h 0 false false e [] [1] (Some toy_commit) []), [])
    | _ => None
    end;
  wire_ReadExtra _ := None
|}.

(** The block of height 5 with its commit, after the block of height 4. *)
Definition ex_extra (height : Z) (commit : option (@Commit toy_lib)) : @NeatconExtra toy_lib :=
  mkNeatconExtra (LIB := toy_lib) "neatio" height 0 false false 0 [] [1] commit [].

Lemma validateBlock_accepts_iff_witness :
  @validateBlock toy_lib toy_block 3 ex_db
    (mkSmState (Some (ex_extra 4 None)) (Some (ex_epoch 2)))
    (@mkTdmBlock toy_lib toy_block (mkEthBlock 5 [] [])
       (Some (ex_extra 5 (Some (ex_commit [false; false; true; true])))) [] None)
  = Ret (Some None).
Proof.
  apply (@validateBlock_accepts_iff toy_lib toy_block).
  - exact ex_chain.
  - cbn. lia.
  - split; [reflexivity|]. split; [reflexivity|]. exists 0, (ex_epoch_data 0).
    split; [cbn; lia|]. split; [apply ex_epoch_at; lia|]. split; [reflexivity|].
    vm_compute. reflexivity.
Defined.
