(* ===== verification/Proposer.v ===== *)
(** * Proposer selection (consensus/state.go)

    The proposer of round 0 of a height is drawn from the hash of the last header,
    with a probability proportional to the voting power; the later rounds go through
    the validators in order.  SHA-256 is a parameter: what is proved holds for every
    hash function. *)

From Stdlib Require Import ZArith Lia.
From stdpp Require Import base tactics strings numbers gmap sorting list.
From S2P Require Import Prelude Types ValidatorSet PartSet EpochVotes Epoch Block.

Local Open Scope Z_scope.

(** ** The chain as the engine reads it *)

Record Header := mkHeader {
  h_Number : Z;
  h_Time : Z;
  h_Hash : bytes;
  h_Extra : bytes
}.

(** [ChainReader]; a block is read through its header. *)
Record ChainReader := mkChainReader {
  cr_CurrentHeader : Header;
  cr_CurrentBlock : Header;
  cr_GetHeaderByNumber : Z → option Header;
  cr_GetBlockByNumber : Z → option Header;
  cr_GetHeader : bytes → Z → option Header
}.

Class VrfLib := {
  sha256 : bytes → bytes
}.

(** [new(big.Int).SetBytes] *)
Definition big_of_bytes (b : bytes) : Z := foldl (λ acc x, acc * 256 + x) 0 b.

Section proposer.
Context {LIB : NeatLib} {VLIB : VrfLib}.

Record VRFProposer := mkVRFProposer {
  vp_Height : Z;
  vp_Round : Z;
  vp_valIndex : Z;
  vp_Proposer : Validator
}.

(** The loop of [proposerByVRF] from validator [i] on. *)
Fixpoint vrf_pick (n : Z) (validators : list Validator) (i : Z) : Z :=
  match validators with
  | [] => -1
  | v :: rest =>
      let n := n - v_VotingPower v in
      if n <? 0 then i else vrf_pick n rest (i + 1)
  end.

(** [n.Mod] is the Euclidean modulus; it panics on zero. *)
Definition proposerByVRF (headerHash : bytes) (validators : list Validator) : outcome Z :=
  let vrfBytes := replicate 8 0 ++ headerHash in
  let hash := big_of_bytes (sha256 vrfBytes) in
  let n := foldl (λ n v, n + v_VotingPower v) 0 validators in
  if n =? 0 then Panic "division by zero"
  else mret (vrf_pick (hash mod Z.abs n) validators 0).

(** The proposers that the last two headers draw; -1 when there is none. *)
Definition proposersByVRF (chain : ChainReader) (epochStart : Z) (validators : list Validator)
    : outcome (Z * Z) :=
  let header := cr_CurrentHeader chain in
  curProposer ← proposerByVRF (h_Hash header) validators;
  let headerHeight := u64 (h_Number header) in
  if headerHeight =? epochStart then mret (-1, curProposer)
  else if 0 <? headerHeight then
    match cr_GetHeaderByNumber chain (headerHeight - 1) with
    | None => Panic "nil pointer dereference"
    | Some lastHeader =>
        lastProposer ← proposerByVRF (h_Hash lastHeader) validators;
        mret (lastProposer, curProposer)
    end
  else mret (-1, -1).

(** Whether the last height went on without the vote of validator [i]. *)
Definition missed_last (ncExtra : option NeatconExtra) (i : Z) : bool :=
  match ncExtra with
  | None => false
  | Some te =>
      match nce_SeenCommit te with
      | None => false
      | Some commit =>
          negb (ba_isNil (commit_BitArray commit)) &&
          negb (ba_GetIndex (commit_BitArray commit) (u64 i))
      end
  end.

(** Go's [%] on [int]. *)
Definition go_rem (a b : Z) : outcome Z :=
  if b =? 0 then Panic "integer divide by zero" else mret (Z.rem a b).

(** The proposer of [round], and the new [vrfValIndex]. *)
Definition proposerByRound (chain : ChainReader) (epochStart height : Z) (validators : ValidatorSet)
    (ncExtra : option NeatconExtra) (vrfValIndex round : Z) : outcome (VRFProposer * Z) :=
  r ← (if round =? 0 then
         if 0 <=? vrfValIndex then mret (vrfValIndex, vrfValIndex)
         else
           ps ← proposersByVRF chain epochStart (vals validators);
           let '(lastProposer, curProposer) := ps in
           idx ← (if (0 <=? lastProposer) && (curProposer =? lastProposer) &&
                     missed_last ncExtra curProposer
                  then go_rem (i64 (curProposer + 1)) (vs_Size validators)
                  else mret curProposer);
           mret (idx, idx)
       else if vrfValIndex <? 0 then Panic "cs.vrfValIndex should not be -1"
       else
         idx ← go_rem (i64 (vrfValIndex + round)) (vs_Size validators);
         mret (idx, vrfValIndex));
  let '(idx, vrfValIndex) := r in
  if (vs_Size validators <=? idx) || (idx <? 0)
  then Panic "The index of proposer out of range"
  else
    v ← slice_get (vals validators) idx;
    mret (mkVRFProposer height round idx v, vrfValIndex).

End proposer.

(** ** The draw is proportional to the voting power *)

Section draw.
Context {LIB : NeatLib} {VLIB : VrfLib}.

(** The power of the first [i] validators. *)
Definition prefix_power (l : list Validator) (i : nat) : Z := sumZ (take i (v_VotingPower <$> l)).

Lemma prefix_power_cons v l i :
  prefix_power (v :: l) (S i) = v_VotingPower v + prefix_power l i.
Proof. reflexivity. Qed.

Lemma prefix_power_nonneg l i :
  Forall (λ v, 0 <= v_VotingPower v) l → 0 <= prefix_power l i.
Proof.
  intros H. revert i. induction H as [|v l Hv Hl IH]; intros [|i]; try done.
  rewrite prefix_power_cons. specialize (IH i). lia.
Qed.

Lemma vrf_pick_ge l n k : vrf_pick n l k = -1 ∨ k <= vrf_pick n l k.
Proof.
  revert n k. induction l as [|v l IH]; intros n k; cbn; [by left|].
  destruct (Z.ltb_spec (n - v_VotingPower v) 0); [right; lia|].
  destruct (IH (n - v_VotingPower v) (k + 1)); [by left|right; lia].
Qed.

Lemma vrf_pick_spec l n k i :
  Forall (λ v, 0 <= v_VotingPower v) l → 0 <= n → 0 <= k →
  vrf_pick n l k = k + Z.of_nat i ↔
  ∃ v, l !! i = Some v ∧ prefix_power l i <= n < prefix_power l i + v_VotingPower v.
Proof.
  revert n k i. induction l as [|v l IH]; intros n k i Hp Hn Hk; cbn [vrf_pick].
  - split; [lia|]. by intros (? & ? & ?).
  - apply Forall_cons in Hp as [Hv Hp].
    destruct (Z.ltb_spec (n - v_VotingPower v) 0) as [Hlt|Hge].
    + split.
      * intros E. assert (i = O) as -> by lia. exists v. split; [done|].
        change (prefix_power (v :: l) 0) with 0. lia.
      * intros (w & Hw & Hr). destruct i as [|i]; [lia|]. cbn in Hw.
        rewrite prefix_power_cons in Hr.
        pose proof (prefix_power_nonneg l i Hp). lia.
    + destruct i as [|i].
      * split.
        -- intros E. destruct (vrf_pick_ge l (n - v_VotingPower v) (k + 1)); lia.
        -- intros (w & Hw & Hr). injection Hw as <-.
           change (prefix_power (v :: l) 0) with 0 in Hr. lia.
      * replace (k + Z.of_nat (S i)) with ((k + 1) + Z.of_nat i) by lia.
        rewrite IH by (done || lia). cbn [lookup list_lookup]. rewrite prefix_power_cons.
        split; intros (w & Hw & Hr); exists w; (split; [done|]); lia.
Qed.

(** A draw below the total power picks a validator. *)
Lemma vrf_pick_total l n k :
  0 <= n < sumZ (v_VotingPower <$> l) → 0 <= k → ∃ i, vrf_pick n l k = k + Z.of_nat i.
Proof.
  revert n k. induction l as [|v l IH]; intros n k Hn Hk; cbn in Hn |- *; [lia|].
  destruct (Z.ltb_spec (n - v_VotingPower v) 0) as [Hlt|Hge]; [exists O; lia|].
  destruct (IH (n - v_VotingPower v) (k + 1)) as [i Hi]; [unfold sumZ in *; lia|lia|].
  exists (S i). lia.
Qed.

Lemma foldl_power l a :
  foldl (λ n v, n + v_VotingPower v) a l = a + sumZ (v_VotingPower <$> l).
Proof.
  revert a. induction l as [|v l IH]; intros a; cbn; [lia|]. rewrite IH. unfold sumZ. lia.
Qed.

(** The number that the header hash draws below the total power. *)
Definition draw (valSet : ValidatorSet) (headerHash : bytes) : Z :=
  big_of_bytes (sha256 (replicate 8 0 ++ headerHash)) mod total_power valSet.

Lemma proposerByVRF_spec valSet headerHash :
  powers_nonneg valSet → 0 < total_power valSet →
  ∃ i, proposerByVRF headerHash (vals valSet) = Ret (Z.of_nat i) ∧
    ∀ j, i = j ↔ ∃ w, vals valSet !! j = Some w ∧
      prefix_power (vals valSet) j <= draw valSet headerHash <
        prefix_power (vals valSet) j + v_VotingPower w.
Proof.
  intros Hp Ht. unfold proposerByVRF. rewrite foldl_power, Z.add_0_l.
  change (sumZ (v_VotingPower <$> vals valSet)) with (total_power valSet).
  destruct (Z.eqb_spec (total_power valSet) 0); [lia|]. rewrite Z.abs_eq by lia.
  fold (draw valSet headerHash).
  assert (0 <= draw valSet headerHash < total_power valSet) as Hd by (apply Z.mod_pos_bound; lia).
  destruct (vrf_pick_total (vals valSet) (draw valSet headerHash) 0 Hd) as [i Hi]; [lia|].
  exists i. rewrite Hi, Z.add_0_l. split; [done|]. intros j.
  rewrite <-(vrf_pick_spec _ _ 0 j); [|exact (proj1 (Forall_fmap _ _ _) Hp)|lia|lia].
  rewrite Hi. lia.
Qed.

(** C35. proposerByVRF returns the one validator whose slice of the cumulative power
    contains the draw of the header hash, so each validator is chosen by as many draws
    as it has power and one without power never is. *)
Theorem proposerByVRF_weighted valSet headerHash :
  powers_nonneg valSet → 0 < total_power valSet →
  ∃ i v, proposerByVRF headerHash (vals valSet) = Ret (Z.of_nat i) ∧
    vals valSet !! i = Some v ∧ 0 < v_VotingPower v ∧
    ∀ j w, vals valSet !! j = Some w →
      (i = j ↔ prefix_power (vals valSet) j <= draw valSet headerHash <
                 prefix_power (vals valSet) j + v_VotingPower w).
Proof.
  intros Hp Ht. destruct (proposerByVRF_spec valSet headerHash Hp Ht) as (i & Hi & Hj).
  destruct (proj1 (Hj i) eq_refl) as (v & Hv & Hr). exists i, v.
  split_and!; [done|done|lia|]. intros j w Hw. rewrite Hj. split.
  - intros (w' & Hw' & ?). by simplify_eq.
  - intros ?. by exists w.
Qed.

Lemma proposerByRound_later chain epochStart height valSet ncExtra vrf round :
  0 <= vrf < vs_Size valSet → vs_Size valSet < 2 ^ 62 → 0 < round < 2 ^ 62 →
  ∃ v, vals valSet !! Z.to_nat ((vrf + round) mod vs_Size valSet) = Some v ∧
    proposerByRound chain epochStart height valSet ncExtra vrf round =
      Ret (mkVRFProposer height round ((vrf + round) mod vs_Size valSet) v, vrf).
Proof.
  intros Hv Hs Hr. set (n := vs_Size valSet) in *.
  pose proof (Z.mod_pos_bound (vrf + round) n ltac:(lia)) as Hm.
  destruct (lookup_lt_is_Some_2 (vals valSet) (Z.to_nat ((vrf + round) mod n))) as [v Hl].
  { unfold n, vs_Size in *. lia. }
  exists v. split; [done|]. unfold proposerByRound, go_rem.
  destruct (Z.eqb_spec round 0); [lia|]. destruct (Z.ltb_spec vrf 0); [lia|]. fold n.
  destruct (Z.eqb_spec n 0); [lia|]. rewrite i64_small by (unfold in_i64; lia).
  rewrite Z.rem_mod_nonneg by lia. cbn [mbind outcome_bind mret outcome_ret].
  destruct (Z.leb_spec n ((vrf + round) mod n)); [lia|].
  destruct (Z.ltb_spec ((vrf + round) mod n) 0); [lia|]. cbn [orb].
  by rewrite (proj2 (slice_get_Ret _ _ v)) by (split; [lia|done]).
Qed.

(** From any round after the first, each validator is the proposer of exactly one
    of the next n rounds, n being the size of the set. *)
Theorem round_robin chain epochStart height valSet ncExtra vrf round j w :
  0 <= vrf < vs_Size valSet → 0 < round → round + vs_Size valSet < 2 ^ 62 →
  vals valSet !! j = Some w →
  ∃ r, round <= r < round + vs_Size valSet ∧
    proposerByRound chain epochStart height valSet ncExtra vrf r =
      Ret (mkVRFProposer height r (Z.of_nat j) w, vrf) ∧
    ∀ r' p, round <= r' < round + vs_Size valSet → r' ≠ r →
      proposerByRound chain epochStart height valSet ncExtra vrf r' = Ret (p, vrf) →
      vp_valIndex p ≠ Z.of_nat j.
Proof.
  intros Hv Hr Hs Hj. set (n := vs_Size valSet) in *.
  assert (Z.of_nat j < n) as Hjn by (apply lookup_lt_Some in Hj; unfold n, vs_Size; lia).
  set (k := (Z.of_nat j - vrf - round) mod n).
  assert (0 <= k < n) as Hk by (apply Z.mod_pos_bound; lia).
  assert ((vrf + (round + k)) mod n = Z.of_nat j) as E.
  { unfold k. rewrite Z.add_assoc, Z.add_mod_idemp_r by lia.
    replace (vrf + round + (Z.of_nat j - vrf - round)) with (Z.of_nat j) by lia.
    apply Z.mod_small. lia. }
  exists (round + k). split; [lia|].
  destruct (proposerByRound_later chain epochStart height valSet ncExtra vrf (round + k))
    as (v & Hl & ->); [done|lia|lia|]. fold n in Hl |- *. rewrite E in Hl |- *. split.
  { rewrite Nat2Z.id in Hl. congruence. }
  intros r' p Hr' Hne Hp.
  destruct (proposerByRound_later chain epochStart height valSet ncExtra vrf r')
    as (v' & _ & Hp'); [done|lia|lia|]. fold n in Hp'. rewrite Hp' in Hp. injection Hp as <-. cbn.
  rewrite <-E. intros Hc.
  pose proof (Z.div_mod (vrf + r') n ltac:(lia)). pose proof (Z.div_mod (vrf + (round + k)) n ltac:(lia)).
  assert ((vrf + r') / n = (vrf + (round + k)) / n) by nia. lia.
Qed.

(** A proposal of a negative round makes the selection panic before its signature is
    looked at, unless the sum is a multiple of the size. *)
Lemma negative_round_panics chain epochStart height valSet ncExtra vrf round :
  - 2 ^ 62 < round < 0 → 0 <= vrf → vrf + round < 0 →
  Z.rem (vrf + round) (vs_Size valSet) ≠ 0 → 0 < vs_Size valSet →
  is_panic (proposerByRound chain epochStart height valSet ncExtra vrf round).
Proof.
  intros Hr Hv Hneg Hnz Hs. unfold proposerByRound, go_rem.
  destruct (Z.eqb_spec round 0); [lia|]. destruct (Z.ltb_spec vrf 0); [lia|].
  destruct (Z.eqb_spec (vs_Size valSet) 0); [lia|]. rewrite i64_small by (unfold in_i64; lia).
  cbn [mbind outcome_bind mret outcome_ret].
  pose proof (Z.rem_nonpos (vrf + round) (vs_Size valSet) ltac:(lia) ltac:(lia)) as Hle.
  destruct (Z.ltb_spec (Z.rem (vrf + round) (vs_Size valSet)) 0); [|lia].
  rewrite orb_true_r. by eexists.
Qed.

End draw.

(** ** Examples *)

Definition toy_vrf : VrfLib := {| sha256 b := b |}.

Lemma proposerByVRF_weighted_witness :
  ∃ i v, @proposerByVRF toy_lib toy_vrf [45] (vals ex_valSet) = Ret (Z.of_nat i) ∧
    vals ex_valSet !! i = Some v ∧ 0 < v_VotingPower v.
Proof.
  destruct (@proposerByVRF_weighted toy_lib toy_vrf ex_valSet [45]) as (i & v & H1 & H2 & H3 & _).
  - unfold powers_nonneg. repeat constructor; cbn; lia.
  - reflexivity.
  - exists i, v. split; [exact H1|]. split; [exact H2|exact H3].
Defined.

Definition ex_chain_reader : ChainReader :=
  let h := mkHeader 0 0 [45] [] in
  mkChainReader h h (λ _, Some h) (λ _, Some h) (λ _ _, Some h).

Lemma round_robin_witness :
  ∃ r, 5 <= r < 9 ∧
    @proposerByRound toy_lib toy_vrf ex_chain_reader 0 7 ex_valSet None 2 r =
      Ret (mkVRFProposer 7 r 3 (ex_val 4 40), 2).
Proof.
  destruct (@round_robin toy_lib toy_vrf ex_chain_reader 0 7 ex_valSet None 2 5 3
    (ex_val 4 40)) as (r & Hr & Hp & _).
  - change (vs_Size ex_valSet) with 4. lia.
  - lia.
  - change (vs_Size ex_valSet) with 4. lia.
  - reflexivity.
  - exists r. split; [exact Hr|exact Hp].
Defined.
