(* ===== verification/RoundState.v ===== *)
(** * The state of the round machine (consensus/state.go)

    The data that the handlers of the consensus rounds work on: the steps, timeouts and
    messages, the round state, the effects (timeouts scheduled, messages to itself,
    events, the commit handed to the backend), what the machine reads of the node
    ([Env]), and the monad of the handlers: state, effects as a trace in the state, and
    panics. *)

From Stdlib Require Import ZArith Lia.
From stdpp Require Import base tactics strings numbers gmap sorting list.
From S2P Require Import Prelude Types ValidatorSet VoteSet HeightVoteSet PartSet SignAggr.
From S2P Require Import EpochVotes Epoch Block Proposer.

Local Open Scope Z_scope.

(** ** Timeouts

    Milliseconds in, nanoseconds out.  [pow15 n] is [int(math.Pow(1.5, float64(n)))]. *)

Record TimeoutParams := mkTimeoutParams {
  WaitForMinerBlock0 : Z;
  Propose0 : Z;
  ProposeDelta : Z;
  Prevote0 : Z;
  PrevoteDelta : Z;
  Precommit0 : Z;
  PrecommitDelta : Z;
  Commit0 : Z;
  SkipTimeoutCommit : bool
}.

Definition milliseconds (ms : Z) : Z := i64 (ms * 1000000).

Definition tp_WaitForMinerBlock (tp : TimeoutParams) : Z := milliseconds (WaitForMinerBlock0 tp).

Definition tp_Propose (tp : TimeoutParams) (round : Z) : Z :=
  let round := if 5 <=? round then 4 else round in
  milliseconds (i64 (Propose0 tp + i64 (ProposeDelta tp * round))).

Definition tp_Prevote (pow15 : Z → Z) (tp : TimeoutParams) (round : Z) : Z :=
  if round <? 5 then milliseconds (i64 (Prevote0 tp + i64 (PrevoteDelta tp * round)))
  else milliseconds (i64 (Prevote0 tp + i64 (PrevoteDelta tp * pow15 (i64 (round - 1))))).

Definition tp_Precommit (pow15 : Z → Z) (tp : TimeoutParams) (round : Z) : Z :=
  if round <? 5 then milliseconds (i64 (Precommit0 tp + i64 (PrecommitDelta tp * round)))
  else milliseconds (i64 (Precommit0 tp + i64 (PrecommitDelta tp * pow15 (i64 (round - 1))))).

Definition tp_Commit (tp : TimeoutParams) (t : Z) : Z := t + milliseconds (Commit0 tp).

(** ** Steps *)

Definition RoundStepNewHeight : Z := 1.
Definition RoundStepNewRound : Z := 2.
Definition RoundStepWaitForMinerBlock : Z := 3.
Definition RoundStepPropose : Z := 4.
Definition RoundStepPrevote : Z := 5.
Definition RoundStepPrevoteWait : Z := 6.
Definition RoundStepPrecommit : Z := 7.
Definition RoundStepPrecommitWait : Z := 8.
Definition RoundStepCommit : Z := 9.

Definition ROUND_NOT_PROPOSED : Z := 0.
Definition ROUND_PROPOSED : Z := 1.

Record timeoutInfo := mkTimeoutInfo {
  ti_Duration : Z;
  ti_Height : Z;
  ti_Round : Z;
  ti_Step : Z
}.

(** The chains that are not side chains (params/config.go). *)
Definition MainnetChainId : string := "neatio".
Definition TestnetChainId : string := "testnet".

Definition isMainChain (chainID : string) : bool :=
  bool_decide (chainID = MainnetChainId) || bool_decide (chainID = TestnetChainId).

(** The functions of the chain contract that the engine tells apart (neatabi). *)
Inductive FunctionType := WithdrawFromMainChain | WithdrawFromSideChain | OtherFunction.

Definition ChainContractMagicAddr : bytes :=
  BytesToAddress (string_bytes "NEATFFFFFFFFFFFFFFFFFFFFFFFFFFFF").

Definition IsNeatChainContractAddr (addr : option bytes) : bool :=
  match addr with
  | None => false
  | Some a => bytes_Equal a ChainContractMagicAddr
  end.

Section round_state.
Context {LIB : NeatLib} {MLIB : MerkleLib} {BLIB : BlockLib} {WIRE : EpochWire}.

(** ** Messages and effects; a pointer of a message may be nil *)

Inductive ConsensusMessage :=
| ProposalMessage (proposal : option Proposal)
| BlockPartMessage (height round : Z) (part : option Part)
| Maj23SignAggrMessage (signAggr : option SignAggr)
| VoteMessage (vote : option Vote).

Inductive Event :=
| EventNewRoundStep | EventNewRound | EventTimeoutPropose | EventTimeoutWait
| EventPolka | EventUnlock | EventRelock | EventLock
| EventNewBlock (block : TdmBlock)
| EventNewBlockHeader (height : Z)
| EventVote2Proposer (vote : Vote) (proposerKey : string)
| EventSignAggr (signAggr : SignAggr).

Inductive Effect :=
| Fire (e : Event)
| ScheduleTimeout (ti : timeoutInfo)
| SendInternal (msg : ConsensusMessage)
| BackendCommit (block : TdmBlock)
| TryFixBadPreimages
| SaveBlockToMainChain (height : Z)
| BroadcastTX3ProofData (height : Z).

(** ** What the machine reads of the node *)

(** [types.PrivValidator]: the address and the signer. *)
Record PrivValidator := mkPrivValidator {
  pv_Address : bytes;
  pv_Sign : bytes → option Signature
}.

Record Env := mkEnv {
  env_NeatChainId : string;
  env_privValidator : option PrivValidator;
  env_now : Z;
  env_chain : ChainReader;
  env_timeoutParams : TimeoutParams;
  env_pow15 : Z → Z;
  env_NodeID : string;
  env_epochDB : EpochDB;
  (** the chain as [ChainValidator]: the result of executing a block, or an error *)
  env_ValidateBlock : option (EthBlock → option ExecResult);
  (** neatabi: the function of a selector, the arguments of a withdrawal *)
  env_FunctionTypeFromId : bytes → option FunctionType;
  env_UnpackWithdraw : bytes → option (string * bytes);
  (** the cross-chain helper *)
  env_GetTX3ProofData : string → bytes → option TX3ProofData;
  env_ValidateTX3ProofData : TX3ProofData → bool;
  env_ValidateTX4 : Tx → TX3ProofData → bool
}.

(** ** The round state *)

(** [RoundState] and the fields of [ConsensusState] that the handlers use; [cs_out] is
    the trace of their effects.  [cs_NcExtra] and [cs_stateEpoch] are [cs.state]. *)
Record CState := mkCState {
  cs_Height : Z;
  cs_Round : Z;
  cs_Step : Z;
  cs_StartTime : Z;
  cs_CommitTime : Z;
  cs_Validators : ValidatorSet;
  cs_Proposal : option Proposal;
  cs_ProposalBlock : option TdmBlock;
  cs_ProposalBlockParts : option PartSet;
  cs_ProposerPeerKey : string;
  cs_LockedRound : Z;
  cs_LockedBlock : option TdmBlock;
  cs_LockedBlockParts : option PartSet;
  cs_Votes : HeightVoteSet;
  cs_VoteSignAggr : HeightVoteSignAggr;
  cs_CommitRound : Z;
  cs_PrevoteMaj23SignAggr : option SignAggr;
  cs_PrecommitMaj23SignAggr : option SignAggr;
  cs_proposer : option VRFProposer;
  cs_isProposer : bool;
  cs_Epoch : Epoch;
  cs_NcExtra : NeatconExtra;
  cs_stateEpoch : Epoch;
  cs_vrfValIndex : Z;
  cs_pastRoundStates : gmap Z Z;
  cs_blockFromMiner : option EthBlock;
  cs_nSteps : Z;
  cs_out : list Effect
}.

(** Field updates. *)
Definition set_Round (v : Z) (s : CState) : CState :=
  mkCState (cs_Height s) v (cs_Step s) (cs_StartTime s) (cs_CommitTime s) (cs_Validators s)
    (cs_Proposal s) (cs_ProposalBlock s) (cs_ProposalBlockParts s) (cs_ProposerPeerKey s)
    (cs_LockedRound s) (cs_LockedBlock s) (cs_LockedBlockParts s) (cs_Votes s) (cs_VoteSignAggr s)
    (cs_CommitRound s) (cs_PrevoteMaj23SignAggr s) (cs_PrecommitMaj23SignAggr s) (cs_proposer s)
    (cs_isProposer s) (cs_Epoch s) (cs_NcExtra s) (cs_stateEpoch s) (cs_vrfValIndex s)
    (cs_pastRoundStates s) (cs_blockFromMiner s) (cs_nSteps s) (cs_out s).

Definition set_Step (v : Z) (s : CState) : CState :=
  mkCState (cs_Height s) (cs_Round s) v (cs_StartTime s) (cs_CommitTime s) (cs_Validators s)
    (cs_Proposal s) (cs_ProposalBlock s) (cs_ProposalBlockParts s) (cs_ProposerPeerKey s)
    (cs_LockedRound s) (cs_LockedBlock s) (cs_LockedBlockParts s) (cs_Votes s) (cs_VoteSignAggr s)
    (cs_CommitRound s) (cs_PrevoteMaj23SignAggr s) (cs_PrecommitMaj23SignAggr s) (cs_proposer s)
    (cs_isProposer s) (cs_Epoch s) (cs_NcExtra s) (cs_stateEpoch s) (cs_vrfValIndex s)
    (cs_pastRoundStates s) (cs_blockFromMiner s) (cs_nSteps s) (cs_out s).

Definition set_CommitTime (v : Z) (s : CState) : CState :=
  mkCState (cs_Height s) (cs_Round s) (cs_Step s) (cs_StartTime s) v (cs_Validators s)
    (cs_Proposal s) (cs_ProposalBlock s) (cs_ProposalBlockParts s) (cs_ProposerPeerKey s)
    (cs_LockedRound s) (cs_LockedBlock s) (cs_LockedBlockParts s) (cs_Votes s) (cs_VoteSignAggr s)
    (cs_CommitRound s) (cs_PrevoteMaj23SignAggr s) (cs_PrecommitMaj23SignAggr s) (cs_proposer s)
    (cs_isProposer s) (cs_Epoch s) (cs_NcExtra s) (cs_stateEpoch s) (cs_vrfValIndex s)
    (cs_pastRoundStates s) (cs_blockFromMiner s) (cs_nSteps s) (cs_out s).

Definition set_Proposal (v : option Proposal) (s : CState) : CState :=
  mkCState (cs_Height s) (cs_Round s) (cs_Step s) (cs_StartTime s) (cs_CommitTime s)
    (cs_Validators s) v (cs_ProposalBlock s) (cs_ProposalBlockParts s) (cs_ProposerPeerKey s)
    (cs_LockedRound s) (cs_LockedBlock s) (cs_LockedBlockParts s) (cs_Votes s) (cs_VoteSignAggr s)
    (cs_CommitRound s) (cs_PrevoteMaj23SignAggr s) (cs_PrecommitMaj23SignAggr s) (cs_proposer s)
    (cs_isProposer s) (cs_Epoch s) (cs_NcExtra s) (cs_stateEpoch s) (cs_vrfValIndex s)
    (cs_pastRoundStates s) (cs_blockFromMiner s) (cs_nSteps s) (cs_out s).

Definition set_ProposalBlock (v : option TdmBlock) (s : CState) : CState :=
  mkCState (cs_Height s) (cs_Round s) (cs_Step s) (cs_StartTime s) (cs_CommitTime s)
    (cs_Validators s) (cs_Proposal s) v (cs_ProposalBlockParts s) (cs_ProposerPeerKey s)
    (cs_LockedRound s) (cs_LockedBlock s) (cs_LockedBlockParts s) (cs_Votes s) (cs_VoteSignAggr s)
    (cs_CommitRound s) (cs_PrevoteMaj23SignAggr s) (cs_PrecommitMaj23SignAggr s) (cs_proposer s)
    (cs_isProposer s) (cs_Epoch s) (cs_NcExtra s) (cs_stateEpoch s) (cs_vrfValIndex s)
    (cs_pastRoundStates s) (cs_blockFromMiner s) (cs_nSteps s) (cs_out s).

Definition set_ProposalBlockParts (v : option PartSet) (s : CState) : CState :=
  mkCState (cs_Height s) (cs_Round s) (cs_Step s) (cs_StartTime s) (cs_CommitTime s)
    (cs_Validators s) (cs_Proposal s) (cs_ProposalBlock s) v (cs_ProposerPeerKey s)
    (cs_LockedRound s) (cs_LockedBlock s) (cs_LockedBlockParts s) (cs_Votes s) (cs_VoteSignAggr s)
    (cs_CommitRound s) (cs_PrevoteMaj23SignAggr s) (cs_PrecommitMaj23SignAggr s) (cs_proposer s)
    (cs_isProposer s) (cs_Epoch s) (cs_NcExtra s) (cs_stateEpoch s) (cs_vrfValIndex s)
    (cs_pastRoundStates s) (cs_blockFromMiner s) (cs_nSteps s) (cs_out s).

Definition set_ProposerPeerKey (v : string) (s : CState) : CState :=
  mkCState (cs_Height s) (cs_Round s) (cs_Step s) (cs_StartTime s) (cs_CommitTime s)
    (cs_Validators s) (cs_Proposal s) (cs_ProposalBlock s) (cs_ProposalBlockParts s) v
    (cs_LockedRound s) (cs_LockedBlock s) (cs_LockedBlockParts s) (cs_Votes s) (cs_VoteSignAggr s)
    (cs_CommitRound s) (cs_PrevoteMaj23SignAggr s) (cs_PrecommitMaj23SignAggr s) (cs_proposer s)
    (cs_isProposer s) (cs_Epoch s) (cs_NcExtra s) (cs_stateEpoch s) (cs_vrfValIndex s)
    (cs_pastRoundStates s) (cs_blockFromMiner s) (cs_nSteps s) (cs_out s).

Definition set_LockedRound (v : Z) (s : CState) : CState :=
  mkCState (cs_Height s) (cs_Round s) (cs_Step s) (cs_StartTime s) (cs_CommitTime s)
    (cs_Validators s) (cs_Proposal s) (cs_ProposalBlock s) (cs_ProposalBlockParts s)
    (cs_ProposerPeerKey s) v (cs_LockedBlock s) (cs_LockedBlockParts s) (cs_Votes s)
    (cs_VoteSignAggr s) (cs_CommitRound s) (cs_PrevoteMaj23SignAggr s)
    (cs_PrecommitMaj23SignAggr s) (cs_proposer s) (cs_isProposer s) (cs_Epoch s) (cs_NcExtra s)
    (cs_stateEpoch s) (cs_vrfValIndex s) (cs_pastRoundStates s) (cs_blockFromMiner s)
    (cs_nSteps s) (cs_out s).

Definition set_LockedBlock (v : option TdmBlock) (s : CState) : CState :=
  mkCState (cs_Height s) (cs_Round s) (cs_Step s) (cs_StartTime s) (cs_CommitTime s)
    (cs_Validators s) (cs_Proposal s) (cs_ProposalBlock s) (cs_ProposalBlockParts s)
    (cs_ProposerPeerKey s) (cs_LockedRound s) v (cs_LockedBlockParts s) (cs_Votes s)
    (cs_VoteSignAggr s) (cs_CommitRound s) (cs_PrevoteMaj23SignAggr s)
    (cs_PrecommitMaj23SignAggr s) (cs_proposer s) (cs_isProposer s) (cs_Epoch s) (cs_NcExtra s)
    (cs_stateEpoch s) (cs_vrfValIndex s) (cs_pastRoundStates s) (cs_blockFromMiner s)
    (cs_nSteps s) (cs_out s).

Definition set_LockedBlockParts (v : option PartSet) (s : CState) : CState :=
  mkCState (cs_Height s) (cs_Round s) (cs_Step s) (cs_StartTime s) (cs_CommitTime s)
    (cs_Validators s) (cs_Proposal s) (cs_ProposalBlock s) (cs_ProposalBlockParts s)
    (cs_ProposerPeerKey s) (cs_LockedRound s) (cs_LockedBlock s) v (cs_Votes s)
    (cs_VoteSignAggr s) (cs_CommitRound s) (cs_PrevoteMaj23SignAggr s)
    (cs_PrecommitMaj23SignAggr s) (cs_proposer s) (cs_isProposer s) (cs_Epoch s) (cs_NcExtra s)
    (cs_stateEpoch s) (cs_vrfValIndex s) (cs_pastRoundStates s) (cs_blockFromMiner s)
    (cs_nSteps s) (cs_out s).

Definition set_Votes (v : HeightVoteSet) (s : CState) : CState :=
  mkCState (cs_Height s) (cs_Round s) (cs_Step s) (cs_StartTime s) (cs_CommitTime s)
    (cs_Validators s) (cs_Proposal s) (cs_ProposalBlock s) (cs_ProposalBlockParts s)
    (cs_ProposerPeerKey s) (cs_LockedRound s) (cs_LockedBlock s) (cs_LockedBlockParts s) v
    (cs_VoteSignAggr s) (cs_CommitRound s) (cs_PrevoteMaj23SignAggr s)
    (cs_PrecommitMaj23SignAggr s) (cs_proposer s) (cs_isProposer s) (cs_Epoch s) (cs_NcExtra s)
    (cs_stateEpoch s) (cs_vrfValIndex s) (cs_pastRoundStates s) (cs_blockFromMiner s)
    (cs_nSteps s) (cs_out s).

Definition set_VoteSignAggr (v : HeightVoteSignAggr) (s : CState) : CState :=
  mkCState (cs_Height s) (cs_Round s) (cs_Step s) (cs_StartTime s) (cs_CommitTime s)
    (cs_Validators s) (cs_Proposal s) (cs_ProposalBlock s) (cs_ProposalBlockParts s)
    (cs_ProposerPeerKey s) (cs_LockedRound s) (cs_LockedBlock s) (cs_LockedBlockParts s)
    (cs_Votes s) v (cs_CommitRound s) (cs_PrevoteMaj23SignAggr s) (cs_PrecommitMaj23SignAggr s)
    (cs_proposer s) (cs_isProposer s) (cs_Epoch s) (cs_NcExtra s) (cs_stateEpoch s)
    (cs_vrfValIndex s) (cs_pastRoundStates s) (cs_blockFromMiner s) (cs_nSteps s) (cs_out s).

Definition set_CommitRound (v : Z) (s : CState) : CState :=
  mkCState (cs_Height s) (cs_Round s) (cs_Step s) (cs_StartTime s) (cs_CommitTime s)
    (cs_Validators s) (cs_Proposal s) (cs_ProposalBlock s) (cs_ProposalBlockParts s)
    (cs_ProposerPeerKey s) (cs_LockedRound s) (cs_LockedBlock s) (cs_LockedBlockParts s)
    (cs_Votes s) (cs_VoteSignAggr s) v (cs_PrevoteMaj23SignAggr s) (cs_PrecommitMaj23SignAggr s)
    (cs_proposer s) (cs_isProposer s) (cs_Epoch s) (cs_NcExtra s) (cs_stateEpoch s)
    (cs_vrfValIndex s) (cs_pastRoundStates s) (cs_blockFromMiner s) (cs_nSteps s) (cs_out s).

Definition set_PrevoteMaj23SignAggr (v : option SignAggr) (s : CState) : CState :=
  mkCState (cs_Height s) (cs_Round s) (cs_Step s) (cs_StartTime s) (cs_CommitTime s)
    (cs_Validators s) (cs_Proposal s) (cs_ProposalBlock s) (cs_ProposalBlockParts s)
    (cs_ProposerPeerKey s) (cs_LockedRound s) (cs_LockedBlock s) (cs_LockedBlockParts s)
    (cs_Votes s) (cs_VoteSignAggr s) (cs_CommitRound s) v (cs_PrecommitMaj23SignAggr s)
    (cs_proposer s) (cs_isProposer s) (cs_Epoch s) (cs_NcExtra s) (cs_stateEpoch s)
    (cs_vrfValIndex s) (cs_pastRoundStates s) (cs_blockFromMiner s) (cs_nSteps s) (cs_out s).

Definition set_PrecommitMaj23SignAggr (v : option SignAggr) (s : CState) : CState :=
  mkCState (cs_Height s) (cs_Round s) (cs_Step s) (cs_StartTime s) (cs_CommitTime s)
    (cs_Validators s) (cs_Proposal s) (cs_ProposalBlock s) (cs_ProposalBlockParts s)
    (cs_ProposerPeerKey s) (cs_LockedRound s) (cs_LockedBlock s) (cs_LockedBlockParts s)
    (cs_Votes s) (cs_VoteSignAggr s) (cs_CommitRound s) (cs_PrevoteMaj23SignAggr s) v
    (cs_proposer s) (cs_isProposer s) (cs_Epoch s) (cs_NcExtra s) (cs_stateEpoch s)
    (cs_vrfValIndex s) (cs_pastRoundStates s) (cs_blockFromMiner s) (cs_nSteps s) (cs_out s).

Definition set_proposer (v : option VRFProposer) (s : CState) : CState :=
  mkCState (cs_Height s) (cs_Round s) (cs_Step s) (cs_StartTime s) (cs_CommitTime s)
    (cs_Validators s) (cs_Proposal s) (cs_ProposalBlock s) (cs_ProposalBlockParts s)
    (cs_ProposerPeerKey s) (cs_LockedRound s) (cs_LockedBlock s) (cs_LockedBlockParts s)
    (cs_Votes s) (cs_VoteSignAggr s) (cs_CommitRound s) (cs_PrevoteMaj23SignAggr s)
    (cs_PrecommitMaj23SignAggr s) v (cs_isProposer s) (cs_Epoch s) (cs_NcExtra s)
    (cs_stateEpoch s) (cs_vrfValIndex s) (cs_pastRoundStates s) (cs_blockFromMiner s)
    (cs_nSteps s) (cs_out s).

Definition set_isProposer (v : bool) (s : CState) : CState :=
  mkCState (cs_Height s) (cs_Round s) (cs_Step s) (cs_StartTime s) (cs_CommitTime s)
    (cs_Validators s) (cs_Proposal s) (cs_ProposalBlock s) (cs_ProposalBlockParts s)
    (cs_ProposerPeerKey s) (cs_LockedRound s) (cs_LockedBlock s) (cs_LockedBlockParts s)
    (cs_Votes s) (cs_VoteSignAggr s) (cs_CommitRound s) (cs_PrevoteMaj23SignAggr s)
    (cs_PrecommitMaj23SignAggr s) (cs_proposer s) v (cs_Epoch s) (cs_NcExtra s) (cs_stateEpoch s)
    (cs_vrfValIndex s) (cs_pastRoundStates s) (cs_blockFromMiner s) (cs_nSteps s) (cs_out s).

Definition set_Epoch (v : Epoch) (s : CState) : CState :=
  mkCState (cs_Height s) (cs_Round s) (cs_Step s) (cs_StartTime s) (cs_CommitTime s)
    (cs_Validators s) (cs_Proposal s) (cs_ProposalBlock s) (cs_ProposalBlockParts s)
    (cs_ProposerPeerKey s) (cs_LockedRound s) (cs_LockedBlock s) (cs_LockedBlockParts s)
    (cs_Votes s) (cs_VoteSignAggr s) (cs_CommitRound s) (cs_PrevoteMaj23SignAggr s)
    (cs_PrecommitMaj23SignAggr s) (cs_proposer s) (cs_isProposer s) v (cs_NcExtra s)
    (cs_stateEpoch s) (cs_vrfValIndex s) (cs_pastRoundStates s) (cs_blockFromMiner s)
    (cs_nSteps s) (cs_out s).

Definition set_NcExtra (v : NeatconExtra) (s : CState) : CState :=
  mkCState (cs_Height s) (cs_Round s) (cs_Step s) (cs_StartTime s) (cs_CommitTime s)
    (cs_Validators s) (cs_Proposal s) (cs_ProposalBlock s) (cs_ProposalBlockParts s)
    (cs_ProposerPeerKey s) (cs_LockedRound s) (cs_LockedBlock s) (cs_LockedBlockParts s)
    (cs_Votes s) (cs_VoteSignAggr s) (cs_CommitRound s) (cs_PrevoteMaj23SignAggr s)
    (cs_PrecommitMaj23SignAggr s) (cs_proposer s) (cs_isProposer s) (cs_Epoch s) v
    (cs_stateEpoch s) (cs_vrfValIndex s) (cs_pastRoundStates s) (cs_blockFromMiner s)
    (cs_nSteps s) (cs_out s).

Definition set_vrfValIndex (v : Z) (s : CState) : CState :=
  mkCState (cs_Height s) (cs_Round s) (cs_Step s) (cs_StartTime s) (cs_CommitTime s)
    (cs_Validators s) (cs_Proposal s) (cs_ProposalBlock s) (cs_ProposalBlockParts s)
    (cs_ProposerPeerKey s) (cs_LockedRound s) (cs_LockedBlock s) (cs_LockedBlockParts s)
    (cs_Votes s) (cs_VoteSignAggr s) (cs_CommitRound s) (cs_PrevoteMaj23SignAggr s)
    (cs_PrecommitMaj23SignAggr s) (cs_proposer s) (cs_isProposer s) (cs_Epoch s) (cs_NcExtra s)
    (cs_stateEpoch s) v (cs_pastRoundStates s) (cs_blockFromMiner s) (cs_nSteps s) (cs_out s).

Definition set_pastRoundStates (v : gmap Z Z) (s : CState) : CState :=
  mkCState (cs_Height s) (cs_Round s) (cs_Step s) (cs_StartTime s) (cs_CommitTime s)
    (cs_Validators s) (cs_Proposal s) (cs_ProposalBlock s) (cs_ProposalBlockParts s)
    (cs_ProposerPeerKey s) (cs_LockedRound s) (cs_LockedBlock s) (cs_LockedBlockParts s)
    (cs_Votes s) (cs_VoteSignAggr s) (cs_CommitRound s) (cs_PrevoteMaj23SignAggr s)
    (cs_PrecommitMaj23SignAggr s) (cs_proposer s) (cs_isProposer s) (cs_Epoch s) (cs_NcExtra s)
    (cs_stateEpoch s) (cs_vrfValIndex s) v (cs_blockFromMiner s) (cs_nSteps s) (cs_out s).

Definition set_blockFromMiner (v : option EthBlock) (s : CState) : CState :=
  mkCState (cs_Height s) (cs_Round s) (cs_Step s) (cs_StartTime s) (cs_CommitTime s)
    (cs_Validators s) (cs_Proposal s) (cs_ProposalBlock s) (cs_ProposalBlockParts s)
    (cs_ProposerPeerKey s) (cs_LockedRound s) (cs_LockedBlock s) (cs_LockedBlockParts s)
    (cs_Votes s) (cs_VoteSignAggr s) (cs_CommitRound s) (cs_PrevoteMaj23SignAggr s)
    (cs_PrecommitMaj23SignAggr s) (cs_proposer s) (cs_isProposer s) (cs_Epoch s) (cs_NcExtra s)
    (cs_stateEpoch s) (cs_vrfValIndex s) (cs_pastRoundStates s) v (cs_nSteps s) (cs_out s).

Definition set_nSteps (v : Z) (s : CState) : CState :=
  mkCState (cs_Height s) (cs_Round s) (cs_Step s) (cs_StartTime s) (cs_CommitTime s)
    (cs_Validators s) (cs_Proposal s) (cs_ProposalBlock s) (cs_ProposalBlockParts s)
    (cs_ProposerPeerKey s) (cs_LockedRound s) (cs_LockedBlock s) (cs_LockedBlockParts s)
    (cs_Votes s) (cs_VoteSignAggr s) (cs_CommitRound s) (cs_PrevoteMaj23SignAggr s)
    (cs_PrecommitMaj23SignAggr s) (cs_proposer s) (cs_isProposer s) (cs_Epoch s) (cs_NcExtra s)
    (cs_stateEpoch s) (cs_vrfValIndex s) (cs_pastRoundStates s) (cs_blockFromMiner s) v (cs_out s).

Definition set_out (v : list Effect) (s : CState) : CState :=
  mkCState (cs_Height s) (cs_Round s) (cs_Step s) (cs_StartTime s) (cs_CommitTime s)
    (cs_Validators s) (cs_Proposal s) (cs_ProposalBlock s) (cs_ProposalBlockParts s)
    (cs_ProposerPeerKey s) (cs_LockedRound s) (cs_LockedBlock s) (cs_LockedBlockParts s)
    (cs_Votes s) (cs_VoteSignAggr s) (cs_CommitRound s) (cs_PrevoteMaj23SignAggr s)
    (cs_PrecommitMaj23SignAggr s) (cs_proposer s) (cs_isProposer s) (cs_Epoch s) (cs_NcExtra s)
    (cs_stateEpoch s) (cs_vrfValIndex s) (cs_pastRoundStates s) (cs_blockFromMiner s)
    (cs_nSteps s) v.

(** ** The monad of the handlers *)

Definition CM (A : Type) : Type := CState → outcome (A * CState).

#[export] Instance CM_ret : MRet CM := λ A a s, Ret (a, s).
#[export] Instance CM_bind : MBind CM := λ A B f m s,
  match m s with
  | Ret (a, s') => f a s'
  | Panic why => Panic why
  end.

Definition get : CM CState := λ s, Ret (s, s).
Definition modify (f : CState → CState) : CM () := λ s, Ret ((), f s).
Definition lift {A} (m : outcome A) : CM A := λ s,
  match m with Ret a => Ret (a, s) | Panic why => Panic why end.
Definition panic {A} (why : string) : CM A := λ _, Panic why.
Definition emit (e : Effect) : CM () := modify (λ s, set_out (cs_out s ++ [e]) s).
Definition fire (e : Event) : CM () := emit (Fire e).

Fixpoint cm_iter {A} (f : A → CM ()) (l : list A) : CM () :=
  match l with
  | [] => mret ()
  | a :: l => f a ≫= λ _, cm_iter f l
  end.

End round_state.
