(* ===== verification/Consensus.v ===== *)
(** * The round machine (consensus/state.go, consensus/state1.go)

    One definition per handler: entering each step of a round, proposing, prevoting,
    precommitting and committing, the messages (proposals, block parts, votes, aggregated
    signatures), the timeouts, and the start of a height.  A deferred function runs at
    the end of its handler; the handlers call each other in a cycle-free way, so no
    recursion is needed. *)

From Stdlib Require Import ZArith Lia.
From stdpp Require Import base tactics strings numbers gmap sorting list.
From S2P Require Import Prelude Types ValidatorSet VoteSet HeightVoteSet PartSet SignAggr.
From S2P Require Import EpochVotes Epoch Block Proposer RoundState.

Local Open Scope Z_scope.

Section consensus.
Context {LIB : NeatLib} {MLIB : MerkleLib} {BLIB : BlockLib} {WIRE : EpochWire} {VLIB : VrfLib}.
Variable E : Env.

(** ** Proposer *)

Definition updateProposer : CM () :=
  s ← get;
  r ← lift (proposerByRound (env_chain E) (ed_StartBlock (ep_data (cs_Epoch s))) (cs_Height s)
              (cs_Validators s) (Some (cs_NcExtra s)) (cs_vrfValIndex s) (cs_Round s));
  let '(proposer, vrfValIndex) := r in
  modify (λ s, set_proposer (Some proposer) (set_vrfValIndex vrfValIndex s));;
  match env_privValidator E with
  | None => panic "nil pointer dereference"
  | Some priv =>
      modify (set_isProposer (bytes_Equal (v_Address (vp_Proposer proposer)) (pv_Address priv)))
  end.

Definition proposer_is_current (s : CState) : bool :=
  match cs_proposer s with
  | None => false
  | Some p => (cs_Height s =? vp_Height p) && (cs_Round s =? vp_Round p)
  end.

Definition GetProposer : CM Validator :=
  s ← get;
  (if proposer_is_current s then mret () else updateProposer);;
  s ← get;
  match cs_proposer s with
  | None => panic "nil pointer dereference"
  | Some p => mret (vp_Proposer p)
  end.

Definition IsProposer : CM bool :=
  GetProposer;;
  s ← get;
  mret (cs_isProposer s).

(** ** Steps, timeouts *)

Definition updateRoundStep (round step : Z) : CM () := modify (λ s, set_Step step (set_Round round s)).

Definition newStep : CM () :=
  modify (λ s, set_nSteps (i64 (cs_nSteps s + 1)) s);;
  fire EventNewRoundStep.

Definition scheduleTimeout (duration height round step : Z) : CM () :=
  emit (ScheduleTimeout (mkTimeoutInfo duration height round step)).

Definition sendInternalMessage (msg : ConsensusMessage) : CM () := emit (SendInternal msg).

(** ** Votes of this validator *)

Definition SignVote (priv : PrivValidator) (chainID : string) (vote : Vote) : Vote :=
  mkVote (vote_ValidatorAddress vote) (vote_ValidatorIndex vote) (vote_Height vote)
    (vote_Round vote) (vote_Type vote) (vote_BlockID vote)
    (pv_Sign priv (SignBytes_Vote chainID vote)) (vote_SignBytes vote).

Definition SignProposal (priv : PrivValidator) (chainID : string) (p : Proposal) : Proposal :=
  mkProposal (prop_NodeID p) (prop_Height p) (prop_Round p) (prop_Hash p)
    (prop_BlockPartsHeader p) (prop_POLRound p) (prop_POLBlockID p) (prop_ProposerNetAddr p)
    (prop_ProposerPeerKey p) (pv_Sign priv (SignBytes_Proposal chainID p)).

Definition signVote (priv : PrivValidator) (type_ : Z) (hash : bytes) (header : PartSetHeader)
    : CM Vote :=
  s ← get;
  let addr := pv_Address priv in
  let '(valIndex, _) := GetByAddress (cs_Validators s) addr in
  let vote := mkVote addr (u64 valIndex) (cs_Height s) (u64 (cs_Round s)) type_
                (mkBlockID hash header) None [] in
  mret (SignVote priv (nce_ChainID (cs_NcExtra s)) vote).

Definition signAddVote (type_ : Z) (hash : bytes) (header : PartSetHeader) : CM () :=
  s ← get;
  match env_privValidator E with
  | None => mret ()
  | Some priv =>
      if negb (HasAddress (cs_Validators s) (pv_Address priv)) then mret ()
      else
        vote ← signVote priv type_ hash header;
        isProposer ← IsProposer;
        if negb isProposer then
          if negb (bool_decide (cs_ProposerPeerKey s = "")) then
            fire (EventVote2Proposer vote (cs_ProposerPeerKey s))
          else mret ()
        else sendInternalMessage (VoteMessage (Some vote))
  end.

(** ** Proposal *)

(** [data[:4]] and the function it selects; [continue] on an error. *)
Definition tx_function (tx : Tx) : outcome (option FunctionType) :=
  if IsNeatChainContractAddr (tx_To tx) then
    id ← slice_sub (tx_Data tx) 0 4;
    mret (env_FunctionTypeFromId E id)
  else mret None.

(** The proof data of the withdrawals of a block. *)
Fixpoint collect_tx3 (txs : list Tx) : outcome (list TX3ProofData) :=
  match txs with
  | [] => mret []
  | tx :: txs =>
      f ← tx_function tx;
      rest ← collect_tx3 txs;
      match f with
      | Some WithdrawFromMainChain =>
          match env_UnpackWithdraw E (drop 4 (tx_Data tx)) with
          | None => mret rest
          | Some (chainId, txHash) =>
              match env_GetTX3ProofData E chainId txHash with
              | None => mret rest
              | Some proof => mret (proof :: rest)
              end
          end
      | _ => mret rest
      end
  end.

Definition createProposalBlock : CM (option (TdmBlock * PartSet)) :=
  s ← get;
  match cs_blockFromMiner s with
  | None => mret None
  | Some neatBlock =>
      if negb (cs_Height s =? NumberU64 neatBlock) then mret None
      else
        let d := ep_data (cs_Epoch s) in
        let commit := mkCommit bid_zero 0 0 None nilBitArray in
        epochBytes ←
          (if cs_Height s =? ed_EndBlock d then
             let '(epoch, nextEp) := GetNextEpoch (env_epochDB E) (cs_Epoch s) in
             modify (set_Epoch epoch);;
             match nextEp with
             | None => panic "missing next epoch at epoch end block"
             | Some nextEp => mret (ep_Bytes nextEp)
             end
           else if (cs_Height s =? ed_StartBlock d) || (cs_Height s =? 1) then
             mret (ep_Bytes (cs_Epoch s))
           else if ShouldProposeNextEpoch (cs_Epoch s) (cs_Height s) then
             let last := cr_CurrentBlock (env_chain E) in
             next ← lift (ProposeNextEpoch (env_epochDB E) (cs_Epoch s) (u64 (h_Number last))
                            (i64 (h_Time last) * 1000000000));
             mret (ep_Bytes next)
           else mret []);
        vs ← lift (GetValidators (mkSmState (Some (cs_NcExtra s)) (Some (cs_stateEpoch s))));
        tx3 ← lift (collect_tx3 (eb_Txs neatBlock));
        match vs with
        | None => panic "nil pointer dereference"
        | Some (_, val) =>
            r ← lift (MakeBlock (cs_Height s) (nce_ChainID (cs_NcExtra s)) (Some commit) neatBlock
                        (vs_Hash val) (ed_Number d) epochBytes tx3 65536 (env_now E));
            mret (Some r)
        end
  end.

Definition defaultDecideProposal (height round : Z) : CM () :=
  s ← get;
  chosen ← match cs_LockedBlock s with
           | Some block => mret (Some (block, cs_LockedBlockParts s))
           | None =>
               r ← createProposalBlock;
               mret ((λ '(block, parts), (block, Some parts)) <$> r)
           end;
  match chosen with
  | None => mret ()
  | Some (block, blockParts) =>
      s ← get;
      pol ← lift (hva_POLInfo (cs_VoteSignAggr s));
      let '(polRound, polBlockID) := pol in
      hash ← lift (tb_Hash (Some block));
      (if bool_decide (env_NodeID E = "") then panic "Node id is nil" else mret ());;
      let proposal := NewProposal height round hash (ps_Header blockParts) polRound polBlockID
                        (env_NodeID E) in
      match env_privValidator E with
      | None => panic "nil pointer dereference"
      | Some priv =>
          let proposal := SignProposal priv (nce_ChainID (cs_NcExtra s)) proposal in
          sendInternalMessage (ProposalMessage (Some proposal));;
          match blockParts with
          | None => mret ()
          | Some parts =>
              cm_iter (λ i,
                part ← lift (ps_GetPart parts i);
                sendInternalMessage (BlockPartMessage (cs_Height s) (cs_Round s) part))
                (Z.of_nat <$> seq 0 (Z.to_nat (ps_total parts)))
          end
      end
  end.

Definition isProposalComplete (s : CState) : bool :=
  bool_decide (is_Some (cs_Proposal s)) && bool_decide (is_Some (cs_ProposalBlock s)).


(** ** Prevote *)

Definition enterPrevoteWait (height round : Z) : CM () :=
  s ← get;
  if negb (cs_Height s =? height) || (round <? cs_Round s) ||
     ((cs_Round s =? round) && (RoundStepPrevoteWait <=? cs_Step s)) then mret ()
  else
    scheduleTimeout (tp_Prevote (env_pow15 E) (env_timeoutParams E) round) height round
      RoundStepPrevoteWait;;
    updateRoundStep round RoundStepPrevoteWait;;
    newStep.

(** The index of the next proof data is threaded; [true] is the nil error. *)
Fixpoint validate_tx4 (txs : list Tx) (proofs : list TX3ProofData) : outcome bool :=
  match txs with
  | [] => mret true
  | tx :: txs =>
      f ← tx_function tx;
      match f with
      | Some WithdrawFromMainChain =>
          match proofs with
          | [] => mret false
          | tx3ProofData :: proofs =>
              if negb (env_ValidateTX3ProofData E tx3ProofData) then mret false
              else if negb (env_ValidateTX4 E tx tx3ProofData) then mret false
              else validate_tx4 txs proofs
          end
      | _ => validate_tx4 txs proofs
      end
  end.

Definition ValidateTX4 (b : TdmBlock) : outcome bool :=
  validate_tx4 (eb_Txs (tb_Block b)) (tb_TX3ProofData b).

Definition prevoteNil : CM () := signAddVote VoteTypePrevote [] psh_zero.

(** Executing the proposal unless we made it; [false] when it fails. *)
Definition execute_proposal (block : TdmBlock) : CM bool :=
  isProposer ← IsProposer;
  if (isProposer : bool) then mret true
  else
    match env_ValidateBlock E with
    | None => mret true
    | Some validate =>
        match validate (tb_Block block) with
        | None => mret false
        | Some result =>
            modify (set_ProposalBlock (Some (mkTdmBlock (tb_Block block) (tb_NcExtra block)
              (tb_TX3ProofData block) (Some result))));;
            mret true
        end
    end.

(** Whether the next epoch in the proposal, if there is one to check, is ours. *)
Definition check_next_epoch (block : TdmBlock) : CM bool :=
  s ← get;
  te ← lift (tb_extra block);
  match ep_FromBytes (nce_EpochBytes te) with
  | None => mret true
  | Some proposed =>
      if (ed_Number (ep_data proposed) =? u64 (ed_Number (ep_data (cs_Epoch s)) + 1)) &&
         ShouldProposeNextEpoch (cs_Epoch s) (cs_Height s) then
        let last := cr_CurrentBlock (env_chain E) in
        lift (ValidateNextEpoch (env_epochDB E) (cs_Epoch s) (Some proposed)
                (u64 (h_Number last)) (i64 (h_Time last) * 1000000000))
      else mret true
  end.

Definition defaultDoPrevote (height round : Z) : CM () :=
  s ← get;
  match cs_LockedBlock s with
  | Some locked =>
      hash ← lift (tb_Hash (Some locked));
      signAddVote VoteTypePrevote hash (ps_Header (cs_LockedBlockParts s))
  | None =>
      match cs_ProposalBlock s with
      | None => prevoteNil
      | Some block =>
          ok ← lift (ValidateBasic block (cs_NcExtra s));
          if negb ok then prevoteNil
          else
            ok ← lift (ValidateTX4 block);
            if negb ok then prevoteNil
            else
              ok ← execute_proposal block;
              if negb ok then prevoteNil
              else
                ok ← check_next_epoch block;
                if negb ok then prevoteNil
                else
                  hash ← lift (tb_Hash (Some block));
                  signAddVote VoteTypePrevote hash (ps_Header (cs_ProposalBlockParts s))
      end
  end.

Definition enterPrevote (height round : Z) : CM () :=
  s ← get;
  if negb (cs_Height s =? height) || (round <? cs_Round s) ||
     ((cs_Round s =? round) && (RoundStepPrevoteWait <? cs_Step s)) then mret ()
  else
    (if isProposalComplete s then defaultDoPrevote height round else mret ());;
    s ← get;
    (if cs_Step s =? RoundStepPropose
     then updateRoundStep round RoundStepPrevote;; newStep else mret ());;
    enterPrevoteWait height round.

(** ** Propose *)

(** Saving the last block to the main chain, on a side chain; [flag] reads the request,
    [clear] removes it. *)
Definition main_chain_task (flag : NeatconExtra → bool) (clear : NeatconExtra → NeatconExtra)
    (task : Z → Effect) : CM () :=
  s ← get;
  if flag (cs_NcExtra s) && negb (isMainChain (nce_ChainID (cs_NcExtra s))) then
    match env_privValidator E with
    | None => mret ()
    | Some _ =>
        isProposer ← IsProposer;
        if (isProposer : bool) then
          emit (task (nce_Height (cs_NcExtra s)));;
          modify (λ s, set_NcExtra (clear (cs_NcExtra s)) s)
        else mret ()
    end
  else mret ().

Definition clear_NeedToSave (te : NeatconExtra) : NeatconExtra :=
  mkNeatconExtra (nce_ChainID te) (nce_Height te) (nce_Time te) false (nce_NeedToBroadcast te)
    (nce_EpochNumber te) (nce_SeenCommitHash te) (nce_ValidatorsHash te) (nce_SeenCommit te)
    (nce_EpochBytes te).

Definition clear_NeedToBroadcast (te : NeatconExtra) : NeatconExtra :=
  mkNeatconExtra (nce_ChainID te) (nce_Height te) (nce_Time te) (nce_NeedToSave te) false
    (nce_EpochNumber te) (nce_SeenCommitHash te) (nce_ValidatorsHash te) (nce_SeenCommit te)
    (nce_EpochBytes te).

Definition enterPropose (height round : Z) : CM () :=
  s ← get;
  if negb (cs_Height s =? height) || (round <? cs_Round s) ||
     ((cs_Round s =? round) && (RoundStepPropose <=? cs_Step s)) then mret ()
  else
    main_chain_task nce_NeedToSave clear_NeedToSave SaveBlockToMainChain;;
    main_chain_task nce_NeedToBroadcast clear_NeedToBroadcast BroadcastTX3ProofData;;
    scheduleTimeout (tp_Propose (env_timeoutParams E) round) height round RoundStepPropose;;
    match env_privValidator E with
    | None => mret ()
    | Some _ =>
        isProposer ← IsProposer;
        if (isProposer : bool) then defaultDecideProposal height round else mret ()
    end;;
    updateRoundStep round RoundStepPropose;;
    newStep;;
    s ← get;
    if isProposalComplete s then enterPrevote height (cs_Round s) else mret ().

(** ** New round *)

(** Wait for the block of the miner when we are the proposer, else propose. *)
Definition propose_or_wait (height round : Z) : CM () :=
  isProposer ← IsProposer;
  s ← get;
  let missing := match cs_blockFromMiner s with
                 | None => true
                 | Some b => negb (cs_Height s =? NumberU64 b)
                 end in
  if isProposer && missing then
    scheduleTimeout (tp_WaitForMinerBlock (env_timeoutParams E)) height round
      RoundStepWaitForMinerBlock
  else enterPropose height round.

Definition clear_proposal (s : CState) : CState :=
  set_Proposal None (set_ProposalBlock None (set_ProposalBlockParts None (set_ProposerPeerKey ""
    (set_PrevoteMaj23SignAggr None (set_PrecommitMaj23SignAggr None s))))).

Definition enterNewRound (height round : Z) : CM () :=
  s ← get;
  if negb (cs_Height s =? height) || (round <? cs_Round s) ||
     ((cs_Round s =? round) && negb (cs_Step s =? RoundStepNewHeight)) then mret ()
  else
    updateRoundStep round RoundStepNewRound;;
    (if round =? 0 then mret () else modify clear_proposal);;
    s ← get;
    aggr ← lift (hva_SetRound (cs_VoteSignAggr s) (i64 (round + 1)));
    modify (set_VoteSignAggr aggr);;
    votes ← lift (hvs_SetRound (cs_Votes s) (i64 (round + 1)));
    modify (set_Votes votes);;
    modify (λ s, set_pastRoundStates (<[round := ROUND_NOT_PROPOSED]> (cs_pastRoundStates s)) s);;
    fire EventNewRound;;
    propose_or_wait height round.

(** Back to a lower round: the states of the rounds above it are dropped. *)
Definition enterLowerRound (height round : Z) : CM () :=
  modify (λ s, set_pastRoundStates
    (filter (λ '(r, _), ¬ (round < r ∧ r <= cs_Round s)) (cs_pastRoundStates s)) s);;
  updateRoundStep round RoundStepNewRound;;
  modify clear_proposal;;
  s ← get;
  aggr ← lift (hva_ResetTop2Round (cs_VoteSignAggr s) (i64 (round + 1)));
  modify (set_VoteSignAggr aggr);;
  votes ← lift (hvs_ResetTop2Round (cs_Votes s) (i64 (round + 1)));
  modify (set_Votes votes);;
  fire EventNewRound;;
  propose_or_wait height round.


(** ** Precommit *)

Definition enterPrecommitWait (height round : Z) : CM () :=
  s ← get;
  if negb (cs_Height s =? height) || (round <? cs_Round s) ||
     ((cs_Round s =? round) && (RoundStepPrecommitWait <=? cs_Step s)) then mret ()
  else
    scheduleTimeout (tp_Precommit (env_pow15 E) (env_timeoutParams E) round) height round
      RoundStepPrecommitWait;;
    updateRoundStep round RoundStepPrecommitWait;;
    newStep.

Definition precommitNil : CM () := signAddVote VoteTypePrecommit [] psh_zero.

Definition unlock (s : CState) : CState :=
  set_LockedRound (-1) (set_LockedBlock None (set_LockedBlockParts None s)).

(** The vote of a round whose prevotes are for a block: relock, lock, or unlock. *)
Definition precommit_polka (round : Z) (blockID : BlockID) : CM () :=
  s ← get;
  relock ← lift (tb_HashesTo (cs_LockedBlock s) (bid_Hash blockID));
  if (relock : bool) then
    modify (set_LockedRound round);;
    fire EventRelock;;
    signAddVote VoteTypePrecommit (bid_Hash blockID) (bid_PartsHeader blockID)
  else
    lift (tb_Hash (cs_ProposalBlock s));;
    mine ← lift (tb_HashesTo (cs_ProposalBlock s) (bid_Hash blockID));
    match cs_ProposalBlock s, (mine : bool) with
    | Some block, true =>
        ok ← lift (ValidateBasic block (cs_NcExtra s));
        (if negb ok then panic "enterPrecommit: +2/3 prevoted for an invalid block" else mret ());;
        modify (λ s, set_LockedRound round (set_LockedBlock (cs_ProposalBlock s)
          (set_LockedBlockParts (cs_ProposalBlockParts s) s)));;
        fire EventLock;;
        signAddVote VoteTypePrecommit (bid_Hash blockID) (bid_PartsHeader blockID)
    | _, _ =>
        modify unlock;;
        (if negb (ps_HasHeader (cs_ProposalBlockParts s) (bid_PartsHeader blockID)) then
           parts ← lift (NewPartSetFromHeader (bid_PartsHeader blockID));
           modify (λ s, set_ProposalBlock None (set_ProposalBlockParts (Some parts) s))
         else mret ());;
        fire EventUnlock;;
        precommitNil
    end.

Definition enterPrecommit (height round : Z) : CM () :=
  s ← get;
  if negb (cs_Height s =? height) || (round <? cs_Round s) ||
     ((cs_Round s =? round) && (RoundStepPrecommit <=? cs_Step s)) then mret ()
  else
    prevotes ← lift (hva_Prevotes (cs_VoteSignAggr s) round);
    (match sa_TwoThirdsMajority prevotes with
     | (_, false) =>
         emit TryFixBadPreimages;;
         precommitNil
     | (blockID, true) =>
         fire EventPolka;;
         pol ← lift (hva_POLInfo (cs_VoteSignAggr s));
         (if fst pol <? round then panic "This POLRound should be round" else mret ());;
         if bool_decide (bid_Hash blockID = []) then
           match cs_LockedBlock s with
           | None => mret ()
           | Some _ =>
               modify unlock;;
               fire EventUnlock
           end;;
           precommitNil
         else precommit_polka round blockID
     end);;
    updateRoundStep round RoundStepPrecommit;;
    newStep;;
    enterPrecommitWait height round.

(** ** Commit *)

(** Whether a block of a side chain has a withdrawal to broadcast. *)
Fixpoint needs_broadcast (txs : list Tx) : outcome bool :=
  match txs with
  | [] => mret false
  | tx :: txs =>
      f ← tx_function tx;
      match f with
      | Some WithdrawFromSideChain => mret true
      | _ => needs_broadcast txs
      end
  end.

(** The extra data of the committed block: the commit that was seen, and the tasks of a
    side chain. *)
Definition seal_extra (te : NeatconExtra) (seenCommit : Commit) (needToSave needToBroadcast : bool)
    : NeatconExtra :=
  mkNeatconExtra (nce_ChainID te) (nce_Height te) (nce_Time te) needToSave needToBroadcast
    (nce_EpochNumber te) (Commit_Hash seenCommit) (nce_ValidatorsHash te) (Some seenCommit)
    (nce_EpochBytes te).

Definition seal_block (seenCommit : Commit) (save broadcast : bool) (b : TdmBlock) : TdmBlock :=
  mkTdmBlock (tb_Block b)
    ((λ te, seal_extra te seenCommit (nce_NeedToSave te || save)
              (nce_NeedToBroadcast te || broadcast)) <$> tb_NcExtra b)
    (tb_TX3ProofData b) (tb_IntermediateResult b).

(** The extra data is written through the pointer of the block: when the committed block
    is the locked one, [ProposalBlock] and [LockedBlock] are the same pointer. *)
Definition finalizeCommit (height : Z) : CM () :=
  s ← get;
  if negb (cs_Height s =? height) || negb (cs_Step s =? RoundStepCommit) then mret ()
  else
    precommits ← lift (hva_Precommits (cs_VoteSignAggr s) (cs_CommitRound s));
    match precommits, sa_TwoThirdsMajority precommits with
    | Some aggr, (blockID, true) =>
        if negb (ps_HasHeader (cs_ProposalBlockParts s) (bid_PartsHeader blockID))
        then panic "Expected ProposalBlockParts header to be commit header"
        else
          mine ← lift (tb_HashesTo (cs_ProposalBlock s) (bid_Hash blockID));
          match cs_ProposalBlock s, (mine : bool) with
          | Some block, true =>
              ok ← lift (ValidateBasic block (cs_NcExtra s));
              if negb ok then panic "+2/3 committed an invalid block"
              else
                te ← lift (tb_extra block);
                if nce_Height (cs_NcExtra s) <? nce_Height te then
                  let side := negb (isMainChain (nce_ChainID te)) in
                  broadcast ← lift (if side then needs_broadcast (eb_Txs (tb_Block block))
                                    else mret false);
                  let save := side && negb (bool_decide (nce_EpochBytes te = [])) in
                  let seal := seal_block (sa_MakeCommit aggr) save broadcast in
                  let block' := seal block in
                  locked ← lift (tb_HashesTo (cs_LockedBlock s) (bid_Hash blockID));
                  modify (λ s, set_ProposalBlock (Some block')
                    (if (locked : bool) then set_LockedBlock (seal <$> cs_LockedBlock s) s else s));;
                  fire (EventNewBlock block');;
                  fire (EventNewBlockHeader (i64 (nce_Height te)));;
                  emit (BackendCommit block')
                else mret ()
          | _, _ => panic "Cannot finalizeCommit, ProposalBlock does not hash to commit hash"
          end
    | _, _ => panic "Cannot finalizeCommit, commit does not have two thirds majority"
    end.

Definition tryFinalizeCommit (height : Z) : CM () :=
  s ← get;
  if negb (cs_Height s =? height) then panic "tryFinalizeCommit() cs.Height vs height"
  else
    precommits ← lift (hva_Precommits (cs_VoteSignAggr s) (cs_CommitRound s));
    let '(blockID, ok) := sa_TwoThirdsMajority precommits in
    if negb ok || bool_decide (bid_Hash blockID = []) then mret ()
    else
      mine ← lift (tb_HashesTo (cs_ProposalBlock s) (bid_Hash blockID));
      if negb mine then lift (tb_Hash (cs_ProposalBlock s));; mret ()
      else finalizeCommit height.

Definition enterCommit (height commitRound : Z) : CM () :=
  s ← get;
  if negb (cs_Height s =? height) || (RoundStepCommit <=? cs_Step s) then mret ()
  else
    precommits ← lift (hva_Precommits (cs_VoteSignAggr s) commitRound);
    match sa_TwoThirdsMajority precommits with
    | (_, false) => panic "RunActionCommit() expects +2/3 precommits"
    | (blockID, true) =>
        locked ← lift (tb_HashesTo (cs_LockedBlock s) (bid_Hash blockID));
        (if (locked : bool)
         then modify (λ s, set_ProposalBlock (cs_LockedBlock s)
                (set_ProposalBlockParts (cs_LockedBlockParts s) s))
         else mret ());;
        s ← get;
        mine ← lift (tb_HashesTo (cs_ProposalBlock s) (bid_Hash blockID));
        if negb mine && negb (ps_HasHeader (cs_ProposalBlockParts s) (bid_PartsHeader blockID))
        then
          parts ← lift (NewPartSetFromHeader (bid_PartsHeader blockID));
          modify (λ s, set_ProposalBlock None (set_ProposalBlockParts (Some parts) s))
        else mret ()
    end;;
    s ← get;
    updateRoundStep (cs_Round s) RoundStepCommit;;
    modify (λ s, set_CommitRound commitRound (set_CommitTime (env_now E) s));;
    newStep;;
    tryFinalizeCommit height.


(** ** Proposals and block parts *)

Inductive CsErr :=
| ErrInvalidProposalPOLRound | ErrInvalidProposalSignature
| ErrPart (e : PartErr) | ErrBlockDecode
| ErrInvalidSignatureAggr | ErrDuplicateSignatureAggr | ErrNilSignAggr
| ErrConflictingVotes (a b : Vote) | ErrAddingVote.

(** A refused signature is printed, through the nil interface if there is none. *)
Definition refuse_signature (proposal : Proposal) : CM (option CsErr) :=
  match prop_Signature proposal with
  | None => panic "nil pointer dereference"
  | Some _ => mret (Some ErrInvalidProposalSignature)
  end.

Definition accept_proposal (proposal : Proposal) : CM (option CsErr) :=
  modify (set_Proposal (Some proposal));;
  parts ← lift (NewPartSetFromHeader (prop_BlockPartsHeader proposal));
  modify (λ s, set_ProposalBlockParts (Some parts)
    (set_ProposerPeerKey (prop_ProposerPeerKey proposal)
      (set_pastRoundStates (<[cs_Round s := ROUND_PROPOSED]> (cs_pastRoundStates s)) s)));;
  mret None.

Definition proposal_signed_by (v : Validator) (proposal : Proposal) : bool :=
  VerifyBytes (v_PubKey v) (SignBytes_Proposal (env_NeatChainId E) proposal)
    (prop_Signature proposal).

Definition defaultSetProposal (proposal : option Proposal) : CM (option CsErr) :=
  s ← get;
  if bool_decide (is_Some (cs_Proposal s)) then mret None
  else
    match proposal with
    | None => panic "nil pointer dereference"
    | Some p =>
        if negb (prop_Height p =? cs_Height s) || (cs_Round s <? prop_Round p) then mret None
        else if RoundStepCommit <=? cs_Step s then mret None
        else if negb (prop_POLRound p =? -1) &&
                ((prop_POLRound p <? 0) || (prop_Round p <=? prop_POLRound p))
        then mret (Some ErrInvalidProposalPOLRound)
        else if prop_Round p =? cs_Round s then
          v ← GetProposer;
          if negb (proposal_signed_by v p) then refuse_signature p
          else accept_proposal p
        else
          r ← lift (proposerByRound (env_chain E) (ed_StartBlock (ep_data (cs_Epoch s)))
                      (cs_Height s) (cs_Validators s) (Some (cs_NcExtra s)) (cs_vrfValIndex s)
                      (prop_Round p));
          let '(proposer, vrfValIndex) := r in
          modify (set_vrfValIndex vrfValIndex);;
          if negb (proposal_signed_by (vp_Proposer proposer) p) then refuse_signature p
          else if Z.of_nat (size (cs_pastRoundStates s)) - 1 <? prop_Round p then mret None
          else if negb (default ROUND_NOT_PROPOSED (cs_pastRoundStates s !! prop_Round p)
                          =? ROUND_NOT_PROPOSED) then mret None
          else
            enterLowerRound (cs_Height s) (prop_Round p);;
            accept_proposal p
    end.

(** What is left to read of a part set. *)
Definition psr_stream (psr : PartSetReader) : bytes :=
  psr_rest psr ++ concat (p_Bytes <$> omap id (drop (Z.to_nat (psr_i psr + 1)) (psr_parts psr))).

Definition addProposalBlockPart (height round : Z) (part : option Part) (verify : bool)
    : CM (bool * option CsErr) :=
  s ← get;
  if negb (cs_Height s =? height) || negb (cs_Round s =? round) then mret (false, None)
  else
    match cs_ProposalBlockParts s with
    | None => mret (false, None)
    | Some parts =>
        match part with
        | None => panic "nil pointer dereference"
        | Some part =>
            r ← lift (ps_AddPart parts part verify);
            let '(parts, added, err) := r in
            modify (set_ProposalBlockParts (Some parts));;
            match err with
            | Some e => mret (added, Some (ErrPart e))
            | None =>
                if added && ps_IsComplete parts then
                  reader ← lift (ps_GetReader parts);
                  let block := tb_FromBytes (psr_stream reader) in
                  modify (set_ProposalBlock block);;
                  s ← get;
                  (if (RoundStepPropose <=? cs_Step s) && (cs_Step s <=? RoundStepPrevoteWait) &&
                      isProposalComplete s
                   then enterPrevote height (cs_Round s)
                   else if cs_Step s =? RoundStepCommit then tryFinalizeCommit height
                   else mret ());;
                  mret (true, match block with None => Some ErrBlockDecode | Some _ => None end)
                else mret (added, None)
            end
        end
    end.

(** ** Aggregated signatures *)

(** The prevotes of the round unlock a block that they are not for. *)
Definition unlock_on_pol (sa : SignAggr) : CM () :=
  s ← get;
  match cs_LockedBlock s with
  | None => mret ()
  | Some _ =>
      if cs_LockedRound s <? sa_Round sa then
        same ← lift (tb_HashesTo (cs_LockedBlock s) (bid_Hash (sa_Maj23 sa)));
        if negb same then modify unlock;; fire EventUnlock else mret ()
      else mret ()
  end.

Definition setMaj23SignAggr (sa : SignAggr) : CM (option CsErr * bool) :=
  s ← get;
  if negb (sa_Height sa =? cs_Height s) then mret (None, false)
  else
    r ← lift (blsVerifySignAggr (cs_Validators s) sa);
    match r with
    | (true, None) =>
        if negb (IsVoteTypeValid (sa_Type sa)) then mret (Some ErrInvalidSignatureAggr, false)
        else
          added ← lift (hva_AddSignAggr (cs_VoteSignAggr s) sa);
          modify (set_VoteSignAggr (fst added));;
          if negb (sa_Round sa =? cs_Round s) then mret (None, false)
          else if sa_Type sa =? VoteTypePrevote then
            match cs_PrevoteMaj23SignAggr s with
            | Some _ => mret (Some ErrDuplicateSignatureAggr, false)
            | None =>
                modify (set_PrevoteMaj23SignAggr (Some sa));;
                unlock_on_pol sa;;
                s ← get;
                if isProposalComplete s
                then enterPrecommit (cs_Height s) (cs_Round s);; mret (None, true)
                else mret (None, false)
            end
          else
            match cs_PrecommitMaj23SignAggr s with
            | Some _ => mret (Some ErrDuplicateSignatureAggr, false)
            | None =>
                modify (set_PrecommitMaj23SignAggr (Some sa));;
                s ← get;
                if isProposalComplete s
                then enterCommit (cs_Height s) (cs_Round s);; mret (None, true)
                else mret (None, false)
            end
    | _ => mret (Some ErrInvalidSignatureAggr, false)
    end.

Definition handleSignAggr (sa : option SignAggr) : CM (option CsErr) :=
  match sa with
  | None => mret (Some ErrNilSignAggr)
  | Some sa =>
      s ← get;
      if sa_Height sa =? cs_Height s
      then r ← setMaj23SignAggr sa; mret (fst r)
      else mret None
  end.

(** ** Votes; only the proposer collects them *)

(** The signers among [votes] of [maj23]: their bitmap, signatures and sign bytes. *)
Fixpoint gather (maj23 : BlockID) (votes : list (option Vote)) (ba : BitArray)
    (sigs : list (option Signature)) (ss : bytes) : BitArray * list (option Signature) * bytes :=
  match votes with
  | [] => (ba, sigs, ss)
  | Some vote :: votes =>
      if bid_Equals maj23 (vote_BlockID vote)
      then gather maj23 votes (ba_SetIndex ba (vote_ValidatorIndex vote) true)
             (sigs ++ [vote_Signature vote]) (vote_SignBytes vote)
      else gather maj23 votes ba sigs ss
  | None :: votes => gather maj23 votes ba sigs ss
  end.

(** [Votes()] and [TwoThirdsMajority()] of a vote set. *)
Definition votes_and_majority (voteSet : option VoteSet)
    : outcome (list (option Vote) * (BlockID * bool)) :=
  match voteSet with
  | None => Panic "nil pointer dereference"
  | Some vs => mret (vst_votes vs, vst_TwoThirdsMajority voteSet)
  end.

Definition sendMaj23SignAggr (voteType : Z) : CM () :=
  s ← get;
  r ← lift (if voteType =? VoteTypePrevote
            then hvs_Prevotes (cs_Votes s) (cs_Round s) ≫= votes_and_majority
            else if voteType =? VoteTypePrecommit
            then hvs_Precommits (cs_Votes s) (cs_Round s) ≫= votes_and_majority
            else mret ([], (bid_zero, false)));
  match r with
  | (_, (_, false)) => mret ()
  | (votes, (maj23, true)) =>
      let numValidators := vs_Size (cs_Validators s) in
      let '(ba, sigs, ss) := gather maj23 votes (NewBitArray (u64 numValidators)) [] [] in
      match BLSSignatureAggregate sigs with
      | None => mret ()
      | Some signature =>
          let sa := MakeSignAggr (cs_Height s) (cs_Round s) voteType numValidators maj23
                      (hvs_chainID (cs_Votes s)) ba (Some signature) in
          let sa := mkSignAggr (sa_ChainID sa) (sa_Height sa) (sa_Round sa) (sa_Type sa)
                      (sa_NumValidators sa) (sa_BlockID sa) (sa_Maj23 sa) (sa_BitArray sa)
                      (sa_Sum sa) (sa_SignatureAggr sa) ss in
          if bid_IsZero maj23 then mret ()
          else
            sa ← lift (sa_SetMaj23 (Some sa) maj23);
            match sa with
            | None => mret ()
            | Some sa =>
                fire (EventSignAggr sa);;
                sendInternalMessage (Maj23SignAggrMessage (Some sa))
            end
      end
  end.

Definition votes_of (type_ : Z) : CM (option VoteSet) :=
  s ← get;
  lift (if type_ =? VoteTypePrevote then hvs_Prevotes (cs_Votes s) (cs_Round s)
        else hvs_Precommits (cs_Votes s) (cs_Round s)).

Definition cs_addVote (vote : Vote) (peerKey : string) : CM (bool * option HvsErr) :=
  isProposer ← IsProposer;
  s ← get;
  if negb isProposer then mret (false, None)
  else if negb (vote_Height vote =? cs_Height s) || negb (i64 (vote_Round vote) =? cs_Round s)
  then mret (false, None)
  else
    before ← votes_of (vote_Type vote);
    if vst_HasTwoThirdsMajority before then mret (false, None)
    else
      r ← lift (hvs_AddVote (cs_Votes s) vote peerKey);
      let '(votes, added, err) := r in
      modify (set_Votes votes);;
      (if (added : bool) then
         if IsVoteTypeValid (vote_Type vote) then
           after ← votes_of (vote_Type vote);
           if vst_HasTwoThirdsMajority after then sendMaj23SignAggr (vote_Type vote) else mret ()
         else mret ()
       else mret ());;
      mret (added, err).

Definition tryAddVote (vote : option Vote) (peerKey : string) : CM (option CsErr) :=
  match vote with
  | None => panic "nil pointer dereference"
  | Some vote =>
      r ← cs_addVote vote peerKey;
      match snd r with
      | None => mret None
      | Some (ErrVote (ErrVoteConflictingVotes a b)) => mret (Some (ErrConflictingVotes a b))
      | Some _ => mret (Some ErrAddingVote)
      end
  end.

(** ** Dispatch *)

Definition handleMsg (msg : ConsensusMessage) (peerKey : string) : CM () :=
  match msg with
  | ProposalMessage proposal => defaultSetProposal proposal;; mret ()
  | BlockPartMessage height round part =>
      addProposalBlockPart height round part (negb (bool_decide (peerKey = "")));; mret ()
  | Maj23SignAggrMessage sa => handleSignAggr sa;; mret ()
  | VoteMessage vote => tryAddVote vote peerKey;; mret ()
  end.

Definition handleTimeout (ti : timeoutInfo) : CM () :=
  s ← get;
  if negb (ti_Height ti =? cs_Height s) || (ti_Round ti <? cs_Round s) ||
     ((ti_Round ti =? cs_Round s) && (ti_Step ti <? cs_Step s)) then mret ()
  else if ti_Step ti =? RoundStepNewHeight then enterNewRound (ti_Height ti) 0
  else if ti_Step ti =? RoundStepWaitForMinerBlock then
    fire EventTimeoutPropose;; enterPropose (ti_Height ti) (ti_Round ti)
  else if ti_Step ti =? RoundStepPropose then
    fire EventTimeoutPropose;; enterPrevote (ti_Height ti) (ti_Round ti)
  else if ti_Step ti =? RoundStepPrevoteWait then
    fire EventTimeoutWait;; enterPrecommit (ti_Height ti) (ti_Round ti)
  else if ti_Step ti =? RoundStepPrecommitWait then
    fire EventTimeoutWait;; enterNewRound (ti_Height ti) (i64 (ti_Round ti + 1))
  else panic "Invalid timeout step".


(** ** The start of a height *)

Definition LoadNeatconExtra (height : Z) : outcome (option NeatconExtra) :=
  let cr := env_chain E in
  match cr_GetBlockByNumber cr height with
  | None => mret None
  | Some block =>
      match cr_GetHeader cr (h_Hash block) (u64 (h_Number block)) with
      | None => Panic "nil pointer dereference"
      | Some header =>
          match ExtractNeatconExtra (h_Extra header) with
          | None => mret None
          | Some te =>
              mret (Some (mkNeatconExtra (nce_ChainID te) (u64 (h_Number block)) (nce_Time te)
                (nce_NeedToSave te) (nce_NeedToBroadcast te) (nce_EpochNumber te)
                (nce_SeenCommitHash te) (nce_ValidatorsHash te) (nce_SeenCommit te)
                (nce_EpochBytes te)))
          end
      end
  end.

Definition LoadLastNeatconExtra : outcome (option NeatconExtra) :=
  let curHeight := u64 (h_Number (cr_CurrentBlock (env_chain E))) in
  if curHeight =? 0 then mret None else LoadNeatconExtra curHeight.

(** [ReconstructLastCommit] loads the same extra data again. *)
Definition InitState (epoch : Epoch) : outcome SmState :=
  last ← LoadLastNeatconExtra;
  match last with
  | Some te => mret (mkSmState (Some te) (Some epoch))
  | None =>
      let state := MakeGenesisState (env_NeatChainId E) (env_now E) in
      match sm_NcExtra state with
      | None => Panic "nil pointer dereference"
      | Some te =>
          if negb (nce_EpochNumber te =? ed_Number (ep_data epoch))
          then Panic "exit: InitStateAndEpoch(), initial state error"
          else mret (mkSmState (Some te) (Some epoch))
      end
  end.

(** [Initialize] and the reset of the round state to the height after [state]. *)
Definition UpdateToState (state : SmState) : CM () :=
  s ← get;
  match sm_NcExtra state, sm_Epoch state with
  | Some te, Some stateEpoch =>
      let height := u64 (nce_Height te + 1) in
      let tp := env_timeoutParams E in
      let miner := match cs_blockFromMiner s with
                   | Some b => if height <=? NumberU64 b then Some b else None
                   | None => None
                   end in
      let startTime :=
        if isMainChain (nce_ChainID te) then tp_Commit tp (env_now E)
        else if cs_CommitTime s =? zero_time then tp_Commit tp (env_now E)
        else tp_Commit tp (cs_CommitTime s) in
      vs ← lift (GetValidators state);
      match vs with
      | None => panic "nil pointer dereference"
      | Some (_, validators) =>
          votes ← lift (NewHeightVoteSet (env_NeatChainId E) height validators);
          aggrs ← lift (NewHeightVoteSignAggr (env_NeatChainId E) height validators);
          modify (λ s, mkCState height 0 RoundStepNewHeight startTime (cs_CommitTime s) validators
            None None None "" (-1) None None votes aggrs (-1) None None None false
            (cs_Epoch s) te stateEpoch (-1) ∅ miner (cs_nSteps s) (cs_out s));;
          newStep
      end
  | _, _ => panic "nil pointer dereference"
  end.

Definition scheduleRound0 : CM () :=
  s ← get;
  scheduleTimeout (time_Sub (cs_StartTime s) (env_now E)) (cs_Height s) 0 RoundStepNewHeight.

Definition StartNewHeight : CM () :=
  s ← get;
  state ← lift (InitState (cs_Epoch s));
  UpdateToState state;;
  newStep;;
  scheduleRound0.

(** ** Events of the node (consensus/reactor.go, engine.go) *)

Inductive NodeEvent :=
| MsgEvent (msg : ConsensusMessage) (peerKey : string)
| TimeoutEvent (ti : timeoutInfo)
| RequestEvent (block : EthBlock)
| FinalCommittedEvent (blockNumber : Z)
| SetEpochEvent (epoch : Epoch).

Definition onRequest (block : EthBlock) : CM () :=
  s ← get;
  if cs_Height s <=? NumberU64 block then
    (if u64 (cs_Height s + 1) <=? NumberU64 block then StartNewHeight else mret ());;
    modify (set_blockFromMiner (Some block))
  else mret ().

Definition onFinalCommitted (blockNumber : Z) : CM () :=
  s ← get;
  if blockNumber =? cs_Height s then StartNewHeight else mret ().

Definition handle (ev : NodeEvent) : CM () :=
  match ev with
  | MsgEvent msg peerKey => handleMsg msg peerKey
  | TimeoutEvent ti => handleTimeout ti
  | RequestEvent block => onRequest block
  | FinalCommittedEvent blockNumber => onFinalCommitted blockNumber
  | SetEpochEvent epoch => modify (set_Epoch epoch)
  end.

End consensus.
