(* ===== verification/ConsensusSafety.v ===== *)
(** * Safety of the round machine

    A program logic for the handlers ([wp], [stable]), the invariant of the reachable
    states, and what the effects of a step are justified by: every lock and every
    precommit of a block by a verified aggregate of prevotes, every block handed to the
    backend by a verified aggregate of precommits. *)

From Stdlib Require Import ZArith Lia.
From stdpp Require Import base tactics strings numbers gmap sorting list.
From S2P Require Import Prelude Types ValidatorSet VoteSet HeightVoteSet PartSet SignAggr.
From S2P Require Import EpochVotes Epoch Block Proposer RoundState Consensus.

Local Open Scope Z_scope.

(** ** A logic for the handlers *)

Section logic.
Context {LIB : NeatLib} {MLIB : MerkleLib} {BLIB : BlockLib} {WIRE : EpochWire}.

(** [Q] holds of the result and the state, if the handler does not panic. *)
Definition wp {A} (m : CM A) (Q : A → CState → Prop) (s : CState) : Prop :=
  match m s with
  | Ret (a, s') => Q a s'
  | Panic _ => True
  end.

(** Every run from a state of [R] that does not panic ends in [R]. *)
Definition stable (R : CState → Prop) {A} (m : CM A) : Prop :=
  ∀ s, R s → wp m (λ _ s', R s') s.

Lemma cwp_ret {A} (a : A) Q s : Q a s → wp (mret a) Q s.
Proof. done. Qed.

Lemma cwp_bind {A B} (m : CM A) (f : A → CM B) Q s :
  wp m (λ a s', wp (f a) Q s') s → wp (m ≫= f) Q s.
Proof. unfold wp, mbind, CM_bind. by destruct (m s) as [[a s']|why]. Qed.

Lemma wp_get Q s : Q s s → wp get Q s.
Proof. done. Qed.

Lemma wp_modify f Q s : Q () (f s) → wp (modify f) Q s.
Proof. done. Qed.

Lemma wp_lift {A} (m : outcome A) Q s : (∀ a, m = Ret a → Q a s) → wp (lift m) Q s.
Proof. unfold wp, lift. destruct m; eauto. Qed.

Lemma wp_panic {A} why (Q : A → CState → Prop) s : wp (panic why) Q s.
Proof. done. Qed.

Lemma cwp_mono {A} (m : CM A) (P Q : A → CState → Prop) s :
  (∀ a s', P a s' → Q a s') → wp m P s → wp m Q s.
Proof. unfold wp. destruct (m s) as [[a s']|]; eauto. Qed.

Lemma wp_emit e Q s : Q () (set_out (cs_out s ++ [e]) s) → wp (emit e) Q s.
Proof. done. Qed.

Lemma wp_stable {A} R (m : CM A) (Q : A → CState → Prop) s :
  stable R m → R s → (∀ a s', R s' → Q a s') → wp m Q s.
Proof. intros Hm Hs HQ. eapply cwp_mono; [|by apply Hm]. eauto. Qed.

Lemma stable_ret R {A} (a : A) : stable R (mret a).
Proof. intros s H. exact H. Qed.

Lemma stable_bind R {A B} (m : CM A) (f : A → CM B) :
  stable R m → (∀ a, stable R (f a)) → stable R (m ≫= f).
Proof.
  intros Hm Hf s Hs. apply cwp_bind. eapply wp_stable; [done|done|]. intros a s' H. by apply Hf.
Qed.

(** Reading the state gives the continuation the invariant of what it read. *)
Lemma stable_get R {B} (f : CState → CM B) :
  (∀ s, R s → wp (f s) (λ _ s', R s') s) → stable R (get ≫= f).
Proof. intros Hf s Hs. apply cwp_bind, wp_get. by apply Hf. Qed.

Lemma stable_modify R f : (∀ s, R s → R (f s)) → stable R (modify f).
Proof. intros Hf s Hs. apply wp_modify. by apply Hf. Qed.

Lemma stable_lift R {A} (m : outcome A) : stable R (lift m).
Proof. intros s Hs. apply wp_lift. by intros. Qed.

Lemma stable_lift_bind R {A B} (m : outcome A) (f : A → CM B) :
  (∀ a, m = Ret a → stable R (f a)) → stable R (lift m ≫= f).
Proof. intros Hf s Hs. apply cwp_bind, wp_lift. intros a Ha. by apply Hf. Qed.

Lemma stable_panic R {A} why : stable R (panic why : CM A).
Proof. by intros s Hs. Qed.

Lemma stable_iter R {A} (f : A → CM ()) l : (∀ a, stable R (f a)) → stable R (cm_iter f l).
Proof.
  intros Hf. induction l as [|a l IH]; [apply stable_ret|]. apply stable_bind; [apply Hf|done].
Qed.

(** Inside a handler, after the state has been read. *)
Lemma wp_of_stable R {A} (m : CM A) s : stable R m → R s → wp m (λ _ s', R s') s.
Proof. intros Hm Hs. by apply Hm. Qed.

End logic.

Create HintDb consensus.

(** ** The invariant *)

Section safety.
Context {LIB : NeatLib} {MLIB : MerkleLib} {BLIB : BlockLib} {WIRE : EpochWire} {VLIB : VrfLib}.

(** An aggregate of this height whose signature and quorum were checked. *)
Definition verified (s : CState) (sa : SignAggr) : Prop :=
  blsVerifySignAggr (cs_Validators s) sa = Ret (true, None) ∧ sa_Height sa = cs_Height s.

Definition aggr_ok (s : CState) : Prop :=
  ∀ r t sa, stored (cs_VoteSignAggr s) r t = Some sa →
    verified s sa ∧ sa_Round sa = r ∧ sa_Type sa = t.

(** [b] is [b0], or [b0] after [finalizeCommit] wrote the seen commit into it. *)
Definition sealed_from (b0 b : TdmBlock) : Prop :=
  b = b0 ∨
  ∃ te c save broadcast, tb_NcExtra b0 = Some te ∧
    tb_NcExtra b = Some (seal_extra te c save broadcast) ∧ tb_Block b = tb_Block b0.

(** The prevotes that justify a vote for [hash] at [round]. *)
Definition polka (s : CState) (round : Z) (hash : bytes) : Prop :=
  ∃ sa, verified s sa ∧ sa_Type sa = VoteTypePrevote ∧ sa_Round sa = round ∧
    bid_Hash (sa_Maj23 sa) = hash ∧ hash ≠ [].

Definition lock_ok (s : CState) : Prop :=
  ∀ b, cs_LockedBlock s = Some b →
    ∃ b0 hash, sealed_from b0 b ∧ tb_Hash (Some b0) = Ret hash ∧ polka s (cs_LockedRound s) hash.

(** A committed block: its extra data before sealing hashes to the block that verified
    precommits are for, passes the basic checks, and is sealed with their commit. *)
Definition commit_ok (s0 : CState) (b : TdmBlock) : Prop :=
  ∃ sa te0 save broadcast, verified s0 sa ∧ sa_Type sa = VoteTypePrecommit ∧
    nce_Hash te0 = bid_Hash (sa_Maj23 sa) ∧ bid_Hash (sa_Maj23 sa) ≠ [] ∧
    nce_ChainID te0 = nce_ChainID (cs_NcExtra s0) ∧
    nce_Height te0 = u64 (nce_Height (cs_NcExtra s0) + 1) ∧
    tb_NcExtra b = Some (seal_extra te0 (sa_MakeCommit sa) save broadcast).

(** The rounds that the node may be in. *)
Variable R : Z → Prop.

(** A precommit of a block has its prevotes, of the round of the vote or of a later one. *)
Definition precommit_ok (s0 : CState) (v : Vote) : Prop :=
  ∃ sa r, verified s0 sa ∧ sa_Type sa = VoteTypePrevote ∧ sa_Maj23 sa = vote_BlockID v ∧
    R r ∧ vote_Round v = u64 r ∧ r <= sa_Round sa.

(** [b] was locked on prevotes of this height. *)
Definition was_locked (s0 : CState) (b : TdmBlock) : Prop :=
  ∃ b0 hash round, sealed_from b0 b ∧ tb_Hash (Some b0) = Ret hash ∧ polka s0 round hash.

(** [b] extends the last block of this chain. *)
Definition extends_chain (s0 : CState) (b : TdmBlock) : Prop :=
  ∃ te, tb_NcExtra b = Some te ∧ nce_ChainID te = nce_ChainID (cs_NcExtra s0) ∧
    nce_Height te = u64 (nce_Height (cs_NcExtra s0) + 1).

(** A prevote of a block is for one that was locked, or for the next one of the chain. *)
Definition prevote_ok (s0 : CState) (v : Vote) : Prop :=
  ∃ b, tb_Hash (Some b) = Ret (bid_Hash (vote_BlockID v)) ∧
    (was_locked s0 b ∨ extends_chain s0 b).

Definition vote_ok (s0 : CState) (v : Vote) : Prop :=
  bid_Hash (vote_BlockID v) ≠ [] →
  (vote_Type v = VoteTypePrecommit → precommit_ok s0 v) ∧
  (vote_Type v = VoteTypePrevote → prevote_ok s0 v).

Definition effect_ok (s0 : CState) (e : Effect) : Prop :=
  match e with
  | BackendCommit b => commit_ok s0 b
  | SendInternal (VoteMessage (Some v)) => vote_ok s0 v
  | Fire (EventVote2Proposer v _) => vote_ok s0 v
  | _ => True
  end.

(** [s] is reached inside a step that began in [s0]. *)
Record from (s0 s : CState) : Prop := {
  fr_round : R (cs_Round s);
  fr_vals : cs_Validators s = cs_Validators s0;
  fr_height : cs_Height s = cs_Height s0;
  fr_chain : nce_ChainID (cs_NcExtra s) = nce_ChainID (cs_NcExtra s0);
  fr_last : nce_Height (cs_NcExtra s) = nce_Height (cs_NcExtra s0);
  fr_aggr : aggr_ok s;
  fr_lock : lock_ok s;
  fr_out : ∃ new, cs_out s = cs_out s0 ++ new ∧ Forall (effect_ok s0) new
}.

Lemma from_verified s0 s sa : from s0 s → verified s sa → verified s0 sa.
Proof. intros [_ Hv Hh _ _ _ _ _]. unfold verified. by rewrite Hv, Hh. Qed.

Lemma from_emit s0 s e :
  effect_ok s0 e → from s0 s → from s0 (set_out (cs_out s ++ [e]) s).
Proof.
  intros He [? ? ? ? ? ? ? (new & Ho & Hn)]. constructor; try assumption.
  exists (new ++ [e]). cbn. rewrite Ho, <-app_assoc. split; [done|].
  by apply Forall_app_2; [|apply Forall_singleton].
Qed.

Lemma from_aggr s0 s aggr :
  keeps_stored (cs_VoteSignAggr s) aggr → from s0 s → from s0 (set_VoteSignAggr aggr s).
Proof.
  intros Hk [? ? ? ? ? Ha ? ?]. constructor; try assumption.
  intros r t sa Hs. apply Ha. by apply Hk.
Qed.

Lemma from_unlock s0 s : from s0 s → from s0 (unlock s).
Proof. intros [? ? ? ? ? ? ? ?]. constructor; try assumption. by intros b. Qed.

End safety.

(** An update of a field that the invariant does not read. *)
Ltac frame :=
  match goal with
  | H : from _ _ _ |- from _ _ _ => destruct H; constructor; assumption
  end.

#[export] Hint Resolve stable_ret stable_lift stable_panic : consensus.

(** Going through a handler: [fr] closes the updates of irrelevant fields, [em] the
    emitted effects; the handlers already proved stable are hints. *)
Ltac stab_with fr em :=
  repeat first
    [ progress cbn beta iota
    | solve [auto with consensus nocore]
    | match goal with
      | |- stable _ (get ≫= _) =>
          apply stable_get; intros ? ?; eapply wp_of_stable; [|eassumption]
      | |- stable _ (lift _ ≫= _) => apply stable_lift_bind; intros ? ?
      | |- stable _ (_ ≫= _) => apply stable_bind; [|intros ?]
      | |- stable _ (modify _) => apply stable_modify; intros ? ?; try fr
      | |- stable _ (emit _) => apply stable_modify; intros ? ?; em
      | |- stable _ (fire _) => apply stable_modify; intros ? ?; em
      | |- stable _ (cm_iter _ _) => apply stable_iter; intros ?
      | |- stable _ (match ?x with _ => _ end) => destruct x
      end ].

Ltac stab :=
  stab_with ltac:(idtac; frame) ltac:(idtac; apply from_emit; [try exact I|assumption]).

(** ** Handlers that neither lock, commit nor precommit a block *)

Section stable_handlers.
Context {LIB : NeatLib} {MLIB : MerkleLib} {BLIB : BlockLib} {WIRE : EpochWire} {VLIB : VrfLib}.
Variable E : Env.
Variable R : Z → Prop.
Variable s0 : CState.

Lemma from_round s : from R s0 s → R (cs_Round s).
Proof. apply fr_round. Qed.
Hint Resolve from_round : consensus.

Lemma updateProposer_stable : stable (from R s0) (updateProposer E).
Proof. unfold updateProposer. stab. Qed.
Hint Resolve updateProposer_stable : consensus.

Lemma GetProposer_stable : stable (from R s0) (GetProposer E).
Proof. unfold GetProposer. stab. Qed.
Hint Resolve GetProposer_stable : consensus.

Lemma IsProposer_stable : stable (from R s0) (IsProposer E).
Proof. unfold IsProposer. stab. Qed.
Hint Resolve IsProposer_stable : consensus.

Lemma updateRoundStep_stable r st : R r → stable (from R s0) (updateRoundStep r st).
Proof. intros HR. unfold updateRoundStep. stab. Qed.
Hint Resolve updateRoundStep_stable : consensus.

Lemma newStep_stable : stable (from R s0) newStep.
Proof. unfold newStep. stab. Qed.
Hint Resolve newStep_stable : consensus.

Lemma scheduleTimeout_stable d h r st : stable (from R s0) (scheduleTimeout d h r st).
Proof. unfold scheduleTimeout. stab. Qed.
Hint Resolve scheduleTimeout_stable : consensus.

(** Messages to itself other than votes. *)
Lemma sendInternalMessage_stable msg :
  (∀ v, msg ≠ VoteMessage (Some v)) → stable (from R s0) (sendInternalMessage msg).
Proof.
  intros Hm. unfold sendInternalMessage. stab. destruct msg as [| | |[v|]]; try exact I. by destruct (Hm v).
Qed.

(** The vote is signed for the current round. *)
Lemma signAddVote_wp type_ hash header s :
  from R s0 s →
  (∀ v, vote_Type v = type_ → vote_BlockID v = mkBlockID hash header →
     vote_Round v = u64 (cs_Round s) → vote_ok R s0 v) →
  wp (signAddVote E type_ hash header) (λ _ s', from R s0 s') s.
Proof.
  intros Hs Hv. unfold signAddVote. apply cwp_bind, wp_get.
  destruct (env_privValidator E) as [priv|]; [|done]. destruct (negb _); [done|].
  unfold signVote. do 2 apply cwp_bind. apply wp_get.
  destruct (GetByAddress _ _) as [i o]. apply cwp_ret, cwp_bind.
  eapply wp_stable; [apply IsProposer_stable|exact Hs|]. intros isp s' Hs'.
  destruct isp; cbn [negb].
  - apply wp_emit, from_emit; [|done]. by apply Hv.
  - destruct (negb _); [|exact Hs']. apply wp_emit, from_emit; [|done]. by apply Hv.
Qed.

Lemma vote_nil_stable type_ header : stable (from R s0) (signAddVote E type_ [] header).
Proof. intros s Hs. apply signAddVote_wp; [done|]. intros v _ E2 _ Hh. destruct Hh. by rewrite E2. Qed.
Hint Resolve vote_nil_stable : consensus.

Lemma precommitNil_stable : stable (from R s0) (precommitNil E).
Proof. apply vote_nil_stable. Qed.
Hint Resolve precommitNil_stable : consensus.

Lemma createProposalBlock_stable : stable (from R s0) (createProposalBlock E).
Proof. unfold createProposalBlock. stab. Qed.
Hint Resolve createProposalBlock_stable : consensus.

Lemma defaultDecideProposal_stable h r : stable (from R s0) (defaultDecideProposal E h r).
Proof. unfold defaultDecideProposal. stab; by apply sendInternalMessage_stable. Qed.
Hint Resolve defaultDecideProposal_stable : consensus.

Lemma enterPrevoteWait_stable h r : R r → stable (from R s0) (enterPrevoteWait E h r).
Proof. intros HR. unfold enterPrevoteWait. stab. Qed.
Hint Resolve enterPrevoteWait_stable : consensus.

Lemma execute_proposal_stable b : stable (from R s0) (execute_proposal E b).
Proof. unfold execute_proposal. stab. Qed.
Hint Resolve execute_proposal_stable : consensus.

Lemma check_next_epoch_stable b : stable (from R s0) (check_next_epoch E b).
Proof. unfold check_next_epoch. stab. Qed.
Hint Resolve check_next_epoch_stable : consensus.

Lemma from_locked s b : from R s0 s → cs_LockedBlock s = Some b → was_locked s0 b.
Proof.
  intros Hs Hb. destruct (fr_lock _ _ _ Hs b Hb) as (b0 & hash & Hsl & Hh & sa & Hver & Hp).
  exists b0, hash, (cs_LockedRound s). split_and!; [done|done|]. exists sa.
  split; [by eapply from_verified|done].
Qed.

Lemma prevote_stable hash header b :
  tb_Hash (Some b) = Ret hash → was_locked s0 b ∨ extends_chain s0 b →
  stable (from R s0) (signAddVote E VoteTypePrevote hash header).
Proof.
  intros Hh Hb s Hs. apply signAddVote_wp; [done|]. intros v Ht Hid _ _.
  rewrite Ht. split; [done|]. intros _. exists b. by rewrite Hid.
Qed.

Lemma defaultDoPrevote_stable h r : stable (from R s0) (defaultDoPrevote E h r).
Proof.
  unfold defaultDoPrevote, prevoteNil. apply stable_get. intros s Hs.
  destruct (cs_LockedBlock s) as [b|] eqn:Hb.
  { apply cwp_bind, wp_lift. intros hash Hh. eapply prevote_stable; [done| |done].
    left. by eapply from_locked. }
  destruct (cs_ProposalBlock s) as [b|]; [|by apply vote_nil_stable].
  apply cwp_bind, wp_lift. intros ok Hok. destruct ok; [|by apply vote_nil_stable].
  apply ValidateBasic_true in Hok as (te & Hte & Hc & Hht).
  assert (extends_chain s0 b) as Hext
    by (exists te; by rewrite <-(fr_chain _ _ _ Hs), <-(fr_last _ _ _ Hs)).
  eapply wp_of_stable; [|exact Hs]. cbn [negb]. stab.
  eapply prevote_stable; [eassumption|by right].
Qed.
Hint Resolve defaultDoPrevote_stable : consensus.

Lemma enterPrevote_stable h r : R r → stable (from R s0) (enterPrevote E h r).
Proof. intros HR. unfold enterPrevote. stab. Qed.
Hint Resolve enterPrevote_stable : consensus.

Lemma main_chain_task_stable flag clear task :
  (∀ te, nce_ChainID (clear te) = nce_ChainID te ∧ nce_Height (clear te) = nce_Height te) →
  (∀ h, effect_ok R s0 (task h)) → stable (from R s0) (main_chain_task E flag clear task).
Proof.
  intros Hc Ht. unfold main_chain_task. stab.
  match goal with H : from _ _ ?s |- from _ _ (set_NcExtra _ ?s) =>
    destruct (Hc (cs_NcExtra s)); destruct H end.
  constructor; try assumption; cbn; congruence.
Qed.

Lemma enterPropose_stable h r : R r → stable (from R s0) (enterPropose E h r).
Proof. intros HR. unfold enterPropose. stab; by apply main_chain_task_stable. Qed.
Hint Resolve enterPropose_stable : consensus.

Lemma propose_or_wait_stable h r : R r → stable (from R s0) (propose_or_wait E h r).
Proof. intros HR. unfold propose_or_wait. stab. Qed.
Hint Resolve propose_or_wait_stable : consensus.

Lemma enterPrecommitWait_stable h r : R r → stable (from R s0) (enterPrecommitWait E h r).
Proof. intros HR. unfold enterPrecommitWait. stab. Qed.
Hint Resolve enterPrecommitWait_stable : consensus.


(** Moving the aggregates to another round. *)
Lemma move_aggr_stable (f : HeightVoteSignAggr → outcome HeightVoteSignAggr) (k : CState → CM ()) :
  (∀ h h', f h = Ret h' → keeps_stored h h') → (∀ s, stable (from R s0) (k s)) →
  stable (from R s0) (s ← get; aggr ← lift (f (cs_VoteSignAggr s));
                    modify (set_VoteSignAggr aggr);; k s).
Proof.
  intros Hf Hk. apply stable_get. intros s Hs. apply cwp_bind, wp_lift. intros aggr Ha.
  apply cwp_bind, wp_modify. apply Hk. apply from_aggr; [by apply Hf|done].
Qed.

Lemma enterNewRound_stable h r : R r → stable (from R s0) (enterNewRound E h r).
Proof.
  intros HR.
  unfold enterNewRound. apply stable_get. intros s Hs. destruct (_ || _); [done|].
  eapply wp_of_stable; [|exact Hs]. do 2 (apply stable_bind; [stab|intros _]).
  apply (move_aggr_stable (λ hvs, hva_SetRound hvs (i64 (r + 1)))); [intros ???; by eapply SetRound_keeps|].
  intros s'. stab.
Qed.
Hint Resolve enterNewRound_stable : consensus.

Lemma enterLowerRound_stable h r : R r → stable (from R s0) (enterLowerRound E h r).
Proof.
  intros HR.
  unfold enterLowerRound. do 3 (apply stable_bind; [stab|intros _]).
  apply (move_aggr_stable (λ hvs, hva_ResetTop2Round hvs (i64 (r + 1))));
    [intros ???; by eapply ResetTop2Round_keeps|]. intros s'. stab.
Qed.
Hint Resolve enterLowerRound_stable : consensus.

(** *** Precommit *)

Lemma HashesTo_true b hash :
  tb_HashesTo b hash = Ret true → ∃ b', b = Some b' ∧ tb_Hash b = Ret hash ∧ hash ≠ [].
Proof.
  unfold tb_HashesTo. case_bool_decide as Hh; [done|]. destruct b as [b|]; [|done].
  destruct (tb_Hash (Some b)) as [h'|] eqn:Eh; cbn; [|done].
  intros [= <-%bytes_Equal_true]. by exists b.
Qed.

Lemma from_lock s round b parts hash :
  from R s0 s → tb_Hash (Some b) = Ret hash → polka s round hash →
  from R s0 (set_LockedRound round (set_LockedBlock (Some b) (set_LockedBlockParts parts s))).
Proof.
  intros [? ? ? ? ? ? ? ?] Hb Hp. constructor; try assumption.
  intros b' [= <-]. exists b, hash. split; [by left|]. split; [done|exact Hp].
Qed.

Lemma precommit_polka_wp round sa s :
  from R s0 s → stored (cs_VoteSignAggr s) round VoteTypePrevote = Some sa → cs_Round s <= round →
  bid_Hash (sa_Maj23 sa) ≠ [] →
  wp (precommit_polka E round (sa_Maj23 sa)) (λ _ s', from R s0 s') s.
Proof.
  intros Hs Hsa Hr Hne. destruct (fr_aggr _ _ _ Hs _ _ _ Hsa) as (Hver & Hround & Htype).
  assert (polka s round (bid_Hash (sa_Maj23 sa))) as Hp by by exists sa.
  assert (∀ v, vote_Type v = VoteTypePrecommit →
    vote_BlockID v = mkBlockID (bid_Hash (sa_Maj23 sa)) (bid_PartsHeader (sa_Maj23 sa)) →
    vote_Round v = u64 (cs_Round s) → vote_ok R s0 v) as Hvote.
  { intros v Hvt Hb Hvr _. rewrite Hvt. split; [intros _|done].
    exists sa, (cs_Round s). rewrite Hb.
    split_and!; [by eapply from_verified|done|by destruct (sa_Maj23 sa)|by apply from_round|done|lia]. }
  unfold precommit_polka. apply cwp_bind, wp_get. apply cwp_bind, wp_lift. intros relock Hre.
  destruct relock.
  - apply HashesTo_true in Hre as (b & Hb & Hh & _).
    apply cwp_bind, wp_modify, cwp_bind, wp_emit. apply signAddVote_wp; [|intros; by apply Hvote].
    apply from_emit; [exact I|]. rewrite Hb in Hh.
    destruct Hs. constructor; try assumption. intros b' Hb'. cbn in Hb'. rewrite Hb in Hb'. injection Hb' as <-.
    exists b, (bid_Hash (sa_Maj23 sa)). split; [by left|]. done.
  - apply cwp_bind, wp_lift. intros _ _. apply cwp_bind, wp_lift. intros mine Hm.
    destruct (cs_ProposalBlock s) as [b|] eqn:Hb; [destruct mine|].
    + apply HashesTo_true in Hm as (b' & [= <-] & Hh & _).
      apply cwp_bind, wp_lift. intros ok Hok. apply cwp_bind. destruct ok; [|done]. apply cwp_ret.
      apply cwp_bind, wp_modify, cwp_bind, wp_emit. rewrite Hb.
      apply signAddVote_wp; [|intros; by apply Hvote].
      apply from_emit; [exact I|]. by eapply from_lock.
    + eapply wp_of_stable; [|exact Hs]. stab; by apply from_unlock.
    + eapply wp_of_stable; [|exact Hs]. stab; by apply from_unlock.
Qed.

Lemma TwoThirds_Some osa b :
  sa_TwoThirdsMajority osa = (b, true) → ∃ sa, osa = Some sa ∧ b = sa_Maj23 sa.
Proof.
  destruct osa as [sa|]; [|done]. cbn. destruct (bid_IsZero _); [done|]. intros [= <-]. by exists sa.
Qed.

Lemma enterPrecommit_stable h r : R r → stable (from R s0) (enterPrecommit E h r).
Proof.
  intros HR.
  unfold enterPrecommit. apply stable_get. intros s Hs. destruct (_ || _) eqn:G; [done|].
  apply cwp_bind, wp_lift. intros prevotes Hpv. apply cwp_bind.
  apply (cwp_mono _ (λ _ s', from R s0 s')).
  { intros ? s' Hs'. eapply wp_of_stable; [|exact Hs']. stab. }
  unfold hva_Prevotes in Hpv. rewrite getSignAggr_stored in Hpv by done. injection Hpv as Hpv.
  destruct (sa_TwoThirdsMajority prevotes) as [b ok] eqn:Hm. destruct ok.
  - apply TwoThirds_Some in Hm as (sa & -> & ->). apply cwp_bind, wp_emit, cwp_bind, wp_lift.
    intros pol _. apply cwp_bind. destruct (pol.1 <? r); [done|]. apply cwp_ret.
    case_bool_decide as Hh.
    + eapply wp_of_stable; [|by apply from_emit]. stab; by apply from_unlock.
    + apply precommit_polka_wp; [by apply from_emit|done| |done].
      apply orb_false_iff in G as [[_ G%Z.ltb_ge]%orb_false_iff _]. exact G.
  - eapply wp_of_stable; [|exact Hs]. stab.
Qed.
Hint Resolve enterPrecommit_stable : consensus.


(** *** Commit *)

Lemma sealed_again b0 b c save broadcast :
  sealed_from b0 b → tb_NcExtra b0 ≠ None → sealed_from b0 (seal_block c save broadcast b).
Proof.
  intros [->|(te & c' & f1 & f2 & H0 & H1 & H2)] Hne; right.
  - destruct (tb_NcExtra b0) as [te|] eqn:Et; [|done].
    do 4 eexists. split; [done|]. unfold seal_block. cbn. rewrite Et. done.
  - exists te. do 3 eexists. split; [done|]. unfold seal_block. cbn. rewrite H1, H2. done.
Qed.

Lemma tb_Hash_extra b h : tb_Hash (Some b) = Ret h → tb_NcExtra b ≠ None.
Proof. unfold tb_Hash, tb_extra. by destruct (tb_NcExtra b). Qed.

Lemma tb_Hash_Some b te h :
  tb_NcExtra b = Some te → tb_Hash (Some b) = Ret h → h ≠ [] → h = nce_Hash te.
Proof.
  unfold tb_Hash, tb_extra. intros ->. cbn. destruct (nce_SeenCommit te); intros [= <-]; done.
Qed.

Lemma from_seal s c save broadcast (b : option TdmBlock) (locked : bool) :
  from R s0 s →
  from R s0 (set_ProposalBlock b
    (if locked then set_LockedBlock (seal_block c save broadcast <$> cs_LockedBlock s) s else s)).
Proof.
  intros Hs. destruct locked; [|frame]. destruct Hs as [? ? ? ? ? ? Hl ?].
  constructor; try assumption. intros b' Hb'. cbn in Hb'.
  destruct (cs_LockedBlock s) as [bl|] eqn:El; [|done]. cbn in Hb'. injection Hb' as <-.
  destruct (Hl bl El) as (b0 & hash & Hsl & Hh & Hp). exists b0, hash.
  split; [|done]. apply sealed_again; [done|]. by eapply tb_Hash_extra.
Qed.

Lemma finalizeCommit_stable h : stable (from R s0) (finalizeCommit E h).
Proof.
  unfold finalizeCommit. apply stable_get. intros s Hs. destruct (_ || _); [done|].
  apply cwp_bind, wp_lift. intros precommits Hpc. unfold hva_Precommits in Hpc.
  rewrite getSignAggr_stored in Hpc by done. injection Hpc as Hpc.
  destruct precommits as [sa|]; [|done].
  destruct (sa_TwoThirdsMajority (Some sa)) as [b ok] eqn:Hm. destruct ok; [|done].
  apply TwoThirds_Some in Hm as (? & [= <-] & ->).
  destruct (fr_aggr _ _ _ Hs _ _ _ Hpc) as (Hver & _ & Htype).
  destruct (negb _); [done|]. apply cwp_bind, wp_lift. intros mine Hmine.
  destruct (cs_ProposalBlock s) as [block|]; [|done]. destruct mine; [|done].
  apply HashesTo_true in Hmine as (? & [= <-] & Hh & Hne).
  apply cwp_bind, wp_lift. intros ok Hok. destruct ok; [|done].
  apply ValidateBasic_true in Hok as (te & Hte & Hchain & Hheight).
  apply cwp_bind, wp_lift. intros te' Hte'. unfold tb_extra in Hte'. rewrite Hte in Hte'.
  injection Hte' as <-. destruct (_ <? _); [|done].
  apply cwp_bind, wp_lift. intros broadcast _. cbn zeta. apply cwp_bind, wp_lift. intros locked _.
  apply cwp_bind, wp_modify, cwp_bind, wp_emit, cwp_bind, wp_emit, wp_emit.
  apply from_emit; [|do 2 (apply from_emit; [exact I|]); by apply from_seal].
  destruct Hs as [_ Hv Hht Hc Hl _ _ _]. unfold effect_ok, commit_ok.
  exists sa, te. do 2 eexists. split_and!.
  - unfold verified in *. by rewrite <-Hv, <-Hht.
  - done.
  - symmetry. by eapply tb_Hash_Some.
  - done.
  - by rewrite Hchain.
  - by rewrite Hheight, Hl.
  - unfold seal_block. cbn. rewrite Hte. reflexivity.
Qed.
Hint Resolve finalizeCommit_stable : consensus.

Lemma tryFinalizeCommit_stable h : stable (from R s0) (tryFinalizeCommit E h).
Proof. unfold tryFinalizeCommit. stab. Qed.
Hint Resolve tryFinalizeCommit_stable : consensus.

Lemma enterCommit_stable h r : stable (from R s0) (enterCommit E h r).
Proof. unfold enterCommit. stab. Qed.
Hint Resolve enterCommit_stable : consensus.

(** *** Messages *)

Lemma accept_proposal_stable p : stable (from R s0) (accept_proposal p).
Proof. unfold accept_proposal. stab. Qed.
Hint Resolve accept_proposal_stable : consensus.

Lemma defaultSetProposal_stable p : (∀ q, p = Some q → R (prop_Round q)) → stable (from R s0) (defaultSetProposal E p).
Proof.
  intros HR. unfold defaultSetProposal, refuse_signature. stab. apply enterLowerRound_stable. by apply HR.
Qed.
Hint Resolve defaultSetProposal_stable : consensus.

Lemma addProposalBlockPart_stable h r part verify :
  stable (from R s0) (addProposalBlockPart E h r part verify).
Proof. unfold addProposalBlockPart. stab. Qed.
Hint Resolve addProposalBlockPart_stable : consensus.

Lemma unlock_on_pol_stable sa : stable (from R s0) (unlock_on_pol sa).
Proof. unfold unlock_on_pol. stab; by apply from_unlock. Qed.
Hint Resolve unlock_on_pol_stable : consensus.


(** A verified aggregate may be stored. *)
Lemma from_AddSignAggr s sa added :
  from R s0 s → verified s sa → hva_AddSignAggr (cs_VoteSignAggr s) sa = Ret added →
  from R s0 (set_VoteSignAggr (fst added) s).
Proof.
  intros [? ? ? ? ? Ha ? ?] Hv Hadd.
  destruct (AddSignAggr_spec (cs_VoteSignAggr s) sa)
    as (hvs' & a & He & _ & _ & _ & _ & _ & _ & Hst).
  rewrite Hadd in He. injection He as ->. constructor; try assumption.
  intros r t sa' Hs. cbn in Hs. rewrite Hst in Hs.
  destruct (Z.eqb_spec r (sa_Round sa)) as [->|], (Z.eqb_spec t (sa_Type sa)) as [->|], a;
    cbn in Hs; try (by apply Ha). injection Hs as <-. done.
Qed.

Lemma setMaj23SignAggr_stable sa : stable (from R s0) (setMaj23SignAggr E sa).
Proof.
  unfold setMaj23SignAggr. apply stable_get. intros s Hs.
  destruct (Z.eqb_spec (sa_Height sa) (cs_Height s)) as [Hh|]; [|done]. cbn [negb].
  apply cwp_bind, wp_lift. intros [maj23 err] Hv. destruct maj23; [|done]. destruct err; [done|].
  destruct (negb _); [done|]. apply cwp_bind, wp_lift. intros added Ha.
  apply cwp_bind, wp_modify. eapply wp_of_stable; [|by eapply from_AddSignAggr]. stab.
Qed.
Hint Resolve setMaj23SignAggr_stable : consensus.

Lemma handleSignAggr_stable sa : stable (from R s0) (handleSignAggr E sa).
Proof. unfold handleSignAggr. stab. Qed.
Hint Resolve handleSignAggr_stable : consensus.

Lemma sendMaj23SignAggr_stable t : stable (from R s0) (sendMaj23SignAggr t).
Proof. unfold sendMaj23SignAggr. stab. by apply sendInternalMessage_stable. Qed.
Hint Resolve sendMaj23SignAggr_stable : consensus.

Lemma cs_addVote_stable v k : stable (from R s0) (cs_addVote E v k).
Proof. unfold cs_addVote, votes_of. stab. Qed.
Hint Resolve cs_addVote_stable : consensus.

Lemma tryAddVote_stable v k : stable (from R s0) (tryAddVote E v k).
Proof. unfold tryAddVote. stab. Qed.
Hint Resolve tryAddVote_stable : consensus.

Lemma handleMsg_stable msg k :
  (∀ p, msg = ProposalMessage (Some p) → R (prop_Round p)) → stable (from R s0) (handleMsg E msg k).
Proof.
  intros HR. unfold handleMsg. stab.
  apply defaultSetProposal_stable. intros q ->. by apply HR.
Qed.

Lemma handleTimeout_stable ti :
  R (ti_Round ti) → R (i64 (ti_Round ti + 1)) → R 0 → stable (from R s0) (handleTimeout E ti).
Proof. intros H1 H2 H3. unfold handleTimeout. stab. Qed.

End stable_handlers.

(** ** Steps and reachable states *)

Section steps.
Context {LIB : NeatLib} {LAWS : NeatLibLaws} {MLIB : MerkleLib} {BLIB : BlockLib}.
Context {WIRE : EpochWire} {VLIB : VrfLib}.

Record cs_inv (s : CState) : Prop := {
  inv_aggr : aggr_ok s;
  inv_lock : lock_ok s;
  inv_height : cs_Height s = u64 (nce_Height (cs_NcExtra s) + 1)
}.

(** The states that a run of the node goes through; the clock and the chain may be
    different at every step. *)
Inductive cs_reachable : CState → Prop :=
| reach_start E s s' : StartNewHeight E s = Ret ((), s') → cs_reachable s'
| reach_step E ev s s' : cs_reachable s → handle E ev s = Ret ((), s') → cs_reachable s'.

(** The effects of a step. *)
Definition new_effects (s s' : CState) : list Effect := drop (length (cs_out s)) (cs_out s').

(** The rounds that an event brings. *)
Definition event_rounds (R : Z → Prop) (ev : NodeEvent) : Prop :=
  match ev with
  | MsgEvent (ProposalMessage (Some p)) _ => R (prop_Round p)
  | TimeoutEvent ti => R (ti_Round ti) ∧ R (i64 (ti_Round ti + 1)) ∧ R 0
  | _ => True
  end.

Lemma from_refl R s : R (cs_Round s) → cs_inv s → from R s s.
Proof.
  intros HR [? ? ?]. constructor; try done. exists []. by rewrite app_nil_r.
Qed.

Lemma from_inv R s s' : cs_inv s → from R s s' → cs_inv s'.
Proof. intros [_ _ Hh] [? ? He ? Hl ? ? ?]. constructor; try done. by rewrite He, Hh, Hl. Qed.

Definition step_ok (R : Z → Prop) (s s' : CState) : Prop :=
  cs_inv s' ∧ ∃ new, cs_out s' = cs_out s ++ new ∧ Forall (effect_ok R s) new.

Lemma from_step R s s' : cs_inv s → from R s s' → step_ok R s s'.
Proof. intros Hi Hf. split; [by eapply from_inv|apply Hf]. Qed.

Lemma UpdateToState_wp E state s :
  wp (UpdateToState E state) (λ _ s', cs_inv s' ∧ cs_out s' = cs_out s ++ [Fire EventNewRoundStep]) s.
Proof.
  unfold UpdateToState. apply cwp_bind, wp_get. destruct (sm_NcExtra state) as [te|]; [|done].
  destruct (sm_Epoch state) as [ep|]; [|done]. cbn zeta.
  apply cwp_bind, wp_lift. intros [[? validators]|] _; [|done].
  apply cwp_bind, wp_lift. intros votes _. apply cwp_bind, wp_lift. intros aggrs Ha.
  apply cwp_bind, wp_modify, cwp_bind, wp_modify, wp_emit. split; [|done]. constructor; cbn.
  - intros r t sa Hs. cbn in Hs. by rewrite (NewHeightVoteSignAggr_empty _ _ _ _ r t Ha) in Hs.
  - by intros b.
  - done.
Qed.

Lemma StartNewHeight_wp R E s : wp (StartNewHeight E) (λ _ s', step_ok R s s') s.
Proof.
  unfold StartNewHeight. apply cwp_bind, wp_get, cwp_bind, wp_lift. intros state _.
  apply cwp_bind. eapply cwp_mono; [|apply UpdateToState_wp]. intros ? s1 [[Ha Hl Hh] Ho].
  apply cwp_bind, cwp_bind, wp_modify, wp_emit, cwp_bind, wp_get, wp_emit.
  split; [by constructor|]. cbn. rewrite Ho, <-!app_assoc. eexists. split; [done|].
  repeat constructor.
Qed.

Lemma handle_wp R E ev s : R (cs_Round s) → event_rounds R ev → cs_inv s → wp (handle E ev) (λ _ s', step_ok R s s') s.
Proof.
  intros HR Hev Hi. pose proof (from_refl R s HR Hi) as Hfr. destruct ev as [msg k|ti|block|n|e]; cbn [handle].
  - eapply cwp_mono; [|apply handleMsg_stable; [|exact Hfr]]; [intros ? s'; by apply from_step|by intros p ->].
  - destruct Hev as (H1 & H2 & H3). eapply cwp_mono; [|by apply handleTimeout_stable]. intros ? s'. by apply from_step.
  - unfold onRequest. apply cwp_bind, wp_get. destruct (_ <=? _).
    + apply cwp_bind. destruct (_ <=? _).
      * eapply cwp_mono; [|apply StartNewHeight_wp]. intros ? s' [[? ? ?] Ho]. by split.
      * apply cwp_ret, wp_modify, from_step; [done|]. destruct Hfr. by constructor.
    + by apply cwp_ret, from_step.
  - unfold onFinalCommitted. apply cwp_bind, wp_get. destruct (_ =? _); [apply StartNewHeight_wp|].
    by apply cwp_ret, from_step.
  - apply wp_modify, from_step; [done|]. destruct Hfr. by constructor.
Qed.

Lemma handle_step R E ev s s' : R (cs_Round s) → event_rounds R ev → cs_inv s → handle E ev s = Ret ((), s') →
  step_ok R s s'.
Proof. intros HR Hev Hi He. pose proof (handle_wp R E ev s HR Hev Hi) as H. unfold wp in H. by rewrite He in H. Qed.

(** Without a condition on rounds. *)
Definition any_round (_ : Z) : Prop := True.

Lemma event_any_round ev : event_rounds any_round ev.
Proof. by destruct ev as [[[p|]| | |]| | | |]. Qed.

Lemma reachable_inv s : cs_reachable s → cs_inv s.
Proof.
  induction 1 as [E s s' He|E ev s s' _ IH He].
  - pose proof (StartNewHeight_wp any_round E s) as H. unfold wp in H. rewrite He in H. apply H.
  - by apply (handle_step any_round E ev s s'); [|apply event_any_round|..].
Qed.

Lemma new_effect_ok R E ev s s' e : R (cs_Round s) → event_rounds R ev →
  cs_reachable s → handle E ev s = Ret ((), s') → e ∈ new_effects s s' → effect_ok R s e.
Proof.
  intros HR Hev Hr He Hin. destruct (handle_step R E ev s s' HR Hev (reachable_inv s Hr) He) as [_ (new & Ho & Hn)].
  unfold new_effects in Hin. rewrite Ho, drop_app_length in Hin.
  by eapply Forall_forall in Hn.
Qed.


(** *** What the effects of a step are justified by *)

Lemma verified_quorum valSet sa :
  vs_Size valSet < 2 ^ 63 → vs_Validators valSet ≠ None →
  blsVerifySignAggr valSet sa = Ret (true, None) →
  quorum_marked valSet (sa_BitArray sa) (sa_Round sa) ∧
  aggregate_signed valSet (sa_BitArray sa) (sa_message sa) (sa_SignatureAggr sa).
Proof.
  intros Hn Hnil Hver. destruct (blsVerify_spec valSet sa Hn Hnil) as (maj23 & err & Hb & Hiff).
  rewrite Hver in Hb. injection Hb as <- <-. by apply Hiff.
Qed.

(** C1. In every reachable state of the round machine, a block that an event makes it
    hand to the backend carries the height and chain id expected next, its extra data
    before sealing hashes to the Maj23 of an aggregate of precommits of this height
    whose bitmap marks a quorum and whose signature verifies under the marked
    validators, and the block is sealed with the commit made from that aggregate; when
    the Maj23 is the block id that was signed and the aggregate names this chain,
    VerifyCommit accepts the sealed commit. *)
Theorem commit_safety E ev s s' b :
  cs_reachable s → handle E ev s = Ret ((), s') → BackendCommit b ∈ new_effects s s' →
  vs_Size (cs_Validators s) < 2 ^ 63 → vs_Validators (cs_Validators s) ≠ None →
  ∃ sa te0 te, tb_NcExtra b = Some te ∧
    sa_Type sa = VoteTypePrecommit ∧ sa_Height sa = cs_Height s ∧
    quorum_marked (cs_Validators s) (sa_BitArray sa) (sa_Round sa) ∧
    aggregate_signed (cs_Validators s) (sa_BitArray sa) (sa_message sa) (sa_SignatureAggr sa) ∧
    nce_Hash te0 = bid_Hash (sa_Maj23 sa) ∧
    (∃ save broadcast, te = seal_extra te0 (sa_MakeCommit sa) save broadcast) ∧
    nce_ChainID te = nce_ChainID (cs_NcExtra s) ∧ nce_Height te = cs_Height s ∧
    (sa_ChainID sa = nce_ChainID te → sa_Maj23 sa = sa_BlockID sa →
     VerifyCommit (cs_Validators s) (nce_ChainID te) (nce_Height te) (nce_SeenCommit te) = Ret None).
Proof.
  intros Hr He Hin Hn Hnil.
  destruct (new_effect_ok any_round E ev s s' _ I (event_any_round ev) Hr He Hin)
    as (sa & te0 & save & broadcast & [Hver Hh] & Ht & Hhash & Hne & Hc & Hht & Hte).
  exists sa, te0, (seal_extra te0 (sa_MakeCommit sa) save broadcast).
  destruct (verified_quorum _ sa Hn Hnil Hver) as [Hq Hs].
  assert (nce_Height te0 = cs_Height s) as Hheight
    by (rewrite Hht; symmetry; apply (inv_height _ (reachable_inv s Hr))).
  split_and!; try done; [by eauto|]. cbn. intros Hid Hm. rewrite Hheight, <-Hh.
  by apply accepted_aggregate_spec.
Qed.

(** C3. A precommit for a block that a node in a reachable state signs and sends while
    handling an event is for the Maj23 of an aggregate of prevotes of this height whose
    quorum and signature were verified, and the round of the vote, read as an int, is
    not later than the round of that aggregate. The rounds of the node and of the event
    are Go ints, and the validator set is present. *)
Theorem precommit_safety E ev s s' e v :
  cs_reachable s → handle E ev s = Ret ((), s') → e ∈ new_effects s s' →
  (e = SendInternal (VoteMessage (Some v)) ∨ ∃ key, e = Fire (EventVote2Proposer v key)) →
  vote_Type v = VoteTypePrecommit → bid_Hash (vote_BlockID v) ≠ [] →
  in_i64 (cs_Round s) → event_rounds in_i64 ev →
  vs_Size (cs_Validators s) < 2 ^ 63 → vs_Validators (cs_Validators s) ≠ None →
  ∃ sa, sa_Maj23 sa = vote_BlockID v ∧ sa_Type sa = VoteTypePrevote ∧
    sa_Height sa = cs_Height s ∧ i64 (vote_Round v) <= sa_Round sa ∧
    quorum_marked (cs_Validators s) (sa_BitArray sa) (sa_Round sa) ∧
    aggregate_signed (cs_Validators s) (sa_BitArray sa) (sa_message sa) (sa_SignatureAggr sa).
Proof.
  intros Hr He Hin Hev Ht Hne HR Hrs Hn Hnil.
  assert (vote_ok in_i64 s v) as Hv.
  { pose proof (new_effect_ok in_i64 E ev s s' _ HR Hrs Hr He Hin) as H. by destruct Hev as [->|[key ->]]. }
  destruct (proj1 (Hv Hne) Ht) as (sa & r & [Hver Hh] & Hst & Hm & Hint & Hrd & Hle). exists sa.
  destruct (verified_quorum _ sa Hn Hnil Hver) as [Hq Hs]. rewrite Hrd, i64_u64 by done. by split_and!.
Qed.

(** A prevote for a block that a node in a reachable state sends while handling an
    event is for a block with the chain id and height expected next, or for a block
    locked on verified prevotes of this height. *)
Theorem prevote_safety E ev s s' e v :
  cs_reachable s → handle E ev s = Ret ((), s') → e ∈ new_effects s s' →
  (e = SendInternal (VoteMessage (Some v)) ∨ ∃ key, e = Fire (EventVote2Proposer v key)) →
  vote_Type v = VoteTypePrevote → bid_Hash (vote_BlockID v) ≠ [] →
  ∃ b, tb_Hash (Some b) = Ret (bid_Hash (vote_BlockID v)) ∧
    ((∃ te, tb_NcExtra b = Some te ∧ nce_ChainID te = nce_ChainID (cs_NcExtra s) ∧
        nce_Height te = cs_Height s) ∨
     (∃ b0 sa, sealed_from b0 b ∧ tb_Hash (Some b0) = Ret (bid_Hash (sa_Maj23 sa)) ∧
        sa_Type sa = VoteTypePrevote ∧ sa_Height sa = cs_Height s ∧
        blsVerifySignAggr (cs_Validators s) sa = Ret (true, None))).
Proof.
  intros Hr He Hin Hev Ht Hne.
  assert (vote_ok any_round s v) as Hv.
  { pose proof (new_effect_ok any_round E ev s s' _ I (event_any_round ev) Hr He Hin) as H. by destruct Hev as [->|[key ->]]. }
  destruct (proj2 (Hv Hne) Ht) as (b & Hb & Hor). exists b. split; [done|].
  destruct Hor as [(b0 & hash & r & Hsl & Hh & sa & [Hver Hht] & Hst & _ & <- & _)|(te & Hte & Hc & Hh)].
  - right. by exists b0, sa.
  - left. exists te. split_and!; [done|done|]. rewrite Hh. symmetry.
    apply (inv_height _ (reachable_inv s Hr)).
Qed.

(** C4. In every reachable state a locked block hashes (before its sealing) to the Maj23
    of an aggregate of prevotes of this height and of the locked round whose quorum and
    signature were verified. *)
Theorem lock_safety s b :
  cs_reachable s → cs_LockedBlock s = Some b →
  vs_Size (cs_Validators s) < 2 ^ 63 → vs_Validators (cs_Validators s) ≠ None →
  ∃ b0 sa, sealed_from b0 b ∧ tb_Hash (Some b0) = Ret (bid_Hash (sa_Maj23 sa)) ∧
    bid_Hash (sa_Maj23 sa) ≠ [] ∧
    sa_Type sa = VoteTypePrevote ∧ sa_Round sa = cs_LockedRound s ∧ sa_Height sa = cs_Height s ∧
    quorum_marked (cs_Validators s) (sa_BitArray sa) (sa_Round sa) ∧
    aggregate_signed (cs_Validators s) (sa_BitArray sa) (sa_message sa) (sa_SignatureAggr sa).
Proof.
  intros Hr Hb Hn Hnil.
  destruct (inv_lock _ (reachable_inv s Hr) b Hb)
    as (b0 & hash & Hsl & Hh & sa & [Hver Hht] & Ht & Hrd & <- & Hne).
  destruct (verified_quorum _ sa Hn Hnil Hver) as [Hq Hs]. exists b0, sa. by split_and!.
Qed.


(** C8. Two blocks handed to the backend by nodes in reachable states with the same
    validators, conflicting or not, have sealed commits that share a signer with
    positive power, and the power in both bitmaps exceeds (30 - min(r1,15) -
    min(r2,15))/90 of the total. *)
Theorem conflicting_commits E1 ev1 s1 s1' b1 te1 c1 E2 ev2 s2 s2' b2 te2 c2 :
  cs_reachable s1 → handle E1 ev1 s1 = Ret ((), s1') → BackendCommit b1 ∈ new_effects s1 s1' →
  cs_reachable s2 → handle E2 ev2 s2 = Ret ((), s2') → BackendCommit b2 ∈ new_effects s2 s2' →
  cs_Validators s2 = cs_Validators s1 → powers_nonneg (cs_Validators s1) →
  vs_Size (cs_Validators s1) < 2 ^ 63 → vs_Validators (cs_Validators s1) ≠ None →
  tb_NcExtra b1 = Some te1 → nce_SeenCommit te1 = Some c1 → 0 <= commit_Round c1 < 2 ^ 63 →
  tb_NcExtra b2 = Some te2 → nce_SeenCommit te2 = Some c2 → 0 <= commit_Round c2 < 2 ^ 63 →
  (30 - Z.min (commit_Round c1) 15 - Z.min (commit_Round c2) 15) * total_power (cs_Validators s1) <
    90 * tally (λ i, marked (commit_BitArray c1) i && marked (commit_BitArray c2) i)
           (powers (cs_Validators s1)) ∧
  ∃ i v, vals (cs_Validators s1) !! i = Some v ∧ 0 < v_VotingPower v ∧
    marked (commit_BitArray c1) i = true ∧ marked (commit_BitArray c2) i = true.
Proof.
  intros Hr1 He1 Hin1 Hr2 He2 Hin2 Hv Hp Hn Hnil Ht1 Hc1 Hrd1 Ht2 Hc2 Hrd2.
  destruct (new_effect_ok any_round E1 ev1 s1 s1' _ I (event_any_round ev1) Hr1 He1 Hin1)
    as (sa1 & t1 & f1 & g1 & [Hver1 _] & _ & _ & _ & _ & _ & Hb1).
  destruct (new_effect_ok any_round E2 ev2 s2 s2' _ I (event_any_round ev2) Hr2 He2 Hin2)
    as (sa2 & t2 & f2 & g2 & [Hver2 _] & _ & _ & _ & _ & _ & Hb2).
  rewrite Ht1 in Hb1. injection Hb1 as ->. injection Hc1 as <-.
  rewrite Ht2 in Hb2. injection Hb2 as ->. injection Hc2 as <-. rewrite Hv in Hver2.
  destruct (verified_quorum _ sa1 Hn Hnil Hver1) as [Hq1 _].
  destruct (verified_quorum _ sa2 Hn Hnil Hver2) as [Hq2 _].
  split; [by apply quorum_overlap|exact (quorum_common_signer _ _ _ _ _ Hp Hrd1 Hrd2 Hq1 Hq2)].
Qed.

End steps.
