(* ===== verification/ConsensusSteps.v ===== *)
(** * Progress of the round machine and the rule of the prevotes

    The height, round and step of a node never go back, except when a proposal of a
    lower round arrives that was not seen in its time.  A prevote is for the locked block
    when there is one, and otherwise for a proposal that passed every check, or nil. *)

From Stdlib Require Import ZArith Lia ZifyBool.
From stdpp Require Import base tactics strings numbers gmap sorting list.
From S2P Require Import Prelude Types ValidatorSet VoteSet HeightVoteSet PartSet SignAggr.
From S2P Require Import EpochVotes Epoch Block Proposer RoundState Consensus ConsensusSafety.

Local Open Scope Z_scope.

(** ** Handlers that leave the height, round and step alone *)

Section hrs_defs.
Context {LIB : NeatLib} {MLIB : MerkleLib} {BLIB : BlockLib} {WIRE : EpochWire} {VLIB : VrfLib}.

Definition same_hrs (s0 s : CState) : Prop :=
  cs_Height s = cs_Height s0 ∧ cs_Round s = cs_Round s0 ∧ cs_Step s = cs_Step s0.

(** The lexicographic order within a height. *)
Definition hrs_le (s0 s : CState) : Prop :=
  cs_Height s = cs_Height s0 ∧
  (cs_Round s0 < cs_Round s ∨ (cs_Round s = cs_Round s0 ∧ cs_Step s0 <= cs_Step s)).

#[global] Instance hrs_le_refl : Reflexive hrs_le.
Proof. intros s. unfold hrs_le. lia. Qed.

#[global] Instance hrs_le_trans : Transitive hrs_le.
Proof. intros a b c. unfold hrs_le. lia. Qed.

Lemma same_hrs_le s0 s : same_hrs s0 s → hrs_le s0 s.
Proof. unfold same_hrs, hrs_le. lia. Qed.

End hrs_defs.

Ltac stab_hrs :=
  stab_with
    ltac:(idtac; first
      [ assumption
      | match goal with |- context [if ?b then _ else _] => destruct b; assumption end ])
    ltac:(idtac; assumption).

Section same_hrs.
Context {LIB : NeatLib} {MLIB : MerkleLib} {BLIB : BlockLib} {WIRE : EpochWire} {VLIB : VrfLib}.
Variable E : Env.
Variable s0 : CState.

Lemma updateProposer_same : stable (same_hrs s0) (updateProposer E).
Proof. unfold updateProposer. stab_hrs. Qed.
Hint Resolve updateProposer_same : consensus.

Lemma IsProposer_same : stable (same_hrs s0) (IsProposer E).
Proof. unfold IsProposer, GetProposer. stab_hrs. Qed.
Hint Resolve IsProposer_same : consensus.

Lemma scheduleTimeout_same d h r st : stable (same_hrs s0) (scheduleTimeout d h r st).
Proof. unfold scheduleTimeout. stab_hrs. Qed.

Lemma signAddVote_same t h p : stable (same_hrs s0) (signAddVote E t h p).
Proof. unfold signAddVote, signVote, sendInternalMessage. stab_hrs. Qed.
Hint Resolve signAddVote_same : consensus.

Lemma defaultDecideProposal_same h r : stable (same_hrs s0) (defaultDecideProposal E h r).
Proof. unfold defaultDecideProposal, createProposalBlock, sendInternalMessage. stab_hrs. Qed.
Hint Resolve defaultDecideProposal_same : consensus.

Lemma defaultDoPrevote_same h r : stable (same_hrs s0) (defaultDoPrevote E h r).
Proof.
  unfold defaultDoPrevote, prevoteNil, execute_proposal, check_next_epoch. stab_hrs.
Qed.
Hint Resolve defaultDoPrevote_same : consensus.

Lemma main_chain_task_same flag clear task :
  stable (same_hrs s0) (main_chain_task E flag clear task).
Proof. unfold main_chain_task. stab_hrs. Qed.
Hint Resolve main_chain_task_same : consensus.

Lemma precommit_polka_same r b : stable (same_hrs s0) (precommit_polka E r b).
Proof. unfold precommit_polka, precommitNil. stab_hrs. Qed.
Hint Resolve precommit_polka_same : consensus.

Lemma finalizeCommit_same h : stable (same_hrs s0) (finalizeCommit E h).
Proof. unfold finalizeCommit. stab_hrs. Qed.
Hint Resolve finalizeCommit_same : consensus.

Lemma tryFinalizeCommit_same h : stable (same_hrs s0) (tryFinalizeCommit E h).
Proof. unfold tryFinalizeCommit. stab_hrs. Qed.

Lemma accept_proposal_same p : stable (same_hrs s0) (accept_proposal p).
Proof. unfold accept_proposal. stab_hrs. Qed.

Lemma unlock_on_pol_same sa : stable (same_hrs s0) (unlock_on_pol sa).
Proof. unfold unlock_on_pol. stab_hrs. Qed.

Lemma cs_addVote_same v k : stable (same_hrs s0) (cs_addVote E v k).
Proof.
  unfold cs_addVote, votes_of, sendMaj23SignAggr, sendInternalMessage. stab_hrs.
Qed.

End same_hrs.

#[export] Hint Resolve updateProposer_same IsProposer_same scheduleTimeout_same signAddVote_same
  defaultDecideProposal_same defaultDoPrevote_same main_chain_task_same precommit_polka_same
  finalizeCommit_same tryFinalizeCommit_same accept_proposal_same unlock_on_pol_same
  cs_addVote_same : consensus.

(** ** Handlers that move forward *)

Section advances.
Context {LIB : NeatLib} {MLIB : MerkleLib} {BLIB : BlockLib} {WIRE : EpochWire} {VLIB : VrfLib}.
Variable E : Env.

Definition advances {A} (m : CM A) : Prop := ∀ s, wp m (λ _ s', hrs_le s s') s.

Lemma advances_same {A} (m : CM A) : (∀ s0, stable (same_hrs s0) m) → advances m.
Proof. intros Hm s. eapply cwp_mono; [|by apply (Hm s)]. intros a s'. cbn. apply same_hrs_le. Qed.

(** Past the part of a handler that leaves the round alone. *)
Lemma wp_same {A} (m : CM A) (Q : A → CState → Prop) s s1 :
  (∀ s0, stable (same_hrs s0) m) → same_hrs s s1 → (∀ a s', same_hrs s s' → Q a s') → wp m Q s1.
Proof. intros Hm Hs HQ. eapply cwp_mono; [|by apply (Hm s)]. eauto. Qed.

Lemma wp_advances {A} (m : CM A) s s1 : advances m → hrs_le s s1 → wp m (λ _ s', hrs_le s s') s1.
Proof. intros Hm Hs. eapply cwp_mono; [|apply Hm]. intros a s' H. by etrans. Qed.

Lemma advances_stable {A} (m : CM A) s0 : advances m → stable (hrs_le s0) m.
Proof. intros Hm s Hs. by apply wp_advances. Qed.

(** The step of a handler: a guard [cs_Round s <= round], then a new round and step. *)
Lemma updateRoundStep_wp s s1 round step (k : CM ()) :
  same_hrs s s1 → (cs_Round s < round ∨ (cs_Round s = round ∧ cs_Step s <= step)) →
  advances k → wp (updateRoundStep round step;; k) (λ _ s', hrs_le s s') s1.
Proof.
  intros (Hh & Hr & Hst) G Hk. apply cwp_bind, wp_modify. apply wp_advances; [done|].
  unfold hrs_le. cbn. lia.
Qed.

Lemma newStep_advances : advances newStep.
Proof. apply advances_same. intros s0. unfold newStep. stab_hrs. Qed.

Lemma newStep_then (k : CM ()) : advances k → advances (newStep;; k).
Proof.
  intros Hk s. apply cwp_bind. eapply cwp_mono; [|apply newStep_advances].
  intros a s' Hs. by apply wp_advances.
Qed.

(** Reading the guard of a handler. *)
Lemma guard_advances (g : CState → bool) (k : CState → CM ()) :
  (∀ s, g s = false → wp (k s) (λ _ s', hrs_le s s') s) →
  advances (s ← get; if g s then mret () else k s).
Proof.
  intros Hk s. apply cwp_bind, wp_get. destruct (g s) eqn:G; [apply cwp_ret; reflexivity|].
  by apply Hk.
Qed.

Ltac quiet :=
  apply cwp_bind; eapply wp_same;
    [intros ?; solve [stab_hrs]|eassumption || (unfold same_hrs; by split_and!)|intros ? ? ?].
Ltac enter :=
  apply guard_advances; intros s G.
Ltac step := eapply updateRoundStep_wp; [eassumption| |].
Ltac order :=
  unfold same_hrs, hrs_le, RoundStepNewHeight, RoundStepNewRound, RoundStepPropose,
    RoundStepWaitForMinerBlock,
    RoundStepPrevote, RoundStepPrevoteWait, RoundStepPrecommit, RoundStepPrecommitWait,
    RoundStepCommit in *; lia.

Lemma enterPrevoteWait_advances h r : advances (enterPrevoteWait E h r).
Proof. enter. quiet. step; [order|apply newStep_advances]. Qed.

Lemma enterPrecommitWait_advances h r : advances (enterPrecommitWait E h r).
Proof. enter. quiet. step; [order|apply newStep_advances]. Qed.

Lemma enterPrevote_advances h r : advances (enterPrevote E h r).
Proof.
  enter. quiet. apply cwp_bind, wp_get, cwp_bind.
  apply (cwp_mono _ (λ _ s', hrs_le s s')).
  { intros ? s2. apply wp_advances, enterPrevoteWait_advances. }
  destruct (cs_Step s' =? _) eqn:Hst; [|by apply cwp_ret, same_hrs_le].
  step; [order|apply newStep_advances].
Qed.

Lemma enterPropose_advances h r : advances (enterPropose E h r).
Proof.
  enter. do 4 quiet. step; [order|]. apply newStep_then. intros s1. apply cwp_bind, wp_get.
  destruct (isProposalComplete s1); [apply enterPrevote_advances|apply cwp_ret; reflexivity].
Qed.

Lemma propose_or_wait_advances h r : advances (propose_or_wait E h r).
Proof.
  intros s. unfold propose_or_wait. quiet. apply cwp_bind, wp_get.
  destruct (_ && _); [by apply wp_emit, same_hrs_le|].
  apply wp_advances; [apply enterPropose_advances|by apply same_hrs_le].
Qed.

Hint Resolve advances_stable newStep_advances enterPrevote_advances enterPropose_advances
  propose_or_wait_advances enterPrecommitWait_advances : consensus.

Ltac go := intros ?; apply (wp_of_stable (hrs_le _)); [stab_hrs|reflexivity].

Lemma enterNewRound_advances h r : advances (enterNewRound E h r).
Proof.
  enter. assert (same_hrs s s) by done. step; [order|]. unfold clear_proposal. go.
Qed.

Lemma enterPrecommit_advances h r : advances (enterPrecommit E h r).
Proof.
  enter. apply cwp_bind, wp_lift. intros prevotes _. unfold precommitNil. quiet.
  step; [order|]. go.
Qed.

Lemma same_advances {A} (m : CM A) s0 :
  (∀ s1, stable (same_hrs s1) m) → stable (hrs_le s0) m.
Proof. intros Hm. by apply advances_stable, advances_same. Qed.

Lemma enterCommit_advances h r : advances (enterCommit E h r).
Proof.
  enter. apply cwp_bind, wp_lift. intros precommits _. quiet. apply cwp_bind, wp_get.
  step; [order|]. intros s1. apply (wp_of_stable (hrs_le _)); [|reflexivity].
  apply stable_bind; [stab_hrs|intros _]. apply stable_bind; [stab_hrs|intros _].
  apply same_advances. intros s2. stab_hrs.
Qed.

Hint Resolve same_advances enterNewRound_advances enterPrecommit_advances enterCommit_advances : consensus.

Lemma addProposalBlockPart_advances h r part verify :
  advances (addProposalBlockPart E h r part verify).
Proof. unfold addProposalBlockPart. go. Qed.

Lemma handleSignAggr_advances sa : advances (handleSignAggr E sa).
Proof. unfold handleSignAggr, setMaj23SignAggr. go. Qed.

Lemma tryAddVote_advances v k : advances (tryAddVote E v k).
Proof. unfold tryAddVote. go. Qed.

Lemma handleTimeout_advances ti : advances (handleTimeout E ti).
Proof. unfold handleTimeout. go. Qed.

End advances.

(** ** Every event *)

Section progress.
Context {LIB : NeatLib} {MLIB : MerkleLib} {BLIB : BlockLib} {WIRE : EpochWire} {VLIB : VrfLib}.

(** A proposal of a round that passed without one, signed by the proposer of that round. *)
Definition late_proposal (E : Env) (s : CState) (msg : ConsensusMessage) (r : Z) : Prop :=
  ∃ p proposer vrf, msg = ProposalMessage (Some p) ∧ prop_Round p = r ∧
    prop_Height p = cs_Height s ∧ r < cs_Round s ∧ cs_Step s < RoundStepCommit ∧
    default ROUND_NOT_PROPOSED (cs_pastRoundStates s !! r) = ROUND_NOT_PROPOSED ∧
    proposerByRound (env_chain E) (ed_StartBlock (ep_data (cs_Epoch s))) (cs_Height s)
      (cs_Validators s) (Some (cs_NcExtra s)) (cs_vrfValIndex s) r = Ret (proposer, vrf) ∧
    proposal_signed_by E (vp_Proposer proposer) p = true.

(** At least round [r] of the height. *)
Definition at_least (h r : Z) (s : CState) : Prop := cs_Height s = h ∧ r <= cs_Round s.

Lemma at_least_advances {A} (m : CM A) h r : advances m → stable (at_least h r) m.
Proof.
  intros Hm s Hs. eapply cwp_mono; [|apply Hm]. intros a s'. cbn. unfold hrs_le, at_least in *. lia.
Qed.

Lemma enterLowerRound_wp E h r s :
  wp (enterLowerRound E h r) (λ _ s', at_least (cs_Height s) r s') s.
Proof.
  unfold enterLowerRound, clear_proposal. apply cwp_bind, wp_modify, cwp_bind, wp_modify.
  apply (wp_of_stable (at_least (cs_Height s) r)).
  - stab_hrs. apply at_least_advances, propose_or_wait_advances.
  - unfold at_least. cbn. lia.
Qed.

Lemma set_Proposal_wp E p s :
  wp (defaultSetProposal E p)
    (λ _ s', hrs_le s s' ∨
       ∃ r, late_proposal E s (ProposalMessage p) r ∧ at_least (cs_Height s) r s') s.
Proof.
  unfold defaultSetProposal. apply cwp_bind, wp_get. case_bool_decide; [left; reflexivity|].
  destruct p as [p|]; [|done].
  destruct (_ || _) eqn:G1; [left; reflexivity|]. destruct (RoundStepCommit <=? _) eqn:G2; [left; reflexivity|].
  destruct (_ && _); [left; reflexivity|]. destruct (Z.eqb_spec (prop_Round p) (cs_Round s)).
  { eapply cwp_mono; [|apply advances_same; intros ?; unfold refuse_signature, GetProposer; stab_hrs].
    cbn. by left. }
  apply cwp_bind, wp_lift. intros [proposer vrf] Hp. apply cwp_bind, wp_modify.
  destruct (proposal_signed_by _ _ _) eqn:Hsig; cbn [negb].
  - destruct (_ - 1 <? _); [apply cwp_ret; left; by apply same_hrs_le|].
    destruct (negb (default _ _ =? _)) eqn:G3; [apply cwp_ret; left; by apply same_hrs_le|].
    apply cwp_bind. eapply cwp_mono; [|apply enterLowerRound_wp]. intros ? s1 Hs1. cbn in Hs1.
    eapply cwp_mono; [|apply (at_least_advances _ _ _ (advances_same _ (λ s0, accept_proposal_same s0 p)) _ Hs1)].
    intros ? s2 Hs2. right. exists (prop_Round p). split; [|exact Hs2].
    exists p, proposer, vrf. split_and!; try done; lia.
  - unfold refuse_signature. destruct (prop_Signature p); [apply cwp_ret; left; by apply same_hrs_le|done].
Qed.

Lemma StartNewHeight_round E s :
  wp (StartNewHeight E) (λ _ s', cs_Round s' = 0 ∧ cs_Step s' = RoundStepNewHeight) s.
Proof.
  unfold StartNewHeight, UpdateToState, scheduleRound0.
  apply cwp_bind, wp_get, cwp_bind, wp_lift. intros state _. apply cwp_bind, cwp_bind, wp_get.
  destruct (sm_NcExtra state) as [te|]; [|done]. destruct (sm_Epoch state) as [ep|]; [|done].
  cbn zeta. apply cwp_bind, wp_lift. intros [[? validators]|] _; [|done].
  apply cwp_bind, wp_lift. intros votes _. apply cwp_bind, wp_lift. intros aggrs _.
  by apply cwp_bind, wp_modify, cwp_bind, wp_modify, wp_emit, cwp_bind, cwp_bind, wp_modify, wp_emit,
    cwp_bind, wp_get, wp_emit.
Qed.

Lemma handleMsg_wp E msg k s :
  wp (handleMsg E msg k)
    (λ _ s', hrs_le s s' ∨ ∃ r, late_proposal E s msg r ∧ at_least (cs_Height s) r s') s.
Proof.
  destruct msg as [p|h r part|sa|v]; cbn [handleMsg]; apply cwp_bind.
  - eapply cwp_mono; [|apply set_Proposal_wp]. done.
  - eapply cwp_mono; [|apply addProposalBlockPart_advances]. by left.
  - eapply cwp_mono; [|apply handleSignAggr_advances]. by left.
  - eapply cwp_mono; [|apply tryAddVote_advances]. by left.
Qed.

(** C24. Handling an event never decreases (round, step) within a height, except for a
    proposal signed by the proposer of a lower round that had passed without a proposal,
    which brings the node to that round at the lowest, and for the start of a new
    height, which begins at round 0. *)
Theorem rounds_never_go_back E ev s s' :
  handle E ev s = Ret ((), s') →
  hrs_le s s' ∨
  match ev with
  | MsgEvent msg _ => ∃ r, late_proposal E s msg r ∧ cs_Height s' = cs_Height s ∧ r <= cs_Round s'
  | RequestEvent block =>
      u64 (cs_Height s + 1) <= NumberU64 block ∧ cs_Round s' = 0 ∧ cs_Step s' = RoundStepNewHeight
  | FinalCommittedEvent n => n = cs_Height s ∧ cs_Round s' = 0 ∧ cs_Step s' = RoundStepNewHeight
  | TimeoutEvent _ | SetEpochEvent _ => False
  end.
Proof.
  intros He. destruct ev as [msg k|ti|block|n|e]; cbn [handle] in He.
  - pose proof (handleMsg_wp E msg k s) as H. unfold wp in H. by rewrite He in H.
  - pose proof (handleTimeout_advances E ti s) as H. unfold wp in H. rewrite He in H. by left.
  - revert He. unfold onRequest, mbind, CM_bind. cbn.
    destruct (_ <=? _); [|intros [= <-]; left; reflexivity].
    destruct (_ <=? _) eqn:G; [|intros [= <-]; left; by apply same_hrs_le].
    pose proof (StartNewHeight_round E s) as H. unfold wp in H.
    destruct (StartNewHeight E s) as [[? s1]|]; [|done]. intros [= <-]. right. split; [lia|done].
  - revert He. unfold onFinalCommitted, mbind, CM_bind. cbn.
    destruct (Z.eqb_spec n (cs_Height s)); [|intros [= <-]; left; reflexivity].
    pose proof (StartNewHeight_round E s) as H. unfold wp in H. intros He. rewrite He in H. by right.
  - injection He as <-. left. by apply same_hrs_le.
Qed.

End progress.

(** ** The checks before a prevote *)

Section prevote.
Context {LIB : NeatLib} {MLIB : MerkleLib} {BLIB : BlockLib} {WIRE : EpochWire} {VLIB : VrfLib}.

(** What a vote is about, for the effects that carry one. *)
Definition effect_vote (e : Effect) : option Vote :=
  match e with
  | SendInternal (VoteMessage v) => v
  | Fire (EventVote2Proposer v _) => Some v
  | _ => None
  end.

Definition votes_sent (s s' : CState) : list Vote := omap effect_vote (new_effects s s').

(** The proposal was executed, unless this node made it or has no executor. *)
Definition executed (E : Env) (s : CState) (b : TdmBlock) : Prop :=
  match env_ValidateBlock E with
  | None => True
  | Some validate => is_Some (validate (tb_Block b)) ∨ ∃ s1, IsProposer E s = Ret (true, s1)
  end.

(** A proposed next epoch is the one this node computes. *)
Definition next_epoch_ok (E : Env) (s : CState) (b : TdmBlock) : Prop :=
  ∀ te proposed, tb_NcExtra b = Some te → ep_FromBytes (nce_EpochBytes te) = Some proposed →
    ed_Number (ep_data proposed) = u64 (ed_Number (ep_data (cs_Epoch s)) + 1) →
    ShouldProposeNextEpoch (cs_Epoch s) (cs_Height s) = true →
    ValidateNextEpoch (env_epochDB E) (cs_Epoch s) (Some proposed)
      (u64 (h_Number (cr_CurrentBlock (env_chain E))))
      (i64 (h_Time (cr_CurrentBlock (env_chain E))) * 1000000000) = Ret true.

(** What the prevote of a node in state [s] may be for. *)
Definition prevote_rule (E : Env) (s : CState) (v : Vote) : Prop :=
  vote_Type v = VoteTypePrevote ∧ vote_Height v = cs_Height s ∧ vote_Round v = u64 (cs_Round s) ∧
  match cs_LockedBlock s with
  | Some b => tb_Hash (Some b) = Ret (bid_Hash (vote_BlockID v)) ∧
      bid_PartsHeader (vote_BlockID v) = ps_Header (cs_LockedBlockParts s)
  | None =>
      vote_BlockID v = mkBlockID [] psh_zero ∨
      ∃ b, cs_ProposalBlock s = Some b ∧ tb_Hash (Some b) = Ret (bid_Hash (vote_BlockID v)) ∧
        bid_PartsHeader (vote_BlockID v) = ps_Header (cs_ProposalBlockParts s) ∧
        ValidateBasic b (cs_NcExtra s) = Ret true ∧ ValidateTX4 E b = Ret true ∧
        executed E s b ∧ next_epoch_ok E s b
  end.

(** [s] has sent no vote since [s0], and is otherwise as [s0]. *)
Record silent (s0 s : CState) : Prop := {
  sil_height : cs_Height s = cs_Height s0;
  sil_round : cs_Round s = cs_Round s0;
  sil_epoch : cs_Epoch s = cs_Epoch s0;
  sil_vals : cs_Validators s = cs_Validators s0;
  sil_peer : cs_ProposerPeerKey s = cs_ProposerPeerKey s0;
  sil_out : ∃ new, cs_out s = cs_out s0 ++ new ∧ omap effect_vote new = []
}.

Lemma silent_refl s : silent s s.
Proof. constructor; try done. exists []. by rewrite app_nil_r. Qed.

Lemma silent_emit s0 s e :
  silent s0 s → effect_vote e = None → silent s0 (set_out (cs_out s ++ [e]) s).
Proof.
  intros [? ? ? ? ? (new & Ho & Hn)] He. constructor; try assumption. exists (new ++ [e]). cbn.
  rewrite Ho, <-app_assoc, omap_app, Hn. cbn. by rewrite He.
Qed.

Ltac stab_silent :=
  stab_with
    ltac:(idtac; match goal with H : silent _ _ |- _ => destruct H; constructor; assumption end)
    ltac:(idtac; apply silent_emit; [assumption|done]).

Variable E : Env.

(** The node is a validator and knows where its vote goes. *)
Definition can_vote (s : CState) : Prop :=
  (∃ priv, env_privValidator E = Some priv ∧ HasAddress (cs_Validators s) (pv_Address priv) = true) ∧
  cs_ProposerPeerKey s ≠ "".

(** One vote of [P] was sent since [s0], if the node can vote, and at most one. *)
Definition cast (P : Vote → Prop) (s0 s : CState) : Prop :=
  (votes_sent s0 s = [] ∧ ¬ can_vote s0) ∨ ∃ v, votes_sent s0 s = [v] ∧ P v.

Lemma silent_sent s0 s : silent s0 s → votes_sent s0 s = [].
Proof.
  intros [_ _ _ _ _ (new & Ho & Hn)]. unfold votes_sent, new_effects.
  by rewrite Ho, drop_app_length.
Qed.

Lemma cast_emit (P : Vote → Prop) s0 s e v :
  silent s0 s → effect_vote e = Some v → P v → cast P s0 (set_out (cs_out s ++ [e]) s).
Proof.
  intros [_ _ _ _ _ (new & Ho & Hn)] He Hv. right. exists v. split; [|done].
  unfold votes_sent, new_effects. cbn. rewrite Ho, <-app_assoc, drop_app_length, omap_app, Hn.
  cbn. by rewrite He.
Qed.

Lemma cast_none P s0 s : silent s0 s → ¬ can_vote s0 → cast P s0 s.
Proof. intros Hs Hc. left. split; [by apply silent_sent|done]. Qed.

Lemma IsProposer_silent s0 : stable (silent s0) (IsProposer E).
Proof. unfold IsProposer, GetProposer, updateProposer. stab_silent. Qed.
Hint Resolve IsProposer_silent : consensus.

Lemma signAddVote_cast (P : Vote → Prop) s0 type_ hash header s :
  silent s0 s →
  (∀ v, vote_Type v = type_ → vote_Height v = cs_Height s0 → vote_Round v = u64 (cs_Round s0) →
     vote_BlockID v = mkBlockID hash header → P v) →
  wp (signAddVote E type_ hash header) (λ _ s', cast P s0 s') s.
Proof.
  intros Hs Hv. unfold signAddVote. apply cwp_bind, wp_get.
  destruct (env_privValidator E) as [priv|] eqn:Hpriv.
  2: { apply cwp_ret, cast_none; [done|]. intros [(priv & Hp & _) _]. congruence. }
  destruct (HasAddress _ _) eqn:Hin; cbn [negb].
  2: { apply cwp_ret, cast_none; [done|]. intros [(priv' & Hp & Ha) _].
       rewrite (sil_vals _ _ Hs) in Hin. congruence. }
  unfold signVote. do 2 apply cwp_bind. apply wp_get.
  destruct (GetByAddress _ _) as [i o]. apply cwp_ret, cwp_bind.
  rewrite (sil_height _ _ Hs), (sil_round _ _ Hs), (sil_peer _ _ Hs).
  eapply wp_stable; [apply IsProposer_silent|exact Hs|]. intros isp s' Hs'.
  destruct isp; cbn [negb]; [|case_bool_decide as Hpeer; cbn [negb]].
  - eapply cast_emit; [done|done|]. by apply Hv.
  - apply cwp_ret, cast_none; [done|]. by intros [_ ?].
  - eapply cast_emit; [done|done|]. by apply Hv.
Qed.

Lemma execute_proposal_silent s0 b : stable (silent s0) (execute_proposal E b).
Proof. unfold execute_proposal. stab_silent. Qed.

Lemma execute_proposal_wp s b :
  wp (execute_proposal E b) (λ ok s', silent s s' ∧ (ok = true → executed E s b)) s.
Proof.
  pose proof (execute_proposal_silent s b s (silent_refl s)) as Hs. revert Hs.
  unfold execute_proposal, executed, wp, mbind, CM_bind.
  destruct (IsProposer E s) as [[isp s1]|] eqn:Hisp; [|done].
  destruct isp; [intros Hs; split; [exact Hs|]; intros _|].
  - destruct (env_ValidateBlock E); [right; by exists s1|done].
  - destruct (env_ValidateBlock E) as [validate|]; [|done].
    destruct (validate (tb_Block b)) as [result|]; [|done]. intros Hs. split; [exact Hs|]. by left.
Qed.

Lemma check_next_epoch_wp s0 s b :
  silent s0 s →
  wp (check_next_epoch E b) (λ ok s', s' = s ∧ (ok = true → next_epoch_ok E s0 b)) s.
Proof.
  intros Hs. unfold check_next_epoch. apply cwp_bind, wp_get, cwp_bind, wp_lift. intros te Hte.
  unfold tb_extra in Hte. unfold next_epoch_ok. rewrite <-(sil_epoch _ _ Hs), <-(sil_height _ _ Hs).
  destruct (tb_NcExtra b) as [te'|]; [|done]. injection Hte as ->.
  destruct (ep_FromBytes (nce_EpochBytes te)) as [proposed|] eqn:Hp.
  2: { split; [done|]. intros _ te' proposed [= <-]. by rewrite Hp. }
  destruct (_ && _) eqn:G.
  - apply wp_lift. intros ok Hok. split; [done|]. intros -> te' proposed' [= <-]. rewrite Hp.
    by intros [= <-].
  - split; [done|]. intros _ te' proposed' [= <-]. rewrite Hp. intros [= <-] Hn Hsh.
    apply Z.eqb_eq in Hn. by rewrite Hn, Hsh in G.
Qed.

Lemma prevoteNil_rule s0 s :
  cs_LockedBlock s0 = None → silent s0 s →
  wp (prevoteNil E) (λ _ s', cast (prevote_rule E s0) s0 s') s.
Proof.
  intros Hl Hs. apply signAddVote_cast; [done|]. intros v ? ? ? ?. unfold prevote_rule.
  rewrite Hl. split_and!; try done. by left.
Qed.

Lemma defaultDoPrevote_wp h r s :
  wp (defaultDoPrevote E h r) (λ _ s', cast (prevote_rule E s) s s') s.
Proof.
  pose proof (silent_refl s) as Hrefl.
  unfold defaultDoPrevote. apply cwp_bind, wp_get. destruct (cs_LockedBlock s) as [b|] eqn:Hl.
  { apply cwp_bind, wp_lift. intros hash Hh. apply signAddVote_cast; [done|].
    intros v ? ? ? Hid. unfold prevote_rule. rewrite Hl, Hid. done. }
  destruct (cs_ProposalBlock s) as [b|] eqn:Hb; [|by apply prevoteNil_rule].
  apply cwp_bind, wp_lift. intros ok1 Hok1. destruct ok1; [|by apply prevoteNil_rule]. cbn [negb].
  apply cwp_bind, wp_lift. intros ok2 Hok2. destruct ok2; [|by apply prevoteNil_rule]. cbn [negb].
  apply cwp_bind. eapply cwp_mono; [|apply execute_proposal_wp].
  intros ok3 s1 [Hs1 Hok3]. destruct ok3; [|by apply prevoteNil_rule]. cbn [negb].
  apply cwp_bind. eapply cwp_mono; [|by eapply check_next_epoch_wp].
  intros ok4 s2 [-> Hok4]. destruct ok4; [|by apply prevoteNil_rule]. cbn [negb].
  apply cwp_bind, wp_lift. intros hash Hh. apply signAddVote_cast; [done|].
  intros v ? ? ? Hid. unfold prevote_rule. rewrite Hl, Hid. split_and!; try done.
  right. exists b. split_and!; auto.
Qed.

(** C23. defaultDoPrevote sends at most one vote, and exactly one when the node is a
    validator and knows the peer of the proposer: a prevote of this height and round,
    for the locked block when there is one, and otherwise nil or a proposal block that
    passed the basic checks, the cross-chain checks, the execution (unless the node is
    the proposer) and the check of the next epoch. *)
Theorem prevote_follows_rule h r s s' :
  defaultDoPrevote E h r s = Ret ((), s') →
  (votes_sent s s' = [] ∧
   ¬ ((∃ priv, env_privValidator E = Some priv ∧
         HasAddress (cs_Validators s) (pv_Address priv) = true) ∧ cs_ProposerPeerKey s ≠ "")) ∨
  ∃ v, votes_sent s s' = [v] ∧ prevote_rule E s v.
Proof.
  intros He. pose proof (defaultDoPrevote_wp h r s) as H. unfold wp in H. by rewrite He in H.
Qed.

End prevote.
