(* ===== verification/ConsensusRun.v ===== *)
(** * A run of the round machine

    A node that is the only validator starts height 1, receives the block of its miner,
    and handles the messages it sends to itself until the block is committed.  The run is
    computed by the handlers themselves; it shows that the hypotheses of the safety
    theorems hold of real executions. *)

From Stdlib Require Import ZArith Lia.
From stdpp Require Import base tactics strings numbers gmap sorting list.
From S2P Require Import Prelude Types ValidatorSet VoteSet HeightVoteSet PartSet SignAggr.
From S2P Require Import EpochVotes Epoch Block Proposer RoundState Consensus ConsensusSafety ConsensusSteps.

Local Open Scope Z_scope.

Section run.
Context {LIB : NeatLib} {MLIB : MerkleLib} {BLIB : BlockLib} {WIRE : EpochWire} {VLIB : VrfLib}.
Variable E : Env.

(** Handle the messages of the trace from position [pos] on, [k] positions at most. *)
Fixpoint run (k pos : nat) (s : CState) : outcome CState :=
  match k with
  | O => mret s
  | S k =>
      match cs_out s !! pos with
      | Some (SendInternal msg) =>
          match handle E (MsgEvent msg "") s with
          | Ret (_, s') => run k (S pos) s'
          | Panic why => Panic why
          end
      | Some _ => run k (S pos) s
      | None => mret s
      end
  end.

Fixpoint first_commit (l : list Effect) : option TdmBlock :=
  match l with
  | [] => None
  | BackendCommit b :: _ => Some b
  | _ :: l => first_commit l
  end.

Lemma first_commit_elem l b : first_commit l = Some b → BackendCommit b ∈ l.
Proof.
  induction l as [|e l IH]; [done|]. cbn. destruct e; intros H; try (right; by apply IH).
  injection H as ->. by left.
Qed.

Lemma run_reachable k pos s s' : cs_reachable s → run k pos s = Ret s' → cs_reachable s'.
Proof.
  revert pos s. induction k as [|k IH]; intros pos s Hr; cbn [run]; [by intros [= <-]|].
  destruct (cs_out s !! pos) as [e|]; [|by intros [= <-]].
  destruct e; try (by apply IH).
  destruct (handle E (MsgEvent msg "") s) as [[[] s1]|] eqn:Eh; [|done].
  apply IH. by eapply reach_step.
Qed.

End run.

(** ** The node *)

Definition run_valSet : @ValidatorSet toy_lib := mkValidatorSet (Some [ex_val 1 10]) None.

Definition run_epoch : @Epoch toy_lib :=
  mkEpoch (mkEpochData 0 0 0 100 0 0 0 EPOCH_SAVED run_valSet) None None None None.

Definition run_env : @Env toy_lib toy_block :=
  mkEnv "neatio" (Some (mkPrivValidator (LIB := toy_lib) [1] (λ msg, Some ([1], msg)))) 0
    ex_chain_reader (mkTimeoutParams 1 1 1 1 1 1 1 1 false) (λ n, n) "node"
    (mkEpochDB ∅ None ∅ None) None (λ _, None) (λ _, None) (λ _ _, None) (λ _, false)
    (λ _ _, false).

Definition run_init : @CState toy_lib toy_merkle toy_block :=
  mkCState 0 0 0 0 zero_time run_valSet None None None "" (-1) None None
    (mkHeightVoteSet "" 0 run_valSet 0 ∅ ∅) (mkHeightVoteSignAggr "" 0 run_valSet 0 ∅) (-1)
    None None None false run_epoch nce_zero run_epoch (-1) ∅ None 0 [].

Definition step_or (m : @CM toy_lib toy_merkle toy_block ()) (s : @CState toy_lib toy_merkle toy_block)
    : @CState toy_lib toy_merkle toy_block :=
  snd (from_Ret ((), s) (m s)).

#[local] Existing Instances toy_lib toy_merkle toy_block toy_wire toy_vrf.

Definition run_start := step_or (StartNewHeight run_env) run_init.
Definition run_mined := step_or (handle run_env (RequestEvent (mkEthBlock 1 [] []))) run_start.
Definition run_round0 :=
  step_or (handle run_env (TimeoutEvent (mkTimeoutInfo 0 1 0 RoundStepNewHeight))) run_mined.

(** The messages at positions 0 to 12 of the trace lead to the aggregate of the
    prevotes (position 13), those up to 20 to that of the precommits (position 21). *)
Definition run_to (k : nat) := from_Ret run_round0 (run run_env k 0 run_round0).

Definition msg_at (k : nat) (s : CState) : NodeEvent :=
  match cs_out s !! k with
  | Some (SendInternal msg) => MsgEvent msg ""
  | _ => FinalCommittedEvent (-1)
  end.

Definition run_next (k : nat) := step_or (handle run_env (msg_at k (run_to k))) (run_to k).

Lemma step_or_Ret (m : CM ()) s : is_Ret (m s) = true → m s = Ret ((), step_or m s).
Proof. unfold step_or. destruct (m s) as [[[] s']|]; done. Qed.

Lemma run_to_reachable k : is_Ret (run run_env k 0 run_round0) = true → cs_reachable (run_to k).
Proof.
  intros Hk. apply (run_reachable run_env k 0 run_round0).
  - eapply reach_step; [eapply reach_step; [eapply reach_start|]|]; apply step_or_Ret;
      vm_compute; reflexivity.
  - by apply from_Ret_eq.
Qed.

Lemma run_next_step k :
  is_Ret (handle run_env (msg_at k (run_to k)) (run_to k)) = true →
  handle run_env (msg_at k (run_to k)) (run_to k) = Ret ((), run_next k).
Proof. apply step_or_Ret. Qed.

Lemma run_validators (s : @CState toy_lib toy_merkle toy_block) :
  (match vs_Validators (cs_Validators s) with Some _ => true | None => false end) = true →
  vs_Validators (cs_Validators s) ≠ None.
Proof. intros H Hn. by rewrite Hn in H. Qed.

Lemma commit_safety_witness :
  ∃ b te, BackendCommit b ∈ new_effects (run_to 21) (run_next 21) ∧ tb_NcExtra b = Some te ∧
    nce_Height te = 1 ∧ nce_ChainID te = "neatio".
Proof.
  destruct (first_commit (new_effects (run_to 21) (run_next 21))) as [b|] eqn:Hf.
  - pose proof (first_commit_elem _ _ Hf) as Hin.
    destruct (@commit_safety toy_lib toy_laws toy_merkle toy_block toy_wire toy_vrf run_env
      (msg_at 21 (run_to 21)) (run_to 21) (run_next 21) b)
      as (sa & te0 & te & H1 & _ & _ & _ & _ & _ & _ & H2 & H3 & _).
    + apply run_to_reachable. vm_compute. reflexivity.
    + apply run_next_step. vm_compute. reflexivity.
    + exact Hin.
    + vm_compute. reflexivity.
    + apply run_validators. vm_compute. reflexivity.
    + exists b, te. split; [exact Hin|]. split; [exact H1|].
      split; [rewrite H3|rewrite H2]; vm_compute; reflexivity.
  - exfalso. assert (match first_commit (new_effects (run_to 21) (run_next 21)) with
                     | Some _ => true | None => false end = true) as H by (vm_compute; reflexivity).
    rewrite Hf in H. discriminate H.
Defined.

(** The votes of this validator among the effects. *)
Fixpoint first_vote (l : list Effect) : option Vote :=
  match l with
  | [] => None
  | SendInternal (VoteMessage (Some v)) :: _ => Some v
  | _ :: l => first_vote l
  end.

Lemma first_vote_elem (l : list Effect) v :
  first_vote l = Some v → SendInternal (VoteMessage (Some v)) ∈ l.
Proof.
  induction l as [|e l IH]; [done|]. cbn.
  destruct e as [| |[| | |[]]| | | |]; intros H; try (right; by apply IH). injection H as ->. by left.
Qed.

Definition is_vote (type_ : Z) (v : option Vote) : bool :=
  match v with
  | Some v => (vote_Type v =? type_) && negb (bool_decide (bid_Hash (vote_BlockID v) = []))
  | None => false
  end.

Lemma precommit_safety_witness :
  ∃ v sa, SendInternal (VoteMessage (Some v)) ∈ new_effects (run_to 13) (run_next 13) ∧
    sa_Maj23 sa = vote_BlockID v ∧ sa_Type sa = VoteTypePrevote.
Proof.
  assert (is_vote VoteTypePrecommit (first_vote (new_effects (run_to 13) (run_next 13))) = true) as Hp
    by (vm_compute; reflexivity).
  destruct (first_vote (new_effects (run_to 13) (run_next 13))) as [v|] eqn:Hf; [|discriminate Hp].
  pose proof (first_vote_elem _ _ Hf) as Hin. cbn in Hp. apply andb_true_iff in Hp as [Ht Hh].
  destruct (@precommit_safety toy_lib toy_laws toy_merkle toy_block toy_wire toy_vrf run_env
    (msg_at 13 (run_to 13)) (run_to 13) (run_next 13) (SendInternal (VoteMessage (Some v))) v) as (sa & H1 & H2 & _).
  - apply run_to_reachable. vm_compute. reflexivity.
  - apply run_next_step. vm_compute. reflexivity.
  - exact Hin.
  - left. reflexivity.
  - by apply Z.eqb_eq.
  - by apply negb_true_iff, bool_decide_eq_false in Hh.
  - vm_compute. by split.
  - vm_compute. exact I.
  - vm_compute. reflexivity.
  - apply run_validators. vm_compute. reflexivity.
  - exists v, sa. split; [exact Hin|]. split; [exact H1|exact H2].
Defined.

Lemma prevote_safety_witness :
  ∃ v b, SendInternal (VoteMessage (Some v)) ∈ new_effects (run_to 6) (run_next 6) ∧
    tb_Hash (Some b) = Ret (bid_Hash (vote_BlockID v)).
Proof.
  assert (is_vote VoteTypePrevote (first_vote (new_effects (run_to 6) (run_next 6))) = true) as Hp
    by (vm_compute; reflexivity).
  destruct (first_vote (new_effects (run_to 6) (run_next 6))) as [v|] eqn:Hf; [|discriminate Hp].
  pose proof (first_vote_elem _ _ Hf) as Hin. cbn in Hp. apply andb_true_iff in Hp as [Ht Hh].
  destruct (@prevote_safety toy_lib toy_merkle toy_block toy_wire toy_vrf run_env
    (msg_at 6 (run_to 6)) (run_to 6) (run_next 6) (SendInternal (VoteMessage (Some v))) v) as (b & H1 & _).
  - apply run_to_reachable. vm_compute. reflexivity.
  - apply run_next_step. vm_compute. reflexivity.
  - exact Hin.
  - left. reflexivity.
  - by apply Z.eqb_eq.
  - by apply negb_true_iff, bool_decide_eq_false in Hh.
  - exists v, b. split; [exact Hin|exact H1].
Defined.

Lemma lock_safety_witness :
  ∃ b sa, cs_LockedBlock (run_to 21) = Some b ∧ sa_Type sa = VoteTypePrevote ∧ sa_Round sa = 0.
Proof.
  assert ((match cs_LockedBlock (run_to 21) with Some _ => true | None => false end) = true) as Hl
    by (vm_compute; reflexivity).
  destruct (cs_LockedBlock (run_to 21)) as [b|] eqn:Hb; [|discriminate Hl].
  destruct (@lock_safety toy_lib toy_laws toy_merkle toy_block toy_wire toy_vrf (run_to 21) b)
    as (b0 & sa & _ & _ & _ & H1 & H2 & _).
  - apply run_to_reachable. vm_compute. reflexivity.
  - exact Hb.
  - vm_compute. reflexivity.
  - apply run_validators. vm_compute. reflexivity.
  - exists b, sa. split; [reflexivity|]. split; [exact H1|]. rewrite H2. vm_compute. reflexivity.
Defined.

Lemma conflicting_commits_witness :
  ∃ c i v, vals (cs_Validators (run_to 21)) !! i = Some v ∧ 0 < v_VotingPower v ∧
    marked (commit_BitArray c) i = true.
Proof.
  destruct (first_commit (new_effects (run_to 21) (run_next 21))) as [b|] eqn:Hf.
  2:{ exfalso. assert (match first_commit (new_effects (run_to 21) (run_next 21)) with
                       | Some _ => true | None => false end = true) as H by (vm_compute; reflexivity).
      rewrite Hf in H. discriminate H. }
  pose proof (first_commit_elem _ _ Hf) as Hin.
  assert (match first_commit (new_effects (run_to 21) (run_next 21)) with
          | Some b => match tb_NcExtra b with
                      | Some te => match nce_SeenCommit te with
                                   | Some c => commit_Round c =? 0 | None => false end
                      | None => false end
          | None => false end = true) as Hc by (vm_compute; reflexivity).
  rewrite Hf in Hc. destruct (tb_NcExtra b) as [te|] eqn:Hte; [|discriminate Hc].
  destruct (nce_SeenCommit te) as [c|] eqn:Hsc; [|discriminate Hc]. apply Z.eqb_eq in Hc.
  assert (cs_reachable (run_to 21)) as Hr by (apply run_to_reachable; vm_compute; reflexivity).
  assert (handle run_env (msg_at 21 (run_to 21)) (run_to 21) = Ret ((), run_next 21)) as He
    by (apply run_next_step; vm_compute; reflexivity).
  destruct (@conflicting_commits toy_lib toy_laws toy_merkle toy_block toy_wire toy_vrf
    run_env (msg_at 21 (run_to 21)) (run_to 21) (run_next 21) b te c
    run_env (msg_at 21 (run_to 21)) (run_to 21) (run_next 21) b te c) as (_ & i & v & H1 & H2 & H3 & _).
  - exact Hr.
  - exact He.
  - exact Hin.
  - exact Hr.
  - exact He.
  - exact Hin.
  - reflexivity.
  - unfold powers_nonneg. apply (bool_decide_unpack _). vm_compute. exact I.
  - vm_compute. reflexivity.
  - apply run_validators. vm_compute. reflexivity.
  - exact Hte.
  - exact Hsc.
  - rewrite Hc. lia.
  - exact Hte.
  - exact Hsc.
  - rewrite Hc. lia.
  - exists c, i, v. split; [exact H1|]. split; [exact H2|exact H3].
Defined.

Lemma rounds_never_go_back_witness :
  hrs_le run_mined run_round0 ∧ cs_Step run_round0 = RoundStepPropose.
Proof.
  split; [|vm_compute; reflexivity].
  destruct (@rounds_never_go_back toy_lib toy_merkle toy_block toy_wire toy_vrf run_env
    (TimeoutEvent (mkTimeoutInfo 0 1 0 RoundStepNewHeight)) run_mined run_round0) as [H|H].
  - apply step_or_Ret. vm_compute. reflexivity.
  - exact H.
  - destruct H.
Defined.

Definition run_prevoted := step_or (defaultDoPrevote run_env 1 0) (run_next 6).

Lemma prevote_follows_rule_witness :
  ∃ v, votes_sent (run_next 6) run_prevoted = [v] ∧ prevote_rule run_env (run_next 6) v.
Proof.
  destruct (@prevote_follows_rule toy_lib toy_merkle toy_block toy_wire toy_vrf run_env 1 0
    (run_next 6) run_prevoted) as [[H _]|H].
  - apply step_or_Ret. vm_compute. reflexivity.
  - exfalso. assert (length (votes_sent (run_next 6) run_prevoted) = 1%nat) as Hl
      by (vm_compute; reflexivity).
    rewrite H in Hl. discriminate Hl.
  - exact H.
Defined.
