(* ===== verification/Rlp.v ===== *)
(** * The RLP codec: encoding (rlp/encode.go, rlp/raw.go, rlp/typecache.go)

    Values are encoded by writers that the package derives from Go types by reflection.
    The file models the types it knows, the values of these types, the encoder buffer
    with its list headers, the writers, and the functions on raw encodings.  A reference
    encoder without a buffer is the specification of the buffer. *)

From Stdlib Require Import ZArith Lia ZifyBool.
From stdpp Require Import base tactics strings numbers gmap list.
From S2P Require Import Prelude.

Local Open Scope Z_scope.

(** ** Types and values

    The Go types that are serialisable without methods of their own.  [TBytes] is
    [[]byte], [TByteArray n] is [[n]byte], [TBig] is [*big.Int], [TIface] is
    [interface{}]; [TUnsupported] stands for the types without an encoding (signed
    integers, maps, channels, functions).  The fields of a struct carry whether they are exported and their
    parsed tag. *)

Record tags := mkTags { nilOK : bool; tail : bool; ignored : bool }.

Definition no_tags : tags := mkTags false false false.

Inductive ty :=
| TRaw
| TUint (bits : Z)
| TBool
| TString
| TBytes
| TByteArray (n : nat)
| TBig
| TSlice (t : ty)
| TArray (n : nat) (t : ty)
| TStruct (fields : list (bool * tags * ty))
| TPtr (t : ty)
| TIface
| TUnsupported.

(** [VList] is a slice, an array or a struct; [VNil] a nil pointer or interface;
    [VIface t v] an interface that holds [v] of the type [t]. *)
Inductive val :=
| VUint (n : Z)
| VBool (b : bool)
| VBytes (b : bytes)
| VBig (z : Z)
| VList (l : list val)
| VNil
| VPtr (v : val)
| VIface (t : ty) (v : val).

(** ** Struct fields *)

Fixpoint lastPublicField (i last : nat) (fields : list (bool * tags * ty)) : nat :=
  match fields with
  | [] => last
  | (exported, _, _) :: fields => lastPublicField (S i) (if (exported : bool) then i else last) fields
  end.

(** A [tail] tag is only allowed on the last exported field, of a slice type. *)
Definition parseStructTag (fi lastPublic : nat) (ts : tags) (t : ty) : option tags :=
  if tail ts then
    if negb (fi =? lastPublic)%nat then None
    else match t with
         | TSlice _ | TBytes | TRaw => Some ts
         | _ => None
         end
  else Some ts.

(** The fields that are encoded: their index, tag and type. *)
Fixpoint fields_from (i lastPublic : nat) (fields : list (bool * tags * ty))
    : option (list (nat * tags * ty)) :=
  match fields with
  | [] => Some []
  | (exported, ts, t) :: fields =>
      if (exported : bool) then
        ts ← parseStructTag i lastPublic ts t;
        rest ← fields_from (S i) lastPublic fields;
        Some (if ignored ts then rest else (i, ts, t) :: rest)
      else fields_from (S i) lastPublic fields
  end.

Definition structFields (fields : list (bool * tags * ty)) : option (list (nat * tags * ty)) :=
  fields_from O (lastPublicField O O fields) fields.

(** Whether [generate] makes a writer and a decoder for a type.  The maker of a slice,
    array or pointer passes on the error of its element type; the maker of a struct looks
    only at the tags of its fields. *)
Fixpoint type_ok (t : ty) : bool :=
  match t with
  | TSlice t | TArray _ t | TPtr t => type_ok t
  | TStruct fields => bool_decide (is_Some (structFields fields))
  | TUnsupported => false
  | _ => true
  end.

(** ** Sizes and headers *)

Definition byte_of (z : Z) : Z := z mod 256.

(** Big endian, the least number of bytes. *)
Definition putint (i : Z) : bytes :=
  if i <? Z.shiftl 1 8 then [byte_of i]
  else if i <? Z.shiftl 1 16 then [byte_of (Z.shiftr i 8); byte_of i]
  else if i <? Z.shiftl 1 24 then [byte_of (Z.shiftr i 16); byte_of (Z.shiftr i 8); byte_of i]
  else if i <? Z.shiftl 1 32 then
    [byte_of (Z.shiftr i 24); byte_of (Z.shiftr i 16); byte_of (Z.shiftr i 8); byte_of i]
  else if i <? Z.shiftl 1 40 then
    [byte_of (Z.shiftr i 32); byte_of (Z.shiftr i 24); byte_of (Z.shiftr i 16);
     byte_of (Z.shiftr i 8); byte_of i]
  else if i <? Z.shiftl 1 48 then
    [byte_of (Z.shiftr i 40); byte_of (Z.shiftr i 32); byte_of (Z.shiftr i 24);
     byte_of (Z.shiftr i 16); byte_of (Z.shiftr i 8); byte_of i]
  else if i <? Z.shiftl 1 56 then
    [byte_of (Z.shiftr i 48); byte_of (Z.shiftr i 40); byte_of (Z.shiftr i 32);
     byte_of (Z.shiftr i 24); byte_of (Z.shiftr i 16); byte_of (Z.shiftr i 8); byte_of i]
  else
    [byte_of (Z.shiftr i 56); byte_of (Z.shiftr i 48); byte_of (Z.shiftr i 40);
     byte_of (Z.shiftr i 32); byte_of (Z.shiftr i 24); byte_of (Z.shiftr i 16);
     byte_of (Z.shiftr i 8); byte_of i].

(** [for size = 1; ; size++]: a [uint64] is zero after at most eight shifts. *)
Fixpoint intsize_loop (fuel : nat) (size i : Z) : Z :=
  match fuel with
  | O => size
  | S fuel => if Z.shiftr i 8 =? 0 then size else intsize_loop fuel (size + 1) (Z.shiftr i 8)
  end.

Definition intsize (i : Z) : Z := intsize_loop 8 1 i.

Definition headsize (size : Z) : Z := if size <? 56 then 1 else 1 + intsize size.

(** The bytes that [puthead] writes. *)
Definition puthead (smalltag largetag size : Z) : bytes :=
  if size <? 56 then [byte_of (smalltag + byte_of size)]
  else let b := putint size in byte_of (largetag + byte_of (Z.of_nat (length b))) :: b.

Definition ListSize (contentSize : Z) : Z := u64 (u64 (headsize contentSize) + contentSize).

(** ** The encoder buffer

    [eb_str] holds everything except the headers of lists; the headers are pointers
    that [list] appends and [listEnd] completes, here positions in [eb_lheads]. *)

Record listhead := mkListhead { lh_offset : Z; lh_size : Z }.

Record encbuf := mkEncbuf { eb_str : bytes; eb_lheads : list listhead; eb_lhsize : Z }.

Definition eb_empty : encbuf := mkEncbuf [] [] 0.

Definition lenZ (b : bytes) : Z := Z.of_nat (length b).

Definition eb_size (w : encbuf) : Z := lenZ (eb_str w) + eb_lhsize w.

Definition eb_append (b : bytes) (w : encbuf) : encbuf :=
  mkEncbuf (eb_str w ++ b) (eb_lheads w) (eb_lhsize w).

Definition encodeStringHeader (size : Z) (w : encbuf) : encbuf :=
  if size <? 56 then eb_append [byte_of (128 + byte_of size)] w
  else
    let b := putint size in
    eb_append (byte_of (183 + byte_of (Z.of_nat (length b))) :: b) w.

Definition encodeString (b : bytes) (w : encbuf) : encbuf :=
  match b with
  | [x] => if x <=? 127 then eb_append [x] w
           else eb_append b (encodeStringHeader (lenZ b) w)
  | _ => eb_append b (encodeStringHeader (lenZ b) w)
  end.

Definition eb_list (w : encbuf) : encbuf * nat :=
  (mkEncbuf (eb_str w) (eb_lheads w ++ [mkListhead (lenZ (eb_str w)) (eb_lhsize w)]) (eb_lhsize w),
   length (eb_lheads w)).

Definition listEnd (lh : nat) (w : encbuf) : encbuf :=
  match eb_lheads w !! lh with
  | None => w
  | Some h =>
      let size := eb_size w - lh_offset h - lh_size h in
      mkEncbuf (eb_str w) (<[lh := mkListhead (lh_offset h) size]> (eb_lheads w))
        (if size <? 56 then eb_lhsize w + 1 else eb_lhsize w + (1 + intsize size))
  end.

Definition listhead_encode (h : listhead) : bytes := puthead 192 247 (lh_size h).

(** [str] from the position [strpos] on, with the headers put in front of their content. *)
Fixpoint toBytes_loop (str : bytes) (strpos : Z) (heads : list listhead) : bytes :=
  match heads with
  | [] => drop (Z.to_nat strpos) str
  | h :: heads =>
      take (Z.to_nat (lh_offset h - strpos)) (drop (Z.to_nat strpos) str) ++
      listhead_encode h ++ toBytes_loop str (lh_offset h) heads
  end.

Definition toBytes (w : encbuf) : bytes := toBytes_loop (eb_str w) 0 (eb_lheads w).

(** ** Writers *)

Inductive writeErr := ErrNegativeBigInt | ErrStructTag | PanicNilWriter | ErrTypeMismatch.

(** [big.Int.Bytes]: big endian without leading zeros. *)
Fixpoint be_bytes_loop (fuel : nat) (z : Z) (acc : bytes) : bytes :=
  match fuel with
  | O => acc
  | S fuel => if z =? 0 then acc else be_bytes_loop fuel (z / 256) (z mod 256 :: acc)
  end.

Definition big_Bytes (z : Z) : bytes := be_bytes_loop (S (Z.to_nat (Z.log2 z))) z [].

Definition writeUint (i : Z) (w : encbuf) : encbuf :=
  if i =? 0 then eb_append [128] w
  else if i <? 128 then eb_append [byte_of i] w
  else
    let b := putint i in
    eb_append (byte_of (128 + byte_of (Z.of_nat (length b))) :: b) w.

Definition writeBool (b : bool) (w : encbuf) : encbuf := eb_append [if b then 1 else 128] w.

Definition writeBigInt (i : Z) (w : encbuf) : encbuf + writeErr :=
  if i <? 0 then inr ErrNegativeBigInt
  else if i =? 0 then inl (eb_append [128] w)
  else inl (encodeString (big_Bytes i) w).

Definition write_empty_list (w : encbuf) : encbuf :=
  let '(w, lh) := eb_list w in listEnd lh w.

(** What the writer of a pointer to [t] does with nil: a fixed encoding for arrays and
    structs, the writer of [t] on its zero value otherwise. *)
Fixpoint write_nil (t : ty) (w : encbuf) : encbuf :=
  match t with
  | TByteArray _ => eb_append [128] w
  | TStruct _ | TArray _ _ => write_empty_list w
  | TRaw | TUnsupported => w
  | TUint _ => writeUint 0 w
  | TBool => writeBool false w
  | TString | TBytes => encodeString [] w
  | TBig => eb_append [128] w
  | TSlice _ => write_empty_list w
  | TPtr t => write_nil t w
  | TIface => eb_append [192] w
  end.

(** The writers in sequence, stopping at the first error. *)
Fixpoint write_all (ws : list (encbuf → encbuf + writeErr)) (w : encbuf) : encbuf + writeErr :=
  match ws with
  | [] => inl w
  | f :: ws => match f w with inl w => write_all ws w | inr e => inr e end
  end.

Definition in_list (f : encbuf → encbuf + writeErr) (w : encbuf) : encbuf + writeErr :=
  let '(w, lh) := eb_list w in
  match f w with inl w => inl (listEnd lh w) | inr e => inr e end.

(** [makeWriter]: the writer of a type with the tag of its field.  A value that is not
    of the type can not occur in Go. *)
Fixpoint write (v : val) (t : ty) (ts : tags) (w : encbuf) {struct v} : encbuf + writeErr :=
  match t, v with
  | TRaw, VBytes b => inl (eb_append b w)
  | TUint _, VUint i => inl (writeUint i w)
  | TBool, VBool b => inl (writeBool b w)
  | (TString | TBytes | TByteArray _), VBytes b => inl (encodeString b w)
  | TBig, VNil => inl (eb_append [128] w)
  | TBig, VBig z => writeBigInt z w
  | (TSlice t | TArray _ t), VList l =>
      let elems := write_all ((λ v, write v t no_tags) <$> l) in
      if tail ts then elems w else in_list elems w
  | TStruct fields, VList l =>
      match structFields fields with
      | None => inr ErrStructTag
      | Some fs =>
          let ws := (λ v, write v) <$> l in
          in_list (write_all ((λ '(i, ts, t) w,
            match ws !! i with
            | Some f => if type_ok t then f t ts w else inr PanicNilWriter
            | None => inr ErrTypeMismatch
            end) <$> fs)) w
      end
  | TPtr t, VNil => inl (write_nil t w)
  | TPtr t, VPtr v => write v t no_tags w
  | TIface, VNil => inl (eb_append [192] w)
  | TIface, VIface t v => if type_ok t then write v t no_tags w else inr ErrStructTag
  | _, _ => inr ErrTypeMismatch
  end.

Definition EncodeToBytes (t : ty) (v : val) : bytes + writeErr :=
  if type_ok t then
    match write v t no_tags eb_empty with
    | inl w => inl (toBytes w)
    | inr e => inr e
    end
  else inr ErrStructTag.

(** ** The reference encoder

    The encoding as the RLP specification defines it: a header in front of the content,
    computed from the content, without a buffer. *)

Definition str_head (size : Z) : bytes := puthead 128 183 size.
Definition list_head (size : Z) : bytes := puthead 192 247 size.

Definition enc_str (b : bytes) : bytes :=
  if bool_decide (length b = 1%nat) && forallb (λ x, x <=? 127) b then b
  else str_head (lenZ b) ++ b.

Definition enc_list (content : bytes) : bytes := list_head (lenZ content) ++ content.

Definition enc_uint (i : Z) : bytes := if i =? 0 then [128] else enc_str (putint i).

Fixpoint enc_nil (t : ty) : bytes :=
  match t with
  | TByteArray _ | TUint _ | TBool | TString | TBytes | TBig => [128]
  | TStruct _ | TArray _ _ | TSlice _ | TIface => [192]
  | TRaw | TUnsupported => []
  | TPtr t => enc_nil t
  end.

Fixpoint concat_all (l : list (option bytes)) : option bytes :=
  match l with
  | [] => Some []
  | ob :: l => b ← ob; rest ← concat_all l; Some (b ++ rest)
  end.

Fixpoint enc (v : val) (t : ty) (ts : tags) {struct v} : option bytes :=
  match t, v with
  | TRaw, VBytes b => Some b
  | TUint _, VUint i => Some (enc_uint i)
  | TBool, VBool b => Some (enc_uint (if b then 1 else 0))
  | (TString | TBytes | TByteArray _), VBytes b => Some (enc_str b)
  | TBig, VNil => Some [128]
  | TBig, VBig z => if z <? 0 then None else Some (enc_str (big_Bytes z))
  | (TSlice t | TArray _ t), VList l =>
      content ← concat_all ((λ v, enc v t no_tags) <$> l);
      Some (if tail ts then content else enc_list content)
  | TStruct fields, VList l =>
      fs ← structFields fields;
      let es := (λ v, enc v) <$> l in
      content ← concat_all ((λ '(i, ts, t), e ← es !! i; if type_ok t then e t ts else None) <$> fs);
      Some (enc_list content)
  | TPtr t, VNil => Some (enc_nil t)
  | TPtr t, VPtr v => enc v t no_tags
  | TIface, VNil => Some [192]
  | TIface, VIface t v => if type_ok t then enc v t no_tags else None
  | _, _ => None
  end.

Definition encoding (t : ty) (v : val) : option bytes :=
  if type_ok t then enc v t no_tags else None.

Lemma val_ind' (P : val → Prop) :
  (∀ n, P (VUint n)) → (∀ b, P (VBool b)) → (∀ b, P (VBytes b)) → (∀ z, P (VBig z)) →
  (∀ l, Forall P l → P (VList l)) → P VNil → (∀ v, P v → P (VPtr v)) →
  (∀ t v, P v → P (VIface t v)) → ∀ v, P v.
Proof.
  intros HU HB HY HZ HL HN HP HI. fix IH 1. intros v. destruct v as [| | | |l| |v|t v];
    [apply HU|apply HB|apply HY|apply HZ|apply HL|apply HN|apply HP, IH|apply HI, IH].
  induction l as [|v l IHl]; constructor; [apply IH|exact IHl].
Qed.

Lemma ty_ind' (P : ty → Prop) :
  P TRaw → (∀ bits, P (TUint bits)) → P TBool → P TString → P TBytes → (∀ n, P (TByteArray n)) →
  P TBig → (∀ t, P t → P (TSlice t)) → (∀ n t, P t → P (TArray n t)) →
  (∀ fields, Forall (λ f, P f.2) fields → P (TStruct fields)) → (∀ t, P t → P (TPtr t)) →
  P TIface → P TUnsupported → ∀ t, P t.
Proof.
  intros ? HU ? ? ? HB ? HS HA HF HP ? ?. fix IH 1. intros t.
  destruct t as [| | | | | | |t|n t|fields|t| |]; try assumption;
    [apply HU|apply HB|apply HS, IH|apply HA, IH|apply HF|apply HP, IH].
  induction fields as [|[[e ts] t] fields IHf]; constructor; [apply IH|exact IHf].
Qed.

(** ** Numbers *)

Definition is_byte (x : Z) : Prop := 0 <= x < 256.

(** The value of a big endian byte string. *)
Definition be_val (b : bytes) : Z := foldl (λ acc x, acc * 256 + x) 0 b.

Lemma be_val_snoc b x : be_val (b ++ [x]) = be_val b * 256 + x.
Proof. unfold be_val. by rewrite foldl_app. Qed.

Lemma be_val_app b c : be_val (b ++ c) = be_val b * 256 ^ lenZ c + be_val c.
Proof.
  revert b. induction c as [|x c IH] using rev_ind; intros b.
  - rewrite app_nil_r. change (be_val []) with 0. change (256 ^ lenZ []) with 1. lia.
  - rewrite app_assoc, !be_val_snoc, IH. unfold lenZ. rewrite length_app. cbn [length].
    rewrite Nat2Z.inj_add, Z.pow_add_r by lia. change (256 ^ Z.of_nat 1) with 256. ring.
Qed.

Lemma be_val_cons x b : be_val (x :: b) = x * 256 ^ lenZ b + be_val b.
Proof. change (x :: b) with ([x] ++ b). rewrite be_val_app. reflexivity. Qed.

Lemma be_val_bound b : Forall is_byte b → 0 <= be_val b < 256 ^ lenZ b.
Proof.
  induction 1 as [|x b Hx Hb IH]; [change (be_val []) with 0; change (256 ^ lenZ []) with 1; lia|]. rewrite be_val_cons.
  assert (lenZ (x :: b) = lenZ b + 1) as -> by (unfold lenZ; cbn [length]; lia).
  rewrite Z.pow_add_r by (unfold lenZ; lia). change (256 ^ 1) with 256.
  unfold is_byte in Hx. nia.
Qed.

(** Byte strings without a leading zero are determined by their value. *)
Definition minimal (b : bytes) : Prop := Forall is_byte b ∧ b !! O ≠ Some 0.

Lemma be_val_inj_len b c :
  Forall is_byte b → Forall is_byte c → length b = length c → be_val b = be_val c → b = c.
Proof.
  intros Hb. revert c. induction Hb as [|x b Hx Hb IH]; intros [|y c] Hc Hl E; try done.
  inversion Hc as [|? ? Hy Hc']; subst. rewrite !be_val_cons in E.
  assert (lenZ b = lenZ c) as El by (unfold lenZ; cbn in Hl; lia). rewrite El in E.
  pose proof (be_val_bound b Hb) as Bb. pose proof (be_val_bound c Hc') as Bc. rewrite El in Bb.
  assert (x = y) as -> by nia. f_equal. apply IH; [done|cbn in Hl; lia|lia].
Qed.

Lemma minimal_lower x b : minimal (x :: b) → 256 ^ lenZ b <= be_val (x :: b).
Proof.
  intros [H H0]. inversion H as [|? ? Hx Hb]; subst. rewrite be_val_cons.
  pose proof (be_val_bound b Hb). unfold is_byte in Hx. assert (x ≠ 0) by (intros ->; done). nia.
Qed.

Lemma minimal_inj b c : minimal b → minimal c → be_val b = be_val c → b = c.
Proof.
  intros Hb Hc E. apply be_val_inj_len; [apply Hb|apply Hc| |done].
  assert (∀ b c, minimal b → minimal c → be_val b = be_val c → (length b <= length c)%nat) as Hle.
  { clear. intros b c Hb Hc E. destruct b as [|x b]; [cbn; lia|].
    pose proof (minimal_lower x b Hb) as Hlow. pose proof (be_val_bound c (proj1 Hc)) as Hup.
    rewrite E in Hlow. assert (256 ^ lenZ b < 256 ^ lenZ c) as Hp by lia.
    apply Z.pow_lt_mono_r_iff in Hp; unfold lenZ in *; cbn [length]; lia. }
  pose proof (Hle b c Hb Hc E). pose proof (Hle c b Hc Hb (eq_sym E)). lia.
Qed.

(** The last [n] base-256 digits. *)
Fixpoint be_fixed (n : nat) (i : Z) : bytes :=
  match n with
  | O => []
  | S n => be_fixed n (i / 256) ++ [i mod 256]
  end.

Lemma be_fixed_length n i : length (be_fixed n i) = n.
Proof. revert i. induction n as [|n IH]; intros i; [done|]. cbn. rewrite length_app, IH. cbn. lia. Qed.

Lemma be_fixed_bytes n i : Forall is_byte (be_fixed n i).
Proof.
  revert i. induction n as [|n IH]; intros i; [constructor|]. cbn.
  apply Forall_app_2; [apply IH|]. constructor; [|constructor]. unfold is_byte.
  apply Z.mod_pos_bound. lia.
Qed.

Lemma be_fixed_val n i : 0 <= i < 256 ^ Z.of_nat n → be_val (be_fixed n i) = i.
Proof.
  revert i. induction n as [|n IH]; intros i Hi.
  - change (256 ^ Z.of_nat 0) with 1 in Hi. cbn. lia.
  - cbn [be_fixed]. rewrite be_val_snoc, IH; [dlia|].
    rewrite Nat2Z.inj_succ, Z.pow_succ_r in Hi by lia.
    split; [apply Z.div_pos; lia|apply Z.div_lt_upper_bound; lia].
Qed.

(** A number of [n + 1] digits starts with a digit that is not zero. *)
Lemma be_fixed_head n i :
  256 ^ Z.of_nat n <= i → i < 256 ^ Z.of_nat (S n) → be_fixed (S n) i !! O ≠ Some 0.
Proof.
  revert i. induction n as [|n IH]; intros i Hl Hu.
  - change (256 ^ Z.of_nat 0) with 1 in Hl. change (256 ^ Z.of_nat 1) with 256 in Hu.
    cbn. intros [= E]. rewrite Z.mod_small in E; lia.
  - change (be_fixed (S (S n)) i) with (be_fixed (S n) (i / 256) ++ [i mod 256]).
    rewrite lookup_app_l by (rewrite be_fixed_length; lia).
    rewrite !Nat2Z.inj_succ, !Z.pow_succ_r in * by lia.
    apply IH; [apply Z.div_le_lower_bound; lia|apply Z.div_lt_upper_bound; lia].
Qed.

Lemma be_fixed_minimal n i :
  256 ^ Z.of_nat n <= i → i < 256 ^ Z.of_nat (S n) → minimal (be_fixed (S n) i).
Proof. intros Hl Hu. split; [apply be_fixed_bytes|by apply be_fixed_head]. Qed.

Lemma digits i :
  Z.shiftr i 8 = i / 256 ∧ Z.shiftr i 16 = i / 256 / 256 ∧ Z.shiftr i 24 = i / 256 / 256 / 256 ∧
  Z.shiftr i 32 = i / 256 / 256 / 256 / 256 ∧ Z.shiftr i 40 = i / 256 / 256 / 256 / 256 / 256 ∧
  Z.shiftr i 48 = i / 256 / 256 / 256 / 256 / 256 / 256 ∧
  Z.shiftr i 56 = i / 256 / 256 / 256 / 256 / 256 / 256 / 256.
Proof. rewrite !Z.shiftr_div_pow2, !Z.div_div by lia. done. Qed.

(** The switch of [putint] picks the number of digits. *)
Lemma putint_fixed i :
  0 <= i < 2 ^ 64 → ∃ n, putint i = be_fixed (S n) i ∧ (n < 8)%nat ∧
    i < 256 ^ Z.of_nat (S n) ∧ (n = O ∨ 256 ^ Z.of_nat n <= i).
Proof.
  intros Hi. unfold putint. destruct (digits i) as (-> & -> & -> & -> & -> & -> & ->).
  repeat (case_match; [
    match goal with H : (_ <? Z.shiftl 1 ?k) = true |- _ =>
      let n := eval vm_compute in (Z.to_nat (k / 8 - 1)) in exists n end;
    rewrite Z.shiftl_1_l in *; cbn; bsimp; split_and!; [done|lia|lia|lia]|]).
  exists 7%nat. rewrite Z.shiftl_1_l in *. cbn. bsimp. split_and!; [done|lia|lia|lia].
Qed.

Lemma putint_spec i :
  0 < i < 2 ^ 64 → minimal (putint i) ∧ be_val (putint i) = i ∧ (1 <= length (putint i) <= 8)%nat.
Proof.
  intros Hi. destruct (putint_fixed i) as (n & -> & Hn & Hu & Hl); [lia|].
  rewrite be_fixed_length. split_and!; [|apply be_fixed_val; lia|lia|lia].
  destruct Hl as [->|Hl]; [|by apply be_fixed_minimal].
  apply be_fixed_minimal; [change (256 ^ Z.of_nat 0) with 1; lia|done].
Qed.

Lemma intsize_loop_fixed fuel n size i :
  (n < fuel)%nat → 0 <= i < 256 ^ Z.of_nat (S n) → (n = O ∨ 256 ^ Z.of_nat n <= i) →
  intsize_loop fuel size i = size + Z.of_nat n.
Proof.
  revert n size i. induction fuel as [|fuel IH]; intros n size i Hf Hi Hl; [lia|]. cbn.
  rewrite Z.shiftr_div_pow2 by lia. change (2 ^ 8) with 256. destruct n as [|n].
  - change (256 ^ Z.of_nat 1) with 256 in Hi. rewrite Z.div_small by lia. cbn. lia.
  - destruct Hl as [?|Hl]; [lia|]. rewrite !Nat2Z.inj_succ, !Z.pow_succ_r in * by lia.
    assert (256 ^ Z.of_nat n <= i / 256) by (apply Z.div_le_lower_bound; lia).
    assert (0 < 256 ^ Z.of_nat n) by (apply Z.pow_pos_nonneg; lia).
    destruct (Z.eqb_spec (i / 256) 0); [lia|]. rewrite (IH n); [lia|lia| |by right].
    split; [lia|]. rewrite Nat2Z.inj_succ, Z.pow_succ_r by lia. apply Z.div_lt_upper_bound; lia.
Qed.

Lemma intsize_putint i : 0 <= i < 2 ^ 64 → intsize i = Z.of_nat (length (putint i)).
Proof.
  intros Hi. destruct (putint_fixed i Hi) as (n & -> & Hn & Hu & Hl).
  rewrite be_fixed_length. unfold intsize. rewrite (intsize_loop_fixed 8 n); [lia|lia|lia|done].
Qed.

Lemma be_bytes_loop_spec fuel z acc :
  0 <= z < 2 ^ Z.of_nat fuel →
  ∃ b, be_bytes_loop fuel z acc = b ++ acc ∧ minimal b ∧ be_val b = z.
Proof.
  revert z acc. induction fuel as [|fuel IH]; intros z acc Hz.
  - exists []. change (2 ^ Z.of_nat 0) with 1 in Hz. split_and!; [done|by split|cbn; lia].
  - cbn. destruct (Z.eqb_spec z 0) as [->|Hne]; [exists []; split_and!; [done|by split|done]|].
    rewrite Nat2Z.inj_succ, Z.pow_succ_r in Hz by lia.
    destruct (IH (z / 256) (z mod 256 :: acc)) as (b & -> & [Hb H0] & Hv).
    { split; [apply Z.div_pos; lia|apply Z.div_lt_upper_bound; lia]. }
    exists (b ++ [z mod 256]). rewrite be_val_snoc, Hv, <-app_assoc.
    split_and!; [done| |dlia]. split.
    + apply Forall_app_2; [done|]. constructor; [|constructor]. apply Z.mod_pos_bound. lia.
    + destruct b as [|x b]; [|done]. cbn in Hv |- *. intros [= E]. dlia.
Qed.

Lemma big_Bytes_spec z : 0 <= z → minimal (big_Bytes z) ∧ be_val (big_Bytes z) = z.
Proof.
  intros Hz. unfold big_Bytes.
  destruct (be_bytes_loop_spec (S (Z.to_nat (Z.log2 z))) z []) as (b & -> & Hm & Hv).
  - split; [done|]. rewrite Nat2Z.inj_succ, Z2Nat.id by apply Z.log2_nonneg.
    destruct (decide (z = 0)) as [->|]; [done|]. apply Z.log2_spec. lia.
  - by rewrite app_nil_r.
Qed.

(** ** Headers *)

Lemma lenZ_app b c : lenZ (b ++ c) = lenZ b + lenZ c.
Proof. unfold lenZ. rewrite length_app. lia. Qed.

Lemma lenZ_nonneg b : 0 <= lenZ b.
Proof. unfold lenZ. lia. Qed.

Lemma byte_of_small z : 0 <= z < 256 → byte_of z = z.
Proof. apply Z.mod_small. Qed.

Lemma puthead_length a b size :
  0 <= size < 2 ^ 64 → lenZ (puthead a b size) = headsize size.
Proof.
  intros H. unfold puthead, headsize, lenZ. case_match; [done|].
  rewrite intsize_putint by done. cbn [length]. lia.
Qed.

Lemma putint_single x : 0 < x < 128 → putint x = [x].
Proof.
  intros Hx. unfold putint. change (Z.shiftl 1 8) with 256.
  destruct (Z.ltb_spec x 256); [|lia]. rewrite byte_of_small; [done|lia].
Qed.

(** ** The buffer is the reference encoder

    A writer appends string data [s] and headers [hs] to the buffer; put together they
    are the bytes [b]. *)

Definition heads_len (hs : list listhead) : Z := sumZ ((λ h, lenZ (listhead_encode h)) <$> hs).

(** The headers of a piece of string data that starts at the offset [base]. *)
Fixpoint placed (base : Z) (len : Z) (hs : list listhead) : Prop :=
  match hs with
  | [] => 0 <= len
  | h :: hs => base <= lh_offset h <= base + len ∧ placed (lh_offset h) (base + len - lh_offset h) hs
  end.

(** [toBytes_loop] on the data from [base] on. *)
Fixpoint render (base : Z) (s : bytes) (hs : list listhead) : bytes :=
  match hs with
  | [] => s
  | h :: hs =>
      let n := Z.to_nat (lh_offset h - base) in
      take n s ++ listhead_encode h ++ render (lh_offset h) (drop n s) hs
  end.

Lemma placed_nonneg base len hs : placed base len hs → 0 <= len.
Proof. revert base len. induction hs as [|h hs IH]; intros base len; cbn; [done|]. lia. Qed.

Lemma toBytes_render str base hs :
  0 <= base → placed base (lenZ str - base) hs →
  toBytes_loop str base hs = render base (drop (Z.to_nat base) str) hs.
Proof.
  revert base. induction hs as [|h hs IH]; intros base Hb Hp; [done|]. cbn in Hp |- *.
  destruct Hp as [Hh Hp]. do 2 f_equal. rewrite IH; [|lia|].
  - rewrite drop_drop. do 2 f_equal. lia.
  - replace (lenZ str - lh_offset h) with (base + (lenZ str - base) - lh_offset h) by lia. done.
Qed.

Lemma render_length base s hs :
  placed base (lenZ s) hs → lenZ (render base s hs) = lenZ s + heads_len hs.
Proof.
  revert base s. induction hs as [|h hs IH]; intros base s Hp; [unfold heads_len; cbn; lia|].
  cbn in Hp. destruct Hp as [Hh Hp]. cbn [render]. rewrite !lenZ_app, IH.
  - change (heads_len (h :: hs)) with (lenZ (listhead_encode h) + heads_len hs).
    unfold lenZ in *. rewrite length_take, length_drop. lia.
  - unfold lenZ in *. rewrite length_drop. replace (Z.of_nat _) with (base + Z.of_nat (length s) - lh_offset h) by lia. done.
Qed.

Lemma placed_app base s1 s2 hs1 hs2 :
  placed base (lenZ s1) hs1 → placed (base + lenZ s1) (lenZ s2) hs2 →
  placed base (lenZ (s1 ++ s2)) (hs1 ++ hs2).
Proof.
  rewrite lenZ_app. generalize (lenZ s1) (lenZ s2). clear. intros n1 n2.
  revert base n1. induction hs1 as [|h hs1 IH]; intros base n1 H1 H2; cbn in *.
  - destruct hs2 as [|h2 hs2]; cbn in *; [lia|]. destruct H2 as [? H2]. split; [lia|].
    by replace (base + (n1 + n2) - lh_offset h2) with (base + n1 + n2 - lh_offset h2) by lia.
  - destruct H1 as [Hh H1]. pose proof (placed_nonneg _ _ _ H2). split; [lia|].
    replace (base + (n1 + n2) - lh_offset h) with ((base + n1 - lh_offset h) + n2) by lia.
    apply IH; [done|]. by replace (lh_offset h + (base + n1 - lh_offset h)) with (base + n1) by lia.
Qed.

Lemma render_app base s1 s2 hs1 hs2 :
  placed base (lenZ s1) hs1 → placed (base + lenZ s1) (lenZ s2) hs2 →
  render base (s1 ++ s2) (hs1 ++ hs2) = render base s1 hs1 ++ render (base + lenZ s1) s2 hs2.
Proof.
  revert base s1. induction hs1 as [|h hs1 IH]; intros base s1 H1 H2; cbn [app render].
  - destruct hs2 as [|h2 hs2]; cbn in H2 |- *; [done|]. destruct H2 as [Hh _]. unfold lenZ in *.
    rewrite take_app_ge, drop_app_ge by lia. rewrite <-app_assoc.
    do 2 f_equal; [f_equal; lia|]. do 2 f_equal. f_equal. lia.
  - cbn in H1. destruct H1 as [Hh H1]. unfold lenZ in Hh.
    rewrite take_app_le, drop_app_le by lia. rewrite <-!app_assoc. do 2 f_equal.
    assert (lenZ (drop (Z.to_nat (lh_offset h - base)) s1) = base + lenZ s1 - lh_offset h) as El
      by (unfold lenZ; rewrite length_drop; lia).
    rewrite IH.
    + f_equal. f_equal. lia.
    + by rewrite El.
    + rewrite El. by replace (lh_offset h + (base + lenZ s1 - lh_offset h)) with (base + lenZ s1) by lia.
Qed.

(** ** Values of a type *)

Fixpoint all_fields (P : val → ty → Prop) (l : list val) (fields : list (bool * tags * ty)) : Prop :=
  match l, fields with
  | [], [] => True
  | v :: l, (_, _, t) :: fields => P v t ∧ all_fields P l fields
  | _, _ => False
  end.

Definition uint_bits (bits : Z) : Prop := bits = 8 ∨ bits = 16 ∨ bits = 32 ∨ bits = 64.

Fixpoint has_type (v : val) (t : ty) {struct v} : Prop :=
  match t, v with
  | (TRaw | TString | TBytes), VBytes b => Forall is_byte b
  | TByteArray n, VBytes b => Forall is_byte b ∧ length b = n
  | TUint bits, VUint n => uint_bits bits ∧ 0 <= n < 2 ^ bits
  | TBool, VBool _ => True
  | TBig, (VNil | VBig _) => True
  | TSlice t, VList l => foldr (λ v P, has_type v t ∧ P) True l
  | TArray n t, VList l => length l = n ∧ foldr (λ v P, has_type v t ∧ P) True l
  | TStruct fields, VList l =>
      (fix go l fields {struct l} :=
        match l, fields with
        | [], [] => True
        | v :: l, (_, _, t) :: fields => has_type v t ∧ go l fields
        | _, _ => False
        end) l fields
  | TPtr t, VNil => True
  | TPtr t, VPtr v => has_type v t
  | (TIface | TUnsupported), VNil => True
  | TIface, VIface t v => has_type v t
  | _, _ => False
  end.

Lemma has_type_elems t l :
  foldr (λ v P, has_type v t ∧ P) True l ↔ Forall (λ v, has_type v t) l.
Proof.
  induction l as [|v l IH]; cbn; [split; [constructor|done]|].
  rewrite Forall_cons, <-IH. done.
Qed.

Lemma has_type_struct fields l :
  has_type (VList l) (TStruct fields) ↔ all_fields has_type l fields.
Proof.
  cbn. revert fields. induction l as [|v l IH]; intros [|[[e ts] t] fields]; cbn; try done.
  by rewrite IH.
Qed.

Lemma all_fields_lookup P l fields i e ts t :
  all_fields P l fields → fields !! i = Some (e, ts, t) → ∃ v, l !! i = Some v ∧ P v t.
Proof.
  revert l i. induction fields as [|[[e' ts'] t'] fields IH]; intros [|v l] [|i] Ha Hi; cbn in *; try done.
  - injection Hi as -> -> ->. exists v. by destruct Ha.
  - apply (IH l); [by destruct Ha|done].
Qed.

Lemma parseStructTag_same i last ts t ts' : parseStructTag i last ts t = Some ts' → ts' = ts.
Proof. unfold parseStructTag. intros. by repeat (case_match; simplify_eq). Qed.

(** Every encoded field is a declared one, exported and not ignored. *)
Lemma fields_from_lookup i0 last fields fs i ts t :
  fields_from i0 last fields = Some fs → (i, ts, t) ∈ fs →
  (i0 <= i)%nat ∧ fields !! (i - i0)%nat = Some (true, ts, t) ∧ ignored ts = false ∧
  parseStructTag i last ts t = Some ts.
Proof.
  revert i0 fs. induction fields as [|[[e ts'] t'] fields IH]; intros i0 fs Hf Hin; cbn in Hf.
  - injection Hf as <-. by apply elem_of_nil in Hin.
  - assert (∀ fs', fields_from (S i0) last fields = Some fs' → (i, ts, t) ∈ fs' →
      (i0 <= i)%nat ∧ ((e, ts', t') :: fields) !! (i - i0)%nat = Some (true, ts, t) ∧
      ignored ts = false ∧ parseStructTag i last ts t = Some ts) as Hrec.
    { intros fs' Hf' Hin'. destruct (IH _ _ Hf' Hin') as (Hi & Hl & Hg). split_and!; [lia| |apply Hg..].
      replace (i - i0)%nat with (S (i - S i0)) by lia. done. }
    destruct e; [|by eapply Hrec].
    destruct (parseStructTag i0 last ts' t') as [ts1|] eqn:Ep; [|done]. cbn in Hf.
    destruct (fields_from (S i0) last fields) as [rest|] eqn:Er; [|done]. cbn in Hf.
    injection Hf as <-. apply parseStructTag_same in Ep as E1. subst ts1.
    destruct (ignored ts') eqn:Eg; [by eapply Hrec|].
    apply elem_of_cons in Hin as [[= -> -> ->]|Hin]; [|by eapply Hrec].
    rewrite Nat.sub_diag. done.
Qed.

(** ** What a writer appends *)

Definition wrote (w w' : encbuf) (b : bytes) : Prop :=
  ∃ s hs, eb_str w' = eb_str w ++ s ∧ eb_lheads w' = eb_lheads w ++ hs ∧
    eb_lhsize w' = eb_lhsize w + heads_len hs ∧
    placed (lenZ (eb_str w)) (lenZ s) hs ∧ render (lenZ (eb_str w)) s hs = b.

Lemma heads_len_app hs1 hs2 : heads_len (hs1 ++ hs2) = heads_len hs1 + heads_len hs2.
Proof.
  induction hs1 as [|h hs1 IH]; [done|]. cbn [app].
  change (heads_len (h :: hs1)) with (lenZ (listhead_encode h) + heads_len hs1).
  change (heads_len (h :: hs1 ++ hs2)) with (lenZ (listhead_encode h) + heads_len (hs1 ++ hs2)). lia.
Qed.

Lemma wrote_nil w : wrote w w [].
Proof.
  exists [], []. rewrite !app_nil_r. split_and!; try done. unfold heads_len. cbn. lia.
Qed.

Lemma wrote_append b w : wrote w (eb_append b w) b.
Proof.
  exists b, []. cbn. rewrite app_nil_r. split_and!; try done; [unfold heads_len; cbn; lia|].
  apply lenZ_nonneg.
Qed.

Lemma wrote_trans w w1 w2 b1 b2 : wrote w w1 b1 → wrote w1 w2 b2 → wrote w w2 (b1 ++ b2).
Proof.
  intros (s1 & hs1 & E1 & L1 & Z1 & P1 & <-) (s2 & hs2 & E2 & L2 & Z2 & P2 & <-).
  rewrite E1, lenZ_app in P2 |- *. exists (s1 ++ s2), (hs1 ++ hs2).
  rewrite E2, E1, L2, L1, Z2, Z1, heads_len_app, !app_assoc.
  split_and!; [done|done|lia|by apply placed_app|by apply render_app].
Qed.

(** A list: the header that [list] reserved is completed by [listEnd]. *)
Lemma wrote_list w w1 content :
  wrote (fst (eb_list w)) w1 content → lenZ content < 2 ^ 64 →
  wrote w (listEnd (length (eb_lheads w)) w1) (enc_list content).
Proof.
  intros (s & hs & Es & Eh & Ez & Hp & Hr) Hlen. cbn in Es, Eh, Ez, Hp, Hr.
  set (base := lenZ (eb_str w)) in *.
  assert (lenZ content = lenZ s + heads_len hs) as Hc by (rewrite <-Hr; by apply render_length).
  pose proof (lenZ_nonneg content) as Hpos.
  unfold listEnd. rewrite Eh, <-app_assoc, lookup_app_r, Nat.sub_diag by lia. cbn [app lookup list_lookup].
  cbn [lh_offset lh_size]. unfold eb_size. rewrite Es, Ez, lenZ_app. fold base.
  replace (base + lenZ s + (eb_lhsize w + heads_len hs) - base - eb_lhsize w) with (lenZ content) by lia.
  set (h := mkListhead base (lenZ content)).
  exists s, (h :: hs). cbn [eb_str eb_lheads eb_lhsize]. split_and!; [done| | | |].
  - rewrite insert_app_r_alt, Nat.sub_diag by lia. done.
  - change (heads_len (h :: hs)) with (lenZ (listhead_encode h) + heads_len hs).
    unfold listhead_encode. rewrite puthead_length by (cbn; lia). unfold headsize. cbn [h lh_size].
    case_match; lia.
  - cbn. split; [pose proof (placed_nonneg _ _ _ Hp); lia|].
    fold base. by replace (base + lenZ s - base) with (lenZ s) by lia.
  - cbn [render]. cbn [h lh_offset]. fold base. rewrite Z.sub_diag, drop_0. cbn. by rewrite Hr.
Qed.

Lemma wrote_list_empty w : wrote w (write_empty_list w) [192].
Proof. apply (wrote_list w (fst (eb_list w)) []); [apply wrote_nil|done]. Qed.

Lemma wrote_string b w : wrote w (encodeString b w) (enc_str b).
Proof.
  unfold encodeString, enc_str, encodeStringHeader, str_head, puthead.
  assert (wrote w (eb_append b
    (if lenZ b <? 56 then eb_append [byte_of (128 + byte_of (lenZ b))] w
     else eb_append (byte_of (183 + byte_of (Z.of_nat (length (putint (lenZ b))))) :: putint (lenZ b)) w))
    ((if lenZ b <? 56 then [byte_of (128 + byte_of (lenZ b))]
      else byte_of (183 + byte_of (Z.of_nat (length (putint (lenZ b))))) :: putint (lenZ b)) ++ b)) as H.
  { case_match; (eapply wrote_trans; [apply wrote_append|apply wrote_append]). }
  destruct b as [|x [|y b]]; [exact H| |exact H].
  rewrite bool_decide_eq_true_2 by done. cbn [forallb andb]. rewrite andb_true_r.
  destruct (x <=? 127); [apply wrote_append|exact H].
Qed.

Lemma wrote_uint i w : 0 <= i < 2 ^ 64 → wrote w (writeUint i w) (enc_uint i).
Proof.
  intros Hi. unfold writeUint, enc_uint. destruct (Z.eqb_spec i 0); [apply wrote_append|].
  destruct (Z.ltb_spec i 128).
  - rewrite putint_single by lia. unfold enc_str. rewrite bool_decide_eq_true_2 by done. cbn.
    destruct (Z.leb_spec i 127); [|lia]. rewrite byte_of_small by lia. apply wrote_append.
  - destruct (putint_spec i) as (Hm & Hv & Hl1 & Hl2); [lia|].
    assert (enc_str (putint i) = byte_of (128 + byte_of (Z.of_nat (length (putint i)))) :: putint i) as ->;
      [|apply wrote_append].
    unfold enc_str. destruct (_ && _) eqn:G.
    + bsimp. destruct (putint i) as [|x [|y l]]; try done. cbn in *. bsimp. lia.
    + unfold str_head, puthead, lenZ. destruct (Z.ltb_spec (Z.of_nat (length (putint i))) 56); [done|lia].
Qed.

Lemma wrote_enc_nil t w : wrote w (write_nil t w) (enc_nil t).
Proof.
  revert w. induction t; intros w; cbn; try apply wrote_append; try apply wrote_list_empty;
    try apply (wrote_string []); try apply wrote_nil; done.
Qed.

(** A writer that does what an optional encoding says: it fails without one, and
    appends it otherwise, if its length fits a [uint64]. *)
Definition agrees (f : encbuf → encbuf + writeErr) (e : option bytes) : Prop :=
  ∀ w, match e with
       | None => ∃ err, f w = inr err
       | Some b => ∃ w', f w = inl w' ∧ (lenZ b < 2 ^ 64 → wrote w w' b)
       end.

Lemma agrees_inl (f : encbuf → encbuf) b : (∀ w, wrote w (f w) b) → agrees (λ w, inl (f w)) (Some b).
Proof. intros H w. by exists (f w). Qed.

Lemma agrees_all ws es : Forall2 agrees ws es → agrees (write_all ws) (concat_all es).
Proof.
  induction 1 as [|f e ws es Hf _ IH]; intros w; cbn.
  - exists w. split; [done|]. intros _. apply wrote_nil.
  - specialize (Hf w). destruct e as [b|]; cbn; [|destruct Hf as (err & ->); by exists err].
    destruct Hf as (w1 & -> & H1). specialize (IH w1). destruct (concat_all es) as [rest|]; cbn; [|done].
    destruct IH as (w2 & -> & H2). exists w2. split; [done|]. rewrite lenZ_app. intros Hl.
    pose proof (lenZ_nonneg b). pose proof (lenZ_nonneg rest).
    eapply wrote_trans; [apply H1; lia|apply H2; lia].
Qed.

Lemma agrees_list f e : agrees f e → agrees (in_list f) (c ← e; Some (enc_list c)).
Proof.
  intros Hf w.
  change (in_list f w) with (match f (fst (eb_list w)) with
    | inl w1 => inl (listEnd (length (eb_lheads w)) w1) | inr e => inr e end : encbuf + writeErr).
  specialize (Hf (fst (eb_list w))). destruct e as [c|]; cbn [mbind option_bind].
  - destruct Hf as (w1 & -> & H1). eexists. split; [done|]. unfold enc_list at 1. rewrite lenZ_app.
    intros Hl. pose proof (lenZ_nonneg (list_head (lenZ c))). apply wrote_list; [apply H1|]; lia.
  - destruct Hf as (err & ->). by exists err.
Qed.

Lemma Forall2_fmap_same {A B C} (R : B → C → Prop) (f : A → B) (g : A → C) l :
  (∀ x, x ∈ l → R (f x) (g x)) → Forall2 R (f <$> l) (g <$> l).
Proof.
  intros H. induction l as [|x l IH]; cbn; constructor; [apply H; left|apply IH].
  intros y Hy. apply H. by right.
Qed.

Lemma write_agrees v t ts : has_type v t → agrees (write v t ts) (enc v t ts).
Proof.
  revert t ts. induction v as [n|b|b|z|l IH| |v IH|t' v IH] using val_ind'; intros t ts Ht;
    destruct t as [|bits| | | |n'| |t|n' t|fields|t| |]; try done; cbn [write enc]; cbn [has_type] in Ht;
    try (apply agrees_inl; intros w; solve [apply wrote_append|apply wrote_string|apply wrote_enc_nil]).
  - apply agrees_inl. intros w. destruct Ht as [Hb Hn]. apply wrote_uint.
    destruct Hb as [-> | [-> | [-> | ->]]]; lia.
  - apply agrees_inl. intros w. unfold writeBool. destruct b; apply wrote_append.
  - unfold writeBigInt. destruct (Z.ltb_spec z 0); [intros w; by eexists|].
    destruct (Z.eqb_spec z 0) as [->|]; apply agrees_inl; intros w;
      [apply wrote_append|apply wrote_string].
  - apply has_type_elems in Ht. assert (agrees (write_all ((λ v, write v t no_tags) <$> l))
      (concat_all ((λ v, enc v t no_tags) <$> l))) as H.
    { apply agrees_all, Forall2_fmap_same. intros v Hv. rewrite Forall_forall in IH, Ht. by apply IH, Ht. }
    destruct (tail ts); [|by apply agrees_list]. by destruct (concat_all _).
  - destruct Ht as [_ Ht]. apply has_type_elems in Ht. assert (agrees (write_all ((λ v, write v t no_tags) <$> l))
      (concat_all ((λ v, enc v t no_tags) <$> l))) as H.
    { apply agrees_all, Forall2_fmap_same. intros v Hv. rewrite Forall_forall in IH, Ht. by apply IH, Ht. }
    destruct (tail ts); [|by apply agrees_list]. by destruct (concat_all _).
  - change (has_type (VList l) (TStruct fields)) in Ht. apply has_type_struct in Ht.
    destruct (structFields fields) as [fs|] eqn:Ef; cbn; [|intros w; by eexists].
    apply agrees_list, agrees_all, Forall2_fmap_same. intros [[i ts1] t1] Hin.
    destruct (fields_from_lookup _ _ _ _ _ _ _ Ef Hin) as (_ & Hl & _). rewrite Nat.sub_0_r in Hl.
    destruct (all_fields_lookup _ _ _ _ _ _ _ Ht Hl) as (v & Hv & Htv).
    rewrite !list_lookup_fmap, Hv. cbn. rewrite Forall_forall in IH.
    destruct (type_ok t1); [|intros w; by eexists].
    apply IH; [by apply list_elem_of_lookup_2 in Hv|done].
  - intros w. by eexists.
  - by apply IH.
  - destruct (type_ok t'); [by apply IH|intros w; by eexists].
Qed.

Lemma EncodeToBytes_spec t v :
  has_type v t →
  match encoding t v with
  | None => ∃ err, EncodeToBytes t v = inr err
  | Some b => lenZ b < 2 ^ 64 → EncodeToBytes t v = inl b
  end.
Proof.
  intros Ht. pose proof (write_agrees v t no_tags Ht eb_empty) as H. unfold EncodeToBytes, encoding.
  destruct (type_ok t); [|by eexists].
  destruct (enc v t no_tags) as [b|].
  - destruct H as (w & -> & Hw). intros Hl. destruct (Hw Hl) as (s & hs & Es & Eh & _ & Hp & Hr).
    cbn in Es, Eh. change (lenZ (eb_str eb_empty)) with 0 in *. unfold toBytes.
    rewrite Es, Eh, toBytes_render; [by rewrite drop_0, Hr|lia|]. by rewrite Z.sub_0_r.
  - destruct H as (err & ->). by exists err.
Qed.

(** The RLP encoder writes the reference encoding. For every value of a type,
    EncodeToBytes returns bytes exactly when the reference encoding (strings and lists
    with their shortest headers, composed by concatenation) exists, and returns those
    bytes, although it writes list contents first and inserts the list headers
    afterwards; and the size the buffer keeps is the length of the output. *)
Theorem EncodeToBytes_reference t v :
  has_type v t → (∀ b, encoding t v = Some b → lenZ b < 2 ^ 64) →
  (∀ b, EncodeToBytes t v = inl b ↔ encoding t v = Some b) ∧
  (∀ w, type_ok t = true → write v t no_tags eb_empty = inl w → lenZ (toBytes w) = eb_size w).
Proof.
  intros Ht Hl. pose proof (EncodeToBytes_spec t v Ht) as H.
  pose proof (write_agrees v t no_tags Ht eb_empty) as Hw.
  unfold encoding in *. destruct (type_ok t); [|split; [|done]; intros b; destruct H as (? & ->); split; congruence].
  destruct (enc v t no_tags) as [b|]; split.
  - intros b'. rewrite H by auto. split; congruence.
  - intros w _ Ew. destruct Hw as (w' & Ew' & Hw). rewrite Ew in Ew'. injection Ew' as <-.
    destruct Hw as (s & hs & Es & Eh & Ez & Hp & Hr); [auto|]. cbn in Es, Eh, Ez.
    change (lenZ (eb_str eb_empty)) with 0 in *. unfold toBytes, eb_size. rewrite Es, Eh, Ez, toBytes_render; [|lia|by rewrite Z.sub_0_r].
    rewrite drop_0. by rewrite render_length.
  - intros b'. destruct H as (err & ->). split; congruence.
  - intros w _ Ew. destruct Hw as (err & Ew'). congruence.
Qed.

Lemma EncodeToBytes_reference_witness :
  EncodeToBytes (TSlice TString) (VList [VBytes [99; 97; 116]; VBytes [100; 111; 103]]) =
    inl [200; 131; 99; 97; 116; 131; 100; 111; 103].
Proof.
  apply (EncodeToBytes_reference (TSlice TString)
    (VList [VBytes [99; 97; 116]; VBytes [100; 111; 103]])).
  - cbn. unfold is_byte. split_and!; repeat constructor; lia.
  - intros b [= <-]. vm_compute. reflexivity.
  - vm_compute. reflexivity.
Defined.
