(* ===== verification/RlpDecode.v ===== *)
(** * The RLP codec: decoding (rlp/decode.go, rlp/raw.go)

    The functions on raw encodings, the decoding stream with its stack of open lists and
    its cached kind, and the decoders that the package derives from Go types.  Decoding
    undoes encoding, and what is decoded has exactly one encoding. *)

From Stdlib Require Import ZArith Lia ZifyBool.
From stdpp Require Import base tactics strings numbers gmap list.
From S2P Require Import Prelude Rlp.

Local Open Scope Z_scope.

Inductive Kind := KByte | KString | KList.

#[global] Instance Kind_eq_dec : EqDecision Kind.
Proof. solve_decision. Defined.

(** The errors; [DecodeError] is [decodeError] without the type and context it prints. *)
Inductive rlpErr :=
| EOL | ErrExpectedString | ErrExpectedList | ErrCanonInt | ErrCanonSize | ErrElemTooLarge
| ErrValueTooLarge | ErrMoreThanOneValue | errNotInList | errNotAtEOL | errUintOverflow
| ioEOF | ErrUnexpectedEOF | DecodeError (msg : string) | ErrTypeTag | PanicNilDecoder | OutOfFuel.

#[global] Instance rlpErr_eq_dec : EqDecision rlpErr.
Proof. solve_decision. Defined.

(** ** Raw encodings *)

(** Shifting in the bytes, most significant first. *)
Definition be_or (b : bytes) : Z := foldl (λ acc x, Z.lor (Z.shiftl acc 8) x) 0 b.

Definition readSize (b : bytes) (slen : Z) : Z + rlpErr :=
  if lenZ b <? slen then inr ErrUnexpectedEOF
  else
    let s := be_or (take (Z.to_nat slen) b) in
    if (s <? 56) || bool_decide (b !! O = Some 0) then inr ErrCanonSize else inl s.

(** The kind, the size of the tag and the size of the content of the first value. *)
Definition raw_readKind (buf : bytes) : (Kind * Z * Z) + rlpErr :=
  match buf with
  | [] => inr ErrUnexpectedEOF
  | b :: rest =>
      let large k tag :=
        match readSize rest (b - tag) with
        | inl cs => inl (k, b - tag + 1, cs)
        | inr e => inr e
        end in
      let r :=
        if b <? 128 then inl (KByte, 0, 1)
        else if b <? 184 then
          if (b - 128 =? 1) && match rest with x :: _ => x <? 128 | [] => false end
          then inr ErrCanonSize
          else inl (KString, 1, b - 128)
        else if b <? 192 then large KString 183
        else if b <? 248 then inl (KList, 1, b - 192)
        else large KList 247 in
      match r with
      | inr e => inr e
      | inl (k, ts, cs) =>
          if u64 (lenZ buf - ts) <? cs then inr ErrValueTooLarge else inl (k, ts, cs)
      end
  end.

Definition Split (b : bytes) : (Kind * bytes * bytes) + rlpErr :=
  match raw_readKind b with
  | inr e => inr e
  | inl (k, ts, cs) =>
      inl (k, take (Z.to_nat cs) (drop (Z.to_nat ts) b), drop (Z.to_nat (ts + cs)) b)
  end.

Definition SplitString (b : bytes) : (bytes * bytes) + rlpErr :=
  match Split b with
  | inr e => inr e
  | inl (KList, _, _) => inr ErrExpectedString
  | inl (_, content, rest) => inl (content, rest)
  end.

Definition SplitList (b : bytes) : (bytes * bytes) + rlpErr :=
  match Split b with
  | inr e => inr e
  | inl (KList, content, rest) => inl (content, rest)
  | inl (_, _, _) => inr ErrExpectedList
  end.

(** Every value has at least one byte: the length of the input bounds the loop. *)
Fixpoint CountValues_loop (fuel : nat) (b : bytes) (i : Z) : Z + rlpErr :=
  match b with
  | [] => inl i
  | _ =>
      match fuel with
      | O => inr OutOfFuel
      | S fuel =>
          match raw_readKind b with
          | inr e => inr e
          | inl (_, ts, cs) => CountValues_loop fuel (drop (Z.to_nat (ts + cs)) b) (i + 1)
          end
      end
  end.

Definition CountValues (b : bytes) : Z + rlpErr := CountValues_loop (length b) b 0.

(** ** The stream *)

Record listpos := mkListpos { lp_pos : Z; lp_size : Z }.

(** [st_kind] is [None] for the kind [-1] that makes [Kind] read; the innermost list is
    the head of [st_stack]. *)
Record Stream := mkStream {
  st_r : bytes;
  st_remaining : Z;
  st_limited : bool;
  st_kind : option Kind;
  st_size : Z;
  st_byteval : Z;
  st_kinderr : option rlpErr;
  st_stack : list listpos
}.

(** Stream operations keep the changes to the stream when they fail. *)
Definition SM (A : Type) : Type := Stream → Stream * (A + rlpErr).

#[global] Instance SM_ret : MRet SM := λ A a s, (s, inl a).
#[global] Instance SM_bind : MBind SM := λ A B f m s,
  match m s with
  | (s, inl a) => f a s
  | (s, inr e) => (s, inr e)
  end.

Definition err {A} (e : rlpErr) : SM A := λ s, (s, inr e).
Definition st_get : SM Stream := λ s, (s, inl s).
Definition st_modify (f : Stream → Stream) : SM () := λ s, (f s, inl ()).

(** The error as a value. *)
Definition catch {A} (m : SM A) : SM (A + rlpErr) := λ s, let '(s, r) := m s in (s, inl r).
Definition throw {A} (r : A + rlpErr) : SM A := λ s, (s, r).

Definition set_kind (k : option Kind) (s : Stream) : Stream :=
  mkStream (st_r s) (st_remaining s) (st_limited s) k (st_size s) (st_byteval s) (st_kinderr s)
    (st_stack s).

Definition set_stack (stack : list listpos) (s : Stream) : Stream :=
  mkStream (st_r s) (st_remaining s) (st_limited s) (st_kind s) (st_size s) (st_byteval s)
    (st_kinderr s) stack.

Definition set_size (n : Z) (s : Stream) : Stream :=
  mkStream (st_r s) (st_remaining s) (st_limited s) (st_kind s) n (st_byteval s) (st_kinderr s)
    (st_stack s).

Definition set_byteval (n : Z) (s : Stream) : Stream :=
  mkStream (st_r s) (st_remaining s) (st_limited s) (st_kind s) (st_size s) n (st_kinderr s)
    (st_stack s).

Definition set_kinderr (e : option rlpErr) (s : Stream) : Stream :=
  mkStream (st_r s) (st_remaining s) (st_limited s) (st_kind s) (st_size s) (st_byteval s) e
    (st_stack s).

Definition set_remaining (n : Z) (s : Stream) : Stream :=
  mkStream (st_r s) n (st_limited s) (st_kind s) (st_size s) (st_byteval s) (st_kinderr s)
    (st_stack s).

Definition set_r (r : bytes) (s : Stream) : Stream :=
  mkStream r (st_remaining s) (st_limited s) (st_kind s) (st_size s) (st_byteval s) (st_kinderr s)
    (st_stack s).

Definition willRead (n : Z) : SM () :=
  st_modify (set_kind None);;
  s ← st_get;
  match st_stack s with
  | [] => mret ()
  | tos :: below =>
      if u64 (lp_size tos - lp_pos tos) <? n then err ErrElemTooLarge
      else st_modify (set_stack (mkListpos (u64 (lp_pos tos + n)) (lp_size tos) :: below))
  end;;
  if st_limited s then
    if st_remaining s <? n then err ErrValueTooLarge
    else st_modify (set_remaining (st_remaining s - n))
  else mret ().

Definition readByte : SM Z :=
  willRead 1;;
  s ← st_get;
  match st_r s with
  | [] => err ErrUnexpectedEOF
  | b :: r => st_modify (set_r r);; mret b
  end.

(** [n] bytes of the reader; a short reader is used up. *)
Definition readFull (n : Z) : SM bytes :=
  willRead n;;
  s ← st_get;
  if lenZ (st_r s) <? n then st_modify (set_r []);; err ErrUnexpectedEOF
  else
    st_modify (set_r (drop (Z.to_nat n) (st_r s)));;
    mret (take (Z.to_nat n) (st_r s)).

Definition readUint (size : Z) : SM Z :=
  if size =? 0 then st_modify (set_kind None);; mret 0
  else if size =? 1 then readByte
  else
    b ← readFull size;
    if bool_decide (b !! O = Some 0) then err ErrCanonSize else mret (be_or b).

(** The kind and size of the next value, with an error that [Kind] keeps. *)
Definition readKind : SM (Kind * Z * option rlpErr) :=
  r ← catch readByte;
  match r with
  | inr e =>
      s ← st_get;
      mret (KByte, 0,
        Some match st_stack s, e with
             | [], (ErrUnexpectedEOF | ErrValueTooLarge) => ioEOF
             | _, _ => e
             end)
  | inl b =>
      let large k tag :=
        r ← catch (readUint (b - tag));
        match r with
        | inl size => mret (k, size, if size <? 56 then Some ErrCanonSize else None)
        | inr e => mret (k, 0, Some e)
        end in
      st_modify (set_byteval 0);;
      if b <? 128 then st_modify (set_byteval b);; mret (KByte, 0, None)
      else if b <? 184 then mret (KString, b - 128, None)
      else if b <? 192 then large KString 183
      else if b <? 248 then mret (KList, b - 192, None)
      else large KList 247
  end.

(** [Kind]: cached until the value is read; inside a list nothing is read past its end. *)
Definition st_Kind : SM (Kind * Z) :=
  s ← st_get;
  match st_kind s with
  | Some _ => mret ()
  | None =>
      st_modify (set_kinderr None);;
      match st_stack s with
      | tos :: _ => if lp_pos tos =? lp_size tos then err EOL else mret ()
      | [] => mret ()
      end;;
      r ← readKind;
      let '(k, size, e) := r in
      st_modify (λ s, set_kind (Some k) (set_size size (set_kinderr e s)));;
      match e with
      | Some _ => mret ()
      | None =>
          s ← st_get;
          match st_stack s with
          | [] =>
              if st_limited s && (st_remaining s <? size)
              then st_modify (set_kinderr (Some ErrValueTooLarge)) else mret ()
          | tos :: _ =>
              if u64 (lp_size tos - lp_pos tos) <? size
              then st_modify (set_kinderr (Some ErrElemTooLarge)) else mret ()
          end
      end
  end;;
  s ← st_get;
  match st_kinderr s, st_kind s with
  | Some e, _ => err e
  | None, Some k => mret (k, st_size s)
  | None, None => err EOL
  end.

Definition st_Bytes : SM bytes :=
  r ← st_Kind;
  let '(kind, size) := r in
  match kind with
  | KByte =>
      st_modify (set_kind None);;
      s ← st_get;
      mret [st_byteval s]
  | KString =>
      b ← readFull size;
      if (size =? 1) && match b with x :: _ => x <? 128 | [] => false end
      then err ErrCanonSize else mret b
  | KList => err ErrExpectedString
  end.

Definition st_Raw : SM bytes :=
  r ← st_Kind;
  let '(kind, size) := r in
  match kind with
  | KByte =>
      st_modify (set_kind None);;
      s ← st_get;
      mret [st_byteval s]
  | KString => b ← readFull size; mret (puthead 128 183 size ++ b)
  | KList => b ← readFull size; mret (puthead 192 247 size ++ b)
  end.

Definition st_uint (maxbits : Z) : SM Z :=
  r ← st_Kind;
  let '(kind, size) := r in
  match kind with
  | KByte =>
      s ← st_get;
      if st_byteval s =? 0 then err ErrCanonInt
      else st_modify (set_kind None);; mret (st_byteval s)
  | KString =>
      if maxbits / 8 <? size then err errUintOverflow
      else
        r ← catch (readUint size);
        match r with
        | inr ErrCanonSize => err ErrCanonInt
        | inr e => err e
        | inl v => if (0 <? size) && (v <? 128) then err ErrCanonSize else mret v
        end
  | KList => err ErrExpectedString
  end.

Definition st_Bool : SM bool :=
  num ← st_uint 8;
  if num =? 0 then mret false
  else if num =? 1 then mret true
  else err (DecodeError "invalid boolean value").

Definition st_List : SM Z :=
  r ← st_Kind;
  let '(kind, size) := r in
  if bool_decide (kind = KList) then
    st_modify (λ s, set_kind None (set_size 0 (set_stack (mkListpos 0 size :: st_stack s) s)));;
    mret size
  else err ErrExpectedList.

Definition st_ListEnd : SM () :=
  s ← st_get;
  match st_stack s with
  | [] => err errNotInList
  | tos :: below =>
      if negb (lp_pos tos =? lp_size tos) then err errNotAtEOL
      else
        let stack := match below with
                     | [] => []
                     | up :: below => mkListpos (u64 (lp_pos up + lp_size tos)) (lp_size up) :: below
                     end in
        st_modify (λ s, set_kind None (set_size 0 (set_stack stack s)))
  end.

(** [Reset] on the reader of a byte slice. *)
Definition st_Reset (b : bytes) (inputLimit : Z) : Stream :=
  mkStream b (if 0 <? inputLimit then inputLimit else lenZ b) true None 0 0 None [].

(** ** Decoders *)

Definition wrapStreamError (e : rlpErr) : rlpErr :=
  match e with
  | ErrCanonInt => DecodeError "non-canonical integer (leading zero bytes)"
  | ErrCanonSize => DecodeError "non-canonical size information"
  | ErrExpectedList => DecodeError "expected input list"
  | ErrExpectedString => DecodeError "expected input string or byte"
  | errUintOverflow => DecodeError "input string too long"
  | errNotAtEOL => DecodeError "input list has too many elements"
  | e => e
  end.

Definition wrap {A} (m : SM A) : SM A := λ s,
  match m s with
  | (s, inr e) => (s, inr (wrapStreamError e))
  | r => r
  end.

Definition decodeBigInt : SM val :=
  b ← wrap st_Bytes;
  if bool_decide (b !! O = Some 0) then err (wrapStreamError ErrCanonInt)
  else mret (VBig (be_val b)).

Definition decodeByteArray (vlen : Z) : SM val :=
  r ← st_Kind;
  let '(kind, size) := r in
  match kind with
  | KByte =>
      if vlen =? 0 then err (DecodeError "input string too long")
      else if 1 <? vlen then err (DecodeError "input string too short")
      else
        bv ← catch (st_uint 64);
        mret (VBytes [match bv with inl bv => bv | inr _ => 0 end])
  | KString =>
      if vlen <? size then err (DecodeError "input string too long")
      else if size <? vlen then err (DecodeError "input string too short")
      else
        b ← readFull vlen;
        if (size =? 1) && match b with x :: _ => x <? 128 | [] => false end
        then err (wrapStreamError ErrCanonSize)
        else mret (VBytes b)
  | KList => err (wrapStreamError ErrExpectedString)
  end.

(** Elements until the end of the list. *)
Fixpoint decodeSliceElems (fuel : nat) (elemdec : SM val) : SM (list val) :=
  match fuel with
  | O => err OutOfFuel
  | S fuel =>
      r ← catch elemdec;
      match r with
      | inr EOL => mret []
      | inr e => err e
      | inl v => rest ← decodeSliceElems fuel elemdec; mret (v :: rest)
      end
  end.

Definition decodeListSlice (fuel : nat) (elemdec : SM val) : SM val :=
  size ← wrap st_List;
  if size =? 0 then st_ListEnd;; mret (VList [])
  else l ← decodeSliceElems fuel elemdec; st_ListEnd;; mret (VList l).

Fixpoint decodeArrayElems (n : nat) (elemdec : SM val) : SM (list val) :=
  match n with
  | O => mret []
  | S n =>
      r ← catch elemdec;
      match r with
      | inr EOL => err (DecodeError "input list has too few elements")
      | inr e => err e
      | inl v => rest ← decodeArrayElems n elemdec; mret (v :: rest)
      end
  end.

Definition decodeListArray (vlen : nat) (elemdec : SM val) : SM val :=
  wrap st_List;;
  l ← decodeArrayElems vlen elemdec;
  wrap st_ListEnd;;
  mret (VList l).

(** The zero value that a decoder starts from. *)
Fixpoint zero_val (t : ty) : val :=
  match t with
  | TRaw | TString | TBytes => VBytes []
  | TUint _ => VUint 0
  | TBool => VBool false
  | TByteArray n => VBytes (replicate n 0)
  | TBig | TPtr _ | TIface | TUnsupported => VNil
  | TSlice _ => VList []
  | TArray n t => VList (replicate n (zero_val t))
  | TStruct fields => VList ((λ '(_, _, t), zero_val t) <$> fields)
  end.

(** The fields in order; the list of values is that of all declared fields. *)
Fixpoint decodeFields (dec : ty → tags → SM val) (fs : list (nat * tags * ty)) (l : list val)
    : SM (list val) :=
  match fs with
  | [] => mret l
  | (i, ts, t) :: fs =>
      r ← catch (dec t ts);
      match r with
      | inr EOL => err (DecodeError "too few elements")
      | inr e => err e
      | inl v => decodeFields dec fs (<[i := v]> l)
      end
  end.

(** An empty value decodes to nil. *)
Definition decodeOptionalPtr (dec : SM val) : SM val :=
  r ← catch st_Kind;
  match r with
  | inr e => st_modify (set_kind None);; err e
  | inl (kind, size) =>
      if (size =? 0) && negb (bool_decide (kind = KByte))
      then st_modify (set_kind None);; mret VNil
      else v ← dec; mret (VPtr v)
  end.

Definition decodeInterface (fuel : nat) (self : SM val) : SM val :=
  r ← st_Kind;
  let '(kind, _) := r in
  if bool_decide (kind = KList) then
    v ← decodeListSlice fuel self; mret (VIface (TSlice TIface) v)
  else
    b ← st_Bytes; mret (VIface TBytes (VBytes b)).

(** [makeDecoder]; the fuel bounds the nesting and the number of elements of a list. *)
Fixpoint decode (fuel : nat) (t : ty) (ts : tags) {struct fuel} : SM val :=
  match fuel with
  | O => err OutOfFuel
  | S fuel =>
      match t with
      | TRaw => b ← st_Raw; mret (VBytes b)
      | TUint bits => n ← wrap (st_uint bits); mret (VUint n)
      | TBool => b ← wrap st_Bool; mret (VBool b)
      | TString | TBytes => b ← wrap st_Bytes; mret (VBytes b)
      | TByteArray n => decodeByteArray (Z.of_nat n)
      | TBig => decodeBigInt
      | TSlice t =>
          if tail ts then l ← decodeSliceElems fuel (decode fuel t no_tags); mret (VList l)
          else decodeListSlice fuel (decode fuel t no_tags)
      | TArray n t => decodeListArray n (decode fuel t no_tags)
      | TStruct fields =>
          match structFields fields with
          | None => err ErrTypeTag
          | Some fs =>
              wrap st_List;;
              l ← decodeFields (λ t ts, if type_ok t then decode fuel t ts else err PanicNilDecoder) fs ((λ '(_, _, t), zero_val t) <$> fields);
              wrap st_ListEnd;;
              mret (VList l)
          end
      | TPtr t =>
          if nilOK ts then decodeOptionalPtr (decode fuel t no_tags)
          else v ← decode fuel t no_tags; mret (VPtr v)
      | TIface => decodeInterface fuel (decode fuel TIface no_tags)
      | TUnsupported => err ErrTypeTag
      end
  end.

Definition DecodeBytes (fuel : nat) (t : ty) (b : bytes) : val + rlpErr :=
  if type_ok t then
    match decode fuel t no_tags (st_Reset b (lenZ b)) with
    | (_, inr e) => inr e
    | (s, inl v) => match st_r s with [] => inl v | _ => inr ErrMoreThanOneValue end
    end
  else inr ErrTypeTag.

(** A [[1]byte] that holds zero does not re-arm the stream: what follows it in a list
    reads the same byte again. *)
Lemma byte_array_rereads :
  let t := TStruct [(true, no_tags, TByteArray 1); (true, no_tags, TUint 64)] in
  let v := VList [VBytes [0]; VUint 1] in
  EncodeToBytes t v = inl [194; 0; 1] ∧
  DecodeBytes 10 t [194; 0; 1] = inr (DecodeError "non-canonical integer (leading zero bytes)").
Proof. split; vm_compute; reflexivity. Qed.

(** [structFields] drops the error of a field type: the struct has a writer and a decoder,
    and they call the nil function of the field. *)
Lemma unsupported_field_panics :
  let t := TStruct [(true, no_tags, TUnsupported)] in
  EncodeToBytes TUnsupported VNil = inr ErrStructTag ∧
  EncodeToBytes t (VList [VNil]) = inr PanicNilWriter ∧
  DecodeBytes 10 t [193; 1] = inr PanicNilDecoder.
Proof. split_and!; vm_compute; reflexivity. Qed.

(** ** Reading what was written

    [fits n] says that [n] more bytes stay within the input limit and the innermost
    list; [sub] and [bump] account for them. *)

Definition sub (lim : bool) (rem n : Z) : Z := if lim then rem - n else rem.

Definition bump (n : Z) (stk : list listpos) : list listpos :=
  match stk with
  | [] => []
  | tos :: below => mkListpos (lp_pos tos + n) (lp_size tos) :: below
  end.

Definition fits (n rem : Z) (lim : bool) (stk : list listpos) : Prop :=
  0 <= n ∧ (lim = true → n <= rem) ∧
  match stk with
  | [] => True
  | tos :: _ => 0 <= lp_pos tos ∧ lp_pos tos + n <= lp_size tos ∧ lp_size tos < 2 ^ 64
  end.

Lemma sub_sub lim rem n m : sub lim (sub lim rem n) m = sub lim rem (n + m).
Proof. destruct lim; cbn; lia. Qed.

Lemma bump_bump n m stk : bump m (bump n stk) = bump (n + m) stk.
Proof. destruct stk as [|tos stk]; cbn; [done|]. do 2 f_equal. lia. Qed.

Lemma bump_0 stk : bump 0 stk = stk.
Proof. destruct stk as [|[p z] stk]; cbn; [done|]. by rewrite Z.add_0_r. Qed.

Lemma sub_0 lim rem : sub lim rem 0 = rem.
Proof. destruct lim; cbn; lia. Qed.

Lemma fits_split n m rem lim stk :
  fits (n + m) rem lim stk → 0 <= n → 0 <= m →
  fits n rem lim stk ∧ fits m (sub lim rem n) lim (bump n stk).
Proof.
  unfold fits, sub. intros (_ & Hl & Hs) Hn Hm.
  destruct lim, stk as [|tos stk]; cbn in *; repeat split; try done; intros; try lia;
    try (specialize (Hl eq_refl); lia).
Qed.

Lemma fits_le n m rem lim stk : fits m rem lim stk → 0 <= n <= m → fits n rem lim stk.
Proof.
  intros H Hn. replace m with (n + (m - n)) in H by lia. apply (fits_split n (m - n)); [done|lia|lia].
Qed.

Lemma willRead_ok n r rem lim k sz bv ke stk :
  fits n rem lim stk →
  willRead n (mkStream r rem lim k sz bv ke stk) =
    (mkStream r (sub lim rem n) lim None sz bv ke (bump n stk), inl ()).
Proof.
  intros (Hn & Hl & Hs). unfold willRead, mbind, SM_bind, st_modify, st_get. cbn.
  destruct stk as [|tos below]; cbn.
  - destruct lim; cbn; [|done]. destruct (Z.ltb_spec rem n); [specialize (Hl eq_refl); lia|done].
  - destruct (Z.ltb_spec (u64 (lp_size tos - lp_pos tos)) n) as [H|_];
      [rewrite u64_small in H by (unfold in_u64; lia); lia|].
    rewrite (u64_small (lp_pos tos + n)) by (unfold in_u64; lia). destruct lim; cbn; [|done].
    destruct (Z.ltb_spec rem n); [specialize (Hl eq_refl); lia|done].
Qed.

Lemma readByte_ok b r rem lim k sz bv ke stk :
  fits 1 rem lim stk →
  readByte (mkStream (b :: r) rem lim k sz bv ke stk) =
    (mkStream r (sub lim rem 1) lim None sz bv ke (bump 1 stk), inl b).
Proof.
  intros H. unfold readByte, mbind, SM_bind. rewrite willRead_ok by done. done.
Qed.

Lemma readFull_ok b r rem lim k sz bv ke stk :
  fits (lenZ b) rem lim stk →
  readFull (lenZ b) (mkStream (b ++ r) rem lim k sz bv ke stk) =
    (mkStream r (sub lim rem (lenZ b)) lim None sz bv ke (bump (lenZ b) stk), inl b).
Proof.
  intros H. unfold readFull, mbind, SM_bind. rewrite willRead_ok by done. cbn.
  destruct (Z.ltb_spec (lenZ (b ++ r)) (lenZ b)) as [Hlt|_];
    [rewrite lenZ_app in Hlt; pose proof (lenZ_nonneg r); lia|].
  unfold lenZ. rewrite Nat2Z.id, drop_app_length, take_app_length. done.
Qed.

Lemma be_or_val b : Forall is_byte b → be_or b = be_val b.
Proof.
  intros Hb. unfold be_or, be_val. generalize 0. induction Hb as [|x b Hx Hb IH]; intros a; [done|].
  cbn [foldl]. rewrite IH. f_equal. by apply (lor_shiftl_add a x 8).
Qed.

Lemma readUint_ok b r rem lim k sz bv ke stk :
  (1 <= length b <= 8)%nat → minimal b → fits (lenZ b) rem lim stk →
  readUint (lenZ b) (mkStream (b ++ r) rem lim k sz bv ke stk) =
    (mkStream r (sub lim rem (lenZ b)) lim None sz bv ke (bump (lenZ b) stk), inl (be_val b)).
Proof.
  intros Hl [Hb H0] Hf. unfold readUint. destruct (Z.eqb_spec (lenZ b) 0); [unfold lenZ in *; lia|].
  destruct (Z.eqb_spec (lenZ b) 1) as [E|_].
  - destruct b as [|x [|y b]]; [cbn in Hl; lia| |unfold lenZ in E; cbn in E; lia].
    change (lenZ [x]) with 1 in *. cbn [app]. rewrite readByte_ok by done.
    unfold be_val. cbn. done.
  - unfold mbind, SM_bind. rewrite readFull_ok by done. rewrite bool_decide_eq_false_2 by done.
    by rewrite be_or_val.
Qed.

(** *** Headers *)

Lemma puthead_small small large n :
  0 <= n < 56 → 0 <= small <= 192 → puthead small large n = [small + n].
Proof.
  intros Hn Hs. unfold puthead. destruct (Z.ltb_spec n 56); [|lia].
  rewrite (byte_of_small n) by lia. by rewrite byte_of_small by lia.
Qed.

Lemma puthead_large small large n :
  56 <= n < 2 ^ 64 → 0 <= large <= 247 →
  puthead small large n = (large + lenZ (putint n)) :: putint n ∧ 1 <= lenZ (putint n) <= 8.
Proof.
  intros Hn Hs. destruct (putint_spec n) as (_ & _ & Hl); [lia|]. unfold puthead, lenZ.
  destruct (Z.ltb_spec n 56); [lia|]. rewrite (byte_of_small (Z.of_nat _)) by lia.
  rewrite byte_of_small by lia. split; [done|lia].
Qed.

Lemma st_Kind_cached k n r rem lim bv stk :
  st_Kind (mkStream r rem lim (Some k) n bv None stk) =
    (mkStream r rem lim (Some k) n bv None stk, inl (k, n)).
Proof. reflexivity. Qed.

(** [readKind] on the tag of a value, and [Kind] from what it returns. *)
Lemma st_Kind_from k n h r rem lim sz bv bv' ke stk :
  1 <= lenZ h → fits (lenZ h + n) rem lim stk → 0 <= n →
  readKind (mkStream (h ++ r) rem lim None sz bv None stk) =
    (mkStream r (sub lim rem (lenZ h)) lim None sz bv' None (bump (lenZ h) stk), inl (k, n, None)) →
  st_Kind (mkStream (h ++ r) rem lim None sz bv ke stk) =
    (mkStream r (sub lim rem (lenZ h)) lim (Some k) n bv' None (bump (lenZ h) stk), inl (k, n)).
Proof.
  intros Hh Hf Hn Hk. apply fits_split in Hf as [Hf1 Hf2]; [|lia|done].
  change (mkStream (h ++ r) rem lim None sz bv None stk) with
    (set_kinderr None (mkStream (h ++ r) rem lim None sz bv ke stk)) in Hk.
  unfold st_Kind, mbind, SM_bind. cbn [st_get st_kind st_stack]. unfold st_modify at 1.
  destruct stk as [|tos below].
  - unfold mret at 1, SM_ret at 1. cbv beta iota. rewrite Hk. unfold st_modify at 1. cbn. destruct lim; cbn; [|done].
    destruct Hf2 as (_ & Hl & _). specialize (Hl eq_refl). cbn in Hl.
    destruct (Z.ltb_spec (rem - lenZ h) n); [lia|done].
  - destruct Hf1 as (_ & _ & ? & ? & ?). destruct Hf2 as (_ & _ & ? & ? & ?). cbn [bump lp_pos lp_size] in *.
    destruct (Z.eqb_spec (lp_pos tos) (lp_size tos)); [lia|].
    unfold mret at 1, SM_ret at 1. cbv beta iota. rewrite Hk. cbn.
    destruct (Z.ltb_spec (u64 (lp_size tos - (lp_pos tos + lenZ h))) n) as [Hlt|_]; [|done].
    rewrite u64_small in Hlt by (unfold in_u64; lia). lia.
Qed.

Lemma st_Kind_byte b r rem lim sz bv ke stk :
  b < 128 → fits 1 rem lim stk →
  st_Kind (mkStream (b :: r) rem lim None sz bv ke stk) =
    (mkStream r (sub lim rem 1) lim (Some KByte) 0 b None (bump 1 stk), inl (KByte, 0)).
Proof.
  intros Hb Hf. apply (st_Kind_from KByte 0 [b]); [done|done|lia|]. cbn [app].
  unfold readKind, mbind, SM_bind, catch. change (lenZ [b]) with 1. rewrite readByte_ok by done. cbn.
  destruct (Z.ltb_spec b 128); [done|lia].
Qed.

Lemma st_Kind_head k small large n r rem lim sz bv ke stk :
  (k = KString ∧ small = 128 ∧ large = 183 ∨ k = KList ∧ small = 192 ∧ large = 247) →
  0 <= n < 2 ^ 64 → fits (lenZ (puthead small large n) + n) rem lim stk →
  st_Kind (mkStream (puthead small large n ++ r) rem lim None sz bv ke stk) =
    (mkStream r (sub lim rem (lenZ (puthead small large n))) lim (Some k) n 0 None
       (bump (lenZ (puthead small large n)) stk), inl (k, n)).
Proof.
  intros Hk Hn Hf. destruct (decide (n < 56)) as [Hs|Hs].
  - rewrite puthead_small in * by (destruct Hk; lia). change (lenZ [small + n]) with 1 in *.
    apply (st_Kind_from k n [small + n]); [done|done|lia|]. cbn [app].
    unfold readKind, mbind, SM_bind, catch. change (lenZ [small + n]) with 1.
    rewrite readByte_ok by (eapply fits_le; [done|lia]). cbn.
    destruct Hk as [(-> & -> & ->)|(-> & -> & ->)]. all: repeat (case_match; bsimp; try lia).
    all: rewrite Z.add_simpl_l; done.
  - destruct (puthead_large small large n) as [E Hl]; [lia|destruct Hk; lia|]. rewrite E in *.
    destruct (putint_spec n) as (Hm & Hv & Hlen); [lia|].
    assert (lenZ (large + lenZ (putint n) :: putint n) = 1 + lenZ (putint n)) as El
      by (unfold lenZ; cbn [length]; lia). rewrite El in *.
    apply fits_split in Hf as Hf'; [|lia|lia]. destruct Hf' as [Hf1 _].
    apply fits_split in Hf1 as [Hf1 Hf2]; [|lia|lia].
    rewrite <-El. apply st_Kind_from; [lia|by rewrite El|lia|]. rewrite El. cbn [app].
    unfold readKind, mbind, SM_bind, catch. rewrite readByte_ok by done. cbn [st_modify set_byteval].
    unfold set_byteval. cbn [st_r st_remaining st_limited st_kind st_size st_byteval st_kinderr st_stack].
    destruct Hk as [(-> & -> & ->)|(-> & -> & ->)].
    all: repeat match goal with
                | |- context [if ?a <? ?b then _ else _] => destruct (Z.ltb_spec a b); [try lia|try lia]
                end.
    all: rewrite Z.add_simpl_l, readUint_ok by done; rewrite Hv, sub_sub, bump_bump.
    all: destruct (Z.ltb_spec n 56); [lia|done].
Qed.

(** *** Operations that read an encoding *)

(** [m] reads exactly [b] and returns [a], wherever [b] fits. *)
Definition reads {A} (m : SM A) (b : bytes) (a : A) : Prop :=
  ∀ r rem lim sz bv ke stk, fits (lenZ b) rem lim stk →
  ∃ sz' bv' ke', m (mkStream (b ++ r) rem lim None sz bv ke stk) =
    (mkStream r (sub lim rem (lenZ b)) lim None sz' bv' ke' (bump (lenZ b) stk), inl a).

(** The same where [b] is all that is left of the innermost list. *)
Definition reads_end {A} (m : SM A) (b : bytes) (a : A) : Prop :=
  ∀ r rem lim sz bv ke stk p, 0 <= p → p + lenZ b < 2 ^ 64 → (lim = true → lenZ b <= rem) →
  ∃ sz' bv' ke', m (mkStream (b ++ r) rem lim None sz bv ke (mkListpos p (p + lenZ b) :: stk)) =
    (mkStream r (sub lim rem (lenZ b)) lim None sz' bv' ke'
       (mkListpos (p + lenZ b) (p + lenZ b) :: stk), inl a).

(** At the end of the innermost list [m] reports it and reads nothing. *)
Definition at_eol {A} (m : SM A) : Prop :=
  ∀ r rem lim sz bv ke stk n,
  ∃ sz' bv' ke', m (mkStream r rem lim None sz bv ke (mkListpos n n :: stk)) =
    (mkStream r rem lim None sz' bv' ke' (mkListpos n n :: stk), inr EOL).

Lemma reads_reads_end {A} (m : SM A) b a : reads m b a → reads_end m b a.
Proof.
  intros Hm r rem lim sz bv ke stk p Hp Hl Hr. apply (Hm r rem lim sz bv ke (mkListpos p (p + lenZ b) :: stk)).
  pose proof (lenZ_nonneg b). split_and!; cbn; try done; lia.
Qed.

Lemma reads_ret {A} (a : A) : reads (mret a) [] a.
Proof.
  intros r rem lim sz bv ke stk _. exists sz, bv, ke. change (lenZ []) with 0.
  by rewrite sub_0, bump_0.
Qed.

Lemma reads_bind {A B} (m : SM A) (f : A → SM B) b1 b2 a c :
  reads m b1 a → reads (f a) b2 c → reads (m ≫= f) (b1 ++ b2) c.
Proof.
  intros Hm Hf r rem lim sz bv ke stk Hfit. rewrite lenZ_app in Hfit.
  apply fits_split in Hfit as [H1 H2]; [|apply lenZ_nonneg..].
  destruct (Hm (b2 ++ r) rem lim sz bv ke stk H1) as (sz1 & bv1 & ke1 & E1).
  destruct (Hf r _ lim sz1 bv1 ke1 _ H2) as (sz2 & bv2 & ke2 & E2). exists sz2, bv2, ke2.
  unfold mbind, SM_bind. by rewrite <-app_assoc, E1, E2, lenZ_app, sub_sub, bump_bump.
Qed.

Lemma reads_then {A B} (m : SM A) (f : A → B) b a :
  reads m b a → reads (x ← m; mret (f x)) b (f a).
Proof. intros H. rewrite <-(app_nil_r b). eapply reads_bind; [done|apply reads_ret]. Qed.

Lemma reads_wrap {A} (m : SM A) b a : reads m b a → reads (wrap m) b a.
Proof.
  intros H r rem lim sz bv ke stk Hf. destruct (H r rem lim sz bv ke stk Hf) as (sz' & bv' & ke' & E).
  exists sz', bv', ke'. unfold wrap. by rewrite E.
Qed.

Lemma reads_end_bind {A B} (m : SM A) (f : A → SM B) b1 b2 a c :
  reads m b1 a → reads_end (f a) b2 c → reads_end (m ≫= f) (b1 ++ b2) c.
Proof.
  intros Hm Hf r rem lim sz bv ke stk p Hp Hl Hr. rewrite lenZ_app in *.
  pose proof (lenZ_nonneg b1). pose proof (lenZ_nonneg b2).
  destruct (Hm (b2 ++ r) rem lim sz bv ke (mkListpos p (p + (lenZ b1 + lenZ b2)) :: stk))
    as (sz1 & bv1 & ke1 & E1).
  { split_and!; cbn; lia. }
  cbn in E1.
  destruct (Hf r (sub lim rem (lenZ b1)) lim sz1 bv1 ke1 stk (p + lenZ b1)) as (sz2 & bv2 & ke2 & E2).
  { lia. } { lia. } { intros ->. specialize (Hr eq_refl). cbn. lia. }
  rewrite <-Z.add_assoc in E2. exists sz2, bv2, ke2. unfold mbind, SM_bind.
  by rewrite <-app_assoc, E1, E2, sub_sub.
Qed.

Lemma reads_catch {A} (m : SM A) b a : reads m b a → reads (catch m) b (inl a).
Proof.
  intros H r rem lim sz bv ke stk Hf. destruct (H r rem lim sz bv ke stk Hf) as (sz' & bv' & ke' & E).
  exists sz', bv', ke'. unfold catch. by rewrite E.
Qed.

Lemma reads_end_catch {A} (m : SM A) b a : reads_end m b a → reads_end (catch m) b (inl a).
Proof.
  intros H r rem lim sz bv ke stk p H1 H2 H3.
  destruct (H r rem lim sz bv ke stk p H1 H2 H3) as (sz' & bv' & ke' & E).
  exists sz', bv', ke'. unfold catch. by rewrite E.
Qed.

(** *** Strings and numbers *)

Lemma str_head_len n : 0 <= n < 2 ^ 64 → 1 <= lenZ (str_head n).
Proof.
  intros H. unfold str_head. rewrite puthead_length by done. unfold headsize. case_match; [lia|].
  rewrite intsize_putint by done. lia.
Qed.

(** [Kind] on the encoding of a string. *)
Lemma st_Kind_str b r rem lim sz bv ke stk :
  lenZ b < 2 ^ 64 → Forall is_byte b → fits (lenZ (enc_str b)) rem lim stk →
  (∃ x, b = [x] ∧ enc_str b = b ∧ 0 <= x < 128 ∧
    st_Kind (mkStream (enc_str b ++ r) rem lim None sz bv ke stk) =
      (mkStream r (sub lim rem 1) lim (Some KByte) 0 x None (bump 1 stk), inl (KByte, 0))) ∨
  (enc_str b = str_head (lenZ b) ++ b ∧ (∀ x, b = [x] → 128 <= x) ∧
    st_Kind (mkStream (enc_str b ++ r) rem lim None sz bv ke stk) =
      (mkStream (b ++ r) (sub lim rem (lenZ (str_head (lenZ b)))) lim (Some KString) (lenZ b) 0 None
         (bump (lenZ (str_head (lenZ b))) stk), inl (KString, lenZ b))).
Proof.
  intros Hl Hb Hf. pose proof (lenZ_nonneg b) as Hn. unfold enc_str in *. destruct (_ && _) eqn:G.
  - bsimp. destruct b as [|x [|y b]]; try done. cbn in *. bsimp. left. exists x.
    inversion Hb as [|? ? Hx _]; subst. unfold is_byte in Hx. split_and!; [done|done|lia|lia|].
    by apply st_Kind_byte; [lia|].
  - right. rewrite lenZ_app in Hf. split_and!; [done| |].
    + intros x ->. cbn in G. destruct (Z.leb_spec x 127); [|lia]. by rewrite bool_decide_eq_true_2 in G.
    + rewrite <-app_assoc. apply st_Kind_head; [by left|lia|done].
Qed.

Lemma single_small b :
  (lenZ b =? 1) && match b with x :: _ => x <? 128 | [] => false end = true →
  ∃ x, b = [x] ∧ x < 128.
Proof.
  intros G. bsimp. destruct b as [|x [|y b]]; [done| |unfold lenZ in *; cbn [length] in *; lia].
  bsimp. by exists x.
Qed.

Lemma reads_Bytes b : lenZ b < 2 ^ 64 → Forall is_byte b → reads st_Bytes (enc_str b) b.
Proof.
  intros Hl Hb r rem lim sz bv ke stk Hf. unfold st_Bytes, mbind, SM_bind.
  destruct (st_Kind_str b r rem lim sz bv ke stk Hl Hb Hf)
    as [(x & -> & E & Hx & ->)|(E & Hx & ->)].
  - rewrite E. change (lenZ [x]) with 1. cbn. by exists 0, x, None.
  - rewrite E in *. rewrite lenZ_app in *. apply fits_split in Hf as [_ Hf]; [|apply lenZ_nonneg..].
    rewrite readFull_ok by done. destruct (_ && _) eqn:G.
    + apply single_small in G as (y & -> & ?). specialize (Hx y eq_refl). lia.
    + rewrite sub_sub, bump_bump. by exists (lenZ b), 0, None.
Qed.

Lemma uint_width bits : uint_bits bits → 8 <= bits <= 64 ∧ bits = 8 * (bits / 8).
Proof. intros [-> | [-> | [-> | ->]]]; split; done || lia. Qed.

Lemma putint_width n k : 0 < n < 256 ^ k → 0 <= k <= 8 → lenZ (putint n) <= k.
Proof.
  intros Hn Hk. assert (n < 2 ^ 64).
  { apply (Z.lt_le_trans _ (256 ^ k)); [lia|]. change (2 ^ 64) with (256 ^ 8).
    apply Z.pow_le_mono_r; lia. }
  destruct (putint_spec n) as (Hm & Hv & Hl); [lia|].
  destruct (putint n) as [|x b] eqn:E; [unfold lenZ; cbn; lia|].
  pose proof (minimal_lower x b Hm) as Hlow. rewrite Hv in Hlow.
  assert (256 ^ lenZ b < 256 ^ k) as Hp by lia. apply Z.pow_lt_mono_r_iff in Hp; [|lia|lia].
  unfold lenZ in *. cbn [length]. lia.
Qed.

Lemma reads_uint bits n :
  uint_bits bits → 0 <= n < 2 ^ bits → reads (st_uint bits) (enc_uint n) n.
Proof.
  intros Hbits Hn r rem lim sz bv ke stk Hf. apply uint_width in Hbits as [Hw Hb].
  assert (n < 256 ^ (bits / 8)) as Hn'.
  { change 256 with (2 ^ 8). rewrite <-Z.pow_mul_r by lia. rewrite <-Hb. lia. }
  unfold st_uint, enc_uint in *. unfold mbind, SM_bind. destruct (Z.eqb_spec n 0) as [->|Hne].
  - change [128] with (puthead 128 183 0) in *. change (lenZ (puthead 128 183 0)) with 1 in *.
    rewrite (st_Kind_head KString); [|by left|lia|done]. cbn.
    destruct (Z.ltb_spec (bits / 8) 0); [lia|]. cbn. by do 3 eexists.
  - assert (n < 2 ^ 64) by (apply (Z.lt_le_trans _ (2 ^ bits)); [lia|]; apply Z.pow_le_mono_r; lia).
    destruct (putint_spec n) as (Hm & Hv & Hl); [lia|].
    assert (lenZ (putint n) <= bits / 8) by (apply putint_width; lia).
    assert (lenZ (putint n) < 2 ^ 64) as H64 by (unfold lenZ; lia).
    destruct (st_Kind_str (putint n) r rem lim sz bv ke stk H64 (proj1 Hm) Hf)
      as [(x & E1 & E & Hx & ->)|(E & Hx & ->)].
    + rewrite E, E1 in *. change (lenZ [x]) with 1. cbn. unfold be_val in Hv. cbn in Hv.
      destruct (Z.eqb_spec x 0); [lia|]. cbn. subst. by do 3 eexists.
    + rewrite E, lenZ_app in *. apply fits_split in Hf as [_ Hf]; [|apply lenZ_nonneg..].
      destruct (Z.ltb_spec (bits / 8) (lenZ (putint n))); [lia|]. unfold catch.
      rewrite readUint_ok by done. rewrite Hv, sub_sub, bump_bump.
      destruct (_ && _) eqn:G; [|by do 3 eexists]. exfalso. bsimp.
      rewrite (putint_single n) in Hx by lia. specialize (Hx n eq_refl). lia.
Qed.

Lemma reads_Bool (b : bool) : reads st_Bool (enc_uint (if b then 1 else 0)) b.
Proof.
  unfold st_Bool. rewrite <-(app_nil_r (enc_uint _)). eapply reads_bind.
  - apply (reads_uint 8); [by left|destruct b; lia].
  - destruct b; apply reads_ret.
Qed.

Lemma reads_BigInt z : 0 <= z → lenZ (big_Bytes z) < 2 ^ 64 →
  reads decodeBigInt (enc_str (big_Bytes z)) (VBig z).
Proof.
  intros Hz Hl. destruct (big_Bytes_spec z Hz) as [[Hb H0] Hv]. unfold decodeBigInt.
  rewrite <-(app_nil_r (enc_str _)). eapply reads_bind; [by apply reads_wrap, reads_Bytes|].
  rewrite bool_decide_eq_false_2 by done. rewrite Hv. apply reads_ret.
Qed.

Lemma reads_ByteArray b :
  lenZ b < 2 ^ 64 → Forall is_byte b → b ≠ [0] →
  reads (decodeByteArray (lenZ b)) (enc_str b) (VBytes b).
Proof.
  intros Hl Hb H0 r rem lim sz bv ke stk Hf. unfold decodeByteArray, mbind, SM_bind.
  destruct (st_Kind_str b r rem lim sz bv ke stk Hl Hb Hf)
    as [(x & -> & E & Hx & ->)|(E & Hx & ->)].
  - rewrite E. change (lenZ [x]) with 1. cbn. unfold catch, st_uint, mbind, SM_bind.
    rewrite st_Kind_cached. cbn. destruct (Z.eqb_spec x 0); [congruence|]. cbn. by do 3 eexists.
  - rewrite E in *. rewrite lenZ_app in *. apply fits_split in Hf as [_ Hf]; [|apply lenZ_nonneg..].
    rewrite Z.ltb_irrefl, readFull_ok by done. destruct (_ && _) eqn:G.
    + apply single_small in G as (y & -> & ?). specialize (Hx y eq_refl). lia.
    + rewrite sub_sub, bump_bump. by do 3 eexists.
Qed.

(** *** Lists *)

Lemma st_List_ok c r rem lim sz bv ke stk :
  lenZ c < 2 ^ 64 → fits (lenZ (enc_list c)) rem lim stk →
  st_List (mkStream (enc_list c ++ r) rem lim None sz bv ke stk) =
    (mkStream (c ++ r) (sub lim rem (lenZ (list_head (lenZ c)))) lim None 0 0 None
       (mkListpos 0 (lenZ c) :: bump (lenZ (list_head (lenZ c))) stk), inl (lenZ c)).
Proof.
  intros Hl Hf. unfold enc_list in *. rewrite lenZ_app in Hf. pose proof (lenZ_nonneg c).
  unfold st_List, mbind, SM_bind. rewrite <-app_assoc. unfold list_head in *.
  rewrite (st_Kind_head KList); [done|by right|lia|done].
Qed.

Lemma ListEnd_wrap_ok le n r rem lim sz bv ke stk :
  le = st_ListEnd ∨ le = wrap st_ListEnd → (∃ rem', fits n rem' lim stk) →
  le (mkStream r rem lim None sz bv ke (mkListpos n n :: stk)) =
    (mkStream r rem lim None 0 bv ke (bump n stk), inl ()).
Proof.
  intros Hle (rem' & Hn & _ & Hs).
  assert (st_ListEnd (mkStream r rem lim None sz bv ke (mkListpos n n :: stk)) =
    (mkStream r rem lim None 0 bv ke (bump n stk), inl ())) as E.
  { unfold st_ListEnd, mbind, SM_bind. cbn. rewrite Z.eqb_refl. cbn.
    destruct stk as [|up stk]; [done|]. cbn. rewrite u64_small by (unfold in_u64; lia). done. }
  destruct Hle as [-> | ->]; [done|]. unfold wrap. by rewrite E.
Qed.

(** A list whose content is read to its end. *)
Lemma reads_list {A B} (m : Z → SM A) (f : A → B) (le : SM ()) c a :
  le = st_ListEnd ∨ le = wrap st_ListEnd → lenZ c < 2 ^ 64 → reads_end (m (lenZ c)) c a →
  reads (size ← wrap st_List; x ← m size; le;; mret (f x)) (enc_list c) (f a).
Proof.
  intros Hle Hc Hm r rem lim sz bv ke stk Hf. unfold mbind, SM_bind, wrap at 1.
  rewrite st_List_ok by done. unfold enc_list in *. rewrite lenZ_app in *.
  pose proof (lenZ_nonneg c). pose proof (lenZ_nonneg (list_head (lenZ c))).
  apply fits_split in Hf as Hf'; [|lia|lia]. destruct Hf' as [_ Hf2].
  destruct (Hm r (sub lim rem (lenZ (list_head (lenZ c)))) lim 0 0 None
    (bump (lenZ (list_head (lenZ c))) stk) 0) as (sz1 & bv1 & ke1 & E1); [lia|lia|apply Hf2|].
  rewrite Z.add_0_l in E1. rewrite E1, ListEnd_wrap_ok; [|done|by eexists].
  rewrite sub_sub, bump_bump. by do 3 eexists.
Qed.

Lemma reads_Raw b :
  (∃ p, lenZ p < 2 ^ 64 ∧ (b = enc_str p ∧ Forall is_byte p ∨ b = enc_list p)) → reads st_Raw b b.
Proof.
  intros (p & Hl & Hb) r rem lim sz bv ke stk Hf. unfold st_Raw, mbind, SM_bind.
  pose proof (lenZ_nonneg p). destruct Hb as [[-> Hb] | ->].
  - destruct (st_Kind_str p r rem lim sz bv ke stk Hl Hb Hf)
      as [(x & -> & E & Hx & ->)|(E & Hx & ->)].
    + rewrite E. change (lenZ [x]) with 1. cbn. by do 3 eexists.
    + rewrite E in *. rewrite lenZ_app in *. apply fits_split in Hf as [_ Hf]; [|apply lenZ_nonneg..].
      rewrite readFull_ok by done. rewrite sub_sub, bump_bump. by do 3 eexists.
  - unfold enc_list, list_head in *. rewrite lenZ_app in *. rewrite <-app_assoc.
    rewrite (st_Kind_head KList); [|by right|lia|done].
    apply fits_split in Hf as [_ Hf]; [|apply lenZ_nonneg..].
    rewrite readFull_ok by done. rewrite sub_sub, bump_bump. by do 3 eexists.
Qed.

(** *** The end of a list *)

Lemma st_Kind_eol : at_eol st_Kind.
Proof.
  intros r rem lim sz bv ke stk n. unfold st_Kind, mbind, SM_bind. cbn. rewrite Z.eqb_refl. cbn.
  by do 3 eexists.
Qed.

Lemma at_eol_bind {A B} (m : SM A) (f : A → SM B) : at_eol m → at_eol (m ≫= f).
Proof.
  intros H r rem lim sz bv ke stk n. destruct (H r rem lim sz bv ke stk n) as (sz' & bv' & ke' & E).
  exists sz', bv', ke'. unfold mbind, SM_bind. by rewrite E.
Qed.

Lemma at_eol_wrap {A} (m : SM A) : at_eol m → at_eol (wrap m).
Proof.
  intros H r rem lim sz bv ke stk n. destruct (H r rem lim sz bv ke stk n) as (sz' & bv' & ke' & E).
  exists sz', bv', ke'. unfold wrap. by rewrite E.
Qed.

Lemma at_eol_optional (m : SM val) : at_eol (decodeOptionalPtr m).
Proof.
  intros r rem lim sz bv ke stk n. destruct (st_Kind_eol r rem lim sz bv ke stk n) as (sz' & bv' & ke' & E).
  exists sz', bv', ke'. unfold decodeOptionalPtr, catch, mbind, SM_bind. by rewrite E.
Qed.

(** The fuel that the nesting of a type needs. *)
Fixpoint ty_need (t : ty) : nat :=
  match t with
  | TSlice t | TArray _ t | TPtr t => S (ty_need t)
  | TStruct fields => S (foldr (λ '(_, _, t) n, ty_need t + n)%nat O fields)
  | _ => 1
  end.

Lemma ty_need_pos t : (1 <= ty_need t)%nat.
Proof. destruct t; cbn; lia. Qed.

Lemma ty_need_field fields i e ts t :
  fields !! i = Some (e, ts, t) → (ty_need t < ty_need (TStruct fields))%nat.
Proof.
  cbn. revert i. induction fields as [|[[e' ts'] t'] fields IH]; intros [|i] H; cbn in *; try done.
  - injection H as -> -> ->. lia.
  - specialize (IH _ H). lia.
Qed.

(** Every decoder except that of a tail slice reports the end of the list. *)
Lemma decode_eol t ts fuel :
  type_ok t = true → (ty_need t <= fuel)%nat → tail ts = false → at_eol (decode fuel t ts).
Proof.
  assert (at_eol (wrap st_List)) as HL by apply at_eol_wrap, at_eol_bind, st_Kind_eol.
  revert ts fuel. induction t; intros ts fuel Hok Hf Ht; (destruct fuel as [|fuel]; [cbn in Hf; lia|]); cbn [decode].
  all: try solve [repeat first [exact st_Kind_eol | apply at_eol_wrap | apply at_eol_bind]].
  - rewrite Ht. by apply at_eol_bind.
  - cbn in Hok. apply bool_decide_eq_true in Hok as [fs ->]. by apply at_eol_bind.
  - destruct (nilOK ts); [apply at_eol_optional|]. apply at_eol_bind, IHt; [done|cbn in Hf; lia|done].
  - done.
Qed.

(** *** Elements and fields *)

Lemma reads_end_nil {A} (m : SM A) (f : A + rlpErr → SM (list val)) :
  at_eol m → f (inr EOL) = mret [] → reads_end (catch m ≫= f) [] [].
Proof.
  intros Hm Ef r rem lim sz bv ke stk p _ _ _. change (lenZ []) with 0. rewrite Z.add_0_r, sub_0.
  destruct (Hm r rem lim sz bv ke stk p) as (sz' & bv' & ke' & E). exists sz', bv', ke'.
  unfold mbind, SM_bind, catch. cbn [app]. by rewrite E, Ef.
Qed.

Lemma reads_end_then {A B} (m : SM A) (f : A → B) b a :
  reads_end m b a → reads_end (x ← m; mret (f x)) b (f a).
Proof.
  intros H r rem lim sz bv ke stk p H1 H2 H3.
  destruct (H r rem lim sz bv ke stk p H1 H2 H3) as (sz' & bv' & ke' & E).
  exists sz', bv', ke'. unfold mbind, SM_bind. by rewrite E.
Qed.

Lemma reads_slice_elems fuel elemdec l bs :
  at_eol elemdec → Forall2 (reads elemdec) bs l → (length l < fuel)%nat →
  reads_end (decodeSliceElems fuel elemdec) (mjoin bs) l.
Proof.
  intros He H. revert fuel. induction H as [|b v bs l Hv _ IH]; intros [|fuel] Hf; cbn in Hf; try lia.
  - by apply reads_end_nil.
  - cbn. eapply reads_end_bind; [by apply reads_catch|]. apply (reads_end_then _ (cons v)), IH. lia.
Qed.

Lemma reads_array_elems elemdec l bs :
  Forall2 (reads elemdec) bs l → reads (decodeArrayElems (length l) elemdec) (mjoin bs) l.
Proof.
  induction 1 as [|b v bs l Hv _ IH]; [apply reads_ret|].
  cbn. eapply reads_bind; [by apply reads_catch|]. by apply (reads_then _ (cons v)).
Qed.

(** What [decodeFields] returns: the decoded values at their indices. *)
Definition set_fields (l : list val) (fs : list (nat * tags * ty)) (l0 : list val) : list val :=
  foldl (λ l0 '(i, _, _), match l !! i with Some v => <[i := v]> l0 | None => l0 end) l0 fs.

Lemma reads_fields dec l fs l0 bs :
  Forall2 (λ b '(i, ts, t), ∃ v, l !! i = Some v ∧ reads_end (dec t ts) b v ∧
    (tail ts = false → reads (dec t ts) b v)) bs fs →
  (∀ fs1 i ts t x fs2, fs = fs1 ++ (i, ts, t) :: x :: fs2 → tail ts = false) →
  reads_end (decodeFields dec fs l0) (mjoin bs) (set_fields l fs l0).
Proof.
  intros H. revert l0. induction H as [|b [[i ts] t] bs fs (v & Hi & He & Hr) H IH]; intros l0 Ht.
  - apply reads_reads_end, reads_ret.
  - cbn. rewrite Hi. destruct fs as [|x fs].
    + inversion H; subst. cbn. rewrite app_nil_r. destruct (tail ts) eqn:Et.
      * intros r rem lim sz bv ke stk p H1 H2 H3.
        destruct (He r rem lim sz bv ke stk p H1 H2 H3) as (sz' & bv' & ke' & E).
        exists sz', bv', ke'. unfold mbind, SM_bind, catch. by rewrite E.
      * rewrite <-(app_nil_r b). eapply reads_end_bind; [by apply reads_catch, Hr|].
        apply reads_reads_end, reads_ret.
    + eapply reads_end_bind; [apply reads_catch, Hr, (Ht [] i ts t x fs); done|]. cbn beta iota.
      apply IH. intros fs1 j ts' t' y fs2 E. apply (Ht ((i, ts, t) :: fs1) j ts' t' y fs2). by rewrite E.
Qed.

Lemma set_fields_lookup l fs l0 j :
  (∀ i ts t, (i, ts, t) ∈ fs → is_Some (l !! i)) → length l0 = length l →
  set_fields l fs l0 !! j = (if bool_decide (j ∈ (λ f, f.1.1) <$> fs) then l else l0) !! j ∧
  length (set_fields l fs l0) = length l.
Proof.
  revert l0. induction fs as [|[[i ts] t] fs IH]; intros l0 Hs Hl; [done|]. cbn [set_fields foldl].
  destruct (Hs i ts t) as [v Hi]; [left|]. rewrite Hi.
  destruct (IH (<[i := v]> l0)) as [E1 E2]; [intros ? ? ? ?; eapply Hs; by right|by rewrite length_insert|].
  split; [|done]. unfold set_fields in E1. rewrite E1. cbn [fmap list_fmap fst].
  destruct (decide (j ∈ (λ f : nat * tags * ty, f.1.1) <$> fs)) as [Hj|Hj].
  - rewrite !bool_decide_eq_true_2; [done|by right|done].
  - rewrite (bool_decide_eq_false_2 (j ∈ _)) by done. destruct (decide (j = i)) as [->|Hne].
    + rewrite bool_decide_eq_true_2 by left. apply lookup_lt_Some in Hi as ?.
      rewrite list_lookup_insert_eq by lia. done.
    + rewrite bool_decide_eq_false_2 by (rewrite elem_of_cons; tauto).
      by rewrite list_lookup_insert_ne.
Qed.

(** Which fields are encoded, and that only the last of them has a tail tag. *)
Lemma fields_from_encoded i0 last fields fs k ts t :
  fields_from i0 last fields = Some fs → fields !! k = Some (true, ts, t) → ignored ts = false →
  (i0 + k, ts, t)%nat ∈ fs.
Proof.
  revert i0 fs k. induction fields as [|[[e ts'] t'] fields IH]; intros i0 fs k Hf Hk Hi; [done|].
  cbn in Hf. destruct k as [|k]; cbn in Hk.
  - injection Hk as -> -> ->.
    destruct (parseStructTag i0 last ts t) as [ts1|] eqn:Ep; [|done]. apply parseStructTag_same in Ep as ->.
    cbn in Hf. destruct (fields_from (S i0) last fields); [|done]. cbn in Hf. rewrite Hi in Hf.
    injection Hf as <-. rewrite Nat.add_0_r. left.
  - replace (i0 + S k)%nat with (S i0 + k)%nat by lia. destruct e; [|by eapply IH].
    destruct (parseStructTag i0 last ts' t'); [|done]. cbn in Hf.
    destruct (fields_from (S i0) last fields) eqn:Er; [|done]. cbn in Hf. injection Hf as <-.
    specialize (IH _ _ _ Er Hk Hi). case_match; [done|by right].
Qed.

Lemma fields_from_tail i0 last fields fs fs1 i ts t x fs2 :
  (∀ k ts t, fields !! k = Some (true, ts, t) → (i0 + k <= last)%nat) →
  fields_from i0 last fields = Some fs → fs = fs1 ++ (i, ts, t) :: x :: fs2 → tail ts = false.
Proof.
  revert i0 fs fs1. induction fields as [|[[e ts'] t'] fields IH]; intros i0 fs fs1 Hlast Hf ->.
  { injection Hf as E. by destruct fs1. }
  assert (∀ k ts t, fields !! k = Some (true, ts, t) → (S i0 + k <= last)%nat) as Hlast'.
  { intros k ts0 t0 Hk. specialize (Hlast (S k) ts0 t0 Hk). lia. }
  cbn in Hf. destruct e; [|by eapply IH].
  destruct (parseStructTag i0 last ts' t') as [ts1|] eqn:Ep; [|done].
  apply parseStructTag_same in Ep as E1. subst ts1. cbn in Hf.
  destruct (fields_from (S i0) last fields) as [rest|] eqn:Er; [|done]. cbn in Hf. injection Hf as Hf.
  destruct (ignored ts'); [by eapply IH|]. destruct fs1 as [|f fs1]; [|injection Hf as _ ->; by eapply IH].
  injection Hf as -> -> -> ->. destruct (tail ts) eqn:Et; [|done]. exfalso.
  unfold parseStructTag in Ep. rewrite Et in Ep. destruct (Nat.eqb_spec i last) as [->|]; [|done].
  destruct x as [[j tx] tt]. destruct (fields_from_lookup _ _ _ _ j tx tt Er) as (Hj & Hl & _ & _); [left|].
  specialize (Hlast' _ _ _ Hl). lia.
Qed.

Lemma lastPublicField_ge i last fields :
  (last <= i)%nat → (last <= lastPublicField i last fields)%nat ∧
  ∀ k ts t, fields !! k = Some (true, ts, t) → (i + k <= lastPublicField i last fields)%nat.
Proof.
  revert i last. induction fields as [|[[e ts'] t'] fields IH]; intros i last Hl; [done|]. cbn.
  destruct (IH (S i) (if e then i else last)) as [H1 H2]; [destruct e; lia|].
  split; [destruct e; lia|]. intros [|k] ts t Hk; cbn in Hk.
  - injection Hk as -> -> ->. lia.
  - specialize (H2 _ _ _ Hk). lia.
Qed.

Lemma structFields_tail fields fs fs1 i ts t x fs2 :
  structFields fields = Some fs → fs = fs1 ++ (i, ts, t) :: x :: fs2 → tail ts = false.
Proof.
  intros Hf. apply (fields_from_tail O (lastPublicField O O fields) fields fs); [|done].
  destruct (lastPublicField_ge O O fields) as [_ H]; [lia|]. exact H.
Qed.

(** ** The values that decoding gives back

    A [[1]byte] that is zero is not one of them ([byte_array_rereads]), nor are a nil
    [*big.Int] and a nil pointer without a [nil] tag, which decode to a non-nil pointer, a
    pointer with a [nil] tag to an empty value, which decodes to nil, and an interface
    that does not hold what [decodeInterface] makes.  Fields that are not encoded stay at
    their zero value. *)

Definition raw_value (b : bytes) : Prop :=
  ∃ p, lenZ p < 2 ^ 64 ∧ (b = enc_str p ∧ Forall is_byte p ∨ b = enc_list p).

Fixpoint decodable (v : val) (t : ty) (ts : tags) {struct v} : Prop :=
  match t, v with
  | TRaw, VBytes b => raw_value b
  | (TString | TBytes), VBytes b => Forall is_byte b
  | TByteArray n, VBytes b => Forall is_byte b ∧ length b = n ∧ b ≠ [0]
  | TUint bits, VUint n => uint_bits bits ∧ 0 <= n < 2 ^ bits
  | TBool, VBool _ => True
  | TBig, VBig z => 0 <= z
  | TSlice t, VList l => foldr (λ v P, decodable v t no_tags ∧ P) True l
  | TArray n t, VList l => length l = n ∧ foldr (λ v P, decodable v t no_tags ∧ P) True l
  | TStruct fields, VList l =>
      (fix go l fields {struct l} :=
        match l, fields with
        | [], [] => True
        | v :: l, (e, ts, t) :: fields =>
            (if e && negb (ignored ts) then decodable v t ts else v = zero_val t) ∧ go l fields
        | _, _ => False
        end) l fields
  | TPtr t, VNil => nilOK ts = true ∧ (enc_nil t = [128] ∨ enc_nil t = [192])
  | TPtr t, VPtr v =>
      decodable v t no_tags ∧
      (nilOK ts = true → enc v t no_tags ≠ Some [128] ∧ enc v t no_tags ≠ Some [192])
  | TIface, VIface TBytes (VBytes b) => Forall is_byte b
  | TIface, VIface (TSlice TIface) v => decodable v (TSlice TIface) no_tags
  | _, _ => False
  end.

Fixpoint vsize (v : val) : nat :=
  match v with
  | VList l => S (foldr (λ v n, vsize v + n)%nat O l)
  | VPtr v => S (vsize v)
  | VIface _ v => S (vsize v)
  | _ => 1
  end.

Lemma decodable_elems t l :
  foldr (λ v P, decodable v t no_tags ∧ P) True l ↔ Forall (λ v, decodable v t no_tags) l.
Proof.
  induction l as [|v l IH]; cbn; [split; [constructor|done]|].
  rewrite Forall_cons, <-IH. done.
Qed.

Lemma decodable_struct fields l :
  decodable (VList l) (TStruct fields) no_tags ↔
  Forall2 (λ v '(e, ts, t), if (e : bool) && negb (ignored ts) then decodable v t ts else v = zero_val t) l fields.
Proof.
  cbn. revert fields. induction l as [|v l IH]; intros [|[[e ts] t] fields]; cbn.
  - split; [constructor|done].
  - split; [done|inversion 1].
  - split; [done|inversion 1].
  - rewrite IH. by rewrite Forall2_cons.
Qed.

Lemma vsize_elem v l : v ∈ l → (vsize v < vsize (VList l))%nat.
Proof.
  cbn. induction 1 as [v l|v w l _ IH]; cbn; lia.
Qed.

Lemma vsize_length l : (length l < vsize (VList l))%nat.
Proof.
  cbn. assert (∀ v, (1 <= vsize v)%nat) as H by (intros []; cbn; lia).
  induction l as [|v l IH]; cbn; [lia|]. specialize (H v). lia.
Qed.

(** ** The round trip *)

Lemma reads_nonempty {A} (m : SM A) a : at_eol m → ¬ reads m [] a.
Proof.
  intros He Hr. destruct (He [] 0 true 0 0 None [] 0) as (? & ? & ? & E1).
  destruct (Hr [] 0 true 0 0 None [mkListpos 0 0]) as (? & ? & ? & E2).
  { change (lenZ []) with 0. split_and!; cbn; lia. }
  cbn [app] in E2. rewrite E1 in E2. discriminate.
Qed.

Lemma reads_ListSlice fuel elemdec l bs :
  at_eol elemdec → Forall2 (reads elemdec) bs l → (length l < fuel)%nat → lenZ (mjoin bs) < 2 ^ 64 →
  reads (decodeListSlice fuel elemdec) (enc_list (mjoin bs)) (VList l).
Proof.
  intros He H Hf Hl r rem lim sz bv ke stk Hfit.
  assert (decodeListSlice fuel elemdec (mkStream (enc_list (mjoin bs) ++ r) rem lim None sz bv ke stk) =
    (size ← wrap st_List;
     l ← (if size =? 0 then mret [] else decodeSliceElems fuel elemdec);
     st_ListEnd;; mret (VList l)) (mkStream (enc_list (mjoin bs) ++ r) rem lim None sz bv ke stk)) as ->.
  { unfold decodeListSlice, mbind, SM_bind. destruct (wrap st_List _) as [s [n|e]]; [|done].
    by destruct (n =? 0). }
  refine (reads_list (λ size, if size =? 0 then mret [] else decodeSliceElems fuel elemdec) VList
    st_ListEnd (mjoin bs) l _ Hl _ r rem lim sz bv ke stk Hfit); [by left|].
  destruct (Z.eqb_spec (lenZ (mjoin bs)) 0) as [E|_]; [|by apply reads_slice_elems].
  destruct H as [|b v bs l Hv _]; [apply reads_reads_end, reads_ret|]. exfalso.
  cbn in E. rewrite lenZ_app in E. pose proof (lenZ_nonneg b). pose proof (lenZ_nonneg (mjoin bs)).
  destruct b as [|x b]; [by eapply reads_nonempty|]. unfold lenZ in *. cbn [length] in *. lia.
Qed.

Lemma concat_all_Some es c :
  concat_all es = Some c → ∃ bs, es = Some <$> bs ∧ c = mjoin bs ∧ ∀ b, b ∈ bs → lenZ b <= lenZ c.
Proof.
  revert c. induction es as [|e es IH]; intros c H; cbn in H.
  - injection H as <-. exists []. split_and!; [done|done|]. intros b Hb. by apply elem_of_nil in Hb.
  - destruct e as [b|]; [|done]. cbn in H. destruct (concat_all es) as [rest|] eqn:E; [|done].
    cbn in H. injection H as <-. destruct (IH _ eq_refl) as (bs & -> & -> & Hle).
    exists (b :: bs). split_and!; [done|done|]. intros b' Hb'. rewrite lenZ_app.
    pose proof (lenZ_nonneg b). pose proof (lenZ_nonneg (mjoin bs)).
    apply elem_of_cons in Hb' as [-> |Hb']; [lia|]. specialize (Hle _ Hb'). lia.
Qed.

Lemma reads_elems dec (encode : val → option bytes) l c :
  (∀ v b, v ∈ l → encode v = Some b → lenZ b < 2 ^ 64 → reads dec b v) →
  concat_all (encode <$> l) = Some c → lenZ c < 2 ^ 64 →
  ∃ bs, c = mjoin bs ∧ Forall2 (reads dec) bs l.
Proof.
  intros Hd Hc Hl. destruct (concat_all_Some _ _ Hc) as (bs & E & -> & Hle). exists bs. split; [done|].
  assert (∀ b, b ∈ bs → lenZ b < 2 ^ 64) as Hle' by (intros b Hb; specialize (Hle b Hb); lia).
  clear Hc Hl Hle. revert bs E Hle'.
  induction l as [|v l IH]; intros [|b bs] E Hle; cbn in E; try done; try by constructor.
  injection E as E1 E2. constructor.
  - apply Hd; [left|done|apply Hle; left].
  - apply IH; [|done|]; intros; [eapply Hd; [by right|done..]|apply Hle; by right].
Qed.

Lemma enc_list_le c : lenZ c <= lenZ (enc_list c).
Proof. unfold enc_list. rewrite lenZ_app. pose proof (lenZ_nonneg (list_head (lenZ c))). lia. Qed.

(** A tail tag is on a slice. *)
Definition tail_ok (ts : tags) (t : ty) : Prop :=
  tail ts = true → match t with TSlice _ | TBytes | TRaw => True | _ => False end.

(** [v] decodes from its encoding: anywhere, or at the end of the list for a tail. *)
Definition decodes (v : val) : Prop := ∀ t ts fuel b,
  type_ok t = true → tail_ok ts t → decodable v t ts → enc v t ts = Some b → lenZ b < 2 ^ 64 →
  (ty_need t + vsize v <= fuel)%nat →
  reads_end (decode fuel t ts) b v ∧ (tail ts = false → reads (decode fuel t ts) b v).

Lemma decodes_reads v t fuel b :
  decodes v → type_ok t = true → decodable v t no_tags → enc v t no_tags = Some b → lenZ b < 2 ^ 64 →
  (ty_need t + vsize v <= fuel)%nat → reads (decode fuel t no_tags) b v.
Proof. intros H ? ? ? ? ?. by apply (H t no_tags). Qed.

Lemma decodes_elems l t fuel c :
  Forall decodes l → type_ok t = true → Forall (λ v, decodable v t no_tags) l →
  concat_all ((λ v, enc v t no_tags) <$> l) = Some c → lenZ c < 2 ^ 64 →
  (ty_need t + vsize (VList l) <= S fuel)%nat →
  ∃ bs, c = mjoin bs ∧ Forall2 (reads (decode fuel t no_tags)) bs l.
Proof.
  intros IH Hok Hd Hc Hl Hf. eapply reads_elems; [|done|done]. intros v b Hv Hb Hlb.
  rewrite Forall_forall in IH, Hd. apply decodes_reads; [by apply IH|done|by apply Hd|done|done|].
  pose proof (vsize_elem v l Hv). lia.
Qed.

(** The fields of a struct: the encoded ones are decoded, the others are zero. *)
Lemma set_fields_all fields fs l :
  structFields fields = Some fs → decodable (VList l) (TStruct fields) no_tags →
  set_fields l fs ((λ '(_, _, t), zero_val t) <$> fields) = l.
Proof.
  intros Hs Hd. apply decodable_struct in Hd as Hd'. pose proof (Forall2_length _ _ _ Hd') as Hlen.
  assert (∀ i ts t, (i, ts, t) ∈ fs → is_Some (l !! i)) as Hin.
  { intros i ts t Hi. destruct (fields_from_lookup _ _ _ _ _ _ _ Hs Hi) as (_ & Hf & _).
    rewrite Nat.sub_0_r in Hf. apply lookup_lt_is_Some. rewrite Hlen. by eapply lookup_lt_Some. }
  apply list_eq. intros j.
  destruct (set_fields_lookup l fs ((λ '(_, _, t), zero_val t) <$> fields) j Hin) as [-> _];
    [by rewrite length_fmap|].
  case_bool_decide as Hj; [done|]. rewrite list_lookup_fmap.
  destruct (fields !! j) as [[[e ts] t]|] eqn:Ef; cbn.
  - destruct (Forall2_lookup_r _ _ _ _ _ Hd' Ef) as (v & Hv & Hvd). rewrite Hv. cbn in Hvd.
    destruct (e && negb (ignored ts)) eqn:Ee; [|by rewrite Hvd]. exfalso. apply Hj.
    destruct e, (ignored ts) eqn:Ei; try done. apply list_elem_of_fmap. exists (j, ts, t).
    split; [done|]. by apply (fields_from_encoded O _ _ _ j _ _ Hs Ef).
  - symmetry. apply lookup_ge_None in Ef. apply lookup_ge_None. lia.
Qed.

Lemma decodes_fields fields fs l fuel c :
  Forall decodes l → structFields fields = Some fs → decodable (VList l) (TStruct fields) no_tags →
  concat_all ((λ '(i, ts, t), e ← ((λ v, enc v) <$> l) !! i; if type_ok t then e t ts else None) <$> fs) = Some c →
  lenZ c < 2 ^ 64 → (ty_need (TStruct fields) + vsize (VList l) <= S fuel)%nat →
  reads_end (decodeFields (λ t ts, if type_ok t then decode fuel t ts else err PanicNilDecoder) fs
    ((λ '(_, _, t), zero_val t) <$> fields)) c l.
Proof.
  intros IH Hs Hd Hc Hl Hf. destruct (concat_all_Some _ _ Hc) as (bs & E & -> & Hle).
  rewrite <-(set_fields_all fields fs l Hs Hd). apply reads_fields;
    [|intros fs1 i ts t x fs2; by apply (structFields_tail _ _ _ _ _ _ _ _ Hs)].
  apply Forall2_same_length_lookup. split.
  { apply (f_equal length) in E. rewrite !length_fmap in E. done. }
  intros k b [[i ts] t] Hb Hk.
  assert (lenZ b < 2 ^ 64) as Hlb.
  { specialize (Hle b). rewrite list_elem_of_lookup in Hle. specialize (Hle (ex_intro _ k Hb)). lia. }
  apply (f_equal (λ x, x !! k)) in E. rewrite !list_lookup_fmap, Hb, Hk in E. cbn in E.
  apply list_elem_of_lookup_2 in Hk.
  destruct (fields_from_lookup _ _ _ _ _ _ _ Hs Hk) as (_ & Hi & Hg & Hp). rewrite Nat.sub_0_r in Hi.
  apply decodable_struct in Hd. destruct (Forall2_lookup_r _ _ _ _ _ Hd Hi) as (v & Hv & Hvd).
  cbn in Hvd. rewrite Hg in Hvd. cbn in Hvd. exists v. split; [done|].
  rewrite list_lookup_fmap, Hv in E. cbn in E. injection E as E. destruct (type_ok t) eqn:Ek; [|done].
  apply list_elem_of_lookup_2 in Hv. rewrite Forall_forall in IH. apply IH; try done.
  - intros Et. unfold parseStructTag in Hp. rewrite Et in Hp. by repeat case_match.
  - pose proof (vsize_elem v l Hv). pose proof (ty_need_field _ _ _ _ _ Hi). lia.
Qed.

Lemma reads_both {A} (P : Prop) (m : SM A) b a :
  reads m b a → reads_end m b a ∧ (P → reads m b a).
Proof. intros H. split; [by apply reads_reads_end|done]. Qed.

(** [Kind] may be asked before a value is decoded. *)
Definition kind_first {A} (m : SM A) : Prop :=
  ∀ s s' k, st_Kind s = (s', inl k) → m s' = m s.

Lemma st_Kind_shape s s' k n :
  st_Kind s = (s', inl (k, n)) → st_kind s' = Some k ∧ st_size s' = n ∧ st_kinderr s' = None.
Proof.
  unfold st_Kind, mbind, SM_bind. destruct (st_get s) as [s0 [a|e]]; [|done].
  match goal with |- context [match ?m ?x with (_, _) => _ end] => destruct (m x) as [s1 [[]|e]]; [|done] end.
  cbn. destruct (st_kinderr s1) eqn:E1; [done|]. destruct (st_kind s1) eqn:E2; [|done].
  intros [= <- <- <-]. done.
Qed.

Lemma st_Kind_again : kind_first st_Kind.
Proof.
  intros s s' [k n] H. rewrite H. destruct (st_Kind_shape _ _ _ _ H) as (Hk & Hn & He).
  unfold st_Kind, mbind, SM_bind. cbn. rewrite Hk. cbn. rewrite He, Hk, Hn. done.
Qed.

Lemma kind_first_bind {A B} (m : SM A) (f : A → SM B) : kind_first m → kind_first (m ≫= f).
Proof. intros H s s' k E. unfold mbind, SM_bind. by rewrite (H _ _ _ E). Qed.

Lemma kind_first_wrap {A} (m : SM A) : kind_first m → kind_first (wrap m).
Proof. intros H s s' k E. unfold wrap. by rewrite (H _ _ _ E). Qed.

Lemma kind_first_catch {A} (m : SM A) : kind_first m → kind_first (catch m).
Proof. intros H s s' k E. unfold catch. by rewrite (H _ _ _ E). Qed.

Ltac kind_first :=
  repeat first [exact st_Kind_again | apply kind_first_wrap | apply kind_first_catch
    | apply kind_first_bind].

Lemma kind_first_decode t ts fuel :
  type_ok t = true → (ty_need t <= fuel)%nat → tail ts = false → kind_first (decode fuel t ts).
Proof.
  revert ts fuel. induction t; intros ts fuel Hok Hf Ht; (destruct fuel as [|fuel]; [cbn in Hf; lia|]); cbn [decode].
  all: try solve [kind_first].
  - rewrite Ht. unfold decodeListSlice. kind_first.
  - cbn in Hok. apply bool_decide_eq_true in Hok as [fs ->]. kind_first.
  - destruct (nilOK ts); [unfold decodeOptionalPtr; kind_first|].
    apply kind_first_bind, IHt; [done|cbn in Hf; lia|done].
  - done.
Qed.

(** [Kind] on any encoding: the size is zero only for a byte and the two empty values. *)
Lemma st_Kind_raw p (list : bool) b r rem lim sz bv ke stk :
  b = (if list then enc_list p else enc_str p) → (list = false → Forall is_byte p) → lenZ p < 2 ^ 64 →
  fits (lenZ b) rem lim stk →
  ∃ s k n, st_Kind (mkStream (b ++ r) rem lim None sz bv ke stk) = (s, inl (k, n)) ∧
    bool_decide (k = KList) = list ∧ (n =? 0) && negb (bool_decide (k = KByte)) = bool_decide (p = []) ∧
    (p = [] → st_modify (set_kind None) s =
      (mkStream r (sub lim rem (lenZ b)) lim None 0 0 None (bump (lenZ b) stk), inl ())).
Proof.
  intros -> Hb Hl Hf. pose proof (lenZ_nonneg p).
  assert ((lenZ p =? 0) = bool_decide (p = [])) as Hz.
  { destruct p as [|x p]; [done|]. rewrite bool_decide_eq_false_2 by done. unfold lenZ. cbn [length]. lia. }
  destruct list.
  - unfold enc_list, list_head in *. rewrite lenZ_app in *. rewrite <-app_assoc.
    rewrite (st_Kind_head KList); [|by right|lia|done]. do 3 eexists. split; [done|].
    split; [done|]. rewrite Hz, andb_true_r. split; [done|]. intros ->.
    change (lenZ []) with 0. rewrite Z.add_0_r. done.
  - destruct (st_Kind_str p r rem lim sz bv ke stk Hl (Hb eq_refl) Hf)
      as [(x & -> & E & Hx & ->)|(E & Hx & ->)].
    + by do 3 eexists.
    + do 3 eexists. split; [done|]. split; [done|]. cbn [negb]. rewrite bool_decide_eq_false_2 by done.
      cbn. rewrite Hz, andb_true_r. split; [done|]. intros ->. change (lenZ []) with 0. by rewrite E.
Qed.

Lemma raw_value_case b : raw_value b → ∃ p (list : bool),
  b = (if list then enc_list p else enc_str p) ∧ (list = false → Forall is_byte p) ∧ lenZ p < 2 ^ 64.
Proof.
  intros (p & Hl & [[-> Hb] | ->]); [by exists p, false|by exists p, true].
Qed.

Lemma reads_optional dec b v :
  raw_value b → reads dec b v → kind_first dec → b ≠ [128] → b ≠ [192] →
  reads (decodeOptionalPtr dec) b (VPtr v).
Proof.
  intros Hb Hr Hk H1 H2 r rem lim sz bv ke stk Hf.
  destruct (raw_value_case b Hb) as (p & list & E & Hp & Hl).
  destruct (st_Kind_raw p list b r rem lim sz bv ke stk E Hp Hl Hf) as (s & k & n & Ek & _ & Hz & _).
  unfold decodeOptionalPtr, mbind, SM_bind, catch. rewrite Ek, Hz, bool_decide_eq_false_2.
  - rewrite (Hk _ _ _ Ek). destruct (Hr r rem lim sz bv ke stk Hf) as (sz' & bv' & ke' & ->).
    by do 3 eexists.
  - intros ->. by destruct list.
Qed.

Lemma reads_optional_nil dec b : b = [128] ∨ b = [192] → reads (decodeOptionalPtr dec) b VNil.
Proof.
  intros Hb r rem lim sz bv ke stk Hf.
  assert (∃ list : bool, b = if list then enc_list [] else enc_str []) as (list & E)
    by (destruct Hb as [-> | ->]; [by exists false|by exists true]).
  destruct (st_Kind_raw [] list b r rem lim sz bv ke stk E) as (s & k & n & Ek & _ & Hz & Hs); try done.
  unfold decodeOptionalPtr, mbind, SM_bind, catch. rewrite Ek, Hz, bool_decide_eq_true_2, Hs by done.
  by do 3 eexists.
Qed.

Lemma reads_Interface (list : bool) p fuel self v :
  (list = false → Forall is_byte p) → lenZ p < 2 ^ 64 →
  reads (if list then decodeListSlice fuel self else b ← st_Bytes; mret (VBytes b))
    (if list then enc_list p else enc_str p) v →
  reads (decodeInterface fuel self) (if list then enc_list p else enc_str p)
    (VIface (if list then TSlice TIface else TBytes) v).
Proof.
  intros Hp Hl Hr r rem lim sz bv ke stk Hf.
  destruct (st_Kind_raw p list _ r rem lim sz bv ke stk eq_refl Hp Hl Hf) as (s & k & n & Ek & Hk & _).
  unfold decodeInterface, mbind at 1, SM_bind at 1. rewrite Ek, Hk.
  destruct (Hr r rem lim sz bv ke stk Hf) as (sz' & bv' & ke' & E). exists sz', bv', ke'.
  assert (kind_first (decodeListSlice fuel self)) as K1 by (unfold decodeListSlice; kind_first).
  assert (kind_first st_Bytes) as K2 by (unfold st_Bytes; kind_first).
  destruct list; unfold mbind, SM_bind in *.
  - rewrite (K1 _ _ _ Ek). by rewrite E.
  - rewrite (K2 _ _ _ Ek). destruct (st_Bytes _) as [s0 [b|e]]; [|done].
    unfold mret, SM_ret in *. by simplify_eq.
Qed.

Lemma raw_value_str p : lenZ (enc_str p) < 2 ^ 64 → Forall is_byte p → raw_value (enc_str p).
Proof.
  intros Hl Hb. exists p. split; [|by left]. unfold enc_str in Hl. case_match; [lia|].
  rewrite lenZ_app in Hl. pose proof (lenZ_nonneg (str_head (lenZ p))). lia.
Qed.

Lemma raw_value_list p : lenZ (enc_list p) < 2 ^ 64 → raw_value (enc_list p).
Proof. intros Hl. exists p. pose proof (enc_list_le p). split; [lia|by right]. Qed.

Lemma enc_uint_str n : 0 <= n < 2 ^ 64 → ∃ p, Forall is_byte p ∧ enc_uint n = enc_str p.
Proof.
  intros Hn. unfold enc_uint. destruct (Z.eqb_spec n 0); [by exists []|].
  exists (putint n). split; [|done]. by destruct (putint_spec n) as ([Hb _] & _); [lia|].
Qed.

(** An encoding is one string or one list. *)
Lemma enc_raw v t ts b :
  decodable v t ts → tail ts = false → enc v t ts = Some b → lenZ b < 2 ^ 64 → raw_value b.
Proof.
  revert t ts b. induction v as [n|b'|b'|z|l IH| |v IH|t' v IH] using val_ind'; intros t ts b Hd Ht He Hl;
    destruct t as [|bits| | | |n'| |t|n' t|fields|t| |]; cbn [decodable] in Hd; try done; cbn [enc] in He;
    simplify_option_eq; rewrite ?Ht in *; try by apply raw_value_list.
  - destruct Hd as [Hw Hn]. apply uint_width in Hw as [Hw _].
    assert (2 ^ bits <= 2 ^ 64) by (apply Z.pow_le_mono_r; lia).
    destruct (enc_uint_str n) as (p & Hp & E); [lia|]. rewrite E in *. by apply raw_value_str.
  - destruct (enc_uint_str (if b' then 1 else 0)) as (p & Hp & E); [destruct b'; lia|].
    rewrite E in *. by apply raw_value_str.
  - done.
  - by apply raw_value_str.
  - by apply raw_value_str.
  - by apply raw_value_str; [|apply Hd].
  - destruct (Z.ltb_spec z 0); [done|]. simplify_eq. apply raw_value_str; [done|]. by apply big_Bytes_spec.
  - exists []. split; [done|]. destruct Hd as [_ [E|E]]; rewrite E; [left|right]; done.
  - destruct Hd as [Hd _]. by apply (IH t no_tags).
  - destruct t' as [| | | | | | |[] | | | | |]; try done; destruct v; try done; cbn in He; simplify_option_eq.
    + by apply raw_value_str.
    + by apply raw_value_list.
Qed.

Lemma enc_str_small p : lenZ (enc_str p) < 2 ^ 64 → lenZ p < 2 ^ 64.
Proof.
  unfold enc_str. case_match; [done|]. rewrite lenZ_app.
  pose proof (lenZ_nonneg (str_head (lenZ p))). lia.
Qed.

Lemma decodes_list l : Forall decodes l → decodes (VList l).
Proof.
  intros IH t ts fuel b Hok Htail Hd He Hl Hf.
  destruct t as [| | | | | | |t|n t|fields| | |]; try done; (destruct fuel as [|fuel]; [cbn in Hf; lia|]);
    cbn [decode]; cbn [type_ok ty_need] in *.
  - cbn [decodable enc] in Hd, He. apply decodable_elems in Hd.
    destruct (concat_all _) as [c|] eqn:Ec; [|done]. cbn in He. injection He as <-.
    pose proof (enc_list_le c).
    destruct (decodes_elems l t fuel c) as (bs & -> & Hr); try done; [case_match; lia|lia|].
    assert (at_eol (decode fuel t no_tags)) as Heol by (apply decode_eol; [done|lia|done]).
    pose proof (vsize_length l). pose proof (ty_need_pos t).
    destruct (tail ts).
    + split; [|done]. apply (reads_end_then _ VList), reads_slice_elems; [done|done|lia].
    + apply reads_both, reads_ListSlice; [done|done|lia|lia].
  - assert (tail ts = false) as Et by (destruct (tail ts) eqn:E; [by specialize (Htail E)|done]).
    cbn [decodable enc] in Hd, He. destruct Hd as [<- Hd]. apply decodable_elems in Hd.
    destruct (concat_all _) as [c|] eqn:Ec; [|done]. cbn in He. rewrite Et in He. injection He as <-.
    pose proof (enc_list_le c).
    destruct (decodes_elems l t fuel c) as (bs & -> & Hr); try done; [lia|lia|].
    apply reads_both. apply (reads_list (λ _, decodeArrayElems (length l) _) VList); [by right|lia|].
    by apply reads_reads_end, reads_array_elems.
  - cbn [enc] in He. destruct (structFields fields) as [fs|] eqn:Es; [|done]. cbn in He.
    destruct (concat_all _) as [c|] eqn:Ec; [|done]. cbn in He. injection He as <-.
    pose proof (enc_list_le c). apply reads_both.
    apply (reads_list (λ _, decodeFields _ fs _) VList); [by right|lia|].
    apply decodes_fields; try done. lia.
Qed.

Lemma decode_reads v : decodes v.
Proof.
  induction v as [n|b'|b'|z|l IH| |v IH|t' v IH] using val_ind'; [..|by apply decodes_list| | |];
    intros t ts fuel b Hok Htail Hd He Hl Hf; (destruct fuel as [|fuel]; [pose proof (ty_need_pos t); lia|]);
    destruct t as [|bits| | | |n'| |t|n' t|fields|t| |]; cbn [decodable] in Hd; try done; cbn [enc] in He;
    cbn [decode]; simplify_eq; try apply reads_both.
  - by apply (reads_then _ VUint), reads_wrap, reads_uint; apply Hd.
  - by apply (reads_then _ VBool), reads_wrap, reads_Bool.
  - by apply (reads_then _ VBytes), reads_Raw.
  - by apply (reads_then _ VBytes), reads_wrap, reads_Bytes; [apply enc_str_small|].
  - by apply (reads_then _ VBytes), reads_wrap, reads_Bytes; [apply enc_str_small|].
  - destruct Hd as (Hb & <- & H0). by apply reads_ByteArray; [apply enc_str_small| |].
  - destruct (Z.ltb_spec z 0); [done|]. injection He as <-. by apply reads_BigInt; [|apply enc_str_small].
  - destruct Hd as [-> Hb]. by apply reads_optional_nil.
  - destruct Hd as [Hd Hnil]. cbn [type_ok ty_need vsize] in *.
    assert (reads (decode fuel t no_tags) b v) as Hr by (apply decodes_reads; try done; lia).
    destruct (nilOK ts); [|by apply (reads_then _ VPtr)]. destruct (Hnil eq_refl) as [N1 N2].
    apply reads_optional; [by eapply enc_raw|done| |congruence|congruence].
    apply kind_first_decode; [done|lia|done].
  - destruct t' as [| | | | | | |[] | | | | |]; try done; cbn in Hd;
      destruct v as [| |p| |l| | |]; try done.
    + cbn in He. injection He as <-. apply (reads_Interface false p); [done|by apply enc_str_small|].
      by apply (reads_then _ VBytes), reads_Bytes; [apply enc_str_small|].
    + change (if type_ok (TSlice TIface) then enc (VList l) (TSlice TIface) no_tags else None)
        with (enc (VList l) (TSlice TIface) no_tags) in He.
      destruct (IH (TSlice TIface) no_tags (S fuel) b) as [_ Hr]; try done.
      specialize (Hr eq_refl). cbn [enc] in He. destruct (concat_all _) as [c|]; [|done]. injection He as <-.
      pose proof (enc_list_le c). apply (reads_Interface true c); [done|lia|exact Hr].
Qed.

Lemma EncodeToBytes_inv t v b :
  has_type v t → (∀ e, encoding t v = Some e → lenZ e < 2 ^ 64) → EncodeToBytes t v = inl b →
  type_ok t = true ∧ enc v t no_tags = Some b ∧ lenZ b < 2 ^ 64.
Proof.
  intros Ht Hl He. pose proof (EncodeToBytes_spec t v Ht) as Hs.
  destruct (encoding t v) as [e|] eqn:Ee; [|destruct Hs as [? Hs]; congruence].
  specialize (Hl e eq_refl). rewrite Hs in He by done. injection He as <-.
  unfold encoding in Ee. by destruct (type_ok t).
Qed.

(** C28. RLP decoding inverts encoding. What EncodeToBytes writes for a decodable value,
    DecodeBytes reads back as that value, and with anything behind it DecodeBytes
    reports ErrMoreThanOneValue; a fuel of the nesting of the type plus the size of the
    value is enough. *)
Theorem DecodeBytes_EncodeToBytes t v b fuel rest :
  has_type v t → decodable v t no_tags → (∀ e, encoding t v = Some e → lenZ e < 2 ^ 64) →
  EncodeToBytes t v = inl b → (ty_need t + vsize v <= fuel)%nat →
  DecodeBytes fuel t (b ++ rest) = if bool_decide (rest = []) then inl v else inr ErrMoreThanOneValue.
Proof.
  intros Ht Hd Hl He Hf. destruct (EncodeToBytes_inv t v b Ht Hl He) as (Hok & Hb & Hlb).
  destruct (decode_reads v t no_tags fuel b) as [_ Hr]; try done.
  unfold DecodeBytes. rewrite Hok. unfold st_Reset.
  replace (if 0 <? lenZ (b ++ rest) then lenZ (b ++ rest) else lenZ (b ++ rest)) with (lenZ (b ++ rest)) by (by case_match).
  destruct (Hr eq_refl rest (lenZ (b ++ rest)) true 0 0 None []) as (? & ? & ? & ->).
  - rewrite lenZ_app. pose proof (lenZ_nonneg b). pose proof (lenZ_nonneg rest). split_and!; try done; lia.
  - cbn. by destruct rest.
Qed.

Lemma DecodeBytes_EncodeToBytes_witness :
  let t := TStruct [(true, no_tags, TUint 64); (true, mkTags true false false, TPtr (TByteArray 3));
    (true, no_tags, TBig); (false, no_tags, TBool); (true, mkTags false true false, TSlice TString)] in
  let v := VList [VUint 1024; VPtr (VBytes [1; 2; 3]); VBig 300; VBool false; VList [VBytes [65]; VBytes []]] in
  EncodeToBytes t v = inl [204; 130; 4; 0; 131; 1; 2; 3; 130; 1; 44; 65; 128] ∧
  DecodeBytes 40 t [204; 130; 4; 0; 131; 1; 2; 3; 130; 1; 44; 65; 128] = inl v.
Proof.
  split; [vm_compute; reflexivity|].
  refine (DecodeBytes_EncodeToBytes _ _ [204; 130; 4; 0; 131; 1; 2; 3; 130; 1; 44; 65; 128] 40 [] _ _ _ _ _).
  - cbn. unfold is_byte, uint_bits. split_and!; repeat constructor; lia.
  - cbn. unfold is_byte, uint_bits. split_and!; repeat constructor; done || lia.
  - intros e [= <-]. vm_compute. reflexivity.
  - vm_compute. reflexivity.
  - cbn. lia.
Defined.
