(* ===== verification/RlpCanon.v ===== *)
(** * The RLP codec: what decoding accepts (rlp/decode.go)

    Two properties of the decoder on arbitrary input.  A decoded value is a value of its
    type.  The decoder of a type without [nil] tags and one-byte arrays accepts exactly
    the encodings: the value that it returns encodes to the input. *)

From Stdlib Require Import ZArith Lia ZifyBool.
From stdpp Require Import base tactics strings numbers gmap list.
From S2P Require Import Prelude Rlp RlpDecode.

Local Open Scope Z_scope.

(** ** Decoded values are of their type *)

(** The reader holds bytes, and the size of the current value is a number of bytes. *)
Definition byte_stream (s : Stream) : Prop :=
  Forall is_byte (st_r s) ∧ is_byte (st_byteval s) ∧ 0 <= st_size s.

(** [m] keeps the reader and returns values that satisfy [P]. *)
Definition gives {A} (m : SM A) (P : A → Prop) : Prop :=
  ∀ s, byte_stream s → byte_stream (m s).1 ∧ ∀ a, (m s).2 = inl a → P a.

Lemma gives_ret {A} (a : A) (P : A → Prop) : P a → gives (mret a) P.
Proof. intros Ha s Hs. split; [done|]. intros a' [= <-]. done. Qed.

Lemma gives_err {A} e (P : A → Prop) : gives (err e) P.
Proof. intros s Hs. split; [done|]. intros a' [=]. Qed.

Lemma gives_bind {A B} (m : SM A) (f : A → SM B) P Q :
  gives m P → (∀ a, P a → gives (f a) Q) → gives (m ≫= f) Q.
Proof.
  intros Hm Hf s Hs. destruct (Hm s Hs) as [H1 H2]. unfold mbind, SM_bind.
  destruct (m s) as [s' [a|e]]; cbn in *; [by apply (Hf a (H2 a eq_refl))|]. split; [done|]. intros ? [=].
Qed.

Lemma gives_mono {A} (m : SM A) (P Q : A → Prop) : gives m P → (∀ a, P a → Q a) → gives m Q.
Proof. intros Hm HPQ s Hs. destruct (Hm s Hs) as [H1 H2]. split; [done|]. intros a E. auto. Qed.

Lemma gives_catch {A} (m : SM A) P :
  gives m P → gives (catch m) (λ r, match r with inl a => P a | inr _ => True end).
Proof.
  intros Hm s Hs. destruct (Hm s Hs) as [H1 H2]. unfold catch.
  destruct (m s) as [s' [a|e]]; cbn in *; (split; [done|]); intros ? [= <-]; auto.
Qed.

Lemma gives_wrap {A} (m : SM A) P : gives m P → gives (wrap m) P.
Proof.
  intros Hm s Hs. destruct (Hm s Hs) as [H1 H2]. unfold wrap.
  destruct (m s) as [s' [a|e]]; cbn in *; (split; [done|]); intros ? [= <-]; auto.
Qed.

Lemma gives_get : gives st_get byte_stream.
Proof. intros s Hs. split; [done|]. intros a [= <-]. done. Qed.

Lemma gives_modify f : (∀ s, byte_stream s → byte_stream (f s)) → gives (st_modify f) (λ _, True).
Proof. intros Hf s Hs. split; [by apply Hf|done]. Qed.

Lemma gives_willRead n : gives (willRead n) (λ _, True).
Proof.
  unfold willRead. eapply gives_bind; [by apply gives_modify|intros _ _].
  eapply gives_bind; [apply gives_get|intros s _]. eapply (gives_bind _ _ (λ _, True)).
  - destruct (st_stack s); [by apply gives_ret|]. case_match; [apply gives_err|by apply gives_modify].
  - intros _ _. repeat case_match; [apply gives_err|by apply gives_modify|by apply gives_ret].
Qed.

Lemma gives_readByte : gives readByte is_byte.
Proof.
  eapply gives_bind; [apply gives_willRead|intros _ _]. intros s [Hr Hb].
  unfold mbind, SM_bind. cbn. destruct (st_r s) as [|b r] eqn:E; cbn; [split; [|done]; split; [by rewrite E|done]|].
  inversion Hr; subst. split; [done|]. by intros a [= <-].
Qed.

Lemma gives_readFull n : gives (readFull n) (λ b, Forall is_byte b ∧ lenZ b = Z.max 0 n).
Proof.
  eapply gives_bind; [apply gives_willRead|intros _ _]. intros s [Hr Hb].
  unfold mbind, SM_bind. cbn. destruct (Z.ltb_spec (lenZ (st_r s)) n); cbn.
  { split; [|done]. by split; [constructor|]. }
  split; [split; [by apply Forall_drop|done]|]. intros a [= <-]. split; [by apply Forall_take|].
  unfold lenZ in *. rewrite length_take. lia.
Qed.

Lemma gives_readUint n : 0 <= n → gives (readUint n) (λ v, 0 <= v < 256 ^ n).
Proof.
  intros Hn. unfold readUint. destruct (Z.eqb_spec n 0) as [->|].
  { eapply gives_bind; [by apply gives_modify|intros _ _]. by apply gives_ret. }
  destruct (Z.eqb_spec n 1) as [->|]; [apply gives_readByte|].
  eapply gives_bind; [apply gives_readFull|]. intros b [Hb Hl]. case_bool_decide; [apply gives_err|].
  apply gives_ret. rewrite be_or_val by done. replace n with (lenZ b) by lia. by apply be_val_bound.
Qed.

Lemma gives_readKind : gives readKind (λ r, 0 <= r.1.2).
Proof.
  eapply gives_bind; [apply gives_catch, gives_readByte|]. intros [b|e] Hb.
  - unfold is_byte in Hb.
    assert (∀ k tag, 0 <= b - tag → gives (r ← catch (readUint (b - tag));
      match r with
      | inl size => mret (k, size, if size <? 56 then Some ErrCanonSize else None)
      | inr e => mret (k, 0, Some e)
      end) (λ r : Kind * Z * option rlpErr, 0 <= r.1.2)) as Hlarge.
    { intros k tag Ht. eapply gives_bind; [by apply gives_catch, gives_readUint|].
      intros [size|e] Hs; apply gives_ret; cbn in *; lia. }
    eapply gives_bind; [apply gives_modify; by intros s (H1 & H2 & H3)|intros _ _].
    repeat match goal with |- gives (if ?x <? ?y then _ else _) _ => destruct (Z.ltb_spec x y) end;
      try (apply Hlarge; lia); try (apply gives_ret; cbn; lia).
    eapply gives_bind; [apply gives_modify; by intros s (H1 & H2 & H3)|intros _ _]. by apply gives_ret.
  - eapply gives_bind; [apply gives_get|intros s _]. by apply gives_ret.
Qed.

Lemma gives_Kind : gives st_Kind (λ r, 0 <= r.2).
Proof.
  eapply gives_bind; [apply gives_get|intros s Hs]. eapply (gives_bind _ _ (λ _, True)).
  - destruct (st_kind s); [by apply gives_ret|]. eapply gives_bind; [by apply gives_modify|intros _ _].
    eapply (gives_bind _ _ (λ _, True)).
    { destruct (st_stack s); [by apply gives_ret|]. case_match; [apply gives_err|by apply gives_ret]. }
    intros _ _. eapply gives_bind; [apply gives_readKind|]. intros [[k n] e] Hn. cbn in Hn.
    eapply gives_bind; [apply gives_modify; by intros s' (H1 & H2 & H3)|intros _ _].
    destruct e; [by apply gives_ret|]. eapply gives_bind; [apply gives_get|intros s1 _].
    destruct (st_stack s1); case_match; by apply gives_ret || by apply gives_modify.
  - intros _ _. eapply gives_bind; [apply gives_get|intros s1 (_ & _ & H3)].
    repeat case_match; try apply gives_err. by apply gives_ret.
Qed.

Lemma gives_byteval : gives (st_modify (set_kind None);; s ← st_get; mret [st_byteval s])
  (λ b, Forall is_byte b).
Proof.
  eapply gives_bind; [by apply gives_modify|intros _ _]. eapply gives_bind; [apply gives_get|].
  intros s (_ & Hb & _). apply gives_ret. by constructor.
Qed.

Lemma gives_Bytes : gives st_Bytes (Forall is_byte).
Proof.
  eapply gives_bind; [apply gives_Kind|]. intros [[| |] n] Hn; [apply gives_byteval| |apply gives_err].
  eapply gives_bind; [apply gives_readFull|]. intros b [Hb _]. case_match; [apply gives_err|by apply gives_ret].
Qed.

Lemma puthead_bytes a b n : Forall is_byte (puthead a b n).
Proof.
  assert (∀ z, is_byte (byte_of z)) as H.
  { intros z. unfold is_byte, byte_of. apply Z.mod_pos_bound. lia. }
  unfold puthead, putint. repeat case_match; repeat constructor; apply H.
Qed.

Lemma gives_Raw : gives st_Raw (Forall is_byte).
Proof.
  eapply gives_bind; [apply gives_Kind|]. intros [[| |] n] Hn; [apply gives_byteval| |].
  all: eapply gives_bind; [apply gives_readFull|]; intros b [Hb _]; apply gives_ret.
  all: apply Forall_app_2; [apply puthead_bytes|done].
Qed.

Lemma gives_uint bits : uint_bits bits → gives (st_uint bits) (λ n, 0 <= n < 2 ^ bits).
Proof.
  intros Hb. apply uint_width in Hb as [Hw Hb].
  eapply gives_bind; [apply gives_Kind|]. intros [[| |] n] Hn; cbn in Hn; [| |apply gives_err].
  - eapply gives_bind; [apply gives_get|]. intros s (_ & Hv & _). case_match; [apply gives_err|].
    eapply gives_bind; [by apply gives_modify|intros _ _]. apply gives_ret. unfold is_byte in Hv.
    assert (2 ^ 8 <= 2 ^ bits) by (apply Z.pow_le_mono_r; lia). lia.
  - destruct (Z.ltb_spec (bits / 8) n); [apply gives_err|].
    eapply gives_bind; [by apply gives_catch, gives_readUint|]. intros [v|e] Hv; cbn in Hv.
    + case_match; [apply gives_err|]. apply gives_ret.
      assert (256 ^ n <= 256 ^ (bits / 8)) by (apply Z.pow_le_mono_r; lia).
      assert (256 ^ (bits / 8) = 2 ^ bits).
      { change 256 with (2 ^ 8). rewrite <-Z.pow_mul_r by lia. by rewrite <-Hb. }
      lia.
    + destruct e; apply gives_err.
Qed.

Lemma gives_List : gives st_List (λ _, True).
Proof.
  eapply gives_bind; [apply gives_Kind|]. intros [k n] Hn. case_bool_decide; [|apply gives_err].
  eapply gives_bind; [apply gives_modify; by intros s (H1 & H2 & H3)|intros _ _]. by apply gives_ret.
Qed.

Lemma gives_ListEnd : gives st_ListEnd (λ _, True).
Proof.
  eapply gives_bind; [apply gives_get|intros s _]. destruct (st_stack s); [apply gives_err|].
  case_match; [apply gives_err|]. apply gives_modify. by intros s1 (H1 & H2 & H3).
Qed.

(** The widths of unsigned integers are those of Go. *)
Fixpoint wf_type (t : ty) : Prop :=
  match t with
  | TUint bits => uint_bits bits
  | TSlice t | TArray _ t | TPtr t => wf_type t
  | TStruct fields => foldr (λ '(_, _, t) P, wf_type t ∧ P) True fields
  | _ => True
  end.

Lemma wf_type_field fields i e ts t :
  wf_type (TStruct fields) → fields !! i = Some (e, ts, t) → wf_type t.
Proof.
  cbn. revert i. induction fields as [|[[e' ts'] t'] fields IH]; intros [|i] Hw Hi; cbn in *; try done.
  - injection Hi as -> -> ->. by destruct Hw.
  - destruct Hw as [_ Hw]. by eapply IH.
Qed.

Lemma gives_ByteArray n :
  gives (decodeByteArray (Z.of_nat n)) (λ v, has_type v (TByteArray n)).
Proof.
  intros s Hs. unfold decodeByteArray, mbind, SM_bind. destruct (gives_Kind s Hs) as [H1 H2].
  destruct (st_Kind s) as [s1 [[k z]|e]] eqn:E; cbn in H1, H2; [|done].
  destruct (st_Kind_shape _ _ _ _ E) as (Hk & Hz & He). specialize (H2 _ eq_refl). cbn in H2. destruct k.
  - destruct (Z.eqb_spec (Z.of_nat n) 0); [done|]. destruct (Z.ltb_spec 1 (Z.of_nat n)); [done|].
    assert (n = 1%nat) as -> by lia. unfold catch, st_uint, mbind, SM_bind.
    rewrite (st_Kind_again _ _ _ E), E. cbn. destruct H1 as (? & Hb & ?).
    destruct (Z.eqb_spec (st_byteval s1) 0); cbn; (split; [done|]); intros a [= <-]; cbn.
    + split; [|done]. by constructor; [|constructor].
    + split; [|done]. by constructor; [|constructor].
  - destruct (Z.ltb_spec (Z.of_nat n) z); [done|]. destruct (Z.ltb_spec z (Z.of_nat n)); [done|].
    destruct (gives_readFull (Z.of_nat n) s1 H1) as [H3 H4].
    destruct (readFull (Z.of_nat n) s1) as [s2 [b|e]]; cbn in H3, H4; [|done].
    destruct (H4 b eq_refl) as [Hb Hl]. case_match; [done|]. split; [done|]. intros a [= <-].
    cbn. split; [done|]. unfold lenZ in Hl. lia.
  - done.
Qed.

Lemma gives_SliceElems fuel dec P :
  gives dec P → gives (decodeSliceElems fuel dec) (Forall P).
Proof.
  intros Hd. induction fuel as [|fuel IH]; cbn [decodeSliceElems]; [apply gives_err|].
  eapply gives_bind; [by apply gives_catch|]. intros [v|e] Hv.
  - eapply gives_bind; [apply IH|]. intros l Hl. apply gives_ret. by constructor.
  - destruct e; try apply gives_err. by apply gives_ret.
Qed.

Lemma gives_ArrayElems n dec P :
  gives dec P → gives (decodeArrayElems n dec) (λ l, length l = n ∧ Forall P l).
Proof.
  intros Hd. induction n as [|n IH]; cbn [decodeArrayElems]; [by apply gives_ret|].
  eapply gives_bind; [by apply gives_catch|]. intros [v|e] Hv.
  - eapply gives_bind; [apply IH|]. intros l [Hl Hl']. apply gives_ret. cbn. split; [lia|by constructor].
  - destruct e; apply gives_err.
Qed.

Lemma gives_ListSlice fuel dec P :
  gives dec P → gives (decodeListSlice fuel dec) (λ v, ∃ l, v = VList l ∧ Forall P l).
Proof.
  intros Hd. eapply gives_bind; [apply gives_wrap, gives_List|]. intros n _. case_match.
  - eapply gives_bind; [apply gives_ListEnd|intros _ _]. apply gives_ret. by exists [].
  - eapply gives_bind; [by apply gives_SliceElems|intros l Hl].
    eapply gives_bind; [apply gives_ListEnd|intros _ _]. apply gives_ret. by exists l.
Qed.

Lemma zero_val_typed t : wf_type t → has_type (zero_val t) t.
Proof.
  induction t as [|bits| | | |n| |t _|n t IH|fields IH|t _| |] using ty_ind'; intros Hw; cbn in *; try done.
  - split; [done|]. apply uint_width in Hw as [Hw _]. assert (0 < 2 ^ bits) by (apply Z.pow_pos_nonneg; lia). lia.
  - split; [|apply length_replicate]. apply Forall_replicate. done.
  - split; [apply length_replicate|]. apply has_type_elems, Forall_replicate. by apply IH.
  - change (has_type (VList ((λ '(_, _, t), zero_val t) <$> fields)) (TStruct fields)). apply has_type_struct.
    induction IH as [|[[e ts] t] fields Ht _ IHf]; [done|]. cbn in *. destruct Hw. auto.
Qed.

Lemma all_fields_insert P l fields i v e ts t :
  all_fields P l fields → fields !! i = Some (e, ts, t) → P v t → all_fields P (<[i := v]> l) fields.
Proof.
  revert l i. induction fields as [|[[e' ts'] t'] fields IH]; intros [|v' l] [|i] Ha Hi Hv; cbn in *; try done.
  - injection Hi as -> -> ->. by destruct Ha.
  - destruct Ha as [? Ha]. split; [done|]. by apply IH.
Qed.

Lemma gives_Fields dec fields fs l0 :
  (∀ i ts t, (i, ts, t) ∈ fs → (∃ e, fields !! i = Some (e, ts, t)) ∧ gives (dec t ts) (λ v, has_type v t)) →
  all_fields has_type l0 fields → gives (decodeFields dec fs l0) (λ l, all_fields has_type l fields).
Proof.
  revert l0. induction fs as [|[[i ts] t] fs IH]; intros l0 Hd Hl; cbn [decodeFields]; [by apply gives_ret|].
  destruct (Hd i ts t) as [[e Hi] Hg]; [left|]. eapply gives_bind; [by apply gives_catch|]. intros [v|er] Hv.
  - apply IH; [intros ? ? ? ?; apply Hd; by right|]. by eapply all_fields_insert.
  - destruct er; apply gives_err.
Qed.

Lemma gives_OptionalPtr dec P :
  gives dec P → gives (decodeOptionalPtr dec) (λ v, v = VNil ∨ ∃ w, v = VPtr w ∧ P w).
Proof.
  intros Hd. eapply gives_bind; [apply gives_catch, gives_Kind|]. intros [[k n]|e] _.
  - case_match.
    + eapply gives_bind; [by apply gives_modify|intros _ _]. apply gives_ret. by left.
    + eapply gives_bind; [done|]. intros v Hv. apply gives_ret. right. by exists v.
  - eapply gives_bind; [by apply gives_modify|intros _ _]. apply gives_err.
Qed.

Lemma decode_typed fuel t ts : wf_type t → gives (decode fuel t ts) (λ v, has_type v t).
Proof.
  revert t ts. induction fuel as [|fuel IH]; intros t ts Hw; cbn [decode]; [apply gives_err|].
  destruct t as [|bits| | | |n| |t|n t|fields|t| |].
  - eapply gives_bind; [apply gives_Raw|]. intros b Hb. by apply gives_ret.
  - eapply gives_bind; [by apply gives_wrap, gives_uint|]. intros v Hv. by apply gives_ret.
  - eapply gives_bind; [eapply (gives_wrap _ (λ _, True))|by intros; apply gives_ret].
    eapply gives_bind; [apply (gives_uint 8); by left|]. intros n _.
    repeat case_match; by apply gives_ret || apply gives_err.
  - eapply gives_bind; [apply gives_wrap, gives_Bytes|]. intros b Hb. by apply gives_ret.
  - eapply gives_bind; [apply gives_wrap, gives_Bytes|]. intros b Hb. by apply gives_ret.
  - apply gives_ByteArray.
  - eapply gives_bind; [apply gives_wrap, gives_Bytes|]. intros b Hb.
    case_bool_decide; [apply gives_err|by apply gives_ret].
  - specialize (IH t no_tags Hw). destruct (tail ts).
    + eapply gives_bind; [by apply gives_SliceElems|]. intros l Hl. apply gives_ret. by apply has_type_elems.
    + eapply gives_mono; [by apply gives_ListSlice|]. intros v (l & -> & Hl). by apply has_type_elems.
  - specialize (IH t no_tags Hw). eapply gives_bind; [apply gives_wrap, gives_List|intros _ _].
    eapply gives_bind; [by apply gives_ArrayElems|]. intros l [Hl1 Hl2].
    eapply gives_bind; [apply gives_wrap, gives_ListEnd|intros _ _]. apply gives_ret.
    split; [done|]. by apply has_type_elems.
  - destruct (structFields fields) as [fs|] eqn:Es; [|apply gives_err].
    eapply gives_bind; [apply gives_wrap, gives_List|intros _ _]. eapply gives_bind.
    + apply (gives_Fields _ fields).
      * intros i ts1 t1 Hin. destruct (fields_from_lookup _ _ _ _ _ _ _ Es Hin) as (_ & Hf & _).
        rewrite Nat.sub_0_r in Hf. split; [by eexists|]. case_match; [|apply gives_err].
        apply IH. by eapply wf_type_field.
      * apply has_type_struct. change (has_type (zero_val (TStruct fields)) (TStruct fields)).
        by apply zero_val_typed.
    + intros l Hl. eapply gives_bind; [apply gives_wrap, gives_ListEnd|intros _ _]. apply gives_ret.
      by apply has_type_struct.
  - specialize (IH t no_tags Hw). destruct (nilOK ts).
    + eapply gives_mono; [by apply gives_OptionalPtr|]. by intros v [-> | (w & -> & Hv)].
    + eapply gives_bind; [done|]. intros v Hv. by apply gives_ret.
  - eapply gives_bind; [apply gives_Kind|]. intros [k n] _. case_bool_decide.
    + eapply gives_bind; [apply gives_ListSlice, (IH TIface no_tags); done|]. intros v (l & -> & Hl).
      apply gives_ret. by apply (has_type_elems TIface).
    + eapply gives_bind; [apply gives_Bytes|]. intros b Hb. by apply gives_ret.
  - apply gives_err.
Qed.

Lemma DecodeBytes_typed_spec fuel t b v :
  wf_type t → Forall is_byte b → DecodeBytes fuel t b = inl v → has_type v t.
Proof.
  intros Hw Hb. unfold DecodeBytes. destruct (type_ok t); [|done].
  destruct (decode_typed fuel t no_tags Hw (st_Reset b (lenZ b))) as [_ H]; [by repeat split|].
  destruct (decode fuel t no_tags _) as [s [w|e]]; [|done]. destruct (st_r s); [|done].
  intros [= <-]. by apply H.
Qed.

(** ** Decoding accepts only encodings *)

Definition pos_ok (stk : list listpos) : Prop :=
  match stk with
  | [] => True
  | tos :: _ => 0 <= lp_pos tos <= lp_size tos ∧ lp_size tos < 2 ^ 64
  end.

Lemma pos_ok_bump n rem lim stk : fits n rem lim stk → pos_ok (bump n stk).
Proof. intros (? & _ & H). destruct stk; cbn in *; [done|lia]. Qed.

Lemma fits_pos_ok n rem lim stk : fits n rem lim stk → pos_ok stk.
Proof. intros (? & _ & H). destruct stk; cbn in *; [done|lia]. Qed.

Lemma fits_0 rem lim stk : pos_ok stk → (lim = true → 0 <= rem) → fits 0 rem lim stk.
Proof. intros H Hr. split_and!; [lia|done|]. destruct stk; cbn in *; [done|lia]. Qed.

Lemma fits_join n m rem lim stk :
  fits n rem lim stk → fits m (sub lim rem n) lim (bump n stk) → fits (n + m) rem lim stk.
Proof.
  unfold fits, sub. intros (H1 & H2 & H3) (H4 & H5 & H6).
  destruct lim, stk as [|tos stk]; cbn in *; split_and!; try done; try lia; intros _; specialize (H5 eq_refl); lia.
Qed.

Lemma willRead_inv n r rem lim k sz bv ke stk s' u :
  0 <= n → pos_ok stk → willRead n (mkStream r rem lim k sz bv ke stk) = (s', inl u) →
  fits n rem lim stk ∧ s' = mkStream r (sub lim rem n) lim None sz bv ke (bump n stk).
Proof.
  intros Hn Hp. unfold willRead, mbind, SM_bind, st_modify, st_get, err. cbn.
  destruct stk as [|tos below]; cbn in *.
  - destruct lim; cbn; [|by intros [= <-]].
    destruct (Z.ltb_spec rem n); cbn; [done|]. by intros [= <-].
  - destruct (Z.ltb_spec (u64 (lp_size tos - lp_pos tos)) n) as [H|H]; [done|].
    rewrite u64_small in H by (unfold in_u64; lia).
    rewrite (u64_small (lp_pos tos + n)) by (unfold in_u64; lia). cbn.
    destruct lim; cbn; [destruct (Z.ltb_spec rem n); cbn; [done|]|]; intros [= <-]; split; try done.
    all: split_and!; cbn; try done; lia.
Qed.

Lemma readByte_inv r rem lim k sz bv ke stk s' b :
  pos_ok stk → readByte (mkStream r rem lim k sz bv ke stk) = (s', inl b) →
  ∃ r', r = b :: r' ∧ fits 1 rem lim stk ∧
    s' = mkStream r' (sub lim rem 1) lim None sz bv ke (bump 1 stk).
Proof.
  intros Hp. unfold readByte, mbind, SM_bind.
  destruct (willRead 1 _) as [s1 [u|e]] eqn:E; [|done].
  apply willRead_inv in E as [Hf ->]; [|lia|done]. cbn. destruct r as [|x r]; [done|].
  intros [= <- <-]. by exists r.
Qed.

Lemma readFull_inv n r rem lim k sz bv ke stk s' b :
  0 <= n → pos_ok stk → readFull n (mkStream r rem lim k sz bv ke stk) = (s', inl b) →
  ∃ r', r = b ++ r' ∧ lenZ b = n ∧ fits n rem lim stk ∧
    s' = mkStream r' (sub lim rem n) lim None sz bv ke (bump n stk).
Proof.
  intros Hn Hp. unfold readFull, mbind, SM_bind.
  destruct (willRead n _) as [s1 [u|e]] eqn:E; [|done].
  apply willRead_inv in E as [Hf ->]; [|lia|done]. cbn. destruct (Z.ltb_spec (lenZ r) n); [done|].
  cbn. intros [= <- <-]. exists (drop (Z.to_nat n) r). split_and!; [by rewrite take_drop| |done|done].
  unfold lenZ in *. rewrite length_take. lia.
Qed.

Lemma readUint_inv n r rem lim k sz bv ke stk s' v :
  0 <= n → pos_ok stk → (lim = true → 0 <= rem) → Forall is_byte r →
  readUint n (mkStream r rem lim k sz bv ke stk) = (s', inl v) →
  ∃ b r', r = b ++ r' ∧ lenZ b = n ∧ v = be_val b ∧ (n ≠ 1 → minimal b) ∧ fits n rem lim stk ∧
    s' = mkStream r' (sub lim rem n) lim None sz bv ke (bump n stk).
Proof.
  intros Hn Hp Hr Hb. unfold readUint. destruct (Z.eqb_spec n 0) as [->|].
  { intros [= <- <-]. exists [], r. split_and!; try done; [by apply fits_0|]. by rewrite sub_0, bump_0. }
  destruct (Z.eqb_spec n 1) as [->|].
  { intros E. apply readByte_inv in E as (r' & -> & Hf & ->); [|done]. by exists [v], r'. }
  unfold mbind, SM_bind. destruct (readFull n _) as [s1 [b|e]] eqn:E; [|done].
  apply readFull_inv in E as (r' & -> & Hl & Hf & ->); [|done|done]. case_bool_decide as H0; [done|].
  intros [= <- <-]. apply Forall_app in Hb as [Hb _]. exists b, r'. by rewrite be_or_val.
Qed.

(** The tag of a value. *)
Definition headed (k : Kind) (n : Z) (h : bytes) (bv : Z) : Prop :=
  match k with
  | KByte => n = 0 ∧ h = [bv] ∧ 0 <= bv < 128
  | KString => h = str_head n ∧ bv = 0 ∧ 0 <= n < 2 ^ 64
  | KList => h = list_head n ∧ bv = 0 ∧ 0 <= n < 2 ^ 64
  end.

Lemma putint_minimal b : minimal b → 0 < be_val b < 2 ^ 64 → putint (be_val b) = b.
Proof.
  intros Hb Hv. destruct (putint_spec (be_val b)) as (Hm & E & _); [lia|]. by apply minimal_inj.
Qed.

Lemma puthead_inv small large b :
  minimal b → 56 <= be_val b → 1 <= lenZ b <= 8 → 0 <= large <= 247 →
  puthead small large (be_val b) = (large + lenZ b) :: b ∧ be_val b < 2 ^ 64.
Proof.
  intros Hm Hv Hl Hr. assert (be_val b < 2 ^ 64) as H64.
  { pose proof (be_val_bound b (proj1 Hm)). apply (Z.lt_le_trans _ (256 ^ lenZ b)); [lia|].
    change (2 ^ 64) with (256 ^ 8). apply Z.pow_le_mono_r; lia. }
  split; [|done]. destruct (puthead_large small large (be_val b)) as [E _]; [lia|done|].
  by rewrite E, putint_minimal by (done || lia).
Qed.

Lemma readKind_large_inv k tag b r rem lim sz ke stk s' k' n :
  (k = KString ∧ tag = 183 ∧ 184 <= b < 192 ∨ k = KList ∧ tag = 247 ∧ 248 <= b < 256) →
  fits 1 rem lim stk → Forall is_byte r →
  (r ← catch (readUint (b - tag));
   match r with
   | inl size => mret (k, size, if size <? 56 then Some ErrCanonSize else None)
   | inr e => mret (k, 0, Some e)
   end) (mkStream r (sub lim rem 1) lim None sz 0 ke (bump 1 stk)) = (s', inl (k', n, None)) →
  ∃ h r', b :: r = h ++ r' ∧ fits (lenZ h) rem lim stk ∧ headed k' n h 0 ∧
    s' = mkStream r' (sub lim rem (lenZ h)) lim None sz 0 ke (bump (lenZ h) stk).
Proof.
  intros Hk Hf Hb. unfold catch, mbind, SM_bind.
  destruct (readUint (b - tag) _) as [s1 [v|e]] eqn:E; [|done].
  apply readUint_inv in E as (c & r' & -> & Hl & -> & Hm & Hf' & ->);
    [|destruct Hk; lia|by eapply pos_ok_bump| |done].
  2:{ intros ->. destruct Hf as (_ & H & _). specialize (H eq_refl). cbn. lia. }
  destruct (Z.ltb_spec (be_val c) 56); [done|]. intros [= <- <- <-].
  assert (minimal c) as Hmin.
  { destruct (decide (b - tag = 1)) as [E1|E1]; [|by apply Hm]. apply Forall_app in Hb as [Hb _].
    split; [done|]. destruct c as [|x [|y c]]; [done| |unfold lenZ in Hl; cbn in Hl; lia].
    change (be_val [x]) with x in *. intros [= ->]. lia. }
  exists ((tag + lenZ c) :: c), r'.
  assert (lenZ (tag + lenZ c :: c) = 1 + lenZ c) as El by (unfold lenZ; cbn [length]; lia).
  rewrite Hl in *. rewrite El. split_and!; [cbn; f_equal; lia|by apply fits_join| |].
  - destruct (puthead_inv (if bool_decide (k = KList) then 192 else 128) tag c) as [E H64];
      [done|done|destruct Hk; lia|destruct Hk; lia|]. rewrite Hl in E. replace (tag + (b - tag)) with b in * by lia.
    destruct Hk as [(-> & -> & _)|(-> & -> & _)];
      [rewrite bool_decide_eq_false_2 in E by done|rewrite bool_decide_eq_true_2 in E by done];
      cbn [headed]; unfold str_head, list_head; rewrite E; split_and!; lia || done.
  - by rewrite sub_sub, bump_bump.
Qed.

Lemma readKind_inv r rem lim sz bv ke stk s' k n :
  pos_ok stk → Forall is_byte r →
  readKind (mkStream r rem lim None sz bv ke stk) = (s', inl (k, n, None)) →
  ∃ h r' bv', r = h ++ r' ∧ fits (lenZ h) rem lim stk ∧ headed k n h bv' ∧
    s' = mkStream r' (sub lim rem (lenZ h)) lim None sz bv' ke (bump (lenZ h) stk).
Proof.
  intros Hp Hb. unfold readKind. unfold mbind at 1, SM_bind at 1, catch at 1.
  destruct (readByte _) as [s1 [b|e]] eqn:E; [|done].
  apply readByte_inv in E as (r' & -> & Hf & ->); [|done]. inversion Hb as [|? ? Hx Hb']; subst.
  unfold is_byte in Hx. unfold mbind at 1, SM_bind at 1, st_modify at 1, set_byteval. cbn [st_r st_remaining st_limited st_kind st_size st_kinderr st_stack].
  repeat match goal with |- (if ?x <? ?y then _ else _) _ = _ → _ => destruct (Z.ltb_spec x y) end.
  - intros [= <- <- <-]. exists [b], r', b. split_and!; try done. cbn. split_and!; done || lia.
  - intros [= <- <- <-]. exists [b], r', 0. split_and!; try done. unfold headed, str_head.
    rewrite puthead_small by lia. split_and!; [f_equal; lia|done|lia|lia].
  - intros E. apply readKind_large_inv in E as (h & r1 & ? & ? & ? & ?); [|left; split_and!; done || lia|done|done].
    by exists h, r1, 0.
  - intros [= <- <- <-]. exists [b], r', 0. split_and!; try done. unfold headed, list_head.
    rewrite puthead_small by lia. split_and!; [f_equal; lia|done|lia|lia].
  - intros E. apply readKind_large_inv in E as (h & r1 & ? & ? & ? & ?); [|right; split_and!; done || lia|done|done].
    by exists h, r1, 0.
Qed.

(** There is room for the content in the innermost list. *)
Definition room (n : Z) (stk : list listpos) : Prop :=
  match stk with [] => True | tos :: _ => lp_pos tos + n <= lp_size tos end.

Lemma st_Kind_inv r rem lim sz bv ke stk s' k n :
  pos_ok stk → Forall is_byte r →
  st_Kind (mkStream r rem lim None sz bv ke stk) = (s', inl (k, n)) →
  ∃ h r' bv', r = h ++ r' ∧ fits (lenZ h) rem lim stk ∧ headed k n h bv' ∧ room n (bump (lenZ h) stk) ∧
    s' = mkStream r' (sub lim rem (lenZ h)) lim (Some k) n bv' None (bump (lenZ h) stk).
Proof.
  intros Hp Hb. unfold st_Kind, mbind, SM_bind. cbn [st_get st_kind st_stack]. unfold st_modify at 1.
  match goal with |- context [match ?m (set_kinderr None ?x) with (_, _) => _ end] =>
    destruct (m (set_kinderr None x)) as [s0 [[]|e]] eqn:E0 end; [|done].
  assert (s0 = mkStream r rem lim None sz bv None stk) as ->.
  { destruct stk as [|tos stk]; [by injection E0 as <-|]. case_match; [done|]. by injection E0 as <-. }
  clear E0. destruct (readKind _) as [s1 [[[k1 n1] e]|e]] eqn:Ek; [|done].
  destruct e as [e|]; cbn [st_modify]; [done|].
  apply readKind_inv in Ek as (h & r' & bv' & -> & Hf & Hh & ->); [|done|done]. cbn.
  pose proof (pos_ok_bump _ _ _ _ Hf) as Hp'.
  intros E. exists h, r', bv'. destruct (bump (lenZ h) stk) as [|tos below] eqn:Es; cbn in *.
  - destruct (lim && _) eqn:El; [discriminate E|]. by injection E as <- <- <-.
  - destruct (Z.ltb_spec (u64 (lp_size tos - lp_pos tos)) n1) as [H|H]; [discriminate E|].
    rewrite u64_small in H by (unfold in_u64; lia). injection E as <- <- <-. split_and!; try done. lia.
Qed.

(** [m] returns [a] only after it has consumed bytes [b] with [R b a]. *)
Definition consumes {A} (m : SM A) (R : bytes → A → Prop) : Prop :=
  ∀ r rem lim sz bv ke stk s' a,
  Forall is_byte r → pos_ok stk → (lim = true → 0 <= rem) →
  m (mkStream r rem lim None sz bv ke stk) = (s', inl a) →
  ∃ b r' sz' bv' ke', r = b ++ r' ∧ fits (lenZ b) rem lim stk ∧ R b a ∧
    s' = mkStream r' (sub lim rem (lenZ b)) lim None sz' bv' ke' (bump (lenZ b) stk).

Lemma consumes_ret {A} (a : A) (R : bytes → A → Prop) : R [] a → consumes (mret a) R.
Proof.
  intros Ha r rem lim sz bv ke stk s' a' Hb Hp Hr [= <- <-]. exists [], r, sz, bv, ke.
  change (lenZ []) with 0. rewrite sub_0, bump_0. split_and!; try done. by apply fits_0.
Qed.

Lemma consumes_err {A} e (R : bytes → A → Prop) : consumes (err e) R.
Proof. by intros r rem lim sz bv ke stk s' a' Hb Hp Hr [=]. Qed.

Lemma consumes_bind {A B} (m : SM A) (f : A → SM B) R1 R2 R :
  consumes m R1 → (∀ a, consumes (f a) (R2 a)) → (∀ b1 b2 a c, R1 b1 a → R2 a b2 c → R (b1 ++ b2) c) →
  consumes (m ≫= f) R.
Proof.
  intros Hm Hf HR r rem lim sz bv ke stk s' c Hb Hp Hr. unfold mbind, SM_bind.
  destruct (m _) as [s1 [a|e]] eqn:E; [|done]. intros E2.
  apply Hm in E as (b1 & r1 & sz1 & bv1 & ke1 & -> & Hf1 & HR1 & ->); [|done..].
  apply Forall_app in Hb as [_ Hb].
  apply Hf in E2 as (b2 & r2 & sz2 & bv2 & ke2 & -> & Hf2 & HR2 & ->); [|done|by eapply pos_ok_bump|].
  2:{ intros ->. destruct Hf1 as (? & H & _). specialize (H eq_refl). cbn. lia. }
  exists (b1 ++ b2), r2, sz2, bv2, ke2. rewrite lenZ_app, sub_sub, bump_bump, app_assoc.
  split_and!; [done|by apply fits_join|by eapply HR|done].
Qed.

Lemma consumes_mono {A} (m : SM A) (R R' : bytes → A → Prop) :
  consumes m R → (∀ b a, R b a → R' b a) → consumes m R'.
Proof.
  intros Hm HR r rem lim sz bv ke stk s' c Hb Hp Hr E.
  destruct (Hm _ _ _ _ _ _ _ _ _ Hb Hp Hr E) as (b & r' & sz' & bv' & ke' & ? & ? & ? & ?).
  exists b, r', sz', bv', ke'. auto.
Qed.

Lemma consumes_then {A B} (m : SM A) (f : A → B) (R : bytes → A → Prop) (R' : bytes → B → Prop) :
  consumes m R → (∀ b a, R b a → R' b (f a)) → consumes (x ← m; mret (f x)) R'.
Proof.
  intros Hm HR. apply (consumes_bind _ _ R (λ a b c, b = [] ∧ c = f a)); [done| |].
  - intros a. by apply consumes_ret.
  - intros b1 b2 a c H [-> ->]. rewrite app_nil_r. by apply HR.
Qed.

Lemma consumes_wrap {A} (m : SM A) R : consumes m R → consumes (wrap m) R.
Proof.
  intros Hm r rem lim sz bv ke stk s' c Hb Hp Hr. unfold wrap.
  destruct (m _) as [s1 [a|e]] eqn:E; [|done]. intros [= <- <-]. by eapply Hm.
Qed.

(** An operation that begins with [Kind]: what the tag and the rest consume together. *)
Lemma consumes_Kind {A} (f : Kind * Z → SM A) (R : bytes → A → Prop) :
  (∀ k n h bv r rem lim stk s' a, headed k n h bv → Forall is_byte r → room n stk → pos_ok stk →
    (lim = true → 0 <= rem) →
    f (k, n) (mkStream r rem lim (Some k) n bv None stk) = (s', inl a) →
    ∃ b r' sz' bv' ke', r = b ++ r' ∧ fits (lenZ b) rem lim stk ∧ R (h ++ b) a ∧
      s' = mkStream r' (sub lim rem (lenZ b)) lim None sz' bv' ke' (bump (lenZ b) stk)) →
  consumes (st_Kind ≫= f) R.
Proof.
  intros Hf r rem lim sz bv ke stk s' a Hb Hp Hr. unfold mbind, SM_bind.
  destruct (st_Kind _) as [s1 [[k n]|e]] eqn:E; [|done]. intros E2.
  apply st_Kind_inv in E as (h & r1 & bv1 & -> & Hf1 & Hh & Hroom & ->); [|done..].
  apply Forall_app in Hb as [_ Hb].
  apply (Hf _ _ h) in E2 as (b & r2 & sz2 & bv2 & ke2 & -> & Hf2 & HR & ->);
    [|done|done|done|by eapply pos_ok_bump|].
  2:{ intros ->. destruct Hf1 as (? & H & _). specialize (H eq_refl). cbn. lia. }
  exists (h ++ b), r2, sz2, bv2, ke2. rewrite lenZ_app, sub_sub, bump_bump, app_assoc.
  split_and!; [done|by apply fits_join|done|done].
Qed.

Lemma enc_str_byte x : x < 128 → enc_str [x] = [x].
Proof. intros Hx. unfold enc_str. cbn. destruct (Z.leb_spec x 127); [done|lia]. Qed.

Lemma enc_str_long p :
  (lenZ p =? 1) && match p with x :: _ => x <? 128 | [] => false end = false →
  enc_str p = str_head (lenZ p) ++ p.
Proof.
  intros H. unfold enc_str. destruct p as [|x [|y p]]; [done| |].
  - change (lenZ [x]) with 1 in *. cbn in *. destruct (Z.leb_spec x 127); [lia|done].
  - cbn [length]. rewrite (bool_decide_eq_false_2 (S (S _) = 1%nat)) by lia. done.
Qed.

Lemma consume_nothing {A} (R : bytes → A → Prop) h a r rem lim stk sz bv ke :
  R h a → pos_ok stk → (lim = true → 0 <= rem) →
  ∃ b r' sz' bv' ke', r = b ++ r' ∧ fits (lenZ b) rem lim stk ∧ R (h ++ b) a ∧
    mkStream r rem lim None sz bv ke stk =
      mkStream r' (sub lim rem (lenZ b)) lim None sz' bv' ke' (bump (lenZ b) stk).
Proof.
  intros HR Hp Hr. exists [], r, sz, bv, ke. change (lenZ []) with 0.
  rewrite app_nil_r, sub_0, bump_0. split_and!; try done. by apply fits_0.
Qed.

Lemma consumes_Bytes : consumes st_Bytes (λ b p, b = enc_str p ∧ Forall is_byte p).
Proof.
  apply consumes_Kind. intros k n h bv r rem lim stk s' p Hh Hb Hroom Hp Hr. destruct k; cbn in Hh.
  - destruct Hh as (-> & -> & Hx). intros [= <- <-]. apply (consume_nothing (λ b p, b = enc_str p ∧ Forall is_byte p)); [|done|done].
    rewrite enc_str_byte by lia. split; [done|]. constructor; [|constructor]. unfold is_byte. lia.
  - destruct Hh as (-> & -> & Hn). unfold mbind, SM_bind.
    destruct (readFull n _) as [s1 [b|e]] eqn:E; [|done].
    apply readFull_inv in E as (r' & -> & <- & Hf & ->); [|lia|done]. case_match eqn:G; [done|].
    intros [= <- <-]. exists b, r', (lenZ b), 0, None. apply Forall_app in Hb as [Hb _].
    split_and!; try done. by rewrite enc_str_long.
  - done.
Qed.

Lemma consumes_Raw : consumes st_Raw (λ b p, b = p).
Proof.
  apply consumes_Kind. intros k n h bv r rem lim stk s' p Hh Hb Hroom Hp Hr. destruct k; cbn in Hh.
  - destruct Hh as (-> & -> & Hx). intros [= <- <-]. by apply (consume_nothing (λ b p, b = p)).
  - destruct Hh as (-> & -> & Hn). unfold mbind, SM_bind.
    destruct (readFull n _) as [s1 [b|e]] eqn:E; [|done].
    apply readFull_inv in E as (r' & -> & <- & Hf & ->); [|lia|done].
    intros [= <- <-]. by exists b, r', (lenZ b), 0, None.
  - destruct Hh as (-> & -> & Hn). unfold mbind, SM_bind.
    destruct (readFull n _) as [s1 [b|e]] eqn:E; [|done].
    apply readFull_inv in E as (r' & -> & <- & Hf & ->); [|lia|done].
    intros [= <- <-]. by exists b, r', (lenZ b), 0, None.
Qed.

Lemma be_val_minimal_pos b : minimal b → b ≠ [] → 0 < be_val b.
Proof.
  intros Hm Hb. destruct b as [|x b]; [done|]. pose proof (minimal_lower x b Hm).
  assert (0 < 256 ^ lenZ b) by (apply Z.pow_pos_nonneg; [lia|apply lenZ_nonneg]). lia.
Qed.

Lemma consumes_uint bits : uint_bits bits → consumes (st_uint bits) (λ b v, b = enc_uint v).
Proof.
  intros Hbits. apply uint_width in Hbits as [Hw _]. apply consumes_Kind.
  intros k n h bv r rem lim stk s' v Hh Hb Hroom Hp Hr. destruct k; cbn in Hh.
  - destruct Hh as (-> & -> & Hx). unfold mbind, SM_bind. cbn. destruct (Z.eqb_spec bv 0); [done|].
    intros [= <- <-]. apply (consume_nothing (λ b v, b = enc_uint v) [bv]); [|done|done].
    unfold enc_uint. destruct (Z.eqb_spec bv 0); [done|]. rewrite putint_single by lia.
    by rewrite enc_str_byte by lia.
  - destruct Hh as (-> & -> & Hn). destruct (Z.ltb_spec (bits / 8) n); [done|]. unfold mbind, SM_bind, catch.
    destruct (readUint n _) as [s1 [u|e]] eqn:E; [|by destruct e].
    apply readUint_inv in E as (b & r' & -> & <- & -> & Hm & Hf & ->); [|lia|done|done|done].
    case_match eqn:G; [done|]. intros [= <- <-]. exists b, r', (lenZ b), 0, None. split_and!; try done.
    apply Forall_app in Hb as [Hb _]. assert (lenZ b <= 8) by (assert (bits / 8 <= 8) by (apply Z.div_le_upper_bound; lia); lia).
    assert (minimal b) as Hmin.
    { destruct (decide (lenZ b = 1)) as [E1|E1]; [|by apply Hm]. split; [done|]. rewrite E1 in G.
      destruct b as [|x [|y b]]; [done| |unfold lenZ in E1; cbn [length] in E1; lia].
      change (be_val [x]) with x in G. by intros [= ->]. }
    assert (be_val b < 2 ^ 64).
    { pose proof (be_val_bound b Hb). apply (Z.lt_le_trans _ (256 ^ lenZ b)); [lia|].
      change (2 ^ 64) with (256 ^ 8). apply Z.pow_le_mono_r; lia. }
    unfold enc_uint. destruct b as [|x b]; [done|].
    pose proof (be_val_minimal_pos (x :: b) Hmin ltac:(done)).
    destruct (Z.eqb_spec (be_val (x :: b)) 0); [lia|]. rewrite putint_minimal by (done || lia).
    rewrite enc_str_long; [done|]. destruct b as [|y b].
    + change (be_val [x]) with x in G. cbn in *. lia.
    + unfold lenZ. cbn [length]. lia.
  - done.
Qed.

Lemma consumes_ByteArray n :
  n ≠ 1%nat → consumes (decodeByteArray (Z.of_nat n)) (λ b v, ∃ p, v = VBytes p ∧ b = enc_str p).
Proof.
  intros Hn1. apply consumes_Kind. intros k n' h bv r rem lim stk s' p Hh Hb Hroom Hp Hr. destruct k; cbn in Hh.
  - destruct (Z.eqb_spec (Z.of_nat n) 0); [done|]. destruct (Z.ltb_spec 1 (Z.of_nat n)); [done|lia].
  - destruct Hh as (-> & -> & Hn). destruct (Z.ltb_spec (Z.of_nat n) n'); [done|].
    destruct (Z.ltb_spec n' (Z.of_nat n)); [done|]. replace (Z.of_nat n) with n' by lia. unfold mbind, SM_bind.
    destruct (readFull n' _) as [s1 [b|e]] eqn:E; [|done].
    apply readFull_inv in E as (r' & -> & <- & Hf & ->); [|lia|done]. case_match eqn:G; [done|].
    intros [= <- <-]. exists b, r', (lenZ b), 0, None. split_and!; try done. exists b. split; [done|].
    by rewrite enc_str_long.
  - done.
Qed.

Lemma consumes_BigInt : consumes decodeBigInt (λ b v, ∃ z, v = VBig z ∧ 0 <= z ∧ b = enc_str (big_Bytes z)).
Proof.
  apply (consumes_bind _ _ (λ b p, b = enc_str p ∧ Forall is_byte p)
    (λ p b v, b = [] ∧ p !! O ≠ Some 0 ∧ v = VBig (be_val p))); [apply consumes_wrap, consumes_Bytes| |].
  - intros p. case_bool_decide; [apply consumes_err|by apply consumes_ret].
  - intros b1 b2 p v [-> Hp] (-> & H0 & ->). rewrite app_nil_r. exists (be_val p).
    pose proof (be_val_bound p Hp). destruct (big_Bytes_spec (be_val p)) as [Hm E]; [lia|].
    split_and!; [done|lia|]. f_equal. by apply minimal_inj.
Qed.

(** *** The end of a list *)

Definition never_eol {A} (m : SM A) : Prop := ∀ s, (m s).2 ≠ inr EOL.

(** The end of the list is reported before anything is read. *)
Definition eol_clean {A} (m : SM A) : Prop :=
  ∀ r rem lim sz bv ke stk s', m (mkStream r rem lim None sz bv ke stk) = (s', inr EOL) →
  ∃ sz' bv' ke', s' = mkStream r rem lim None sz' bv' ke' stk.

Lemma never_eol_ret {A} (a : A) : never_eol (mret a).
Proof. by intros s. Qed.

Lemma never_eol_err {A} e : e ≠ EOL → never_eol (A := A) (err e).
Proof. intros He s [= ->]. done. Qed.

Lemma never_eol_modify f : never_eol (st_modify f).
Proof. by intros s. Qed.

Lemma never_eol_get : never_eol st_get.
Proof. by intros s. Qed.

Lemma never_eol_catch {A} (m : SM A) : never_eol (catch m).
Proof. intros s. unfold catch. by destruct (m s). Qed.

Lemma never_eol_bind {A B} (m : SM A) (f : A → SM B) :
  never_eol m → (∀ a, never_eol (f a)) → never_eol (m ≫= f).
Proof.
  intros Hm Hf s. unfold mbind, SM_bind. specialize (Hm s). destruct (m s) as [s' [a|e]]; [apply Hf|].
  cbn in *. congruence.
Qed.

Lemma never_eol_wrap {A} (m : SM A) : never_eol m → never_eol (wrap m).
Proof.
  intros Hm s. specialize (Hm s). unfold wrap. destruct (m s) as [s' [a|e]]; [done|].
  destruct e; cbn in *; congruence.
Qed.

Create HintDb rlp.
#[export] Hint Resolve never_eol_ret never_eol_modify never_eol_get never_eol_catch never_eol_wrap : rlp.
#[export] Hint Extern 2 (never_eol (err _)) => apply never_eol_err; discriminate : rlp.
#[export] Hint Extern 3 (never_eol (_ ≫= _)) => apply never_eol_bind; [|intros ?] : rlp.
#[export] Hint Extern 4 (never_eol (if ?b then _ else _)) => destruct b : rlp.
#[export] Hint Extern 4 (never_eol (match ?x with _ => _ end)) => destruct x : rlp.

Lemma never_eol_willRead n : never_eol (willRead n).
Proof. unfold willRead. auto 10 with rlp. Qed.
#[export] Hint Resolve never_eol_willRead : rlp.

Lemma never_eol_readByte : never_eol readByte.
Proof. unfold readByte. auto 10 with rlp. Qed.

Lemma never_eol_readFull n : never_eol (readFull n).
Proof. unfold readFull. auto 10 with rlp. Qed.
#[export] Hint Resolve never_eol_readByte never_eol_readFull : rlp.

Lemma never_eol_readUint n : never_eol (readUint n).
Proof. unfold readUint. auto 10 with rlp. Qed.

Lemma never_eol_ListEnd : never_eol st_ListEnd.
Proof. unfold st_ListEnd. auto 10 with rlp. Qed.

Lemma never_eol_SliceElems fuel dec : never_eol (decodeSliceElems fuel dec).
Proof. induction fuel; cbn [decodeSliceElems]; auto 10 with rlp. Qed.

Lemma never_eol_ArrayElems n dec : never_eol (decodeArrayElems n dec).
Proof. induction n; cbn [decodeArrayElems]; auto 10 with rlp. Qed.

Lemma never_eol_Fields dec fs l : never_eol (decodeFields dec fs l).
Proof. revert l. induction fs as [|[[i ts] t] fs IH]; intros l; cbn [decodeFields]; auto 10 with rlp. Qed.
#[export] Hint Resolve never_eol_readUint never_eol_ListEnd never_eol_SliceElems never_eol_ArrayElems
  never_eol_Fields : rlp.

(** The error that [readKind] returns for [Kind] to keep. *)
Lemma readKind_no_eol s s' k n : readKind s ≠ (s', inl (k, n, Some EOL)).
Proof.
  unfold readKind. unfold mbind at 1, SM_bind at 1, catch at 1. pose proof (never_eol_readByte s) as H1.
  destruct (readByte s) as [s1 [b|e]]; cbn [snd] in H1.
  - unfold mbind at 1, SM_bind at 1, st_modify at 1.
    assert (∀ k0 m s0, never_eol m → (r ← catch m;
      match r with
      | inl size => mret (k0, size, if size <? 56 then Some ErrCanonSize else None)
      | inr e => mret (k0, 0, Some e)
      end) s0 ≠ (s', inl (k, n, Some EOL))) as Hl.
    { intros k0 m s0 Hm. unfold mbind, SM_bind, catch. specialize (Hm s0).
      destruct (m s0) as [s2 [v|e]]; cbn in Hm; [case_match; by intros [=]|]. intros [=]. congruence. }
    repeat case_match; try (by apply Hl, never_eol_readUint); by intros [=].
  - unfold mbind, SM_bind. cbn. intros [=]. repeat case_match; congruence.
Qed.

Lemma eol_clean_Kind : eol_clean st_Kind.
Proof.
  intros r rem lim sz bv ke stk s'. unfold st_Kind, mbind, SM_bind. cbn [st_get st_kind st_stack].
  unfold st_modify at 1.
  match goal with |- context [match ?m (set_kinderr None ?x) with (_, _) => _ end] =>
    destruct (m (set_kinderr None x)) as [s0 [[]|e]] eqn:E0 end.
  - destruct (readKind s0) as [s1 [[[k1 n1] e]|e]] eqn:Ek.
    + cbn [st_modify]. destruct e as [e|].
      * cbn. intros [= _ ->]. by apply readKind_no_eol in Ek.
      * destruct (st_stack _);
          match goal with |- context [if ?b then st_modify _ else _] => destruct b end;
          intros E; discriminate E.
    + assert (never_eol readKind) as Hn by (unfold readKind; auto 12 with rlp).
      specialize (Hn s0). rewrite Ek in Hn. cbn in Hn. intros [= _ ->]. done.
  - destruct stk as [|tos stk]; [done|]. case_match; [|done]. injection E0 as <- <-. intros [= <-].
    by exists sz, bv, None.
Qed.

Lemma eol_clean_bind {A B} (m : SM A) (f : A → SM B) :
  eol_clean m → (∀ a, never_eol (f a)) → eol_clean (m ≫= f).
Proof.
  intros Hm Hf r rem lim sz bv ke stk s'. unfold mbind, SM_bind.
  destruct (m _) as [s1 [a|e]] eqn:E; intros E2.
  - specialize (Hf a s1). rewrite E2 in Hf. done.
  - injection E2 as -> ->. by eapply Hm.
Qed.

Lemma eol_clean_wrap {A} (m : SM A) : eol_clean m → eol_clean (wrap m).
Proof.
  intros Hm r rem lim sz bv ke stk s'. unfold wrap. destruct (m _) as [s1 [a|e]] eqn:E; [done|].
  intros [= -> E2]. destruct e; try done. by eapply Hm.
Qed.

Lemma eol_clean_ListSlice fuel dec : eol_clean (decodeListSlice fuel dec).
Proof.
  unfold decodeListSlice. apply eol_clean_bind; [|intros n; auto 10 with rlp].
  apply eol_clean_wrap, eol_clean_bind; [apply eol_clean_Kind|intros [k n]; auto 10 with rlp].
Qed.

(** After [Kind] the list is not at its end. *)
Definition after_kind {A} (m : SM A) : Prop :=
  ∀ s s1 k, st_Kind s = (s1, inl k) → (m s1).2 ≠ inr EOL.

Lemma after_kind_Kind : after_kind st_Kind.
Proof. intros s s1 k E. by rewrite (st_Kind_again _ _ _ E), E. Qed.

Lemma after_kind_bind {A B} (m : SM A) (f : A → SM B) :
  after_kind m → (∀ a, never_eol (f a)) → after_kind (m ≫= f).
Proof.
  intros Hm Hf s s1 k E. specialize (Hm _ _ _ E). unfold mbind, SM_bind.
  destruct (m s1) as [s2 [a|e]]; [apply Hf|]. cbn in *. congruence.
Qed.

Lemma after_kind_wrap {A} (m : SM A) : after_kind m → after_kind (wrap m).
Proof.
  intros Hm s s1 k E. specialize (Hm _ _ _ E). unfold wrap.
  destruct (m s1) as [s2 [a|e]]; [done|]. cbn in *. destruct e; cbn; congruence.
Qed.

Lemma eol_clean_Interface fuel self : eol_clean (decodeInterface fuel self).
Proof.
  assert (after_kind (v ← decodeListSlice fuel self; mret (VIface (TSlice TIface) v))) as H1.
  { apply after_kind_bind; [|auto with rlp]. apply after_kind_bind; [|auto 10 with rlp].
    apply after_kind_wrap, after_kind_bind; [apply after_kind_Kind|intros [k n]; auto 10 with rlp]. }
  assert (after_kind (b ← st_Bytes; mret (VIface TBytes (VBytes b)))) as H2.
  { apply after_kind_bind; [|auto with rlp].
    apply after_kind_bind; [apply after_kind_Kind|intros [k n]; auto 10 with rlp]. }
  intros r rem lim sz bv ke stk s'. unfold decodeInterface. unfold mbind at 1, SM_bind at 1.
  destruct (st_Kind _) as [s1 [[k n]|e]] eqn:E; intros E2; [|injection E2 as -> ->; by eapply eol_clean_Kind].
  exfalso. specialize (H1 _ _ _ E). specialize (H2 _ _ _ E). case_bool_decide; rewrite E2 in *; done.
Qed.

Lemma never_eol_catch_bind {A B} (m : SM A) (f : A + rlpErr → SM B) :
  never_eol m → (∀ a, never_eol (f (inl a))) → (∀ e, e ≠ EOL → never_eol (f (inr e))) →
  never_eol (catch m ≫= f).
Proof.
  intros Hm Ha He s. specialize (Hm s). unfold mbind, SM_bind, catch.
  destruct (m s) as [s' [a|e]]; [apply Ha|]. apply He. cbn in Hm. congruence.
Qed.

Lemma eol_clean_uint bits : eol_clean (st_uint bits).
Proof.
  apply eol_clean_bind; [apply eol_clean_Kind|]. intros [[| |] n]; [auto 10 with rlp| |auto with rlp].
  case_match; [auto with rlp|]. apply never_eol_catch_bind; [auto with rlp|intros v; auto with rlp|].
  intros e He. destruct e; try (by apply never_eol_err); done.
Qed.

Lemma eol_clean_decode t ts fuel : nilOK ts = false → eol_clean (decode fuel t ts).
Proof.
  revert ts fuel. induction t; intros ts [|fuel] Hn; cbn [decode]; try (by intros ? ? ? ? ? ? ? ? [=]).
  all: try solve [repeat first [exact eol_clean_Kind | apply eol_clean_wrap
    | apply eol_clean_uint
    | apply eol_clean_bind; [|try intros [? ?]; intros; auto 12 with rlp]]].
  - destruct (tail ts); [|apply eol_clean_ListSlice]. intros r rem lim sz bv ke stk s' E.
    assert (never_eol (l ← decodeSliceElems fuel (decode fuel t no_tags); mret (VList l))) as H by auto with rlp.
    specialize (H (mkStream r rem lim None sz bv ke stk)). by rewrite E in H.
  - destruct (structFields fields); [|by intros ? ? ? ? ? ? ? ? [=]].
    apply eol_clean_bind; [|auto 10 with rlp].
    apply eol_clean_wrap, eol_clean_bind; [apply eol_clean_Kind|intros [k n]; auto 10 with rlp].
  - rewrite Hn. apply eol_clean_bind; [by apply IHt|auto with rlp].
  - apply eol_clean_Interface.
Qed.

(** *** Lists, elements and fields *)

Lemma ListEnd_inv le n c r rem lim sz bv ke stk s' u :
  le = st_ListEnd ∨ le = wrap st_ListEnd → pos_ok stk → room n stk → 0 <= n → 
  le (mkStream r rem lim None sz bv ke (mkListpos c n :: stk)) = (s', inl u) →
  c = n ∧ s' = mkStream r rem lim None 0 bv ke (bump n stk).
Proof.
  intros Hle Hp Hroom Hn. assert (st_ListEnd (mkStream r rem lim None sz bv ke (mkListpos c n :: stk)) = (s', inl u) →
    c = n ∧ s' = mkStream r rem lim None 0 bv ke (bump n stk)) as H.
  { unfold st_ListEnd, mbind, SM_bind. cbn. destruct (Z.eqb_spec c n); cbn; [|done].
    intros [= <-]. split; [done|]. destruct stk as [|up stk]; [done|]. cbn in *.
    by rewrite u64_small by (unfold in_u64; lia). }
  destruct Hle as [-> | ->]; [done|]. unfold wrap. destruct (st_ListEnd _) as [s1 [v|e]]; [|done].
  intros [= -> ->]. by apply H.
Qed.

Lemma consumes_list {A B} (m : Z → SM A) (f : A → B) (le : SM ()) (R : bytes → A → Prop) :
  le = st_ListEnd ∨ le = wrap st_ListEnd → (∀ n, consumes (m n) R) →
  consumes (size ← wrap st_List; x ← m size; le;; mret (f x)) (λ b v, ∃ c x, v = f x ∧ R c x ∧ b = enc_list c).
Proof.
  intros Hle Hm r rem lim sz bv ke stk s' v Hb Hp Hr. unfold mbind, SM_bind, wrap at 1.
  destruct (st_List _) as [s1 [n|e]] eqn:E1; [|done]. revert E1. unfold st_List, mbind, SM_bind.
  destruct (st_Kind _) as [s2 [[k n']|e]] eqn:E; [|done].
  apply st_Kind_inv in E as (h & r1 & bv1 & -> & Hf1 & Hh & Hroom & ->); [|done..].
  destruct k; try done. intros [= <- <-]. destruct Hh as (-> & -> & Hn). unfold set_kind, set_size, set_stack. cbn.
  destruct (m n' _) as [s3 [x|e]] eqn:E3; [|done]. apply Forall_app in Hb as [_ Hb].
  assert (lim = true → 0 <= sub lim rem (lenZ (list_head n'))) as Hr1.
  { intros ->. destruct Hf1 as (_ & H & _). specialize (H eq_refl). cbn. lia. }
  apply Hm in E3 as (c & r2 & sz2 & bv2 & ke2 & -> & Hf2 & HR & ->); [|done|cbn; lia|done].
  cbn [bump lp_pos lp_size]. rewrite Z.add_0_l.
  destruct (le _) as [s4 [u|e]] eqn:E4; [|done].
  apply ListEnd_inv in E4 as [<- ->]; [|done|by eapply pos_ok_bump|done|lia]. intros [= <- <-].
  exists (enc_list c), r2, 0, bv2, ke2. unfold enc_list. rewrite lenZ_app, <-sub_sub, <-bump_bump, app_assoc.
  split_and!; [done| |by exists c, x|done]. apply fits_join; [done|].
  destruct Hf2 as (? & H2 & _). split_and!; [lia|done|]. pose proof (pos_ok_bump _ _ _ _ Hf1) as Hp1.
  destruct (bump _ stk); cbn in *; [done|lia].
Qed.

Lemma consumes_catch_bind {A B} (m : SM A) (f : A + rlpErr → SM B) R1 R2 R :
  consumes m R1 → (∀ a, consumes (f (inl a)) (R2 a)) → (∀ b1 b2 a c, R1 b1 a → R2 a b2 c → R (b1 ++ b2) c) →
  (∀ e, (∃ e', f (inr e) = err e') ∨ e = EOL ∧ eol_clean m ∧ ∃ x, f (inr e) = mret x ∧ R [] x) →
  consumes (catch m ≫= f) R.
Proof.
  intros Hm Hf HR He r rem lim sz bv ke stk s' c Hb Hp Hr E0.
  pose proof (consumes_bind m (λ a, f (inl a)) R1 R2 R Hm Hf HR r rem lim sz bv ke stk s' c Hb Hp Hr) as Hgood.
  revert E0 Hgood. unfold mbind, SM_bind, catch. destruct (m _) as [s1 [a|e]] eqn:E; [auto|].
  intros E0 _. destruct (He e) as [[e' Ee]|(-> & Hc & x & Ee & Hx)]; rewrite Ee in E0; [done|].
  destruct (Hc _ _ _ _ _ _ _ _ E) as (sz' & bv' & ke' & ->). injection E0 as <- <-.
  by apply (consume_nothing R []).
Qed.

Lemma consumes_SliceElems fuel dec R :
  consumes dec R → eol_clean dec →
  consumes (decodeSliceElems fuel dec) (λ c l, ∃ bs, c = mjoin bs ∧ Forall2 R bs l).
Proof.
  intros Hd Hc. induction fuel as [|fuel IH]; cbn [decodeSliceElems]; [apply consumes_err|].
  apply (consumes_catch_bind _ _ R (λ v c l, ∃ l', l = v :: l' ∧ ∃ bs, c = mjoin bs ∧ Forall2 R bs l')); [done| | |].
  - intros v. eapply consumes_then; [apply IH|]. intros b l H. by exists l.
  - intros b1 b2 v l Hv (l' & -> & bs & -> & Hbs). exists (b1 :: bs). by split; [|constructor].
  - intros e. destruct e; try (left; by eexists). right. split_and!; [done|done|]. exists [].
    split; [done|]. by exists [].
Qed.

Lemma consumes_ArrayElems n dec R :
  consumes dec R → consumes (decodeArrayElems n dec) (λ c l, ∃ bs, c = mjoin bs ∧ Forall2 R bs l).
Proof.
  intros Hd. induction n as [|n IH]; cbn [decodeArrayElems]; [apply consumes_ret; by exists []|].
  apply (consumes_catch_bind _ _ R (λ v c l, ∃ l', l = v :: l' ∧ ∃ bs, c = mjoin bs ∧ Forall2 R bs l')); [done| | |].
  - intros v. eapply consumes_then; [apply IH|]. intros b l H. by exists l.
  - intros b1 b2 v l Hv (l' & -> & bs & -> & Hbs). exists (b1 :: bs). by split; [|constructor].
  - intros e. left. destruct e; by eexists.
Qed.

Lemma consumes_ListSlice fuel dec R :
  consumes dec R → eol_clean dec →
  consumes (decodeListSlice fuel dec) (λ b v, ∃ bs l, v = VList l ∧ Forall2 R bs l ∧ b = enc_list (mjoin bs)).
Proof.
  intros Hd Hc r rem lim sz bv ke stk s' v Hb Hp Hr E0.
  assert ((size ← wrap st_List;
     l ← (if size =? 0 then mret [] else decodeSliceElems fuel dec);
     st_ListEnd;; mret (VList l)) (mkStream r rem lim None sz bv ke stk) = (s', inl v)) as E.
  { rewrite <-E0. unfold decodeListSlice, mbind, SM_bind. destruct (wrap st_List _) as [s [n|e]]; [|done].
    by destruct (n =? 0). }
  eapply (consumes_list (λ size, if size =? 0 then mret [] else decodeSliceElems fuel dec) VList st_ListEnd
    (λ c l, ∃ bs, c = mjoin bs ∧ Forall2 R bs l)) in E as (b & r' & sz' & bv' & ke' & -> & Hf & (c & l & -> & (bs & -> & Hl) & ->) & ->);
    [|by left| |done..].
  - exists (enc_list (mjoin bs)), r', sz', bv', ke'. split_and!; try done. by exists bs, l.
  - intros n. case_match; [apply consumes_ret; by exists []|by apply consumes_SliceElems].
Qed.

Lemma consumes_Fields dec (R : ty → tags → bytes → val → Prop) fs l0 :
  NoDup ((λ f, f.1.1) <$> fs) →
  (∀ i ts t, (i, ts, t) ∈ fs → (i < length l0)%nat ∧ consumes (dec t ts) (R t ts)) →
  consumes (decodeFields dec fs l0) (λ c l, (∀ j, j ∉ (λ f, f.1.1) <$> fs → l !! j = l0 !! j) ∧
    ∃ bs, c = mjoin bs ∧ Forall2 (λ b '(i, ts, t), ∃ v, l !! i = Some v ∧ R t ts b v) bs fs).
Proof.
  revert l0. induction fs as [|[[i ts] t] fs IH]; intros l0 Hnd Hd; cbn [decodeFields].
  { apply consumes_ret. split; [done|]. by exists []. }
  cbn in Hnd. apply NoDup_cons in Hnd as [Hi Hnd]. destruct (Hd i ts t) as [Hlt Hc]; [left|].
  eapply (consumes_catch_bind _ _ (R t ts)); [done| | |].
  - intros v. apply (IH (<[i := v]> l0)); [done|]. intros j tj tyj Hj. rewrite length_insert.
    apply Hd. by right.
  - intros b1 b2 v l Hv (Hun & bs & -> & Hbs). split.
    + intros j Hj. cbn in Hj. rewrite not_elem_of_cons in Hj. destruct Hj as [Hne Hj].
      rewrite Hun by done. by rewrite list_lookup_insert_ne.
    + exists (b1 :: bs). split; [done|]. constructor; [|done]. exists v. split; [|done].
      rewrite Hun by done. by apply list_lookup_insert_eq.
  - intros e. left. destruct e; by eexists.
Qed.

Lemma fields_from_NoDup i0 last fields fs :
  fields_from i0 last fields = Some fs → NoDup ((λ f, f.1.1) <$> fs).
Proof.
  revert i0 fs. induction fields as [|[[e ts] t] fields IH]; intros i0 fs Hf; cbn in Hf.
  { injection Hf as <-. constructor. }
  destruct e; [|by eapply IH].
  destruct (parseStructTag i0 last ts t) as [ts1|] eqn:Ep; [|done]. cbn in Hf.
  destruct (fields_from (S i0) last fields) as [rest|] eqn:Er; [|done]. cbn in Hf. injection Hf as <-.
  case_match; [by eapply IH|]. cbn. apply NoDup_cons. split; [|by eapply IH].
  intros Hin. apply list_elem_of_fmap in Hin as ([[j tj] tyj] & Ej & Hin). cbn in Ej. subst j.
  destruct (fields_from_lookup _ _ _ _ _ _ _ Er Hin) as (? & _). lia.
Qed.

(** The types for which an encoding is unique: no pointer with a [nil] tag, which takes
    both empty values for nil, and no [[1]byte] (see [byte_array_rereads]). *)
Fixpoint canon (t : ty) : bool :=
  match t with
  | TByteArray n => negb (n =? 1)%nat
  | TSlice t | TArray _ t | TPtr t => canon t
  | TStruct fields =>
      forallb (λ '(e, ts, t), negb e || ignored ts || (negb (nilOK ts) && canon t)) fields
  | _ => true
  end.

Lemma canon_field fields i ts t :
  canon (TStruct fields) = true → fields !! i = Some (true, ts, t) → ignored ts = false →
  nilOK ts = false ∧ canon t = true.
Proof.
  cbn. intros Hc Hi Hg. apply list_elem_of_lookup_2, list_elem_of_In in Hi.
  rewrite forallb_forall in Hc. specialize (Hc _ Hi). cbn in Hc. rewrite Hg in Hc. cbn in Hc.
  apply andb_true_iff in Hc as [H1 H2]. by apply negb_true_iff in H1.
Qed.

Lemma concat_all_Forall2 (f : val → option bytes) bs l :
  Forall2 (λ b v, f v = Some b) bs l → concat_all (f <$> l) = Some (mjoin bs).
Proof. induction 1 as [|b v bs l Hv _ IH]; [done|]. cbn. by rewrite Hv, IH. Qed.

Lemma consumes_struct (dec : ty → tags → SM val) fields fs :
  structFields fields = Some fs → wf_type (TStruct fields) → canon (TStruct fields) = true →
  (∀ t ts, wf_type t → canon t = true → nilOK ts = false → tail_ok ts t →
    consumes (dec t ts) (λ b v, enc v t ts = Some b)) →
  consumes (decodeFields (λ t ts, if type_ok t then dec t ts else err PanicNilDecoder) fs
      ((λ '(_, _, t), zero_val t) <$> fields))
    (λ c l, enc (VList l) (TStruct fields) no_tags = Some (enc_list c)).
Proof.
  intros Es Hw Hc IH. eapply consumes_mono.
  { apply (consumes_Fields _ (λ t ts b v, type_ok t = true ∧ enc v t ts = Some b)); [by eapply fields_from_NoDup|].
    intros i ts t Hin. destruct (fields_from_lookup _ _ _ _ _ _ _ Es Hin) as (_ & Hf & Hg & Hp).
    rewrite Nat.sub_0_r in Hf. destruct (canon_field _ _ _ _ Hc Hf Hg) as [Hn Hct].
    rewrite length_fmap. split; [by eapply lookup_lt_Some|]. destruct (type_ok t); [|apply consumes_err].
    eapply consumes_mono; [apply IH; [by eapply wf_type_field|done|done|]|done].
    intros Et. unfold parseStructTag in Hp. rewrite Et in Hp. by repeat case_match. }
  intros c l (_ & bs & -> & Hbs). cbn. rewrite Es. cbn.
  enough (concat_all ((λ '(i, ts, t), e ← ((λ v, enc v) <$> l) !! i; if type_ok t then e t ts else None) <$> fs) =
    Some (mjoin bs)) as -> by done.
  clear -Hbs. induction Hbs as [|b [[i ts] t] bs fs (v & Hv & Hok & He) _ IHf]; [done|]. cbn.
  rewrite list_lookup_fmap, Hv. cbn. rewrite Hok, He. cbn. by rewrite IHf.
Qed.

Lemma consumes_Interface fuel self R :
  consumes (decodeListSlice fuel self) R →
  consumes (decodeInterface fuel self) (λ b v, ∃ w, v = VIface (TSlice TIface) w ∧ R b w ∨
    ∃ p, v = VIface TBytes (VBytes p) ∧ b = enc_str p).
Proof.
  intros Hs r rem lim sz bv ke stk s' v Hb Hp Hr. unfold decodeInterface. unfold mbind at 1, SM_bind at 1.
  destruct (st_Kind _) as [s1 [[k n]|e]] eqn:E; [|done].
  assert (kind_first (decodeListSlice fuel self)) as K1 by (unfold decodeListSlice; kind_first).
  assert (kind_first st_Bytes) as K2 by (unfold st_Bytes; kind_first).
  case_bool_decide; unfold mbind, SM_bind.
  - rewrite (K1 _ _ _ E). destruct (decodeListSlice _ _ _) as [s2 [w|e]] eqn:E2; [|done]. intros [= <- <-].
    apply Hs in E2 as (b & r' & sz' & bv' & ke' & ? & ? & ? & ?); [|done..].
    exists b, r', sz', bv', ke'. split_and!; try done. exists w. by left.
  - rewrite (K2 _ _ _ E). destruct (st_Bytes _) as [s2 [p|e]] eqn:E2; [|done]. intros [= <- <-].
    apply consumes_Bytes in E2 as (b & r' & sz' & bv' & ke' & ? & ? & [? _] & ?); [|done..].
    exists b, r', sz', bv', ke'. split_and!; try done. exists VNil. right. by exists p.
Qed.

Lemma decode_consumes fuel t ts :
  wf_type t → canon t = true → nilOK ts = false → tail_ok ts t →
  consumes (decode fuel t ts) (λ b v, enc v t ts = Some b).
Proof.
  revert t ts. induction fuel as [|fuel IH]; intros t ts Hw Hc Hn Ht; cbn [decode]; [apply consumes_err|].
  assert (∀ t, wf_type t → canon t = true → consumes (decode fuel t no_tags) (λ b v, enc v t no_tags = Some b)) as IH'.
  { intros t' Hw' Hc'. by apply IH. }
  destruct t as [|bits| | | |n| |t|n t|fields|t| |].
  - eapply consumes_then; [apply consumes_Raw|]. by intros b p ->.
  - eapply consumes_then; [by apply consumes_wrap, consumes_uint|]. by intros b p ->.
  - eapply consumes_then; [apply consumes_wrap|].
    + apply (consumes_bind _ _ (λ b v, b = enc_uint v)
        (λ v b (x : bool), b = [] ∧ v = if x then 1 else 0) (λ b x, b = enc_uint (if x then 1 else 0)));
        [apply consumes_uint; by left| |by intros b1 b2 v x -> [-> ->]; rewrite app_nil_r].
      intros v. destruct (Z.eqb_spec v 0); [by apply consumes_ret|].
      destruct (Z.eqb_spec v 1); [by apply consumes_ret|apply consumes_err].
    + by intros b x ->.
  - eapply consumes_then; [apply consumes_wrap, consumes_Bytes|]. by intros b p [-> _].
  - eapply consumes_then; [apply consumes_wrap, consumes_Bytes|]. by intros b p [-> _].
  - eapply consumes_mono; [apply consumes_ByteArray|by intros b v (p & -> & ->)].
    cbn in Hc. by destruct (Nat.eqb_spec n 1).
  - eapply consumes_mono; [apply consumes_BigInt|]. intros b v (z & -> & Hz & ->). cbn.
    by destruct (Z.ltb_spec z 0); [lia|].
  - specialize (IH' t Hw Hc). assert (eol_clean (decode fuel t no_tags)) as He by by apply eol_clean_decode.
    destruct (tail ts) eqn:Et.
    + eapply consumes_then; [by apply consumes_SliceElems|]. intros b l (bs & -> & Hbs). cbn.
      by rewrite (concat_all_Forall2 _ bs), Et.
    + eapply consumes_mono; [by apply consumes_ListSlice|]. intros b v (bs & l & -> & Hbs & ->). cbn.
      by rewrite (concat_all_Forall2 _ bs), Et.
  - specialize (IH' t Hw Hc). eapply consumes_mono.
    { apply (consumes_list (λ _, decodeArrayElems n _) VList); [by right|]. intros _. by apply consumes_ArrayElems. }
    intros b v (c & l & -> & (bs & -> & Hbs) & ->). cbn. rewrite (concat_all_Forall2 _ bs) by done. cbn.
    destruct (tail ts) eqn:Et; [|done]. by specialize (Ht Et).
  - destruct (structFields fields) as [fs|] eqn:Es; [|apply consumes_err]. eapply consumes_mono.
    { apply (consumes_list (λ _, decodeFields _ fs _) VList); [by right|]. intros _.
      by apply (consumes_struct (decode fuel) fields). }
    by intros b v (c & l & -> & He & ->).
  - rewrite Hn. eapply consumes_then; [by apply IH'|]. done.
  - eapply consumes_mono; [apply consumes_Interface, consumes_ListSlice;
      [by apply (IH' TIface)|by apply eol_clean_decode]|].
    intros b v (w & [(-> & bs & l & -> & Hbs & ->)|(p & -> & ->)]); [|done].
    cbn [enc type_ok]. by rewrite (concat_all_Forall2 _ bs).
  - apply consumes_err.
Qed.

(** C30. A value that DecodeBytes returns has the type it was asked for: sizes of
    integers, lengths of arrays, fields of structs in their places. *)
Theorem DecodeBytes_typed fuel t b v :
  wf_type t → Forall is_byte b → DecodeBytes fuel t b = inl v → has_type v t.
Proof. apply DecodeBytes_typed_spec. Qed.

Lemma DecodeBytes_typed_witness :
  has_type (VList [VUint 5; VBytes [97; 98]; VNil])
    (TStruct [(true, no_tags, TUint 8); (true, no_tags, TString); (true, mkTags true false false, TPtr TBool)]).
Proof.
  apply (DecodeBytes_typed 10 (TStruct [(true, no_tags, TUint 8); (true, no_tags, TString);
    (true, mkTags true false false, TPtr TBool)]) [197; 5; 130; 97; 98; 128]).
  - cbn. split_and!; try done. by left.
  - repeat constructor; done.
  - vm_compute. reflexivity.
Defined.

(** C29. RLP decoding is strict. Whatever input of less than 2^64 bytes DecodeBytes
    accepts is the encoding of the value it returns, so no two inputs decode to the same
    value, for every type in which no pointer has a nil tag and no array is a single
    byte. *)
Theorem DecodeBytes_canonical fuel t b v :
  wf_type t → canon t = true → Forall is_byte b → lenZ b < 2 ^ 64 →
  DecodeBytes fuel t b = inl v → EncodeToBytes t v = inl b.
Proof.
  intros Hw Hc Hb Hl Hd. pose proof (DecodeBytes_typed_spec _ _ _ _ Hw Hb Hd) as Ht.
  pose proof (EncodeToBytes_spec t v Ht) as Hs. unfold encoding, DecodeBytes in *.
  destruct (type_ok t) eqn:Hok; [|done].
  destruct (decode fuel t no_tags _) as [s [w|e]] eqn:E; [|done]. destruct (st_r s) eqn:Er; [|done].
  injection Hd as ->. pose proof (lenZ_nonneg b). unfold st_Reset in E.
  apply (decode_consumes fuel t no_tags) in E as (b' & r' & ? & ? & ? & -> & _ & He & ->); try done.
  - cbn in Er. subst r'. rewrite app_nil_r in *. rewrite He in Hs. by apply Hs.
  - intros _. destruct (0 <? lenZ b); lia.
Qed.

Lemma DecodeBytes_canonical_witness :
  EncodeToBytes (TStruct [(true, no_tags, TUint 64); (true, no_tags, TIface)])
    (VList [VUint 300; VIface (TSlice TIface) (VList [VIface TBytes (VBytes [7])])]) =
  inl [197; 130; 1; 44; 193; 7].
Proof.
  apply (DecodeBytes_canonical 10).
  - cbn. split_and!; try done. by right; right; right.
  - reflexivity.
  - repeat constructor; done.
  - reflexivity.
  - vm_compute. reflexivity.
Defined.

(** ** Raw encodings *)

Lemma readSize_ok b rest :
  minimal b → 56 <= be_val b → readSize (b ++ rest) (lenZ b) = inl (be_val b).
Proof.
  intros [Hb H0] Hv. unfold readSize. rewrite lenZ_app. pose proof (lenZ_nonneg rest).
  destruct (Z.ltb_spec (lenZ b + lenZ rest) (lenZ b)); [lia|].
  unfold lenZ. rewrite Nat2Z.id, take_app_length, be_or_val by done.
  destruct (Z.ltb_spec (be_val b) 56); [lia|]. cbn. destruct b as [|x b]; [done|]. cbn in *.
  by rewrite bool_decide_eq_false_2 by congruence.
Qed.

Lemma raw_readKind_head k small large n c rest :
  (k = KString ∧ small = 128 ∧ large = 183 ∨ k = KList ∧ small = 192 ∧ large = 247) →
  lenZ c = n → lenZ (puthead small large n ++ c ++ rest) < 2 ^ 64 → (k = KString → ∀ x, c = [x] → 128 <= x) →
  raw_readKind (puthead small large n ++ c ++ rest) = inl (k, lenZ (puthead small large n), n).
Proof.
  intros Hk <- Hl Hx. pose proof (lenZ_nonneg c). pose proof (lenZ_nonneg rest).
  assert (∀ ts, 0 <= ts → lenZ (puthead small large (lenZ c)) = ts →
    (u64 (lenZ (puthead small large (lenZ c) ++ c ++ rest) - ts) <? lenZ c) = false) as Hfit.
  { intros ts Hts E. rewrite !lenZ_app, E in *. rewrite u64_small by (unfold in_u64; lia). lia. }
  destruct (decide (lenZ c < 56)) as [Hs|Hs].
  - rewrite puthead_small in * by (destruct Hk; lia). specialize (Hfit 1 ltac:(lia) eq_refl).
    cbn [app] in *. unfold raw_readKind.
    replace (small + lenZ c - 128) with (small - 128 + lenZ c) by lia.
    destruct Hk as [(-> & -> & ->)|(-> & -> & ->)].
    all: repeat match goal with |- context [if ?a <? ?b then _ else _] =>
      lazymatch b with lenZ _ => fail | _ => destruct (Z.ltb_spec a b); [try lia|try lia] end end.
    + change (128 - 128 + lenZ c) with (lenZ c). destruct (_ && _) eqn:G.
      * exfalso. bsimp. destruct c as [|x [|y c]]; [done| |unfold lenZ in *; cbn [length] in *; lia].
        cbn in *. specialize (Hx eq_refl x eq_refl). lia.
      * by rewrite Hfit.
    + by rewrite Z.add_simpl_l.
  - rewrite !lenZ_app in Hl. pose proof (lenZ_nonneg (puthead small large (lenZ c))).
    destruct (puthead_large small large (lenZ c)) as [E Hl']; [lia|destruct Hk; lia|].
    destruct (putint_spec (lenZ c)) as (Hm & Hv & _); [lia|].
    assert (lenZ (large + lenZ (putint (lenZ c)) :: putint (lenZ c)) = 1 + lenZ (putint (lenZ c))) as El
      by (unfold lenZ; cbn [length]; lia).
    rewrite E in *. specialize (Hfit (1 + lenZ (putint (lenZ c))) ltac:(lia) El). cbn [app] in *. unfold raw_readKind. rewrite El.
    destruct Hk as [(-> & -> & ->)|(-> & -> & ->)].
    all: repeat match goal with |- context [if ?a <? ?b then _ else _] =>
      lazymatch b with lenZ _ => fail | _ => destruct (Z.ltb_spec a b); [try lia|try lia] end end.
    all: rewrite Z.add_simpl_l, readSize_ok by (done || lia); rewrite Hv, (Z.add_comm (lenZ _) 1), Hfit; done.
Qed.

(** The parts of an encoding that is followed by other bytes. *)
Lemma raw_readKind_value p (list : bool) b rest :
  b = (if list then enc_list p else enc_str p) → (list = false → Forall is_byte p) →
  lenZ (b ++ rest) < 2 ^ 64 →
  ∃ k ts, raw_readKind (b ++ rest) = inl (k, ts, lenZ p) ∧ 0 <= ts ∧ (ts = 0 → list = false) ∧
    bool_decide (k = KList) = list ∧
    drop (Z.to_nat ts) (b ++ rest) = p ++ rest ∧ ts + lenZ p = lenZ b.
Proof.
  intros -> Hp Hl. destruct list.
  - unfold enc_list, list_head in *. rewrite <-app_assoc in *.
    rewrite (raw_readKind_head KList); [|by right|done|done|done].
    pose proof (lenZ_nonneg (puthead 192 247 (lenZ p))) as Hh. do 2 eexists.
    split_and!; try done; [|unfold lenZ; by rewrite Nat2Z.id, drop_app_length|by rewrite lenZ_app].
    intros E. rewrite !lenZ_app in Hl. pose proof (lenZ_nonneg p). pose proof (lenZ_nonneg rest).
    rewrite puthead_length in E by lia. unfold headsize in E. case_match; [lia|].
    rewrite intsize_putint in E by lia. lia.
  - specialize (Hp eq_refl).
    destruct ((lenZ p =? 1) && match p with x :: _ => x <? 128 | [] => false end) eqn:G.
    + apply single_small in G as (x & -> & Hx). rewrite enc_str_byte in * by done. exists KByte, 0. unfold raw_readKind. cbn [app].
      destruct (Z.ltb_spec x 128); [|lia]. change (x :: rest) with ([x] ++ rest) in *.
      rewrite lenZ_app in *. change (lenZ [x]) with 1 in *. pose proof (lenZ_nonneg rest).
      rewrite u64_small by (unfold in_u64; lia). destruct (Z.ltb_spec (1 + lenZ rest - 0) 1); [lia|].
      by split_and!.
    + rewrite enc_str_long in * by done. unfold str_head in *. rewrite <-app_assoc in *.
      rewrite (raw_readKind_head KString); [|by left|done|done|].
      2:{ intros _ x ->. change (lenZ [x]) with 1 in G. cbn in G. lia. }
      pose proof (lenZ_nonneg (puthead 128 183 (lenZ p))). do 2 eexists.
      split_and!; try done; [unfold lenZ; by rewrite Nat2Z.id, drop_app_length|by rewrite lenZ_app].
Qed.

Lemma raw_value_parts b rest :
  raw_value b → lenZ (b ++ rest) < 2 ^ 64 →
  ∃ k ts cs, raw_readKind (b ++ rest) = inl (k, ts, cs) ∧ 0 <= ts ∧ 0 <= cs ∧ ts + cs = lenZ b ∧ 0 < lenZ b.
Proof.
  intros Hb Hl. destruct (raw_value_case b Hb) as (p & list & E & Hp & _).
  destruct (raw_readKind_value p list b rest E Hp Hl) as (k & ts & Ek & H1 & H2 & _ & _ & H3).
  exists k, ts, (lenZ p). pose proof (lenZ_nonneg p). split_and!; try done.
  destruct (decide (ts = 0)) as [->|]; [|lia]. rewrite (H2 eq_refl) in E. subst b.
  destruct p as [|x p]; [done|]. rewrite <-H3. unfold lenZ. cbn [length]. lia.
Qed.

Lemma CountValues_loop_spec bs fuel i :
  Forall raw_value bs → lenZ (mjoin bs) < 2 ^ 64 → (length (mjoin bs) <= fuel)%nat →
  CountValues_loop fuel (mjoin bs) i = inl (i + Z.of_nat (length bs)).
Proof.
  intros H. revert fuel i. induction H as [|b bs Hb _ IH]; intros fuel i Hl Hf.
  { cbn. destruct fuel; cbn; f_equal; lia. }
  change (mjoin (b :: bs)) with (b ++ mjoin bs) in *.
  destruct (raw_value_parts b (mjoin bs) Hb Hl) as (k & ts & cs & E & Hts & Hcs & Hsum & Hpos).
  rewrite length_app in Hf. destruct b as [|x b]; [done|]. cbn [app] in *.
  destruct fuel as [|fuel]; [cbn in Hf; lia|]. cbn [CountValues_loop]. rewrite E, Hsum.
  unfold lenZ at 1. rewrite Nat2Z.id. change (x :: b ++ mjoin bs) with ((x :: b) ++ mjoin bs) in *.
  rewrite drop_app_length, IH; [cbn [length]; f_equal; lia| |cbn [length] in Hf; lia].
  rewrite lenZ_app in Hl. pose proof (lenZ_nonneg (x :: b)). lia.
Qed.

(** [Split] returns the content of the first value and what follows it. *)
Lemma Split_value p (list : bool) rest :
  let b := if list then enc_list p else enc_str p in
  (list = false → Forall is_byte p) → lenZ (b ++ rest) < 2 ^ 64 →
  ∃ k, Split (b ++ rest) = inl (k, p, rest) ∧ bool_decide (k = KList) = list.
Proof.
  intros b Hp Hl. destruct (raw_readKind_value p list b rest eq_refl Hp Hl) as (k & ts & Ek & H1 & _ & Hk & H2 & H3).
  exists k. split; [|done]. unfold Split. rewrite Ek, H2, H3. unfold lenZ.
  rewrite !Nat2Z.id, take_app_length, drop_app_length. done.
Qed.

(** The functions on raw encodings: SplitString and SplitList take the first value apart
    and refuse the other kind, CountValues counts the values that follow each other. *)
Theorem raw_walk p (list : bool) bs :
  let b := if list then enc_list p else enc_str p in
  (list = false → Forall is_byte p) → Forall raw_value bs → lenZ (b ++ mjoin bs) < 2 ^ 64 →
  (if list then SplitList (b ++ mjoin bs) else SplitString (b ++ mjoin bs)) = inl (p, mjoin bs) ∧
  (if list then SplitString (b ++ mjoin bs) = inr ErrExpectedString
   else SplitList (b ++ mjoin bs) = inr ErrExpectedList) ∧
  CountValues (b ++ mjoin bs) = inl (1 + Z.of_nat (length bs)).
Proof.
  intros b Hp Hbs Hl. destruct (Split_value p list (mjoin bs) Hp Hl) as (k & Ek & Hk). fold b in Ek.
  assert (raw_value b) as Hb.
  { subst b. rewrite lenZ_app in Hl. pose proof (lenZ_nonneg (mjoin bs)).
    destruct list; [apply raw_value_list; lia|apply raw_value_str; [lia|by apply Hp]]. }
  split_and!.
  - unfold SplitList, SplitString. rewrite Ek. by destruct list, k.
  - unfold SplitList, SplitString. rewrite Ek. by destruct list, k.
  - unfold CountValues. change (b ++ mjoin bs) with (mjoin (b :: bs)) in *.
    rewrite CountValues_loop_spec; [cbn [length]; f_equal; lia|by constructor|done|lia].
Qed.

Lemma raw_walk_witness :
  SplitList [194; 1; 2; 130; 97; 98; 5] = inl ([1; 2], [130; 97; 98; 5]) ∧
  CountValues [194; 1; 2; 130; 97; 98; 5] = inl 3.
Proof.
  destruct (raw_walk [1; 2] true [[130; 97; 98]; [5]]) as (H1 & _ & H2).
  - done.
  - constructor; [|constructor; [|constructor]].
    + exists [97; 98]. split; [reflexivity|]. left. split; [reflexivity|repeat constructor; done].
    + exists [5]. split; [reflexivity|]. left. split; [reflexivity|repeat constructor; done].
  - reflexivity.
  - split; [exact H1|exact H2].
Defined.
