(* ===== verification/TrieKeys.v ===== *)
(** * Trie keys (trie/encoding.go)

    Keys as bytes, as one nibble per byte with a terminator, and in the compact form that
    is stored; the conversions and the common prefix. *)

From Stdlib Require Import ZArith Lia ZifyBool.
From stdpp Require Import base tactics strings numbers gmap list.
From S2P Require Import Prelude Rlp.

Local Open Scope Z_scope.

Definition hasTerm (s : bytes) : bool := bool_decide (last s = Some 16).

(** [hex[:len(hex)-1]]. *)
Definition chop (s : bytes) : bytes := take (pred (length s)) s.

(** Pairs of nibbles into bytes; an odd nibble at the end is an index out of range. *)
Fixpoint decodeNibbles (nibbles : bytes) : outcome bytes :=
  match nibbles with
  | [] => Ret []
  | [_] => Panic "index out of range"
  | a :: b :: rest =>
      r ← decodeNibbles rest;
      Ret (Z.lor (byte_of (Z.shiftl a 4)) b :: r)
  end.

Definition hexToCompact (hex : bytes) : outcome bytes :=
  let terminator := if hasTerm hex then 1 else 0 in
  let hex := if hasTerm hex then chop hex else hex in
  let flag := byte_of (Z.shiftl terminator 5) in
  match hex with
  | first :: rest =>
      if Nat.odd (length hex) then
        r ← decodeNibbles rest; Ret (Z.lor (Z.lor flag (Z.shiftl 1 4)) first :: r)
      else r ← decodeNibbles hex; Ret (flag :: r)
  | [] => Ret [flag]
  end.

Definition nibbles_of (str : bytes) : bytes := str ≫= λ b, [b / 16; b mod 16].

Definition keybytesToHex (str : bytes) : bytes := nibbles_of str ++ [16].

Definition compactToHex (compact : bytes) : bytes :=
  match compact with
  | [] => compact
  | _ =>
      let base := keybytesToHex compact in
      let first := default 0 (head base) in
      let base := if first <? 2 then chop base else base in
      drop (Z.to_nat (2 - Z.land first 1)) base
  end.

Definition hexToKeybytes (hex : bytes) : outcome bytes :=
  let hex := if hasTerm hex then chop hex else hex in
  if Nat.odd (length hex) then Panic "can't convert hex key of odd length" else decodeNibbles hex.

Fixpoint prefixLen (a b : bytes) : nat :=
  match a, b with
  | x :: a, y :: b => if x =? y then S (prefixLen a b) else O
  | _, _ => O
  end.

(** ** Lemmas *)

Definition nib (x : Z) : Prop := 0 <= x < 16.

(** A key that ends in a terminator. *)
Definition hexkey (k : bytes) : Prop := ∃ p, Forall nib p ∧ k = p ++ [16].

Lemma chop_snoc s x : chop (s ++ [x]) = s.
Proof. unfold chop. rewrite length_app, Nat.add_1_r. cbn [pred]. by rewrite take_app_length. Qed.

Lemma hasTerm_snoc s x : hasTerm (s ++ [x]) = (x =? 16).
Proof.
  unfold hasTerm. rewrite last_snoc. destruct (Z.eqb_spec x 16) as [->|].
  - by apply bool_decide_eq_true_2.
  - apply bool_decide_eq_false_2. congruence.
Qed.

Lemma hasTerm_nibs p : Forall nib p → hasTerm p = false.
Proof.
  destruct p as [|x p _] using rev_ind; [done|]. rewrite Forall_app, hasTerm_snoc.
  intros [_ H]. inversion H as [|? ? Hx]; subst. unfold nib in Hx. lia.
Qed.

Lemma hexkey_term k : hexkey k → hasTerm k = true.
Proof. intros (p & _ & ->). by rewrite hasTerm_snoc. Qed.

Lemma nib_byte a b : nib a → nib b → Z.lor (byte_of (Z.shiftl a 4)) b = 16 * a + b ∧ is_byte (16 * a + b).
Proof.
  unfold nib, is_byte. intros Ha Hb. rewrite Z.shiftl_mul_pow2 by lia. rewrite byte_of_small by lia.
  rewrite <-Z.shiftl_mul_pow2 by lia. rewrite (lor_shiftl_add a b 4) by lia. lia.
Qed.

Lemma div_mod_16 a b : nib a → nib b → (16 * a + b) / 16 = a ∧ (16 * a + b) mod 16 = b.
Proof. unfold nib. intros. split; dlia. Qed.

Lemma nibbles_of_cons x s : nibbles_of (x :: s) = x / 16 :: x mod 16 :: nibbles_of s.
Proof. reflexivity. Qed.

Lemma nibbles_of_length s : length (nibbles_of s) = (2 * length s)%nat.
Proof. induction s as [|x s IH]; [done|]. rewrite nibbles_of_cons. cbn [length]. lia. Qed.

Lemma nibbles_of_nibs s : Forall is_byte s → Forall nib (nibbles_of s).
Proof.
  induction 1 as [|x s Hx _ IH]; [constructor|]. rewrite nibbles_of_cons. unfold is_byte in Hx.
  repeat constructor; try done; dlia.
Qed.

(** Two steps at a time. *)
Lemma even_list_ind {A} (P : list A → Prop) :
  P [] → (∀ x y l, P l → P (x :: y :: l)) → ∀ l, Nat.even (length l) = true → P l.
Proof.
  intros H0 H2. fix IH 1. intros [|x [|y l]] Hl; [done|done|]. apply H2, IH, Hl.
Qed.

Lemma decodeNibbles_ok p :
  Forall nib p → Nat.even (length p) = true →
  ∃ r, decodeNibbles p = Ret r ∧ Forall is_byte r ∧ nibbles_of r = p ∧ length p = (2 * length r)%nat.
Proof.
  intros Hp Hl. revert Hp. pattern p. apply even_list_ind; [..|exact Hl]; clear p Hl.
  - intros _. by exists [].
  - intros x y p IH Hp. inversion Hp as [|? ? Hx Hp1]; subst. inversion Hp1 as [|? ? Hy Hp2]; subst.
    destruct (IH Hp2) as (r & E & Hr & Hn & Hl). cbn. rewrite E. cbn.
    destruct (nib_byte x y Hx Hy) as [-> Hb]. exists (16 * x + y :: r). split_and!; [done|by constructor| |cbn [length]; lia].
    rewrite nibbles_of_cons, Hn. by destruct (div_mod_16 x y Hx Hy) as [-> ->].
Qed.

Lemma decodeNibbles_nibbles s : Forall is_byte s → decodeNibbles (nibbles_of s) = Ret s.
Proof.
  induction 1 as [|x s Hx _ IH]; [done|]. rewrite nibbles_of_cons. cbn. rewrite IH. cbn.
  unfold is_byte in Hx. destruct (nib_byte (x / 16) (x mod 16)) as [-> _]; [unfold nib; dlia..|].
  do 2 f_equal. dlia.
Qed.

Lemma keybytesToHex_key s : Forall is_byte s → hexkey (keybytesToHex s).
Proof. intros H. exists (nibbles_of s). split; [by apply nibbles_of_nibs|done]. Qed.

(** Bytes to hex and back. *)
Lemma hexToKeybytes_keybytesToHex s : Forall is_byte s → hexToKeybytes (keybytesToHex s) = Ret s.
Proof.
  intros H. unfold hexToKeybytes, keybytesToHex. rewrite hasTerm_snoc, chop_snoc. cbn.
  rewrite nibbles_of_length, Nat.odd_mul. cbn. by apply decodeNibbles_nibbles.
Qed.

Lemma keybytesToHex_inj s1 s2 :
  Forall is_byte s1 → Forall is_byte s2 → keybytesToHex s1 = keybytesToHex s2 → s1 = s2.
Proof.
  intros H1 H2 E. apply hexToKeybytes_keybytesToHex in H1, H2. rewrite E, H2 in H1. congruence.
Qed.

(** The flag byte and the nibbles behind it. *)
Lemma compactToHex_flag fl first r :
  0 <= fl < 4 → (fl mod 2 = 0 → first = 0) → nib first →
  compactToHex (16 * fl + first :: r) =
    (if fl mod 2 =? 0 then [] else [first]) ++ nibbles_of r ++ (if fl <? 2 then [] else [16]).
Proof.
  intros Hf H0 Hn. unfold compactToHex, keybytesToHex. rewrite nibbles_of_cons.
  destruct (div_mod_16 fl first) as [-> ->]; [unfold nib; lia|done|]. cbn [app head default].
  change (fl :: first :: nibbles_of r ++ [16]) with ((fl :: first :: nibbles_of r) ++ [16]).
  rewrite chop_snoc.
  assert (fl = 0 ∨ fl = 1 ∨ fl = 2 ∨ fl = 3) as [-> | [-> | [-> | ->]]] by lia; cbn; rewrite ?app_nil_r; done.
Qed.

Lemma compact_nibs p (t : bool) :
  Forall nib p →
  ∃ c, hexToCompact (if t then p ++ [16] else p) = Ret c ∧ Forall is_byte c ∧
    compactToHex c = (if t then p ++ [16] else p) ∧ lenZ c = lenZ p / 2 + 1.
Proof.
  intros Hp.
  assert (hasTerm (if t then p ++ [16] else p) = t) as Ht
    by (destruct t; [by rewrite hasTerm_snoc|by apply hasTerm_nibs]).
  unfold hexToCompact. rewrite Ht.
  assert ((if t then chop (if t then p ++ [16] else p) else if t then p ++ [16] else p) = p) as ->
    by (destruct t; [by rewrite chop_snoc|done]).
  destruct p as [|x p].
  - exists [if t then 32 else 0]. destruct t; split_and!; try done; repeat constructor; done.
  - destruct (Nat.odd (length (x :: p))) eqn:Ho.
    + inversion Hp as [|? ? Hx Hp']; subst. destruct (decodeNibbles_ok p Hp') as (r & -> & Hr & Hn & Hl).
      { cbn [length] in Ho. by rewrite Nat.odd_succ in Ho. }
      assert (Z.lor (Z.lor (byte_of (Z.shiftl (if t then 1 else 0) 5)) (Z.shiftl 1 4)) x =
        16 * (if t then 3 else 1) + x) as E.
      { unfold nib in Hx. replace (Z.lor (byte_of (Z.shiftl (if t then 1 else 0) 5)) (Z.shiftl 1 4)) with
          (Z.shiftl (if t then 3 else 1) 4) by (by destruct t).
        rewrite (lor_shiftl_add _ x 4) by lia. lia. }
      cbn [mbind outcome_bind]. rewrite E. eexists. split; [done|].
      split; [constructor; [|done]; unfold nib, is_byte in *; destruct t; lia|].
      rewrite compactToHex_flag; [|destruct t; lia|destruct t; done|done]. rewrite Hn.
      split; [by destruct t; rewrite ?app_nil_r|]. unfold lenZ. cbn [length]. rewrite Hl.
      rewrite Nat2Z.inj_succ. dlia.
    + assert (Nat.even (length (x :: p)) = true) as He by (by rewrite <-Nat.negb_odd, Ho).
      destruct (decodeNibbles_ok (x :: p) Hp He) as (r & -> & Hr & Hn & Hl).
      cbn [mbind outcome_bind]. replace (byte_of (Z.shiftl (if t then 1 else 0) 5)) with
        (16 * (if t then 2 else 0) + 0) by (by destruct t). eexists. split; [done|].
      split; [constructor; [|done]; unfold is_byte; destruct t; lia|].
      rewrite compactToHex_flag; [|destruct t; lia|done|done]. rewrite Hn.
      split; [by destruct t; rewrite ?app_nil_r|]. unfold lenZ. cbn [length] in *. dlia.
Qed.

Lemma compactToHex_hexToCompact k :
  hexkey k ∨ Forall nib k →
  ∃ c, hexToCompact k = Ret c ∧ Forall is_byte c ∧ compactToHex c = k ∧ lenZ c <= lenZ k + 1.
Proof.
  intros [(p & Hp & ->)|Hp].
  - destruct (compact_nibs p true Hp) as (c & E & Hb & Hc & Hl). exists c. split_and!; try done.
    rewrite lenZ_app. pose proof (lenZ_nonneg p). change (lenZ [16]) with 1. dlia.
  - destruct (compact_nibs k false Hp) as (c & E & Hb & Hc & Hl). exists c. split_and!; try done.
    pose proof (lenZ_nonneg k). dlia.
Qed.

(** ** Common prefixes *)

Lemma prefixLen_le a b : (prefixLen a b <= length a)%nat ∧ (prefixLen a b <= length b)%nat.
Proof.
  revert b. induction a as [|x a IH]; intros [|y b]; cbn; [lia..|]. destruct (x =? y); cbn; [|lia].
  specialize (IH b). lia.
Qed.

Lemma prefixLen_take a b : take (prefixLen a b) a = take (prefixLen a b) b.
Proof.
  revert b. induction a as [|x a IH]; intros [|y b]; cbn; [done..|].
  destruct (Z.eqb_spec x y) as [->|]; cbn; [|done]. by rewrite IH.
Qed.

Lemma prefixLen_diff a b x y :
  a !! prefixLen a b = Some x → b !! prefixLen a b = Some y → x ≠ y.
Proof.
  revert b. induction a as [|x' a IH]; intros [|y' b]; cbn; try done.
  destruct (Z.eqb_spec x' y') as [->|Hne]; cbn; [apply IH|]. congruence.
Qed.

Lemma prefixLen_app p a b : prefixLen (p ++ a) (p ++ b) = (length p + prefixLen a b)%nat.
Proof. induction p as [|x p IH]; [done|]. cbn. by rewrite Z.eqb_refl, IH. Qed.

(** The two keys at the point where they part. *)
Lemma prefixLen_split a b :
  ∃ p a' b', a = p ++ a' ∧ b = p ++ b' ∧ prefixLen a b = length p ∧
    (∀ x y, head a' = Some x → head b' = Some y → x ≠ y).
Proof.
  exists (take (prefixLen a b) a), (drop (prefixLen a b) a), (drop (prefixLen a b) b).
  split_and!; [by rewrite take_drop|by rewrite prefixLen_take, take_drop| |].
  - rewrite length_take. pose proof (prefixLen_le a b). lia.
  - intros x y Hx Hy. rewrite !head_lookup, !lookup_drop, !Nat.add_0_r in *.
    by eapply prefixLen_diff.
Qed.
