(* ===== verification/Trie.v ===== *)
(** * The Merkle Patricia trie (trie/trie.go, trie/node.go)

    The nodes of a trie as they are in memory, where subtries that are not loaded are
    hash nodes, and the operations on them: lookup, insertion and deletion.  A trie is
    related to a tree without hash nodes; the theorems say that the operations are those
    of a finite map on this tree, that the tree stays in its minimal form, and that the
    minimal form is determined by the map. *)

From Stdlib Require Import ZArith Lia ZifyBool.
From stdpp Require Import base tactics strings numbers gmap list.
From S2P Require Import Prelude Rlp TrieKeys.

Local Open Scope Z_scope.

(** ** Nodes *)

Record nodeFlag := mkFlag { nf_hash : option bytes; nf_dirty : bool }.

(** [nilNode] is a nil interface. *)
Inductive node :=
| nilNode
| fullNode (Children : list node) (flags : nodeFlag)
| shortNode (Key : bytes) (Val : node) (flags : nodeFlag)
| hashNode (hash : bytes)
| valueNode (value : bytes).

Definition newFlag : nodeFlag := mkFlag None true.

(** [common.BytesToHash]: the last 32 bytes, filled with zeros on the left. *)
Definition BytesToHash (b : bytes) : bytes :=
  if (32 <? length b)%nat then drop (length b - 32) b else replicate (32 - length b) 0 ++ b.

(** ** Results: a value, a missing node, or a run-time panic *)

Inductive trieErr :=
| MissingNodeError (hash path : bytes)
| TriePanic (why : string)
| TrieFuel.

Definition TR (A : Type) : Type := A + trieErr.

#[global] Instance TR_ret : MRet TR := λ A a, inl a.
#[global] Instance TR_bind : MBind TR := λ A B f m,
  match m with inl a => f a | inr e => inr e end.

Definition fail {A} (e : trieErr) : TR A := inr e.

(** ** The operations

    [db_node] is [Database.node].  A hash node that is resolved is never followed by
    another one without a nibble in between; the fuel of [fuel_for] is enough. *)

Definition fuel_for (key : bytes) : nat := 2 * length key + 3.

Section operations.
  Context (db_node : bytes → outcome (option node)).

Definition resolveHash (n : bytes) (prefix : bytes) : TR node :=
  match db_node (BytesToHash n) with
  | Ret (Some n) => mret n
  | Ret None => fail (MissingNodeError (BytesToHash n) prefix)
  | Panic w => fail (TriePanic w)
  end.

Definition resolve (n : node) (prefix : bytes) : TR node :=
  match n with
  | hashNode h => resolveHash h prefix
  | _ => mret n
  end.

Definition child (cs : list node) (i : Z) : TR node :=
  match (if bool_decide (0 <= i) then cs !! Z.to_nat i else None) with
  | Some n => mret n
  | None => fail (TriePanic "index out of range")
  end.

(** The value, the node with what was loaded, and whether something was loaded. *)
Fixpoint tryGet (fuel : nat) (origNode : node) (key : bytes) (pos : nat)
    : TR (option bytes * node * bool) :=
  match fuel with
  | O => fail TrieFuel
  | S fuel =>
      match origNode with
      | nilNode => mret (None, nilNode, false)
      | valueNode v => mret (Some v, origNode, false)
      | shortNode k val fl =>
          if (length key - pos <? length k)%nat || negb (bytes_Equal k (take (length k) (drop pos key)))
          then mret (None, origNode, false)
          else
            r ← tryGet fuel val key (pos + length k);
            let '(value, newnode, didResolve) := r in
            mret (value, if (didResolve : bool) then shortNode k newnode fl else origNode, didResolve)
      | fullNode cs fl =>
          match key !! pos with
          | None => fail (TriePanic "index out of range")
          | Some x =>
              c ← child cs x;
              r ← tryGet fuel c key (pos + 1);
              let '(value, newnode, didResolve) := r in
              mret (value, if (didResolve : bool) then fullNode (<[Z.to_nat x := newnode]> cs) fl
                           else origNode, didResolve)
          end
      | hashNode h =>
          side ← resolveHash h (take pos key);
          r ← tryGet fuel side key pos;
          let '(value, newnode, _) := r in
          mret (value, newnode, true)
      end
  end.

(** Whether the trie changed, and the new node. *)
Fixpoint insert (fuel : nat) (n : node) (prefix key : bytes) (value : node) : TR (bool * node) :=
  match fuel with
  | O => fail TrieFuel
  | S fuel =>
      match key with
      | [] =>
          match n, value with
          | valueNode v, valueNode w => mret (negb (bytes_Equal v w), value)
          | valueNode _, _ => fail (TriePanic "interface conversion")
          | _, _ => mret (true, value)
          end
      | x :: rest =>
          match n with
          | shortNode k val fl =>
              let matchlen := prefixLen key k in
              if (matchlen =? length k)%nat then
                r ← insert fuel val (prefix ++ take matchlen key) (drop matchlen key) value;
                let '(dirty, nn) := r in
                mret (if (dirty : bool) then (true, shortNode k nn newFlag) else (false, n))
              else
                match k !! matchlen, key !! matchlen with
                | Some kx, Some keyx =>
                    r1 ← insert fuel nilNode (prefix ++ take (matchlen + 1) k) (drop (matchlen + 1) k) val;
                    r2 ← insert fuel nilNode (prefix ++ take (matchlen + 1) key) (drop (matchlen + 1) key) value;
                    if bool_decide (0 <= kx <= 16) && bool_decide (0 <= keyx <= 16) then
                      let branch := fullNode (<[Z.to_nat keyx := r2.2]>
                        (<[Z.to_nat kx := r1.2]> (replicate 17 nilNode))) newFlag in
                      mret (true, if (matchlen =? 0)%nat then branch
                                  else shortNode (take matchlen key) branch newFlag)
                    else fail (TriePanic "index out of range")
                | _, _ => fail (TriePanic "index out of range")
                end
          | fullNode cs fl =>
              c ← child cs x;
              r ← insert fuel c (prefix ++ [x]) rest value;
              let '(dirty, nn) := r in
              mret (if (dirty : bool) then (true, fullNode (<[Z.to_nat x := nn]> cs) newFlag)
                    else (false, n))
          | nilNode => mret (true, shortNode key value newFlag)
          | hashNode h =>
              rn ← resolveHash h prefix;
              r ← insert fuel rn prefix key value;
              let '(dirty, nn) := r in
              mret (if (dirty : bool) then (true, nn) else (false, rn))
          | valueNode _ => fail (TriePanic "invalid node")
          end
      end
  end.

Definition is_nil (n : node) : bool := match n with nilNode => true | _ => false end.

(** The loop of [delete] over the children: the index of the only one that is not nil. *)
Fixpoint only_child (cs : list node) (i : nat) (pos : option nat) : option nat :=
  match cs with
  | [] => pos
  | c :: cs =>
      if is_nil c then only_child cs (S i) pos
      else match pos with
           | None => only_child cs (S i) (Some i)
           | Some _ => None
           end
  end.

(** What is left of a full node after a child was deleted. *)
Definition reduce (cs : list node) (prefix : bytes) : TR node :=
  match only_child cs 0 None with
  | None => mret (fullNode cs newFlag)
  | Some pos =>
      c ← child cs (Z.of_nat pos);
      cnode ← (if (pos =? 16)%nat then mret nilNode else resolve c prefix);
      match cnode with
      | shortNode k val _ => mret (shortNode (Z.of_nat pos :: k) val newFlag)
      | _ => mret (shortNode [Z.of_nat pos] c newFlag)
      end
  end.

Fixpoint delete (fuel : nat) (n : node) (prefix key : bytes) : TR (bool * node) :=
  match fuel with
  | O => fail TrieFuel
  | S fuel =>
      match n with
      | shortNode k val fl =>
          let matchlen := prefixLen key k in
          if (matchlen <? length k)%nat then mret (false, n)
          else if (matchlen =? length key)%nat then mret (true, nilNode)
          else
            r ← delete fuel val (prefix ++ take (length k) key) (drop (length k) key);
            let '(dirty, side) := r in
            if negb dirty then mret (false, n)
            else mret (true, match side with
                             | shortNode k' val' _ => shortNode (k ++ k') val' newFlag
                             | _ => shortNode k side newFlag
                             end)
      | fullNode cs fl =>
          match key with
          | [] => fail (TriePanic "index out of range")
          | x :: rest =>
              c ← child cs x;
              r ← delete fuel c (prefix ++ [x]) rest;
              let '(dirty, nn) := r in
              if negb dirty then mret (false, n)
              else n' ← reduce (<[Z.to_nat x := nn]> cs) prefix; mret (true, n')
          end
      | valueNode _ => mret (true, nilNode)
      | nilNode => mret (false, nilNode)
      | hashNode h =>
          rn ← resolveHash h prefix;
          r ← delete fuel rn prefix key;
          let '(dirty, nn) := r in
          mret (if (dirty : bool) then (true, nn) else (false, rn))
      end
  end.

(** ** The trie: its root *)

Definition TryGet (root : node) (key : bytes) : TR (option bytes * node) :=
  let key := keybytesToHex key in
  r ← tryGet (fuel_for key) root key 0;
  let '(value, newroot, didResolve) := r in
  mret (value, if (didResolve : bool) then newroot else root).

Definition TryDelete (root : node) (key : bytes) : TR node :=
  let k := keybytesToHex key in
  r ← delete (fuel_for k) root [] k;
  mret r.2.

Definition TryUpdate (root : node) (key value : bytes) : TR node :=
  let k := keybytesToHex key in
  if (0 <? length value)%nat then
    r ← insert (fuel_for k) root [] k (valueNode value);
    mret r.2
  else
    r ← delete (fuel_for k) root [] k;
    mret r.2.

End operations.

(** ** Trees

    A trie without hash nodes and flags. *)

Inductive tree :=
| TNil
| TVal (v : bytes)
| TShort (k : bytes) (t : tree)
| TFull (cs : list tree).

Lemma tree_ind' (P : tree → Prop) :
  P TNil → (∀ v, P (TVal v)) → (∀ k t, P t → P (TShort k t)) → (∀ cs, Forall P cs → P (TFull cs)) →
  ∀ t, P t.
Proof.
  intros HN HV HS HF. fix IH 1. intros [|v|k t|cs]; [apply HN|apply HV|apply HS, IH|apply HF].
  induction cs as [|c cs IHc]; constructor; [apply IH|exact IHc].
Qed.

Fixpoint strip (p k : bytes) : option bytes :=
  match p, k with
  | [], _ => Some k
  | x :: p, y :: k => if x =? y then strip p k else None
  | _ :: _, [] => None
  end.

(** The value of a key in hex form. *)
Fixpoint tget (t : tree) (k : bytes) : option bytes :=
  match t with
  | TNil => None
  | TVal v => match k with [] => Some v | _ => None end
  | TShort p t => match strip p k with Some k => tget t k | None => None end
  | TFull cs =>
      match k with
      | [] => None
      | x :: k => match ((λ c, tget c) <$> cs) !! Z.to_nat x with Some f => f k | None => None end
      end
  end.

Definition tnil (t : tree) : bool := match t with TNil => true | _ => false end.

(** How many children there are. *)
Fixpoint occupied (cs : list tree) : nat :=
  match cs with
  | [] => O
  | c :: cs => if tnil c then occupied cs else S (occupied cs)
  end.

(** The minimal form: a short node leads to a value with the end of the key, or to a full
    node; a full node has two children at least, and values only under the terminator. *)
Inductive minimal_tree : tree → Prop :=
| min_leaf k v : hexkey k → v ≠ [] → minimal_tree (TShort k (TVal v))
| min_ext k cs : k ≠ [] → Forall nib k → minimal_tree (TFull cs) → minimal_tree (TShort k (TFull cs))
| min_full cs :
    length cs = 17%nat →
    (∀ i c, cs !! i = Some c → (i < 16)%nat → c = TNil ∨ minimal_tree c) →
    (∀ c, cs !! 16%nat = Some c → c = TNil ∨ ∃ v, c = TVal v ∧ v ≠ []) →
    (2 <= occupied cs)%nat → minimal_tree (TFull cs).

Definition root_tree (t : tree) : Prop := t = TNil ∨ minimal_tree t.

(** *** Lookups *)

Lemma strip_app p k : strip p (p ++ k) = Some k.
Proof. induction p as [|x p IH]; [done|]. cbn. by rewrite Z.eqb_refl. Qed.

Lemma strip_Some p k k' : strip p k = Some k' ↔ k = p ++ k'.
Proof.
  split; [|intros ->; apply strip_app]. revert k. induction p as [|x p IH]; intros [|y k] E; cbn in E; try done.
  - by injection E as <-.
  - by injection E as <-.
  - destruct (Z.eqb_spec x y) as [->|]; [|done]. cbn. by rewrite (IH k).
Qed.

Lemma strip_app_both p q k : strip (p ++ q) (p ++ k) = strip q k.
Proof. induction p as [|x p IH]; [done|]. cbn. by rewrite Z.eqb_refl. Qed.

Lemma strip_comp p q k : strip (p ++ q) k = strip p k ≫= strip q.
Proof.
  revert k. induction p as [|x p IH]; intros [|y k]; cbn; try done. destruct (x =? y); [apply IH|done].
Qed.

Lemma tget_full cs x k :
  tget (TFull cs) (x :: k) = match cs !! Z.to_nat x with Some c => tget c k | None => None end.
Proof. cbn. rewrite list_lookup_fmap. by destruct (cs !! Z.to_nat x). Qed.

Lemma tget_short p t k : tget (TShort p t) k = match strip p k with Some k => tget t k | None => None end.
Proof. reflexivity. Qed.

Lemma tget_short_app p q t k : tget (TShort (p ++ q) t) k = tget (TShort p (TShort q t)) k.
Proof. cbn. rewrite strip_comp. by destruct (strip p k). Qed.

Lemma hexkey_cons x k : hexkey (x :: k) ↔ (x = 16 ∧ k = []) ∨ (nib x ∧ hexkey k).
Proof.
  split.
  - intros ([|y p] & Hp & E); cbn in E; injection E as -> ->; [by left|]. inversion Hp; subst.
    right. split; [done|]. by exists p.
  - intros [[-> ->]|[Hx (p & Hp & ->)]]; [by exists []|]. exists (x :: p). split; [by constructor|done].
Qed.

Lemma hexkey_nonempty : ¬ hexkey [].
Proof. intros (p & _ & E). by destruct p. Qed.

Lemma hexkey_app p k : Forall nib p → hexkey (p ++ k) ↔ hexkey k.
Proof.
  induction 1 as [|x p Hx _ IH]; [done|]. cbn. rewrite hexkey_cons, IH. unfold nib in Hx. split.
  - intros [[-> _]|[_ H]]; [lia|done].
  - intros H. right. by split.
Qed.

(** No hex key is a proper prefix of another. *)
Lemma hexkey_prefix k r : hexkey k → hexkey (k ++ r) → r = [].
Proof. intros (p & Hp & ->). rewrite <-app_assoc, (hexkey_app p) by done. cbn. rewrite hexkey_cons. intros [[_ ?]|[H _]]; [done|unfold nib in H; lia]. Qed.

(** A node holds values only under hex keys. *)
Lemma occupied_lookup cs : (1 <= occupied cs)%nat → ∃ i c, cs !! i = Some c ∧ c ≠ TNil.
Proof.
  induction cs as [|c cs IH]; cbn; [lia|]. destruct c; cbn; [|by exists O, (TVal v)|by exists O, (TShort k c)|by exists O, (TFull cs0)].
  intros H. destruct (IH H) as (i & c & Hi & Hc). by exists (S i), c.
Qed.

Lemma occupied_two cs : (2 <= occupied cs)%nat →
  ∃ i j c d, cs !! i = Some c ∧ cs !! j = Some d ∧ i ≠ j ∧ c ≠ TNil ∧ d ≠ TNil.
Proof.
  induction cs as [|c cs IH]; cbn; [lia|]. destruct (tnil c) eqn:E; intros H.
  - destruct (IH H) as (i & j & c' & d & ? & ? & ? & ? & ?). exists (S i), (S j), c', d. split_and!; try done. lia.
  - destruct (occupied_lookup cs) as (j & d & Hj & Hd); [lia|]. exists O, (S j), c, d.
    split_and!; try done. by intros ->.
Qed.

Lemma minimal_full_inv cs :
  minimal_tree (TFull cs) →
  length cs = 17%nat ∧
  (∀ i c, cs !! i = Some c → (i < 16)%nat → c = TNil ∨ minimal_tree c) ∧
  (∀ c, cs !! 16%nat = Some c → c = TNil ∨ ∃ v, c = TVal v ∧ v ≠ []) ∧
  (2 <= occupied cs)%nat.
Proof. by inversion 1. Qed.

Lemma minimal_child cs i c :
  minimal_tree (TFull cs) → cs !! i = Some c → c ≠ TNil →
  (i < 16)%nat ∧ minimal_tree c ∨ i = 16%nat ∧ ∃ v, c = TVal v ∧ v ≠ [].
Proof.
  intros H Hi Hc. destruct (minimal_full_inv cs H) as (Hl & H1 & H2 & H3). pose proof (lookup_lt_Some _ _ _ Hi).
  destruct (decide (i = 16%nat)) as [->|].
  - right. split; [done|]. by destruct (H2 _ Hi).
  - left. split; [lia|]. destruct (H1 _ _ Hi); [lia|done|done].
Qed.

Lemma minimal_has_key t : minimal_tree t → ∃ k v, hexkey k ∧ tget t k = Some v.
Proof.
  induction t as [|v|k t IH|cs IH] using tree_ind'; intros H; try by inversion H.
  - inversion H as [? v Hk Hv|? cs Hk Hn Hf|]; subst.
    + exists k, v. split; [done|]. cbn. rewrite <-(app_nil_r k) at 2. by rewrite strip_app.
    + destruct (IH Hf) as (k' & v & Hk' & Hv). exists (k ++ k'), v. rewrite hexkey_app by done.
      split; [done|]. change (match strip k (k ++ k') with Some k0 => tget (TFull cs) k0 | None => None end = Some v).
      by rewrite strip_app.
  - destruct (minimal_full_inv cs H) as (Hl & H1 & H2 & H3). destruct (occupied_lookup cs) as (i & c & Hi & Hc); [lia|].
    destruct (minimal_child _ _ _ H Hi Hc) as [[Hlt Hm]|[-> (v & -> & Hv)]].
    + rewrite Forall_forall in IH. destruct (IH c) as (k & v & Hk & Hv); [by eapply list_elem_of_lookup_2|done|].
      exists (Z.of_nat i :: k), v. rewrite tget_full, Nat2Z.id, Hi. split; [|done].
      apply hexkey_cons. right. split; [unfold nib; lia|done].
    + exists [16], v. split; [by exists []|]. rewrite tget_full. by change (Z.to_nat 16) with 16%nat; rewrite Hi.
Qed.

Lemma child_has_key cs i c :
  minimal_tree (TFull cs) → cs !! i = Some c → c ≠ TNil →
  ∃ k v, hexkey (Z.of_nat i :: k) ∧ tget (TFull cs) (Z.of_nat i :: k) = Some v.
Proof.
  intros H Hi Hc. destruct (minimal_child _ _ _ H Hi Hc) as [[Hlt Hm]|[-> (v & -> & Hv)]].
  - destruct (minimal_has_key c Hm) as (k & v & Hk & Hv). exists k, v. rewrite tget_full, Nat2Z.id, Hi.
    split; [|done]. apply hexkey_cons. right. split; [unfold nib; lia|done].
  - exists [], v. split; [by exists []|]. by rewrite tget_full, Nat2Z.id, Hi.
Qed.

(** A full node has keys that differ in their first nibble. *)
Lemma full_two_keys cs :
  minimal_tree (TFull cs) → ∃ x y k1 k2 v1 v2, x ≠ y ∧ hexkey (x :: k1) ∧ hexkey (y :: k2) ∧
    tget (TFull cs) (x :: k1) = Some v1 ∧ tget (TFull cs) (y :: k2) = Some v2.
Proof.
  intros H. destruct (minimal_full_inv cs H) as (_ & _ & _ & H3).
  destruct (occupied_two cs H3) as (i & j & c & d & Hi & Hj & Hne & Hc & Hd).
  destruct (child_has_key _ _ _ H Hi Hc) as (k1 & v1 & ? & ?).
  destruct (child_has_key _ _ _ H Hj Hd) as (k2 & v2 & ? & ?).
  exists (Z.of_nat i), (Z.of_nat j), k1, k2, v1, v2. split_and!; try done. lia.
Qed.

Lemma tget_ext k cs r : tget (TShort k (TFull cs)) (k ++ r) = tget (TFull cs) r.
Proof. change (match strip k (k ++ r) with Some k0 => tget (TFull cs) k0 | None => None end = tget (TFull cs) r). by rewrite strip_app. Qed.

Lemma tget_ext_Some k t r v : tget (TShort k t) r = Some v → ∃ r', r = k ++ r' ∧ tget t r' = Some v.
Proof. cbn. destruct (strip k r) as [r'|] eqn:E; [|done]. apply strip_Some in E as ->. intros. by exists r'. Qed.

(** The keys of an extension agree on its nibbles and no further. *)
Lemma ext_prefix k k' cs cs' x a :
  minimal_tree (TFull cs) → Forall nib k → k' = k ++ x :: a →
  ¬ ∀ r, hexkey r → tget (TShort k (TFull cs)) r = tget (TShort k' (TFull cs')) r.
Proof.
  intros H Hk -> Hall. destruct (full_two_keys cs H) as (y1 & y2 & k1 & k2 & v1 & v2 & Hne & H1 & H2 & E1 & E2).
  assert (∀ y r v, hexkey (y :: r) → tget (TFull cs) (y :: r) = Some v → y = x) as Hx.
  { intros y r v Hy E. specialize (Hall (k ++ y :: r)). rewrite hexkey_app, tget_ext, E in Hall by done.
    specialize (Hall Hy). symmetry in Hall. apply tget_ext_Some in Hall as (r' & Er & _).
    rewrite <-app_assoc in Er. apply app_inv_head in Er. by injection Er as ->. }
  apply Hne. by rewrite (Hx _ _ _ H1 E1), (Hx _ _ _ H2 E2).
Qed.

Lemma ext_unique k k' cs cs' :
  minimal_tree (TFull cs) → minimal_tree (TFull cs') → Forall nib k → Forall nib k' →
  (∀ r, hexkey r → tget (TShort k (TFull cs)) r = tget (TShort k' (TFull cs')) r) →
  k = k' ∧ ∀ r, hexkey r → tget (TFull cs) r = tget (TFull cs') r.
Proof.
  intros H H' Hk Hk' Hall. assert (k = k') as <-.
  { destruct (prefixLen_split k k') as (p & a & b & -> & -> & _ & Hd). destruct a as [|x a], b as [|y b].
    - done.
    - exfalso. rewrite app_nil_r in *. by apply (ext_prefix p (p ++ y :: b) cs cs' y b).
    - exfalso. rewrite app_nil_r in *. apply (ext_prefix p (p ++ x :: a) cs' cs x a); [done..|].
      intros r Hr. by rewrite Hall.
    - exfalso. destruct (minimal_has_key _ H) as (r & v & Hr & Hv). specialize (Hall ((p ++ x :: a) ++ r)).
      rewrite hexkey_app, tget_ext, Hv in Hall by done. specialize (Hall Hr). symmetry in Hall.
      apply tget_ext_Some in Hall as (r' & Er & _). rewrite <-!app_assoc in Er. apply app_inv_head in Er.
      injection Er as ->. by apply (Hd y y). }
  split; [done|]. intros r Hr. specialize (Hall (k ++ r)). rewrite hexkey_app, !tget_ext in Hall by done. auto.
Qed.

Lemma tget_leaf k v r : tget (TShort k (TVal v)) r = if bool_decide (r = k) then Some v else None.
Proof.
  cbn. destruct (strip k r) as [r'|] eqn:E.
  - apply strip_Some in E as ->. destruct r' as [|x r']; cbn.
    + by rewrite app_nil_r, bool_decide_eq_true_2.
    + rewrite bool_decide_eq_false_2; [done|]. intros H. apply (f_equal length) in H.
      rewrite length_app in H. cbn in H. lia.
  - rewrite bool_decide_eq_false_2; [done|]. intros ->. rewrite <-(app_nil_r k) in E at 2.
    by rewrite strip_app in E.
Qed.

(** An extension is not a leaf. *)
Lemma ext_not_leaf k cs k' v :
  minimal_tree (TFull cs) → Forall nib k →
  ¬ ∀ r, hexkey r → tget (TShort k (TFull cs)) r = tget (TShort k' (TVal v)) r.
Proof.
  intros H Hk Hall. destruct (full_two_keys cs H) as (x & y & k1 & k2 & v1 & v2 & Hne & H1 & H2 & E1 & E2).
  assert (∀ r w, hexkey r → tget (TFull cs) r = Some w → k ++ r = k') as Hx.
  { intros r w Hr E. specialize (Hall (k ++ r)). rewrite hexkey_app, tget_ext, E, tget_leaf in Hall by done.
    specialize (Hall Hr). by case_bool_decide. }
  pose proof (Hx _ _ H1 E1) as F1. rewrite <-(Hx _ _ H2 E2) in F1. apply app_inv_head in F1.
  by injection F1 as ->.
Qed.

Lemma full_children cs cs' i c c' :
  (∀ r, hexkey r → tget (TFull cs) r = tget (TFull cs') r) → cs !! i = Some c → cs' !! i = Some c' →
  (∀ r, hexkey (Z.of_nat i :: r) → tget c r = tget c' r).
Proof.
  intros Hall Hc Hc' r Hr. specialize (Hall _ Hr). by rewrite !tget_full, Nat2Z.id, Hc, Hc' in Hall.
Qed.

Lemma children_unique cs cs' i c c' :
  minimal_tree (TFull cs) → minimal_tree (TFull cs') →
  (∀ r, hexkey r → tget (TFull cs) r = tget (TFull cs') r) → cs !! i = Some c → cs' !! i = Some c' →
  (∀ t2, minimal_tree c → minimal_tree t2 → (∀ k, hexkey k → tget c k = tget t2 k) → c = t2) → c = c'.
Proof.
  intros H H' Hall Hc Hc' IH. pose proof (full_children cs cs' i c c' Hall Hc Hc') as E.
  assert (∀ d cs0, minimal_tree (TFull cs0) → cs0 !! i = Some d → d ≠ TNil →
    ¬ ∀ r, hexkey (Z.of_nat i :: r) → tget d r = None) as Hsome.
  { intros d cs0 H0 Hd Hn Hnone. destruct (child_has_key cs0 i d H0 Hd Hn) as (k & v & Hk & Hv).
    specialize (Hnone k Hk). rewrite tget_full, Nat2Z.id, Hd in Hv. congruence. }
  destruct (tnil c) eqn:Ec.
  - destruct c; try done. destruct (tnil c') eqn:Ec'; [by destruct c'|]. exfalso.
    apply (Hsome c' cs' H' Hc'); [by intros ->|]. intros r Hr. by rewrite <-E.
  - assert (c ≠ TNil) as Hn by (by intros ->). destruct (tnil c') eqn:Ec'.
    { exfalso. destruct c'; try done. by apply (Hsome c cs H Hc). }
    assert (c' ≠ TNil) as Hn' by (by intros ->).
    destruct (minimal_child _ _ _ H Hc Hn) as [[Hlt Hm]|[-> (v & -> & Hv)]];
      destruct (minimal_child _ _ _ H' Hc' Hn') as [[Hlt' Hm']|[Hi (v' & -> & Hv')]]; try lia.
    + apply IH; [done|done|]. intros r Hr. apply E, hexkey_cons. right. split; [unfold nib; lia|done].
    + specialize (E []). cbn in E. assert (Some v = Some v') as [= ->]; [|done]. apply E. by exists [].
Qed.

(** A minimal tree is determined by its map. *)
Lemma minimal_unique t1 t2 :
  minimal_tree t1 → minimal_tree t2 → (∀ k, hexkey k → tget t1 k = tget t2 k) → t1 = t2.
Proof.
  assert (∀ cs r, tget (TFull cs) r = tget (TShort [] (TFull cs)) r) as E0 by done.
  revert t2. induction t1 as [|v|k t IH|cs IH] using tree_ind'; intros t2 H1 H2 Hall; try by inversion H1.
  - inversion H1 as [? v Hk Hv|? cs Hk Hn Hf|]; subst.
    + inversion H2 as [k' v' Hk' Hv'|k' cs Hk' Hn' Hf'|cs ? ? ? ?]; subst.
      * specialize (Hall k Hk). rewrite !tget_leaf, bool_decide_eq_true_2 in Hall by done.
        case_bool_decide; [|done]. by simplify_eq.
      * exfalso. apply (ext_not_leaf k' cs k v Hf' Hn'). intros r Hr. by rewrite Hall.
      * exfalso. apply (ext_not_leaf [] cs k v H2); [constructor|]. intros r Hr. rewrite <-E0. by rewrite Hall.
    + inversion H2 as [k' v' Hk' Hv'|k' cs' Hk' Hn' Hf'|cs' ? ? ? ?]; subst.
      * exfalso. by apply (ext_not_leaf k cs k' v').
      * destruct (ext_unique k k' cs cs') as [-> Hcs]; try done. f_equal. by apply IH.
      * destruct (ext_unique k [] cs cs') as [-> Hcs]; try done.
  - inversion H2 as [k' v' Hk' Hv'|k' cs' Hk' Hn' Hf'|cs' ? ? ? ?]; subst.
    + exfalso. apply (ext_not_leaf [] cs k' v'); try done.
    + destruct (ext_unique [] k' cs cs') as [<- Hcs]; try done.
    + f_equal. destruct (minimal_full_inv cs H1) as (L1 & _). destruct (minimal_full_inv cs' H2) as (L2 & _).
      apply list_eq_same_length with 17%nat; [done|done|]. intros i c c' Hi Hc Hc'.
      apply (children_unique cs cs' i c c'); try done. rewrite Forall_forall in IH.
      intros t2 Hm1 Hm2 Ht. apply IH; [by eapply list_elem_of_lookup_2|done..].
Qed.

(** ** Hashes of trees

    Keccak-256 is a parameter. *)

Class KeccakLib := keccak256 : bytes → bytes.

Class KeccakLaws `{KeccakLib} := {
  keccak_length b : length (keccak256 b) = 32%nat;
  keccak_bytes b : Forall is_byte (keccak256 b)
}.

(** Sample instance. *)
Definition toy_keccak : KeccakLib := λ b, be_fixed 32 (foldl (λ acc x, acc * 257 + x + 1) 7 b).

#[global] Instance toy_keccak_laws : @KeccakLaws toy_keccak.
Proof. split; intros b; [apply be_fixed_length|apply be_fixed_bytes]. Qed.

Definition compact (k : bytes) : bytes := match hexToCompact k with Ret c => c | Panic _ => [] end.

Section hashing.
  Context {KL : KeccakLib}.

(** A node in its parent: itself if it is short, else its hash. *)
Definition ref_of (t : tree) (r : bytes) : bytes :=
  match t with
  | TNil | TVal _ => r
  | _ => if lenZ r <? 32 then r else enc_str (keccak256 r)
  end.

(** The encoding of a tree as the yellow paper defines it. *)
Fixpoint tree_rlp (t : tree) : bytes :=
  match t with
  | TNil => [128]
  | TVal v => enc_str v
  | TShort k t => enc_list (enc_str (compact k) ++ ref_of t (tree_rlp t))
  | TFull cs => enc_list (mjoin ((λ c, ref_of c (tree_rlp c)) <$> cs))
  end.

Definition tree_hash (t : tree) : bytes := keccak256 (tree_rlp t).

Definition big (t : tree) : bool :=
  match t with
  | TNil | TVal _ => false
  | _ => 32 <=? lenZ (tree_rlp t)
  end.

(** The nodes as they are loaded: children that are not embedded are hash nodes. *)
Fixpoint load (h : option bytes) (t : tree) : node :=
  match t with
  | TNil => nilNode
  | TVal v => valueNode v
  | TShort k t =>
      shortNode k (if big t then hashNode (tree_hash t) else load None t) (mkFlag h false)
  | TFull cs =>
      fullNode ((λ c, if big c then hashNode (tree_hash c) else load None c) <$> cs) (mkFlag h false)
  end.

Inductive sub : tree → tree → Prop :=
| sub_refl t : sub t t
| sub_short s k t : sub s t → sub s (TShort k t)
| sub_full s c cs : c ∈ cs → sub s c → sub s (TFull cs).

Definition stored (db : bytes → outcome (option node)) (t : tree) : Prop :=
  db (tree_hash t) = Ret (Some (load (Some (tree_hash t)) t)).

(** The database has every subtrie that is not embedded. *)
Definition has (db : bytes → outcome (option node)) (t : tree) : Prop :=
  ∀ s, sub s t → big s = true → stored db s.

(** A cached hash is right, and is cached for the root and for nodes that are not embedded
    only; of a node that is not dirty the database has everything. *)
Definition flag_ok (db : bytes → outcome (option node)) (root : bool) (fl : nodeFlag) (t : tree) : Prop :=
  (∀ h, nf_hash fl = Some h → h = tree_hash t ∧ (root || big t) = true) ∧
  (nf_dirty fl = false → has db t ∧ ((root || big t) = true → stored db t)).

(** A node in memory represents a tree. *)
Inductive rep (db : bytes → outcome (option node)) : bool → node → tree → Prop :=
| rep_nil b : rep db b nilNode TNil
| rep_val b v : rep db b (valueNode v) (TVal v)
| rep_short b k n t fl :
    rep db false n t → flag_ok db b fl (TShort k t) → rep db b (shortNode k n fl) (TShort k t)
| rep_full b ns ts fl :
    Forall2 (rep db false) ns ts → flag_ok db b fl (TFull ts) → rep db b (fullNode ns fl) (TFull ts)
| rep_hash b t :
    (b || big t) = true → (∃ k t', t = TShort k t') ∨ (∃ cs, t = TFull cs) →
    has db t → stored db t → rep db b (hashNode (tree_hash t)) t.

Lemma has_short db k t : has db (TShort k t) → has db t.
Proof. intros H s Hs. apply H. by constructor. Qed.

Lemma has_full db cs c : has db (TFull cs) → c ∈ cs → has db c.
Proof. intros H Hc s Hs. apply H. by eapply sub_full. Qed.

Lemma flag_ok_new db b t : flag_ok db b newFlag t.
Proof. by split; [intros h [=]|]. Qed.

Lemma big_shape t : big t = true → (∃ k t', t = TShort k t') ∨ (∃ cs, t = TFull cs).
Proof. destruct t; try done; intros _; [left|right]; by repeat eexists. Qed.

(** What the database returns represents the tree. *)
Lemma rep_load db b t h :
  has db t → (∀ x, h = Some x → x = tree_hash t ∧ (b || big t) = true) → ((b || big t) = true → stored db t) →
  rep db b (load h t) t.
Proof.
  revert b h. induction t as [|v|k t IH|cs IH] using tree_ind'; intros b h Hdb Hh Hst; cbn; [constructor..| |].
  - constructor; [|done].
    apply has_short in Hdb. destruct (big t) eqn:Eb; [|by apply IH; rewrite ?Eb].
    constructor; [by rewrite Eb|by apply big_shape|done|apply Hdb; [constructor|done]].
  - constructor; [|done].
    rewrite <-(list_fmap_id cs) at 2. apply Forall2_fmap_same. intros c Hc. rewrite Forall_forall in IH.
    pose proof (has_full _ _ _ Hdb Hc) as Hdc. cbn. destruct (big c) eqn:Eb; [|by apply IH; rewrite ?Eb].
    constructor; [by rewrite Eb|by apply big_shape|done|apply Hdc; [constructor|done]].
Qed.

Lemma BytesToHash_id b : length b = 32%nat → BytesToHash b = b.
Proof. intros H. unfold BytesToHash. by rewrite H. Qed.
End hashing.

(** ** The operations refine the map *)

Section refinement.
  Context {KL : KeccakLib} {KLaws : KeccakLaws} (db : bytes → outcome (option node)).

(** A subtrie at the point where the key [k] is left. *)
Definition ok_at (t : tree) (k : bytes) : Prop :=
  hexkey k ∧ root_tree t ∨ k = [] ∧ (t = TNil ∨ ∃ v, t = TVal v ∧ v ≠ []).

Definition is_hash (n : node) : bool := match n with hashNode _ => true | _ => false end.

Definition need (n : node) (k : bytes) : nat := 2 * length k + (if is_hash n then 2 else 1).

Lemma ok_at_short k t key key' :
  ok_at (TShort k t) key → key = k ++ key' → ok_at t key' ∧ k ≠ [].
Proof.
  intros [[Hk [|Hm]]|[_ [|(v & [=] & _)]]] ->; [done| |done].
  inversion Hm as [? v Hk' Hv|? cs Hk' Hn Hf|]; subst.
  - apply (hexkey_prefix k) in Hk as ->; [|done]. split; [|intros ->; by apply hexkey_nonempty].
    right. split; [done|]. right. by exists v.
  - split; [|done]. left. split; [by apply (hexkey_app k)|by right].
Qed.

Lemma ok_at_full cs x key :
  ok_at (TFull cs) (x :: key) → ∃ c, 0 <= x <= 16 ∧ cs !! Z.to_nat x = Some c ∧ ok_at c key.
Proof.
  intros [[Hk [|Hm]]|[? _]]; [done| |done]. destruct (minimal_full_inv cs Hm) as (Hl & H1 & H2 & _).
  apply hexkey_cons in Hk as [[-> ->]|[Hx Hk]].
  - destruct (lookup_lt_is_Some_2 cs 16) as [c Hc]; [lia|]. exists c. split_and!; [lia|lia|done|].
    right. split; [done|]. by apply H2.
  - unfold nib in Hx. destruct (lookup_lt_is_Some_2 cs (Z.to_nat x)) as [c Hc]; [lia|].
    exists c. split_and!; [lia|lia|done|]. left. split; [done|]. apply (H1 (Z.to_nat x)); [done|lia].
Qed.

Lemma ok_at_full_nil cs : ¬ ok_at (TFull cs) [].
Proof. intros [[Hk _]|[_ [|(v & [=] & _)]]]; [by apply hexkey_nonempty|done]. Qed.

Lemma ok_at_val v k : ok_at (TVal v) k → k = [].
Proof. intros [[_ [|Hm]]|[? _]]; [done|inversion Hm|done]. Qed.

Lemma resolve_rep b h t p :
  rep db b (hashNode h) t →
  resolveHash db h p = inl (load (Some h) t) ∧ rep db b (load (Some h) t) t ∧ is_hash (load (Some h) t) = false.
Proof.
  inversion 1 as [| | | |? ? Hb Hs Hh Hst]; subst. unfold resolveHash, tree_hash at 1.
  rewrite BytesToHash_id by apply keccak_length. fold (tree_hash t). rewrite Hst. split_and!; [done| |].
  - apply rep_load; [done| |done]. by intros x [= <-].
  - by destruct Hs as [(k & t' & ->)|(cs & ->)].
Qed.

Lemma rep_lookup ns ts i t :
  Forall2 (rep db false) ns ts → ts !! i = Some t → ∃ n, ns !! i = Some n ∧ rep db false n t.
Proof. intros H Hi. destruct (Forall2_lookup_r _ _ _ _ _ H Hi) as (n & ? & ?). by exists n. Qed.

Lemma child_ok ns ts x t :
  Forall2 (rep db false) ns ts → 0 <= x → ts !! Z.to_nat x = Some t →
  ∃ n, child ns x = inl n ∧ rep db false n t ∧ ns !! Z.to_nat x = Some n.
Proof.
  intros H Hx Hi. destruct (rep_lookup _ _ _ _ H Hi) as (n & Hn & Hr). exists n. split_and!; try done.
  unfold child. by rewrite bool_decide_eq_true_2, Hn by done.
Qed.

Lemma need_step n m k k' : (length k' < length k)%nat → (need m k' <= need n k - 1)%nat.
Proof. unfold need. destruct (is_hash n), (is_hash m); lia. Qed.

Lemma need_pos n k : (1 <= need n k)%nat.
Proof. unfold need. destruct (is_hash n); lia. Qed.

Lemma need_hash h n k : is_hash n = false → need (hashNode h) k = S (need n k).
Proof. unfold need. intros ->. cbn. lia. Qed.

(** The comparison of [tryGet] with the key of a short node. *)
Lemma short_match k key pos :
  (length key - pos <? length k)%nat || negb (bytes_Equal k (take (length k) (drop pos key))) =
  match strip k (drop pos key) with Some _ => false | None => true end.
Proof.
  destruct (strip k (drop pos key)) as [r|] eqn:E.
  - apply strip_Some in E. pose proof (f_equal length E) as El. rewrite length_drop, length_app in El.
    rewrite E, take_app_length. unfold bytes_Equal. rewrite bool_decide_eq_true_2 by done.
    destruct (Nat.ltb_spec (length key - pos) (length k)); [lia|done].
  - unfold bytes_Equal. case_bool_decide as H; [|apply orb_true_r].
    exfalso. rewrite <-(take_drop (length k) (drop pos key)), <-H, strip_app in E. done.
Qed.

Lemma short_need k m fl key key' :
  key = k ++ key' → k ≠ [] → (need m key' < need (shortNode k m fl) key)%nat.
Proof.
  intros -> Hk. pose proof (need_step (shortNode k m fl) m (k ++ key') key').
  pose proof (need_pos (shortNode k m fl) (k ++ key')). destruct k; [done|].
  rewrite length_app in *. cbn [length] in *. lia.
Qed.

Lemma full_need ns fl m x key : (need m key < need (fullNode ns fl) (x :: key))%nat.
Proof. unfold need. cbn. destruct (is_hash m); lia. Qed.

Lemma tryGet_rep fuel b n t key pos :
  rep db b n t → ok_at t (drop pos key) → (need n (drop pos key) <= fuel)%nat →
  ∃ n' d, tryGet db fuel n key pos = inl (tget t (drop pos key), n', d) ∧ rep db b n' t.
Proof.
  revert b n t pos. induction fuel as [|fuel IH]; intros b n t pos Hr Hok Hf; [pose proof (need_pos n (drop pos key)); lia|].
  inversion Hr as [?|? v|? k m s fl Hm Hfl|? ns ts fl Hns Hfl|? s Hb Hs Hh Hst]; subst; cbn [tryGet].
  - by exists nilNode, false.
  - apply ok_at_val in Hok as Hk. rewrite Hk. by exists (valueNode v), false.
  - rewrite short_match. cbn [tget]. destruct (strip k (drop pos key)) as [key'|] eqn:E; [|by do 2 eexists].
    apply strip_Some in E as E'. destruct (ok_at_short _ _ _ _ Hok E') as [Hok' Hk].
    assert (drop (pos + length k) key = key') as Ed by (rewrite <-drop_drop, E'; apply drop_app_length).
    pose proof (short_need k m fl _ _ E' Hk).
    destruct (IH false m s (pos + length k)%nat Hm) as (n' & d & Et & Hr'); [by rewrite Ed|rewrite Ed; lia|].
    rewrite Et, Ed. cbn. destruct d; do 2 eexists; (split; [done|]); [by constructor|done].
  - destruct (drop pos key) as [|x key'] eqn:E; [by apply ok_at_full_nil in Hok|].
    assert (key !! pos = Some x) as ->.
    { rewrite <-(Nat.add_0_r pos), <-lookup_drop, E. done. }
    assert (drop (pos + 1) key = key') as Ed by (rewrite <-drop_drop, E; done).
    destruct (ok_at_full _ _ _ Hok) as (c & Hx & Hc & Hok').
    destruct (child_ok ns ts x c Hns) as (m & -> & Hm & Hmi); [lia|done|]. cbn.
    pose proof (full_need ns fl m x key').
    destruct (IH false m c (pos + 1)%nat Hm) as (n' & d & Et & Hr'); [by rewrite Ed|rewrite Ed; lia|].
    rewrite Et, Ed, list_lookup_fmap, Hc. cbn. destruct d; do 2 eexists; (split; [done|]); [|done].
    constructor; [|done]. rewrite <-(list_insert_id ts (Z.to_nat x) c Hc). by apply Forall2_insert.
  - destruct (resolve_rep b _ _ (take pos key) Hr) as (-> & Hr' & Hnh). cbn.
    rewrite (need_hash _ (load (Some (tree_hash t)) t)) in Hf by done.
    destruct (IH b _ t pos Hr') as (n' & d & -> & Hr''); [done|lia|]. cbn. by exists n', true.
Qed.

(** *** Full nodes with a changed child *)

(** A child that is not nil. *)
Definition slot_ok (i : nat) (c : tree) : Prop :=
  (i < 16)%nat ∧ minimal_tree c ∨ i = 16%nat ∧ ∃ v, c = TVal v ∧ v ≠ [].

Lemma slot_nonnil i c : slot_ok i c → tnil c = false.
Proof. intros [[_ H]|[_ (v & -> & _)]]; [by inversion H|done]. Qed.

Lemma occupied_insert cs i c c0 :
  cs !! i = Some c0 →
  (occupied (<[i := c]> cs) + (if tnil c0 then 0 else 1) = occupied cs + (if tnil c then 0 else 1))%nat.
Proof.
  revert i. induction cs as [|d cs IH]; intros [|i] H; try done; cbn in H.
  - injection H as ->. cbn. destruct (tnil c), (tnil c0); lia.
  - specialize (IH i H). change (<[S i := c]> (d :: cs)) with (d :: <[i := c]> cs). cbn [occupied].
    destruct (tnil d), (tnil c), (tnil c0); lia.
Qed.

Lemma occupied_replicate n : occupied (replicate n TNil) = O.
Proof. by induction n. Qed.

Lemma tget_full_insert cs i c x r :
  0 <= x → (i < length cs)%nat →
  tget (TFull (<[i := c]> cs)) (x :: r) = if bool_decide (Z.to_nat x = i) then tget c r else tget (TFull cs) (x :: r).
Proof.
  intros Hx Hi. rewrite !tget_full. case_bool_decide as E.
  - subst i. by rewrite list_lookup_insert_eq.
  - by rewrite list_lookup_insert_ne by done.
Qed.

Lemma tget_full_empty r : tget (TFull (replicate 17 TNil)) r = None.
Proof.
  destruct r as [|x r]; [done|]. rewrite tget_full. destruct (replicate 17 TNil !! Z.to_nat x) eqn:E; [|done].
  by apply lookup_replicate in E as [-> _].
Qed.

Lemma minimal_full_insert cs i c :
  minimal_tree (TFull cs) → slot_ok i c → minimal_tree (TFull (<[i := c]> cs)).
Proof.
  intros H Hc. destruct (minimal_full_inv cs H) as (Hl & H1 & H2 & H3).
  assert (i < length cs)%nat as Hi by (rewrite Hl; destruct Hc as [[? _]|[-> _]]; lia).
  destruct (lookup_lt_is_Some_2 _ _ Hi) as [c0 Hc0]. constructor.
  - by rewrite length_insert.
  - intros j d Hj Hlt. destruct (decide (j = i)) as [->|].
    + rewrite list_lookup_insert_eq in Hj by done. injection Hj as <-. right. destruct Hc as [[_ ?]|[-> _]]; [done|lia].
    + rewrite list_lookup_insert_ne in Hj by done. by eapply H1.
  - intros d Hj. destruct (decide (16%nat = i)) as [<-|].
    + rewrite list_lookup_insert_eq in Hj by done. injection Hj as <-. right. destruct Hc as [[? _]|[_ ?]]; [lia|done].
    + rewrite list_lookup_insert_ne in Hj by done. by apply H2.
  - pose proof (occupied_insert cs i c c0 Hc0) as E. rewrite (slot_nonnil i c Hc) in E. destruct (tnil c0); lia.
Qed.

(** The branch that replaces a short node. *)
Definition branch_of (x : nat) (c : tree) (y : nat) (d : tree) : list tree :=
  <[y := d]> (<[x := c]> (replicate 17 TNil)).

Lemma branch_minimal x c y d : x ≠ y → slot_ok x c → slot_ok y d → minimal_tree (TFull (branch_of x c y d)).
Proof.
  intros Hne Hc Hd. assert (x < 17)%nat as Hx by (destruct Hc as [[? _]|[-> _]]; lia).
  assert (y < 17)%nat as Hy by (destruct Hd as [[? _]|[-> _]]; lia). unfold branch_of.
  assert (∀ j e, branch_of x c y d !! j = Some e → e = TNil ∨ slot_ok j e) as Hall.
  { intros j e. unfold branch_of. destruct (decide (j = y)) as [->|].
    - rewrite list_lookup_insert_eq by (rewrite length_insert, length_replicate; lia). intros [= <-]. by right.
    - rewrite list_lookup_insert_ne by done. destruct (decide (j = x)) as [->|].
      + rewrite list_lookup_insert_eq by (rewrite length_replicate; lia). intros [= <-]. by right.
      + rewrite list_lookup_insert_ne by done. intros H. apply lookup_replicate in H as [-> _]. by left. }
  constructor.
  - by rewrite !length_insert, length_replicate.
  - intros j e Hj Hlt. destruct (Hall j e Hj) as [->|[[_ ?]|[-> _]]]; [by left|by right|lia].
  - intros e Hj. destruct (Hall _ e Hj) as [->|[[? _]|[_ ?]]]; [by left|lia|by right].
  - assert (replicate 17 TNil !! x = Some TNil) as E1 by (by apply lookup_replicate).
    pose proof (occupied_insert _ _ c _ E1) as O1. rewrite occupied_replicate, (slot_nonnil x c Hc) in O1.
    assert (<[x := c]> (replicate 17 TNil) !! y = Some TNil) as E2.
    { rewrite list_lookup_insert_ne by done. by apply lookup_replicate. }
    pose proof (occupied_insert _ _ d _ E2) as O2. rewrite (slot_nonnil y d Hd) in O2. cbn [tnil] in *. lia.
Qed.

Lemma tget_branch x c y d z r :
  0 <= z → (x < 17)%nat → (y < 17)%nat →
  tget (TFull (branch_of x c y d)) (z :: r) =
    if bool_decide (Z.to_nat z = y) then tget d r
    else if bool_decide (Z.to_nat z = x) then tget c r else None.
Proof.
  intros Hz Hx Hy. unfold branch_of.
  rewrite tget_full_insert; [|done|rewrite length_insert, length_replicate; lia].
  rewrite tget_full_insert; [|done|rewrite length_replicate; lia]. by rewrite tget_full_empty.
Qed.

(** What remains of a key below a branch. *)
Definition put (k : bytes) (t : tree) : tree := match k with [] => t | _ => TShort k t end.
Definition put_node (k : bytes) (n : node) : node := match k with [] => n | _ => shortNode k n newFlag end.

Lemma tget_put k t r : tget (put k t) r = match strip k r with Some r => tget t r | None => None end.
Proof. destruct k; [done|]. reflexivity. Qed.

Lemma rep_put k n t : rep db false n t → rep db false (put_node k n) (put k t).
Proof. intros H. destruct k; [done|]. constructor; [done|apply flag_ok_new]. Qed.

Lemma insert_nil fuel p k value :
  insert db (S fuel) nilNode p k value = inl (true, put_node k value).
Proof. destruct k; [by destruct value|done]. Qed.

(** The rest of the key of a short node is a child of the branch. *)
Lemma put_slot p x k t :
  minimal_tree (TShort (p ++ x :: k) t) → slot_ok (Z.to_nat x) (put k t) ∧ 0 <= x <= 16 ∧ Forall nib p.
Proof.
  intros H. inversion H as [? v Hk Hv|? cs Hk Hn Hf|]; subst.
  - assert (Forall nib p) as Hp.
    { destruct Hk as (q & Hq & E). destruct k as [|y k _] using rev_ind.
      - change (p ++ [x]) with (p ++ [x]) in E. apply app_inj_tail in E as [-> _]. done.
      - change (p ++ x :: k ++ [y]) with (p ++ (x :: k) ++ [y]) in E. rewrite app_assoc in E.
        apply app_inj_tail in E as [<- _]. by apply Forall_app in Hq as [? _]. }
    rewrite hexkey_app in Hk by done. apply hexkey_cons in Hk as [[-> ->]|[Hx Hk]].
    + split_and!; [right; split; [done|by exists v]|lia|lia|done].
    + unfold nib in Hx. split_and!; [left; split; [lia|]|lia|lia|done].
      destruct k; [by apply hexkey_nonempty in Hk|]. by constructor.
  - apply Forall_app in Hn as [Hp Hxk]. inversion Hxk as [|? ? Hx Hk']; subst. unfold nib in Hx.
    split_and!; [left; split; [lia|]|lia|lia|done]. destruct k; [done|]. by constructor.
Qed.

(** *** Insertion *)

(** What [insert] does to the tree [t] at the rest [key] of the key. *)
Definition inserted (t t' : tree) (key v : bytes) : Prop :=
  ok_at t' key ∧ t' ≠ TNil ∧
  (∀ r, (hexkey key → hexkey r) → tget t' r = if bool_decide (r = key) then Some v else tget t r) ∧
  (∀ cs, t = TFull cs → ∃ cs', t' = TFull cs').

Lemma inserted_slot x c c' key v :
  nib x ∧ hexkey key ∨ x = 16 ∧ key = [] → inserted c c' key v → slot_ok (Z.to_nat x) c'.
Proof.
  unfold nib. intros Hx (Hok & Hn & _). destruct Hok as [[Hk [|Hm]]|[-> [|Hv]]]; try done.
  - destruct Hx as [[? _]|[_ ->]]; [|by apply hexkey_nonempty in Hk]. left. split; [lia|done].
  - destruct Hx as [[_ Hk]|[-> _]]; [by apply hexkey_nonempty in Hk|]. by right.
Qed.

Lemma inserted_leaf key v : hexkey key → v ≠ [] → inserted TNil (TShort key (TVal v)) key v.
Proof.
  intros Hk Hv. split_and!; [|done| |done].
  - left. split; [done|]. right. by constructor.
  - intros r _. rewrite tget_leaf. by case_bool_decide.
Qed.

Lemma inserted_value t v : t = TNil ∨ (∃ w, t = TVal w ∧ w ≠ []) → v ≠ [] → inserted t (TVal v) [] v.
Proof.
  intros Ht Hv. split_and!; [|done| |by intros cs ->; destruct Ht as [|(? & ? & _)]].
  - right. split; [done|]. right. by exists v.
  - intros r _. destruct Ht as [-> | (w & -> & _)]; destruct r; try done.
Qed.

Lemma inserted_short k s s' a v :
  minimal_tree (TShort k s) → hexkey (k ++ a) → inserted s s' a v →
  inserted (TShort k s) (TShort k s') (k ++ a) v.
Proof.
  intros Hm Hka (Hok & Hn & Hget & Hfull). split_and!; [|done| |done].
  - left. split; [done|]. right. inversion Hm as [? w Hk Hw|? cs Hk Hnib Hf|]; subst.
    + apply (hexkey_prefix k) in Hka as ->; [|done]. destruct Hok as [[Ha _]|[_ [|(u & -> & Hu)]]];
        [by apply hexkey_nonempty in Ha|done|by constructor].
    + destruct (Hfull cs eq_refl) as [cs' ->]. constructor; [done|done|].
      by destruct Hok as [[_ [|]]|[_ [|(? & ? & _)]]].
  - intros r Hr. rewrite !tget_short. destruct (strip k r) as [r'|] eqn:E.
    + apply strip_Some in E as ->. rewrite Hget.
      * rewrite (bool_decide_ext (r' = a) (k ++ r' = k ++ a)); [done|].
        split; [congruence|apply app_inv_head].
      * intros Ha. specialize (Hr Hka). inversion Hm as [? w Hk Hw|? cs Hk Hnib Hf|]; subst.
        { apply (hexkey_prefix k) in Hka as ->; [|done]. by apply hexkey_nonempty in Ha. }
        by apply (hexkey_app k r' Hnib).
    + rewrite bool_decide_eq_false_2; [done|]. intros ->. by rewrite strip_app in E.
Qed.

Lemma inserted_full cs x c c' key v :
  minimal_tree (TFull cs) → hexkey (x :: key) → cs !! Z.to_nat x = Some c → inserted c c' key v →
  inserted (TFull cs) (TFull (<[Z.to_nat x := c']> cs)) (x :: key) v.
Proof.
  intros Hm Hk Hc Hins. apply lookup_lt_Some in Hc as Hlt.
  assert (nib x ∧ hexkey key ∨ x = 16 ∧ key = []) as Hx by (apply hexkey_cons in Hk; tauto).
  pose proof (inserted_slot x c c' key v Hx Hins) as Hslot. destruct Hins as (_ & _ & Hget & _).
  split_and!; [|done| |by eexists].
  - left. split; [done|]. right. by apply minimal_full_insert.
  - intros r Hr. specialize (Hr Hk). destruct r as [|y r]; [by apply hexkey_nonempty in Hr|].
    assert (0 <= y) as Hy by (apply hexkey_cons in Hr as [[-> _]|[? _]]; unfold nib in *; lia).
    assert (0 <= x) by (unfold nib in Hx; lia). rewrite tget_full_insert by done. case_bool_decide as E.
    + assert (y = x) as -> by lia. rewrite Hget.
      * rewrite (bool_decide_ext (r = key) (x :: r = x :: key)); [|split; congruence].
        case_bool_decide; [done|]. by rewrite tget_full, Hc.
      * intros Hkey. apply hexkey_cons in Hr as [[-> ->]|[_ ?]]; [|done]. destruct Hx as [[? _]|[_ ->]]; [unfold nib in *; lia|done].
    + rewrite bool_decide_eq_false_2; [done|]. intros [= -> ->]. done.
Qed.

(** A short node splits at the first nibble that differs. *)
Lemma inserted_branch p x k s y a v :
  minimal_tree (TShort (p ++ x :: k) s) → hexkey (p ++ y :: a) → v ≠ [] → x ≠ y →
  inserted (TShort (p ++ x :: k) s)
    (put p (TFull (branch_of (Z.to_nat x) (put k s) (Z.to_nat y) (put a (TVal v))))) (p ++ y :: a) v.
Proof.
  intros Hm Hk Hv Hne. destruct (put_slot p x k s Hm) as (Hs1 & Hx & Hp).
  assert (minimal_tree (TShort (p ++ y :: a) (TVal v))) as Hm2 by (by constructor).
  destruct (put_slot p y a (TVal v) Hm2) as (Hs2 & Hy & _).
  pose proof (branch_minimal (Z.to_nat x) _ (Z.to_nat y) _ ltac:(lia) Hs1 Hs2) as Hb.
  split_and!; [|by destruct p| |done].
  - left. split; [done|]. right. destruct p; [done|]. by constructor.
  - intros r Hr. specialize (Hr Hk). rewrite tget_put, tget_short, strip_comp.
    destruct (strip p r) as [r'|] eqn:E; cbn [mbind option_bind].
    2:{ rewrite bool_decide_eq_false_2; [done|]. intros ->. by rewrite strip_app in E. }
    apply strip_Some in E as ->. rewrite (bool_decide_ext (p ++ r' = p ++ y :: a) (r' = y :: a))
      by (split; [apply app_inv_head|congruence]). rewrite hexkey_app in Hr by done.
    destruct r' as [|z r]; [by apply hexkey_nonempty in Hr|].
    assert (0 <= z) as Hz by (apply hexkey_cons in Hr as [[-> _]|[? _]]; unfold nib in *; lia).
    rewrite tget_branch by lia. case_bool_decide as E1.
    + assert (z = y) as -> by lia. rewrite tget_put. cbn [strip]. destruct (Z.eqb_spec x y); [done|].
      destruct (strip a r) as [r'|] eqn:E; cbn.
      * apply strip_Some in E as ->. destruct r' as [|w r'].
        { rewrite app_nil_r. by rewrite bool_decide_eq_true_2. }
        rewrite bool_decide_eq_false_2; [done|]. intros [= F]. apply (f_equal length) in F.
        rewrite length_app in F. cbn in F. lia.
      * rewrite bool_decide_eq_false_2; [done|]. intros [= ->]. rewrite <-(app_nil_r a) in E at 2.
        by rewrite strip_app in E.
    + rewrite (bool_decide_eq_false_2 (z :: r = y :: a)) by (intros [= -> _]; done).
      cbn [strip]. destruct (Z.eqb_spec x z) as [->|].
      * rewrite bool_decide_eq_true_2 by done. apply tget_put.
      * by rewrite bool_decide_eq_false_2 by lia.
Qed.

Lemma hexkey_not_inside p x k s : minimal_tree (TShort (p ++ x :: k) s) → ¬ hexkey p.
Proof.
  intros Hm Hp. destruct (put_slot p x k s Hm) as (_ & _ & Hn). destruct Hp as (q & _ & ->).
  apply Forall_app in Hn as [_ H]. inversion H as [|? ? H16 _]; subst. unfold nib in H16. lia.
Qed.

Lemma rep_branch b p x c tc y d td :
  rep db false c tc → rep db false d td →
  rep db b (put_node p (fullNode (<[y := d]> (<[x := c]> (replicate 17 nilNode))) newFlag))
    (put p (TFull (branch_of x tc y td))).
Proof.
  intros Hc Hd. assert (∀ b', rep db b' (fullNode (<[y := d]> (<[x := c]> (replicate 17 nilNode))) newFlag)
    (TFull (branch_of x tc y td))) as H.
  { intros b'. constructor; [|apply flag_ok_new]. unfold branch_of. apply Forall2_insert; [|done].
    apply Forall2_insert; [|done]. apply Forall2_replicate. constructor. }
  destruct p; [apply H|]. constructor; [apply H|apply flag_ok_new].
Qed.

Lemma drop_middle {A} (p : list A) x k : drop (length p + 1) (p ++ x :: k) = k.
Proof. rewrite <-drop_drop, drop_app_length. done. Qed.

Lemma insert_rep fuel b n t prefix key v :
  rep db b n t → ok_at t key → v ≠ [] → (need n key <= fuel)%nat →
  ∃ d n' t', insert db fuel n prefix key (valueNode v) = inl (d, n') ∧ rep db b n' t' ∧
    inserted t t' key v ∧ (d = false → t' = t).
Proof.
  revert b n t prefix key.
  induction fuel as [|fuel IH]; intros b n t prefix key Hr Hok Hv Hf; [pose proof (need_pos n key); lia|].
  destruct key as [|x rest].
  { destruct Hok as [[Hk _]|[_ Ht]]; [by apply hexkey_nonempty in Hk|]. cbn [insert].
    destruct Ht as [-> | (w & -> & Hw)]; inversion Hr as [?|? ?|?|?|? ? _ [(?&?&?)|(?&?)] _ _]; subst; try done.
    - exists true, (valueNode v), (TVal v). split_and!; [done|constructor|apply inserted_value; [by left|done]|done].
    - exists (negb (bytes_Equal w v)), (valueNode v), (TVal v).
      split_and!; [done|constructor|apply inserted_value; [right; by exists w|done]|].
      intros E. apply negb_false_iff in E. unfold bytes_Equal in E. apply bool_decide_eq_true in E. by subst. }
  destruct Hok as [[Hk Ht]|[? _]]; [|done].
  inversion Hr as [?|? w|? k m s fl Hm Hfl|? ns ts fl Hns Hfl|? s Hb Hs Hh Hst]; subst; cbn [insert].
  - exists true, (shortNode (x :: rest) (valueNode v) newFlag), (TShort (x :: rest) (TVal v)).
    split_and!; [done| |by apply inserted_leaf|done]. constructor; [constructor|apply flag_ok_new].
  - destruct Ht as [|Hm]; [done|inversion Hm].
  - destruct Ht as [|Hmin]; [done|].
    destruct (prefixLen_split (x :: rest) k) as (p & a & c & Ek & -> & El & Hd). rewrite El, Ek in *.
    rewrite length_app. destruct c as [|kx k'].
    + rewrite app_nil_r in *. rewrite Nat.add_0_r, Nat.eqb_refl, take_app_length, drop_app_length.
      destruct (ok_at_short p s (p ++ a) a) as [Hok' Hpn]; [left; by split; [|right]|done|].
      pose proof (short_need p m fl (p ++ a) a eq_refl Hpn).
      destruct (IH false m s (prefix ++ p) a Hm Hok' Hv) as (d & n' & s' & -> & Hr' & Hins & Hd'); [lia|].
      cbn. destruct d.
      * exists true, (shortNode p n' newFlag), (TShort p s').
        split_and!; [done|constructor; [done|apply flag_ok_new]|by apply inserted_short|done].
      * specialize (Hd' eq_refl) as ->. exists false, (shortNode p m fl), (TShort p s).
        split_and!; [done|by constructor|by apply inserted_short|done].
    + destruct a as [|y a]; [exfalso; rewrite app_nil_r in Hk; by eapply hexkey_not_inside|].
      cbn [length]. destruct (Nat.eqb_spec (length p) (length p + S (length k'))); [lia|].
      rewrite !list_lookup_middle by done.
      destruct fuel as [|fuel]; [exfalso; unfold need in Hf; cbn in Hf; rewrite length_app in Hf; cbn in Hf; lia|].
      rewrite !insert_nil. cbn [mbind TR_bind snd].
      assert (minimal_tree (TShort (p ++ y :: a) (TVal v))) as Hm2 by (by constructor).
      destruct (put_slot p kx k' s Hmin) as (_ & Hkx & _). destruct (put_slot p y a _ Hm2) as (_ & Hy & _).
      rewrite !bool_decide_eq_true_2 by done. cbn [andb].
      rewrite !drop_middle, take_app_length.
      exists true, (put_node p (fullNode (<[Z.to_nat y := put_node a (valueNode v)]>
        (<[Z.to_nat kx := put_node k' m]> (replicate 17 nilNode))) newFlag)),
        (put p (TFull (branch_of (Z.to_nat kx) (put k' s) (Z.to_nat y) (put a (TVal v))))).
      split_and!; [by destruct p| |apply inserted_branch; [done..|]|done].
      * apply rep_branch; [by apply rep_put|]. apply rep_put. constructor.
      * by apply not_eq_sym, Hd.
  - destruct Ht as [|Hmin]; [done|].
    destruct (ok_at_full ts x rest) as (c & Hx & Hc & Hok'); [left; by split; [|right]|].
    destruct (child_ok ns ts x c Hns) as (m & -> & Hm & Hmi); [lia|done|]. cbn.
    pose proof (full_need ns fl m x rest).
    destruct (IH false m c (prefix ++ [x]) rest Hm Hok' Hv) as (d & n' & c' & -> & Hr' & Hins & Hd'); [lia|].
    cbn. destruct d.
    + exists true, (fullNode (<[Z.to_nat x := n']> ns) newFlag), (TFull (<[Z.to_nat x := c']> ts)).
      split_and!; [done| |by eapply inserted_full|done].
      constructor; [|apply flag_ok_new]. by apply Forall2_insert.
    + specialize (Hd' eq_refl) as ->. exists false, (fullNode ns fl), (TFull ts).
      split_and!; [done|by constructor| |done].
      rewrite <-(list_insert_id ts (Z.to_nat x) c Hc) at 2. by eapply inserted_full.
  - destruct (resolve_rep b _ _ prefix Hr) as (-> & Hr' & Hnh). cbn.
    rewrite (need_hash _ (load (Some (tree_hash t)) t)) in Hf by done.
    destruct (IH b _ t prefix (x :: rest) Hr') as (d & n' & t' & -> & Hr'' & Hins & Hd); [by left|done|lia|].
    cbn. destruct d; [by exists true, n', t'|]. specialize (Hd eq_refl) as ->. by exists false, (load (Some (tree_hash t)) t), t.
Qed.

(** *** Deletion *)

Lemma rep_is_nil b n t : rep db b n t → is_nil n = tnil t.
Proof. by inversion 1 as [| | | |? ? _ [(?&?&->)|(?&->)] _ _]; subst. Qed.

Lemma rep_nils ns ts : Forall2 (rep db false) ns ts → Forall2 (λ n t, is_nil n = tnil t) ns ts.
Proof. intros H. eapply Forall2_impl; [exact H|]. intros n t Hr. by eapply rep_is_nil. Qed.

Lemma occupied_none ts : occupied ts = O → ∀ j c, ts !! j = Some c → c = TNil.
Proof.
  induction ts as [|c ts IH]; intros H j d Hj; [done|]. cbn in H. destruct c; cbn in H; try lia.
  destruct j as [|j]; cbn in Hj; [by injection Hj as <-|by eapply IH].
Qed.

Lemma only_child_more ns ts i p :
  Forall2 (λ n t, is_nil n = tnil t) ns ts →
  only_child ns i (Some p) = if (occupied ts =? 0)%nat then Some p else None.
Proof.
  intros H. revert i. induction H as [|n t ns ts E _ IH]; intros i; [done|]. cbn. rewrite E.
  destruct (tnil t); [apply IH|done].
Qed.

Lemma only_child_one ns ts i :
  Forall2 (λ n t, is_nil n = tnil t) ns ts → occupied ts = 1%nat →
  ∃ j c, only_child ns i None = Some (i + j)%nat ∧ ts !! j = Some c ∧ c ≠ TNil ∧
    ∀ j' c', ts !! j' = Some c' → j' ≠ j → c' = TNil.
Proof.
  intros H. revert i. induction H as [|n t ns ts E Hrest IH]; intros i Ho; [done|]. cbn in *. rewrite E.
  destruct (tnil t) eqn:Et.
  - destruct (IH (S i) Ho) as (j & c & -> & Hj & Hc & Hall). exists (S j), c.
    split_and!; [f_equal; lia|done|done|]. intros [|j'] c' Hj' Hne; cbn in Hj'.
    + injection Hj' as <-. by destruct t.
    + apply (Hall j' c' Hj'). lia.
  - rewrite (only_child_more ns ts) by done. exists O, t. assert (occupied ts = O) as H0 by lia.
    rewrite H0, Nat.add_0_r. split_and!; [done|done|by intros ->|]. intros [|j'] c' Hj' Hne; [done|].
    by eapply occupied_none.
Qed.

Lemma only_child_two ns ts i :
  Forall2 (λ n t, is_nil n = tnil t) ns ts → (2 <= occupied ts)%nat → only_child ns i None = None.
Proof.
  intros H. revert i. induction H as [|n t ns ts E Hrest IH]; intros i Ho; [done|]. cbn in *. rewrite E.
  destruct (tnil t); [by apply IH|]. rewrite (only_child_more ns ts) by done.
  by destruct (Nat.eqb_spec (occupied ts) 0); [lia|].
Qed.

(** A short node in front of a tree; two short nodes are merged. *)
Definition join (k : bytes) (t : tree) : tree :=
  match t with TShort k' t' => TShort (k ++ k') t' | _ => TShort k t end.

Lemma tget_join k t r : tget (join k t) r = tget (TShort k t) r.
Proof. destruct t; try done. apply tget_short_app. Qed.

Lemma join_minimal k t : k ≠ [] → Forall nib k → minimal_tree t → minimal_tree (join k t).
Proof.
  intros Hk Hn Hm. inversion Hm as [k' v Hk' Hv|k' cs Hk' Hn' Hf|cs ? ? ? ?]; subst; cbn [join].
  - constructor; [by apply hexkey_app|done].
  - constructor; [by destruct k|by apply Forall_app_2|done].
  - by constructor.
Qed.

(** A full node with one child is a short node. *)
Lemma tget_single ts i c r :
  length ts = 17%nat → ts !! i = Some c → (∀ j' c', ts !! j' = Some c' → j' ≠ i → c' = TNil) → hexkey r →
  tget (TFull ts) r = tget (TShort [Z.of_nat i] c) r.
Proof.
  intros Hl Hi Hall Hr. destruct r as [|x r]; [by apply hexkey_nonempty in Hr|].
  assert (0 <= x <= 16) as Hx by (apply hexkey_cons in Hr as [[-> _]|[? _]]; unfold nib in *; lia).
  rewrite tget_full, tget_short. cbn [strip]. destruct (Z.eqb_spec (Z.of_nat i) x) as [<-|Hne].
  - by rewrite Nat2Z.id, Hi.
  - destruct (ts !! Z.to_nat x) as [d|] eqn:Ed; [|done]. by rewrite (Hall _ _ Ed) by lia.
Qed.

Lemma reduce_rep b ns ts prefix :
  Forall2 (rep db false) ns ts → length ts = 17%nat → (∀ i c, ts !! i = Some c → c = TNil ∨ slot_ok i c) →
  (1 <= occupied ts)%nat →
  ∃ n' t', reduce db ns prefix = inl n' ∧ rep db b n' t' ∧ minimal_tree t' ∧
    (∀ r, hexkey r → tget t' r = tget (TFull ts) r) ∧ is_hash n' = false.
Proof.
  intros Hns Hl Hslots Ho. pose proof (rep_nils ns ts Hns) as Hnil. unfold reduce.
  destruct (decide (occupied ts = 1%nat)) as [H1|H1].
  2:{ rewrite (only_child_two ns ts) by (done || lia). exists (fullNode ns newFlag), (TFull ts).
      split_and!; [done|constructor; [done|apply flag_ok_new]| |done|done]. constructor; [done| | |lia].
      - intros i c Hi Hlt. destruct (Hslots i c Hi) as [->|[[_ ?]|[-> _]]]; [by left|by right|lia].
      - intros c Hi. destruct (Hslots _ c Hi) as [->|[[? _]|[_ ?]]]; [by left|lia|by right]. }
  destruct (only_child_one ns ts 0 Hnil H1) as (i & c & -> & Hi & Hc & Hall). cbn [Nat.add].
  destruct (child_ok ns ts (Z.of_nat i) c Hns) as (m & -> & Hm & _); [lia|by rewrite Nat2Z.id|].
  cbn [mbind TR_bind]. destruct (Hslots i c Hi) as [|Hslot]; [done|].
  assert (∀ r, hexkey r → tget (join [Z.of_nat i] c) r = tget (TFull ts) r) as Hget.
  { intros r Hr. rewrite tget_join. symmetry. by apply tget_single. }
  destruct Hslot as [[Hlt Hmin]|[-> (v & -> & Hv)]].
  - destruct (Nat.eqb_spec i 16); [lia|].
    assert (∃ m', resolve db m prefix = inl m' ∧ rep db false m' c ∧ is_hash m' = false) as (m' & -> & Hm' & Hnh).
    { destruct m; try (by eexists; split_and!). cbn [resolve].
      destruct (resolve_rep false _ _ prefix Hm) as (-> & ? & ?). by eexists. }
    cbn [mbind TR_bind].
    assert (minimal_tree (join [Z.of_nat i] c)) as Hj.
    { apply join_minimal; [done|repeat constructor; lia|done]. }
    inversion Hmin as [k' v Hk' Hv|k' cs Hk' Hn' Hf|cs ? ? ? ?]; subst; inversion Hm'; subst; try done.
    all: do 2 eexists; split_and!; [done| |exact Hj|exact Hget|done].
    all: constructor; [done|apply flag_ok_new].
  - cbn [Nat.eqb]. exists (shortNode [16] m newFlag), (TShort [16] (TVal v)).
    split_and!; [done|constructor; [done|apply flag_ok_new]| |exact Hget|done]. constructor; [by exists []|done].
Qed.

Definition deleted (t t' : tree) (key : bytes) : Prop :=
  (hexkey key ∧ root_tree t' ∨ key = [] ∧ t' = TNil) ∧
  ∀ r, (hexkey key → hexkey r) → tget t' r = if bool_decide (r = key) then None else tget t r.

Lemma deleted_same t key : hexkey key → root_tree t → tget t key = None → deleted t t key.
Proof.
  intros Hk Ht Hn. split; [by left|]. intros r _. case_bool_decide; [by subst|done].
Qed.

(** A full node is never emptied. *)
Lemma deleted_full_nonnil cs t' key : minimal_tree (TFull cs) → hexkey key → deleted (TFull cs) t' key → minimal_tree t'.
Proof.
  intros Hm Hk ([[_ [->|?]]|[-> ?]] & Hget); [|done|by apply hexkey_nonempty in Hk]. exfalso.
  destruct (full_two_keys cs Hm) as (x & y & k1 & k2 & v1 & v2 & Hne & H1 & H2 & E1 & E2).
  pose proof (Hget (x :: k1) (λ _, H1)) as G1. pose proof (Hget (y :: k2) (λ _, H2)) as G2.
  rewrite E1 in G1. rewrite E2 in G2. cbn [tget] in *. do 2 case_bool_decide; congruence.
Qed.

Lemma deleted_join k cs s' a :
  minimal_tree (TShort k (TFull cs)) → hexkey a → deleted (TFull cs) s' a →
  deleted (TShort k (TFull cs)) (join k s') (k ++ a).
Proof.
  intros Hm Ha Hdel. inversion Hm as [|? ? Hk Hn Hf|]; subst.
  pose proof (deleted_full_nonnil cs s' a Hf Ha Hdel) as Hmin. destruct Hdel as [_ Hget]. split.
  - left. split; [by apply hexkey_app|]. right. by apply join_minimal.
  - intros r Hr. rewrite hexkey_app in Hr by done. specialize (Hr Ha). rewrite tget_join, !tget_short.
    destruct (strip k r) as [r'|] eqn:E.
    + apply strip_Some in E as ->. rewrite hexkey_app in Hr by done. rewrite Hget by done.
      rewrite (bool_decide_ext (r' = a) (k ++ r' = k ++ a)); [done|]. split; [congruence|apply app_inv_head].
    + by case_bool_decide.
Qed.

Lemma deleted_slot x c c' key :
  nib x ∧ hexkey key ∨ x = 16 ∧ key = [] → deleted c c' key → c' = TNil ∨ slot_ok (Z.to_nat x) c'.
Proof.
  unfold nib. intros Hx [[[Hk [|Hm]]|[_ ?]] _]; [by left| |by left]. right. left.
  destruct Hx as [[? _]|[_ ->]]; [split; [lia|done]|by apply hexkey_nonempty in Hk].
Qed.

Lemma deleted_full cs x c c' key t' :
  minimal_tree (TFull cs) → hexkey (x :: key) → cs !! Z.to_nat x = Some c → deleted c c' key →
  minimal_tree t' → (∀ r, hexkey r → tget t' r = tget (TFull (<[Z.to_nat x := c']> cs)) r) →
  deleted (TFull cs) t' (x :: key).
Proof.
  intros Hm Hk Hc [_ Hget] Hm' Ht'. apply lookup_lt_Some in Hc as Hlt.
  assert (nib x ∧ hexkey key ∨ x = 16 ∧ key = []) as Hx by (apply hexkey_cons in Hk; tauto).
  split; [left; split; [done|by right]|]. intros r Hr. specialize (Hr Hk). rewrite Ht' by done.
  destruct r as [|y r]; [by apply hexkey_nonempty in Hr|].
  assert (0 <= y) as Hy by (apply hexkey_cons in Hr as [[-> _]|[? _]]; unfold nib in *; lia).
  assert (0 <= x) by (unfold nib in Hx; lia). rewrite tget_full_insert by done. case_bool_decide as E.
  - assert (y = x) as -> by lia. rewrite Hget.
    + rewrite (bool_decide_ext (r = key) (x :: r = x :: key)); [|split; congruence].
      case_bool_decide; [done|]. by rewrite tget_full, Hc.
    + intros Hkey. apply hexkey_cons in Hr as [[-> ->]|[_ ?]]; [|done].
      destruct Hx as [[? _]|[_ ->]]; [unfold nib in *; lia|done].
  - rewrite bool_decide_eq_false_2; [done|]. intros [= -> ->]. done.
Qed.

(** The children of a full node after a deletion. *)
Lemma children_after cs x c c' key :
  minimal_tree (TFull cs) → hexkey (x :: key) → cs !! Z.to_nat x = Some c → deleted c c' key →
  length (<[Z.to_nat x := c']> cs) = 17%nat ∧
  (∀ i d, <[Z.to_nat x := c']> cs !! i = Some d → d = TNil ∨ slot_ok i d) ∧
  (1 <= occupied (<[Z.to_nat x := c']> cs))%nat.
Proof.
  intros Hm Hk Hc Hdel. destruct (minimal_full_inv cs Hm) as (Hl & _ & _ & Ho).
  assert (nib x ∧ hexkey key ∨ x = 16 ∧ key = []) as Hx by (apply hexkey_cons in Hk; tauto). split_and!.
  - by rewrite length_insert.
  - intros i d Hi. destruct (decide (i = Z.to_nat x)) as [->|].
    + rewrite list_lookup_insert_eq in Hi by (by eapply lookup_lt_Some). injection Hi as <-. by eapply deleted_slot.
    + rewrite list_lookup_insert_ne in Hi by done. destruct (tnil d) eqn:Ed; [left; by destruct d|].
      right. apply (minimal_child cs); [done|done|by intros ->].
  - pose proof (occupied_insert cs _ c' _ Hc). destruct (tnil c), (tnil c'); lia.
Qed.

Lemma delete_short fuel b k m s fl prefix key :
  (∀ b n t prefix key, rep db b n t → ok_at t key → (need n key <= fuel)%nat →
    ∃ d n' t', delete db fuel n prefix key = inl (d, n') ∧ rep db b n' t' ∧ deleted t t' key ∧
      (if d then is_hash n' = false else t' = t)) →
  rep db b (shortNode k m fl) (TShort k s) → hexkey key → minimal_tree (TShort k s) →
  (need (shortNode k m fl) key <= S fuel)%nat →
  ∃ d n' t', delete db (S fuel) (shortNode k m fl) prefix key = inl (d, n') ∧ rep db b n' t' ∧
    deleted (TShort k s) t' key ∧ (if d then is_hash n' = false else t' = TShort k s).
Proof.
  intros IH Hr Hk Hmin Hf. inversion Hr as [| |? ? ? ? ? Hm Hfl| |]; subst. cbn [delete].
  destruct (prefixLen_split key k) as (p & a & c & -> & -> & El & Hd). rewrite El, !length_app.
  assert (root_tree (TShort (p ++ c) s)) as Hroot by by right. destruct c as [|y c].
  2:{ cbn [length]. destruct (Nat.ltb_spec (length p) (length p + S (length c))); [|lia].
      do 3 eexists. split_and!; [done|exact Hr| |done]. apply deleted_same; [done|done|].
      rewrite tget_short, strip_app_both. destruct a as [|x a]; [done|]. cbn.
      destruct (Z.eqb_spec y x) as [->|]; [|done]. by destruct (Hd x x). }
  rewrite app_nil_r in *. cbn [length]. rewrite Nat.add_0_r, Nat.ltb_irrefl. destruct a as [|x a].
  - cbn [length]. rewrite Nat.add_0_r, Nat.eqb_refl. do 3 eexists. split_and!; [done|constructor| |done].
    rewrite app_nil_r in *. inversion Hmin as [? v Hp Hv|? cs Hp Hn Hcs|]; subst.
    + split; [left; split; [done|by left]|]. intros r _. rewrite tget_leaf. by case_bool_decide.
    + destruct Hk as (q & _ & ->). apply Forall_app in Hn as [_ H]. inversion H as [|? ? H16 _]; subst.
      unfold nib in H16. lia.
  - cbn [length]. destruct (Nat.eqb_spec (length p) (length p + S (length a))); [lia|].
    destruct (ok_at_short p s (p ++ x :: a) (x :: a)) as [Hok' Hpn]; [left; by split|done|].
    inversion Hmin as [? v Hp Hv|? cs Hp Hn Hcs|]; subst; [by apply ok_at_val in Hok'|].
    rewrite take_app_length, drop_app_length. pose proof (short_need p m fl _ (x :: a) eq_refl Hpn).
    assert (hexkey (x :: a)) as Ha by by apply (hexkey_app p).
    destruct (IH false m (TFull cs) (prefix ++ p) (x :: a) Hm Hok') as (d & n' & s' & -> & Hr' & Hdel & Hd'); [lia|].
    cbn [mbind TR_bind]. destruct d; cbn [negb].
    + do 3 eexists. split_and!; [done| |by apply deleted_join|by destruct n'].
      pose proof (deleted_full_nonnil cs s' (x :: a) Hcs Ha Hdel) as Hmin'.
      destruct Hmin' as [k' v' Hk' Hv'|k' cs' Hk' Hn' Hf'|cs' ? ? ? ?]; inversion Hr'; subst; try done.
      all: constructor; [done|apply flag_ok_new].
    + subst s'. do 3 eexists. split_and!; [done|exact Hr| |done].
      apply deleted_same; [done|done|]. rewrite tget_ext. destruct Hdel as [_ Hg]. specialize (Hg (x :: a) (λ _, Ha)).
      by rewrite bool_decide_eq_true_2 in Hg.
Qed.

Lemma delete_rep fuel b n t prefix key :
  rep db b n t → ok_at t key → (need n key <= fuel)%nat →
  ∃ d n' t', delete db fuel n prefix key = inl (d, n') ∧ rep db b n' t' ∧ deleted t t' key ∧
    (if d then is_hash n' = false else t' = t).
Proof.
  revert b n t prefix key.
  induction fuel as [|fuel IH]; intros b n t prefix key Hr Hok Hf; [pose proof (need_pos n key); lia|].
  inversion Hr as [?|? w|? k m s fl Hm Hfl|? ns ts fl Hns Hfl|? s Hb Hs Hh Hst]; subst.
  - exists false, nilNode, TNil. split_and!; [done|done| |done]. split; [|intros r _; by case_bool_decide].
    destruct Hok as [[? _]|[-> _]]; [left; split; [done|by left]|by right].
  - apply ok_at_val in Hok as ->. exists true, nilNode, TNil. split_and!; [done|constructor| |done].
    split; [by right|]. intros r _. by destruct r.
  - destruct Hok as [[Hk [|Hmin]]|[_ [|(? & [=] & _)]]]; try done. by apply delete_short.
  - destruct key as [|x rest]; [by apply ok_at_full_nil in Hok|].
    destruct (ok_at_full ts x rest Hok) as (c & Hx & Hc & Hok').
    destruct Hok as [[Hk [|Hmin]]|[? _]]; try done. cbn [delete].
    destruct (child_ok ns ts x c Hns) as (m & -> & Hm & Hmi); [lia|done|]. cbn [mbind TR_bind].
    pose proof (full_need ns fl m x rest).
    destruct (IH false m c (prefix ++ [x]) rest Hm Hok') as (d & n' & c' & -> & Hr' & Hdel & Hd'); [lia|].
    cbn [mbind TR_bind]. destruct d; cbn [negb].
    + destruct (children_after ts x c c' rest Hmin Hk Hc Hdel) as (Hl & Hslots & Ho).
      assert (Forall2 (rep db false) (<[Z.to_nat x := n']> ns) (<[Z.to_nat x := c']> ts)) as Hns'
        by by apply Forall2_insert.
      destruct (reduce_rep b _ _ prefix Hns' Hl Hslots Ho) as (n'' & t' & -> & Hr'' & Hmin' & Hget & Hnh).
      exists true, n'', t'. split_and!; [done|done|by eapply deleted_full|done].
    + subst c'. exists false, (fullNode ns fl), (TFull ts). split_and!; [done|done| |done].
      eapply deleted_full; [done|done|done|done|done|]. intros r _. by rewrite list_insert_id.
  - destruct (resolve_rep b _ _ prefix Hr) as (E & Hr' & Hnh). cbn [delete]. rewrite E. cbn [mbind TR_bind].
    rewrite (need_hash _ (load (Some (tree_hash t)) t)) in Hf by done.
    destruct (IH b _ t prefix key Hr') as (d & n' & t' & -> & Hr'' & Hdel & Hd); [done|lia|].
    cbn. destruct d; [by exists true, n', t'|]. subst t'. by exists false, (load (Some (tree_hash t)) t), t.
Qed.

(** *** The trie as a finite map *)

(** The keys of the tree are byte strings. *)
Definition byte_keys (t : tree) : Prop :=
  ∀ r v, hexkey r → tget t r = Some v → ∃ s, Forall is_byte s ∧ r = keybytesToHex s.

(** The tree holds the map. *)
Definition holds (t : tree) (m : gmap bytes bytes) : Prop :=
  root_tree t ∧ byte_keys t ∧ ∀ k, Forall is_byte k → tget t (keybytesToHex k) = m !! k.

(** A root in memory represents a map. *)
Definition represents (root : node) (m : gmap bytes bytes) : Prop :=
  ∃ t, rep db true root t ∧ holds t m.

Lemma need_fuel n k : (need n k <= fuel_for k)%nat.
Proof. unfold need, fuel_for. destruct (is_hash n); lia. Qed.

Lemma root_ok_at t key : root_tree t → Forall is_byte key → ok_at t (keybytesToHex key).
Proof. intros Ht Hk. left. split; [by apply keybytesToHex_key|done]. Qed.

(** A change at one key of the tree is a change at that key of the map. *)
Lemma holds_update t t' m m' key (o : option bytes) :
  holds t m → root_tree t' → Forall is_byte key → m' = partial_alter (λ _, o) key m →
  (∀ r, (hexkey (keybytesToHex key) → hexkey r) →
    tget t' r = if bool_decide (r = keybytesToHex key) then o else tget t r) → holds t' m'.
Proof.
  intros (_ & Hb & Hm) Ht' Hk -> Hget. split_and!; [done| |].
  - intros r v Hr Hv. rewrite Hget in Hv by done. case_bool_decide; [|by eapply Hb]. subst r. by exists key.
  - intros k Hk'. rewrite Hget by (intros _; by apply keybytesToHex_key). case_bool_decide as E.
    + apply keybytesToHex_inj in E as ->; [|done..]. by rewrite lookup_partial_alter_eq.
    + rewrite lookup_partial_alter_ne by congruence. by apply Hm.
Qed.

Lemma TryGet_spec root m key :
  represents root m → Forall is_byte key →
  ∃ root', TryGet db root key = inl (m !! key, root') ∧ represents root' m.
Proof.
  intros (t & Hr & Hh) Hk. destruct Hh as (Ht & Hb & Hm). unfold TryGet.
  destruct (tryGet_rep (fuel_for (keybytesToHex key)) true root t (keybytesToHex key) 0 Hr) as (n' & d & -> & Hr').
  - rewrite drop_0. by apply root_ok_at.
  - rewrite drop_0. apply need_fuel.
  - rewrite drop_0, Hm by done. cbn. eexists. split; [done|]. exists t. split; [by destruct d|done].
Qed.

Lemma TryDelete_spec root m key :
  represents root m → Forall is_byte key →
  ∃ root', TryDelete db root key = inl root' ∧ represents root' (base.delete key m).
Proof.
  intros (t & Hr & Hh) Hk. pose proof Hh as (Ht & _). unfold TryDelete.
  destruct (delete_rep (fuel_for (keybytesToHex key)) true root t [] (keybytesToHex key) Hr)
    as (d & n' & t' & -> & Hr' & [Hok Hget] & _); [by apply root_ok_at|apply need_fuel|].
  cbn. eexists. split; [done|]. exists t'. split; [done|].
  eapply (holds_update t t' m _ key None); [done| |done|done|done].
  destruct Hok as [[_ ?]|[E _]]; [done|]. unfold keybytesToHex in E. by destruct (nibbles_of key).
Qed.

Lemma TryUpdate_spec root m key value :
  represents root m → Forall is_byte key →
  ∃ root', TryUpdate db root key value = inl root' ∧
    represents root' (if bool_decide (value = []) then base.delete key m else <[key := value]> m).
Proof.
  intros Hrep Hk. unfold TryUpdate. destruct (Nat.ltb_spec 0 (length value)) as [Hlen|Hlen].
  - rewrite bool_decide_eq_false_2 by (by destruct value; [cbn in Hlen; lia|]).
    assert (value ≠ []) as Hv by (by destruct value; [cbn in Hlen; lia|]).
    destruct Hrep as (t & Hr & Hh). pose proof Hh as (Ht & _).
    destruct (insert_rep (fuel_for (keybytesToHex key)) true root t [] (keybytesToHex key) value Hr)
      as (d & n' & t' & -> & Hr' & (Hok & _ & Hget & _) & _); [by apply root_ok_at|done|apply need_fuel|].
    cbn. eexists. split; [done|]. exists t'. split; [done|].
    eapply (holds_update t t' m _ key (Some value)); [done| |done|done|done].
    destruct Hok as [[_ ?]|[E _]]; [done|]. unfold keybytesToHex in E. by destruct (nibbles_of key).
  - destruct value; [|cbn in Hlen; lia]. rewrite bool_decide_eq_true_2 by done. by apply TryDelete_spec.
Qed.

Lemma holds_unique t1 t2 m : holds t1 m → holds t2 m → t1 = t2.
Proof.
  intros (R1 & B1 & M1) (R2 & B2 & M2).
  assert (∀ k, hexkey k → tget t1 k = tget t2 k) as E.
  { intros k Hk. destruct (tget t1 k) as [v|] eqn:E1.
    - destruct (B1 k v Hk E1) as (s & Hs & ->). by rewrite M2, <-M1.
    - destruct (tget t2 k) as [v|] eqn:E2; [|done]. destruct (B2 k v Hk E2) as (s & Hs & ->).
      by rewrite M2, <-M1, E1 in E2. }
  assert (∀ t t', root_tree t → minimal_tree t' → (∀ k, hexkey k → tget t k = tget t' k) → minimal_tree t) as Hmin.
  { intros t t' [->|?] Hm He; [|done]. destruct (minimal_has_key t' Hm) as (k & v & Hk & Hv).
    specialize (He k Hk). rewrite Hv in He. done. }
  destruct R1 as [->|R1], R2 as [->|R2]; [done| | |by apply minimal_unique].
  - exfalso. assert (minimal_tree TNil) as H by (apply (Hmin TNil t2); [by left|done|done]). inversion H.
  - exfalso. assert (minimal_tree TNil) as H; [|inversion H]. apply (Hmin TNil t1); [by left|done|]. intros k Hk. by rewrite E.
Qed.

Lemma represents_empty : represents nilNode ∅.
Proof.
  exists TNil. split; [constructor|]. split_and!; [by left|by intros r v|]. done.
Qed.
End refinement.

(** C16. The trie is a finite map. On a trie in memory that represents a map, with any
    part of it still in the database, lookup returns the value of the key, an update
    sets it (an empty value removes it), a deletion removes it, none of them fails, and
    each leaves a trie that represents the result. *)
Theorem trie_refines_map `{KeccakLib, !KeccakLaws} db root m key value :
  represents db root m → Forall is_byte key →
  (∃ root', TryGet db root key = inl (m !! key, root') ∧ represents db root' m) ∧
  (∃ root', TryUpdate db root key value = inl root' ∧
     represents db root' (if bool_decide (value = []) then base.delete key m else <[key := value]> m)) ∧
  (∃ root', TryDelete db root key = inl root' ∧ represents db root' (base.delete key m)).
Proof.
  intros Hr Hk. split_and!; [by apply TryGet_spec|by apply TryUpdate_spec|by apply TryDelete_spec].
Qed.

Lemma trie_refines_map_witness :
  (∃ root', TryGet (λ _, Ret None) nilNode [1; 2] = inl (None, root')) ∧
  ∃ root', TryUpdate (λ _, Ret None) nilNode [1; 2] [5] = inl root' ∧
    @represents toy_keccak (λ _, Ret None) root' {[[1; 2] := [5]]}.
Proof.
  destruct (@trie_refines_map toy_keccak _ (λ _, Ret None) nilNode ∅ [1; 2] [5])
    as ((r1 & E1 & _) & (r2 & E2 & H2) & _); [apply represents_empty|by repeat constructor|].
  split; [by exists r1|]. exists r2. split; [exact E2|]. exact H2.
Defined.
