(* ===== verification/TrieNodes.v ===== *)
(** * Trie nodes on disk (trie/node.go, trie/database.go)

    The RLP form of a node, its parser, and the simplified nodes that the database keeps
    in memory.  The encoder is that of the RLP component; the theorems say that a node of
    a tree is encoded as [tree_rlp] defines, and that both ways to read it back give the
    node with hashes for the subtries that are not embedded. *)

From Stdlib Require Import ZArith Lia ZifyBool.
From stdpp Require Import base tactics strings numbers gmap list.
From S2P Require Import Prelude Rlp RlpDecode RlpCanon TrieKeys Trie.

Local Open Scope Z_scope.

(** ** Simplified nodes: without caches and flags *)

Inductive raw :=
| RNil
| RFull (cs : list raw)
| RShort (k : bytes) (v : raw)
| RHash (h : bytes)
| RValue (v : bytes)
| RBlob (b : bytes).

Lemma raw_ind' (P : raw → Prop) :
  P RNil → (∀ cs, Forall P cs → P (RFull cs)) → (∀ k v, P v → P (RShort k v)) →
  (∀ h, P (RHash h)) → (∀ v, P (RValue v)) → (∀ b, P (RBlob b)) → ∀ r, P r.
Proof.
  intros HN HF HS HH HV HB. fix IH 1.
  intros [|cs|k v|h|v|b]; [apply HN|apply HF|apply HS, IH|apply HH|apply HV|apply HB].
  induction cs as [|c cs IHc]; constructor; [apply IH|exact IHc].
Qed.

Fixpoint outcome_all {A} (l : list (outcome A)) : outcome (list A) :=
  match l with
  | [] => Ret []
  | m :: l => a ← m; rest ← outcome_all l; Ret (a :: rest)
  end.

Fixpoint simplifyNode (n : node) : outcome raw :=
  match n with
  | shortNode k v _ => v ← simplifyNode v; Ret (RShort k v)
  | fullNode cs _ =>
      cs ← outcome_all ((λ c, if is_nil c then Ret RNil else simplifyNode c) <$> cs);
      Ret (RFull cs)
  | valueNode v => Ret (RValue v)
  | hashNode h => Ret (RHash h)
  | nilNode => Panic "unknown node type"
  end.

Definition raw_is_nil (r : raw) : bool := match r with RNil => true | _ => false end.

Fixpoint expandNode (hash : option bytes) (r : raw) : outcome node :=
  match r with
  | RShort k v =>
      v ← expandNode None v;
      Ret (shortNode (compactToHex k) v (mkFlag hash false))
  | RFull cs =>
      cs ← outcome_all ((λ c, if raw_is_nil c then Ret nilNode else expandNode None c) <$> cs);
      Ret (fullNode cs (mkFlag hash false))
  | RValue v => Ret (valueNode v)
  | RHash h => Ret (hashNode h)
  | RNil | RBlob _ => Panic "unknown node type"
  end.

(** The hashes a simplified node refers to. *)
Fixpoint gatherChildren (r : raw) : list bytes :=
  match r with
  | RShort _ v => gatherChildren v
  | RFull cs => mjoin (take 16 ((λ c, gatherChildren c) <$> cs))
  | RHash h => [BytesToHash h]
  | RValue _ | RNil | RBlob _ => []
  end.

(** ** The RLP form

    The interface values that [rlp.Encode] sees.  A full node has an [EncodeRLP] method,
    which encodes the array of its children with nil children as empty strings. *)

Definition flagT : ty := TStruct [(false, no_tags, TBytes); (false, no_tags, TBool)].
Definition shortT : ty :=
  TStruct [(true, no_tags, TBytes); (true, no_tags, TIface); (false, no_tags, flagT)].
Definition rawShortT : ty := TStruct [(true, no_tags, TBytes); (true, no_tags, TIface)].
Definition nodesT : ty := TArray 17 TIface.

Definition flag_val (fl : nodeFlag) : val :=
  VList [VBytes (default [] (nf_hash fl)); VBool (nf_dirty fl)].

Fixpoint node_val (n : node) : val :=
  match n with
  | nilNode => VNil
  | valueNode v => VIface TBytes (VBytes v)
  | hashNode h => VIface TBytes (VBytes h)
  | shortNode k v fl => VIface (TPtr shortT) (VPtr (VList [VBytes k; node_val v; flag_val fl]))
  | fullNode cs _ =>
      VIface nodesT
        (VList ((λ c, if is_nil c then VIface TBytes (VBytes []) else node_val c) <$> cs))
  end.

Fixpoint raw_val (r : raw) : val :=
  match r with
  | RNil => VNil
  | RValue v => VIface TBytes (VBytes v)
  | RHash h => VIface TBytes (VBytes h)
  | RBlob b => VIface TBytes (VBytes b)
  | RShort k v => VIface (TPtr rawShortT) (VPtr (VList [VBytes k; raw_val v]))
  | RFull cs =>
      VIface nodesT
        (VList ((λ c, if raw_is_nil c then VIface TBytes (VBytes []) else raw_val c) <$> cs))
  end.

(** [rlp.Encode] of the value in an interface. *)
Definition encode_iface (v : val) : outcome bytes :=
  match v with
  | VIface t v => match EncodeToBytes t v with inl b => Ret b | inr _ => Panic "encode error" end
  | _ => Panic "encode error"
  end.

Definition node_rlp (n : node) : outcome bytes := encode_iface (node_val n).
Definition raw_rlp (r : raw) : outcome bytes :=
  match r with RBlob b => Ret b | _ => encode_iface (raw_val r) end.

(** ** The parser *)

Inductive nodeErr := errEOF | errDecode (what : string).

Definition decodeRef (dec : option bytes → bytes → node + nodeErr) (buf : bytes)
    : (node * bytes) + nodeErr :=
  match Split buf with
  | inr _ => inr (errDecode "rlp")
  | inl (kind, v, rest) =>
      if bool_decide (kind = KList) then
        if 32 <? lenZ buf - lenZ rest then inr (errDecode "oversized embedded node")
        else match dec None buf with
             | inl n => inl (n, rest)
             | inr e => inr e
             end
      else if bool_decide (kind = KString) && (lenZ v =? 0) then inl (nilNode, rest)
      else if bool_decide (kind = KString) && (lenZ v =? 32) then inl (hashNode v, rest)
      else inr (errDecode "invalid RLP string size")
  end.

Definition decodeShort (dec : option bytes → bytes → node + nodeErr) (hash : option bytes) (elems : bytes)
    : node + nodeErr :=
  match SplitString elems with
  | inr _ => inr (errDecode "rlp")
  | inl (kbuf, rest) =>
      let key := compactToHex kbuf in
      if hasTerm key then
        match SplitString rest with
        | inr _ => inr (errDecode "invalid value node")
        | inl (v, _) => inl (shortNode key (valueNode v) (mkFlag hash false))
        end
      else
        match decodeRef dec rest with
        | inr e => inr e
        | inl (r, _) => inl (shortNode key r (mkFlag hash false))
        end
  end.

(** [for i := 0; i < 16; i++]. *)
Fixpoint decodeRefs (dec : option bytes → bytes → node + nodeErr) (n : nat) (elems : bytes)
    : (list node * bytes) + nodeErr :=
  match n with
  | O => inl ([], elems)
  | S n =>
      match decodeRef dec elems with
      | inr e => inr e
      | inl (c, rest) =>
          match decodeRefs dec n rest with
          | inr e => inr e
          | inl (cs, rest) => inl (c :: cs, rest)
          end
      end
  end.

Definition decodeFull (dec : option bytes → bytes → node + nodeErr) (hash : option bytes) (elems : bytes)
    : node + nodeErr :=
  match decodeRefs dec 16 elems with
  | inr e => inr e
  | inl (cs, rest) =>
      match SplitString rest with
      | inr _ => inr (errDecode "rlp")
      | inl (v, _) =>
          inl (fullNode (cs ++ [if 0 <? lenZ v then valueNode v else nilNode]) (mkFlag hash false))
      end
  end.

Fixpoint decodeNode_loop (fuel : nat) (hash : option bytes) (buf : bytes) : node + nodeErr :=
  match fuel with
  | O => inr (errDecode "out of fuel")
  | S fuel =>
      match buf with
      | [] => inr errEOF
      | _ =>
          match SplitList buf with
          | inr _ => inr (errDecode "rlp")
          | inl (elems, _) =>
              match CountValues elems with
              | inl 2 => decodeShort (decodeNode_loop fuel) hash elems
              | inl 17 => decodeFull (decodeNode_loop fuel) hash elems
              | _ => inr (errDecode "invalid number of list elements")
              end
          end
      end
  end.

(** An embedded node is shorter than the node around it. *)
Definition decodeNode (hash : option bytes) (buf : bytes) : node + nodeErr :=
  decodeNode_loop (S (length buf)) hash buf.

Definition mustDecodeNode (hash : option bytes) (buf : bytes) : outcome node :=
  match decodeNode hash buf with
  | inl n => Ret n
  | inr _ => Panic "node"
  end.

(** ** Encoding a node *)

Lemma node_ind' (P : node → Prop) :
  P nilNode → (∀ cs fl, Forall P cs → P (fullNode cs fl)) → (∀ k v fl, P v → P (shortNode k v fl)) →
  (∀ h, P (hashNode h)) → (∀ v, P (valueNode v)) → ∀ n, P n.
Proof.
  intros HN HF HS HH HV. fix IH 1. intros [|cs fl|k v fl|h|v]; [apply HN|apply HF|apply HS, IH|apply HH|apply HV].
  induction cs as [|c cs IHc]; constructor; [apply IH|exact IHc].
Qed.

(** A node without its flags. *)
Fixpoint erase (n : node) : raw :=
  match n with
  | nilNode => RNil
  | valueNode v => RValue v
  | hashNode h => RHash h
  | shortNode k v _ => RShort k (erase v)
  | fullNode cs _ => RFull ((λ c, erase c) <$> cs)
  end.

(** The encoding of a simplified node. *)
Fixpoint raw_enc (r : raw) : bytes :=
  match r with
  | RNil => [192]
  | RValue v | RHash v | RBlob v => enc_str v
  | RShort k v => enc_list (enc_str k ++ raw_enc v)
  | RFull cs => enc_list (mjoin ((λ c, if raw_is_nil c then [128] else raw_enc c) <$> cs))
  end.

(** The bytes of a node are bytes, and a full node has 17 children. *)
Inductive wf_raw : raw → Prop :=
| wf_RNil : wf_raw RNil
| wf_RValue v : Forall is_byte v → wf_raw (RValue v)
| wf_RHash h : Forall is_byte h → wf_raw (RHash h)
| wf_RShort k v : Forall is_byte k → wf_raw v → wf_raw (RShort k v)
| wf_RFull cs : length cs = 17%nat → Forall wf_raw cs → wf_raw (RFull cs).

(** So are the cached hashes. *)
Fixpoint wf_flags (n : node) : Prop :=
  match n with
  | shortNode _ v fl => Forall is_byte (default [] (nf_hash fl)) ∧ wf_flags v
  | fullNode cs fl => foldr (λ c P, wf_flags c ∧ P) True cs
  | _ => True
  end.

Lemma is_nil_erase n : raw_is_nil (erase n) = is_nil n.
Proof. by destruct n. Qed.

Lemma concat_all_map {A} (f : A → option bytes) (g : A → bytes) l :
  (∀ x, x ∈ l → f x = Some (g x)) → concat_all (f <$> l) = Some (mjoin (g <$> l)).
Proof.
  intros H. induction l as [|x l IH]; [done|]. cbn. rewrite H by left. cbn.
  rewrite IH; [done|]. intros y Hy. apply H. by right.
Qed.

Lemma enc_node_val n : enc (node_val n) TIface no_tags = Some (raw_enc (erase n)).
Proof.
  induction n as [|cs fl IH|k v fl IH|h|v] using node_ind'; try done.
  - cbn -[enc_list]. rewrite <-list_fmap_compose. 
    rewrite (concat_all_map _ (λ c, if is_nil c then [128] else raw_enc (erase c))).
    + cbn -[enc_list]. do 3 f_equal. rewrite <-!list_fmap_compose. apply list_fmap_ext. intros i c Hc.
      cbn. by rewrite is_nil_erase.
    + intros c Hc. cbn. destruct (is_nil c); [done|]. rewrite Forall_forall in IH. by apply IH.
  - cbn -[enc_list enc]. change (enc (VList [VBytes k; node_val v; flag_val fl]) shortT no_tags =
      Some (enc_list (enc_str k ++ raw_enc (erase v)))).
    cbn -[enc_list]. rewrite IH. cbn -[enc_list]. by rewrite app_nil_r.
Qed.

Lemma enc_raw_val r : enc (raw_val r) TIface no_tags = Some (raw_enc r).
Proof.
  induction r as [|cs IH|k v IH|h|v|b] using raw_ind'; try done.
  - cbn -[enc_list]. rewrite <-list_fmap_compose.
    rewrite (concat_all_map _ (λ c, if raw_is_nil c then [128] else raw_enc c)).
    + done.
    + intros c Hc. cbn. destruct (raw_is_nil c); [done|]. rewrite Forall_forall in IH. by apply IH.
  - change (enc (VList [VBytes k; raw_val v]) rawShortT no_tags = Some (enc_list (enc_str k ++ raw_enc v))).
    cbn -[enc_list]. rewrite IH. cbn -[enc_list]. by rewrite app_nil_r.
Qed.

Lemma has_type_children {A} (f : A → val) (isn : A → bool) l :
  length l = 17%nat → (∀ x, x ∈ l → has_type (f x) TIface) →
  has_type (VList ((λ x, if isn x then VIface TBytes (VBytes []) else f x) <$> l)) nodesT.
Proof.
  intros Hl Hf. split; [by rewrite length_fmap|]. apply has_type_elems, Forall_fmap, Forall_forall.
  intros x Hx. cbn. destruct (isn x); [constructor|by apply Hf].
Qed.

Lemma node_val_typed n : wf_raw (erase n) → wf_flags n → has_type (node_val n) TIface.
Proof.
  induction n as [|cs fl IH|k v fl IH|h|v] using node_ind'; intros Hw Hf; try done.
  - inversion Hw as [| | | |? Hl Hall]; subst. rewrite length_fmap in Hl.
    apply (has_type_children node_val is_nil); [done|]. intros c Hc. rewrite Forall_forall in IH.
    apply IH; [done|rewrite Forall_fmap, Forall_forall in Hall; by apply Hall|].
    cbn in Hf. clear -Hf Hc. induction Hc as [c cs|c d cs Hc IHc]; cbn in Hf; tauto.
  - inversion Hw; subst. destruct Hf as [Hfl Hf]. change (has_type (VList [VBytes k; node_val v; flag_val fl]) shortT).
    apply has_type_struct. cbn. split_and!; try done. by apply IH.
  - by inversion Hw.
  - by inversion Hw.
Qed.

Lemma raw_val_typed r : wf_raw r → has_type (raw_val r) TIface.
Proof.
  induction r as [|cs IH|k v IH|h|v|b] using raw_ind'; intros Hw; try done; inversion Hw; subst; try done.
  - apply (has_type_children raw_val raw_is_nil); [done|]. intros c Hc. rewrite Forall_forall in *. by apply IH, H1.
  - change (has_type (VList [VBytes k; raw_val v]) rawShortT).
    apply has_type_struct. cbn. split_and!; try done. by apply IH.
Qed.

Lemma encode_iface_ok v b :
  v ≠ VNil → has_type v TIface → enc v TIface no_tags = Some b → lenZ b < 2 ^ 64 → encode_iface v = Ret b.
Proof.
  intros Hn Ht He Hl. destruct v as [| | | | | | |t v]; try done. cbn in Ht, He.
  destruct (type_ok t) eqn:Et; [|done]. pose proof (EncodeToBytes_spec t v Ht) as H.
  unfold encoding in H. rewrite Et, He in H. cbn. by rewrite H.
Qed.

Lemma node_rlp_ok n :
  is_nil n = false → wf_raw (erase n) → wf_flags n → lenZ (raw_enc (erase n)) < 2 ^ 64 →
  node_rlp n = Ret (raw_enc (erase n)).
Proof.
  intros Hn Hw Hf Hl. apply encode_iface_ok; [by destruct n|by apply node_val_typed|apply enc_node_val|done].
Qed.

Lemma raw_rlp_ok r :
  raw_is_nil r = false → wf_raw r → lenZ (raw_enc r) < 2 ^ 64 → raw_rlp r = Ret (raw_enc r).
Proof.
  intros Hn Hw Hl. assert (encode_iface (raw_val r) = Ret (raw_enc r)) as E.
  { apply encode_iface_ok; [by destruct r|by apply raw_val_typed|apply enc_raw_val|done]. }
  destruct r; try done. inversion Hw.
Qed.

(** ** The nodes of a tree *)

Section tree_nodes.
  Context {KL : KeccakLib} {KLaws : KeccakLaws}.

(** The collapsed node of a tree: keys in compact form, subtries by reference. *)
Fixpoint craw (t : tree) : raw :=
  match t with
  | TNil => RNil
  | TVal v => RValue v
  | TShort k t => RShort (compact k) (if big t then RHash (tree_hash t) else craw t)
  | TFull cs => RFull ((λ c, if big c then RHash (tree_hash c) else craw c) <$> cs)
  end.

Definition cref (t : tree) : raw := if big t then RHash (tree_hash t) else craw t.

(** Sizes fit a [uint64], values are bytes. *)
Definition fine (t : tree) : Prop :=
  ∀ s, sub s t → lenZ (tree_rlp s) < 2 ^ 64 ∧ ∀ v, s = TVal v → Forall is_byte v.

Lemma fine_short k t : fine (TShort k t) → fine t.
Proof. intros H s Hs. apply H. by constructor. Qed.

Lemma fine_full cs c : fine (TFull cs) → c ∈ cs → fine c.
Proof. intros H Hc s Hs. apply H. by eapply sub_full. Qed.

(** The children of a minimal node. *)
Inductive minimal_child_tree : tree → Prop :=
| mc_nil : minimal_child_tree TNil
| mc_val v : v ≠ [] → minimal_child_tree (TVal v)
| mc_node t : minimal_tree t → minimal_child_tree t.

Lemma full_child_minimal cs c : minimal_tree (TFull cs) → c ∈ cs → minimal_child_tree c.
Proof.
  intros H Hc. apply list_elem_of_lookup in Hc as [i Hi]. destruct (tnil c) eqn:E; [destruct c; try done; constructor|].
  destruct (minimal_child cs i c H Hi) as [[_ Hm]|[_ (v & -> & Hv)]]; [by intros ->|by constructor|by constructor].
Qed.

Lemma short_child_minimal k t : minimal_tree (TShort k t) → minimal_child_tree t ∧ tnil t = false.
Proof. inversion 1; subst; split; try done; by constructor. Qed.

Lemma child_minimal_tree t : minimal_child_tree t → tnil t = false → (∃ v, t = TVal v) ∨ minimal_tree t.
Proof. inversion 1; subst; intros E; [done|left; by eexists|by right]. Qed.

Lemma ref_of_big t : (∃ v, t = TVal v) ∨ minimal_tree t →
  ref_of t (tree_rlp t) = if big t then enc_str (tree_hash t) else tree_rlp t.
Proof.
  intros H. unfold tree_hash. destruct t as [|v|k t|cs]; cbn [ref_of big]; [destruct H as [[? ?]|H]; [done|inversion H]|done| |].
  - destruct (Z.ltb_spec (lenZ (tree_rlp (TShort k t))) 32), (Z.leb_spec 32 (lenZ (tree_rlp (TShort k t)))); try lia; done.
  - destruct (Z.ltb_spec (lenZ (tree_rlp (TFull cs))) 32), (Z.leb_spec 32 (lenZ (tree_rlp (TFull cs)))); try lia; done.
Qed.

Lemma raw_is_nil_cref t : raw_is_nil (cref t) = tnil t.
Proof. unfold cref. destruct t; try done; by destruct (big _). Qed.

Lemma craw_enc_cref t :
  (minimal_tree t → raw_enc (craw t) = tree_rlp t) → minimal_child_tree t → tnil t = false →
  raw_enc (cref t) = ref_of t (tree_rlp t).
Proof.
  intros IH Hm Hn. rewrite ref_of_big by by apply child_minimal_tree. unfold cref.
  destruct (big t) eqn:E; [done|]. inversion Hm; subst; [done|done|by apply IH].
Qed.

Lemma craw_enc t : minimal_tree t → raw_enc (craw t) = tree_rlp t.
Proof.
  induction t as [|v|k t IH|cs IH] using tree_ind'; intros Hm; try by inversion Hm.
  - destruct (short_child_minimal k t Hm) as [Hc Hn]. cbn [craw raw_enc tree_rlp]. fold (cref t).
    by rewrite craw_enc_cref.
  - cbn [craw raw_enc tree_rlp]. do 2 f_equal. rewrite <-list_fmap_compose. apply list_fmap_ext.
    intros i c Hi. apply list_elem_of_lookup_2 in Hi. cbn. fold (cref c). rewrite raw_is_nil_cref.
    destruct (tnil c) eqn:E; [by destruct c|]. rewrite Forall_forall in IH.
    apply craw_enc_cref; [by apply IH|by eapply full_child_minimal|done].
Qed.

Lemma short_key_ok k t : minimal_tree (TShort k t) → hexkey k ∨ Forall nib k.
Proof. inversion 1; subst; [by left|by right]. Qed.

Lemma compact_ok k : hexkey k ∨ Forall nib k → hexToCompact k = Ret (compact k) ∧ Forall is_byte (compact k) ∧ compactToHex (compact k) = k.
Proof.
  intros H. destruct (compactToHex_hexToCompact k H) as (c & E & Hb & Hc & _). unfold compact. by rewrite E.
Qed.

Lemma tree_hash_bytes t : Forall is_byte (tree_hash t).
Proof. apply keccak_bytes. Qed.

Lemma craw_wf t : minimal_tree t → fine t → wf_raw (craw t).
Proof.
  induction t as [|v|k t IH|cs IH] using tree_ind'; intros Hm Hf; try by inversion Hm.
  - destruct (short_child_minimal k t Hm) as [Hc Hn]. cbn. destruct (compact_ok k (short_key_ok k t Hm)) as (_ & Hb & _).
    constructor; [done|]. apply fine_short in Hf. destruct (big t); [constructor; apply tree_hash_bytes|].
    inversion Hc; subst; [done|constructor; by apply (Hf (TVal v)); [constructor|]|by apply IH].
  - destruct (minimal_full_inv cs Hm) as (Hl & _). cbn. constructor; [by rewrite length_fmap|].
    apply Forall_fmap, Forall_forall. intros c Hc. cbn. pose proof (full_child_minimal cs c Hm Hc) as Hmc.
    pose proof (fine_full cs c Hf Hc) as Hfc. destruct (big c); [constructor; apply tree_hash_bytes|].
    rewrite Forall_forall in IH.
    inversion Hmc; subst; [constructor|constructor; by apply (Hfc (TVal v)); [constructor|]|by apply IH].
Qed.

Lemma outcome_all_map {A B} (f : A → outcome B) (g : A → B) l :
  (∀ x, x ∈ l → f x = Ret (g x)) → outcome_all (f <$> l) = Ret (g <$> l).
Proof.
  intros H. induction l as [|x l IH]; [done|]. cbn. rewrite H by left. cbn.
  rewrite IH; [done|]. intros y Hy. apply H. by right.
Qed.

Lemma expand_cref t :
  (∀ h, minimal_tree t → expandNode h (craw t) = Ret (load h t)) → minimal_child_tree t → tnil t = false →
  expandNode None (cref t) = Ret (if big t then hashNode (tree_hash t) else load None t).
Proof.
  intros IH Hm Hn. unfold cref. destruct (big t) eqn:E; [done|]. inversion Hm; subst; [done|done|by apply IH].
Qed.

(** What the memory cache returns. *)
Lemma expand_craw h t : minimal_tree t → expandNode h (craw t) = Ret (load h t).
Proof.
  revert h. induction t as [|v|k t IH|cs IH] using tree_ind'; intros h Hm; try by inversion Hm.
  - destruct (short_child_minimal k t Hm) as [Hc Hn]. cbn. fold (cref t).
    rewrite expand_cref by done. cbn. destruct (compact_ok k (short_key_ok k t Hm)) as (_ & _ & ->). done.
  - cbn. rewrite <-list_fmap_compose.
    rewrite (outcome_all_map _ (λ c, if big c then hashNode (tree_hash c) else load None c)); [done|].
    intros c Hc. cbn. fold (cref c). rewrite raw_is_nil_cref. pose proof (full_child_minimal cs c Hm Hc) as Hmc.
    destruct (tnil c) eqn:E; [by destruct c|]. rewrite Forall_forall in IH. apply expand_cref; [|done|done].
    intros h'. by apply IH.
Qed.

(** *** Parsing *)

Lemma SplitList_ok c rest : lenZ (enc_list c ++ rest) < 2 ^ 64 → SplitList (enc_list c ++ rest) = inl (c, rest).
Proof.
  intros Hl. destruct (Split_value c true rest ltac:(done) Hl) as (k & E & Hk). unfold SplitList. rewrite E.
  by destruct k.
Qed.

Lemma SplitString_ok p rest :
  Forall is_byte p → lenZ (enc_str p ++ rest) < 2 ^ 64 → SplitString (enc_str p ++ rest) = inl (p, rest).
Proof.
  intros Hp Hl. destruct (Split_value p false rest ltac:(done) Hl) as (k & E & Hk). unfold SplitString. rewrite E.
  by destruct k.
Qed.

Lemma CountValues_ok bs : Forall raw_value bs → lenZ (mjoin bs) < 2 ^ 64 → CountValues (mjoin bs) = inl (Z.of_nat (length bs)).
Proof. intros H Hl. unfold CountValues. by rewrite CountValues_loop_spec. Qed.

Lemma Split_string p rest :
  Forall is_byte p → lenZ p ≠ 1 → lenZ (enc_str p ++ rest) < 2 ^ 64 → Split (enc_str p ++ rest) = inl (KString, p, rest).
Proof.
  intros Hp H1 Hl. rewrite enc_str_long in * by (destruct (Z.eqb_spec (lenZ p) 1); [done|by destruct p]).
  unfold Split, str_head in *. rewrite <-app_assoc in *.
  rewrite (raw_readKind_head KString); [|by left|done|done|intros _ x ->; done].
  set (hd := puthead 128 183 (lenZ p)). unfold lenZ. rewrite Nat2Z.id, <-Nat2Z.inj_add, Nat2Z.id.
  rewrite drop_app_length, take_app_length, app_assoc.
  rewrite Nat2Z.id, <-length_app, drop_app_length. done.
Qed.

(** The bytes of a child in its parent. *)
Definition rbytes (c : tree) : bytes := ref_of c (tree_rlp c).

Definition content (t : tree) : bytes :=
  match t with
  | TShort k t => enc_str (compact k) ++ rbytes t
  | TFull cs => mjoin (rbytes <$> cs)
  | _ => []
  end.

Lemma tree_rlp_list t : minimal_tree t → tree_rlp t = enc_list (content t).
Proof. intros H. by inversion H. Qed.

Lemma rbytes_raw c : minimal_child_tree c → fine c → raw_value (rbytes c).
Proof.
  intros Hm Hf. destruct (Hf c (sub_refl c)) as [Hl Hv]. inversion Hm as [|v Hne|t Ht]; subst.
  - exists []. by split; [|left].
  - apply raw_value_str; [done|by apply Hv].
  - unfold rbytes. rewrite ref_of_big by by right. destruct (big c).
    + apply raw_value_str; [|apply tree_hash_bytes]. unfold tree_hash. rewrite enc_str_long.
      * rewrite lenZ_app. unfold lenZ. rewrite keccak_length. done.
      * unfold lenZ. by rewrite keccak_length.
    + rewrite (tree_rlp_list c Ht) in *. by apply raw_value_list.
Qed.

Lemma tree_hash_len t : lenZ (tree_hash t) = 32.
Proof. unfold tree_hash, lenZ. by rewrite keccak_length. Qed.

(** A reference to a child that is not a value. *)
Lemma decodeRef_child dec c rest :
  (minimal_tree c → big c = false → dec None (tree_rlp c ++ rest) = inl (load None c)) →
  minimal_child_tree c → (∀ v, c ≠ TVal v) → fine c → lenZ (rbytes c ++ rest) < 2 ^ 64 →
  decodeRef dec (rbytes c ++ rest) = inl (if big c then hashNode (tree_hash c) else load None c, rest).
Proof.
  intros Hdec Hm Hnv Hf Hl. unfold decodeRef. inversion Hm as [|v Hne|t Ht]; subst; [|by destruct (Hnv v)|].
  - change (rbytes TNil) with (enc_str []) in *. by rewrite Split_string.
  - unfold rbytes in *. rewrite ref_of_big in * by by right. destruct (big c) eqn:Eb.
    + rewrite Split_string; [|apply tree_hash_bytes|by rewrite tree_hash_len|done].
      rewrite tree_hash_len. done.
    + pose proof (tree_rlp_list c Ht) as E. set (e := content c) in *. rewrite E in *.
      destruct (Split_value e true rest ltac:(done) Hl) as (k & Es & Hk). rewrite Es, Hk. rewrite lenZ_app.
      destruct (Z.ltb_spec 32 (lenZ (enc_list e) + lenZ rest - lenZ rest)) as [Hlt|_].
      * exfalso. unfold big in Eb. inversion Ht; subst; rewrite E in Eb; lia.
      * by rewrite Hdec.
Qed.

Lemma decodeRefs_children dec cs rest :
  Forall (λ c, minimal_child_tree c ∧ (∀ v, c ≠ TVal v) ∧ fine c ∧
    (∀ r, minimal_tree c → big c = false → lenZ (tree_rlp c ++ r) < 2 ^ 64 → dec None (tree_rlp c ++ r) = inl (load None c))) cs →
  lenZ (mjoin (rbytes <$> cs) ++ rest) < 2 ^ 64 →
  decodeRefs dec (length cs) (mjoin (rbytes <$> cs) ++ rest) =
    inl ((λ c, if big c then hashNode (tree_hash c) else load None c) <$> cs, rest).
Proof.
  induction 1 as [|c cs (Hm & Hnv & Hf & Hdec) _ IH]; intros Hl; [done|].
  change (mjoin (rbytes <$> c :: cs)) with (rbytes c ++ mjoin (rbytes <$> cs)) in *.
  cbn [length fmap list_fmap decodeRefs].
  rewrite <-app_assoc in *. rewrite decodeRef_child; try done.
  - rewrite IH; [done|]. rewrite lenZ_app in Hl. pose proof (lenZ_nonneg (rbytes c)). lia.
  - intros Ht Hb. apply Hdec; [done|done|]. unfold rbytes in Hl. rewrite ref_of_big, Hb in Hl by by right. done.
Qed.

Lemma mjoin_lenZ_in (bs : list bytes) b : b ∈ bs → lenZ b <= lenZ (mjoin bs).
Proof.
  induction 1 as [b bs|b c bs _ IH]; change (mjoin (?x :: bs)) with (x ++ mjoin bs); rewrite lenZ_app.
  - pose proof (lenZ_nonneg (mjoin bs)). lia.
  - pose proof (lenZ_nonneg c). lia.
Qed.

Lemma enc_list_lt c : lenZ c < lenZ (enc_list c).
Proof.
  unfold enc_list. rewrite lenZ_app. assert (0 < lenZ (list_head (lenZ c))); [|lia].
  unfold list_head, puthead, lenZ. case_match; cbn [length]; lia.
Qed.

(** An embedded child is shorter. *)
Lemma child_shorter t c e :
  tree_rlp t = enc_list e → lenZ (rbytes c) <= lenZ e → minimal_tree c → big c = false →
  (length (tree_rlp c) < length (tree_rlp t))%nat.
Proof.
  intros E Hle Hm Hb. unfold rbytes in Hle. rewrite ref_of_big, Hb in Hle by by right.
  pose proof (enc_list_lt e). rewrite E. unfold lenZ in *. lia.
Qed.

Lemma decodeShort_tree dec h k t e :
  minimal_tree (TShort k t) → fine (TShort k t) → e = enc_str (compact k) ++ rbytes t → lenZ e < 2 ^ 64 →
  (minimal_tree t → big t = false → dec None (tree_rlp t ++ []) = inl (load None t)) →
  CountValues e = inl 2 ∧ decodeShort dec h e = inl (load h (TShort k t)).
Proof.
  intros Hm Hf -> Hl Hdec. destruct (short_child_minimal k t Hm) as [Hc _].
  destruct (compact_ok k (short_key_ok k t Hm)) as (_ & Hb & Hk). apply fine_short in Hf.
  pose proof (lenZ_nonneg (enc_str (compact k))). pose proof (lenZ_nonneg (rbytes t)).
  assert (lenZ (rbytes t) < 2 ^ 64) as Hlt by (rewrite lenZ_app in Hl; lia).
  assert (raw_value (enc_str (compact k))) as Hr by (apply raw_value_str; [rewrite lenZ_app in Hl; lia|done]).
  split.
  - replace (enc_str (compact k) ++ rbytes t) with (mjoin [enc_str (compact k); rbytes t]) in *
      by (cbn; by rewrite app_nil_r).
    rewrite CountValues_ok; [done| |done]. repeat constructor; [done|by apply rbytes_raw].
  - unfold decodeShort. rewrite SplitString_ok, Hk by done.
    inversion Hm as [? v Hk' Hv|? cs Hk' Hn Hcs|]; subst.
    + rewrite hexkey_term by done. change (rbytes (TVal v)) with (enc_str v) in *.
      rewrite <-(app_nil_r (enc_str v)), SplitString_ok; [done| |by rewrite app_nil_r].
      by apply (Hf (TVal v)); [constructor|].
    + rewrite hasTerm_nibs by done. rewrite <-(app_nil_r (rbytes _)).
      rewrite decodeRef_child; try done. by rewrite app_nil_r.
Qed.

Lemma decodeFull_tree dec h cs e :
  minimal_tree (TFull cs) → fine (TFull cs) → e = mjoin (rbytes <$> cs) → lenZ e < 2 ^ 64 →
  (∀ c r, c ∈ cs → minimal_tree c → big c = false → lenZ (tree_rlp c ++ r) < 2 ^ 64 →
    dec None (tree_rlp c ++ r) = inl (load None c)) →
  CountValues e = inl 17 ∧ decodeFull dec h e = inl (load h (TFull cs)).
Proof.
  intros Hm Hf -> Hl Hdec. destruct (minimal_full_inv cs Hm) as (Hlen & H16 & Hlast & _). split.
  - rewrite CountValues_ok; [by rewrite length_fmap, Hlen| |done]. apply Forall_fmap, Forall_forall. intros c Hc.
    cbn. apply rbytes_raw; [by eapply full_child_minimal|by eapply fine_full].
  - assert (∃ cs16 c, cs = cs16 ++ [c] ∧ length cs16 = 16%nat) as (cs16 & c & -> & L16).
    { destruct (lookup_lt_is_Some_2 cs 16) as [c Hc]; [lia|]. exists (take 16 cs), c.
      split; [|rewrite length_take; lia]. rewrite <-(take_drop 16 cs) at 1. f_equal.
      rewrite (drop_S _ _ _ Hc), drop_ge by lia. done. }
    assert ((cs16 ++ [c]) !! 16%nat = Some c) as Hc by (by rewrite lookup_app_r, L16 by lia).
    assert (fine c) as Hfc by (by eapply fine_full; [|eapply list_elem_of_lookup_2]).
    unfold decodeFull. rewrite fmap_app, join_app in *.
    change (mjoin (rbytes <$> [c])) with (rbytes c ++ []) in *. rewrite app_nil_r in *.
    rewrite <-L16 at 1. rewrite decodeRefs_children; [| |done].
    + assert (∃ v, rbytes c = enc_str v ∧ Forall is_byte v ∧
        (if 0 <? lenZ v then valueNode v else nilNode) = (if big c then hashNode (tree_hash c) else load None c)) as (v & Ev & Hv & El).
      { destruct (Hlast c Hc) as [->|(v & -> & Hv)]; [by exists []|]. exists v. split_and!; [done| |by destruct v].
        by apply (Hfc (TVal v)); [constructor|]. }
      rewrite Ev, <-(app_nil_r (enc_str v)), SplitString_ok; [|done|].
      * rewrite El. cbn. by rewrite fmap_app.
      * rewrite app_nil_r, <-Ev. rewrite lenZ_app in Hl. pose proof (lenZ_nonneg (mjoin (rbytes <$> cs16))). lia.
    + apply Forall_forall. intros d Hd. assert (d ∈ cs16 ++ [c]) as Hd' by (apply elem_of_app; by left).
      split_and!; [by eapply full_child_minimal| |by eapply fine_full|intros r ? ? ?; by apply Hdec].
      intros v ->. apply list_elem_of_lookup in Hd as [i Hi]. apply lookup_lt_Some in Hi as Hlt.
      destruct (H16 i (TVal v)) as [?|Hbad]; [by rewrite lookup_app_l|lia|done|inversion Hbad].
Qed.

Lemma decode_tree fuel h t rest :
  minimal_tree t → fine t → lenZ (tree_rlp t ++ rest) < 2 ^ 64 → (length (tree_rlp t) < fuel)%nat →
  decodeNode_loop fuel h (tree_rlp t ++ rest) = inl (load h t).
Proof.
  revert h t rest. induction fuel as [|fuel IH]; intros h t rest Hm Hf Hl Hfuel; [lia|].
  assert (∀ c r e, tree_rlp t = enc_list e → lenZ (rbytes c) <= lenZ e → fine c → minimal_tree c → big c = false →
    lenZ (tree_rlp c ++ r) < 2 ^ 64 → decodeNode_loop fuel None (tree_rlp c ++ r) = inl (load None c)) as Hrec.
  { intros c r e E Hle Hfc Hmc Hb Hlc. apply IH; [done|done|done|].
    pose proof (child_shorter t c e E Hle Hmc Hb). lia. }
  pose proof (tree_rlp_list t Hm) as E. remember (content t) as e eqn:Ee. rewrite E in *. cbn [decodeNode_loop].
  destruct (enc_list e ++ rest) as [|z bs] eqn:Ez.
  { exfalso. pose proof (enc_list_lt e). pose proof (lenZ_nonneg e). apply app_nil in Ez as [Ez _].
    rewrite Ez in H. change (lenZ []) with 0 in H. lia. }
  rewrite <-Ez in *. clear z bs Ez. rewrite SplitList_ok by done.
  assert (lenZ e < 2 ^ 64) as Hle.
  { rewrite lenZ_app in Hl. pose proof (enc_list_lt e). pose proof (lenZ_nonneg rest). lia. }
  destruct t as [|v|k t|cs]; try by inversion Hm.
  - cbn [content] in Ee. destruct (decodeShort_tree (decodeNode_loop fuel) h k t e) as [-> ->]; try done.
    intros Hmt Hb. apply (Hrec t [] e); try done; [|by eapply fine_short|].
    + rewrite Ee, lenZ_app. pose proof (lenZ_nonneg (enc_str (compact k))). lia.
    + rewrite app_nil_r. by apply (fine_short k t Hf t (sub_refl t)).
  - cbn [content] in Ee. destruct (decodeFull_tree (decodeNode_loop fuel) h cs e) as [-> ->]; try done.
    intros c r Hc Hmt Hb Hlr. apply (Hrec c r e); try done; [|by eapply fine_full].
    rewrite Ee. apply mjoin_lenZ_in. apply list_elem_of_fmap. by exists c.
Qed.
End tree_nodes.
