(* ===== verification/TrieDb.v ===== *)
(** * The trie database (trie/database.go, neatdb/memorydb/memorydb.go)

    Trie nodes are collected in memory, with reference counts and a list in the order of
    insertion, and are flushed to a key-value store in batches.  The store is the memory
    database of the repository; the clean cache is switched off, as in [NewDatabase].
    The theorems say that flushing never changes what a read returns, and that after
    [Commit] the trie can be read from the store alone. *)

From Stdlib Require Import ZArith Lia ZifyBool.
From stdpp Require Import base tactics strings numbers gmap list.
From S2P Require Import Prelude Rlp RlpDecode RlpCanon TrieKeys Trie TrieNodes.

Local Open Scope Z_scope.

(** ** The key-value store and its batches *)

Abbreviation store := (gmap bytes bytes).

Record batch := mkBatch { b_writes : list (bytes * bytes); b_size : Z }.

Definition NewBatch : batch := mkBatch [] 0.
Definition batch_Put (key value : bytes) (b : batch) : batch :=
  mkBatch (b_writes b ++ [(key, value)]) (b_size b + lenZ value).
Definition batch_Write (b : batch) (disk : store) : store :=
  foldl (λ disk '(k, v), <[k := v]> disk) disk (b_writes b).
Definition IdealBatchSize : Z := 100 * 1024.

(** ** The database *)

Definition zeroHash : bytes := replicate 32 0.

#[global] Arguments zeroHash : simpl never.

Record cachedNode := mkCached {
  cn_node : raw;
  cn_size : Z;
  cn_parents : Z;
  cn_children : option (gmap bytes Z);
  cn_flushPrev : bytes;
  cn_flushNext : bytes
}.

Record Database := mkDatabase {
  diskdb : store;
  dirties : gmap bytes cachedNode;
  oldest : bytes;
  newest : bytes;
  preimages : gmap bytes bytes;
  dirtiesSize : Z;
  preimagesSize : Z
}.

Definition emptyCached : cachedNode := mkCached RNil 0 0 None zeroHash zeroHash.

Definition NewDatabase (disk : store) : Database :=
  mkDatabase disk {[zeroHash := emptyCached]} zeroHash zeroHash ∅ 0 0.

Definition set_disk (d : store) (db : Database) : Database :=
  mkDatabase d (dirties db) (oldest db) (newest db) (preimages db) (dirtiesSize db) (preimagesSize db).
Definition set_dirties (d : gmap bytes cachedNode) (db : Database) : Database :=
  mkDatabase (diskdb db) d (oldest db) (newest db) (preimages db) (dirtiesSize db) (preimagesSize db).
Definition set_ends (o n : bytes) (db : Database) : Database :=
  mkDatabase (diskdb db) (dirties db) o n (preimages db) (dirtiesSize db) (preimagesSize db).
Definition set_preimages (p : gmap bytes bytes) (sz : Z) (db : Database) : Database :=
  mkDatabase (diskdb db) (dirties db) (oldest db) (newest db) p (dirtiesSize db) sz.
Definition add_size (z : Z) (db : Database) : Database :=
  mkDatabase (diskdb db) (dirties db) (oldest db) (newest db) (preimages db) (dirtiesSize db + z)
    (preimagesSize db).

Definition set_prev (h : bytes) (cn : cachedNode) : cachedNode :=
  mkCached (cn_node cn) (cn_size cn) (cn_parents cn) (cn_children cn) h (cn_flushNext cn).
Definition set_next (h : bytes) (cn : cachedNode) : cachedNode :=
  mkCached (cn_node cn) (cn_size cn) (cn_parents cn) (cn_children cn) (cn_flushPrev cn) h.
Definition set_parents (p : Z) (cn : cachedNode) : cachedNode :=
  mkCached (cn_node cn) (cn_size cn) p (cn_children cn) (cn_flushPrev cn) (cn_flushNext cn).
Definition set_children (c : option (gmap bytes Z)) (cn : cachedNode) : cachedNode :=
  mkCached (cn_node cn) (cn_size cn) (cn_parents cn) c (cn_flushPrev cn) (cn_flushNext cn).

(** [db.dirties[h]] where a missing entry is a nil pointer. *)
Definition get_dirty (h : bytes) (db : Database) : outcome cachedNode :=
  match dirties db !! h with
  | Some cn => Ret cn
  | None => Panic "nil pointer dereference"
  end.

(** An update through the pointer in the map. *)
Definition upd_dirty (h : bytes) (f : cachedNode → cachedNode) (db : Database) : outcome Database :=
  cn ← get_dirty h db;
  Ret (set_dirties (<[h := f cn]> (dirties db)) db).

(** *** Cached nodes *)

Definition cn_rlp (cn : cachedNode) : outcome bytes := raw_rlp (cn_node cn).

Definition raw_obj (hash : bytes) (r : raw) : outcome node :=
  match r with
  | RBlob b => mustDecodeNode (Some hash) b
  | r => expandNode (Some hash) r
  end.

Definition cn_obj (hash : bytes) (cn : cachedNode) : outcome node := raw_obj hash (cn_node cn).

(** The children of the map come first, in some order. *)
Definition cn_childs (cn : cachedNode) : list bytes :=
  (map_to_list (default ∅ (cn_children cn))).*1 ++ gatherChildren (cn_node cn).

(** ** Operations *)

Definition u32 (z : Z) : Z := z mod 2 ^ 32.
Definition u16 (z : Z) : Z := z mod 2 ^ 16.

Definition bump_parents (hs : list bytes) (d : gmap bytes cachedNode) : gmap bytes cachedNode :=
  foldl (λ d h, match d !! h with
                | Some c => <[h := set_parents (u32 (cn_parents c + 1)) c]> d
                | None => d
                end) d hs.

Definition insert_raw (hash blob : bytes) (r : raw) (db : Database) : outcome Database :=
  let entry := mkCached r (u16 (lenZ blob)) 0 None (newest db) zeroHash in
  let db1 := set_dirties (<[hash := entry]> (bump_parents (cn_childs entry) (dirties db))) db in
  db2 ← (if bool_decide (oldest db1 = zeroHash) then Ret (set_ends hash hash db1)
         else db2 ← upd_dirty (newest db1) (set_next hash) db1; Ret (set_ends (oldest db2) hash db2));
  Ret (add_size (u16 (32 + cn_size entry)) db2).

Definition db_insert (hash blob : bytes) (n : node) (db : Database) : outcome Database :=
  if bool_decide (is_Some (dirties db !! hash)) then Ret db
  else r ← simplifyNode n; insert_raw hash blob r db.

Definition InsertBlob (hash blob : bytes) (db : Database) : outcome Database :=
  if bool_decide (is_Some (dirties db !! hash)) then Ret db
  else insert_raw hash blob (RBlob blob) db.

Definition insertPreimage (hash preimage : bytes) (db : Database) : Database :=
  match preimages db !! hash with
  | Some _ => db
  | None => set_preimages (<[hash := preimage]> (preimages db)) (preimagesSize db + 32 + lenZ preimage) db
  end.

Definition db_node (db : Database) (hash : bytes) : outcome (option node) :=
  match dirties db !! hash with
  | Some cn => n ← cn_obj hash cn; Ret (Some n)
  | None =>
      match diskdb db !! hash with
      | None => Ret None
      | Some enc => n ← mustDecodeNode (Some hash) enc; Ret (Some n)
      end
  end.

(** [Node]: the encoded node; the meta root is never found. *)
Definition db_Node (db : Database) (hash : bytes) : outcome (option bytes) :=
  if bool_decide (hash = zeroHash) then Ret None
  else match dirties db !! hash with
       | Some cn => b ← cn_rlp cn; Ret (Some b)
       | None => Ret (diskdb db !! hash)
       end.

Definition secureKeyPrefix : bytes := [115; 101; 99; 117; 114; 101; 45; 107; 101; 121; 45].

Definition secureKey (key : bytes) : bytes := secureKeyPrefix ++ key.

Definition db_preimage (db : Database) (hash : bytes) : option bytes :=
  match preimages db !! hash with
  | Some p => Some p
  | None => diskdb db !! secureKey hash
  end.

(** *** References *)

Definition reference (side parent : bytes) (db : Database) : outcome Database :=
  match dirties db !! side with
  | None => Ret db
  | Some _ =>
      p ← get_dirty parent db;
      let bump cs :=
        db ← upd_dirty side (λ c, set_parents (u32 (cn_parents c + 1)) c) db;
        upd_dirty parent (set_children (Some (<[side := u16 (default 0 (cs !! side) + 1)]> cs))) db in
      match cn_children p with
      | None => bump ∅
      | Some cs =>
          if bool_decide (is_Some (cs !! side)) && negb (bool_decide (parent = zeroHash)) then Ret db
          else bump cs
      end
  end.

(** [node.children[side]--]. *)
Definition drop_child (side : bytes) (cn : cachedNode) : cachedNode :=
  match cn_children cn with
  | None => cn
  | Some cs =>
      let n := default 0 (cs !! side) in
      if 0 <? n then
        set_children (Some (if u16 (n - 1) =? 0 then base.delete side cs else <[side := u16 (n - 1)]> cs)) cn
      else cn
  end.

(** A node leaves the flush list. *)
Definition unlink (hash : bytes) (cn : cachedNode) (db : Database) : outcome Database :=
  if bool_decide (hash = oldest db) then
    db ← Ret (set_ends (cn_flushNext cn) (newest db) db);
    upd_dirty (cn_flushNext cn) (set_prev zeroHash) db
  else if bool_decide (hash = newest db) then
    db ← Ret (set_ends (oldest db) (cn_flushPrev cn) db);
    upd_dirty (cn_flushPrev cn) (set_next zeroHash) db
  else
    db ← upd_dirty (cn_flushPrev cn) (set_next (cn_flushNext cn)) db;
    upd_dirty (cn_flushNext cn) (set_prev (cn_flushPrev cn)) db.

Definition remove_dirty (hash : bytes) (cn : cachedNode) (db : Database) : Database :=
  add_size (- (32 + cn_size cn)) (set_dirties (base.delete hash (dirties db)) db).

Fixpoint for_each {A St} (f : A → St → outcome St) (l : list A) (st : St) : outcome St :=
  match l with
  | [] => Ret st
  | a :: l => st ← f a st; for_each f l st
  end.

(** The fuel bounds the depth of the cascade. *)
Fixpoint dereference (fuel : nat) (side parent : bytes) (db : Database) : outcome Database :=
  match fuel with
  | O => Panic "out of fuel"
  | S fuel =>
      db ← upd_dirty parent (drop_child side) db;
      match dirties db !! side with
      | None => Ret db
      | Some cn =>
          let cn := if 0 <? cn_parents cn then set_parents (cn_parents cn - 1) cn else cn in
          let db := set_dirties (<[side := cn]> (dirties db)) db in
          if cn_parents cn =? 0 then
            db ← unlink side cn db;
            db ← for_each (λ h, dereference fuel h side) (cn_childs cn) db;
            Ret (remove_dirty side cn db)
          else Ret db
      end
  end.

Definition Dereference (fuel : nat) (root : bytes) (db : Database) : outcome Database :=
  if bool_decide (root = zeroHash) then Ret db else dereference fuel root zeroHash db.

(** *** Flushing *)

(** The preimages are put in a batch that is written when it is full. *)
Definition put_preimage (st : batch * store) (p : bytes * bytes) : batch * store :=
  let b := batch_Put (secureKey p.1) p.2 st.1 in
  if IdealBatchSize <? b_size b then (NewBatch, batch_Write b st.2) else (b, st.2).

(** The loop of [Cap] along the flush list: the batch, the store and the first node that
    stays. *)
Fixpoint flush_loop (fuel : nat) (size limit : Z) (old : bytes) (d : gmap bytes cachedNode) (b : batch)
    (disk : store) : outcome (bytes * batch * store) :=
  if (limit <? size) && negb (bool_decide (old = zeroHash)) then
    match fuel with
    | O => Panic "out of fuel"
    | S fuel =>
        match d !! old with
        | None => Panic "nil pointer dereference"
        | Some cn =>
            blob ← cn_rlp cn;
            let b := batch_Put old blob b in
            let st := if IdealBatchSize <=? b_size b then (NewBatch, batch_Write b disk) else (b, disk) in
            flush_loop fuel (size - (3 * 32 + cn_size cn)) limit (cn_flushNext cn) d st.1 st.2
        end
    end
  else Ret (old, b, disk).

(** [for db.oldest != oldest]. *)
Fixpoint drop_loop (fuel : nat) (old : bytes) (db : Database) : outcome Database :=
  if bool_decide (oldest db = old) then Ret db
  else match fuel with
       | O => Panic "out of fuel"
       | S fuel =>
           cn ← get_dirty (oldest db) db;
           drop_loop fuel old
             (set_ends (cn_flushNext cn) (newest db) (remove_dirty (oldest db) cn db))
       end.

Definition num_dirties (db : Database) : nat := size (dirties db).

Definition Cap (limit : Z) (db : Database) : outcome Database :=
  let size := dirtiesSize db + (Z.of_nat (num_dirties db) - 1) * 2 * 32 in
  let flushPreimages := 4 * 1024 * 1024 <? preimagesSize db in
  let '(b, disk) := if flushPreimages
                    then foldl put_preimage (NewBatch, diskdb db) (map_to_list (preimages db))
                    else (NewBatch, diskdb db) in
  r ← flush_loop (num_dirties db) size limit (oldest db) (dirties db) b disk;
  let '(old, b, disk) := r in
  let db := set_disk (batch_Write b disk) db in
  let db := if flushPreimages then set_preimages ∅ 0 db else db in
  db ← drop_loop (num_dirties db) old db;
  if bool_decide (oldest db = zeroHash) then Ret db
  else upd_dirty (oldest db) (set_prev zeroHash) db.

(** [cleaner.Put]: what was written leaves the memory. *)
Definition cleaner_Put (kv : bytes * bytes) (db : Database) : outcome Database :=
  let hash := BytesToHash kv.1 in
  match dirties db !! hash with
  | None => Ret db
  | Some cn => db ← unlink hash cn db; Ret (remove_dirty hash cn db)
  end.

Definition Replay (b : batch) (db : Database) : outcome Database := for_each cleaner_Put (b_writes b) db.

(** [commit]: the children before the node, the batch written when it is full. *)
Fixpoint commit (fuel : nat) (hash : bytes) (st : Database * batch) : outcome (Database * batch) :=
  match fuel with
  | O => Panic "out of fuel"
  | S fuel =>
      match dirties st.1 !! hash with
      | None => Ret st
      | Some cn =>
          st ← for_each (commit fuel) (cn_childs cn) st;
          blob ← cn_rlp cn;
          let '(db, b) := st in
          let b := batch_Put hash blob b in
          if IdealBatchSize <=? b_size b then
            db ← Replay b (set_disk (batch_Write b (diskdb db)) db);
            Ret (db, NewBatch)
          else Ret (db, b)
      end
  end.

Definition Commit (fuel : nat) (root : bytes) (db : Database) : outcome Database :=
  let '(b, disk) := foldl put_preimage (NewBatch, diskdb db) (map_to_list (preimages db)) in
  let db := set_disk (batch_Write b disk) db in
  st ← commit fuel root (db, NewBatch);
  let '(db, b) := st in
  db ← Replay b (set_disk (batch_Write b (diskdb db)) db);
  Ret (set_preimages ∅ 0 db).

(** [Size] and [Nodes]. *)
Definition Size (db : Database) : Z * Z :=
  (dirtiesSize db + (Z.of_nat (num_dirties db) - 1) * 2 * 32, preimagesSize db).

Definition Nodes (db : Database) : list bytes :=
  filter (λ h, h ≠ zeroHash) (map_to_list (dirties db)).*1.

(** ** The flush list

    [chain d p l nx]: the entries of [l] are linked to each other in this order, the
    first of them back to [p] (when that is known) and the last on to [nx]. *)

Fixpoint chain (d : gmap bytes cachedNode) (p : option bytes) (l : list bytes) (nx : bytes) : Prop :=
  match l with
  | [] => True
  | a :: l' =>
      (∃ cn, d !! a = Some cn ∧ cn_flushNext cn = default nx (head l') ∧
             match p with Some q => cn_flushPrev cn = q | None => True end) ∧
      chain d (Some a) l' nx
  end.

Definition after (p : option bytes) (l : list bytes) : option bytes :=
  match last l with Some a => Some a | None => p end.

Lemma after_cons p a l : after p (a :: l) = after (Some a) l.
Proof. unfold after. rewrite last_cons. by destruct (last l). Qed.

Lemma chain_app d p l1 l2 nx :
  chain d p (l1 ++ l2) nx ↔ chain d p l1 (default nx (head l2)) ∧ chain d (after p l1) l2 nx.
Proof.
  revert p. induction l1 as [|a l1 IH]; intros p; [cbn; tauto|].
  rewrite after_cons. cbn [app chain]. rewrite IH.
  replace (default nx (head (l1 ++ l2))) with (default (default nx (head l2)) (head l1))
    by by destruct l1.
  tauto.
Qed.

Lemma chain_frame d d' p l nx :
  (∀ a, a ∈ l → d' !! a = d !! a) → chain d p l nx → chain d' p l nx.
Proof.
  revert p. induction l as [|a l IH]; intros p He; [done|].
  cbn [chain]. rewrite (He a) by set_solver. intros [? ?].
  split; [done|]. apply IH; [|done]. intros b ?. apply He. set_solver.
Qed.

Lemma chain_member d p l nx a : chain d p l nx → a ∈ l → is_Some (d !! a).
Proof.
  revert p. induction l as [|b l IH]; intros p; [set_solver|].
  intros [(cn & E & _) H] [->|?]%elem_of_cons; [by exists cn|by eapply IH].
Qed.

Lemma chain_weaken d p l nx : chain d p l nx → chain d None l nx.
Proof. destruct l; [done|]. cbn. intros [(cn & ? & ? & ?) ?]. split; [by exists cn|done]. Qed.

(** What the flush list of a database is. *)
Record flush_list (d : gmap bytes cachedNode) (o n : bytes) (l : list bytes) : Prop := {
  fl_chain : chain d None l zeroHash;
  fl_nodup : NoDup l;
  fl_zero : zeroHash ∉ l;
  fl_root : is_Some (d !! zeroHash);
  fl_oldest : o = default zeroHash (head l);
  fl_newest : ∀ a, last l = Some a → n = a
}.

(** The entries of two maps differ in their links only. *)
Definition cn_data (cn : cachedNode) : raw * Z * Z * option (gmap bytes Z) :=
  (cn_node cn, cn_size cn, cn_parents cn, cn_children cn).

Definition same_data (d d' : gmap bytes cachedNode) : Prop :=
  ∀ k, cn_data <$> d' !! k = cn_data <$> d !! k.

#[global] Instance same_data_refl : Reflexive same_data.
Proof. by intros d k. Qed.

#[global] Instance same_data_trans : Transitive same_data.
Proof. intros d1 d2 d3 H12 H23 k. by rewrite H23, H12. Qed.

Lemma same_data_alter f k d : (∀ cn, cn_data (f cn) = cn_data cn) → same_data d (alter f k d).
Proof.
  intros Hf j. destruct (decide (j = k)) as [->|?].
  - rewrite lookup_alter_eq, <- option_fmap_compose. by destruct (d !! k); cbn; rewrite ?Hf.
  - by rewrite lookup_alter_ne by done.
Qed.

Lemma same_data_lookup d d' k cn : same_data d d' → d !! k = Some cn →
  ∃ cn', d' !! k = Some cn' ∧ cn_data cn' = cn_data cn.
Proof.
  intros H E. specialize (H k). rewrite E in H. cbn in H.
  destruct (d' !! k) as [cn'|]; [|done]. injection H as H1 H2 H3 H4. exists cn'. split; [done|].
  unfold cn_data. by rewrite H1, H2, H3, H4.
Qed.

Lemma same_data_sym d d' : same_data d d' → same_data d' d.
Proof. intros H k. by rewrite H. Qed.

Lemma upd_dirty_alter k f db :
  is_Some (dirties db !! k) → upd_dirty k f db = Ret (set_dirties (alter f k (dirties db)) db).
Proof.
  intros [cn E]. unfold upd_dirty, get_dirty. rewrite E. cbn. do 2 f_equal.
  apply map_eq. intros j. destruct (decide (j = k)) as [->|?].
  - by rewrite lookup_insert_eq, lookup_alter_eq, E.
  - by rewrite lookup_insert_ne, lookup_alter_ne by done.
Qed.

Lemma chain_alter_frame d f k p l nx :
  k ∉ l → chain d p l nx → chain (alter f k d) p l nx.
Proof.
  intros Hk. apply chain_frame. intros a Ha. apply lookup_alter_ne. by intros ->.
Qed.

Lemma chain_set_next d p l x nx nx' :
  x ∉ l → chain d p (l ++ [x]) nx → chain (alter (set_next nx') x d) p (l ++ [x]) nx'.
Proof.
  rewrite !chain_app. cbn. intros Hx (H1 & (cn & E & _ & Hp) & _).
  split; [by apply chain_alter_frame|]. split; [|done].
  exists (set_next nx' cn). by rewrite lookup_alter_eq, E.
Qed.

Lemma chain_set_prev d p y l nx q :
  y ∉ l → chain d p (y :: l) nx → chain (alter (set_prev q) y d) (Some q) (y :: l) nx.
Proof.
  cbn [chain]. intros Hy [(cn & E & Hn & _) H]. split; [|by apply chain_alter_frame].
  exists (set_prev q cn). by rewrite lookup_alter_eq, E.
Qed.

Lemma alter_root (f : cachedNode → cachedNode) (k : bytes) (d : gmap bytes cachedNode) :
  is_Some (d !! zeroHash) → is_Some (alter f k d !! zeroHash).
Proof. intros [c E]. rewrite lookup_alter. case_decide as Hk; [subst k|]; rewrite E; cbn; eauto. Qed.

(** What [unlink] keeps of a database. *)
Record relinked (db db' : Database) : Prop := {
  rl_disk : diskdb db' = diskdb db;
  rl_pre : preimages db' = preimages db;
  rl_size : dirtiesSize db' = dirtiesSize db;
  rl_presize : preimagesSize db' = preimagesSize db;
  rl_data : same_data (dirties db) (dirties db')
}.

Definition flush_of (db : Database) : list bytes → Prop := flush_list (dirties db) (oldest db) (newest db).

Lemma unlink_oldest db h l2 cn :
  flush_of db (h :: l2) → dirties db !! h = Some cn →
  ∃ db', unlink h cn db = Ret db' ∧ relinked db db' ∧ flush_of db' l2.
Proof.
  intros [Hc Hnd Hz Hr Ho Hn] E. unfold unlink. cbn in Ho.
  rewrite bool_decide_eq_true_2 by done.
  destruct Hc as [(c & E' & Hnx & _) Hc]. rewrite E' in E. injection E as ->.
  assert (Hin : is_Some (dirties db !! cn_flushNext cn)).
  { rewrite Hnx. destruct l2 as [|y l2]; [done|]. cbn. eapply chain_member; [exact Hc|set_solver]. }
  cbn [mbind outcome_bind]. rewrite upd_dirty_alter by done. eexists. split; [reflexivity|].
  apply NoDup_cons in Hnd as [Hh Hnd].
  split; [split; cbn; try done; by apply same_data_alter|].
  split; cbn; try done.
  - rewrite Hnx. destruct l2 as [|y l2]; [done|]. cbn [head default].
    apply (chain_weaken _ (Some zeroHash)). eapply chain_set_prev, Hc. by eapply NoDup_cons_1_1.
  - set_solver.
  - by apply alter_root.
  - intros a Ha. apply Hn. by rewrite last_cons, Ha.
Qed.

Lemma unlink_newest db l1 x h cn :
  flush_of db ((l1 ++ [x]) ++ [h]) → dirties db !! h = Some cn →
  ∃ db', unlink h cn db = Ret db' ∧ relinked db db' ∧ flush_of db' (l1 ++ [x]).
Proof.
  intros [Hc Hnd Hz Hr Ho Hn] E. unfold unlink.
  apply NoDup_app in Hnd as (Hnd & Hh & _).
  rewrite bool_decide_eq_false_2, bool_decide_eq_true_2; first last.
  { rewrite Ho. intros Hx. apply (Hh h); [|set_solver]. rewrite Hx. destruct l1; cbn; set_solver. }
  { symmetry. apply Hn. by rewrite last_snoc. }
  apply chain_app in Hc as [Hc1 Hc2]. destruct Hc2 as [(c & E' & _ & Hp) _].
  rewrite E' in E. injection E as ->. unfold after in Hp. rewrite last_snoc in Hp.
  assert (Hin : is_Some (dirties db !! x)) by (eapply chain_member; [exact Hc1|set_solver]).
  cbn [mbind outcome_bind]. rewrite Hp, upd_dirty_alter by done. eexists. split; [reflexivity|].
  split; [split; cbn; try done; by apply same_data_alter|].
  split; cbn; try done.
  - eapply chain_set_next, Hc1. apply NoDup_app in Hnd. set_solver.
  - set_solver.
  - by apply alter_root.
  - rewrite Ho. by destruct l1.
  - intros a. rewrite last_snoc. by intros [= ->].
Qed.

Lemma unlink_middle db l1 x h y l2 cn :
  flush_of db ((l1 ++ [x]) ++ h :: y :: l2) → dirties db !! h = Some cn →
  ∃ db', unlink h cn db = Ret db' ∧ relinked db db' ∧ flush_of db' ((l1 ++ [x]) ++ y :: l2).
Proof.
  intros [Hc Hnd Hz Hr Ho Hn] E. unfold unlink.
  assert (Hnd' := Hnd). apply NoDup_app in Hnd' as (Hnd1 & Hd & Hnd2).
  apply NoDup_cons in Hnd2 as [Hh Hnd2].
  rewrite !bool_decide_eq_false_2; first last.
  { rewrite Ho. intros Hx. apply (Hd h); [|set_solver]. rewrite Hx. destruct l1; cbn; set_solver. }
  { intros ->. apply Hh. destruct (last (y :: l2)) as [z|] eqn:El; [|by apply last_None in El].
    rewrite (Hn z); [by apply last_Some_elem_of|]. by rewrite last_app, last_cons, El. }
  apply chain_app in Hc as [Hc1 Hc2]. destruct Hc2 as [(c & E' & Hnx & Hp) Hc2].
  rewrite E' in E. injection E as ->. unfold after in Hp. rewrite last_snoc in Hp. cbn in Hnx.
  assert (Hix : is_Some (dirties db !! x)) by (eapply chain_member; [exact Hc1|set_solver]).
  assert (Hiy : is_Some (dirties db !! y)) by (eapply chain_member; [exact Hc2|set_solver]).
  assert (Hxy : x ≠ y) by (intros ->; apply (Hd y); set_solver).
  cbn [mbind outcome_bind]. rewrite Hp, Hnx, upd_dirty_alter by done.
  cbn [mbind outcome_bind]. rewrite upd_dirty_alter; [|cbn; by rewrite lookup_alter_ne by congruence].
  eexists. split; [reflexivity|].
  split; [split; cbn; try done; etrans; by apply same_data_alter|].
  split; cbn [set_dirties dirties oldest newest].
  - apply chain_app. split.
    + apply chain_alter_frame; [intros ?; apply (Hd y); set_solver|].
      eapply chain_set_next, Hc1. apply NoDup_app in Hnd1. set_solver.
    + unfold after. rewrite last_snoc. eapply chain_set_prev; [by eapply NoDup_cons_1_1|].
      apply chain_alter_frame; [intros ?; apply (Hd x); set_solver|exact Hc2].
  - apply NoDup_app. split_and!; [done| |done]. intros a Ha Hb. apply (Hd a Ha). set_solver.
  - set_solver.
  - by do 2 apply alter_root.
  - rewrite Ho. by destruct l1.
  - intros a. rewrite last_app. intros Ha. apply Hn. rewrite last_app, (last_cons h).
    destruct (last (y :: l2)) eqn:El; [done|]. by apply last_None in El.
Qed.

(** A node leaves the list; nothing else changes but links. *)
Lemma unlink_spec db l1 h l2 cn :
  flush_of db (l1 ++ h :: l2) → dirties db !! h = Some cn →
  ∃ db', unlink h cn db = Ret db' ∧ relinked db db' ∧ flush_of db' (l1 ++ l2).
Proof.
  destruct l1 as [|x l1 _] using rev_ind; [apply unlink_oldest|].
  destruct l2 as [|y l2]; [rewrite app_nil_r; apply unlink_newest|apply unlink_middle].
Qed.

(** Removing an entry that is not in the list. *)
Lemma flush_delete db h cn l :
  h ∉ l → h ≠ zeroHash → flush_of db l → flush_of (remove_dirty h cn db) l.
Proof.
  intros Hh Hz [Hc Hnd Hz' Hr Ho Hn]. split; cbn; try done.
  - eapply chain_frame, Hc. intros a Ha. apply lookup_delete_ne. by intros ->.
  - by rewrite lookup_delete_ne.
Qed.

Lemma NoDup_mid (l1 : list bytes) h l2 : NoDup (l1 ++ h :: l2) → h ∉ l1 ++ l2.
Proof. rewrite NoDup_app, NoDup_cons. set_solver. Qed.

(** *** Inserting *)

Lemma bump_parents_links hs d k cn :
  d !! k = Some cn → ∃ cn', bump_parents hs d !! k = Some cn' ∧ cn_node cn' = cn_node cn ∧
    cn_size cn' = cn_size cn ∧ cn_children cn' = cn_children cn ∧
    cn_flushPrev cn' = cn_flushPrev cn ∧ cn_flushNext cn' = cn_flushNext cn.
Proof.
  revert d cn. induction hs as [|h hs IH]; intros d cn E; cbn; [by exists cn|].
  destruct (d !! h) as [c|] eqn:Eh; [|by apply IH].
  destruct (decide (h = k)) as [->|?].
  - rewrite E in Eh. injection Eh as <-.
    destruct (IH (<[k := set_parents (u32 (cn_parents cn + 1)) cn]> d)
                (set_parents (u32 (cn_parents cn + 1)) cn)) as (cn' & ? & ? & ?);
      [by rewrite lookup_insert_eq|by exists cn'].
  - apply IH. by rewrite lookup_insert_ne.
Qed.

Lemma bump_parents_none hs d k : d !! k = None → bump_parents hs d !! k = None.
Proof.
  revert d. induction hs as [|h hs IH]; intros d E; cbn; [done|].
  apply IH. destruct (d !! h) as [c|] eqn:Eh; [|done].
  rewrite lookup_insert_ne; [done|]. intros ->. congruence.
Qed.

Lemma bump_parents_chain hs d p l nx : chain d p l nx → chain (bump_parents hs d) p l nx.
Proof.
  revert p. induction l as [|a l IH]; intros p; [done|].
  intros [(cn & E & Hn & Hp) H]. split; [|by apply IH].
  destruct (bump_parents_links hs d a cn E) as (cn' & E' & _ & _ & _ & Hp' & Hn').
  exists cn'. by rewrite Hp', Hn'.
Qed.

Lemma insert_raw_spec db l hash blob r :
  flush_of db l → dirties db !! hash = None →
  ∃ db', insert_raw hash blob r db = Ret db' ∧ flush_of db' (l ++ [hash]) ∧
    diskdb db' = diskdb db ∧ preimages db' = preimages db ∧ preimagesSize db' = preimagesSize db ∧
    (∃ cn, dirties db' !! hash = Some cn ∧ cn_node cn = r ∧ cn_children cn = None) ∧
    (∀ k, k ≠ hash → (λ c, (cn_node c, cn_children c)) <$> dirties db' !! k =
                     (λ c, (cn_node c, cn_children c)) <$> dirties db !! k).
Proof.
  intros [Hc Hnd Hz Hr Ho Hn] Eh. unfold insert_raw.
  set (entry := mkCached _ _ _ _ _ _). set (hs := cn_childs entry).
  set (d1 := <[hash := entry]> (bump_parents hs (dirties db))).
  assert (Hh : hash ∉ l).
  { intros ?. destruct (chain_member _ _ _ _ hash Hc) as [? ?]; [done|congruence]. }
  assert (Hhz : hash ≠ zeroHash) by (intros ->; destruct Hr; congruence).
  assert (Hc1 : chain d1 None l zeroHash).
  { eapply chain_frame, (bump_parents_chain hs), Hc. intros a ?. unfold d1.
    apply lookup_insert_ne. by intros ->. }
  assert (Hd1 : ∀ k, k ≠ hash → (λ c, (cn_node c, cn_children c)) <$> d1 !! k =
                                (λ c, (cn_node c, cn_children c)) <$> dirties db !! k).
  { intros k Hk. unfold d1. rewrite lookup_insert_ne by done.
    destruct (dirties db !! k) as [c|] eqn:Ek; [|by rewrite bump_parents_none].
    destruct (bump_parents_links hs _ _ _ Ek) as (c' & -> & Hc1' & _ & Hc2' & _). cbn. by rewrite Hc1', Hc2'. }
  assert (Hr1 : is_Some (d1 !! zeroHash)).
  { unfold d1. rewrite lookup_insert_ne by done. destruct Hr as [c Ec].
    destruct (bump_parents_links hs _ _ _ Ec) as (c' & -> & _). eauto. }
  cbn [oldest newest set_dirties]. destruct l as [|a l _] using rev_ind.
  - rewrite Ho, bool_decide_eq_true_2 by done. cbn. eexists. split; [reflexivity|].
    split_and!; try done.
    + split; cbn; try done; [|apply NoDup_singleton|set_solver|by intros ? [= ->]].
      split; [|done]. exists entry. by unfold d1; rewrite lookup_insert_eq.
    + exists entry. unfold d1. cbn. by rewrite lookup_insert_eq.
  - rewrite bool_decide_eq_false_2; last first.
    { rewrite Ho. destruct l as [|b l]; cbn; intros ->; set_solver. }
    rewrite (Hn a) by by rewrite last_snoc.
    assert (Hia : is_Some (d1 !! a)) by (eapply chain_member; [exact Hc1|set_solver]).
    assert (Hah : a ≠ hash) by set_solver.
    rewrite upd_dirty_alter by done. cbn. eexists. split; [reflexivity|]. split_and!; try done.
    + apply NoDup_app in Hnd as (? & ? & ?). split; cbn; try done.
      * apply chain_app. split; [eapply chain_set_next, Hc1; set_solver|].
        split; [|done]. exists entry. rewrite lookup_alter_ne by done. unfold d1.
        rewrite lookup_insert_eq. unfold after. rewrite last_snoc. split_and!; try done.
        cbn. apply Hn. by rewrite last_snoc.
      * apply NoDup_app. split_and!; [by apply NoDup_app|set_solver|apply NoDup_singleton].
      * set_solver.
      * by apply alter_root.
      * rewrite Ho. by destruct l.
      * intros b. rewrite last_snoc. by intros [= ->].
    + exists entry. cbn. rewrite lookup_alter_ne by done. unfold d1. by rewrite lookup_insert_eq.
    + intros k Hk. cbn. rewrite <- Hd1 by done.
      destruct (decide (k = a)) as [->|?]; [|by rewrite lookup_alter_ne].
      rewrite lookup_alter_eq. by destruct (d1 !! a).
Qed.

(** ** What a database holds

    [D] is the set of nodes that are on disk with all their descendants; the nodes of the
    flush list refer to nodes of [D] and to nodes before them in the list. *)

Fixpoint node_kids (n : node) : list bytes :=
  match n with
  | shortNode _ v _ => node_kids v
  | fullNode cs _ => mjoin (take 16 ((λ c, node_kids c) <$> cs))
  | hashNode h => [BytesToHash h]
  | valueNode _ | nilNode => []
  end.

Definition is_blob (r : raw) : bool := match r with RBlob _ => true | _ => false end.

(** Both forms of an entry, in memory and on disk, are read as the same node. *)
Definition entry_ok (h : bytes) (cn : cachedNode) : Prop :=
  ∃ blob, cn_rlp cn = Ret blob ∧ cn_obj h cn = mustDecodeNode (Some h) blob.

Record db_ok (D : bytes → Prop) (l : list bytes) (db : Database) : Prop := {
  ok_flush : flush_of db l;
  ok_dom : ∀ k, is_Some (dirties db !! k) → k = zeroHash ∨ k ∈ l;
  ok_len : ∀ k, k ∈ l ∨ D k → length k = 32%nat;
  ok_entry : ∀ k cn, k ∈ l → dirties db !! k = Some cn → entry_ok k cn;
  ok_order : ∀ l1 a l2 cn c, l = l1 ++ a :: l2 → dirties db !! a = Some cn →
    c ∈ gatherChildren (cn_node cn) →
    D c ∨ c ∈ l1 ∧ ∃ cc, dirties db !! c = Some cc ∧ is_blob (cn_node cc) = false;
  ok_disk : ∀ h, D h → ∃ enc, diskdb db !! h = Some enc ∧
    ∀ n c, mustDecodeNode (Some h) enc = Ret n → c ∈ node_kids n → D c;
  ok_twice : ∀ k cn, D k → k ∈ l → dirties db !! k = Some cn → diskdb db !! k ≠ None ∧
    ∀ enc, diskdb db !! k = Some enc → cn_rlp cn = Ret enc;
  ok_pre : ∀ h p, preimages db !! h = Some p → length h = 32%nat;
  ok_zero : ¬ D zeroHash
}.

(** Two databases answer every question in the same way. *)
Definition same_nodes (db db' : Database) : Prop :=
  ∀ h, length h = 32%nat → db_node db' h = db_node db h ∧ db_Node db' h = db_Node db h.

Definition same_preimages (db db' : Database) : Prop :=
  ∀ h, length h = 32%nat → db_preimage db' h = db_preimage db h.

Definition same_reads (db db' : Database) : Prop := same_nodes db db' ∧ same_preimages db db'.

#[global] Instance same_nodes_refl : Reflexive same_nodes.
Proof. by intros db h ?. Qed.

#[global] Instance same_nodes_trans : Transitive same_nodes.
Proof.
  intros d1 d2 d3 H12 H23 h Hh. destruct (H12 h Hh) as [? ?], (H23 h Hh) as [? ?].
  split; congruence.
Qed.

Lemma expandNode_kids r : ∀ h n, expandNode h r = Ret n → node_kids n = gatherChildren r.
Proof.
  induction r as [|cs IH|k v IH|h'|v|b] using raw_ind'; intros h n E; cbn in E; try discriminate E;
    try (injection E as <-; reflexivity).
  - destruct (outcome_all _) as [ns|] eqn:En; cbn in E; [|discriminate E]. injection E as <-.
    cbn [node_kids gatherChildren]. do 2 f_equal.
    revert ns En. induction IH as [|c cs Hc _ IHc]; intros ns En; cbn in En.
    { injection En as <-. reflexivity. }
    destruct (if raw_is_nil c then Ret nilNode else expandNode None c) as [m|] eqn:Em;
      cbn in En; [|discriminate En].
    destruct (outcome_all _) as [ms|] eqn:Ems; cbn in En; [|discriminate En]. injection En as <-.
    cbn. f_equal; [|by apply IHc].
    destruct c; cbn in Em; try (by apply (Hc None)); injection Em as <-; reflexivity.
  - destruct (expandNode None v) as [m|] eqn:Em; cbn in E; [|discriminate E]. injection E as <-.
    cbn. by eapply IH.
Qed.

(** An entry that leaves the memory is read from disk as before. *)
Lemma entry_kids h cn enc n :
  entry_ok h cn → is_blob (cn_node cn) = false → cn_rlp cn = Ret enc →
  mustDecodeNode (Some h) enc = Ret n → node_kids n = gatherChildren (cn_node cn).
Proof.
  intros (blob & E & Ho) Hb E' En. rewrite E in E'. injection E' as ->.
  rewrite En in Ho. unfold cn_obj, raw_obj in Ho. eapply (expandNode_kids _ (Some h)).
  destruct (cn_node cn); try done.
Qed.

(** *** Writing an entry to disk *)

Definition write_disk (k v : bytes) (db : Database) : Database := set_disk (<[k := v]> (diskdb db)) db.

Lemma write_entry D l db k cn v :
  db_ok D l db → k ∈ l → dirties db !! k = Some cn → cn_rlp cn = Ret v →
  db_ok D l (write_disk k v db) ∧ same_nodes db (write_disk k v db).
Proof.
  intros [Hf Hd Hl He Ho Hk Ht Hp Hnz] Hin E Ev. split; [split; cbn; try done|].
  - intros h Hh. destruct (Hk h Hh) as (enc & Eh & Hc).
    destruct (decide (h = k)) as [->|?]; [|rewrite lookup_insert_ne by done; by exists enc].
    rewrite lookup_insert_eq. destruct (Ht k cn Hh Hin E) as [_ Ht'].
    specialize (Ht' enc Eh). rewrite Ev in Ht'. injection Ht' as ->. by exists enc.
  - intros j c Hj Hjl Ej. destruct (decide (j = k)) as [->|?].
    + rewrite lookup_insert_eq. split; [done|]. intros enc [= <-]. congruence.
    + rewrite lookup_insert_ne by done. by apply Ht.
  - intros h _. unfold db_node, db_Node. cbn.
    destruct (decide (h = k)) as [->|?]; [by rewrite E|by rewrite lookup_insert_ne].
Qed.

(** *** Removing an entry that is on disk *)

Definition grow (D : bytes → Prop) (k : bytes) (cn : cachedNode) (h : bytes) : Prop :=
  D h ∨ h = k ∧ is_blob (cn_node cn) = false.

Lemma mid_split (l1 l2 p q : list bytes) (k a : bytes) :
  l1 ++ l2 = p ++ a :: q → ∃ p' q', l1 ++ k :: l2 = p' ++ a :: q' ∧ ∀ c, c ∈ p' → c ≠ k → c ∈ p.
Proof.
  revert p. induction l1 as [|b l1 IH]; intros p E; cbn in *.
  - subst l2. exists (k :: p), q. split; [done|]. set_solver.
  - destruct p as [|b' p]; cbn in E; injection E as -> E.
    + exists [], (l1 ++ k :: l2). split; [done|]. set_solver.
    + destruct (IH p E) as (p' & q' & -> & H). exists (b' :: p'), q'. split; [done|]. set_solver.
Qed.

Lemma remove_reads k db db' cn v :
  k ≠ zeroHash → entry_ok k cn → dirties db !! k = Some cn → cn_rlp cn = Ret v →
  diskdb db !! k = Some v → diskdb db' = diskdb db →
  same_data (base.delete k (dirties db)) (dirties db') → same_nodes db db'.
Proof.
  intros Hkz (b & Eb & Ob) E Ev Edisk Hdisk Hsame h _. unfold db_node, db_Node. rewrite Hdisk.
  destruct (decide (h = k)) as [->|Hne].
  - specialize (Hsame k). rewrite lookup_delete_eq in Hsame. destruct (dirties db' !! k); [done|].
    rewrite E, Edisk. rewrite Ev in Eb. injection Eb as <-. rewrite Ob, Ev. split; [done|].
    by rewrite bool_decide_eq_false_2.
  - specialize (Hsame h). rewrite lookup_delete_ne in Hsame by done.
    destruct (dirties db' !! h) as [c'|], (dirties db !! h) as [c|]; try done.
    injection Hsame as Hc _ _ _. unfold cn_obj, cn_rlp. by rewrite Hc.
Qed.

Lemma remove_entry D l1 k l2 db db' cn v :
  db_ok D (l1 ++ k :: l2) db → dirties db !! k = Some cn → cn_rlp cn = Ret v →
  diskdb db !! k = Some v → (∀ c, c ∈ gatherChildren (cn_node cn) → D c) →
  flush_of db' (l1 ++ l2) → diskdb db' = diskdb db → preimages db' = preimages db →
  same_data (base.delete k (dirties db)) (dirties db') →
  db_ok (grow D k cn) (l1 ++ l2) db' ∧ same_nodes db db'.
Proof.
  intros [Hf Hd Hl He Ho Hk Ht Hp Hnz] E Ev Edisk Hkids Hf' Hdisk Hpre Hsame.
  assert (Hback : ∀ j c', dirties db' !! j = Some c' → j ≠ k ∧
            ∃ c, dirties db !! j = Some c ∧ cn_data c' = cn_data c).
  { intros j c' Ej. destruct (same_data_lookup _ _ j c' (same_data_sym _ _ Hsame) Ej) as (c & Ec & Hc).
    apply lookup_delete_Some in Ec as [? ?]. split; [done|]. by exists c. }
  assert (Hrlp : ∀ c c', cn_data c' = cn_data c → cn_node c' = cn_node c) by by intros c c' [= ? ? ? ?].
  assert (Hkl : k ∉ l1 ++ l2) by (apply NoDup_mid, (fl_nodup _ _ _ _ Hf)).
  assert (Hkz : k ≠ zeroHash) by (intros ->; apply (fl_zero _ _ _ _ Hf); set_solver).
  split; [split; try done|].
  - intros j [c' Ej]. destruct (Hback j c' Ej) as (? & c & Ec & _).
    destruct (Hd j); [by eexists|by left|]. right. set_solver.
  - intros j [?|[?|[-> _]]]; apply Hl; set_solver.
  - intros j c' Hj Ej. destruct (Hback j c' Ej) as (_ & c & Ec & Hc%Hrlp).
    destruct (He j c) as (b & ? & ?); [set_solver|done|].
    exists b. unfold cn_rlp, cn_obj in *. by rewrite Hc.
  - intros p a q c' x Epq Ea Hx. destruct (Hback a c' Ea) as (? & c & Ec & Hc%Hrlp).
    destruct (mid_split _ _ p q k a Epq) as (p' & q' & Epq' & Hsub). rewrite Hc in Hx.
    destruct (Ho _ _ _ _ _ Epq' Ec Hx) as [?|(Hxp & cc & Ecc & Hb)]; [by left; left|].
    destruct (decide (x = k)) as [->|?].
    + left. right. split; [done|]. congruence.
    + right. split; [by apply Hsub|].
      destruct (same_data_lookup _ _ x cc Hsame) as (cc' & ? & Hcc%Hrlp); [by rewrite lookup_delete_ne|].
      exists cc'. split; [done|]. by rewrite Hcc.
  - intros h [Hh|[-> Hb]].
    + rewrite Hdisk. destruct (Hk h Hh) as (enc & ? & Hc). exists enc. split; [done|]. left. by eapply Hc.
    + rewrite Hdisk. exists v. split; [done|]. intros n x En Hx. left. apply Hkids.
      rewrite <- (entry_kids k cn v n); [exact Hx|apply He; [set_solver|exact E]|done..].
  - intros j c' Hj Hjl Ej. rewrite Hdisk. destruct (Hback j c' Ej) as (? & c & Ec & Hc%Hrlp).
    destruct Hj as [Hj|[-> _]]; [|done]. unfold cn_rlp. rewrite Hc. apply (Ht j c); [done|set_solver|done].
  - intros h p. rewrite Hpre. apply Hp.
  - intros [?|[? _]]; [done|congruence].
  - eapply remove_reads; try done. apply He; [set_solver|done].
Qed.

Lemma relinked_ok D l db db' :
  db_ok D l db → relinked db db' → flush_of db' l → db_ok D l db' ∧ same_nodes db db'.
Proof.
  intros [Hf Hd Hl He Ho Hk Ht Hp Hnz] [Hdisk Hpre _ _ Hsame] Hf'.
  assert (Hback : ∀ j c', dirties db' !! j = Some c' →
            ∃ c, dirties db !! j = Some c ∧ cn_node c' = cn_node c).
  { intros j c' Ej. destruct (same_data_lookup _ _ j c' (same_data_sym _ _ Hsame) Ej) as (c & Ec & Hc).
    injection Hc as Hc _ _ _. by exists c. }
  split; [split; try done|].
  - intros j [c' Ej]. destruct (Hback j c' Ej) as (c & Ec & _). apply Hd. by eexists.
  - intros j c' Hj Ej. destruct (Hback j c' Ej) as (c & Ec & Hc).
    destruct (He j c Hj Ec) as (b & ? & ?). exists b. unfold cn_rlp, cn_obj in *. by rewrite Hc.
  - intros p a q c' x Epq Ea Hx. destruct (Hback a c' Ea) as (c & Ec & Hc). rewrite Hc in Hx.
    destruct (Ho _ _ _ _ _ Epq Ec Hx) as [?|(Hxp & cc & Ecc & Hb)]; [by left|right].
    split; [done|]. destruct (same_data_lookup _ _ x cc Hsame Ecc) as (cc' & ? & Hcc).
    injection Hcc as Hcc _ _ _. exists cc'. by rewrite Hcc.
  - intros h Hh. rewrite Hdisk. by apply Hk.
  - intros j c' Hj Hjl Ej. rewrite Hdisk. destruct (Hback j c' Ej) as (c & Ec & Hc).
    unfold cn_rlp. rewrite Hc. by apply (Ht j c).
  - intros h p. rewrite Hpre. apply Hp.
  - intros h _. unfold db_node, db_Node. rewrite Hdisk. specialize (Hsame h).
    destruct (dirties db' !! h) as [c'|], (dirties db !! h) as [c|]; try done.
    injection Hsame as Hc _ _ _. unfold cn_obj, cn_rlp. by rewrite Hc.
Qed.

(** *** Batches *)

Lemma batch_Write_Put k v b disk : batch_Write (batch_Put k v b) disk = <[k := v]> (batch_Write b disk).
Proof. unfold batch_Write. cbn. by rewrite foldl_app. Qed.

(** The preimages that are put in a batch reach the disk, and nothing else changes. *)
Lemma put_preimages ps st :
  NoDup ps.*1 →
  let r := foldl put_preimage st ps in
  (∀ h p, (h, p) ∈ ps → batch_Write r.1 r.2 !! secureKey h = Some p) ∧
  (∀ k, (∀ h, h ∈ ps.*1 → k ≠ secureKey h) → batch_Write r.1 r.2 !! k = batch_Write st.1 st.2 !! k).
Proof.
  revert st. induction ps as [|[h p] ps IH]; intros st; cbn [foldl]; [set_solver|].
  cbn. intros [Hh Hnd]%NoDup_cons. destruct (IH (put_preimage st (h, p)) Hnd) as [IH1 IH2].
  assert (E : batch_Write (put_preimage st (h, p)).1 (put_preimage st (h, p)).2 =
              <[secureKey h := p]> (batch_Write st.1 st.2)).
  { unfold put_preimage. cbn [fst snd]. destruct (_ <? _); cbn [fst snd]; by rewrite ?batch_Write_Put. }
  split.
  - intros h' p' [Heq|Hin]%elem_of_cons; [|by apply IH1]. injection Heq as -> ->.
    rewrite IH2, E; [by rewrite lookup_insert_eq|].
    intros h' Hin Heq. injection Heq as ->. done.
  - intros k Hk. rewrite IH2; [|set_solver]. rewrite E, lookup_insert_ne; [done|].
    intros <-. by apply (Hk h); [set_solver|].
Qed.

Definition rlp_of (d : gmap bytes cachedNode) (k : bytes) : bytes :=
  match d !! k with
  | Some cn => match cn_rlp cn with Ret b => b | Panic _ => [] end
  | None => []
  end.

Definition write_all_of (d : gmap bytes cachedNode) (ks : list bytes) (disk : store) : store :=
  foldl (λ m k, <[k := rlp_of d k]> m) disk ks.

Lemma flush_loop_spec d l fuel size limit b disk p :
  chain d p l zeroHash → zeroHash ∉ l →
  (∀ k cn, k ∈ l → d !! k = Some cn → entry_ok k cn) → (length l <= fuel)%nat →
  ∃ l1 l2 b' disk', l = l1 ++ l2 ∧
    flush_loop fuel size limit (default zeroHash (head l)) d b disk =
      Ret (default zeroHash (head l2), b', disk') ∧
    batch_Write b' disk' = write_all_of d l1 (batch_Write b disk).
Proof.
  revert fuel size b disk p. induction l as [|a l IH]; intros fuel size b disk p Hc Hz He Hfuel.
  { exists [], [], b, disk. split; [done|]. split; [|done]. destruct fuel; cbn [flush_loop head default];
      rewrite (bool_decide_eq_true_2 (zeroHash = zeroHash)), andb_false_r; done. }
  assert (Ha : a ≠ zeroHash) by set_solver.
  destruct (limit <? size) eqn:Es.
  - destruct fuel as [|fuel]; [cbn in Hfuel; lia|].
    change (default zeroHash (head (a :: l))) with a. cbn [flush_loop]. rewrite Es, bool_decide_eq_false_2 by done.
    destruct Hc as [(cn & E & Hn & _) Hc]. cbn [negb andb]. rewrite E.
    destruct (He a cn) as (blob & Eb & _); [set_solver|done|]. rewrite Eb. cbn [mbind outcome_bind].
    set (b1 := batch_Put a blob b).
    set (st := if IdealBatchSize <=? b_size b1 then (NewBatch, batch_Write b1 disk) else (b1, disk)).
    rewrite Hn.
    destruct (IH fuel (size - (3 * 32 + cn_size cn)) st.1 st.2 (Some a) Hc) as (l1 & l2 & b' & disk' & -> & E1 & E2);
      [set_solver|intros; apply He; set_solver|cbn in Hfuel; lia|].
    exists (a :: l1), l2, b', disk'. split; [done|]. split; [exact E1|]. rewrite E2.
    cbn. f_equal. unfold rlp_of. rewrite E, Eb. unfold st.
    destruct (_ <=? _); cbn [fst snd]; unfold b1; by rewrite ?batch_Write_Put.
  - exists [], (a :: l), b, disk. split; [done|]. split; [|done].
    destruct fuel; cbn [flush_loop]; by rewrite Es.
Qed.

Lemma set_disk_ok D l db disk :
  (∀ k, length k = 32%nat → disk !! k = diskdb db !! k) →
  db_ok D l db → db_ok D l (set_disk disk db) ∧ same_nodes db (set_disk disk db).
Proof.
  intros Heq [Hf Hd Hl He Ho Hk Ht Hp Hnz]. split; [split; cbn; try done|].
  - intros h Hh. rewrite Heq by (apply Hl; by right). by apply Hk.
  - intros k cn Hk' Hin E. rewrite Heq by (apply Hl; by right). by apply Ht.
  - intros h Hh. unfold db_node, db_Node. cbn. by rewrite Heq.
Qed.

Lemma set_preimages_ok D l db p z :
  (∀ h x, p !! h = Some x → length h = 32%nat) →
  db_ok D l db → db_ok D l (set_preimages p z db) ∧ same_nodes db (set_preimages p z db).
Proof. intros Hlen [Hf Hd Hl He Ho Hk Ht Hp Hnz]. split; [split; try done|]. by intros h Hh. Qed.

Lemma db_entry D l db k : db_ok D l db → k ∈ l →
  ∃ cn, dirties db !! k = Some cn ∧ cn_rlp cn = Ret (rlp_of (dirties db) k).
Proof.
  intros H Hk. destruct (chain_member _ _ _ _ k (fl_chain _ _ _ _ (ok_flush _ _ _ H))) as [cn E]; [done|].
  exists cn. split; [done|]. destruct (ok_entry _ _ _ H k cn Hk E) as (b & Eb & _).
  unfold rlp_of. by rewrite E, Eb.
Qed.

Lemma write_all_ok D l db ks :
  db_ok D l db → (∀ k, k ∈ ks → k ∈ l) →
  let db' := set_disk (write_all_of (dirties db) ks (diskdb db)) db in
  db_ok D l db' ∧ same_nodes db db' ∧
  (∀ k, k ∈ ks → diskdb db' !! k = Some (rlp_of (dirties db) k)) ∧
  (∀ k, k ∉ ks → diskdb db' !! k = diskdb db !! k).
Proof.
  cbn. revert db. induction ks as [|k ks IH]; intros db H Hks; cbn.
  { destruct (set_disk_ok D l db (diskdb db)) as [? ?]; [done..|]. split_and!; try done; set_solver. }
  destruct (db_entry D l db k H) as (cn & E & Ev); [set_solver|].
  destruct (write_entry D l db k cn (rlp_of (dirties db) k) H) as [H1 Hs1]; [set_solver|done..|].
  destruct (IH _ H1) as (H2 & Hs2 & Hin & Hout); [set_solver|]. cbn in *.
  split; [exact H2|]. split; [by etrans|]. split.
  - intros j [->|Hj]%elem_of_cons; [|by apply Hin].
    destruct (decide (k ∈ ks)) as [?|?]; [by apply Hin|]. rewrite Hout by done. by rewrite lookup_insert_eq.
  - intros j Hj. rewrite Hout by set_solver. rewrite lookup_insert_ne; [done|set_solver].
Qed.

(** *** [Cap] *)

Lemma drop_oldest db h l cn :
  flush_of db (h :: l) → dirties db !! h = Some cn →
  flush_of (set_ends (cn_flushNext cn) (newest db) (remove_dirty h cn db)) l.
Proof.
  intros [Hc Hnd Hz Hr Ho Hn] E. apply NoDup_cons in Hnd as [Hh Hnd].
  destruct Hc as [(c & E' & Hnx & _) Hc]. rewrite E' in E. injection E as ->.
  split; cbn; try done.
  - eapply chain_frame; [|by eapply chain_weaken]. intros a Ha. apply lookup_delete_ne. by intros ->.
  - set_solver.
  - rewrite lookup_delete_ne; [done|set_solver].
  - intros a Ha. apply Hn. by rewrite last_cons, Ha.
Qed.

(** The nodes among [ks], which the memory is about to forget. *)
Definition nodes_of (d : gmap bytes cachedNode) (ks : list bytes) (h : bytes) : Prop :=
  h ∈ ks ∧ ∃ cn, d !! h = Some cn ∧ is_blob (cn_node cn) = false.

Lemma drop_loop_spec l1 : ∀ fuel D l2 db,
  db_ok D (l1 ++ l2) db → (length l1 <= fuel)%nat →
  (∀ k, k ∈ l1 → diskdb db !! k = Some (rlp_of (dirties db) k)) →
  ∃ D' db', drop_loop fuel (default zeroHash (head l2)) db = Ret db' ∧
    db_ok D' l2 db' ∧ same_nodes db db' ∧ diskdb db' = diskdb db ∧ preimages db' = preimages db ∧
    (∀ h, D' h ↔ D h ∨ nodes_of (dirties db) l1 h).
Proof.
  induction l1 as [|a l1 IH]; intros fuel D l2 db H Hfuel Hw.
  { exists D, db. assert (Ho := fl_oldest _ _ _ _ (ok_flush _ _ _ H)). cbn in Ho.
    split. { destruct fuel; cbn [drop_loop]; by rewrite bool_decide_eq_true_2. }
    split_and!; try done. intros h. unfold nodes_of. set_solver. }
  assert (Hf := ok_flush _ _ _ H). assert (Ho := fl_oldest _ _ _ _ Hf). cbn in Ho.
  assert (Hne : a ≠ default zeroHash (head l2)).
  { assert (Hnd := fl_nodup _ _ _ _ Hf). assert (Hz := fl_zero _ _ _ _ Hf).
    destruct l2 as [|b l2]; cbn; [set_solver|]. cbn in Hnd. apply NoDup_cons in Hnd. set_solver. }
  destruct fuel as [|fuel]; [cbn in Hfuel; lia|].
  cbn [drop_loop]. rewrite Ho. rewrite bool_decide_eq_false_2 by done.
  destruct (db_entry D _ db a H) as (cn & E & Ev); [set_solver|].
  unfold get_dirty at 1. unfold id in *. rewrite E. cbn [mbind outcome_bind].
  set (db1 := set_ends _ _ _).
  destruct (remove_entry D [] a (l1 ++ l2) db db1 cn _ H E Ev) as [H1 Hs1]; try done.
  { apply Hw. set_solver. }
  { intros c Hc. destruct (ok_order _ _ _ H [] a (l1 ++ l2) cn c) as [?|[? _]]; [done..|set_solver]. }
  { by apply drop_oldest. }
  assert (Hlook : ∀ k, k ≠ a → dirties db1 !! k = dirties db !! k).
  { intros k Hk. cbn. by rewrite lookup_delete_ne. }
  assert (Hal : a ∉ l1 ++ l2) by (by eapply NoDup_cons_1_1, (fl_nodup _ _ _ _ Hf)).
  destruct (IH fuel _ l2 db1 H1) as (D' & db' & E' & H' & Hs' & Hdisk & Hpre & HD); [cbn in Hfuel; lia| |].
  { intros k Hk. cbn [db1 set_ends remove_dirty add_size set_dirties diskdb]. rewrite Hw by set_solver.
    f_equal. unfold rlp_of. rewrite Hlook; [done|set_solver]. }
  exists D', db'. split; [exact E'|]. split_and!; try done; [by etrans|].
  intros h. rewrite HD. unfold grow, nodes_of. rewrite elem_of_cons. split.
  - intros [[?|[-> ?]]|(Hin & c & Ec & ?)]; [by left| |].
    + right. split; [by left|]. by exists cn.
    + right. split; [by right|]. exists c. rewrite Hlook in Ec by set_solver. done.
  - intros [?|[[->|Hin] (c & Ec & ?)]]; [by left; left| |].
    + left. right. split; [done|]. congruence.
    + right. split; [done|]. exists c. rewrite Hlook by set_solver. done.
Qed.

Lemma length_flush D l db : db_ok D l db → (length l <= num_dirties db)%nat.
Proof.
  intros H. destruct (ok_flush _ _ _ H) as [Hc Hnd _ _ _ _].
  unfold num_dirties. rewrite <- size_dom, <- (size_list_to_set (C := gset bytes) l) by done.
  apply subseteq_size. intros k Hk. apply elem_of_dom. eapply chain_member; [exact Hc|set_solver].
Qed.

(** Writing the preimages, with what is then on disk. *)
Lemma flush_preimages D l db (flush : bool) :
  db_ok D l db →
  let st := if flush then foldl put_preimage (NewBatch, diskdb db) (map_to_list (preimages db))
            else (NewBatch, diskdb db) in
  (∀ k, length k = 32%nat → batch_Write st.1 st.2 !! k = diskdb db !! k) ∧
  (∀ k, (∀ h p, preimages db !! h = Some p → k ≠ secureKey h) → batch_Write st.1 st.2 !! k = diskdb db !! k) ∧
  (flush = true → ∀ h p, preimages db !! h = Some p → batch_Write st.1 st.2 !! secureKey h = Some p).
Proof.
  intros H st.
  destruct (put_preimages (map_to_list (preimages db)) (NewBatch, diskdb db)) as [Hin Hout].
  { apply NoDup_fst_map_to_list. }
  assert (Hmem : ∀ h, h ∈ (map_to_list (preimages db)).*1 → ∃ p, preimages db !! h = Some p).
  { intros h ([h' p] & -> & Hp%elem_of_map_to_list)%list_elem_of_fmap. by exists p. }
  assert (Hkeep : ∀ k, (∀ h p, preimages db !! h = Some p → k ≠ secureKey h) →
                       batch_Write st.1 st.2 !! k = diskdb db !! k).
  { intros k Hk. unfold st. destruct flush; [|done]. rewrite Hout; [done|].
    intros h (p & Hp)%Hmem. by eapply Hk. }
  split; [|split; [exact Hkeep|]].
  - intros k Hk. apply Hkeep. intros h p Hp%(ok_pre _ _ _ H) ->.
    unfold secureKey, secureKeyPrefix in Hk. cbn in Hk. lia.
  - unfold st. intros -> h p Hp. apply Hin. by apply elem_of_map_to_list.
Qed.

Lemma secureKey_length h : length (secureKey h) = (11 + length h)%nat.
Proof. done. Qed.

Lemma preimages_kept D l db (flush : bool) db' :
  db_ok D l db →
  let st := if flush then foldl put_preimage (NewBatch, diskdb db) (map_to_list (preimages db))
            else (NewBatch, diskdb db) in
  (∀ h, length h = 32%nat → diskdb db' !! secureKey h = batch_Write st.1 st.2 !! secureKey h) →
  preimages db' = (if flush then ∅ else preimages db) → same_preimages db db'.
Proof.
  intros H st Hsec Hp h Hh. destruct (flush_preimages D l db flush H) as (_ & Hkeep & Hpre).
  unfold db_preimage. rewrite Hp, Hsec by done.
  destruct (preimages db !! h) as [p|] eqn:Ep.
  - destruct flush; [|by rewrite Ep]. rewrite lookup_empty. by apply Hpre.
  - replace ((if flush then ∅ else preimages db) !! h) with (None : option bytes) by by destruct flush.
    apply Hkeep. intros h' p Hp' Heq. injection Heq as ->. congruence.
Qed.

(** The first half of [Cap]: everything is on disk, and nothing is forgotten but
    preimages. *)
Lemma flush_disk D l l1 db (flush : bool) :
  db_ok D l db → (∀ k, k ∈ l1 → k ∈ l) →
  let st := if flush then foldl put_preimage (NewBatch, diskdb db) (map_to_list (preimages db))
            else (NewBatch, diskdb db) in
  let db2 := set_disk (write_all_of (dirties db) l1 (batch_Write st.1 st.2)) db in
  let db3 := if flush then set_preimages ∅ 0 db2 else db2 in
  db_ok D l db3 ∧ same_reads db db3 ∧ dirties db3 = dirties db ∧
  ∀ k, k ∈ l1 → diskdb db3 !! k = Some (rlp_of (dirties db) k).
Proof.
  intros H Hl1 st db2 db3. destruct (flush_preimages D l db flush H) as (H32 & _ & _).
  fold st in H32.
  destruct (set_disk_ok D l db (batch_Write st.1 st.2) H32 H) as [H1 Hs1].
  destruct (write_all_ok D l _ l1 H1 Hl1) as (H2 & Hs2 & Hin & Hout).
  change (set_disk _ (set_disk _ db)) with db2 in *.
  assert (Hs : same_nodes db db2) by by etrans.
  destruct (set_preimages_ok D l db2 ∅ 0) as [H3 Hs3]; [set_solver|done|].
  split; [by unfold db3; destruct flush|]. split; [split|].
  - unfold db3. destruct flush; [by etrans|done].
  - apply (preimages_kept D l db flush db3 H); [|by unfold db3; destruct flush].
    intros h Hh. fold st. transitivity (diskdb db2 !! secureKey h); [by unfold db3; destruct flush|].
    apply Hout. intros Hin'%Hl1. assert (Hlen := ok_len _ _ _ H (secureKey h) (or_introl Hin')).
    rewrite secureKey_length in Hlen. lia.
  - split; [by unfold db3; destruct flush|]. intros k Hk. unfold db3. by destruct flush; apply Hin.
Qed.

(** The end of [Cap] and of [unlink]: the first node of the list has no predecessor. *)
Lemma clear_prev db l :
  flush_of db l →
  ∃ db', (if bool_decide (oldest db = zeroHash) then Ret db
          else upd_dirty (oldest db) (set_prev zeroHash) db) = Ret db' ∧
    relinked db db' ∧ flush_of db' l.
Proof.
  intros Hf. case_bool_decide as Hz; [by exists db|].
  destruct Hf as [Hc Hnd Hz' Hr Ho Hn]. destruct l as [|a l]; [done|]. cbn in Ho. unfold id in Ho.
  rewrite Ho, upd_dirty_alter by (eapply chain_member; [exact Hc|set_solver]).
  eexists. split; [reflexivity|].
  split; [split; cbn; try done; by apply same_data_alter|].
  split; cbn [set_dirties dirties oldest newest]; try done; [|by apply alter_root].
  apply (chain_weaken _ (Some zeroHash)). eapply chain_set_prev, Hc. by eapply NoDup_cons_1_1.
Qed.

(** [Cap] writes the oldest nodes, forgets them, and changes no answer. *)
Lemma Cap_spec D l db limit :
  db_ok D l db →
  ∃ l1 l2 D' db', l = l1 ++ l2 ∧ Cap limit db = Ret db' ∧ db_ok D' l2 db' ∧ same_reads db db' ∧
    ∀ h, D' h ↔ D h ∨ nodes_of (dirties db) l1 h.
Proof.
  intros H. unfold Cap. set (flush := 4 * 1024 * 1024 <? preimagesSize db).
  assert (HF := λ l1, flush_disk D l l1 db flush H). cbn zeta in HF.
  set (st := if flush then _ else _) in *. destruct st as [b0 disk0]. cbn [fst snd] in *.
  destruct (ok_flush _ _ _ H) as [Hc Hnd Hz _ Ho _].
  match goal with |- context [flush_loop ?f ?s ?lim _ _ b0 disk0] =>
    destruct (flush_loop_spec (dirties db) l f s lim b0 disk0 None) as (l1 & l2 & b' & disk' & El & Ef & Ew) end;
    [done|done|apply H|by eapply length_flush|].
  rewrite Ho, Ef. cbn [mbind outcome_bind]. rewrite Ew.
  destruct (HF l1) as (H3 & [Hn3 Hp3] & Hd3 & Hin); [rewrite El; set_solver|]. clear HF.
  set (db3 := if flush then _ else _) in *.
  destruct (drop_loop_spec l1 (num_dirties db3) D l2 db3) as (D' & db4 & E4 & H4 & Hs4 & Hdisk4 & Hpre4 & HD);
    [by rewrite <- El| |by rewrite Hd3|].
  { etrans; [|by eapply length_flush]. rewrite El, length_app. lia. }
  rewrite E4. cbn [mbind outcome_bind]. rewrite Hd3 in HD.
  destruct (clear_prev db4 l2 (ok_flush _ _ _ H4)) as (db5 & E5 & Hr5 & Hf5).
  destruct (relinked_ok D' l2 db4 db5 H4 Hr5 Hf5) as [H5 Hs5].
  exists l1, l2, D', db5. split_and!; try done. split; [by etrans; [|etrans]|].
  intros h Hh. rewrite <- Hp3 by done. unfold db_preimage. destruct Hr5.
  by rewrite rl_disk0, rl_pre0, Hdisk4, Hpre4.
Qed.

(** *** [Commit] *)

(** A write of the batch is for an entry in memory, or repeats what is on disk. *)
Definition valid_write (l : list bytes) (db : Database) (kv : bytes * bytes) : Prop :=
  length kv.1 = 32%nat ∧
  match dirties db !! kv.1 with
  | Some cn => kv.1 ∈ l ∧ cn_rlp cn = Ret kv.2
  | None => diskdb db !! kv.1 = Some kv.2
  end.

Definition write_pairs (ws : list (bytes * bytes)) (disk : store) : store :=
  foldl (λ disk '(k, v), <[k := v]> disk) disk ws.

Lemma write_pairs_other ws disk k : k ∉ ws.*1 → write_pairs ws disk !! k = disk !! k.
Proof.
  revert disk. induction ws as [|[j v] ws IH]; intros disk Hk; [done|]. cbn in Hk.
  change (write_pairs ws (<[j := v]> disk) !! k = disk !! k). rewrite IH by set_solver. apply lookup_insert_ne. set_solver.
Qed.

Lemma valid_write_disk l db k v kv :
  valid_write l db (k, v) → valid_write l db kv → valid_write l (write_disk k v db) kv.
Proof.
  unfold valid_write. cbn. intros [_ H1] [Hlen H2]. split; [done|].
  destruct (dirties db !! kv.1) eqn:E; [done|].
  destruct (decide (kv.1 = k)) as [<-|?]; [|by rewrite lookup_insert_ne].
  rewrite E in H1. rewrite lookup_insert_eq. congruence.
Qed.

Lemma write_pairs_ok D l ws : ∀ db,
  db_ok D l db → Forall (valid_write l db) ws →
  let db' := set_disk (write_pairs ws (diskdb db)) db in
  db_ok D l db' ∧ same_nodes db db' ∧
  (∀ k v, (k, v) ∈ ws → diskdb db' !! k = Some v) ∧
  (∀ k, dirties db !! k = None → diskdb db' !! k = diskdb db !! k).
Proof.
  cbn. induction ws as [|[k v] ws IH]; intros db H Hv.
  { destruct (set_disk_ok D l db (diskdb db)) as [? ?]; [done..|]. split_and!; try done; set_solver. }
  apply Forall_cons in Hv as [Hkv Hv]. assert (Hkv' := Hkv). destruct Hkv' as [Hlen Hcase]. cbn in Hcase.
  assert (H1 : db_ok D l (write_disk k v db) ∧ same_nodes db (write_disk k v db)).
  { destruct (dirties db !! k) as [cn|] eqn:E; [destruct Hcase; by eapply write_entry|].
    apply set_disk_ok; [|done]. intros j _. destruct (decide (j = k)) as [->|?];
      [by rewrite lookup_insert_eq|by rewrite lookup_insert_ne]. }
  destruct H1 as [H1 Hs1].
  destruct (IH _ H1) as (H2 & Hs2 & Hin & Hout).
  { eapply Forall_impl; [exact Hv|]. intros kv. by apply valid_write_disk. }
  change (write_pairs ((k, v) :: ws) (diskdb db)) with (write_pairs ws (<[k := v]> (diskdb db))).
  cbn [write_disk set_disk diskdb dirties] in *. split; [exact H2|]. split; [by etrans|]. split.
  - intros j w [Heq|Hj]%elem_of_cons; [injection Heq as -> ->|by apply Hin].
    destruct (decide (k ∈ ws.*1)) as [Hkin|?].
    + apply list_elem_of_fmap in Hkin as ([k' w'] & ? & Hk). cbn in *. subst k'. rewrite (Hin k w' Hk).
      rewrite Forall_forall in Hv. destruct (Hv _ Hk) as [_ Hc]. cbn in Hc.
      destruct (dirties db !! k) as [cn|]; [destruct Hc, Hcase|]; congruence.
    + rewrite write_pairs_other by done.
      by rewrite lookup_insert_eq.
  - intros j Hj. rewrite Hout by done. destruct (decide (j = k)) as [->|?]; [|by rewrite lookup_insert_ne].
    rewrite Hj in Hcase. by rewrite lookup_insert_eq.
Qed.

(** The replay of a batch that is on disk: children come before their parents. *)
Definition child_order (D : bytes → Prop) (db : Database) (ks : list bytes) : Prop :=
  ∀ p k q cn c, ks = p ++ k :: q → dirties db !! k = Some cn → c ∈ gatherChildren (cn_node cn) →
    D c ∨ c ∈ p ∧ ∃ cc, dirties db !! c = Some cc ∧ is_blob (cn_node cc) = false.

Lemma cleaner_one D l db k v cn :
  db_ok D l db → k ∈ l → dirties db !! k = Some cn → cn_rlp cn = Ret v → diskdb db !! k = Some v →
  (∀ c, c ∈ gatherChildren (cn_node cn) → D c) →
  ∃ l' db', cleaner_Put (k, v) db = Ret db' ∧ db_ok (grow D k cn) l' db' ∧ same_nodes db db' ∧
    diskdb db' = diskdb db ∧ preimages db' = preimages db ∧
    same_data (base.delete k (dirties db)) (dirties db').
Proof.
  intros H Hk E Ev Edisk Hkids. unfold cleaner_Put. cbn [fst].
  rewrite BytesToHash_id by (apply (ok_len _ _ _ H); by left). rewrite E.
  apply list_elem_of_split in Hk as (l1 & l2 & ->).
  assert (Hf := ok_flush _ _ _ H).
  destruct (unlink_spec db l1 k l2 cn Hf E) as (db1 & -> & [Hdisk Hpre _ _ Hdata] & Hf1).
  cbn [mbind outcome_bind]. set (db2 := remove_dirty k cn db1).
  assert (Hd2 : same_data (base.delete k (dirties db)) (dirties db2)).
  { intros j. cbn. destruct (decide (j = k)) as [->|?]; [by rewrite !lookup_delete_eq|].
    by rewrite !lookup_delete_ne. }
  assert (Hkz : k ≠ zeroHash) by (intros ->; apply (fl_zero _ _ _ _ Hf); set_solver).
  destruct (remove_entry D l1 k l2 db db2 cn v H E Ev Edisk Hkids) as [H2 Hs2]; try done.
  { apply flush_delete; [apply NoDup_mid, (fl_nodup _ _ _ _ Hf)|done|done]. }
  by exists (l1 ++ l2), db2.
Qed.

(** What a database holds: on disk, or in memory and going there. *)
Definition held (D : bytes → Prop) (db : Database) (h : bytes) : Prop :=
  D h ∨ h ≠ zeroHash ∧ ∃ cn, dirties db !! h = Some cn ∧ is_blob (cn_node cn) = false.

(** The entries of [db'] are entries of [db]. *)
Definition shrinks (db db' : Database) : Prop :=
  ∀ k cn', dirties db' !! k = Some cn' → ∃ cn, dirties db !! k = Some cn ∧ cn_data cn' = cn_data cn.

#[global] Instance shrinks_trans : Transitive shrinks.
Proof.
  intros d1 d2 d3 H12 H23 k c3 E3. destruct (H23 k c3 E3) as (c2 & E2 & ?).
  destruct (H12 k c2 E2) as (c1 & ? & ?). exists c1. split; [done|congruence].
Qed.

Lemma shrinks_node db db' k cn' : shrinks db db' → dirties db' !! k = Some cn' →
  ∃ cn, dirties db !! k = Some cn ∧ cn_node cn' = cn_node cn ∧ cn_childs cn' = cn_childs cn.
Proof.
  intros H E. destruct (H k cn' E) as (cn & ? & Hd). injection Hd as H1 _ _ H2.
  exists cn. unfold cn_childs. by rewrite H1, H2.
Qed.

(** One write of a batch that is on disk, whether its entry is still in memory or not. *)
Lemma cleaner_step D l db k v :
  db_ok D l db → length k = 32%nat →
  (∀ cn, dirties db !! k = Some cn → k ∈ l ∧ cn_rlp cn = Ret v ∧ diskdb db !! k = Some v ∧
     ∀ c, c ∈ gatherChildren (cn_node cn) → D c) →
  ∃ D' l' db', cleaner_Put (k, v) db = Ret db' ∧ db_ok D' l' db' ∧ same_nodes db db' ∧
    diskdb db' = diskdb db ∧ preimages db' = preimages db ∧ shrinks db db' ∧
    dirties db' !! k = None ∧ (∀ j, j ≠ k → dirties db' !! j = None → dirties db !! j = None) ∧
    (∀ h, D h → D' h) ∧
    (∀ c cc, dirties db !! c = Some cc → is_blob (cn_node cc) = false →
       D' c ∨ ∃ cc', dirties db' !! c = Some cc' ∧ is_blob (cn_node cc') = false).
Proof.
  intros H Hlen Hkv. destruct (dirties db !! k) as [cn|] eqn:E.
  - destruct (Hkv cn eq_refl) as (Hkl & Ev & Edisk & Hkids).
    destruct (cleaner_one D l db k v cn H Hkl E Ev Edisk Hkids) as (l1 & db1 & E1 & H1 & Hs1 & Hd1 & Hp1 & Hdata).
    exists (grow D k cn), l1, db1. split_and!; try done.
    + intros j c' Ej. destruct (same_data_lookup _ _ j c' (same_data_sym _ _ Hdata) Ej) as (c & Ec & Hc).
      apply lookup_delete_Some in Ec as [? ?]. by exists c.
    + specialize (Hdata k). rewrite lookup_delete_eq in Hdata. by destruct (dirties db1 !! k).
    + intros j Hj Ej. specialize (Hdata j). rewrite Ej, lookup_delete_ne in Hdata by done.
      by destruct (dirties db !! j).
    + intros h ?. by left.
    + intros c cc Ec Hb. destruct (decide (c = k)) as [->|?]; [left; right; split; [done|congruence]|right].
      destruct (same_data_lookup _ _ c cc Hdata) as (cc' & Ec' & Hcc); [by rewrite lookup_delete_ne|].
      injection Hcc as Hcc _ _ _. exists cc'. by rewrite Hcc.
  - exists D, l, db. split; [by unfold cleaner_Put; cbn; rewrite BytesToHash_id, E|].
    split_and!; try done; [intros j c Ec; by exists c|]. intros c cc Ec Hb. right. by exists cc.
Qed.

Lemma replay_spec ws : ∀ D l db,
  db_ok D l db →
  (∀ k v, (k, v) ∈ ws → length k = 32%nat ∧
     ∀ cn, dirties db !! k = Some cn → k ∈ l ∧ cn_rlp cn = Ret v ∧ diskdb db !! k = Some v) →
  child_order D db ws.*1 →
  ∃ D' l' db', for_each cleaner_Put ws db = Ret db' ∧ db_ok D' l' db' ∧ same_nodes db db' ∧
    diskdb db' = diskdb db ∧ preimages db' = preimages db ∧ shrinks db db' ∧
    (∀ k, k ∈ ws.*1 → dirties db' !! k = None) ∧
    (∀ k, k ∉ ws.*1 → dirties db' !! k = None → dirties db !! k = None) ∧
    (∀ h, D h → D' h) ∧ (∀ h, held D db h → held D' db' h).
Proof.
  induction ws as [|[k v] ws IH]; intros D l db H Hw Ho.
  { exists D, l, db. split_and!; try done; [|set_solver]. intros k cn E. by exists cn. }
  cbn [for_each]. destruct (Hw k v) as [Hlen Hkv]; [set_solver|].
  destruct (cleaner_step D l db k v H Hlen)
    as (D1 & l1 & db1 & E1 & H1 & Hs1 & Hd1 & Hp1 & Hsh & Hk1 & Hoth1 & HD1 & Hgrow).
  { intros cn E. destruct (Hkv cn E) as (? & ? & ?). split_and!; try done.
    intros c Hc. destruct (Ho [] k ws.*1 cn c) as [?|[? _]]; [done..|set_solver]. }
  destruct (IH D1 l1 db1 H1) as (D' & l' & db' & E' & H' & Hs' & Hd' & Hp' & Hsh' & Hg' & Hoth' & HD' & Hh').
  { intros j w Hj. destruct (Hw j w) as [? Hj']; [set_solver|]. split; [done|]. intros c' Ec'.
    destruct (shrinks_node _ _ _ _ Hsh Ec') as (c & Ec & Hnode & _). destruct (Hj' c Ec) as (? & ? & ?).
    unfold cn_rlp. rewrite Hnode, Hd1. split_and!; try done.
    destruct (ok_dom _ _ _ H1 j) as [->|?]; [by eexists| |done].
    by destruct (fl_zero _ _ _ _ (ok_flush _ _ _ H)). }
  { intros p j q c' x Epq Ec' Hx. destruct (shrinks_node _ _ _ _ Hsh Ec') as (c & Ec & Hnode & _).
    rewrite Hnode in Hx. destruct (Ho (k :: p) j q c x) as [?|[Hp (cc & Ecc & Hb)]];
      [cbn; by rewrite Epq|done|done|by left; apply HD1|].
    destruct (Hgrow x cc Ecc Hb) as [?|(cc' & Ecc' & ?)]; [by left|right].
    split; [|by exists cc']. apply elem_of_cons in Hp as [->|?]; [congruence|done]. }
  exists D', l', db'. rewrite E1. cbn [mbind outcome_bind]. split; [exact E'|].
  split_and!; try done; [by etrans|congruence..|by etrans| | | |].
  - intros j [->|?]%elem_of_cons; [|by apply Hg']. destruct (dirties db' !! k) as [c'|] eqn:E2; [|done].
    destruct (Hsh' k c' E2) as (? & ? & _). congruence.
  - cbn. intros j Hj Ej. apply Hoth1; [set_solver|]. apply Hoth'; [set_solver|done].
  - intros h ?. by apply HD', HD1.
  - intros h [?|(Hz & c & Ec & Hb)]; [by apply Hh'; left; apply HD1|].
    apply Hh'. destruct (Hgrow h c Ec Hb) as [?|?]; [by left|by right].
Qed.

(** The state of a commit: the database, and a batch of valid writes in which children
    come first. *)
Record good (D : bytes → Prop) (l : list bytes) (st : Database * batch) : Prop := {
  g_ok : db_ok D l st.1;
  g_valid : Forall (valid_write l st.1) (b_writes st.2);
  g_order : child_order D st.1 (b_writes st.2).*1
}.

Definition settled (st : Database * batch) (h : bytes) : Prop :=
  dirties st.1 !! h = None ∨ h ∈ (b_writes st.2).*1.

Record advances (D : bytes → Prop) (st : Database * batch) (D' : bytes → Prop) (st' : Database * batch)
    : Prop := {
  a_nodes : same_nodes st.1 st'.1;
  a_pre : preimages st'.1 = preimages st.1;
  a_disk : ∀ k, dirties st.1 !! k = None → diskdb st'.1 !! k = diskdb st.1 !! k;
  a_gone : ∀ k cn, dirties st.1 !! k = Some cn → dirties st'.1 !! k = None →
    ∃ v, cn_rlp cn = Ret v ∧ diskdb st'.1 !! k = Some v;
  a_shrinks : shrinks st.1 st'.1;
  a_settled : ∀ k, settled st k → settled st' k;
  a_mono : ∀ h, D h → D' h;
  a_held : ∀ h, held D st.1 h → held D' st'.1 h
}.

Lemma advances_refl D st : advances D st D st.
Proof. split; try done; [intros k cn ? ?; congruence|]. intros k cn E. by exists cn. Qed.

Lemma shrinks_none db db' k : shrinks db db' → dirties db !! k = None → dirties db' !! k = None.
Proof.
  intros H E. destruct (dirties db' !! k) as [c|] eqn:E'; [|done].
  destruct (H k c E') as (? & ? & _). congruence.
Qed.

Lemma advances_trans D1 st1 D2 st2 D3 st3 :
  advances D1 st1 D2 st2 → advances D2 st2 D3 st3 → advances D1 st1 D3 st3.
Proof.
  intros [] []. split; try by etrans; eauto.
  - intros k E. rewrite a_disk1; [by apply a_disk0|]. by eapply shrinks_none.
  - intros k cn E E3. destruct (dirties st2.1 !! k) as [c2|] eqn:E2.
    + destruct (a_gone1 k c2 E2 E3) as (v & Ev & ?). exists v. split; [|done].
      destruct (shrinks_node _ _ _ _ a_shrinks0 E2) as (c & Ec & Hn & _).
      unfold cn_rlp in *. congruence.
    + destruct (a_gone0 k cn E E2) as (v & ? & ?). exists v. split; [done|]. by rewrite a_disk1.
  - auto.
  - auto.
  - auto.
Qed.

(** The batch is written and replayed. *)
Lemma flush_batch D l db b :
  good D l (db, b) →
  ∃ D' l' db', Replay b (set_disk (batch_Write b (diskdb db)) db) = Ret db' ∧
    good D' l' (db', NewBatch) ∧ advances D (db, b) D' (db', NewBatch).
Proof.
  intros [H Hv Ho]. cbn [fst snd] in *. unfold Replay, batch_Write.
  change (foldl _ (diskdb db) (b_writes b)) with (write_pairs (b_writes b) (diskdb db)).
  destruct (write_pairs_ok D l (b_writes b) db H Hv) as (H1 & Hs1 & Hin & Hout).
  set (db1 := set_disk _ db) in *.
  destruct (replay_spec (b_writes b) D l db1 H1) as (D' & l' & db' & E' & H' & Hs' & Hd' & Hp' & Hsh' & Hg' & Hoth' & HD' & Hh').
  { intros k v Hkv. rewrite Forall_forall in Hv. destruct (Hv _ Hkv) as [Hlen Hc]. cbn in Hlen, Hc.
    split; [done|]. intros cn E. cbn in E. rewrite E in Hc. destruct Hc. split_and!; try done. by apply Hin. }
  { done. }
  exists D', l', db'. split; [done|]. split; [split; cbn; [done|by constructor|]|].
  { intros p k q cn c Hpq. by destruct p. }
  split; cbn [fst snd]; try done.
  - by etrans.
  - intros k Hk. rewrite Hd'. by apply Hout.
  - intros k cn E E'0. destruct (decide (k ∈ (b_writes b).*1)) as [Hk|Hk].
    + apply list_elem_of_fmap in Hk as ([k' v] & ? & Hkv). cbn in *. subst k'.
      exists v. rewrite Hd'. split; [|by apply Hin].
      rewrite Forall_forall in Hv. destruct (Hv _ Hkv) as [_ Hc]. cbn in Hc. rewrite E in Hc. by destruct Hc.
    + apply Hoth' in E'0; [|done]. cbn in E'0. congruence.
  - intros k [Hk|Hk]; [left; cbn in *; by eapply (shrinks_none db1)|left; by apply Hg'].
Qed.

(** References go down, and never to the meta root. *)
Definition ranked (rank : bytes → nat) (db : Database) : Prop :=
  ∀ h cn c, dirties db !! h = Some cn → h ≠ zeroHash → c ∈ cn_childs cn → is_Some (dirties db !! c) →
    c ≠ zeroHash ∧ (rank c < rank h)%nat.

Lemma ranked_shrinks rank db db' : shrinks db db' → ranked rank db → ranked rank db'.
Proof.
  intros Hs H h cn' c E Hh Hc [cc' Ecc]. destruct (shrinks_node _ _ _ _ Hs E) as (cn & E1 & _ & Hch).
  destruct (Hs _ _ Ecc) as (cc & ? & _). rewrite Hch in Hc. by eapply H.
Qed.

(** [f] commits [h] in every state that comes after [db0]. *)
Definition commits (rank : bytes → nat) (db0 : Database)
    (f : bytes → Database * batch → outcome (Database * batch)) (h : bytes) : Prop :=
  ∀ D l st, shrinks db0 st.1 → good D l st → ranked rank st.1 →
    ∃ D' l' st', f h st = Ret st' ∧ good D' l' st' ∧ advances D st D' st' ∧ settled st' h.

Lemma for_each_commits rank db0 f hs :
  Forall (commits rank db0 f) hs →
  ∀ D l st, shrinks db0 st.1 → good D l st → ranked rank st.1 →
  ∃ D' l' st', for_each f hs st = Ret st' ∧ good D' l' st' ∧ advances D st D' st' ∧
    ∀ h, h ∈ hs → settled st' h.
Proof.
  induction 1 as [|h hs Hh _ IH]; intros D l st H0 Hg Hr.
  { exists D, l, st. split_and!; try done; [apply advances_refl|set_solver]. }
  destruct (Hh D l st H0 Hg Hr) as (D1 & l1 & st1 & E1 & Hg1 & Ha1 & Hs1).
  assert (Hsh := a_shrinks _ _ _ _ Ha1).
  destruct (IH D1 l1 st1) as (D2 & l2 & st2 & E2 & Hg2 & Ha2 & Hs2);
    [by etrans|done|by eapply ranked_shrinks|].
  exists D2, l2, st2. cbn. rewrite E1. cbn. split_and!; try done; [by eapply advances_trans|].
  intros h' [->|?]%elem_of_cons; [by apply (a_settled _ _ _ _ Ha2)|by apply Hs2].
Qed.

(** A node is put in the batch after its children. *)
Lemma put_good D l db b D0 st0 h cn v :
  good D l (db, b) → advances D0 st0 D (db, b) → length h = 32%nat → h ≠ zeroHash →
  dirties st0.1 !! h = Some cn → cn_rlp cn = Ret v →
  (∀ c, c ∈ cn_childs cn → settled (db, b) c) →
  good D l (db, batch_Put h v b) ∧ advances D (db, b) D (db, batch_Put h v b).
Proof.
  intros [H Hv Ho] Ha Hlen Hz E Ev Hch. cbn [fst snd] in *.
  assert (Hentry : ∀ cn', dirties db !! h = Some cn' → h ∈ l ∧ cn_node cn' = cn_node cn).
  { intros cn' E'. split.
    - destruct (ok_dom _ _ _ H h) as [?|?]; [by eexists|done..].
    - destruct (shrinks_node _ _ _ _ (a_shrinks _ _ _ _ Ha) E') as (c & Ec & Hn & _). congruence. }
  split; [split; cbn [fst snd batch_Put b_writes]; [done| |]|].
  - apply Forall_app. split; [done|]. apply Forall_singleton. split; [done|]. cbn.
    destruct (dirties db !! h) as [cn'|] eqn:E'.
    + destruct (Hentry cn' eq_refl) as [? Hn]. unfold cn_rlp in *. by rewrite Hn.
    + destruct (a_gone _ _ _ _ Ha h cn E E') as (v' & ? & ?). cbn in *. congruence.
  - rewrite fmap_app. cbn. intros p k q cn' c Hpq Ek Hc.
    destruct q as [|x q _] using rev_ind.
    + apply app_inj_tail in Hpq as [<- <-]. destruct (Hentry cn' Ek) as [Hl Hn].
      apply list_elem_of_split in Hl as (l1 & l2 & El).
      destruct (ok_order _ _ _ H l1 h l2 cn' c El Ek Hc) as [?|[_ (cc & Ecc & ?)]]; [by left|right].
      split; [|by exists cc].
      assert (Hcc : c ∈ cn_childs cn) by (unfold cn_childs; rewrite <- Hn; set_solver).
      destruct (Hch c Hcc) as [Hs|Hs]; cbn in Hs; [congruence|done].
    + rewrite app_comm_cons, app_assoc in Hpq. apply app_inj_tail in Hpq as [Hpq _]. by eapply Ho.
  - split; cbn [fst snd]; try done; [intros k c ? ?; congruence|intros k c Ek; by exists c|].
    intros k [?|?]; [by left|right]. cbn in *. rewrite fmap_app. set_solver.
Qed.

Lemma commit_commits rank db0 fuel : ∀ h,
  (is_Some (dirties db0 !! h) → h ≠ zeroHash ∧ rank h + 2 <= fuel)%nat → (1 <= fuel)%nat →
  ranked rank db0 → commits rank db0 (commit fuel) h.
Proof.
  induction fuel as [|fuel IH]; intros h Hh Hfuel Hr0 D l st H0 Hg Hr; [lia|].
  cbn [commit]. destruct (dirties st.1 !! h) as [cn|] eqn:E.
  2:{ exists D, l, st. split_and!; try done; [apply advances_refl|by left]. }
  destruct (shrinks_node _ _ _ _ H0 E) as (cn0 & E0 & _ & Hch0).
  destruct Hh as [Hz Hrank]; [by eexists|].
  assert (Hkids : Forall (commits rank db0 (commit fuel)) (cn_childs cn)).
  { apply Forall_forall. intros c Hc. apply IH; [|lia|done].
    intros Hin. rewrite Hch0 in Hc. destruct (Hr0 h cn0 c E0 Hz Hc Hin). split; [done|]. lia. }
  destruct (for_each_commits rank db0 _ _ Hkids D l st H0 Hg Hr) as (D1 & l1 & [db b] & E1 & Hg1 & Ha1 & Hs1).
  rewrite E1. cbn [mbind outcome_bind].
  assert (Hl : h ∈ l).
  { destruct (ok_dom _ _ _ (g_ok _ _ _ Hg) h) as [?|?]; [by eexists|done..]. }
  destruct (ok_entry _ _ _ (g_ok _ _ _ Hg) h cn Hl E) as (v & Ev & _).
  rewrite Ev. cbn [mbind outcome_bind].
  destruct (put_good D1 l1 db b D st h cn v) as [Hg2 Ha2]; try done.
  { apply (ok_len _ _ _ (g_ok _ _ _ Hg)). by left. }
  assert (Ha12 := advances_trans _ _ _ _ _ _ Ha1 Ha2).
  assert (Hin : settled (db, batch_Put h v b) h).
  { right. cbn. rewrite fmap_app. set_solver. }
  destruct (IdealBatchSize <=? _).
  - destruct (flush_batch D1 l1 db _ Hg2) as (D3 & l3 & db3 & E3 & Hg3 & Ha3). rewrite E3. cbn.
    exists D3, l3, (db3, NewBatch). split_and!; try done; [by eapply advances_trans|].
    by apply (a_settled _ _ _ _ Ha3).
  - exists D1, l1, (db, batch_Put h v b). done.
Qed.

Lemma Commit_spec D l db rank fuel root :
  db_ok D l db → ranked rank db → root ≠ zeroHash → (rank root + 2 <= fuel)%nat →
  ∃ D' l' db', Commit fuel root db = Ret db' ∧ db_ok D' l' db' ∧ same_reads db db' ∧
    dirties db' !! root = None ∧ (∀ h, D h → D' h) ∧ (∀ h, held D db h → held D' db' h) ∧ shrinks db db'.
Proof.
  intros H Hr Hz Hfuel. unfold Commit.
  destruct (flush_preimages D l db true H) as (H32 & _ & _).
  assert (HP := preimages_kept D l db true). cbn zeta in *.
  set (st := foldl put_preimage _ _) in *. destruct st as [b0 disk0]. cbn [fst snd] in *.
  destruct (set_disk_ok D l db _ H32 H) as [H1 Hs1]. set (db1 := set_disk _ db) in *.
  assert (Hg1 : good D l (db1, NewBatch)).
  { split; cbn; [done|constructor|]. intros p k q cn c Hpq. by destruct p. }
  destruct (commit_commits rank db1 fuel root) with (D := D) (l := l) (st := (db1, NewBatch))
    as (D2 & l2 & [db2 b2] & E2 & Hg2 & Ha2 & Hs2); try done; [lia|intros k c Ek; by exists c|].
  rewrite E2. cbn [mbind outcome_bind].
  destruct (flush_batch D2 l2 db2 b2 Hg2) as (D3 & l3 & db3 & E3 & Hg3 & Ha3).
  rewrite E3. cbn [mbind outcome_bind].
  assert (Ha := advances_trans _ _ _ _ _ _ Ha2 Ha3).
  destruct (set_preimages_ok D3 l3 db3 ∅ 0) as [H4 Hs4]; [set_solver|apply Hg3|].
  exists D3, l3, (set_preimages ∅ 0 db3). split; [done|]. split; [done|].
  split; [split; [etrans; [exact Hs1|]; etrans; [apply Ha|exact Hs4]|]|].
  - apply HP; [done|  |done]. intros h Hh. cbn. rewrite (a_disk _ _ _ _ Ha); [done|]. cbn.
    destruct (dirties db !! secureKey h) as [cn|] eqn:E; [|done].
    destruct (ok_dom _ _ _ H (secureKey h)) as [Heq|Hin]; [by eexists| |].
    + assert (Hlen := f_equal length Heq). rewrite secureKey_length, Hh in Hlen. discriminate Hlen.
    + assert (Hlen := ok_len _ _ _ H _ (or_introl Hin)). rewrite secureKey_length in Hlen. lia.
  - destruct Ha as [_ _ _ _ Hsh _ HD Hheld]. split; [|done].
    destruct (a_settled _ _ _ _ Ha3 root Hs2) as [?|Hin]; [done|]. cbn in Hin. set_solver.
Qed.

(** Nodes that are on disk for good are read from the disk alone. *)
Lemma disk_reads D l db h :
  db_ok D l db → D h → h ≠ zeroHash → db_node (NewDatabase (diskdb db)) h = db_node db h.
Proof.
  intros H Hh Hz. unfold db_node. cbn. rewrite lookup_singleton_ne by done.
  destruct (ok_disk _ _ _ H h Hh) as (enc & E & _). rewrite E.
  destruct (dirties db !! h) as [cn|] eqn:Ecn; [|done].
  destruct (ok_dom _ _ _ H h) as [?|Hl]; [by eexists|done|].
  destruct (ok_twice _ _ _ H h cn Hh Hl Ecn) as [_ Ht].
  destruct (ok_entry _ _ _ H h cn Hl Ecn) as (b & Eb & ->). rewrite (Ht enc E) in Eb.
  by injection Eb as ->.
Qed.

Lemma NewDatabase_ok D db : (∀ h, D h → length h = 32%nat) → ¬ D zeroHash →
  (∀ h, D h → ∃ enc, diskdb db !! h = Some enc ∧
    ∀ n c, mustDecodeNode (Some h) enc = Ret n → c ∈ node_kids n → D c) →
  db_ok D [] (NewDatabase (diskdb db)).
Proof.
  intros Hlen Hnz Hd. split; cbn; try done.
  - split; cbn; try done; [apply NoDup_nil_2|set_solver].
  - intros k [cn Ek]. apply lookup_singleton_Some in Ek as [<- _]. by left.
  - intros k [?|?]; [set_solver|by apply Hlen].
  - set_solver.
  - intros l1 a l2 cn c Hpq. by destruct l1.
  - set_solver.
Qed.

(** The nodes below a root. *)
Inductive below (db : Database) (root : bytes) : bytes → Prop :=
| below_root : below db root root
| below_kid h n c :
    below db root h → db_node db h = Ret (Some n) → c ∈ node_kids n → below db root c.

Lemma disk_kids D l db h n c :
  db_ok D l db → D h → db_node db h = Ret (Some n) → c ∈ node_kids n → D c.
Proof.
  intros H HD En Hc. destruct (ok_disk _ _ _ H h HD) as (enc & E & Hk). apply (Hk n c); [|done].
  assert (Hz : h ≠ zeroHash) by (intros ->; by apply (ok_zero _ _ _ H)).
  rewrite <- (disk_reads D l db h H HD Hz) in En. unfold db_node in En. cbn in En.
  rewrite lookup_singleton_ne, E in En by done. destruct (mustDecodeNode (Some h) enc); [|discriminate En].
  cbn in En. by injection En as ->.
Qed.

(** What is held is closed under children. *)
Lemma held_kids D l db h n c :
  db_ok D l db → held D db h → db_node db h = Ret (Some n) → c ∈ node_kids n → held D db c.
Proof.
  intros H Hh En Hc.
  assert (Hz : h ≠ zeroHash) by (destruct Hh as [Hh|[? _]]; [intros ->; by apply (ok_zero _ _ _ H)|done]).
  destruct Hh as [HD|(_ & cn & E & Hb)]; [left; by eapply disk_kids|].
  destruct (ok_dom _ _ _ H h) as [?|Hl]; [by eexists|done|].
  unfold db_node in En. rewrite E in En. destruct (cn_obj h cn) as [m|] eqn:Eo; [|discriminate En].
  cbn in En. injection En as ->.
  assert (Hk : node_kids n = gatherChildren (cn_node cn)).
  { unfold cn_obj, raw_obj in Eo. eapply (expandNode_kids _ (Some h)). destruct (cn_node cn); done. }
  rewrite Hk in Hc. apply list_elem_of_split in Hl as (l1 & l2 & El).
  destruct (ok_order _ _ _ H l1 h l2 cn c El E Hc) as [?|(Hin & cc & Ecc & Hbc)]; [by left|right].
  split; [|by exists cc]. intros ->. apply (fl_zero _ _ _ _ (ok_flush _ _ _ H)). rewrite El. set_solver.
Qed.

(** *** Inserting a node whose children are held *)

Lemma insert_raw_ok D l db h blob r v :
  db_ok D l db → dirties db !! h = None → length h = 32%nat →
  raw_rlp r = Ret v → raw_obj h r = mustDecodeNode (Some h) v →
  (∀ c, c ∈ gatherChildren r → held D db c) → (D h → diskdb db !! h = Some v) →
  ∃ db', insert_raw h blob r db = Ret db' ∧ db_ok D (l ++ [h]) db' ∧
    diskdb db' = diskdb db ∧ preimages db' = preimages db ∧
    (∃ cn, dirties db' !! h = Some cn ∧ cn_node cn = r ∧ cn_children cn = None) ∧
    (∀ k, k ≠ h → (λ c, (cn_node c, cn_children c)) <$> dirties db' !! k =
                  (λ c, (cn_node c, cn_children c)) <$> dirties db !! k).
Proof.
  intros H E Hlen Ev Eobj Hkids Hdisk.
  destruct (insert_raw_spec db l h blob r (ok_flush _ _ _ H) E)
    as (db' & Ei & Hf' & Hdk & Hpre & _ & (cn & Ecn & Hn & Hch) & Hoth).
  exists db'. split; [done|]. split_and!; try done; [|by exists cn].
  assert (Hback : ∀ k c', k ≠ h → dirties db' !! k = Some c' → ∃ c, dirties db !! k = Some c ∧ cn_node c' = cn_node c).
  { intros k c' Hk Ek. specialize (Hoth k Hk). rewrite Ek in Hoth. destruct (dirties db !! k) as [c|]; [|done].
    injection Hoth as Hc _. by exists c. }
  assert (Hfwd : ∀ k c, dirties db !! k = Some c → ∃ c', dirties db' !! k = Some c' ∧ cn_node c' = cn_node c).
  { intros k c Ek. specialize (Hoth k ltac:(congruence)). rewrite Ek in Hoth.
    destruct (dirties db' !! k) as [c'|]; [|done]. injection Hoth as Hc _. by exists c'. }
  destruct H as [Hf Hd Hl He Ho Hk Ht Hp Hnz]. split; try done.
  - intros k [c' Ek]. destruct (decide (k = h)) as [->|Hne]; [right; set_solver|].
    destruct (Hback k c' Hne Ek) as (c & ? & _). destruct (Hd k); [by eexists|by left|right; set_solver].
  - intros k [Hin|?]; [|apply Hl; by right]. apply elem_of_app in Hin as [?|Hin]; [apply Hl; by left|].
    by apply list_elem_of_singleton in Hin as ->.
  - intros k c' Hin Ek. destruct (decide (k = h)) as [->|Hne].
    + exists v. rewrite Ecn in Ek. injection Ek as <-. unfold cn_rlp, cn_obj. rewrite Hn.
      split; [done|exact Eobj].
    + destruct (Hback k c' Hne Ek) as (c & Ec & Hc). destruct (He k c) as (b & ? & ?); [set_solver|done|].
      exists b. unfold cn_rlp, cn_obj in *. by rewrite Hc.
  - intros l1 a l2 c' x El Ea Hx. destruct l2 as [|y l2 _] using rev_ind.
    + apply app_inj_tail in El as [<- <-]. rewrite Ecn in Ea. injection Ea as <-. rewrite Hn in Hx.
      destruct (Hkids x Hx) as [?|(Hz & cc & Ecc & Hb)]; [by left|right].
      destruct (Hd x) as [?|?]; [by eexists|done|]. split; [done|].
      destruct (Hfwd x cc Ecc) as (cc' & ? & Hcc). exists cc'. by rewrite Hcc.
    + rewrite app_comm_cons, app_assoc in El. apply app_inj_tail in El as [El <-].
      assert (Hah : a ≠ h).
      { intros ->. destruct (chain_member _ _ _ _ h (fl_chain _ _ _ _ Hf)); [rewrite El; set_solver|congruence]. }
      destruct (Hback a c' Hah Ea) as (c & Ec & Hc). rewrite Hc in Hx.
      destruct (Ho l1 a l2 c x El Ec Hx) as [?|(? & cc & Ecc & ?)]; [by left|right]. split; [done|].
      destruct (Hfwd x cc Ecc) as (cc' & ? & Hcc). exists cc'. by rewrite Hcc.
  - rewrite Hdk. done.
  - intros k c' HD Hin Ek. rewrite Hdk. destruct (decide (k = h)) as [->|Hne].
    + rewrite Hdisk by done. split; [done|]. intros enc [= <-]. rewrite Ecn in Ek. injection Ek as <-.
      unfold cn_rlp. by rewrite Hn.
    + destruct (Hback k c' Hne Ek) as (c & Ec & Hc). unfold cn_rlp. rewrite Hc. apply (Ht k c); [done|set_solver|done].
  - intros k p. rewrite Hpre. apply Hp.
Qed.

(** ** Properties *)

(** A database with two nodes: a leaf and an extension that refers to it. *)
Definition demo_leaf : bytes := replicate 32 1.
Definition demo_ext : bytes := replicate 32 2.
Definition demo_leaf_raw : raw := RShort [53] (RValue [7; 8; 9]).
Definition demo_ext_raw : raw := RShort [19] (RHash demo_leaf).
Definition rlp_or_nil (r : raw) : bytes := match raw_rlp r with Ret b => b | Panic _ => [] end.

Definition demo_db : outcome Database :=
  db ← insert_raw demo_leaf (rlp_or_nil demo_leaf_raw) demo_leaf_raw (NewDatabase ∅);
  insert_raw demo_ext (rlp_or_nil demo_ext_raw) demo_ext_raw db.

Definition demo_rank (h : bytes) : nat := if bool_decide (h = demo_ext) then 1 else 0.

Lemma demo_db_ok :
  ∃ db, demo_db = Ret db ∧ db_ok (λ _, False) [demo_leaf; demo_ext] db ∧ ranked demo_rank db ∧
    held (λ _, False) db demo_ext.
Proof.
  unfold demo_db.
  assert (H0 : db_ok (λ _, False) [] (NewDatabase ∅)).
  { apply (NewDatabase_ok _ (NewDatabase ∅)); tauto. }
  destruct (insert_raw_ok _ _ _ demo_leaf (rlp_or_nil demo_leaf_raw) demo_leaf_raw (rlp_or_nil demo_leaf_raw) H0)
    as (db1 & -> & H1 & _ & _ & (c1 & E1 & Hn1 & Hc1) & Ho1); [by vm_compute..|set_solver|done|].
  cbn [mbind outcome_bind].
  assert (Hnew : dirties db1 !! demo_ext = None).
  { destruct (dirties db1 !! demo_ext) as [c|] eqn:E; [|done].
    destruct (ok_dom _ _ _ H1 demo_ext) as [Hd|Hd]; [by eexists|discriminate Hd|].
    apply list_elem_of_singleton in Hd. discriminate Hd. }
  destruct (insert_raw_ok _ _ _ demo_ext (rlp_or_nil demo_ext_raw) demo_ext_raw (rlp_or_nil demo_ext_raw) H1)
    as (db2 & -> & H2 & _ & _ & (c2 & E2 & Hn2 & Hc2) & Ho2); [done|by vm_compute..| |done|].
  { intros c [->|Hc]%elem_of_cons; [|set_solver]. right. split; [done|]. exists c1. by rewrite Hn1. }
  exists db2. split; [done|]. split; [done|]. split; [|right; split; [done|]; exists c2; by rewrite Hn2].
  intros h cn c E Hz Hc _. destruct (ok_dom _ _ _ H2 h) as [?|Hd]; [by eexists|done|].
  apply elem_of_cons in Hd as [->|Hd].
  - specialize (Ho2 demo_leaf ltac:(discriminate)). rewrite E, E1 in Ho2. injection Ho2 as Hn Hch.
    unfold cn_childs in Hc. rewrite Hn, Hch, Hn1, Hc1 in Hc. cbn in Hc. set_solver.
  - apply list_elem_of_singleton in Hd as ->. rewrite E2 in E. injection E as <-.
    unfold cn_childs in Hc. rewrite Hn2, Hc2 in Hc. apply list_elem_of_singleton in Hc as ->.
    split; [done|]. unfold demo_rank. rewrite bool_decide_eq_false_2, bool_decide_eq_true_2 by done. lia.
Qed.

(** C26. Flushing the trie database never changes an answer. Cap and Commit return,
    whatever the memory limit, keep the database well formed (its flush list links every
    cached node once, in the order of insertion), and afterwards every node, every
    encoded node and every preimage reads as before, although part of the memory has
    been forgotten. *)
Theorem flush_preserves_reads D l db rank fuel limit root :
  db_ok D l db → ranked rank db → root ≠ zeroHash → (rank root + 2 <= fuel)%nat →
  (∃ D' l' db', Cap limit db = Ret db' ∧ db_ok D' l' db' ∧ same_reads db db') ∧
  (∃ D' l' db', Commit fuel root db = Ret db' ∧ db_ok D' l' db' ∧ same_reads db db').
Proof.
  intros H Hr Hz Hfuel. split.
  - destruct (Cap_spec D l db limit H) as (l1 & l2 & D' & db' & _ & E & H' & Hs & _). by exists D', l2, db'.
  - destruct (Commit_spec D l db rank fuel root H Hr Hz Hfuel) as (D' & l' & db' & E & H' & Hs & _).
    by exists D', l', db'.
Qed.

Lemma flush_preserves_reads_witness :
  ∃ db, demo_db = Ret db ∧
    (∃ D' l' db', Cap 0 db = Ret db' ∧ db_ok D' l' db' ∧ same_reads db db') ∧
    (∃ D' l' db', Commit 3 demo_ext db = Ret db' ∧ db_ok D' l' db' ∧ same_reads db db').
Proof.
  destruct demo_db_ok as (db & E & H & Hr & _). exists db. split; [done|].
  apply (flush_preserves_reads (λ _, False) [demo_leaf; demo_ext] db demo_rank 3 0 demo_ext);
    [done|done|discriminate|by vm_compute; lia].
Defined.

Lemma Commit_persists_spec D l db rank fuel root :
  db_ok D l db → ranked rank db → held D db root → (rank root + 2 <= fuel)%nat →
  ∃ D' l' db', Commit fuel root db = Ret db' ∧ db_ok D' l' db' ∧ same_reads db db' ∧ shrinks db db' ∧
    (∀ h, D h → D' h) ∧ (∀ h, held D db h → held D' db' h) ∧
    ∀ h, below db root h → D' h ∧ db_node (NewDatabase (diskdb db')) h = db_node db h.
Proof.
  intros H Hr Hroot Hfuel.
  assert (Hz : root ≠ zeroHash) by (destruct Hroot as [Hd|[? _]]; [intros ->; by apply (ok_zero _ _ _ H)|done]).
  destruct (Commit_spec D l db rank fuel root H Hr Hz Hfuel)
    as (D' & l' & db' & E & H' & Hs & Hn & HD & Hheld & Hsh).
  exists D', l', db'. split_and!; try done.
  assert (Hread : ∀ h, D' h → db_node db' h = db_node db h).
  { intros h Hh. apply Hs, (ok_len _ _ _ H'). by right. }
  assert (Hall : ∀ h, below db root h → D' h).
  { induction 1 as [|h n c _ IH En Hc].
    - destruct (Hheld root Hroot) as [?|(_ & cn & Ecn & _)]; [done|congruence].
    - rewrite <- Hread in En by done. by eapply disk_kids. }
  intros h Hh%Hall. split; [done|]. rewrite (disk_reads D' l' db' h H'); [by apply Hread|done|].
  intros ->. by apply (ok_zero _ _ _ H').
Qed.

(** C27. A committed trie survives the loss of the memory. After Commit of a root that
    the trie database holds, every node below that root is on disk: a new database on
    the same disk, with nothing in memory, reads each of them as the old one did. *)
Theorem Commit_persists D l db rank fuel root :
  db_ok D l db → ranked rank db → held D db root → (rank root + 2 <= fuel)%nat →
  ∃ db', Commit fuel root db = Ret db' ∧
    ∀ h, below db root h → db_node (NewDatabase (diskdb db')) h = db_node db h.
Proof.
  intros H Hr Hroot Hfuel.
  destruct (Commit_persists_spec D l db rank fuel root H Hr Hroot Hfuel) as (D' & l' & db' & E & _ & _ & _ & _ & _ & Hb).
  exists db'. split; [done|]. intros h Hh. by apply Hb.
Qed.

Lemma Commit_persists_witness :
  ∃ db db', demo_db = Ret db ∧ Commit 3 demo_ext db = Ret db' ∧
    db_node (NewDatabase (diskdb db')) demo_ext = db_node db demo_ext ∧
    db_node (NewDatabase (diskdb db')) demo_ext =
      Ret (Some (shortNode [3] (hashNode demo_leaf) (mkFlag (Some demo_ext) false))).
Proof.
  destruct demo_db_ok as (db & E & H & Hr & Hheld).
  destruct (Commit_persists (λ _, False) [demo_leaf; demo_ext] db demo_rank 3 demo_ext)
    as (db' & E' & Hb); [done|done|done|by vm_compute; lia|].
  exists db, db'. split; [done|]. split; [done|]. assert (Hx := Hb demo_ext (below_root _ _)).
  split; [done|]. rewrite Hx. vm_compute in E. injection E as <-. by vm_compute.
Defined.
