(* ===== verification/TrieHash.v ===== *)
(** * Hashing and committing tries (trie/hasher.go, trie/trie.go, trie/secure_trie.go)

    The hasher collapses a trie to its root hash, caching the hashes of the nodes, and in
    commit mode writes every node to the trie database.  The theorems say that the root
    hash is the hash of the tree that the map determines, so that it binds the map, and
    that a committed trie can be opened again, also from the disk alone. *)

From Stdlib Require Import ZArith Lia ZifyBool.
From stdpp Require Import base tactics strings numbers gmap list.
From S2P Require Import Prelude Rlp RlpDecode RlpCanon TrieKeys Trie TrieNodes TrieDb.

Local Open Scope Z_scope.

(** ** The hasher *)

(** [LeafCallback]: it sees the value of a leaf and the hash of the node that has it, and
    may add references to the database; its error is ignored. *)
Definition LeafCallback : Type := option (bytes → bytes → Database → outcome Database).

Section hasher.
  Context {KL : KeccakLib}.

Definition node_cache (n : node) : outcome (option bytes * bool) :=
  match n with
  | nilNode => Panic "nil pointer dereference"
  | fullNode _ fl | shortNode _ _ fl => Ret (nf_hash fl, nf_dirty fl)
  | hashNode _ | valueNode _ => Ret (None, true)
  end.

Definition HashRes : Type := outcome (node * node * option Database).

Definition is_value (n : node) : bool := match n with valueNode _ => true | _ => false end.

(** The children of a full node up to the sixteenth; the value slot stays as it is. *)
Definition hash_slots (rec : node → option Database → HashRes) : nat → list node → option Database →
    outcome (list node * list node * option Database) :=
  fix go (i : nat) (cs : list node) (db : option Database) :=
    match cs with
    | [] => Ret ([], [], db)
    | c :: cs =>
        if (i <? 16)%nat && negb (is_nil c) then
          r ← rec c db;
          let '(h, c', db) := r in
          rs ← go (S i) cs db;
          let '(hs, cs', db) := rs in
          Ret (h :: hs, c' :: cs', db)
        else
          rs ← go (S i) cs db;
          let '(hs, cs', db) := rs in
          Ret (c :: hs, c :: cs', db)
    end.

(** The collapsed node, and the node with the hashes of its children cached. *)
Definition hashChildren_with (rec : node → option Database → HashRes) (n : node) (db : option Database)
    : HashRes :=
  match n with
  | shortNode k v fl =>
      key ← hexToCompact k;
      if is_value v then Ret (shortNode key v fl, shortNode k v fl, db)
      else
        r ← rec v db;
        let '(h, v', db) := r in
        Ret (shortNode key h fl, shortNode k v' fl, db)
  | fullNode cs fl =>
      rs ← hash_slots rec 0 cs db;
      let '(hs, cs', db) := rs in
      Ret (fullNode hs fl, fullNode cs' fl, db)
  | _ => Ret (n, n, db)
  end.

Definition call_leaf (onleaf : LeafCallback) (n : node) (hash : bytes) (db : Database) : outcome Database :=
  match onleaf, n with
  | Some f, valueNode v => f v hash db
  | _, _ => Ret db
  end.

Definition run_onleaf (onleaf : LeafCallback) (n : node) (hash : bytes) (db : Database) : outcome Database :=
  match n with
  | shortNode _ v _ => call_leaf onleaf v hash db
  | fullNode cs _ => for_each (λ c, call_leaf onleaf c hash) (take 16 cs) db
  | _ => Ret db
  end.

Definition h_store (onleaf : LeafCallback) (n : node) (db : option Database) (force : bool)
    : outcome (node * option Database) :=
  if is_nil n || is_hash n then Ret (n, db)
  else
    tmp ← node_rlp n;
    if (lenZ tmp <? 32) && negb force then Ret (n, db)
    else
      c ← node_cache n;
      let hash := default (keccak256 tmp) c.1 in
      match db with
      | None => Ret (hashNode hash, None)
      | Some db =>
          db ← db_insert (BytesToHash hash) tmp n db;
          db ← run_onleaf onleaf n (BytesToHash hash) db;
          Ret (hashNode hash, Some db)
      end.

(** The computed hash is cached; in commit mode the node is clean. *)
Definition set_cache (hashed : node) (commit : bool) (cached : node) : node :=
  let h := match hashed with hashNode h => Some h | _ => None end in
  match cached with
  | shortNode k v fl => shortNode k v (mkFlag h (if commit then false else nf_dirty fl))
  | fullNode cs fl => fullNode cs (mkFlag h (if commit then false else nf_dirty fl))
  | _ => cached
  end.

Definition is_commit (db : option Database) : bool := match db with Some _ => true | None => false end.

(** The part of [hash] after the cache: hash the children, store the collapsed node. *)
Definition hash_walk (onleaf : LeafCallback) (rec : node → option Database → HashRes) (n : node)
    (db : option Database) (force : bool) : HashRes :=
  r ← hashChildren_with rec n db;
  let '(collapsed, cached, db) := r in
  s ← h_store onleaf collapsed db force;
  let '(hashed, db) := s in
  Ret (hashed, set_cache hashed (is_commit db) cached, db).

Fixpoint h_hash (onleaf : LeafCallback) (n : node) (db : option Database) (force : bool) : HashRes :=
  match node_cache n with
  | Panic why => Panic why
  | Ret (Some h, dirty) =>
      if is_commit db then
        if dirty then hash_walk onleaf (λ c db, h_hash onleaf c db false) n db force
        else Ret (hashNode h, hashNode h, db)
      else Ret (hashNode h, n, db)
  | Ret (None, _) => hash_walk onleaf (λ c db, h_hash onleaf c db false) n db force
  end.

Definition hashChildren (onleaf : LeafCallback) : node → option Database → HashRes :=
  hashChildren_with (λ c db, h_hash onleaf c db false).

Definition makeHashNode (data : bytes) : node := hashNode (keccak256 data).

(** ** Tries *)

Definition emptyRoot : bytes :=
  [86; 232; 31; 23; 27; 204; 85; 166; 255; 131; 69; 230; 146; 192; 248; 110; 91; 72; 224; 27; 153; 108; 173; 192;
   1; 98; 47; 181; 227; 99; 180; 33].

#[global] Arguments emptyRoot : simpl never.

(** The error paths of [New], [TryGet] and so on are those of [TR]. *)
Definition New (root : bytes) (db : Database) : TR node :=
  if bool_decide (root = zeroHash) || bool_decide (root = emptyRoot) then mret nilNode
  else resolveHash (db_node db) root [].

Definition hashRoot (root : node) (db : option Database) (onleaf : LeafCallback) : HashRes :=
  if is_nil root then Ret (hashNode emptyRoot, nilNode, db) else h_hash onleaf root db true.

Definition as_hash (n : node) : outcome bytes :=
  match n with hashNode h => Ret (BytesToHash h) | _ => Panic "interface conversion" end.

(** The hash and the new root node. *)
Definition Hash (root : node) : outcome (bytes * node) :=
  r ← hashRoot root None None;
  let '(hash, cached, _) := r in
  h ← as_hash hash; Ret (h, cached).

Definition trie_Commit (onleaf : LeafCallback) (root : node) (db : Database) : outcome (bytes * node * Database) :=
  r ← hashRoot root (Some db) onleaf;
  let '(hash, cached, db') := r in
  h ← as_hash hash; Ret (h, cached, default db db').

(** ** Secure tries: the keys are hashed, and kept as preimages until the commit *)

Record SecureTrie := mkSecure { st_root : node; st_secKeyCache : gmap bytes bytes }.

Definition NewSecure (root : bytes) (db : Database) : TR SecureTrie :=
  match New root db with inl n => inl (mkSecure n ∅) | inr e => inr e end.

Definition hashKey (key : bytes) : bytes := keccak256 key.

Definition Secure_TryGet (db : Database) (t : SecureTrie) (key : bytes) : TR (option bytes * SecureTrie) :=
  match TryGet (db_node db) (st_root t) (hashKey key) with
  | inl (v, n) => inl (v, mkSecure n (st_secKeyCache t))
  | inr e => inr e
  end.

Definition Secure_TryUpdate (db : Database) (t : SecureTrie) (key value : bytes) : TR SecureTrie :=
  match TryUpdate (db_node db) (st_root t) (hashKey key) value with
  | inl n => inl (mkSecure n (<[hashKey key := key]> (st_secKeyCache t)))
  | inr e => inr e
  end.

Definition Secure_TryDelete (db : Database) (t : SecureTrie) (key : bytes) : TR SecureTrie :=
  match TryDelete (db_node db) (st_root t) (hashKey key) with
  | inl n => inl (mkSecure n (base.delete (hashKey key) (st_secKeyCache t)))
  | inr e => inr e
  end.

Definition GetKey (db : Database) (t : SecureTrie) (shaKey : bytes) : option bytes :=
  match st_secKeyCache t !! shaKey with
  | Some key => Some key
  | None => db_preimage db (BytesToHash shaKey)
  end.

Definition Secure_Commit (onleaf : LeafCallback) (t : SecureTrie) (db : Database)
    : outcome (bytes * SecureTrie * Database) :=
  let db := foldr (λ '(hk, key) db, insertPreimage (BytesToHash hk) key db) db (map_to_list (st_secKeyCache t)) in
  r ← trie_Commit onleaf (st_root t) db;
  let '(h, root, db) := r in
  Ret (h, mkSecure root ∅, db).
End hasher.

(** ** Databases of tree nodes

    The nodes that a database holds belong to a set [Us] of trees whose hashes differ. *)

Definition le_view (V V' : bytes → outcome (option node)) : Prop :=
  ∀ h n, V h = Ret (Some n) → V' h = Ret (Some n).

#[global] Instance le_view_refl : Reflexive le_view.
Proof. by intros V h n. Qed.

#[global] Instance le_view_trans : Transitive le_view.
Proof. intros V1 V2 V3 H12 H23 h n H. by apply H23, H12. Qed.

(** Trees in the order of size: the subtries of a node, without the node. *)
Definition kid_trees (t : tree) : list tree :=
  match t with
  | TNil | TVal _ => []
  | TShort _ c => [c]
  | TFull cs => cs
  end.

Lemma sub_trans s t u : sub s t → sub t u → sub s u.
Proof.
  intros Hst. induction 1 as [t|t k u _ IH|t c cs Hc _ IH]; [done|by apply sub_short, IH|].
  eapply sub_full; [exact Hc|by apply IH].
Qed.

Lemma sub_kid c t : c ∈ kid_trees t → sub c t.
Proof.
  destruct t as [|v|k t|cs]; cbn; [set_solver..| |].
  - intros ->%list_elem_of_singleton. by repeat constructor.
  - intros Hc. eapply sub_full; [exact Hc|constructor].
Qed.

Lemma Forall2_impl_in {A B} (P Q : A → B → Prop) l k :
  (∀ x y, x ∈ l → y ∈ k → P x y → Q x y) → Forall2 P l k → Forall2 Q l k.
Proof.
  intros H Hf. induction Hf as [|x y l k Hxy _ IH]; constructor.
  - apply H; [left|left|done].
  - apply IH. intros a b Ha Hb. apply H; by right.
Qed.

Section tree_db.
  Context {KL : KeccakLib} {KLaws : KeccakLaws}.

Lemma has_mono V V' t : le_view V V' → has V t → has V' t.
Proof. intros Hle H s Hs Hb. by apply Hle, H. Qed.

Lemma flag_ok_mono V V' b fl t : le_view V V' → flag_ok V b fl t → flag_ok V' b fl t.
Proof.
  intros Hle [H1 H2]. split; [done|]. intros Hd. destruct (H2 Hd) as [? Hs].
  split; [by eapply has_mono|]. intros Hb. by apply Hle, Hs.
Qed.

Lemma rep_mono V V' b n t : le_view V V' → rep V b n t → rep V' b n t.
Proof.
  intros Hle. revert b n. induction t as [|v|k t IH|cs IH] using tree_ind'; intros b n H; inversion H; subst;
    try (by constructor); try (by constructor; [done|done|by eapply has_mono|by apply Hle]).
  - constructor; [by apply IH|by eapply flag_ok_mono].
  - constructor; [|by eapply flag_ok_mono]. rewrite Forall_forall in IH.
    match goal with H : Forall2 _ ns cs |- _ => rename H into Hf end.
    eapply Forall2_impl_in, Hf. intros m c _ Hc Hm. by apply IH.
Qed.

(** A set of trees with distinct hashes, closed under subtries that are not embedded. *)
Record universe (Us : list tree) : Prop := {
  u_minimal : ∀ s, s ∈ Us → minimal_tree s ∧ fine s;
  u_closed : ∀ s s', s ∈ Us → sub s' s → big s' = true → s' ∈ Us;
  u_inj : ∀ s s', s ∈ Us → s' ∈ Us → tree_hash s = tree_hash s' → s = s';
  u_special : ∀ s, s ∈ Us → tree_hash s ≠ zeroHash ∧ tree_hash s ≠ emptyRoot
}.

(** A rank that goes down in the trees. *)
Definition ranks (Us : list tree) (rank : bytes → nat) : Prop :=
  ∀ s s' c, s ∈ Us → c ∈ kid_trees s → sub s' c → big s' = true → (rank (tree_hash s') < rank (tree_hash s))%nat.

Record tdb (Us : list tree) (rank : bytes → nat) (D : bytes → Prop) (l : list bytes) (db : Database) : Prop := {
  t_ok : db_ok D l db;
  t_dirty : ∀ h cn, h ≠ zeroHash → dirties db !! h = Some cn →
    if is_blob (cn_node cn) then ∀ s, s ∈ Us → h ≠ tree_hash s
    else ∃ s, s ∈ Us ∧ h = tree_hash s ∧ cn_node cn = craw s;
  t_disk : ∀ h, D h → ∃ s, s ∈ Us ∧ h = tree_hash s ∧ diskdb db !! h = Some (tree_rlp s);
  t_ext : ∀ h cn c n, h ≠ zeroHash → dirties db !! h = Some cn → default ∅ (cn_children cn) !! c = Some n →
    c ≠ zeroHash ∧ (rank c < rank h)%nat
}.

Definition view_of (D : bytes → Prop) (db : Database) (V : bytes → outcome (option node)) : Prop :=
  ∀ h n, V h = Ret (Some n) → held D db h ∧ db_node db h = Ret (Some n).

Lemma kids_of_craw t c :
  c ∈ gatherChildren (craw t) → ∃ x s, x ∈ kid_trees t ∧ sub s x ∧ big s = true ∧ c = tree_hash s.
Proof.
  revert c. induction t as [|v|k t IH|cs IH] using tree_ind'; intros c Hc; cbn in Hc; [set_solver..| |].
  - exists t. destruct (big t) eqn:Eb.
    + cbn in Hc. apply list_elem_of_singleton in Hc as ->. exists t. cbn. split_and!; [set_solver|constructor|done|].
      apply BytesToHash_id, keccak_length.
    + destruct (IH c Hc) as (x & s & Hx & Hs & Hb & ->). exists s. cbn. split_and!; [set_solver| |done|done].
      eapply sub_trans; [exact Hs|by apply sub_kid].
  - apply list_elem_of_join in Hc as (ks & Hin & Hks). apply subseteq_take in Hks.
    rewrite <- list_fmap_compose in Hks. apply list_elem_of_fmap in Hks as (x & -> & Hx). cbn in Hin.
    exists x. destruct (big x) eqn:Eb.
    + cbn in Hin. apply list_elem_of_singleton in Hin as ->. exists x. split_and!; [done|constructor|done|].
      apply BytesToHash_id, keccak_length.
    + rewrite Forall_forall in IH. destruct (IH x Hx c Hin) as (y & s & Hy & Hs & Hb & ->).
      exists s. split_and!; try done. eapply sub_trans; [exact Hs|by apply sub_kid].
Qed.

Context (Us : list tree) (HU : universe Us) (rank : bytes → nat) (HR : ranks Us rank).

Lemma tdb_ranked D l db : tdb Us rank D l db → ranked rank db.
Proof.
  intros [H Hd Hk He] h cn c E Hz Hc _. unfold cn_childs in Hc. apply elem_of_app in Hc as [Hc|Hc].
  - apply list_elem_of_fmap in Hc as ([c' n] & -> & Hc%elem_of_map_to_list). by eapply He.
  - specialize (Hd h cn Hz E). destruct (is_blob (cn_node cn)) eqn:Eb.
    { destruct (cn_node cn); try done. cbn in Hc. set_solver. }
    destruct Hd as (s & Hs & -> & Hn). rewrite Hn in Hc.
    destruct (kids_of_craw s c Hc) as (x & s' & Hx & Hs' & Hb & ->).
    split; [|by eapply HR]. apply (u_special _ HU). eapply (u_closed _ HU); [exact Hs| |done].
    eapply sub_trans; [exact Hs'|by apply sub_kid].
Qed.

Lemma decode_rlp t h : minimal_tree t → fine t → mustDecodeNode h (tree_rlp t) = Ret (load h t).
Proof.
  intros Hm Hf. unfold mustDecodeNode, decodeNode.
  assert (E := decode_tree (S (length (tree_rlp t))) h t [] Hm Hf). rewrite app_nil_r in E.
  rewrite E; [done| |lia]. by destruct (Hf t (sub_refl t)).
Qed.

(** What is held is read as the tree with that hash. *)
Lemma tdb_read D l db s :
  tdb Us rank D l db → s ∈ Us → held D db (tree_hash s) →
  db_node db (tree_hash s) = Ret (Some (load (Some (tree_hash s)) s)).
Proof.
  intros [H Hd Hk _] Hs Hheld. destruct (u_minimal _ HU s Hs) as [Hm Hf].
  destruct (u_special _ HU s Hs) as [Hz _]. unfold db_node.
  destruct (dirties db !! tree_hash s) as [cn|] eqn:E.
  - specialize (Hd _ cn Hz E). destruct (is_blob (cn_node cn)) eqn:Eb; [by destruct (Hd s)|].
    destruct Hd as (s' & Hs' & Heq & Hn). apply (u_inj _ HU) in Heq as <-; [|done..].
    unfold cn_obj. rewrite Hn. assert (Hx := expand_craw (Some (tree_hash s)) s Hm).
    destruct s; try (by inversion Hm); cbn [raw_obj craw] in *; by rewrite Hx.
  - destruct Hheld as [HD|(_ & cn & E' & _)]; [|congruence].
    destruct (Hk _ HD) as (s' & Hs' & Heq & ->). apply (u_inj _ HU) in Heq as <-; [|done..].
    by rewrite decode_rlp.
Qed.

(** The view with one more tree. *)
Definition add_view (V : bytes → outcome (option node)) (t : tree) (k : bytes) : outcome (option node) :=
  if bool_decide (k = tree_hash t) then Ret (Some (load (Some k) t)) else V k.

Lemma add_view_stored V t : stored (add_view V t) t.
Proof. unfold stored, add_view. by rewrite bool_decide_eq_true_2. Qed.
Lemma held_tree D l db h : tdb Us rank D l db → held D db h → ∃ s, s ∈ Us ∧ h = tree_hash s.
Proof.
  intros [H Hd Hk _] [HD|(Hz & cn & E & Hb)].
  - destruct (Hk h HD) as (s & ? & ? & _). by exists s.
  - specialize (Hd h cn Hz E). rewrite Hb in Hd. destruct Hd as (s & ? & ? & _). by exists s.
Qed.

Lemma add_view_le D l db V t : tdb Us rank D l db → view_of D db V → t ∈ Us → le_view V (add_view V t).
Proof.
  intros H HV Ht h n Hh. unfold add_view. case_bool_decide as E; [|done]. subst h.
  destruct (HV _ _ Hh) as [Hheld En]. rewrite (tdb_read D l db t H Ht Hheld) in En. by injection En as <-.
Qed.

Lemma add_view_of D D' l l' db db' V t :
  tdb Us rank D l db → tdb Us rank D' l' db' → view_of D db V → t ∈ Us → held D' db' (tree_hash t) →
  (∀ h, held D db h → held D' db' h) → view_of D' db' (add_view V t).
Proof.
  intros H H' HV Ht Hh Hmono k n. unfold add_view. case_bool_decide as E.
  - subst k. intros [= <-]. split; [done|]. by eapply tdb_read.
  - intros Hk. destruct (HV k n Hk) as [Hheld En]. split; [by apply Hmono|].
    destruct (held_tree D l db k H Hheld) as (s & Hs & ->).
    rewrite (tdb_read D l db s H Hs Hheld) in En. rewrite <- En.
    eapply tdb_read; [exact H'|done|by apply Hmono].
Qed.

Lemma craw_node t : minimal_tree t → is_blob (craw t) = false ∧ raw_is_nil (craw t) = false.
Proof. destruct t; [by inversion 1..|done|done]. Qed.

Lemma craw_rlp t : minimal_tree t → fine t → raw_rlp (craw t) = Ret (tree_rlp t).
Proof.
  intros Hm Hf. rewrite <- (craw_enc t Hm). apply raw_rlp_ok; [by apply craw_node|by apply craw_wf|].
  rewrite (craw_enc t Hm). by destruct (Hf t (sub_refl t)).
Qed.

Lemma craw_obj t h : minimal_tree t → raw_obj h (craw t) = Ret (load (Some h) t).
Proof.
  intros Hm. rewrite <- (expand_craw (Some h) t Hm). destruct t; try done; by inversion Hm.
Qed.

Lemma tdb_grow D l l' db db' t cn :
  tdb Us rank D l db → db_ok D l' db' → t ∈ Us → diskdb db' = diskdb db →
  dirties db' !! tree_hash t = Some cn → cn_node cn = craw t → cn_children cn = None →
  (∀ k, k ≠ tree_hash t → (λ c, (cn_node c, cn_children c)) <$> dirties db' !! k =
                          (λ c, (cn_node c, cn_children c)) <$> dirties db !! k) →
  tdb Us rank D l' db'.
Proof.
  intros [H Hd Hk He] H' Ht Hdk Ecn Hn Hch Hoth. destruct (u_minimal _ HU t Ht) as [Hm _].
  split; [done| |by rewrite Hdk|].
  - intros h c' Hhz Ec. destruct (decide (h = tree_hash t)) as [->|Hne].
    { rewrite Ecn in Ec. injection Ec as <-. rewrite Hn. destruct (craw_node t Hm) as [-> _]. by exists t. }
    specialize (Hoth h Hne). rewrite Ec in Hoth. destruct (dirties db !! h) as [c|] eqn:Ec0; [|done].
    injection Hoth as Hc _. rewrite Hc. by apply Hd.
  - intros h c' x m Hhz Ec Hx. destruct (decide (h = tree_hash t)) as [->|Hne].
    { rewrite Ecn in Ec. injection Ec as <-. rewrite Hch in Hx. cbn in Hx. set_solver. }
    specialize (Hoth h Hne). rewrite Ec in Hoth. destruct (dirties db !! h) as [c|] eqn:Ec0; [|done].
    injection Hoth as _ Hc. rewrite Hc in Hx. by eapply He.
Qed.

Lemma tdb_insert D l db V t n :
  tdb Us rank D l db → view_of D db V → t ∈ Us →
  (∀ c, c ∈ kid_trees t → has V c) → simplifyNode n = Ret (craw t) →
  ∃ l' db', db_insert (tree_hash t) (tree_rlp t) n db = Ret db' ∧ tdb Us rank D l' db' ∧
    view_of D db' (add_view V t) ∧ diskdb db' = diskdb db ∧ preimages db' = preimages db ∧
    (∀ h, held D db h → held D db' h) ∧ is_Some (dirties db' !! tree_hash t).
Proof.
  intros HT HV Ht Hkids Hsimp. destruct (u_minimal _ HU t Ht) as [Hm Hf].
  destruct (u_special _ HU t Ht) as [Hz _]. destruct (craw_node t Hm) as [Hblob _]. unfold db_insert.
  case_bool_decide as Hin.
  - exists l, db. split_and!; try done. eapply add_view_of; try done. right. split; [done|].
    destruct Hin as [cn E]. exists cn. split; [done|]. pose proof (t_dirty _ _ _ _ _ HT _ cn Hz E) as Hd.
    destruct (is_blob (cn_node cn)); [by destruct (Hd t)|done].
  - rewrite Hsimp. cbn [mbind outcome_bind].
    destruct HT as [H Hd Hk He].
    assert (Hnone : dirties db !! tree_hash t = None) by (by apply eq_None_not_Some).
    assert (HT : tdb Us rank D l db) by done.
    destruct (insert_raw_ok D l db (tree_hash t) (tree_rlp t) (craw t) (tree_rlp t) H Hnone)
      as (db' & Ei & H' & Hdk & Hpre & (cn & Ecn & Hn & Hch) & Hoth).
    { apply keccak_length. }
    { by apply craw_rlp. }
    { by rewrite craw_obj, decode_rlp. }
    { intros c Hc. destruct (kids_of_craw t c Hc) as (x & s & Hx & Hs & Hb & ->).
      by apply (HV _ _ (Hkids x Hx s Hs Hb)). }
    { intros HD. destruct (Hk _ HD) as (s & Hs & Heq & ->). by apply (u_inj _ HU) in Heq as <-. }
    assert (Hheld : ∀ h, held D db h → held D db' h).
    { intros h [?|(? & c & Ec & Hb)]; [by left|right]. split; [done|].
      specialize (Hoth h ltac:(congruence)). rewrite Ec in Hoth.
      destruct (dirties db' !! h) as [c'|]; [|done]. injection Hoth as Hc _. exists c'. by rewrite Hc. }
    assert (HT' : tdb Us rank D (l ++ [tree_hash t]) db') by by eapply tdb_grow; eauto.
    exists (l ++ [tree_hash t]), db'. split_and!; try done.
    eapply add_view_of; [exact HT|exact HT'|done|done| |done]. right. split; [done|]. exists cn. by rewrite Hn.
Qed.
(** *** Collapsed nodes *)

Lemma simplify_ref t n :
  (minimal_tree t → erase n = craw t → simplifyNode n = Ret (craw t)) →
  minimal_child_tree t → tnil t = false → erase n = cref t → simplifyNode n = Ret (cref t).
Proof.
  intros IH Hm Hn. unfold cref. destruct (big t).
  - destruct n; try done. intros [= ->]. done.
  - destruct Hm as [|v Hv|t Hm]; [done| |by apply IH]. destruct n; try done. intros [= ->]. done.
Qed.

Lemma simplify_erase t n : minimal_tree t → erase n = craw t → simplifyNode n = Ret (craw t).
Proof.
  revert n. induction t as [|v|k t IH|cs IH] using tree_ind'; intros n Hm E; try by inversion Hm.
  - destruct n as [| |k' v fl| |]; try done. cbn in E. injection E as -> E.
    destruct (short_child_minimal k t Hm) as [Hc Hn]. cbn. fold (cref t) in *.
    by rewrite (simplify_ref t v (IH v) Hc Hn E).
  - destruct n as [|ns fl| | |]; try done. cbn in E. injection E as E. cbn [simplifyNode craw].
    assert (Hall : outcome_all ((λ c, if is_nil c then Ret RNil else simplifyNode c) <$> ns) =
                   Ret ((λ c, cref c) <$> cs)); [|by rewrite Hall].
    assert (Hmin := full_child_minimal cs). specialize (Hmin) with (1 := Hm). clear Hm.
    revert cs IH E Hmin. induction ns as [|n ns IHn]; intros [|c cs] IH E Hmin; try done.
    cbn in E. injection E as En E. apply Forall_cons in IH as [Hc IH]. cbn. fold (cref c) in En.
    rewrite <- is_nil_erase, En, raw_is_nil_cref.
    assert (Es : (if tnil c then Ret RNil else simplifyNode n) = Ret (cref c)).
    { destruct (tnil c) eqn:Et; [by destruct c|]. apply simplify_ref; [by apply Hc| |done|done]. apply Hmin. left. }
    rewrite Es. cbn. rewrite (IHn cs); [done|done|done|]. intros x Hx. apply Hmin. by right.
Qed.

Lemma node_rlp_tree t n :
  minimal_tree t → fine t → erase n = craw t → wf_flags n → node_rlp n = Ret (tree_rlp t).
Proof.
  intros Hm Hf E Hw. rewrite <- (craw_enc t Hm), <- E. apply node_rlp_ok; [|rewrite E; by apply craw_wf|done|].
  - rewrite <- is_nil_erase, E. by apply craw_node.
  - rewrite E, (craw_enc t Hm). by destruct (Hf t (sub_refl t)).
Qed.

Lemma has_kids V t : (∀ c, c ∈ kid_trees t → has V c) → (big t = true → stored V t) → has V t.
Proof.
  intros Hk Ht s Hs Hb. inversion Hs as [|s' k c Hs'|s' c cs Hc Hs']; subst; [by apply Ht| |].
  - apply (Hk c); [|done..]. cbn. set_solver.
  - by apply (Hk c).
Qed.

(** *** Storing *)

(** What a leaf callback may do: change references. *)
Definition leaf_ok (f : LeafCallback) : Prop :=
  ∀ g, f = Some g → ∀ v h D l db V,
    tdb Us rank D l db → view_of D db V → is_Some (dirties db !! h) →
    ∃ db', g v h db = Ret db' ∧ tdb Us rank D l db' ∧ view_of D db' V ∧ diskdb db' = diskdb db ∧
      preimages db' = preimages db ∧ (∀ k, held D db k → held D db' k) ∧ is_Some (dirties db' !! h).

Definition hst (D : bytes → Prop) (V : bytes → outcome (option node)) (odb : option Database) : Prop :=
  match odb with
  | None => True
  | Some db => ∃ l, tdb Us rank D l db ∧ view_of D db V
  end.

Definition grows (D : bytes → Prop) (odb odb' : option Database) : Prop :=
  match odb, odb' with
  | None, None => True
  | Some db, Some db' =>
      diskdb db' = diskdb db ∧ preimages db' = preimages db ∧ ∀ h, held D db h → held D db' h
  | _, _ => False
  end.

Lemma grows_refl D odb : grows D odb odb.
Proof. by destruct odb. Qed.

Lemma grows_trans D o1 o2 o3 : grows D o1 o2 → grows D o2 o3 → grows D o1 o3.
Proof.
  destruct o1, o2, o3; cbn; try done. intros (? & ? & H1) (? & ? & H2). split_and!; [congruence..|].
  intros h Hh. by apply H2, H1.
Qed.

Lemma grows_commit D o1 o2 : grows D o1 o2 → is_commit o2 = is_commit o1.
Proof. by destruct o1, o2. Qed.

(** The view grows in commit mode only. *)
Definition grown (odb : option Database) (V V' : bytes → outcome (option node)) : Prop :=
  if is_commit odb then le_view V V' else V' = V.

Lemma grown_refl odb V : grown odb V V.
Proof. unfold grown. by destruct (is_commit odb). Qed.

Lemma grown_le odb V V' : grown odb V V' → le_view V V'.
Proof. unfold grown. destruct (is_commit odb); [done|by intros ->]. Qed.

Lemma grown_trans D o1 o2 V1 V2 V3 : grows D o1 o2 → grown o1 V1 V2 → grown o2 V2 V3 → grown o1 V1 V3.
Proof.
  intros Hg. unfold grown. rewrite (grows_commit _ _ _ Hg). destruct (is_commit o1); [by intros ??; etrans|congruence].
Qed.

Create HintDb trie.
#[local] Hint Resolve grown_refl grows_refl grown_le : trie.

Lemma call_leaf_ok onleaf n h D l db V :
  leaf_ok onleaf → tdb Us rank D l db → view_of D db V → is_Some (dirties db !! h) →
  ∃ db', call_leaf onleaf n h db = Ret db' ∧ tdb Us rank D l db' ∧ view_of D db' V ∧
    grows D (Some db) (Some db') ∧ is_Some (dirties db' !! h).
Proof.
  intros Hf H HV Hin. unfold call_leaf. destruct onleaf as [g|]; [|by exists db].
  destruct n as [| | | |v]; try by exists db.
  destruct (Hf g eq_refl v h D l db V H HV Hin) as (db' & E & H' & HV' & ? & ? & ? & ?). by exists db'.
Qed.

Lemma run_onleaf_ok onleaf n h D l db V :
  leaf_ok onleaf → tdb Us rank D l db → view_of D db V → is_Some (dirties db !! h) →
  ∃ db', run_onleaf onleaf n h db = Ret db' ∧ tdb Us rank D l db' ∧ view_of D db' V ∧
    grows D (Some db) (Some db').
Proof.
  intros Hf H HV Hin. destruct n as [|cs fl|k v fl| |]; try by exists db.
  - cbn [run_onleaf]. generalize (take 16 cs). intros ks. revert db H HV Hin.
    induction ks as [|k ks IH]; intros db H HV Hin; [by exists db|].
    destruct (call_leaf_ok onleaf k h D l db V Hf H HV Hin) as (db1 & E1 & H1 & HV1 & Hg1 & Hin1).
    destruct (IH db1 H1 HV1 Hin1) as (db2 & E2 & H2 & HV2 & Hg2).
    exists db2. cbn [for_each]. rewrite E1. split; [exact E2|]. split; [done|]. split; [done|].
    by eapply grows_trans.
  - destruct (call_leaf_ok onleaf v h D l db V Hf H HV Hin) as (db1 & E1 & H1 & HV1 & Hg1 & Hin1).
    by exists db1.
Qed.
(** The collapsed node of [t] is replaced by its hash, or stays in its parent. *)
Lemma store_ok onleaf D V odb n t force fl d :
  leaf_ok onleaf → node_cache n = Ret (nf_hash fl, d) → (∀ h, nf_hash fl = Some h → h = tree_hash t) →
  minimal_tree t → fine t → erase n = craw t → wf_flags n → hst D V odb →
  (is_commit odb = true → (force || big t = true → t ∈ Us) ∧ ∀ c, c ∈ kid_trees t → has V c) →
  ∃ hn odb' V', h_store onleaf n odb force = Ret (hn, odb') ∧ grown odb V V' ∧ hst D V' odb' ∧
    grows D odb odb' ∧ hn = (if force || big t then hashNode (tree_hash t) else n) ∧
    (is_commit odb = true → force || big t = true → stored V' t).
Proof.
  intros Hleaf Hc Hfl Hm Hf E Hw Hst Hcov.
  assert (Hkind : is_nil n || is_hash n = false) by (destruct t; try (by inversion Hm); by destruct n).
  unfold h_store. rewrite Hkind, (node_rlp_tree t n Hm Hf E Hw), Hc. cbn [mbind outcome_bind fst].
  assert (Hbig : ((lenZ (tree_rlp t) <? 32) && negb force) = negb (force || big t)).
  { assert (Eb : big t = (32 <=? lenZ (tree_rlp t))) by (destruct t; try done; by inversion Hm).
    rewrite Eb. destruct force; cbn; lia. }
  rewrite Hbig. destruct (force || big t) eqn:Eb; cbn [negb].
  2:{ exists n, odb, V. split_and!; eauto with trie; done. }
  assert (Hh : default (keccak256 (tree_rlp t)) (nf_hash fl) = tree_hash t).
  { destruct (nf_hash fl) as [h|] eqn:Eh; [|done]. cbn. by apply Hfl. }
  rewrite Hh. destruct odb as [db|].
  2:{ exists (hashNode (tree_hash t)), None, V. by split_and!. }
  destruct Hcov as [Ht Hkids]; [done|]. specialize (Ht eq_refl). destruct Hst as (l & HT & HV).
  rewrite BytesToHash_id by apply keccak_length.
  destruct (tdb_insert D l db V t n HT HV Ht Hkids (simplify_erase t n Hm E))
    as (l' & db1 & -> & HT1 & HV1 & Hdk & Hpre & Hheld & Hin).
  cbn [mbind outcome_bind].
  destruct (run_onleaf_ok onleaf n (tree_hash t) D l' db1 (add_view V t) Hleaf HT1 HV1 Hin)
    as (db2 & -> & HT2 & HV2 & Hg2).
  cbn [mbind outcome_bind].
  exists (hashNode (tree_hash t)), (Some db2), (add_view V t). split; [done|].
  split; [exact (add_view_le D l db V t HT HV Ht)|]. split; [by exists l'|]. split; [by eapply (grows_trans _ _ (Some db1))|].
  split; [done|]. intros _ _. apply add_view_stored.
Qed.

(** What hashing a child gives. *)
Definition child_result (rec : node → option Database → HashRes) (c : node) (t : tree) : Prop :=
  ∀ D V odb, rep V false c t → hst D V odb → (is_commit odb = true → ∀ s, sub s t → big s = true → s ∈ Us) →
  ∃ hn c' odb' V', rec c odb = Ret (hn, c', odb') ∧ grown odb V V' ∧ hst D V' odb' ∧ grows D odb odb' ∧
    erase hn = cref t ∧ wf_flags hn ∧ rep V' false c' t ∧ (is_commit odb = true → has V' t).

Lemma slots_ok rec cs ts : ∀ i D V odb,
  Forall2 (rep V false) cs ts → hst D V odb →
  (∀ j c t, cs !! j = Some c → ts !! j = Some t → tnil t = false →
     (i + j < 16)%nat ∧ child_result rec c t ∨ (16 <= i + j)%nat ∧ ∃ v, t = TVal v) →
  (is_commit odb = true → ∀ t s, t ∈ ts → sub s t → big s = true → s ∈ Us) →
  ∃ hs cs' odb' V', hash_slots rec i cs odb = Ret (hs, cs', odb') ∧ grown odb V V' ∧ hst D V' odb' ∧
    grows D odb odb' ∧ Forall2 (λ h t, erase h = cref t ∧ wf_flags h) hs ts ∧
    Forall2 (rep V' false) cs' ts ∧ (is_commit odb = true → ∀ t, t ∈ ts → has V' t).
Proof.
  revert ts. induction cs as [|c cs IH]; intros ts i D V odb Hrep Hst Hrec Hcov.
  { inversion Hrep; subst. exists [], [], odb, V. split_and!; eauto with trie; set_solver. }
  inversion Hrep as [|? t ? ts' Hc Hcs]; subst. rename ts' into ts.
  assert (Hnext : ∀ V1 odb1 hn c', grown odb V V1 → hst D V1 odb1 → grows D odb odb1 →
    erase hn = cref t → wf_flags hn → rep V1 false c' t → (is_commit odb = true → has V1 t) →
    ∃ hs cs' odb' V', hash_slots rec (S i) cs odb1 = Ret (hs, cs', odb') ∧ grown odb V V' ∧ hst D V' odb' ∧
      grows D odb odb' ∧ Forall2 (λ h t, erase h = cref t ∧ wf_flags h) (hn :: hs) (t :: ts) ∧
      Forall2 (rep V' false) (c' :: cs') (t :: ts) ∧ (is_commit odb = true → ∀ x, x ∈ t :: ts → has V' x)).
  { intros V1 odb1 hn c' Hle Hst1 Hg Ehn Hw Hc' Hhas.
    destruct (IH ts (S i) D V1 odb1) as (hs & cs' & odb2 & V2 & E2 & Hle2 & Hst2 & Hg2 & Hhs & Hcs' & Hhas2).
    - eapply Forall2_impl; [exact Hcs|]. intros. eapply rep_mono; [by eapply grown_le|done].
    - done.
    - intros j c0 t0 Hj Htj Hn. destruct (Hrec (S j) c0 t0 Hj Htj Hn) as [[? ?]|[? ?]]; [left|right]; split; try done; lia.
    - rewrite (grows_commit _ _ _ Hg). intros Hco x s Hx. apply Hcov; [done|by right].
    - exists hs, cs', odb2, V2. assert (Hle2' := grown_le _ _ _ Hle2).
      split_and!; try done; [by eapply grown_trans|by eapply grows_trans|by constructor| |].
      + constructor; [by eapply rep_mono|done].
      + intros Hco x [->|Hx]%elem_of_cons; [by eapply has_mono; [|apply Hhas]|].
        apply Hhas2; [|done]. by rewrite (grows_commit _ _ _ Hg). }
  cbn [hash_slots]. rewrite (rep_is_nil V false c t Hc).
  destruct (tnil t) eqn:Et.
  { rewrite andb_false_r. destruct t; try done. inversion Hc; subst; [|by destruct H0 as [(? & ? & ?)|(? & ?)]].
    destruct (Hnext V odb nilNode nilNode) as (hs & cs' & odb' & V' & E & HR'); try done.
    { apply grown_refl. }
    { apply grows_refl. }
    { intros _ s Hs. by inversion Hs; subst. }
    fold (hash_slots rec). rewrite E. cbn. by exists (nilNode :: hs), (nilNode :: cs'), odb', V'. }
  destruct (Hrec 0%nat c t eq_refl eq_refl Et) as [[Hi Hres]|[Hi [v ->]]]; rewrite Nat.add_0_r in Hi.
  - rewrite (proj2 (Nat.ltb_lt i 16)) by done. cbn [negb andb].
    destruct (Hres D V odb Hc Hst) as (hn & c' & odb1 & V1 & E1 & Hle1 & Hst1 & Hg1 & Ehn & Hw & Hc' & Hhas).
    { intros Hco s. apply Hcov; [done|left]. }
    rewrite E1. cbn [mbind outcome_bind].
    destruct (Hnext V1 odb1 hn c') as (hs & cs' & odb' & V' & E & HR'); try done.
    fold (hash_slots rec). rewrite E. cbn. by exists (hn :: hs), (c' :: cs'), odb', V'.
  - rewrite (proj2 (Nat.ltb_ge i 16)) by done. cbn [andb].
    inversion Hc; subst; [|by destruct H0 as [(? & ? & ?)|(? & ?)]].
    destruct (Hnext V odb (valueNode v) (valueNode v)) as (hs & cs' & odb' & V' & E & HR'); try done.
    { apply grown_refl. }
    { apply grows_refl. }
    { intros _ s Hs. by inversion Hs; subst. }
    fold (hash_slots rec). rewrite E. cbn. by exists (valueNode v :: hs), (valueNode v :: cs'), odb', V'.
Qed.
Definition hashed_as (force : bool) (t : tree) (hn : node) : Prop :=
  if force || big t then hn = hashNode (tree_hash t) else erase hn = craw t ∧ wf_flags hn.

(** What hashing a node for [t] gives. *)
Definition hash_gives (force : bool) (D : bytes → Prop) (V : bytes → outcome (option node))
    (odb : option Database) (t : tree) (r : HashRes) : Prop :=
  ∃ hn n' odb' V', r = Ret (hn, n', odb') ∧ grown odb V V' ∧ hst D V' odb' ∧ grows D odb odb' ∧
    hashed_as force t hn ∧ rep V' force n' t ∧
    (is_commit odb = true → has V' t ∧ (force || big t = true → stored V' t)).

(** In commit mode the trees are of the universe. *)
Definition covered (force : bool) (odb : option Database) (t : tree) : Prop :=
  is_commit odb = true → (force || big t = true → t ∈ Us) ∧ ∀ s, sub s t → big s = true → s ∈ Us.

Definition node_flag (n : node) : nodeFlag :=
  match n with shortNode _ _ fl | fullNode _ fl => fl | _ => newFlag end.

Definition reflag (fl : nodeFlag) (n : node) : node :=
  match n with
  | shortNode k v _ => shortNode k v fl
  | fullNode cs _ => fullNode cs fl
  | _ => n
  end.

Definition is_inner (n : node) : bool := match n with shortNode _ _ _ | fullNode _ _ => true | _ => false end.

(** The end of [hash]: the collapsed node is stored, the flags of the cached node are
    set. *)
Lemma finish_ok onleaf D V0 V odb col cached t force :
  leaf_ok onleaf → is_inner col = true → is_inner cached = true → node_flag cached = node_flag col →
  flag_ok V0 force (node_flag col) t → le_view V0 V →
  minimal_tree t → fine t → erase col = craw t → wf_flags col → hst D V odb →
  (is_commit odb = true → (force || big t = true → t ∈ Us) ∧ ∀ c, c ∈ kid_trees t → has V c) →
  (∀ V' fl', le_view V V' → flag_ok V' force fl' t → rep V' force (reflag fl' cached) t) →
  hash_gives force D V odb t
    (s ← h_store onleaf col odb force;
     let '(hashed, db) := s in Ret (hashed, set_cache hashed (is_commit db) cached, db)).
Proof.
  intros Hleaf Hcol Hca Hflag Hfl Hle0 Hm Hf E Hw Hst Hcov Hrep.
  assert (Hc : node_cache col = Ret (nf_hash (node_flag col), nf_dirty (node_flag col))) by by destruct col.
  destruct (store_ok onleaf D V odb col t force _ _ Hleaf Hc (λ h Eh, proj1 (proj1 Hfl h Eh)) Hm Hf E Hw Hst Hcov)
    as (hn & odb' & V' & -> & Hle & Hst' & Hg & Ehn & Hstored).
  cbn [mbind outcome_bind]. assert (Hle' := grown_le _ _ _ Hle).
  assert (Hhas : is_commit odb = true → has V' t ∧ (force || big t = true → stored V' t)).
  { intros Hco. destruct (Hcov Hco) as [_ Hk]. split; [|by apply Hstored].
    apply has_kids; [intros c Hc'; by eapply has_mono; [|apply Hk]|].
    intros Hb. apply Hstored; [done|]. by rewrite Hb, orb_true_r. }
  assert (Hset : set_cache hn (is_commit odb') cached =
    reflag (mkFlag (if force || big t then Some (tree_hash t) else None)
              (if is_commit odb then false else nf_dirty (node_flag col))) cached).
  { rewrite (grows_commit _ _ _ Hg), <- Hflag, Ehn.
    destruct (force || big t); [by destruct cached|]. by destruct cached, col. }
  exists hn, (set_cache hn (is_commit odb') cached), odb', V'. split_and!; try done.
  - unfold hashed_as. rewrite Ehn. by destruct (force || big t).
  - rewrite Hset. apply Hrep; [done|]. split; cbn.
    + intros h. destruct (force || big t) eqn:Eb; [|done]. by intros [= <-].
    + destruct (is_commit odb) eqn:Eco; [intros _; by apply Hhas|]. intros Hd.
      destruct (proj2 Hfl Hd) as [H1 H2]. split; [eapply has_mono; [|exact H1]; by etrans|].
      intros Hb. apply Hle', Hle0. by apply H2.
Qed.
Definition hash_result (onleaf : LeafCallback) (t : tree) : Prop :=
  ∀ n force D V odb,
  rep V force n t → minimal_tree t → fine t → hst D V odb → covered force odb t →
  hash_gives force D V odb t (h_hash onleaf n odb force).

Lemma hash_child onleaf c t :
  hash_result onleaf t → minimal_tree t → fine t → child_result (λ c db, h_hash onleaf c db false) c t.
Proof.
  intros H Hm Hf D V odb Hrep Hst Hcov.
  destruct (H c false D V odb Hrep Hm Hf Hst) as (hn & n' & odb' & V' & E & Hle & Hst' & Hg & Hh & Hr & Hhas).
  { intros Hco. split; [|by apply Hcov]. intros Hb. apply Hcov; [done|constructor|done]. }
  exists hn, n', odb', V'. unfold hashed_as in Hh. cbn [orb] in Hh. split_and!; try done.
  - unfold cref. destruct (big t); [by subst hn|by destruct Hh].
  - destruct (big t); [by subst hn|by destruct Hh].
  - intros Hco. by apply Hhas.
Qed.

(** What [hashChildren] gives: the collapsed node, and the node with its children hashed. *)
Definition children_give (force : bool) (D : bytes → Prop) (V : bytes → outcome (option node))
    (odb : option Database) (n : node) (t : tree) (r : HashRes) : Prop :=
  ∃ col cached odb' V', r = Ret (col, cached, odb') ∧ grown odb V V' ∧ hst D V' odb' ∧ grows D odb odb' ∧
    is_inner col = true ∧ is_inner cached = true ∧ node_flag col = node_flag n ∧ node_flag cached = node_flag n ∧
    erase col = craw t ∧ wf_flags col ∧ (is_commit odb = true → ∀ c, c ∈ kid_trees t → has V' c) ∧
    (∀ W fl', le_view V' W → flag_ok W force fl' t → rep W force (reflag fl' cached) t).

Lemma children_short onleaf k t v fl force D V odb :
  hash_result onleaf t → rep V force (shortNode k v fl) (TShort k t) →
  minimal_tree (TShort k t) → fine (TShort k t) → hst D V odb →
  (is_commit odb = true → ∀ s, sub s (TShort k t) → big s = true → s ∈ Us) →
  children_give force D V odb (shortNode k v fl) (TShort k t) (hashChildren onleaf (shortNode k v fl) odb).
Proof.
  intros IH Hrep Hm Hf Hst Hcov.
  inversion Hrep as [| |? ? ? ? ? Hv Hfl| |]; subst.
  destruct (short_child_minimal k t Hm) as [Hmc Hn]. destruct (compact_ok k (short_key_ok k t Hm)) as (Ek & _ & _).
  assert (Hbytes : Forall is_byte (default [] (nf_hash fl))).
  { destruct (nf_hash fl) as [h|] eqn:Eh; [|constructor]. destruct (proj1 Hfl h Eh) as [-> _]. apply tree_hash_bytes. }
  assert (Hchild : ∃ hv v' odb1 V1,
    hashChildren onleaf (shortNode k v fl) odb = Ret (shortNode (compact k) hv fl, shortNode k v' fl, odb1) ∧
    grown odb V V1 ∧ hst D V1 odb1 ∧ grows D odb odb1 ∧ erase hv = cref t ∧ wf_flags hv ∧ rep V1 false v' t ∧
    (is_commit odb = true → has V1 t)).
  { unfold hashChildren. cbn [hashChildren_with]. rewrite Ek. cbn [mbind outcome_bind].
    destruct (child_minimal_tree t Hmc Hn) as [[w ->]|Hmt].
    - inversion Hv as [| | | |? ? ? Hs]; subst; [|by destruct Hs as [(? & ? & ?)|(? & ?)]]. cbn [is_value].
      exists (valueNode w), (valueNode w), odb, V. split_and!; eauto with trie; try done.
      intros _ s Hs. by inversion Hs; subst.
    - assert (is_value v = false) as -> by (inversion Hv; subst; try done; by inversion Hmt).
      destruct (hash_child onleaf v t IH Hmt (fine_short k t Hf) D V odb Hv Hst)
        as (hv & v' & odb1 & V1 & -> & HR1).
      { intros Hco s Hs. apply Hcov; [done|by constructor]. }
      cbn. by exists hv, v', odb1, V1. }
  destruct Hchild as (hv & v' & odb1 & V1 & E1 & Hle1 & Hst1 & Hg1 & Ehv & Hwv & Hv' & Hhas1).
  exists (shortNode (compact k) hv fl), (shortNode k v' fl), odb1, V1. split_and!; try done.
  - cbn. by rewrite Ehv.
  - intros Hco c Hc. apply list_elem_of_singleton in Hc as ->. by apply Hhas1.
  - intros W fl' Hle Hfl'. constructor; [by eapply rep_mono|done].
Qed.

Lemma wf_flags_full hs ts fl : Forall2 (λ h t, erase h = cref t ∧ wf_flags h) hs ts →
  wf_flags (fullNode hs fl) ∧ erase <$> hs = cref <$> ts.
Proof.
  induction 1 as [|h t hs ts [Eh Hw] _ [IH1 IH2]]; [done|]. cbn. split; [done|]. f_equal; [done|exact IH2].
Qed.

Lemma children_full onleaf ts cs fl force D V odb :
  Forall (hash_result onleaf) ts → rep V force (fullNode cs fl) (TFull ts) →
  minimal_tree (TFull ts) → fine (TFull ts) → hst D V odb →
  (is_commit odb = true → ∀ s, sub s (TFull ts) → big s = true → s ∈ Us) →
  children_give force D V odb (fullNode cs fl) (TFull ts) (hashChildren onleaf (fullNode cs fl) odb).
Proof.
  intros IH Hrep Hm Hf Hst Hcov. rewrite Forall_forall in IH.
  inversion Hrep as [| | |? ? ? ? Hcs Hfl|]; subst.
  destruct (slots_ok (λ c db, h_hash onleaf c db false) cs ts 0 D V odb Hcs Hst)
    as (hs & cs' & odb1 & V1 & E1 & Hle1 & Hst1 & Hg1 & Hhs & Hcs' & Hhas1).
  { intros j c t Hj Htj Hn. destruct (minimal_child ts j t Hm Htj) as [[? Hmt]|[-> (v & -> & _)]];
      [by intros ->| |right; split; [lia|by exists v]].
    assert (t ∈ ts) by by eapply list_elem_of_lookup_2. left. split; [done|].
    apply hash_child; [by apply IH|done|by eapply fine_full]. }
  { intros Hco t s Ht Hs. apply Hcov; [done|by eapply sub_full]. }
  destruct (wf_flags_full hs ts fl Hhs) as [Hwf Her].
  exists (fullNode hs fl), (fullNode cs' fl), odb1, V1. split_and!; try done.
  - unfold hashChildren. cbn [hashChildren_with]. by rewrite E1.
  - cbn. by f_equal.
  - intros W fl' Hle Hfl'. constructor; [|done]. eapply Forall2_impl; [exact Hcs'|]. intros. by eapply rep_mono.
Qed.

(** Hashing the children, then storing. *)
Lemma walk_ok onleaf n t force D V odb :
  leaf_ok onleaf → flag_ok V force (node_flag n) t → minimal_tree t → fine t → covered force odb t →
  children_give force D V odb n t (hashChildren onleaf n odb) →
  hash_gives force D V odb t (hash_walk onleaf (λ c db, h_hash onleaf c db false) n odb force).
Proof.
  intros Hleaf Hfl Hm Hf Hcov
    (col & cached & odb1 & V1 & E1 & Hle1 & Hst1 & Hg1 & Hi & Hi' & Hn & Hn' & Ecol & Hwf & Hhas1 & Hrep).
  unfold hash_walk. change (hashChildren_with _ n odb) with (hashChildren onleaf n odb). rewrite E1.
  cbn [mbind outcome_bind].
  destruct (finish_ok onleaf D V V1 odb1 col cached t force)
    as (hn & n' & odb' & V' & -> & Hle & Hst' & Hg & Hh & Hr & Hhas); try done.
  - congruence.
  - by rewrite Hn.
  - by eapply grown_le.
  - rewrite (grows_commit _ _ _ Hg1). intros Hco. split; [by apply Hcov|]. by apply Hhas1.
  - exists hn, n', odb', V'. split_and!; try done; [by eapply grown_trans|by eapply grows_trans|].
    by rewrite <- (grows_commit _ _ _ Hg1).
Qed.

(** The cache: a known hash is returned at once unless the node has to be stored. *)
Lemma cache_ok onleaf n t fl force D V odb :
  node_cache n = Ret (nf_hash fl, nf_dirty fl) → is_inner n = true → flag_ok V force fl t →
  rep V force n t → minimal_tree t → hst D V odb →
  hash_gives force D V odb t (hash_walk onleaf (λ c db, h_hash onleaf c db false) n odb force) →
  hash_gives force D V odb t (h_hash onleaf n odb force).
Proof.
  intros Hc Hi [Hfl1 Hfl2] Hrep Hm Hst Hw.
  assert (E : h_hash onleaf n odb force =
    match nf_hash fl with
    | Some h => if is_commit odb then
                  if nf_dirty fl then hash_walk onleaf (λ c db, h_hash onleaf c db false) n odb force
                  else Ret (hashNode h, hashNode h, odb)
                else Ret (hashNode h, n, odb)
    | None => hash_walk onleaf (λ c db, h_hash onleaf c db false) n odb force
    end).
  { destruct n; try done; cbn in Hc; injection Hc as H1 H2; cbn [h_hash node_cache]; by rewrite H1, H2. }
  rewrite E. destruct (nf_hash fl) as [h|] eqn:Eh; [|done]. destruct (Hfl1 h eq_refl) as [-> Hb].
  destruct (is_commit odb) eqn:Eco.
  - destruct (nf_dirty fl) eqn:Ed; [done|]. destruct (Hfl2 eq_refl) as [Hhas Hs].
    exists (hashNode (tree_hash t)), (hashNode (tree_hash t)), odb, V. split_and!; try done.
    + apply grown_refl.
    + apply grows_refl.
    + unfold hashed_as. by rewrite Hb.
    + constructor; [done| |done|by apply Hs]. destruct t; try (by inversion Hm); [left|right]; by repeat eexists.
  - exists (hashNode (tree_hash t)), n, odb, V. split_and!; try done.
    + apply grown_refl.
    + apply grows_refl.
    + unfold hashed_as. by rewrite Hb.
    + by rewrite Eco.
Qed.

Lemma hash_ok onleaf t : leaf_ok onleaf → hash_result onleaf t.
Proof.
  intros Hleaf. induction t as [|v|k t IH|ts IH] using tree_ind'; intros n force D V odb Hrep Hm Hf Hst Hcov;
    try by inversion Hm.
  all: assert (Hhash : ∀ t, (force || big t) = true → has V t → stored V t → rep V force (hashNode (tree_hash t)) t →
         hash_gives force D V odb t (h_hash onleaf (hashNode (tree_hash t)) odb force)).
  1,3: intros t' Hb Hhas Hs Hr; exists (hashNode (tree_hash t')), (hashNode (tree_hash t')), odb, V;
       split_and!; eauto with trie; try done; unfold hashed_as; by rewrite Hb.
  - inversion Hrep as [| |? ? ? ? fl Hv Hfl| |? ? Hb Hs Hhas Hst']; subst; [|by apply Hhash].
    eapply cache_ok; [done|done|exact Hfl|done..|]. apply walk_ok; try done.
    apply children_short; try done. intros Hco. by apply Hcov.
  - inversion Hrep as [| | |? ns ? fl Hcs Hfl|? ? Hb Hs Hhas Hst']; subst; [|by apply Hhash].
    eapply cache_ok; [done|done|exact Hfl|done..|]. apply walk_ok; try done.
    apply children_full; try done. intros Hco. by apply Hcov.
Qed.
End tree_db.

(** ** The root hash binds the tree *)

Section binding.
  Context {KL : KeccakLib} {KLaws : KeccakLaws}.

(** No two different encodings of these trees have the same hash. *)
Definition collision_free (P : tree → Prop) : Prop :=
  ∀ s s', P s → P s' → keccak256 (tree_rlp s) = keccak256 (tree_rlp s') → tree_rlp s = tree_rlp s'.

Context (P : tree → Prop) (HP : collision_free P).

Definition within (t : tree) : Prop :=
  minimal_child_tree t ∧ fine t ∧ ∀ s, sub s t → big s = true → P s.

Lemma within_kid t c : minimal_tree t → within t → c ∈ kid_trees t → within c.
Proof.
  intros Hm (_ & Hf & Hs) Hc. split_and!.
  - destruct t; try (by inversion Hm); cbn in Hc; [|by eapply full_child_minimal].
    apply list_elem_of_singleton in Hc as ->. by eapply short_child_minimal.
  - intros s Hsub. apply Hf. eapply sub_trans; [exact Hsub|by apply sub_kid].
  - intros s Hsub. apply Hs. eapply sub_trans; [exact Hsub|by apply sub_kid].
Qed.

Lemma big_minimal t : big t = true → minimal_child_tree t → minimal_tree t.
Proof. intros Hb. by inversion 1; subst. Qed.

Lemma rlp_load t t' h : minimal_tree t → minimal_tree t' → fine t → fine t' → tree_rlp t = tree_rlp t' →
  load h t = load h t'.
Proof.
  intros Hm Hm' Hf Hf' E. assert (E1 := decode_rlp t h Hm Hf). rewrite E, (decode_rlp t' h Hm' Hf') in E1.
  by injection E1 as <-.
Qed.

Lemma ref_inj c c' :
  (∀ h, within c' → load h c = load h c' → c = c') → within c → within c' →
  (if big c then hashNode (tree_hash c) else load None c) =
  (if big c' then hashNode (tree_hash c') else load None c') → c = c'.
Proof.
  intros IH Hc Hc' E. destruct (big c) eqn:Eb, (big c') eqn:Eb'.
  - injection E as E. apply (IH None); [done|].
    destruct Hc as (Hm & Hf & Hs), Hc' as (Hm' & Hf' & Hs').
    apply rlp_load; [by apply big_minimal..|done|done|]. apply HP; [|by apply Hs'; [constructor|]|done].
    by apply Hs; [constructor|].
  - by destruct c'.
  - by destruct c.
  - by apply (IH None).
Qed.

Lemma load_inj t t' h : within t → within t' → load h t = load h t' → t = t'.
Proof.
  revert t' h. induction t as [|v|k t IH|cs IH] using tree_ind'; intros t' h Ht Ht' E;
    destruct t' as [|v'|k' t'|cs']; try done; cbn in E.
  - by injection E as ->.
  - injection E as -> E. f_equal.
    assert (Hm : minimal_tree (TShort k' t)) by by destruct Ht as [Hm _]; inversion Hm.
    assert (Hm' : minimal_tree (TShort k' t')) by by destruct Ht' as [Hm' _]; inversion Hm'.
    assert (Hw : within t) by by apply (within_kid (TShort k' t)); [..|left].
    assert (Hw' : within t') by by apply (within_kid (TShort k' t')); [..|left].
    apply ref_inj; [|done..]. intros h' _. by apply IH.
  - injection E as E. f_equal.
    assert (Hm : minimal_tree (TFull cs)) by by destruct Ht as [Hm _]; inversion Hm.
    assert (Hm' : minimal_tree (TFull cs')) by by destruct Ht' as [Hm' _]; inversion Hm'.
    assert (Hk := λ c, within_kid (TFull cs) c Hm Ht). assert (Hk' := λ c, within_kid (TFull cs') c Hm' Ht').
    cbn [kid_trees] in Hk, Hk'.
    clear Ht Ht' Hm Hm'. revert cs' E Hk'.
    induction cs as [|c cs IHc]; intros [|c' cs'] E Hk'; try done. cbn in E. injection E as Ec E.
    apply Forall_cons in IH as [Hc IH]. f_equal.
    + apply ref_inj; [|by apply Hk; left|by apply Hk'; left|done]. intros h' Hw. apply Hc; [|done]. apply Hk. left.
    + apply IHc; [done| |done|]; intros x Hx; [apply Hk|apply Hk']; by right.
Qed.

(** The hash determines the tree. *)
Lemma tree_hash_inj t t' :
  minimal_tree t → minimal_tree t' → fine t → fine t' → P t → P t' →
  (∀ s, sub s t → big s = true → P s) → (∀ s, sub s t' → big s = true → P s) →
  tree_hash t = tree_hash t' → t = t'.
Proof.
  intros Hm Hm' Hf Hf' Ht Ht' Hs Hs' E. apply (load_inj t t' None).
  - split_and!; [by constructor|done|done].
  - split_and!; [by constructor|done|done].
  - apply rlp_load; [done..|]. by apply HP.
Qed.
End binding.

(** ** Ranks from heights *)

Fixpoint height (t : tree) : nat :=
  match t with
  | TNil | TVal _ => 0
  | TShort _ c => S (height c)
  | TFull cs => S (foldr (λ c, Nat.max (height c)) 0%nat cs)
  end.

Lemma height_kid c t : c ∈ kid_trees t → (height c < height t)%nat.
Proof.
  destruct t as [|v|k t|cs]; cbn; [set_solver..| |].
  - intros ->%list_elem_of_singleton. lia.
  - induction cs as [|d cs IH]; [set_solver|]. cbn. intros [->|Hc]%elem_of_cons; [lia|]. specialize (IH Hc). lia.
Qed.

Lemma height_sub s t : sub s t → (height s <= height t)%nat.
Proof.
  induction 1 as [t|s k t _ IH|s c cs Hc _ IH]; [done|cbn; lia|].
  pose proof (height_kid c (TFull cs) Hc). lia.
Qed.

Section results.
  Context {KL : KeccakLib} {KLaws : KeccakLaws}.

Definition rank_of (Us : list tree) (h : bytes) : nat :=
  foldr (λ s acc, if bool_decide (tree_hash s = h) then Nat.max (height s) acc else acc) 0%nat Us.

Lemma rank_of_member Us s : universe Us → s ∈ Us → rank_of Us (tree_hash s) = height s.
Proof.
  intros HU Hs. assert (H : ∀ l, (∀ x, x ∈ l → x ∈ Us) →
    (rank_of l (tree_hash s) <= height s)%nat ∧ (s ∈ l → rank_of l (tree_hash s) = height s)); [|by apply H].
  induction l as [|x l IH]; intros Hl; cbn; [split; [lia|set_solver]|].
  destruct IH as [IH1 IH2]; [intros; apply Hl; by right|]. unfold rank_of in IH1, IH2.
  case_bool_decide as Hx.
  - apply (u_inj _ HU) in Hx as ->; [|apply Hl; left|done]. split; [|intros _]; lia.
  - split; [done|]. intros [->|?]%elem_of_cons; [done|by apply IH2].
Qed.

Lemma rank_of_ranks Us : universe Us → ranks Us (rank_of Us).
Proof.
  intros HU s s' c Hs Hc Hsub Hb.
  assert (Hs' : s' ∈ Us).
  { eapply (u_closed _ HU); [exact Hs| |done]. eapply sub_trans; [exact Hsub|by apply sub_kid]. }
  rewrite !rank_of_member by done. pose proof (height_sub _ _ Hsub). pose proof (height_kid _ _ Hc). lia.
Qed.

(** Trees whose encodings do not collide form a universe. *)
Lemma universe_intro Us :
  (∀ s, s ∈ Us → minimal_tree s ∧ fine s) → (∀ s s', s ∈ Us → sub s' s → big s' = true → s' ∈ Us) →
  collision_free (λ s, s ∈ Us) → (∀ s, s ∈ Us → tree_hash s ≠ zeroHash ∧ tree_hash s ≠ emptyRoot) →
  universe Us.
Proof.
  intros Hm Hc Hf Hs. split; [done|done| |done]. intros s s' H H'.
  destruct (Hm s H), (Hm s' H'). apply (tree_hash_inj (λ s, s ∈ Us)); try done; eauto.
Qed.

(** ** [Hash], [Commit] and [New] *)

Definition tree_root (t : tree) : bytes := match t with TNil => emptyRoot | _ => tree_hash t end.

Lemma tree_root_minimal t : minimal_tree t → tree_root t = tree_hash t.
Proof. by destruct t; inversion 1. Qed.

Lemma leaf_ok_None Us rank : leaf_ok Us rank None.
Proof. by intros g [=]. Qed.

Lemma empty_universe : universe [] ∧ ranks [] (λ _, 0%nat).
Proof. split; [split; set_solver|]. intros s s' c Hs. set_solver. Qed.

Lemma rep_not_nil V b n t : rep V b n t → minimal_tree t → is_nil n = false.
Proof. intros H Hm. rewrite (rep_is_nil V b n t H). destruct t; [inversion Hm|done..]. Qed.

Lemma Hash_spec V root t :
  rep V true root t → root_tree t → fine t →
  ∃ root', Hash root = Ret (tree_root t, root') ∧ rep V true root' t.
Proof.
  intros Hr [->|Hm] Hf; unfold Hash, hashRoot.
  { inversion Hr as [| | | |? ? ? Hs]; subst; [|by destruct Hs as [(? & ? & ?)|(? & ?)]].
    exists nilNode. split; [|done]. cbn. by rewrite BytesToHash_id. }
  rewrite (rep_not_nil V true root t Hr Hm). destruct empty_universe as [HU HR].
  destruct (hash_ok [] HU _ HR None t (leaf_ok_None _ _) root true (λ _, False) V None Hr Hm Hf)
    as (hn & n' & odb' & V' & -> & HV & _ & _ & Hh & Hr' & _); [done|done|].
  cbn in Hh, HV. subst hn V'. cbn [mbind outcome_bind as_hash].
  rewrite BytesToHash_id by apply keccak_length. rewrite (tree_root_minimal t Hm). by exists n'.
Qed.

Lemma New_spec t db :
  minimal_tree t → tree_hash t ≠ zeroHash → tree_hash t ≠ emptyRoot →
  has (db_node db) t → stored (db_node db) t →
  ∃ n, New (tree_hash t) db = inl n ∧ rep (db_node db) true n t.
Proof.
  intros Hm Hz He Hhas Hs. unfold New. rewrite !bool_decide_eq_false_2 by done. cbn [orb].
  assert (Hr : rep (db_node db) true (hashNode (tree_hash t)) t).
  { constructor; [done| |done|done]. destruct t; try (by inversion Hm); [left|right]; by repeat eexists. }
  destruct (resolve_rep (db_node db) true (tree_hash t) t [] Hr) as (-> & Hl & _).
  eexists. by split.
Qed.

Lemma kid_child_minimal c t : minimal_child_tree t → c ∈ kid_trees t → minimal_child_tree c.
Proof.
  intros Hm Hc. destruct t as [|v|k t|cs]; cbn in Hc; [set_solver..| |].
  - apply list_elem_of_singleton in Hc as ->. inversion Hm; subst. by eapply short_child_minimal.
  - inversion Hm; subst. by eapply full_child_minimal.
Qed.

Lemma sub_kids s t : sub s t → s = t ∨ ∃ x, x ∈ kid_trees t ∧ sub s x.
Proof.
  inversion 1 as [|? ? c|? c ? Hc]; subst; [by left|right; exists c; split; [left|done]|right; by exists c].
Qed.

Lemma sub_child_minimal s t : sub s t → minimal_child_tree t → minimal_child_tree s.
Proof.
  induction 1 as [t|s k t _ IH|s c cs Hc _ IH]; intros Hm; [done| |]; apply IH; eapply kid_child_minimal;
    [exact Hm|left|exact Hm|done].
Qed.

(** Every subtrie that is not embedded is reached through the hashes in the nodes: below a
    child [x], directly or through the nodes embedded in it. *)
Definition reaches (n : node) (x s : tree) : Prop :=
  ∃ y, tree_hash y ∈ node_kids n ∧ sub y x ∧ big y = true ∧ sub s y.

Lemma ref_reach x s :
  (∀ h y, minimal_tree x → y ∈ kid_trees x → sub s y → reaches (load h x) y s) →
  minimal_child_tree x → sub s x → big s = true →
  reaches (if big x then hashNode (tree_hash x) else load None x) x s.
Proof.
  intros IH Hm Hs Hb. destruct (big x) eqn:Eb.
  { exists x. split_and!; [cbn; rewrite BytesToHash_id by apply keccak_length; left|constructor|done|done]. }
  destruct (sub_kids s x Hs) as [->|(y & Hy & Hsy)]; [congruence|].
  assert (Hmin : minimal_tree x) by (inversion Hm; subst; [by apply not_elem_of_nil in Hy..|done]).
  destruct (IH None y Hmin Hy Hsy) as (z & ? & ? & ? & ?). exists z. split_and!; try done.
  eapply sub_trans; [eassumption|by apply sub_kid].
Qed.

Lemma kids_reach t : ∀ h x s,
  minimal_tree t → x ∈ kid_trees t → sub s x → big s = true → reaches (load h t) x s.
Proof.
  induction t as [|v|k t IH|cs IH] using tree_ind'; intros h x s Hm Hx Hs Hb; try by inversion Hm.
  - apply list_elem_of_singleton in Hx as ->. destruct (short_child_minimal k t Hm) as [Hc _].
    apply (ref_reach t s); try done. intros h' y Hmt Hy Hsy. by apply IH.
  - rewrite Forall_forall in IH. cbn in Hx.
    destruct (ref_reach x s) as (y & Hy & ? & ? & ?); try done.
    { intros h' y Hmt Hy Hsy. by apply IH. }
    { by eapply full_child_minimal. }
    exists y. split_and!; try done. cbn. apply list_elem_of_join. eexists. split; [exact Hy|].
    apply list_elem_of_lookup in Hx as [i Hi]. apply elem_of_take. exists i.
    rewrite !list_lookup_fmap, Hi. split; [done|].
    destruct (minimal_child cs i x Hm Hi) as [[? _]|[_ (v & -> & _)]]; [|done|by inversion Hs; subst].
    intros ->. by inversion Hs; subst.
Qed.

Lemma below_sub db root n : ∀ t,
  (height t <= n)%nat → minimal_tree t → below db root (tree_hash t) → stored (db_node db) t → has (db_node db) t →
  ∀ s, sub s t → big s = true → below db root (tree_hash s).
Proof.
  induction n as [|n IH]; intros t Hn Hm Hbel Hst Hhas s Hs Hb.
  { destruct t; [by inversion Hm..|cbn in Hn; lia|cbn in Hn; lia]. }
  destruct (sub_kids s t Hs) as [->|(x & Hx & Hsx)]; [done|].
  destruct (kids_reach t (Some (tree_hash t)) x s Hm Hx Hsx Hb) as (y & Hy & Hyx & Hby & Hsy).
  assert (Hyt : sub y t) by (eapply sub_trans; [exact Hyx|by apply sub_kid]).
  apply (IH y); try done.
  - pose proof (height_sub _ _ Hyx). pose proof (height_kid _ _ Hx). lia.
  - apply big_minimal; [done|]. eapply sub_child_minimal; [exact Hyt|by constructor].
  - by eapply below_kid.
  - by apply Hhas.
  - intros z Hz. apply Hhas. by eapply sub_trans.
Qed.

Context (Us : list tree) (HU : universe Us).

(** Committing a trie to the memory database. *)
Lemma trie_Commit_spec onleaf rank D l db V root t :
  ranks Us rank → leaf_ok Us rank onleaf →
  tdb Us rank D l db → view_of D db V → rep V true root t → t ∈ Us →
  ∃ root' l' db' V', trie_Commit onleaf root db = Ret (tree_hash t, root', db') ∧
    tdb Us rank D l' db' ∧ view_of D db' V' ∧ le_view V V' ∧ rep V' true root' t ∧ has V' t ∧ stored V' t ∧
    grows D (Some db) (Some db').
Proof.
  intros HR Hleaf HT HV Hr Ht. destruct (u_minimal _ HU t Ht) as [Hm Hf].
  unfold trie_Commit, hashRoot. rewrite (rep_not_nil V true root t Hr Hm).
  destruct (hash_ok Us HU rank HR onleaf t Hleaf root true D V (Some db) Hr Hm Hf)
    as (hn & n' & odb' & V' & -> & Hle & Hst & Hg & Hh & Hr' & Hhas).
  { by exists l. }
  { intros _. split; [done|]. intros s. by apply (u_closed _ HU). }
  cbn in Hh. subst hn. cbn [mbind outcome_bind as_hash]. rewrite BytesToHash_id by apply keccak_length.
  destruct odb' as [db'|]; [|done]. destruct Hst as (l' & HT' & HV'). destruct (Hhas eq_refl) as [H1 H2].
  exists n', l', db', V'. split_and!; try done. by apply H2.
Qed.
End results.

(** ** Properties *)

(** Maps of byte strings. *)
Definition agree (m m' : gmap bytes bytes) : Prop := ∀ k, Forall is_byte k → m !! k = m' !! k.

Lemma holds_agree t m m' : holds t m → agree m m' → holds t m'.
Proof. intros (Hr & Hb & Hg) Ha. split_and!; try done. intros k Hk. by rewrite Hg, Ha. Qed.

Lemma holds_det t m m' : holds t m → holds t m' → agree m m'.
Proof. intros (_ & _ & H) (_ & _ & H') k Hk. by rewrite <- H, <- H'. Qed.

Section properties.
  Context {KL : KeccakLib} {KLaws : KeccakLaws}.

Lemma tree_root_inj t1 t2 :
  root_tree t1 → root_tree t2 → fine t1 → fine t2 → collision_free (λ s, sub s t1 ∨ sub s t2) →
  (∀ s, s = t1 ∨ s = t2 → minimal_tree s → tree_hash s ≠ emptyRoot) →
  tree_root t1 = tree_root t2 → t1 = t2.
Proof.
  intros [->|H1] [->|H2] Hf1 Hf2 Hc He E; [done| | |].
  - rewrite (tree_root_minimal t2 H2) in E. destruct (He t2); [by right|done|]. by symmetry.
  - rewrite (tree_root_minimal t1 H1) in E. destruct (He t1); [by left|done|done].
  - rewrite (tree_root_minimal t1 H1), (tree_root_minimal t2 H2) in E.
    apply (tree_hash_inj _ Hc); try done; [left; constructor|right; constructor|by left|by right].
Qed.

(** C13. The root hash is a fingerprint of the map. Hash returns on every trie in
    memory, loaded in part from a database or not, with hashes cached or not, and leaves
    a trie for the same map. Tries for the same map have the same root hash, whatever
    operations built them; and if Keccak does not collide on the nodes of the two tries,
    the same root hash means the same map. *)
Theorem root_hash_binds V1 V2 r1 r2 t1 t2 m1 m2 :
  rep V1 true r1 t1 → holds t1 m1 → fine t1 → rep V2 true r2 t2 → holds t2 m2 → fine t2 →
  ∃ h1 h2 r1' r2', Hash r1 = Ret (h1, r1') ∧ Hash r2 = Ret (h2, r2') ∧
    represents V1 r1' m1 ∧ represents V2 r2' m2 ∧
    (agree m1 m2 → h1 = h2) ∧
    (collision_free (λ s, sub s t1 ∨ sub s t2) →
     (∀ s, s = t1 ∨ s = t2 → minimal_tree s → tree_hash s ≠ emptyRoot) → h1 = h2 → agree m1 m2).
Proof.
  intros R1 M1 F1 R2 M2 F2.
  destruct (Hash_spec V1 r1 t1 R1 (proj1 M1) F1) as (r1' & E1 & R1').
  destruct (Hash_spec V2 r2 t2 R2 (proj1 M2) F2) as (r2' & E2 & R2').
  exists (tree_root t1), (tree_root t2), r1', r2'. split_and!; [done|done|by exists t1|by exists t2| |].
  - intros Ha. f_equal. apply (holds_unique t1 t2 m2); [|done]. by eapply holds_agree.
  - intros Hc He E. apply tree_root_inj in E as ->; [by eapply holds_det|apply M1|apply M2|done..].
Qed.

(** C15. A trie that is committed can be opened again. Let a trie be not empty, and let
    Keccak neither collide on the nodes of the tries in the database nor give the zero
    hash or that of the empty trie for one of them. Commit of the trie without a leaf
    callback returns its root hash and leaves in the memory database everything that New
    needs to open the same map; and after Commit of the database for that root, a
    database that starts from the disk alone opens the same map too. *)
Theorem trie_commit_roundtrip Us D l db V root t m fuel :
  (∀ s, s ∈ Us → minimal_tree s ∧ fine s) → (∀ s s', s ∈ Us → sub s' s → big s' = true → s' ∈ Us) →
  collision_free (λ s, s ∈ Us) → (∀ s, s ∈ Us → tree_hash s ≠ zeroHash ∧ tree_hash s ≠ emptyRoot) →
  tdb Us (rank_of Us) D l db → view_of D db V →
  rep V true root t → t ∈ Us → holds t m → (height t + 2 <= fuel)%nat →
  ∃ h root' db' n db'' n',
    trie_Commit None root db = Ret (h, root', db') ∧ represents (db_node db') root' m ∧
    New h db' = inl n ∧ represents (db_node db') n m ∧
    Commit fuel h db' = Ret db'' ∧
    New h (NewDatabase (diskdb db'')) = inl n' ∧ represents (db_node (NewDatabase (diskdb db''))) n' m.
Proof.
  intros Um Uc Uf Us0 HT HV Hr Ht Hh Hfuel. assert (HU := universe_intro Us Um Uc Uf Us0).
  assert (HR := rank_of_ranks Us HU). destruct (Um t Ht) as [Hm Hf]. destruct (Us0 t Ht) as [Hz He].
  destruct (trie_Commit_spec Us HU None (rank_of Us) D l db V root t HR (leaf_ok_None _ _) HT HV Hr Ht)
    as (root' & l' & db' & V' & E1 & HT' & HV' & _ & Hr' & Hhas & Hst & _).
  assert (Hle : le_view V' (db_node db')) by (intros h n Hn; by apply HV').
  destruct (New_spec t db' Hm Hz He) as (n & E2 & Hn); [by eapply has_mono|by apply Hle|].
  destruct (Commit_persists_spec D l' db' (rank_of Us) fuel (tree_hash t))
    as (D'' & l'' & db'' & E3 & _ & _ & _ & _ & _ & Hb).
  { apply HT'. }
  { by eapply tdb_ranked. }
  { by apply (HV' _ _ Hst). }
  { by rewrite rank_of_member. }
  assert (Hbel : ∀ s, sub s t → big s = true → below db' (tree_hash t) (tree_hash s)).
  { apply (below_sub db' _ (height t)); [done|done|constructor|by apply Hle|by eapply has_mono]. }
  destruct (New_spec t (NewDatabase (diskdb db'')) Hm Hz He) as (n' & E4 & Hn').
  { intros s Hs Hbig. unfold stored. destruct (Hb (tree_hash s) (Hbel s Hs Hbig)) as [_ ->].
    by apply Hle, Hhas. }
  { unfold stored. destruct (Hb (tree_hash t) (below_root _ _)) as [_ ->]. by apply Hle. }
  exists (tree_hash t), root', db', n, db'', n'. split_and!; try done; [|by exists t..].
  exists t. split; [|done]. by eapply rep_mono.
Qed.
End properties.

(** ** A sample trie *)

Fixpoint subs (t : tree) : list tree :=
  t :: match t with
       | TNil | TVal _ => []
       | TShort _ c => subs c
       | TFull cs => mjoin ((λ c, subs c) <$> cs)
       end.

Lemma sub_subs s t : sub s t → s ∈ subs t.
Proof.
  induction 1 as [t|s k t _ IH|s c cs Hc _ IH]; [destruct t; left|cbn; by right|].
  cbn. right. apply list_elem_of_join. exists (subs c). split; [done|]. apply list_elem_of_fmap. by exists c.
Qed.

(** The tree of a node without hash nodes. *)
Fixpoint tree_of (n : node) : option tree :=
  match n with
  | nilNode => Some TNil
  | valueNode v => Some (TVal v)
  | hashNode _ => None
  | shortNode k v _ => t ← tree_of v; Some (TShort k t)
  | fullNode cs _ => ts ← mapM (λ c, tree_of c) cs; Some (TFull ts)
  end.

Lemma rep_tree_of `{KeccakLib} V t : ∀ b n t', rep V b n t → tree_of n = Some t' → t' = t.
Proof.
  induction t as [|v|k t IH|cs IH] using tree_ind'; intros b n t' Hr E; inversion Hr; subst; cbn in E;
    try (discriminate E); try (by injection E as <-).
  - destruct (tree_of n0) as [c|] eqn:Ec; [|done]. cbn in E. injection E as <-. f_equal. by eapply IH.
  - destruct (mapM _ ns) as [ts|] eqn:Em; [|done]. cbn in E. injection E as <-. f_equal.
    apply mapM_Some_1 in Em.
    match goal with H : Forall2 (rep V false) _ _ |- _ => rename H into Hf end. revert ts Em. clear -IH Hf.
    induction Hf as [|n c ns cs Hn _ IHf]; intros ts Em; inversion Em; subst; [done|].
    apply Forall_cons in IH as [Hc IH]. f_equal; [by eapply Hc|by apply IHf].
Qed.

Definition nodb (_ : bytes) : outcome (option node) := Ret None.
Definition demo_v1 : bytes := replicate 40 7.
Definition demo_v2 : bytes := replicate 40 9.

Definition demo_root : node :=
  match (r ← TryUpdate nodb nilNode [17] demo_v1; TryUpdate nodb r [33] demo_v2) with
  | inl n => n
  | inr _ => nilNode
  end.

Definition demo_map : gmap bytes bytes := <[[33] := demo_v2]> (<[[17] := demo_v1]> ∅).

Definition demo_tree : tree := default TNil (tree_of demo_root).

(** The checks of a finite set of trees, as a program. *)
Definition fine_b (t : tree) : bool :=
  forallb (λ s, (lenZ (@tree_rlp toy_keccak s) <? 2 ^ 64) &&
                match s with TVal v => forallb (λ b, (0 <=? b) && (b <? 256)) v | _ => true end) (subs t).

Lemma fine_b_ok t : fine_b t = true → @fine toy_keccak t.
Proof.
  unfold fine_b. rewrite forallb_forall. intros H s Hs. apply sub_subs, list_elem_of_In in Hs. specialize (H s Hs).
  apply andb_true_iff in H as [H1 H2]. split; [lia|]. intros v ->. rewrite forallb_forall in H2.
  apply Forall_forall. intros b Hb%list_elem_of_In. specialize (H2 b Hb). unfold is_byte. lia.
Qed.

Lemma demo_holds : holds demo_tree demo_map ∧ @rep toy_keccak nodb true demo_root demo_tree.
Proof.
  destruct (@TryUpdate_spec toy_keccak _ nodb nilNode ∅ [17] demo_v1) as (r1 & E1 & H1);
    [apply represents_empty|by repeat constructor|].
  destruct (@TryUpdate_spec toy_keccak _ nodb r1 _ [33] demo_v2 H1) as (r2 & E2 & H2);
    [by repeat constructor|].
  assert (Er : demo_root = r2).
  { unfold demo_root. rewrite E1. cbn [mbind TR_bind]. by rewrite E2. }
  rewrite <- Er in H2. destruct H2 as (t & Ht & Hh).
  assert (Et : tree_of demo_root = Some demo_tree) by by vm_compute.
  apply (rep_tree_of nodb t true demo_root demo_tree Ht) in Et as <-. split; [exact Hh|exact Ht].
Qed.

Definition demo_trees : list tree := demo_tree :: List.filter (@big toy_keccak) (subs demo_tree).

Definition free_b (l : list tree) : bool :=
  forallb (λ s, forallb (λ s',
    bool_decide (@tree_rlp toy_keccak s = @tree_rlp toy_keccak s') ||
    negb (bool_decide (@tree_hash toy_keccak s = @tree_hash toy_keccak s'))) l) l.

Lemma free_b_ok (P : tree → Prop) l :
  free_b l = true → (∀ s, P s → s ∈ l) → @collision_free toy_keccak P.
Proof.
  unfold free_b. rewrite forallb_forall. intros H Hl s s' Hs Hs' E.
  specialize (H s (proj1 (list_elem_of_In _ _) (Hl s Hs))). rewrite forallb_forall in H.
  specialize (H s' (proj1 (list_elem_of_In _ _) (Hl s' Hs'))).
  apply orb_true_iff in H as [H|H]; [by apply bool_decide_eq_true in H|].
  apply negb_true_iff, bool_decide_eq_false in H. done.
Qed.

Lemma demo_trees_sub s : s ∈ demo_trees → s = demo_tree ∨ s ∈ subs demo_tree ∧ @big toy_keccak s = true.
Proof.
  unfold demo_trees. intros [->|H]%elem_of_cons; [by left|right].
  apply list_elem_of_In, filter_In in H as [H ?]. by apply list_elem_of_In in H.
Qed.

Lemma subs_sub s t : s ∈ subs t → sub s t.
Proof.
  revert s. induction t as [|v|k t IH|cs IH] using tree_ind'; intros s; cbn.
  1,2: intros ->%list_elem_of_singleton; constructor.
  - intros [->|H]%elem_of_cons; [constructor|by apply sub_short, IH].
  - intros [->|H]%elem_of_cons; [constructor|]. apply list_elem_of_join in H as (l & Hs & Hl).
    apply list_elem_of_fmap in Hl as (c & -> & Hc). rewrite Forall_forall in IH.
    eapply sub_full; [exact Hc|by apply IH].
Qed.

Lemma demo_minimal : minimal_tree demo_tree.
Proof. destruct demo_holds as [([E|H] & _) _]; [by vm_compute in E|done]. Qed.

Lemma demo_fine : @fine toy_keccak demo_tree.
Proof. apply fine_b_ok. by vm_compute. Qed.

Lemma demo_trees_ok :
  (∀ s, s ∈ demo_trees → minimal_tree s ∧ @fine toy_keccak s) ∧
  (∀ s s', s ∈ demo_trees → sub s' s → @big toy_keccak s' = true → s' ∈ demo_trees) ∧
  @collision_free toy_keccak (λ s, s ∈ demo_trees) ∧
  (∀ s, s ∈ demo_trees → @tree_hash toy_keccak s ≠ zeroHash ∧ @tree_hash toy_keccak s ≠ emptyRoot).
Proof.
  assert (Hsub : ∀ s, s ∈ demo_trees → sub s demo_tree).
  { intros s [->|[H _]]%demo_trees_sub; [constructor|by apply subs_sub]. }
  split_and!.
  - intros s Hs. split.
    + destruct (demo_trees_sub s Hs) as [->|[_ Hb]]; [apply demo_minimal|].
      apply (@big_minimal toy_keccak); [done|]. eapply (@sub_child_minimal toy_keccak _); [by apply Hsub|].
      constructor. apply demo_minimal.
    + intros s' Hs'. apply demo_fine. eapply sub_trans; [exact Hs'|by apply Hsub].
  - intros s s' Hs Hs' Hb. unfold demo_trees. right. apply list_elem_of_In, filter_In. split; [|done].
    apply list_elem_of_In, sub_subs. eapply sub_trans; [exact Hs'|by apply Hsub].
  - apply (free_b_ok _ demo_trees); [by vm_compute|done].
  - intros s Hs. apply list_elem_of_In in Hs.
    assert (Hall : forallb (λ s, negb (bool_decide (@tree_hash toy_keccak s = zeroHash)) &&
                    negb (bool_decide (@tree_hash toy_keccak s = emptyRoot))) demo_trees = true) by by vm_compute.
    rewrite forallb_forall in Hall. specialize (Hall s Hs). apply andb_true_iff in Hall as [H1 H2].
    by rewrite negb_true_iff, bool_decide_eq_false in H1, H2.
Qed.

Lemma root_hash_binds_witness :
  ∃ h r, @Hash toy_keccak demo_root = Ret (h, r) ∧ @represents toy_keccak nodb r demo_map ∧
    ∀ m, (∃ t, holds t m ∧ @fine toy_keccak t ∧ @rep toy_keccak nodb true demo_root t) → agree m demo_map.
Proof.
  destruct demo_holds as [Hh Hr].
  destruct (@root_hash_binds toy_keccak _ nodb nodb demo_root demo_root demo_tree demo_tree demo_map demo_map
              Hr Hh demo_fine Hr Hh demo_fine) as (h1 & h2 & r1 & r2 & E1 & _ & R1 & _).
  exists h1, r1. split_and!; [done|done|]. intros m (t & Hm & Hf & Hrt).
  destruct (@root_hash_binds toy_keccak _ nodb nodb demo_root demo_root t demo_tree m demo_map
              Hrt Hm Hf Hr Hh demo_fine) as (h3 & h4 & r3 & r4 & E3 & E4 & _ & _ & _ & Hb).
  rewrite E3 in E4. injection E4 as -> ->.
  assert (Et : tree_of demo_root = Some demo_tree) by by vm_compute.
  apply (rep_tree_of nodb t true demo_root demo_tree Hrt) in Et as <-.
  apply Hb; [apply (free_b_ok _ (subs demo_tree)); [by vm_compute|]| |done].
  - intros s [Hs|Hs]; by apply sub_subs.
  - intros s Hs _. assert (s = demo_tree) as -> by tauto. by vm_compute.
Defined.

Lemma trie_commit_roundtrip_witness :
  ∃ h root' db' n db'' n',
    @trie_Commit toy_keccak None demo_root (NewDatabase ∅) = Ret (h, root', db') ∧
    @represents toy_keccak (db_node db') root' demo_map ∧
    New h db' = inl n ∧ @represents toy_keccak (db_node db') n demo_map ∧
    Commit 10 h db' = Ret db'' ∧
    New h (NewDatabase (diskdb db'')) = inl n' ∧
    @represents toy_keccak (db_node (NewDatabase (diskdb db''))) n' demo_map.
Proof.
  destruct demo_holds as [Hh Hr]. destruct demo_trees_ok as (H1 & H2 & H3 & H4).
  apply (@trie_commit_roundtrip toy_keccak _ demo_trees (λ _, False) [] (NewDatabase ∅) nodb demo_root demo_tree
           demo_map 10 H1 H2 H3 H4); [|by intros h n [=]|done|left|done|by vm_compute; lia].
  split.
  - apply (NewDatabase_ok _ (NewDatabase ∅)); tauto.
  - intros h cn Hz E. cbn in E. by rewrite lookup_singleton_ne in E.
  - done.
  - intros h cn c n Hz E. cbn in E. by rewrite lookup_singleton_ne in E.
Defined.
