(* ===== verification/TrieProof.v ===== *)
(** * Merkle proofs (trie/proof.go)

    [Prove] collects the nodes on the path to a key; [VerifyProof] checks such a collection
    against a root hash.  The theorem says that verification never accepts a wrong answer,
    and that it accepts what [Prove] makes. *)

From Stdlib Require Import ZArith Lia ZifyBool.
From stdpp Require Import base tactics strings numbers gmap list.
From S2P Require Import Prelude Rlp RlpDecode RlpCanon TrieKeys Trie TrieNodes TrieDb TrieHash.

Local Open Scope Z_scope.

Section proofs.
  Context {KL : KeccakLib}.

(** ** [Prove] *)

(** The short and full nodes on the path, from the root. *)
Fixpoint prove_path (db : bytes → outcome (option node)) (fuel : nat) (tn : node) (key : bytes) : TR (list node) :=
  if (length key =? 0)%nat || is_nil tn then mret []
  else match fuel with
       | O => fail TrieFuel
       | S fuel =>
           match tn with
           | shortNode k v _ =>
               rest ← (if (length key <? length k)%nat || negb (bytes_Equal k (take (length k) key)) then mret []
                       else prove_path db fuel v (drop (length k) key));
               mret (tn :: rest)
           | fullNode cs _ =>
               match key with
               | [] => mret []
               | x :: key => c ← child cs x; rest ← prove_path db fuel c key; mret (tn :: rest)
               end
           | hashNode h => n ← resolveHash db h []; prove_path db fuel n key
           | valueNode _ => fail (TriePanic "invalid node")
           | nilNode => mret []
           end
       end.

Definition of_outcome {A} (o : outcome A) : TR A :=
  match o with Ret a => inl a | Panic w => inr (TriePanic w) end.

(** A node becomes a proof element if its parent refers to it by hash, or if it is the
    root; the first [fromLevel] elements are left out. *)
Fixpoint put_proof (nodes : list node) (first : bool) (fromLevel : nat) (proofDb : store) : TR store :=
  match nodes with
  | [] => mret proofDb
  | n :: nodes =>
      r ← of_outcome (hashChildren None n None);
      let '(n, _, _) := r in
      s ← of_outcome (h_store None n None false);
      if is_hash s.1 || first then
        match fromLevel with
        | S fromLevel => put_proof nodes false fromLevel proofDb
        | O =>
            enc ← of_outcome (node_rlp n);
            let hash := match s.1 with hashNode h => h | _ => keccak256 enc end in
            put_proof nodes false 0 (<[hash := enc]> proofDb)
        end
      else put_proof nodes false fromLevel proofDb
  end.

Definition Prove (db : bytes → outcome (option node)) (root : node) (key : bytes) (fromLevel : nat) (proofDb : store)
    : TR store :=
  let key := keybytesToHex key in
  nodes ← prove_path db (fuel_for key) root key;
  put_proof nodes true fromLevel proofDb.

(** ** [VerifyProof] *)

Fixpoint get (tn : node) (key : bytes) : outcome (bytes * node) :=
  match tn with
  | shortNode k v _ =>
      if (length key <? length k)%nat || negb (bytes_Equal k (take (length k) key)) then Ret ([], nilNode)
      else get v (drop (length k) key)
  | fullNode cs _ =>
      match key with
      | [] => Panic "index out of range"
      | x :: key =>
          match ((λ c, get c) <$> cs) !! Z.to_nat x with
          | Some f => if 0 <=? x then f key else Panic "index out of range"
          | None => Panic "index out of range"
          end
      end
  | hashNode _ => Ret (key, tn)
  | nilNode => Ret (key, nilNode)
  | valueNode _ => Ret ([], tn)
  end.

Inductive proofResult :=
| ProofValue (value : option bytes) (nodes : nat)
| ProofMissing (i : nat) (hash : bytes)
| ProofBad (i : nat).

(** [copy(dst, src)]. *)
Definition copy_bytes (dst src : bytes) : bytes := take (length dst) src ++ drop (length src) dst.

Fixpoint VerifyProof_loop (fuel : nat) (i : nat) (wantHash key : bytes) (proofDb : store) : outcome proofResult :=
  match fuel with
  | O => Panic "out of fuel"
  | S fuel =>
      match proofDb !! wantHash with
      | None => Ret (ProofMissing i wantHash)
      | Some buf =>
          match decodeNode (Some wantHash) buf with
          | inr _ => Ret (ProofBad i)
          | inl n =>
              r ← get n key;
              let '(keyrest, cld) := r in
              match cld with
              | nilNode => Ret (ProofValue None i)
              | hashNode h => VerifyProof_loop fuel (S i) (copy_bytes wantHash h) keyrest proofDb
              | valueNode v => Ret (ProofValue (Some v) (S i))
              | _ => VerifyProof_loop fuel (S i) wantHash key proofDb
              end
          end
      end
  end.

(** The code loops until it has an answer; for a trie that exists, every hash on the path
    takes a nibble at least, so that a fuel over the length of the key is enough. *)
Definition VerifyProof (fuel : nat) (rootHash key : bytes) (proofDb : store) : outcome proofResult :=
  VerifyProof_loop fuel 0 rootHash (keybytesToHex key) proofDb.
End proofs.

(** ** Correctness *)

(** The subtries on the path to a key. *)
Fixpoint tpath (t : tree) (k : bytes) : list tree :=
  match t with
  | TNil | TVal _ => []
  | TShort p c => t :: match strip p k with Some k => tpath c k | None => [] end
  | TFull cs =>
      t :: match k with
           | [] => []
           | x :: k => match ((λ c, tpath c) <$> cs) !! Z.to_nat x with Some f => f k | None => [] end
           end
  end.

Section correctness.
  Context {KL : KeccakLib} {KLaws : KeccakLaws}.

(** What [get] may return below [s]: the next subtrie, with the rest of the key; a value;
    or nothing. *)
Definition get_ok (strict : bool) (s : tree) (k : bytes) (r : outcome (bytes * node)) : Prop :=
  match r with
  | Ret (k', hashNode h) =>
      ∃ s', h = tree_hash s' ∧ sub s' s ∧ big s' = true ∧ ok_at s' k' ∧ tget s k = tget s' k' ∧
        (length k' + (if strict then 1 else 0) <= length k)%nat ∧ ∃ p, tpath s k = p ++ tpath s' k'
  | Ret (_, nilNode) => tget s k = None
  | Ret (_, valueNode v) => tget s k = Some v
  | _ => False
  end.

Lemma strip_match p k :
  (length k <? length p)%nat || negb (bytes_Equal p (take (length p) k)) =
  match strip p k with Some _ => false | None => true end.
Proof. pose proof (short_match p k 0) as E. rewrite drop_0, Nat.sub_0_r in E. exact E. Qed.

(** A result below a child is a result below the node. *)
Lemma get_ok_step b s k c k' r :
  get_ok b c k' r → sub c s → tget s k = tget c k' → (length k' < length k)%nat →
  (∃ p, tpath s k = p ++ tpath c k') → get_ok true s k r.
Proof.
  intros Hr Hsub Hget Hlen [p Hp]. destruct r as [[k'' n]|]; [|done]. destruct n; cbn in *; try congruence.
  destruct Hr as (s' & -> & Hs' & Hb & Hok & E & Hl & q & Hq). exists s'. split_and!; try done.
  - by eapply sub_trans.
  - congruence.
  - destruct b; lia.
  - exists (p ++ q). by rewrite Hp, Hq, app_assoc.
Qed.

Lemma get_ref s k :
  (∀ h, minimal_tree s → get_ok true s k (get (load h s) k)) → ok_at s k → minimal_child_tree s →
  get_ok false s k (get (if big s then hashNode (tree_hash s) else load None s) k).
Proof.
  intros IH Hok Hm. destruct (big s) eqn:Eb.
  - cbn. exists s. split_and!; try done; [constructor|lia|by exists []].
  - destruct Hm as [|v Hv|s Hm]; cbn [load get]; [done|by apply ok_at_val in Hok as ->|].
    specialize (IH None Hm). destruct (get (load None s) k) as [[k' n]|]; [|done].
    destruct n; try done. cbn in *. destruct IH as (s' & ? & ? & ? & ? & ? & ? & ?). exists s'. split_and!; try done. lia.
Qed.

Lemma get_load s : ∀ h k, minimal_tree s → ok_at s k → get_ok true s k (get (load h s) k).
Proof.
  induction s as [|v|p s IH|cs IH] using tree_ind'; intros h k Hm Hok; try by inversion Hm.
  - cbn [load get]. rewrite strip_match. destruct (strip p k) as [k'|] eqn:E.
    2:{ cbn. by rewrite E. }
    apply strip_Some in E as ->. destruct (ok_at_short _ _ _ _ Hok eq_refl) as [Hok' Hp].
    rewrite drop_app_length. destruct (short_child_minimal p s Hm) as [Hmc _].
    eapply (get_ok_step false _ _ s k'); [apply get_ref; [intros; by apply IH|done|done]|by repeat constructor| | |].
    + cbn. by rewrite strip_app.
    + rewrite length_app. destruct p; [done|cbn; lia].
    + exists [TShort p s]. cbn. by rewrite strip_app.
  - destruct k as [|x k]; [by apply ok_at_full_nil in Hok|].
    destruct (ok_at_full _ _ _ Hok) as (c & Hx & Hc & Hok'). cbn [load get].
    rewrite !list_lookup_fmap, Hc. cbn. rewrite (proj2 (Z.leb_le 0 x)) by lia.
    assert (Hcin : c ∈ cs) by by eapply list_elem_of_lookup_2.
    rewrite Forall_forall in IH.
    eapply (get_ok_step false _ _ c k); [apply get_ref; [intros; by apply IH|done|by eapply full_child_minimal]| | | |].
    + eapply sub_full; [exact Hcin|constructor].
    + cbn. by rewrite list_lookup_fmap, Hc.
    + cbn. lia.
    + exists [TFull cs]. cbn. by rewrite list_lookup_fmap, Hc.
Qed.

Lemma copy_hash h h' : length h = 32%nat → length h' = 32%nat → copy_bytes h h' = h'.
Proof.
  intros E E'. unfold copy_bytes. rewrite E, E', take_ge by lia.
  rewrite <- E, drop_all. apply app_nil_r.
Qed.

(** Verification of a path in a tree that the proof database does not contradict. *)
Lemma verify_tree fuel : ∀ i s k pdb,
  minimal_tree s → fine s → ok_at s k → (length k < fuel)%nat →
  (∀ s' buf, sub s' s → pdb !! tree_hash s' = Some buf → buf = tree_rlp s') →
  ∃ r, VerifyProof_loop fuel i (tree_hash s) k pdb = Ret r ∧
    match r with
    | ProofValue v _ => v = tget s k
    | ProofMissing _ h => pdb !! h = None ∧
        ∃ s', s' ∈ tpath s k ∧ (s' = s ∨ big s' = true) ∧ h = tree_hash s'
    | ProofBad _ => False
    end.
Proof.
  induction fuel as [|fuel IH]; intros i s k pdb Hm Hf Hok Hfuel Hpdb; [lia|].
  cbn [VerifyProof_loop]. destruct (pdb !! tree_hash s) as [buf|] eqn:Eb.
  2:{ eexists. split; [done|]. split; [done|]. exists s. split_and!; [|by left|done].
      destruct s; try (by inversion Hm); left. }
  rewrite (Hpdb s buf (sub_refl s) Eb).
  assert (Hdec := decode_rlp s (Some (tree_hash s)) Hm Hf). unfold mustDecodeNode in Hdec.
  destruct (decodeNode _ _) as [n|]; [|done]. injection Hdec as ->.
  pose proof (get_load s (Some (tree_hash s)) k Hm Hok) as Hget.
  destruct (get _ k) as [[k' n]|]; [|done]. cbn [mbind outcome_bind]. destruct n; try done.
  - exists (ProofValue None i). by split.
  - destruct Hget as (s' & -> & Hs & Hbig & Hok' & E & Hl & p & Hp).
    rewrite copy_hash by apply keccak_length.
    destruct (IH (S i) s' k' pdb) as (r & -> & Hr).
    + apply big_minimal; [done|]. eapply sub_child_minimal; [exact Hs|by constructor].
    + intros x Hx. apply Hf. by eapply sub_trans.
    + done.
    + lia.
    + intros x buf' Hx. apply Hpdb. by eapply sub_trans.
    + exists r. split; [done|]. destruct r as [v m|m h|m]; [congruence| |done].
      destruct Hr as (? & s'' & Hin & Hor & ->). split; [done|]. exists s''. split_and!; [|right|done].
      * rewrite Hp. apply elem_of_app. by right.
      * destruct Hor as [->|?]; done.
  - eexists. by split.
Qed.
(** *** What [Prove] puts in the proof *)

Definition path_node (V : bytes → outcome (option node)) (n : node) (t : tree) : Prop :=
  is_inner n = true ∧ ∃ b, rep V b n t.

Lemma prove_path_rep V fuel : ∀ b n t key,
  rep V b n t → ok_at t key → (need n key <= fuel)%nat →
  ∃ ns, prove_path V fuel n key = inl ns ∧ Forall2 (path_node V) ns (tpath t key).
Proof.
  induction fuel as [|fuel IH]; intros b n t key Hr Hok Hf; [pose proof (need_pos n key); lia|].
  assert (Hempty : key = [] ∨ is_nil n = true →
    ∃ ns, prove_path V (S fuel) n key = inl ns ∧ Forall2 (path_node V) ns (tpath t key)).
  { intros Hz. exists []. split.
    - cbn [prove_path]. destruct Hz as [->| ->]; [done|]. by rewrite orb_true_r.
    - assert (tpath t key = []) as ->; [|done]. destruct Hz as [->|Hn].
      + destruct Hok as [[Hk _]|[_ [->|(v & -> & _)]]]; [by apply hexkey_nonempty in Hk|done|done].
      + rewrite (rep_is_nil V b n t Hr) in Hn. by destruct t. }
  destruct (decide (key = [])) as [?|Hkey]; [by apply Hempty; left|].
  destruct (is_nil n) eqn:En; [apply Hempty; by right|]. clear Hempty.
  assert (Hlen : (length key =? 0)%nat = false) by (destruct key; done).
  cbn [prove_path]. rewrite Hlen, En. cbn [orb].
  inversion Hr as [?|? v|? k m s fl Hm Hfl|? ns ts fl Hns Hfl|? s Hb Hs Hh Hst]; subst; [done| | | |].
  - by apply ok_at_val in Hok as ->.
  - rewrite strip_match. cbn [tpath]. destruct (strip k key) as [key'|] eqn:E.
    + apply strip_Some in E as E'. destruct (ok_at_short _ _ _ _ Hok E') as [Hok' Hk].
      pose proof (short_need k m fl _ _ E' Hk). rewrite E', drop_app_length.
      destruct (IH false m s key' Hm Hok') as (ns & -> & Hns); [lia|].
      exists (shortNode k m fl :: ns). split; [done|]. constructor; [|done]. split; [done|by exists b].
    + exists [shortNode k m fl]. split; [done|]. constructor; [|done]. split; [done|by exists b].
  - destruct key as [|x key]; [done|].
    destruct (ok_at_full _ _ _ Hok) as (c & Hx & Hc & Hok').
    destruct (child_ok V ns ts x c Hns) as (m & -> & Hm & Hmi); [lia|done|]. cbn [mbind TR_bind].
    pose proof (full_need ns fl m x key).
    destruct (IH false m c key Hm Hok') as (ms & E & Hms); [lia|].
    exists (fullNode ns fl :: ms). cbn [tpath]. rewrite list_lookup_fmap, Hc. cbn [fmap option_fmap option_map].
    split; [cbn; by rewrite E|]. constructor; [|done]. split; [done|by exists b].
  - destruct (resolve_rep V b _ _ [] Hr) as (-> & Hr' & Hnh). cbn [mbind TR_bind].
    rewrite (need_hash _ (load (Some (tree_hash t)) t)) in Hf by done.
    apply (IH b _ t key Hr' Hok). lia.
Qed.

(** The collapsed form of a node on the path. *)
Lemma collapse_ok V n t :
  path_node V n t → minimal_tree t → fine t →
  ∃ col c, hashChildren None n None = Ret (col, c, None) ∧ node_rlp col = Ret (tree_rlp t) ∧ is_hash col = false ∧
    h_store None col None false = Ret (if big t then hashNode (tree_hash t) else col, None).
Proof.
  intros [Hi [b Hr]] Hm Hf. destruct empty_universe as [HU HR].
  assert (Hch : children_give [] (λ _, 0%nat) b (λ _, False) V None n t (hashChildren None n None)).
  { assert (Hall : ∀ t, hash_result [] (λ _, 0%nat) None t) by (intros; by apply hash_ok).
    inversion Hr; subst; try done.
    - by apply children_short.
    - apply children_full; try done. by apply Forall_forall. }
  destruct Hch as (col & c & odb & V' & -> & _ & _ & Hg & Hic & _ & Hn & _ & Ecol & Hwf & _ & _).
  destruct odb as [db|]; [done|]. exists col, c.
  assert (Hfl : ∀ h, nf_hash (node_flag n) = Some h → h = tree_hash t).
  { inversion Hr as [| |? ? ? ? ? ? [Hfl _]|? ? ? ? ? [Hfl _]|]; subst; try done; intros h Hh; by apply Hfl. }
  split; [done|]. split; [by apply node_rlp_tree|]. split; [by destruct col|].
  assert (Hc : node_cache col = Ret (nf_hash (node_flag col), nf_dirty (node_flag col))) by by destruct col.
  rewrite Hn in Hc.
  destruct (store_ok [] HU (λ _, 0%nat) None (λ _, False) V None col t false (node_flag n) _
              (leaf_ok_None _ _) Hc Hfl Hm Hf Ecol Hwf) as (hn & odb' & W & E & _ & _ & Hg' & -> & _); [done|done|].
  destruct odb'; done.
Qed.
Lemma put_proof_ok V ns ss : ∀ first pdb,
  Forall2 (path_node V) ns ss → (∀ s, s ∈ ss → minimal_tree s ∧ fine s) →
  ∃ pdb', put_proof ns first 0 pdb = inl pdb' ∧
    (∀ h, is_Some (pdb !! h) → is_Some (pdb' !! h)) ∧
    (∀ h buf, pdb' !! h = Some buf → pdb !! h = Some buf ∨ ∃ s, s ∈ ss ∧ h = tree_hash s ∧ buf = tree_rlp s) ∧
    (∀ s, s ∈ ss → big s = true ∨ first = true ∧ head ss = Some s → is_Some (pdb' !! tree_hash s)).
Proof.
  revert ss. induction ns as [|n ns IH]; intros ss first pdb Hf2 Hss; inversion Hf2 as [|? s ? ss' Hn Hns]; subst.
  { exists pdb. split_and!; try done; [by left|set_solver]. }
  destruct (Hss s) as [Hm Hf]; [left|].
  destruct (collapse_ok V n s Hn Hm Hf) as (col & c & E1 & Erlp & Hnh & E2).
  cbn [put_proof]. rewrite E1. cbn [of_outcome mbind TR_bind]. rewrite E2. cbn [of_outcome mbind TR_bind fst].
  assert (Hput : is_hash (if big s then hashNode (tree_hash s) else col) || first = big s || first)
    by (destruct (big s); [done|by rewrite Hnh]).
  rewrite Hput. destruct (big s || first) eqn:Eb.
  - rewrite Erlp. cbn [of_outcome mbind TR_bind].
    assert (Hh : match (if big s then hashNode (tree_hash s) else col) with
                 | hashNode h => h | _ => keccak256 (tree_rlp s) end = tree_hash s).
    { destruct (big s); [done|]. by destruct col. }
    rewrite Hh. destruct (IH ss' false (<[tree_hash s := tree_rlp s]> pdb) Hns) as (pdb' & -> & H1 & H2 & H3).
    { intros x Hx. apply Hss. by right. }
    exists pdb'. split; [done|]. split_and!.
    + intros h Hin. apply H1. destruct (decide (h = tree_hash s)) as [->|?];
        [rewrite lookup_insert_eq; by eexists|by rewrite lookup_insert_ne].
    + intros h buf Hb. destruct (H2 h buf Hb) as [Hi|(x & ? & ? & ?)]; [|right; exists x; by split; [right|]].
      apply lookup_insert_Some in Hi as [[<- <-]|[_ ?]]; [|by left]. right. exists s. by split; [left|].
    + intros x [->|Hx]%elem_of_cons Hor.
      * apply H1. rewrite lookup_insert_eq. by eexists.
      * destruct Hor as [Hb|[_ Hh']]; [apply H3; [done|by left]|]. cbn in Hh'. injection Hh' as ->.
        apply H1. rewrite lookup_insert_eq. by eexists.
  - destruct (IH ss' false pdb Hns) as (pdb' & -> & H1 & H2 & H3).
    { intros x Hx. apply Hss. by right. }
    apply orb_false_iff in Eb as [Eb ->]. exists pdb'. split; [done|]. split_and!; [done| |].
    + intros h buf Hb. destruct (H2 h buf Hb) as [Hi|(x & ? & ? & ?)]; [by left|right; exists x; by split; [right|]].
    + intros x [->|Hx]%elem_of_cons [Hb|[? _]]; [congruence|done|apply H3; [done|by left]|done].
Qed.

Lemma tpath_sub t : ∀ k s, s ∈ tpath t k → sub s t.
Proof.
  induction t as [|v|p t IH|cs IH] using tree_ind'; intros k s Hs; cbn in Hs; [set_solver..| |].
  - apply elem_of_cons in Hs as [->|Hs]; [constructor|]. destruct (strip p k); [|set_solver].
    apply sub_short. by eapply IH.
  - apply elem_of_cons in Hs as [->|Hs]; [constructor|]. destruct k as [|x k]; [set_solver|].
    rewrite list_lookup_fmap in Hs. destruct (cs !! Z.to_nat x) as [c|] eqn:Ec; cbn in Hs; [|set_solver].
    apply list_elem_of_lookup_2 in Ec. rewrite Forall_forall in IH. eapply sub_full; [exact Ec|by eapply IH].
Qed.

Lemma tpath_inner t : ∀ k s, s ∈ tpath t k → (∃ p c, s = TShort p c) ∨ ∃ cs, s = TFull cs.
Proof.
  induction t as [|v|p t IH|cs IH] using tree_ind'; intros k s Hs; cbn in Hs; [set_solver..| |].
  - apply elem_of_cons in Hs as [->|Hs]; [left; by repeat eexists|]. destruct (strip p k); [|set_solver]. by eapply IH.
  - apply elem_of_cons in Hs as [->|Hs]; [right; by eexists|]. destruct k as [|x k]; [set_solver|].
    rewrite list_lookup_fmap in Hs. destruct (cs !! Z.to_nat x) as [c|] eqn:Ec; cbn in Hs; [|set_solver].
    apply list_elem_of_lookup_2 in Ec. rewrite Forall_forall in IH. by eapply IH.
Qed.

Lemma tpath_minimal t k s : minimal_tree t → s ∈ tpath t k → minimal_tree s.
Proof.
  intros Hm Hs. pose proof (sub_child_minimal s t (tpath_sub t k s Hs) (mc_node _ Hm)) as Hc.
  destruct (tpath_inner t k s Hs) as [(p & c & ->)|(cs & ->)]; by inversion Hc.
Qed.

Lemma tpath_head t k : minimal_tree t → head (tpath t k) = Some t.
Proof. by destruct t; inversion 1. Qed.

(** ** Properties *)

(** C14. A Merkle proof cannot lie. Let a map that is not empty have a root hash, and
    let the proof database store every blob under its hash, as VerifyProof assumes,
    without a Keccak collision with a node of the trie. Then verification ends, and
    either reports that a proof node is missing or returns the value of the key in the
    map, also if that is no value. *)
Theorem VerifyProof_sound t m key pdb fuel :
  minimal_tree t → fine t → holds t m → Forall is_byte key → (length (keybytesToHex key) < fuel)%nat →
  (∀ h buf, pdb !! h = Some buf → keccak256 buf = h) →
  (∀ h buf s, pdb !! h = Some buf → sub s t → keccak256 buf = keccak256 (tree_rlp s) → buf = tree_rlp s) →
  ∃ r, VerifyProof fuel (tree_hash t) key pdb = Ret r ∧
    match r with
    | ProofValue v _ => v = m !! key
    | ProofMissing _ h => pdb !! h = None
    | ProofBad _ => False
    end.
Proof.
  intros Hm Hf Hh Hk Hfuel Hauth Hcol.
  destruct (verify_tree fuel 0 t (keybytesToHex key) pdb Hm Hf) as (r & E & Hr); [|done| |].
  { apply root_ok_at; [by right|done]. }
  { intros s buf Hs Hb. apply (Hcol (tree_hash s)); [done|done|]. by apply Hauth. }
  exists r. split; [exact E|]. destruct r as [v i|i h|i]; [|by destruct Hr|done].
  destruct Hh as (_ & _ & Hg). by rewrite Hr, Hg.
Qed.

(** C25. Every key can be proved. For a trie in memory that is not empty, loaded in part
    or not, on whose nodes Keccak does not collide, Prove makes a proof database in
    which every blob is stored under its hash, and verification of it against the root
    hash returns the value of the key, or that there is none. *)
Theorem Prove_complete V root t m key fuel :
  rep V true root t → minimal_tree t → fine t → holds t m → Forall is_byte key →
  (length (keybytesToHex key) < fuel)%nat → collision_free (λ s, sub s t) →
  ∃ pdb n, Prove V root key 0 ∅ = inl pdb ∧ (∀ h buf, pdb !! h = Some buf → keccak256 buf = h) ∧
    VerifyProof fuel (tree_hash t) key pdb = Ret (ProofValue (m !! key) n).
Proof.
  intros Hr Hm Hf Hh Hk Hfuel Hcol. assert (Hok := root_ok_at t key (or_intror Hm) Hk).
  destruct (prove_path_rep V (fuel_for (keybytesToHex key)) true root t _ Hr Hok (need_fuel _ _)) as (ns & E & Hns).
  destruct (put_proof_ok V ns (tpath t (keybytesToHex key)) true ∅ Hns) as (pdb & Ep & _ & H2 & H3).
  { intros s Hs. split; [by eapply tpath_minimal|]. intros s' Hs'. apply Hf. eapply sub_trans; [exact Hs'|].
    by eapply tpath_sub. }
  assert (Hent : ∀ h buf, pdb !! h = Some buf → ∃ s, sub s t ∧ h = tree_hash s ∧ buf = tree_rlp s).
  { intros h buf Hb. destruct (H2 h buf Hb) as [?|(s & Hs & -> & ->)]; [done|]. exists s. split; [|done].
    by eapply tpath_sub. }
  destruct (verify_tree fuel 0 t (keybytesToHex key) pdb Hm Hf Hok Hfuel) as (r & Ev & Hres).
  { intros s buf Hs Hb. destruct (Hent _ _ Hb) as (s' & Hs' & Heq & ->). symmetry. by apply Hcol. }
  destruct r as [v n|n h|n]; [| |done].
  - exists pdb, n. unfold Prove. rewrite E. split; [exact Ep|]. split.
    + intros h buf Hb. destruct (Hent h buf Hb) as (s & _ & -> & ->). done.
    + unfold VerifyProof. rewrite Ev, Hres. destruct Hh as (_ & _ & Hg). by rewrite Hg.
  - exfalso. destruct Hres as (Hnone & s & Hs & Hor & ->).
    destruct (H3 s Hs) as [x Hx]; [|congruence].
    destruct Hor as [->|?]; [right; split; [done|by apply tpath_head]|by left].
Qed.
End correctness.

Lemma demo_fuel : (length (keybytesToHex [33%Z]) < 5)%nat.
Proof. vm_compute. lia. Qed.

Lemma VerifyProof_sound_witness :
  ∃ r, VerifyProof 5 (@tree_hash toy_keccak demo_tree) [33]
         {[@tree_hash toy_keccak demo_tree := @tree_rlp toy_keccak demo_tree]} = Ret r ∧
    match r with
    | ProofValue v _ => v = demo_map !! [33]
    | ProofMissing _ h =>
        ({[@tree_hash toy_keccak demo_tree := @tree_rlp toy_keccak demo_tree]} : store) !! h = None
    | ProofBad _ => False
    end.
Proof.
  destruct demo_holds as [Hh Hr].
  apply (@VerifyProof_sound toy_keccak _ demo_tree demo_map [33] _ 5 demo_minimal demo_fine Hh);
    [by repeat constructor|apply demo_fuel| |].
  - intros h buf E. apply lookup_singleton_Some in E as [<- <-]. done.
  - intros h buf s E Hs Heq. apply lookup_singleton_Some in E as [<- <-].
    eapply (free_b_ok (λ s, sub s demo_tree) (subs demo_tree)); [by vm_compute|by intros; apply sub_subs|constructor|done|done].
Defined.

Lemma Prove_complete_witness :
  ∃ pdb n, @Prove toy_keccak nodb demo_root [33] 0 ∅ = inl pdb ∧
    (∀ h buf, pdb !! h = Some buf → @keccak256 toy_keccak buf = h) ∧
    VerifyProof 5 (@tree_hash toy_keccak demo_tree) [33] pdb = Ret (ProofValue (demo_map !! [33]) n).
Proof.
  destruct demo_holds as [Hh Hr].
  apply (@Prove_complete toy_keccak _ nodb demo_root demo_tree demo_map [33] 5 Hr demo_minimal demo_fine Hh);
    [by repeat constructor|apply demo_fuel|].
  apply (free_b_ok _ (subs demo_tree)); [by vm_compute|intros s; apply sub_subs].
Defined.
