(* ===== verification/TrieIter.v ===== *)
(** * Trie iterators (trie/iterator.go)

    The iterator over the nodes of a trie in pre-order, with its stack of nodes, its path
    and the loading of nodes on demand, and the iterator over keys and values on top of
    it.  The theorem says that from a start key on it yields the entries of the map, each
    once and in the order of their hex keys, and then ends without an error. *)

From Stdlib Require Import ZArith Lia ZifyBool Sorted.
From stdpp Require Import base tactics strings numbers gmap list.
From S2P Require Import Prelude Rlp TrieKeys Trie TrieNodes TrieDb TrieHash.

Local Open Scope Z_scope.
Local Open Scope record_scope.

(** ** State *)

Record nodeIteratorState := mkNodeState {
  ns_hash : bytes;
  ns_node : node;
  ns_parent : bytes;
  ns_index : Z;
  ns_pathlen : nat
}.

#[global] Instance nodeIteratorState_set : Settable nodeIteratorState := {| rec_eta := λ s,
  mkNodeState (ns_hash s) (ns_node s) (ns_parent s) (ns_index s) (ns_pathlen s) |}.

Inductive iterErr :=
| errIteratorEnd
| seekError (key : bytes) (e : trieErr)
| iterFailed (e : trieErr).

(** The top of the stack comes first; [it_trie] is the root of the trie that the iterator
    points to. *)
Record nodeIterator := mkNodeIterator {
  it_trie : option node;
  it_stack : list nodeIteratorState;
  it_path : bytes;
  it_err : option iterErr
}.

#[global] Instance nodeIterator_set : Settable nodeIterator := {| rec_eta := λ i,
  mkNodeIterator (it_trie i) (it_stack i) (it_path i) (it_err i) |}.

Record Iterator := mkIterator {
  i_nodeIt : nodeIterator;
  i_Key : bytes;
  i_Value : bytes;
  i_Err : option trieErr
}.

(** [bytes.HasPrefix] *)
Definition HasPrefix (s prefix : bytes) : bool := bool_decide (take (length prefix) s = prefix).

Section iterator.
  Context {KL : KeccakLib} (db_node : bytes → outcome (option node)).

Definition emptyState : bytes := keccak256 [].

(** ** Moving *)

(** The loop over the children of a full node. *)
Fixpoint next_slot (cs : list node) (i : nat) : option (nat * node) :=
  match cs with
  | [] => None
  | c :: cs => if is_nil c then next_slot cs (S i) else Some (i, c)
  end.

(** The state of the child, its path, and the parent with its index set back. *)
Definition nextChild (path : bytes) (parent : nodeIteratorState) (ancestor : bytes)
    : outcome (option (nodeIteratorState * bytes * nodeIteratorState)) :=
  match ns_node parent with
  | fullNode cs _ =>
      match next_slot (drop (Z.to_nat (ns_index parent + 1)) cs) (Z.to_nat (ns_index parent + 1)) with
      | Some (i, side) =>
          c ← node_cache side;
          Ret (Some (mkNodeState (BytesToHash (default [] c.1)) side ancestor (-1) (length path),
                     path ++ [Z.of_nat i], parent<| ns_index := Z.of_nat i - 1 |>))
      | None => Ret None
      end
  | shortNode key val _ =>
      if ns_index parent <? 0 then
        c ← node_cache val;
        Ret (Some (mkNodeState (BytesToHash (default [] c.1)) val ancestor (-1) (length path), path ++ key, parent))
      else Ret None
  | _ => Ret None
  end.

Definition resolve_state (st : nodeIteratorState) (path : bytes) : outcome (nodeIteratorState + trieErr) :=
  match ns_node st with
  | hashNode h =>
      match resolveHash db_node h path with
      | inl n => Ret (inl (st<| ns_node := n |><| ns_hash := BytesToHash h |>))
      | inr (TriePanic w) => Panic w
      | inr e => Ret (inr e)
      end
  | _ => Ret (inl st)
  end.

Definition pop (it : nodeIterator) : nodeIterator :=
  match it_stack it with
  | [] => it
  | parent :: stack => it<| it_path := take (ns_pathlen parent) (it_path it) |><| it_stack := stack |>
  end.

(** What [peek] returns: the next state with its path, and whether it has a parent, whose
    index [push] then increments; or an error. *)
Definition peeked : Type := (nodeIteratorState * bool * bytes) + iterErr.

(** The loop of [peek] over the stack. *)
Fixpoint peek_loop (stack : list nodeIteratorState) (it : nodeIterator) : outcome (peeked * nodeIterator) :=
  match stack with
  | [] => Ret (inr errIteratorEnd, it)
  | parent :: stack =>
      let ancestor := if bool_decide (ns_hash parent = zeroHash) then ns_parent parent else ns_hash parent in
      r ← nextChild (it_path it) parent ancestor;
      match r with
      | Some (state, path, parent) =>
          let it := it<| it_stack := parent :: stack |> in
          r ← resolve_state state path;
          match r with
          | inl state => Ret (inl (state, true, path), it)
          | inr e => Ret (inr (iterFailed e), it)
          end
      | None => peek_loop stack (pop it)
      end
  end.

Definition peek (descend : bool) (it : nodeIterator) : outcome (peeked * nodeIterator) :=
  match it_stack it with
  | [] =>
      match it_trie it with
      | None => Panic "nil pointer dereference"
      | Some root =>
          h ← Hash root;
          let '(hash, root) := h in
          let state := mkNodeState (if bool_decide (hash = emptyRoot) then zeroHash else hash) root zeroHash (-1) 0 in
          r ← resolve_state state [];
          Ret (match r with inl state => inl (state, false, []) | inr e => inr (iterFailed e) end,
               it<| it_trie := Some root |>)
      end
  | _ =>
      let it := if descend then it else pop it in
      peek_loop (it_stack it) it
  end.

Definition push (state : nodeIteratorState) (hasParent : bool) (path : bytes) (it : nodeIterator) : nodeIterator :=
  let stack := match it_stack it with
               | parent :: stack => (if hasParent then parent<| ns_index ::= λ i, i + 1 |> else parent) :: stack
               | [] => []
               end in
  it<| it_path := path |><| it_stack := state :: stack |>.

(** The loop of [seek]; the fuel bounds the number of nodes. *)
Fixpoint seek_loop (fuel : nat) (prefix key : bytes) (it : nodeIterator) : outcome (option iterErr * nodeIterator) :=
  match fuel with
  | O => Panic "out of fuel"
  | S fuel =>
      r ← peek (HasPrefix key (it_path it)) it;
      match r with
      | (inr errIteratorEnd, it) => Ret (Some errIteratorEnd, it)
      | (inr (iterFailed e | seekError _ e), it) => Ret (Some (seekError prefix e), it)
      | (inl (state, hasParent, path), it) =>
          if 0 <=? bytes_Compare path key then Ret (None, it)
          else seek_loop fuel prefix key (push state hasParent path it)
      end
  end.

Definition seek (fuel : nat) (prefix : bytes) (it : nodeIterator) : outcome (option iterErr * nodeIterator) :=
  seek_loop fuel prefix (chop (keybytesToHex prefix)) it.

(** The iterator, and the root of the trie with its hashes cached. *)
Definition newNodeIterator (fuel : nat) (root : node) (start : bytes) : outcome nodeIterator :=
  h ← Hash root;
  let '(hash, root) := h in
  if bool_decide (hash = emptyState) then Ret (mkNodeIterator None [] [] None)
  else
    r ← seek fuel start (mkNodeIterator (Some root) [] [] None);
    Ret (r.2<| it_err := r.1 |>).

Definition step_forward (descend : bool) (it : nodeIterator) : outcome (bool * nodeIterator) :=
  r ← peek descend it;
  match r with
  | (inr e, it) => Ret (false, it<| it_err := Some e |>)
  | (inl (state, hasParent, path), it) => Ret (true, push state hasParent path (it<| it_err := None |>))
  end.

Definition node_Next (fuel : nat) (descend : bool) (it : nodeIterator) : outcome (bool * nodeIterator) :=
  match it_err it with
  | Some errIteratorEnd => Ret (false, it)
  | Some (seekError key _) =>
      r ← seek fuel key it;
      match r with
      | (Some e, it) => Ret (false, it<| it_err := Some e |>)
      | (None, it) => step_forward descend (it<| it_err := None |>)
      end
  | _ => step_forward descend it
  end.

(** ** Reading *)

Definition node_Hash (it : nodeIterator) : bytes :=
  match it_stack it with [] => zeroHash | st :: _ => ns_hash st end.

Definition node_Parent (it : nodeIterator) : bytes :=
  match it_stack it with [] => zeroHash | st :: _ => ns_parent st end.

Definition Leaf (it : nodeIterator) : bool := hasTerm (it_path it).

Definition LeafKey (it : nodeIterator) : outcome bytes :=
  match it_stack it with
  | mkNodeState _ (valueNode _) _ _ _ :: _ => hexToKeybytes (it_path it)
  | _ => Panic "not at leaf"
  end.

Definition LeafBlob (it : nodeIterator) : outcome bytes :=
  match it_stack it with
  | mkNodeState _ (valueNode v) _ _ _ :: _ => Ret v
  | _ => Panic "not at leaf"
  end.

Definition node_Error (it : nodeIterator) : option trieErr :=
  match it_err it with
  | None | Some errIteratorEnd => None
  | Some (seekError _ e) | Some (iterFailed e) => Some e
  end.

(** ** Keys and values *)

Definition NewIterator (it : nodeIterator) : Iterator := mkIterator it [] [] None.

Fixpoint next_leaf (fuel : nat) (seekFuel : nat) (it : Iterator) : outcome (bool * Iterator) :=
  match fuel with
  | O => Panic "out of fuel"
  | S fuel =>
      r ← node_Next seekFuel true (i_nodeIt it);
      let '(more, n) := r in
      if more : bool then
        if Leaf n then
          key ← LeafKey n;
          value ← LeafBlob n;
          Ret (true, mkIterator n key value (i_Err it))
        else next_leaf fuel seekFuel (mkIterator n (i_Key it) (i_Value it) (i_Err it))
      else Ret (false, mkIterator n [] [] (node_Error n))
  end.

Definition Next (fuel : nat) (it : Iterator) : outcome (bool * Iterator) := next_leaf fuel fuel it.

(** [for it.Next() { ... }]: the keys and values that the loop sees. *)
Fixpoint entries (n : nat) (fuel : nat) (it : Iterator) : outcome (list (bytes * bytes) * Iterator) :=
  match n with
  | O => Panic "out of fuel"
  | S n =>
      r ← Next fuel it;
      let '(more, it) := r in
      if more : bool then
        rs ← entries n fuel it;
        Ret ((i_Key it, i_Value it) :: rs.1, rs.2)
      else Ret ([], it)
  end.
End iterator.

(** ** The nodes of a tree in pre-order *)

(** A child and the nodes below it, if there is one. *)
Definition slots (rec : bytes → tree → list (bytes * tree)) (p : bytes) : nat → list tree → list (bytes * tree) :=
  fix go (i : nat) (cs : list tree) :=
    match cs with
    | [] => []
    | c :: cs => (if tnil c then [] else rec (p ++ [Z.of_nat i]) c) ++ go (S i) cs
    end.

Fixpoint pre (p : bytes) (t : tree) : list (bytes * tree) :=
  (p, t) :: match t with
            | TNil | TVal _ => []
            | TShort k c => pre (p ++ k) c
            | TFull cs => slots pre p 0 cs
            end.

(** What is left below a node when the child of an index has been visited. *)
Definition below (p : bytes) (t : tree) (i : Z) : list (bytes * tree) :=
  match t with
  | TNil | TVal _ => []
  | TShort k c => if i <? 0 then pre (p ++ k) c else []
  | TFull cs => slots pre p (Z.to_nat (i + 1)) (drop (Z.to_nat (i + 1)) cs)
  end.

Lemma pre_unfold p t : pre p t = (p, t) :: below p t (-1).
Proof. by destruct t. Qed.

Lemma slots_cons p i c cs :
  slots pre p i (c :: cs) = (if tnil c then [] else pre (p ++ [Z.of_nat i]) c) ++ slots pre p (S i) cs.
Proof. reflexivity. Qed.

(** *** The order of the paths *)

Definition blt (a b : bytes) : Prop := bytes_Compare a b < 0.

Lemma Compare_app p a b : bytes_Compare (p ++ a) (p ++ b) = bytes_Compare a b.
Proof. induction p as [|x p IH]; [done|]. cbn. by rewrite Z.ltb_irrefl. Qed.

Lemma Compare_refl a : bytes_Compare a a = 0.
Proof. by apply bytes_Compare_0. Qed.

Lemma blt_prefix p k : k ≠ [] → blt p (p ++ k).
Proof. intros Hk. unfold blt. rewrite <-(app_nil_r p) at 1. rewrite Compare_app. by destruct k. Qed.

Lemma blt_trans a b c : blt a b → blt b c → blt a c.
Proof.
  unfold blt. revert b c. induction a as [|x a IH]; intros [|y b] [|z c]; cbn; try lia.
  repeat case_match; try lia. intros Hab Hbc. by eapply IH.
Qed.

(** What comes before a key without being a prefix of it does so with all its extensions. *)
Lemma blt_extend p q key : blt p key → HasPrefix key p = false → blt (p ++ q) key.
Proof.
  unfold blt, HasPrefix. revert key. induction p as [|x p IH]; intros [|y key] Hlt Hp; cbn in *; try lia.
  - by rewrite bool_decide_eq_true_2 in Hp.
  - destruct (x <? y) eqn:E1; [lia|]. destruct (y <? x) eqn:E2; [lia|]. assert (x = y) as -> by lia.
    apply IH; [done|]. apply bool_decide_eq_false. intros E. apply bool_decide_eq_false in Hp. apply Hp. by rewrite E.
Qed.

Lemma Compare_ge_trans a b c : 0 <= bytes_Compare a c → blt a b → 0 <= bytes_Compare b c.
Proof.
  unfold blt. revert b c. induction a as [|x a IH]; intros [|y b] [|z c]; cbn; try lia.
  repeat case_match; try lia. intros Hab Hbc. by eapply IH.
Qed.

Lemma pre_app p q t : pre (p ++ q) t = prod_map (app p) id <$> pre q t.
Proof.
  revert q. induction t as [|v|k t IH|cs IH] using tree_ind'; intros q; [done|done| |].
  - cbn [pre]. rewrite fmap_cons. f_equal. by rewrite <-app_assoc, IH.
  - cbn [pre]. rewrite fmap_cons. f_equal. generalize 0%nat. induction IH as [|c cs Hc _ IHcs]; intros i; [done|].
    cbn. rewrite fmap_app, IHcs. f_equal. destruct (tnil c); [done|]. by rewrite <-app_assoc, Hc.
Qed.

(** Every path below a node extends its path. *)
Lemma pre_extends p t q s : (q, s) ∈ pre p t → ∃ k, q = p ++ k.
Proof.
  rewrite <-(app_nil_r p), pre_app, app_nil_r. intros H. apply list_elem_of_fmap in H as ([k s'] & E & _).
  injection E as -> _. by exists k.
Qed.

Lemma below_extends p t i q s : (q, s) ∈ below p t i → ∃ k, q = p ++ k.
Proof.
  destruct t as [|v|k c|cs]; cbn; [set_solver..| |].
  - destruct (i <? 0); [|set_solver]. intros H. apply pre_extends in H as (r & ->). exists (k ++ r). by rewrite app_assoc.
  - generalize (Z.to_nat (i + 1)) at 1. generalize (drop (Z.to_nat (i + 1)) cs). intros l. induction l as [|c l IH]; intros j; cbn; [set_solver|].
    rewrite elem_of_app. intros [H|H]; [|by eapply IH]. destruct (tnil c); [set_solver|].
    apply pre_extends in H as (r & ->). eexists. by rewrite <-app_assoc.
Qed.

Definition path_lt (a b : bytes * tree) : Prop := blt a.1 b.1.

Lemma sorted_app_iff (l1 l2 : list (bytes * tree)) :
  StronglySorted path_lt l1 → StronglySorted path_lt l2 → (∀ a b, a ∈ l1 → b ∈ l2 → path_lt a b) →
  StronglySorted path_lt (l1 ++ l2).
Proof.
  induction 1 as [|a l1 H1 IH Ha]; intros H2 H12; [done|]. cbn. constructor.
  - apply IH; [done|]. intros; apply H12; [by right|done].
  - rewrite Forall_app. split; [done|]. apply Forall_forall. intros b Hb. apply H12; [left|done].
Qed.

(** A tree in which every short node has a key. *)
Inductive keyed : tree → Prop :=
| keyed_nil : keyed TNil
| keyed_val v : keyed (TVal v)
| keyed_short k t : k ≠ [] → keyed t → keyed (TShort k t)
| keyed_full cs : Forall keyed cs → keyed (TFull cs).

Lemma slots_below p i cs q s : (q, s) ∈ slots pre p i cs → ∃ j k, (i <= j)%nat ∧ q = p ++ Z.of_nat j :: k.
Proof.
  revert i. induction cs as [|c cs IH]; intros i; cbn; [set_solver|]. rewrite elem_of_app. intros [H|H].
  - destruct (tnil c); [set_solver|]. apply pre_extends in H as (r & ->). exists i, r. split; [lia|]. by rewrite <-app_assoc.
  - destruct (IH _ H) as (j & k & ? & ->). exists j, k. split; [lia|done].
Qed.

Lemma pre_sorted t : keyed t → ∀ p, StronglySorted path_lt (pre p t).
Proof.
  induction t as [|v|k t IH|cs IH] using tree_ind'; intros Hkt p.
  1, 2: by repeat constructor.
  - inversion Hkt as [| |? ? Hk Ht|]; subst. cbn [pre]. constructor; [by apply IH|].
    apply Forall_forall. intros [q s] H. apply pre_extends in H as (r & ->). unfold path_lt. cbn.
    rewrite <-app_assoc. apply blt_prefix. by destruct k.
  - inversion Hkt as [| | |? Hcs]; subst. cbn [pre]. constructor.
    + generalize 0%nat. clear Hkt. induction IH as [|c cs Hc _ IHcs]; intros i; [constructor|].
      inversion Hcs; subst. rewrite slots_cons. apply sorted_app_iff; [|by apply IHcs|].
      * destruct (tnil c); [constructor|by apply Hc].
      * intros [a sa] [b sb] Ha Hb. destruct (tnil c); [set_solver|].
        apply pre_extends in Ha as (r & ->). apply slots_below in Hb as (j & k & Hj & ->).
        unfold path_lt, blt. cbn. rewrite <-app_assoc, Compare_app. cbn.
        destruct (Z.of_nat i <? Z.of_nat j) eqn:E; lia.
    + apply Forall_forall. intros [q s] H. apply slots_below in H as (j & r & _ & ->). by apply blt_prefix.
Qed.

Lemma minimal_keyed t : root_tree t → keyed t.
Proof.
  intros H. assert (minimal_child_tree t) as Hm by (destruct H as [->|]; by constructor). clear H.
  induction t as [|v|k t IH|cs IH] using tree_ind'; [constructor..| |].
  - inversion Hm as [| |? Hm']; subst. inversion Hm' as [? ? Hk|? ? Hk ? Hf|]; subst.
    + constructor; [intros ->; by apply hexkey_nonempty|constructor].
    + constructor; [done|]. apply IH. by constructor.
  - inversion Hm as [| |? Hm']; subst. constructor. destruct (minimal_full_inv cs Hm') as (Hl & H1 & H2 & _).
    rewrite Forall_forall in IH |- *. intros c Hc. apply IH; [done|]. apply list_elem_of_lookup_1 in Hc as [i Hi].
    destruct (decide (i < 16)%nat).
    + destruct (H1 i c Hi) as [->|]; [lia|by constructor..].
    + assert (i = 16%nat) as -> by (apply lookup_lt_Some in Hi; lia). destruct (H2 c Hi) as [->|(v & -> & Hv)]; by constructor.
Qed.

(** *** The leaves *)

Lemma elem_of_slots p i cs x :
  x ∈ slots pre p i cs → ∃ j c, cs !! j = Some c ∧ tnil c = false ∧ x ∈ pre (p ++ [Z.of_nat (i + j)]) c.
Proof.
  revert i. induction cs as [|c cs IH]; intros i; cbn; [set_solver|]. rewrite elem_of_app. intros [H|H].
  - destruct (tnil c) eqn:E; [set_solver|]. exists 0%nat, c. by rewrite Nat.add_0_r.
  - destruct (IH _ H) as (j & d & Hj & Hd & Hx). exists (S j), d. by rewrite Nat.add_succ_r.
Qed.

Lemma slots_elem_of p i cs j c x :
  cs !! j = Some c → tnil c = false → x ∈ pre (p ++ [Z.of_nat (i + j)]) c → x ∈ slots pre p i cs.
Proof.
  revert i j. induction cs as [|d cs IH]; intros i [|j] Hj Hc Hx; cbn in *; try done; rewrite elem_of_app.
  - injection Hj as ->. left. rewrite Hc. by rewrite Nat.add_0_r in Hx.
  - right. eapply IH; [done..|]. by rewrite Nat.add_succ_r in Hx.
Qed.

Lemma pre_leaf p t q v : (q, TVal v) ∈ pre p t → ∃ k, q = p ++ k ∧ tget t k = Some v.
Proof.
  revert p. induction t as [|w|k t IH|cs IH] using tree_ind'; intros p; cbn [pre]; rewrite elem_of_cons; intros [E|H];
    try (by injection E); try set_solver.
  - injection E as -> ->. exists []. by rewrite app_nil_r.
  - destruct (IH _ H) as (r & -> & Hr). exists (k ++ r). by rewrite app_assoc, tget_short, strip_app.
  - apply elem_of_slots in H as (j & c & Hj & _ & H). rewrite Forall_lookup in IH.
    destruct (IH _ _ Hj _ H) as (r & -> & Hr). exists (Z.of_nat j :: r). rewrite <-app_assoc. split; [done|].
    by rewrite tget_full, Nat2Z.id, Hj.
Qed.

Lemma leaf_pre p t k v : Forall (Z.le 0) k → tget t k = Some v → (p ++ k, TVal v) ∈ pre p t.
Proof.
  revert p k. induction t as [|w|k t IH|cs IH] using tree_ind'; intros p r Hr E; cbn [pre]; rewrite elem_of_cons; [done| |right..].
  - cbn in E. destruct r; [|done]. injection E as ->. left. by rewrite app_nil_r.
  - rewrite tget_short in E. destruct (strip k r) as [r'|] eqn:Es; [|done]. apply strip_Some in Es as ->.
    apply Forall_app in Hr as [_ Hr]. rewrite app_assoc. by apply IH.
  - destruct r as [|x r]; [done|]. rewrite tget_full in E. destruct (cs !! Z.to_nat x) as [c|] eqn:Ec; [|done].
    inversion Hr; subst. apply (slots_elem_of p 0 cs (Z.to_nat x) c); [done|by destruct c|].
    rewrite Forall_lookup in IH. cbn. rewrite Z2Nat.id by done.
    replace (p ++ x :: r) with ((p ++ [x]) ++ r) by by rewrite <-app_assoc. by eapply IH.
Qed.

(** The path of a leaf has the terminator at its end; no other path has it. *)
Lemma pre_shape p t q s : minimal_tree t → Forall nib p → (q, s) ∈ pre p t →
  match s with TVal _ => hexkey q | _ => Forall nib q end.
Proof.
  intros Hm. revert p. induction t as [|w|k t IH|cs IH] using tree_ind'; intros p Hp; [inversion Hm..| |].
  - cbn [pre]. rewrite elem_of_cons. intros [[= -> ->]|H]; [done|]. inversion Hm as [? v Hk|? ? Hk Hn Hf|]; subst.
    + cbn in H. apply list_elem_of_singleton in H as [= -> ->]. by apply hexkey_app.
    + eapply (IH Hf (p ++ k)); [|exact H]. by apply Forall_app.
  - cbn [pre]. rewrite elem_of_cons. intros [[= -> ->]|H]; [done|].
    apply elem_of_slots in H as (j & c & Hj & Hc & H). cbn [Nat.add] in H.
    destruct (minimal_full_inv cs Hm) as (Hl & H1 & H2 & _). assert (j < 17)%nat by (apply lookup_lt_Some in Hj; lia).
    destruct (decide (j = 16%nat)) as [->|].
    + destruct (H2 c Hj) as [->|(v & -> & _)]; [done|]. cbn in H. apply list_elem_of_singleton in H as [= -> ->].
      by exists p.
    + destruct (H1 j c Hj) as [->|Hmc]; [lia|done|]. rewrite Forall_lookup in IH.
      eapply (IH _ _ Hj Hmc (p ++ [Z.of_nat j])); [|exact H]. apply Forall_app. split; [done|].
      repeat constructor; lia.
Qed.

(** The entries that the leaves of a list of nodes stand for. *)
Definition leaf_entry (x : bytes * tree) : option (bytes * bytes) :=
  match x.2, hexToKeybytes x.1 with TVal v, Ret k => Some (k, v) | _, _ => None end.

Definition leaves (l : list (bytes * tree)) : list (bytes * bytes) := omap leaf_entry l.

(** A node of a trie with byte keys: its path tells whether it is a leaf. *)
Definition node_good (x : bytes * tree) : Prop :=
  match x.2 with
  | TVal _ => hasTerm x.1 = true ∧ ∃ k, Forall is_byte k ∧ x.1 = keybytesToHex k
  | _ => hasTerm x.1 = false
  end.

Lemma pre_good t m : holds t m → Forall node_good (pre [] t).
Proof.
  intros (Ht & Hb & _). apply Forall_forall. intros [q s] H.
  assert (match s with TVal _ => hexkey q | _ => Forall nib q end) as Hq.
  { destruct Ht as [->|Hm]; [|by eapply pre_shape]. cbn in H. by apply list_elem_of_singleton in H as [= -> ->]. }
  unfold node_good. cbn. destruct s as [|v|k c|cs]; [by apply hasTerm_nibs| |by apply hasTerm_nibs..].
  split; [by apply hexkey_term|]. apply pre_leaf in H as (k & -> & Hk). by apply (Hb k v).
Qed.

Section walk.
  Context {KL : KeccakLib} {KLaws : KeccakLaws} (V : bytes → outcome (option node)).

(** A short node leads somewhere. *)
Definition solid (t : tree) : Prop := ∀ k c, sub (TShort k c) t → tnil c = false.

Lemma solid_short k c : solid (TShort k c) → solid c ∧ tnil c = false.
Proof. intros H. split; [|by apply (H k), sub_refl]. intros k' c' Hs. apply (H k'). by constructor. Qed.

Lemma solid_full cs i c : solid (TFull cs) → cs !! i = Some c → solid c.
Proof. intros H Hi k' c' Hs. apply (H k'). eapply sub_full; [|exact Hs]. by eapply list_elem_of_lookup_2. Qed.

(** The stack and the path, with the nodes that are still to be visited. *)
Inductive stack_ok : list nodeIteratorState → bytes → list (bytes * tree) → Prop :=
| stack_nil : stack_ok [] [] []
| stack_cons st stack b p q t todo :
    rep V b (ns_node st) t → is_hash (ns_node st) = false → -1 <= ns_index st → solid t →
    ns_pathlen st = length q → take (length q) p = q → stack_ok stack q todo →
    stack_ok (st :: stack) p (below p t (ns_index st) ++ todo).

Lemma next_slot_ok ns ts i p : Forall2 (rep V false) ns ts →
  match next_slot ns i with
  | None => slots pre p i ts = []
  | Some (j, n) => ∃ t, ts !! (j - i)%nat = Some t ∧ (i <= j)%nat ∧ rep V false n t ∧ tnil t = false ∧
      slots pre p i ts = pre (p ++ [Z.of_nat j]) t ++ slots pre p (S j) (drop (S j - i) ts)
  end.
Proof.
  intros H. revert i. induction H as [|n t ns ts Hn _ IH]; intros i; [done|]. cbn [next_slot].
  rewrite (rep_is_nil V false n t Hn). destruct (tnil t) eqn:Et.
  - specialize (IH (S i)). rewrite slots_cons, Et. destruct (next_slot ns (S i)) as [[j m]|]; [|by rewrite IH].
    destruct IH as (t' & Hl & Hj & Hr & Ht' & E). exists t'. split_and!; try done; [|lia|].
    + replace (j - i)%nat with (S (j - S i)) by lia. done.
    + rewrite E. replace (S j - i)%nat with (S (S j - S i)) by lia. done.
  - exists t. rewrite Nat.sub_diag. split_and!; try done. rewrite slots_cons, Et.
    replace (S i - i)%nat with 1%nat by lia. done.
Qed.

Lemma cached_ok b n t : rep V b n t → tnil t = false → ∃ c, node_cache n = Ret c.
Proof. by inversion 1; subst; intros; try done; eexists. Qed.

Lemma rep_nonhash_cases b n t : rep V b n t → is_hash n = false →
  (n = nilNode ∧ t = TNil) ∨ (∃ v, n = valueNode v ∧ t = TVal v) ∨
  (∃ k m c fl, n = shortNode k m fl ∧ t = TShort k c ∧ rep V false m c) ∨
  (∃ ns ts fl, n = fullNode ns fl ∧ t = TFull ts ∧ Forall2 (rep V false) ns ts).
Proof. inversion 1; subst; intros; try done; naive_solver. Qed.

(** Loading keeps what a node stands for. *)
Lemma resolve_state_ok b st t p : rep V b (ns_node st) t →
  ∃ n h, resolve_state V st p = Ret (inl (st<| ns_node := n |><| ns_hash := h |>)) ∧ rep V b n t ∧ is_hash n = false.
Proof.
  intros Hr. unfold resolve_state. destruct (is_hash (ns_node st)) eqn:Eh.
  - destruct (ns_node st) as [| | |h|] eqn:En; try done.
    destruct (resolve_rep V b h t p Hr) as (-> & Hl & Hh). by eexists _, _.
  - exists (ns_node st), (ns_hash st). destruct st as [? n ? ? ?]. cbn in *. by destruct n.
Qed.

(** [nextChild] finds the first node that is left below the top of the stack. *)
Lemma nextChild_ok b st p t anc :
  rep V b (ns_node st) t → is_hash (ns_node st) = false → -1 <= ns_index st → solid t →
  match below p t (ns_index st) with
  | [] => nextChild p st anc = Ret None
  | (p', t') :: rest => ∃ st' i, nextChild p st anc = Ret (Some (st', p', st<| ns_index := i |>)) ∧
      -1 <= i ∧ rep V false (ns_node st') t' ∧ ns_index st' = -1 ∧ ns_pathlen st' = length p ∧
      take (length p) p' = p ∧ solid t' ∧ below p t i = (p', t') :: rest ∧
      rest = below p' t' (-1) ++ below p t (i + 1)
  end.
Proof.
  intros Hr Hh Hi Hso. unfold nextChild.
  destruct (rep_nonhash_cases b _ t Hr Hh) as [(-> & ->)|[(v & -> & ->)|[(k & m & c & fl & -> & -> & Hm)|(ns & ts & fl & -> & -> & Hf)]]];
    [done|done| |].
  - destruct (solid_short k c Hso) as [Hsc Hc]. cbn [below].
    destruct (Z.ltb_spec (ns_index st) 0) as [Hneg|]; [|done]. rewrite pre_unfold.
    assert (ns_index st = -1) as Ei by lia. destruct (cached_ok false m c Hm Hc) as [ch ->]. cbn.
    exists (mkNodeState (BytesToHash (default [] ch.1)) m anc (-1) (length p)), (-1).
    rewrite take_app_length. split_and!; try done; [destruct st; cbn in *; by subst|by rewrite app_nil_r].
  - set (i := Z.to_nat (ns_index st + 1)).
    assert (Forall2 (rep V false) (drop i ns) (drop i ts)) as Hd by by apply Forall2_drop.
    pose proof (next_slot_ok (drop i ns) (drop i ts) i p Hd) as Hn. cbn [below]. fold i.
    destruct (next_slot (drop i ns) i) as [[j n]|]; [|by rewrite Hn].
    destruct Hn as (t' & Hl & Hj & Hn & Ht' & E). rewrite E, pre_unfold. cbn [app].
    destruct (cached_ok false n t' Hn Ht') as [ch ->]. cbn.
    assert (i + (j - i) = j)%nat as Eij by lia. rewrite lookup_drop, Eij in Hl.
    exists (mkNodeState (BytesToHash (default [] ch.1)) n anc (-1) (length p)), (Z.of_nat j - 1). rewrite take_app_length. split_and!; try done; [lia|by eapply solid_full| |].
    + replace (Z.to_nat (Z.of_nat j - 1 + 1)) with j by lia. rewrite (drop_S _ t' j Hl), slots_cons, Ht', pre_unfold.
      cbn [app]. do 2 f_equal. rewrite drop_drop. do 2 f_equal. lia.
    + f_equal. rewrite drop_drop. do 2 f_equal; lia.
Qed.

(** The iterator, with what is still to be visited: it has not started, or it has a stack. *)
Definition iter_ok (t : tree) (it : nodeIterator) (todo : list (bytes * tree)) : Prop :=
  (∃ root, it_trie it = Some root ∧ rep V true root t) ∧
  (it_stack it = [] ∧ it_path it = [] ∧ todo = pre [] t ∨
   it_stack it ≠ [] ∧ stack_ok (it_stack it) (it_path it) todo).

(** The iterator stands at a node with a path; nothing below it has been visited. *)
Definition at_node (t : tree) (it : nodeIterator) (p : bytes) (s : tree) (rest : list (bytes * tree)) : Prop :=
  (∃ root, it_trie it = Some root ∧ rep V true root t) ∧ it_path it = p ∧
  ∃ b st stack q, it_stack it = st :: stack ∧ rep V b (ns_node st) s ∧ is_hash (ns_node st) = false ∧
    ns_index st = -1 ∧ solid s ∧ ns_pathlen st = length q ∧ take (length q) p = q ∧ stack_ok stack q rest.

Lemma at_node_iter t it p s rest : at_node t it p s rest → iter_ok t it (below p s (-1) ++ rest).
Proof.
  intros (Hroot & <- & b & st & stack & q & E & Hr & Hh & Hi & Hso & Hl & Hq & Hs). split; [done|]. right.
  rewrite E. split; [done|]. rewrite <-Hi. eapply stack_cons; try done; lia.
Qed.

Lemma stack_at st stack b p q s todo i :
  rep V b (ns_node st) s → is_hash (ns_node st) = false → -1 <= i → solid s → ns_pathlen st = length q →
  take (length q) p = q → stack_ok stack q todo → stack_ok (st<| ns_index := i |> :: stack) p (below p s i ++ todo).
Proof. intros. pose proof (stack_cons (st<| ns_index := i |>) stack b p q s todo) as Hc. cbn in Hc. by apply Hc. Qed.

Lemma peek_loop_ok t root stack path todo it :
  it_trie it = Some root → rep V true root t →
  stack_ok stack path todo → it_stack it = stack → it_path it = path →
  match todo with
  | [] => ∃ it', peek_loop V stack it = Ret (inr errIteratorEnd, it')
  | (p, s) :: rest => ∃ st it' rest', peek_loop V stack it = Ret (inl (st, true, p), it') ∧
      iter_ok t it' todo ∧ at_node t (push st true p it') p s rest' ∧ rest = below p s (-1) ++ rest' ∧
      it_err it' = it_err it
  end.
Proof.
  intros Ht Hroot Hs. revert it Ht. induction Hs as [|st stack b p q s todo Hr Hh Hi Hso Hl Hq Hs IH]; intros it Ht Est Ep.
  { by eexists. }
  cbn [peek_loop]. set (anc := if bool_decide _ then _ else _). subst p.
  pose proof (nextChild_ok b st (it_path it) s anc Hr Hh Hi Hso) as Hn.
  destruct (below (it_path it) s (ns_index st)) as [|[p' s'] rest].
  - rewrite Hn. cbn [mbind outcome_bind app].
    assert (pop it = it<| it_path := q |><| it_stack := stack |>) as Epop by (unfold pop; rewrite Est, Hl, Hq; done).
    specialize (IH (pop it)). rewrite Epop in IH |- *. by apply IH.
  - destruct Hn as (st' & i & -> & Hi' & Hr' & Hi1 & Hl' & Hq' & Hso' & Eb & ->). cbn [mbind outcome_bind app].
    destruct (resolve_state_ok false st' s' p' Hr') as (n & h & -> & Hn & Hnh). cbn [mbind outcome_bind].
    eexists _, _, _. split; [done|]. split_and!; [| |by rewrite <-app_assoc|done].
    + split; [by exists root|]. right. cbn. split; [done|].
      change ((p', s') :: (below p' s' (-1) ++ below (it_path it) s (i + 1)) ++ todo) with
        (((p', s') :: (below p' s' (-1) ++ below (it_path it) s (i + 1))) ++ todo).
      rewrite <-Eb. by eapply stack_at.
    + split; [by exists root|]. split; [done|]. unfold push. cbn.
      eexists false, _, _, (it_path it). split_and!; try done.
      eapply (stack_at st); try done. lia.
Qed.

Lemma minimal_solid t : root_tree t → solid t.
Proof.
  intros Ht k c Hs. assert (minimal_child_tree (TShort k c)) as Hm.
  { eapply sub_child_minimal; [exact Hs|]. destruct Ht as [->|Hm]; by constructor. }
  inversion Hm as [| |? Hm']; subst. by inversion Hm'.
Qed.

(** [peek] returns the first of the nodes that are left, and visits nothing. *)
Lemma peek_ok t it todo : iter_ok t it todo → root_tree t → fine t →
  match todo with
  | [] => ∃ it', peek V true it = Ret (inr errIteratorEnd, it')
  | (p, s) :: rest => ∃ st hp it' rest', peek V true it = Ret (inl (st, hp, p), it') ∧
      iter_ok t it' todo ∧ at_node t (push st hp p it') p s rest' ∧ rest = below p s (-1) ++ rest' ∧
      it_err it' = it_err it
  end.
Proof.
  intros [(root & Er & Hroot) Hst] Ht Hf. unfold peek. destruct Hst as [(Es & Ep & ->)|[Hne Hs]].
  - rewrite Es, Er. destruct (Hash_spec V root t Hroot Ht Hf) as (root' & -> & Hr'). cbn [mbind outcome_bind].
    rewrite pre_unfold. set (st := mkNodeState _ root' _ _ _).
    destruct (resolve_state_ok true st t [] Hr') as (n & h & -> & Hn & Hh). cbn [mbind outcome_bind].
    eexists _, false, _, []. split; [done|]. split_and!; [| |by rewrite app_nil_r|done].
    + split; [by exists root'|]. left. cbn. by rewrite Es, Ep, pre_unfold.
    + split; [by exists root'|]. split; [done|]. unfold push. cbn. rewrite Es.
      eexists true, _, [], []. split_and!; try done; [by apply minimal_solid|constructor].
  - destruct (it_stack it) as [|st stack] eqn:Es; [done|]. cbn match.
    pose proof (peek_loop_ok t root (st :: stack) (it_path it) todo it Er Hroot Hs Es eq_refl) as H.
    destruct todo as [|[p s] rest]; [done|]. destruct H as (st' & it' & rest' & H). by exists st', true, it', rest'.
Qed.

(** Without descending, what is below the current node is skipped. *)
Lemma peek_skip_ok t it p0 s0 todo : at_node t it p0 s0 todo →
  match todo with
  | [] => ∃ it', peek V false it = Ret (inr errIteratorEnd, it')
  | (p, s) :: rest => ∃ st hp it' rest', peek V false it = Ret (inl (st, hp, p), it') ∧
      iter_ok t it' todo ∧ at_node t (push st hp p it') p s rest' ∧ rest = below p s (-1) ++ rest' ∧
      it_err it' = it_err it
  end.
Proof.
  intros ((root & Er & Hroot) & Ep & b & st & stack & q & Es & _ & _ & _ & _ & Hl & Hq & Hs).
  unfold peek. rewrite Es.
  assert (pop it = it<| it_path := q |><| it_stack := stack |>) as Epop by (unfold pop; rewrite Es, Hl, Ep, Hq; done).
  rewrite Epop.
  pose proof (peek_loop_ok t root stack q todo (it<| it_path := q |><| it_stack := stack |>)) as H.
  cbn in H |- *. specialize (H Er Hroot Hs eq_refl eq_refl).
  destruct todo as [|[p s] rest]; [done|]. destruct H as (st' & it' & rest' & H). by exists st', true, it', rest'.
Qed.

(** The nodes from a key on. *)
Definition from_key (key : bytes) (todo : list (bytes * tree)) : list (bytes * tree) :=
  filter (λ x, 0 <= bytes_Compare x.1 key) todo.

Lemma from_key_all key p s rest : StronglySorted path_lt ((p, s) :: rest) → 0 <= bytes_Compare p key →
  from_key key ((p, s) :: rest) = (p, s) :: rest.
Proof.
  intros Hs Hp. apply filter_all. inversion Hs as [|? ? _ Hall]; subst. intros x Hx.
  apply elem_of_cons in Hx as [->|Hx]; [done|]. rewrite Forall_forall in Hall. eapply Compare_ge_trans; [exact Hp|by apply Hall].
Qed.

Lemma from_key_none key l : Forall (λ x, blt x.1 key) l → from_key key l = [].
Proof.
  induction 1 as [|x l Hx _ IH]; [done|]. unfold from_key. rewrite filter_cons_False; [done|]. unfold blt in Hx. lia.
Qed.

(** An iterator that is not at its end has more to visit, or does not know that it is. *)
Definition ready (t : tree) (it : nodeIterator) (todo : list (bytes * tree)) : Prop :=
  it_err it = None ∧ iter_ok t it todo ∨ it_err it = Some errIteratorEnd ∧ todo = [].

Lemma seek_loop_ok t fuel prefix key it todo :
  root_tree t → fine t → StronglySorted path_lt todo → (length todo < fuel)%nat →
  (it_stack it = [] ∧ iter_ok t it todo ∧ it_path it = []) ∨
  (∃ p s rest, at_node t it p s rest ∧ blt p key ∧ todo = below p s (-1) ++ rest) →
  ∃ e it', seek_loop V fuel prefix key it = Ret (e, it') ∧ ready t (it'<| it_err := e |>) (from_key key todo).
Proof.
  intros Ht Hf. revert it todo. induction fuel as [|fuel IH]; intros it todo Hs Hlen Hit; [lia|]. cbn [seek_loop].
  assert (∃ d todo', HasPrefix key (it_path it) = d ∧ from_key key todo = from_key key todo' ∧
    StronglySorted path_lt todo' ∧ (length todo' <= length todo)%nat ∧
    match todo' with
    | [] => ∃ it', peek V d it = Ret (inr errIteratorEnd, it')
    | (p, s) :: rest => ∃ st hp it' rest', peek V d it = Ret (inl (st, hp, p), it') ∧
        iter_ok t it' todo' ∧ at_node t (push st hp p it') p s rest' ∧ rest = below p s (-1) ++ rest' ∧
        it_err it' = it_err it
    end) as (d & todo' & -> & -> & Hs' & Hlen' & Hpeek).
  { destruct Hit as [(Est & Hok & Ep)|(p & s & rest & Hat & Hp & ->)].
    - exists true, todo. rewrite Ep. split_and!; try done. by apply peek_ok.
    - assert (it_path it = p) as Ep by apply Hat. rewrite Ep. destruct (HasPrefix key p) eqn:Epre.
      + eexists true, _. split_and!; try done. apply peek_ok; [|done..]. by apply at_node_iter.
      + exists false, rest. split_and!; try done; [| |rewrite length_app; lia|by eapply peek_skip_ok].
        * unfold from_key. rewrite filter_app. fold (from_key key (below p s (-1))). rewrite from_key_none; [done|].
          apply Forall_forall. intros [q x] Hq. apply below_extends in Hq as (r & ->). by apply blt_extend.
        * clear -Hs. induction (below p s (-1)) as [|a l IHl]; [done|]. inversion Hs; subst. by apply IHl. }
  destruct todo' as [|[p s] rest].
  - destruct Hpeek as (it' & ->). cbn. eexists _, _. split; [done|]. by right.
  - destruct Hpeek as (st & hp & it' & rest' & -> & Hok & Hat & -> & _). cbn [mbind outcome_bind].
    destruct (Z.leb_spec 0 (bytes_Compare p key)) as [Hge|Hlt].
    + eexists _, _. split; [done|]. left. split; [done|]. by rewrite from_key_all.
    + inversion Hs' as [|? ? Hs'' _]; subst.
      destruct (IH (push st hp p it') _ Hs'') as (e & it'' & -> & Hr); [cbn in Hlen'; lia|right; by eauto 10|].
      eexists _, _. split; [done|]. unfold from_key. rewrite filter_cons_False; [done|]. cbn. lia.
Qed.

Lemma at_node_ready t it p s rest : at_node t it p s rest → it_err it = None → ready t it (below p s (-1) ++ rest).
Proof. intros H He. left. split; [done|]. by apply at_node_iter. Qed.

Lemma at_node_err t it p s rest e : at_node t it p s rest → at_node t (it<| it_err := e |>) p s rest.
Proof. done. Qed.

(** The iterator moves to the next node. *)
Lemma node_Next_ok t fuel it todo : ready t it todo → root_tree t → fine t →
  match todo with
  | [] => ∃ it', node_Next V fuel true it = Ret (false, it') ∧ it_err it' = Some errIteratorEnd
  | (p, s) :: rest => ∃ it', node_Next V fuel true it = Ret (true, it') ∧ ready t it' rest ∧ it_path it' = p ∧
      ∃ b st stack, it_stack it' = st :: stack ∧ rep V b (ns_node st) s ∧ is_hash (ns_node st) = false
  end.
Proof.
  intros [[He Hok]|[He ->]] Ht Hf; unfold node_Next; rewrite He; [|by eexists].
  pose proof (peek_ok t it todo Hok Ht Hf) as Hp. unfold step_forward. destruct todo as [|[p s] rest].
  - destruct Hp as (it' & ->). by eexists.
  - destruct Hp as (st & hp & it' & rest' & -> & _ & Hat & -> & _). cbn [mbind outcome_bind].
    assert (push st hp p (it'<| it_err := None |>) = (push st hp p it')<| it_err := None |>) as -> by done.
    eexists. split; [done|]. pose proof (at_node_err _ _ _ _ _ None Hat) as Hat'. split; [by apply at_node_ready|].
    destruct Hat' as (_ & Ep & b & st' & stack & q & E & Hr & Hh & _). split; [done|]. by exists b, st', stack.
Qed.

Lemma leaf_read n p v b st stack k :
  it_path n = p → it_stack n = st :: stack → rep V b (ns_node st) (TVal v) → is_hash (ns_node st) = false →
  Forall is_byte k → p = keybytesToHex k → LeafKey n = Ret k ∧ LeafBlob n = Ret v.
Proof.
  intros Ep Es Hr Hh Hk ->. unfold LeafKey, LeafBlob. rewrite Es.
  destruct (rep_nonhash_cases b _ _ Hr Hh) as [(_ & E)|[(w & En & E)|[(? & ? & ? & ? & _ & E & _)|(? & ? & ? & _ & E & _)]]]; try done.
  injection E as ->. destruct st as [? nd ? ? ?]. cbn in En. subst nd. rewrite Ep. split; [by apply hexToKeybytes_keybytesToHex|done].
Qed.

(** [Next] finds the next leaf. *)
Lemma next_leaf_ok t fuel fuel' it todo :
  ready t (i_nodeIt it) todo → root_tree t → fine t → Forall node_good todo → (length todo < fuel)%nat →
  match leaves todo with
  | [] => ∃ it', next_leaf V fuel fuel' it = Ret (false, it') ∧ i_Err it' = None
  | (k, v) :: rest => ∃ it' todo', next_leaf V fuel fuel' it = Ret (true, it') ∧ i_Key it' = k ∧ i_Value it' = v ∧
      ready t (i_nodeIt it') todo' ∧ leaves todo' = rest ∧ Forall node_good todo' ∧ (length todo' < length todo)%nat
  end.
Proof.
  intros Hr Ht Hf. revert it todo Hr. induction fuel as [|fuel IH]; intros it todo Hr Hg Hlen; [lia|].
  cbn [next_leaf]. pose proof (node_Next_ok t fuel' (i_nodeIt it) todo Hr Ht Hf) as Hn.
  destruct todo as [|[p s] rest].
  - destruct Hn as (it' & -> & He). cbn. eexists. split; [done|]. cbn. unfold node_Error. by rewrite He.
  - destruct Hn as (n & -> & Hr' & Ep & b & st & stack & Es & Hrep & Hh). cbn [mbind outcome_bind].
    inversion Hg as [|? ? Hx Hg']; subst. unfold node_good in Hx. unfold Leaf. cbn in Hx.
    destruct s as [|v|k0 c|cs].
    2: { destruct Hx as [-> (k & Hk & Ek)]. destruct (leaf_read n _ v b st stack k eq_refl Es Hrep Hh Hk Ek) as [-> ->].
         cbn [mbind outcome_bind leaves omap list_omap leaf_entry fst snd].
         rewrite Ek, (hexToKeybytes_keybytesToHex k Hk). eexists _, rest. split; [done|]. split_and!; try done. cbn. lia. }
    all: rewrite Hx; cbn [leaves omap list_omap leaf_entry fst snd];
      (specialize (IH (mkIterator n (i_Key it) (i_Value it) (i_Err it)) rest Hr' Hg'); cbn in Hlen;
       specialize (IH ltac:(lia)); unfold leaves in *; destruct (omap leaf_entry rest) as [|[k v] l];
       [done|destruct IH as (it' & todo' & E & ? & ? & ? & ? & ? & ?); exists it', todo'; split_and!; try done; cbn; lia]).
Qed.

(** The loop over all entries. *)
Lemma entries_ok t n fuel it todo :
  ready t (i_nodeIt it) todo → root_tree t → fine t → Forall node_good todo →
  (length todo < fuel)%nat → (length todo < n)%nat →
  ∃ it', entries V n fuel it = Ret (leaves todo, it') ∧ i_Err it' = None.
Proof.
  intros Hr Ht Hf. revert it todo Hr. induction n as [|n IH]; intros it todo Hr Hg Hlen Hn; [lia|].
  cbn [entries]. unfold Next. pose proof (next_leaf_ok t fuel fuel it todo Hr Ht Hf Hg Hlen) as H.
  destruct (leaves todo) as [|[k v] rest].
  - destruct H as (it' & -> & He). by exists it'.
  - destruct H as (it' & todo' & -> & <- & <- & Hr' & <- & Hg' & Hl). cbn [mbind outcome_bind].
    destruct (IH it' todo' Hr' Hg') as (it'' & -> & He); [lia|lia|]. by exists it''.
Qed.

Lemma newNodeIterator_ok t fuel root start :
  rep V true root t → root_tree t → fine t → tree_root t ≠ emptyState → (length (pre [] t) < fuel)%nat →
  ∃ it, newNodeIterator V fuel root start = Ret it ∧ ready t it (from_key (nibbles_of start) (pre [] t)).
Proof.
  intros Hr Ht Hf Hne Hfuel. unfold newNodeIterator. destruct (Hash_spec V root t Hr Ht Hf) as (root' & -> & Hr').
  cbn [mbind outcome_bind]. rewrite bool_decide_eq_false_2 by done. unfold seek, keybytesToHex. rewrite chop_snoc.
  destruct (seek_loop_ok t fuel start (nibbles_of start) (mkNodeIterator (Some root') [] [] None) (pre [] t))
    as (e & it & -> & Hre); [done|done|by apply pre_sorted, minimal_keyed|done| |by eexists].
  left. split; [done|]. split; [|done]. split; [by exists root'|by left].
Qed.
End walk.

(** ** Iteration *)

(** [NewIterator(trie.NodeIterator(start))] and the loop over its entries. *)
Definition iterate `{KeccakLib} (V : bytes → outcome (option node)) (fuel : nat) (root : node) (start : bytes)
    : outcome (list (bytes * bytes) * Iterator) :=
  it ← newNodeIterator V fuel root start; entries V fuel fuel (NewIterator it).

Definition key_lt (a b : bytes * bytes) : Prop := blt (keybytesToHex a.1) (keybytesToHex b.1).

Lemma leaf_entry_good x k v : node_good x → leaf_entry x = Some (k, v) ↔
  Forall is_byte k ∧ x = (keybytesToHex k, TVal v).
Proof.
  destruct x as [p s]. unfold node_good, leaf_entry. cbn. destruct s as [|w|? ?|?]; try naive_solver.
  intros [_ (k' & Hk' & ->)]. rewrite (hexToKeybytes_keybytesToHex k' Hk'). split; [naive_solver|].
  intros [Hk [= E ->]]. apply keybytesToHex_inj in E; [|done..]. by subst.
Qed.

Lemma elem_of_leaves l k v : Forall node_good l →
  (k, v) ∈ leaves l ↔ Forall is_byte k ∧ (keybytesToHex k, TVal v) ∈ l.
Proof.
  intros Hg. unfold leaves. rewrite list_elem_of_omap. rewrite Forall_forall in Hg. split.
  - intros (x & Hx & E). by apply leaf_entry_good in E as [? ->]; [|by apply Hg].
  - intros [Hk Hx]. eexists. split; [exact Hx|]. apply leaf_entry_good; [by apply Hg|done].
Qed.

Lemma leaves_sorted l : StronglySorted path_lt l → Forall node_good l → StronglySorted key_lt (leaves l).
Proof.
  induction 1 as [|x l Hs IH Hx]; intros Hg; [constructor|]. inversion Hg as [|? ? Hgx Hgl]; subst. unfold leaves.
  cbn [omap list_omap]. destruct (leaf_entry x) as [[k v]|] eqn:E; [|by apply IH]. constructor; [by apply IH|].
  apply leaf_entry_good in E as [Hk ->]; [|done]. apply Forall_forall. intros [k' v'] Hin.
  fold (leaves l) in Hin. apply elem_of_leaves in Hin as [_ Hin]; [|done]. rewrite Forall_forall in Hx.
  by apply (Hx _ Hin).
Qed.

Lemma sorted_filter P `{∀ x, Decision (P x)} l : StronglySorted path_lt l → StronglySorted path_lt (filter P l).
Proof.
  induction 1 as [|x l Hs IH Hx]; [constructor|]. destruct (decide (P x)).
  - rewrite filter_cons_True by done. constructor; [done|]. rewrite Forall_forall in Hx |- *.
    intros y Hy. apply list_elem_of_filter in Hy as [_ Hy]. by apply Hx.
  - by rewrite filter_cons_False.
Qed.

Section property.
  Context {KL : KeccakLib} {KLaws : KeccakLaws}.

(** The entries that an iteration from a start key lists. *)
Definition listing (start : bytes) (t : tree) : list (bytes * bytes) := leaves (from_key (nibbles_of start) (pre [] t)).

Lemma from_key_good start t m : holds t m → Forall node_good (from_key (nibbles_of start) (pre [] t)).
Proof.
  intros Hh. pose proof (pre_good t m Hh) as Hall. rewrite Forall_forall in Hall |- *. intros x Hx. apply Hall.
  by apply list_elem_of_filter in Hx as [_ Hx].
Qed.

Lemma iterate_listing V root t m start fuel :
  rep V true root t → holds t m → fine t → tree_root t ≠ emptyState → (length (pre [] t) < fuel)%nat →
  ∃ it, iterate V fuel root start = Ret (listing start t, it) ∧ i_Err it = None.
Proof.
  intros Hr Hh Hf Hne Hfuel. pose proof Hh as (Ht & _). unfold iterate.
  destruct (newNodeIterator_ok V t fuel root start Hr Ht Hf Hne Hfuel) as (it & -> & Hre). cbn [mbind outcome_bind].
  assert (length (from_key (nibbles_of start) (pre [] t)) <= length (pre [] t))%nat by by apply length_filter.
  destruct (entries_ok V t fuel fuel (NewIterator it) _ Hre Ht Hf (from_key_good start t m Hh)) as (it' & -> & He);
    [lia|lia|]. by exists it'.
Qed.

Lemma elem_of_listing t m start k v : holds t m →
  (k, v) ∈ listing start t ↔ Forall is_byte k ∧ m !! k = Some v ∧ 0 <= bytes_Compare (keybytesToHex k) (nibbles_of start).
Proof.
  intros Hh. pose proof Hh as (_ & _ & Hm). unfold listing. rewrite (elem_of_leaves _ k v (from_key_good start t m Hh)).
  unfold from_key. rewrite list_elem_of_filter. cbn. split.
  - intros (Hk & Hge & Hin). apply pre_leaf in Hin as (r & Er & Hv). cbn in Er. subst r. by rewrite Hm in Hv.
  - intros (Hk & Hv & Hge). split_and!; try done. apply (leaf_pre [] t (keybytesToHex k) v); [|by rewrite Hm].
    destruct (keybytesToHex_key k Hk) as (q & Hq & ->). apply Forall_app. split; [|by repeat constructor].
    eapply Forall_impl; [exact Hq|]. unfold nib. lia.
Qed.

(** C18. Iterating a trie visits the map. The key-value iterator, started at any key on
    a trie in memory that represents a map, with any part of it still in the database,
    ends without a panic and without an error, and has then visited each once exactly
    the entries whose hex key, with its terminator, is not below the nibbles of the
    start key, in the order of these hex keys: a key comes after the keys that it is a
    prefix of. The nodes of the trie encode in less than 2^64 bytes, and its root hash
    is not the hash of the empty string. *)
Theorem iteration_correct V root t m start fuel :
  rep V true root t → holds t m → fine t → tree_root t ≠ emptyState → (length (pre [] t) < fuel)%nat →
  ∃ l it, iterate V fuel root start = Ret (l, it) ∧ i_Err it = None ∧ StronglySorted key_lt l ∧
    ∀ k v, (k, v) ∈ l ↔
      Forall is_byte k ∧ m !! k = Some v ∧ 0 <= bytes_Compare (keybytesToHex k) (nibbles_of start).
Proof.
  intros Hr Hh Hf Hne Hfuel. destruct (iterate_listing V root t m start fuel Hr Hh Hf Hne Hfuel) as (it & E & He).
  exists (listing start t), it. split_and!; [done|done| |intros k v; by apply elem_of_listing].
  apply leaves_sorted; [|by eapply from_key_good]. apply sorted_filter, pre_sorted, minimal_keyed. apply Hh.
Qed.
End property.

Lemma iteration_correct_witness :
  ∃ it, @iterate toy_keccak nodb 20 demo_root [20] = Ret ([([33], demo_v2)], it) ∧ i_Err it = None.
Proof.
  destruct demo_holds as [Hh Hr].
  pose proof (@iteration_correct toy_keccak _ nodb demo_root demo_tree demo_map [20] 20 Hr Hh demo_fine) as Hw.
  destruct Hw as (l & it & E & He & _); [by vm_compute|vm_compute; lia|].
  exists it. split; [|done]. revert E. vm_compute. intros E. injection E as <- <-. done.
Defined.
