(* ===== verification/StateObject.v ===== *)
(** * State objects (core/state/state_object.go, state_object1.go, state_object_delegate.go,
    state_object_reward.go, core/state/database.go)

    An account that a block modifies: its consensus data, the caches of its five tries, and
    the methods that change it.  Every method that changes an account records how to undo
    the change in the journal of the state database.  The file also has the interfaces
    [Database] and [Trie] of core/state/database.go, as a class of operations, and the
    records of the whole state database, since an object and its database refer to each
    other. *)

From Stdlib Require Import ZArith Lia ZifyBool.
From stdpp Require Import base tactics strings numbers gmap list.
From S2P Require Import Prelude Rlp RlpDecode Trie TrieNodes TrieDb.

Local Open Scope Z_scope.
Local Open Scope record_scope.

(** ** The tries and the database below the state *)

(** [OpenTrie], [OpenStorageTrie] and the like have the same body.  A trie operation that
    fails leaves the trie as it was.  A result is a value, an error, or a panic.
    [t_Iterate] is the loop over [trie.NewIterator(t.NodeIterator(nil))] with a bound on its
    steps: the keys and values that it sees. *)
Class StateDatabase (DB T : Type) := {
  OpenTrie : bytes → DB → outcome (T + trieErr);
  t_TryGet : DB → T → bytes → outcome ((option bytes * T) + trieErr);
  t_TryUpdate : DB → T → bytes → bytes → outcome (T + trieErr);
  t_TryDelete : DB → T → bytes → outcome (T + trieErr);
  t_Hash : T → outcome (bytes * T);
  t_GetKey : DB → T → bytes → bytes;
  t_Iterate : nat → DB → T → outcome (list (bytes * bytes) * T);
  t_Commit : option (bytes → bytes → DB → outcome DB) → T → DB → outcome (bytes * T * DB);
  ContractCode : DB → bytes → outcome (option bytes);
  db_InsertBlob : bytes → bytes → DB → outcome DB;
  db_Reference : bytes → bytes → DB → outcome DB
}.

(** The errors that a state object or a state database memoizes. *)
Inductive stErr :=
| ErrTrie (e : trieErr)
| ErrRlp (e : rlpErr)
| ErrOpen (what : string) (e : trieErr)
| ErrCode (codeHash : bytes)
| ErrContent.

(** ** Accounts *)

Record sideChainDepositBalance := mkSideDeposit { sd_ChainId : bytes; sd_DepositBalance : Z }.

(** A nil [big.Int] of the Go struct is zero here; [newObject] replaces it.  A nil
    [CodeHash] is [None]. *)
Record Account := mkAccount {
  acc_Nonce : Z;
  acc_Balance : Z;
  acc_DepositBalance : Z;
  acc_SideChainDepositBalance : list sideChainDepositBalance;
  acc_ChainBalance : Z;
  acc_Root : bytes;
  acc_TX1Root : bytes;
  acc_TX3Root : bytes;
  acc_CodeHash : option bytes;
  acc_DelegateBalance : Z;
  acc_ProxiedBalance : Z;
  acc_DepositProxiedBalance : Z;
  acc_PendingRefundBalance : Z;
  acc_ProxiedRoot : bytes;
  acc_Candidate : bool;
  acc_Commission : Z;
  acc_BlockTime : Z;
  acc_BannedTime : Z;
  acc_IsBanned : bool;
  acc_Pubkey : bytes;
  acc_RewardBalance : Z;
  acc_AvailableRewardBalance : Z;
  acc_RewardRoot : bytes
}.

#[global] Instance Account_set : Settable Account := {| rec_eta := λ a,
  mkAccount (acc_Nonce a) (acc_Balance a) (acc_DepositBalance a) (acc_SideChainDepositBalance a)
    (acc_ChainBalance a) (acc_Root a) (acc_TX1Root a) (acc_TX3Root a) (acc_CodeHash a)
    (acc_DelegateBalance a) (acc_ProxiedBalance a) (acc_DepositProxiedBalance a)
    (acc_PendingRefundBalance a) (acc_ProxiedRoot a) (acc_Candidate a) (acc_Commission a)
    (acc_BlockTime a) (acc_BannedTime a) (acc_IsBanned a) (acc_Pubkey a) (acc_RewardBalance a)
    (acc_AvailableRewardBalance a) (acc_RewardRoot a) |}.

Definition zeroAccount : Account :=
  mkAccount 0 0 0 [] 0 zeroHash zeroHash zeroHash None 0 0 0 0 zeroHash false 0 0 0 false [] 0 0 zeroHash.

(** *** The delegated balance of one user *)

Record accountProxiedBalance := mkProxied {
  pb_ProxiedBalance : Z;
  pb_DepositProxiedBalance : Z;
  pb_PendingRefundBalance : Z
}.

#[global] Instance accountProxiedBalance_set : Settable accountProxiedBalance := {| rec_eta := λ a,
  mkProxied (pb_ProxiedBalance a) (pb_DepositProxiedBalance a) (pb_PendingRefundBalance a) |}.

Definition NewAccountProxiedBalance : accountProxiedBalance := mkProxied 0 0 0.

(** The methods take a pointer: reading a field of nil panics.  [Equal] compares with nil
    before it reads. *)
Definition pb_Copy (a : option accountProxiedBalance) : outcome accountProxiedBalance :=
  match a with Some a => Ret a | None => Panic "nil pointer dereference" end.

Definition pb_Equal (a b : option accountProxiedBalance) : outcome bool :=
  match b with
  | None => Ret false
  | Some b =>
      match a with
      | None => Panic "nil pointer dereference"
      | Some a =>
          Ret ((pb_ProxiedBalance a =? pb_ProxiedBalance b) &&
               (pb_DepositProxiedBalance a =? pb_DepositProxiedBalance b) &&
               (pb_PendingRefundBalance a =? pb_PendingRefundBalance b))
      end
  end.

Definition pb_IsEmpty (a : option accountProxiedBalance) : outcome bool :=
  match a with
  | None => Panic "nil pointer dereference"
  | Some a =>
      Ret ((pb_ProxiedBalance a =? 0) && (pb_DepositProxiedBalance a =? 0) && (pb_PendingRefundBalance a =? 0))
  end.

(** Maps that hold pointers; [None] is a nil pointer in the map. *)
Abbreviation Storage := (gmap bytes bytes).
Abbreviation Proxied := (gmap bytes (option accountProxiedBalance)).
Abbreviation Reward := (gmap bytes (option Z)).

(** [Proxied.Copy] and [Reward.Copy] call the copy of each value, nil or not. *)
Definition Proxied_Copy (p : Proxied) : outcome Proxied :=
  foldr (λ '(k, v) acc, m ← acc; a ← pb_Copy v; Ret (<[k := Some a]> m)) (Ret ∅) (map_to_list p).

Definition Reward_Copy (p : Reward) : outcome Reward :=
  foldr (λ '(k, v) acc, m ← acc;
    match v with Some z => Ret (<[k := Some z]> m) | None => Panic "nil pointer dereference" end)
    (Ret ∅) (map_to_list p).

(** ** The RLP form of accounts and of the values of their tries *)

Definition field (t : ty) : bool * tags * ty := (true, no_tags, t).

Definition side_ty : ty := TPtr (TStruct [field TString; field TBig]).

Definition hash_ty : ty := TByteArray 32.

Definition account_ty : ty :=
  TStruct (field <$> [TUint 64; TBig; TBig; TSlice side_ty; TBig; hash_ty; hash_ty; hash_ty; TBytes;
    TBig; TBig; TBig; TBig; hash_ty; TBool; TUint 8; TBig; TBig; TBool; TString; TBig; TBig; hash_ty]).

Definition side_val (d : sideChainDepositBalance) : val :=
  VPtr (VList [VBytes (sd_ChainId d); VBig (sd_DepositBalance d)]).

Definition account_val (a : Account) : val :=
  VList [VUint (acc_Nonce a); VBig (acc_Balance a); VBig (acc_DepositBalance a);
    VList (side_val <$> acc_SideChainDepositBalance a); VBig (acc_ChainBalance a);
    VBytes (acc_Root a); VBytes (acc_TX1Root a); VBytes (acc_TX3Root a);
    VBytes (default [] (acc_CodeHash a)); VBig (acc_DelegateBalance a); VBig (acc_ProxiedBalance a);
    VBig (acc_DepositProxiedBalance a); VBig (acc_PendingRefundBalance a); VBytes (acc_ProxiedRoot a);
    VBool (acc_Candidate a); VUint (acc_Commission a); VBig (acc_BlockTime a); VBig (acc_BannedTime a);
    VBool (acc_IsBanned a); VBytes (acc_Pubkey a); VBig (acc_RewardBalance a);
    VBig (acc_AvailableRewardBalance a); VBytes (acc_RewardRoot a)].

Definition val_side (v : val) : option sideChainDepositBalance :=
  match v with
  | VPtr (VList [VBytes id; VBig d]) => Some (mkSideDeposit id d)
  | _ => None
  end.

Definition val_account (v : val) : option Account :=
  match v with
  | VList [VUint nonce; VBig bal; VBig dep; VList sides; VBig chain; VBytes root; VBytes tx1; VBytes tx3;
           VBytes code; VBig dlg; VBig prx; VBig dprx; VBig pend; VBytes proot; VBool cand; VUint comm;
           VBig bt; VBig bant; VBool banned; VBytes pub; VBig rew; VBig avail; VBytes rroot] =>
      sides ← mapM val_side sides;
      Some (mkAccount nonce bal dep sides chain root tx1 tx3 (Some code) dlg prx dprx pend proot cand comm
              bt bant banned pub rew avail rroot)
  | _ => None
  end.

(** The fuel of the decoder: more than the nesting of the type and the number of values
    that the input can hold. *)
Definition rlp_fuel (b : bytes) : nat := 64 + 2 * length b.

(** [rlp.DecodeBytes(enc, &data)] *)
Definition decodeAccount (enc : bytes) : Account + rlpErr :=
  match DecodeBytes (rlp_fuel enc) account_ty enc with
  | inl v => match val_account v with Some a => inl a | None => inr ErrTypeTag end
  | inr e => inr e
  end.

Definition proxied_ty : ty := TStruct (field <$> [TBig; TBig; TBig]).

Definition proxied_val (a : accountProxiedBalance) : val :=
  VList [VBig (pb_ProxiedBalance a); VBig (pb_DepositProxiedBalance a); VBig (pb_PendingRefundBalance a)].

(** A balance that the decoder did not reach is nil in Go and zero here. *)
Definition decodeProxied (enc : bytes) : accountProxiedBalance * option rlpErr :=
  match DecodeBytes (rlp_fuel enc) proxied_ty enc with
  | inl (VList [VBig p; VBig d; VBig r]) => (mkProxied p d r, None)
  | inl _ => (NewAccountProxiedBalance, Some ErrTypeTag)
  | inr e => (NewAccountProxiedBalance, Some e)
  end.

Definition decodeBig (enc : bytes) : Z * option rlpErr :=
  match DecodeBytes (rlp_fuel enc) TBig enc with
  | inl (VBig z) => (z, None)
  | inl _ => (0, Some ErrTypeTag)
  | inr e => (0, Some e)
  end.

(** [v, _ := rlp.EncodeToBytes(x)]: the error is dropped. *)
Definition encode_or_nil (t : ty) (v : val) : bytes :=
  match EncodeToBytes t v with inl b => b | inr _ => [] end.

(** [bytes.TrimLeft(b, "\x00")] *)
Fixpoint TrimLeft0 (b : bytes) : bytes :=
  match b with 0 :: b => TrimLeft0 b | _ => b end.

(** ** State objects, the journal and the state database *)

Record Log := mkLog {
  log_Address : bytes;
  log_Topics : list bytes;
  log_Data : bytes;
  log_BlockNumber : Z;
  log_TxHash : bytes;
  log_TxIndex : Z;
  log_BlockHash : bytes;
  log_Index : Z;
  log_Removed : bool
}.

#[global] Instance Log_set : Settable Log := {| rec_eta := λ l,
  mkLog (log_Address l) (log_Topics l) (log_Data l) (log_BlockNumber l) (log_TxHash l) (log_TxIndex l)
    (log_BlockHash l) (log_Index l) (log_Removed l) |}.

Section state.
  Context {DB T : Type}.

(** The pointer to the database is an argument of the methods.  [so_onDirty] says whether
    the callback is still set; it is [MarkStateObjectDirty] of the database. *)
Record stateObject := mkObject {
  so_address : bytes;
  so_addrHash : bytes;
  so_data : Account;
  so_dbErr : option stErr;
  so_trie : option T;
  so_code : option bytes;
  so_originStorage : Storage;
  so_dirtyStorage : Storage;
  so_tx1Trie : option T;
  so_tx3Trie : option T;
  so_dirtyTX1 : gset bytes;
  so_dirtyTX3 : gset bytes;
  so_proxiedTrie : option T;
  so_originProxied : Proxied;
  so_dirtyProxied : Proxied;
  so_rewardTrie : option T;
  so_originReward : Reward;
  so_dirtyReward : Reward;
  so_dirtyCode : bool;
  so_suicided : bool;
  so_touched : bool;
  so_deleted : bool;
  so_onDirty : bool
}.

#[global] Instance stateObject_set : Settable stateObject := {| rec_eta := λ o,
  mkObject (so_address o) (so_addrHash o) (so_data o) (so_dbErr o) (so_trie o) (so_code o)
    (so_originStorage o) (so_dirtyStorage o) (so_tx1Trie o) (so_tx3Trie o) (so_dirtyTX1 o) (so_dirtyTX3 o)
    (so_proxiedTrie o) (so_originProxied o) (so_dirtyProxied o) (so_rewardTrie o) (so_originReward o)
    (so_dirtyReward o) (so_dirtyCode o) (so_suicided o) (so_touched o) (so_deleted o) (so_onDirty o) |}.

Inductive journalEntry :=
| createObjectChange (account : bytes)
| resetObjectChange (prev : stateObject)
| suicideChange (account : bytes) (prev : bool) (prevbalance : Z)
| balanceChange (account : bytes) (prev : Z)
| depositBalanceChange (account : bytes) (prev : Z)
| sideChainDepositBalanceChange (account : bytes) (chainId : bytes) (prev : Z)
| chainBalanceChange (account : bytes) (prev : Z)
| delegateBalanceChange (account : bytes) (prev : Z)
| proxiedBalanceChange (account : bytes) (prev : Z)
| depositProxiedBalanceChange (account : bytes) (prev : Z)
| pendingRefundBalanceChange (account : bytes) (prev : Z)
| rewardBalanceChange (account : bytes) (prev : Z)
| availableRewardBalanceChange (account : bytes) (prev : Z)
| nonceChange (account : bytes) (prev : Z)
| storageChange (account : bytes) (key prevalue : bytes)
| addTX1Change (account : bytes) (txHash : bytes)
| addTX3Change (account : bytes) (txHash : bytes)
| accountProxiedBalanceChange (account : bytes) (key : bytes) (prevalue : option accountProxiedBalance)
| delegateRewardBalanceChange (account : bytes) (key : bytes) (prevalue : option Z)
| candidateChange (account : bytes) (prev : bool)
| pubkeyChange (account : bytes) (prev : bytes)
| commissionChange (account : bytes) (prev : Z)
| bannedChange (account : bytes) (prev : bool)
| blockTimeChange (account : bytes) (prev : Z)
| bannedTimeChange (account : bytes) (prev : Z)
| codeChange (account : bytes) (prevcode : option bytes) (prevhash : bytes)
| refundChange (prev : Z)
| addLogChange (txhash : bytes)
| addPreimageChange (hash : bytes)
| touchChange (account : bytes) (prev prevDirty : bool).

Record revision := mkRevision { rev_id : Z; rev_journalIndex : nat }.

(** The four address sets may be nil maps ([None]). *)
Record StateDB := mkStateDB {
  s_db : DB;
  s_trie : T;
  s_stateObjects : gmap bytes stateObject;
  s_stateObjectsDirty : gset bytes;
  s_delegateRefundSet : option (gset bytes);
  s_delegateRefundSetDirty : bool;
  s_rewardSet : option (gset bytes);
  s_rewardSetDirty : bool;
  s_candidateSet : option (gset bytes);
  s_candidateSetDirty : bool;
  s_bannedSet : option (gset bytes);
  s_bannedSetDirty : bool;
  s_sideChainRewardPerBlock : option Z;
  s_sideChainRewardPerBlockDirty : bool;
  s_dbErr : option stErr;
  s_refund : Z;
  s_thash : bytes;
  s_bhash : bytes;
  s_txIndex : Z;
  s_logs : gmap bytes (list Log);
  s_logSize : Z;
  s_preimages : gmap bytes bytes;
  s_journal : list journalEntry;
  s_validRevisions : list revision;
  s_nextRevisionId : Z
}.

#[global] Instance StateDB_set : Settable StateDB := {| rec_eta := λ s,
  mkStateDB (s_db s) (s_trie s) (s_stateObjects s) (s_stateObjectsDirty s) (s_delegateRefundSet s)
    (s_delegateRefundSetDirty s) (s_rewardSet s) (s_rewardSetDirty s) (s_candidateSet s) (s_candidateSetDirty s)
    (s_bannedSet s) (s_bannedSetDirty s) (s_sideChainRewardPerBlock s) (s_sideChainRewardPerBlockDirty s)
    (s_dbErr s) (s_refund s) (s_thash s) (s_bhash s) (s_txIndex s) (s_logs s) (s_logSize s) (s_preimages s)
    (s_journal s) (s_validRevisions s) (s_nextRevisionId s) |}.
End state.

Arguments stateObject T : clear implicits.
Arguments journalEntry T : clear implicits.
Arguments StateDB DB T : clear implicits.

(** ** Methods of state objects *)

Section methods.
  Context {DB T : Type} {SD : StateDatabase DB T} {KL : KeccakLib}.

(** A method works on the object and its database. *)
Local Abbreviation OM := (stM (stateObject T * StateDB DB T)).

Definition self : OM (stateObject T) := λ '(o, s), Ret (o, (o, s)).
Definition self_db : OM (StateDB DB T) := λ '(o, s), Ret (s, (o, s)).
Definition modify_self (f : stateObject T → stateObject T) : OM () := λ '(o, s), Ret ((), (f o, s)).

Definition emptyCodeHash : bytes := keccak256 [].

Definition CodeHash (o : stateObject T) : bytes := default [] (acc_CodeHash (so_data o)).

Definition empty (o : stateObject T) : bool :=
  let d := so_data o in
  (acc_Nonce d =? 0) && (acc_Balance d =? 0) && bytes_Equal (CodeHash o) emptyCodeHash &&
  (acc_DepositBalance d =? 0) && (length (acc_SideChainDepositBalance d) =? 0)%nat &&
  (acc_ChainBalance d =? 0) && (acc_DelegateBalance d =? 0) && (acc_ProxiedBalance d =? 0) &&
  (acc_DepositProxiedBalance d =? 0) && (acc_PendingRefundBalance d =? 0) &&
  (acc_AvailableRewardBalance d =? 0).

Definition newObject (address : bytes) (data : Account) (onDirty : bool) : stateObject T :=
  let data := data<| acc_CodeHash := Some (default emptyCodeHash (acc_CodeHash data)) |> in
  mkObject address (keccak256 address) data None None None ∅ ∅ None None ∅ ∅ None ∅ ∅ None ∅ ∅
    false false false false onDirty.

Definition so_setError (err : option stErr) : OM () :=
  modify_self (λ o, match so_dbErr o with None => o<| so_dbErr := err |> | Some _ => o end).

(** [if self.onDirty != nil { self.onDirty(self.Address()); self.onDirty = nil }] *)
Definition mark_dirty : OM () := λ '(o, s),
  if so_onDirty o
  then Ret ((), (o<| so_onDirty := false |>, s<| s_stateObjectsDirty ::= λ d, {[so_address o]} ∪ d |>))
  else Ret ((), (o, s)).

(** [self.db.journal = append(self.db.journal, e)] *)
Definition jot (e : stateObject T → journalEntry T) : OM () := λ '(o, s),
  Ret ((), (o, s<| s_journal ::= λ j, j ++ [e o] |>)).

Definition markSuicided : OM () := modify_self (λ o, o<| so_suicided := true |>);; mark_dirty.

Definition touch : OM () :=
  jot (λ o, touchChange (so_address o) (so_touched o) (negb (so_onDirty o)));;
  mark_dirty;;
  modify_self (λ o, o<| so_touched := true |>).

(** The lower-case setters: change the data, then report the object dirty. *)
Definition set_data (f : Account → Account) : OM () :=
  modify_self (λ o, o<| so_data ::= f |>);; mark_dirty.

(** The additions do nothing for zero, except that they touch an empty account. *)
Definition add_amount (amount : Z) (set : stateObject T → OM ()) : OM () :=
  o ← self;
  if amount =? 0 then (if empty o then touch else mret ()) else set o.

Definition sub_amount (amount : Z) (set : stateObject T → OM ()) : OM () :=
  o ← self;
  if amount =? 0 then mret () else set o.

(** *** Balances *)

Definition setBalance (amount : Z) : OM () := set_data (λ d, d<| acc_Balance := amount |>).

Definition SetBalance (amount : Z) : OM () :=
  jot (λ o, balanceChange (so_address o) (acc_Balance (so_data o)));; setBalance amount.

Definition AddBalance (amount : Z) : OM () :=
  add_amount amount (λ c, SetBalance (acc_Balance (so_data c) + amount)).

Definition SubBalance (amount : Z) : OM () :=
  sub_amount amount (λ c, SetBalance (acc_Balance (so_data c) - amount)).

Definition setDepositBalance (amount : Z) : OM () := set_data (λ d, d<| acc_DepositBalance := amount |>).

Definition SetDepositBalance (amount : Z) : OM () :=
  jot (λ o, depositBalanceChange (so_address o) (acc_DepositBalance (so_data o)));; setDepositBalance amount.

Definition AddDepositBalance (amount : Z) : OM () :=
  add_amount amount (λ c, SetDepositBalance (acc_DepositBalance (so_data c) + amount)).

Definition SubDepositBalance (amount : Z) : OM () :=
  sub_amount amount (λ c, SetDepositBalance (acc_DepositBalance (so_data c) - amount)).

Definition setChainBalance (amount : Z) : OM () := set_data (λ d, d<| acc_ChainBalance := amount |>).

Definition SetChainBalance (amount : Z) : OM () :=
  jot (λ o, chainBalanceChange (so_address o) (acc_ChainBalance (so_data o)));; setChainBalance amount.

Definition AddChainBalance (amount : Z) : OM () :=
  add_amount amount (λ c, SetChainBalance (acc_ChainBalance (so_data c) + amount)).

Definition SubChainBalance (amount : Z) : OM () :=
  sub_amount amount (λ c, SetChainBalance (acc_ChainBalance (so_data c) - amount)).

Definition setDelegateBalance (amount : Z) : OM () := set_data (λ d, d<| acc_DelegateBalance := amount |>).

Definition SetDelegateBalance (amount : Z) : OM () :=
  jot (λ o, delegateBalanceChange (so_address o) (acc_DelegateBalance (so_data o)));; setDelegateBalance amount.

Definition AddDelegateBalance (amount : Z) : OM () :=
  add_amount amount (λ c, SetDelegateBalance (acc_DelegateBalance (so_data c) + amount)).

Definition SubDelegateBalance (amount : Z) : OM () :=
  sub_amount amount (λ c, SetDelegateBalance (acc_DelegateBalance (so_data c) - amount)).

Definition setProxiedBalance (amount : Z) : OM () := set_data (λ d, d<| acc_ProxiedBalance := amount |>).

Definition SetProxiedBalance (amount : Z) : OM () :=
  jot (λ o, proxiedBalanceChange (so_address o) (acc_ProxiedBalance (so_data o)));; setProxiedBalance amount.

Definition AddProxiedBalance (amount : Z) : OM () :=
  add_amount amount (λ c, SetProxiedBalance (acc_ProxiedBalance (so_data c) + amount)).

Definition SubProxiedBalance (amount : Z) : OM () :=
  sub_amount amount (λ c, SetProxiedBalance (acc_ProxiedBalance (so_data c) - amount)).

Definition setDepositProxiedBalance (amount : Z) : OM () :=
  set_data (λ d, d<| acc_DepositProxiedBalance := amount |>).

Definition SetDepositProxiedBalance (amount : Z) : OM () :=
  jot (λ o, depositProxiedBalanceChange (so_address o) (acc_DepositProxiedBalance (so_data o)));;
  setDepositProxiedBalance amount.

Definition AddDepositProxiedBalance (amount : Z) : OM () :=
  add_amount amount (λ c, SetDepositProxiedBalance (acc_DepositProxiedBalance (so_data c) + amount)).

Definition SubDepositProxiedBalance (amount : Z) : OM () :=
  sub_amount amount (λ c, SetDepositProxiedBalance (acc_DepositProxiedBalance (so_data c) - amount)).

Definition setPendingRefundBalance (amount : Z) : OM () :=
  set_data (λ d, d<| acc_PendingRefundBalance := amount |>).

Definition SetPendingRefundBalance (amount : Z) : OM () :=
  jot (λ o, pendingRefundBalanceChange (so_address o) (acc_PendingRefundBalance (so_data o)));;
  setPendingRefundBalance amount.

Definition AddPendingRefundBalance (amount : Z) : OM () :=
  add_amount amount (λ c, SetPendingRefundBalance (acc_PendingRefundBalance (so_data c) + amount)).

Definition SubPendingRefundBalance (amount : Z) : OM () :=
  sub_amount amount (λ c, SetPendingRefundBalance (acc_PendingRefundBalance (so_data c) - amount)).

Definition setRewardBalance (amount : Z) : OM () := set_data (λ d, d<| acc_RewardBalance := amount |>).

Definition SetRewardBalance (amount : Z) : OM () :=
  jot (λ o, rewardBalanceChange (so_address o) (acc_RewardBalance (so_data o)));; setRewardBalance amount.

Definition AddRewardBalance (amount : Z) : OM () :=
  add_amount amount (λ c, SetRewardBalance (acc_RewardBalance (so_data c) + amount)).

Definition SubRewardBalance (amount : Z) : OM () :=
  sub_amount amount (λ c, SetRewardBalance (acc_RewardBalance (so_data c) - amount)).

Definition setAvailableRewardBalance (amount : Z) : OM () :=
  set_data (λ d, d<| acc_AvailableRewardBalance := amount |>).

Definition SetAvailableRewardBalance (amount : Z) : OM () :=
  jot (λ o, availableRewardBalanceChange (so_address o) (acc_AvailableRewardBalance (so_data o)));;
  setAvailableRewardBalance amount.

Definition AddAvailableRewardBalance (amount : Z) : OM () :=
  add_amount amount (λ c, SetAvailableRewardBalance (acc_AvailableRewardBalance (so_data c) + amount)).

Definition SubAvailableRewardBalance (amount : Z) : OM () :=
  sub_amount amount (λ c, SetAvailableRewardBalance (acc_AvailableRewardBalance (so_data c) - amount)).

(** *** Deposits of side chains: a list searched from the front *)

Fixpoint side_index (l : list sideChainDepositBalance) (chainId : bytes) : option nat :=
  match l with
  | [] => None
  | d :: l => if bytes_Equal (sd_ChainId d) chainId then Some O else S <$> side_index l chainId
  end.

Definition SideChainDepositBalance (o : stateObject T) (chainId : bytes) : Z :=
  match side_index (acc_SideChainDepositBalance (so_data o)) chainId with
  | Some i => default 0 (sd_DepositBalance <$> acc_SideChainDepositBalance (so_data o) !! i)
  | None => 0
  end.

(** The index of the entry of a chain, appended with zero when there is none. *)
Definition find_or_append (chainId : bytes) : OM nat :=
  o ← self;
  match side_index (acc_SideChainDepositBalance (so_data o)) chainId with
  | Some i => mret i
  | None =>
      let l := acc_SideChainDepositBalance (so_data o) ++ [mkSideDeposit chainId 0] in
      modify_self (λ o, o<| so_data ::= λ d, d<| acc_SideChainDepositBalance := l |> |>);;
      mret (length l - 1)%nat
  end.

Definition setSideChainDepositBalance (index : nat) (amount : Z) : OM () :=
  set_data (λ d, d<| acc_SideChainDepositBalance ::=
    alter (λ e, mkSideDeposit (sd_ChainId e) amount) index |>).

Definition SetSideChainDepositBalance (chainId : bytes) (amount : Z) : OM () :=
  index ← find_or_append chainId;
  jot (λ o, sideChainDepositBalanceChange (so_address o) chainId
    (default 0 (sd_DepositBalance <$> acc_SideChainDepositBalance (so_data o) !! index)));;
  setSideChainDepositBalance index amount.

Definition AddSideChainDepositBalance (chainId : bytes) (amount : Z) : OM () :=
  add_amount amount (λ c, SetSideChainDepositBalance chainId (SideChainDepositBalance c chainId + amount)).

Definition SubSideChainDepositBalance (chainId : bytes) (amount : Z) : OM () :=
  sub_amount amount (λ c, SetSideChainDepositBalance chainId (SideChainDepositBalance c chainId - amount)).

(** *** Nonce, code, candidate data *)

Definition setNonce (nonce : Z) : OM () := set_data (λ d, d<| acc_Nonce := nonce |>).

Definition SetNonce (nonce : Z) : OM () :=
  jot (λ o, nonceChange (so_address o) (acc_Nonce (so_data o)));; setNonce nonce.

(** [Code] caches the code it loads; nil is [None]. *)
Definition Code : OM (option bytes) :=
  o ← self;
  match so_code o with
  | Some code => mret (Some code)
  | None =>
      if bytes_Equal (CodeHash o) emptyCodeHash then mret None
      else
        s ← self_db;
        code ← slift (ContractCode (s_db s) (BytesToHash (CodeHash o)));
        (match code with None => so_setError (Some (ErrCode (CodeHash o))) | Some _ => mret () end);;
        modify_self (λ o, o<| so_code := code |>);;
        mret code
  end.

Definition setCode (codeHash : bytes) (code : option bytes) : OM () :=
  modify_self (λ o, o<| so_code := code |><| so_data ::= λ d, d<| acc_CodeHash := Some codeHash |> |>
                     <| so_dirtyCode := true |>);;
  mark_dirty.

Definition SetCode (codeHash : bytes) (code : option bytes) : OM () :=
  prevcode ← Code;
  jot (λ o, codeChange (so_address o) prevcode (CodeHash o));;
  setCode codeHash code.

Definition setCandidate (isCandidate : bool) : OM () := set_data (λ d, d<| acc_Candidate := isCandidate |>).

Definition SetCandidate (isCandidate : bool) : OM () :=
  jot (λ o, candidateChange (so_address o) (acc_Candidate (so_data o)));; setCandidate isCandidate.

Definition setPubkey (pubkey : bytes) : OM () := set_data (λ d, d<| acc_Pubkey := pubkey |>).

Definition SetPubkey (pubkey : bytes) : OM () :=
  jot (λ o, pubkeyChange (so_address o) (acc_Pubkey (so_data o)));; setPubkey pubkey.

Definition setCommission (commission : Z) : OM () := set_data (λ d, d<| acc_Commission := commission |>).

Definition SetCommission (commission : Z) : OM () :=
  jot (λ o, commissionChange (so_address o) (acc_Commission (so_data o)));; setCommission commission.

Definition setBanned (banned : bool) : OM () := set_data (λ d, d<| acc_IsBanned := banned |>).

Definition SetBanned (banned : bool) : OM () :=
  jot (λ o, bannedChange (so_address o) (acc_IsBanned (so_data o)));; setBanned banned.

Definition setBlockTime (blockTime : Z) : OM () := set_data (λ d, d<| acc_BlockTime := blockTime |>).

Definition SetBlockTime (blockTime : Z) : OM () :=
  jot (λ o, blockTimeChange (so_address o) (acc_BlockTime (so_data o)));; setBlockTime blockTime.

Definition setBannedTime (bannedTime : Z) : OM () := set_data (λ d, d<| acc_BannedTime := bannedTime |>).

Definition SetBannedTime (bannedTime : Z) : OM () :=
  jot (λ o, bannedTimeChange (so_address o) (acc_BannedTime (so_data o)));; setBannedTime bannedTime.

(** *** The tries of an account

    A trie is opened on the first access.  When the root can not be opened, the error is
    memoized and an empty trie takes its place. *)

Definition open_cached (what : string) (cached : option T) (root : bytes) : OM T :=
  match cached with
  | Some t => mret t
  | None =>
      s ← self_db;
      r ← slift (OpenTrie root (s_db s));
      match r with
      | inl t => mret t
      | inr e =>
          r ← slift (OpenTrie zeroHash (s_db s));
          so_setError (Some (ErrOpen what e));;
          match r with inl t => mret t | inr _ => spanic "nil pointer dereference" end
      end
  end.

Definition getTrie : OM T :=
  o ← self;
  t ← open_cached "storage" (so_trie o) (acc_Root (so_data o));
  modify_self (λ o, o<| so_trie := Some t |>);; mret t.

Definition getTX1Trie : OM T :=
  o ← self;
  t ← open_cached "TX1" (so_tx1Trie o) (acc_TX1Root (so_data o));
  modify_self (λ o, o<| so_tx1Trie := Some t |>);; mret t.

Definition getTX3Trie : OM T :=
  o ← self;
  t ← open_cached "TX3" (so_tx3Trie o) (acc_TX3Root (so_data o));
  modify_self (λ o, o<| so_tx3Trie := Some t |>);; mret t.

Definition getProxiedTrie : OM T :=
  o ← self;
  t ← open_cached "proxied" (so_proxiedTrie o) (acc_ProxiedRoot (so_data o));
  modify_self (λ o, o<| so_proxiedTrie := Some t |>);; mret t.

Definition getRewardTrie : OM T :=
  o ← self;
  t ← open_cached "reward" (so_rewardTrie o) (acc_RewardRoot (so_data o));
  modify_self (λ o, o<| so_rewardTrie := Some t |>);; mret t.

(** A lookup in a trie of the object, which keeps the nodes that it loaded. *)
Definition trie_get (t : T) (put : T → stateObject T → stateObject T) (key : bytes)
    : OM (option bytes + trieErr) :=
  s ← self_db;
  r ← slift (t_TryGet (s_db s) t key);
  match r with
  | inl (v, t) => modify_self (put t);; mret (inl v)
  | inr e => mret (inr e)
  end.

(** *** Storage *)

(** [_, content, _, err := rlp.Split(enc)]: the content is nil when there is an error. *)
Definition split_content (enc : bytes) : bytes * option rlpErr :=
  match Split enc with
  | inl (_, content, _) => (content, None)
  | inr e => ([], Some e)
  end.

Definition GetCommittedState (key : bytes) : OM bytes :=
  o ← self;
  match so_originStorage o !! key with
  | Some value => mret value
  | None =>
      t ← getTrie;
      r ← trie_get t (λ t o, o<| so_trie := Some t |>) key;
      match r with
      | inr e => so_setError (Some (ErrTrie e));; mret zeroHash
      | inl enc =>
          value ← match default [] enc with
                  | [] => mret zeroHash
                  | enc =>
                      let '(content, err) := split_content enc in
                      (match err with Some e => so_setError (Some (ErrRlp e)) | None => mret () end);;
                      mret (BytesToHash content)
                  end;
          modify_self (λ o, o<| so_originStorage ::= <[key := value]> |>);;
          mret value
      end
  end.

Definition GetState (key : bytes) : OM bytes :=
  o ← self;
  match so_dirtyStorage o !! key with
  | Some value => mret value
  | None => GetCommittedState key
  end.

Definition setState (key value : bytes) : OM () :=
  modify_self (λ o, o<| so_dirtyStorage ::= <[key := value]> |>);; mark_dirty.

Definition SetState (key value : bytes) : OM () :=
  prevalue ← GetState key;
  jot (λ o, storageChange (so_address o) key prevalue);;
  setState key value.

(** *** Cross-chain transactions *)

(** The value of a transaction hash in its trie is the hash without leading zeros. *)
Definition has_tx (t : T) (put : T → stateObject T → stateObject T) (txHash : bytes) : OM bool :=
  r ← trie_get t put txHash;
  match r with
  | inr _ => mret false
  | inl enc =>
      match default [] enc with
      | [] => mret false
      | enc =>
          let '(content, err) := split_content enc in
          match err with
          | Some e => so_setError (Some (ErrRlp e));; mret false
          | None =>
              if bytes_Equal content txHash then mret true
              else so_setError (Some ErrContent);; mret false
          end
      end
  end.

Definition HasTX1 (txHash : bytes) : OM bool :=
  o ← self;
  if bool_decide (txHash ∈ so_dirtyTX1 o) then mret true
  else t ← getTX1Trie; has_tx t (λ t o, o<| so_tx1Trie := Some t |>) txHash.

Definition addTX1 (txHash : bytes) : OM () := modify_self (λ o, o<| so_dirtyTX1 ::= λ d, {[txHash]} ∪ d |>).
Definition removeTX1 (txHash : bytes) : OM () := modify_self (λ o, o<| so_dirtyTX1 ::= λ d, d ∖ {[txHash]} |>).

Definition AddTX1 (txHash : bytes) : OM () := jot (λ o, addTX1Change (so_address o) txHash);; addTX1 txHash.

Definition HasTX3 (txHash : bytes) : OM bool :=
  o ← self;
  if bool_decide (txHash ∈ so_dirtyTX3 o) then mret true
  else t ← getTX3Trie; has_tx t (λ t o, o<| so_tx3Trie := Some t |>) txHash.

Definition addTX3 (txHash : bytes) : OM () := modify_self (λ o, o<| so_dirtyTX3 ::= λ d, {[txHash]} ∪ d |>).
Definition removeTX3 (txHash : bytes) : OM () := modify_self (λ o, o<| so_dirtyTX3 ::= λ d, d ∖ {[txHash]} |>).

Definition AddTX3 (txHash : bytes) : OM () := jot (λ o, addTX3Change (so_address o) txHash);; addTX3 txHash.

(** *** Delegated balances and rewards per user *)

Definition GetAccountProxiedBalance (key : bytes) : OM (option accountProxiedBalance) :=
  o ← self;
  match so_dirtyProxied o !! key, so_originProxied o !! key with
  | Some value, _ | None, Some value => mret value
  | None, None =>
      t ← getProxiedTrie;
      r ← trie_get t (λ t o, o<| so_proxiedTrie := Some t |>) key;
      match r with
      | inr e => so_setError (Some (ErrTrie e));; mret None
      | inl enc =>
          value ← match default [] enc with
                  | [] => mret None
                  | enc =>
                      let '(value, err) := decodeProxied enc in
                      (match err with Some e => so_setError (Some (ErrRlp e)) | None => mret () end);;
                      mret (Some value)
                  end;
          modify_self (λ o, o<| so_originProxied ::= <[key := value]> |>);;
          mret value
      end
  end.

Definition setAccountProxiedBalance (key : bytes) (proxiedBalance : option accountProxiedBalance) : OM () :=
  modify_self (λ o, o<| so_dirtyProxied ::= <[key := proxiedBalance]> |>);; mark_dirty.

Definition SetAccountProxiedBalance (key : bytes) (proxiedBalance : option accountProxiedBalance) : OM () :=
  prevalue ← GetAccountProxiedBalance key;
  jot (λ o, accountProxiedBalanceChange (so_address o) key prevalue);;
  setAccountProxiedBalance key proxiedBalance.

(** The keys of the reward trie are RLP encodings of addresses. *)
Definition reward_key (key : bytes) : bytes := encode_or_nil hash_ty (VBytes key).

Definition GetDelegateRewardBalance (key : bytes) : OM (option Z) :=
  o ← self;
  match so_dirtyReward o !! key, so_originReward o !! key with
  | Some value, _ | None, Some value => mret value
  | None, None =>
      t ← getRewardTrie;
      r ← trie_get t (λ t o, o<| so_rewardTrie := Some t |>) (reward_key key);
      match r with
      | inr e => so_setError (Some (ErrTrie e));; mret None
      | inl enc =>
          value ← match default [] enc with
                  | [] => mret None
                  | enc =>
                      let '(value, err) := decodeBig enc in
                      (match err with Some e => so_setError (Some (ErrRlp e)) | None => mret () end);;
                      mret (Some value)
                  end;
          modify_self (λ o, o<| so_originReward ::= <[key := value]> |>);;
          mret value
      end
  end.

Definition setDelegateRewardBalance (key : bytes) (rewardAmount : option Z) : OM () :=
  modify_self (λ o, o<| so_dirtyReward ::= <[key := rewardAmount]> |>);; mark_dirty.

Definition SetDelegateRewardBalance (key : bytes) (rewardAmount : option Z) : OM () :=
  prevalue ← GetDelegateRewardBalance key;
  jot (λ o, delegateRewardBalanceChange (so_address o) key prevalue);;
  setDelegateRewardBalance key rewardAmount.

End methods.
