(* ===== verification/StateDb.v ===== *)
(** * The state database (core/state/statedb.go, statedb1.go, statedb_delegate.go,
    statedb_reward.go, journal.go)

    The accounts that a block has touched, on top of the account trie.  Every change of an
    account goes through a method of its state object and is recorded in the journal;
    [Snapshot] remembers a position in the journal, and [RevertToSnapshot] undoes the
    entries after it, newest first. *)

From Stdlib Require Import ZArith Lia ZifyBool.
From stdpp Require Import base tactics strings numbers gmap list.
From S2P Require Import Prelude Rlp RlpDecode Trie TrieNodes TrieDb.
From S2P Require Import StateObject.

Local Open Scope Z_scope.
Local Open Scope record_scope.

Section statedb.
  Context {DB T : Type} {SD : StateDatabase DB T} {KL : KeccakLib}.

(** A method of the state database. *)
Local Abbreviation DM := (stM (StateDB DB T)).
Local Abbreviation OM := (stM (stateObject T * StateDB DB T)).

(** [New]: a state on the account trie of a root. *)
Definition New (root : bytes) (db : DB) : outcome (StateDB DB T + trieErr) :=
  r ← OpenTrie root db;
  match r with
  | inr e => Ret (inr e)
  | inl tr =>
      Ret (inl (mkStateDB db tr ∅ ∅ (Some ∅) false (Some ∅) false (Some ∅) false (Some ∅) false None false
        None 0 zeroHash zeroHash 0 ∅ 0 ∅ [] [] 0))
  end.

Definition setError (err : option stErr) : DM () :=
  smod (λ s, match s_dbErr s with None => s<| s_dbErr := err |> | Some _ => s end).

Definition clearJournalAndRefund : DM () :=
  smod (λ s, s<| s_journal := [] |><| s_validRevisions := [] |><| s_refund := 0 |>).

Definition Reset (root : bytes) : DM (option trieErr) :=
  s ← sget;
  r ← slift (OpenTrie root (s_db s));
  match r with
  | inr e => mret (Some e)
  | inl tr =>
      smod (λ s, s<| s_trie := tr |><| s_stateObjects := ∅ |><| s_stateObjectsDirty := ∅ |>
        <| s_delegateRefundSet := Some ∅ |><| s_rewardSet := Some ∅ |><| s_candidateSet := Some ∅ |>
        <| s_bannedSet := Some ∅ |><| s_sideChainRewardPerBlock := None |><| s_thash := zeroHash |>
        <| s_bhash := zeroHash |><| s_txIndex := 0 |><| s_logs := ∅ |><| s_logSize := 0 |>
        <| s_preimages := ∅ |>);;
      clearJournalAndRefund;;
      mret None
  end.

Definition append_journal (e : journalEntry T) : DM () := smod (λ s, s<| s_journal ::= λ j, j ++ [e] |>).

(** ** Logs, preimages, refunds *)

Definition AddLog (log : Log) : DM () :=
  s ← sget;
  append_journal (addLogChange (s_thash s));;
  let log := log<| log_TxHash := s_thash s |><| log_BlockHash := s_bhash s |>
                <| log_TxIndex := u64 (s_txIndex s) |><| log_Index := s_logSize s |> in
  smod (λ s, s<| s_logs ::= <[s_thash s := default [] (s_logs s !! s_thash s) ++ [log]]> |>
              <| s_logSize := u64 (s_logSize s + 1) |>).

Definition GetLogs (hash : bytes) : DM (list Log) := s ← sget; mret (default [] (s_logs s !! hash)).

Definition AddPreimage (hash preimage : bytes) : DM () :=
  s ← sget;
  match s_preimages s !! hash with
  | Some _ => mret ()
  | None =>
      append_journal (addPreimageChange hash);;
      smod (λ s, s<| s_preimages ::= <[hash := preimage]> |>)
  end.

Definition AddRefund (gas : Z) : DM () :=
  s ← sget;
  append_journal (refundChange (s_refund s));;
  smod (λ s, s<| s_refund := u64 (s_refund s + gas) |>).

Definition SubRefund (gas : Z) : DM () :=
  s ← sget;
  append_journal (refundChange (s_refund s));;
  if s_refund s <? gas then spanic "Refund counter below zero"
  else smod (λ s, s<| s_refund := u64 (s_refund s - gas) |>).

Definition GetRefund : DM Z := s ← sget; mret (s_refund s).

Definition Prepare (thash bhash : bytes) (ti : Z) : DM () :=
  smod (λ s, s<| s_thash := thash |><| s_bhash := bhash |><| s_txIndex := ti |>).

(** ** Objects *)

Definition setStateObject (o : stateObject T) : DM () :=
  smod (λ s, s<| s_stateObjects ::= <[so_address o := o]> |>).

(** The object is returned as it is in [s_stateObjects]. *)
Definition getStateObject (addr : bytes) : DM (option (stateObject T)) :=
  s ← sget;
  match s_stateObjects s !! addr with
  | Some obj => mret (if so_deleted obj then None else Some obj)
  | None =>
      r ← slift (t_TryGet (s_db s) (s_trie s) addr);
      '(enc, err) ← match r with
                    | inl (v, t) => smod (λ s, s<| s_trie := t |>);; mret (default [] v, None)
                    | inr e => mret ([], Some (ErrTrie e))
                    end;
      match enc with
      | [] => setError err;; mret None
      | _ =>
          match decodeAccount enc with
          | inr _ => mret None
          | inl data =>
              let obj := newObject addr data true in
              setStateObject obj;; mret (Some obj)
          end
      end
  end.

(** Running a method of an object that [getStateObject] has returned: the object in the map
    is the one the method changes. *)
Definition call {A} (o : stateObject T) (m : OM A) : DM A := λ s,
  match m (o, s) with
  | Ret (a, (o, s)) => Ret (a, s<| s_stateObjects ::= <[so_address o := o]> |>)
  | Panic w => Panic w
  end.

(** The new object is dirty from the start: [setNonce(0)] calls the callback. *)
Definition createObject (addr : bytes) : DM (stateObject T * option (stateObject T)) :=
  prev ← getStateObject addr;
  s ← sget;
  r ← slift (setNonce 0 (newObject addr zeroAccount true, s));
  let '(_, (newobj, s)) := r in
  smod (λ _, s);;
  append_journal (match prev with
                  | None => createObjectChange addr
                  | Some prev => resetObjectChange prev
                  end);;
  setStateObject newobj;;
  mret (newobj, prev).

Definition GetOrNewStateObject (addr : bytes) : DM (stateObject T) :=
  o ← getStateObject addr;
  match o with
  | Some o => if so_deleted o then r ← createObject addr; mret r.1 else mret o
  | None => r ← createObject addr; mret r.1
  end.

(** The balance goes over to the new object. *)
Definition CreateAccount (addr : bytes) : DM () :=
  r ← createObject addr;
  match r with
  | (new, Some prev) => call new (setBalance (acc_Balance (so_data prev)))
  | (_, None) => mret ()
  end.

(** [if stateObject := self.getStateObject(addr); stateObject != nil] *)
Definition if_exists {A} (addr : bytes) (dflt : A) (m : stateObject T → DM A) : DM A :=
  o ← getStateObject addr;
  match o with Some o => m o | None => mret dflt end.

(** [GetOrNewStateObject] is never nil. *)
Definition on_object {A} (addr : bytes) (m : OM A) : DM A :=
  o ← GetOrNewStateObject addr; call o m.

(** ** Queries *)

Definition Exist (addr : bytes) : DM bool := if_exists addr false (λ _, mret true).

Definition Empty (addr : bytes) : DM bool := if_exists addr true (λ o, mret (empty o)).

Definition GetBalance (addr : bytes) : DM Z := if_exists addr 0 (λ o, mret (acc_Balance (so_data o))).

Definition GetNonce (addr : bytes) : DM Z := if_exists addr 0 (λ o, mret (acc_Nonce (so_data o))).

Definition GetCode (addr : bytes) : DM (option bytes) := if_exists addr None (λ o, call o Code).

(** [ContractCodeSize] of the database is the length of the code. *)
Definition GetCodeSize (addr : bytes) : DM Z :=
  if_exists addr 0 (λ o,
    match so_code o with
    | Some code => mret (lenZ code)
    | None =>
        s ← sget;
        code ← slift (ContractCode (s_db s) (BytesToHash (CodeHash o)));
        match code with
        | Some code => mret (lenZ code)
        | None => setError (Some (ErrCode (CodeHash o)));; mret 0
        end
    end).

Definition GetCodeHash (addr : bytes) : DM bytes :=
  if_exists addr zeroHash (λ o, mret (BytesToHash (CodeHash o))).

Definition GetState (addr key : bytes) : DM bytes :=
  if_exists addr zeroHash (λ o, call o (StateObject.GetState key)).

Definition GetCommittedState (addr key : bytes) : DM bytes :=
  if_exists addr zeroHash (λ o, call o (StateObject.GetCommittedState key)).

Definition HasTX1 (addr txHash : bytes) : DM bool := if_exists addr false (λ o, call o (StateObject.HasTX1 txHash)).

Definition HasTX3 (addr txHash : bytes) : DM bool := if_exists addr false (λ o, call o (StateObject.HasTX3 txHash)).

Definition HasSuicided (addr : bytes) : DM bool := if_exists addr false (λ o, mret (so_suicided o)).

Definition GetDepositBalance (addr : bytes) : DM Z := if_exists addr 0 (λ o, mret (acc_DepositBalance (so_data o))).

Definition GetSideChainDepositBalance (chainId addr : bytes) : DM Z :=
  if_exists addr 0 (λ o, mret (SideChainDepositBalance o chainId)).

Definition GetChainBalance (addr : bytes) : DM Z := if_exists addr 0 (λ o, mret (acc_ChainBalance (so_data o))).

Definition GetDelegateBalance (addr : bytes) : DM Z :=
  if_exists addr 0 (λ o, mret (acc_DelegateBalance (so_data o))).

Definition GetTotalProxiedBalance (addr : bytes) : DM Z :=
  if_exists addr 0 (λ o, mret (acc_ProxiedBalance (so_data o))).

Definition GetTotalDepositProxiedBalance (addr : bytes) : DM Z :=
  if_exists addr 0 (λ o, mret (acc_DepositProxiedBalance (so_data o))).

Definition GetTotalPendingRefundBalance (addr : bytes) : DM Z :=
  if_exists addr 0 (λ o, mret (acc_PendingRefundBalance (so_data o))).

Definition GetTotalRewardBalance (addr : bytes) : DM Z :=
  if_exists addr 0 (λ o, mret (acc_RewardBalance (so_data o))).

Definition GetTotalAvailableRewardBalance (addr : bytes) : DM Z :=
  if_exists addr 0 (λ o, mret (acc_AvailableRewardBalance (so_data o))).

(** One of the three balances of a user. *)
Definition by_user (f : accountProxiedBalance → Z) (addr user : bytes) : DM Z :=
  if_exists addr 0 (λ o,
    apb ← call o (GetAccountProxiedBalance user);
    mret (match apb with None => 0 | Some apb => f apb end)).

Definition GetProxiedBalanceByUser : bytes → bytes → DM Z := by_user pb_ProxiedBalance.
Definition GetDepositProxiedBalanceByUser : bytes → bytes → DM Z := by_user pb_DepositProxiedBalance.
Definition GetPendingRefundBalanceByUser : bytes → bytes → DM Z := by_user pb_PendingRefundBalance.

Definition GetRewardBalanceByDelegateAddress (addr deleAddress : bytes) : DM Z :=
  if_exists addr 0 (λ o, r ← call o (GetDelegateRewardBalance deleAddress); mret (default 0 r)).

Definition IsCandidate (addr : bytes) : DM bool := if_exists addr false (λ o, mret (acc_Candidate (so_data o))).

(** [types.EmptyRootHash] *)
Definition EmptyRootHash : bytes :=
  [86; 232; 31; 23; 27; 204; 85; 166; 255; 131; 69; 230; 146; 192; 248; 110; 91; 72; 224; 27; 153; 108; 173; 192;
   1; 98; 47; 181; 227; 99; 180; 33].

Definition IsCleanAddress (addr : bytes) : DM bool :=
  if_exists addr true (λ o,
    mret (negb (acc_Candidate (so_data o)) && bool_decide (acc_ProxiedRoot (so_data o) = EmptyRootHash))).

Definition GetPubkey (addr : bytes) : DM bytes := if_exists addr [] (λ o, mret (acc_Pubkey (so_data o))).

Definition GetCommission (addr : bytes) : DM Z := if_exists addr 0 (λ o, mret (acc_Commission (so_data o))).

(** These three create the account they are asked about. *)
Definition GetBanned (addr : bytes) : DM bool := o ← GetOrNewStateObject addr; mret (acc_IsBanned (so_data o)).

Definition GetBannedTime (addr : bytes) : DM Z := o ← GetOrNewStateObject addr; mret (acc_BannedTime (so_data o)).

Definition GetMinedBlocks (addr : bytes) : DM Z := o ← GetOrNewStateObject addr; mret (acc_BlockTime (so_data o)).

(** ** Updates *)

Definition AddBalance (addr : bytes) (amount : Z) : DM () := on_object addr (StateObject.AddBalance amount).
Definition SubBalance (addr : bytes) (amount : Z) : DM () := on_object addr (StateObject.SubBalance amount).
Definition SetBalance (addr : bytes) (amount : Z) : DM () := on_object addr (StateObject.SetBalance amount).
Definition SetNonce (addr : bytes) (nonce : Z) : DM () := on_object addr (StateObject.SetNonce nonce).

Definition SetCode (addr : bytes) (code : option bytes) : DM () :=
  on_object addr (StateObject.SetCode (keccak256 (default [] code)) code).

Definition SetState (addr key value : bytes) : DM () := on_object addr (StateObject.SetState key value).
Definition AddTX1 (addr txHash : bytes) : DM () := on_object addr (StateObject.AddTX1 txHash).
Definition AddTX3 (addr txHash : bytes) : DM () := on_object addr (StateObject.AddTX3 txHash).

Definition Suicide (addr : bytes) : DM bool :=
  if_exists addr false (λ o,
    append_journal (suicideChange addr (so_suicided o) (acc_Balance (so_data o)));;
    call o (markSuicided;; modify_self (λ o, o<| so_data ::= λ d, d<| acc_Balance := 0 |> |>));;
    mret true).

Definition AddDepositBalance (addr : bytes) (amount : Z) : DM () := on_object addr (StateObject.AddDepositBalance amount).
Definition SubDepositBalance (addr : bytes) (amount : Z) : DM () := on_object addr (StateObject.SubDepositBalance amount).
Definition SetDepositBalance (addr : bytes) (amount : Z) : DM () := on_object addr (StateObject.SetDepositBalance amount).

Definition AddSideChainDepositBalance (addr chainId : bytes) (amount : Z) : DM () :=
  on_object addr (StateObject.AddSideChainDepositBalance chainId amount).
Definition SubSideChainDepositBalance (addr chainId : bytes) (amount : Z) : DM () :=
  on_object addr (StateObject.SubSideChainDepositBalance chainId amount).
Definition SetSideChainDepositBalance (addr chainId : bytes) (amount : Z) : DM () :=
  on_object addr (StateObject.SetSideChainDepositBalance chainId amount).

Definition AddChainBalance (addr : bytes) (amount : Z) : DM () := on_object addr (StateObject.AddChainBalance amount).
Definition SubChainBalance (addr : bytes) (amount : Z) : DM () := on_object addr (StateObject.SubChainBalance amount).
Definition SetChainBalance (addr : bytes) (amount : Z) : DM () := on_object addr (StateObject.SetChainBalance amount).

Definition AddDelegateBalance (addr : bytes) (amount : Z) : DM () := on_object addr (StateObject.AddDelegateBalance amount).
Definition SubDelegateBalance (addr : bytes) (amount : Z) : DM () := on_object addr (StateObject.SubDelegateBalance amount).

Definition AddRewardBalance (addr : bytes) (amount : Z) : DM () := on_object addr (StateObject.AddRewardBalance amount).
Definition SubRewardBalance (addr : bytes) (amount : Z) : DM () := on_object addr (StateObject.SubRewardBalance amount).

(** These two do not create the account. *)
Definition AddAvailableRewardBalance (addr : bytes) (amount : Z) : DM () :=
  if_exists addr () (λ o, call o (StateObject.AddAvailableRewardBalance amount)).
Definition SubAvailableRewardBalance (addr : bytes) (amount : Z) : DM () :=
  if_exists addr () (λ o, call o (StateObject.SubAvailableRewardBalance amount)).

(** A balance of a user and the total of the account change together. *)
Definition change_by_user (addr user : bytes) (f : accountProxiedBalance → accountProxiedBalance) (total : OM ())
    : DM () :=
  on_object addr (
    apb ← GetAccountProxiedBalance user;
    let dirtyApb := match apb with None => NewAccountProxiedBalance | Some apb => apb end in
    SetAccountProxiedBalance user (Some (f dirtyApb));;
    total).

Definition AddProxiedBalanceByUser (addr user : bytes) (amount : Z) : DM () :=
  change_by_user addr user (λ p, p<| pb_ProxiedBalance ::= λ b, b + amount |>) (AddProxiedBalance amount).

Definition SubProxiedBalanceByUser (addr user : bytes) (amount : Z) : DM () :=
  change_by_user addr user (λ p, p<| pb_ProxiedBalance ::= λ b, b - amount |>) (SubProxiedBalance amount).

Definition AddDepositProxiedBalanceByUser (addr user : bytes) (amount : Z) : DM () :=
  change_by_user addr user (λ p, p<| pb_DepositProxiedBalance ::= λ b, b + amount |>)
    (AddDepositProxiedBalance amount).

Definition SubDepositProxiedBalanceByUser (addr user : bytes) (amount : Z) : DM () :=
  change_by_user addr user (λ p, p<| pb_DepositProxiedBalance ::= λ b, b - amount |>)
    (SubDepositProxiedBalance amount).

Definition AddPendingRefundBalanceByUser (addr user : bytes) (amount : Z) : DM () :=
  change_by_user addr user (λ p, p<| pb_PendingRefundBalance ::= λ b, b + amount |>)
    (AddPendingRefundBalance amount).

Definition SubPendingRefundBalanceByUser (addr user : bytes) (amount : Z) : DM () :=
  change_by_user addr user (λ p, p<| pb_PendingRefundBalance ::= λ b, b - amount |>)
    (SubPendingRefundBalance amount).

Definition AddRewardBalanceByDelegateAddress (addr deleAddress : bytes) (amount : Z) : DM () :=
  on_object addr (
    r ← GetDelegateRewardBalance deleAddress;
    let dirty := match r with None => amount | Some r => r + amount end in
    SetDelegateRewardBalance deleAddress (Some dirty);;
    StateObject.AddRewardBalance amount).

Definition SubRewardBalanceByDelegateAddress (addr deleAddress : bytes) (amount : Z) : DM () :=
  on_object addr (
    r ← GetDelegateRewardBalance deleAddress;
    match r with
    | None => spanic "you can't subtract the amount from nil balance, check the code, this should not happen"
    | Some r =>
        SetDelegateRewardBalance deleAddress (Some (r - amount));;
        StateObject.SubRewardBalance amount
    end).

(** *** Candidates *)

Definition SetCommission (addr : bytes) (commission : Z) : DM () := on_object addr (StateObject.SetCommission commission).

Definition ApplyForCandidate (addr pubkey : bytes) (commission : Z) : DM () :=
  on_object addr (SetCandidate true;; StateObject.SetCommission commission;; SetPubkey pubkey).

Definition CancelCandidate (addr : bytes) (allRefund : bool) : DM () :=
  on_object addr (SetCandidate false;; SetPubkey [];;
    if allRefund then StateObject.SetCommission 0 else mret ()).

Definition SetBanned (addr : bytes) (banned : bool) : DM () := on_object addr (StateObject.SetBanned banned).
Definition SetBannedTime (addr : bytes) (t : Z) : DM () := on_object addr (StateObject.SetBannedTime t).
Definition SetMinedBlocks (addr : bytes) (blocks : Z) : DM () := on_object addr (SetBlockTime blocks).
Definition ClearCommission (addr : bytes) : DM () := on_object addr (StateObject.SetCommission 0).

(** ** Undoing *)

Definition ripemd : bytes := replicate 31 0 ++ [3].

(** Undoing a change of a field calls the setter on the result of [getStateObject]: a nil
    object panics. *)
Definition on_existing (addr : bytes) (m : OM ()) : DM () :=
  o ← getStateObject addr;
  match o with Some o => call o m | None => spanic "nil pointer dereference" end.

Definition undo (ch : journalEntry T) : DM () :=
  match ch with
  | createObjectChange a =>
      smod (λ s, s<| s_stateObjects ::= base.delete a |><| s_stateObjectsDirty ::= λ d, d ∖ {[a]} |>)
  | resetObjectChange prev => setStateObject prev
  | suicideChange a prev prevbalance =>
      if_exists a () (λ o, call o (modify_self (λ o, o<| so_suicided := prev |>);; setBalance prevbalance))
  | touchChange a prev prevDirty =>
      if negb prev && negb (bool_decide (a = ripemd)) then
        on_existing a (modify_self (λ o, o<| so_touched := prev |>));;
        (if prevDirty then mret () else smod (λ s, s<| s_stateObjectsDirty ::= λ d, d ∖ {[a]} |>))
      else mret ()
  | balanceChange a prev => on_existing a (setBalance prev)
  | depositBalanceChange a prev => on_existing a (setDepositBalance prev)
  | sideChainDepositBalanceChange a chainId prev =>
      on_existing a (index ← find_or_append chainId; setSideChainDepositBalance index prev)
  | chainBalanceChange a prev => on_existing a (setChainBalance prev)
  | delegateBalanceChange a prev => on_existing a (setDelegateBalance prev)
  | proxiedBalanceChange a prev => on_existing a (setProxiedBalance prev)
  | depositProxiedBalanceChange a prev => on_existing a (setDepositProxiedBalance prev)
  | pendingRefundBalanceChange a prev => on_existing a (setPendingRefundBalance prev)
  | rewardBalanceChange a prev => on_existing a (setRewardBalance prev)
  | availableRewardBalanceChange a prev => on_existing a (setAvailableRewardBalance prev)
  | nonceChange a prev => on_existing a (setNonce prev)
  | codeChange a prevcode prevhash => on_existing a (setCode (BytesToHash prevhash) prevcode)
  | storageChange a key prevalue => on_existing a (setState key prevalue)
  | addTX1Change a txHash => on_existing a (removeTX1 txHash)
  | addTX3Change a txHash => on_existing a (removeTX3 txHash)
  | accountProxiedBalanceChange a key prevalue => on_existing a (setAccountProxiedBalance key prevalue)
  | delegateRewardBalanceChange a key prevalue => on_existing a (setDelegateRewardBalance key prevalue)
  | candidateChange a prev => on_existing a (setCandidate prev)
  | pubkeyChange a prev => on_existing a (setPubkey prev)
  | commissionChange a prev => on_existing a (setCommission prev)
  | bannedChange a prev => on_existing a (setBanned prev)
  | blockTimeChange a prev => on_existing a (setBlockTime prev)
  | bannedTimeChange a prev => on_existing a (setBannedTime prev)
  | refundChange prev => smod (λ s, s<| s_refund := prev |>)
  | addLogChange txhash =>
      s ← sget;
      let logs := default [] (s_logs s !! txhash) in
      (if (length logs =? 1)%nat then smod (λ s, s<| s_logs ::= base.delete txhash |>)
       else match logs with
            | [] => spanic "slice bounds out of range"
            | _ => smod (λ s, s<| s_logs ::= <[txhash := take (length logs - 1) logs]> |>)
            end);;
      smod (λ s, s<| s_logSize := u64 (s_logSize s - 1) |>)
  | addPreimageChange hash => smod (λ s, s<| s_preimages ::= base.delete hash |>)
  end.

Definition Snapshot : DM Z :=
  s ← sget;
  smod (λ s, s<| s_nextRevisionId := i64 (s_nextRevisionId s + 1) |>
              <| s_validRevisions ::= λ r, r ++ [mkRevision (s_nextRevisionId s) (length (s_journal s))] |>);;
  mret (s_nextRevisionId s).

(** The entries from the end of the journal down to a position. *)
Fixpoint undo_all (es : list (journalEntry T)) : DM () :=
  match es with
  | [] => mret ()
  | e :: es => undo e;; undo_all es
  end.

(** [sort.Search]: the least index in [i, j) where a monotone predicate holds, by
    bisection; the fuel is the length of the range. *)
Fixpoint sort_Search (fuel : nat) (f : nat → bool) (i j : nat) : nat :=
  match fuel with
  | O => i
  | S fuel =>
      if (i <? j)%nat then
        let h := ((i + j) / 2)%nat in
        if f h then sort_Search fuel f i h else sort_Search fuel f (S h) j
      else i
  end.

Definition RevertToSnapshot (revid : Z) : DM () :=
  s ← sget;
  let revs := s_validRevisions s in
  let idx := sort_Search (length revs)
    (λ i, match revs !! i with Some r => revid <=? rev_id r | None => false end) 0 (length revs) in
  match revs !! idx with
  | None => spanic "revision id cannot be reverted"
  | Some r =>
      if negb (rev_id r =? revid) then spanic "revision id cannot be reverted"
      else
        let snapshot := rev_journalIndex r in
        undo_all (reverse (drop snapshot (s_journal s)));;
        smod (λ s, s<| s_journal ::= take snapshot |><| s_validRevisions ::= take idx |>)
  end.

End statedb.
