(* ===== verification/StateSpec.v ===== *)
(** * What the state database promises (core/state)

    An abstract state: accounts as records of functions, refund, logs, preimages, and
    snapshots that are copies of the whole state.  The state database with its object
    caches, tries loaded on demand, and journal refines it: every method returns what the
    abstract method returns, and reverting by undoing the journal is the same as going
    back to the copy. *)

From Stdlib Require Import ZArith Lia ZifyBool FunctionalExtensionality.
From stdpp Require Import base tactics strings numbers gmap functions list.
From S2P Require Import Prelude Rlp RlpDecode Trie TrieNodes TrieDb.
From S2P Require Import StateObject StateDb.

Local Open Scope Z_scope.
Local Open Scope record_scope.

(** ** What the state relies on

    A trie denotes a partial function on keys ([den]); lookups return its values.  The
    laws are only for some keys ([key_ok]): a secure trie hashes its keys, and says
    nothing about keys whose hashes collide. *)
Class StateReads {DB T} (SD : StateDatabase DB T) := {
  key_ok : bytes → Prop;
  den : DB → T → (bytes → option bytes) → Prop;
  den_get db t f k : den db t f → key_ok k →
    ∃ t', t_TryGet db t k = Ret (inl (f k, t')) ∧ den db t' f ∧ ∀ h, t_GetKey db t' h = t_GetKey db t h;
  den_zero db t f : den db t f → ∃ t', OpenTrie zeroHash db = Ret (inl t') ∧ den db t' (λ _, None)
}.

(** ** Abstract accounts *)

(** What the account looks like to the methods, what its tries hold, and what is read of
    an entry that has not been changed since the tries were written: that is the entry of
    the trie, or an entry that was too small to be written. *)
Record aacct := mkAcct {
  a_data : Account;
  a_code : option bytes;
  a_side : bytes → Z;
  a_storage : bytes → bytes;
  a_tx1 : bytes → bool;
  a_tx3 : bytes → bool;
  a_proxied : bytes → option accountProxiedBalance;
  a_reward : bytes → option Z;
  a_suicided : bool;
  f_storage : bytes → option bytes;
  f_tx1 : bytes → option bytes;
  f_tx3 : bytes → option bytes;
  f_proxied : bytes → option bytes;
  f_reward : bytes → option bytes;
  c_proxied : bytes → option accountProxiedBalance;
  c_reward : bytes → option Z
}.

#[global] Instance aacct_set : Settable aacct := {| rec_eta := λ a,
  mkAcct (a_data a) (a_code a) (a_side a) (a_storage a) (a_tx1 a) (a_tx3 a) (a_proxied a) (a_reward a)
    (a_suicided a) (f_storage a) (f_tx1 a) (f_tx3 a) (f_proxied a) (f_reward a) (c_proxied a) (c_reward a) |}.

(** The address sets and the reward of a side chain, each with its dirty flag. *)
Record asets := mkSets {
  se_refund : option (gset bytes) * bool;
  se_reward : option (gset bytes) * bool;
  se_candidate : option (gset bytes) * bool;
  se_banned : option (gset bytes) * bool;
  se_perBlock : option Z * bool
}.

#[global] Instance asets_set : Settable asets := {| rec_eta := λ x,
  mkSets (se_refund x) (se_reward x) (se_candidate x) (se_banned x) (se_perBlock x) |}.

Definition new_sets : asets := mkSets (Some ∅, false) (Some ∅, false) (Some ∅, false) (Some ∅, false) (None, false).

(** [as_base] is what the account trie holds; [as_acct] is what the methods see;
    [as_pre] are the keys that hashed keys stand for, as far as the account trie knows. *)
Record astate := mkAstate {
  as_base : bytes → option bytes;
  as_acct : bytes → option aacct;
  as_refund : Z;
  as_thash : bytes;
  as_bhash : bytes;
  as_txIndex : Z;
  as_logs : gmap bytes (list Log);
  as_logSize : Z;
  as_preimages : gmap bytes bytes;
  as_pre : bytes → bytes;
  as_sets : asets
}.

#[global] Instance astate_set : Settable astate := {| rec_eta := λ a,
  mkAstate (as_base a) (as_acct a) (as_refund a) (as_thash a) (as_bhash a) (as_txIndex a) (as_logs a)
    (as_logSize a) (as_preimages a) (as_pre a) (as_sets a) |}.

(** The values that the entries of the tries stand for. *)
Definition stor_val (e : option bytes) : bytes :=
  match default [] e with [] => zeroHash | enc => BytesToHash (split_content enc).1 end.

Definition tx_val (h : bytes) (e : option bytes) : bool :=
  match default [] e with
  | [] => false
  | enc => match split_content enc with (c, None) => bytes_Equal c h | _ => false end
  end.

Definition prox_val (e : option bytes) : option accountProxiedBalance :=
  match default [] e with [] => None | enc => Some (decodeProxied enc).1 end.

Definition rew_val (e : option bytes) : option Z :=
  match default [] e with [] => None | enc => Some (decodeBig enc).1 end.

(** The account that an entry of the account trie stands for. *)
Definition base_account (e : option bytes) : option Account :=
  match default [] e with
  | [] => None
  | enc => match decodeAccount enc with inl d => Some d | inr _ => None end
  end.

Section relation.
  Context {DB T : Type} {SD : StateDatabase DB T} {SR : StateReads SD} {KL : KeccakLib} {KLaws : KeccakLaws}.

Local Abbreviation DM := (stM (StateDB DB T)).
Local Abbreviation OM := (stM (stateObject T * StateDB DB T)).

Definition opens (db : DB) (root : bytes) (f : bytes → option bytes) : Prop :=
  ∃ t, OpenTrie root db = Ret (inl t) ∧ den db t f.

Definition trie_den (db : DB) (cached : option T) (root : bytes) (f : bytes → option bytes) : Prop :=
  match cached with Some t => den db t f | None => opens db root f end.

Definition code_rel (db : DB) (o : stateObject T) (c : option bytes) : Prop :=
  match so_code o with
  | Some _ => c = so_code o
  | None =>
      if bytes_Equal (CodeHash o) emptyCodeHash then c = None
      else is_Some c ∧ ContractCode db (BytesToHash (CodeHash o)) = Ret c
  end.

(** A live object stands for an abstract account: the dirty entries come before those of
    the tries, and the caches of clean entries agree with the tries. *)
Record obj_rel (db : DB) (addr : bytes) (o : stateObject T) (a : aacct) : Prop := {
  or_address : so_address o = addr;
  or_deleted : so_deleted o = false;
  or_data : a_data a = (so_data o)<| acc_SideChainDepositBalance := [] |>;
  or_hash : length (CodeHash o) = 32%nat ∧ is_Some (acc_CodeHash (so_data o));
  or_code : code_rel db o (a_code a);
  or_side : ∀ id, SideChainDepositBalance o id = a_side a id;
  or_storage : trie_den db (so_trie o) (acc_Root (so_data o)) (f_storage a) ∧
    (∀ k v, key_ok k → so_originStorage o !! k = Some v → v = stor_val (f_storage a k)) ∧
    (∀ k, key_ok k → a_storage a k = default (stor_val (f_storage a k)) (so_dirtyStorage o !! k));
  or_tx1 : trie_den db (so_tx1Trie o) (acc_TX1Root (so_data o)) (f_tx1 a) ∧
    (∀ h, key_ok h → a_tx1 a h = bool_decide (h ∈ so_dirtyTX1 o) || tx_val h (f_tx1 a h));
  or_tx3 : trie_den db (so_tx3Trie o) (acc_TX3Root (so_data o)) (f_tx3 a) ∧
    (∀ h, key_ok h → a_tx3 a h = bool_decide (h ∈ so_dirtyTX3 o) || tx_val h (f_tx3 a h));
  or_proxied : trie_den db (so_proxiedTrie o) (acc_ProxiedRoot (so_data o)) (f_proxied a) ∧
    (∀ k v, key_ok k → so_originProxied o !! k = Some v → v = c_proxied a k) ∧
    (∀ k, key_ok k → so_originProxied o !! k = None ∨ is_Some (f_proxied a k) → c_proxied a k = prox_val (f_proxied a k)) ∧
    (∀ k, key_ok k → a_proxied a k = default (c_proxied a k) (so_dirtyProxied o !! k));
  or_reward : trie_den db (so_rewardTrie o) (acc_RewardRoot (so_data o)) (f_reward a) ∧
    (∀ k v, key_ok (reward_key k) → so_originReward o !! k = Some v → v = c_reward a k) ∧
    (∀ k, key_ok (reward_key k) → so_originReward o !! k = None ∨ is_Some (f_reward a (reward_key k)) →
      c_reward a k = rew_val (f_reward a (reward_key k))) ∧
    (∀ k, key_ok (reward_key k) →
      a_reward a k = default (c_reward a k) (so_dirtyReward o !! k));
  or_suicided : so_suicided o = a_suicided a
}.

(** The account at an address: a live object, a deleted one, or an entry of the account
    trie that has not been loaded. *)
Definition acct_rel (s : StateDB DB T) (base : bytes → option bytes) (addr : bytes) (oa : option aacct) : Prop :=
  match s_stateObjects s !! addr with
  | Some o =>
      if so_deleted o then oa = None ∧ base_account (base addr) = None ∧ so_address o = addr
      else ∃ a, oa = Some a ∧ obj_rel (s_db s) addr o a
  | None =>
      match base_account (base addr) with
      | None => oa = None
      | Some d => ∃ a, oa = Some a ∧ obj_rel (s_db s) addr (newObject addr d true) a
      end
  end.

Definition sets_of (s : StateDB DB T) : asets :=
  mkSets (s_delegateRefundSet s, s_delegateRefundSetDirty s) (s_rewardSet s, s_rewardSetDirty s)
    (s_candidateSet s, s_candidateSetDirty s) (s_bannedSet s, s_bannedSetDirty s)
    (s_sideChainRewardPerBlock s, s_sideChainRewardPerBlockDirty s).

Record abs (s : StateDB DB T) (a : astate) : Prop := {
  ab_trie : den (s_db s) (s_trie s) (as_base a);
  ab_acct : ∀ addr, key_ok addr → acct_rel s (as_base a) addr (as_acct a addr);
  ab_refund : s_refund s = as_refund a;
  ab_thash : s_thash s = as_thash a;
  ab_bhash : s_bhash s = as_bhash a;
  ab_txIndex : s_txIndex s = as_txIndex a;
  ab_logs : s_logs s = as_logs a;
  ab_logSize : s_logSize s = as_logSize a;
  ab_preimages : s_preimages s = as_preimages a;
  ab_nonempty : ∀ h, as_logs a !! h ≠ Some [];
  ab_size : in_u64 (as_logSize a);
  ab_pre : ∀ h, t_GetKey (s_db s) (s_trie s) h = as_pre a h;
  ab_sets : sets_of s = as_sets a
}.

(** ** Undoing, abstractly

    [undoes db e a a']: undoing the entry [e] in any state that stands for [a] gives one
    that stands for [a'].  [rewinds] is the same for a segment of the journal. *)

Definition keeps (s s' : StateDB DB T) : Prop :=
  s_db s' = s_db s ∧ s_validRevisions s' = s_validRevisions s ∧ s_nextRevisionId s' = s_nextRevisionId s.

Definition undoes (db : DB) (e : journalEntry T) (a a' : astate) : Prop :=
  ∀ s, s_db s = db → abs s a →
    ∃ s', undo e s = Ret ((), s') ∧ abs s' a' ∧ keeps s s' ∧ s_journal s' = s_journal s.

Inductive rewinds (db : DB) : list (journalEntry T) → astate → astate → Prop :=
| rewinds_nil a : rewinds db [] a a
| rewinds_snoc es e a a1 a2 : undoes db e a a1 → rewinds db es a1 a2 → rewinds db (es ++ [e]) a a2.

(** [dsem db m a a' r]: in any state that stands for [a], the method returns [r], leaves a
    state for [a'], and its journal entries lead back to [a]. *)
Definition dsem {A} (db : DB) (m : DM A) (a a' : astate) (r : A) : Prop :=
  ∀ s, s_db s = db → abs s a →
    ∃ s' es, m s = Ret (r, s') ∧ abs s' a' ∧ keeps s s' ∧ s_journal s' = s_journal s ++ es ∧ rewinds db es a' a.

Lemma keeps_refl s : keeps s s.
Proof. done. Qed.

Lemma keeps_trans s1 s2 s3 : keeps s1 s2 → keeps s2 s3 → keeps s1 s3.
Proof. intros (?&?&?) (?&?&?). split_and!; congruence. Qed.

Lemma rewinds_app db es1 es2 a a1 a2 : rewinds db es2 a a1 → rewinds db es1 a1 a2 → rewinds db (es1 ++ es2) a a2.
Proof.
  induction 1 as [|es e a b c Hu _ IH]; intros H1; [by rewrite app_nil_r|].
  rewrite app_assoc. eapply rewinds_snoc; [exact Hu|by apply IH].
Qed.

Lemma rewinds_one db e a a' : undoes db e a a' → rewinds db [e] a a'.
Proof. intros H. apply (rewinds_snoc db [] e a a' a'); [done|constructor]. Qed.

Lemma rewinds_run db es a a' s : rewinds db es a a' → s_db s = db → abs s a →
  ∃ s', undo_all (reverse es) s = Ret ((), s') ∧ abs s' a' ∧ keeps s s' ∧ s_journal s' = s_journal s.
Proof.
  intros H. revert s. induction H as [a|es e a a1 a2 Hu _ IH]; intros s Hdb Ha.
  { exists s. split_and!; done. }
  rewrite reverse_snoc. cbn. destruct (Hu s Hdb Ha) as (s1 & E1 & Ha1 & (?&?&?) & Hj1).
  destruct (IH s1) as (s2 & E2 & Ha2 & (?&?&?) & Hj2); [congruence|done|].
  exists s2. unfold mbind, stM_bind. rewrite E1, E2. unfold keeps. split_and!; try done; congruence.
Qed.

Lemma dsem_ret {A} db a (r : A) : dsem db (mret r) a a r.
Proof. intros s Hdb Ha. exists s, []. rewrite app_nil_r. split_and!; try done. constructor. Qed.

Lemma dsem_bind {A B} db (m : DM A) (f : A → DM B) a a1 a2 r r' :
  dsem db m a a1 r → dsem db (f r) a1 a2 r' → dsem db (m ≫= f) a a2 r'.
Proof.
  intros Hm Hf s Hdb Ha. destruct (Hm s Hdb Ha) as (s1 & es1 & E1 & Ha1 & Hk1 & Hj1 & Hr1).
  destruct (Hf s1) as (s2 & es2 & E2 & Ha2 & Hk2 & Hj2 & Hr2); [by rewrite (proj1 Hk1)|done|].
  exists s2, (es1 ++ es2). unfold mbind, stM_bind. rewrite E1, E2. split_and!; try done.
  - by eapply keeps_trans.
  - by rewrite Hj2, Hj1, app_assoc.
  - by eapply rewinds_app.
Qed.

(** ** Methods of objects *)

Lemma fn_insert_id {A B} `{EqDecision A} (f : A → B) k v : f k = v → <[k := v]> f = f.
Proof.
  intros <-. apply functional_extensionality. intros x.
  destruct (decide (k = x)) as [->|]; [apply fn_lookup_insert|by apply fn_lookup_insert_ne].
Qed.

Lemma fn_insert_twice {A B} `{EqDecision A} (f : A → B) k v w : <[k := v]> (<[k := w]> f) = <[k := v]> f.
Proof.
  apply functional_extensionality. intros x.
  destruct (decide (k = x)) as [->|]; [by rewrite !fn_lookup_insert|by rewrite !fn_lookup_insert_ne].
Qed.

(** [a] with another account at an address. *)
Definition set_acct (addr : bytes) (oa : option aacct) (a : astate) : astate := a<| as_acct ::= <[addr := oa]> |>.

Lemma set_acct_id addr oa a : as_acct a addr = oa → set_acct addr oa a = a.
Proof. intros E. destruct a. unfold set_acct, rec_upd. cbn in *. f_equal. by apply fn_insert_id. Qed.

Lemma set_acct_twice addr oa ob a : set_acct addr oa (set_acct addr ob a) = set_acct addr oa a.
Proof. destruct a. unfold set_acct, rec_upd. cbn. f_equal. apply fn_insert_twice. Qed.

Lemma set_acct_lookup addr oa a : as_acct (set_acct addr oa a) addr = oa.
Proof. cbn. by rewrite fn_lookup_insert. Qed.

Definition lrewinds (db : DB) (addr : bytes) (es : list (journalEntry T)) (aa' aa : aacct) : Prop :=
  ∀ a, as_acct a addr = Some aa' → rewinds db es a (set_acct addr (Some aa) a).

Lemma lrewinds_nil db addr aa : lrewinds db addr [] aa aa.
Proof. intros a Ha. rewrite set_acct_id by done. constructor. Qed.

Lemma lrewinds_app db addr es1 es2 aa aa1 aa2 :
  lrewinds db addr es2 aa aa1 → lrewinds db addr es1 aa1 aa2 → lrewinds db addr (es1 ++ es2) aa aa2.
Proof.
  intros H2 H1 a Ha. eapply rewinds_app; [by apply H2|].
  rewrite <-(set_acct_twice addr (Some aa2) (Some aa1)). apply H1, set_acct_lookup.
Qed.

(** [orun] is a run of an object method, with the entries that it appends; a [quiet]
    method appends none; [osem] says that the entries lead back. *)
Definition orun {A} (db : DB) (addr : bytes) (m : OM A) (aa aa' : aacct) (r : A)
    (Q : list (journalEntry T) → Prop) : Prop :=
  ∀ o s, s_db s = db → obj_rel db addr o aa →
    ∃ o' es d, m (o, s) = Ret (r, (o', s<| s_journal ::= λ j, j ++ es |><| s_stateObjectsDirty := d |>)) ∧
      obj_rel db addr o' aa' ∧ Q es.

Definition quiet {A} (db : DB) (addr : bytes) (m : OM A) (aa aa' : aacct) (r : A) : Prop :=
  orun db addr m aa aa' r (λ es, es = []).

Definition osem {A} (db : DB) (addr : bytes) (m : OM A) (aa aa' : aacct) (r : A) : Prop :=
  orun db addr m aa aa' r (λ es, lrewinds db addr es aa' aa).

Lemma upd_nothing (s : StateDB DB T) :
  s<| s_journal ::= λ j, j ++ [] |><| s_stateObjectsDirty := s_stateObjectsDirty s |> = s.
Proof. destruct s. cbn. unfold rec_upd. cbn. by rewrite app_nil_r. Qed.

Lemma upd_again (s : StateDB DB T) es1 es2 d1 d2 :
  s<| s_journal ::= λ j, j ++ es1 |><| s_stateObjectsDirty := d1 |>
   <| s_journal ::= λ j, j ++ es2 |><| s_stateObjectsDirty := d2 |> =
  s<| s_journal ::= λ j, j ++ (es1 ++ es2) |><| s_stateObjectsDirty := d2 |>.
Proof. destruct s. unfold rec_upd. cbn. by rewrite app_assoc. Qed.

Lemma orun_bind {A B} db addr (m : OM A) (f : A → OM B) aa aa1 aa2 r r' (Q1 Q2 Q : list (journalEntry T) → Prop) :
  (∀ es1 es2, Q1 es1 → Q2 es2 → Q (es1 ++ es2)) →
  orun db addr m aa aa1 r Q1 → orun db addr (f r) aa1 aa2 r' Q2 → orun db addr (m ≫= f) aa aa2 r' Q.
Proof.
  intros HQ Hm Hf o s Hdb Ho. destruct (Hm o s Hdb Ho) as (o1 & es1 & d1 & E1 & Ho1 & H1).
  destruct (Hf o1 (s<| s_journal ::= λ j, j ++ es1 |><| s_stateObjectsDirty := d1 |>))
    as (o2 & es2 & d2 & E2 & Ho2 & H2); [by destruct s|done|].
  exists o2, (es1 ++ es2), d2. unfold mbind, stM_bind. rewrite E1, E2, upd_again. split_and!; auto.
Qed.

Lemma osem_bind {A B} db addr (m : OM A) (f : A → OM B) aa aa1 aa2 r r' :
  osem db addr m aa aa1 r → osem db addr (f r) aa1 aa2 r' → osem db addr (m ≫= f) aa aa2 r'.
Proof. apply orun_bind. intros. by eapply lrewinds_app. Qed.

Lemma quiet_bind {A B} db addr (m : OM A) (f : A → OM B) aa aa1 aa2 r r' :
  quiet db addr m aa aa1 r → quiet db addr (f r) aa1 aa2 r' → quiet db addr (m ≫= f) aa aa2 r'.
Proof. apply orun_bind. by intros ? ? -> ->. Qed.

Lemma orun_ret {A} db addr aa (r : A) (Q : list (journalEntry T) → Prop) : Q [] → orun db addr (mret r) aa aa r Q.
Proof. intros HQ o s Hdb Ho. exists o, [], (s_stateObjectsDirty s). by rewrite upd_nothing. Qed.

Lemma quiet_ret {A} db addr aa (r : A) : quiet db addr (mret r) aa aa r.
Proof. by apply orun_ret. Qed.

Lemma osem_ret {A} db addr aa (r : A) : osem db addr (mret r) aa aa r.
Proof. apply orun_ret, lrewinds_nil. Qed.

Lemma quiet_osem {A} db addr (m : OM A) aa r : quiet db addr m aa aa r → osem db addr m aa aa r.
Proof.
  intros H o s Hdb Ho. destruct (H o s Hdb Ho) as (o' & es & d & E & Ho' & ->).
  exists o', [], d. split_and!; try done. apply lrewinds_nil.
Qed.

(** Reading the object: the rest of the method may depend on it. *)
Lemma orun_self {A} db addr (f : stateObject T → OM A) aa aa' r Q :
  (∀ o, obj_rel db addr o aa → orun db addr (f o) aa aa' r Q) → orun db addr (self ≫= f) aa aa' r Q.
Proof. intros H o s Hdb Ho. unfold mbind, stM_bind. cbn. by apply (H o Ho o s). Qed.

Lemma orun_self_db {A} db addr (f : StateDB DB T → OM A) aa aa' r Q :
  (∀ s, s_db s = db → orun db addr (f s) aa aa' r Q) → orun db addr (self_db ≫= f) aa aa' r Q.
Proof. intros H o s Hdb Ho. unfold mbind, stM_bind. cbn. by apply (H s Hdb o s). Qed.

Lemma orun_lift {A B} db addr (m : outcome A) (f : A → OM B) v aa aa' r Q :
  m = Ret v → orun db addr (f v) aa aa' r Q → orun db addr (slift m ≫= f) aa aa' r Q.
Proof. intros -> H o s Hdb Ho. unfold mbind, stM_bind, slift. by apply H. Qed.

Lemma quiet_modify db addr g aa aa' :
  (∀ o, obj_rel db addr o aa → obj_rel db addr (g o) aa') → quiet db addr (modify_self g) aa aa' ().
Proof.
  intros H o s Hdb Ho. exists (g o), [], (s_stateObjectsDirty s). rewrite upd_nothing.
  split_and!; [done|by apply H|done].
Qed.

(** Fields that the relation does not mention. *)
Ltac same_rel Ho := destruct Ho; constructor; assumption.

Lemma quiet_mark_dirty db addr aa : quiet db addr mark_dirty aa aa ().
Proof.
  intros o s Hdb Ho. unfold mark_dirty. destruct (so_onDirty o).
  - exists (o<| so_onDirty := false |>), [], ({[so_address o]} ∪ s_stateObjectsDirty s). split_and!; [|same_rel Ho|done].
    destruct s. unfold rec_upd. cbn. by rewrite app_nil_r.
  - exists o, [], (s_stateObjectsDirty s). by rewrite upd_nothing.
Qed.

Lemma quiet_setError db addr e aa : quiet db addr (so_setError e) aa aa ().
Proof. apply quiet_modify. intros o Ho. destruct (so_dbErr o); [done|]. same_rel Ho. Qed.

(** Changes of the data that leave the roots, the code hash and the side chains alone. *)
Record plain (f : Account → Account) : Prop := {
  pl_side d : acc_SideChainDepositBalance (f d) = acc_SideChainDepositBalance d;
  pl_strip d : f (d<| acc_SideChainDepositBalance := [] |>) = (f d)<| acc_SideChainDepositBalance := [] |>;
  pl_roots d : acc_Root (f d) = acc_Root d ∧ acc_TX1Root (f d) = acc_TX1Root d ∧ acc_TX3Root (f d) = acc_TX3Root d ∧
    acc_ProxiedRoot (f d) = acc_ProxiedRoot d ∧ acc_RewardRoot (f d) = acc_RewardRoot d ∧
    acc_CodeHash (f d) = acc_CodeHash d
}.

Lemma obj_rel_plain db addr o aa f :
  plain f → obj_rel db addr o aa → obj_rel db addr (o<| so_data ::= f |>) (aa<| a_data ::= f |>).
Proof.
  intros [Hside Hstrip Hroots] [? ? Hd Hh Hc Hs ? ? ? ? ? ?].
  destruct (Hroots (so_data o)) as (E1 & E2 & E3 & E4 & E5 & E6).
  constructor; cbn; try done.
  - by rewrite Hd, Hstrip.
  - unfold CodeHash in *. cbn. by rewrite E6.
  - unfold code_rel, CodeHash in *. cbn. by rewrite E6.
  - intros id. rewrite <-Hs. unfold SideChainDepositBalance. cbn. by rewrite Hside.
  - by rewrite E1.
  - by rewrite E2.
  - by rewrite E3.
  - by rewrite E4.
  - by rewrite E5.
Qed.

Lemma quiet_set_data db addr f aa : plain f → quiet db addr (set_data f) aa (aa<| a_data ::= f |>) ().
Proof.
  intros Hf. eapply quiet_bind; [|apply quiet_mark_dirty]. apply quiet_modify. intros o. by apply obj_rel_plain.
Qed.

(** Opening and reading the tries of an object. *)
Lemma orun_open {A} db addr what cached root (g : T → OM A) f aa aa' r Q :
  trie_den db cached root f → (∀ t, den db t f → orun db addr (g t) aa aa' r Q) →
  orun db addr (open_cached what cached root ≫= g) aa aa' r Q.
Proof.
  intros Hf Hg. unfold open_cached. destruct cached as [t|]; cbn in Hf.
  { intros o s Hdb Ho. unfold mbind, stM_bind. cbn. by apply Hg. }
  destruct Hf as (t & Ht & Hd). intros o s Hdb Ho. unfold mbind, stM_bind, slift. cbn. rewrite Hdb, Ht. by apply Hg.
Qed.

Lemma orun_modify {A} db addr g (k : () → OM A) aa aa1 aa' r Q :
  (∀ o, obj_rel db addr o aa → obj_rel db addr (g o) aa1) → orun db addr (k ()) aa1 aa' r Q →
  orun db addr (modify_self g ≫= k) aa aa' r Q.
Proof. intros Hg Hk o s Hdb Ho. unfold mbind, stM_bind. cbn. by apply Hk, Hg. Qed.

Lemma orun_trie_get {A} db addr t put key (g : option bytes + trieErr → OM A) f aa aa' r Q :
  den db t f → key_ok key → (∀ t' o, den db t' f → obj_rel db addr o aa → obj_rel db addr (put t' o) aa) →
  orun db addr (g (inl (f key))) aa aa' r Q → orun db addr (trie_get t put key ≫= g) aa aa' r Q.
Proof.
  intros Hd Hk Hput Hg o s Hdb Ho. destruct (den_get db t f key Hd Hk) as (t' & E & Hd' & _).
  unfold trie_get, mbind, stM_bind, slift. cbn. rewrite Hdb, E. cbn. by apply Hg, Hput.
Qed.

Lemma orun_setError {A} db addr e (k : () → OM A) aa aa' r Q :
  orun db addr (k ()) aa aa' r Q → orun db addr (so_setError e ≫= k) aa aa' r Q.
Proof.
  intros Hk. apply (orun_modify _ _ _ _ _ aa); [|done]. intros o Ho. destruct (so_dbErr o); [done|]. same_rel Ho.
Qed.

(** Replacing the cached trie of an object by one with the same content, and caching a
    clean entry. *)
Lemma put_trie db addr o aa t : den db t (f_storage aa) → obj_rel db addr o aa →
  obj_rel db addr (o<| so_trie := Some t |>) aa.
Proof. intros Ht [? ? ? ? ? ? [? ?] ? ? ? ? ?]. by constructor. Qed.

Lemma put_tx1Trie db addr o aa t : den db t (f_tx1 aa) → obj_rel db addr o aa →
  obj_rel db addr (o<| so_tx1Trie := Some t |>) aa.
Proof. intros Ht [? ? ? ? ? ? ? [? ?] ? ? ? ?]. by constructor. Qed.

Lemma put_tx3Trie db addr o aa t : den db t (f_tx3 aa) → obj_rel db addr o aa →
  obj_rel db addr (o<| so_tx3Trie := Some t |>) aa.
Proof. intros Ht [? ? ? ? ? ? ? ? [? ?] ? ? ?]. by constructor. Qed.

Lemma put_proxiedTrie db addr o aa t : den db t (f_proxied aa) → obj_rel db addr o aa →
  obj_rel db addr (o<| so_proxiedTrie := Some t |>) aa.
Proof. intros Ht [? ? ? ? ? ? ? ? ? [? ?] ? ?]. by constructor. Qed.

Lemma put_rewardTrie db addr o aa t : den db t (f_reward aa) → obj_rel db addr o aa →
  obj_rel db addr (o<| so_rewardTrie := Some t |>) aa.
Proof. intros Ht [? ? ? ? ? ? ? ? ? ? [? ?] ?]. by constructor. Qed.

Lemma cache_storage db addr o aa k : key_ok k → obj_rel db addr o aa →
  obj_rel db addr (o<| so_originStorage ::= <[k := stor_val (f_storage aa k)]> |>) aa.
Proof.
  intros Hk [? ? ? ? ? ? [? [Ho ?]] ? ? ? ? ?]. constructor; try done. split_and!; try done. cbn. intros k' v Hk'.
  destruct (decide (k = k')) as [->|Hne]; [rewrite lookup_insert_eq; by intros [= <-]|].
  rewrite lookup_insert_ne by done. by apply Ho.
Qed.

Lemma cache_proxied db addr o aa k : key_ok k → c_proxied aa k = prox_val (f_proxied aa k) → obj_rel db addr o aa →
  obj_rel db addr (o<| so_originProxied ::= <[k := prox_val (f_proxied aa k)]> |>) aa.
Proof.
  intros Hk Hc [? ? ? ? ? ? ? ? ? [? [Ho [Hcl ?]]] ? ?]. constructor; try done.
  split_and!; try done; cbn; intros k'; destruct (decide (k = k')) as [->|Hne]; try done.
  - intros v _. rewrite lookup_insert_eq. by intros [= <-].
  - intros v Hk'. rewrite lookup_insert_ne by done. by apply Ho.
  - intros Hk'. rewrite lookup_insert_ne by done. by apply Hcl.
Qed.

Lemma cache_reward db addr o aa k : key_ok (reward_key k) → c_reward aa k = rew_val (f_reward aa (reward_key k)) →
  obj_rel db addr o aa →
  obj_rel db addr (o<| so_originReward ::= <[k := rew_val (f_reward aa (reward_key k))]> |>) aa.
Proof.
  intros Hk Hc [? ? ? ? ? ? ? ? ? ? [? [Ho [Hcl ?]]] ?]. constructor; try done.
  split_and!; try done; cbn; intros k'; destruct (decide (k = k')) as [->|Hne]; try done.
  - intros v _. rewrite lookup_insert_eq. by intros [= <-].
  - intros v Hk'. rewrite lookup_insert_ne by done. by apply Ho.
  - intros Hk'. rewrite lookup_insert_ne by done. by apply Hcl.
Qed.

Lemma orun_assoc {A B C} db addr (m : OM A) (f : A → OM B) (g : B → OM C) aa aa' r Q :
  orun db addr (m ≫= (λ a, f a ≫= g)) aa aa' r Q → orun db addr ((m ≫= f) ≫= g) aa aa' r Q.
Proof.
  intros H o s Hdb Ho. destruct (H o s Hdb Ho) as (o' & es & d & E & H'). exists o', es, d. split; [|done].
  rewrite <-E. unfold mbind, stM_bind. by destruct (m (o, s)) as [[]|].
Qed.

Lemma orun_ret_bind {A B} db addr (a : A) (f : A → OM B) aa aa' r Q :
  orun db addr (f a) aa aa' r Q → orun db addr (mret a ≫= f) aa aa' r Q.
Proof. done. Qed.

(** A step of a quiet method that leaves the account as it is. *)
Lemma orun_quiet {A B} db addr (m : OM A) (f : A → OM B) aa aa' a r Q :
  quiet db addr m aa aa a → orun db addr (f a) aa aa' r Q → orun db addr (m ≫= f) aa aa' r Q.
Proof. intros Hm. eapply orun_bind; [|exact Hm]. by intros ? ? ->. Qed.

Lemma quiet_GetCommittedState db addr aa key : key_ok key →
  quiet db addr (StateObject.GetCommittedState key) aa aa (stor_val (f_storage aa key)).
Proof.
  intros Hk. apply orun_self. intros o Ho. destruct (or_storage _ _ _ _ Ho) as (Ht & Horig & _).
  destruct (so_originStorage o !! key) as [v|] eqn:Ev; [rewrite (Horig key v Hk Ev); apply quiet_ret|].
  eapply orun_assoc, orun_self. intros o1 Ho1. eapply orun_assoc, orun_open; [apply (or_storage _ _ _ _ Ho1)|].
  intros t Hd. eapply orun_assoc, orun_modify; [intros o2 Ho2; by apply put_trie|]. apply orun_ret_bind.
  eapply orun_trie_get; [exact Hd|done|intros; by apply put_trie|].
  eapply orun_quiet.
  - instantiate (1 := stor_val (f_storage aa key)). unfold stor_val.
    destruct (default [] (f_storage aa key)) as [|x enc]; [apply quiet_ret|].
    destruct (split_content (x :: enc)) as [c [e|]]; [|by apply quiet_ret].
    eapply orun_quiet; [apply quiet_setError|apply quiet_ret].
  - eapply orun_modify; [intros o2 Ho2; by apply cache_storage|apply quiet_ret].
Qed.

Lemma quiet_GetState db addr aa key : key_ok key →
  quiet db addr (StateObject.GetState key) aa aa (a_storage aa key).
Proof.
  intros Hk. apply orun_self. intros o Ho. destruct (or_storage _ _ _ _ Ho) as (_ & _ & Hs).
  rewrite (Hs key Hk). destruct (so_dirtyStorage o !! key) as [v|]; [apply quiet_ret|by apply quiet_GetCommittedState].
Qed.

Lemma quiet_has_tx db addr t put h f aa :
  den db t f → key_ok h → (∀ t' o, den db t' f → obj_rel db addr o aa → obj_rel db addr (put t' o) aa) →
  quiet db addr (has_tx t put h) aa aa (tx_val h (f h)).
Proof.
  intros Hd Hk Hput. eapply orun_trie_get; [exact Hd|done|exact Hput|]. unfold tx_val.
  destruct (default [] (f h)) as [|x enc]; [apply quiet_ret|].
  destruct (split_content (x :: enc)) as [c [e|]].
  - eapply orun_quiet; [apply quiet_setError|apply quiet_ret].
  - destruct (bytes_Equal c h); [apply quiet_ret|]. eapply orun_quiet; [apply quiet_setError|apply quiet_ret].
Qed.

Lemma quiet_HasTX1 db addr aa h : key_ok h → quiet db addr (StateObject.HasTX1 h) aa aa (a_tx1 aa h).
Proof.
  intros Hk. apply orun_self. intros o Ho. destruct (or_tx1 _ _ _ _ Ho) as (_ & Hv). rewrite (Hv h Hk).
  case_bool_decide; [apply quiet_ret|]. cbn [orb].
  eapply orun_assoc, orun_self. intros o1 Ho1. eapply orun_assoc, orun_open; [apply (or_tx1 _ _ _ _ Ho1)|].
  intros t Hd. eapply orun_assoc, orun_modify; [intros o2 Ho2; by apply put_tx1Trie|]. apply orun_ret_bind.
  eapply quiet_has_tx; [done|done|]. intros. by apply put_tx1Trie.
Qed.

Lemma quiet_HasTX3 db addr aa h : key_ok h → quiet db addr (StateObject.HasTX3 h) aa aa (a_tx3 aa h).
Proof.
  intros Hk. apply orun_self. intros o Ho. destruct (or_tx3 _ _ _ _ Ho) as (_ & Hv). rewrite (Hv h Hk).
  case_bool_decide; [apply quiet_ret|]. cbn [orb].
  eapply orun_assoc, orun_self. intros o1 Ho1. eapply orun_assoc, orun_open; [apply (or_tx3 _ _ _ _ Ho1)|].
  intros t Hd. eapply orun_assoc, orun_modify; [intros o2 Ho2; by apply put_tx3Trie|]. apply orun_ret_bind.
  eapply quiet_has_tx; [done|done|]. intros. by apply put_tx3Trie.
Qed.

Lemma quiet_GetProxied db addr aa k : key_ok k →
  quiet db addr (GetAccountProxiedBalance k) aa aa (a_proxied aa k).
Proof.
  intros Hk. apply orun_self. intros o Ho. destruct (or_proxied _ _ _ _ Ho) as (_ & Horig & Hclean & Hv). rewrite (Hv k Hk).
  destruct (so_dirtyProxied o !! k) as [v|]; [apply quiet_ret|]. cbn [default].
  destruct (so_originProxied o !! k) as [v|] eqn:Ev; [rewrite <-(Horig k v Hk Ev); apply quiet_ret|].
  pose proof (Hclean k Hk (or_introl Ev)) as Hc. rewrite Hc.
  eapply orun_assoc, orun_self. intros o1 Ho1. eapply orun_assoc, orun_open; [apply (or_proxied _ _ _ _ Ho1)|].
  intros t Hd. eapply orun_assoc, orun_modify; [intros o2 Ho2; by apply put_proxiedTrie|]. apply orun_ret_bind.
  eapply orun_trie_get; [exact Hd|done|intros; by apply put_proxiedTrie|].
  eapply orun_quiet.
  - instantiate (1 := prox_val (f_proxied aa k)). unfold prox_val.
    destruct (default [] (f_proxied aa k)) as [|x enc]; [apply quiet_ret|].
    destruct (decodeProxied (x :: enc)) as [c [e|]]; [|by apply quiet_ret].
    eapply orun_quiet; [apply quiet_setError|apply quiet_ret].
  - eapply orun_modify; [intros o2 Ho2; by apply cache_proxied|apply quiet_ret].
Qed.

Lemma quiet_GetReward db addr aa k : key_ok (reward_key k) →
  quiet db addr (GetDelegateRewardBalance k) aa aa (a_reward aa k).
Proof.
  intros Hk. apply orun_self. intros o Ho. destruct (or_reward _ _ _ _ Ho) as (_ & Horig & Hclean & Hv). rewrite (Hv k Hk).
  destruct (so_dirtyReward o !! k) as [v|]; [apply quiet_ret|]. cbn [default].
  destruct (so_originReward o !! k) as [v|] eqn:Ev; [rewrite <-(Horig k v Hk Ev); apply quiet_ret|].
  pose proof (Hclean k Hk (or_introl Ev)) as Hc. rewrite Hc.
  eapply orun_assoc, orun_self. intros o1 Ho1. eapply orun_assoc, orun_open; [apply (or_reward _ _ _ _ Ho1)|].
  intros t Hd. eapply orun_assoc, orun_modify; [intros o2 Ho2; by apply put_rewardTrie|]. apply orun_ret_bind.
  eapply orun_trie_get; [exact Hd|done|intros; by apply put_rewardTrie|].
  eapply orun_quiet.
  - instantiate (1 := rew_val (f_reward aa (reward_key k))). unfold rew_val.
    destruct (default [] (f_reward aa (reward_key k))) as [|x enc]; [apply quiet_ret|].
    destruct (decodeBig (x :: enc)) as [c [e|]]; [|by apply quiet_ret].
    eapply orun_quiet; [apply quiet_setError|apply quiet_ret].
  - eapply orun_modify; [intros o2 Ho2; by apply cache_reward|apply quiet_ret].
Qed.

Lemma quiet_Code db addr aa : quiet db addr Code aa aa (a_code aa).
Proof.
  apply orun_self. intros o Ho. pose proof (or_code _ _ _ _ Ho) as Hc. unfold code_rel in Hc.
  destruct (so_code o) as [c|] eqn:Ec; [rewrite Hc; apply quiet_ret|].
  destruct (bytes_Equal (CodeHash o) emptyCodeHash) eqn:Eh; [rewrite Hc; apply quiet_ret|].
  destruct Hc as [[c Hs] Hc]. intros o1 s Hdb Ho1. unfold mbind, stM_bind, slift. cbn. rewrite Hdb, Hc, Hs. cbn.
  exists (o1<| so_code := Some c |>), [], (s_stateObjectsDirty s). rewrite upd_nothing. split_and!; [done| |done].
  destruct Ho1. by constructor.
Qed.

(** Setting an entry. *)
Lemma quiet_setState db addr aa k v : key_ok k →
  quiet db addr (setState k v) aa (aa<| a_storage ::= <[k := v]> |>) ().
Proof.
  intros Hk. eapply quiet_bind; [|apply quiet_mark_dirty]. apply quiet_modify.
  intros o [? ? ? ? ? ? (? & ? & Hv) ? ? ? ? ?]. constructor; try done. split_and!; try done. cbn. intros k' Hk'.
  destruct (decide (k = k')) as [->|Hne]; [by rewrite fn_lookup_insert, lookup_insert_eq|].
  rewrite fn_lookup_insert_ne, lookup_insert_ne by done. by apply Hv.
Qed.

Lemma quiet_setProxied db addr aa k v : key_ok k →
  quiet db addr (setAccountProxiedBalance k v) aa (aa<| a_proxied ::= <[k := v]> |>) ().
Proof.
  intros Hk. eapply quiet_bind; [|apply quiet_mark_dirty]. apply quiet_modify.
  intros o [? ? ? ? ? ? ? ? ? (? & ? & ? & Hv) ? ?]. constructor; try done. split_and!; try done. cbn. intros k' Hk'.
  destruct (decide (k = k')) as [->|Hne]; [by rewrite fn_lookup_insert, lookup_insert_eq|].
  rewrite fn_lookup_insert_ne, lookup_insert_ne by done. by apply Hv.
Qed.

Lemma quiet_setReward db addr aa k v : key_ok (reward_key k) →
  quiet db addr (setDelegateRewardBalance k v) aa (aa<| a_reward ::= <[k := v]> |>) ().
Proof.
  intros Hk. eapply quiet_bind; [|apply quiet_mark_dirty]. apply quiet_modify.
  intros o [? ? ? ? ? ? ? ? ? ? (? & ? & ? & Hv) ?]. constructor; try done. split_and!; try done. cbn. intros k' Hk'.
  destruct (decide (k = k')) as [->|Hne]; [by rewrite fn_lookup_insert, lookup_insert_eq|].
  rewrite fn_lookup_insert_ne, lookup_insert_ne by done. by apply Hv.
Qed.

Lemma quiet_addTX1 db addr aa h : key_ok h → quiet db addr (addTX1 h) aa (aa<| a_tx1 ::= <[h := true]> |>) ().
Proof.
  intros Hk. apply quiet_modify. intros o [? ? ? ? ? ? ? (? & Hv) ? ? ? ?]. constructor; try done. split; [done|].
  cbn. intros h' Hh'. destruct (decide (h = h')) as [->|Hne].
  - rewrite fn_lookup_insert, bool_decide_eq_true_2; [done|set_solver].
  - rewrite fn_lookup_insert_ne, Hv by done. f_equal. apply bool_decide_ext. set_solver.
Qed.

Lemma quiet_addTX3 db addr aa h : key_ok h → quiet db addr (addTX3 h) aa (aa<| a_tx3 ::= <[h := true]> |>) ().
Proof.
  intros Hk. apply quiet_modify. intros o [? ? ? ? ? ? ? ? (? & Hv) ? ? ?]. constructor; try done. split; [done|].
  cbn. intros h' Hh'. destruct (decide (h = h')) as [->|Hne].
  - rewrite fn_lookup_insert, bool_decide_eq_true_2; [done|set_solver].
  - rewrite fn_lookup_insert_ne, Hv by done. f_equal. apply bool_decide_ext. set_solver.
Qed.

Lemma quiet_removeTX1 db addr aa h : key_ok h → tx_val h (f_tx1 aa h) = false →
  quiet db addr (removeTX1 h) aa (aa<| a_tx1 ::= <[h := false]> |>) ().
Proof.
  intros Hk Hf. apply quiet_modify. intros o [? ? ? ? ? ? ? (? & Hv) ? ? ? ?]. constructor; try done. split; [done|].
  cbn. intros h' Hh'. destruct (decide (h = h')) as [->|Hne].
  - rewrite fn_lookup_insert, bool_decide_eq_false_2, Hf; [done|set_solver].
  - rewrite fn_lookup_insert_ne, Hv by done. f_equal. apply bool_decide_ext. set_solver.
Qed.

Lemma quiet_removeTX3 db addr aa h : key_ok h → tx_val h (f_tx3 aa h) = false →
  quiet db addr (removeTX3 h) aa (aa<| a_tx3 ::= <[h := false]> |>) ().
Proof.
  intros Hk Hf. apply quiet_modify. intros o [? ? ? ? ? ? ? ? (? & Hv) ? ? ?]. constructor; try done. split; [done|].
  cbn. intros h' Hh'. destruct (decide (h = h')) as [->|Hne].
  - rewrite fn_lookup_insert, bool_decide_eq_false_2, Hf; [done|set_solver].
  - rewrite fn_lookup_insert_ne, Hv by done. f_equal. apply bool_decide_ext. set_solver.
Qed.

Definition with_code (hash : bytes) (code : option bytes) (aa : aacct) : aacct :=
  aa<| a_code := code |><| a_data ::= λ d, d<| acc_CodeHash := Some hash |> |>.

Lemma quiet_setCode db addr aa hash code : length hash = 32%nat → (code = None → hash = emptyCodeHash) →
  quiet db addr (setCode hash code) aa (with_code hash code aa) ().
Proof.
  intros Hl He. eapply quiet_bind; [|apply quiet_mark_dirty]. apply quiet_modify.
  intros o [? ? Hd ? ? ? ? ? ? ? ? ?]. constructor; try done.
  - cbn. by rewrite Hd.
  - unfold code_rel. cbn. destruct code; [done|]. unfold CodeHash. cbn. rewrite He by done.
    by rewrite (proj2 (bytes_Equal_true _ _) eq_refl).
Qed.

(** *** Side chain deposits *)

Definition side_get (l : list sideChainDepositBalance) (id : bytes) : Z :=
  match side_index l id with Some i => default 0 (sd_DepositBalance <$> l !! i) | None => 0 end.

Lemma side_index_Some l id i : side_index l id = Some i → ∃ d, l !! i = Some d ∧ sd_ChainId d = id.
Proof.
  revert i. induction l as [|d l IH]; intros i; cbn; [done|].
  destruct (bytes_Equal (sd_ChainId d) id) eqn:E.
  - intros [= <-]. exists d. split; [done|by apply bytes_Equal_true].
  - destruct (side_index l id) as [j|]; [|done]. intros [= <-]. by apply IH.
Qed.

Lemma side_index_append l id : side_index l id = None → side_index (l ++ [mkSideDeposit id 0]) id = Some (length l).
Proof.
  induction l as [|d l IH]; cbn; [by rewrite (proj2 (bytes_Equal_true _ _) eq_refl)|].
  destruct (bytes_Equal (sd_ChainId d) id); [done|]. intros H.
  destruct (side_index l id); [done|]. by rewrite IH.
Qed.

Lemma side_get_cons d l id :
  side_get (d :: l) id = if bytes_Equal (sd_ChainId d) id then sd_DepositBalance d else side_get l id.
Proof.
  unfold side_get. cbn. destruct (bytes_Equal (sd_ChainId d) id); [done|]. by destruct (side_index l id).
Qed.

Lemma side_get_append l id id' : side_get (l ++ [mkSideDeposit id 0]) id' = side_get l id'.
Proof.
  induction l as [|d l IH].
  - cbn [app]. rewrite side_get_cons. cbn. by destruct (bytes_Equal id id').
  - cbn [app]. rewrite !side_get_cons, IH. done.
Qed.

Lemma side_get_alter l id i v : side_index l id = Some i →
  side_get (alter (λ e, mkSideDeposit (sd_ChainId e) v) i l) = <[id := v]> (side_get l).
Proof.
  intros H. apply functional_extensionality. intros id'. revert i H.
  induction l as [|d l IH]; intros i H; cbn in H; [done|].
  destruct (bytes_Equal (sd_ChainId d) id) eqn:E.
  - injection H as <-. cbn. rewrite side_get_cons. cbn. apply bytes_Equal_true in E as <-.
    destruct (decide (sd_ChainId d = id')) as [->|Hne].
    + by rewrite (proj2 (bytes_Equal_true _ _) eq_refl), fn_lookup_insert.
    + rewrite fn_lookup_insert_ne, side_get_cons by done. unfold bytes_Equal. by rewrite bool_decide_eq_false_2.
  - destruct (side_index l id) as [j|] eqn:Ej; [|done]. injection H as <-. cbn. rewrite side_get_cons. cbn.
    rewrite (IH j eq_refl). destruct (decide (id = id')) as [->|Hne]; [by rewrite !fn_lookup_insert, E|].
    by rewrite !fn_lookup_insert_ne, side_get_cons by done.
Qed.

Lemma obj_rel_append db addr o aa id : obj_rel db addr o aa →
  let l := acc_SideChainDepositBalance (so_data o) ++ [mkSideDeposit id 0] in
  obj_rel db addr (o<| so_data ::= λ d, d<| acc_SideChainDepositBalance := l |> |>) aa.
Proof.
  intros [? ? ? ? ? Hs ? ? ? ? ? ?] l. constructor; try done. intros id'. rewrite <-Hs. apply side_get_append.
Qed.

Lemma obj_rel_set_side db addr o aa id i v : obj_rel db addr o aa →
  side_index (acc_SideChainDepositBalance (so_data o)) id = Some i →
  obj_rel db addr (o<| so_data ::= λ d, d<| acc_SideChainDepositBalance ::=
    alter (λ e, mkSideDeposit (sd_ChainId e) v) i |> |>) (aa<| a_side ::= <[id := v]> |>).
Proof.
  intros [? ? ? ? ? Hs ? ? ? ? ? ?] Hi. constructor; try done. intros id'. cbn.
  assert (a_side aa = side_get (acc_SideChainDepositBalance (so_data o))) as ->.
  { apply functional_extensionality. intros x. by rewrite <-Hs. }
  by rewrite <-(side_get_alter _ _ _ _ Hi).
Qed.

Lemma find_or_append_run db addr id o (s : StateDB DB T) aa : obj_rel db addr o aa →
  ∃ o' i, find_or_append id (o, s) = Ret (i, (o', s)) ∧ obj_rel db addr o' aa ∧
    side_index (acc_SideChainDepositBalance (so_data o')) id = Some i.
Proof.
  intros Ho. unfold find_or_append, mbind, stM_bind. cbn.
  destruct (side_index (acc_SideChainDepositBalance (so_data o)) id) as [i|] eqn:E; [by exists o, i|].
  eexists _, _. split; [done|]. split; [by apply obj_rel_append|]. cbn. rewrite side_index_append by done.
  f_equal. rewrite length_app. cbn. lia.
Qed.

Lemma quiet_set_side db addr aa id v :
  quiet db addr (index ← find_or_append id; setSideChainDepositBalance index v) aa (aa<| a_side ::= <[id := v]> |>) ().
Proof.
  intros o s Hdb Ho. destruct (find_or_append_run db addr id o s aa Ho) as (o1 & i & E & Ho1 & Hi).
  unfold mbind, stM_bind. rewrite E.
  assert (H := quiet_mark_dirty db addr (aa<| a_side ::= <[id := v]> |>)).
  eapply (H _ s Hdb), obj_rel_set_side; done.
Qed.

Lemma or_side_get db addr o aa id : obj_rel db addr o aa →
  side_get (acc_SideChainDepositBalance (so_data o)) id = a_side aa id.
Proof. intros Ho. by rewrite <-(or_side _ _ _ _ Ho). Qed.

(** ** Objects in the database *)

Lemma acct_rel_ext s s' base addr oa :
  s_db s' = s_db s → s_stateObjects s' !! addr = s_stateObjects s !! addr →
  acct_rel s base addr oa → acct_rel s' base addr oa.
Proof. unfold acct_rel. by intros -> ->. Qed.

(** Methods that change nothing but the caches. *)
Definition unmoved (s s' : StateDB DB T) : Prop := keeps s s' ∧ s_journal s' = s_journal s.

Lemma abs_put s a addr o aa s' : abs s a → obj_rel (s_db s) addr o aa →
  s' = s<| s_stateObjects ::= <[addr := o]> |> → abs s' (set_acct addr (Some aa) a).
Proof.
  intros [? Hacc ? ? ? ? ? ? ? ? ?] Ho ->. constructor; try done. intros addr' Hk. unfold acct_rel. cbn.
  destruct (decide (addr = addr')) as [->|Hne].
  - rewrite lookup_insert_eq, (or_deleted _ _ _ _ Ho), fn_lookup_insert. by exists aa.
  - rewrite lookup_insert_ne, fn_lookup_insert_ne by done. by apply Hacc.
Qed.

Lemma getStateObject_run s a addr : abs s a → key_ok addr →
  ∃ s' oo, getStateObject addr s = Ret (oo, s') ∧ abs s' a ∧ unmoved s s' ∧
    match oo with
    | None => as_acct a addr = None ∧ base_account (as_base a addr) = None ∧ (∀ o, s_stateObjects s' !! addr = Some o → so_deleted o = true)
    | Some o => ∃ aa, as_acct a addr = Some aa ∧ obj_rel (s_db s) addr o aa
    end.
Proof.
  intros Ha Hk. pose proof (ab_acct _ _ Ha addr Hk) as Hr. unfold acct_rel in Hr.
  unfold getStateObject. srun. destruct (s_stateObjects s !! addr) as [o|] eqn:Eo.
  { exists s, (if so_deleted o then None else Some o). split_and!; try done.
    destruct (so_deleted o) eqn:Ed; [|done]. split_and!; [by apply Hr|by apply Hr|congruence]. }
  destruct (den_get _ _ _ addr (ab_trie _ _ Ha) Hk) as (t' & E & Ht' & Hpre).
  erewrite sbind_run by (unfold slift; rewrite E; reflexivity). srun.
  assert (Ha' : abs (s<| s_trie := t' |>) a).
  { destruct Ha. constructor; try done. intros h. cbn. by rewrite Hpre. }
  unfold base_account in *. destruct (default [] (as_base a addr)) as [|x enc].
  - srun. eexists _, None. split; [done|]. change (s_dbErr s<| s_trie := t' |>) with (s_dbErr s).
    destruct (s_dbErr s); split_and!; try done; try (by destruct Ha'; constructor); cbn; congruence.
  - destruct (decodeAccount (x :: enc)) as [d|e].
    + destruct Hr as (aa & Haa & Hobj). srun. eexists _, _. split; [done|]. split_and!; [|done|by exists aa].
      rewrite <-(set_acct_id addr (Some aa) a Haa). eapply abs_put; [exact Ha'|exact Hobj|done].
    + eexists _, None. split; [done|]. split_and!; try done. cbn. congruence.
Qed.

(** Running a quiet method on an account. *)
Lemma call_quiet {A} s a addr o aa aa' (m : OM A) r :
  abs s a → obj_rel (s_db s) addr o aa → quiet (s_db s) addr m aa aa' r →
  ∃ s', call o m s = Ret (r, s') ∧ abs s' (set_acct addr (Some aa') a) ∧ unmoved s s'.
Proof.
  intros Ha Ho Hm. destruct (Hm o s eq_refl Ho) as (o' & es & d & E & Ho' & ->).
  unfold call. rewrite E, (or_address _ _ _ _ Ho'). eexists. split; [done|]. split.
  - eapply (abs_put (s<| s_stateObjectsDirty := d |>)); [|exact Ho'|].
    + destruct Ha. by constructor.
    + destruct s. unfold rec_upd. cbn. by rewrite app_nil_r.
  - split; [done|]. cbn. by rewrite app_nil_r.
Qed.

Lemma on_existing_undoes db addr e (m : OM ()) aa aa' :
  key_ok addr → undo e = on_existing addr m → quiet db addr m aa' aa () → lrewinds db addr [e] aa' aa.
Proof.
  intros Hk He Hm a Ha. apply rewinds_one. intros s Hdb Hs. rewrite He. subst db.
  destruct (getStateObject_run s a addr Hs Hk) as (s1 & oo & E1 & Hs1 & [(Hd & Hv & Hn) Hj] & Hoo).
  unfold on_existing. srun.
  destruct oo as [o|]; [|by destruct Hoo as [? _]; congruence]. destruct Hoo as (aa1 & Haa & Ho).
  assert (aa1 = aa') as -> by congruence. rewrite <-Hd in Ho, Hm.
  destruct (call_quiet s1 a addr o aa' aa m () Hs1 Ho Hm) as (s2 & E2 & Hs2 & [(?&?&?) ?]).
  exists s2. unfold keeps. split_and!; try done; congruence.
Qed.

(** ** Journaled methods *)

Lemma osem_jot db addr e (m : OM ()) aa aa' :
  (∀ o, obj_rel db addr o aa → lrewinds db addr [e o] aa' aa) → quiet db addr m aa aa' () →
  osem db addr (jot e;; m) aa aa' ().
Proof.
  intros He Hm o s Hdb Ho. unfold jot. srun.
  pose (s1 := s<| s_journal ::= λ j, j ++ [e o] |>).
  destruct (Hm o s1 Hdb Ho) as (o' & es & d & E & Ho' & ->).
  exists o', [e o], d. split_and!; [|done|by apply He]. etrans; [exact E|].
  destruct s. unfold rec_upd. cbn. by rewrite app_nil_r.
Qed.

Lemma osem_self {A} db addr (f : stateObject T → OM A) aa aa' r :
  (∀ o, obj_rel db addr o aa → osem db addr (f o) aa aa' r) → osem db addr (self ≫= f) aa aa' r.
Proof. apply orun_self. Qed.

Lemma aacct_data_undo aa f g : (∀ d, f (g d) = d) → aa<| a_data ::= g |><| a_data ::= f |> = aa.
Proof. intros H. destruct aa. unfold rec_upd. cbn. by rewrite H. Qed.

(** A field of the data. *)
Lemma osem_field {V} db addr (get : Account → V) (set : V → Account → Account)
    (e : bytes → V → journalEntry T) v aa :
  key_ok addr → (∀ v, plain (set v)) → (∀ d, get (d<| acc_SideChainDepositBalance := [] |>) = get d) →
  (∀ d, set (get d) (set v d) = d) → (∀ v, undo (e addr v) = on_existing addr (set_data (set v))) →
  osem db addr (jot (λ o, e (so_address o) (get (so_data o)));; set_data (set v)) aa (aa<| a_data ::= set v |>) ().
Proof.
  intros Hk Hp Hg Hs He. apply osem_jot; [|by apply quiet_set_data].
  intros o Ho. rewrite (or_address _ _ _ _ Ho), <-(Hg (so_data o)), <-(or_data _ _ _ _ Ho).
  eapply on_existing_undoes; [done|apply He|].
  pose proof (quiet_set_data db addr (set (get (a_data aa))) (aa<| a_data ::= set v |>) (Hp _)) as Hq.
  replace (aa<| a_data ::= set v |><| a_data ::= set (get (a_data aa)) |>) with aa in Hq; [done|].
  destruct aa. unfold rec_upd. cbn. by rewrite Hs.
Qed.

Ltac plain_tac := intros; constructor; intros; [reflexivity|reflexivity|split_and!; reflexivity].

Lemma abs_dirty s a d : abs s a → abs (s<| s_stateObjectsDirty := d |>) a.
Proof. intros []. by constructor. Qed.

Lemma touch_undoes db addr prev prevDirty aa : key_ok addr →
  lrewinds db addr [touchChange addr prev prevDirty] aa aa.
Proof.
  intros Hk a Ha. apply rewinds_one. rewrite set_acct_id by done. intros s Hdb Hs. subst db. cbn [undo].
  destruct (negb prev && negb (bool_decide (addr = ripemd))); [|by exists s].
  destruct (getStateObject_run s a addr Hs Hk) as (s1 & oo & E1 & Hs1 & [(Hd & Hv & Hn) Hj] & Hoo).
  destruct oo as [o|]; [|by destruct Hoo as [? _]; congruence]. destruct Hoo as (aa1 & Haa & Ho).
  assert (Hq : quiet (s_db s1) addr (modify_self (λ o, o<| so_touched := prev |>)) aa1 aa1 ()).
  { apply quiet_modify. intros o' Ho'. same_rel Ho'. }
  rewrite <-Hd in Ho.
  destruct (call_quiet s1 a addr o aa1 aa1 _ () Hs1 Ho Hq) as (s2 & E2 & Hs2 & [(?&?&?) ?]).
  rewrite set_acct_id in Hs2 by done.
  assert (E : on_existing addr (modify_self (λ o, o<| so_touched := prev |>)) s = Ret ((), s2)).
  { unfold on_existing. srun. exact E2. }
  srun. destruct prevDirty.
  - exists s2. unfold keeps. split_and!; try done; congruence.
  - eexists. split; [done|]. split; [by apply abs_dirty|]. unfold keeps. cbn. split_and!; congruence.
Qed.

Lemma osem_touch db addr aa : key_ok addr → osem db addr touch aa aa ().
Proof.
  intros Hk. apply osem_jot.
  - intros o Ho. rewrite (or_address _ _ _ _ Ho). by apply touch_undoes.
  - eapply quiet_bind; [apply quiet_mark_dirty|]. apply quiet_modify. intros o Ho. same_rel Ho.
Qed.

Lemma aacct_data_id aa f : f (a_data aa) = a_data aa → aa<| a_data ::= f |> = aa.
Proof. intros H. destruct aa. unfold rec_upd. cbn in *. by rewrite H. Qed.

Section amounts.
  Context (db : DB) (addr : bytes) (aa : aacct) (get : Account → Z) (set : Z → Account → Account) (SetX : Z → OM ()).
  Context (Hk : key_ok addr) (Hget : ∀ d, get (d<| acc_SideChainDepositBalance := [] |>) = get d).
  Context (Hset : ∀ d, set (get d) d = d) (HX : ∀ v, osem db addr (SetX v) aa (aa<| a_data ::= set v |>) ()).

Lemma get_data o : obj_rel db addr o aa → get (so_data o) = get (a_data aa).
Proof using Hget. intros Ho. by rewrite (or_data _ _ _ _ Ho), Hget. Qed.

Lemma osem_add amount :
  osem db addr (add_amount amount (λ c, SetX (get (so_data c) + amount))) aa
    (aa<| a_data ::= λ d, set (get d + amount) d |>) ().
Proof using All.
  apply osem_self. intros o Ho. rewrite (get_data o Ho). destruct (Z.eqb_spec amount 0) as [->|_].
  - rewrite aacct_data_id by (by rewrite Z.add_0_r). destruct (empty o); [by apply osem_touch|apply osem_ret].
  - replace (aa<| a_data ::= λ d, set (get d + amount) d |>) with (aa<| a_data ::= set (get (a_data aa) + amount) |>)
      by (by destruct aa). apply HX.
Qed.

Lemma osem_sub amount :
  osem db addr (sub_amount amount (λ c, SetX (get (so_data c) - amount))) aa
    (aa<| a_data ::= λ d, set (get d - amount) d |>) ().
Proof using All.
  apply osem_self. intros o Ho. rewrite (get_data o Ho). destruct (Z.eqb_spec amount 0) as [->|_].
  - rewrite aacct_data_id by (by rewrite Z.sub_0_r). apply osem_ret.
  - replace (aa<| a_data ::= λ d, set (get d - amount) d |>) with (aa<| a_data ::= set (get (a_data aa) - amount) |>)
      by (by destruct aa). apply HX.
Qed.
End amounts.

(** Entries of the tries, code and side chains. *)
Lemma osem_SetState db addr aa k v : key_ok addr → key_ok k →
  osem db addr (StateObject.SetState k v) aa (aa<| a_storage ::= <[k := v]> |>) ().
Proof.
  intros Ha Hk. eapply osem_bind; [by apply quiet_osem, quiet_GetState|]. apply osem_jot; [|by apply quiet_setState].
  intros o Ho. rewrite (or_address _ _ _ _ Ho). eapply on_existing_undoes; [done|reflexivity|].
  pose proof (quiet_setState db addr (aa<| a_storage ::= <[k := v]> |>) k (a_storage aa k) Hk) as Hq.
  replace (aa<| a_storage ::= <[k := v]> |><| a_storage ::= <[k := a_storage aa k]> |>) with aa in Hq; [done|].
  destruct aa. unfold rec_upd. cbn. f_equal. by rewrite fn_insert_twice, fn_insert_id.
Qed.

Lemma osem_SetProxied db addr aa k v : key_ok addr → key_ok k →
  osem db addr (SetAccountProxiedBalance k v) aa (aa<| a_proxied ::= <[k := v]> |>) ().
Proof.
  intros Ha Hk. eapply osem_bind; [by apply quiet_osem, quiet_GetProxied|]. apply osem_jot; [|by apply quiet_setProxied].
  intros o Ho. rewrite (or_address _ _ _ _ Ho). eapply on_existing_undoes; [done|reflexivity|].
  pose proof (quiet_setProxied db addr (aa<| a_proxied ::= <[k := v]> |>) k (a_proxied aa k) Hk) as Hq.
  replace (aa<| a_proxied ::= <[k := v]> |><| a_proxied ::= <[k := a_proxied aa k]> |>) with aa in Hq; [done|].
  destruct aa. unfold rec_upd. cbn. f_equal. by rewrite fn_insert_twice, fn_insert_id.
Qed.

Lemma osem_SetReward db addr aa k v : key_ok addr → key_ok (reward_key k) →
  osem db addr (SetDelegateRewardBalance k v) aa (aa<| a_reward ::= <[k := v]> |>) ().
Proof.
  intros Ha Hk. eapply osem_bind; [by apply quiet_osem, quiet_GetReward|]. apply osem_jot; [|by apply quiet_setReward].
  intros o Ho. rewrite (or_address _ _ _ _ Ho). eapply on_existing_undoes; [done|reflexivity|].
  pose proof (quiet_setReward db addr (aa<| a_reward ::= <[k := v]> |>) k (a_reward aa k) Hk) as Hq.
  replace (aa<| a_reward ::= <[k := v]> |><| a_reward ::= <[k := a_reward aa k]> |>) with aa in Hq; [done|].
  destruct aa. unfold rec_upd. cbn. f_equal. by rewrite fn_insert_twice, fn_insert_id.
Qed.

(** A transaction that is already there is lost when its second addition is undone. *)
Lemma osem_AddTX1 db addr aa h : key_ok addr → key_ok h → a_tx1 aa h = false →
  osem db addr (StateObject.AddTX1 h) aa (aa<| a_tx1 ::= <[h := true]> |>) ().
Proof.
  intros Ha Hk Hn. apply osem_jot; [|by apply quiet_addTX1].
  intros o Ho. rewrite (or_address _ _ _ _ Ho). eapply on_existing_undoes; [done|reflexivity|].
  assert (Hf : tx_val h (f_tx1 aa h) = false).
  { destruct (or_tx1 _ _ _ _ Ho) as [_ Hv]. rewrite (Hv h Hk) in Hn. by apply orb_false_iff in Hn as [_ ?]. }
  pose (aa1 := aa<| a_tx1 ::= <[h := true]> |>). pose proof (quiet_removeTX1 db addr aa1 h Hk Hf) as Hq.
  replace (aa1<| a_tx1 ::= <[h := false]> |>) with aa in Hq; [done|].
  destruct aa. unfold aa1, rec_upd. cbn in *. f_equal. by rewrite fn_insert_twice, fn_insert_id.
Qed.

Lemma osem_AddTX3 db addr aa h : key_ok addr → key_ok h → a_tx3 aa h = false →
  osem db addr (StateObject.AddTX3 h) aa (aa<| a_tx3 ::= <[h := true]> |>) ().
Proof.
  intros Ha Hk Hn. apply osem_jot; [|by apply quiet_addTX3].
  intros o Ho. rewrite (or_address _ _ _ _ Ho). eapply on_existing_undoes; [done|reflexivity|].
  assert (Hf : tx_val h (f_tx3 aa h) = false).
  { destruct (or_tx3 _ _ _ _ Ho) as [_ Hv]. rewrite (Hv h Hk) in Hn. by apply orb_false_iff in Hn as [_ ?]. }
  pose (aa1 := aa<| a_tx3 ::= <[h := true]> |>). pose proof (quiet_removeTX3 db addr aa1 h Hk Hf) as Hq.
  replace (aa1<| a_tx3 ::= <[h := false]> |>) with aa in Hq; [done|].
  destruct aa. unfold aa1, rec_upd. cbn in *. f_equal. by rewrite fn_insert_twice, fn_insert_id.
Qed.

Lemma osem_SetCode db addr aa code : key_ok addr →
  let hash := keccak256 (default [] code) in
  osem db addr (StateObject.SetCode hash code) aa (with_code hash code aa) ().
Proof using KLaws.
  intros Ha hash. eapply osem_bind; [apply quiet_osem, quiet_Code|]. apply osem_jot.
  2: { apply quiet_setCode; [apply keccak_length|by intros ->]. }
  intros o Ho. destruct (or_hash _ _ _ _ Ho) as [Hl [h Hh]]. pose proof (or_code _ _ _ _ Ho) as Hc.
  pose proof (or_data _ _ _ _ Ho) as Hd.
  rewrite (or_address _ _ _ _ Ho). eapply on_existing_undoes; [done|reflexivity|].
  rewrite BytesToHash_id by done.
  pose proof (quiet_setCode db addr (with_code hash code aa) (CodeHash o) (a_code aa)) as Hq.
  replace (with_code (CodeHash o) (a_code aa) (with_code hash code aa)) with aa in Hq.
  - apply Hq; [done|]. intros Hn. rewrite Hn in Hc. unfold code_rel in Hc.
    destruct (so_code o); [done|]. destruct (bytes_Equal (CodeHash o) emptyCodeHash) eqn:E.
    + by apply bytes_Equal_true.
    + by destruct Hc as [[? ?] _].
  - destruct aa as [d ? ? ? ? ? ? ? ? ? ? ? ? ?]. cbn in Hd. unfold with_code, rec_upd, CodeHash. cbn. f_equal.
    rewrite Hd, Hh. cbn. by rewrite <-Hh.
Qed.

Lemma osem_SetSide db addr aa id v : key_ok addr →
  osem db addr (StateObject.SetSideChainDepositBalance id v) aa (aa<| a_side ::= <[id := v]> |>) ().
Proof.
  intros Ha o s Hdb Ho. destruct (find_or_append_run db addr id o s aa Ho) as (o1 & i & E & Ho1 & Hi).
  unfold StateObject.SetSideChainDepositBalance. srun.
  assert (Hprev : default 0 (sd_DepositBalance <$> acc_SideChainDepositBalance (so_data o1) !! i) = a_side aa id).
  { rewrite <-(or_side_get _ _ _ _ id Ho1). unfold side_get. by rewrite Hi. }
  pose (s1 := s<| s_journal ::= λ j, j ++ [sideChainDepositBalanceChange addr id (a_side aa id)] |>).
  assert (H := quiet_mark_dirty db addr (aa<| a_side ::= <[id := v]> |>)).
  destruct (H _ s1 Hdb (obj_rel_set_side _ _ _ _ _ _ v Ho1 Hi)) as (o2 & es & d & E2 & Ho2 & ->).
  exists o2, [sideChainDepositBalanceChange addr id (a_side aa id)], d. split_and!; [|done|].
  - unfold jot. srun. cbn [fst snd]. rewrite (or_address _ _ _ _ Ho1), Hprev. etrans; [exact E2|].
    destruct s. unfold s1, rec_upd. cbn. by rewrite app_nil_r.
  - eapply on_existing_undoes; [done|reflexivity|].
    pose proof (quiet_set_side db addr (aa<| a_side ::= <[id := v]> |>) id (a_side aa id)) as Hq.
    replace (aa<| a_side ::= <[id := v]> |><| a_side ::= <[id := a_side aa id]> |>) with aa in Hq; [done|].
    destruct aa. unfold rec_upd. cbn. f_equal. by rewrite fn_insert_twice, fn_insert_id.
Qed.

Lemma osem_AddSide db addr aa id amount : key_ok addr →
  osem db addr (StateObject.AddSideChainDepositBalance id amount) aa
    (aa<| a_side ::= λ f, <[id := f id + amount]> f |>) ().
Proof.
  intros Ha. apply osem_self. intros o Ho.
  replace (StateObject.SideChainDepositBalance o id) with (a_side aa id) by (symmetry; apply (or_side _ _ _ _ Ho)).
  destruct (Z.eqb_spec amount 0) as [->|_]; [|by apply osem_SetSide].
  replace (aa<| a_side ::= λ f, <[id := f id + 0]> f |>) with aa.
  - destruct (empty o); [by apply osem_touch|apply osem_ret].
  - destruct aa. unfold rec_upd. cbn. f_equal. by rewrite Z.add_0_r, fn_insert_id.
Qed.

Lemma osem_SubSide db addr aa id amount : key_ok addr →
  osem db addr (StateObject.SubSideChainDepositBalance id amount) aa
    (aa<| a_side ::= λ f, <[id := f id - amount]> f |>) ().
Proof.
  intros Ha. apply osem_self. intros o Ho.
  replace (StateObject.SideChainDepositBalance o id) with (a_side aa id) by (symmetry; apply (or_side _ _ _ _ Ho)).
  destruct (Z.eqb_spec amount 0) as [->|_]; [|by apply osem_SetSide].
  replace (aa<| a_side ::= λ f, <[id := f id - 0]> f |>) with aa.
  - apply osem_ret.
  - destruct aa. unfold rec_upd. cbn. f_equal. by rewrite Z.sub_0_r, fn_insert_id.
Qed.

(** ** Methods of the database *)

Definition new_acct : aacct :=
  mkAcct (zeroAccount<| acc_CodeHash := Some emptyCodeHash |>) None (λ _, 0) (λ _, zeroHash) (λ _, false)
    (λ _, false) (λ _, None) (λ _, None) false (λ _, None) (λ _, None) (λ _, None) (λ _, None) (λ _, None) (λ _, None) (λ _, None).

Definition get_or_new (a : astate) (addr : bytes) : aacct := default new_acct (as_acct a addr).

Lemma obj_rel_new db addr t f : den db t f → obj_rel db addr (newObject addr zeroAccount true) new_acct.
Proof using KLaws.
  intros Hd. assert (Hz : opens db zeroHash (λ _, None)) by (destruct (den_zero db t f Hd) as (t' & ? & ?); by exists t').
  constructor; try done.
  - split; [apply keccak_length|by eexists].
  - unfold code_rel, CodeHash. cbn. by rewrite (proj2 (bytes_Equal_true _ _) eq_refl).
Qed.

Lemma create_undoes db addr a : base_account (as_base a addr) = None →
  undoes db (createObjectChange addr) a (set_acct addr None a).
Proof.
  intros Hb s Hdb Ha. eexists. split; [done|]. split_and!; try done.
  destruct Ha as [? Hacc ? ? ? ? ? ? ? ? ?]. constructor; try done. intros addr' Hk'. unfold acct_rel. cbn.
  destruct (decide (addr = addr')) as [->|Hne].
  - rewrite lookup_delete_eq, fn_lookup_insert, Hb. done.
  - rewrite lookup_delete_ne, fn_lookup_insert_ne by done. by apply Hacc.
Qed.

Lemma reset_undoes db addr prev aa a : obj_rel db addr prev aa →
  undoes db (resetObjectChange prev) a (set_acct addr (Some aa) a).
Proof.
  intros Ho s Hdb Ha. subst db. eexists. split; [done|]. split_and!; try done.
  eapply abs_put; [exact Ha|exact Ho|]. by rewrite (or_address _ _ _ _ Ho).
Qed.

(** [createObject] puts a new account in place of whatever there is. *)
Lemma createObject_run s a addr : abs s a → key_ok addr →
  ∃ s' newobj prev e, createObject addr s = Ret ((newobj, prev), s') ∧
    abs s' (set_acct addr (Some new_acct) a) ∧ keeps s s' ∧ s_journal s' = s_journal s ++ [e] ∧
    obj_rel (s_db s) addr newobj new_acct ∧
    match prev with
    | None => as_acct a addr = None
    | Some p => ∃ aa, as_acct a addr = Some aa ∧ obj_rel (s_db s) addr p aa
    end ∧
    (∀ aa1, undoes (s_db s) e (set_acct addr (Some aa1) a) a).
Proof using KLaws.
  intros Ha Hk. destruct (getStateObject_run s a addr Ha Hk) as (s1 & oo & E1 & Ha1 & [(Hd & Hv & Hn) Hj] & Hoo).
  unfold createObject. srun. srun.
  assert (Hp : plain (λ d, d<| acc_Nonce := 0 |>)) by plain_tac.
  pose proof (obj_rel_new (s_db s1) addr _ _ (ab_trie _ _ Ha1)) as Hnew.
  destruct (quiet_set_data (s_db s1) addr _ new_acct Hp _ s1 eq_refl Hnew) as (o' & es & d & E & Ho' & ->).
  change (new_acct<| a_data ::= λ d, d<| acc_Nonce := 0 |> |>) with new_acct in Ho'.
  erewrite sbind_run by (unfold slift, setNonce; rewrite E; reflexivity). cbn beta iota. srun. srun. srun.
  eexists _, o', oo, _. split; [done|]. cbn [s_journal].
  split_and!.
  - rewrite (or_address _ _ _ _ Ho').
    eapply (abs_put (s1<| s_journal ::= λ j, (j ++ []) ++ [match oo with None => createObjectChange addr | Some prev => resetObjectChange prev end] |>
      <| s_stateObjectsDirty := d |>)); [|exact Ho'|by destruct s1].
    destruct Ha1. by constructor.
  - done.
  - cbn. by rewrite app_nil_r, Hj.
  - by rewrite <-Hd.
  - destruct oo as [p|]; [done|apply Hoo].
  - intros aa1. destruct oo as [p|].
    + destruct Hoo as (aa & Haa & Hp'). pose proof (reset_undoes _ addr p aa (set_acct addr (Some aa1) a) Hp') as H.
      by rewrite set_acct_twice, (set_acct_id addr (Some aa) a Haa) in H.
    + destruct Hoo as (Hnone & Hb & _). pose proof (create_undoes (s_db s) addr (set_acct addr (Some aa1) a) Hb) as H.
      by rewrite set_acct_twice, (set_acct_id addr None a Hnone) in H.
Qed.

End relation.
