(* ===== verification/StateTrie.v ===== *)
(** * Tries of a state database (core/state/database.go)

    [cachingDB]: the tries that a state database opens are secure tries over the
    in-memory node database, and codes are its blobs.  This discharges what the state
    database relies on. *)

From Stdlib Require Import ZArith Lia ZifyBool.
From stdpp Require Import base tactics strings numbers gmap functions list.
From S2P Require Import Prelude Rlp RlpDecode Trie TrieNodes TrieDb TrieHash TrieIter.
From S2P Require Import StateObject StateDb StateSpec.

Local Open Scope Z_scope.

Section caching_db.
  Context {KL : KeccakLib}.

(** A panic of a trie is a panic of its caller. *)
Definition lift_tr {A} (r : TR A) : outcome (A + trieErr) :=
  match r with inr (TriePanic w) => Panic w | r => Ret r end.

#[global] Instance cachingDB : StateDatabase Database SecureTrie := {|
  OpenTrie root db := lift_tr (NewSecure root db);
  t_TryGet db t key := lift_tr (Secure_TryGet db t key);
  t_TryUpdate db t key value := lift_tr (Secure_TryUpdate db t key value);
  t_TryDelete db t key := lift_tr (Secure_TryDelete db t key);
  t_Hash t := r ← Hash (st_root t); Ret (r.1, mkSecure r.2 (st_secKeyCache t));
  t_GetKey db t hash := default [] (GetKey db t hash);
  t_Iterate fuel db t :=
    r ← Hash (st_root t);
    x ← iterate (db_node db) fuel (st_root t) [];
    Ret (x.1, mkSecure r.2 (st_secKeyCache t));
  t_Commit onleaf t db := Secure_Commit onleaf t db;
  ContractCode db codeHash := db_Node db codeHash;
  db_InsertBlob hash blob db := InsertBlob hash blob db;
  db_Reference child parent db := reference child parent db
|}.

(** [m] holds the entries of [f] under their hashed keys, and no others. *)
Definition hashed (m : gmap bytes bytes) (f : bytes → option bytes) : Prop :=
  (∀ k, f k = m !! hashKey k) ∧ ∀ h, is_Some (m !! h) → ∃ k, h = hashKey k.

Lemma hashed_unique m m' f : hashed m f → hashed m' f → m = m'.
Proof.
  assert (∀ m m' h v, hashed m f → hashed m' f → m !! h = Some v → m' !! h = Some v) as Hle.
  { intros m1 m2 h v [Hf1 Hh1] [Hf2 _] E. destruct (Hh1 h) as [k ->]; [by eexists|]. by rewrite <-Hf2, Hf1. }
  intros H H'. apply map_eq_iff. intros h. apply option_eq. intros v. split; by apply Hle.
Qed.

Lemma hashed_empty : hashed ∅ (λ _, None).
Proof. split; [done|]. intros h [v Hv]. by rewrite lookup_empty in Hv. Qed.

(** What a secure trie holds: a map of the hashed keys. *)
Definition secure_den (db : Database) (t : SecureTrie) (f : bytes → option bytes) : Prop :=
  ∃ m, represents (db_node db) (st_root t) m ∧ hashed m f.

Context {KLaws : KeccakLaws}.

#[global] Program Instance secure_reads : StateReads cachingDB := {|
  key_ok _ := True;
  den := secure_den
|}.
Next Obligation.
  intros db t f k (m & Hr & Hf & Hh) _. destruct (TryGet_spec (db_node db) (st_root t) m (hashKey k) Hr) as (n & E & Hn).
  { apply keccak_bytes. }
  exists (mkSecure n (st_secKeyCache t)). cbn. unfold Secure_TryGet. rewrite E, (Hf k). cbn.
  split; [done|]. split; [by exists m|done].
Qed.
Next Obligation.
  intros db t f _. exists (mkSecure nilNode ∅). split; [done|]. exists ∅. split; [apply represents_empty|apply hashed_empty].
Qed.

End caching_db.
