(* ===== verification/StateRefine.v ===== *)
(** * The state database refines its specification (core/state)

    The methods of the state database as a list of operations, their meaning on the
    abstract state of StateSpec, where a snapshot is a copy, and the theorem that every
    run of the database does what the specification says. *)

From Stdlib Require Import ZArith Lia ZifyBool FunctionalExtensionality.
From stdpp Require Import base tactics strings numbers gmap functions list.
From S2P Require Import Prelude Rlp RlpDecode Trie TrieNodes TrieDb TrieHash.
From S2P Require Import StateObject StateDb StateSpec StateTrie.

Local Open Scope Z_scope.
Local Open Scope record_scope.

(** ** Operations *)

Inductive op :=
| OCreateAccount (addr : bytes)
| OSuicide (addr : bytes)
| OAddBalance (addr : bytes) (v : Z) | OSubBalance (addr : bytes) (v : Z) | OSetBalance (addr : bytes) (v : Z)
| OSetNonce (addr : bytes) (v : Z)
| OSetCode (addr : bytes) (code : option bytes)
| OSetState (addr key value : bytes)
| OAddTX1 (addr h : bytes) | OAddTX3 (addr h : bytes)
| OAddDeposit (addr : bytes) (v : Z) | OSubDeposit (addr : bytes) (v : Z) | OSetDeposit (addr : bytes) (v : Z)
| OAddSide (addr id : bytes) (v : Z) | OSubSide (addr id : bytes) (v : Z) | OSetSide (addr id : bytes) (v : Z)
| OAddChain (addr : bytes) (v : Z) | OSubChain (addr : bytes) (v : Z) | OSetChain (addr : bytes) (v : Z)
| OAddDelegate (addr : bytes) (v : Z) | OSubDelegate (addr : bytes) (v : Z)
| OAddReward (addr : bytes) (v : Z) | OSubReward (addr : bytes) (v : Z)
| OAddAvailable (addr : bytes) (v : Z) | OSubAvailable (addr : bytes) (v : Z)
| OAddProxied (addr user : bytes) (v : Z) | OSubProxied (addr user : bytes) (v : Z)
| OAddDepositProxied (addr user : bytes) (v : Z) | OSubDepositProxied (addr user : bytes) (v : Z)
| OAddPending (addr user : bytes) (v : Z) | OSubPending (addr user : bytes) (v : Z)
| OAddRewardBy (addr dele : bytes) (v : Z) | OSubRewardBy (addr dele : bytes) (v : Z)
| OSetCommission (addr : bytes) (v : Z)
| OApplyForCandidate (addr pubkey : bytes) (commission : Z)
| OCancelCandidate (addr : bytes) (allRefund : bool)
| OSetBanned (addr : bytes) (b : bool) | OSetBannedTime (addr : bytes) (v : Z) | OSetMinedBlocks (addr : bytes) (v : Z)
| OExist (addr : bytes) | OHasSuicided (addr : bytes)
| OGetBalance (addr : bytes) | OGetNonce (addr : bytes) | OGetCode (addr : bytes) | OGetCodeHash (addr : bytes)
| OGetState (addr key : bytes) | OGetCommittedState (addr key : bytes)
| OHasTX1 (addr h : bytes) | OHasTX3 (addr h : bytes)
| OGetDeposit (addr : bytes) | OGetSide (id addr : bytes) | OGetChain (addr : bytes) | OGetDelegate (addr : bytes)
| OGetTotalProxied (addr : bytes) | OGetTotalDepositProxied (addr : bytes) | OGetTotalPending (addr : bytes)
| OGetTotalReward (addr : bytes) | OGetTotalAvailable (addr : bytes)
| OGetProxied (addr user : bytes) | OGetDepositProxied (addr user : bytes) | OGetPending (addr user : bytes)
| OGetRewardBy (addr dele : bytes)
| OIsCandidate (addr : bytes) | OIsClean (addr : bytes) | OGetPubkey (addr : bytes) | OGetCommission (addr : bytes)
| OGetBanned (addr : bytes) | OGetBannedTime (addr : bytes) | OGetMinedBlocks (addr : bytes)
| OAddLog (log : Log) | OGetLogs (h : bytes)
| OAddPreimage (h preimage : bytes)
| OAddRefund (gas : Z) | OSubRefund (gas : Z) | OGetRefund
| OSnapshot | ORevert (id : Z).

Inductive res := RUnit | RZ (z : Z) | RBool (b : bool) | RBytes (b : bytes) | RCode (c : option bytes) | RLogs (l : list Log).

Section exec.
  Context {DB T : Type} {SD : StateDatabase DB T} {KL : KeccakLib}.

Local Abbreviation DM := (stM (StateDB DB T)).

Definition runit (m : DM ()) : DM res := m;; mret RUnit.
Definition rz (m : DM Z) : DM res := z ← m; mret (RZ z).
Definition rbool (m : DM bool) : DM res := b ← m; mret (RBool b).
Definition rbytes (m : DM bytes) : DM res := b ← m; mret (RBytes b).

Definition exec (o : op) : DM res :=
  match o with
  | OCreateAccount a => runit (CreateAccount a)
  | OSuicide a => rbool (Suicide a)
  | OAddBalance a v => runit (AddBalance a v)
  | OSubBalance a v => runit (SubBalance a v)
  | OSetBalance a v => runit (SetBalance a v)
  | OSetNonce a v => runit (SetNonce a v)
  | OSetCode a c => runit (SetCode a c)
  | OSetState a k v => runit (SetState a k v)
  | OAddTX1 a h => runit (AddTX1 a h)
  | OAddTX3 a h => runit (AddTX3 a h)
  | OAddDeposit a v => runit (AddDepositBalance a v)
  | OSubDeposit a v => runit (SubDepositBalance a v)
  | OSetDeposit a v => runit (SetDepositBalance a v)
  | OAddSide a id v => runit (AddSideChainDepositBalance a id v)
  | OSubSide a id v => runit (SubSideChainDepositBalance a id v)
  | OSetSide a id v => runit (SetSideChainDepositBalance a id v)
  | OAddChain a v => runit (AddChainBalance a v)
  | OSubChain a v => runit (SubChainBalance a v)
  | OSetChain a v => runit (SetChainBalance a v)
  | OAddDelegate a v => runit (AddDelegateBalance a v)
  | OSubDelegate a v => runit (SubDelegateBalance a v)
  | OAddReward a v => runit (AddRewardBalance a v)
  | OSubReward a v => runit (SubRewardBalance a v)
  | OAddAvailable a v => runit (AddAvailableRewardBalance a v)
  | OSubAvailable a v => runit (SubAvailableRewardBalance a v)
  | OAddProxied a u v => runit (AddProxiedBalanceByUser a u v)
  | OSubProxied a u v => runit (SubProxiedBalanceByUser a u v)
  | OAddDepositProxied a u v => runit (AddDepositProxiedBalanceByUser a u v)
  | OSubDepositProxied a u v => runit (SubDepositProxiedBalanceByUser a u v)
  | OAddPending a u v => runit (AddPendingRefundBalanceByUser a u v)
  | OSubPending a u v => runit (SubPendingRefundBalanceByUser a u v)
  | OAddRewardBy a d v => runit (AddRewardBalanceByDelegateAddress a d v)
  | OSubRewardBy a d v => runit (SubRewardBalanceByDelegateAddress a d v)
  | OSetCommission a v => runit (SetCommission a v)
  | OApplyForCandidate a p c => runit (ApplyForCandidate a p c)
  | OCancelCandidate a r => runit (CancelCandidate a r)
  | OSetBanned a b => runit (SetBanned a b)
  | OSetBannedTime a v => runit (SetBannedTime a v)
  | OSetMinedBlocks a v => runit (SetMinedBlocks a v)
  | OExist a => rbool (Exist a)
  | OHasSuicided a => rbool (HasSuicided a)
  | OGetBalance a => rz (GetBalance a)
  | OGetNonce a => rz (GetNonce a)
  | OGetCode a => c ← GetCode a; mret (RCode c)
  | OGetCodeHash a => rbytes (GetCodeHash a)
  | OGetState a k => rbytes (GetState a k)
  | OGetCommittedState a k => rbytes (GetCommittedState a k)
  | OHasTX1 a h => rbool (HasTX1 a h)
  | OHasTX3 a h => rbool (HasTX3 a h)
  | OGetDeposit a => rz (GetDepositBalance a)
  | OGetSide id a => rz (GetSideChainDepositBalance id a)
  | OGetChain a => rz (GetChainBalance a)
  | OGetDelegate a => rz (GetDelegateBalance a)
  | OGetTotalProxied a => rz (GetTotalProxiedBalance a)
  | OGetTotalDepositProxied a => rz (GetTotalDepositProxiedBalance a)
  | OGetTotalPending a => rz (GetTotalPendingRefundBalance a)
  | OGetTotalReward a => rz (GetTotalRewardBalance a)
  | OGetTotalAvailable a => rz (GetTotalAvailableRewardBalance a)
  | OGetProxied a u => rz (GetProxiedBalanceByUser a u)
  | OGetDepositProxied a u => rz (GetDepositProxiedBalanceByUser a u)
  | OGetPending a u => rz (GetPendingRefundBalanceByUser a u)
  | OGetRewardBy a d => rz (GetRewardBalanceByDelegateAddress a d)
  | OIsCandidate a => rbool (IsCandidate a)
  | OIsClean a => rbool (IsCleanAddress a)
  | OGetPubkey a => rbytes (GetPubkey a)
  | OGetCommission a => rz (GetCommission a)
  | OGetBanned a => rbool (GetBanned a)
  | OGetBannedTime a => rz (GetBannedTime a)
  | OGetMinedBlocks a => rz (GetMinedBlocks a)
  | OAddLog l => runit (AddLog l)
  | OGetLogs h => l ← GetLogs h; mret (RLogs l)
  | OAddPreimage h p => runit (AddPreimage h p)
  | OAddRefund g => runit (AddRefund g)
  | OSubRefund g => runit (SubRefund g)
  | OGetRefund => rz GetRefund
  | OSnapshot => rz Snapshot
  | ORevert id => runit (RevertToSnapshot id)
  end.

(** A sequence of operations, with the results. *)
Fixpoint exec_all (os : list op) : DM (list res) :=
  match os with
  | [] => mret []
  | o :: os => r ← exec o; rs ← exec_all os; mret (r :: rs)
  end.

(** ** The specification *)

Definition upd_acct (addr : bytes) (f : aacct → aacct) (a : astate) : astate :=
  set_acct addr (Some (f (get_or_new a addr))) a.

Lemma set_acct_other addr oa a x : x ≠ addr → as_acct (set_acct addr oa a) x = as_acct a x.
Proof. intros Hne. cbn. by rewrite fn_lookup_insert_ne. Qed.

Lemma get_or_new_set addr aa a x :
  get_or_new (set_acct addr (Some aa) a) x = if decide (x = addr) then aa else get_or_new a x.
Proof.
  unfold get_or_new. destruct (decide (x = addr)) as [->|Hne]; [by rewrite set_acct_lookup|by rewrite set_acct_other].
Qed.

Lemma get_or_new_upd addr f a x :
  get_or_new (upd_acct addr f a) x = if decide (x = addr) then f (get_or_new a addr) else get_or_new a x.
Proof. apply get_or_new_set. Qed.

Definition on_data (f : Account → Account) (aa : aacct) : aacct := aa<| a_data ::= f |>.

Definition done_unit (a : astate) : option (outcome (res * astate)) := Some (Ret (RUnit, a)).

Definition query (addr : bytes) (dflt : res) (f : aacct → res) (a : astate) : option (outcome (res * astate)) :=
  Some (Ret (match as_acct a addr with Some aa => f aa | None => dflt end, a)).

(** A query that creates the account. *)
Definition query_new (addr : bytes) (f : aacct → res) (a : astate) : option (outcome (res * astate)) :=
  Some (Ret (f (get_or_new a addr), set_acct addr (Some (get_or_new a addr)) a)).

Definition upd_existing (addr : bytes) (f : aacct → aacct) (a : astate) : astate :=
  match as_acct a addr with Some aa => set_acct addr (Some (f aa)) a | None => a end.

(** The balance of a user and the total. *)
Definition upd_user (addr user : bytes) (f : accountProxiedBalance → accountProxiedBalance) (g : Account → Account)
    (a : astate) : astate :=
  upd_acct addr (λ aa, on_data g (aa<| a_proxied ::= λ p, <[user := Some (f (default NewAccountProxiedBalance (p user)))]> p |>)) a.

Definition user_bal (f : accountProxiedBalance → Z) (user : bytes) (aa : aacct) : res :=
  RZ (match a_proxied aa user with None => 0 | Some p => f p end).

(** The operations other than snapshots.  [None]: the specification says nothing, which is
    the case for adding a transaction that is already recorded. *)
Definition spec_op (o : op) (a : astate) : option (outcome (res * astate)) :=
  match o with
  | OCreateAccount x =>
      done_unit (set_acct x (Some (on_data (λ d, d<| acc_Balance :=
        match as_acct a x with Some p => acc_Balance (a_data p) | None => 0 end |>) new_acct)) a)
  | OSuicide x =>
      match as_acct a x with
      | None => Some (Ret (RBool false, a))
      | Some aa =>
          Some (Ret (RBool true, set_acct x (Some (on_data (λ d, d<| acc_Balance := 0 |>) aa<| a_suicided := true |>)) a))
      end
  | OAddBalance x v => done_unit (upd_acct x (on_data (λ d, d<| acc_Balance ::= λ b, b + v |>)) a)
  | OSubBalance x v => done_unit (upd_acct x (on_data (λ d, d<| acc_Balance ::= λ b, b - v |>)) a)
  | OSetBalance x v => done_unit (upd_acct x (on_data (λ d, d<| acc_Balance := v |>)) a)
  | OSetNonce x v => done_unit (upd_acct x (on_data (λ d, d<| acc_Nonce := v |>)) a)
  | OSetCode x c => done_unit (upd_acct x (with_code (keccak256 (default [] c)) c) a)
  | OSetState x k v => done_unit (upd_acct x (λ aa, aa<| a_storage ::= <[k := v]> |>) a)
  | OAddTX1 x h =>
      if a_tx1 (get_or_new a x) h then None else done_unit (upd_acct x (λ aa, aa<| a_tx1 ::= <[h := true]> |>) a)
  | OAddTX3 x h =>
      if a_tx3 (get_or_new a x) h then None else done_unit (upd_acct x (λ aa, aa<| a_tx3 ::= <[h := true]> |>) a)
  | OAddDeposit x v => done_unit (upd_acct x (on_data (λ d, d<| acc_DepositBalance ::= λ b, b + v |>)) a)
  | OSubDeposit x v => done_unit (upd_acct x (on_data (λ d, d<| acc_DepositBalance ::= λ b, b - v |>)) a)
  | OSetDeposit x v => done_unit (upd_acct x (on_data (λ d, d<| acc_DepositBalance := v |>)) a)
  | OAddSide x id v => done_unit (upd_acct x (λ aa, aa<| a_side ::= λ f, <[id := f id + v]> f |>) a)
  | OSubSide x id v => done_unit (upd_acct x (λ aa, aa<| a_side ::= λ f, <[id := f id - v]> f |>) a)
  | OSetSide x id v => done_unit (upd_acct x (λ aa, aa<| a_side ::= <[id := v]> |>) a)
  | OAddChain x v => done_unit (upd_acct x (on_data (λ d, d<| acc_ChainBalance ::= λ b, b + v |>)) a)
  | OSubChain x v => done_unit (upd_acct x (on_data (λ d, d<| acc_ChainBalance ::= λ b, b - v |>)) a)
  | OSetChain x v => done_unit (upd_acct x (on_data (λ d, d<| acc_ChainBalance := v |>)) a)
  | OAddDelegate x v => done_unit (upd_acct x (on_data (λ d, d<| acc_DelegateBalance ::= λ b, b + v |>)) a)
  | OSubDelegate x v => done_unit (upd_acct x (on_data (λ d, d<| acc_DelegateBalance ::= λ b, b - v |>)) a)
  | OAddReward x v => done_unit (upd_acct x (on_data (λ d, d<| acc_RewardBalance ::= λ b, b + v |>)) a)
  | OSubReward x v => done_unit (upd_acct x (on_data (λ d, d<| acc_RewardBalance ::= λ b, b - v |>)) a)
  | OAddAvailable x v => done_unit (upd_existing x (on_data (λ d, d<| acc_AvailableRewardBalance ::= λ b, b + v |>)) a)
  | OSubAvailable x v => done_unit (upd_existing x (on_data (λ d, d<| acc_AvailableRewardBalance ::= λ b, b - v |>)) a)
  | OAddProxied x u v =>
      done_unit (upd_user x u (λ p, p<| pb_ProxiedBalance ::= λ b, b + v |>) (λ d, d<| acc_ProxiedBalance ::= λ b, b + v |>) a)
  | OSubProxied x u v =>
      done_unit (upd_user x u (λ p, p<| pb_ProxiedBalance ::= λ b, b - v |>) (λ d, d<| acc_ProxiedBalance ::= λ b, b - v |>) a)
  | OAddDepositProxied x u v =>
      done_unit (upd_user x u (λ p, p<| pb_DepositProxiedBalance ::= λ b, b + v |>)
        (λ d, d<| acc_DepositProxiedBalance ::= λ b, b + v |>) a)
  | OSubDepositProxied x u v =>
      done_unit (upd_user x u (λ p, p<| pb_DepositProxiedBalance ::= λ b, b - v |>)
        (λ d, d<| acc_DepositProxiedBalance ::= λ b, b - v |>) a)
  | OAddPending x u v =>
      done_unit (upd_user x u (λ p, p<| pb_PendingRefundBalance ::= λ b, b + v |>)
        (λ d, d<| acc_PendingRefundBalance ::= λ b, b + v |>) a)
  | OSubPending x u v =>
      done_unit (upd_user x u (λ p, p<| pb_PendingRefundBalance ::= λ b, b - v |>)
        (λ d, d<| acc_PendingRefundBalance ::= λ b, b - v |>) a)
  | OAddRewardBy x u v =>
      done_unit (upd_acct x (λ aa, on_data (λ d, d<| acc_RewardBalance ::= λ b, b + v |>)
        (aa<| a_reward ::= λ f, <[u := Some (default 0 (f u) + v)]> f |>)) a)
  | OSubRewardBy x u v =>
      match a_reward (get_or_new a x) u with
      | None => Some (Panic "you can't subtract the amount from nil balance, check the code, this should not happen")
      | Some r =>
          done_unit (upd_acct x (λ aa, on_data (λ d, d<| acc_RewardBalance ::= λ b, b - v |>)
            (aa<| a_reward ::= <[u := Some (r - v)]> |>)) a)
      end
  | OSetCommission x v => done_unit (upd_acct x (on_data (λ d, d<| acc_Commission := v |>)) a)
  | OApplyForCandidate x p c =>
      done_unit (upd_acct x (on_data (λ d, d<| acc_Candidate := true |><| acc_Commission := c |><| acc_Pubkey := p |>)) a)
  | OCancelCandidate x r =>
      done_unit (upd_acct x (on_data (λ d, (d<| acc_Candidate := false |><| acc_Pubkey := [] |>)
        <| acc_Commission ::= λ c, if r : bool then 0 else c |>)) a)
  | OSetBanned x b => done_unit (upd_acct x (on_data (λ d, d<| acc_IsBanned := b |>)) a)
  | OSetBannedTime x v => done_unit (upd_acct x (on_data (λ d, d<| acc_BannedTime := v |>)) a)
  | OSetMinedBlocks x v => done_unit (upd_acct x (on_data (λ d, d<| acc_BlockTime := v |>)) a)
  | OExist x => query x (RBool false) (λ _, RBool true) a
  | OHasSuicided x => query x (RBool false) (λ aa, RBool (a_suicided aa)) a
  | OGetBalance x => query x (RZ 0) (λ aa, RZ (acc_Balance (a_data aa))) a
  | OGetNonce x => query x (RZ 0) (λ aa, RZ (acc_Nonce (a_data aa))) a
  | OGetCode x => query x (RCode None) (λ aa, RCode (a_code aa)) a
  | OGetCodeHash x => query x (RBytes zeroHash) (λ aa, RBytes (default [] (acc_CodeHash (a_data aa)))) a
  | OGetState x k => query x (RBytes zeroHash) (λ aa, RBytes (a_storage aa k)) a
  | OGetCommittedState x k => query x (RBytes zeroHash) (λ aa, RBytes (stor_val (f_storage aa k))) a
  | OHasTX1 x h => query x (RBool false) (λ aa, RBool (a_tx1 aa h)) a
  | OHasTX3 x h => query x (RBool false) (λ aa, RBool (a_tx3 aa h)) a
  | OGetDeposit x => query x (RZ 0) (λ aa, RZ (acc_DepositBalance (a_data aa))) a
  | OGetSide id x => query x (RZ 0) (λ aa, RZ (a_side aa id)) a
  | OGetChain x => query x (RZ 0) (λ aa, RZ (acc_ChainBalance (a_data aa))) a
  | OGetDelegate x => query x (RZ 0) (λ aa, RZ (acc_DelegateBalance (a_data aa))) a
  | OGetTotalProxied x => query x (RZ 0) (λ aa, RZ (acc_ProxiedBalance (a_data aa))) a
  | OGetTotalDepositProxied x => query x (RZ 0) (λ aa, RZ (acc_DepositProxiedBalance (a_data aa))) a
  | OGetTotalPending x => query x (RZ 0) (λ aa, RZ (acc_PendingRefundBalance (a_data aa))) a
  | OGetTotalReward x => query x (RZ 0) (λ aa, RZ (acc_RewardBalance (a_data aa))) a
  | OGetTotalAvailable x => query x (RZ 0) (λ aa, RZ (acc_AvailableRewardBalance (a_data aa))) a
  | OGetProxied x u => query x (RZ 0) (user_bal pb_ProxiedBalance u) a
  | OGetDepositProxied x u => query x (RZ 0) (user_bal pb_DepositProxiedBalance u) a
  | OGetPending x u => query x (RZ 0) (user_bal pb_PendingRefundBalance u) a
  | OGetRewardBy x u => query x (RZ 0) (λ aa, RZ (default 0 (a_reward aa u))) a
  | OIsCandidate x => query x (RBool false) (λ aa, RBool (acc_Candidate (a_data aa))) a
  | OIsClean x =>
      query x (RBool true) (λ aa, RBool (negb (acc_Candidate (a_data aa)) &&
        bool_decide (acc_ProxiedRoot (a_data aa) = EmptyRootHash))) a
  | OGetPubkey x => query x (RBytes []) (λ aa, RBytes (acc_Pubkey (a_data aa))) a
  | OGetCommission x => query x (RZ 0) (λ aa, RZ (acc_Commission (a_data aa))) a
  | OGetBanned x => query_new x (λ aa, RBool (acc_IsBanned (a_data aa))) a
  | OGetBannedTime x => query_new x (λ aa, RZ (acc_BannedTime (a_data aa))) a
  | OGetMinedBlocks x => query_new x (λ aa, RZ (acc_BlockTime (a_data aa))) a
  | OAddLog l =>
      let l := l<| log_TxHash := as_thash a |><| log_BlockHash := as_bhash a |>
                <| log_TxIndex := u64 (as_txIndex a) |><| log_Index := as_logSize a |> in
      done_unit (a<| as_logs ::= λ m, <[as_thash a := default [] (m !! as_thash a) ++ [l]]> m |>
                  <| as_logSize := u64 (as_logSize a + 1) |>)
  | OGetLogs h => Some (Ret (RLogs (default [] (as_logs a !! h)), a))
  | OAddPreimage h p =>
      done_unit (match as_preimages a !! h with Some _ => a | None => a<| as_preimages ::= <[h := p]> |> end)
  | OAddRefund g => done_unit (a<| as_refund := u64 (as_refund a + g) |>)
  | OSubRefund g =>
      if as_refund a <? g then Some (Panic "Refund counter below zero")
      else done_unit (a<| as_refund := u64 (as_refund a - g) |>)
  | OGetRefund => Some (Ret (RZ (as_refund a), a))
  | OSnapshot | ORevert _ => None
  end.

(** Snapshots are copies. *)
Record spec := mkSpec { sp_cur : astate; sp_snaps : list (Z * astate); sp_next : Z }.

(** The copies up to the one with an identifier, and that copy. *)
Fixpoint find_snap (id : Z) (l : list (Z * astate)) : option (list (Z * astate) * astate) :=
  match l with
  | [] => None
  | (i, a) :: l =>
      if i =? id then Some ([], a)
      else '(l', a') ← find_snap id l; Some ((i, a) :: l', a')
  end.

Definition spec_step (o : op) (p : spec) : option (outcome (res * spec)) :=
  match o with
  | OSnapshot =>
      if sp_next p <? 2 ^ 63 - 1 then
        Some (Ret (RZ (sp_next p), mkSpec (sp_cur p) (sp_snaps p ++ [(sp_next p, sp_cur p)]) (sp_next p + 1)))
      else None
  | ORevert id =>
      match find_snap id (sp_snaps p) with
      | None => Some (Panic "revision id cannot be reverted")
      | Some (l, a) => Some (Ret (RUnit, mkSpec a l (sp_next p)))
      end
  | _ =>
      match spec_op o (sp_cur p) with
      | None => None
      | Some (Panic w) => Some (Panic w)
      | Some (Ret (r, a)) => Some (Ret (r, mkSpec a (sp_snaps p) (sp_next p)))
      end
  end.

Fixpoint spec_run (os : list op) (p : spec) : option (outcome (list res * spec)) :=
  match os with
  | [] => Some (Ret ([], p))
  | o :: os =>
      match spec_step o p with
      | None => None
      | Some (Panic w) => Some (Panic w)
      | Some (Ret (r, p)) =>
          match spec_run os p with
          | Some (Ret (rs, p)) => Some (Ret (r :: rs, p))
          | x => x
          end
      end
  end.
End exec.

(** ** The database does what the specification says *)

Section refinement.
  Context {DB T : Type} {SD : StateDatabase DB T} {SR : StateReads SD} {KL : KeccakLib} {KLaws : KeccakLaws}.

Local Abbreviation DM := (stM (StateDB DB T)).
Local Abbreviation OM := (stM (stateObject T * StateDB DB T)).

(** The keys that an operation looks up. *)
Definition op_keys (o : op) : list bytes :=
  match o with
  | OCreateAccount a | OSuicide a | OAddBalance a _ | OSubBalance a _ | OSetBalance a _ | OSetNonce a _
  | OSetCode a _ | OAddDeposit a _ | OSubDeposit a _ | OSetDeposit a _ | OAddSide a _ _ | OSubSide a _ _
  | OSetSide a _ _ | OAddChain a _ | OSubChain a _ | OSetChain a _ | OAddDelegate a _ | OSubDelegate a _
  | OAddReward a _ | OSubReward a _ | OAddAvailable a _ | OSubAvailable a _ | OSetCommission a _
  | OApplyForCandidate a _ _ | OCancelCandidate a _ | OSetBanned a _ | OSetBannedTime a _ | OSetMinedBlocks a _
  | OExist a | OHasSuicided a | OGetBalance a | OGetNonce a | OGetCode a | OGetCodeHash a | OGetDeposit a
  | OGetSide _ a | OGetChain a | OGetDelegate a | OGetTotalProxied a | OGetTotalDepositProxied a
  | OGetTotalPending a | OGetTotalReward a | OGetTotalAvailable a | OIsCandidate a | OIsClean a | OGetPubkey a
  | OGetCommission a | OGetBanned a | OGetBannedTime a | OGetMinedBlocks a => [a]
  | OSetState a k _ | OGetState a k | OGetCommittedState a k | OAddTX1 a k | OAddTX3 a k | OHasTX1 a k | OHasTX3 a k
  | OAddProxied a k _ | OSubProxied a k _ | OAddDepositProxied a k _ | OSubDepositProxied a k _
  | OAddPending a k _ | OSubPending a k _ | OGetProxied a k | OGetDepositProxied a k | OGetPending a k => [a; k]
  | OAddRewardBy a d _ | OSubRewardBy a d _ | OGetRewardBy a d => [a; reward_key d]
  | OAddLog _ | OGetLogs _ | OAddPreimage _ _ | OAddRefund _ | OSubRefund _ | OGetRefund | OSnapshot | ORevert _ => []
  end.

Definition ok_op (o : op) : Prop := Forall key_ok (op_keys o).

Lemma call_osem {A} s a addr o aa aa' (m : OM A) r :
  abs s a → as_acct a addr = Some aa → obj_rel (s_db s) addr o aa → osem (s_db s) addr m aa aa' r →
  ∃ s' es, call o m s = Ret (r, s') ∧ abs s' (set_acct addr (Some aa') a) ∧ keeps s s' ∧
    s_journal s' = s_journal s ++ es ∧ rewinds (s_db s) es (set_acct addr (Some aa') a) a.
Proof.
  intros Ha Haa Ho Hm. destruct (Hm o s eq_refl Ho) as (o' & es & d & E & Ho' & Hr).
  unfold call. rewrite E, (or_address _ _ _ _ Ho'). eexists _, es. split; [done|]. split_and!; try done.
  - eapply (abs_put (s<| s_journal ::= λ j, j ++ es |><| s_stateObjectsDirty := d |>)); [|exact Ho'|done].
    destruct Ha. by constructor.
  - specialize (Hr (set_acct addr (Some aa') a) (set_acct_lookup _ _ _)).
    by rewrite set_acct_twice, (set_acct_id _ _ _ Haa) in Hr.
Qed.

Lemma GetOrNew_run s a addr : abs s a → key_ok addr →
  ∃ s' o es, GetOrNewStateObject addr s = Ret (o, s') ∧ abs s' (set_acct addr (Some (get_or_new a addr)) a) ∧
    keeps s s' ∧ s_journal s' = s_journal s ++ es ∧ obj_rel (s_db s) addr o (get_or_new a addr) ∧
    rewinds (s_db s) es (set_acct addr (Some (get_or_new a addr)) a) a.
Proof.
  intros Ha Hk. destruct (getStateObject_run s a addr Ha Hk) as (s1 & oo & E1 & Ha1 & [Hkp Hj] & Hoo).
  unfold GetOrNewStateObject, get_or_new. srun. destruct oo as [o|].
  - destruct Hoo as (aa & Haa & Ho). rewrite (or_deleted _ _ _ _ Ho), Haa. cbn. exists s1, o, [].
    rewrite app_nil_r, (set_acct_id addr (Some aa) a Haa). split_and!; try done. constructor.
  - destruct Hoo as (Hn & _ & _). destruct Hkp as (Hd & Hv & Hx).
    destruct (createObject_run s1 a addr Ha1 Hk) as (s2 & newobj & prev & e & E2 & Ha2 & (?&?&?) & Hj2 & Ho & _ & Hu).
    srun. rewrite Hn. cbn. exists s2, newobj, [e]. rewrite Hd in *. unfold keeps.
    split_and!; try done; try congruence. apply rewinds_one, Hu.
Qed.

Lemma dsem_on_object {A} db a addr (m : OM A) f r : key_ok addr →
  osem db addr m (get_or_new a addr) (f (get_or_new a addr)) r →
  dsem db (on_object addr m) a (upd_acct addr f a) r.
Proof.
  intros Hk Hm s Hdb Ha. subst db.
  destruct (GetOrNew_run s a addr Ha Hk) as (s1 & o & es1 & E1 & Ha1 & (Hd & Hv & Hn) & Hj1 & Ho & Hr1).
  rewrite <-Hd in Ho, Hm.
  destruct (call_osem s1 _ addr o _ _ m r Ha1 (set_acct_lookup _ _ _) Ho Hm)
    as (s2 & es2 & E2 & Ha2 & (?&?&?) & Hj2 & Hr2).
  exists s2, (es1 ++ es2). unfold on_object. srun. rewrite set_acct_twice in *. unfold keeps, upd_acct.
  split_and!; try done; try congruence.
  - by rewrite Hj2, Hj1, app_assoc.
  - eapply rewinds_app; [|exact Hr1]. by rewrite <-Hd.
Qed.

Lemma dsem_if_exists {A} db a a' addr dflt (m : stateObject T → DM A) r : key_ok addr →
  (as_acct a addr = None → r = dflt ∧ a' = a) →
  (∀ aa o, as_acct a addr = Some aa → obj_rel db addr o aa → dsem db (m o) a a' r) →
  dsem db (if_exists addr dflt m) a a' r.
Proof.
  intros Hk Hnone Hsome s Hdb Ha. subst db.
  destruct (getStateObject_run s a addr Ha Hk) as (s1 & oo & E1 & Ha1 & [(Hd & Hv & Hn) Hj] & Hoo).
  unfold if_exists. srun. destruct oo as [o|].
  - destruct Hoo as (aa & Haa & Ho). destruct (Hsome aa o Haa Ho s1 Hd Ha1) as (s2 & es & E2 & Ha2 & (?&?&?) & Hj2 & Hr).
    exists s2, es. unfold keeps. split_and!; try done; congruence.
  - destruct (Hnone (proj1 Hoo)) as [-> ->]. exists s1, []. rewrite app_nil_r. split_and!; try done. constructor.
Qed.

Lemma dsem_call {A} db a addr o aa aa' (m : OM A) r :
  as_acct a addr = Some aa → obj_rel db addr o aa → osem db addr m aa aa' r →
  dsem db (call o m) a (set_acct addr (Some aa') a) r.
Proof. intros Haa Ho Hm s Hdb Ha. subst db. by apply (call_osem s a addr o aa). Qed.

Lemma dsem_read {A} db a addr o aa (m : OM A) r :
  as_acct a addr = Some aa → obj_rel db addr o aa → quiet db addr m aa aa r → dsem db (call o m) a a r.
Proof.
  intros Haa Ho Hm. rewrite <-(set_acct_id addr (Some aa) a Haa) at 2.
  eapply dsem_call; [done|done|]. by apply quiet_osem.
Qed.

(** The value of a query: a function of the object that the account determines. *)
Lemma dsem_query {A} db a addr (dflt : A) (g : stateObject T → A) (f : aacct → A) : key_ok addr →
  (∀ aa o, obj_rel db addr o aa → g o = f aa) →
  dsem db (if_exists addr dflt (λ o, mret (g o))) a a (match as_acct a addr with Some aa => f aa | None => dflt end).
Proof.
  intros Hk Hg. apply dsem_if_exists; [done| |].
  - by intros ->.
  - intros aa o Haa Ho. rewrite Haa, <-(Hg aa o Ho). apply dsem_ret.
Qed.

Lemma dsem_lookup {A B} db a addr (dflt : B) (m : OM A) (k : A → B) (f : aacct → A) : key_ok addr →
  (∀ aa, quiet db addr m aa aa (f aa)) →
  dsem db (if_exists addr dflt (λ o, r ← call o m; mret (k r))) a a
    (match as_acct a addr with Some aa => k (f aa) | None => dflt end).
Proof.
  intros Hk Hm. apply dsem_if_exists; [done| |].
  - by intros ->.
  - intros aa o Haa Ho. rewrite Haa. eapply dsem_bind; [by eapply dsem_read|apply dsem_ret].
Qed.

Lemma dsem_lookup' {A} db a addr (dflt : A) (m : OM A) (f : aacct → A) : key_ok addr →
  (∀ aa, quiet db addr m aa aa (f aa)) →
  dsem db (if_exists addr dflt (λ o, call o m)) a a (match as_acct a addr with Some aa => f aa | None => dflt end).
Proof.
  intros Hk Hm. apply dsem_if_exists; [done| |].
  - by intros ->.
  - intros aa o Haa Ho. rewrite Haa. by eapply dsem_read.
Qed.

Lemma dsem_then {A B} db a a' (m : DM A) (k : A → B) r :
  dsem db m a a' r → dsem db (x ← m; mret (k x)) a a' (k r).
Proof. intros H. eapply dsem_bind; [exact H|apply dsem_ret]. Qed.

Lemma dsem_query_new {A} db a addr (g : stateObject T → A) (f : aacct → A) : key_ok addr →
  (∀ aa o, obj_rel db addr o aa → g o = f aa) →
  dsem db (o ← GetOrNewStateObject addr; mret (g o)) a (set_acct addr (Some (get_or_new a addr)) a) (f (get_or_new a addr)).
Proof.
  intros Hk Hg s Hdb Ha. subst db. destruct (GetOrNew_run s a addr Ha Hk) as (s1 & o & es & E & Ha1 & Hkp & Hj & Ho & Hr).
  exists s1, es. srun. rewrite (Hg _ _ Ho). done.
Qed.

(** *** Logs, preimages and the refund counter *)

Lemma dsem_AddRefund db a gas : dsem db (AddRefund gas) a (a<| as_refund := u64 (as_refund a + gas) |>) ().
Proof.
  intros s Hdb Ha. unfold AddRefund. srun. srun. eexists _, [_]. split; [done|].
  rewrite (ab_refund _ _ Ha). split_and!; try done.
  - destruct Ha. constructor; try done. cbn. congruence.
  - apply rewinds_one. intros s' Hdb' Ha'. eexists. split; [done|]. split_and!; try done.
    destruct Ha'. by constructor.
Qed.

Lemma dsem_SubRefund db a gas : gas <= as_refund a →
  dsem db (SubRefund gas) a (a<| as_refund := u64 (as_refund a - gas) |>) ().
Proof.
  intros Hg s Hdb Ha. unfold SubRefund. srun. srun. rewrite (ab_refund _ _ Ha).
  destruct (Z.ltb_spec (as_refund a) gas); [lia|]. eexists _, [_]. split; [done|]. split_and!; try done.
  - destruct Ha. constructor; try done. cbn. congruence.
  - apply rewinds_one. intros s' Hdb' Ha'. eexists. split; [done|]. split_and!; try done.
    destruct Ha'. by constructor.
Qed.

Lemma dsem_AddPreimage db a h p :
  dsem db (AddPreimage h p) a
    (match as_preimages a !! h with Some _ => a | None => a<| as_preimages ::= <[h := p]> |> end) ().
Proof.
  intros s Hdb Ha. unfold AddPreimage. srun. rewrite (ab_preimages _ _ Ha).
  destruct (as_preimages a !! h) eqn:E; [by apply dsem_ret|]. srun. eexists _, [_]. split; [done|]. split_and!; try done.
  - destruct Ha. constructor; try done. cbn. congruence.
  - apply rewinds_one. intros s' Hdb' Ha'. eexists. split; [done|]. split_and!; try done.
    destruct Ha' as [? ? ? ? ? ? ? ? Hp ? ?]. constructor; try done. cbn. rewrite Hp. cbn. by rewrite delete_insert_id.
Qed.

Lemma undo_log l (a : astate) :
  (∀ h, as_logs a !! h ≠ Some []) → in_u64 (as_logSize a) →
  let a' := a<| as_logs ::= λ m, <[as_thash a := default [] (m !! as_thash a) ++ [l]]> m |>
             <| as_logSize := u64 (as_logSize a + 1) |> in
  ∀ db, undoes (DB := DB) db (addLogChange (as_thash a)) a' a.
Proof.
  intros Hne Hsz a' db s Hdb [? ? ? ? ? ? Hl Hs ? Hne' Hsz']. cbn [undo]. srun. rewrite Hl. unfold a'. cbn.
  rewrite lookup_insert_eq. cbn. rewrite length_app. cbn.
  assert (Hback : u64 (u64 (as_logSize a + 1) - 1) = as_logSize a).
  { unfold in_u64, u64 in *. rewrite Zminus_mod_idemp_l. replace (as_logSize a + 1 - 1) with (as_logSize a) by lia.
    by rewrite Z.mod_small. }
  destruct (as_logs a !! as_thash a) as [ls|] eqn:E; cbn.
  - destruct ls as [|x ls]; [by destruct (Hne (as_thash a))|]. cbn.
    replace (length ls + 1 =? 0)%nat with false by (symmetry; apply Nat.eqb_neq; lia). srun.
    eexists. split; [done|]. split_and!; try done. constructor; try done; cbn; [|by rewrite Hs; cbn; rewrite Hback].
    rewrite Hl. unfold a'. cbn. rewrite insert_insert_eq.
    replace (length ls + 1 - 0)%nat with (length (x :: ls)) by (cbn; lia).
    change (x :: ls ++ [l]) with ((x :: ls) ++ [l]). rewrite take_app_length. by apply insert_id.
  - srun. eexists. split; [done|]. split_and!; try done. constructor; try done; cbn; [|by rewrite Hs; cbn; rewrite Hback].
    rewrite Hl. cbn. rewrite delete_insert_eq. by apply delete_id.
Qed.

Lemma dsem_AddLog db a l :
  let l' := l<| log_TxHash := as_thash a |><| log_BlockHash := as_bhash a |>
             <| log_TxIndex := u64 (as_txIndex a) |><| log_Index := as_logSize a |> in
  dsem (DB := DB) db (AddLog l) a
    (a<| as_logs ::= λ m, <[as_thash a := default [] (m !! as_thash a) ++ [l']]> m |>
      <| as_logSize := u64 (as_logSize a + 1) |>) ().
Proof.
  intros l' s Hdb Ha. unfold AddLog. srun. srun. eexists _, [_]. split; [done|]. split_and!; try done.
  - destruct Ha as [? ? ? Ht Hb Hx Hl Hs ? Hne Hsz]. constructor; try done; cbn.
    + by rewrite Ht, Hb, Hx, Hl, Hs.
    + by rewrite Hs.
    + intros h. destruct (decide (as_thash a = h)) as [->|]; [|by rewrite lookup_insert_ne].
      rewrite lookup_insert_eq. by destruct (default [] (as_logs a !! h)).
    + apply u64_range.
  - apply rewinds_one. rewrite (ab_thash _ _ Ha). apply undo_log; apply Ha.
Qed.

(** *** Creating and deleting accounts *)

Lemma quiet_setBalance db addr aa v :
  quiet (DB := DB) db addr (setBalance v) aa (on_data (λ d, d<| acc_Balance := v |>) aa) ().
Proof. apply quiet_set_data. constructor; intros; [done|done|by split_and!]. Qed.

Lemma dsem_CreateAccount db a addr : key_ok addr →
  dsem db (CreateAccount addr) a
    (set_acct addr (Some (on_data (λ d, d<| acc_Balance :=
      match as_acct a addr with Some p => acc_Balance (a_data p) | None => 0 end |>) new_acct)) a) ().
Proof.
  intros Hk s Hdb Ha. subst db.
  destruct (createObject_run s a addr Ha Hk) as (s1 & o & prev & e & E & Ha1 & (Hd & Hv & Hn) & Hj & Ho & Hp & Hu).
  unfold CreateAccount. srun. destruct prev as [p|].
  - destruct Hp as (aa & Haa & Hp). rewrite Haa, (or_data _ _ _ _ Hp). cbn.
    rewrite <-Hd in Ho.
    destruct (call_quiet s1 _ addr o new_acct _ _ () Ha1 Ho (quiet_setBalance _ _ _ (acc_Balance (so_data p))))
      as (s2 & E2 & Ha2 & [(?&?&?) Hj2]).
    exists s2, [e]. rewrite set_acct_twice in Ha2. unfold keeps. split_and!; try done; try congruence.
    apply rewinds_one, Hu.
  - rewrite Hp. exists s1, [e]. change (on_data (λ d, d<| acc_Balance := 0 |>) new_acct) with new_acct.
    split_and!; try done. apply rewinds_one, Hu.
Qed.

Definition suicide_acct (aa : aacct) : aacct := on_data (λ d, d<| acc_Balance := 0 |>) (aa<| a_suicided := true |>).

Lemma quiet_suicide db addr aa :
  quiet (DB := DB) db addr (markSuicided;; modify_self (λ o, o<| so_data ::= λ d, d<| acc_Balance := 0 |> |>)) aa
    (suicide_acct aa) ().
Proof.
  eapply (quiet_bind _ _ _ _ _ (aa<| a_suicided := true |>)).
  - eapply quiet_bind; [|apply quiet_mark_dirty]. apply quiet_modify. intros o []. by constructor.
  - apply quiet_modify. intros o Ho. apply obj_rel_plain; [|done]. constructor; intros; [done|done|by split_and!].
Qed.

Lemma quiet_unsuicide db addr aa b v :
  quiet (DB := DB) db addr (modify_self (λ o, o<| so_suicided := b |>);; setBalance v) aa
    (on_data (λ d, d<| acc_Balance := v |>) (aa<| a_suicided := b |>)) ().
Proof.
  eapply quiet_bind; [|apply quiet_setBalance]. apply quiet_modify. intros o []. by constructor.
Qed.

Lemma suicide_undoes db addr aa a : key_ok addr → as_acct a addr = Some aa →
  undoes (DB := DB) db (suicideChange addr (a_suicided aa) (acc_Balance (a_data aa)))
    (set_acct addr (Some (suicide_acct aa)) a) a.
Proof.
  intros Hk Haa s Hdb Ha. subst db. cbn [undo].
  destruct (getStateObject_run s _ addr Ha Hk) as (s1 & oo & E1 & Ha1 & [(Hd & Hv & Hn) Hj] & Hoo).
  rewrite set_acct_lookup in Hoo. unfold if_exists. srun. destruct oo as [o|]; [|by destruct Hoo].
  destruct Hoo as (aa1 & [= <-] & Ho). rewrite <-Hd in Ho.
  destruct (call_quiet s1 _ addr o _ _ _ () Ha1 Ho (quiet_unsuicide _ _ _ (a_suicided aa) (acc_Balance (a_data aa))))
    as (s2 & E2 & Ha2 & [(?&?&?) Hj2]).
  exists s2. unfold keeps. split_and!; try done; try congruence. rewrite set_acct_twice in Ha2.
  replace a with (set_acct addr (Some (on_data (λ d, d<| acc_Balance := acc_Balance (a_data aa) |>)
    (suicide_acct aa)<| a_suicided := a_suicided aa |>)) a); [done|].
  rewrite <-(set_acct_id addr (Some aa) a Haa) at 2. do 2 f_equal. by destruct aa as [[]].
Qed.

Lemma dsem_Suicide db a addr aa : key_ok addr → as_acct a addr = Some aa →
  dsem db (Suicide addr) a (set_acct addr (Some (suicide_acct aa)) a) true.
Proof.
  intros Hk Haa. apply dsem_if_exists; [done|congruence|]. intros aa' o Haa' Ho s Hdb Ha. subst db.
  assert (aa' = aa) as -> by congruence.
  srun. pose (s1 := s<| s_journal ::= λ j, j ++ [suicideChange addr (so_suicided o) (acc_Balance (so_data o))] |>).
  assert (Ha1 : abs s1 a) by (destruct Ha; by constructor).
  destruct (call_quiet s1 a addr o aa _ _ () Ha1 Ho (quiet_suicide _ _ _)) as (s2 & E2 & Ha2 & [(?&?&?) Hj2]).
  fold s1. srun. exists s2, [suicideChange addr (so_suicided o) (acc_Balance (so_data o))].
  split_and!; try done. apply rewinds_one.
  rewrite (or_suicided _ _ _ _ Ho). replace (acc_Balance (so_data o)) with (acc_Balance (a_data aa))
    by (by rewrite (or_data _ _ _ _ Ho)). by apply suicide_undoes.
Qed.

(** *** Every operation *)

Ltac plain_tac := intros; constructor; intros; [reflexivity|reflexivity|split_and!; reflexivity].

(** A setter of a field; an addition to it; a subtraction. *)
Ltac field_tac get set e :=
  apply (osem_field _ _ get set e); [assumption|plain_tac|reflexivity|intros []; reflexivity|reflexivity].

Ltac add_tac get set e := apply (osem_add _ _ _ get set); [assumption|reflexivity|intros []; reflexivity|intros; field_tac get set e].
Ltac sub_tac get set e := apply (osem_sub _ _ _ get set); [assumption|reflexivity|intros []; reflexivity|intros; field_tac get set e].

Lemma osem_user db addr user f g (total : OM ()) aa : key_ok addr → key_ok user →
  (∀ aa, osem db addr total aa (on_data g aa) ()) →
  osem db addr (
    apb ← GetAccountProxiedBalance user;
    let dirtyApb := match apb with None => NewAccountProxiedBalance | Some apb => apb end in
    SetAccountProxiedBalance user (Some (f dirtyApb));;
    total) aa
    (on_data g (aa<| a_proxied ::= λ p, <[user := Some (f (default NewAccountProxiedBalance (p user)))]> p |>)) ().
Proof.
  intros Hk Hu Ht. eapply osem_bind; [by apply quiet_osem, quiet_GetProxied|].
  eapply osem_bind; [by apply osem_SetProxied|]. apply Ht.
Qed.

Lemma osem_AddRewardBy db addr d v aa : key_ok addr → key_ok (reward_key d) →
  osem db addr (
    r ← GetDelegateRewardBalance d;
    let dirty := match r with None => v | Some r => r + v end in
    SetDelegateRewardBalance d (Some dirty);;
    StateObject.AddRewardBalance v) aa
    (on_data (λ d, d<| acc_RewardBalance ::= λ b, b + v |>)
      (aa<| a_reward ::= λ f, <[d := Some (default 0 (f d) + v)]> f |>)) ().
Proof.
  intros Hk Hu. eapply osem_bind; [by apply quiet_osem, quiet_GetReward|].
  eapply osem_bind; [by apply osem_SetReward|]. replace (match a_reward aa d with None => v | Some r => r + v end)
    with (default 0 (a_reward aa d) + v) by (by destruct (a_reward aa d)).
  add_tac acc_RewardBalance (λ v d, d<| acc_RewardBalance := v |>) (@rewardBalanceChange T).
Qed.

Lemma osem_SubRewardBy db addr d v r aa : key_ok addr → key_ok (reward_key d) → a_reward aa d = Some r →
  osem db addr (
    r ← GetDelegateRewardBalance d;
    match r with
    | None => spanic "you can't subtract the amount from nil balance, check the code, this should not happen"
    | Some r => SetDelegateRewardBalance d (Some (r - v));; StateObject.SubRewardBalance v
    end) aa
    (on_data (λ d, d<| acc_RewardBalance ::= λ b, b - v |>) (aa<| a_reward ::= <[d := Some (r - v)]> |>)) ().
Proof.
  intros Hk Hu Hr. eapply osem_bind; [by apply quiet_osem, quiet_GetReward|]. rewrite Hr.
  eapply osem_bind; [by apply osem_SetReward|].
  sub_tac acc_RewardBalance (λ v d, d<| acc_RewardBalance := v |>) (@rewardBalanceChange T).
Qed.

Lemma osem_SetCommission db addr v aa : key_ok addr →
  osem (DB := DB) db addr (StateObject.SetCommission v) aa (on_data (λ d, d<| acc_Commission := v |>) aa) ().
Proof. intros Hk. field_tac acc_Commission (λ v d, d<| acc_Commission := v |>) (@commissionChange T). Qed.

Lemma osem_SetCandidate db addr v aa : key_ok addr →
  osem (DB := DB) db addr (SetCandidate v) aa (on_data (λ d, d<| acc_Candidate := v |>) aa) ().
Proof. intros Hk. field_tac acc_Candidate (λ v d, d<| acc_Candidate := v |>) (@candidateChange T). Qed.

Lemma osem_SetPubkey db addr v aa : key_ok addr →
  osem (DB := DB) db addr (SetPubkey v) aa (on_data (λ d, d<| acc_Pubkey := v |>) aa) ().
Proof. intros Hk. field_tac acc_Pubkey (λ v d, d<| acc_Pubkey := v |>) (@pubkeyChange T). Qed.

Lemma osem_Apply db addr p c aa : key_ok addr →
  osem (DB := DB) db addr (SetCandidate true;; StateObject.SetCommission c;; SetPubkey p) aa
    (on_data (λ d, d<| acc_Candidate := true |><| acc_Commission := c |><| acc_Pubkey := p |>) aa) ().
Proof.
  intros Hk. eapply osem_bind; [by apply osem_SetCandidate|]. eapply osem_bind; [by apply osem_SetCommission|].
  by apply osem_SetPubkey.
Qed.

Lemma osem_Cancel db addr (r : bool) aa : key_ok addr →
  osem (DB := DB) db addr (SetCandidate false;; SetPubkey [];; if r then StateObject.SetCommission 0 else mret ()) aa
    (on_data (λ d, (d<| acc_Candidate := false |><| acc_Pubkey := [] |>)
        <| acc_Commission ::= λ c, if r : bool then 0 else c |>) aa) ().
Proof.
  intros Hk. eapply osem_bind; [by apply osem_SetCandidate|]. eapply osem_bind; [by apply osem_SetPubkey|].
  destruct r; [by apply osem_SetCommission|].
  match goal with |- osem _ _ _ ?x ?y _ => replace y with x by (by destruct aa as [[]]) end. apply osem_ret.
Qed.

Lemma dsem_update db a addr (m : OM ()) f : key_ok addr →
  (∀ aa, aa = get_or_new a addr → osem db addr m aa (f aa) ()) → dsem db (runit (on_object addr m)) a (upd_acct addr f a) RUnit.
Proof. intros Hk Hm. apply (dsem_then _ _ _ _ (λ _, RUnit) ()). apply dsem_on_object; [done|by apply Hm]. Qed.

Lemma dsem_existing db a addr (m : OM ()) f : key_ok addr →
  (∀ aa, osem db addr m aa (f aa) ()) →
  dsem db (runit (if_exists addr () (λ o, call o m))) a (upd_existing addr f a) RUnit.
Proof.
  intros Hk Hm. apply (dsem_then _ _ _ _ (λ _, RUnit) ()). unfold upd_existing. apply dsem_if_exists; [done| |].
  - by intros ->.
  - intros aa o Haa Ho. rewrite Haa. by eapply dsem_call.
Qed.

(** The operations that update one account. *)
Lemma dsem_account o a r a' db : ok_op o →
  spec_op o a = Some (Ret (r, a')) →
  match o with
  | OAddBalance _ _ | OSubBalance _ _ | OSetBalance _ _ | OSetNonce _ _ | OAddDeposit _ _ | OSubDeposit _ _
  | OSetDeposit _ _ | OAddChain _ _ | OSubChain _ _ | OSetChain _ _ | OAddDelegate _ _ | OSubDelegate _ _
  | OAddReward _ _ | OSubReward _ _ | OAddAvailable _ _ | OSubAvailable _ _ | OSetBanned _ _ | OSetBannedTime _ _
  | OSetMinedBlocks _ _ => dsem db (exec o) a a' r
  | _ => True
  end.
Proof.
  unfold ok_op. destruct o; intros Hk Hs; try exact I; cbn in Hk; apply Forall_cons in Hk as [Hk _];
    cbn in Hs; injection Hs as <- <-; (apply dsem_update || apply dsem_existing); try exact Hk; intros aa; try intros _; unfold on_data.
  - add_tac acc_Balance (λ v d, d<| acc_Balance := v |>) (@balanceChange T).
  - sub_tac acc_Balance (λ v d, d<| acc_Balance := v |>) (@balanceChange T).
  - field_tac acc_Balance (λ v d, d<| acc_Balance := v |>) (@balanceChange T).
  - field_tac acc_Nonce (λ v d, d<| acc_Nonce := v |>) (@nonceChange T).
  - add_tac acc_DepositBalance (λ v d, d<| acc_DepositBalance := v |>) (@depositBalanceChange T).
  - sub_tac acc_DepositBalance (λ v d, d<| acc_DepositBalance := v |>) (@depositBalanceChange T).
  - field_tac acc_DepositBalance (λ v d, d<| acc_DepositBalance := v |>) (@depositBalanceChange T).
  - add_tac acc_ChainBalance (λ v d, d<| acc_ChainBalance := v |>) (@chainBalanceChange T).
  - sub_tac acc_ChainBalance (λ v d, d<| acc_ChainBalance := v |>) (@chainBalanceChange T).
  - field_tac acc_ChainBalance (λ v d, d<| acc_ChainBalance := v |>) (@chainBalanceChange T).
  - add_tac acc_DelegateBalance (λ v d, d<| acc_DelegateBalance := v |>) (@delegateBalanceChange T).
  - sub_tac acc_DelegateBalance (λ v d, d<| acc_DelegateBalance := v |>) (@delegateBalanceChange T).
  - add_tac acc_RewardBalance (λ v d, d<| acc_RewardBalance := v |>) (@rewardBalanceChange T).
  - sub_tac acc_RewardBalance (λ v d, d<| acc_RewardBalance := v |>) (@rewardBalanceChange T).
  - add_tac acc_AvailableRewardBalance (λ v d, d<| acc_AvailableRewardBalance := v |>) (@availableRewardBalanceChange T).
  - sub_tac acc_AvailableRewardBalance (λ v d, d<| acc_AvailableRewardBalance := v |>) (@availableRewardBalanceChange T).
  - field_tac acc_IsBanned (λ v d, d<| acc_IsBanned := v |>) (@bannedChange T).
  - field_tac acc_BannedTime (λ v d, d<| acc_BannedTime := v |>) (@bannedTimeChange T).
  - field_tac acc_BlockTime (λ v d, d<| acc_BlockTime := v |>) (@blockTimeChange T).
Qed.

(** The operations on entries of an account, with their keys. *)
Lemma dsem_entries o a r a' db : ok_op o →
  spec_op o a = Some (Ret (r, a')) →
  match o with
  | OSetCode _ _ | OSetState _ _ _ | OAddTX1 _ _ | OAddTX3 _ _ | OAddSide _ _ _ | OSubSide _ _ _ | OSetSide _ _ _
  | OAddProxied _ _ _ | OSubProxied _ _ _ | OAddDepositProxied _ _ _ | OSubDepositProxied _ _ _
  | OAddPending _ _ _ | OSubPending _ _ _ | OAddRewardBy _ _ _ | OSubRewardBy _ _ _ | OSetCommission _ _
  | OApplyForCandidate _ _ _ | OCancelCandidate _ _ => dsem db (exec o) a a' r
  | _ => True
  end.
Proof.
  unfold ok_op. destruct o; intros Hk Hs; try exact I; cbn in Hk; apply Forall_cons in Hk as [Hk Hk2];
    cbn in Hs; repeat case_in Hs; try discriminate Hs; injection Hs as <- <-;
    (apply dsem_update; [exact Hk|intros aa Haa; unfold on_data]).
  - by apply osem_SetCode.
  - apply Forall_cons in Hk2 as [Hk2 _]. by apply osem_SetState.
  - apply Forall_cons in Hk2 as [Hk2 _]. subst aa. by apply osem_AddTX1.
  - apply Forall_cons in Hk2 as [Hk2 _]. subst aa. by apply osem_AddTX3.
  - by apply osem_AddSide.
  - by apply osem_SubSide.
  - by apply osem_SetSide.
  - apply Forall_cons in Hk2 as [Hk2 _]. apply osem_user; [done|done|]. intros aa1.
    add_tac acc_ProxiedBalance (λ v d, d<| acc_ProxiedBalance := v |>) (@proxiedBalanceChange T).
  - apply Forall_cons in Hk2 as [Hk2 _]. apply osem_user; [done|done|]. intros aa1.
    sub_tac acc_ProxiedBalance (λ v d, d<| acc_ProxiedBalance := v |>) (@proxiedBalanceChange T).
  - apply Forall_cons in Hk2 as [Hk2 _]. apply osem_user; [done|done|]. intros aa1.
    add_tac acc_DepositProxiedBalance (λ v d, d<| acc_DepositProxiedBalance := v |>) (@depositProxiedBalanceChange T).
  - apply Forall_cons in Hk2 as [Hk2 _]. apply osem_user; [done|done|]. intros aa1.
    sub_tac acc_DepositProxiedBalance (λ v d, d<| acc_DepositProxiedBalance := v |>) (@depositProxiedBalanceChange T).
  - apply Forall_cons in Hk2 as [Hk2 _]. apply osem_user; [done|done|]. intros aa1.
    add_tac acc_PendingRefundBalance (λ v d, d<| acc_PendingRefundBalance := v |>) (@pendingRefundBalanceChange T).
  - apply Forall_cons in Hk2 as [Hk2 _]. apply osem_user; [done|done|]. intros aa1.
    sub_tac acc_PendingRefundBalance (λ v d, d<| acc_PendingRefundBalance := v |>) (@pendingRefundBalanceChange T).
  - apply Forall_cons in Hk2 as [Hk2 _]. by apply osem_AddRewardBy.
  - apply Forall_cons in Hk2 as [Hk2 _]. subst aa. by apply osem_SubRewardBy.
  - by apply osem_SetCommission.
  - by apply osem_Apply.
  - by apply (osem_Cancel db addr true).
  - by apply (osem_Cancel db addr false).
Qed.

Lemma dsem_result {A} db a a' (m : DM A) (k : A → res) r r' :
  dsem db m a a' r → k r = r' → dsem db (x ← m; mret (k x)) a a' r'.
Proof. intros H <-. by apply dsem_then. Qed.

Ltac query_tac := eapply dsem_result; [eapply dsem_query; [eassumption|]|];
  [|destruct (as_acct _ _); reflexivity];
  intros ?aa ?o Ho; cbn beta; first
    [reflexivity|by rewrite (or_data _ _ _ _ Ho)|by apply (or_suicided _ _ _ _ Ho)|by apply (or_side _ _ _ _ Ho)].

Ltac lookup_tac L := eapply dsem_result; [apply dsem_lookup'; [eassumption|intros ?aa; by apply L]|by destruct (as_acct _ _)].

Lemma dsem_queries o a r a' db : ok_op o →
  spec_op o a = Some (Ret (r, a')) →
  match o with
  | OExist _ | OHasSuicided _ | OGetBalance _ | OGetNonce _ | OGetDeposit _ | OGetSide _ _ | OGetChain _ | OGetDelegate _
  | OGetTotalProxied _ | OGetTotalDepositProxied _ | OGetTotalPending _ | OGetTotalReward _ | OGetTotalAvailable _
  | OIsCandidate _ | OIsClean _ | OGetPubkey _ | OGetCommission _ => dsem db (exec o) a a' r
  | _ => True
  end.
Proof.
  unfold ok_op. destruct o; intros Hk Hs; try exact I; cbn in Hk; apply Forall_cons in Hk as [Hk _];
    cbn in Hs; injection Hs as <- <-; unfold exec, rz, rbool, rbytes; query_tac.
Qed.

Lemma dsem_lookups o a r a' db : ok_op o →
  spec_op o a = Some (Ret (r, a')) →
  match o with
  | OGetCode _ | OGetCodeHash _ | OGetState _ _ | OGetCommittedState _ _ | OHasTX1 _ _ | OHasTX3 _ _ | OGetProxied _ _
  | OGetDepositProxied _ _ | OGetPending _ _ | OGetRewardBy _ _ | OGetBanned _ | OGetBannedTime _ | OGetMinedBlocks _ =>
      dsem db (exec o) a a' r
  | _ => True
  end.
Proof.
  unfold ok_op. destruct o; intros Hk Hs; try exact I; cbn in Hk; apply Forall_cons in Hk as [Hk Hk2];
    try (apply Forall_cons in Hk2 as [Hk2 _]); cbn in Hs; injection Hs as <- <-; unfold exec, rz, rbool, rbytes.
  - lookup_tac (quiet_Code (SD := SD)).
  - eapply dsem_result; [apply dsem_query; [done|]|by destruct (as_acct _ _)]. intros aa o Ho.
    cbn beta.
    rewrite BytesToHash_id by apply (or_hash _ _ _ _ Ho). by rewrite (or_data _ _ _ _ Ho).
  - lookup_tac (quiet_GetState (SD := SD)).
  - lookup_tac (quiet_GetCommittedState (SD := SD)).
  - lookup_tac (quiet_HasTX1 (SD := SD)).
  - lookup_tac (quiet_HasTX3 (SD := SD)).
  - eapply dsem_result; [apply dsem_lookup; [done|]|]; [intros aa; by apply quiet_GetProxied|by destruct (as_acct _ _)].
  - eapply dsem_result; [apply dsem_lookup; [done|]|]; [intros aa; by apply quiet_GetProxied|by destruct (as_acct _ _)].
  - eapply dsem_result; [apply dsem_lookup; [done|]|]; [intros aa; by apply quiet_GetProxied|by destruct (as_acct _ _)].
  - eapply dsem_result; [apply dsem_lookup; [done|]|]; [intros aa; by apply quiet_GetReward|by destruct (as_acct _ _)].
  - eapply dsem_result; [apply (dsem_query_new _ _ _ _ (λ aa, acc_IsBanned (a_data aa)));
      [done|intros aa o Ho; by rewrite (or_data _ _ _ _ Ho)]|done].
  - eapply dsem_result; [apply (dsem_query_new _ _ _ _ (λ aa, acc_BannedTime (a_data aa)));
      [done|intros aa o Ho; by rewrite (or_data _ _ _ _ Ho)]|done].
  - eapply dsem_result; [apply (dsem_query_new _ _ _ _ (λ aa, acc_BlockTime (a_data aa)));
      [done|intros aa o Ho; by rewrite (or_data _ _ _ _ Ho)]|done].
Qed.

Lemma exec_dsem o a r a' db : ok_op o → spec_op o a = Some (Ret (r, a')) → dsem db (exec o) a a' r.
Proof.
  intros Hk Hs. pose proof (dsem_account o a r a' db Hk Hs) as H1. pose proof (dsem_entries o a r a' db Hk Hs) as H2.
  pose proof (dsem_queries o a r a' db Hk Hs) as H3. pose proof (dsem_lookups o a r a' db Hk Hs) as H4.
  destruct o; try assumption; clear H1 H2 H3 H4; unfold ok_op in Hk; cbn in Hk; cbn in Hs; unfold exec, runit, rbool, rz.
  - apply Forall_cons in Hk as [Hk _]. injection Hs as <- <-. eapply dsem_result; [by apply dsem_CreateAccount|done].
  - apply Forall_cons in Hk as [Hk _]. destruct (as_acct a addr) as [aa|] eqn:Haa; injection Hs as <- <-.
    + eapply dsem_result; [by eapply dsem_Suicide|done].
    + eapply dsem_result; [|done]. apply dsem_if_exists; [done|done|congruence].
  - injection Hs as <- <-. eapply dsem_result; [apply dsem_AddLog|done].
  - injection Hs as <- <-. intros s Hdb Ha. rewrite <-(ab_logs _ _ Ha). by apply dsem_ret.
  - injection Hs as <- <-. eapply dsem_result; [apply dsem_AddPreimage|done].
  - injection Hs as <- <-. eapply dsem_result; [apply dsem_AddRefund|done].
  - destruct (Z.ltb_spec (as_refund a) gas); [done|]. injection Hs as <- <-.
    eapply dsem_result; [by apply dsem_SubRefund|done].
  - injection Hs as <- <-. intros s Hdb Ha. rewrite <-(ab_refund _ _ Ha). by apply dsem_ret.
  - done.
  - done.
Qed.

Lemma exec_panic o a w s : ok_op o → spec_op o a = Some (Panic w) → abs s a → exec o s = Panic w.
Proof.
  intros Hk Hs Ha. destruct o; cbn in Hs; unfold done_unit, query, query_new in Hs; repeat case_in Hs; try discriminate Hs.
  - injection Hs as <-. unfold ok_op in Hk. cbn in Hk. apply Forall_cons in Hk as [Hk Hk2].
    apply Forall_cons in Hk2 as [Hk2 _].
    destruct (GetOrNew_run s a addr Ha Hk) as (s1 & o & es & E1 & Ha1 & (Hd & _) & _ & Ho & _).
    destruct (quiet_GetReward (s_db s1) addr (get_or_new a addr) dele Hk2 o s1 eq_refl) as (o' & es' & d & E2 & _); [by rewrite Hd|].
    unfold exec, runit. apply sbind_panic. unfold SubRewardBalanceByDelegateAddress, on_object. srun. unfold call.
    erewrite sbind_run by exact E2. by rewrite E.
  - injection Hs as <-. unfold exec, runit. apply sbind_panic. unfold SubRefund. srun. srun.
    by rewrite (ab_refund _ _ Ha), E.
Qed.

(** ** Snapshots *)

(** The journal in segments, one per snapshot, each of which leads back to the copy. *)
Inductive snaps_ok (db : DB) : astate → list (journalEntry T) → list revision → list (Z * astate) → Prop :=
| snaps_nil a j : snaps_ok db a j [] []
| snaps_snoc a a1 j seg revs snaps id :
    snaps_ok db a1 j revs snaps → rewinds db seg a a1 →
    snaps_ok db a (j ++ seg) (revs ++ [mkRevision id (length j)]) (snaps ++ [(id, a1)]).

Record related (s : StateDB DB T) (p : spec) : Prop := {
  rl_abs : abs s (sp_cur p);
  rl_next : s_nextRevisionId s = sp_next p;
  rl_bound : sp_next p < 2 ^ 63;
  rl_low : 0 <= sp_next p;
  rl_ids : ∀ i j r r', (i < j)%nat → s_validRevisions s !! i = Some r → s_validRevisions s !! j = Some r' → rev_id r < rev_id r';
  rl_fresh : ∀ r, r ∈ s_validRevisions s → 0 <= rev_id r < sp_next p;
  rl_snaps : snaps_ok (s_db s) (sp_cur p) (s_journal s) (s_validRevisions s) (sp_snaps p)
}.

Lemma snaps_ok_extend db a a' j es revs snaps :
  snaps_ok db a j revs snaps → rewinds db es a' a → snaps_ok db a' (j ++ es) revs snaps.
Proof.
  intros H Hr. destruct H as [|a a1 j seg revs snaps id H Hr1]; [constructor|].
  rewrite <-app_assoc. constructor; [done|]. by eapply rewinds_app.
Qed.

Lemma snaps_ok_ids db a j revs snaps : snaps_ok db a j revs snaps → rev_id <$> revs = snaps.*1.
Proof. induction 1 as [|? ? ? ? ? ? ? _ IH]; [done|]. by rewrite !fmap_app, IH. Qed.

(** [sort.Search] finds the first position where a monotone predicate holds. *)
Lemma sort_Search_spec f fuel : ∀ i j, (j - i <= fuel)%nat → (i <= j)%nat →
  (∀ x y, (x <= y)%nat → f x = true → f y = true) →
  let k := sort_Search fuel f i j in
  (i <= k <= j)%nat ∧ (∀ x, (i <= x < k)%nat → f x = false) ∧ (∀ x, (k <= x < j)%nat → f x = true).
Proof.
  induction fuel as [|fuel IH]; intros i j Hf Hij Hm; cbn -[Nat.div Nat.ltb].
  { split_and!; intros; lia. }
  destruct (Nat.ltb_spec i j) as [Hlt|]; [|split_and!; intros; lia].
  assert (Hh : (i <= (i + j) / 2 < j)%nat).
  { pose proof (Nat.div_mod (i + j) 2). pose proof (Nat.mod_upper_bound (i + j) 2). lia. }
  destruct (f ((i + j) / 2)%nat) eqn:Ef.
  - destruct (IH i ((i + j) / 2)%nat) as (H1 & H2 & H3); [lia|lia|done|]. split_and!; [lia|lia|done|].
    intros x Hx. destruct (decide (x < (i + j) / 2)%nat); [apply H3; lia|]. apply (Hm ((i + j) / 2)%nat); [lia|done].
  - destruct (IH (S ((i + j) / 2)) j) as (H1 & H2 & H3); [lia|lia|done|]. split_and!; [lia|lia| |done].
    intros x Hx. destruct (decide (x < S ((i + j) / 2))%nat); [|apply H2; lia].
    destruct (f x) eqn:Ex; [|done]. rewrite (Hm x ((i + j) / 2)%nat) in Ef; [done|lia|done].
Qed.

Lemma snaps_ok_length db a j revs snaps : snaps_ok db a j revs snaps → length revs = length snaps.
Proof. intros H. apply snaps_ok_ids in H. by rewrite <-(length_fmap rev_id), H, length_fmap. Qed.

Lemma snaps_ok_split db a j revs snaps idx r :
  snaps_ok db a j revs snaps → revs !! idx = Some r →
  ∃ a1, snaps !! idx = Some (rev_id r, a1) ∧ (rev_journalIndex r <= length j)%nat ∧
    rewinds db (drop (rev_journalIndex r) j) a a1 ∧
    snaps_ok db a1 (take (rev_journalIndex r) j) (take idx revs) (take idx snaps).
Proof.
  induction 1 as [|a a1 j seg revs snaps id H IH Hr]; intros Hi; [done|].
  pose proof (snaps_ok_length _ _ _ _ _ H) as Hlen.
  destruct (decide (idx = length revs)) as [->|Hne].
  - rewrite list_lookup_middle in Hi by done. injection Hi as <-. cbn [rev_id rev_journalIndex]. exists a1.
    rewrite list_lookup_middle, length_app, drop_app_length, !take_app_length by done.
    rewrite Hlen, take_app_length. split_and!; [done|lia|done|done].
  - assert (idx < length revs)%nat as Hlt.
    { apply lookup_lt_Some in Hi. rewrite length_app in Hi. cbn in Hi. lia. }
    rewrite lookup_app_l in Hi by done. destruct (IH Hi) as (a2 & E & Hle & Hr2 & Hs). exists a2.
    rewrite lookup_app_l, drop_app_le, !take_app_le, length_app by lia.
    split_and!; [done|lia| |done]. by eapply rewinds_app.
Qed.

Lemma find_snap_found l idx id a :
  l !! idx = Some (id, a) → (∀ i x, (i < idx)%nat → l.*1 !! i = Some x → x ≠ id) →
  find_snap id l = Some (take idx l, a).
Proof.
  revert idx. induction l as [|[i b] l IH]; intros idx Hl Hne; [done|]. destruct idx as [|idx]; cbn in Hl |- *.
  - injection Hl as -> ->. by rewrite Z.eqb_refl.
  - destruct (Z.eqb_spec i id) as [->|]; [by destruct (Hne 0%nat id); [lia|done|]|].
    rewrite (IH idx); [done|done|]. intros k x Hk Hx. apply (Hne (S k)); [lia|done].
Qed.

Lemma find_snap_missing l id : id ∉ l.*1 → find_snap id l = None.
Proof.
  induction l as [|[i b] l IH]; intros H; [done|]. cbn in H |- *. apply not_elem_of_cons in H as [H1 H2].
  destruct (Z.eqb_spec i id); [congruence|]. by rewrite IH.
Qed.

Lemma sort_Search_ext f g fuel : ∀ i j n, (∀ x, (x < n)%nat → f x = g x) → (j <= n)%nat →
  sort_Search fuel f i j = sort_Search fuel g i j.
Proof.
  induction fuel as [|fuel IH]; intros i j n Hfg Hj; cbn -[Nat.div Nat.ltb]; [done|].
  destruct (Nat.ltb_spec i j); [|done].
  assert ((i + j) / 2 < j)%nat as Hh by (apply Nat.Div0.div_lt_upper_bound; lia).
  rewrite (Hfg ((i + j) / 2)%nat) by lia. destruct (g _); eapply IH; eauto; lia.
Qed.

(** The bisection of [RevertToSnapshot] finds a revision exactly when there is one. *)
Lemma search_revision (revs : list revision) id :
  (∀ i j r r', (i < j)%nat → revs !! i = Some r → revs !! j = Some r' → rev_id r < rev_id r') →
  let idx := sort_Search (length revs)
    (λ i, match revs !! i with Some r => id <=? rev_id r | None => false end) 0 (length revs) in
  match revs !! idx with
  | Some r =>
      (∀ i x, (i < idx)%nat → (rev_id <$> revs) !! i = Some x → x < id) ∧ id <= rev_id r ∧
      (id < rev_id r → id ∉ rev_id <$> revs)
  | None => id ∉ rev_id <$> revs
  end.
Proof.
  intros Hinc idx. set (f := λ i, match revs !! i with Some r => id <=? rev_id r | None => true end).
  assert (idx = sort_Search (length revs) f 0 (length revs)) as ->.
  { unfold idx. eapply sort_Search_ext; [|reflexivity]. intros i Hi. unfold f. by destruct (lookup_lt_is_Some_2 revs i Hi) as [r ->]. }
  destruct (sort_Search_spec f (length revs) 0 (length revs)) as (Hb & Hlo & Hhi); [lia|lia| |].
  { intros x y Hxy Hx. unfold f in *. destruct (revs !! y) as [ry|] eqn:Ey; [|done].
    destruct (lookup_lt_is_Some_2 revs x) as [rx Ex]; [apply lookup_lt_Some in Ey; lia|]. rewrite Ex in Hx.
    destruct (decide (x = y)) as [->|]; [congruence|]. pose proof (Hinc x y rx ry ltac:(lia) Ex Ey). lia. }
  set (k := sort_Search _ _ _ _) in *.
  assert (Hlow : ∀ i x, (i < k)%nat → (rev_id <$> revs) !! i = Some x → x < id).
  { intros i x Hi Hx. apply list_lookup_fmap_Some in Hx as (r & -> & Hr).
    specialize (Hlo i ltac:(lia)). unfold f in Hlo. rewrite Hr in Hlo. lia. }
  destruct (revs !! k) as [r|] eqn:Ek.
  - assert (id <= rev_id r).
    { specialize (Hhi k). unfold f in Hhi. rewrite Ek in Hhi. apply lookup_lt_Some in Ek. lia. }
    split_and!; [done|done|]. intros Hlt (i & Hi)%list_elem_of_lookup_1.
    destruct (decide (i < k)%nat); [pose proof (Hlow i id ltac:(done) Hi); lia|].
    apply list_lookup_fmap_Some in Hi as (r' & -> & Hr').
    destruct (decide (i = k)) as [->|]; [simplify_eq; lia|]. pose proof (Hinc k i r r' ltac:(lia) Ek Hr'). lia.
  - intros (i & Hi)%list_elem_of_lookup_1. pose proof (lookup_lt_Some _ _ _ Hi) as Hl. rewrite length_fmap in Hl.
    apply lookup_ge_None in Ek. pose proof (Hlow i id ltac:(lia) Hi). lia.
Qed.

Lemma abs_frame s s' a :
  abs s a → s_db s' = s_db s → s_trie s' = s_trie s → s_stateObjects s' = s_stateObjects s →
  s_refund s' = s_refund s → s_thash s' = s_thash s → s_bhash s' = s_bhash s → s_txIndex s' = s_txIndex s →
  s_logs s' = s_logs s → s_logSize s' = s_logSize s → s_preimages s' = s_preimages s → sets_of s' = sets_of s →
  abs s' a.
Proof.
  intros Ha E1 E2 E3 E4 E5 E6 E7 E8 E9 E10 E11. destruct Ha. constructor; try congruence.
  intros addr Hk. specialize (ab_acct addr Hk). unfold acct_rel in *. by rewrite E3, E1.
Qed.

Lemma related_op o s p r a' :
  related s p → ok_op o → spec_op o (sp_cur p) = Some (Ret (r, a')) →
  ∃ s', exec o s = Ret (r, s') ∧ related s' (mkSpec a' (sp_snaps p) (sp_next p)) ∧ s_db s' = s_db s.
Proof.
  intros Hr Hk Hs. destruct Hr. destruct (exec_dsem o _ r a' (s_db s) Hk Hs s eq_refl rl_abs0)
    as (s' & es & E & Ha & (Hd & Hv & Hn) & Hj & Hrw).
  exists s'. split; [done|]. split; [|done]. constructor; cbn; rewrite ?Hv, ?Hn, ?Hd, ?Hj; try done.
  by eapply snaps_ok_extend.
Qed.

Lemma related_snapshot s p :
  related s p → sp_next p < 2 ^ 63 - 1 →
  ∃ s', exec OSnapshot s = Ret (RZ (sp_next p), s') ∧
    related s' (mkSpec (sp_cur p) (sp_snaps p ++ [(sp_next p, sp_cur p)]) (sp_next p + 1)) ∧ s_db s' = s_db s.
Proof.
  intros [] Hlt. unfold exec, rz, Snapshot. eexists. split.
  { rewrite <-rl_next0. reflexivity. }
  split; [|done]. constructor; cbn; rewrite ?rl_next0.
  - eapply abs_frame; [exact rl_abs0|done..].
  - apply i64_small. unfold in_i64. lia.
  - lia.
  - lia.
  - intros i j r r' Hij Hi Hj.
    assert (i < length (s_validRevisions s))%nat as Hil.
    { apply lookup_lt_Some in Hj. rewrite length_app in Hj. cbn in Hj. lia. }
    rewrite lookup_app_l in Hi by done.
    destruct (decide (j < length (s_validRevisions s))%nat) as [|Hge].
    { rewrite lookup_app_l in Hj by done. exact (rl_ids0 i j r r' Hij Hi Hj). }
    rewrite lookup_app_r in Hj by lia. destruct (j - length (s_validRevisions s))%nat; [|done].
    injection Hj as <-. cbn. apply (rl_fresh0 r). by eapply list_elem_of_lookup_2.
  - intros r [Hin|Hin]%elem_of_app; [pose proof (rl_fresh0 r Hin); lia|].
    apply list_elem_of_singleton in Hin as ->. cbn. lia.
  - pose proof (snaps_snoc _ _ _ _ [] _ _ (sp_next p) rl_snaps0 (rewinds_nil _ _)) as H. by rewrite app_nil_r in H.
Qed.

Lemma related_revert s p id l a :
  related s p → find_snap id (sp_snaps p) = Some (l, a) →
  ∃ s', exec (ORevert id) s = Ret (RUnit, s') ∧ related s' (mkSpec a l (sp_next p)) ∧ s_db s' = s_db s.
Proof.
  intros Hrel Hf. pose proof Hrel as [].
  pose proof (search_revision (s_validRevisions s) id rl_ids0) as Hsr. cbn zeta in Hsr.
  set (idx := sort_Search _ _ _ _) in Hsr.
  pose proof (snaps_ok_ids _ _ _ _ _ rl_snaps0) as Hids.
  assert (Hnot : ¬ (id ∉ rev_id <$> s_validRevisions s)).
  { rewrite Hids. intros Hn. by rewrite find_snap_missing in Hf. }
  destruct (s_validRevisions s !! idx) as [r|] eqn:Er; [|done]. destruct Hsr as (Hlow & Hge & Hgt).
  assert (rev_id r = id) as Hid by (destruct (decide (id < rev_id r)); [by destruct (Hnot (Hgt ltac:(done)))|lia]).
  destruct (snaps_ok_split _ _ _ _ _ _ _ rl_snaps0 Er) as (a1 & Hl & Hle & Hrw & Hok).
  rewrite Hid in Hl. rewrite (find_snap_found _ _ _ _ Hl) in Hf.
  2: { intros i x Hi Hx. rewrite <-Hids in Hx. pose proof (Hlow i x Hi Hx). lia. }
  injection Hf as <- <-.
  destruct (rewinds_run _ _ _ _ s Hrw eq_refl rl_abs0) as (s1 & E1 & Ha1 & (Hd & Hv & Hn) & Hj).
  pose (s2 := s1<| s_journal ::= take (rev_journalIndex r) |><| s_validRevisions ::= take idx |>).
  assert (E2 : RevertToSnapshot id s = Ret ((), s2)).
  { unfold RevertToSnapshot. srun. fold idx. rewrite Er, Hid, Z.eqb_refl. cbn [negb]. srun. reflexivity. }
  exists s2. split; [unfold exec, runit; by srun|]. split; [|exact Hd].
  constructor; cbn; rewrite ?Hv, ?Hn, ?Hd, ?Hj; try done.
  - eapply abs_frame; [exact Ha1|done..].
  - intros i j r1 r2 Hij Hi Hjl. apply lookup_take_Some in Hi as [Hi _]. apply lookup_take_Some in Hjl as [Hjl _].
    exact (rl_ids0 i j r1 r2 Hij Hi Hjl).
  - intros r' Hin. apply rl_fresh0. by eapply subseteq_take.
Qed.

Lemma revert_panics s p id :
  related s p → find_snap id (sp_snaps p) = None → exec (ORevert id) s = Panic "revision id cannot be reverted".
Proof.
  intros [] Hf. unfold exec, runit. apply sbind_panic. unfold RevertToSnapshot. srun.
  pose proof (search_revision (s_validRevisions s) id rl_ids0) as Hsr. cbn zeta in Hsr.
  set (idx := sort_Search _ _ _ _) in *. pose proof (snaps_ok_ids _ _ _ _ _ rl_snaps0) as Hids.
  destruct (s_validRevisions s !! idx) as [r|] eqn:Er; [|done].
  destruct (Z.eqb_spec (rev_id r) id) as [Hid|]; [|done]. exfalso. destruct Hsr as (Hlow & _ & _).
  destruct (snaps_ok_split _ _ _ _ _ _ _ rl_snaps0 Er) as (a1 & Hl & _).
  rewrite Hid in Hl. rewrite (find_snap_found _ _ _ _ Hl) in Hf; [done|].
  intros i x Hi Hx. rewrite <-Hids in Hx. pose proof (Hlow i x Hi Hx). lia.
Qed.

(** What an outcome of the database must be, given what the specification says. *)
Definition agrees {A} (x : outcome (A * StateDB DB T)) (y : outcome (A * spec)) : Prop :=
  match x, y with
  | Ret (r, s), Ret (r', p) => r = r' ∧ related s p
  | Panic w, Panic w' => w = w'
  | _, _ => False
  end.

Lemma step_agrees o s p x : related s p → ok_op o → spec_step o p = Some x → agrees (exec o s) x.
Proof.
  intros Hr Hk Hs.
  assert (Hop : match spec_op o (sp_cur p) with
                | None => None
                | Some (Panic w) => Some (Panic w)
                | Some (Ret (r, a)) => Some (Ret (r, mkSpec a (sp_snaps p) (sp_next p)))
                end = Some x → agrees (exec o s) x).
  { destruct (spec_op o (sp_cur p)) as [[[r a]|w]|] eqn:E; intros [= <-].
    - destruct (related_op o s p r a Hr Hk E) as (s' & -> & ? & _). done.
    - by rewrite (exec_panic o _ w s Hk E (rl_abs _ _ Hr)). }
  destruct o; try exact (Hop Hs); clear Hop; cbn in Hs.
  - destruct (Z.ltb_spec (sp_next p) (2 ^ 63 - 1)); [|done]. injection Hs as <-.
    destruct (related_snapshot s p Hr) as (s' & -> & ? & _); done.
  - destruct (find_snap id (sp_snaps p)) as [[l a]|] eqn:E; injection Hs as <-.
    + by destruct (related_revert s p id l a Hr E) as (s' & -> & ? & _).
    + by rewrite (revert_panics s p id Hr E).
Qed.

Lemma run_agrees os : ∀ s p x, related s p → Forall ok_op os → spec_run os p = Some x → agrees (exec_all os s) x.
Proof.
  induction os as [|o os IH]; intros s p x Hr Hk Hs; [by injection Hs as <-|].
  apply Forall_cons in Hk as [Hk Hks]. cbn in Hs. destruct (spec_step o p) as [y|] eqn:E; [|done].
  pose proof (step_agrees o s p y Hr Hk E) as Hy. cbn [exec_all]. unfold mbind, stM_bind.
  destruct (exec o s) as [[r s1]|w], y as [[r' p1]|w']; cbn in Hy; try done; [|by injection Hs as <-; subst].
  destruct Hy as [-> Hr1]. destruct (spec_run os p1) as [z|] eqn:Ez; [|done].
  pose proof (IH s1 p1 z Hr1 Hks Ez) as Hz.
  destruct (exec_all os s1) as [[rs s2]|w], z as [[rs' p2]|w']; cbn in Hz; try done.
  - destruct Hz as [-> ?]. by injection Hs as <-.
  - subst. by injection Hs as <-.
Qed.

(** ** From an opened database *)

Definition results {A B} (x : outcome (A * B)) : outcome A :=
  match x with Ret (a, _) => Ret a | Panic w => Panic w end.

(** The accounts that the account trie of a database stands for. *)
Definition opened (db : DB) (base : bytes → option bytes) (acct : bytes → option aacct) : Prop :=
  ∀ addr, key_ok addr →
    match base_account (base addr) with
    | None => acct addr = None
    | Some d => ∃ aa, acct addr = Some aa ∧ obj_rel db addr (newObject addr d true) aa
    end.

Definition init_spec (base : bytes → option bytes) (acct : bytes → option aacct) (pre : bytes → bytes) : spec :=
  mkSpec (mkAstate base acct 0 zeroHash zeroHash 0 ∅ 0 ∅ pre new_sets) [] 0.

Lemma New_related root db s base acct :
  New root db = Ret (inl s) → den db (s_trie s) base → opened db base acct →
  related s (init_spec base acct (t_GetKey db (s_trie s))).
Proof.
  unfold New. destruct (OpenTrie root db) as [[t|e]|w]; intros [= <-] Hd Ho; cbn in Hd.
  constructor; cbn; [|done|lia|lia|done|by intros ? ?%elem_of_nil|constructor].
  by constructor.
Qed.

Lemma agrees_results {A} (x : outcome (A * StateDB DB T)) (y : outcome (A * spec)) : agrees x y → results x = results y.
Proof. destruct x as [[r s]|w], y as [[r' p]|w']; cbn; try done; [by intros [-> _]|by intros ->]. Qed.

(** The operations between a snapshot and going back to it. *)
Definition inside (id : Z) (o : op) : Prop := match o with ORevert i => id < i | _ => True end.

Lemma find_snap_after l1 l2 id i a l b :
  id < i → Forall (λ x, x.1 <= id) l1 → find_snap i (l1 ++ (id, a) :: l2) = Some (l, b) →
  ∃ l2', l = l1 ++ (id, a) :: l2'.
Proof.
  intros Hi. revert l. induction l1 as [|[j c] l1 IH]; intros l Hf Hs; cbn in Hs.
  - destruct (Z.eqb_spec id i); [lia|]. destruct (find_snap i l2) as [[l2' b']|]; [|done].
    injection Hs as <- <-. by exists l2'.
  - apply Forall_cons in Hf as [Hj Hf]. cbn in Hj. destruct (Z.eqb_spec j i); [lia|].
    destruct (find_snap i (l1 ++ (id, a) :: l2)) as [[l' b']|] eqn:E; [|done]. injection Hs as <- <-.
    destruct (IH l' Hf eq_refl) as (l2' & ->). by exists l2'.
Qed.

Lemma spec_run_inside os : ∀ p l1 id a l2 rs p',
  sp_snaps p = l1 ++ (id, a) :: l2 → Forall (λ x, x.1 <= id) l1 → Forall (inside id) os →
  spec_run os p = Some (Ret (rs, p')) → ∃ l2', sp_snaps p' = l1 ++ (id, a) :: l2'.
Proof.
  induction os as [|o os IH]; intros p l1 id a l2 rs p' Hp Hl Hin Hs.
  { injection Hs as <- <-. by exists l2. }
  apply Forall_cons in Hin as [Ho Hin]. cbn in Hs.
  destruct (spec_step o p) as [[[r p1]|w]|] eqn:E1; [|done|done].
  destruct (spec_run os p1) as [[[rs' p2]|w]|] eqn:E2; [|done|done]. injection Hs as <- <-.
  assert (∃ l2', sp_snaps p1 = l1 ++ (id, a) :: l2') as (l2' & Hp1); [|by eapply IH].
  destruct o; try (assert (sp_snaps p1 = sp_snaps p) as -> by (unfold spec_step in E1;
    (destruct (spec_op _ (sp_cur p)) as [[[r1 a1]|w1]|]; [|done|done]); by injection E1 as <- <-); by exists l2).
  - cbn in E1. destruct (sp_next p <? _); [|done]. injection E1 as <- <-. cbn. rewrite Hp, <-app_assoc. by eexists.
  - cbn in E1. rewrite Hp in E1. destruct (find_snap _ _) as [[l b]|] eqn:Ef; [|done]. injection E1 as <- <-.
    by eapply find_snap_after.
Qed.

Definition plain (o : op) : bool := match o with OSnapshot | ORevert _ => false | _ => true end.

(** Without snapshots, the answers depend only on the current state. *)
Lemma spec_run_plain qs : ∀ p p' x, Forall (λ q, plain q = true) qs → sp_cur p = sp_cur p' →
  spec_run qs p = Some x → ∃ x', spec_run qs p' = Some x' ∧ results x' = results x.
Proof.
  induction qs as [|q qs IH]; intros p p' x Hq Hc Hx; [injection Hx as <-; by eexists|].
  apply Forall_cons in Hq as [Hq Hqs]. cbn in Hx |- *.
  assert (∀ r, spec_step q r = match spec_op q (sp_cur r) with
      | None => None
      | Some (Panic w) => Some (Panic w)
      | Some (Ret (v, a)) => Some (Ret (v, mkSpec a (sp_snaps r) (sp_next r))) end) as Hstep.
  { intros r. by destruct q; try discriminate Hq. }
  rewrite Hstep in Hx |- *. rewrite <-Hc. destruct (spec_op q (sp_cur p)) as [[[v a]|w]|]; [|injection Hx as <-; by eexists|done].
  destruct (spec_run qs _) as [y|] eqn:E; [|done].
  destruct (IH (mkSpec a (sp_snaps p) (sp_next p)) (mkSpec a (sp_snaps p') (sp_next p')) y Hqs eq_refl E) as (y' & -> & Hy).
  destruct y as [[rs p1]|w], y' as [[rs' p1']|w']; cbn in Hy; try done; injection Hx as <-; (eexists; split; [done|]); cbn; congruence.
Qed.

Lemma snapshot_run s p os id s1 rs s2 x :
  related s p → Forall ok_op os → Snapshot s = Ret (id, s1) → exec_all os s1 = Ret (rs, s2) →
  Forall (inside id) os → spec_run (OSnapshot :: os) p = Some x →
  ∃ p2 l2, related s2 p2 ∧ sp_snaps p2 = sp_snaps p ++ (id, sp_cur p) :: l2 ∧ Forall (λ y, y.1 < id) (sp_snaps p).
Proof.
  intros Hr Hos E1 E2 Hin Hx. cbn in Hx. destruct (Z.ltb_spec (sp_next p) (2 ^ 63 - 1)); [|done].
  destruct (spec_run os _) as [y|] eqn:Ey; [|done].
  destruct (related_snapshot s p Hr) as (s1' & E1' & Hr1 & _); [done|].
  unfold exec, rz in E1'. rewrite (sbind_run _ _ _ _ _ E1) in E1'. injection E1' as -> <-.
  pose proof (run_agrees os s1 _ y Hr1 Hos Ey) as Hy. rewrite E2 in Hy.
  destruct y as [[rs' p2]|w]; [|done]. destruct Hy as [-> Hr2].
  assert (Forall (λ y, y.1 < sp_next p) (sp_snaps p)) as Hlt.
  { apply Forall_forall. intros [i a] Hi%(list_elem_of_fmap_2 fst). destruct Hr.
    rewrite <-(snaps_ok_ids _ _ _ _ _ rl_snaps0) in Hi. apply list_elem_of_fmap_1 in Hi as (r & -> & Hin').
    cbn. apply (rl_fresh0 r Hin'). }
  destruct (spec_run_inside os (mkSpec (sp_cur p) (sp_snaps p ++ [(sp_next p, sp_cur p)]) (sp_next p + 1))
    (sp_snaps p) (sp_next p) (sp_cur p) [] rs' p2 eq_refl) as (l2 & Hl2); [|done|done|].
  { eapply Forall_impl; [exact Hlt|]. cbn. lia. }
  by exists p2, l2.
Qed.

Lemma revert_run s2 p2 l1 id a l2 :
  related s2 p2 → sp_snaps p2 = l1 ++ (id, a) :: l2 → Forall (λ y, y.1 < id) l1 →
  ∃ s3, RevertToSnapshot id s2 = Ret ((), s3) ∧ related s3 (mkSpec a l1 (sp_next p2)).
Proof.
  intros Hr Hs Hlt. destruct (related_revert s2 p2 id l1 a Hr) as (s3 & E3 & Hr3 & _).
  { rewrite Hs, (find_snap_found _ (length l1) id a).
    - by rewrite take_app_length.
    - by rewrite list_lookup_middle.
    - intros i x Hi Hx. rewrite fmap_app, lookup_app_l in Hx by (by rewrite length_fmap).
      apply list_lookup_fmap_Some in Hx as ([j b] & -> & Hj). cbn.
      pose proof (proj1 (Forall_lookup _ _) Hlt i _ Hj) as H1. cbn in H1. lia. }
  exists s3. split; [|done]. unfold exec, runit in E3.
  destruct (RevertToSnapshot id s2) as [[[] s']|w] eqn:E; [|by rewrite (sbind_panic _ _ _ _ E) in E3].
  rewrite (sbind_run _ _ _ _ _ E) in E3. by injection E3 as <-.
Qed.

Lemma plain_results s s' p p' qs x :
  related s p → related s' p' → sp_cur p' = sp_cur p → Forall ok_op qs → Forall (λ q, plain q = true) qs →
  spec_run qs p = Some x → results (exec_all qs s') = results (exec_all qs s).
Proof.
  intros Hr Hr' Hc Hq Hp Hx. destruct (spec_run_plain qs p p' x Hp (eq_sym Hc) Hx) as (x' & Hx' & He).
  by rewrite (agrees_results _ _ (run_agrees qs s' p' x' Hr' Hq Hx')), (agrees_results _ _ (run_agrees qs s p x Hr Hq Hx)).
Qed.

End refinement.

(** ** Sample runs, over an empty database *)

Definition demo_addr : bytes := replicate 32 17.

Definition demo_base : bytes → option bytes := λ _, None.
Definition demo_acct : bytes → option aacct := λ _, None.

Definition demo_inner : list op :=
  [OAddBalance demo_addr 7; OSetState demo_addr [1] [2]; OSnapshot; OSuicide demo_addr; ORevert 1; OAddRefund 5].

Definition demo_queries : list op := [OGetBalance demo_addr; OGetState demo_addr [1]; OHasSuicided demo_addr; OGetRefund].

Definition demo_ops : list op := OAddBalance demo_addr 3 :: OSnapshot :: demo_inner ++ ORevert 0 :: demo_queries.

Definition toy_open : outcome (StateDB Database SecureTrie + trieErr) :=
  @New _ _ (@cachingDB toy_keccak) zeroHash (NewDatabase ∅).

Definition toy_pre (s : StateDB Database SecureTrie) : bytes → bytes :=
  @t_GetKey _ _ (@cachingDB toy_keccak) (NewDatabase ∅) (s_trie s).

Lemma toy_den : ∃ t, @secure_den toy_keccak (NewDatabase ∅) t demo_base ∧ st_root t = nilNode ∧ st_secKeyCache t = ∅.
Proof. exists (mkSecure nilNode ∅). split; [|done]. exists ∅. split; [apply represents_empty|apply hashed_empty]. Qed.

(** C11. What the state database promises between two commits. Opened at a root, it
    answers every sequence of the methods that create and delete accounts, read and
    write balances, nonces, codes, storage, stakes, rewards, candidates and bans, logs,
    preimages and refunds, take snapshots and revert to them as the specification does,
    panics included. In the specification the accounts are records of functions and a
    snapshot is a copy of everything, so that for these methods the caches of objects
    and entries, the tries loaded on demand and the journal are not observable. The
    sequences do not add a transaction hash that is recorded already. Not among the
    methods are Empty, GetCodeSize, the address sets, the walks, Copy, Reset, Finalise,
    IntermediateRoot and Commit. *)
Theorem statedb_refines {DB T} {SD : StateDatabase DB T} {SR : StateReads SD} `{KeccakLib, !KeccakLaws}
    root db s base acct os x :
  New root db = Ret (inl s) → den db (s_trie s) base → opened db base acct → Forall ok_op os →
  spec_run os (init_spec base acct (t_GetKey db (s_trie s))) = Some x →
  results (exec_all os s) = results x.
Proof.
  intros Hn Hd Ho Hos Hx. eapply agrees_results, run_agrees; [by eapply New_related|done|done].
Qed.

Lemma statedb_refines_witness :
  ∃ s, toy_open = Ret (inl s) ∧
    results (@exec_all _ _ (@cachingDB toy_keccak) toy_keccak demo_ops s) =
      Ret [RUnit; RZ 0; RUnit; RUnit; RZ 1; RBool true; RUnit; RUnit; RUnit; RZ 3; RBytes zeroHash; RBool false; RZ 0].
Proof.
  destruct (from_Ret (inr TrieFuel) toy_open) as [s|e] eqn:E; [|discriminate E].
  exists s. assert (toy_open = Ret (inl s)) as Hn by (injection E as <-; reflexivity). split; [exact Hn|].
  rewrite (@statedb_refines _ _ (@cachingDB toy_keccak) secure_reads toy_keccak toy_keccak_laws zeroHash
    (NewDatabase ∅) s demo_base demo_acct demo_ops
    (default (Panic EmptyString) (@spec_run toy_keccak demo_ops (init_spec demo_base demo_acct (toy_pre s))))).
  - vm_compute. reflexivity.
  - exact Hn.
  - injection E as <-. destruct toy_den as (t & Ht & E1 & E2). destruct t. cbn in E1, E2. subst. exact Ht.
  - by intros addr _.
  - repeat constructor.
  - reflexivity.
Defined.

(** C12. Reverting restores the accounts. After a snapshot, any operations of the kind
    of the refinement that do not go back beyond it, and reverting to it, which
    succeeds, every sequence of such operations without snapshots returns what it would
    have returned at the time of the snapshot. The operations do not add a transaction
    hash that is recorded already; and Empty, Finalise and Commit, which can tell a
    reverted state from the original, are not among them. *)
Theorem revert_restores {DB T} {SD : StateDatabase DB T} {SR : StateReads SD} `{KeccakLib, !KeccakLaws}
    s p os qs id s1 rs s2 x y :
  related s p → Forall ok_op os → Forall ok_op qs → Forall (λ q, plain q = true) qs →
  spec_run (OSnapshot :: os) p = Some x → spec_run qs p = Some y →
  Snapshot s = Ret (id, s1) → exec_all os s1 = Ret (rs, s2) → Forall (inside id) os →
  ∃ s3, RevertToSnapshot id s2 = Ret ((), s3) ∧ results (exec_all qs s3) = results (exec_all qs s).
Proof.
  intros Hr Hos Hqs Hpl Hx Hy E1 E2 Hin.
  destruct (snapshot_run s p os id s1 rs s2 x) as (p2 & l2 & Hr2 & Hs2 & Hlt); [done..|].
  destruct (revert_run s2 p2 (sp_snaps p) id (sp_cur p) l2) as (s3 & E3 & Hr3); [done..|].
  exists s3. split; [done|]. by eapply plain_results.
Qed.

Lemma revert_restores_witness :
  ∃ s s1 rs s2 s3, toy_open = Ret (inl s) ∧ @Snapshot Database SecureTrie s = Ret (0, s1) ∧
    @exec_all _ _ (@cachingDB toy_keccak) toy_keccak demo_inner s1 = Ret (rs, s2) ∧
    @RevertToSnapshot _ _ (@cachingDB toy_keccak) toy_keccak 0 s2 = Ret ((), s3) ∧
    results (@exec_all _ _ (@cachingDB toy_keccak) toy_keccak demo_queries s3) =
    results (@exec_all _ _ (@cachingDB toy_keccak) toy_keccak demo_queries s).
Proof.
  destruct (from_Ret (inr TrieFuel) toy_open) as [s|e] eqn:E; [|discriminate E].
  assert (toy_open = Ret (inl s)) as Hn by (injection E as <-; reflexivity).
  destruct toy_den as ([r c] & Ht & E1 & E2). cbn in E1, E2. subst r c.
  assert (@related _ _ _ (@secure_reads toy_keccak _) toy_keccak s (init_spec demo_base demo_acct (toy_pre s))) as Hr.
  { eapply New_related; [exact Hn|injection E as <-; exact Ht|by intros addr _]. }
  clear E. destruct (@Snapshot _ _ s) as [[id s1]|w] eqn:E1; [|discriminate E1].
  assert (id = 0) as -> by (injection E1 as <- _; apply (rl_next _ _ Hr)).
  destruct (results (@exec_all _ _ (@cachingDB toy_keccak) toy_keccak demo_inner s1)) as [rs|w] eqn:E2.
  2: { injection Hn as <-. injection E1 as <-. vm_compute in E2. discriminate E2. }
  destruct (@exec_all _ _ (@cachingDB toy_keccak) toy_keccak demo_inner s1) as [[rs' s2]|w] eqn:E3; [|discriminate E2].
  destruct (@revert_restores _ _ (@cachingDB toy_keccak) secure_reads toy_keccak toy_keccak_laws s _
    demo_inner demo_queries 0 s1 rs' s2
    (default (Panic EmptyString) (@spec_run toy_keccak (OSnapshot :: demo_inner) (init_spec demo_base demo_acct (toy_pre s))))
    (default (Panic EmptyString) (@spec_run toy_keccak demo_queries (init_spec demo_base demo_acct (toy_pre s)))) Hr)
    as (s3 & E4 & Hq);
    [repeat constructor|repeat constructor|repeat constructor|reflexivity|reflexivity|exact E1|exact E3|repeat constructor|].
  exists s, s1, rs', s2, s3. split_and!; done.
Defined.
