(* ===== verification/StateFlush.v ===== *)
(** * Writing the state back (core/state)

    [updateTrie] and its siblings write the dirty entries of an object to its tries,
    [Finalise] the dirty objects to the account trie, and [Commit] the tries to the trie
    database.  The four address sets and the reward per block of a side chain live in the
    account trie under names.  [Copy] copies the state.  Go ranges over maps in any order:
    the order is that of the class [GoRange]. *)

From Stdlib Require Import ZArith Lia ZifyBool.
From stdpp Require Import base tactics strings numbers gmap list.
From S2P Require Import Prelude Rlp RlpDecode Trie TrieNodes TrieDb TrieHash.
From S2P Require Import StateObject StateDb.

Local Open Scope Z_scope.
Local Open Scope record_scope.

(** Go's string constants used as keys. *)
Definition str (s : string) : bytes := (λ c, Z.of_nat (Ascii.nat_of_ascii c)) <$> String.list_ascii_of_string s.

Section objects.
  Context {DB T : Type} {SD : StateDatabase DB T} {KL : KeccakLib} {R : GoRange}.

Local Abbreviation OM := (stM (stateObject T * StateDB DB T)).

(** ** The tries of an object *)

(** [self.setError(tr.TryUpdate(key, v))], or [TryDelete] for [None], on a trie that the
    object has opened. *)
Definition trie_write (get : stateObject T → option T) (put : T → stateObject T → stateObject T)
    (key : bytes) (value : option bytes) : OM () :=
  o ← self;
  s ← self_db;
  match get o with
  | None => spanic "nil pointer dereference"
  | Some t =>
      r ← slift (match value with
                 | None => t_TryDelete (s_db s) t key
                 | Some v => t_TryUpdate (s_db s) t key v
                 end);
      match r with inl t => modify_self (put t) | inr e => so_setError (Some (ErrTrie e)) end
  end.

(** [self.data.Root = self.trie.Hash()] *)
Definition hash_root (get : stateObject T → option T) (put : T → stateObject T → stateObject T)
    (put_root : bytes → Account → Account) : OM () :=
  o ← self;
  match get o with
  | None => spanic "nil pointer dereference"
  | Some t =>
      r ← slift (t_Hash t);
      modify_self (λ o, (put r.2 o)<| so_data ::= put_root r.1 |>)
  end.

(** [root, err := self.trie.Commit(nil)] *)
Definition commit_trie (t : T) (put : T → stateObject T → stateObject T)
    (put_root : bytes → Account → Account) : OM () := λ '(o, s),
  match t_Commit None t (s_db s) with
  | Panic w => Panic w
  | Ret (root, t, db) => Ret ((), ((put t o)<| so_data ::= put_root root |>, s<| s_db := db |>))
  end.

(** It is not reached when there is a memoized error. *)
Definition commit_root (get : stateObject T → option T) (put : T → stateObject T → stateObject T)
    (put_root : bytes → Account → Account) : OM (option stErr) :=
  o ← self;
  match so_dbErr o, get o with
  | Some e, _ => mret (Some e)
  | None, None => spanic "nil pointer dereference"
  | None, Some t => commit_trie t put put_root;; mret None
  end.

Definition put_trie (t : T) (o : stateObject T) : stateObject T := o<| so_trie := Some t |>.
Definition put_tx1Trie (t : T) (o : stateObject T) : stateObject T := o<| so_tx1Trie := Some t |>.
Definition put_tx3Trie (t : T) (o : stateObject T) : stateObject T := o<| so_tx3Trie := Some t |>.
Definition put_proxiedTrie (t : T) (o : stateObject T) : stateObject T := o<| so_proxiedTrie := Some t |>.
Definition put_rewardTrie (t : T) (o : stateObject T) : stateObject T := o<| so_rewardTrie := Some t |>.

Definition update_storage (kv : bytes * bytes) : OM () :=
  let '(key, value) := kv in
  modify_self (λ o, o<| so_dirtyStorage ::= base.delete key |>);;
  o ← self;
  if bool_decide (value = default zeroHash (so_originStorage o !! key)) then mret ()
  else
    modify_self (λ o, o<| so_originStorage ::= <[key := value]> |>);;
    trie_write so_trie put_trie key
      (if bool_decide (value = zeroHash) then None
       else Some (encode_or_nil TBytes (VBytes (TrimLeft0 value)))).

Definition updateTrie : OM () :=
  getTrie;; o ← self; sfor update_storage (range (so_dirtyStorage o)).

Definition updateRoot : OM () :=
  updateTrie;; hash_root so_trie put_trie (λ h d, d<| acc_Root := h |>).

Definition CommitTrie : OM (option stErr) :=
  updateTrie;; commit_root so_trie put_trie (λ h d, d<| acc_Root := h |>).

Definition tx_value (tx : bytes) : bytes := encode_or_nil TBytes (VBytes (TrimLeft0 tx)).

Definition updateTX1Trie : OM () :=
  getTX1Trie;; o ← self;
  sfor (λ tx1, removeTX1 tx1;; trie_write so_tx1Trie put_tx1Trie tx1 (Some (tx_value tx1))) (range_set (so_dirtyTX1 o)).

Definition updateTX1Root : OM () :=
  updateTX1Trie;; hash_root so_tx1Trie put_tx1Trie (λ h d, d<| acc_TX1Root := h |>).

Definition CommitTX1Trie : OM (option stErr) :=
  updateTX1Trie;; commit_root so_tx1Trie put_tx1Trie (λ h d, d<| acc_TX1Root := h |>).

Definition updateTX3Trie : OM () :=
  getTX3Trie;; o ← self;
  sfor (λ tx3, removeTX3 tx3;; trie_write so_tx3Trie put_tx3Trie tx3 (Some (tx_value tx3))) (range_set (so_dirtyTX3 o)).

Definition updateTX3Root : OM () :=
  updateTX3Trie;; hash_root so_tx3Trie put_tx3Trie (λ h d, d<| acc_TX3Root := h |>).

Definition CommitTX3Trie : OM (option stErr) :=
  updateTX3Trie;; commit_root so_tx3Trie put_tx3Trie (λ h d, d<| acc_TX3Root := h |>).

(** The comparison with the value in the trie, and the test for an empty value, read the
    fields of the dirty value, which may be nil. *)
Definition update_proxied (kv : bytes * option accountProxiedBalance) : OM () :=
  let '(key, value) := kv in
  modify_self (λ o, o<| so_dirtyProxied ::= base.delete key |>);;
  o ← self;
  same ← slift (pb_Equal value (default None (so_originProxied o !! key)));
  if same : bool then mret ()
  else
    modify_self (λ o, o<| so_originProxied ::= <[key := value]> |>);;
    e ← slift (pb_IsEmpty value);
    trie_write so_proxiedTrie put_proxiedTrie key
      (if e : bool then None
       else match value with
            | Some v => Some (encode_or_nil proxied_ty (proxied_val v))
            | None => None
            end).

Definition updateProxiedTrie : OM () :=
  getProxiedTrie;; o ← self; sfor update_proxied (range (so_dirtyProxied o)).

Definition updateProxiedRoot : OM () :=
  updateProxiedTrie;; hash_root so_proxiedTrie put_proxiedTrie (λ h d, d<| acc_ProxiedRoot := h |>).

Definition CommitProxiedTrie : OM (option stErr) :=
  updateProxiedTrie;; commit_root so_proxiedTrie put_proxiedTrie (λ h d, d<| acc_ProxiedRoot := h |>).

(** [big.Int.Cmp] and [Sign] of nil panic. *)
Definition update_reward (kv : bytes * option Z) : OM () :=
  let '(key, value) := kv in
  modify_self (λ o, o<| so_dirtyReward ::= base.delete key |>);;
  o ← self;
  same ← slift (match default None (so_originReward o !! key), value with
                | None, _ => Ret false
                | Some r, Some v => Ret (v =? r)
                | Some _, None => Panic "nil pointer dereference"
                end);
  if same : bool then mret ()
  else
    modify_self (λ o, o<| so_originReward ::= <[key := value]> |>);;
    match value with
    | None => spanic "nil pointer dereference"
    | Some v =>
        trie_write so_rewardTrie put_rewardTrie (reward_key key)
          (if v =? 0 then None else Some (encode_or_nil TBig (VBig v)))
    end.

Definition updateRewardTrie : OM () :=
  getRewardTrie;; o ← self; sfor update_reward (range (so_dirtyReward o)).

Definition updateRewardRoot : OM () :=
  updateRewardTrie;; hash_root so_rewardTrie put_rewardTrie (λ h d, d<| acc_RewardRoot := h |>).

Definition CommitRewardTrie : OM (option stErr) :=
  updateRewardTrie;; commit_root so_rewardTrie put_rewardTrie (λ h d, d<| acc_RewardRoot := h |>).

(** The copy of an object; its maps are copied, the pointers to side-chain deposits in its
    data are shared with the original. *)
Definition deepCopy (o : stateObject T) : outcome (stateObject T) :=
  dirtyProxied ← Proxied_Copy (so_dirtyProxied o);
  originProxied ← Proxied_Copy (so_originProxied o);
  dirtyReward ← Reward_Copy (so_dirtyReward o);
  originReward ← Reward_Copy (so_originReward o);
  Ret ((newObject (so_address o) (so_data o) true : stateObject T)
    <| so_trie := so_trie o |><| so_tx1Trie := so_tx1Trie o |><| so_tx3Trie := so_tx3Trie o |>
    <| so_proxiedTrie := so_proxiedTrie o |><| so_rewardTrie := so_rewardTrie o |>
    <| so_code := so_code o |><| so_dirtyStorage := so_dirtyStorage o |>
    <| so_originStorage := so_originStorage o |><| so_suicided := so_suicided o |>
    <| so_dirtyCode := so_dirtyCode o |><| so_deleted := so_deleted o |>
    <| so_dirtyTX1 := so_dirtyTX1 o |><| so_dirtyTX3 := so_dirtyTX3 o |>
    <| so_dirtyProxied := dirtyProxied |><| so_originProxied := originProxied |>
    <| so_dirtyReward := dirtyReward |><| so_originReward := originReward |>).
End objects.

(** ** The state database *)

Section flush.
  Context {DB T : Type} {SD : StateDatabase DB T} {KL : KeccakLib} {R : GoRange} {SORT : GoSort}.

Local Abbreviation DM := (stM (StateDB DB T)).
Local Abbreviation OM := (stM (stateObject T * StateDB DB T)).

(** [self.setError(self.trie.TryUpdate(key, v))], or [TryDelete] for [None]. *)
Definition write_entry (key : bytes) (value : option bytes) : DM () :=
  s ← sget;
  r ← slift (match value with
             | None => t_TryDelete (s_db s) (s_trie s) key
             | Some v => t_TryUpdate (s_db s) (s_trie s) key v
             end);
  match r with
  | inl t => smod (λ s, s<| s_trie := t |>)
  | inr e => setError (Some (ErrTrie e))
  end.

(** An encoding that fails is a panic. *)
Definition must_encode (t : ty) (v : val) : outcome bytes :=
  match EncodeToBytes t v with inl b => Ret b | inr _ => Panic "can't encode" end.

Definition updateStateObject (o : stateObject T) : DM () :=
  data ← slift (must_encode account_ty (account_val (so_data o)));
  write_entry (so_address o) (Some data).

Definition deleteStateObject (o : stateObject T) : DM () :=
  call o (modify_self (λ o, o<| so_deleted := true |>));;
  write_entry (so_address o) None.

(** The object that the map holds for an address; a missing one is a nil pointer. *)
Definition object_at (addr : bytes) : DM (stateObject T) :=
  s ← sget;
  match s_stateObjects s !! addr with
  | Some o => mret o
  | None => spanic "nil pointer dereference"
  end.

(** *** Address sets *)

(** A set with its dirty flag and its name in the account trie. *)
Record setField := mkSetField {
  sf_get : StateDB DB T → option (gset bytes);
  sf_put : option (gset bytes) → StateDB DB T → StateDB DB T;
  sf_mark : StateDB DB T → StateDB DB T;
  sf_key : bytes
}.

Definition bannedSet : setField :=
  mkSetField s_bannedSet (λ x s, s<| s_bannedSet := x |>) (λ s, s<| s_bannedSetDirty := true |>) (str "BannedSet").
Definition candidateSet : setField :=
  mkSetField s_candidateSet (λ x s, s<| s_candidateSet := x |>) (λ s, s<| s_candidateSetDirty := true |>)
    (str "CandidateSet").
Definition delegateRefundSet : setField :=
  mkSetField s_delegateRefundSet (λ x s, s<| s_delegateRefundSet := x |>)
    (λ s, s<| s_delegateRefundSetDirty := true |>) (str "DelegateRefundSet").
Definition rewardSet : setField :=
  mkSetField s_rewardSet (λ x s, s<| s_rewardSet := x |>) (λ s, s<| s_rewardSetDirty := true |>) (str "RewardSet").

Definition set_ty : ty := TSlice hash_ty.

(** [EncodeRLP]: the addresses in descending order; a nil map is an empty list. *)
Definition set_list (X : option (gset bytes)) : list bytes :=
  sort_Slice (λ a b, bytes_Compare a b =? 1) (match X with Some X => range_set X | None => [] end).

Definition encode_set (X : option (gset bytes)) : outcome bytes :=
  must_encode set_ty (VList (VBytes <$> set_list X)).

(** [DecodeRLP]; the set stays nil when there is an error. *)
Definition val_bytes (v : val) : bytes := match v with VBytes b => b | _ => [] end.

Definition decode_set (enc : bytes) : option (gset bytes) * option rlpErr :=
  match DecodeBytes (rlp_fuel enc) set_ty enc with
  | inl (VList l) => (Some (list_to_set (val_bytes <$> l)), None)
  | inl _ => (None, Some ErrTypeTag)
  | inr e => (None, Some e)
  end.

(** [self.trie.TryGet(key)], which keeps the nodes that it loaded. *)
Definition read_entry (key : bytes) : DM (option bytes + trieErr) :=
  s ← sget;
  r ← slift (t_TryGet (s_db s) (s_trie s) key);
  match r with
  | inl (v, t) => smod (λ s, s<| s_trie := t |>);; mret (inl v)
  | inr e => mret (inr e)
  end.

Definition get_set (F : setField) : DM (option (gset bytes)) :=
  s ← sget;
  if bool_decide (default ∅ (sf_get F s) ≠ ∅) then mret (sf_get F s)
  else
    r ← read_entry (sf_key F);
    match r with
    | inr e => setError (Some (ErrTrie e));; mret None
    | inl enc =>
        match default [] enc with
        | [] => mret None
        | enc =>
            let '(value, err) := decode_set enc in
            (match err with Some e => setError (Some (ErrRlp e)) | None => mret () end);;
            smod (sf_put F value);; mret value
        end
    end.

(** Assigning into a nil map panics. *)
Definition mark_set (F : setField) (addr : bytes) : DM () :=
  X ← get_set F;
  if bool_decide (addr ∈ default ∅ X) then mret ()
  else
    s ← sget;
    match sf_get F s with
    | None => spanic "assignment to entry in nil map"
    | Some X => smod (λ s, sf_mark F (sf_put F (Some ({[addr]} ∪ X)) s))
    end.

(** [delete] on a nil map does nothing. *)
Definition clear_set (F : setField) (addr : bytes) : DM () :=
  smod (λ s, sf_mark F (sf_put F ((λ X, X ∖ {[addr]}) <$> sf_get F s) s)).

Definition commit_set (F : setField) : DM () :=
  s ← sget;
  data ← slift (encode_set (sf_get F s));
  write_entry (sf_key F) (Some data).

Definition GetBannedSet : DM (option (gset bytes)) := get_set bannedSet.
Definition MarkAddressBanned : bytes → DM () := mark_set bannedSet.
Definition ClearBannedSetByAddress : bytes → DM () := clear_set bannedSet.
Definition commitBannedSet : DM () := commit_set bannedSet.

Definition GetCandidateSet : DM (option (gset bytes)) := get_set candidateSet.
Definition MarkAddressCandidate : bytes → DM () := mark_set candidateSet.
Definition ClearCandidateSetByAddress : bytes → DM () := clear_set candidateSet.
Definition commitCandidateSet : DM () := commit_set candidateSet.

Definition GetRewardSet : DM (option (gset bytes)) := get_set rewardSet.
Definition MarkAddressReward : bytes → DM () := mark_set rewardSet.
Definition ClearRewardSetByAddress : bytes → DM () := clear_set rewardSet.
Definition commitRewardSet : DM () := commit_set rewardSet.

Definition GetDelegateAddressRefundSet : DM (option (gset bytes)) := get_set delegateRefundSet.
Definition MarkDelegateAddressRefund : bytes → DM () := mark_set delegateRefundSet.
Definition commitDelegateRefundSet : DM () := commit_set delegateRefundSet.

Definition ClearDelegateRefundSet : DM () :=
  write_entry (sf_key delegateRefundSet) None;;
  smod (λ s, s<| s_delegateRefundSet := Some ∅ |><| s_delegateRefundSetDirty := false |>).

(** *** The reward per block of a side chain *)

Definition sideChainRewardPerBlockKey : bytes := str "RewardPerBlock".

Definition SetSideChainRewardPerBlock (rewardPerBlock : option Z) : DM () :=
  smod (λ s, s<| s_sideChainRewardPerBlock := rewardPerBlock |><| s_sideChainRewardPerBlockDirty := true |>).

Definition GetSideChainRewardPerBlock : DM (option Z) :=
  s ← sget;
  match s_sideChainRewardPerBlock s with
  | Some r => mret (Some r)
  | None =>
      r ← read_entry sideChainRewardPerBlockKey;
      match r with
      | inr e => setError (Some (ErrTrie e));; mret None
      | inl enc =>
          match default [] enc with
          | [] => mret (Some 0)
          | enc =>
              let '(value, err) := decodeBig enc in
              (match err with Some e => setError (Some (ErrRlp e)) | None => mret () end);;
              smod (λ s, s<| s_sideChainRewardPerBlock := Some value |>);;
              mret (Some value)
          end
      end
  end.

(** A nil pointer is encoded as zero. *)
Definition commitSideChainRewardPerBlock : DM () :=
  s ← sget;
  data ← slift (must_encode TBig (VBig (default 0 (s_sideChainRewardPerBlock s))));
  write_entry sideChainRewardPerBlockKey (Some data).

(** *** Finalise *)

Definition finalise_one (deleteEmptyObjects : bool) (addr : bytes) : DM () :=
  o ← object_at addr;
  if so_suicided o || (deleteEmptyObjects && empty o) then deleteStateObject o
  else
    call o (updateRoot;; updateTX1Root;; updateTX3Root;; updateProxiedRoot;; updateRewardRoot);;
    o ← object_at addr;
    updateStateObject o.

Definition when (b : bool) (m : DM ()) : DM () := if b then m else mret ().

Definition Finalise (deleteEmptyObjects : bool) : DM () :=
  s ← sget;
  sfor (finalise_one deleteEmptyObjects) (range_set (s_stateObjectsDirty s));;
  s ← sget;
  when (s_delegateRefundSetDirty s) commitDelegateRefundSet;;
  when (s_rewardSetDirty s) commitRewardSet;;
  when (s_candidateSetDirty s) commitCandidateSet;;
  when (s_bannedSetDirty s) commitBannedSet;;
  when (s_sideChainRewardPerBlockDirty s) commitSideChainRewardPerBlock;;
  clearJournalAndRefund.

Definition IntermediateRoot (deleteEmptyObjects : bool) : DM bytes :=
  Finalise deleteEmptyObjects;;
  s ← sget;
  r ← slift (t_Hash (s_trie s));
  smod (λ s, s<| s_trie := r.2 |>);;
  mret r.1.

Definition DeleteSuicides : DM () :=
  clearJournalAndRefund;;
  s ← sget;
  sfor (λ addr,
    o ← object_at addr;
    (if so_suicided o then call o (modify_self (λ o, o<| so_deleted := true |>)) else mret ());;
    smod (λ s, s<| s_stateObjectsDirty ::= λ d, d ∖ {[addr]} |>)) (range_set (s_stateObjectsDirty s)).

(** *** Commit *)

(** Both are package variables of statedb.go. *)
Definition emptyCode : bytes := keccak256 [].

(** What the account refers to is kept as long as the node that holds the account. *)
Definition onleaf (leaf parent : bytes) (db : DB) : outcome DB :=
  match decodeAccount leaf with
  | inr _ => Ret db
  | inl account =>
      let ref (root : bytes) (db : DB) : outcome DB :=
        if bool_decide (root ≠ emptyRoot) then db_Reference root parent db else Ret db in
      db ← ref (acc_Root account) db;
      db ← ref (acc_TX1Root account) db;
      db ← ref (acc_TX3Root account) db;
      db ← ref (acc_ProxiedRoot account) db;
      db ← ref (acc_RewardRoot account) db;
      let code := BytesToHash (default [] (acc_CodeHash account)) in
      if bool_decide (code ≠ emptyCode) then db_Reference code parent db else Ret db
  end.

(** [InsertBlob] of the code of an object. *)
Definition write_code : OM () := λ '(o, s),
  match so_code o, so_dirtyCode o with
  | Some code, true =>
      match db_InsertBlob (BytesToHash (CodeHash o)) code (s_db s) with
      | Panic w => Panic w
      | Ret db => Ret ((), (o<| so_dirtyCode := false |>, s<| s_db := db |>))
      end
  | _, _ => Ret ((), (o, s))
  end.

(** [if err := m; err != nil { return err }] *)
Definition and_then {S} (m n : stM S (option stErr)) : stM S (option stErr) :=
  r ← m;
  match r with Some e => mret (Some e) | None => n end.

Definition commit_object : OM (option stErr) :=
  write_code;;
  and_then CommitTrie (and_then CommitTX1Trie (and_then CommitTX3Trie (and_then CommitProxiedTrie CommitRewardTrie))).

Definition commit_one (deleteEmptyObjects : bool) (addr : bytes) : DM (option stErr) :=
  o ← object_at addr;
  s ← sget;
  let isDirty := bool_decide (addr ∈ s_stateObjectsDirty s) in
  let undirty := smod (λ s, s<| s_stateObjectsDirty ::= λ d, d ∖ {[addr]} |>);; mret None in
  if so_suicided o || (isDirty && deleteEmptyObjects && empty o) then deleteStateObject o;; undirty
  else if isDirty then
    err ← call o commit_object;
    match err with
    | Some e => mret (Some e)
    | None => o ← object_at addr; updateStateObject o;; undirty
    end
  else undirty.

Definition commit_names : DM () :=
  s ← sget;
  when (s_delegateRefundSetDirty s)
    (commitDelegateRefundSet;; smod (λ s, s<| s_delegateRefundSetDirty := false |>));;
  when (s_rewardSetDirty s) (commitRewardSet;; smod (λ s, s<| s_rewardSetDirty := false |>));;
  when (s_candidateSetDirty s) (commitCandidateSet;; smod (λ s, s<| s_candidateSetDirty := false |>));;
  when (s_bannedSetDirty s) (commitBannedSet;; smod (λ s, s<| s_bannedSetDirty := false |>));;
  when (s_sideChainRewardPerBlockDirty s)
    (commitSideChainRewardPerBlock;; smod (λ s, s<| s_sideChainRewardPerBlockDirty := false |>)).

(** The root, or the error of an object; the journal is cleared in both cases. *)
Definition Commit (deleteEmptyObjects : bool) : DM (bytes + stErr) :=
  s ← sget;
  err ← sfor_err (commit_one deleteEmptyObjects) (range (s_stateObjects s)).*1;
  match err with
  | Some e => clearJournalAndRefund;; mret (inr e)
  | None =>
      commit_names;;
      s ← sget;
      r ← slift (t_Commit (Some onleaf) (s_trie s) (s_db s));
      let '(root, t, db) := r in
      smod (λ s, s<| s_trie := t |><| s_db := db |>);;
      clearJournalAndRefund;;
      mret (inl root)
  end.

(** *** Copy *)

(** Only dirty objects are copied; the others are loaded again on demand. *)
Definition copy_object (s : StateDB DB T) (addr : bytes) (m : gmap bytes (stateObject T))
    : outcome (gmap bytes (stateObject T)) :=
  match s_stateObjects s !! addr with
  | None => Panic "nil pointer dereference"
  | Some o => o ← deepCopy o; Ret (<[addr := o]> m)
  end.

Definition Copy (s : StateDB DB T) : outcome (StateDB DB T) :=
  objs ← for_each (copy_object s) (range_set (s_stateObjectsDirty s)) ∅;
  Ret (mkStateDB (s_db s) (s_trie s) objs (s_stateObjectsDirty s)
    (Some (default ∅ (s_delegateRefundSet s))) (s_delegateRefundSetDirty s)
    (Some (default ∅ (s_rewardSet s))) (s_rewardSetDirty s)
    (Some (default ∅ (s_candidateSet s))) (s_candidateSetDirty s)
    (Some (default ∅ (s_bannedSet s))) (s_bannedSetDirty s)
    (s_sideChainRewardPerBlock s) (s_sideChainRewardPerBlockDirty s)
    None (s_refund s) zeroHash zeroHash 0 (s_logs s) (s_logSize s) (s_preimages s) [] [] 0).

End flush.
