(* ===== verification/StateFacts.v ===== *)
(** * The state database at its edges (core/state)

    Runs of the model on concrete inputs, over an empty database, where the code does
    something that its comments or its callers do not expect. *)

From Stdlib Require Import ZArith Lia ZifyBool.
From stdpp Require Import base tactics strings numbers gmap list.
From S2P Require Import Prelude Rlp RlpDecode Trie TrieNodes TrieDb TrieHash.
From S2P Require Import StateObject StateDb StateSpec StateTrie StateRefine StateFlush.

Local Open Scope Z_scope.

#[local] Existing Instance toy_keccak.
#[local] Existing Instance toy_range.
#[local] Existing Instance toy_sort.

Local Abbreviation DM := (stM (StateDB Database SecureTrie)).

(** A run on a new state. *)
Definition fresh : StateDB Database SecureTrie :=
  mkStateDB (NewDatabase ∅) (mkSecure nilNode ∅) ∅ ∅ (Some ∅) false (Some ∅) false (Some ∅) false (Some ∅) false
    None false None 0 zeroHash zeroHash 0 ∅ 0 ∅ [] [] 0.

Definition run {A} (m : DM A) : outcome A := results (m fresh).

(** Commit, and open the state of the root that it returns. *)
Definition reopen (deleteEmptyObjects : bool) : DM () :=
  r ← Commit deleteEmptyObjects;
  match r with
  | inr _ => spanic "commit"
  | inl root =>
      s ← sget;
      r ← slift (New root (s_db s));
      match r with inl s => smod (λ _, s) | inr _ => spanic "open" end
  end.

Definition acc1 : bytes := replicate 32 17.
Definition user1 : bytes := replicate 32 34.
Definition tx0 : bytes := 0 :: replicate 31 5.
Definition tx1 : bytes := replicate 32 5.

(** What was committed is read back. *)
Lemma reopen_reads :
  run (AddBalance acc1 7;; SetState acc1 (replicate 32 1) (replicate 32 9);; AddTX1 acc1 tx1;; reopen false;;
       b ← GetBalance acc1; v ← GetState acc1 (replicate 32 1); t ← HasTX1 acc1 tx1;
       mret (b, bool_decide (v = replicate 32 9), t)) = Ret (7, true, true).
Proof. vm_compute. reflexivity. Qed.

(** A transaction hash that begins with a zero byte is stored without it, compared with
    the whole hash, and not found; the error that the lookup memoizes makes the next
    commit fail. *)
Lemma tx_with_leading_zero :
  run (SetNonce acc1 1;; AddTX1 acc1 tx0;; IntermediateRoot false;; HasTX1 acc1 tx0) = Ret false ∧
  run (SetNonce acc1 1;; AddTX1 acc1 tx0;; IntermediateRoot false;; HasTX1 acc1 tx0;;
       r ← Commit false; mret (match r with inr ErrContent => true | _ => false end)) = Ret true.
Proof. split; vm_compute; reflexivity. Qed.

(** Undoing the first delegated balance or reward of a user leaves a nil entry, which
    [Finalise] dereferences. *)
Lemma finalise_after_revert_panics :
  run (id ← Snapshot; AddProxiedBalanceByUser acc1 user1 5;; RevertToSnapshot id;; Finalise false) = Ret () ∧
  run (SetNonce acc1 1;; id ← Snapshot; AddProxiedBalanceByUser acc1 user1 5;; RevertToSnapshot id;; Finalise false)
    = Panic "nil pointer dereference" ∧
  run (SetNonce acc1 1;; id ← Snapshot; AddRewardBalanceByDelegateAddress acc1 user1 5;; RevertToSnapshot id;;
       Finalise false) = Panic "nil pointer dereference".
Proof. split_and!; vm_compute; reflexivity. Qed.

(** A lookup that finds nothing leaves a nil entry as well, and [Copy] dereferences it. *)
Lemma copy_after_lookup_panics :
  run (SetNonce acc1 1;; s ← sget; slift (Copy s);; mret ()) = Ret () ∧
  run (SetNonce acc1 1;; GetProxiedBalanceByUser acc1 user1;; s ← sget; slift (Copy s);; mret ())
    = Panic "nil pointer dereference".
Proof. split; vm_compute; reflexivity. Qed.

(** Undoing a touch takes the account out of the dirty set for good: a later change is not
    written. *)
Lemma touch_undone_loses_writes :
  run (CreateAccount acc1;; reopen false;;
       id ← Snapshot; AddBalance acc1 0;; RevertToSnapshot id;;
       AddBalance acc1 7;; b ← GetBalance acc1; reopen false;; b' ← GetBalance acc1; mret (b, b')) = Ret (7, 0).
Proof. vm_compute. reflexivity. Qed.

(** Adding a transaction does not make the account dirty, so it is not written when
    nothing else changes; and undoing a second addition removes the first. *)
Lemma added_tx_is_lost :
  run (SetNonce acc1 1;; reopen false;; AddTX1 acc1 tx1;; b ← HasTX1 acc1 tx1; reopen false;;
       b' ← HasTX1 acc1 tx1; mret (b, b')) = Ret (true, false) ∧
  run (AddTX1 acc1 tx1;; id ← Snapshot; AddTX1 acc1 tx1;; RevertToSnapshot id;; HasTX1 acc1 tx1) = Ret false.
Proof. split; vm_compute; reflexivity. Qed.

(** The entry of a side chain that a deposit appends stays after the revert, and the
    account is no longer empty. *)
Lemma empty_not_reverted :
  run (CreateAccount acc1;; b ← Empty acc1; id ← Snapshot; AddSideChainDepositBalance acc1 (str "side") 5;;
       RevertToSnapshot id;; b' ← Empty acc1; mret (b, b')) = Ret (true, false).
Proof. vm_compute. reflexivity. Qed.

(** An account that holds nothing but rewards counts as empty, and is deleted. *)
Lemma rewards_of_empty_account_are_lost :
  run (AddRewardBalanceByDelegateAddress acc1 user1 5;; b ← GetTotalRewardBalance acc1;
       Finalise true;; b' ← GetTotalRewardBalance acc1; mret (b, b')) = Ret (5, 0).
Proof. vm_compute. reflexivity. Qed.

(** Removing the last member of an address set brings back the set of the trie. *)
Lemma cleared_set_comes_back :
  run (MarkAddressBanned acc1;; reopen false;; X ← GetBannedSet; ClearBannedSetByAddress acc1;; Y ← GetBannedSet;
       mret (bool_decide (acc1 ∈ default ∅ X), bool_decide (acc1 ∈ default ∅ Y))) = Ret (true, true).
Proof. vm_compute. reflexivity. Qed.

(** Asking whether an account is banned creates it; a reward for an account that does not
    exist is dropped; a new account without delegations is not clean. *)
Lemma odd_queries :
  run (GetBanned acc1;; Exist acc1) = Ret true ∧
  run (AddAvailableRewardBalance acc1 5;; GetTotalAvailableRewardBalance acc1) = Ret 0 ∧
  run (CreateAccount acc1;; IsCleanAddress acc1) = Ret false.
Proof. split_and!; vm_compute; reflexivity. Qed.
