(* ===== verification/StateIter.v ===== *)
(** * Walks over the tries of an account (core/state/statedb.go, statedb_delegate.go,
    statedb_reward.go)

    The methods that visit all entries of a trie of an account: storage, recorded
    transactions, delegations and rewards.  The second part has a program logic for
    methods of the state database, with the rules for these loops: what a loop sees are
    the entries of the trie, with the values that have been changed since. *)

From Stdlib Require Import ZArith Lia ZifyBool.
From stdpp Require Import base tactics strings numbers gmap functions list.
From S2P Require Import Prelude Types Rlp RlpDecode Trie TrieNodes TrieDb TrieHash TrieIter.
From S2P Require Import StateObject StateDb StateSpec StateTrie StateRefine StateFlush.

Local Open Scope Z_scope.
Local Open Scope record_scope.

(** ** The walks *)

Section walks.
  Context {DB T : Type} {SD : StateDatabase DB T} {KL : KeccakLib} (fuel : nat).

Local Abbreviation DM := (stM (StateDB DB T)).
Local Abbreviation OM := (stM (stateObject T * StateDB DB T)).

(** The entries that an iterator of a trie sees.  Making the iterator hashes the trie, and
    the object keeps the hashes.  The loops below do not write to the trie they visit, so
    they see the entries that it has when the loop begins. *)
Definition trie_entries (get : OM T) (put : T → stateObject T → stateObject T) : OM (list (bytes * bytes)) :=
  t ← get;
  s ← self_db;
  r ← slift (t_Iterate fuel (s_db s) t);
  modify_self (put r.2);;
  mret r.1.

(** [for it.Next() { if !f(it) { break } }] *)
Fixpoint while_true (f : bytes * bytes → DM bool) (es : list (bytes * bytes)) : DM () :=
  match es with
  | [] => mret ()
  | e :: es => more ← f e; if more : bool then while_true f es else mret ()
  end.

(** The object [so] that a walk points to: the map of live objects holds it. *)
Definition pointee (addr : bytes) : DM (stateObject T) :=
  o ← getStateObject addr;
  match o with Some o => mret o | None => spanic "nil pointer dereference" end.

(** [db.trie.GetKey(it.Key)] *)
Definition preimage_of (hash : bytes) : DM bytes := s ← sget; mret (t_GetKey (s_db s) (s_trie s) hash).

Definition ForEachTX1 (addr : bytes) (cb : bytes → DM bool) : DM () :=
  if_exists addr () (λ so,
    es ← call so (trie_entries getTX1Trie put_tx1Trie);
    while_true (λ e, key ← preimage_of e.1; cb (BytesToHash key)) es).

Definition ForEachTX3 (addr : bytes) (cb : bytes → DM bool) : DM () :=
  if_exists addr () (λ so,
    es ← call so (trie_entries getTX3Trie put_tx3Trie);
    while_true (λ e, key ← preimage_of e.1; cb (BytesToHash key)) es).

(** A value that can not be split ends the walk with an error. *)
Fixpoint storage_loop (addr : bytes) (cb : bytes → bytes → DM bool) (es : list (bytes * bytes))
    : DM (option rlpErr) :=
  match es with
  | [] => mret None
  | (hash, enc) :: es =>
      key ← preimage_of hash;
      let key := BytesToHash key in
      o ← pointee addr;
      match so_dirtyStorage o !! key with
      | Some value => more ← cb key value; if more : bool then storage_loop addr cb es else mret None
      | None =>
          match enc with
          | [] => storage_loop addr cb es
          | _ =>
              match split_content enc with
              | (_, Some e) => mret (Some e)
              | (content, None) =>
                  more ← cb key (BytesToHash content); if more : bool then storage_loop addr cb es else mret None
              end
          end
      end
  end.

Definition ForEachStorage (addr : bytes) (cb : bytes → bytes → DM bool) : DM (option rlpErr) :=
  if_exists addr None (λ so,
    es ← call so (trie_entries getTrie put_trie);
    storage_loop addr cb es).

(** A loop whose body changes variables of its function, here [x]. *)
Fixpoint sfold {A X} (f : A → X → DM X) (l : list A) (x : X) : DM X :=
  match l with
  | [] => mret x
  | a :: l => x ← f a x; sfold f l x
  end.

(** One delegation.  The balances of a value that does not decode are nil, and the
    callbacks dereference them; so is a dirty entry that an undo has set to nil. *)
Definition visit_proxied {X} (addr : bytes) (cb : bytes → accountProxiedBalance → X → DM X) (e : bytes * bytes)
    (x : X) : DM X :=
  key ← preimage_of e.1;
  let key := BytesToAddress key in
  o ← pointee addr;
  match so_dirtyProxied o !! key with
  | Some (Some value) => cb key value x
  | Some None => spanic "nil pointer dereference"
  | None =>
      match decodeProxied e.2 with
      | (apb, None) => cb key apb x
      | (_, Some _) => spanic "nil pointer dereference"
      end
  end.

(** The result of the callback is not used; [x] are the variables that it captures. *)
Definition ForEachProxied {X} (addr : bytes) (cb : bytes → accountProxiedBalance → X → DM X) (x : X) : DM X :=
  if_exists addr x (λ so,
    es ← call so (trie_entries getProxiedTrie put_proxiedTrie);
    sfold (visit_proxied addr cb) es x).

Definition GetProxiedAddressNumber (addr : bytes) : DM Z :=
  if_exists addr 0 (λ so,
    es ← call so (trie_entries getProxiedTrie put_proxiedTrie);
    mret (Z.of_nat (length es))).

(** The key of a reward is stored as its RLP encoding. *)
Definition decode_address (enc : bytes) : bytes :=
  match DecodeBytes (rlp_fuel enc) hash_ty enc with inl (VBytes b) => b | _ => zeroHash end.

(** A value that does not decode stays zero; a nil dirty value is passed on. *)
Definition ForEachReward (addr : bytes) (cb : bytes → option Z → DM ()) : DM () :=
  if_exists addr () (λ so,
    es ← call so (trie_entries getRewardTrie put_rewardTrie);
    sfor (λ e,
      key ← preimage_of e.1;
      let key := decode_address key in
      o ← pointee addr;
      match so_dirtyReward o !! key with
      | Some value => cb key value
      | None => cb key (Some (decodeBig e.2).1)
      end) es).

(** The map of the result is never made: the first entry is an assignment to a nil map. *)
Definition GetDelegateRewardAddress (addr : bytes) : DM (option (gset bytes)) :=
  if_exists addr None (λ so,
    es ← call so (trie_entries getRewardTrie put_rewardTrie);
    match es with
    | _ :: _ => spanic "assignment to entry in nil map"
    | [] =>
        o ← pointee addr;
        if (0 <? Z.of_nat (size (so_dirtyReward o))) || (0 <? Z.of_nat (size (so_originReward o)))
        then spanic "assignment to entry in nil map"
        else mret None
    end).
End walks.

(** ** A logic for methods of the state database *)

(** What the walks rely on: [walks db pre f fuel ks] says that the keys of a trie that
    denotes [f] are [ks], in the order of the walk, that their hashes have the preimages
    [pre], and that [fuel] steps are enough. *)
Class StateWalks {DB T} {SD : StateDatabase DB T} (SR : StateReads SD) := {
  walks : DB → (bytes → bytes) → (bytes → option bytes) → nat → list bytes → Prop;
  den_walk db pre t f fuel ks : den db t f → walks db pre f fuel ks →
    ∃ es t', t_Iterate fuel db t = Ret (es, t') ∧ den db t' f ∧
      Forall2 (λ e k, BytesToAddress (pre e.1) = k ∧ f k = Some e.2) es ks
}.

Section logic.
  Context {DB T : Type} {SD : StateDatabase DB T} {SR : StateReads SD} {KL : KeccakLib} {KLaws : KeccakLaws}.

Local Abbreviation DM := (stM (StateDB DB T)).
Local Abbreviation OM := (stM (stateObject T * StateDB DB T)).

(** [does db m a Q]: in every state that stands for [a], the method returns, and its result
    and the abstract state that it leaves satisfy [Q]. *)
Definition does {A} (db : DB) (m : DM A) (a : astate) (Q : A → astate → Prop) : Prop :=
  ∀ s, s_db s = db → abs s a → ∃ r s' a', m s = Ret (r, s') ∧ abs s' a' ∧ s_db s' = db ∧ Q r a'.

Lemma does_ret {A} db a (r : A) (Q : A → astate → Prop) : Q r a → does db (mret r) a Q.
Proof. intros HQ s Hdb Ha. by exists r, s, a. Qed.

Lemma does_bind {A B} db (m : DM A) (f : A → DM B) a Q :
  does db m a (λ r a', does db (f r) a' Q) → does db (m ≫= f) a Q.
Proof.
  intros H s Hdb Ha. destruct (H s Hdb Ha) as (r & s1 & a1 & E & Ha1 & Hdb1 & Hf).
  destruct (Hf s1 Hdb1 Ha1) as (r' & s2 & a2 & E2 & ?). exists r', s2, a2. by rewrite (sbind_run _ _ _ _ _ E).
Qed.

Lemma does_mono {A} db (m : DM A) a (Q Q' : A → astate → Prop) :
  does db m a Q → (∀ r a', Q r a' → Q' r a') → does db m a Q'.
Proof.
  intros H HQ s Hdb Ha. destruct (H s Hdb Ha) as (r & s1 & a1 & ? & ? & ? & ?).
  exists r, s1, a1. split_and!; auto.
Qed.

Lemma does_dsem {A} db (m : DM A) a a' r (Q : A → astate → Prop) : dsem db m a a' r → Q r a' → does db m a Q.
Proof.
  intros H HQ s Hdb Ha. destruct (H s Hdb Ha) as (s' & es & E & Ha' & (Hd & _) & _).
  exists r, s', a'. split_and!; [done..|congruence|done].
Qed.

(** A loop keeps an invariant. *)
Lemma does_for {A} db (f : A → DM ()) (I : list A → astate → Prop) l :
  (∀ x l a, I (x :: l) a → does db (f x) a (λ _ a', I l a')) →
  ∀ a, I l a → does db (sfor f l) a (λ _ a', I [] a').
Proof.
  intros Hf. induction l as [|x l IH]; intros a HI; [by apply does_ret|]. cbn [sfor].
  apply does_bind. eapply does_mono; [by apply Hf|]. intros r a' HI'. by apply IH.
Qed.

(** Methods of the specification. *)
Lemma dsem_inj {A} db (m : DM A) (k : A → res) a a' r : (∀ x y, k x = k y → x = y) →
  dsem db (x ← m; mret (k x)) a a' (k r) → dsem db m a a' r.
Proof.
  intros Hk H s Hdb Ha. destruct (H s Hdb Ha) as (s' & es & E & Hrest). exists s', es. split; [|done].
  destruct (m s) as [[x s1]|w] eqn:Em; [|by rewrite (sbind_panic _ _ _ _ Em) in E].
  rewrite (sbind_run _ _ _ _ _ Em) in E. injection E as E ->. by apply Hk in E as ->.
Qed.

Lemma does_unit o db (m : DM ()) a a' (Q : () → astate → Prop) :
  exec o = runit m → ok_op o → spec_op o a = Some (Ret (RUnit, a')) → Q () a' → does db m a Q.
Proof.
  intros E Hk Hs HQ. eapply does_dsem; [|exact HQ]. eapply (dsem_inj db m (λ _, RUnit)); [by intros [] []|].
  change (dsem db (runit m) a a' RUnit). rewrite <-E. by apply exec_dsem.
Qed.

Lemma does_z o db (m : DM Z) a a' z (Q : Z → astate → Prop) :
  exec o = rz m → ok_op o → spec_op o a = Some (Ret (RZ z, a')) → Q z a' → does db m a Q.
Proof.
  intros E Hk Hs HQ. eapply does_dsem; [|exact HQ]. eapply (dsem_inj db m RZ); [by intros ?? [= ->]|].
  change (dsem db (rz m) a a' (RZ z)). rewrite <-E. by apply exec_dsem.
Qed.

Lemma does_bool o db (m : DM bool) a a' b (Q : bool → astate → Prop) :
  exec o = rbool m → ok_op o → spec_op o a = Some (Ret (RBool b, a')) → Q b a' → does db m a Q.
Proof.
  intros E Hk Hs HQ. eapply does_dsem; [|exact HQ]. eapply (dsem_inj db m RBool); [by intros ?? [= ->]|].
  change (dsem db (rbool m) a a' (RBool b)). rewrite <-E. by apply exec_dsem.
Qed.

Lemma does_bytes o db (m : DM bytes) a a' b (Q : bytes → astate → Prop) :
  exec o = rbytes m → ok_op o → spec_op o a = Some (Ret (RBytes b, a')) → Q b a' → does db m a Q.
Proof.
  intros E Hk Hs HQ. eapply does_dsem; [|exact HQ]. eapply (dsem_inj db m RBytes); [by intros ?? [= ->]|].
  change (dsem db (rbytes m) a a' (RBytes b)). rewrite <-E. by apply exec_dsem.
Qed.

(** *** Walks *)

Lemma proxied_entries {SW : StateWalks SR} fuel s a addr o aa ks :
  abs s a → as_acct a addr = Some aa → obj_rel (s_db s) addr o aa →
  walks (s_db s) (as_pre a) (f_proxied aa) fuel ks →
  ∃ es s', call o (trie_entries fuel getProxiedTrie put_proxiedTrie) s = Ret (es, s') ∧ abs s' a ∧
    s_db s' = s_db s ∧ Forall2 (λ e k, BytesToAddress (as_pre a e.1) = k ∧ f_proxied aa k = Some e.2) es ks.
Proof.
  intros Ha Haa Ho Hw. destruct (or_proxied _ _ _ _ Ho) as (Hd & _).
  assert (∃ t, open_cached "proxied" (so_proxiedTrie o) (acc_ProxiedRoot (so_data o)) (o, s) = Ret (t, (o, s)) ∧
    den (s_db s) t (f_proxied aa)) as (t & Et & Ht).
  { unfold trie_den, open_cached in *. destruct (so_proxiedTrie o) as [t|]; [by exists t|].
    destruct Hd as (t & E & Ht). exists t. split; [|done]. unfold self_db, slift, mbind, stM_bind. by rewrite E. }
  destruct (den_walk _ _ _ _ _ _ Ht Hw) as (es & t' & Ei & Ht' & Hes).
  exists es. eexists. split.
  { unfold call, trie_entries, getProxiedTrie. erewrite sbind_run; [|unfold self, mbind, stM_bind; cbn; by rewrite Et].
    unfold mbind, stM_bind. cbn. rewrite Ei. reflexivity. }
  split_and!; [|done|done]. cbn. rewrite <-(set_acct_id addr (Some aa) a Haa).
  eapply (abs_put s); [exact Ha| |].
  { unfold put_proxiedTrie. apply StateSpec.put_proxiedTrie; [done|]. by apply StateSpec.put_proxiedTrie. }
  by rewrite (or_address _ _ _ _ Ho).
Qed.

Lemma does_visit {X} db a addr aa e k v (cb : bytes → accountProxiedBalance → X → DM X) x (Q : X → astate → Prop) :
  key_ok addr → key_ok k → as_acct a addr = Some aa → BytesToAddress (as_pre a e.1) = k →
  f_proxied aa k = Some e.2 → (decodeProxied e.2).2 = None → a_proxied aa k = Some v →
  does db (cb k v x) a Q → does db (visit_proxied addr cb e x) a Q.
Proof.
  intros Hka Hk Haa Ek Hf Hdec Hv Hcb s Hdb Ha. unfold visit_proxied, preimage_of. srun.
  rewrite (ab_pre _ _ Ha), Ek. unfold pointee.
  destruct (getStateObject_run s a addr Ha Hka) as (s1 & oo & E & Ha1 & [(Hd & _) _] & Hoo).
  destruct oo as [o|]; [|by destruct Hoo; congruence]. destruct Hoo as (aa' & Haa' & Ho).
  assert (aa' = aa) as -> by congruence. erewrite sbind_run by (erewrite sbind_run by exact E; reflexivity).
  destruct (or_proxied _ _ _ _ Ho) as (_ & _ & Hcl & Hval). specialize (Hval k Hk). rewrite Hv in Hval.
  destruct (so_dirtyProxied o !! k) as [[w|]|]; cbn in Hval; [injection Hval as ->|done|].
  { apply Hcb; [congruence|done]. }
  rewrite (Hcl k Hk) in Hval by (right; by eexists). unfold prox_val in Hval. rewrite Hf in Hval. cbn in Hval.
  destruct e.2 as [|b enc]; [done|]. injection Hval as ->.
  destruct (decodeProxied (b :: enc)) as [w oe]. cbn in *. subst oe. apply Hcb; [congruence|done].
Qed.

(** What a walk over the delegations of [addr] needs: its entries decode, and none of them
    has been set to nil. *)
Definition listed {SW : StateWalks SR} (db : DB) (fuel : nat) (a : astate) (addr : bytes) (ks : list bytes) : Prop :=
  let aa := get_or_new a addr in
  walks db (as_pre a) (f_proxied aa) fuel ks ∧ Forall key_ok ks ∧
  ∀ k, k ∈ ks → is_Some (a_proxied aa k) ∧ ∀ enc, f_proxied aa k = Some enc → (decodeProxied enc).2 = None.

Lemma listed_at {SW : StateWalks SR} db fuel a addr ks aa : listed db fuel a addr ks → as_acct a addr = Some aa →
  walks db (as_pre a) (f_proxied aa) fuel ks ∧ Forall key_ok ks ∧
  ∀ k, k ∈ ks → is_Some (a_proxied aa k) ∧ ∀ enc, f_proxied aa k = Some enc → (decodeProxied enc).2 = None.
Proof. intros H E. unfold listed, get_or_new in H. by rewrite E in H. Qed.

Lemma does_visits {X} db addr f pre (cb : bytes → accountProxiedBalance → X → DM X)
    (I : list bytes → X → astate → Prop) es ks :
  key_ok addr → Forall2 (λ e k, BytesToAddress (pre e.1) = k ∧ f k = Some e.2) es ks → Forall key_ok ks →
  (∀ k enc, k ∈ ks → f k = Some enc → (decodeProxied enc).2 = None) →
  (∀ k ks x a, I (k :: ks) x a → ∃ aa v, as_acct a addr = Some aa ∧ as_pre a = pre ∧ f_proxied aa = f ∧
     a_proxied aa k = Some v ∧ does db (cb k v x) a (λ x' a', I ks x' a')) →
  ∀ x a, I ks x a → does db (sfold (visit_proxied addr cb) es x) a (λ x' a', I [] x' a').
Proof.
  intros Hk Hes Hks Hdec Hstep. induction Hes as [|e k es ks [Ek Ef] _ IH]; intros x a HI; [by apply does_ret|].
  apply Forall_cons in Hks as [Hk' Hks]. destruct (Hstep k ks x a HI) as (aa & v & Haa & Hpre & Hf & Hv & Hcb).
  cbn [sfold]. apply does_bind. subst pre f. eapply does_visit; [done|exact Hk'|done|done|done| |done|].
  { eapply Hdec; [by left|done]. }
  eapply does_mono; [exact Hcb|]. intros x' a' HI'. apply IH; [done| |done]. intros k' enc Hin. apply Hdec. by right.
Qed.

(** A walk over the delegations: [I] holds before each of the keys that are left. *)
Lemma does_ForEachProxied {SW : StateWalks SR} {X} db fuel a addr ks (cb : bytes → accountProxiedBalance → X → DM X)
    (I : list bytes → X → astate → Prop) x :
  key_ok addr → listed db fuel a addr ks → (as_acct a addr = None → I [] x a) →
  (∀ aa, as_acct a addr = Some aa → I ks x a ∧
    ∀ k ks x' a', I (k :: ks) x' a' → ∃ aa' v, as_acct a' addr = Some aa' ∧ as_pre a' = as_pre a ∧
      f_proxied aa' = f_proxied aa ∧ a_proxied aa' k = Some v ∧ does db (cb k v x') a' (λ x'' a'', I ks x'' a'')) →
  does db (ForEachProxied fuel addr cb x) a (λ x' a', I [] x' a').
Proof.
  intros Hk Hl Hnone Hsome s Hdb Ha. unfold ForEachProxied, if_exists.
  destruct (getStateObject_run s a addr Ha Hk) as (s1 & oo & E & Ha1 & [(Hd & _) _] & Hoo). srun.
  destruct oo as [o|]; [|destruct Hoo as [Hn _]; exists x, s1, a; split_and!; [done|done|congruence|by apply Hnone]].
  destruct Hoo as (aa & Haa & Ho).
  destruct (listed_at _ _ _ _ _ _ Hl Haa) as (Hw & Hks & Hdec), (Hsome aa Haa) as [HI Hstep].
  rewrite <-Hd in Ho. subst db. rewrite <-Hd in Hw, Hstep |- *.
  destruct (proxied_entries fuel s1 a addr o aa ks Ha1 Haa Ho Hw) as (es & s2 & E2 & Ha2 & Hd2 & Hes). srun.
  eapply (does_visits _ addr (f_proxied aa) (as_pre a) cb I es ks); [done..| |exact Hstep|exact HI|done|done].
  intros k enc Hin Hf. by apply (Hdec k Hin).
Qed.

Lemma does_GetProxiedAddressNumber {SW : StateWalks SR} db fuel a addr ks (Q : Z → astate → Prop) :
  key_ok addr → listed db fuel a addr ks →
  Q (match as_acct a addr with Some _ => Z.of_nat (length ks) | None => 0 end) a →
  does db (GetProxiedAddressNumber fuel addr) a Q.
Proof.
  intros Hk Hl HQ s Hdb Ha. unfold GetProxiedAddressNumber, if_exists.
  destruct (getStateObject_run s a addr Ha Hk) as (s1 & oo & E & Ha1 & [(Hd & _) _] & Hoo). srun.
  destruct oo as [o|]; [|destruct Hoo as [Hn _]; rewrite Hn in HQ; exists 0, s1, a; split_and!; [done|done|congruence|done]].
  destruct Hoo as (aa & Haa & Ho). destruct (listed_at _ _ _ _ _ _ Hl Haa) as (Hw & _). rewrite <-Hd in Ho. subst db. rewrite <-Hd in Hw |- *.
  destruct (proxied_entries fuel s1 a addr o aa ks Ha1 Haa Ho Hw) as (es & s2 & E2 & Ha2 & Hd2 & Hes). srun.
  rewrite Haa, <-(Forall2_length _ _ _ Hes) in HQ. by exists (Z.of_nat (length es)), s2, a.
Qed.

(** *** Address sets *)

Inductive is_field : @setField DB T → Prop :=
| is_banned : is_field bannedSet
| is_candidate : is_field candidateSet
| is_refund : is_field delegateRefundSet
| is_reward : is_field rewardSet.

Definition se_get (F : @setField DB T) (x : asets) : option (gset bytes) :=
  if bool_decide (sf_key F = sf_key (@bannedSet DB T)) then (se_banned x).1
  else if bool_decide (sf_key F = sf_key (@candidateSet DB T)) then (se_candidate x).1
  else if bool_decide (sf_key F = sf_key (@delegateRefundSet DB T)) then (se_refund x).1
  else (se_reward x).1.

(** None of the maps is nil. *)
Definition sets_ok (x : asets) : Prop :=
  is_Some (se_refund x).1 ∧ is_Some (se_reward x).1 ∧ is_Some (se_candidate x).1 ∧ is_Some (se_banned x).1.

(** The members of a set: those in memory, or those of the trie. *)
Definition set_value (F : @setField DB T) (a : astate) : option (gset bytes) :=
  if bool_decide (default ∅ (se_get F (as_sets a)) ≠ ∅) then se_get F (as_sets a)
  else match default [] (as_base a (sf_key F)) with [] => None | enc => (decode_set enc).1 end.

(** The entry of a set in the account trie decodes. *)
Definition set_entry_ok (F : @setField DB T) (a : astate) : Prop :=
  key_ok (sf_key F) ∧ (default [] (as_base a (sf_key F)) = [] ∨
    ∃ X, decode_set (default [] (as_base a (sf_key F))) = (Some X, None)).

Lemma abs_sets s a s' : abs s a →
  s_db s' = s_db s → s_trie s' = s_trie s → s_stateObjects s' = s_stateObjects s →
  s_refund s' = s_refund s → s_thash s' = s_thash s → s_bhash s' = s_bhash s → s_txIndex s' = s_txIndex s →
  s_logs s' = s_logs s → s_logSize s' = s_logSize s → s_preimages s' = s_preimages s →
  abs s' (a<| as_sets := sets_of s' |>).
Proof.
  intros Ha E1 E2 E3 E4 E5 E6 E7 E8 E9 E10. destruct Ha. constructor; cbn; try congruence.
  intros addr Hk. specialize (ab_acct addr Hk). unfold acct_rel in *. by rewrite E3, E1.
Qed.

Lemma sf_get_sets F s : is_field F → sf_get F s = se_get F (sets_of s).
Proof. by destruct 1. Qed.

Lemma sf_put_ok F s a X : is_field F → abs s a → sets_ok (sets_of s) → is_Some X →
  let s' := sf_put F X s in
  s_db s' = s_db s ∧ sets_ok (sets_of s') ∧ abs s' (a<| as_sets := sets_of s' |>) ∧ se_get F (sets_of s') = X.
Proof.
  intros HF Ha (? & ? & ? & ?) HX s'. split_and!.
  - by destruct HF.
  - by destruct HF.
  - by apply (abs_sets s); [done|destruct HF..].
  - by destruct HF.
Qed.

Lemma sf_mark_ok F s a : is_field F → abs s a → sets_ok (sets_of s) →
  let s' := sf_mark F s in s_db s' = s_db s ∧ sets_ok (sets_of s') ∧ abs s' (a<| as_sets := sets_of s' |>).
Proof.
  intros HF Ha (? & ? & ? & ?) s'. split_and!.
  - by destruct HF.
  - by destruct HF.
  - by apply (abs_sets s); [done|destruct HF..].
Qed.

Lemma does_read_entry db a key : key_ok key → does db (read_entry key) a (λ r a', r = inl (as_base a key) ∧ a' = a).
Proof.
  intros Hk s Hdb Ha. unfold read_entry. srun. destruct (den_get _ _ _ key (ab_trie _ _ Ha) Hk) as (t & E & Ht & Hpre).
  erewrite sbind_run by (unfold slift; rewrite E; reflexivity). cbn beta iota. srun. eexists _, _, a. split_and!; [done| |done|done|done].
  destruct Ha. constructor; try done. intros h. cbn. by rewrite Hpre.
Qed.

Lemma does_get_set (F : @setField DB T) (db : DB) (a : astate) (Q : option (gset bytes) → astate → Prop) :
  is_field F → set_entry_ok F a → sets_ok (as_sets a) →
  (∀ x, sets_ok x → set_value F (a<| as_sets := x |>) = set_value F a → 
     (is_Some (set_value F a) → se_get F x = set_value F a) → Q (set_value F a) (a<| as_sets := x |>)) →
  does db (get_set F) a Q.
Proof.
  intros HF [Hk He] Hok HQ s Hdb Ha. unfold get_set. srun. rewrite (sf_get_sets F s HF), (ab_sets _ _ Ha).
  assert (a<| as_sets := as_sets a |> = a) as Hid by by destruct a.
  unfold set_value in *. case_bool_decide as Hne.
  { exists (se_get F (as_sets a)), s, a. split_and!; try done. rewrite <-Hid at 2. apply HQ; [done| |done].
    cbn. by rewrite bool_decide_eq_true_2. }
  destruct (does_read_entry db a (sf_key F) Hk s Hdb Ha) as (r & s1 & a1 & E & Ha1 & Hdb1 & -> & ->). srun.
  destruct (default [] (as_base a (sf_key F))) as [|x enc] eqn:Ee; rewrite Ee.
  { exists None, s1, a. split_and!; try done. rewrite <-Hid. apply HQ; [done| |by intros [? ?]].
    cbn. case_bool_decide; [done|by rewrite Ee]. }
  destruct He as [|[X EX]]; [done|]. rewrite EX in *. cbn beta iota. srun. srun.
  pose proof (ab_sets _ _ Ha1) as Hs1.
  destruct (sf_put_ok F s1 a (Some X) HF Ha1) as (Hd2 & Hok2 & Ha2 & Hg); [by rewrite Hs1|by eexists|].
  exists (Some X), (sf_put F (Some X) s1), (a<| as_sets := sets_of (sf_put F (Some X) s1) |>).
  split_and!; [done|done|congruence|]. cbn [fst] in HQ. apply HQ; [done| |done].
  cbn. rewrite Hg. case_bool_decide; [done|]. by rewrite Ee, EX.
Qed.

Lemma does_mark_set (F : @setField DB T) (db : DB) (a : astate) addr (Q : () → astate → Prop) :
  is_field F → set_entry_ok F a → sets_ok (as_sets a) → (∀ x, sets_ok x → Q () (a<| as_sets := x |>)) →
  does db (mark_set F addr) a Q.
Proof.
  intros HF He Hok HQ. unfold mark_set. apply does_bind. apply (does_get_set F); [done..|].
  intros x Hx _ _. case_bool_decide; [by apply does_ret, HQ|]. intros s Hdb Ha. srun.
  rewrite (sf_get_sets F s HF), (ab_sets _ _ Ha). cbn.
  assert (is_Some (se_get F x)) as [X ->] by (destruct Hx as (?&?&?&?); by destruct HF). cbn.
  assert (sets_ok (sets_of s)) as Hs by by rewrite (ab_sets _ _ Ha).
  destruct (sf_put_ok F s _ (Some ({[addr]} ∪ X)) HF Ha Hs) as (Hd1 & Hok1 & Ha1 & _); [by eexists|].
  destruct (sf_mark_ok F _ _ HF Ha1 Hok1) as (Hd2 & Hok2 & Ha2). eexists (), _, _.
  split; [reflexivity|]. split; [exact Ha2|]. split; [congruence|]. by apply (HQ _ Hok2).
Qed.

Lemma does_clear_set (F : @setField DB T) (db : DB) (a : astate) addr (Q : () → astate → Prop) :
  is_field F → sets_ok (as_sets a) → (∀ x, sets_ok x → Q () (a<| as_sets := x |>)) →
  does db (clear_set F addr) a Q.
Proof.
  intros HF Hok HQ s Hdb Ha. unfold clear_set, smod.
  assert (sf_get F s = se_get F (as_sets a)) as -> by by rewrite (sf_get_sets F s HF), (ab_sets _ _ Ha).
  assert (is_Some (se_get F (as_sets a))) as [X ->] by (destruct Hok as (?&?&?&?); by destruct HF). cbn.
  assert (sets_ok (sets_of s)) as Hs by by rewrite (ab_sets _ _ Ha).
  destruct (sf_put_ok F s _ (Some (X ∖ {[addr]})) HF Ha Hs) as (Hd1 & Hok1 & Ha1 & _); [by eexists|].
  destruct (sf_mark_ok F _ _ HF Ha1 Hok1) as (Hd2 & Hok2 & Ha2). eexists (), _, _.
  split; [reflexivity|]. split; [exact Ha2|]. split; [congruence|]. by apply (HQ _ Hok2).
Qed.
End logic.

(** ** Walks over secure tries *)

Section secure.
  Context {KL : KeccakLib} {KLaws : KeccakLaws}.

(** The trie of [f] is listed by its iterator, and the preimages of its keys are known. *)
Definition secure_walk (db : Database) (pre : bytes → bytes) (f : bytes → option bytes) (fuel : nat) (ks : list bytes)
    : Prop :=
  ∃ t m, hashed m f ∧ holds t m ∧ fine t ∧ tree_root t ≠ emptyState ∧ (length (TrieIter.pre [] t) < fuel)%nat ∧
    (∀ h, is_Some (m !! h) → hashKey (BytesToAddress (pre h)) = h) ∧
    ks = (λ e, BytesToAddress (pre e.1)) <$> listing [] t.

#[global] Program Instance secure_walks : StateWalks secure_reads := {| walks := secure_walk |}.
Next Obligation.
  intros db pre t f fuel ks (m & (tr & Hr & Hh) & Hf) (tr' & m' & Hf' & Hh' & Hfine & Hne & Hfuel & Hpre & ->).
  pose proof (hashed_unique _ _ _ Hf Hf') as <-. pose proof (holds_unique _ _ _ Hh Hh') as <-.
  destruct (Hash_spec _ _ _ Hr (proj1 Hh) Hfine) as (root' & EH & Hr').
  destruct (iterate_listing _ _ _ _ [] fuel Hr Hh Hfine Hne Hfuel) as (it & Ei & _).
  exists (listing [] tr), (mkSecure root' (st_secKeyCache t)). split; [|split].
  - cbn. rewrite EH. cbn. by rewrite Ei.
  - exists m. split; [by exists tr|done].
  - apply Forall2_fmap_r, Forall_Forall2_diag. apply Forall_forall. intros [h v] Hin. split; [done|].
    apply (elem_of_listing _ _ _ _ _ Hh) in Hin as (_ & Hv & _). cbn in *. rewrite (proj1 Hf), Hpre; [done|by eexists].
Qed.

Lemma empty_walk db pre fuel : emptyRoot ≠ emptyState → (1 < fuel)%nat → secure_walk db pre (λ _, None) fuel [].
Proof.
  intros Hne Hfuel. exists TNil, ∅. split; [apply hashed_empty|].
  split; [split_and!; [by left|by intros r v|done]|].
  split_and!; [|done|done| |done].
  - intros s Hs. inversion Hs; subst. by split.
  - intros h [v Hv]. by rewrite lookup_empty in Hv.
Qed.
End secure.
