(* ===== verification/Ledger.v ===== *)
(** * The ledger of stakes (core/state)

    What the accounts of a state hold and have staked, as one record of functions, and the
    moves that the transactions of the chain contract and the end of an epoch are made of:
    a stake, its change into a deposit and back, a refund, the withdrawal of a reward.  A
    move changes nobody's wealth and keeps the books balanced: the totals of a candidate are
    the sums over its delegators, and what an account has delegated is the sum over the
    candidates. *)

From Stdlib Require Import ZArith Lia ZifyBool FunctionalExtensionality.
From stdpp Require Import base tactics strings numbers gmap functions list.
From S2P Require Import Prelude Types Rlp RlpDecode Trie TrieNodes TrieDb.
From S2P Require Import StateObject StateDb StateSpec StateRefine StateFlush StateIter.

Local Open Scope Z_scope.
Local Open Scope record_scope.

(** ** The ledger of a state *)

Record ledger := mkLedger {
  l_balance : bytes → Z;
  l_deposit : bytes → Z;
  l_delegate : bytes → Z;
  l_reward : bytes → Z;
  l_proxied : bytes → Z;
  l_depositProxied : bytes → Z;
  l_pending : bytes → Z;
  l_userProxied : bytes → bytes → Z;
  l_userDeposit : bytes → bytes → Z;
  l_userPending : bytes → bytes → Z;
  l_rewardBy : bytes → bytes → Z;
  l_candidate : bytes → bool;
  l_banned : bytes → bool;
  l_bannedTime : bytes → Z;
  l_commission : bytes → Z;
  l_pubkey : bytes → bytes;
  l_blocks : bytes → Z
}.

#[global] Instance ledger_set : Settable ledger := {| rec_eta := λ l,
  mkLedger (l_balance l) (l_deposit l) (l_delegate l) (l_reward l) (l_proxied l) (l_depositProxied l) (l_pending l)
    (l_userProxied l) (l_userDeposit l) (l_userPending l) (l_rewardBy l) (l_candidate l) (l_banned l) (l_bannedTime l)
    (l_commission l) (l_pubkey l) (l_blocks l) |}.

Section ledger_of.
  Context {KL : KeccakLib}.

Definition data_of (a : astate) (x : bytes) : Account := a_data (get_or_new a x).

Definition user_of (a : astate) (x u : bytes) : accountProxiedBalance :=
  default NewAccountProxiedBalance (a_proxied (get_or_new a x) u).

Definition ledger_of (a : astate) : ledger := {|
  l_balance x := acc_Balance (data_of a x);
  l_deposit x := acc_DepositBalance (data_of a x);
  l_delegate x := acc_DelegateBalance (data_of a x);
  l_reward x := acc_RewardBalance (data_of a x);
  l_proxied x := acc_ProxiedBalance (data_of a x);
  l_depositProxied x := acc_DepositProxiedBalance (data_of a x);
  l_pending x := acc_PendingRefundBalance (data_of a x);
  l_userProxied x u := pb_ProxiedBalance (user_of a x u);
  l_userDeposit x u := pb_DepositProxiedBalance (user_of a x u);
  l_userPending x u := pb_PendingRefundBalance (user_of a x u);
  l_rewardBy x d := default 0 (a_reward (get_or_new a x) d);
  l_candidate x := acc_Candidate (data_of a x);
  l_banned x := acc_IsBanned (data_of a x);
  l_bannedTime x := acc_BannedTime (data_of a x);
  l_commission x := acc_Commission (data_of a x);
  l_pubkey x := acc_Pubkey (data_of a x);
  l_blocks x := acc_BlockTime (data_of a x)
|}.
End ledger_of.

Definition raise2 (x u : bytes) (v : Z) (f : bytes → bytes → Z) : bytes → bytes → Z :=
  λ y, if decide (x = y) then raise u v (f y) else f y.

(** [f] with another value at [x]. *)
Definition put {A} (x : bytes) (v : A) (f : bytes → A) : bytes → A := λ y, if decide (x = y) then v else f y.

(** ** Moves *)

Definition stake (u c : bytes) (v : Z) (l : ledger) : ledger :=
  l<| l_balance ::= raise u (- v) |><| l_delegate ::= raise u v |>
   <| l_proxied ::= raise c v |><| l_userProxied ::= raise2 c u v |>.

(** The stake of a delegator becomes a deposit, or with a negative amount a stake again. *)
Definition to_deposit (c u : bytes) (v : Z) (l : ledger) : ledger :=
  l<| l_proxied ::= raise c (- v) |><| l_userProxied ::= raise2 c u (- v) |>
   <| l_depositProxied ::= raise c v |><| l_userDeposit ::= raise2 c u v |>.

Definition ask_refund (c u : bytes) (v : Z) (l : ledger) : ledger :=
  l<| l_pending ::= raise c v |><| l_userPending ::= raise2 c u v |>.

Definition refund (c u : bytes) (v : Z) (l : ledger) : ledger :=
  l<| l_depositProxied ::= raise c (- v) |><| l_userDeposit ::= raise2 c u (- v) |>
   <| l_pending ::= raise c (- v) |><| l_userPending ::= raise2 c u (- v) |>
   <| l_delegate ::= raise u (- v) |><| l_balance ::= raise u v |>.

Definition withdraw (x d : bytes) (v : Z) (l : ledger) : ledger :=
  l<| l_reward ::= raise x (- v) |><| l_rewardBy ::= raise2 x d (- v) |><| l_balance ::= raise x v |>.

(** The deposit of a validator goes back to its balance. *)
Definition release (x : bytes) (v : Z) (l : ledger) : ledger :=
  l<| l_deposit ::= raise x (- v) |><| l_balance ::= raise x v |>.

(** The rest of the ledger: who is a candidate, banned, and how many blocks it mined. *)
Definition same_money (l l' : ledger) : Prop :=
  l_balance l' = l_balance l ∧ l_deposit l' = l_deposit l ∧ l_delegate l' = l_delegate l ∧ l_reward l' = l_reward l ∧
  l_proxied l' = l_proxied l ∧ l_depositProxied l' = l_depositProxied l ∧ l_pending l' = l_pending l ∧
  l_userProxied l' = l_userProxied l ∧ l_userDeposit l' = l_userDeposit l ∧ l_userPending l' = l_userPending l ∧
  l_rewardBy l' = l_rewardBy l.

(** Moves between accounts of [U]. *)
Inductive move (U : list bytes) : ledger → ledger → Prop :=
| mv_stake u c v l : u ∈ U → c ∈ U → move U l (stake u c v l)
| mv_deposit c u v l : u ∈ U → c ∈ U → move U l (to_deposit c u v l)
| mv_ask c u v l : u ∈ U → c ∈ U → move U l (ask_refund c u v l)
| mv_refund c u v l : u ∈ U → c ∈ U → move U l (refund c u v l)
| mv_withdraw x d v l : x ∈ U → move U l (withdraw x d v l)
| mv_release x v l : x ∈ U → move U l (release x v l)
| mv_status l l' : same_money l l' → move U l l'.

Definition moves (U : list bytes) : ledger → ledger → Prop := rtc (move U).

(** ** What moves keep *)

Definition wealth (l : ledger) (x : bytes) : Z := l_balance l x + l_deposit l x + l_delegate l x + l_reward l x.

(** The books of the accounts in [U]. *)
Record books (U : list bytes) (l : ledger) : Prop := {
  bk_proxied c : c ∈ U → l_proxied l c = sum_over (l_userProxied l c) U;
  bk_deposit c : c ∈ U → l_depositProxied l c = sum_over (l_userDeposit l c) U;
  bk_pending c : c ∈ U → l_pending l c = sum_over (l_userPending l c) U;
  bk_delegate u : u ∈ U → l_delegate l u = sum_over (λ c, l_userProxied l c u + l_userDeposit l c u) U
}.

Lemma move_wealth U l l' x : move U l l' → wealth l' x = wealth l x.
Proof.
  unfold wealth.
  destruct 1 as [| | | | | |l l' (Hb & Hd & He & Hr & _)]; cbn; unfold raise; repeat case_decide; try lia.
  all: congruence.
Qed.

Lemma moves_wealth U l l' x : moves U l l' → wealth l' x = wealth l x.
Proof. induction 1 as [|l1 l2 l3 H _ IH]; [done|]. rewrite IH. by eapply move_wealth. Qed.

Lemma raise2_row x u v f y : raise2 x u v f y = if decide (x = y) then raise u v (f y) else f y.
Proof. done. Qed.

Lemma raise2_at x u v f y w : raise2 x u v f y w = f y w + (if decide (x = y) then if decide (u = w) then v else 0 else 0).
Proof. unfold raise2, raise. repeat case_decide; lia. Qed.

(** The row of a candidate and the column of a delegator, after a change of one entry. *)
Lemma sum_row U x u v f c : NoDup U → u ∈ U →
  sum_over (raise2 x u v f c) U = sum_over (f c) U + (if decide (x = c) then v else 0).
Proof.
  intros Hnd Hu. rewrite raise2_row. case_decide; [by rewrite sum_over_raise|lia].
Qed.

Lemma sum_column U x u v f w : NoDup U → x ∈ U →
  sum_over (λ c, raise2 x u v f c w) U = sum_over (λ c, f c w) U + (if decide (u = w) then v else 0).
Proof.
  intros Hnd Hx. destruct (decide (u = w)) as [->|Hne].
  - rewrite <-(sum_over_raise x v _ U Hnd Hx). apply sum_over_ext. intros c _. rewrite raise2_at. unfold raise.
    rewrite (decide_True _ _ (eq_refl w)). done.
  - rewrite Z.add_0_r. apply sum_over_ext. intros c _. rewrite raise2_at, (decide_False (P := u = w)) by done.
    case_decide; lia.
Qed.

Lemma books_status U l l' : same_money l l' → books U l → books U l'.
Proof.
  intros (E1 & E2 & E3 & E4 & E5 & E6 & E7 & E8 & E9 & E10 & E11) []. constructor; intros; rewrite ?E3, ?E5, ?E6, ?E7, ?E8, ?E9, ?E10; auto.
Qed.

Lemma move_books U l l' : NoDup U → move U l l' → books U l → books U l'.
Proof.
  intros Hnd Hm [Hp Hd Hq He].
  assert (∀ u, u ∈ U → l_delegate l u = sum_over (λ c, l_userProxied l c u) U + sum_over (λ c, l_userDeposit l c u) U) as He'.
  { intros u Hu. rewrite (He u Hu). apply sum_over_add. }
  clear He.
  destruct Hm as [u c v l Hu Hc|c u v l Hu Hc|c u v l Hu Hc|c u v l Hu Hc|x d v l Hx|x v l Hx|l l' Hs].
  7: { eapply books_status; [exact Hs|]. constructor; try done. intros u Hu. rewrite (He' u Hu). symmetry. apply sum_over_add. }
  all: constructor; cbn; intros y Hy; specialize (Hp y Hy); specialize (Hd y Hy); specialize (Hq y Hy);
    specialize (He' y Hy); rewrite ?sum_over_add, ?sum_row, ?sum_column by done; unfold raise; repeat case_decide; lia.
Qed.

Lemma moves_books U l l' : NoDup U → moves U l l' → books U l → books U l'.
Proof. intros Hnd. induction 1 as [|l1 l2 l3 H _ IH]; [done|]. intros Hb. by eapply IH, move_books. Qed.

(** ** The methods of the state database on the ledger *)

Section methods.
  Context {DB T : Type} {SD : StateDatabase DB T} {SR : StateReads SD} {KL : KeccakLib} {KLaws : KeccakLaws}.

Local Abbreviation DM := (stM (StateDB DB T)).

(** What the methods below leave alone: the account trie and the tries of the accounts.
    Accounts may be created, and entries of delegators. *)
Record frame (a a' : astate) : Prop := {
  fr_base : as_base a' = as_base a;
  fr_pre : as_pre a' = as_pre a;
  fr_tries x : f_proxied (get_or_new a' x) = f_proxied (get_or_new a x);
  fr_account x : is_Some (as_acct a x) → is_Some (as_acct a' x);
  fr_user x k : is_Some (a_proxied (get_or_new a x) k) → is_Some (a_proxied (get_or_new a' x) k);
  fr_sets : sets_ok (as_sets a) → sets_ok (as_sets a')
}.

Lemma frame_refl a : frame a a.
Proof. by constructor. Qed.

Lemma frame_trans a b c : frame a b → frame b c → frame a c.
Proof. intros [] []. constructor; try congruence; auto. Qed.

Lemma frame_sets a x : sets_ok x → frame a (a<| as_sets := x |>).
Proof. by constructor. Qed.

Lemma frame_listed {SW : StateWalks SR} db fuel a a' addr ks : frame a a' →
  listed db fuel a addr ks → listed db fuel a' addr ks.
Proof.
  intros [] (Hw & Hk & Hd). unfold listed. rewrite fr_pre0, fr_tries0. split_and!; try done.
  intros k Hin. destruct (Hd k Hin). auto.
Qed.

Lemma frame_entry F a a' : frame a a' → set_entry_ok F a → set_entry_ok F a'.
Proof. intros []. unfold set_entry_ok. by rewrite fr_base0. Qed.

Lemma frame_upd x f a :
  (∀ aa, f_proxied (f aa) = f_proxied aa ∧ ∀ k, is_Some (a_proxied aa k) → is_Some (a_proxied (f aa) k)) →
  frame a (upd_acct x f a).
Proof.
  intros Hf. constructor; try done.
  - intros y. rewrite get_or_new_upd. case_decide; [subst; apply Hf|done].
  - intros y Hy. cbn. destruct (decide (x = y)) as [->|]; [by rewrite fn_lookup_insert|by rewrite fn_lookup_insert_ne].
  - intros y k Hk. rewrite get_or_new_upd. case_decide; [subst; by apply Hf|done].
Qed.

Lemma does_upd o db (m : DM ()) a x f l (Q : () → astate → Prop) :
  exec o = runit m → ok_op o → spec_op o a = done_unit (upd_acct x f a) →
  (∀ aa, f_proxied (f aa) = f_proxied aa ∧ ∀ k, is_Some (a_proxied aa k) → is_Some (a_proxied (f aa) k)) →
  (∀ a', frame a a' → ledger_of a' = l → Q () a') → ledger_of (upd_acct x f a) = l → does db m a Q.
Proof. intros E Hk Hs Hf HQ Hl. eapply does_unit; [done..|]. apply HQ; [by apply frame_upd|done]. Qed.

(** The ledger with another account at [x]. *)
Definition ledger_put (x : bytes) (aa : aacct) (l : ledger) : ledger :=
  let at' {A} (v : A) (f : bytes → A) : bytes → A := λ y, if decide (x = y) then v else f y in
  let user u := default NewAccountProxiedBalance (a_proxied aa u) in
  mkLedger (at' (acc_Balance (a_data aa)) (l_balance l)) (at' (acc_DepositBalance (a_data aa)) (l_deposit l))
    (at' (acc_DelegateBalance (a_data aa)) (l_delegate l)) (at' (acc_RewardBalance (a_data aa)) (l_reward l))
    (at' (acc_ProxiedBalance (a_data aa)) (l_proxied l)) (at' (acc_DepositProxiedBalance (a_data aa)) (l_depositProxied l))
    (at' (acc_PendingRefundBalance (a_data aa)) (l_pending l))
    (at' (λ u, pb_ProxiedBalance (user u)) (l_userProxied l)) (at' (λ u, pb_DepositProxiedBalance (user u)) (l_userDeposit l))
    (at' (λ u, pb_PendingRefundBalance (user u)) (l_userPending l)) (at' (λ d, default 0 (a_reward aa d)) (l_rewardBy l))
    (at' (acc_Candidate (a_data aa)) (l_candidate l)) (at' (acc_IsBanned (a_data aa)) (l_banned l))
    (at' (acc_BannedTime (a_data aa)) (l_bannedTime l)) (at' (acc_Commission (a_data aa)) (l_commission l))
    (at' (acc_Pubkey (a_data aa)) (l_pubkey l)) (at' (acc_BlockTime (a_data aa)) (l_blocks l)).

Lemma ledger_set_acct x aa a : ledger_of (set_acct x (Some aa) a) = ledger_put x aa (ledger_of a).
Proof.
  unfold ledger_of, ledger_put, data_of, user_of. cbn [l_balance l_deposit l_delegate l_reward l_proxied l_depositProxied
    l_pending l_userProxied l_userDeposit l_userPending l_rewardBy l_candidate l_banned l_bannedTime l_commission l_pubkey
    l_blocks]. f_equal; apply functional_extensionality; intros y; rewrite get_or_new_set;
    repeat case_decide; congruence.
Qed.

Lemma ledger_upd x f a : ledger_of (upd_acct x f a) = ledger_put x (f (get_or_new a x)) (ledger_of a).
Proof. apply ledger_set_acct. Qed.

(** Both sides are records of functions. *)
Ltac ledger_tac :=
  rewrite ledger_upd; unfold ledger_put, ledger_of, data_of, user_of, rec_upd;
  match goal with |- context [get_or_new ?a] => generalize (get_or_new a); intros g end;
  cbn; f_equal; apply functional_extensionality; intros y; unfold raise, raise2, raise, put;
  case_decide; subst; try done; try lia.

Ltac keys_tac := unfold ok_op; cbn [op_keys]; repeat (apply List.Forall_cons; [assumption|]); apply List.Forall_nil.

Ltac by_upd o HQ :=
  eapply (does_upd o); [reflexivity|keys_tac|reflexivity|intros; split; [done|naive_solver]|exact HQ|ledger_tac].

(** A balance of a user and the total. *)
Lemma does_user o db (m : DM ()) a x u f g l (Q : () → astate → Prop) :
  exec o = runit m → ok_op o → spec_op o a = done_unit (upd_user x u f g a) →
  (∀ a', frame a a' → ledger_of a' = l → is_Some (a_proxied (get_or_new a' x) u) → Q () a') →
  ledger_of (upd_user x u f g a) = l → does db m a Q.
Proof.
  intros E Hk Hs HQ Hl. eapply does_unit; [done..|]. apply HQ; [|done|].
  - apply frame_upd. intros aa. split; [done|]. cbn. intros k [p Hp].
    destruct (decide (u = k)) as [->|]; [by rewrite fn_lookup_insert|rewrite fn_lookup_insert_ne by done; by exists p].
  - unfold upd_user. rewrite get_or_new_upd, decide_True by done. cbn. by rewrite fn_lookup_insert.
Qed.

Ltac by_user o u HQ :=
  eapply (does_user o); [reflexivity|keys_tac|reflexivity|exact HQ|unfold upd_user; ledger_tac];
  apply functional_extensionality; intros w; unfold raise;
  (destruct (decide (u = w)) as [->|]; [rewrite fn_lookup_insert|rewrite fn_lookup_insert_ne by done]); cbn; lia.

Lemma does_AddBalance db a x v (Q : () → astate → Prop) : key_ok x →
  (∀ a', frame a a' → ledger_of a' = (ledger_of a)<| l_balance ::= raise x (v) |> → Q () a') → does db (AddBalance x v) a Q.
Proof. intros Hk HQ. by_upd (OAddBalance x v) HQ. Qed.

Lemma does_SubBalance db a x v (Q : () → astate → Prop) : key_ok x →
  (∀ a', frame a a' → ledger_of a' = (ledger_of a)<| l_balance ::= raise x (- v) |> → Q () a') → does db (SubBalance x v) a Q.
Proof. intros Hk HQ. by_upd (OSubBalance x v) HQ. Qed.

Lemma does_AddDelegateBalance db a x v (Q : () → astate → Prop) : key_ok x →
  (∀ a', frame a a' → ledger_of a' = (ledger_of a)<| l_delegate ::= raise x (v) |> → Q () a') → does db (AddDelegateBalance x v) a Q.
Proof. intros Hk HQ. by_upd (OAddDelegate x v) HQ. Qed.

Lemma does_SubDelegateBalance db a x v (Q : () → astate → Prop) : key_ok x →
  (∀ a', frame a a' → ledger_of a' = (ledger_of a)<| l_delegate ::= raise x (- v) |> → Q () a') → does db (SubDelegateBalance x v) a Q.
Proof. intros Hk HQ. by_upd (OSubDelegate x v) HQ. Qed.

Lemma does_SubDepositBalance db a x v (Q : () → astate → Prop) : key_ok x →
  (∀ a', frame a a' → ledger_of a' = (ledger_of a)<| l_deposit ::= raise x (- v) |> → Q () a') → does db (SubDepositBalance x v) a Q.
Proof. intros Hk HQ. by_upd (OSubDeposit x v) HQ. Qed.

Lemma does_SetCommission db a x v (Q : () → astate → Prop) : key_ok x →
  (∀ a', frame a a' → ledger_of a' = (ledger_of a)<| l_commission ::= put x v |> → Q () a') → does db (SetCommission x v) a Q.
Proof. intros Hk HQ. by_upd (OSetCommission x v) HQ. Qed.

Lemma does_SetBanned db a x v (Q : () → astate → Prop) : key_ok x →
  (∀ a', frame a a' → ledger_of a' = (ledger_of a)<| l_banned ::= put x v |> → Q () a') → does db (SetBanned x v) a Q.
Proof. intros Hk HQ. by_upd (OSetBanned x v) HQ. Qed.

Lemma does_SetBannedTime db a x v (Q : () → astate → Prop) : key_ok x →
  (∀ a', frame a a' → ledger_of a' = (ledger_of a)<| l_bannedTime ::= put x v |> → Q () a') → does db (SetBannedTime x v) a Q.
Proof. intros Hk HQ. by_upd (OSetBannedTime x v) HQ. Qed.

Lemma does_SetMinedBlocks db a x v (Q : () → astate → Prop) : key_ok x →
  (∀ a', frame a a' → ledger_of a' = (ledger_of a)<| l_blocks ::= put x v |> → Q () a') → does db (SetMinedBlocks x v) a Q.
Proof. intros Hk HQ. by_upd (OSetMinedBlocks x v) HQ. Qed.

Lemma does_ApplyForCandidate db a x p c (Q : () → astate → Prop) : key_ok x →
  (∀ a', frame a a' → ledger_of a' = (ledger_of a)<| l_candidate ::= put x true |><| l_commission ::= put x c |>
     <| l_pubkey ::= put x p |> → Q () a') → does db (ApplyForCandidate x p c) a Q.
Proof. intros Hk HQ. by_upd (OApplyForCandidate x p c) HQ. Qed.

Lemma does_CancelCandidate db a x (all : bool) (Q : () → astate → Prop) : key_ok x →
  (∀ a', frame a a' → ledger_of a' = (ledger_of a)<| l_candidate ::= put x false |><| l_pubkey ::= put x [] |>
     <| l_commission ::= λ f, if all then put x 0 f else f |> → Q () a') → does db (CancelCandidate x all) a Q.
Proof. intros Hk HQ. destruct all; [by_upd (OCancelCandidate x true) HQ|by_upd (OCancelCandidate x false) HQ]. Qed.

Lemma does_AddProxiedBalanceByUser db a x u v (Q : () → astate → Prop) : key_ok x → key_ok u →
  (∀ a', frame a a' → ledger_of a' = (ledger_of a)<| l_proxied ::= raise x (v) |><| l_userProxied ::= raise2 x u (v) |> →
     is_Some (a_proxied (get_or_new a' x) u) → Q () a') → does db (AddProxiedBalanceByUser x u v) a Q.
Proof. intros Hk Hu HQ. by_user (OAddProxied x u v) u HQ. Qed.

Lemma does_SubProxiedBalanceByUser db a x u v (Q : () → astate → Prop) : key_ok x → key_ok u →
  (∀ a', frame a a' → ledger_of a' = (ledger_of a)<| l_proxied ::= raise x (- v) |><| l_userProxied ::= raise2 x u (- v) |> →
     is_Some (a_proxied (get_or_new a' x) u) → Q () a') → does db (SubProxiedBalanceByUser x u v) a Q.
Proof. intros Hk Hu HQ. by_user (OSubProxied x u v) u HQ. Qed.

Lemma does_AddDepositProxiedBalanceByUser db a x u v (Q : () → astate → Prop) : key_ok x → key_ok u →
  (∀ a', frame a a' → ledger_of a' = (ledger_of a)<| l_depositProxied ::= raise x (v) |><| l_userDeposit ::= raise2 x u (v) |> →
     is_Some (a_proxied (get_or_new a' x) u) → Q () a') → does db (AddDepositProxiedBalanceByUser x u v) a Q.
Proof. intros Hk Hu HQ. by_user (OAddDepositProxied x u v) u HQ. Qed.

Lemma does_SubDepositProxiedBalanceByUser db a x u v (Q : () → astate → Prop) : key_ok x → key_ok u →
  (∀ a', frame a a' → ledger_of a' = (ledger_of a)<| l_depositProxied ::= raise x (- v) |><| l_userDeposit ::= raise2 x u (- v) |> →
     is_Some (a_proxied (get_or_new a' x) u) → Q () a') → does db (SubDepositProxiedBalanceByUser x u v) a Q.
Proof. intros Hk Hu HQ. by_user (OSubDepositProxied x u v) u HQ. Qed.

Lemma does_AddPendingRefundBalanceByUser db a x u v (Q : () → astate → Prop) : key_ok x → key_ok u →
  (∀ a', frame a a' → ledger_of a' = (ledger_of a)<| l_pending ::= raise x (v) |><| l_userPending ::= raise2 x u (v) |> →
     is_Some (a_proxied (get_or_new a' x) u) → Q () a') → does db (AddPendingRefundBalanceByUser x u v) a Q.
Proof. intros Hk Hu HQ. by_user (OAddPending x u v) u HQ. Qed.

Lemma does_SubPendingRefundBalanceByUser db a x u v (Q : () → astate → Prop) : key_ok x → key_ok u →
  (∀ a', frame a a' → ledger_of a' = (ledger_of a)<| l_pending ::= raise x (- v) |><| l_userPending ::= raise2 x u (- v) |> →
     is_Some (a_proxied (get_or_new a' x) u) → Q () a') → does db (SubPendingRefundBalanceByUser x u v) a Q.
Proof. intros Hk Hu HQ. by_user (OSubPending x u v) u HQ. Qed.
(** *** Rewards *)

Lemma does_AddRewardBalanceByDelegateAddress db a x d v (Q : () → astate → Prop) : key_ok x → key_ok (reward_key d) →
  (∀ a', frame a a' → ledger_of a' = (ledger_of a)<| l_reward ::= raise x v |><| l_rewardBy ::= raise2 x d v |> →
     (∀ y w, is_Some (a_reward (get_or_new a y) w) ∨ (y = x ∧ w = d) → is_Some (a_reward (get_or_new a' y) w)) → Q () a') →
  does db (AddRewardBalanceByDelegateAddress x d v) a Q.
Proof.
  intros Hk Hd HQ. eapply (does_unit (OAddRewardBy x d v)); [reflexivity|keys_tac|reflexivity|]. apply HQ.
  - apply frame_upd. intros aa. split; [done|naive_solver].
  - ledger_tac. apply functional_extensionality. intros w. unfold raise.
    destruct (decide (d = w)) as [->|]; [rewrite fn_lookup_insert|rewrite fn_lookup_insert_ne by done]; cbn; lia.
  - intros y w Hw. rewrite get_or_new_upd. case_decide as E; [subst|destruct Hw as [?|[-> _]]; done]. cbn.
    destruct (decide (d = w)) as [->|]; [by rewrite fn_lookup_insert|rewrite fn_lookup_insert_ne by done].
    destruct Hw as [?|[_ ->]]; done.
Qed.

Lemma does_SubRewardBalanceByDelegateAddress db a x d v (Q : () → astate → Prop) : key_ok x → key_ok (reward_key d) →
  is_Some (a_reward (get_or_new a x) d) →
  (∀ a', frame a a' → ledger_of a' = (ledger_of a)<| l_reward ::= raise x (- v) |><| l_rewardBy ::= raise2 x d (- v) |> →
     Q () a') → does db (SubRewardBalanceByDelegateAddress x d v) a Q.
Proof.
  intros Hk Hd [r Hr] HQ. eapply (does_unit (OSubRewardBy x d v)); [reflexivity|keys_tac|cbn; rewrite Hr; reflexivity|].
  apply HQ; [apply frame_upd; intros aa; split; [done|naive_solver]|].
  assert (r = default 0 (a_reward (get_or_new a x) d)) as -> by by rewrite Hr.
  ledger_tac. apply functional_extensionality. intros w. unfold raise.
  destruct (decide (d = w)) as [->|]; [rewrite fn_lookup_insert|rewrite fn_lookup_insert_ne by done]; cbn; lia.
Qed.

(** *** Queries *)

Lemma query_new_acct (x : bytes) (A : Type) (k : A → res) (f : aacct → A) (a : astate) (dflt : A) :
  dflt = f new_acct → query x (k dflt) (λ aa, k (f aa)) a = Some (Ret (k (f (get_or_new a x)), a)).
Proof. intros ->. unfold query, get_or_new. by destruct (as_acct a x). Qed.

Lemma query_user (x u : bytes) (f : accountProxiedBalance → Z) (a : astate) : f NewAccountProxiedBalance = 0 →
  query x (RZ 0) (user_bal f u) a = Some (Ret (RZ (f (user_of a x u)), a)).
Proof.
  intros Hf. unfold query, user_of, get_or_new, user_bal. destruct (as_acct a x) as [aa|]; cbn.
  - destruct (a_proxied aa u); cbn; by rewrite ?Hf.
  - by rewrite Hf.
Qed.

Lemma does_GetBalance db a x (Q : Z → astate → Prop) : key_ok x → Q (l_balance (ledger_of a) x) a → does db (GetBalance x) a Q.
Proof. intros Hk HQ. eapply (does_z (OGetBalance x)); [reflexivity|keys_tac|by apply query_new_acct|exact HQ]. Qed.

Lemma does_GetDepositBalance db a x (Q : Z → astate → Prop) : key_ok x → Q (l_deposit (ledger_of a) x) a → does db (GetDepositBalance x) a Q.
Proof. intros Hk HQ. eapply (does_z (OGetDeposit x)); [reflexivity|keys_tac|by apply query_new_acct|exact HQ]. Qed.

Lemma does_GetTotalProxiedBalance db a x (Q : Z → astate → Prop) : key_ok x → Q (l_proxied (ledger_of a) x) a → does db (GetTotalProxiedBalance x) a Q.
Proof. intros Hk HQ. eapply (does_z (OGetTotalProxied x)); [reflexivity|keys_tac|by apply query_new_acct|exact HQ]. Qed.

Lemma does_GetTotalDepositProxiedBalance db a x (Q : Z → astate → Prop) : key_ok x → Q (l_depositProxied (ledger_of a) x) a → does db (GetTotalDepositProxiedBalance x) a Q.
Proof. intros Hk HQ. eapply (does_z (OGetTotalDepositProxied x)); [reflexivity|keys_tac|by apply query_new_acct|exact HQ]. Qed.

Lemma does_GetTotalPendingRefundBalance db a x (Q : Z → astate → Prop) : key_ok x → Q (l_pending (ledger_of a) x) a → does db (GetTotalPendingRefundBalance x) a Q.
Proof. intros Hk HQ. eapply (does_z (OGetTotalPending x)); [reflexivity|keys_tac|by apply query_new_acct|exact HQ]. Qed.

Lemma does_GetCommission db a x (Q : Z → astate → Prop) : key_ok x → Q (l_commission (ledger_of a) x) a → does db (GetCommission x) a Q.
Proof. intros Hk HQ. eapply (does_z (OGetCommission x)); [reflexivity|keys_tac|by apply query_new_acct|exact HQ]. Qed.

Lemma does_GetProxiedBalanceByUser db a x u (Q : Z → astate → Prop) : key_ok x → key_ok u →
  Q (l_userProxied (ledger_of a) x u) a → does db (GetProxiedBalanceByUser x u) a Q.
Proof. intros Hk Hu HQ. eapply (does_z (OGetProxied x u)); [reflexivity|keys_tac|apply query_user; done|exact HQ]. Qed.

Lemma does_GetDepositProxiedBalanceByUser db a x u (Q : Z → astate → Prop) : key_ok x → key_ok u →
  Q (l_userDeposit (ledger_of a) x u) a → does db (GetDepositProxiedBalanceByUser x u) a Q.
Proof. intros Hk Hu HQ. eapply (does_z (OGetDepositProxied x u)); [reflexivity|keys_tac|apply query_user; done|exact HQ]. Qed.

Lemma does_GetPendingRefundBalanceByUser db a x u (Q : Z → astate → Prop) : key_ok x → key_ok u →
  Q (l_userPending (ledger_of a) x u) a → does db (GetPendingRefundBalanceByUser x u) a Q.
Proof. intros Hk Hu HQ. eapply (does_z (OGetPending x u)); [reflexivity|keys_tac|apply query_user; done|exact HQ]. Qed.

Lemma does_GetRewardBalanceByDelegateAddress db a x d (Q : Z → astate → Prop) : key_ok x → key_ok (reward_key d) →
  Q (l_rewardBy (ledger_of a) x d) a → does db (GetRewardBalanceByDelegateAddress x d) a Q.
Proof. intros Hk Hd HQ. eapply (does_z (OGetRewardBy x d)); [reflexivity|keys_tac|by apply query_new_acct|exact HQ]. Qed.

Lemma does_IsCandidate db a x (Q : bool → astate → Prop) : key_ok x →
  Q (l_candidate (ledger_of a) x) a → does db (IsCandidate x) a Q.
Proof. intros Hk HQ. eapply (does_bool (OIsCandidate x)); [reflexivity|keys_tac|by apply query_new_acct|exact HQ]. Qed.

Lemma does_IsCleanAddress db a x (Q : bool → astate → Prop) : key_ok x → (∀ b, Q b a) → does db (IsCleanAddress x) a Q.
Proof.
  intros Hk HQ. cbn. destruct (as_acct a x) as [aa|] eqn:E; eapply (does_bool (OIsClean x)); try reflexivity; try keys_tac;
    try (cbn; unfold query; rewrite E; reflexivity); apply HQ.
Qed.

Lemma does_GetPubkey db a x (Q : bytes → astate → Prop) : key_ok x →
  Q (l_pubkey (ledger_of a) x) a → does db (GetPubkey x) a Q.
Proof. intros Hk HQ. eapply (does_bytes (OGetPubkey x)); [reflexivity|keys_tac|by apply query_new_acct|exact HQ]. Qed.

(** Queries that create the account. *)
Lemma new_acct_frame a x : frame a (set_acct x (Some (get_or_new a x)) a) ∧
  ledger_of (set_acct x (Some (get_or_new a x)) a) = ledger_of a.
Proof.
  split.
  - apply (frame_upd x (λ aa, aa) a). naive_solver.
  - rewrite ledger_set_acct. unfold ledger_put, ledger_of, data_of, user_of.
    generalize (get_or_new a); intros g. cbn. f_equal; apply functional_extensionality; intros y; case_decide; by subst.
Qed.

Lemma does_GetBanned db a x (Q : bool → astate → Prop) : key_ok x →
  (∀ a', frame a a' → ledger_of a' = ledger_of a → Q (l_banned (ledger_of a) x) a') → does db (GetBanned x) a Q.
Proof.
  intros Hk HQ. destruct (new_acct_frame a x). eapply (does_bool (OGetBanned x)); [reflexivity|keys_tac|reflexivity|].
  by apply HQ.
Qed.

Lemma does_GetBannedTime db a x (Q : Z → astate → Prop) : key_ok x →
  (∀ a', frame a a' → ledger_of a' = ledger_of a → Q (l_bannedTime (ledger_of a) x) a') → does db (GetBannedTime x) a Q.
Proof.
  intros Hk HQ. destruct (new_acct_frame a x). eapply (does_z (OGetBannedTime x)); [reflexivity|keys_tac|reflexivity|].
  by apply HQ.
Qed.

Lemma does_GetMinedBlocks db a x (Q : Z → astate → Prop) : key_ok x →
  (∀ a', frame a a' → ledger_of a' = ledger_of a → Q (l_blocks (ledger_of a) x) a') → does db (GetMinedBlocks x) a Q.
Proof.
  intros Hk HQ. destruct (new_acct_frame a x). eapply (does_z (OGetMinedBlocks x)); [reflexivity|keys_tac|reflexivity|].
  by apply HQ.
Qed.
End methods.
