(* ===== verification/Staking.v ===== *)
(** * The transactions of the chain contract (internal/neatapi/api.go, core/types/pending_ops.go,
    neatabi/abi/abi.go)

    Registering as a candidate, delegating, withdrawing: the callbacks that validate and
    apply the transactions that are sent to the chain contract.  They change the accounts in
    the state database and ask for changes of the next epoch ([PendingOps]).  The theorem
    says that they return, change nobody's wealth and keep the books of the stakes
    balanced. *)

From Stdlib Require Import ZArith Lia ZifyBool.
From stdpp Require Import base tactics strings numbers gmap functions list.
From S2P Require Import Prelude Types ValidatorSet EpochVotes Epoch Rlp RlpDecode Trie TrieNodes TrieDb TrieHash.
From S2P Require Import StateObject StateDb StateSpec StateTrie StateRefine StateFlush StateFacts StateIter Ledger.

Local Open Scope Z_scope.
Local Open Scope record_scope.

(** ** The functions of the chain contract *)

Record FunctionType := mkFunction { ft_id : Z; ft_cross : bool; ft_main : bool; ft_side : bool }.

#[global] Instance FunctionType_eq : EqDecision FunctionType.
Proof. solve_decision. Defined.

Definition CreateSideChain : FunctionType := mkFunction 0 true true false.
Definition JoinSideChain : FunctionType := mkFunction 1 true true false.
Definition DepositInMainChain : FunctionType := mkFunction 2 true true false.
Definition DepositInSideChain : FunctionType := mkFunction 3 true false true.
Definition WithdrawFromSideChain : FunctionType := mkFunction 4 true false true.
Definition WithdrawFromMainChain : FunctionType := mkFunction 5 true true false.
Definition SaveDataToMainChain : FunctionType := mkFunction 6 true true false.
Definition SetBlockReward : FunctionType := mkFunction 7 true false true.
Definition VoteNextEpoch : FunctionType := mkFunction 10 false true true.
Definition RevealVote : FunctionType := mkFunction 11 false true true.
Definition Delegate : FunctionType := mkFunction 12 false true true.
Definition UnDelegate : FunctionType := mkFunction 13 false true true.
Definition Register : FunctionType := mkFunction 14 false true true.
Definition UnRegister : FunctionType := mkFunction 15 false true true.
Definition EditValidator : FunctionType := mkFunction 16 false true true.
Definition WithdrawReward : FunctionType := mkFunction 17 false true true.
Definition UnBanned : FunctionType := mkFunction 18 false true true.
Definition SetCommissionFn : FunctionType := mkFunction 19 false true true.
Definition Unknown : FunctionType := mkFunction (-1) false false false.

Definition RequiredGas (t : FunctionType) : Z :=
  if bool_decide (t ∈ [CreateSideChain; DepositInMainChain; WithdrawFromSideChain]) then 42000
  else if bool_decide (t ∈ [JoinSideChain; VoteNextEpoch; RevealVote; Delegate; UnDelegate; Register; UnRegister;
    SetBlockReward; EditValidator; WithdrawReward; UnBanned; SetCommissionFn]) then 21000
  else 0.

Definition StringToFunctionType (s : string) : FunctionType :=
  if decide (s = "CreateSideChain"%string) then CreateSideChain
  else if decide (s = "JoinSideChain"%string) then JoinSideChain
  else if decide (s = "DepositInMainChain"%string) then DepositInMainChain
  else if decide (s = "DepositInSideChain"%string) then DepositInSideChain
  else if decide (s = "WithdrawFromSideChain"%string) then WithdrawFromSideChain
  else if decide (s = "WithdrawFromMainChain"%string) then WithdrawFromMainChain
  else if decide (s = "SaveDataToMainChain"%string) then SaveDataToMainChain
  else if decide (s = "VoteNextEpoch"%string) then VoteNextEpoch
  else if decide (s = "RevealVote"%string) then RevealVote
  else if decide (s = "Delegate"%string) then Delegate
  else if decide (s = "UnDelegate"%string) then UnDelegate
  else if decide (s = "Register"%string) then Register
  else if decide (s = "UnRegister"%string) then UnRegister
  else if decide (s = "SetBlockReward"%string) then SetBlockReward
  else if decide (s = "EditValidator"%string) then EditValidator
  else if decide (s = "WithdrawReward"%string) then WithdrawReward
  else if decide (s = "UnBanned"%string) then UnBanned
  else if decide (s = "SetCommission"%string) then SetCommissionFn
  else Unknown.

Record DelegateArgs := mkDelegateArgs { da_Candidate : bytes }.
Record UnDelegateArgs := mkUnDelegateArgs { ua_Candidate : bytes; ua_Amount : Z }.
Record RegisterArgs := mkRegisterArgs { ra_Pubkey : bytes; ra_Signature : bytes; ra_Commission : Z }.
Record EditValidatorArgs := mkEditArgs { ea_Moniker : bytes; ea_Website : bytes; ea_Identity : bytes; ea_Details : bytes }.
Record WithdrawRewardArgs := mkWithdrawArgs { wa_DelegateAddress : bytes }.
Record SetCommissionArgs := mkCommissionArgs { sa_Commission : Z }.

(** ** Transactions *)

(** What the callbacks read of a transaction. *)
Record Transaction := mkTx {
  tx_Hash : bytes;
  tx_Value : Z;
  tx_Data : bytes
}.

(** What the callbacks use of other packages: the sender that a signature recovers
    ([derivedAddressFromTx]), the decoding of arguments ([ChainABI.UnpackMethodInputs]), and
    of crypto-go the proof that a BLS key belongs to an address, its text, and the key of
    128 bytes. *)
Class ChainLib {LIB : NeatLib} := {
  derivedAddressFromTx : Transaction → bytes;
  unpack_Delegate : bytes → option DelegateArgs;
  unpack_UnDelegate : bytes → option UnDelegateArgs;
  unpack_Register : bytes → option RegisterArgs;
  unpack_EditValidator : bytes → option EditValidatorArgs;
  unpack_WithdrawReward : bytes → option WithdrawRewardArgs;
  unpack_SetCommission : bytes → option SetCommissionArgs;
  CheckConsensusPubKey : bytes → bytes → bytes → bool;
  KeyString : bytes → bytes;
  BLSPubKey : bytes → PubKey
}.

Inductive chainErr :=
| ErrMaxCandidate | ErrAlreadyCandidate | ErrMinimumRegisterAmount | ErrCommission | ErrCannotCandidate
| ErrNotCandidate | ErrBannedUnRegister | ErrCannotUnRegister
| ErrDelegateAmount | ErrExceedDelegationAddressLimit | ErrCannotDelegate
| ErrCancelSelfDelegate | ErrCannotUnBond | ErrInsufficientProxiedBalance
| errUnpack | errPubKey | errNoReward | errNoEpoch | errHeight | errNegativePower | errKeyFormat | errConflict
| errNotBanned | errStillBanned | errTooLong | errNotValidator.

Definition minimumRegisterAmount : Z := 10 ^ 18.
Definition maxCandidateNumber : Z := 1000.
Definition maxDelegationAddresses : Z := 1000.
Definition maxEditValidatorLength : Z := 100.
Definition updateValidatorThreshold : Z := 100.

(** ** Pending operations *)

Section pending.
  Context {LIB : NeatLib}.

Inductive PendingOp :=
| CreateSideChainOp (From : bytes) (ChainId : string) (MinValidators MinDepositAmount StartBlock EndBlock : Z)
| JoinSideChainOp (From : bytes) (pubKey : PubKey) (ChainId : string) (DepositAmount : Z)
| LaunchSideChainsOp (SideChainIds : list string) (NewPendingIdx : option bytes) (DeleteSideChainIds : list string)
| SaveDataToMainChainOp (Data : bytes)
| VoteNextEpochOp (From VoteHash TxHash : bytes)
| RevealVoteOp (From : bytes) (pubKey : PubKey) (Amount : Z) (Salt : string) (TxHash : bytes)
| UpdateNextEpochOp (From : bytes) (pubKey : PubKey) (Amount : Z) (Salt : string) (TxHash : bytes)
| SwitchEpochOp (ChainId : string) (NewValidators : ValidatorSet).

Definition Conflict (op op1 : PendingOp) : bool :=
  match op, op1 with
  | CreateSideChainOp _ id _ _ _ _, CreateSideChainOp _ id1 _ _ _ _ => bool_decide (id = id1)
  | JoinSideChainOp from _ id _, JoinSideChainOp from1 _ id1 _ => bool_decide (id = id1) && bool_decide (from = from1)
  | LaunchSideChainsOp _ _ _, LaunchSideChainsOp _ _ _ => true
  | SwitchEpochOp _ _, SwitchEpochOp _ _ => true
  | _, _ => false
  end.

(** [Append]: whether the operation was added. *)
Definition Append (op1 : PendingOp) (ops : list PendingOp) : bool * list PendingOp :=
  if existsb (λ op, Conflict op op1) ops then (false, ops) else (true, ops ++ [op1]).
End pending.

Arguments Append {LIB} op1 ops.

(** ** The callbacks *)

Section callbacks.
  Context {LIB : NeatLib} {WIRE : EpochWire} {CLIB : ChainLib}.
  Context {DB T : Type} {SD : StateDatabase DB T} {KL : KeccakLib} (fuel : nat).

Local Abbreviation DM := (stM (StateDB DB T)).

(** What the callbacks read of the chain: the epoch of the consensus engine with its
    database, if the engine is NeatPoS, and the height of the current block. *)
Record BlockChain := mkChain { bc_engine : option (EpochDB * Epoch); bc_height : Z }.

(** [tdm.GetEpoch().GetEpochByBlockNumber(bc.CurrentBlock().NumberU64())] *)
Definition current_epoch (bc : BlockChain) : outcome (option Epoch) :=
  match bc_engine bc with
  | None => Ret None
  | Some (db, epoch) =>
      match GetEpochByBlockNumber fuel db epoch (bc_height bc) with
      | Some ep => Ret ep
      | None => Panic "out of fuel"
      end
  end.

(** An epoch that is nil is dereferenced. *)
Definition is_supernode (ep : option Epoch) (addr : bytes) : outcome bool :=
  match ep with
  | None => Panic "nil pointer dereference"
  | Some ep =>
      match (GetByAddress (ed_Validators (ep_data ep)) addr).2 with
      | Some v => Ret (0 <? v_RemainingEpoch v)
      | None => Ret false
      end
  end.

Definition getEpoch (bc : BlockChain) : outcome (Epoch + chainErr) :=
  ep ← current_epoch bc;
  Ret (match ep with Some ep => inl ep | None => inr errNoEpoch end).

Definition updateValidation (bc : BlockChain) : outcome (option chainErr) :=
  r ← getEpoch bc;
  match r with
  | inr e => Ret (Some e)
  | inl ep =>
      let h := bc_height bc in
      Ret (if (h =? 1) || (h =? ed_StartBlock (ep_data ep)) || (h =? u64 (ed_StartBlock (ep_data ep) + 1))
              || (h =? ed_EndBlock (ep_data ep))
           then Some errHeight else None)
  end.

(** [UnpackMethodInputs(&args, name, data[4:])] *)
Definition unpack_args {A} (unpack : bytes → option A) (tx : Transaction) : outcome (A + chainErr) :=
  if lenZ (tx_Data tx) <? 4 then Panic "slice bounds out of range"
  else Ret (match unpack (drop 4 (tx_Data tx)) with Some args => inl args | None => inr errUnpack end).

(** *** Withdrawing a reward *)

Definition withDrawRewardValidation (from : bytes) (tx : Transaction) : DM (WithdrawRewardArgs + chainErr) :=
  r ← slift (unpack_args unpack_WithdrawReward tx);
  match r with
  | inr e => mret (inr e)
  | inl args =>
      reward ← GetRewardBalanceByDelegateAddress from (wa_DelegateAddress args);
      mret (if Z.sgn reward <? 1 then inr errNoReward else inl args)
  end.

Definition withdrawRewardApplyCb (tx : Transaction) : DM (option chainErr) :=
  let from := derivedAddressFromTx tx in
  r ← withDrawRewardValidation from tx;
  match r with
  | inr e => mret (Some e)
  | inl args =>
      reward ← GetRewardBalanceByDelegateAddress from (wa_DelegateAddress args);
      SubRewardBalanceByDelegateAddress from (wa_DelegateAddress args) reward;;
      AddBalance from reward;;
      mret None
  end.

(** *** The vote set of the next epoch *)

Definition GetEpochValidatorVoteSet (bc : BlockChain) (ep : Epoch) : option EpochValidatorVoteSet :=
  match ep_validatorVoteSet ep with
  | Some voteSet => Some voteSet
  | None => match bc_engine bc with Some (db, _) => LoadEpochVoteSet db (ed_Number (ep_data ep)) | None => None end
  end.

(** Whether one of the votes is below the amount; an amount that is nil is dereferenced. *)
Fixpoint any_below (amount : Z) (votes : list EpochValidatorVote) : outcome bool :=
  match votes with
  | [] => Ret false
  | v :: votes =>
      match ev_Amount v with
      | None => Panic "nil pointer dereference"
      | Some x => if x <? amount then Ret true else any_below amount votes
      end
  end.

Definition should_update (voteSet : option EpochValidatorVoteSet) (netProxied : Z) : outcome bool :=
  match voteSet with
  | None => Ret true
  | Some voteSet =>
      if updateValidatorThreshold <=? Z.of_nat (length (evs_Votes voteSet)) then any_below netProxied (evs_Votes voteSet)
      else Ret true
  end.

(** The callback of a walk that turns the stakes of a candidate into deposits. *)
Definition deposit_proxied (candidate key : bytes) (apb : accountProxiedBalance) (_ : ()) : DM () :=
  SubProxiedBalanceByUser candidate key (pb_ProxiedBalance apb);;
  AddDepositProxiedBalanceByUser candidate key (pb_ProxiedBalance apb).

(** [common.FromHex] of a string of hexadecimal digits: [hex.DecodeString] of the digits,
    up to the first that is not one. *)
Definition hex_digit (c : Z) : option Z :=
  if (48 <=? c) && (c <=? 57) then Some (c - 48)
  else if (97 <=? c) && (c <=? 102) then Some (c - 87)
  else if (65 <=? c) && (c <=? 70) then Some (c - 55)
  else None.

Fixpoint Hex2Bytes (s : bytes) : bytes :=
  match s with
  | a :: b :: s =>
      match hex_digit a, hex_digit b with
      | Some x, Some y => 16 * x + y :: Hex2Bytes s
      | _, _ => []
      end
  | _ => []
  end.

Definition FromHex (s : bytes) : bytes :=
  let s := match s with 48 :: x :: s' => if (x =? 120) || (x =? 88) then s' else s | _ => s end in
  Hex2Bytes (if Nat.odd (length s) then 48 :: s else s).

(** A [BLSPubKey] that the bytes are copied to. *)
Definition bls_array (b : bytes) : bytes := take 128 (b ++ replicate 128 0).

Definition updateNextEpochValidatorVoteSet (tx : Transaction) (bc : BlockChain) (candidate : bytes)
    (ops : list PendingOp) : DM (option chainErr * list PendingOp) :=
  r ← slift (getEpoch bc);
  match r with
  | inr e => mret (Some e, ops)
  | inl ep =>
      proxiedBalance ← GetTotalProxiedBalance candidate;
      depositProxiedBalance ← GetTotalDepositProxiedBalance candidate;
      pendingRefundBalance ← GetTotalPendingRefundBalance candidate;
      let netProxied := proxiedBalance + depositProxiedBalance - pendingRefundBalance in
      if Z.sgn netProxied =? -1 then mret (Some errNegativePower, ops)
      else
        update ← slift (should_update (GetEpochValidatorVoteSet bc ep) netProxied);
        candidateNow ← (if update : bool then IsCandidate candidate else mret false);
        if candidateNow : bool then
          ForEachProxied fuel candidate (deposit_proxied candidate) ();;
          pubkey ← GetPubkey candidate;
          let pubkeyBytes := FromHex pubkey in
          if bool_decide (pubkey = []) || negb (lenZ pubkeyBytes =? 128) then mret (Some errKeyFormat, ops)
          else
            let '(ok, ops) := Append (UpdateNextEpochOp candidate (BLSPubKey (bls_array pubkeyBytes)) netProxied "neatio"
                                        (tx_Hash tx)) ops in
            mret (if ok then None else Some errConflict, ops)
        else mret (None, ops)
  end.

(** *** Registering *)

Definition registerValidation (from : bytes) (tx : Transaction) (bc : BlockChain) : DM (RegisterArgs + chainErr) :=
  candidates ← GetCandidateSet;
  if maxCandidateNumber <? Z.of_nat (size (default ∅ candidates)) then mret (inr ErrMaxCandidate)
  else
    clean ← IsCleanAddress from;
    if negb clean then mret (inr ErrAlreadyCandidate)
    else if tx_Value tx <? minimumRegisterAmount then mret (inr ErrMinimumRegisterAmount)
    else
      r ← slift (unpack_args unpack_Register tx);
      match r with
      | inr e => mret (inr e)
      | inl args =>
          if negb (CheckConsensusPubKey from (ra_Pubkey args) (ra_Signature args)) then mret (inr errPubKey)
          else if 100 <? ra_Commission args then mret (inr ErrCommission)
          else
            ep ← slift (current_epoch bc);
            supernode ← slift (is_supernode ep from);
            mret (if supernode : bool then inr ErrCannotCandidate else inl args)
      end.

Definition registerApplyCb (tx : Transaction) (bc : BlockChain) (ops : list PendingOp)
    : DM (option chainErr * list PendingOp) :=
  let from := derivedAddressFromTx tx in
  r ← registerValidation from tx bc;
  match r with
  | inr e => mret (Some e, ops)
  | inl args =>
      verror ← slift (updateValidation bc);
      match verror with
      | Some e => mret (Some e, ops)
      | None =>
          let amount := tx_Value tx in
          SubBalance from amount;;
          AddDelegateBalance from amount;;
          AddProxiedBalanceByUser from from amount;;
          ApplyForCandidate from (KeyString (bls_array (ra_Pubkey args))) (ra_Commission args);;
          MarkAddressCandidate from;;
          updateNextEpochValidatorVoteSet tx bc from ops
      end
  end.

Definition unRegisterValidation (from : bytes) (bc : BlockChain) : DM (option chainErr) :=
  candidate ← IsCandidate from;
  if negb candidate then mret (Some ErrNotCandidate)
  else
    banned ← GetBanned from;
    if banned : bool then mret (Some ErrBannedUnRegister)
    else
      ep ← slift (current_epoch bc);
      supernode ← slift (is_supernode ep from);
      if supernode : bool then mret (Some ErrCannotUnRegister)
      else
        r ← slift (getEpoch bc);
        mret (match r with inr e => Some e | inl _ => None end).

(** The callback of the walk: [allRefund] becomes false when there is a deposit to refund
    later. *)
Definition refund_user (from key : bytes) (apb : accountProxiedBalance) (allRefund : bool) : DM bool :=
  SubProxiedBalanceByUser from key (pb_ProxiedBalance apb);;
  SubDelegateBalance key (pb_ProxiedBalance apb);;
  AddBalance key (pb_ProxiedBalance apb);;
  if 0 <? Z.sgn (pb_DepositProxiedBalance apb) then
    AddPendingRefundBalanceByUser from key (pb_DepositProxiedBalance apb);;
    MarkDelegateAddressRefund from;;
    mret false
  else mret allRefund.

Definition unRegisterApplyCb (tx : Transaction) (bc : BlockChain) : DM (option chainErr) :=
  let from := derivedAddressFromTx tx in
  verror ← unRegisterValidation from bc;
  match verror with
  | Some e => mret (Some e)
  | None =>
      allRefund ← ForEachProxied fuel from (refund_user from) true;
      CancelCandidate from allRefund;;
      GetCandidateSet;;
      ClearCandidateSetByAddress from;;
      GetCandidateSet;;
      mret None
  end.

(** *** Delegating *)

Definition delegateValidation (from : bytes) (tx : Transaction) (bc : BlockChain) : DM (DelegateArgs + chainErr) :=
  if Z.sgn (tx_Value tx) =? -1 then mret (inr ErrDelegateAmount)
  else
    r ← slift (unpack_args unpack_Delegate tx);
    match r with
    | inr e => mret (inr e)
    | inl args =>
        candidate ← IsCandidate (da_Candidate args);
        if negb candidate then mret (inr ErrNotCandidate)
        else
          depositBalance ← GetDepositProxiedBalanceByUser (da_Candidate args) from;
          tooMany ← (if Z.sgn depositBalance =? 0 then
                       n ← GetProxiedAddressNumber fuel (da_Candidate args);
                       mret (maxDelegationAddresses <=? n)
                     else mret false);
          if tooMany : bool then mret (inr ErrExceedDelegationAddressLimit)
          else
            ep ← slift (current_epoch bc);
            supernode ← slift (is_supernode ep (da_Candidate args));
            mret (if (supernode : bool) && (Z.sgn depositBalance =? 0) then inr ErrCannotDelegate else inl args)
    end.

Definition delegateApplyCb (tx : Transaction) (bc : BlockChain) (ops : list PendingOp)
    : DM (option chainErr * list PendingOp) :=
  let from := derivedAddressFromTx tx in
  r ← delegateValidation from tx bc;
  match r with
  | inr e => mret (Some e, ops)
  | inl args =>
      verror ← slift (updateValidation bc);
      match verror with
      | Some e => mret (Some e, ops)
      | None =>
          let amount := tx_Value tx in
          SubBalance from amount;;
          AddDelegateBalance from amount;;
          AddProxiedBalanceByUser (da_Candidate args) from amount;;
          banned ← GetBanned from;
          if negb banned then updateNextEpochValidatorVoteSet tx bc (da_Candidate args) ops
          else mret (None, ops)
      end
  end.

Definition unDelegateValidation (from : bytes) (tx : Transaction) (bc : BlockChain) : DM (UnDelegateArgs + chainErr) :=
  r ← slift (unpack_args unpack_UnDelegate tx);
  match r with
  | inr e => mret (inr e)
  | inl args =>
      if bool_decide (from = ua_Candidate args) then mret (inr ErrCancelSelfDelegate)
      else
        ep ← slift (current_epoch bc);
        supernode ← slift (is_supernode ep (ua_Candidate args));
        if supernode : bool then mret (inr ErrCannotUnBond)
        else
          proxiedBalance ← GetProxiedBalanceByUser (ua_Candidate args) from;
          depositProxiedBalance ← GetDepositProxiedBalanceByUser (ua_Candidate args) from;
          pendingRefundBalance ← GetPendingRefundBalanceByUser (ua_Candidate args) from;
          let availableRefundBalance := proxiedBalance + (depositProxiedBalance - pendingRefundBalance) in
          if availableRefundBalance <? ua_Amount args then mret (inr ErrInsufficientProxiedBalance)
          else
            r ← slift (getEpoch bc);
            mret (match r with inr e => inr e | inl _ => inl args end)
  end.

Definition unDelegateApplyCb (tx : Transaction) (bc : BlockChain) : DM (option chainErr) :=
  let from := derivedAddressFromTx tx in
  r ← unDelegateValidation from tx bc;
  match r with
  | inr e => mret (Some e)
  | inl args =>
      verror ← slift (updateValidation bc);
      match verror with
      | Some e => mret (Some e)
      | None =>
          proxiedBalance ← GetProxiedBalanceByUser (ua_Candidate args) from;
          immediatelyRefund ←
            (if ua_Amount args <=? proxiedBalance then mret (ua_Amount args)
             else
               AddPendingRefundBalanceByUser (ua_Candidate args) from (ua_Amount args - proxiedBalance);;
               MarkDelegateAddressRefund (ua_Candidate args);;
               mret proxiedBalance);
          SubProxiedBalanceByUser (ua_Candidate args) from immediatelyRefund;;
          SubDelegateBalance from immediatelyRefund;;
          AddBalance from immediatelyRefund;;
          mret None
      end
  end.

(** *** Commission, description, unbanning *)

Definition setCommissionValidation (from : bytes) (tx : Transaction) : DM (SetCommissionArgs + chainErr) :=
  candidate ← IsCandidate from;
  if negb candidate then mret (inr ErrNotCandidate)
  else
    r ← slift (unpack_args unpack_SetCommission tx);
    mret (match r with
          | inr e => inr e
          | inl args => if 100 <? sa_Commission args then inr ErrCommission else inl args
          end).

Definition setCommisstionApplyCb (tx : Transaction) : DM (option chainErr) :=
  let from := derivedAddressFromTx tx in
  r ← setCommissionValidation from tx;
  match r with
  | inr e => mret (Some e)
  | inl args => SetCommission from (sa_Commission args);; mret None
  end.

Definition editValidatorValidateCb (tx : Transaction) : DM (option chainErr) :=
  let from := derivedAddressFromTx tx in
  candidate ← IsCandidate from;
  if negb candidate then mret (Some errNotValidator)
  else
    r ← slift (unpack_args unpack_EditValidator tx);
    mret (match r with
          | inr e => Some e
          | inl args =>
              if (maxEditValidatorLength <? lenZ (ea_Details args)) || (maxEditValidatorLength <? lenZ (ea_Identity args))
                 || (maxEditValidatorLength <? lenZ (ea_Moniker args)) || (maxEditValidatorLength <? lenZ (ea_Website args))
              then Some errTooLong else None
          end).

Definition unBannedValidation (from : bytes) (bc : BlockChain) : DM (option chainErr) :=
  candidate ← IsCandidate from;
  if negb candidate then mret (Some ErrNotCandidate)
  else
    verror ← slift (updateValidation bc);
    match verror with
    | Some e => mret (Some e)
    | None =>
        banned ← GetBanned from;
        if negb banned then mret (Some errNotBanned)
        else
          bannedEpoch ← GetBannedTime from;
          mret (if 0 <? bannedEpoch then Some errStillBanned else None)
    end.

Definition unBannedApplyCb (tx : Transaction) (bc : BlockChain) : DM (option chainErr) :=
  let from := derivedAddressFromTx tx in
  verror ← unBannedValidation from bc;
  match verror with
  | Some e => mret (Some e)
  | None => SetBanned from false;; ClearBannedSetByAddress from;; mret None
  end.

(** *** The table of callbacks *)

Definition no_ops (m : DM (option chainErr)) (ops : list PendingOp) : DM (option chainErr * list PendingOp) :=
  e ← m; mret (e, ops).

(** [GetApplyCb]: the callbacks that [init] registers. *)
Definition GetApplyCb (function : FunctionType)
    : option (Transaction → BlockChain → list PendingOp → DM (option chainErr * list PendingOp)) :=
  if decide (function = WithdrawReward) then Some (λ tx _, no_ops (withdrawRewardApplyCb tx))
  else if decide (function = Delegate) then Some delegateApplyCb
  else if decide (function = UnDelegate) then Some (λ tx bc, no_ops (unDelegateApplyCb tx bc))
  else if decide (function = Register) then Some registerApplyCb
  else if decide (function = UnRegister) then Some (λ tx bc, no_ops (unRegisterApplyCb tx bc))
  else if decide (function = SetCommissionFn) then Some (λ tx _, no_ops (setCommisstionApplyCb tx))
  else if decide (function = UnBanned) then Some (λ tx bc, no_ops (unBannedApplyCb tx bc))
  else None.

Definition left_error {A} (m : DM (A + chainErr)) : DM (option chainErr) :=
  r ← m; mret (match r with inl _ => None | inr e => Some e end).

Definition GetValidateCb (function : FunctionType) : option (Transaction → BlockChain → DM (option chainErr)) :=
  if decide (function = WithdrawReward) then
    Some (λ tx _, left_error (withDrawRewardValidation (derivedAddressFromTx tx) tx))
  else if decide (function = Delegate) then Some (λ tx bc, left_error (delegateValidation (derivedAddressFromTx tx) tx bc))
  else if decide (function = UnDelegate) then Some (λ tx bc, left_error (unDelegateValidation (derivedAddressFromTx tx) tx bc))
  else if decide (function = Register) then Some (λ tx bc, left_error (registerValidation (derivedAddressFromTx tx) tx bc))
  else if decide (function = UnRegister) then Some (λ tx bc, unRegisterValidation (derivedAddressFromTx tx) bc)
  else if decide (function = SetCommissionFn) then Some (λ tx _, left_error (setCommissionValidation (derivedAddressFromTx tx) tx))
  else if decide (function = EditValidator) then Some (λ tx _, editValidatorValidateCb tx)
  else if decide (function = UnBanned) then Some (λ tx bc, unBannedValidation (derivedAddressFromTx tx) bc)
  else None.
End callbacks.

(** ** Nobody's wealth changes *)

Section theorem.
  Context {LIB : NeatLib} {WIRE : EpochWire} {CLIB : ChainLib}.
  Context {DB T : Type} {SD : StateDatabase DB T} {SR : StateReads SD} {SW : StateWalks SR} {KL : KeccakLib}.
  Context {KLaws : KeccakLaws}.
  Context (fuel : nat) (db : DB) (U : list bytes).

Local Abbreviation DM := (stM (StateDB DB T)).

(** The state: the address sets can be read; every account of [U] can be looked up, and its
    delegators can be listed and are in [U] as well. *)
Record stakes_ok (a : astate) : Prop := {
  so_sets : sets_ok (as_sets a);
  so_entries F : is_field F → set_entry_ok F a;
  so_keys x : x ∈ U → key_ok x ∧ key_ok (reward_key x);
  so_listed c : c ∈ U → ∃ ks, listed db fuel a c ks ∧ ks ⊆ U
}.

Lemma stakes_ok_frame a a' : frame a a' → stakes_ok a → stakes_ok a'.
Proof.
  intros Hf []. constructor; [by apply (fr_sets _ _ Hf)| |done|].
  - intros F HF. by eapply frame_entry, so_entries0.
  - intros c Hc. destruct (so_listed0 c Hc) as (ks & Hl & Hk). exists ks. split; [by eapply frame_listed|done].
Qed.

(** [m] makes moves between accounts of [U]. *)
Definition keeps_books {A} (m : DM A) (a : astate) : Prop :=
  does db m a (λ _ a', frame a a' ∧ moves U (ledger_of a) (ledger_of a')).

Lemma kb_ret {A} (r : A) a : keeps_books (mret r) a.
Proof. apply does_ret. split; [apply frame_refl|done]. Qed.

Lemma kb_after {A} (m : DM A) a a' :
  frame a a' → moves U (ledger_of a) (ledger_of a') → keeps_books m a' →
  does db m a' (λ _ a'', frame a a'' ∧ moves U (ledger_of a) (ledger_of a'')).
Proof.
  intros Hf Hm H. eapply does_mono; [exact H|]. intros r a'' [Hf' Hm']. split; [by eapply frame_trans|by etrans].
Qed.

Lemma kb_bind {A B} (m : DM A) (f : A → DM B) a :
  keeps_books m a → (∀ r a', frame a a' → keeps_books (f r) a') → keeps_books (m ≫= f) a.
Proof.
  intros Hm Hf. apply does_bind. eapply does_mono; [exact Hm|]. intros r a' [Hfr Hmv]. by apply kb_after, Hf.
Qed.

(** A query. *)
Lemma kb_query {A B} (m : DM A) (f : A → DM B) a :
  does db m a (λ _ a', frame a a' ∧ ledger_of a' = ledger_of a) → (∀ r a', frame a a' → keeps_books (f r) a') →
  keeps_books (m ≫= f) a.
Proof.
  intros Hm Hf. apply kb_bind; [|done]. eapply does_mono; [exact Hm|]. intros r a' [Hfr ->]. by split.
Qed.

Lemma kb_lift {A B} (o : outcome A) (f : A → DM B) a x : o = Ret x → keeps_books (f x) a → keeps_books (slift o ≫= f) a.
Proof. intros -> H. apply does_bind. by apply does_ret. Qed.

(** Reassociation: the steps of a called function come one by one. *)
Lemma kb_assoc {A B C} (m : DM A) (f : A → DM B) (g : B → DM C) a :
  keeps_books (m ≫= λ x, f x ≫= g) a → keeps_books ((m ≫= f) ≫= g) a.
Proof.
  intros H s Hdb Ha. destruct (H s Hdb Ha) as (r & s' & a' & E & Hrest). exists r, s', a'. split; [|done].
  rewrite <-E. unfold mbind, stM_bind. by destruct (m s) as [[]|].
Qed.

Lemma kb_ret_bind {A B} (x : A) (f : A → DM B) a : keeps_books (f x) a → keeps_books (mret x ≫= f) a.
Proof. intros H s Hdb Ha. destruct (H s Hdb Ha) as (r & s' & a' & E & Hrest). by exists r, s', a'. Qed.

(** A change of the status of accounts. *)
Lemma status_moves l l' : same_money l l' → moves U l l'.
Proof. intros H. by apply rtc_once, mv_status. Qed.

(** A walk over the delegators of an account of [U]. *)
Lemma kb_walk {X} c (cb : bytes → accountProxiedBalance → X → DM X) x a : stakes_ok a → c ∈ U →
  (∀ k v x a', frame a a' → k ∈ U → keeps_books (cb k v x) a') → keeps_books (ForEachProxied fuel c cb x) a.
Proof.
  intros Hok Hc Hcb. destruct (so_listed _ Hok c Hc) as (ks & Hl & Hks).
  destruct (so_keys _ Hok c Hc) as [Hkc _].
  eapply does_mono; [apply (does_ForEachProxied db fuel a c ks cb
    (λ ks' _ a', ks' ⊆ ks ∧ frame a a' ∧ moves U (ledger_of a) (ledger_of a'))); [done..| |]|by intros x' a' [_ HI]].
  { intros _. split; [apply list_subseteq_nil|]. split; [apply frame_refl|done]. }
  intros aa Haa. split; [split; [done|]; split; [apply frame_refl|done]|].
  intros k ks' x' a' (Hsub & Hf & Hm). destruct (fr_account _ _ Hf c) as [aa' Haa']; [by eexists|].
  assert (k ∈ ks) as Hin by (apply Hsub; by left).
  assert (get_or_new a c = aa) as Ea by (unfold get_or_new; by rewrite Haa).
  assert (get_or_new a' c = aa') as Ea' by (unfold get_or_new; by rewrite Haa').
  destruct Hl as (_ & _ & Hd). destruct (Hd k Hin) as [Hv _]. apply (fr_user _ _ Hf) in Hv as [v Hv].
  exists aa', v. rewrite Ea' in Hv. split_and!; [done|apply (fr_pre _ _ Hf)| |done|].
  { pose proof (fr_tries _ _ Hf c) as H. by rewrite Ea, Ea' in H. }
  eapply does_mono; [apply (Hcb k v x' a' Hf), Hks, Hin|]. intros x'' a'' [Hf' Hm'].
  split; [|split; [by eapply frame_trans|by etrans]]. intros y Hy. apply Hsub. by right.
Qed.

(** *** Moves that the callbacks make *)

Lemma kb_stake {A} u c v (k : DM A) a : stakes_ok a → u ∈ U → c ∈ U → (∀ a', frame a a' → keeps_books k a') →
  keeps_books (SubBalance u v;; AddDelegateBalance u v;; AddProxiedBalanceByUser c u v;; k) a.
Proof.
  intros Hok Hu Hc Hk. destruct (so_keys _ Hok u Hu) as [Hku _], (so_keys _ Hok c Hc) as [Hkc _].
  apply does_bind, does_SubBalance; [done|]. intros a1 F1 L1.
  apply does_bind, does_AddDelegateBalance; [done|]. intros a2 F2 L2.
  apply does_bind, does_AddProxiedBalanceByUser; [done..|]. intros a3 F3 L3 _.
  assert (frame a a3) by (eapply frame_trans; [exact F1|by eapply frame_trans]).
  apply kb_after; [done| |by apply Hk]. rewrite L3, L2, L1. by apply rtc_once, mv_stake.
Qed.

Lemma kb_unstake {A} u c v (k : DM A) a : stakes_ok a → u ∈ U → c ∈ U → (∀ a', frame a a' → keeps_books k a') →
  keeps_books (SubProxiedBalanceByUser c u v;; SubDelegateBalance u v;; AddBalance u v;; k) a.
Proof.
  intros Hok Hu Hc Hk. destruct (so_keys _ Hok u Hu) as [Hku _], (so_keys _ Hok c Hc) as [Hkc _].
  apply does_bind, does_SubProxiedBalanceByUser; [done..|]. intros a1 F1 L1 _.
  apply does_bind, does_SubDelegateBalance; [done|]. intros a2 F2 L2.
  apply does_bind, does_AddBalance; [done|]. intros a3 F3 L3.
  assert (frame a a3) by (eapply frame_trans; [exact F1|by eapply frame_trans]).
  apply kb_after; [done| |by apply Hk]. rewrite L3, L2, L1.
  pose proof (mv_stake U u c (- v) (ledger_of a) Hu Hc) as Hm. unfold stake in Hm. rewrite Z.opp_involutive in Hm.
  by apply rtc_once.
Qed.

Lemma kb_deposit_proxied c k v x a : stakes_ok a → c ∈ U → k ∈ U → keeps_books (deposit_proxied c k v x) a.
Proof.
  intros Hok Hc Hk. destruct (so_keys _ Hok k Hk) as [Hkk _], (so_keys _ Hok c Hc) as [Hkc _].
  apply does_bind, does_SubProxiedBalanceByUser; [done..|]. intros a1 F1 L1 _.
  apply does_AddDepositProxiedBalanceByUser; [done..|]. intros a2 F2 L2 _.
  split; [by eapply frame_trans|]. rewrite L2, L1. by apply rtc_once, mv_deposit.
Qed.

Lemma kb_ask {A} c u v (k : DM A) a : stakes_ok a → c ∈ U → u ∈ U → (∀ a', frame a a' → keeps_books k a') →
  keeps_books (AddPendingRefundBalanceByUser c u v;; MarkDelegateAddressRefund c;; k) a.
Proof.
  intros Hok Hc Hu Hk. destruct (so_keys _ Hok u Hu) as [Hku _], (so_keys _ Hok c Hc) as [Hkc _].
  apply does_bind, does_AddPendingRefundBalanceByUser; [done..|]. intros a1 F1 L1 _.
  pose proof (stakes_ok_frame _ _ F1 Hok) as Hok1.
  apply does_bind, (does_mark_set delegateRefundSet);
    [constructor|apply (so_entries _ Hok1); constructor|apply (so_sets _ Hok1)|].
  intros x Hx. pose proof (frame_trans _ _ _ F1 (frame_sets a1 x Hx)) as F2.
  apply kb_after; [done| |by apply Hk]. change (ledger_of (a1<| as_sets := x |>)) with (ledger_of a1). rewrite L1.
  by apply rtc_once, mv_ask.
Qed.

Lemma kb_refund_user c k v x a : stakes_ok a → c ∈ U → k ∈ U → keeps_books (refund_user c k v x) a.
Proof.
  intros Hok Hc Hk. unfold refund_user. apply kb_unstake; [done..|]. intros a1 F1.
  case_match; [|apply kb_ret]. apply kb_ask; [by eapply stakes_ok_frame|done..|]. intros. apply kb_ret.
Qed.

(** *** Sets and status *)

Lemma kb_get_set {A} (F : @setField DB T) (k : option (gset bytes) → DM A) (a : astate) : is_field F → stakes_ok a →
  (∀ r a', frame a a' → keeps_books (k r) a') → keeps_books (get_set F ≫= k) a.
Proof.
  intros HF Hok Hk. apply kb_query; [|done]. apply (does_get_set F); [done|by apply (so_entries _ Hok)|apply (so_sets _ Hok)|].
  intros x Hx _ _. split; [by apply frame_sets|done].
Qed.

Lemma kb_mark_set {A} F addr (k : DM A) a : is_field F → stakes_ok a →
  (∀ a', frame a a' → keeps_books k a') → keeps_books (mark_set F addr;; k) a.
Proof.
  intros HF Hok Hk. apply kb_query; [|by intros _]. apply (does_mark_set F); [done|by apply (so_entries _ Hok)|apply (so_sets _ Hok)|].
  intros x Hx. split; [by apply frame_sets|done].
Qed.

Lemma kb_clear_set {A} F addr (k : DM A) a : is_field F → stakes_ok a →
  (∀ a', frame a a' → keeps_books k a') → keeps_books (clear_set F addr;; k) a.
Proof.
  intros HF Hok Hk. apply kb_query; [|by intros _]. apply (does_clear_set F); [done|apply (so_sets _ Hok)|].
  intros x Hx. split; [by apply frame_sets|done].
Qed.

(** A change of the status of an account. *)
Lemma kb_status {A B} (m : DM A) (k : A → DM B) a :
  does db m a (λ _ a', frame a a' ∧ same_money (ledger_of a) (ledger_of a')) →
  (∀ r a', frame a a' → keeps_books (k r) a') → keeps_books (m ≫= k) a.
Proof.
  intros Hm Hk. apply kb_bind; [|done]. eapply does_mono; [exact Hm|]. intros r a' [Hf Hs]. split; [done|].
  by apply status_moves.
Qed.

(** The transaction has a selector and names accounts of [U]; the block is in an epoch whose
    votes have amounts. *)
Record tx_ok (tx : Transaction) (bc : BlockChain) (ep : Epoch) : Prop := {
  tk_data : 4 <= lenZ (tx_Data tx);
  tk_from : derivedAddressFromTx tx ∈ U;
  tk_delegate args : unpack_Delegate (drop 4 (tx_Data tx)) = Some args → da_Candidate args ∈ U;
  tk_undelegate args : unpack_UnDelegate (drop 4 (tx_Data tx)) = Some args → ua_Candidate args ∈ U;
  tk_withdraw args : unpack_WithdrawReward (drop 4 (tx_Data tx)) = Some args → wa_DelegateAddress args ∈ U;
  tk_epoch : current_epoch fuel bc = Ret (Some ep);
  tk_votes vs : GetEpochValidatorVoteSet bc ep = Some vs → Forall (λ v, is_Some (ev_Amount v)) (evs_Votes vs)
}.

Lemma unpack_run {A} (unpack : bytes → option A) tx bc ep : tx_ok tx bc ep →
  unpack_args unpack tx = Ret (match unpack (drop 4 (tx_Data tx)) with Some args => inl args | None => inr errUnpack end).
Proof. intros H. unfold unpack_args. pose proof (tk_data _ _ _ H). by destruct (Z.ltb_spec (lenZ (tx_Data tx)) 4); [lia|]. Qed.

Lemma getEpoch_run tx bc ep : tx_ok tx bc ep → getEpoch fuel bc = Ret (inl ep).
Proof. intros H. unfold getEpoch. by rewrite (tk_epoch _ _ _ H). Qed.

Lemma updateValidation_run tx bc ep : tx_ok tx bc ep → ∃ e, updateValidation fuel bc = Ret e.
Proof. intros H. unfold updateValidation. rewrite (getEpoch_run _ _ _ H). cbn. by eexists. Qed.

Lemma is_supernode_run ep addr : ∃ b, is_supernode (Some ep) addr = Ret b.
Proof. unfold is_supernode. case_match; by eexists. Qed.

Lemma any_below_run n votes : Forall (λ v, is_Some (ev_Amount v)) votes → ∃ b, any_below n votes = Ret b.
Proof.
  induction 1 as [|v votes [x Hx] _ IH]; cbn; [by eexists|]. rewrite Hx. case_match; [by eexists|done].
Qed.

Lemma should_update_run tx bc ep n : tx_ok tx bc ep → ∃ b, should_update (GetEpochValidatorVoteSet bc ep) n = Ret b.
Proof.
  intros H. unfold should_update. destruct (GetEpochValidatorVoteSet bc ep) as [vs|] eqn:E; [|by eexists].
  case_match; [|by eexists]. apply any_below_run. by eapply tk_votes.
Qed.

(** One query of the state database, or one computation that returns. *)
Ltac kb_next := let F := fresh "F" in intros ? F; match goal with H : stakes_ok _ |- _ => apply (stakes_ok_frame _ _ F) in H; clear F end.

Ltac kb_q := apply kb_query; [|intros ?; kb_next].

Ltac keep_same := intros; split; [first [apply frame_refl|assumption]|first [reflexivity|assumption]].

Lemma kb_update tx bc ep c ops a : tx_ok tx bc ep → stakes_ok a → c ∈ U →
  keeps_books (updateNextEpochValidatorVoteSet fuel tx bc c ops) a.
Proof.
  intros Htx Hok Hc. destruct (so_keys _ Hok c Hc) as [Hkc _]. unfold updateNextEpochValidatorVoteSet.
  eapply kb_lift; [by eapply getEpoch_run|].
  kb_q; [apply does_GetTotalProxiedBalance; [done|keep_same]|].
  kb_q; [apply does_GetTotalDepositProxiedBalance; [done|keep_same]|].
  kb_q; [apply does_GetTotalPendingRefundBalance; [done|keep_same]|].
  cbn zeta. case_match; [apply kb_ret|].
  destruct (should_update_run tx bc ep (r + r0 - r1) Htx) as [b Eb]. eapply kb_lift; [exact Eb|].
  kb_q; [destruct b; [apply does_IsCandidate; [done|keep_same]|apply does_ret; keep_same]|].
  case_match; [|apply kb_ret].
  apply kb_bind; [apply kb_walk; [done..|]|].
  { intros k v x a1 F1 Hk. apply kb_deposit_proxied; [by eapply stakes_ok_frame|done..]. }
  intros []; kb_next. kb_q; [apply does_GetPubkey; [done|keep_same]|]. case_match; [apply kb_ret|].
  destruct (Append _ _). apply kb_ret.
Qed.

Ltac keep_money := let L := fresh in intros ? ? L; split; [assumption|rewrite L; done].

Ltac kb_unpack Htx := apply kb_assoc; eapply kb_lift; [by eapply unpack_run|]; cbn beta iota.

Lemma kb_withdraw tx bc ep a : tx_ok tx bc ep → stakes_ok a → keeps_books (withdrawRewardApplyCb tx) a.
Proof.
  intros Htx Hok. pose proof (tk_from _ _ _ Htx) as Hu. destruct (so_keys _ Hok _ Hu) as [Hk _].
  unfold withdrawRewardApplyCb, withDrawRewardValidation. cbn zeta. kb_unpack Htx.
  destruct (unpack_WithdrawReward _) as [args|] eqn:Eu; [|apply kb_ret_bind, kb_ret].
  destruct (so_keys _ Hok _ (tk_withdraw _ _ _ Htx _ Eu)) as [_ Hd]. apply kb_assoc.
  apply does_bind, does_GetRewardBalanceByDelegateAddress; [done..|].
  case_match eqn:E; apply kb_ret_bind; [apply kb_ret|].
  apply does_bind, does_GetRewardBalanceByDelegateAddress; [done..|].
  apply does_bind, does_SubRewardBalanceByDelegateAddress; [done..| |].
  { unfold ledger_of in E. cbn in E. destruct (a_reward _ _); [by eexists|discriminate E]. }
  intros a1 F1 L1. apply does_bind, does_AddBalance; [done|]. intros a2 F2 L2.
  apply does_ret. split; [by eapply frame_trans|]. rewrite L2, L1. by apply rtc_once, mv_withdraw.
Qed.

Lemma kb_register tx bc ep ops a : tx_ok tx bc ep → stakes_ok a → keeps_books (registerApplyCb fuel tx bc ops) a.
Proof.
  intros Htx Hok. pose proof (tk_from _ _ _ Htx) as Hu. destruct (so_keys _ Hok _ Hu) as [Hk _].
  unfold registerApplyCb, registerValidation. cbn zeta. apply kb_assoc.
  apply kb_get_set; [constructor|done|]. intros r; kb_next. case_match; [apply kb_ret_bind, kb_ret|]. apply kb_assoc.
  kb_q; [apply does_IsCleanAddress; [done|keep_same]|].
  case_match; [apply kb_ret_bind, kb_ret|]. case_match; [apply kb_ret_bind, kb_ret|]. kb_unpack Htx.
  destruct (unpack_Register _) as [args|] eqn:Eu; [|apply kb_ret_bind, kb_ret].
  case_match; [apply kb_ret_bind, kb_ret|]. case_match; [apply kb_ret_bind, kb_ret|].
  apply kb_assoc. eapply kb_lift; [by eapply tk_epoch|]. apply kb_assoc.
  destruct (is_supernode_run ep (derivedAddressFromTx tx)) as [b Eb]. eapply kb_lift; [exact Eb|].
  apply kb_ret_bind. destruct b; [apply kb_ret|]. destruct (updateValidation_run _ _ _ Htx) as [e Ee].
  eapply kb_lift; [exact Ee|]. destruct e; [apply kb_ret|]. apply kb_stake; [done..|]. kb_next.
  apply kb_status; [apply does_ApplyForCandidate; [done|keep_money]|]. intros []; kb_next.
  apply kb_mark_set; [constructor|done|]. kb_next. by eapply kb_update.
Qed.

Lemma kb_unregister tx bc ep a : tx_ok tx bc ep → stakes_ok a → keeps_books (unRegisterApplyCb fuel tx bc) a.
Proof.
  intros Htx Hok. pose proof (tk_from _ _ _ Htx) as Hu. destruct (so_keys _ Hok _ Hu) as [Hk _].
  unfold unRegisterApplyCb, unRegisterValidation. cbn zeta. apply kb_assoc.
  kb_q; [apply does_IsCandidate; [done|keep_same]|]. case_match; [apply kb_ret_bind, kb_ret|]. apply kb_assoc.
  kb_q; [apply does_GetBanned; [done|keep_same]|]. case_match; [apply kb_ret_bind, kb_ret|]. apply kb_assoc.
  eapply kb_lift; [by eapply tk_epoch|]. apply kb_assoc.
  destruct (is_supernode_run ep (derivedAddressFromTx tx)) as [b Eb]. eapply kb_lift; [exact Eb|].
  destruct b; [apply kb_ret_bind, kb_ret|]. apply kb_assoc. eapply kb_lift; [by eapply getEpoch_run|]. apply kb_ret_bind.
  apply kb_bind; [apply kb_walk; [done..|]|].
  { intros k v x a1 F1 Hin. apply kb_refund_user; [by eapply stakes_ok_frame|done..]. }
  intros all; kb_next. apply kb_status; [apply does_CancelCandidate; [done|keep_money]|]. intros []; kb_next.
  apply kb_get_set; [constructor|done|]. intros ?; kb_next. apply kb_clear_set; [constructor|done|]. kb_next.
  apply kb_get_set; [constructor|done|]. intros ?; kb_next. apply kb_ret.
Qed.

Lemma kb_delegate tx bc ep ops a : tx_ok tx bc ep → stakes_ok a → keeps_books (delegateApplyCb fuel tx bc ops) a.
Proof.
  intros Htx Hok. pose proof (tk_from _ _ _ Htx) as Hu. destruct (so_keys _ Hok _ Hu) as [Hk _].
  unfold delegateApplyCb, delegateValidation. cbn zeta. case_match; [apply kb_ret_bind, kb_ret|]. kb_unpack Htx.
  destruct (unpack_Delegate _) as [args|] eqn:Eu; [|apply kb_ret_bind, kb_ret].
  pose proof (tk_delegate _ _ _ Htx _ Eu) as Hc. destruct (so_keys _ Hok _ Hc) as [Hkc _]. apply kb_assoc.
  kb_q; [apply does_IsCandidate; [done|keep_same]|]. case_match; [apply kb_ret_bind, kb_ret|]. apply kb_assoc.
  kb_q; [apply does_GetDepositProxiedBalanceByUser; [done..|keep_same]|]. apply kb_assoc.
  kb_q.
  { case_match; [|apply does_ret; keep_same]. destruct (so_listed _ Hok _ Hc) as (ks & Hl & _).
    apply does_bind. eapply does_GetProxiedAddressNumber; [done|exact Hl|]. apply does_ret. keep_same. }
  case_match; [apply kb_ret_bind, kb_ret|]. apply kb_assoc. eapply kb_lift; [by eapply tk_epoch|]. apply kb_assoc.
  destruct (is_supernode_run ep (da_Candidate args)) as [b Eb]. eapply kb_lift; [exact Eb|]. apply kb_ret_bind.
  destruct (b && _); [apply kb_ret|]. destruct (updateValidation_run _ _ _ Htx) as [e Ee].
  eapply kb_lift; [exact Ee|]. destruct e; [apply kb_ret|]. apply kb_stake; [done..|]. kb_next.
  kb_q; [apply does_GetBanned; [done|keep_same]|]. case_match; [by eapply kb_update|apply kb_ret].
Qed.

Lemma kb_undelegate tx bc ep a : tx_ok tx bc ep → stakes_ok a → keeps_books (unDelegateApplyCb fuel tx bc) a.
Proof.
  intros Htx Hok. pose proof (tk_from _ _ _ Htx) as Hu. destruct (so_keys _ Hok _ Hu) as [Hk _].
  unfold unDelegateApplyCb, unDelegateValidation. cbn zeta. kb_unpack Htx.
  destruct (unpack_UnDelegate _) as [args|] eqn:Eu; [|apply kb_ret_bind, kb_ret].
  pose proof (tk_undelegate _ _ _ Htx _ Eu) as Hc. destruct (so_keys _ Hok _ Hc) as [Hkc _].
  case_bool_decide; [apply kb_ret_bind, kb_ret|]. apply kb_assoc. eapply kb_lift; [by eapply tk_epoch|]. apply kb_assoc.
  destruct (is_supernode_run ep (ua_Candidate args)) as [b Eb]. eapply kb_lift; [exact Eb|].
  destruct b; [apply kb_ret_bind, kb_ret|].
  apply kb_assoc. kb_q; [apply does_GetProxiedBalanceByUser; [done..|keep_same]|].
  apply kb_assoc. kb_q; [apply does_GetDepositProxiedBalanceByUser; [done..|keep_same]|].
  apply kb_assoc. kb_q; [apply does_GetPendingRefundBalanceByUser; [done..|keep_same]|].
  case_match; [apply kb_ret_bind, kb_ret|]. apply kb_assoc. eapply kb_lift; [by eapply getEpoch_run|]. apply kb_ret_bind.
  destruct (updateValidation_run _ _ _ Htx) as [e Ee]. eapply kb_lift; [exact Ee|]. destruct e; [apply kb_ret|].
  kb_q; [apply does_GetProxiedBalanceByUser; [done..|keep_same]|].
  apply kb_bind; [case_match; [apply kb_ret|apply kb_ask; [done..|]; intros; apply kb_ret]|]. intros v; kb_next.
  apply kb_unstake; [done..|]. kb_next. apply kb_ret.
Qed.

Lemma kb_setCommission tx bc ep a : tx_ok tx bc ep → stakes_ok a → keeps_books (setCommisstionApplyCb tx) a.
Proof.
  intros Htx Hok. pose proof (tk_from _ _ _ Htx) as Hu. destruct (so_keys _ Hok _ Hu) as [Hk _].
  unfold setCommisstionApplyCb, setCommissionValidation. cbn zeta. apply kb_assoc.
  kb_q; [apply does_IsCandidate; [done|keep_same]|]. case_match; [apply kb_ret_bind, kb_ret|]. kb_unpack Htx.
  apply kb_ret_bind. destruct (unpack_SetCommission _) as [args|]; [|apply kb_ret]. destruct (_ <? _); [apply kb_ret|].
  apply kb_status; [apply does_SetCommission; [done|keep_money]|]. intros []; kb_next. apply kb_ret.
Qed.

Lemma kb_unbanned tx bc ep a : tx_ok tx bc ep → stakes_ok a → keeps_books (unBannedApplyCb fuel tx bc) a.
Proof.
  intros Htx Hok. pose proof (tk_from _ _ _ Htx) as Hu. destruct (so_keys _ Hok _ Hu) as [Hk _].
  unfold unBannedApplyCb, unBannedValidation. cbn zeta. apply kb_assoc.
  kb_q; [apply does_IsCandidate; [done|keep_same]|]. case_match; [apply kb_ret_bind, kb_ret|]. apply kb_assoc.
  destruct (updateValidation_run _ _ _ Htx) as [e Ee]. eapply kb_lift; [exact Ee|].
  destruct e; [apply kb_ret_bind, kb_ret|]. apply kb_assoc.
  kb_q; [apply does_GetBanned; [done|keep_same]|]. case_match; [apply kb_ret_bind, kb_ret|]. apply kb_assoc.
  kb_q; [apply does_GetBannedTime; [done|keep_same]|]. apply kb_ret_bind. case_match; [apply kb_ret|].
  apply kb_status; [apply does_SetBanned; [done|keep_money]|]. intros []; kb_next.
  apply kb_clear_set; [constructor|done|]. kb_next. apply kb_ret.
Qed.

Lemma kb_callback function cb tx bc ep ops a : GetApplyCb fuel function = Some cb → tx_ok tx bc ep → stakes_ok a →
  keeps_books (cb tx bc ops) a.
Proof.
  intros Hcb Htx Hok.
  assert (∀ m, keeps_books m a → keeps_books (no_ops m ops) a) as Hno.
  { intros m Hm. apply kb_bind; [done|]. intros. apply kb_ret. }
  unfold GetApplyCb in Hcb. repeat case_decide; try discriminate Hcb; injection Hcb as <-;
    try (apply Hno; eauto using kb_withdraw, kb_undelegate, kb_unregister, kb_setCommission, kb_unbanned).
  - by eapply kb_delegate.
  - by eapply kb_register.
Qed.
(** C17. The chain contract neither makes nor loses money. Take a transaction with a
    selector of four bytes, a current block that lies in a known epoch whose votes for
    the next one have amounts, and a state whose address sets can be read and in which
    the accounts concerned have delegators that can be listed and are concerned as well.
    Then every transaction callback (registering and unregistering a candidate,
    delegating and undelegating, withdrawing a reward, setting a commission, ending a
    ban) returns, with an error or without: the balance, deposit, delegations and
    rewards of any account together do not change, and the books stay balanced, that is,
    what a candidate was entrusted with is the sum over its delegators, and what an
    account has delegated is the sum over the candidates. *)
Theorem staking_keeps_books function cb tx bc ep ops s a :
  NoDup U → GetApplyCb fuel function = Some cb → tx_ok tx bc ep → stakes_ok a → s_db s = db → abs s a →
  books U (ledger_of a) →
  ∃ err ops' s' a', cb tx bc ops s = Ret ((err, ops'), s') ∧ abs s' a' ∧ stakes_ok a' ∧
    (∀ x, wealth (ledger_of a') x = wealth (ledger_of a) x) ∧ books U (ledger_of a').
Proof.
  intros Hnd Hcb Htx Hok Hdb Ha Hb.
  destruct (kb_callback _ _ _ _ _ ops _ Hcb Htx Hok s Hdb Ha) as ([err ops'] & s' & a' & E & Ha' & _ & Hfr & Hm).
  exists err, ops', s', a'. split_and!; [done|done|by eapply stakes_ok_frame| |by eapply moves_books].
  intros x. by eapply moves_wealth.
Qed.
End theorem.

(** ** Example *)

(** A delegation of two of five coins to a candidate, in a new state. *)
#[local] Existing Instances toy_keccak toy_lib.

Definition toy_chainlib : @ChainLib toy_lib := {|
  derivedAddressFromTx _ := user1;
  unpack_Delegate _ := Some (mkDelegateArgs acc1);
  unpack_UnDelegate _ := None;
  unpack_Register _ := None;
  unpack_EditValidator _ := None;
  unpack_WithdrawReward _ := None;
  unpack_SetCommission _ := None;
  CheckConsensusPubKey _ _ _ := false;
  KeyString b := b;
  BLSPubKey b := b
|}.

#[local] Existing Instances toy_chainlib toy_wire.

Definition demo_tx : Transaction := mkTx [1] (2 * 10 ^ 18) [1; 2; 3; 4].

Definition demo_chain : BlockChain := mkChain (Some (ex_db, ex_epoch 2)) 14500.

(** The text of a key of 128 bytes. *)
Definition demo_key : bytes := 48 :: 120 :: replicate 256 55.

Definition demo_setup : list op := [OAddBalance user1 (5 * 10 ^ 18); OApplyForCandidate acc1 demo_key 10].

Definition demo_state : StateDB Database SecureTrie :=
  match exec_all demo_setup fresh with Ret (_, s) => s | Panic _ => fresh end.

Definition demo_astate : astate :=
  upd_acct acc1 (on_data (λ d, d<| acc_Candidate := true |><| acc_Pubkey := demo_key |><| acc_Commission := 10 |>))
    (upd_acct user1 (on_data (λ d, d<| acc_Balance ::= λ b, b + 5 * 10 ^ 18 |>))
      (mkAstate demo_base demo_acct 0 zeroHash zeroHash 0 ∅ 0 ∅ (toy_pre fresh) new_sets)).

Lemma demo_abs : abs demo_state demo_astate.
Proof.
  destruct toy_den as ([r c] & Ht & E1 & E2). cbn in E1, E2. subst r c.
  assert (related fresh (init_spec demo_base demo_acct (toy_pre fresh))) as Hr.
  { by eapply (New_related zeroHash (NewDatabase ∅) fresh demo_base demo_acct). }
  destruct (exec_dsem (OAddBalance user1 (5 * 10 ^ 18)) _ RUnit _ (NewDatabase ∅)
    ltac:(repeat constructor) eq_refl fresh eq_refl (rl_abs _ _ Hr)) as (s1 & js1 & E1 & Ha1 & (Hd1 & _) & _).
  destruct (exec_dsem (OApplyForCandidate acc1 demo_key 10) _ RUnit _ (NewDatabase ∅)
    ltac:(repeat constructor) eq_refl s1 Hd1 Ha1) as (s2 & js2 & E2 & Ha2 & _).
  assert (demo_astate = _) as -> by reflexivity. unfold demo_state, demo_setup, exec_all, mbind, stM_bind.
  rewrite E1, E2. exact Ha2.
Qed.

Lemma demo_stakes : stakes_ok 3 (NewDatabase ∅) [acc1; user1] demo_astate.
Proof.
  constructor.
  - by repeat split; eexists.
  - intros F HF. destruct HF; (split; [done|by left]).
  - by intros x _.
  - intros c Hc. exists []. split; [|by intros k ?%elem_of_nil].
    split; [|split; [constructor|by intros k ?%elem_of_nil]].
    assert (f_proxied (get_or_new demo_astate c) = λ _, None) as ->.
    { apply elem_of_cons in Hc as [-> | ->%list_elem_of_singleton]; reflexivity. }
    apply empty_walk; [by vm_compute|lia].
Qed.

Lemma demo_tx_ok : tx_ok 3 [acc1; user1] demo_tx demo_chain (ex_epoch 2).
Proof.
  constructor; try discriminate.
  - by right; left.
  - intros args [= <-]. by left.
  - reflexivity.
Qed.

Lemma demo_books : books [acc1; user1] (ledger_of demo_astate).
Proof. constructor; intros c [-> | ->%list_elem_of_singleton]%elem_of_cons; by vm_compute. Qed.

Lemma demo_runs :
  match delegateApplyCb 3 demo_tx demo_chain [] demo_state with Ret ((None, [_]), _) => true | _ => false end = true.
Proof. by vm_compute. Qed.

Lemma demo_db : s_db demo_state = NewDatabase ∅.
Proof. by vm_compute. Qed.

Lemma demo_wealth : wealth (ledger_of demo_astate) user1 = 5 * 10 ^ 18.
Proof. by vm_compute. Qed.

Lemma staking_keeps_books_witness :
  ∃ op s' a', delegateApplyCb 3 demo_tx demo_chain [] demo_state = Ret ((None, [op]), s') ∧ abs s' a' ∧
    wealth (ledger_of a') user1 = 5 * 10 ^ 18 ∧ books [acc1; user1] (ledger_of a').
Proof.
  destruct (staking_keeps_books 3 (NewDatabase ∅) [acc1; user1] Delegate (delegateApplyCb 3) demo_tx demo_chain (ex_epoch 2)
    [] demo_state demo_astate ltac:(by repeat constructor; set_solver) eq_refl demo_tx_ok demo_stakes demo_db demo_abs demo_books)
    as (err & ops & s' & a' & E & Ha & _ & Hw & Hb).
  pose proof demo_runs as Hrun. rewrite E in Hrun. destruct err, ops as [|op [|]]; try discriminate Hrun.
  exists op, s', a'. split_and!; [exact E|exact Ha| |exact Hb]. by rewrite Hw, demo_wealth.
Defined.

(** ** At the edges *)

(** The walk that should move the delegation to the deposit does not see it yet. *)
Lemma first_delegation_stays :
  results ((delegateApplyCb 3 demo_tx demo_chain [];; p ← GetProxiedBalanceByUser acc1 user1;
            d ← GetDepositProxiedBalanceByUser acc1 user1; mret (p, d)) demo_state) = Ret (2 * 10 ^ 18, 0).
Proof. vm_compute. reflexivity. Qed.

(** Listing the delegates that an account has rewards of panics if there are any. *)
Lemma reward_addresses_panic :
  results ((GetDelegateRewardAddress 3 acc1) fresh) = Ret None ∧
  results ((AddRewardBalanceByDelegateAddress acc1 user1 5;; GetDelegateRewardAddress 3 acc1) fresh)
    = Panic "assignment to entry in nil map".
Proof. split; vm_compute; reflexivity. Qed.

(** An account that does not exist can register; one that was just given money cannot. *)
Lemma new_account_not_clean :
  results (IsCleanAddress acc1 fresh) = Ret true ∧ results ((AddBalance acc1 5;; IsCleanAddress acc1) fresh) = Ret false.
Proof. split; vm_compute; reflexivity. Qed.

(** Where no epoch holds the current block, or the engine is another one, the epoch is
    dereferenced before [getEpoch] could report that it is nil. *)
Lemma nil_epoch_panics :
  results (delegateApplyCb 3 demo_tx (mkChain None 14500) [] demo_state) = Panic "nil pointer dereference" ∧
  getEpoch 3 (mkChain None 14500) = Ret (inr errNoEpoch).
Proof. split; reflexivity. Qed.
