(* ===== verification/VmBase.v ===== *)
(** * Words, stack, memory and code of the virtual machine (core/vm, common/math)

    A 256-bit word is a [Z]; the operations of [big.Int] that the machine uses, with the
    masks that bring results back to 256 bits; the stack with its bounds check; the
    memory; the slices of call data; and the analysis of jump destinations. *)

From Stdlib Require Import ZArith Lia ZifyBool.
From stdpp Require Import base tactics strings numbers gmap list.
From S2P Require Import Prelude Rlp Trie TrieDb.

Local Open Scope Z_scope.

(** ** Big integers *)

Definition tt255 : Z := 2 ^ 255.
Definition tt256 : Z := 2 ^ 256.
Definition tt256m1 : Z := tt256 - 1.
Definition MaxUint64 : Z := 2 ^ 64 - 1.

(** [x.BitLen()], [x.Uint64()], [x.Int64()]: of the absolute value; the conversions keep
    the low 64 bits. *)
Definition BitLen (x : Z) : Z := if x =? 0 then 0 else Z.log2 (Z.abs x) + 1.
Definition Uint64 (x : Z) : Z := u64 (Z.abs x).
Definition Int64 (x : Z) : Z := let v := i64 (Z.abs x) in if x <? 0 then i64 (- v) else v.

Definition U256 (x : Z) : Z := Z.land x tt256m1.
Definition S256 (x : Z) : Z := if x <? tt255 then x else x - tt256.

Definition BigMax (x y : Z) : Z := if x <? y then y else x.
Definition BigMin (x y : Z) : Z := if y <? x then y else x.

(** [Exp]: 64 steps for every machine word of the exponent. *)
Fixpoint exp_loop (n : nat) (result base exponent : Z) : Z :=
  match n with
  | O => result
  | S n =>
      let result := if Z.odd exponent then U256 (result * base) else result in
      exp_loop n result (U256 (base * base)) (exponent / 2)
  end.

Definition Exp (base exponent : Z) : Z :=
  exp_loop (Z.to_nat (64 * ((BitLen exponent + 63) / 64))) 1 base exponent.

(** [bigEndianByteAt], [Byte] and [ReadBits] with a buffer of [n] bytes. *)
Definition bigEndianByteAt (x n : Z) : Z := (x / 256 ^ n) mod 256.
Definition Byte (x padlength n : Z) : Z := if padlength <=? n then 0 else bigEndianByteAt x (padlength - 1 - n).
Definition ReadBits (x : Z) (n : nat) : bytes := be_fixed n x.

(** Hashes and addresses are 32 bytes. *)
Definition BigToHash (x : Z) : bytes := BytesToHash (big_Bytes (Z.abs x)).
Definition BytesToAddress (b : bytes) : bytes := BytesToHash b.
Definition BigToAddress (x : Z) : bytes := BytesToAddress (big_Bytes (Z.abs x)).

(** *** Overflow checks *)

Definition SafeSub (x y : Z) : Z * bool := (u64 (x - y), x <? y).
Definition SafeAdd (x y : Z) : Z * bool := (u64 (x + y), MaxUint64 - x <? y).
Definition SafeMul (x y : Z) : Z * bool :=
  if (x =? 0) || (y =? 0) then (0, false) else (u64 (x * y), MaxUint64 / x <? y).

(** ** Byte slices *)

(** The longest slice of bytes that [make] makes on a 64-bit machine: the runtime panics above
    its address space of 48 bits. *)
Definition maxAlloc : Z := 2 ^ 48.

Definition make_bytes (l : Z) : outcome unit :=
  if maxAlloc <? l then Panic "makeslice: len out of range" else Ret ().

Definition RightPadBytes (b : bytes) (l : Z) : outcome bytes :=
  if l <=? lenZ b then Ret b
  else _ ← make_bytes l; Ret (b ++ replicate (Z.to_nat (l - lenZ b)) 0).

Definition LeftPadBytes (b : bytes) (l : Z) : outcome bytes :=
  if l <=? lenZ b then Ret b
  else _ ← make_bytes l; Ret (replicate (Z.to_nat (l - lenZ b)) 0 ++ b).

(** [b[lo:hi]].  Go allows [hi] up to the capacity of the slice, which is not less than the
    length that is used here. *)
Definition slice (b : bytes) (lo hi : Z) : outcome bytes :=
  if (0 <=? lo) && (lo <=? hi) && (hi <=? lenZ b)
  then Ret (take (Z.to_nat (hi - lo)) (drop (Z.to_nat lo) b))
  else Panic "slice bounds out of range".

Definition calcMemSize (off l : Z) : Z := if l =? 0 then 0 else off + l.

Definition getData (data : bytes) (start size : Z) : outcome bytes :=
  let length := lenZ data in
  let start := if length <? start then length else start in
  let e := u64 (start + size) in
  let e := if length <? e then length else e in
  d ← slice data start e;
  RightPadBytes d (i64 size).

Definition getDataBig (data : bytes) (start size : Z) : outcome bytes :=
  let dlen := lenZ data in
  let s := BigMin start dlen in
  let e := BigMin (s + size) dlen in
  d ← slice data (Uint64 s) (Uint64 e);
  RightPadBytes d (i64 (Uint64 size)).

Definition bigUint64 (v : Z) : Z * bool := (Uint64 v, 64 <? BitLen v).

Definition toWordSize (size : Z) : Z :=
  if MaxUint64 - 31 <? size then MaxUint64 / 32 + 1 else u64 (size + 31) / 32.

Definition allZero (b : bytes) : bool := forallb (λ x, x =? 0) b.

(** ** Stack

    The top is the head of the list. *)

Definition StackLimit : Z := 1024.

Inductive vmErr :=
| ErrOutOfGas
| ErrCodeStoreOutOfGas
| ErrDepth
| ErrInsufficientBalance
| ErrContractAddressCollision
| errGasUintOverflow
| errWriteProtection
| errReturnDataOutOfBounds
| errExecutionReverted
| errMaxCodeSizeExceeded
| errStackUnderflow
| errStackLimit
| errInvalidOpcode (op : Z)
| errInvalidJump (pos : Z)
| errBadPairingInput
| errBn256.

#[global] Instance vmErr_eq_dec : EqDecision vmErr.
Proof. solve_decision. Defined.

Definition stack_Back (st : list Z) (n : nat) : outcome Z :=
  match st !! n with Some x => Ret x | None => Panic "index out of range" end.

Definition stack_pop (st : list Z) : outcome (Z * list Z) :=
  match st with x :: st => Ret (x, st) | [] => Panic "index out of range" end.

(** [swap n] exchanges the top with the [n]-th item, counted from one. *)
Definition stack_swap (st : list Z) (n : nat) : outcome (list Z) :=
  match st !! O, st !! (n - 1)%nat with
  | Some x, Some y => Ret (<[(n - 1)%nat := x]> (<[O := y]> st))
  | _, _ => Panic "index out of range"
  end.

Definition stack_dup (st : list Z) (n : nat) : outcome (list Z) :=
  match st !! (n - 1)%nat with Some x => Ret (x :: st) | None => Panic "index out of range" end.

(** [makeStackFunc] *)
Definition validateStack (pop push : Z) (st : list Z) : option vmErr :=
  if lenZ st <? pop then Some errStackUnderflow
  else if StackLimit <? lenZ st + push - pop then Some errStackLimit
  else None.

(** ** Memory *)

Record Memory := mkMemory { m_store : bytes; m_lastGasCost : Z }.

Definition NewMemory : Memory := mkMemory [] 0.

Definition mem_Len (m : Memory) : Z := lenZ (m_store m).

(** [copy(store[lo:lo+len(value)], value)] when the bytes are there. *)
Definition overwrite (store : bytes) (lo : nat) (value : bytes) : bytes :=
  take lo store ++ value ++ drop (lo + length value) store.

Definition mem_Set (m : Memory) (offset size : Z) (value : bytes) : outcome Memory :=
  if 0 <? size then
    if mem_Len m <? u64 (offset + size) then Panic "invalid memory: store empty"
    else
      _ ← slice (m_store m) offset (u64 (offset + size));
      Ret (mkMemory (overwrite (m_store m) (Z.to_nat offset) (take (Z.to_nat size) value)) (m_lastGasCost m))
  else Ret m.

Definition mem_Set32 (m : Memory) (offset val : Z) : outcome Memory :=
  if mem_Len m <? u64 (offset + 32) then Panic "invalid memory: store empty"
  else
    _ ← slice (m_store m) offset (u64 (offset + 32));
    Ret (mkMemory (overwrite (m_store m) (Z.to_nat offset) (ReadBits val 32)) (m_lastGasCost m)).

Definition mem_Resize (m : Memory) (size : Z) : Memory :=
  if mem_Len m <? size
  then mkMemory (m_store m ++ replicate (Z.to_nat (size - mem_Len m)) 0) (m_lastGasCost m)
  else m.

(** [Get] and [GetPtr]; nil is the empty slice. A negative size can not be made. *)
Definition mem_Get (m : Memory) (offset size : Z) : outcome bytes :=
  if size =? 0 then Ret []
  else if offset <? mem_Len m then
    if size <? 0 then Panic "makeslice: len out of range" else slice (m_store m) offset (i64 (offset + size))
  else Ret [].

Definition mem_GetPtr (m : Memory) (offset size : Z) : outcome bytes :=
  if size =? 0 then Ret []
  else if offset <? mem_Len m then slice (m_store m) offset (i64 (offset + size))
  else Ret [].

(** [m.store[off] = b] *)
Definition mem_store_byte (m : Memory) (off b : Z) : outcome Memory :=
  st ← slice_set (m_store m) off b; Ret (mkMemory st (m_lastGasCost m)).

(** ** Jump destinations *)

Definition JUMPDEST : Z := 91.
Definition PUSH1 : Z := 96.
Definition PUSH32 : Z := 127.

Abbreviation bitvec := (list Z).

Definition or_at (bits : bitvec) (i v : Z) : outcome bitvec :=
  x ← slice_get bits i; slice_set bits i (Z.lor x v).

Definition bits_set (bits : bitvec) (pos : Z) : outcome bitvec := or_at bits (pos / 8) (Z.shiftr 128 (pos mod 8)).

Definition bits_set8 (bits : bitvec) (pos : Z) : outcome bitvec :=
  bits ← or_at bits (pos / 8) (Z.shiftr 255 (pos mod 8));
  or_at bits (pos / 8 + 1) (255 - Z.shiftr 255 (pos mod 8)).

Definition codeSegment (bits : bitvec) (pos : Z) : outcome bool :=
  x ← slice_get bits (pos / 8); Ret (Z.land x (Z.shiftr 128 (pos mod 8)) =? 0).

(** The two loops that mark the data of a push: eight at a time, then one by one. *)
Fixpoint mark8 (fuel : nat) (numbits pc : Z) (bits : bitvec) : outcome (Z * Z * bitvec) :=
  match fuel with
  | O => Ret (numbits, pc, bits)
  | S fuel =>
      if 8 <=? numbits then bits ← bits_set8 bits pc; mark8 fuel (numbits - 8) (pc + 8) bits
      else Ret (numbits, pc, bits)
  end.

Fixpoint mark1 (fuel : nat) (numbits pc : Z) (bits : bitvec) : outcome (Z * bitvec) :=
  match fuel with
  | O => Ret (pc, bits)
  | S fuel =>
      if 0 <? numbits then bits ← bits_set bits pc; mark1 fuel (numbits - 1) (pc + 1) bits
      else Ret (pc, bits)
  end.

(** At most 32 data bytes: four rounds of the first loop and seven of the second. *)
Fixpoint bitmap_loop (fuel : nat) (code : bytes) (pc : Z) (bits : bitvec) : outcome bitvec :=
  match fuel with
  | O => Ret bits
  | S fuel =>
      if pc <? lenZ code then
        op ← slice_get code pc;
        if (PUSH1 <=? op) && (op <=? PUSH32) then
          r ← mark8 5 (op - PUSH1 + 1) (pc + 1) bits;
          let '(numbits, pc, bits) := r in
          r ← mark1 8 numbits pc bits;
          let '(pc, bits) := r in
          bitmap_loop fuel code pc bits
        else bitmap_loop fuel code (pc + 1) bits
      else Ret bits
  end.

Definition codeBitmap (code : bytes) : outcome bitvec :=
  bitmap_loop (length code) code 0 (replicate (length code / 8 + 1 + 4) 0).

(** The analyses of the codes seen so far, by code hash.  The code that was analysed is
    kept next to its analysis, so that a different code with the same hash shows: Go would
    use the wrong analysis, and the model gives [None]. *)
Abbreviation destinations := (gmap bytes (bytes * bitvec)).

Definition analysis (d : destinations) (codehash code : bytes) : outcome (option (bitvec * destinations)) :=
  match d !! codehash with
  | Some (code', m) => Ret (if bool_decide (code' = code) then Some (m, d) else None)
  | None => m ← codeBitmap code; Ret (Some (m, <[codehash := (code, m)]> d))
  end.

Definition dests_has (d : destinations) (codehash code : bytes) (dest : Z) : outcome (option (bool * destinations)) :=
  let udest := Uint64 dest in
  if (63 <=? BitLen dest) || (lenZ code <=? udest) then Ret (Some (false, d))
  else
    r ← analysis d codehash code;
    match r with
    | None => Ret None
    | Some (m, d) =>
        op ← slice_get code udest;
        if op =? JUMPDEST then b ← codeSegment m udest; Ret (Some (b, d)) else Ret (Some (false, d))
    end.
