(* ===== verification/VmMachine.v ===== *)
(** * The state of the virtual machine and the prices of its instructions
      (core/vm/contract.go, interface.go, gas.go, gas_table.go, memory_table.go, params)

    The machine works on a state database that it knows only through the interface
    [vm.StateDB].  A frame is a running contract with its program counter, stack and
    memory.  A run may also end for lack of fuel, or because two different codes with the
    same hash meet in the cache of analyses; neither is a value or a panic. *)

From Stdlib Require Import ZArith Lia ZifyBool.
From stdpp Require Import base tactics strings numbers gmap list.
From S2P Require Import Prelude Rlp Trie TrieDb.
From S2P Require Import StateObject VmBase.

Local Open Scope Z_scope.
Local Open Scope record_scope.

(** ** Runs *)

Inductive vres (A : Type) := Done (a : A) | Crash (why : string) | Fuel | Collision.
Arguments Done {A} a.
Arguments Crash {A} why.
Arguments Fuel {A}.
Arguments Collision {A}.

Definition rM (S A : Type) : Type := S → vres (A * S).

#[global] Instance rM_ret {S} : MRet (rM S) := λ A a s, Done (a, s).
#[global] Instance rM_bind {S} : MBind (rM S) := λ A B f m s,
  match m s with Done (a, s') => f a s' | Crash w => Crash w | Fuel => Fuel | Collision => Collision end.

Definition rget {S} : rM S S := λ s, Done (s, s).
Definition rput {S} (s : S) : rM S () := λ _, Done ((), s).
Definition rmod {S} (f : S → S) : rM S () := λ s, Done ((), f s).
Definition rlift {S A} (m : outcome A) : rM S A := λ s, match m with Ret a => Done (a, s) | Panic w => Crash w end.

(** ** Chain parameters *)

Record ChainConfig := mkChainConfig {
  cc_HomesteadBlock : option Z;
  cc_EIP150Block : option Z;
  cc_EIP158Block : option Z;
  cc_ByzantiumBlock : option Z;
  cc_ConstantinopleBlock : option Z
}.

Definition isForked (s : option Z) (head : Z) : bool := match s with None => false | Some s => s <=? head end.

Definition IsHomestead (c : ChainConfig) : Z → bool := isForked (cc_HomesteadBlock c).
Definition IsEIP150 (c : ChainConfig) : Z → bool := isForked (cc_EIP150Block c).
Definition IsEIP158 (c : ChainConfig) : Z → bool := isForked (cc_EIP158Block c).
Definition IsByzantium (c : ChainConfig) : Z → bool := isForked (cc_ByzantiumBlock c).
Definition IsConstantinople (c : ChainConfig) : Z → bool := isForked (cc_ConstantinopleBlock c).

Record GasTable := mkGasTable {
  gt_ExtcodeSize : Z; gt_ExtcodeCopy : Z; gt_ExtcodeHash : Z; gt_Balance : Z; gt_SLoad : Z; gt_Calls : Z;
  gt_Suicide : Z; gt_ExpByte : Z; gt_CreateBySuicide : Z
}.

Definition GasTableHomestead : GasTable := mkGasTable 20 20 0 20 50 40 0 10 0.
Definition GasTableEIP150 : GasTable := mkGasTable 700 700 0 400 200 700 5000 10 25000.
Definition GasTableEIP158 : GasTable := mkGasTable 700 700 0 400 200 700 5000 50 25000.

(** The table for Constantinople is not among the cases. *)
Definition GasTable_of (c : ChainConfig) (num : Z) : GasTable :=
  if IsEIP158 c num then GasTableEIP158
  else if IsEIP150 c num then GasTableEIP150
  else GasTableHomestead.

Definition MainnetChainConfig : ChainConfig := mkChainConfig (Some 0) (Some 0) (Some 0) (Some 0) None.

(** *** Prices *)

Definition GasQuickStep : Z := 2.
Definition GasFastestStep : Z := 3.
Definition GasFastStep : Z := 5.
Definition GasMidStep : Z := 8.
Definition GasSlowStep : Z := 10.
Definition GasExtStep : Z := 20.
Definition CallValueTransferGas : Z := 9000.
Definition CallNewAccountGas : Z := 25000.
Definition QuadCoeffDiv : Z := 512.
Definition LogDataGas : Z := 8.
Definition CallStipend : Z := 2300.
Definition Sha3Gas : Z := 30.
Definition Sha3WordGas : Z := 6.
Definition SstoreSetGas : Z := 20000.
Definition SstoreResetGas : Z := 5000.
Definition SstoreClearGas : Z := 5000.
Definition SstoreRefundGas : Z := 15000.
Definition JumpdestGas : Z := 1.
Definition CreateDataGas : Z := 200.
Definition CallCreateDepth : Z := 1024.
Definition LogGas : Z := 375.
Definition CopyGas : Z := 3.
Definition LogTopicGas : Z := 375.
Definition CreateGas : Z := 32000.
Definition Create2Gas : Z := 32000.
Definition SuicideRefundGas : Z := 24000.
Definition MemoryGas : Z := 3.
Definition MaxCodeSize : Z := 24576.

(** ** The state database, as the machine sees it *)

Class VmState (S : Type) := {
  v_CreateAccount : bytes → stM S ();
  v_SubBalance : bytes → Z → stM S ();
  v_AddBalance : bytes → Z → stM S ();
  v_GetBalance : bytes → stM S Z;
  v_GetNonce : bytes → stM S Z;
  v_SetNonce : bytes → Z → stM S ();
  v_GetCodeHash : bytes → stM S bytes;
  v_GetCode : bytes → stM S (option bytes);
  v_SetCode : bytes → option bytes → stM S ();
  v_GetCodeSize : bytes → stM S Z;
  v_AddRefund : Z → stM S ();
  v_GetRefund : stM S Z;
  v_GetState : bytes → bytes → stM S bytes;
  v_SetState : bytes → bytes → bytes → stM S ();
  v_Suicide : bytes → stM S bool;
  v_HasSuicided : bytes → stM S bool;
  v_Exist : bytes → stM S bool;
  v_Empty : bytes → stM S bool;
  v_RevertToSnapshot : Z → stM S ();
  v_Snapshot : stM S Z;
  v_AddLog : Log → stM S ();
  v_AddPreimage : bytes → bytes → stM S ()
}.

(** core/evm.go *)
Definition CanTransfer {S} `{VmState S} (addr : bytes) (amount : Z) : stM S bool :=
  b ← v_GetBalance addr; mret (amount <=? b).

Definition Transfer {S} `{VmState S} (sender recipient : bytes) (amount : Z) : stM S () :=
  v_SubBalance sender amount;; v_AddBalance recipient amount.

(** ** Contracts *)

Record Contract := mkContract {
  c_CallerAddress : bytes;
  c_self : bytes;
  c_Code : bytes;
  c_CodeHash : bytes;
  c_CodeAddr : option bytes;
  c_Input : bytes;
  c_Gas : Z;
  c_value : Z;
  c_DelegateCall : bool
}.

#[global] Instance Contract_set : Settable Contract := {| rec_eta := λ c,
  mkContract (c_CallerAddress c) (c_self c) (c_Code c) (c_CodeHash c) (c_CodeAddr c) (c_Input c) (c_Gas c)
    (c_value c) (c_DelegateCall c) |}.

(** Who calls: an account, or a running contract. *)
Inductive ContractRef := AccountRef (a : bytes) | ContractOf (c : Contract).

Definition ref_Address (r : ContractRef) : bytes := match r with AccountRef a => a | ContractOf c => c_self c end.

(** The map of jump destinations is that of the caller: it is in the machine. *)
Definition NewContract (caller : ContractRef) (object : bytes) (value gas : Z) : Contract :=
  mkContract (ref_Address caller) object [] zeroHash None [] gas value false.

(** [AsDelegate]: the caller of a delegate call must be a contract. *)
Definition AsDelegate (caller : ContractRef) (c : Contract) : outcome Contract :=
  match caller with
  | AccountRef _ => Panic "interface conversion"
  | ContractOf parent =>
      Ret (c<| c_DelegateCall := true |><| c_CallerAddress := c_CallerAddress parent |><| c_value := c_value parent |>)
  end.

Definition GetByte (c : Contract) (n : Z) : Z := if n <? lenZ (c_Code c) then default 0 (c_Code c !! Z.to_nat n) else 0.

Definition GetOp : Contract → Z → Z := GetByte.

Definition UseGas (gas : Z) (c : Contract) : option Contract :=
  if c_Gas c <? gas then None else Some (c<| c_Gas := u64 (c_Gas c - gas) |>).

Definition SetCallCode (addr : bytes) (hash code : bytes) (c : Contract) : Contract :=
  c<| c_Code := code |><| c_CodeHash := hash |><| c_CodeAddr := Some addr |>.

(** ** The machine *)

Record Context := mkContext {
  x_GetHash : Z → bytes;
  x_Origin : bytes;
  x_GasPrice : Z;
  x_Coinbase : bytes;
  x_GasLimit : Z;
  x_BlockNumber : Z;
  x_Time : Z;
  x_Difficulty : Z;
  x_chainConfig : ChainConfig;
  x_NoRecursion : bool;
  x_EnablePreimageRecording : bool
}.

(** [e_aborts] is what the loads of the abort flag will see, which another goroutine sets.
    The read-only flag and the return data belong to the interpreter. *)
Record EVM (S : Type) := mkEVM {
  e_ctx : Context;
  e_state : S;
  e_depth : Z;
  e_callGasTemp : Z;
  e_readOnly : bool;
  e_returnData : bytes;
  e_jumpdests : destinations;
  e_aborts : list bool
}.
Arguments mkEVM {S}.
Arguments e_ctx {S}.
Arguments e_state {S}.
Arguments e_depth {S}.
Arguments e_callGasTemp {S}.
Arguments e_readOnly {S}.
Arguments e_returnData {S}.
Arguments e_jumpdests {S}.
Arguments e_aborts {S}.

#[global] Instance EVM_set {S} : Settable (EVM S) := {| rec_eta := λ e,
  mkEVM (e_ctx e) (e_state e) (e_depth e) (e_callGasTemp e) (e_readOnly e) (e_returnData e) (e_jumpdests e)
    (e_aborts e) |}.

(** A new machine; [aborts] is what the loads of the flag [abort] will return. *)
Definition NewEVM {S} (ctx : Context) (statedb : S) (aborts : list bool) : EVM S :=
  mkEVM ctx statedb 0 0 false [] ∅ aborts.

Record frame (S : Type) := mkFrame {
  f_pc : Z;
  f_stack : list Z;
  f_mem : Memory;
  f_contract : Contract;
  f_evm : EVM S
}.
Arguments mkFrame {S}.
Arguments f_pc {S}.
Arguments f_stack {S}.
Arguments f_mem {S}.
Arguments f_contract {S}.
Arguments f_evm {S}.

#[global] Instance frame_set {S} : Settable (frame S) := {| rec_eta := λ f,
  mkFrame (f_pc f) (f_stack f) (f_mem f) (f_contract f) (f_evm f) |}.

(** ** Results with an error: [x, err := m; if err != nil { return 0, err }] *)

Definition ebind {S A B} (m : rM S (A + vmErr)) (f : A → rM S (B + vmErr)) : rM S (B + vmErr) :=
  r ← m;
  match r with inl a => f a | inr e => mret (inr e) end.

Declare Scope vm_scope.
Notation "x ←! m ; k" := (ebind m (λ x, k)) (at level 20, m at level 100, k at level 200, right associativity) : vm_scope.
Local Open Scope vm_scope.

Section gas.
  Context {S : Type} {VS : VmState S}.

Local Abbreviation FM := (rM (frame S)).

Definition ok {A} (a : A) : FM (A + vmErr) := mret (inl a).
Definition fail {A} (e : vmErr) : FM (A + vmErr) := mret (inr e).

(** A call of the state database. *)
Definition state_op {A} (m : stM S A) : FM A := λ f,
  match m (e_state (f_evm f)) with
  | Ret (a, s) => Done (a, f<| f_evm ::= λ e, e<| e_state := s |> |>)
  | Panic w => Crash w
  end.

Definition Back (n : nat) : FM Z := f ← rget; rlift (stack_Back (f_stack f) n).

Definition the_ctx : FM Context := f ← rget; mret (e_ctx (f_evm f)).

(** A rule of the chain at the current block. *)
Definition rule (r : ChainConfig → Z → bool) : FM bool :=
  x ← the_ctx; mret (r (x_chainConfig x) (x_BlockNumber x)).

(** [if gas, overflow = math.SafeAdd(gas, x); overflow { return 0, errGasUintOverflow }] *)
Definition safe_add (gas x : Z) : FM (Z + vmErr) :=
  let '(r, overflow) := SafeAdd gas x in if overflow : bool then fail errGasUintOverflow else ok r.

Definition safe_mul (a b : Z) : FM (Z + vmErr) :=
  let '(r, overflow) := SafeMul a b in if overflow : bool then fail errGasUintOverflow else ok r.

Definition big_uint64 (v : Z) : FM (Z + vmErr) :=
  let '(r, overflow) := bigUint64 v in if overflow : bool then fail errGasUintOverflow else ok r.

(** ** Prices *)

(** The limit is [0xffffffffe0]. *)
Definition memoryGasCost (newMemSize : Z) : FM (Z + vmErr) :=
  if newMemSize =? 0 then ok 0
  else if 1099511627744 <? newMemSize then fail errGasUintOverflow
  else
    let newMemSizeWords := toWordSize newMemSize in
    let newMemSize := u64 (newMemSizeWords * 32) in
    f ← rget;
    let mem := f_mem f in
    if mem_Len mem <? newMemSize then
      let square := u64 (newMemSizeWords * newMemSizeWords) in
      let linCoef := u64 (newMemSizeWords * MemoryGas) in
      let quadCoef := square / QuadCoeffDiv in
      let newTotalFee := u64 (linCoef + quadCoef) in
      let fee := u64 (newTotalFee - m_lastGasCost mem) in
      rmod (λ f, f<| f_mem := mkMemory (m_store mem) newTotalFee |>);;
      ok fee
    else ok 0.

Abbreviation gasFunc := (GasTable → Z → FM (Z + vmErr)).

Definition constGasFunc (gas : Z) : gasFunc := λ _ _, ok gas.

(** The price of an instruction that copies or hashes [Back(n)] bytes. *)
Definition words_gas (base perWord : Z) (n : nat) (memorySize : Z) : FM (Z + vmErr) :=
  gas ←! memoryGasCost memorySize;
  gas ←! safe_add gas base;
  size ← Back n;
  words ←! big_uint64 size;
  words ←! safe_mul (toWordSize words) perWord;
  safe_add gas words.

Definition gasCallDataCopy : gasFunc := λ _ memorySize, words_gas GasFastestStep CopyGas 2 memorySize.
Definition gasReturnDataCopy : gasFunc := λ _ memorySize, words_gas GasFastestStep CopyGas 2 memorySize.
Definition gasSha3 : gasFunc := λ _ memorySize, words_gas Sha3Gas Sha3WordGas 1 memorySize.
Definition gasCodeCopy : gasFunc := λ _ memorySize, words_gas GasFastestStep CopyGas 2 memorySize.
Definition gasExtCodeCopy : gasFunc := λ gt memorySize, words_gas (gt_ExtcodeCopy gt) CopyGas 3 memorySize.

Definition gasSStore : gasFunc := λ _ _,
  y ← Back 1;
  x ← Back 0;
  f ← rget;
  val ← state_op (v_GetState (c_self (f_contract f)) (BigToHash x));
  if bool_decide (val = zeroHash) && negb (y =? 0) then ok SstoreSetGas
  else if negb (bool_decide (val = zeroHash)) && (y =? 0) then
    state_op (v_AddRefund SstoreRefundGas);; ok SstoreClearGas
  else ok SstoreResetGas.

Definition makeGasLog (n : Z) : gasFunc := λ _ memorySize,
  size ← Back 1;
  requestedSize ←! big_uint64 size;
  gas ←! memoryGasCost memorySize;
  gas ←! safe_add gas LogGas;
  gas ←! safe_add gas (u64 (n * LogTopicGas));
  memorySizeGas ←! safe_mul requestedSize LogDataGas;
  safe_add gas memorySizeGas.

Definition gasExtCodeHash : gasFunc := λ gt _, ok (gt_ExtcodeHash gt).

(** The memory and a constant; every error is [errGasUintOverflow]. *)
Definition memory_gas (base : Z) (memorySize : Z) : FM (Z + vmErr) :=
  gas ←! memoryGasCost memorySize; safe_add gas base.

Definition gasMLoad : gasFunc := λ _, memory_gas GasFastestStep.
Definition gasMStore8 : gasFunc := λ _, memory_gas GasFastestStep.
Definition gasMStore : gasFunc := λ _, memory_gas GasFastestStep.
Definition gasCreate : gasFunc := λ _, memory_gas CreateGas.
Definition gasCreate2 : gasFunc := λ _, memory_gas Create2Gas.

Definition gasBalance : gasFunc := λ gt _, ok (gt_Balance gt).
Definition gasExtCodeSize : gasFunc := λ gt _, ok (gt_ExtcodeSize gt).
Definition gasSLoad : gasFunc := λ gt _, ok (gt_SLoad gt).

Definition gasExp : gasFunc := λ gt _,
  e ← Back 1;
  let expByteLen := (BitLen e + 7) / 8 in
  safe_add (u64 (expByteLen * gt_ExpByte gt)) GasSlowStep.

(** All but one 64th of what is left after the base price, or what was asked for. *)
Definition callGas (gt : GasTable) (availableGas base callCost : Z) : Z + vmErr :=
  let plain := if 64 <? BitLen callCost then inr errGasUintOverflow else inl (Uint64 callCost) in
  if 0 <? gt_CreateBySuicide gt then
    let availableGas := u64 (availableGas - base) in
    let gas := availableGas - availableGas / 64 in
    if (64 <? BitLen callCost) || (gas <? Uint64 callCost) then inl gas else plain
  else plain.

(** The end of the prices of calls: [callGasTemp] is set even when there is an error. *)
Definition call_gas (gt : GasTable) (gas : Z) : FM (Z + vmErr) :=
  f ← rget;
  requested ← Back 0;
  match callGas gt (c_Gas (f_contract f)) gas requested with
  | inr e => rmod (λ f, f<| f_evm ::= λ e, e<| e_callGasTemp := 0 |> |>);; fail e
  | inl temp => rmod (λ f, f<| f_evm ::= λ e, e<| e_callGasTemp := temp |> |>);; safe_add gas temp
  end.

Definition gasCall : gasFunc := λ gt memorySize,
  value ← Back 2;
  addr ← Back 1;
  eip158 ← rule IsEIP158;
  let transfersValue := negb (value =? 0) in
  let address := BigToAddress addr in
  fresh ← (if eip158 : bool then
             if transfersValue then state_op (v_Empty address) else mret false
           else b ← state_op (v_Exist address); mret (negb b));
  let gas := if fresh : bool then u64 (gt_Calls gt + CallNewAccountGas) else gt_Calls gt in
  let gas := if transfersValue then u64 (gas + CallValueTransferGas) else gas in
  memoryGas ←! memoryGasCost memorySize;
  gas ←! safe_add gas memoryGas;
  call_gas gt gas.

Definition gasCallCode : gasFunc := λ gt memorySize,
  value ← Back 2;
  let gas := if value =? 0 then gt_Calls gt else u64 (gt_Calls gt + CallValueTransferGas) in
  memoryGas ←! memoryGasCost memorySize;
  gas ←! safe_add gas memoryGas;
  call_gas gt gas.

Definition gasReturn : gasFunc := λ _, memoryGasCost.
Definition gasRevert : gasFunc := λ _, memoryGasCost.

Definition gasSuicide : gasFunc := λ gt _,
  f ← rget;
  let self := c_self (f_contract f) in
  eip150 ← rule IsEIP150;
  gas ← (if eip150 : bool then
           to ← Back 0;
           eip158 ← rule IsEIP158;
           fresh ← (if eip158 : bool then
                      e ← state_op (v_Empty (BigToAddress to));
                      if e : bool then b ← state_op (v_GetBalance self); mret (negb (b =? 0)) else mret false
                    else b ← state_op (v_Exist (BigToAddress to)); mret (negb b));
           mret (if fresh : bool then u64 (gt_Suicide gt + gt_CreateBySuicide gt) else gt_Suicide gt)
         else mret 0);
  gone ← state_op (v_HasSuicided self);
  (if gone : bool then mret () else state_op (v_AddRefund SuicideRefundGas));;
  ok gas.

Definition gasDelegateCall : gasFunc := λ gt memorySize,
  gas ←! memoryGasCost memorySize;
  gas ←! safe_add gas (gt_Calls gt);
  call_gas gt gas.

Definition gasStaticCall : gasFunc := λ gt memorySize,
  gas ←! memoryGasCost memorySize;
  gas ←! safe_add gas (gt_Calls gt);
  call_gas gt gas.

Definition gasPush : gasFunc := λ _ _, ok GasFastestStep.
Definition gasSwap : gasFunc := λ _ _, ok GasFastestStep.
Definition gasDup : gasFunc := λ _ _, ok GasFastestStep.

(** ** The memory that an instruction touches *)

Abbreviation memorySizeFunc := (FM Z).

Definition mem_size (off len : nat) : memorySizeFunc := o ← Back off; l ← Back len; mret (calcMemSize o l).

Definition memorySha3 : memorySizeFunc := mem_size 0 1.
Definition memoryCallDataCopy : memorySizeFunc := mem_size 0 2.
Definition memoryReturnDataCopy : memorySizeFunc := mem_size 0 2.
Definition memoryCodeCopy : memorySizeFunc := mem_size 0 2.
Definition memoryExtCodeCopy : memorySizeFunc := mem_size 1 3.
Definition memoryMLoad : memorySizeFunc := o ← Back 0; mret (calcMemSize o 32).
Definition memoryMStore8 : memorySizeFunc := o ← Back 0; mret (calcMemSize o 1).
Definition memoryMStore : memorySizeFunc := o ← Back 0; mret (calcMemSize o 32).
Definition memoryCreate : memorySizeFunc := mem_size 1 2.
Definition memoryCreate2 : memorySizeFunc := mem_size 1 2.
Definition memoryCall : memorySizeFunc := x ← mem_size 5 6; y ← mem_size 3 4; mret (BigMax x y).
Definition memoryDelegateCall : memorySizeFunc := x ← mem_size 4 5; y ← mem_size 2 3; mret (BigMax x y).
Definition memoryStaticCall : memorySizeFunc := x ← mem_size 4 5; y ← mem_size 2 3; mret (BigMax x y).
Definition memoryReturn : memorySizeFunc := mem_size 0 1.
Definition memoryRevert : memorySizeFunc := mem_size 0 1.
Definition memoryLog : memorySizeFunc := mem_size 0 1.
End gas.
