(* ===== verification/VmContracts.v ===== *)
(** * Precompiled contracts and contract addresses (core/vm/contracts.go, crypto/crypto.go)

    The hash functions, the recovery of public keys and the arithmetic of the pairing curve
    are parameters; the prices and the treatment of the inputs are the code's. *)

From Stdlib Require Import ZArith Lia ZifyBool Zpow_facts.
From stdpp Require Import base tactics strings numbers gmap list.
From S2P Require Import Prelude Rlp Trie TrieDb.
From S2P Require Import StateObject VmBase.

Local Open Scope Z_scope.

(** [NewNeatScriptAddr] is the base58 form of a hash, cut to 32 characters. *)
Class CryptoLib := {
  sha256_Sum256 : bytes → bytes;
  ripemd160_Sum : bytes → bytes;
  crypto_Ecrecover : bytes → bytes → option bytes;
  bn256_G1_ok : bytes → bool;
  bn256_G2_ok : bytes → bool;
  bn256_G1_Add : bytes → bytes → bytes;
  bn256_G1_ScalarMult : bytes → Z → bytes;
  bn256_PairingCheck : list bytes → list bytes → bool;
  NewNeatScriptAddr : bytes → bytes
}.

Section contracts.
  Context {KL : KeccakLib} {CL : CryptoLib}.

(** ** Addresses of new contracts *)

Definition CreateAddress (b : bytes) (nonce : Z) : bytes :=
  BytesToAddress (NewNeatScriptAddr
    (encode_or_nil (TSlice TIface) (VList [VIface hash_ty (VBytes b); VIface (TUint 64) (VUint nonce)]))).

Definition CreateAddress2 (b salt inithash : bytes) : bytes :=
  BytesToAddress (NewNeatScriptAddr (keccak256 ([255] ++ b ++ salt ++ inithash))).

(** ** Precompiled contracts *)

Inductive PrecompiledContract :=
| ecrecover | sha256hash | ripemd160hash | dataCopy | bigModExp | bn256Add | bn256ScalarMul | bn256Pairing.

Definition EcrecoverGas : Z := 3000.
Definition Sha256BaseGas : Z := 60.
Definition Sha256PerWordGas : Z := 12.
Definition Ripemd160BaseGas : Z := 600.
Definition Ripemd160PerWordGas : Z := 120.
Definition IdentityBaseGas : Z := 15.
Definition IdentityPerWordGas : Z := 3.
Definition ModExpQuadCoeffDiv : Z := 20.
Definition Bn256AddGas : Z := 500.
Definition Bn256ScalarMulGas : Z := 40000.
Definition Bn256PairingBaseGas : Z := 100000.
Definition Bn256PairingPerPointGas : Z := 80000.

Definition PrecompiledContractsHomestead (addr : bytes) : option PrecompiledContract :=
  if bool_decide (addr = BytesToAddress [1]) then Some ecrecover
  else if bool_decide (addr = BytesToAddress [2]) then Some sha256hash
  else if bool_decide (addr = BytesToAddress [3]) then Some ripemd160hash
  else if bool_decide (addr = BytesToAddress [4]) then Some dataCopy
  else None.

Definition PrecompiledContractsByzantium (addr : bytes) : option PrecompiledContract :=
  if bool_decide (addr = BytesToAddress [5]) then Some bigModExp
  else if bool_decide (addr = BytesToAddress [6]) then Some bn256Add
  else if bool_decide (addr = BytesToAddress [7]) then Some bn256ScalarMul
  else if bool_decide (addr = BytesToAddress [8]) then Some bn256Pairing
  else PrecompiledContractsHomestead addr.

(** The price of a number of words; [len(input)+31] is an [int]. *)
Definition per_word (input : bytes) (perWord base : Z) : Z := u64 (u64 (u64 (lenZ input + 31) / 32 * perWord) + base).

(** [input = input[96:]], or empty. *)
Definition after_header (input : bytes) : bytes := if 96 <? lenZ input then drop 96 input else [].

Definition modexp_complexity (x : Z) : Z :=
  if x <=? 64 then x * x
  else if x <=? 1024 then x * x / 4 + (96 * x - 3072)
  else x * x / 16 + (480 * x - 199680).

Definition modexp_gas (input : bytes) : outcome Z :=
  baseLen ← getData input 0 32;
  expLen ← getData input 32 32;
  modLen ← getData input 64 32;
  let baseLen := be_val baseLen in
  let expLen := be_val expLen in
  let modLen := be_val modLen in
  let input := after_header input in
  expHead ← (if lenZ input <=? baseLen then Ret 0
             else h ← getData input (Uint64 baseLen) (if 32 <? expLen then 32 else Uint64 expLen); Ret (be_val h));
  let msb := if 0 <? BitLen expHead then BitLen expHead - 1 else 0 in
  let adjExpLen := (if 32 <? expLen then 8 * (expLen - 32) else 0) + msb in
  let gas := modexp_complexity (BigMax modLen baseLen) * BigMax adjExpLen 1 / ModExpQuadCoeffDiv in
  Ret (if 64 <? BitLen gas then MaxUint64 else Uint64 gas).

Definition RequiredGas (p : PrecompiledContract) (input : bytes) : outcome Z :=
  match p with
  | ecrecover => Ret EcrecoverGas
  | sha256hash => Ret (per_word input Sha256PerWordGas Sha256BaseGas)
  | ripemd160hash => Ret (per_word input Ripemd160PerWordGas Ripemd160BaseGas)
  | dataCopy => Ret (per_word input IdentityPerWordGas IdentityBaseGas)
  | bigModExp => modexp_gas input
  | bn256Add => Ret Bn256AddGas
  | bn256ScalarMul => Ret Bn256ScalarMulGas
  | bn256Pairing => Ret (u64 (Bn256PairingBaseGas + u64 (lenZ input / 192 * Bn256PairingPerPointGas)))
  end.

Definition secp256k1N : Z := 115792089237316195423570985008687907852837564279074904382605163141518161494337.
Definition secp256k1halfN : Z := secp256k1N / 2.

Definition ValidateSignatureValues (v r s : Z) (homestead : bool) : bool :=
  if (r <? 1) || (s <? 1) then false
  else if homestead && (secp256k1halfN <? s) then false
  else (r <? secp256k1N) && (s <? secp256k1N) && ((v =? 0) || (v =? 1)).

Definition run_ecrecover (input : bytes) : outcome (bytes + vmErr) :=
  input ← RightPadBytes input 128;
  rb ← slice input 64 96;
  sb ← slice input 96 128;
  b ← slice_get input 63;
  pad ← slice input 32 63;
  let v := (b - 27) mod 256 in
  if negb (allZero pad) || negb (ValidateSignatureValues v (be_val rb) (be_val sb) false) then Ret (inl [])
  else
    hash ← slice input 0 32;
    sig ← slice input 64 128;
    match crypto_Ecrecover hash (sig ++ [v]) with
    | None => Ret (inl [])
    | Some pubKey =>
        p ← slice pubKey 1 (lenZ pubKey);
        h ← slice (keccak256 p) 12 (lenZ (keccak256 p));
        r ← LeftPadBytes h 32;
        Ret (inl r)
    end.

Definition run_modexp (input : bytes) : outcome (bytes + vmErr) :=
  baseLen ← getData input 0 32;
  expLen ← getData input 32 32;
  modLen ← getData input 64 32;
  let baseLen := Uint64 (be_val baseLen) in
  let expLen := Uint64 (be_val expLen) in
  let modLen := Uint64 (be_val modLen) in
  let input := after_header input in
  if (baseLen =? 0) && (modLen =? 0) then Ret (inl [])
  else
    base ← getData input 0 baseLen;
    e ← getData input baseLen expLen;
    m ← getData input (u64 (baseLen + expLen)) modLen;
    r ← (if be_val m =? 0 then LeftPadBytes [] (i64 modLen)
         else LeftPadBytes (big_Bytes (Zpow_mod (be_val base) (be_val e) (be_val m) mod be_val m)) (i64 modLen));
    Ret (inl r).

(** The points of a pairing check: 64 and 128 bytes each. *)
Fixpoint pairing_points (fuel : nat) (input : bytes) : option (list bytes * list bytes) :=
  match fuel, input with
  | _, [] => Some ([], [])
  | O, _ => None
  | S fuel, _ =>
      let c := take 64 input in
      let t := take 128 (drop 64 input) in
      if bn256_G1_ok c && bn256_G2_ok t then
        '(cs, ts) ← pairing_points fuel (drop 192 input);
        Some (c :: cs, t :: ts)
      else None
  end.

Definition run_pairing (input : bytes) : outcome (bytes + vmErr) :=
  if 0 <? lenZ input mod 192 then Ret (inr errBadPairingInput)
  else
    match pairing_points (length input) input with
    | None => Ret (inr errBn256)
    | Some (cs, ts) => Ret (inl (replicate 31 0 ++ [if bn256_PairingCheck cs ts then 1 else 0]))
    end.

Definition run_bn256Add (input : bytes) : outcome (bytes + vmErr) :=
  x ← getData input 0 64;
  y ← getData input 64 64;
  if bn256_G1_ok x && bn256_G1_ok y then Ret (inl (bn256_G1_Add x y)) else Ret (inr errBn256).

Definition run_bn256ScalarMul (input : bytes) : outcome (bytes + vmErr) :=
  p ← getData input 0 64;
  if bn256_G1_ok p then
    k ← getData input 64 32;
    Ret (inl (bn256_G1_ScalarMult p (be_val k)))
  else Ret (inr errBn256).

Definition precompile_Run (p : PrecompiledContract) (input : bytes) : outcome (bytes + vmErr) :=
  match p with
  | ecrecover => run_ecrecover input
  | sha256hash => Ret (inl (sha256_Sum256 input))
  | ripemd160hash => r ← LeftPadBytes (ripemd160_Sum input) 32; Ret (inl r)
  | dataCopy => Ret (inl input)
  | bigModExp => run_modexp input
  | bn256Add => run_bn256Add input
  | bn256ScalarMul => run_bn256ScalarMul input
  | bn256Pairing => run_pairing input
  end.
End contracts.
