(* ===== verification/VmInstr.v ===== *)
(** * Instructions, calls and the interpreter (core/vm/instructions.go, evm.go,
      jump_table.go, opcodes.go, interpreter.go)

    Every instruction is a step on the frame.  Calls and creations run another contract:
    the function that runs it is an argument here, and the knot is tied at the end with
    fuel, one unit per nested call and one per instruction.  The pool of integers of the
    machine only saves allocations and is left out, and so is the tracer. *)

From Stdlib Require Import ZArith Lia ZifyBool.
From stdpp Require Import base tactics strings numbers gmap list.
From S2P Require Import Prelude Rlp Trie TrieDb.
From S2P Require Import StateObject VmBase VmMachine VmContracts.

Local Open Scope Z_scope.
Local Open Scope record_scope.
Local Open Scope vm_scope.

(** ** Opcodes *)

Module Op.
Inductive t :=
| STOP | ADD | MUL | SUB | DIV | SDIV | MOD | SMOD | ADDMOD | MULMOD | EXP | SIGNEXTEND
| LT | GT | SLT | SGT | EQ | ISZERO | AND | OR | XOR | NOT | BYTE | SHL | SHR | SAR | SHA3
| ADDRESS | BALANCE | ORIGIN | CALLER | CALLVALUE | CALLDATALOAD | CALLDATASIZE | CALLDATACOPY
| CODESIZE | CODECOPY | GASPRICE | EXTCODESIZE | EXTCODECOPY | RETURNDATASIZE | RETURNDATACOPY | EXTCODEHASH
| BLOCKHASH | COINBASE | TIMESTAMP | NUMBER | DIFFICULTY | GASLIMIT
| POP | MLOAD | MSTORE | MSTORE8 | SLOAD | SSTORE | JUMP | JUMPI | PC | MSIZE | GAS | JUMPDEST
| PUSH (n : nat) | DUP (n : nat) | SWAP (n : nat) | LOG (n : nat)
| CREATE | CALL | CALLCODE | RETURN | DELEGATECALL | CREATE2 | STATICCALL | REVERT | SELFDESTRUCT.
End Op.

Definition low_ops : list Op.t :=
  [Op.STOP; Op.ADD; Op.MUL; Op.SUB; Op.DIV; Op.SDIV; Op.MOD; Op.SMOD; Op.ADDMOD; Op.MULMOD; Op.EXP; Op.SIGNEXTEND].
Definition bit_ops : list Op.t :=
  [Op.LT; Op.GT; Op.SLT; Op.SGT; Op.EQ; Op.ISZERO; Op.AND; Op.OR; Op.XOR; Op.NOT; Op.BYTE; Op.SHL; Op.SHR; Op.SAR].
Definition closure_ops : list Op.t :=
  [Op.ADDRESS; Op.BALANCE; Op.ORIGIN; Op.CALLER; Op.CALLVALUE; Op.CALLDATALOAD; Op.CALLDATASIZE; Op.CALLDATACOPY;
   Op.CODESIZE; Op.CODECOPY; Op.GASPRICE; Op.EXTCODESIZE; Op.EXTCODECOPY; Op.RETURNDATASIZE; Op.RETURNDATACOPY;
   Op.EXTCODEHASH].
Definition block_ops : list Op.t :=
  [Op.BLOCKHASH; Op.COINBASE; Op.TIMESTAMP; Op.NUMBER; Op.DIFFICULTY; Op.GASLIMIT].
Definition flow_ops : list Op.t :=
  [Op.POP; Op.MLOAD; Op.MSTORE; Op.MSTORE8; Op.SLOAD; Op.SSTORE; Op.JUMP; Op.JUMPI; Op.PC; Op.MSIZE; Op.GAS;
   Op.JUMPDEST].
Definition system_ops : list Op.t :=
  [Op.CREATE; Op.CALL; Op.CALLCODE; Op.RETURN; Op.DELEGATECALL; Op.CREATE2].

(** The opcode of a byte. *)
Definition decode_op (b : Z) : option Op.t :=
  let at_ (base : Z) (l : list Op.t) : option Op.t := if base <=? b then l !! Z.to_nat (b - base) else None in
  if b <? 16 then at_ 0 low_ops
  else if b <? 32 then at_ 16 bit_ops
  else if b =? 32 then Some Op.SHA3
  else if b <? 48 then None
  else if b <? 64 then at_ 48 closure_ops
  else if b <? 80 then at_ 64 block_ops
  else if b <? 96 then at_ 80 flow_ops
  else if b <? 128 then Some (Op.PUSH (Z.to_nat (b - 95)))
  else if b <? 144 then Some (Op.DUP (Z.to_nat (b - 127)))
  else if b <? 160 then Some (Op.SWAP (Z.to_nat (b - 143)))
  else if b <? 165 then Some (Op.LOG (Z.to_nat (b - 160)))
  else if b <? 240 then None
  else if b =? 250 then Some Op.STATICCALL
  else if b =? 253 then Some Op.REVERT
  else if b =? 255 then Some Op.SELFDESTRUCT
  else at_ 240 system_ops.

Section instructions.
  Context {S : Type} {VS : VmState S} {KL : KeccakLib} {CL : CryptoLib}.

Local Abbreviation FM := (rM (frame S)).
Local Abbreviation EM := (rM (EVM S)).

(** What an instruction returns: data and an error. *)
Abbreviation executionFunc := (FM (bytes * option vmErr)).

Definition done_nil : executionFunc := mret ([], None).
Definition done_data (d : bytes) : executionFunc := mret (d, None).
Definition fail_with (e : vmErr) : executionFunc := mret ([], Some e).

(** *** Access to the frame *)

Definition push (x : Z) : FM () := rmod (λ f, f<| f_stack ::= cons x |>).

Definition pop : FM Z :=
  f ← rget;
  r ← rlift (stack_pop (f_stack f));
  rmod (λ f, f<| f_stack := r.2 |>);;
  mret r.1.

Definition the_contract : FM Contract := f ← rget; mret (f_contract f).
Definition the_mem : FM Memory := f ← rget; mret (f_mem f).
Definition the_evm : FM (EVM S) := f ← rget; mret (f_evm f).

Definition mem_update (g : Memory → outcome Memory) : FM () :=
  m ← the_mem; m ← rlift (g m); rmod (λ f, f<| f_mem := m |>).

Definition set_gas (g : Z → Z) : FM () := rmod (λ f, f<| f_contract ::= λ c, c<| c_Gas ::= g |> |>).

Definition evm_op {A} (m : EM A) : FM A := λ f,
  match m (f_evm f) with
  | Done (a, e) => Done (a, f<| f_evm := e |>)
  | Crash w => Crash w
  | Fuel => Fuel
  | Collision => Collision
  end.

(** ** Instructions that compute *)

Definition op1 (g : Z → Z) : executionFunc := x ← pop; push (g x);; done_nil.
Definition op2 (g : Z → Z → Z) : executionFunc := x ← pop; y ← pop; push (g x y);; done_nil.
Definition op3 (g : Z → Z → Z → Z) : executionFunc := x ← pop; y ← pop; z ← pop; push (g x y z);; done_nil.

Definition flag (b : bool) : Z := if b then 1 else 0.

Definition opAdd : executionFunc := op2 (λ x y, U256 (x + y)).
Definition opSub : executionFunc := op2 (λ x y, U256 (x - y)).
Definition opMul : executionFunc := op2 (λ x y, U256 (x * y)).
Definition opDiv : executionFunc := op2 (λ x y, if y =? 0 then 0 else U256 (x / y)).

Definition word_sdiv (x y : Z) : Z :=
  let x := S256 x in
  let y := S256 y in
  if (y =? 0) || (x =? 0) then 0
  else if negb (Z.sgn x =? Z.sgn y) then U256 (- (Z.abs x / Z.abs y))
  else U256 (Z.abs x / Z.abs y).

Definition opSdiv : executionFunc := op2 word_sdiv.
Definition opMod : executionFunc := op2 (λ x y, if y =? 0 then 0 else U256 (x mod y)).

Definition word_smod (x y : Z) : Z :=
  let x := S256 x in
  let y := S256 y in
  if y =? 0 then 0
  else if x <? 0 then U256 (- (Z.abs x mod Z.abs y))
  else U256 (Z.abs x mod Z.abs y).

Definition opSmod : executionFunc := op2 word_smod.
Definition opExp : executionFunc := op2 Exp.

(** Sign extension leaves the second operand on the stack when the first is 31 or more. *)
Definition word_signextend (back num : Z) : Z :=
  let bit := back * 8 + 7 in
  let mask := Z.shiftl 1 bit - 1 in
  if Z.testbit num bit then U256 (Z.lor num (Z.lnot mask)) else U256 (Z.land num mask).

Definition opSignExtend : executionFunc :=
  back ← pop;
  if back <? 31 then num ← pop; push (word_signextend (Uint64 back) num);; done_nil
  else done_nil.

Definition opNot : executionFunc := op1 (λ x, U256 (Z.lnot x)).
Definition opLt : executionFunc := op2 (λ x y, flag (x <? y)).
Definition opGt : executionFunc := op2 (λ x y, flag (y <? x)).

Definition word_slt (x y : Z) : Z :=
  if (tt255 <=? x) && (y <? tt255) then 1
  else if (x <? tt255) && (tt255 <=? y) then 0
  else flag (x <? y).

Definition opSlt : executionFunc := op2 word_slt.

Definition word_sgt (x y : Z) : Z :=
  if (tt255 <=? x) && (y <? tt255) then 0
  else if (x <? tt255) && (tt255 <=? y) then 1
  else flag (y <? x).

Definition opSgt : executionFunc := op2 word_sgt.
Definition opEq : executionFunc := op2 (λ x y, flag (x =? y)).
Definition opIszero : executionFunc := op1 (λ x, flag (x <=? 0)).
Definition opAnd : executionFunc := op2 Z.land.
Definition opOr : executionFunc := op2 Z.lor.
Definition opXor : executionFunc := op2 Z.lxor.
Definition opByte : executionFunc := op2 (λ th val, if th <? 32 then Byte val 32 (Int64 th) else 0).

Definition opAddmod : executionFunc := op3 (λ x y z, if 0 <? z then U256 ((x + y) mod z) else 0).
Definition opMulmod : executionFunc := op3 (λ x y z, if 0 <? z then U256 (x * y mod z) else 0).

Definition opSHL : executionFunc :=
  op2 (λ shift value, if 256 <=? U256 shift then 0 else U256 (Z.shiftl (U256 value) (Uint64 (U256 shift)))).
Definition opSHR : executionFunc :=
  op2 (λ shift value, if 256 <=? U256 shift then 0 else U256 (Z.shiftr (U256 value) (Uint64 (U256 shift)))).

Definition word_sar (shift value : Z) : Z :=
  let shift := U256 shift in
  let value := S256 value in
  if 256 <=? shift then U256 (if 0 <=? value then 0 else -1)
  else U256 (Z.shiftr value (Uint64 shift)).

Definition opSAR : executionFunc := op2 word_sar.

Definition opSha3 : executionFunc :=
  offset ← pop; size ← pop;
  m ← the_mem;
  data ← rlift (mem_Get m (Int64 offset) (Int64 size));
  let hash := keccak256 data in
  x ← the_ctx;
  (if x_EnablePreimageRecording x then state_op (v_AddPreimage (BytesToHash hash) data) else mret ());;
  push (be_val hash);;
  done_nil.

(** ** Instructions that read the surroundings *)

Definition push_of (g : frame S → Z) : executionFunc := f ← rget; push (g f);; done_nil.

Definition opAddress : executionFunc := push_of (λ f, be_val (c_self (f_contract f))).
Definition opOrigin : executionFunc := push_of (λ f, be_val (x_Origin (e_ctx (f_evm f)))).
Definition opCaller : executionFunc := push_of (λ f, be_val (c_CallerAddress (f_contract f))).
Definition opCallValue : executionFunc := push_of (λ f, c_value (f_contract f)).
Definition opCallDataSize : executionFunc := push_of (λ f, lenZ (c_Input (f_contract f))).
Definition opReturnDataSize : executionFunc := push_of (λ f, lenZ (e_returnData (f_evm f))).
Definition opCodeSize : executionFunc := push_of (λ f, lenZ (c_Code (f_contract f))).
Definition opGasprice : executionFunc := push_of (λ f, x_GasPrice (e_ctx (f_evm f))).
Definition opCoinbase : executionFunc := push_of (λ f, be_val (x_Coinbase (e_ctx (f_evm f)))).
Definition opTimestamp : executionFunc := push_of (λ f, U256 (x_Time (e_ctx (f_evm f)))).
Definition opNumber : executionFunc := push_of (λ f, U256 (x_BlockNumber (e_ctx (f_evm f)))).
Definition opDifficulty : executionFunc := push_of (λ f, U256 (x_Difficulty (e_ctx (f_evm f)))).
Definition opGasLimit : executionFunc := push_of (λ f, U256 (x_GasLimit (e_ctx (f_evm f)))).
Definition opPc : executionFunc := push_of f_pc.
Definition opMsize : executionFunc := push_of (λ f, mem_Len (f_mem f)).
Definition opGas : executionFunc := push_of (λ f, c_Gas (f_contract f)).

Definition opBalance : executionFunc :=
  slot ← pop; b ← state_op (v_GetBalance (BigToAddress slot)); push b;; done_nil.

Definition opExtCodeSize : executionFunc :=
  slot ← pop; n ← state_op (v_GetCodeSize (BigToAddress slot)); push (u64 n);; done_nil.

Definition opExtCodeHash : executionFunc :=
  slot ← pop; h ← state_op (v_GetCodeHash (BigToAddress slot)); push (be_val h);; done_nil.

Definition opBlockhash : executionFunc :=
  num ← pop;
  x ← the_ctx;
  push (if (x_BlockNumber x - 257 <? num) && (num <? x_BlockNumber x) then be_val (x_GetHash x (Uint64 num)) else 0);;
  done_nil.

Definition opCallDataLoad : executionFunc :=
  off ← pop; c ← the_contract; d ← rlift (getDataBig (c_Input c) off 32); push (be_val d);; done_nil.

(** ** Instructions on memory *)

(** Copy a part of some data to the memory. *)
Definition copy_data (data : bytes) (memOffset dataOffset length : Z) : executionFunc :=
  d ← rlift (getDataBig data dataOffset length);
  mem_update (λ m, mem_Set m (Uint64 memOffset) (Uint64 length) d);;
  done_nil.

Definition opCallDataCopy : executionFunc :=
  memOffset ← pop; dataOffset ← pop; length ← pop;
  c ← the_contract; copy_data (c_Input c) memOffset dataOffset length.

Definition opCodeCopy : executionFunc :=
  memOffset ← pop; codeOffset ← pop; length ← pop;
  c ← the_contract; copy_data (c_Code c) memOffset codeOffset length.

Definition opExtCodeCopy : executionFunc :=
  addr ← pop; memOffset ← pop; codeOffset ← pop; length ← pop;
  code ← state_op (v_GetCode (BigToAddress addr));
  copy_data (default [] code) memOffset codeOffset length.

Definition opReturnDataCopy : executionFunc :=
  memOffset ← pop; dataOffset ← pop; length ← pop;
  e ← the_evm;
  let end_ := dataOffset + length in
  if (64 <? BitLen end_) || (lenZ (e_returnData e) <? Uint64 end_) then fail_with errReturnDataOutOfBounds
  else
    d ← rlift (slice (e_returnData e) (Uint64 dataOffset) (Uint64 end_));
    mem_update (λ m, mem_Set m (Uint64 memOffset) (Uint64 length) d);;
    done_nil.

Definition opPop : executionFunc := pop;; done_nil.

Definition opMload : executionFunc :=
  offset ← pop; m ← the_mem; d ← rlift (mem_Get m (Int64 offset) 32); push (be_val d);; done_nil.

Definition opMstore : executionFunc :=
  mStart ← pop; val ← pop; mem_update (λ m, mem_Set32 m (Uint64 mStart) val);; done_nil.

Definition opMstore8 : executionFunc :=
  off ← pop; val ← pop; mem_update (λ m, mem_store_byte m (Int64 off) (Z.land (Int64 val) 255));; done_nil.

Definition opSload : executionFunc :=
  loc ← pop; c ← the_contract;
  v ← state_op (v_GetState (c_self c) (BigToHash loc)); push (be_val v);; done_nil.

Definition opSstore : executionFunc :=
  loc ← pop; val ← pop; c ← the_contract;
  state_op (v_SetState (c_self c) (BigToHash loc) (BigToHash val));; done_nil.

(** ** Control flow *)

Definition jump_to (pos : Z) : executionFunc :=
  c ← the_contract;
  e ← the_evm;
  r ← rlift (dests_has (e_jumpdests e) (c_CodeHash c) (c_Code c) pos);
  match r with
  | None => λ _, Collision
  | Some (ok, d) =>
      rmod (λ f, f<| f_evm ::= λ e, e<| e_jumpdests := d |> |>);;
      if ok : bool then rmod (λ f, f<| f_pc := Uint64 pos |>);; done_nil
      else fail_with (errInvalidJump pos)
  end.

Definition opJump : executionFunc := pos ← pop; jump_to pos.

Definition opJumpi : executionFunc :=
  pos ← pop; cond ← pop;
  if cond =? 0 then rmod (λ f, f<| f_pc ::= λ pc, u64 (pc + 1) |>);; done_nil
  else jump_to pos.

Definition opJumpdest : executionFunc := done_nil.
Definition opStop : executionFunc := done_nil.

Definition makePush (size : nat) : executionFunc :=
  f ← rget;
  let code := c_Code (f_contract f) in
  let codeLen := lenZ code in
  let next := i64 (u64 (f_pc f + 1)) in
  let startMin := if next <? codeLen then next else codeLen in
  let endMin := if startMin + Z.of_nat size <? codeLen then startMin + Z.of_nat size else codeLen in
  d ← rlift (slice code startMin endMin);
  d ← rlift (RightPadBytes d (Z.of_nat size));
  push (be_val d);;
  rmod (λ f, f<| f_pc ::= λ pc, u64 (pc + Z.of_nat size) |>);;
  done_nil.

Definition makeDup (size : nat) : executionFunc :=
  f ← rget; st ← rlift (stack_dup (f_stack f) size); rmod (λ f, f<| f_stack := st |>);; done_nil.

Definition makeSwap (size : nat) : executionFunc :=
  f ← rget; st ← rlift (stack_swap (f_stack f) (size + 1)); rmod (λ f, f<| f_stack := st |>);; done_nil.

Fixpoint pops (n : nat) : FM (list Z) :=
  match n with
  | O => mret []
  | Datatypes.S n => x ← pop; xs ← pops n; mret (x :: xs)
  end.

Definition makeLog (size : nat) : executionFunc :=
  mStart ← pop; mSize ← pop;
  topics ← pops size;
  m ← the_mem;
  d ← rlift (mem_Get m (Int64 mStart) (Int64 mSize));
  c ← the_contract;
  x ← the_ctx;
  state_op (v_AddLog (mkLog (c_self c) (BigToHash <$> topics) d (Uint64 (x_BlockNumber x)) zeroHash 0 zeroHash 0 false));;
  done_nil.

Definition opReturn : executionFunc :=
  offset ← pop; size ← pop; m ← the_mem; d ← rlift (mem_GetPtr m (Int64 offset) (Int64 size)); done_data d.

Definition opRevert : executionFunc :=
  offset ← pop; size ← pop; m ← the_mem; d ← rlift (mem_GetPtr m (Int64 offset) (Int64 size)); done_data d.

Definition opSuicide : executionFunc :=
  c ← the_contract;
  balance ← state_op (v_GetBalance (c_self c));
  to ← pop;
  state_op (v_AddBalance (BigToAddress to) balance);;
  state_op (v_Suicide (c_self c));;
  done_nil.
End instructions.
