(* ===== verification/VmRun.v ===== *)
(** * Calls, creations and the interpreter loop (core/vm/evm.go, interpreter.go,
      jump_table.go, instructions.go)

    [Call], [CallCode], [DelegateCall], [StaticCall] and [create] take the function [run]
    as an argument; the instructions that call are built on them, the jump table on the
    instructions, and [run] on the jump table. *)

From Stdlib Require Import ZArith Lia ZifyBool.
From stdpp Require Import base tactics strings numbers gmap list.
From S2P Require Import Prelude Rlp Trie TrieDb.
From S2P Require Import StateObject VmBase VmMachine VmContracts VmInstr.

Local Open Scope Z_scope.
Local Open Scope record_scope.
Local Open Scope vm_scope.

(** [run(evm, contract, input, readOnly)]: the data, the error, and the contract with the
    gas that is left. *)
Abbreviation run_type S := (Contract → bytes → bool → rM (EVM S) (bytes * option vmErr * Contract)).

Section calls.
  Context {S : Type} {VS : VmState S} {KL : KeccakLib} {CL : CryptoLib}.

Local Abbreviation FM := (rM (frame S)).
Local Abbreviation EM := (rM (EVM S)).

Context (run : run_type S).

Definition estate_op {A} (m : stM S A) : EM A := λ e,
  match m (e_state e) with
  | Ret (a, s) => Done (a, e<| e_state := s |>)
  | Panic w => Crash w
  end.

Definition erule (r : ChainConfig → Z → bool) : EM bool :=
  e ← rget; mret (r (x_chainConfig (e_ctx e)) (x_BlockNumber (e_ctx e))).

(** The map of jump destinations of a contract that an account calls is new. *)
Definition enter (caller : ContractRef) : EM () :=
  match caller with
  | ContractOf _ => mret ()
  | AccountRef _ => rmod (λ e, e<| e_jumpdests := ∅ |>)
  end.

(** After an error the state is reverted, and the gas is gone unless the code reverted. *)
Definition on_error (snapshot : Z) (err : option vmErr) (c : Contract) : EM Contract :=
  match err with
  | None => mret c
  | Some err =>
      estate_op (v_RevertToSnapshot snapshot);;
      mret (if bool_decide (err = errExecutionReverted) then c else c<| c_Gas := 0 |>)
  end.

Definition finish (snapshot : Z) (c : Contract) (input : bytes) (readOnly : bool) : EM (bytes * Z * option vmErr) :=
  r ← run c input readOnly;
  let '(ret, err, c) := r in
  c ← on_error snapshot err c;
  mret (ret, c_Gas c, err).

(** [SetCallCode(&addr, GetCodeHash(addr), GetCode(addr))] *)
Definition with_code (addr : bytes) (c : Contract) : EM Contract :=
  h ← estate_op (v_GetCodeHash addr);
  code ← estate_op (v_GetCode addr);
  mret (SetCallCode addr h (default [] code) c).

Definition precompiled (addr : bytes) : EM (option PrecompiledContract) :=
  b ← erule IsByzantium;
  mret (if b : bool then PrecompiledContractsByzantium addr else PrecompiledContractsHomestead addr).

(** The call starts: the target is created if need be, and the value moves.  [false] when
    there is nothing to call. *)
Definition call_target (caller : ContractRef) (addr : bytes) (value : Z) : EM bool :=
  exists_ ← estate_op (v_Exist addr);
  go ← (if exists_ : bool then mret true
        else
          p ← precompiled addr;
          eip158 ← erule IsEIP158;
          if (match p with None => true | Some _ => false end) && eip158 && (value =? 0) then mret false
          else estate_op (v_CreateAccount addr);; mret true);
  if go : bool then estate_op (Transfer (ref_Address caller) addr value);; mret true else mret false.

Definition Call (caller : ContractRef) (addr input : bytes) (gas value : Z) : EM (bytes * Z * option vmErr) :=
  e ← rget;
  if x_NoRecursion (e_ctx e) && (0 <? e_depth e) then mret ([], gas, None)
  else if CallCreateDepth <? e_depth e then mret ([], gas, Some ErrDepth)
  else
    can ← estate_op (CanTransfer (ref_Address caller) value);
    if negb can then mret ([], gas, Some ErrInsufficientBalance)
    else
      snapshot ← estate_op v_Snapshot;
      go ← call_target caller addr value;
      if negb go then mret ([], gas, None)
      else
        enter caller;;
        c ← with_code addr (NewContract caller addr value gas);
        finish snapshot c input false.

Definition CallCode (caller : ContractRef) (addr input : bytes) (gas value : Z) : EM (bytes * Z * option vmErr) :=
  e ← rget;
  if x_NoRecursion (e_ctx e) && (0 <? e_depth e) then mret ([], gas, None)
  else if CallCreateDepth <? e_depth e then mret ([], gas, Some ErrDepth)
  else
    can ← estate_op (CanTransfer (ref_Address caller) value);
    if negb can then mret ([], gas, Some ErrInsufficientBalance)
    else
      snapshot ← estate_op v_Snapshot;
      enter caller;;
      c ← with_code addr (NewContract caller (ref_Address caller) value gas);
      finish snapshot c input false.

Definition DelegateCall (caller : ContractRef) (addr input : bytes) (gas : Z) : EM (bytes * Z * option vmErr) :=
  e ← rget;
  if x_NoRecursion (e_ctx e) && (0 <? e_depth e) then mret ([], gas, None)
  else if CallCreateDepth <? e_depth e then mret ([], gas, Some ErrDepth)
  else
    snapshot ← estate_op v_Snapshot;
    enter caller;;
    c ← rlift (AsDelegate caller (NewContract caller (ref_Address caller) 0 gas));
    c ← with_code addr c;
    finish snapshot c input false.

Definition StaticCall (caller : ContractRef) (addr input : bytes) (gas : Z) : EM (bytes * Z * option vmErr) :=
  e ← rget;
  if x_NoRecursion (e_ctx e) && (0 <? e_depth e) then mret ([], gas, None)
  else if CallCreateDepth <? e_depth e then mret ([], gas, Some ErrDepth)
  else
    snapshot ← estate_op v_Snapshot;
    enter caller;;
    c ← with_code addr (NewContract caller addr 0 gas);
    finish snapshot c input true.

(** The end of a creation: the code is stored if its price can be paid. *)
Definition store_code (address ret : bytes) (err : option vmErr) (tooLong : bool) (c : Contract)
    : EM (option vmErr * Contract) :=
  match err with
  | None =>
      if tooLong then mret (None, c)
      else
        match UseGas (u64 (lenZ ret * CreateDataGas)) c with
        | Some c => estate_op (v_SetCode address (Some ret));; mret (None, c)
        | None => mret (Some ErrCodeStoreOutOfGas, c)
        end
  | Some e => mret (Some e, c)
  end.

Definition settle_create (snapshot : Z) (err : option vmErr) (tooLong homestead : bool) (c : Contract)
    : EM (option vmErr * Contract) :=
  let failed := match err with
                | None => false
                | Some e => homestead || negb (bool_decide (e = ErrCodeStoreOutOfGas))
                end in
  c ← (if tooLong || failed then
         estate_op (v_RevertToSnapshot snapshot);;
         mret (if bool_decide (err = Some errExecutionReverted) then c else c<| c_Gas := 0 |>)
       else mret c);
  mret (if tooLong && bool_decide (err = None) then Some errMaxCodeSizeExceeded else err, c).

(** The rest of [create]: the value moves, the code runs, and its result is the code of the
    new contract. *)
Definition run_init (caller : ContractRef) (code : bytes) (gas value : Z) (address : bytes) (eip158 noRun : bool) (snapshot : Z)
    : EM (bytes * bytes * Z * option vmErr) :=
  estate_op (Transfer (ref_Address caller) address value);;
  enter caller;;
  let c := SetCallCode address (keccak256 code) code (NewContract caller address value gas) in
  if noRun then mret ([], address, gas, None)
  else
    r ← run c [] false;
    let '(ret, err, c) := r in
    let maxCodeSizeExceeded := eip158 && (MaxCodeSize <? lenZ ret) in
    r ← store_code address ret err maxCodeSizeExceeded c;
    let '(err, c) := r in
    homestead ← erule IsHomestead;
    r ← settle_create snapshot err maxCodeSizeExceeded homestead c;
    let '(err, c) := r in
    mret (ret, address, c_Gas c, err).

Definition create (caller : ContractRef) (code : bytes) (gas value : Z) (address : bytes)
    : EM (bytes * bytes * Z * option vmErr) :=
  e ← rget;
  if CallCreateDepth <? e_depth e then mret ([], zeroHash, gas, Some ErrDepth)
  else
    can ← estate_op (CanTransfer (ref_Address caller) value);
    if negb can then mret ([], zeroHash, gas, Some ErrInsufficientBalance)
    else
      nonce ← estate_op (v_GetNonce (ref_Address caller));
      estate_op (v_SetNonce (ref_Address caller) (u64 (nonce + 1)));;
      contractHash ← estate_op (v_GetCodeHash address);
      n ← estate_op (v_GetNonce address);
      if negb (n =? 0) || (negb (bool_decide (contractHash = zeroHash)) && negb (bool_decide (contractHash = keccak256 [])))
      then mret ([], zeroHash, 0, Some ErrContractAddressCollision)
      else
        snapshot ← estate_op v_Snapshot;
        estate_op (v_CreateAccount address);;
        eip158 ← erule IsEIP158;
        (if eip158 : bool then estate_op (v_SetNonce address 1) else mret ());;
        run_init caller code gas value address eip158 (x_NoRecursion (e_ctx e) && (0 <? e_depth e)) snapshot.

Definition Create (caller : ContractRef) (code : bytes) (gas value : Z) : EM (bytes * bytes * Z * option vmErr) :=
  nonce ← estate_op (v_GetNonce (ref_Address caller));
  create caller code gas value (CreateAddress (ref_Address caller) nonce).

(** The last argument of [CreateAddress2] is the code, not its hash. *)
Definition Create2 (caller : ContractRef) (code : bytes) (gas endowment salt : Z)
    : EM (bytes * bytes * Z * option vmErr) :=
  create caller code gas endowment (CreateAddress2 (ref_Address caller) (BigToHash salt) code).

(** ** The instructions that call *)

Definition add_gas (gas : Z) : FM () := set_gas (λ g, u64 (g + gas)).

Definition opCreate : FM (bytes * option vmErr) :=
  value ← pop; offset ← pop; size ← pop;
  m ← the_mem;
  input ← rlift (mem_Get m (Int64 offset) (Int64 size));
  c ← the_contract;
  eip150 ← rule IsEIP150;
  let gas := if eip150 : bool then c_Gas c - c_Gas c / 64 else c_Gas c in
  set_gas (λ g, u64 (g - gas));;
  c ← the_contract;
  r ← evm_op (Create (ContractOf c) input gas value);
  let '(res, addr, returnGas, suberr) := r in
  homestead ← rule IsHomestead;
  let failed := match suberr with
                | None => false
                | Some e => homestead || negb (bool_decide (e = ErrCodeStoreOutOfGas))
                end in
  push (if failed then 0 else be_val addr);;
  add_gas returnGas;;
  if bool_decide (suberr = Some errExecutionReverted) then done_data res else done_nil.

Definition opCreate2 : FM (bytes * option vmErr) :=
  endowment ← pop; offset ← pop; size ← pop; salt ← pop;
  m ← the_mem;
  input ← rlift (mem_Get m (Int64 offset) (Int64 size));
  c ← the_contract;
  let gas := c_Gas c - c_Gas c / 64 in
  set_gas (λ g, u64 (g - gas));;
  c ← the_contract;
  r ← evm_op (Create2 (ContractOf c) input gas endowment salt);
  let '(res, addr, returnGas, suberr) := r in
  push (match suberr with Some _ => 0 | None => be_val addr end);;
  add_gas returnGas;;
  if bool_decide (suberr = Some errExecutionReverted) then done_data res else done_nil.

(** The end of a call: a flag, the data in memory, the gas that is left. *)
Definition after_call (retOffset retSize : Z) (r : bytes * Z * option vmErr) : FM (bytes * option vmErr) :=
  let '(ret, returnGas, err) := r in
  push (match err with Some _ => 0 | None => 1 end);;
  (if bool_decide (err = None) || bool_decide (err = Some errExecutionReverted)
   then mem_update (λ m, mem_Set m (Uint64 retOffset) (Uint64 retSize) ret) else mret ());;
  add_gas returnGas;;
  done_data ret.

Definition opCall : FM (bytes * option vmErr) :=
  pop;;
  e ← the_evm;
  addr ← pop; value ← pop; inOffset ← pop; inSize ← pop; retOffset ← pop; retSize ← pop;
  let value := U256 value in
  m ← the_mem;
  args ← rlift (mem_Get m (Int64 inOffset) (Int64 inSize));
  let gas := if value =? 0 then e_callGasTemp e else u64 (e_callGasTemp e + CallStipend) in
  c ← the_contract;
  r ← evm_op (Call (ContractOf c) (BigToAddress addr) args gas value);
  after_call retOffset retSize r.

Definition opCallCode : FM (bytes * option vmErr) :=
  pop;;
  e ← the_evm;
  addr ← pop; value ← pop; inOffset ← pop; inSize ← pop; retOffset ← pop; retSize ← pop;
  let value := U256 value in
  m ← the_mem;
  args ← rlift (mem_Get m (Int64 inOffset) (Int64 inSize));
  let gas := if value =? 0 then e_callGasTemp e else u64 (e_callGasTemp e + CallStipend) in
  c ← the_contract;
  r ← evm_op (CallCode (ContractOf c) (BigToAddress addr) args gas value);
  after_call retOffset retSize r.

Definition opDelegateCall : FM (bytes * option vmErr) :=
  pop;;
  e ← the_evm;
  addr ← pop; inOffset ← pop; inSize ← pop; retOffset ← pop; retSize ← pop;
  m ← the_mem;
  args ← rlift (mem_Get m (Int64 inOffset) (Int64 inSize));
  c ← the_contract;
  r ← evm_op (DelegateCall (ContractOf c) (BigToAddress addr) args (e_callGasTemp e));
  after_call retOffset retSize r.

Definition opStaticCall : FM (bytes * option vmErr) :=
  pop;;
  e ← the_evm;
  addr ← pop; inOffset ← pop; inSize ← pop; retOffset ← pop; retSize ← pop;
  m ← the_mem;
  args ← rlift (mem_Get m (Int64 inOffset) (Int64 inSize));
  c ← the_contract;
  r ← evm_op (StaticCall (ContractOf c) (BigToAddress addr) args (e_callGasTemp e));
  after_call retOffset retSize r.
End calls.

(** ** The jump table *)

Section interpreter.
  Context {S : Type} {VS : VmState S} {KL : KeccakLib} {CL : CryptoLib}.

Local Abbreviation FM := (rM (frame S)).
Local Abbreviation EM := (rM (EVM S)).

Record operation := mkOperation {
  execute : FM (bytes * option vmErr);
  gasCost : (GasTable → Z → FM (Z + vmErr));
  stack_in : Z;
  stack_out : Z;
  memorySize : option (FM Z);
  halts : bool;
  jumps : bool;
  writes : bool;
  reverts : bool;
  returns : bool
}.

(** An operation without memory or flags; the others are changes of it. *)
Definition plain_op (e : FM (bytes * option vmErr)) (g : (GasTable → Z → FM (Z + vmErr))) (pop push : Z) : operation :=
  mkOperation e g pop push None false false false false false.

#[global] Instance operation_set : Settable operation := {| rec_eta := λ o,
  mkOperation (execute o) (gasCost o) (stack_in o) (stack_out o) (memorySize o) (halts o) (jumps o) (writes o)
    (reverts o) (returns o) |}.

Definition const_op (e : FM (bytes * option vmErr)) (g pop push : Z) : operation :=
  plain_op e (constGasFunc g) pop push.

Definition operation_of (run : run_type S) (o : Op.t) : operation :=
  match o with
  | Op.STOP => (const_op opStop 0 0 0)<| halts := true |>
  | Op.ADD => const_op opAdd GasFastestStep 2 1
  | Op.MUL => const_op opMul GasFastStep 2 1
  | Op.SUB => const_op opSub GasFastestStep 2 1
  | Op.DIV => const_op opDiv GasFastStep 2 1
  | Op.SDIV => const_op opSdiv GasFastStep 2 1
  | Op.MOD => const_op opMod GasFastStep 2 1
  | Op.SMOD => const_op opSmod GasFastStep 2 1
  | Op.ADDMOD => const_op opAddmod GasMidStep 3 1
  | Op.MULMOD => const_op opMulmod GasMidStep 3 1
  | Op.EXP => plain_op opExp gasExp 2 1
  | Op.SIGNEXTEND => const_op opSignExtend GasFastStep 2 1
  | Op.LT => const_op opLt GasFastestStep 2 1
  | Op.GT => const_op opGt GasFastestStep 2 1
  | Op.SLT => const_op opSlt GasFastestStep 2 1
  | Op.SGT => const_op opSgt GasFastestStep 2 1
  | Op.EQ => const_op opEq GasFastestStep 2 1
  | Op.ISZERO => const_op opIszero GasFastestStep 1 1
  | Op.AND => const_op opAnd GasFastestStep 2 1
  | Op.XOR => const_op opXor GasFastestStep 2 1
  | Op.OR => const_op opOr GasFastestStep 2 1
  | Op.NOT => const_op opNot GasFastestStep 1 1
  | Op.BYTE => const_op opByte GasFastestStep 2 1
  | Op.SHL => const_op opSHL GasFastestStep 2 1
  | Op.SHR => const_op opSHR GasFastestStep 2 1
  | Op.SAR => const_op opSAR GasFastestStep 2 1
  | Op.SHA3 => (plain_op opSha3 gasSha3 2 1)<| memorySize := Some memorySha3 |>
  | Op.ADDRESS => const_op opAddress GasQuickStep 0 1
  | Op.BALANCE => plain_op opBalance gasBalance 1 1
  | Op.ORIGIN => const_op opOrigin GasQuickStep 0 1
  | Op.CALLER => const_op opCaller GasQuickStep 0 1
  | Op.CALLVALUE => const_op opCallValue GasQuickStep 0 1
  | Op.CALLDATALOAD => const_op opCallDataLoad GasFastestStep 1 1
  | Op.CALLDATASIZE => const_op opCallDataSize GasQuickStep 0 1
  | Op.CALLDATACOPY => (plain_op opCallDataCopy gasCallDataCopy 3 0)<| memorySize := Some memoryCallDataCopy |>
  | Op.CODESIZE => const_op opCodeSize GasQuickStep 0 1
  | Op.CODECOPY => (plain_op opCodeCopy gasCodeCopy 3 0)<| memorySize := Some memoryCodeCopy |>
  | Op.GASPRICE => const_op opGasprice GasQuickStep 0 1
  | Op.EXTCODESIZE => plain_op opExtCodeSize gasExtCodeSize 1 1
  | Op.EXTCODECOPY => (plain_op opExtCodeCopy gasExtCodeCopy 4 0)<| memorySize := Some memoryExtCodeCopy |>
  | Op.RETURNDATASIZE => const_op opReturnDataSize GasQuickStep 0 1
  | Op.RETURNDATACOPY =>
      (plain_op opReturnDataCopy gasReturnDataCopy 3 0)<| memorySize := Some memoryReturnDataCopy |>
  | Op.EXTCODEHASH => plain_op opExtCodeHash gasExtCodeHash 1 1
  | Op.BLOCKHASH => const_op opBlockhash GasExtStep 1 1
  | Op.COINBASE => const_op opCoinbase GasQuickStep 0 1
  | Op.TIMESTAMP => const_op opTimestamp GasQuickStep 0 1
  | Op.NUMBER => const_op opNumber GasQuickStep 0 1
  | Op.DIFFICULTY => const_op opDifficulty GasQuickStep 0 1
  | Op.GASLIMIT => const_op opGasLimit GasQuickStep 0 1
  | Op.POP => const_op opPop GasQuickStep 1 0
  | Op.MLOAD => (plain_op opMload gasMLoad 1 1)<| memorySize := Some memoryMLoad |>
  | Op.MSTORE => (plain_op opMstore gasMStore 2 0)<| memorySize := Some memoryMStore |>
  | Op.MSTORE8 => (plain_op opMstore8 gasMStore8 2 0)<| memorySize := Some memoryMStore8 |>
  | Op.SLOAD => plain_op opSload gasSLoad 1 1
  | Op.SSTORE => (plain_op opSstore gasSStore 2 0)<| writes := true |>
  | Op.JUMP => (const_op opJump GasMidStep 1 0)<| jumps := true |>
  | Op.JUMPI => (const_op opJumpi GasSlowStep 2 0)<| jumps := true |>
  | Op.PC => const_op opPc GasQuickStep 0 1
  | Op.MSIZE => const_op opMsize GasQuickStep 0 1
  | Op.GAS => const_op opGas GasQuickStep 0 1
  | Op.JUMPDEST => const_op opJumpdest JumpdestGas 0 0
  | Op.PUSH n => plain_op (makePush n) gasPush 0 1
  | Op.DUP n => plain_op (makeDup n) gasDup (Z.of_nat n) (Z.of_nat n + 1)
  | Op.SWAP n => plain_op (makeSwap n) gasSwap (Z.of_nat n + 1) (Z.of_nat n + 1)
  | Op.LOG n =>
      (plain_op (makeLog n) (makeGasLog (Z.of_nat n)) (Z.of_nat n + 2) 0)
        <| memorySize := Some memoryLog |><| writes := true |>
  | Op.CREATE =>
      (plain_op (opCreate run) gasCreate 3 1)
        <| memorySize := Some memoryCreate |><| writes := true |><| returns := true |>
  | Op.CALL => (plain_op (opCall run) gasCall 7 1)<| memorySize := Some memoryCall |><| returns := true |>
  | Op.CALLCODE => (plain_op (opCallCode run) gasCallCode 7 1)<| memorySize := Some memoryCall |><| returns := true |>
  | Op.RETURN => (plain_op opReturn gasReturn 2 0)<| memorySize := Some memoryReturn |><| halts := true |>
  | Op.DELEGATECALL =>
      (plain_op (opDelegateCall run) gasDelegateCall 6 1)<| memorySize := Some memoryDelegateCall |><| returns := true |>
  | Op.CREATE2 =>
      (plain_op (opCreate2 run) gasCreate2 4 1)
        <| memorySize := Some memoryCreate2 |><| writes := true |><| returns := true |>
  | Op.STATICCALL =>
      (plain_op (opStaticCall run) gasStaticCall 6 1)<| memorySize := Some memoryStaticCall |><| returns := true |>
  | Op.REVERT =>
      (plain_op opRevert gasRevert 2 0)<| memorySize := Some memoryRevert |><| reverts := true |><| returns := true |>
  | Op.SELFDESTRUCT => (plain_op opSuicide gasSuicide 1 0)<| halts := true |><| writes := true |>
  end.

(** The instruction sets of the forks: each adds to the one before. *)
Inductive instructionSet := frontierInstructionSet | homesteadInstructionSet | byzantiumInstructionSet
  | constantinopleInstructionSet.

Definition since (o : Op.t) : instructionSet :=
  match o with
  | Op.SHL | Op.SHR | Op.SAR | Op.EXTCODEHASH | Op.CREATE2 => constantinopleInstructionSet
  | Op.STATICCALL | Op.RETURNDATASIZE | Op.RETURNDATACOPY | Op.REVERT => byzantiumInstructionSet
  | Op.DELEGATECALL => homesteadInstructionSet
  | _ => frontierInstructionSet
  end.

Definition set_level (i : instructionSet) : nat :=
  match i with
  | frontierInstructionSet => 0
  | homesteadInstructionSet => 1
  | byzantiumInstructionSet => 2
  | constantinopleInstructionSet => 3
  end.

(** [NewEVMInterpreter] chooses the set. *)
Definition instruction_set (x : Context) : instructionSet :=
  let is_ (r : ChainConfig → Z → bool) : bool := r (x_chainConfig x) (x_BlockNumber x) in
  if is_ IsConstantinople then constantinopleInstructionSet
  else if is_ IsByzantium then byzantiumInstructionSet
  else if is_ IsHomestead then homesteadInstructionSet
  else frontierInstructionSet.

Definition JumpTable (x : Context) (b : Z) : option Op.t :=
  match decode_op b with
  | Some o => if (set_level (since o) <=? set_level (instruction_set x))%nat then Some o else None
  | None => None
  end.

(** ** The interpreter *)

Definition is_CALL (o : Op.t) : bool := match o with Op.CALL => true | _ => false end.

(** State changes are refused in read-only mode, and so is a call that moves value. *)
Definition enforceRestrictions (o : Op.t) (op : operation) : FM (option vmErr) :=
  f ← rget;
  byzantium ← rule IsByzantium;
  if (byzantium : bool) && e_readOnly (f_evm f) then
    if writes op then mret (Some errWriteProtection)
    else if is_CALL o then
      v ← Back 2; mret (if 0 <? BitLen v then Some errWriteProtection else None)
    else mret None
  else mret None.

(** The memory that the operation needs, in bytes, a multiple of the word size. *)
Definition required_memory (op : operation) : FM (Z + vmErr) :=
  match memorySize op with
  | None => ok 0
  | Some m =>
      size ← m;
      memSize ←! big_uint64 size;
      safe_mul (toWordSize memSize) 32
  end.

(** The price is paid; [false] when it can not be. *)
Definition pay (cost : Z + vmErr) : FM bool :=
  match cost with
  | inr _ => mret false
  | inl cost =>
      f ← rget;
      match UseGas cost (f_contract f) with
      | None => mret false
      | Some c => rmod (λ f, f<| f_contract := c |>);; mret true
      end
  end.

Definition load_abort : FM bool := λ f,
  let e := f_evm f in
  Done (match e_aborts e with b :: _ => b | [] => false end, f<| f_evm := e<| e_aborts := drop 1 (e_aborts e) |> |>).

(** One round of the loop: the result of the run, or [None] to go on. *)
Definition dispatch (op : operation) : FM (option (bytes * option vmErr)) :=
  r ← execute op;
  let '(res, err) := r in
  (if returns op then rmod (λ f, f<| f_evm ::= λ e, e<| e_returnData := res |> |>) else mret ());;
  match err with
  | Some e => mret (Some ([], Some e))
  | None =>
      if reverts op then mret (Some (res, Some errExecutionReverted))
      else if halts op then mret (Some (res, None))
      else (if jumps op then mret () else rmod (λ f, f<| f_pc ::= λ pc, u64 (pc + 1) |>));; mret None
  end.

Definition step (run : run_type S) : FM (option (bytes * option vmErr)) :=
  f ← rget;
  let b := GetOp (f_contract f) (f_pc f) in
  match JumpTable (e_ctx (f_evm f)) b with
  | None => mret (Some ([], Some (errInvalidOpcode b)))
  | Some o =>
      let op := operation_of run o in
      match validateStack (stack_in op) (stack_out op) (f_stack f) with
      | Some e => mret (Some ([], Some e))
      | None =>
          refused ← enforceRestrictions o op;
          match refused with
          | Some e => mret (Some ([], Some e))
          | None =>
              msize ← required_memory op;
              match msize with
              | inr e => mret (Some ([], Some e))
              | inl msize =>
                  let x := e_ctx (f_evm f) in
                  cost ← gasCost op (GasTable_of (x_chainConfig x) (x_BlockNumber x)) msize;
                  paid ← pay cost;
                  if negb paid then mret (Some ([], Some ErrOutOfGas))
                  else
                    (if 0 <? msize then rmod (λ f, f<| f_mem ::= λ m, mem_Resize m msize |>) else mret ());;
                    dispatch op
              end
          end
      end
  end.

Fixpoint loop (fuel : nat) (run : run_type S) : FM (bytes * option vmErr) :=
  match fuel with
  | O => λ _, Fuel
  | Datatypes.S fuel =>
      aborted ← load_abort;
      if aborted : bool then mret ([], None)
      else
        r ← step run;
        match r with Some r => mret r | None => loop fuel run end
  end.

(** [EVMInterpreter.Run], with what it does to the machine when it starts and when it
    returns; [guard] says that this run turns on the read-only mode. *)
Definition run_enter (guard : bool) (e : EVM S) : EVM S :=
  e<| e_depth ::= λ d, d + 1 |><| e_readOnly ::= λ b, b || guard |><| e_returnData := [] |>.

Definition run_leave (guard : bool) (e : EVM S) : EVM S :=
  (if guard then e<| e_readOnly := false |> else e)<| e_depth ::= λ d, d - 1 |>.

Definition Run (fuel : nat) (run : run_type S) : run_type S := λ c input readOnly e,
  let guard := readOnly && negb (e_readOnly e) in
  let e := run_enter guard e in
  match c_Code c with
  | [] => Done (([], None, c), run_leave guard e)
  | _ =>
      match loop fuel run (mkFrame 0 [] NewMemory (c<| c_Input := input |>) e) with
      | Done (ret, err, f) => Done ((ret, err, f_contract f), run_leave guard (f_evm f))
      | Crash w => Crash w
      | Fuel => Fuel
      | Collision => Collision
      end
  end.

Definition RunPrecompiledContract (p : PrecompiledContract) (input : bytes) (c : Contract)
    : EM (bytes * option vmErr * Contract) :=
  gas ← rlift (RequiredGas p input);
  match UseGas gas c with
  | None => mret ([], Some ErrOutOfGas, c)
  | Some c =>
      r ← rlift (precompile_Run p input);
      mret (match r with inl d => (d, None, c) | inr e => ([], Some e, c) end)
  end.

(** [run]: a precompiled contract, or the code; with fuel for the nesting of calls and for
    the instructions of each. *)
Fixpoint run (depth fuel : nat) (c : Contract) (input : bytes) (readOnly : bool)
    : EM (bytes * option vmErr * Contract) :=
  match depth with
  | O => λ _, Fuel
  | Datatypes.S depth =>
      p ← (match c_CodeAddr c with None => mret None | Some a => precompiled a end);
      match p with
      | Some p => RunPrecompiledContract p input c
      | None => Run fuel (run depth fuel) c input readOnly
      end
  end.
End interpreter.
