(* ===== verification/VmStateDb.v ===== *)
(** * The virtual machine on the state database (core/vm, core/state)

    The state database implements the interface that the machine uses. *)

From Stdlib Require Import ZArith Lia ZifyBool.
From stdpp Require Import base tactics strings numbers gmap list.
From S2P Require Import Prelude Rlp RlpDecode Trie TrieNodes TrieDb TrieHash.
From S2P Require Import StateObject StateDb StateSpec StateTrie StateRefine StateFlush StateFacts.
From S2P Require Import VmBase VmMachine VmContracts VmInstr VmRun.

Local Open Scope Z_scope.
Local Open Scope record_scope.

#[global] Instance StateDB_vm {DB T} {SD : StateDatabase DB T} {KL : KeccakLib} : VmState (StateDB DB T) := {|
  v_CreateAccount := StateDb.CreateAccount;
  v_SubBalance := StateDb.SubBalance;
  v_AddBalance := StateDb.AddBalance;
  v_GetBalance := StateDb.GetBalance;
  v_GetNonce := StateDb.GetNonce;
  v_SetNonce := StateDb.SetNonce;
  v_GetCodeHash := StateDb.GetCodeHash;
  v_GetCode := StateDb.GetCode;
  v_SetCode := StateDb.SetCode;
  v_GetCodeSize := StateDb.GetCodeSize;
  v_AddRefund := StateDb.AddRefund;
  v_GetRefund := StateDb.GetRefund;
  v_GetState := StateDb.GetState;
  v_SetState := StateDb.SetState;
  v_Suicide := StateDb.Suicide;
  v_HasSuicided := StateDb.HasSuicided;
  v_Exist := StateDb.Exist;
  v_Empty := StateDb.Empty;
  v_RevertToSnapshot := StateDb.RevertToSnapshot;
  v_Snapshot := StateDb.Snapshot;
  v_AddLog := StateDb.AddLog;
  v_AddPreimage := StateDb.AddPreimage
|}.

#[local] Existing Instance toy_keccak.

Definition toy_crypto : CryptoLib := {|
  sha256_Sum256 b := toy_keccak (1 :: b);
  ripemd160_Sum b := take 20 (toy_keccak (2 :: b));
  crypto_Ecrecover _ _ := None;
  bn256_G1_ok _ := true;
  bn256_G2_ok _ := true;
  bn256_G1_Add x y := toy_keccak (4 :: x ++ y);
  bn256_G1_ScalarMult x _ := toy_keccak (5 :: x);
  bn256_PairingCheck _ _ := true;
  NewNeatScriptAddr b := toy_keccak (3 :: b)
|}.

#[local] Existing Instance toy_crypto.

Definition toy_ctx : Context :=
  mkContext (λ _, zeroHash) user1 1 user1 8000000 100 1000 1 MainnetChainConfig false false.

(** A program that adds two numbers and returns the sum, called on an account. *)
Definition add_code : bytes := [96; 2; 96; 3; 1; 96; 0; 82; 96; 32; 96; 0; 243].

Definition call_code (code : bytes) (gas : Z) : option (Z * Z * option vmErr) :=
  match SetCode acc1 (Some code) fresh with
  | Ret (_, s) =>
      match Call (run 3 100) (AccountRef user1) acc1 [] gas 0 (NewEVM toy_ctx s []) with
      | Done ((r, g, e), _) => Some (be_val r, g, e)
      | _ => None
      end
  | _ => None
  end.

Lemma add_code_runs : call_code add_code 1000 = Some (5, 1000 - 24, None).
Proof. vm_compute. reflexivity. Qed.

Lemma add_code_out_of_gas : call_code add_code 20 = Some (0, 0, Some ErrOutOfGas).
Proof. vm_compute. reflexivity. Qed.
