(* ===== verification/VmWords.v ===== *)
(** * The arithmetic of the virtual machine (core/vm/instructions.go, common/math)

    What the instructions that compute mean: operations on integers modulo [2^256], in
    two's complement where they are signed; and that the instructions do that. *)

From Stdlib Require Import ZArith Lia ZifyBool.
From stdpp Require Import base tactics strings numbers gmap list.
From S2P Require Import Prelude Rlp Trie TrieDb.
From S2P Require Import StateObject VmBase VmMachine VmContracts VmInstr VmRun VmStateDb.
From S2P Require Import TrieNodes TrieHash StateDb StateTrie StateFacts.

Local Open Scope Z_scope.
Local Open Scope record_scope.

(** ** Specification *)

Definition word (x : Z) : Prop := 0 <= x < 2 ^ 256.

(** A word as a number in two's complement, and back. *)
Definition signed (x : Z) : Z := (x + 2 ^ 255) mod 2 ^ 256 - 2 ^ 255.
Definition unsigned (x : Z) : Z := x mod 2 ^ 256.

(** The low [n] bits of [x] in two's complement. *)
Definition sign_extend (n x : Z) : Z := unsigned ((x + 2 ^ (n - 1)) mod 2 ^ n - 2 ^ (n - 1)).

(** The instructions with two operands; the first is the top of the stack. *)
Definition arith2 (o : Op.t) : option (Z → Z → Z) :=
  match o with
  | Op.ADD => Some (λ x y, unsigned (x + y))
  | Op.SUB => Some (λ x y, unsigned (x - y))
  | Op.MUL => Some (λ x y, unsigned (x * y))
  | Op.DIV => Some (λ x y, if y =? 0 then 0 else x / y)
  | Op.SDIV => Some (λ x y, if y =? 0 then 0 else unsigned (Z.quot (signed x) (signed y)))
  | Op.MOD => Some (λ x y, if y =? 0 then 0 else x mod y)
  | Op.SMOD => Some (λ x y, if y =? 0 then 0 else unsigned (Z.rem (signed x) (signed y)))
  | Op.EXP => Some (λ x y, unsigned (x ^ y))
  | Op.SIGNEXTEND => Some (λ x y, if x <? 31 then sign_extend (8 * x + 8) y else y)
  | Op.LT => Some (λ x y, flag (x <? y))
  | Op.GT => Some (λ x y, flag (y <? x))
  | Op.SLT => Some (λ x y, flag (signed x <? signed y))
  | Op.SGT => Some (λ x y, flag (signed y <? signed x))
  | Op.EQ => Some (λ x y, flag (x =? y))
  | Op.AND => Some Z.land
  | Op.OR => Some Z.lor
  | Op.XOR => Some Z.lxor
  | Op.BYTE => Some (λ x y, if x <? 32 then (y / 256 ^ (31 - x)) mod 256 else 0)
  | Op.SHL => Some (λ x y, unsigned (y * 2 ^ x))
  | Op.SHR => Some (λ x y, y / 2 ^ x)
  | Op.SAR => Some (λ x y, unsigned (signed y / 2 ^ x))
  | _ => None
  end.

Definition arith1 (o : Op.t) : option (Z → Z) :=
  match o with
  | Op.NOT => Some (λ x, 2 ^ 256 - 1 - x)
  | Op.ISZERO => Some (λ x, flag (x =? 0))
  | _ => None
  end.

Definition arith3 (o : Op.t) : option (Z → Z → Z → Z) :=
  match o with
  | Op.ADDMOD => Some (λ x y z, if z =? 0 then 0 else (x + y) mod z)
  | Op.MULMOD => Some (λ x y z, if z =? 0 then 0 else (x * y) mod z)
  | _ => None
  end.

(** The result of an instruction on its operands. *)
Definition arith (o : Op.t) (args : list Z) : option Z :=
  match args with
  | [x] => g ← arith1 o; Some (g x)
  | [x; y] => g ← arith2 o; Some (g x y)
  | [x; y; z] => g ← arith3 o; Some (g x y z)
  | _ => None
  end.

(** ** The functions of big.go *)

Lemma U256_unsigned x : U256 x = unsigned x.
Proof. unfold U256, unsigned, tt256m1, tt256. rewrite <-(Z.land_ones x 256) by lia. by rewrite Z.ones_equiv. Qed.

Lemma unsigned_word x : word (unsigned x).
Proof. unfold word, unsigned. apply Z.mod_pos_bound. lia. Qed.

Lemma unsigned_id x : word x → unsigned x = x.
Proof. intros H. by apply Z.mod_small. Qed.

Lemma S256_signed x : word x → S256 x = signed x.
Proof.
  unfold word, S256, signed, tt255, tt256. intros H. destruct (x <? 2 ^ 255) eqn:E.
  - rewrite Z.mod_small; lia.
  - rewrite <-(Z.mod_unique (x + 2 ^ 255) (2 ^ 256) 1 (x - 2 ^ 255)); lia.
Qed.

Lemma signed_zero x : word x → signed x = 0 ↔ x = 0.
Proof.
  intros H. rewrite <-S256_signed by done. unfold word, S256, tt255, tt256 in *.
  destruct (x <? 2 ^ 255) eqn:E; lia.
Qed.

Lemma word_sdiv_correct x y : word x → word y →
  word_sdiv x y = if y =? 0 then 0 else unsigned (Z.quot (signed x) (signed y)).
Proof.
  intros Hx Hy. unfold word_sdiv. rewrite !S256_signed, !U256_unsigned by done.
  pose proof (signed_zero y Hy). set (a := signed x) in *. set (b := signed y) in *.
  destruct (y =? 0) eqn:Ey; [replace (b =? 0) with true by lia; done|].
  replace (b =? 0) with false by lia. cbn. destruct (a =? 0) eqn:Ea.
  { replace a with 0 by lia. rewrite Z.quot_0_l by lia. done. }
  clearbody a b. rewrite Z.quot_div by lia. generalize (Z.abs a / Z.abs b). intros q.
  destruct (Z.sgn a =? Z.sgn b) eqn:Es; cbn; f_equal; destruct a, b; cbn in *; lia.
Qed.

Lemma word_smod_correct x y : word x → word y →
  word_smod x y = if y =? 0 then 0 else unsigned (Z.rem (signed x) (signed y)).
Proof.
  intros Hx Hy. unfold word_smod. rewrite !S256_signed, !U256_unsigned by done.
  pose proof (signed_zero y Hy). set (a := signed x) in *. set (b := signed y) in *.
  destruct (y =? 0) eqn:Ey; [replace (b =? 0) with true by lia; done|].
  replace (b =? 0) with false by lia. clearbody a b. rewrite Z.rem_mod by lia.
  destruct (decide (a = 0)) as [->|Ha]; [by rewrite Zmod_0_l|].
  generalize (Z.abs a mod Z.abs b). intros q.
  destruct (a <? 0) eqn:Ea; f_equal; destruct a; cbn in *; lia.
Qed.

Lemma exp_loop_correct n : ∀ r b e, 0 <= e < 2 ^ Z.of_nat n → unsigned (exp_loop n r b e) = unsigned (r * b ^ e).
Proof.
  induction n as [|n IH]; intros r b e He.
  { replace e with 0 by (cbn in He; lia). cbn. by rewrite Z.mul_1_r. }
  cbn [exp_loop]. rewrite IH by (rewrite Nat2Z.inj_succ, Z.pow_succ_r in He by lia; dlia).
  rewrite !U256_unsigned. rewrite (Z.div_mod e 2) at 3 by lia.
  rewrite Z.pow_add_r, Z.pow_mul_r, Z.pow_2_r by (try dlia).
  unfold unsigned. rewrite Z.mul_mod, (Z.mod_pow_l (b * b)) by lia.
  rewrite Zmod_odd. destruct (Z.odd e); rewrite ?Z.mod_mod, ?Z.pow_1_r, ?Z.pow_0_r by lia;
    rewrite <-Z.mul_mod by lia; f_equal; ring.
Qed.

Lemma exp_loop_word n : ∀ r b e, word r → word (exp_loop n r b e).
Proof.
  induction n as [|n IH]; intros r b e Hr; cbn; [done|].
  apply IH. destruct (Z.odd e); [rewrite U256_unsigned; apply unsigned_word|done].
Qed.

Lemma BitLen_bound x n : 0 <= x → BitLen x <= n ↔ (0 <= n ∧ x < 2 ^ n).
Proof.
  intros Hx. unfold BitLen. rewrite Z.abs_eq by done. destruct (x =? 0) eqn:E.
  { replace x with 0 by lia. split; [intros; split; [done|]; apply Z.pow_pos_nonneg; lia|tauto]. }
  pose proof (Z.log2_nonneg x). rewrite (Z.log2_lt_pow2 x n) by lia. lia.
Qed.

Lemma Exp_correct b e : 0 <= e → Exp b e = unsigned (b ^ e).
Proof.
  intros He. unfold Exp. set (n := Z.to_nat _). rewrite <-(Z.mul_1_l (b ^ e)), <-(exp_loop_correct n).
  - symmetry. apply unsigned_id, exp_loop_word. unfold word. lia.
  - split; [done|]. apply (proj1 (BitLen_bound e (Z.of_nat n) He)). unfold n. pose proof (proj1 (BitLen_bound e (BitLen e) He)). dlia.
Qed.

Lemma land_mask x n : 0 <= n → Z.land x (2 ^ n - 1) = x mod 2 ^ n.
Proof. intros Hn. rewrite <-Z.land_ones, Z.ones_equiv by done. done. Qed.

Lemma lor_high x n : 0 <= n → Z.lor x (Z.lnot (2 ^ n - 1)) = x mod 2 ^ n - 2 ^ n.
Proof.
  intros Hn. rewrite <-(Z.lnot_involutive x) at 1. rewrite <-Z.lnot_land, land_mask by done. unfold Z.lnot.
  pose proof (Z.pow_pos_nonneg 2 n). replace (Z.pred (- x)) with (- 1 - x) by lia.
  rewrite <-(Z.mod_unique (-1 - x) (2 ^ n) (- 1 - x / 2 ^ n) (2 ^ n - 1 - x mod 2 ^ n)); dlia.
Qed.

Lemma word_signextend_correct b x : 0 <= b → word_signextend b x = sign_extend (8 * b + 8) x.
Proof.
  intros Hb. unfold word_signextend, sign_extend.
  rewrite Z.shiftl_1_l, !U256_unsigned, lor_high, land_mask by lia.
  replace (8 * b + 8 - 1) with (b * 8 + 7) by lia. replace (8 * b + 8) with (Z.succ (b * 8 + 7)) by lia.
  rewrite Z.pow_succ_r by lia. pose proof (Z.pow_pos_nonneg 2 (b * 8 + 7)).
  destruct (Z.testbit x (b * 8 + 7)) eqn:Et.
  - apply Z.testbit_true in Et; [|lia]. set (P := 2 ^ _) in *.
    rewrite <-(Z.mod_unique (x + P) (2 * P) (x / P / 2 + 1) (x mod P)); [done| |]; dlia || nia.
  - apply Z.testbit_false in Et; [|lia]. set (P := 2 ^ _) in *.
    rewrite <-(Z.mod_unique (x + P) (2 * P) (x / P / 2) (x mod P + P)); [f_equal; lia| |]; dlia || nia.
Qed.

Lemma Uint64_small x : in_u64 x → Uint64 x = x.
Proof. unfold in_u64. intros H. unfold Uint64. rewrite Z.abs_eq by lia. by apply u64_small. Qed.

Lemma Int64_small x : 0 <= x < 2 ^ 63 → Int64 x = x.
Proof.
  intros H. unfold Int64. replace (x <? 0) with false by lia. rewrite Z.abs_eq by lia.
  apply i64_small. unfold in_i64. lia.
Qed.

Lemma word_slt_correct x y : word x → word y → word_slt x y = flag (signed x <? signed y).
Proof.
  intros Hx Hy. rewrite <-!S256_signed by done. unfold word_slt, S256, flag, word, tt255, tt256 in *.
  repeat case_match; lia.
Qed.

Lemma word_sgt_correct x y : word x → word y → word_sgt x y = flag (signed y <? signed x).
Proof.
  intros Hx Hy. rewrite <-!S256_signed by done. unfold word_sgt, S256, flag, word, tt255, tt256 in *.
  repeat case_match; lia.
Qed.

Lemma pow2_big x : 256 <= x → 2 ^ x = 2 ^ (x - 256) * 2 ^ 256.
Proof. intros H. rewrite <-Z.pow_add_r by lia. f_equal. lia. Qed.

Lemma shl_correct x y : word x → word y →
  (if 256 <=? unsigned x then 0 else unsigned (Z.shiftl (unsigned y) (Uint64 (unsigned x)))) = unsigned (y * 2 ^ x).
Proof.
  intros Hx Hy. rewrite !(unsigned_id x), (unsigned_id y) by done. unfold word in Hx.
  destruct (256 <=? x) eqn:E.
  - unfold unsigned. rewrite pow2_big, Z.mul_assoc, Z.mod_mul by lia. done.
  - rewrite Uint64_small, Z.shiftl_mul_pow2 by (unfold in_u64; lia). done.
Qed.

Lemma shr_correct x y : word x → word y →
  (if 256 <=? unsigned x then 0 else unsigned (Z.shiftr (unsigned y) (Uint64 (unsigned x)))) = y / 2 ^ x.
Proof.
  intros Hx Hy. rewrite !(unsigned_id x), (unsigned_id y) by done. unfold word in *.
  pose proof (Z.pow_pos_nonneg 2 x). destruct (256 <=? x) eqn:E.
  - rewrite Z.div_small; [done|]. split; [lia|]. rewrite pow2_big by lia. pose proof (Z.pow_pos_nonneg 2 (x - 256)). nia.
  - rewrite Uint64_small, Z.shiftr_div_pow2 by (unfold in_u64; lia). apply unsigned_id. unfold word.
    split; [apply Z.div_pos; lia|]. apply Z.le_lt_trans with y; [apply Z.div_le_upper_bound; nia|lia].
Qed.

Lemma word_sar_correct x y : word x → word y → word_sar x y = unsigned (signed y / 2 ^ x).
Proof.
  intros Hx Hy. unfold word_sar. rewrite !U256_unsigned, !(unsigned_id x), S256_signed by done.
  assert (- 2 ^ 255 <= signed y < 2 ^ 255) by (unfold signed; pose proof (Z.mod_pos_bound (y + 2 ^ 255) (2 ^ 256)); lia).
  unfold word in *. pose proof (Z.pow_pos_nonneg 2 x). destruct (256 <=? x) eqn:E; f_equal.
  - assert (2 ^ 256 <= 2 ^ x) by (apply Z.pow_le_mono_r; lia). destruct (0 <=? signed y) eqn:Es.
    + rewrite Z.div_small; lia.
    + apply (Z.div_unique _ _ _ (signed y + 2 ^ x)); lia.
  - by rewrite Uint64_small, Z.shiftr_div_pow2 by (unfold in_u64; lia).
Qed.

Lemma byte_correct x y : word x →
  (if x <? 32 then Byte y 32 (Int64 x) else 0) = (if x <? 32 then (y / 256 ^ (31 - x)) mod 256 else 0).
Proof.
  intros Hx. unfold word in Hx. destruct (x <? 32) eqn:E; [|done].
  rewrite Int64_small by lia. unfold Byte, bigEndianByteAt. by replace (32 <=? x) with false by lia.
Qed.

Lemma land_word x y : word x → word y → word (Z.land x y) ∧ word (Z.lor x y) ∧ word (Z.lxor x y).
Proof.
  intros Hx Hy. unfold word in *. pose proof (proj1 (BitLen_bound x 256 ltac:(lia))).
  assert (∀ z, 0 <= z → Z.log2 z <= Z.max (Z.log2 x) (Z.log2 y) → z < 2 ^ 256) as Hl.
  { intros z Hz Hle. assert (Z.log2 x < 256) by (destruct (decide (x = 0)) as [->|]; [cbn; lia|apply Z.log2_lt_pow2; lia]).
    assert (Z.log2 y < 256) by (destruct (decide (y = 0)) as [->|]; [cbn; lia|apply Z.log2_lt_pow2; lia]).
    destruct (decide (z = 0)) as [->|]; [lia|]. apply Z.log2_lt_pow2; lia. }
  split_and!; try (apply Z.land_nonneg; lia); try (apply Z.lor_nonneg; lia); try (apply Z.lxor_nonneg; lia); apply Hl.
  - apply Z.land_nonneg; lia.
  - pose proof (Z.log2_land x y). lia.
  - apply Z.lor_nonneg; lia.
  - rewrite Z.log2_lor; lia.
  - apply Z.lxor_nonneg; lia.
  - apply Z.log2_lxor; lia.
Qed.

(** ** The instructions *)

Section instructions.
  Context {S : Type} {VS : VmState S} {KL : KeccakLib} {CL : CryptoLib}.
  Implicit Types (f : frame S).

Lemma op1_run g f x st r : f_stack f = x :: st → g x = r → op1 g f = Done (([], None), f<| f_stack := r :: st |>).
Proof. destruct f. cbn. by intros -> <-. Qed.

Lemma op2_run g f x y st r :
  f_stack f = x :: y :: st → g x y = r → op2 g f = Done (([], None), f<| f_stack := r :: st |>).
Proof. destruct f. cbn. by intros -> <-. Qed.

Lemma op3_run g f x y z st r :
  f_stack f = x :: y :: z :: st → g x y z = r → op3 g f = Done (([], None), f<| f_stack := r :: st |>).
Proof. destruct f. cbn. by intros -> <-. Qed.

Lemma signextend_run f x y st : f_stack f = x :: y :: st → word x →
  opSignExtend f = Done (([], None), f<| f_stack := (if x <? 31 then sign_extend (8 * x + 8) y else y) :: st |>).
Proof.
  destruct f. cbn. intros -> Hx. unfold opSignExtend, pop, mbind, rM_bind. cbn.
  destruct (x <? 31) eqn:E; [|done]. cbn. unfold word in Hx.
  rewrite Uint64_small, word_signextend_correct by (unfold in_u64; lia). done.
Qed.

Lemma flag_word b : word (flag b).
Proof. destruct b; unfold word; cbn; lia. Qed.

Lemma div_word x y : word x → word y → y ≠ 0 → word (x / y) ∧ word (x mod y).
Proof.
  unfold word. intros. pose proof (Z.mod_pos_bound x y). pose proof (Z.div_pos x y).
  assert (x / y <= x) by (apply Z.div_le_upper_bound; nia). lia.
Qed.

Lemma exec2 run f x y st o g : arith2 o = Some g → f_stack f = x :: y :: st → word x → word y →
  execute (operation_of run o) f = Done (([], None), f<| f_stack := g x y :: st |>).
Proof.
  intros Hg Hst Hx Hy.
  destruct o; try discriminate; injection Hg as <-; cbn [operation_of const_op plain_op execute];
    first [by apply signextend_run|apply (op2_run _ f x y st _ Hst); cbv beta; rewrite ?U256_unsigned; try done].
  - destruct (y =? 0) eqn:E; [done|]. apply unsigned_id, div_word; try done. lia.
  - by apply word_sdiv_correct.
  - destruct (y =? 0) eqn:E; [done|]. apply unsigned_id, div_word; try done. lia.
  - by apply word_smod_correct.
  - unfold word in Hy. apply Exp_correct. lia.
  - by apply word_slt_correct.
  - by apply word_sgt_correct.
  - by apply byte_correct.
  - by apply shl_correct.
  - by apply shr_correct.
  - by apply word_sar_correct.
Qed.

Lemma arith2_word o g x y : arith2 o = Some g → word x → word y → word (g x y).
Proof.
  intros Hg Hx Hy. assert (word 0) by (unfold word; lia). destruct (land_word x y Hx Hy) as (? & ? & ?).
  destruct o; try discriminate; injection Hg as <-; try apply unsigned_word; try apply flag_word; try done.
  1-4: destruct (y =? 0) eqn:E; try done; try apply unsigned_word; apply div_word; try done; lia.
  - destruct (x <? 31); [apply unsigned_word|done].
  - destruct (x <? 32); [|done]. unfold word. pose proof (Z.mod_pos_bound (y / 256 ^ (31 - x)) 256). lia.
  - unfold word in *. pose proof (Z.pow_pos_nonneg 2 x). split; [apply Z.div_pos; lia|].
    apply Z.le_lt_trans with y; [apply Z.div_le_upper_bound; nia|lia].
Qed.

Lemma exec1 run f x st o g : arith1 o = Some g → f_stack f = x :: st → word x →
  execute (operation_of run o) f = Done (([], None), f<| f_stack := g x :: st |>) ∧ word (g x).
Proof.
  intros Hg Hst Hx. unfold word in Hx. destruct o; try discriminate; injection Hg as <-; cbn [operation_of const_op plain_op execute].
  - split; [|apply flag_word]. apply (op1_run _ f x st _ Hst). cbv beta. f_equal. lia.
  - split; [|unfold word; lia]. apply (op1_run _ f x st _ Hst). cbv beta. rewrite U256_unsigned. unfold unsigned, Z.lnot.
    rewrite <-(Z.mod_unique (Z.pred (- x)) (2 ^ 256) (- 1) (2 ^ 256 - 1 - x)); lia.
Qed.

Lemma exec3 run f x y z st o g : arith3 o = Some g → f_stack f = x :: y :: z :: st → word x → word y → word z →
  execute (operation_of run o) f = Done (([], None), f<| f_stack := g x y z :: st |>) ∧ word (g x y z).
Proof.
  intros Hg Hst Hx Hy Hz. unfold word in Hx, Hy, Hz.
  assert (∀ n, z ≠ 0 → word (n mod z)) as Hw by (intros n ?; unfold word; pose proof (Z.mod_pos_bound n z); lia).
  destruct o; try discriminate; injection Hg as <-; cbn [operation_of const_op plain_op execute];
    (split; [|destruct (z =? 0) eqn:E; [unfold word; lia|apply Hw; lia]]);
    apply (op3_run _ f x y z st _ Hst); cbv beta; destruct (z =? 0) eqn:E;
    [by replace (0 <? z) with false by lia| |by replace (0 <? z) with false by lia|];
    (replace (0 <? z) with true by lia); rewrite U256_unsigned; apply unsigned_id, Hw; lia.
Qed.
End instructions.

(** C20. The instructions that compute do arithmetic modulo 2^256: on operands that are
    words, every one of the 25 leaves on the stack the result that arith gives (signed
    instructions in two's complement, division and remainder by zero are zero, ADDMOD
    and MULMOD without intermediate overflow, EXP by repeated squaring), which is a word
    again, and changes nothing else. *)
Theorem arithmetic_correct {S} {VS : VmState S} `{KeccakLib, CryptoLib} run (f : frame S) o args r st :
  arith o args = Some r → Forall word args → f_stack f = args ++ st →
  execute (operation_of run o) f = Done (([], None), f<| f_stack := r :: st |>) ∧ word r.
Proof.
  intros Hr Hw Hst. destruct args as [|x [|y [|z [|? ?]]]]; try discriminate; decompose_Forall; cbn in Hr, Hst.
  - destruct (arith1 o) eqn:E; cbn in Hr; [|done]. injection Hr as <-. by apply exec1.
  - destruct (arith2 o) eqn:E; cbn in Hr; [|done]. injection Hr as <-. split; [by apply exec2|by eapply arith2_word].
  - destruct (arith3 o) eqn:E; cbn in Hr; [|done]. injection Hr as <-. by apply exec3.
Qed.

(** [-7 / 2], in two's complement, rounds towards zero. *)
Lemma arithmetic_correct_witness :
  let c := NewContract (AccountRef user1) acc1 0 100 in
  let f := mkFrame 4 [2 ^ 256 - 7; 2; 9] NewMemory c (NewEVM toy_ctx fresh []) in
  @execute _ (@operation_of _ (@StateDB_vm _ _ (@cachingDB toy_keccak) toy_keccak) toy_keccak toy_crypto
    (λ _ _ _ _, Fuel) Op.SDIV) f = Done (([], None), f<| f_stack := [2 ^ 256 - 3; 9] |>).
Proof.
  intros c f. apply (proj1 (@arithmetic_correct _ (@StateDB_vm _ _ (@cachingDB toy_keccak) toy_keccak) toy_keccak toy_crypto
    (λ _ _ _ _, Fuel) f Op.SDIV [2 ^ 256 - 7; 2] (2 ^ 256 - 3) [9]
    ltac:(vm_compute; reflexivity) ltac:(repeat constructor; unfold word; lia) eq_refl)).
Defined.
