(* ===== verification/VmJumps.v ===== *)
(** * Jump destinations (core/vm/analysis.go)

    The bitmap that the analysis computes marks the bytes of the code that are data of
    pushes, and no others; a jump is accepted exactly when its target is a [JUMPDEST] that
    is an instruction.  The analysis never reads or writes out of range. *)

From Stdlib Require Import ZArith Lia ZifyBool.
From stdpp Require Import base tactics strings numbers gmap list.
From S2P Require Import Prelude Rlp Trie TrieDb.
From S2P Require Import StateObject StateDb StateFacts.
From S2P Require Import VmBase VmMachine VmContracts VmInstr VmRun VmStateDb VmWords.

Local Open Scope Z_scope.
Local Open Scope record_scope.

(** ** Specification *)

(** The number of data bytes of an instruction. *)
Definition push_size (op : Z) : nat := if (PUSH1 <=? op) && (op <=? PUSH32) then Z.to_nat (op - PUSH1 + 1) else 0.

(** Which bytes of a code are data, when the first [skip] are. *)
Fixpoint data_mask (skip : nat) (code : bytes) : list bool :=
  match code with
  | [] => []
  | op :: code =>
      match skip with
      | O => false :: data_mask (push_size op) code
      | S skip => true :: data_mask skip code
      end
  end.

(** The target of a jump: an instruction [JUMPDEST]. *)
Definition valid_dest (code : bytes) (dest : Z) : Prop :=
  0 <= dest ∧ code !! Z.to_nat dest = Some JUMPDEST ∧ data_mask 0 code !! Z.to_nat dest = Some false.

(** ** Bit vectors *)

Definition bit (bits : bitvec) (q : Z) : bool :=
  match bits !! Z.to_nat (q / 8) with Some x => Z.testbit x (7 - q mod 8) | None => false end.

Lemma or_at_run bits i v : 0 <= i < lenZ bits →
  ∃ bits', or_at bits i v = Ret bits' ∧ length bits' = length bits ∧
    ∀ q, 0 <= q → bit bits' q = bit bits q || ((q / 8 =? i) && Z.testbit v (7 - q mod 8)).
Proof.
  intros Hi. unfold or_at. destruct (slice_get_lookup bits i Hi) as (x & -> & Hx). cbn.
  rewrite slice_set_ok by done. eexists. split; [done|]. split; [apply length_insert|].
  intros q Hq. unfold bit. destruct (q / 8 =? i) eqn:E.
  - replace (q / 8) with i by lia. rewrite list_lookup_insert_eq by (unfold lenZ in Hi; lia). rewrite Hx. apply Z.lor_spec.
  - rewrite list_lookup_insert_ne by dlia. cbn. by rewrite orb_false_r.
Qed.

Lemma byte_cases m : 0 <= m < 8 → m = 0 ∨ m = 1 ∨ m = 2 ∨ m = 3 ∨ m = 4 ∨ m = 5 ∨ m = 6 ∨ m = 7.
Proof. lia. Qed.

Lemma mask_bits m n : 0 <= m < 8 → 0 <= n < 8 →
  Z.testbit (Z.shiftr 255 m) (7 - n) = (m <=? n) ∧ Z.testbit (255 - Z.shiftr 255 m) (7 - n) = (n <? m).
Proof.
  intros Hm Hn. destruct (byte_cases m Hm) as [->|[->|[->|[->|[->|[->|[->| ->]]]]]]];
    destruct (byte_cases n Hn) as [->|[->|[->|[->|[->|[->|[->| ->]]]]]]]; done.
Qed.

Lemma bits_set_run bits p : 0 <= p → p / 8 < lenZ bits →
  ∃ bits', bits_set bits p = Ret bits' ∧ length bits' = length bits ∧
    ∀ q, 0 <= q → bit bits' q = bit bits q || (q =? p).
Proof.
  intros Hp Hl. destruct (or_at_run bits (p / 8) (Z.shiftr 128 (p mod 8))) as (b' & E & Hlen & Hb); [dlia|].
  exists b'. split; [exact E|]. split; [exact Hlen|]. intros q Hq. rewrite Hb by done. f_equal.
  rewrite Z.shiftr_spec by dlia. change 128 with (2 ^ 7). rewrite Z.pow2_bits_eqb by lia. dlia.
Qed.

Lemma bits_set8_run bits p : 0 <= p → p / 8 + 1 < lenZ bits →
  ∃ bits', bits_set8 bits p = Ret bits' ∧ length bits' = length bits ∧
    ∀ q, 0 <= q → bit bits' q = bit bits q || ((p <=? q) && (q <? p + 8)).
Proof.
  intros Hp Hl. unfold bits_set8.
  destruct (or_at_run bits (p / 8) (Z.shiftr 255 (p mod 8))) as (b1 & -> & Hlen1 & Hb1); [dlia|]. cbn [mbind outcome_bind].
  destruct (or_at_run b1 (p / 8 + 1) (255 - Z.shiftr 255 (p mod 8))) as (b2 & -> & Hlen2 & Hb2); [unfold lenZ in *; dlia|].
  exists b2. split; [done|]. split; [congruence|]. intros q Hq. rewrite Hb2, Hb1, <-orb_assoc by done. f_equal.
  pose proof (Z.mod_pos_bound p 8 ltac:(lia)) as Hm. pose proof (Z.mod_pos_bound q 8 ltac:(lia)) as Hn.
  destruct (mask_bits (p mod 8) (q mod 8) Hm Hn) as [-> ->]. dlia.
Qed.

(** ** The loops *)

(** [bits'] is [bits] with the positions from [p] to [p + n] set. *)
Definition marked (bits bits' : bitvec) (p n : Z) : Prop :=
  length bits' = length bits ∧ ∀ q, 0 <= q → bit bits' q = bit bits q || ((p <=? q) && (q <? p + n)).

Lemma marked_nil bits p : marked bits bits p 0.
Proof. split; [done|]. intros q Hq. destruct (bit bits q); cbn; [done|]. lia. Qed.

Lemma marked_app b1 b2 b3 p n m : 0 <= n → 0 <= m → marked b1 b2 p n → marked b2 b3 (p + n) m → marked b1 b3 p (n + m).
Proof.
  intros Hn Hm [Hl1 H1] [Hl2 H2]. split; [congruence|]. intros q Hq. rewrite H2, H1, <-orb_assoc by done. f_equal. lia.
Qed.

Lemma mark8_run fuel : ∀ n p bits, 0 <= p → 0 <= n → n / 8 <= Z.of_nat fuel → (p + n) / 8 < lenZ bits →
  ∃ bits', mark8 fuel n p bits = Ret (n mod 8, p + 8 * (n / 8), bits') ∧ marked bits bits' p (8 * (n / 8)).
Proof.
  induction fuel as [|fuel IH]; intros n p bits Hp Hn Hf Hl; cbn [mark8].
  { replace (n mod 8) with n by dlia. replace (n / 8) with 0 by dlia. rewrite Z.add_0_r. eauto using marked_nil. }
  destruct (8 <=? n) eqn:E.
  - destruct (bits_set8_run bits p) as (b1 & -> & Hl1 & H1); [done|dlia|]. cbn [mbind outcome_bind].
    destruct (IH (n - 8) (p + 8) b1) as (b2 & -> & H2); [lia|lia|dlia|unfold lenZ in *; rewrite Hl1; by replace (p + 8 + (n - 8)) with (p + n) by lia|].
    exists b2. replace ((n - 8) mod 8) with (n mod 8) by dlia. replace (n / 8) with (1 + (n - 8) / 8) by dlia. split.
    { by rewrite Z.mul_add_distr_l, Z.mul_1_r, Z.add_assoc. }
    rewrite Z.mul_add_distr_l. apply (marked_app _ b1); [lia|dlia|done|exact H2].
  - replace (n mod 8) with n by dlia. replace (n / 8) with 0 by dlia. rewrite Z.add_0_r. eauto using marked_nil.
Qed.

Lemma mark1_run fuel : ∀ n p bits, 0 <= p → 0 <= n <= Z.of_nat fuel → (p + n) / 8 < lenZ bits →
  ∃ bits', mark1 fuel n p bits = Ret (p + n, bits') ∧ marked bits bits' p n.
Proof.
  induction fuel as [|fuel IH]; intros n p bits Hp Hn Hl; cbn [mark1].
  { replace n with 0 by lia. rewrite Z.add_0_r. eauto using marked_nil. }
  destruct (0 <? n) eqn:E.
  - destruct (bits_set_run bits p) as (b1 & -> & Hl1 & H1); [done|dlia|]. cbn [mbind outcome_bind].
    destruct (IH (n - 1) (p + 1) b1) as (b2 & -> & H2); [lia|lia|unfold lenZ in *; rewrite Hl1; by replace (p + 1 + (n - 1)) with (p + n) by lia|].
    exists b2. split; [by replace (p + 1 + (n - 1)) with (p + n) by lia|]. replace n with (1 + (n - 1)) by lia.
    apply (marked_app _ b1); [lia|lia| |exact H2]. split; [done|]. intros q Hq. rewrite H1 by done. f_equal. lia.
  - replace n with 0 by lia. rewrite Z.add_0_r. eauto using marked_nil.
Qed.

Lemma data_mask_skip n : ∀ code i, data_mask n code !! i =
  if decide (i < n)%nat then const true <$> code !! i else data_mask 0 (drop n code) !! (i - n)%nat.
Proof.
  induction n as [|n IH]; intros code i.
  { rewrite drop_0, Nat.sub_0_r. by destruct (decide _); [lia|]. }
  destruct code as [|x code]; cbn [data_mask drop].
  { destruct (decide _); [by rewrite lookup_nil|done]. }
  destruct i as [|i]; cbn; [done|]. rewrite IH. repeat destruct (decide _); try done; lia.
Qed.

Lemma data_mask_length n code : length (data_mask n code) = length code.
Proof. revert n. induction code as [|x code IH]; intros [|n]; cbn; by rewrite ?IH. Qed.

Lemma push_size_bound op : (push_size op <= 32)%nat.
Proof. unfold push_size, PUSH1, PUSH32. destruct (_ && _) eqn:E; lia. Qed.

Lemma bitmap_loop_run code fuel : ∀ p bits, 0 <= p → lenZ code - p <= Z.of_nat fuel →
  lenZ bits = lenZ code / 8 + 5 → (∀ q, p <= q → bit bits q = false) →
  ∃ bits', bitmap_loop fuel code p bits = Ret bits' ∧ length bits' = length bits ∧
    (∀ q, 0 <= q < p → bit bits' q = bit bits q) ∧
    (∀ q, p <= q < lenZ code → Some (bit bits' q) = data_mask 0 (drop (Z.to_nat p) code) !! Z.to_nat (q - p)).
Proof.
  induction fuel as [|fuel IH]; intros p bits Hp Hf Hl Hb; cbn [bitmap_loop].
  { exists bits. split_and!; try done. intros q Hq. unfold lenZ in *. lia. }
  destruct (p <? lenZ code) eqn:E; [|exists bits; split_and!; try done; intros; lia].
  destruct (slice_get_lookup code p) as (op & -> & Hop); [unfold lenZ in E; lia|]. cbn [mbind outcome_bind].
  set (n := Z.of_nat (push_size op)).
  assert (∃ bits1, (if (PUSH1 <=? op) && (op <=? PUSH32)
     then r ← mark8 5 (op - PUSH1 + 1) (p + 1) bits;
          let '(numbits, pc, bits) := r in
          r ← mark1 8 numbits pc bits;
          let '(pc, bits) := r in bitmap_loop fuel code pc bits
     else bitmap_loop fuel code (p + 1) bits) = bitmap_loop fuel code (p + 1 + n) bits1 ∧ marked bits bits1 (p + 1) n)
    as (b1 & -> & Hl1 & Hm1).
  { pose proof (push_size_bound op). unfold n, push_size in *. destruct (_ && _) eqn:Ep.
    2: { exists bits. replace (p + 1 + Z.of_nat 0) with (p + 1) by lia. eauto using marked_nil. }
    unfold PUSH1, PUSH32 in *. set (k := op - 96 + 1) in *.
    destruct (mark8_run 5 k (p + 1) bits) as (b8 & -> & H8); [lia|lia|dlia|dlia|]. cbn [mbind outcome_bind].
    destruct (mark1_run 8 (k mod 8) (p + 1 + 8 * (k / 8)) b8) as (b1 & -> & H1); [dlia|dlia|unfold lenZ at 1; rewrite (proj1 H8); fold (lenZ bits); dlia|].
    cbn [mbind outcome_bind]. exists b1. split; [f_equal; dlia|].
    replace (Z.of_nat (Z.to_nat k)) with (8 * (k / 8) + k mod 8) by dlia. eapply marked_app; [dlia|dlia|exact H8|exact H1]. }
  destruct (IH (p + 1 + n) b1) as (b2 & -> & Hl2 & Hlow & Hhigh); [lia|lia|unfold lenZ in *; congruence|intros q Hq; rewrite Hm1, Hb by lia; lia|].
  exists b2. split; [done|]. split; [congruence|].
  assert (drop (Z.to_nat p) code = op :: drop (Z.to_nat (p + 1)) code) as Hd.
  { replace (Z.to_nat (p + 1)) with (S (Z.to_nat p)) by lia. by apply drop_S. }
  split.
  - intros q Hq. rewrite Hlow, Hm1 by lia. replace (p + 1 <=? q) with false by lia. by rewrite orb_false_r.
  - intros q Hq. rewrite Hd. cbn [data_mask]. destruct (decide (q = p)) as [->|Hne].
    { rewrite Z.sub_diag, Hlow, Hm1, Hb by lia. by replace (p + 1 <=? p) with false by lia. }
    replace (Z.to_nat (q - p)) with (S (Z.to_nat (q - p - 1))) by lia. cbn [lookup list_lookup].
    fold (data_mask (push_size op) (drop (Z.to_nat (p + 1)) code) !! Z.to_nat (q - p - 1)).
    rewrite data_mask_skip, drop_drop, lookup_drop. destruct (decide _) as [Hlt|Hge].
    + rewrite Hlow, Hm1, Hb by lia. destruct (lookup_lt_is_Some_2 code (Z.to_nat (p + 1) + Z.to_nat (q - p - 1))) as [y ->];
        [unfold lenZ in *; lia|]. cbn. f_equal. fold n in Hlt. lia.
    + rewrite Hhigh by lia. replace (Z.to_nat (q - p - 1) - push_size op)%nat with (Z.to_nat (q - (p + 1 + n))) by lia.
      by replace (Z.to_nat (p + 1) + push_size op)%nat with (Z.to_nat (p + 1 + n)) by lia.
Qed.

Lemma codeBitmap_run code : ∃ bits, codeBitmap code = Ret bits ∧ lenZ bits = lenZ code / 8 + 5 ∧
  ∀ q, 0 <= q < lenZ code → Some (bit bits q) = data_mask 0 code !! Z.to_nat q.
Proof.
  unfold codeBitmap. set (z := replicate _ 0).
  assert (lenZ z = lenZ code / 8 + 5) as Hz by (unfold lenZ, z; rewrite length_replicate, !Nat2Z.inj_add, Nat2Z.inj_div; lia).
  destruct (bitmap_loop_run code (length code) 0 z) as (b & -> & Hl & _ & Hb); [lia|unfold lenZ; lia|done| |].
  { intros q _. unfold bit. destruct (z !! Z.to_nat (q / 8)) eqn:E; [|done].
    apply lookup_replicate in E as [-> _]. apply Z.bits_0. }
  exists b. split; [done|]. split; [unfold lenZ in *; congruence|]. intros q Hq. by rewrite Hb, drop_0, Z.sub_0_r.
Qed.

Lemma codeSegment_run code bits dest : lenZ bits = lenZ code / 8 + 5 → 0 <= dest < lenZ code →
  codeSegment bits dest = Ret (negb (bit bits dest)).
Proof.
  intros Hl Hd. unfold codeSegment, bit.
  destruct (slice_get_lookup bits (dest / 8)) as (x & -> & ->); [unfold lenZ in *; dlia|]. cbn. f_equal.
  pose proof (Z.mod_pos_bound dest 8). rewrite Z.shiftr_div_pow2 by lia.
  change 128 with (2 ^ 7). rewrite <-Z.pow_sub_r, Z.eqb_sym by lia.
  destruct (Z.testbit x (7 - dest mod 8)) eqn:E; cbn [negb].
  - apply Z.eqb_neq. intros H0. assert (Z.testbit (Z.land x (2 ^ (7 - dest mod 8))) (7 - dest mod 8) = false) as Hc
      by (rewrite <-H0; apply Z.bits_0). rewrite Z.land_spec, E, Z.pow2_bits_true in Hc by lia. done.
  - apply Z.eqb_eq. symmetry. apply Z.bits_inj_0. intros i. rewrite Z.land_spec.
    destruct (decide (i = 7 - dest mod 8)) as [->|Hne]; [by rewrite E|]. rewrite Z.pow2_bits_false by lia. apply andb_false_r.
Qed.

Section cache.
  Context {KL : KeccakLib}.

(** The code hash of a contract that has code. *)
Definition hashed (h code : bytes) : Prop := code ≠ [] → h = keccak256 code.

(** Two codes with the same hash. *)
Definition code_collision : Prop := ∃ code code' : bytes, code ≠ code' ∧ keccak256 code = keccak256 code'.

(** The cache of analyses holds analyses, under the hashes of the codes. *)
Definition dests_ok (d : destinations) : Prop :=
  ∀ h code bits, d !! h = Some (code, bits) → codeBitmap code = Ret bits ∧ h = keccak256 code.

Lemma analysis_run d h code : dests_ok d → h = keccak256 code →
  ∃ r, analysis d h code = Ret r ∧
    match r with
    | None => code_collision
    | Some (bits, d') => codeBitmap code = Ret bits ∧ dests_ok d'
    end.
Proof.
  intros Hd Hh. unfold analysis. destruct (d !! h) as [[code' bits]|] eqn:E.
  - eexists. split; [done|]. destruct (Hd _ _ _ E) as [Hb Hh']. case_bool_decide as Hc; [by subst|].
    exists code', code. split; [done|congruence].
  - destruct (codeBitmap_run code) as (bits & Hb & _). rewrite Hb. cbn. eexists. split; [done|]. split; [done|].
    intros h' code' bits'. rewrite lookup_insert_Some. intros [[<- [= <- <-]]|[_ ?]]; [done|]. by eapply Hd.
Qed.

Lemma dests_has_run d h code dest : dests_ok d → hashed h code → 0 <= dest → lenZ code <= 2 ^ 62 →
  ∃ r, dests_has d h code dest = Ret r ∧
    match r with
    | None => code_collision
    | Some (b, d') => dests_ok d' ∧ (b = true ↔ valid_dest code dest)
    end.
Proof.
  intros Hd Hh Hdest Hlen. unfold dests_has, valid_dest. pose proof (BitLen_bound dest 62 Hdest) as Hbl.
  assert (∀ P, (63 <=? BitLen dest) || (lenZ code <=? Uint64 dest) = true → code !! Z.to_nat dest = Some JUMPDEST → P) as Hout.
  { intros P HP Hc. apply lookup_lt_Some in Hc. unfold lenZ in *. rewrite Uint64_small in HP by (unfold in_u64; lia). lia. }
  destruct (_ || _) eqn:E.
  { eexists. split; [done|]. split; [done|]. split; [done|]. intros (_ & Hc & _). by eapply Hout. }
  assert (h = keccak256 code) as Hk.
  { apply Hh. intros ->. unfold lenZ, Uint64 in E. cbn in E. pose proof (u64_range (Z.abs dest)) as Hu. unfold in_u64 in Hu. lia. }
  assert (dest < 2 ^ 62) by lia. rewrite Uint64_small in * by (unfold in_u64; lia).
  destruct (analysis_run d h code Hd Hk) as (r & -> & Hr). cbn [mbind outcome_bind].
  destruct r as [[bits d']|]; [|eauto]. destruct Hr as [Hb Hd'].
  destruct (slice_get_lookup code dest) as (op & -> & Hop); [unfold lenZ in E; lia|]. cbn [mbind outcome_bind].
  destruct (op =? JUMPDEST) eqn:Eo.
  2: { eexists. split; [done|]. split; [done|]. split; [done|]. intros (_ & Hc & _). by simplify_eq. }
  destruct (codeBitmap_run code) as (bits' & Hb' & Hl & Hbits). rewrite Hb in Hb'. injection Hb' as <-.
  rewrite (codeSegment_run code) by (done || lia). cbn. eexists. split; [done|]. split; [done|].
  rewrite <-Hbits by lia. rewrite Hop. apply Z.eqb_eq in Eo as ->. destruct (bit bits dest); naive_solver.
Qed.

End cache.

(** C21. JUMP goes where it is allowed to: on any code and any target, the instruction
    moves the program counter to the target exactly when the byte there is a JUMPDEST
    that is not data of a push, and fails with an invalid jump otherwise; it never
    indexes the code or the bitmap out of range. The only other outcome is that two
    codes have the same hash. *)
Theorem jump_correct `{KeccakLib} {S} (f : frame S) dest st :
  let c := f_contract f in
  let d := e_jumpdests (f_evm f) in
  dests_ok d → hashed (c_CodeHash c) (c_Code c) → 0 <= dest → lenZ (c_Code c) <= 2 ^ 62 → f_stack f = dest :: st →
  match opJump f with
  | Done ((_, None), f') =>
      valid_dest (c_Code c) dest ∧ f_pc f' = dest ∧ f_stack f' = st ∧ dests_ok (e_jumpdests (f_evm f'))
  | Done ((_, Some e), f') =>
      ¬ valid_dest (c_Code c) dest ∧ e = errInvalidJump dest ∧ dests_ok (e_jumpdests (f_evm f'))
  | Collision => code_collision
  | _ => False
  end.
Proof.
  intros c d Hd Hh Hdest Hlen Hst. destruct f as [pc st0 mem c0 e]. cbn in *. subst.
  unfold opJump, jump_to, pop, the_contract, the_evm, mbind, rM_bind, rlift. cbn. fold c d.
  destruct (dests_has_run d (c_CodeHash c) (c_Code c) dest Hd Hh Hdest Hlen) as (r & -> & Hr).
  destruct r as [[b d']|]; cbn; [|done]. destruct Hr as [Hd' Hb], b; cbn; [|naive_solver].
  split_and!; try done; [by apply Hb|].
  destruct (proj1 Hb eq_refl) as (_ & Hc%lookup_lt_Some & _). unfold lenZ in Hlen. fold c in Hlen. apply Uint64_small. unfold in_u64. lia.
Qed.

(** A jump over the data of a push, which looks like a destination. *)
Lemma jump_correct_witness :
  let code := [96; 5; 86; 96; 91; 91] in
  let c := SetCallCode (replicate 32 1) (toy_keccak code) code (NewContract (AccountRef (replicate 32 2)) (replicate 32 1) 0 100) in
  let ctx := mkContext (λ _, zeroHash) zeroHash 1 zeroHash 1 1 1 1 MainnetChainConfig false false in
  ∃ f', opJump (mkFrame 2 [5] NewMemory c (NewEVM ctx () [])) = Done (([], None), f') ∧ valid_dest code 5 ∧ f_pc f' = 5.
Proof.
  intros code c ctx. set (f := mkFrame 2 [5] NewMemory c (NewEVM ctx () [])).
  pose proof (@jump_correct toy_keccak () f 5 []) as Hw. cbn zeta in Hw.
  destruct (opJump f) as [[[ret [err|]] f']| | |] eqn:E; vm_compute in E; try discriminate E.
  destruct Hw as (Hv & Hpc & _);
    [intros h code' bits Hin; exfalso; exact (lookup_empty_Some h (code', bits) Hin)|by intros _|lia|unfold lenZ; cbn; lia|reflexivity|].
  exists f'. split; [|by split]. injection E as <- _. reflexivity.
Defined.
