(* ===== verification/VmLogic.v ===== *)
(** * Reasoning about runs of the virtual machine (core/vm)

    What the machine relies on when it uses a state database ([VmSafeLaws]), the invariant
    of a running contract, and rules for runs that neither panic nor run out of fuel. *)

From Stdlib Require Import ZArith Lia ZifyBool.
From stdpp Require Import base tactics strings numbers gmap list.
From S2P Require Import Prelude Rlp Trie TrieDb.
From S2P Require Import StateObject VmBase VmMachine VmContracts VmInstr VmRun VmWords VmJumps.

Local Open Scope Z_scope.
Local Open Scope record_scope.
Local Open Scope vm_scope.

(** ** Runs *)

(** The run returns a result that satisfies [Q], unless code hashes collide. *)
Definition wp `{KeccakLib} {S A} (m : rM S A) (Q : A → S → Prop) (s : S) : Prop :=
  match m s with
  | Done (a, s') => Q a s'
  | Crash _ | Fuel => False
  | Collision => code_collision
  end.

Section runs.
  Context {KL : KeccakLib}.

Lemma wp_bind {S A B} (m : rM S A) (f : A → rM S B) Q s : wp m (λ a, wp (f a) Q) s → wp (m ≫= f) Q s.
Proof. unfold wp, mbind, rM_bind. by destruct (m s) as [[? ?]| | |]. Qed.

Lemma wp_ret {S A} (a : A) Q (s : S) : Q a s → wp (mret a) Q s.
Proof. done. Qed.

Lemma wp_mono {S A} (m : rM S A) (Q Q' : A → S → Prop) s : wp m Q s → (∀ a s', Q a s' → Q' a s') → wp m Q' s.
Proof. unfold wp. destruct (m s) as [[? ?]| | |]; auto. Qed.

Lemma wp_rget {S} Q (s : S) : Q s s → wp rget Q s.
Proof. done. Qed.

Lemma wp_rmod {S} (g : S → S) Q s : Q () (g s) → wp (rmod g) Q s.
Proof. done. Qed.

Lemma wp_rlift {S A} (m : outcome A) Q (s : S) : (∃ a, m = Ret a ∧ Q a s) → wp (rlift m) Q s.
Proof. intros (a & -> & H). exact H. Qed.

Lemma wp_ebind {S A B} (m : rM S (A + vmErr)) (f : A → rM S (B + vmErr)) Q s :
  wp m (λ r s', match r with inl a => wp (f a) Q s' | inr e => Q (inr e) s' end) s → wp (ebind m f) Q s.
Proof. intros H. apply wp_bind. eapply wp_mono; [exact H|]. by intros [a|e] s'. Qed.

End runs.

(** ** The state database *)

(** A byte slice. *)
Definition gobytes (b : bytes) : Prop := Forall is_byte b ∧ lenZ b <= 2 ^ 62.

(** [vs_ok s g l k]: the database [s] stands for [g]; [l] are the snapshots that can be
    reverted to, with what they stand for; [k] more snapshots can be taken. [vs_quiet]
    relates states that differ at most in accounts that are empty, [vs_bumped] states that
    differ in the nonce of an account, and [vs_moved d] states such that the second holds
    at most [d] more than the first, over all accounts. *)
Class VmSafe (S : Type) := {
  vs_abs : Type;
  vs_ok : S → vs_abs → list (Z * vs_abs) → Z → Prop;
  vs_bal : vs_abs → bytes → Z;
  vs_exists : vs_abs → bytes → bool;
  vs_code : vs_abs → bytes → bytes;
  vs_quiet : vs_abs → vs_abs → Prop;
  vs_moved : Z → vs_abs → vs_abs → Prop;
  vs_bumped : bytes → vs_abs → vs_abs → Prop
}.

Section laws.
  Context {S : Type} {VF : VmSafe S}.

Definition acts {A} (m : stM S A) (P : vs_abs → Prop) (R : vs_abs → A → vs_abs → Prop) : Prop :=
  ∀ s g l k, vs_ok s g l k → P g → ∃ a s' g', m s = Ret (a, s') ∧ vs_ok s' g' l k ∧ R g a g'.

Definition reads {A} (m : stM S A) (Q : vs_abs → A → Prop) : Prop := acts m (λ _, True) (λ g a g', g' = g ∧ Q g a).

Definition same_balances {A} : vs_abs → A → vs_abs → Prop := λ g _ g', ∀ b, vs_bal g' b = vs_bal g b.
End laws.

Class VmSafeLaws (S : Type) {VS : VmState S} {VF : VmSafe S} {KL : KeccakLib} := {
  vs_quiet_preorder : PreOrder vs_quiet;
  vs_moved_same g g' : (∀ b, vs_bal g' b = vs_bal g b) → vs_moved 0 g g';
  vs_moved_trans d d' g g1 g2 : vs_moved d g g1 → vs_moved d' g1 g2 → vs_moved (d + d') g g2;
  vs_moved_less d d' g g' : vs_moved d g g' → d <= d' → vs_moved d' g g';
  vs_less s g l k k' : vs_ok s g l k → k' <= k → vs_ok s g l k';
  vl_GetBalance a : reads (v_GetBalance a) (λ g b, b = vs_bal g a ∧ 0 <= b);
  vl_Exist a : reads (v_Exist a) (λ g b, b = vs_exists g a);
  vl_GetNonce a : reads (v_GetNonce a) (λ _ _, True);
  vl_GetCodeHash a : reads (v_GetCodeHash a) (λ g h, gobytes h ∧ hashed h (vs_code g a));
  vl_GetCode a : reads (v_GetCode a) (λ g c, gobytes (default [] c) ∧ default [] c = vs_code g a);
  vl_GetCodeSize a : reads (v_GetCodeSize a) (λ _ _, True);
  vl_GetState a k : reads (v_GetState a k) (λ _ v, gobytes v);
  vl_HasSuicided a : reads (v_HasSuicided a) (λ _ _, True);
  vl_Empty a : reads (v_Empty a) (λ _ _, True);
  vl_CreateAccount a : acts (v_CreateAccount a) (λ _, True)
    (λ g _ g', (∀ b, vs_bal g' b = vs_bal g b) ∧ (vs_exists g a = false → vs_quiet g g'));
  vl_SubBalance a v : acts (v_SubBalance a v) (λ g, 0 <= v <= vs_bal g a)
    (λ g _ g', vs_moved (- v) g g' ∧ (v = 0 → vs_quiet g g'));
  vl_AddBalance a v : acts (v_AddBalance a v) (λ _, 0 <= v)
    (λ g _ g', vs_moved v g g' ∧ (∀ b, vs_bal g b <= vs_bal g' b) ∧ (v = 0 → vs_quiet g g'));
  vl_SetNonce a n : acts (v_SetNonce a n) (λ _, True)
    (λ g _ g', (∀ b, vs_bal g' b = vs_bal g b) ∧ vs_bumped a g g');
  vl_SetCode a c : acts (v_SetCode a (Some c)) (λ _, gobytes c) same_balances;
  vl_AddRefund v : acts (v_AddRefund v) (λ _, True) same_balances;
  vl_SetState a k v : acts (v_SetState a k v) (λ _, gobytes v) same_balances;
  vl_Suicide a : acts (v_Suicide a) (λ _, True) (λ g _ g', vs_moved (- vs_bal g a) g g');
  vl_AddLog log : acts (v_AddLog log) (λ _, True) same_balances;
  vl_AddPreimage h p : acts (v_AddPreimage h p) (λ _, True)
    (λ g _ g', (∀ b, vs_bal g' b = vs_bal g b) ∧ vs_quiet g g');
  vl_Snapshot s g l k : vs_ok s g l k → 0 < k →
    ∃ id s', v_Snapshot s = Ret (id, s') ∧ vs_ok s' g (l ++ [(id, g)]) (k - 1);
  vl_Revert s g l id g0 l' k : vs_ok s g (l ++ (id, g0) :: l') k →
    ∃ s', v_RevertToSnapshot id s = Ret ((), s') ∧ vs_ok s' g0 l k
}.

#[global] Existing Instance vs_quiet_preorder.

(** Documented behaviour of the libraries: the results are byte slices. *)
Class CryptoLaws `{CryptoLib} := {
  sha256_bytes b : gobytes (sha256_Sum256 b);
  ripemd160_bytes b : gobytes (ripemd160_Sum b);
  ecrecover_bytes h sig p : crypto_Ecrecover h sig = Some p → gobytes p ∧ p ≠ [];
  bn256_Add_bytes x y : gobytes (bn256_G1_Add x y);
  bn256_ScalarMult_bytes x k : gobytes (bn256_G1_ScalarMult x k);
  script_addr_bytes b : Forall is_byte (NewNeatScriptAddr b)
}.

(** ** The invariant of a running contract *)

(** The context of a block. *)
Record ctx_ok (x : Context) : Prop := {
  xo_hash n : Forall is_byte (x_GetHash x n);
  xo_origin : Forall is_byte (x_Origin x);
  xo_coinbase : Forall is_byte (x_Coinbase x);
  xo_price : 0 <= x_GasPrice x
}.

(** The most gas that a run may start with.  With more than some [2 ^ 46] one can pay for a
    modular exponentiation with an exponent longer than [maxAlloc]. *)
Definition gas_cap : Z := 2 ^ 46.

Record contract_ok `{KeccakLib} (c : Contract) : Prop := {
  ko_caller : Forall is_byte (c_CallerAddress c);
  ko_self : Forall is_byte (c_self c);
  ko_code : gobytes (c_Code c);
  ko_hash : hashed (c_CodeHash c) (c_Code c);
  ko_input : gobytes (c_Input c);
  ko_gas : 0 <= c_Gas c <= gas_cap;
  ko_value : 0 <= c_value c
}.

(** Memory stays below [2^40] bytes, the limit of [memoryGasCost]. *)
Record mem_ok (m : Memory) : Prop := { mo_bytes : Forall is_byte (m_store m); mo_len : mem_Len m <= 2 ^ 40 }.

(** Where a run takes place: its depth, its protection, the snapshots of its callers and
    the state that it started in. *)
Record scope (S : Type) {VF : VmSafe S} := mkScope {
  sc_ctx : Context;
  sc_depth : Z;
  sc_ro : bool;
  sc_snaps : list (Z * vs_abs);
  sc_start : vs_abs
}.
Arguments mkScope {S VF}.
Arguments sc_ctx {S VF}.
Arguments sc_depth {S VF}.
Arguments sc_ro {S VF}.
Arguments sc_snaps {S VF}.
Arguments sc_start {S VF}.

Definition is_rule (r : ChainConfig → Z → bool) (x : Context) : bool := r (x_chainConfig x) (x_BlockNumber x).

Section invariant.
  Context {S : Type} {VS : VmState S} {VF : VmSafe S} {KL : KeccakLib}.

Definition protected (sc : scope S) : bool := is_rule IsByzantium (sc_ctx sc) && sc_ro sc.

(** What may happen between two states: no money is made, and nothing changes under
    protection. *)
Definition since (sc : scope S) (g g' : vs_abs) : Prop := vs_moved 0 g g' ∧ (protected sc = true → vs_quiet g g').

(** The state, with what it stands for and the snapshots taken since. *)
Record evm_at (sc : scope S) (k : Z) (g : vs_abs) (l : list (Z * vs_abs)) (e : EVM S) : Prop := {
  eo_ctx : e_ctx e = sc_ctx sc;
  eo_depth : e_depth e = sc_depth sc;
  eo_ro : e_readOnly e = sc_ro sc;
  eo_data : gobytes (e_returnData e);
  eo_temp : in_u64 (e_callGasTemp e);
  eo_dests : dests_ok (e_jumpdests e);
  eo_state : vs_ok (e_state e) g (sc_snaps sc ++ l) k;
  eo_since : since sc (sc_start sc) g
}.

Definition evm_ok (sc : scope S) (k : Z) (e : EVM S) : Prop := ∃ g l, evm_at sc k g l e.

(** [m] snapshots are set aside for the callers. *)
Record frame_ok (sc : scope S) (m : Z) (f : frame S) : Prop := {
  fo_stack : Forall (Z.le 0) (f_stack f);
  fo_mem : mem_ok (f_mem f);
  fo_contract : contract_ok (f_contract f);
  fo_evm : evm_ok sc (c_Gas (f_contract f) + m) (f_evm f);
  fo_pc : in_u64 (f_pc f)
}.

(** What an instruction leaves that spends no gas. *)
Definition insn_post (sc : scope S) (m : Z) (c : Contract) (n : nat) (r : bytes * option vmErr) (f : frame S) : Prop :=
  frame_ok sc m f ∧ gobytes r.1 ∧ f_contract f = c ∧ (r.2 = None → length (f_stack f) = n).
End invariant.

(** ** Rules for the steps of instructions *)

Section rules.
  Context {S : Type} {VS : VmState S} {VF : VmSafe S} {KL : KeccakLib} {VL : VmSafeLaws S}.
  Implicit Types (e : EVM S).

#[global] Instance since_preorder sc : PreOrder (since sc).
Proof.
  split.
  - intros g. split; [by apply vs_moved_same|done].
  - intros g1 g2 g3 [Hm1 Hq1] [Hm2 Hq2]. split; [by apply (vs_moved_trans 0 0 g1 g2)|].
    intros Hp. etransitivity; [by apply Hq1|by apply Hq2].
Qed.

Lemma since_write sc g g' : protected sc = false → vs_moved 0 g g' → since sc g g'.
Proof. intros Hp Hm. split; [done|]. by rewrite Hp. Qed.

Lemma wp_pop pc x st mem c e Q : Q x (mkFrame pc st mem c e) → wp pop Q (mkFrame pc (x :: st) mem c e).
Proof. done. Qed.

Lemma wp_push pc x st mem c e Q : Q () (mkFrame pc (x :: st) mem c e) → wp (push x) Q (mkFrame pc st mem c e).
Proof. done. Qed.

Lemma wp_mem pc st mem c e Q : Q mem (mkFrame pc st mem c e) → wp the_mem Q (mkFrame pc st mem c e).
Proof. done. Qed.

Lemma wp_contract pc st mem c e Q : Q c (mkFrame pc st mem c e) → wp the_contract Q (mkFrame pc st mem c e).
Proof. done. Qed.

Lemma wp_evm pc st mem c e Q : Q e (mkFrame pc st mem c e) → wp the_evm Q (mkFrame pc st mem c e).
Proof. done. Qed.

Lemma wp_ctx pc st mem c e Q : Q (e_ctx e) (mkFrame pc st mem c e) → wp the_ctx Q (mkFrame pc st mem c e).
Proof. done. Qed.

Lemma wp_rule r pc st mem c e Q : Q (is_rule r (e_ctx e)) (mkFrame pc st mem c e) → wp (rule r) Q (mkFrame pc st mem c e).
Proof. done. Qed.

Lemma wp_Back n x pc st mem c e Q : st !! n = Some x → Q x (mkFrame pc st mem c e) → wp (Back n) Q (mkFrame pc st mem c e).
Proof. intros E H. unfold Back, wp, mbind, rM_bind, rlift. cbn. unfold stack_Back. by rewrite E. Qed.

Lemma wp_mem_update h pc st mem c e Q :
  (∃ mem', h mem = Ret mem' ∧ Q () (mkFrame pc st mem' c e)) → wp (mem_update h) Q (mkFrame pc st mem c e).
Proof. intros (mem' & E & H). unfold mem_update, the_mem, wp, mbind, rM_bind, rlift. cbn. by rewrite E. Qed.

Lemma wp_state_at {A} (m : stM S A) P R sc k g l pc st mem c e Q :
  acts m P R → evm_at sc k g l e → P g → (∀ a g', R g a g' → since sc g g') →
  (∀ a g' e', evm_at sc k g' l e' → R g a g' → Q a (mkFrame pc st mem c e')) →
  wp (state_op m) Q (mkFrame pc st mem c e).
Proof.
  intros Hm He HP Hro HQ. unfold wp, state_op. cbn.
  destruct (Hm _ _ _ _ (eo_state _ _ _ _ _ He) HP) as (a & s' & g' & -> & Hs & HR).
  eapply HQ; [|exact HR]. destruct He. constructor; try done. etransitivity; [exact eo_since0|by eapply Hro].
Qed.

Lemma wp_state_act {A} (m : stM S A) P R sc k pc st mem c e Q :
  acts m P R → evm_ok sc k e → (∀ g, P g) → (∀ g a g', R g a g' → since sc g g') →
  (∀ a g g' e', evm_ok sc k e' → R g a g' → Q a (mkFrame pc st mem c e')) →
  wp (state_op m) Q (mkFrame pc st mem c e).
Proof.
  intros Hm (g & l & He) HP Hro HQ. eapply wp_state_at; [exact Hm|exact He|done|by eapply Hro|].
  intros a g' e' He' HR. eapply HQ; [by exists g', l|exact HR].
Qed.

Lemma wp_state_read {A} (m : stM S A) R sc k pc st mem c e Q :
  reads m R → evm_ok sc k e → (∀ a g e', evm_ok sc k e' → R g a → Q a (mkFrame pc st mem c e')) →
  wp (state_op m) Q (mkFrame pc st mem c e).
Proof.
  intros Hm He HQ. eapply wp_state_act; [exact Hm|exact He|done| |].
  - by intros g a g' [-> _].
  - intros a g g' e' He' [_ HR]. by eapply HQ.
Qed.
End rules.
