(* ===== verification/VmSafeOps.v ===== *)
(** * Instructions keep the invariant (core/vm/instructions.go)

    An instruction that finds enough operands on the stack and enough memory does not
    panic, and leaves a frame that satisfies the invariant, with the number of operands
    that the jump table announces. *)

From Stdlib Require Import ZArith Lia ZifyBool.
From stdpp Require Import base tactics strings numbers gmap list.
From S2P Require Import Prelude Rlp Trie TrieDb.
From S2P Require Import StateObject VmBase VmMachine VmContracts VmInstr VmRun VmWords VmJumps VmLogic.

Local Open Scope Z_scope.
Local Open Scope record_scope.
Local Open Scope vm_scope.

(** ** Bytes *)

Lemma gobytes_nil : gobytes [].
Proof. split; [done|]. unfold lenZ. cbn [length]. lia. Qed.

Lemma be_val_pos b : Forall is_byte b → 0 <= be_val b.
Proof. intros H. apply be_val_bound in H. lia. Qed.

Lemma zeros_bytes n : Forall is_byte (replicate n 0).
Proof. apply Forall_replicate. unfold is_byte. lia. Qed.

Lemma BytesToHash_bytes b : Forall is_byte b → Forall is_byte (BytesToHash b).
Proof.
  intros H. unfold BytesToHash. repeat case_match; rewrite ?Forall_app; auto using zeros_bytes, Forall_drop, Forall_take.
Qed.

Lemma length_BytesToHash b : length (BytesToHash b) = 32%nat.
Proof.
  unfold BytesToHash. case_match; rewrite ?length_app, ?length_replicate, ?length_drop; unfold lenZ in *; lia.
Qed.

Lemma big_bytes z : Forall is_byte (big_Bytes (Z.abs z)).
Proof. apply (proj1 (proj1 (big_Bytes_spec (Z.abs z) (Z.abs_nonneg z)))). Qed.

Lemma slice_run b lo hi : 0 <= lo <= hi → hi <= lenZ b →
  ∃ d, slice b lo hi = Ret d ∧ lenZ d = hi - lo ∧ (Forall is_byte b → Forall is_byte d).
Proof.
  intros Hl Hh. unfold slice. replace (_ && _ && _) with true by lia. eexists. split; [done|]. split.
  - unfold lenZ in *. rewrite length_take, length_drop. lia.
  - intros H. by apply Forall_take, Forall_drop.
Qed.

(** Padding to a length that [make] can make. *)
Definition padded (b : bytes) (n : Z) (d : bytes) : Prop := Forall is_byte d ∧ lenZ d = Z.max n (lenZ b).

Lemma pad_run b n : Forall is_byte b → n <= maxAlloc →
  (∃ d, RightPadBytes b n = Ret d ∧ padded b n d) ∧ (∃ d, LeftPadBytes b n = Ret d ∧ padded b n d).
Proof.
  intros H Hn. unfold RightPadBytes, LeftPadBytes, make_bytes, padded. destruct (n <=? lenZ b) eqn:E.
  { split; eexists; (split; [done|]); split; [done|lia|done|lia]. }
  destruct (maxAlloc <? n) eqn:E'; [lia|]. cbn. unfold lenZ in *.
  split; eexists; (split; [done|]); rewrite Forall_app, length_app, length_replicate; (split; [auto using zeros_bytes|lia]).
Qed.

Lemma getDataBig_run data off size : gobytes data → 0 <= off → 0 <= size <= maxAlloc →
  ∃ d, getDataBig data off size = Ret d ∧ Forall is_byte d.
Proof.
  intros [Hb Hl] Ho Hs. unfold getDataBig, BigMin. set (s := if _ <? _ then _ else _).
  set (e := if _ <? _ then _ else _).
  assert (0 <= s <= e ∧ e <= lenZ data) as [Hse He].
  { unfold s, e, lenZ in *. repeat case_match; lia. }
  rewrite (Uint64_small s), (Uint64_small e) by (unfold in_u64; lia).
  rewrite (Uint64_small size), (i64_small size) by (unfold in_u64, in_i64, maxAlloc in *; lia).
  destruct (slice_run data s e Hse He) as (d & -> & _ & Hd). cbn.
  destruct (pad_run d size) as [(d' & -> & Hd' & _) _]; [auto|lia|eauto].
Qed.

(** ** Memory *)

Lemma calcMemSize_covers off size n : 0 <= off → 0 <= size → calcMemSize off size <= n → size = 0 ∨ off + size <= n.
Proof. intros Ho Hs. unfold calcMemSize. destruct (size =? 0) eqn:E; lia. Qed.

Lemma mem_Get_run mem off size : mem_ok mem → 0 <= off → 0 <= size → calcMemSize off size <= mem_Len mem →
  ∃ d, mem_Get mem (Int64 off) (Int64 size) = Ret d ∧ gobytes d.
Proof.
  intros [Hb Hl] Ho Hs Hc. destruct (calcMemSize_covers _ _ _ Ho Hs Hc) as [->|Hc'].
  { exists []. split; [done|apply gobytes_nil]. }
  unfold mem_Get. rewrite !Int64_small by lia. destruct (size =? 0) eqn:E0; [exists []; split; [done|apply gobytes_nil]|].
  replace (off <? mem_Len mem) with true by lia. replace (size <? 0) with false by lia.
  rewrite i64_small by (unfold in_i64; lia).
  destruct (slice_run (m_store mem) off (off + size)) as (d & -> & Hd & HF); [lia|done|].
  exists d. split; [done|]. split; [auto|]. lia.
Qed.

Lemma mem_GetPtr_run mem off size : mem_ok mem → 0 <= off → 0 <= size → calcMemSize off size <= mem_Len mem →
  ∃ d, mem_GetPtr mem (Int64 off) (Int64 size) = Ret d ∧ gobytes d.
Proof.
  intros Hm Ho Hs Hc. destruct (mem_Get_run mem off size Hm Ho Hs Hc) as (d & E & Hd). exists d. split; [|done].
  revert E. unfold mem_Get, mem_GetPtr. destruct (_ =? 0); [done|]. destruct (_ <? _); [|done]. by destruct (_ <? 0).
Qed.

Lemma overwrite_run store lo value : lo + lenZ value <= lenZ store → 0 <= lo →
  Forall is_byte store → Forall is_byte value →
  Forall is_byte (overwrite store (Z.to_nat lo) value) ∧ lenZ (overwrite store (Z.to_nat lo) value) = lenZ store.
Proof.
  intros Hl Ho Hs Hv. unfold overwrite, lenZ in *. split.
  - rewrite !Forall_app. auto using Forall_take, Forall_drop.
  - rewrite !length_app, length_take, length_drop. lia.
Qed.

Lemma mem_Set_run mem off size value : mem_ok mem → 0 <= off → 0 <= size → calcMemSize off size <= mem_Len mem →
  Forall is_byte value →
  ∃ mem', mem_Set mem (Uint64 off) (Uint64 size) value = Ret mem' ∧ mem_ok mem'.
Proof.
  intros [Hb Hl] Ho Hs Hc Hv. destruct (calcMemSize_covers _ _ _ Ho Hs Hc) as [->|Hc']; [by exists mem|].
  unfold mem_Set. rewrite !Uint64_small by (unfold in_u64; lia). destruct (0 <? size) eqn:E0; [|by exists mem].
  rewrite !u64_small by (unfold in_u64; lia). replace (mem_Len mem <? off + size) with false by lia.
  destruct (slice_run (m_store mem) off (off + size)) as (d & -> & _); [lia|done|]. cbn.
  destruct (overwrite_run (m_store mem) off (take (Z.to_nat size) value)) as [? ?]; try done.
  - unfold mem_Len, lenZ in *. rewrite length_take. lia.
  - by apply Forall_take.
  - eexists. split; [done|]. constructor; cbn; [done|]. unfold mem_Len in *. cbn. lia.
Qed.

Lemma mem_Set32_run mem off val : mem_ok mem → 0 <= off → off + 32 <= mem_Len mem →
  ∃ mem', mem_Set32 mem (Uint64 off) val = Ret mem' ∧ mem_ok mem'.
Proof.
  intros [Hb Hl] Ho Hc. unfold mem_Set32. rewrite Uint64_small, !u64_small by (unfold in_u64; lia).
  replace (mem_Len mem <? off + 32) with false by lia.
  destruct (slice_run (m_store mem) off (off + 32)) as (d & -> & _); [lia|done|]. cbn [mbind outcome_bind].
  destruct (overwrite_run (m_store mem) off (ReadBits val 32)) as [? ?]; try done.
  - apply be_fixed_bytes.
  - eexists. split; [done|]. constructor; cbn [m_store]; [done|]. unfold mem_Len in *. cbn [m_store]. lia.
Qed.

Lemma mem_store_byte_run mem off b : mem_ok mem → 0 <= off → off + 1 <= mem_Len mem → is_byte b →
  ∃ mem', mem_store_byte mem (Int64 off) b = Ret mem' ∧ mem_ok mem'.
Proof.
  intros [Hb Hl] Ho Hc Hbt. unfold mem_store_byte. rewrite Int64_small by lia.
  rewrite slice_set_ok by (unfold mem_Len, lenZ in *; lia). cbn. eexists. split; [done|]. constructor; cbn.
  - by apply Forall_insert.
  - unfold mem_Len, lenZ in *. cbn. by rewrite length_insert.
Qed.

(** ** Instructions *)

Definition st_at (st : list Z) (n : nat) : Z := default 0 (st !! n).

(** The memory that an instruction needs, from its operands. *)
Definition touched (o : Op.t) (st : list Z) : Z :=
  let size i j := calcMemSize (st_at st i) (st_at st j) in
  match o with
  | Op.SHA3 | Op.RETURN | Op.REVERT | Op.LOG _ => size 0%nat 1%nat
  | Op.CALLDATACOPY | Op.CODECOPY | Op.RETURNDATACOPY => size 0%nat 2%nat
  | Op.EXTCODECOPY => size 1%nat 3%nat
  | Op.MLOAD | Op.MSTORE => calcMemSize (st_at st 0) 32
  | Op.MSTORE8 => calcMemSize (st_at st 0) 1
  | Op.CREATE | Op.CREATE2 => size 1%nat 2%nat
  | Op.CALL | Op.CALLCODE => BigMax (size 5%nat 6%nat) (size 3%nat 4%nat)
  | Op.DELEGATECALL | Op.STATICCALL => BigMax (size 4%nat 5%nat) (size 2%nat 3%nat)
  | _ => 0
  end.

(** The instructions of the jump table, with their numbers in range. *)
Definition op_wf (o : Op.t) : Prop :=
  match o with
  | Op.PUSH n => (1 <= n <= 32)%nat
  | Op.DUP n | Op.SWAP n => (1 <= n <= 16)%nat
  | Op.LOG n => (n <= 4)%nat
  | _ => True
  end.

Ltac wp_step :=
  lazymatch goal with
  | |- wp (mbind _ _) _ _ => apply wp_bind
  | |- wp (mret _) _ _ => apply wp_ret
  | |- wp done_nil _ _ => apply wp_ret
  | |- wp (done_data _) _ _ => apply wp_ret
  | |- wp (fail_with _) _ _ => apply wp_ret
  | |- wp rget _ _ => apply wp_rget
  | |- wp (rmod _) _ _ => apply wp_rmod
  | |- wp pop _ _ => apply wp_pop
  | |- wp (push _) _ _ => apply wp_push
  | |- wp the_mem _ _ => apply wp_mem
  | |- wp the_contract _ _ => apply wp_contract
  | |- wp the_evm _ _ => apply wp_evm
  | |- wp the_ctx _ _ => apply wp_ctx
  | |- wp (rule _) _ _ => apply wp_rule
  end; cbv beta.

Ltac wp_steps := repeat wp_step.

Section ops.
  Context {S : Type} {VS : VmState S} {VF : VmSafe S} {KL : KeccakLib} {VL : VmSafeLaws S}.
  Context {KLaws : KeccakLaws} {CL : CryptoLib} {CLaws : CryptoLaws}.
  Implicit Types (e : EVM S) (sc : scope S).

Lemma insn_done sc m pc0 st0 mem0 e0 pc st mem c e r err n :
  frame_ok sc m (mkFrame pc0 st0 mem0 c e0) → Forall (Z.le 0) st → mem_ok mem → evm_ok sc (c_Gas c + m) e →
  in_u64 pc → gobytes r → (err = None → length st = n) → insn_post sc m c n (r, err) (mkFrame pc st mem c e).
Proof. intros [] Hst Hm He Hpc Hr Hn. split; [by constructor|done]. Qed.

Lemma op1_ok g sc m pc x st mem c e : (∀ x, 0 <= x → 0 <= g x) → frame_ok sc m (mkFrame pc (x :: st) mem c e) →
  wp (op1 g) (insn_post sc m c (1 + length st)) (mkFrame pc (x :: st) mem c e).
Proof.
  intros Hg Hf. pose proof Hf as [Hst Hm Hc He Hpc]. cbn in *. decompose_Forall_hyps.
  unfold op1. wp_steps. eapply insn_done; eauto using gobytes_nil.
Qed.

Lemma op2_ok g sc m pc x y st mem c e : (∀ x y, 0 <= x → 0 <= y → 0 <= g x y) →
  frame_ok sc m (mkFrame pc (x :: y :: st) mem c e) →
  wp (op2 g) (insn_post sc m c (1 + length st)) (mkFrame pc (x :: y :: st) mem c e).
Proof.
  intros Hg Hf. pose proof Hf as [Hst Hm Hc He Hpc]. cbn in *. decompose_Forall_hyps.
  unfold op2. wp_steps. eapply insn_done; eauto using gobytes_nil.
Qed.

Lemma op3_ok g sc m pc x y z st mem c e : (∀ x y z, 0 <= x → 0 <= y → 0 <= z → 0 <= g x y z) →
  frame_ok sc m (mkFrame pc (x :: y :: z :: st) mem c e) →
  wp (op3 g) (insn_post sc m c (1 + length st)) (mkFrame pc (x :: y :: z :: st) mem c e).
Proof.
  intros Hg Hf. pose proof Hf as [Hst Hm Hc He Hpc]. cbn in *. decompose_Forall_hyps.
  unfold op3. wp_steps. eapply insn_done; eauto using gobytes_nil.
Qed.

Lemma push_of_ok g sc m pc st mem c e : frame_ok sc m (mkFrame pc st mem c e) → 0 <= g (mkFrame pc st mem c e) →
  wp (push_of g) (insn_post sc m c (1 + length st)) (mkFrame pc st mem c e).
Proof.
  intros Hf Hg. pose proof Hf as [Hst Hm Hc He Hpc]. cbn in *.
  unfold push_of. wp_steps. eapply insn_done; eauto using gobytes_nil.
Qed.
Lemma signextend_ok sc m pc x y st mem c e : frame_ok sc m (mkFrame pc (x :: y :: st) mem c e) →
  wp opSignExtend (insn_post sc m c (1 + length st)) (mkFrame pc (x :: y :: st) mem c e).
Proof.
  intros Hf. pose proof Hf as [Hst Hm Hc He Hpc]. cbn in *. decompose_Forall_hyps.
  unfold opSignExtend. wp_steps. destruct (x <? 31); wp_steps; eapply insn_done; eauto using gobytes_nil.
  constructor; [|done]. unfold word_signextend. rewrite !U256_unsigned. case_match; apply unsigned_word.
Qed.

Lemma sha3_ok sc m pc x y st mem c e : frame_ok sc m (mkFrame pc (x :: y :: st) mem c e) →
  touched Op.SHA3 (x :: y :: st) <= mem_Len mem →
  wp opSha3 (insn_post sc m c (1 + length st)) (mkFrame pc (x :: y :: st) mem c e).
Proof.
  intros Hf Ht. pose proof Hf as [Hst Hm Hc He Hpc]. cbn in *. decompose_Forall_hyps.
  unfold opSha3. wp_steps. apply wp_rlift. destruct (mem_Get_run mem x y) as (d & E & Hd); try done.
  exists d. split; [exact E|]. wp_steps.
  assert (0 <= be_val (keccak256 d)) by apply be_val_pos, keccak_bytes.
  destruct (x_EnablePreimageRecording (e_ctx e)).
  - eapply wp_state_act; [apply vl_AddPreimage|exact He|done|intros ? ? ? [Hb Hq]; split; [by apply vs_moved_same|done]|].
    intros [] g g' e' He' _. wp_steps. eapply insn_done; eauto using gobytes_nil.
  - wp_steps. eapply insn_done; eauto using gobytes_nil.
Qed.

Lemma state_push_ok {A} (q : bytes → stM S A) (h : A → Z) R sc m pc x st mem c e :
  (∀ a, reads (q a) (R a)) → (∀ a g n, R a g n → 0 <= h n) →
  frame_ok sc m (mkFrame pc (x :: st) mem c e) →
  wp (slot ← pop; n ← state_op (q (BigToAddress slot)); push (h n);; done_nil) (insn_post sc m c (1 + length st))
    (mkFrame pc (x :: st) mem c e).
Proof.
  intros Hq Hh Hf. pose proof Hf as [Hst Hm Hc He Hpc]. cbn in *. decompose_Forall_hyps.
  wp_steps. eapply wp_state_read; [apply Hq|exact He|]. intros a g e' He' HR. wp_steps.
  eapply insn_done; eauto using gobytes_nil.
Qed.

Lemma blockhash_ok sc m pc x st mem c e : ctx_ok (sc_ctx sc) → frame_ok sc m (mkFrame pc (x :: st) mem c e) →
  wp opBlockhash (insn_post sc m c (1 + length st)) (mkFrame pc (x :: st) mem c e).
Proof.
  intros Hx Hf. pose proof Hf as [Hst Hm Hc He Hpc]. cbn in *. decompose_Forall_hyps.
  destruct He as (g & l & He). pose proof (eo_ctx _ _ _ _ _ He) as Ex.
  unfold opBlockhash. wp_steps. eapply insn_done; eauto using gobytes_nil; [|by exists g, l].
  constructor; [|done]. rewrite Ex. case_match; [|done]. apply be_val_pos, xo_hash, Hx.
Qed.

Lemma calldataload_ok sc m pc x st mem c e : frame_ok sc m (mkFrame pc (x :: st) mem c e) →
  wp opCallDataLoad (insn_post sc m c (1 + length st)) (mkFrame pc (x :: st) mem c e).
Proof.
  intros Hf. pose proof Hf as [Hst Hm Hc He Hpc]. cbn in *. decompose_Forall_hyps.
  unfold opCallDataLoad. wp_steps. apply wp_rlift.
  destruct (getDataBig_run (c_Input c) x 32) as (d & E & Hd); [apply Hc|done|done|]. exists d. split; [exact E|].
  wp_steps. eapply insn_done; eauto using gobytes_nil. constructor; [by apply be_val_pos|done].
Qed.

Lemma copy_data_ok data off doff len sc m pc st mem c e n :
  gobytes data → 0 <= off → 0 <= doff → 0 <= len → calcMemSize off len <= mem_Len mem →
  frame_ok sc m (mkFrame pc st mem c e) → length st = n →
  wp (copy_data data off doff len) (insn_post sc m c n) (mkFrame pc st mem c e).
Proof.
  intros Hd Ho Hdo Hl Ht Hf Hn. pose proof Hf as [Hst Hm Hc He Hpc]. cbn in *.
  unfold copy_data. wp_steps. apply wp_rlift.
  assert (len <= maxAlloc) as Hla.
  { destruct (calcMemSize_covers _ _ _ Ho Hl Ht) as [->|]; [done|]. pose proof (mo_len _ Hm). unfold maxAlloc. lia. }
  destruct (getDataBig_run data doff len) as (d & E & Hdd); try done. exists d. split; [exact E|]. wp_steps.
  apply wp_mem_update. destruct (mem_Set_run mem off len d) as (mem' & E' & Hm'); try done.
  exists mem'. split; [exact E'|]. wp_steps. eapply insn_done; eauto using gobytes_nil.
Qed.
Lemma frame_ok_st sc m pc st st' mem c e :
  frame_ok sc m (mkFrame pc st mem c e) → Forall (Z.le 0) st' → frame_ok sc m (mkFrame pc st' mem c e).
Proof. intros [] Hst. by constructor. Qed.

Lemma frame_ok_evm sc m pc st mem c e e' :
  frame_ok sc m (mkFrame pc st mem c e) → evm_ok sc (c_Gas c + m) e' → frame_ok sc m (mkFrame pc st mem c e').
Proof. intros [] He. by constructor. Qed.

Lemma calldatacopy_ok sc m pc x y z st mem c e : frame_ok sc m (mkFrame pc (x :: y :: z :: st) mem c e) →
  touched Op.CALLDATACOPY (x :: y :: z :: st) <= mem_Len mem →
  wp opCallDataCopy (insn_post sc m c (length st)) (mkFrame pc (x :: y :: z :: st) mem c e) ∧
  wp opCodeCopy (insn_post sc m c (length st)) (mkFrame pc (x :: y :: z :: st) mem c e).
Proof.
  intros Hf Ht. pose proof Hf as [Hst Hm Hc He Hpc]. cbn in *. decompose_Forall_hyps.
  unfold opCallDataCopy, opCodeCopy.
  split; wp_steps; apply copy_data_ok; try done; try apply Hc; by eapply frame_ok_st.
Qed.

Lemma extcodecopy_ok sc m pc a x y z st mem c e : frame_ok sc m (mkFrame pc (a :: x :: y :: z :: st) mem c e) →
  touched Op.EXTCODECOPY (a :: x :: y :: z :: st) <= mem_Len mem →
  wp opExtCodeCopy (insn_post sc m c (length st)) (mkFrame pc (a :: x :: y :: z :: st) mem c e).
Proof.
  intros Hf Ht. pose proof Hf as [Hst Hm Hc He Hpc]. cbn in *. decompose_Forall_hyps.
  unfold opExtCodeCopy. wp_steps. eapply wp_state_read; [apply vl_GetCode|exact He|]. intros code g e' He' [HR _].
  by apply copy_data_ok.
Qed.

Lemma returndatacopy_ok sc m pc x y z st mem c e : frame_ok sc m (mkFrame pc (x :: y :: z :: st) mem c e) →
  touched Op.RETURNDATACOPY (x :: y :: z :: st) <= mem_Len mem →
  wp opReturnDataCopy (insn_post sc m c (length st)) (mkFrame pc (x :: y :: z :: st) mem c e).
Proof.
  intros Hf Ht. pose proof Hf as [Hst Hm Hc He Hpc]. cbn in *. decompose_Forall_hyps.
  assert (gobytes (e_returnData e)) as [Hb Hl] by (destruct He as (? & ? & []); done).
  unfold opReturnDataCopy. wp_steps. destruct (_ || _) eqn:E.
  { wp_steps. eapply insn_done; eauto using gobytes_nil. }
  pose proof (proj1 (BitLen_bound (y + z) 64 ltac:(lia))) as Hbl.
  rewrite !Uint64_small in * by (unfold in_u64; lia).
  wp_steps. apply wp_rlift. rewrite (Uint64_small y), (Uint64_small (y + z)) by (unfold in_u64; lia).
  destruct (slice_run (e_returnData e) y (y + z)) as (d & Ed & _ & Hd); [lia|lia|]. exists d. split; [exact Ed|]. wp_steps.
  apply wp_mem_update. destruct (mem_Set_run mem x z d) as (mem' & E' & Hm'); try done; [by apply Hd|].
  exists mem'. split; [exact E'|]. wp_steps. eapply insn_done; eauto using gobytes_nil.
Qed.

Lemma mload_ok sc m pc x st mem c e : frame_ok sc m (mkFrame pc (x :: st) mem c e) →
  touched Op.MLOAD (x :: st) <= mem_Len mem →
  wp opMload (insn_post sc m c (1 + length st)) (mkFrame pc (x :: st) mem c e).
Proof.
  intros Hf Ht. pose proof Hf as [Hst Hm Hc He Hpc]. cbn in *. decompose_Forall_hyps.
  unfold opMload. wp_steps. apply wp_rlift. destruct (mem_Get_run mem x 32) as (d & E & Hd); try done.
  exists d. split; [exact E|]. wp_steps. eapply insn_done; eauto using gobytes_nil.
  constructor; [by apply be_val_pos, Hd|done].
Qed.

Lemma mstore_ok sc m pc x y st mem c e : frame_ok sc m (mkFrame pc (x :: y :: st) mem c e) →
  touched Op.MSTORE (x :: y :: st) <= mem_Len mem →
  wp opMstore (insn_post sc m c (length st)) (mkFrame pc (x :: y :: st) mem c e).
Proof.
  intros Hf Ht. pose proof Hf as [Hst Hm Hc He Hpc]. cbn in *. decompose_Forall_hyps.
  unfold opMstore. wp_steps. apply wp_mem_update. destruct (mem_Set32_run mem x y) as (mem' & E & Hm'); try done.
  exists mem'. split; [exact E|]. wp_steps. eapply insn_done; eauto using gobytes_nil.
Qed.

Lemma mstore8_ok sc m pc x y st mem c e : frame_ok sc m (mkFrame pc (x :: y :: st) mem c e) →
  touched Op.MSTORE8 (x :: y :: st) <= mem_Len mem →
  wp opMstore8 (insn_post sc m c (length st)) (mkFrame pc (x :: y :: st) mem c e).
Proof.
  intros Hf Ht. pose proof Hf as [Hst Hm Hc He Hpc]. cbn in *. decompose_Forall_hyps.
  unfold opMstore8. wp_steps. apply wp_mem_update.
  destruct (mem_store_byte_run mem x (Z.land (Int64 y) 255)) as (mem' & E & Hm'); try done.
  { unfold is_byte. change 255 with (2 ^ 8 - 1). rewrite land_mask by lia. by apply Z.mod_pos_bound. }
  exists mem'. split; [exact E|]. wp_steps. eapply insn_done; eauto using gobytes_nil.
Qed.
Lemma sload_ok sc m pc x st mem c e : frame_ok sc m (mkFrame pc (x :: st) mem c e) →
  wp opSload (insn_post sc m c (1 + length st)) (mkFrame pc (x :: st) mem c e).
Proof.
  intros Hf. pose proof Hf as [Hst Hm Hc He Hpc]. cbn in *. decompose_Forall_hyps.
  unfold opSload. wp_steps. eapply wp_state_read; [apply vl_GetState|exact He|]. intros v g e' He' [Hv _]. wp_steps.
  eapply insn_done; eauto using gobytes_nil. constructor; [by apply be_val_pos|done].
Qed.

Lemma BigToHash_bytes x : gobytes (BigToHash x).
Proof.
  split; [apply BytesToHash_bytes, big_bytes|]. unfold BigToHash, lenZ. rewrite length_BytesToHash. lia.
Qed.

Lemma sstore_ok sc m pc x y st mem c e : protected sc = false → frame_ok sc m (mkFrame pc (x :: y :: st) mem c e) →
  wp opSstore (insn_post sc m c (length st)) (mkFrame pc (x :: y :: st) mem c e).
Proof.
  intros Hro Hf. pose proof Hf as [Hst Hm Hc He Hpc]. cbn in *. decompose_Forall_hyps.
  unfold opSstore. wp_steps. eapply wp_state_act; [apply vl_SetState|exact He|intros ?; apply BigToHash_bytes|intros ? ? ? ?; by apply since_write, vs_moved_same|].
  intros [] g g' e' He' _. wp_steps. eapply insn_done; eauto using gobytes_nil.
Qed.

Lemma evm_ok_dests sc k e d : evm_ok sc k e → dests_ok d → evm_ok sc k (e<| e_jumpdests := d |>).
Proof. intros (g & l & []) Hd. exists g, l. by constructor. Qed.

Lemma jump_to_ok x sc m pc st mem c e : 0 <= x → frame_ok sc m (mkFrame pc st mem c e) →
  wp (jump_to x) (insn_post sc m c (length st)) (mkFrame pc st mem c e).
Proof.
  intros Hx Hf. pose proof Hf as [Hst Hm Hc He Hpc]. cbn in *.
  unfold jump_to. wp_steps. apply wp_rlift.
  destruct (dests_has_run (e_jumpdests e) (c_CodeHash c) (c_Code c) x) as (r & E & Hr);
    [by destruct He as (? & ? & [])|apply Hc|done|apply Hc|].
  exists r. split; [exact E|]. destruct r as [[b d]|]; [|done]. destruct Hr as [Hd _].
  pose proof (evm_ok_dests _ _ _ _ He Hd) as He'.
  destruct b; wp_steps; eapply insn_done; eauto using gobytes_nil. apply u64_range.
Qed.

Lemma jump_ok sc m pc x st mem c e : frame_ok sc m (mkFrame pc (x :: st) mem c e) →
  wp opJump (insn_post sc m c (length st)) (mkFrame pc (x :: st) mem c e).
Proof.
  intros Hf. pose proof (fo_stack _ _ _ Hf) as Hst. cbn in Hst. decompose_Forall_hyps.
  unfold opJump. wp_steps. apply jump_to_ok; [done|by eapply frame_ok_st].
Qed.

Lemma jumpi_ok sc m pc x y st mem c e : frame_ok sc m (mkFrame pc (x :: y :: st) mem c e) →
  wp opJumpi (insn_post sc m c (length st)) (mkFrame pc (x :: y :: st) mem c e).
Proof.
  intros Hf. pose proof Hf as [Hst Hm Hc He Hpc]. cbn in *. decompose_Forall_hyps.
  unfold opJumpi. wp_steps. destruct (y =? 0); wp_steps; [|apply jump_to_ok; [done|by eapply frame_ok_st]].
  eapply insn_done; eauto using gobytes_nil. apply u64_range.
Qed.

Lemma push_ok n sc m pc st mem c e : (n <= 32)%nat → frame_ok sc m (mkFrame pc st mem c e) → pc < lenZ (c_Code c) →
  wp (makePush n) (insn_post sc m c (1 + length st)) (mkFrame pc st mem c e).
Proof.
  intros Hn Hf Hl. pose proof Hf as [Hst Hm Hc He Hpc]. cbn in *. destruct (ko_code _ Hc) as [Hb Hcl]. unfold in_u64 in Hpc.
  unfold makePush. wp_steps. cbn [f_contract f_pc]. rewrite u64_small, i64_small by (unfold in_u64, in_i64; lia).
  set (lo := if _ <? _ then _ else _). set (hi := if _ <? _ then _ else _). apply wp_rlift.
  destruct (slice_run (c_Code c) lo hi) as (d & E & _ & Hd); [unfold hi, lo; repeat case_match; lia..|].
  exists d. split; [exact E|]. wp_steps. apply wp_rlift.
  destruct (pad_run d (Z.of_nat n)) as [(d' & E' & Hd' & _) _]; [auto|unfold maxAlloc; lia|].
  exists d'. split; [exact E'|]. wp_steps. eapply insn_done; eauto using gobytes_nil, u64_range.
  constructor; [|done]. by apply be_val_pos.
Qed.

Lemma dup_ok n sc m pc st mem c e : (1 <= n)%nat → (n <= length st)%nat → frame_ok sc m (mkFrame pc st mem c e) →
  wp (makeDup n) (insn_post sc m c (1 + length st)) (mkFrame pc st mem c e).
Proof.
  intros Hn Hl Hf. pose proof Hf as [Hst Hm Hc He Hpc]. cbn in *.
  unfold makeDup. wp_steps. apply wp_rlift. unfold stack_dup. cbn [f_stack].
  destruct (lookup_lt_is_Some_2 st (n - 1)) as [x Hx]; [lia|]. rewrite Hx. eexists. split; [done|]. wp_steps.
  eapply insn_done; eauto using gobytes_nil. constructor; [|done]. by eapply Forall_lookup_1 in Hx.
Qed.

Lemma swap_ok n sc m pc st mem c e : (n + 1 <= length st)%nat → frame_ok sc m (mkFrame pc st mem c e) →
  wp (makeSwap n) (insn_post sc m c (length st)) (mkFrame pc st mem c e).
Proof.
  intros Hl Hf. pose proof Hf as [Hst Hm Hc He Hpc]. cbn in *.
  unfold makeSwap. wp_steps. apply wp_rlift. unfold stack_swap. cbn [f_stack].
  destruct (lookup_lt_is_Some_2 st 0) as [x Hx]; [lia|]. rewrite Hx.
  destruct (lookup_lt_is_Some_2 st (n + 1 - 1)) as [y Hy]; [lia|]. rewrite Hy. eexists. split; [done|]. wp_steps.
  eapply insn_done; eauto using gobytes_nil; [|by rewrite !length_insert].
  eapply Forall_lookup_1 in Hx, Hy; [|done..]. by do 2 (apply Forall_insert; [|done]).
Qed.
Lemma wp_pops n : ∀ pc st mem c e (Q : list Z → frame S → Prop), (n <= length st)%nat →
  Q (take n st) (mkFrame pc (drop n st) mem c e) → wp (pops n) Q (mkFrame pc st mem c e).
Proof.
  induction n as [|n IH]; intros pc st mem c e Q Hl HQ; cbn [pops]; [done|].
  destruct st as [|x st]; cbn in Hl; [lia|]. wp_steps. apply IH; [lia|]. exact HQ.
Qed.

Lemma log_ok n sc m pc x y st mem c e : protected sc = false → (n <= length st)%nat →
  frame_ok sc m (mkFrame pc (x :: y :: st) mem c e) → touched (Op.LOG n) (x :: y :: st) <= mem_Len mem →
  wp (makeLog n) (insn_post sc m c (length st - n)) (mkFrame pc (x :: y :: st) mem c e).
Proof.
  intros Hro Hn Hf Ht. pose proof Hf as [Hst Hm Hc He Hpc]. cbn in *. decompose_Forall_hyps.
  unfold makeLog. wp_steps. apply wp_pops; [done|]. wp_steps. apply wp_rlift.
  destruct (mem_Get_run mem x y) as (d & E & Hd); try done. exists d. split; [exact E|]. wp_steps.
  eapply wp_state_act; [apply vl_AddLog|exact He|done|intros ? ? ? ?; by apply since_write, vs_moved_same|]. intros [] g g' e' He' _. wp_steps.
  eapply insn_done; eauto using gobytes_nil, Forall_drop. intros _. apply length_drop.
Qed.

Lemma return_ok sc m pc x y st mem c e : frame_ok sc m (mkFrame pc (x :: y :: st) mem c e) →
  touched Op.RETURN (x :: y :: st) <= mem_Len mem →
  wp opReturn (insn_post sc m c (length st)) (mkFrame pc (x :: y :: st) mem c e).
Proof.
  intros Hf Ht. pose proof Hf as [Hst Hm Hc He Hpc]. cbn in *. decompose_Forall_hyps.
  unfold opReturn. wp_steps. apply wp_rlift. destruct (mem_GetPtr_run mem x y) as (d & E & Hd); try done.
  exists d. split; [exact E|]. wp_steps. by eapply insn_done.
Qed.

(** The beneficiary gets at most what the contract loses. *)
Lemma leave_acts self to b : acts (v_AddBalance to b;; v_Suicide self) (λ g, b = vs_bal g self ∧ 0 <= b) (λ g _ g', vs_moved 0 g g').
Proof.
  intros s g l k Hs [Hb H0]. destruct (vl_AddBalance to b s g l k Hs H0) as ([] & s1 & g1 & E1 & Hs1 & Hm1 & Hle & _).
  destruct (vl_Suicide self s1 g1 l k Hs1 I) as (r & s2 & g2 & E2 & Hs2 & Hm2). exists r, s2, g2. split; [by srun|].
  split; [done|]. eapply vs_moved_less; [by eapply vs_moved_trans|]. specialize (Hle self). lia.
Qed.

Lemma wp_state_pair {A B C} (m1 : stM S A) (m2 : stM S B) (k : B → rM (frame S) C) Q f :
  wp (state_op (m1;; m2)) (λ b, wp (k b) Q) f → wp (state_op m1) (λ _, wp (state_op m2 ≫= k) Q) f.
Proof.
  unfold wp, state_op, mbind, rM_bind, stM_bind. destruct f as [pc st mem c e]. cbn.
  destruct (m1 (e_state e)) as [[a s1]|w]; [|done]. cbn. by destruct (m2 s1) as [[b s2]|w].
Qed.

Lemma suicide_ok sc m pc x st mem c e : protected sc = false → frame_ok sc m (mkFrame pc (x :: st) mem c e) →
  wp opSuicide (insn_post sc m c (length st)) (mkFrame pc (x :: st) mem c e).
Proof.
  intros Hro Hf. pose proof Hf as [Hst Hm Hc He Hpc]. cbn in *. decompose_Forall_hyps.
  unfold opSuicide. wp_steps. destruct He as (g & l & He).
  eapply wp_state_at; [apply vl_GetBalance|exact He|done|by intros ? ? [-> _]|]. intros b g' e1 He1 [-> Hb]. wp_steps.
  apply wp_state_pair. eapply wp_state_at; [apply leave_acts|exact He1|done|intros ? ?; by apply since_write|].
  intros r g2 e2 He2 _. wp_steps. assert (evm_ok sc (c_Gas c + m) e2) by (by exists g2, l).
  eapply insn_done; eauto using gobytes_nil.
Qed.

(** The instructions that run no other contract. *)
Definition calls (o : Op.t) : bool :=
  match o with
  | Op.CREATE | Op.CALL | Op.CALLCODE | Op.DELEGATECALL | Op.CREATE2 | Op.STATICCALL => true
  | _ => false
  end.

Lemma word_pos x : word x → 0 <= x.
Proof. unfold word. lia. Qed.

Lemma U256_pos x : 0 <= U256 x.
Proof. rewrite U256_unsigned. apply word_pos, unsigned_word. Qed.

Lemma flag_pos b : 0 <= flag b.
Proof. by destruct b. Qed.

Lemma sdiv_pos x y : 0 <= word_sdiv x y.
Proof. unfold word_sdiv. repeat case_match; try done; apply U256_pos. Qed.

Lemma smod_pos x y : 0 <= word_smod x y.
Proof. unfold word_smod. repeat case_match; try done; apply U256_pos. Qed.

Lemma exp_pos x y : 0 <= Exp x y.
Proof. apply word_pos, exp_loop_word. unfold word. lia. Qed.

Lemma slt_pos x y : 0 <= word_slt x y ∧ 0 <= word_sgt x y.
Proof. unfold word_slt, word_sgt, flag. split; repeat case_match; lia. Qed.

Lemma sar_pos x y : 0 <= word_sar x y.
Proof. unfold word_sar. case_match; apply U256_pos. Qed.

Lemma Byte_pos y k n : 0 <= Byte y k n.
Proof. unfold Byte, bigEndianByteAt. case_match; [done|]. by apply Z.mod_pos_bound. Qed.
End ops.

(** Operands, from the number that the jump table asks for. *)
Ltac args st :=
  repeat match goal with
  | H : (Datatypes.S _ <= length st)%nat |- _ =>
      let x := fresh "x" in destruct st as [|x st]; cbn [length] in H; [lia|]; apply le_S_n in H
  end;
  cbn [length Nat.sub]; rewrite ?Nat.sub_0_r, ?Nat.add_0_r, ?Nat.add_1_r.

Section simple.
  Context {S : Type} {VS : VmState S} {VF : VmSafe S} {KL : KeccakLib} {VL : VmSafeLaws S}.
  Context {KLaws : KeccakLaws} {CL : CryptoLib} {CLaws : CryptoLaws}.
  Implicit Types (e : EVM S) (sc : scope S).

(** The part of the invariant that a scope shares with its frames. *)
Lemma frame_ctx sc m f : frame_ok sc m f → e_ctx (f_evm f) = sc_ctx sc.
Proof. intros []. by destruct fo_evm as (? & ? & []). Qed.

(** The numbers of operands and results in the jump table. *)
Definition arity (o : Op.t) : nat * nat :=
  match o with
  | Op.STOP | Op.JUMPDEST => (0, 0)
  | Op.ADD | Op.MUL | Op.SUB | Op.DIV | Op.SDIV | Op.MOD | Op.SMOD | Op.EXP | Op.SIGNEXTEND | Op.LT | Op.GT | Op.SLT
  | Op.SGT | Op.EQ | Op.AND | Op.OR | Op.XOR | Op.BYTE | Op.SHL | Op.SHR | Op.SAR | Op.SHA3 => (2, 1)
  | Op.ADDMOD | Op.MULMOD | Op.CREATE => (3, 1)
  | Op.ISZERO | Op.NOT | Op.BALANCE | Op.CALLDATALOAD | Op.EXTCODESIZE | Op.EXTCODEHASH | Op.BLOCKHASH | Op.MLOAD
  | Op.SLOAD => (1, 1)
  | Op.ADDRESS | Op.ORIGIN | Op.CALLER | Op.CALLVALUE | Op.CALLDATASIZE | Op.CODESIZE | Op.GASPRICE
  | Op.RETURNDATASIZE | Op.COINBASE | Op.TIMESTAMP | Op.NUMBER | Op.DIFFICULTY | Op.GASLIMIT | Op.PC | Op.MSIZE
  | Op.GAS | Op.PUSH _ => (0, 1)
  | Op.CALLDATACOPY | Op.CODECOPY | Op.RETURNDATACOPY => (3, 0)
  | Op.EXTCODECOPY => (4, 0)
  | Op.POP | Op.JUMP | Op.SELFDESTRUCT => (1, 0)
  | Op.MSTORE | Op.MSTORE8 | Op.SSTORE | Op.JUMPI | Op.RETURN | Op.REVERT => (2, 0)
  | Op.DUP n => (n, n + 1)
  | Op.SWAP n => (n + 1, n + 1)
  | Op.LOG n => (n + 2, 0)
  | Op.CALL | Op.CALLCODE => (7, 1)
  | Op.DELEGATECALL | Op.STATICCALL => (6, 1)
  | Op.CREATE2 => (4, 1)
  end%nat.

Lemma arity_ok (run : run_type S) o :
  stack_in (operation_of run o) = Z.of_nat (arity o).1 ∧ stack_out (operation_of run o) = Z.of_nat (arity o).2.
Proof. destruct o; cbn; lia. Qed.

Lemma exec_arith2 run sc m o h pc x y st mem c e : arith2 o = Some h →
  frame_ok sc m (mkFrame pc (x :: y :: st) mem c e) →
  wp (execute (operation_of run o)) (insn_post sc m c (1 + length st)) (mkFrame pc (x :: y :: st) mem c e).
Proof.
  intros Ha Hf. destruct o; try discriminate Ha; clear Ha;
    first [exact (signextend_ok sc m pc x y st mem c e Hf)|refine (op2_ok _ sc m pc x y st mem c e _ Hf)];
    intros a b Ha Hb; first
      [ apply U256_pos | apply flag_pos | apply sdiv_pos | apply smod_pos | apply exp_pos | apply sar_pos
      | apply slt_pos | destruct (b =? 0); [done|apply U256_pos] | destruct (256 <=? _); [done|apply U256_pos]
      | apply Z.land_nonneg; lia | apply Z.lor_nonneg; lia | apply Z.lxor_nonneg; lia
      | destruct (a <? 32); [apply Byte_pos|done] ].
Qed.

Lemma exec_arith3 run sc m o h pc x y z st mem c e : arith3 o = Some h →
  frame_ok sc m (mkFrame pc (x :: y :: z :: st) mem c e) →
  wp (execute (operation_of run o)) (insn_post sc m c (1 + length st)) (mkFrame pc (x :: y :: z :: st) mem c e).
Proof.
  intros Ha Hf. destruct o; try discriminate Ha; clear Ha; refine (op3_ok _ sc m pc x y z st mem c e _ Hf);
    intros a b d Ha Hb Hd; (destruct (0 <? d); [apply U256_pos|done]).
Qed.

Lemma exec_arith1 run sc m o h pc x st mem c e : arith1 o = Some h →
  frame_ok sc m (mkFrame pc (x :: st) mem c e) →
  wp (execute (operation_of run o)) (insn_post sc m c (1 + length st)) (mkFrame pc (x :: st) mem c e).
Proof.
  intros Ha Hf. destruct o; try discriminate Ha; clear Ha; refine (op1_ok _ sc m pc x st mem c e _ Hf);
    intros a Ha; first [apply U256_pos|apply flag_pos].
Qed.

(** The instructions that push something about their surroundings. *)
Definition pushes (o : Op.t) : bool :=
  match o with
  | Op.ADDRESS | Op.ORIGIN | Op.CALLER | Op.CALLVALUE | Op.CALLDATASIZE | Op.CODESIZE | Op.GASPRICE
  | Op.RETURNDATASIZE | Op.COINBASE | Op.TIMESTAMP | Op.NUMBER | Op.DIFFICULTY | Op.GASLIMIT | Op.PC | Op.MSIZE
  | Op.GAS => true
  | _ => false
  end.

Lemma lenZ_pos (l : bytes) : 0 <= lenZ l.
Proof. unfold lenZ. lia. Qed.

Lemma exec_pushes run sc m o pc st mem c e : pushes o = true → ctx_ok (sc_ctx sc) →
  frame_ok sc m (mkFrame pc st mem c e) →
  wp (execute (operation_of run o)) (insn_post sc m c (1 + length st)) (mkFrame pc st mem c e).
Proof.
  intros Ha Hx Hf. pose proof (frame_ctx _ _ _ Hf) as Ex. destruct (fo_contract _ _ _ Hf) as [].
  pose proof (fo_pc _ _ _ Hf) as Hpc. unfold in_u64 in Hpc. destruct Hx. cbn in *.
  destruct o; try discriminate Ha; clear Ha; refine (push_of_ok _ sc m pc st mem c e Hf _); cbv beta;
    cbn [f_pc f_mem f_contract f_evm]; rewrite ?Ex;
    first [apply U256_pos|apply lenZ_pos|done|by apply be_val_pos|lia].
Qed.

Lemma exec_nothing run sc m o f n : execute (operation_of run o) = done_nil → length (f_stack f) = n →
  frame_ok sc m f → wp (execute (operation_of run o)) (insn_post sc m (f_contract f) n) f.
Proof. intros -> Hn Hf. wp_steps. split; [done|]. split; [apply gobytes_nil|done]. Qed.

Lemma pop_ok sc m pc x st mem c e : frame_ok sc m (mkFrame pc (x :: st) mem c e) →
  wp opPop (insn_post sc m c (length st)) (mkFrame pc (x :: st) mem c e).
Proof.
  intros Hf. pose proof Hf as [Hst Hm Hc He Hpc]. cbn in *. decompose_Forall_hyps.
  unfold opPop. wp_steps. eapply insn_done; eauto using gobytes_nil.
Qed.

Lemma exec_simple run sc m o pc st mem c e :
  ctx_ok (sc_ctx sc) → op_wf o → calls o = false → frame_ok sc m (mkFrame pc st mem c e) →
  ((arity o).1 <= length st)%nat → (writes (operation_of run o) = true → protected sc = false) →
  touched o st <= mem_Len mem → (pc < lenZ (c_Code c) ∨ o = Op.STOP) →
  wp (execute (operation_of run o)) (insn_post sc m c (length st - (arity o).1 + (arity o).2)) (mkFrame pc st mem c e).
Proof.
  intros Hx Hwf Hc Hf Hin Hw Ht Hpc.
  destruct (arith1 o) eqn:E1.
  { replace (arity o) with (1%nat, 1%nat) in * by (by destruct o). destruct st as [|x st]; cbn in Hin; [lia|].
    cbn. rewrite Nat.sub_0_r, Nat.add_1_r. by eapply exec_arith1. }
  destruct (arith2 o) eqn:E2.
  { replace (arity o) with (2%nat, 1%nat) in * by (by destruct o). destruct st as [|x [|y st]]; cbn in Hin; [lia..|].
    cbn. rewrite Nat.sub_0_r, Nat.add_1_r. by eapply exec_arith2. }
  destruct (arith3 o) eqn:E3.
  { replace (arity o) with (3%nat, 1%nat) in * by (by destruct o).
    destruct st as [|x [|y [|x3 st]]]; cbn in Hin; [lia..|]. cbn. rewrite Nat.sub_0_r, Nat.add_1_r. by eapply exec_arith3. }
  destruct (pushes o) eqn:E4.
  { replace (arity o) with (0%nat, 1%nat) in * by (by destruct o). cbn. rewrite Nat.sub_0_r, Nat.add_1_r. by apply exec_pushes. }
  destruct o; try discriminate; clear E1 E2 E3 E4; cbn [arity fst snd] in Hin |- *.
  - args st. by apply (exec_nothing run sc m _ (mkFrame pc st mem c e)).
  - args st. by apply sha3_ok.
  - args st. refine (state_push_ok _ (λ b, b) _ _ _ _ _ _ _ _ _ (λ a, vl_GetBalance a) _ Hf). by intros a g b [_ ?].
  - args st. by apply calldataload_ok.
  - args st. exact (proj1 (calldatacopy_ok _ _ _ _ _ _ _ _ _ _ Hf Ht)).
  - args st. exact (proj2 (calldatacopy_ok _ _ _ _ _ _ _ _ _ _ Hf Ht)).
  - args st. refine (state_push_ok _ u64 _ _ _ _ _ _ _ _ _ (λ a, vl_GetCodeSize a) _ Hf). intros. apply u64_range.
  - args st. by apply extcodecopy_ok.
  - args st. by apply returndatacopy_ok.
  - args st. refine (state_push_ok _ be_val _ _ _ _ _ _ _ _ _ (λ a, vl_GetCodeHash a) _ Hf). intros a g h [[Hh _] _]. by apply be_val_pos.
  - args st. by apply blockhash_ok.
  - args st. by apply pop_ok.
  - args st. by apply mload_ok.
  - args st. by apply mstore_ok.
  - args st. by apply mstore8_ok.
  - args st. by apply sload_ok.
  - args st. apply sstore_ok; auto.
  - args st. by apply jump_ok.
  - args st. by apply jumpi_ok.
  - args st. by apply (exec_nothing run sc m _ (mkFrame pc st mem c e)).
  - cbn in Hwf. rewrite Nat.sub_0_r, Nat.add_1_r. apply push_ok; [lia|done|]. by destruct Hpc.
  - cbn in Hwf. replace (length st - n + (n + 1))%nat with (1 + length st)%nat by lia. apply dup_ok; [lia|done..].
  - replace (length st - (n + 1) + (n + 1))%nat with (length st) by lia. by apply swap_ok.
  - destruct st as [|x [|y st]]; cbn in Hin; [lia..|]. cbn [length].
    replace (Datatypes.S (Datatypes.S (length st)) - (n + 2) + 0)%nat with (length st - n)%nat by lia.
    apply log_ok; auto. lia.
  - args st. by apply return_ok.
  - args st. by apply return_ok.
  - args st. apply suicide_ok; auto.
Qed.
End simple.
