(* ===== verification/VmSafeGas.v ===== *)
(** * Prices (core/vm/gas.go, gas_table.go, memory_table.go, interpreter.go)

    Computing the price of an instruction neither panics nor changes more than the caches
    of the state; an instruction that does not end the run costs at least one unit of
    gas; memory is never asked to grow beyond its limit; and a call pays for the gas that
    it hands over. *)

From Stdlib Require Import ZArith Lia ZifyBool.
From stdpp Require Import base tactics strings numbers gmap list.
From S2P Require Import Prelude Rlp Trie TrieDb.
From S2P Require Import StateObject VmBase VmMachine VmContracts VmInstr VmRun VmWords VmJumps VmLogic VmSafeOps.

Local Open Scope Z_scope.
Local Open Scope record_scope.
Local Open Scope vm_scope.

(** [memoryGasCost] refuses more. *)
Definition mem_limit : Z := 1099511627744.

Section gas.
  Context {S : Type} {VS : VmState S} {VF : VmSafe S} {KL : KeccakLib} {VL : VmSafeLaws S}.
  Context {KLaws : KeccakLaws} {CL : CryptoLib} {CLaws : CryptoLaws}.
  Implicit Types (e : EVM S) (sc : scope S) (f : frame S).

(** ** Checked arithmetic *)

Definition yields {A} (P : A → Prop) (r : A + vmErr) : Prop := match r with inl a => P a | inr _ => True end.

Lemma wp_safe_add a b f (Q : Z + vmErr → frame S → Prop) : in_u64 a → in_u64 b →
  (∀ r, yields (λ v, v = a + b ∧ in_u64 v) r → Q r f) → wp (safe_add a b) Q f.
Proof.
  intros Ha Hb HQ. unfold safe_add, SafeAdd. destruct (MaxUint64 - a <? b) eqn:E; apply HQ; [done|].
  unfold yields, in_u64, MaxUint64 in *. rewrite u64_small by (unfold in_u64; lia). lia.
Qed.

Lemma wp_safe_mul a b f (Q : Z + vmErr → frame S → Prop) : in_u64 a → in_u64 b →
  (∀ r, yields (λ v, v = a * b ∧ in_u64 v) r → Q r f) → wp (safe_mul a b) Q f.
Proof.
  intros Ha Hb HQ. unfold safe_mul, SafeMul. destruct ((a =? 0) || (b =? 0)) eqn:E0.
  { apply HQ. cbn. unfold in_u64. split; [nia|lia]. }
  destruct (MaxUint64 / a <? b) eqn:E; apply HQ; [done|]. unfold yields, in_u64, MaxUint64 in *.
  assert (a * b <= 2 ^ 64 - 1) by (etransitivity; [apply Z.mul_le_mono_nonneg_l with (m := (2 ^ 64 - 1) / a); lia|dlia]).
  rewrite u64_small by (unfold in_u64; nia). nia.
Qed.

Lemma wp_big_uint64 v f (Q : Z + vmErr → frame S → Prop) : 0 <= v →
  (∀ r, yields (λ w, w = v ∧ in_u64 w) r → Q r f) → wp (big_uint64 v) Q f.
Proof.
  intros Hv HQ. unfold big_uint64, bigUint64. destruct (64 <? BitLen v) eqn:E; apply HQ; [done|].
  pose proof (proj1 (BitLen_bound v 64 Hv)). cbn. rewrite Uint64_small by (unfold in_u64; lia). unfold in_u64. lia.
Qed.

Lemma toWordSize_bound n : in_u64 n → n <= 32 * toWordSize n ∧ in_u64 (toWordSize n) ∧ toWordSize n <= n / 32 + 1.
Proof.
  unfold in_u64, toWordSize, MaxUint64. intros Hn. destruct (_ <? n) eqn:E; [dlia|].
  rewrite u64_small by (unfold in_u64; lia). dlia.
Qed.

Lemma wp_memoryGasCost n pc st mem c e (Q : Z + vmErr → frame S → Prop) : 0 <= n →
  (∀ r mem', m_store mem' = m_store mem → yields (λ v, in_u64 v ∧ n <= mem_limit) r → Q r (mkFrame pc st mem' c e)) →
  wp (memoryGasCost n) Q (mkFrame pc st mem c e).
Proof.
  intros Hn HQ. unfold memoryGasCost. destruct (n =? 0) eqn:E0.
  { apply HQ; [done|]. cbn. unfold in_u64, mem_limit. lia. }
  destruct (1099511627744 <? n) eqn:E1; [by apply HQ|].
  wp_steps. cbn [f_mem]. destruct (mem_Len mem <? _); wp_steps; apply HQ; try done; cbn.
  - split; [apply u64_range|unfold mem_limit; lia].
  - unfold in_u64, mem_limit. lia.
Qed.
(** ** Prices *)

Definition gas_post sc (m pc : Z) (st : list Z) (mem : Memory) (c : Contract) (P : Z → EVM S → Prop) (r : Z + vmErr) f : Prop :=
  ∃ mem' e', f = mkFrame pc st mem' c e' ∧ m_store mem' = m_store mem ∧ evm_ok sc (c_Gas c + m) e' ∧
    yields (λ cost, in_u64 cost ∧ P cost e') r.

Lemma gas_done sc m pc st mem mem' c e P r : evm_ok sc (c_Gas c + m) e → m_store mem' = m_store mem →
  yields (λ cost, in_u64 cost ∧ P cost e) r → gas_post sc m pc st mem c P r (mkFrame pc st mem' c e).
Proof. intros He Hm Hr. by exists mem', e. Qed.

Lemma const_gas sc m pc st mem c e v (P : Z → EVM S → Prop) : evm_ok sc (c_Gas c + m) e → in_u64 v → P v e →
  wp (ok v) (gas_post sc m pc st mem c P) (mkFrame pc st mem c e).
Proof. intros He Hv HP. apply wp_ret. by apply gas_done. Qed.

Lemma wp_words_gas base per n size msize sc m pc st mem c e :
  evm_ok sc (c_Gas c + m) e → in_u64 base → in_u64 per → st !! n = Some size → 0 <= size → 0 <= msize →
  wp (words_gas base per n msize) (gas_post sc m pc st mem c (λ cost _, base <= cost ∧ msize <= mem_limit)) (mkFrame pc st mem c e).
Proof.
  intros He Hb Hp Hn Hs Hm. unfold words_gas. apply wp_ebind. apply wp_memoryGasCost; [done|].
  intros [g1|] mem' Hm' Hg1; [|by apply gas_done]. destruct Hg1 as [Hg1 Hlim].
  apply wp_ebind, wp_safe_add; [done..|]. intros [g2|] Hg2; [|by apply gas_done]. destruct Hg2 as [-> Hg2].
  wp_steps. eapply wp_Back; [exact Hn|]. apply wp_ebind, wp_big_uint64; [done|].
  intros [w|] Hw; [|by apply gas_done]. destruct Hw as [-> Hw].
  apply wp_ebind, wp_safe_mul; [by apply toWordSize_bound|done|]. intros [p|] Hpp; [|by apply gas_done].
  destruct Hpp as [Hpe Hpp]. apply wp_safe_add; [done..|]. intros [g3|] Hg3; [|by apply gas_done].
  destruct Hg3 as [-> Hg3]. apply gas_done; try done. cbn. unfold in_u64 in *. lia.
Qed.

Lemma wp_memory_gas base msize sc m pc st mem c e : evm_ok sc (c_Gas c + m) e → in_u64 base → 0 <= msize →
  wp (memory_gas base msize) (gas_post sc m pc st mem c (λ cost _, base <= cost ∧ msize <= mem_limit)) (mkFrame pc st mem c e).
Proof.
  intros He Hb Hm. unfold memory_gas. apply wp_ebind. apply wp_memoryGasCost; [done|].
  intros [g1|] mem' Hm' Hg1; [|by apply gas_done]. destruct Hg1 as [Hg1 Hlim].
  apply wp_safe_add; [done..|]. intros [g2|] Hg2; [|by apply gas_done]. destruct Hg2 as [-> Hg2].
  apply gas_done; try done. cbn. unfold in_u64 in *. lia.
Qed.

Lemma evm_ok_temp sc k e t : evm_ok sc k e → in_u64 t → evm_ok sc k (e<| e_callGasTemp := t |>).
Proof. intros (g & l & []) Ht. exists g, l. by constructor. Qed.

Lemma callGas_range gt avail base req : yields in_u64 (callGas gt avail base req).
Proof.
  unfold callGas. pose proof (u64_range (Z.abs req)) as Hr. pose proof (u64_range (avail - base)) as Ha. unfold in_u64 in *.
  repeat case_match; cbn; unfold in_u64; try done. pose proof (Z.mod_pos_bound (u64 (avail - base)) 64). dlia.
Qed.

Lemma wp_call_gas gt gas req sc m pc st mem mem0 c e : evm_ok sc (c_Gas c + m) e → in_u64 gas → st !! 0%nat = Some req →
  m_store mem = m_store mem0 →
  wp (call_gas gt gas) (gas_post sc m pc st mem0 c (λ cost e', cost = gas + e_callGasTemp e')) (mkFrame pc st mem c e).
Proof.
  intros He Hg Hreq Hm. unfold call_gas. wp_steps. eapply wp_Back; [exact Hreq|]. cbn [f_contract].
  pose proof (callGas_range gt (c_Gas c) gas req) as Hr. destruct (callGas _ _ _ _) as [temp|err]; cbn in Hr; wp_steps.
  - apply wp_safe_add; [done..|]. intros r Hs. eapply gas_done; [by apply evm_ok_temp|done|].
    destruct r; [|done]. by destruct Hs as [-> Hs].
  - eapply gas_done; [apply evm_ok_temp; [done|unfold in_u64; lia]|done|done].
Qed.
Record table_ok (gt : GasTable) : Prop := {
  to_sizes : 1 <= gt_ExtcodeSize gt <= 2 ^ 20 ∧ 1 <= gt_ExtcodeCopy gt <= 2 ^ 20 ∧ 1 <= gt_Balance gt <= 2 ^ 20;
  to_load : 1 <= gt_SLoad gt <= 2 ^ 20 ∧ 1 <= gt_Calls gt <= 2 ^ 20;
  to_other : 0 <= gt_Suicide gt <= 2 ^ 20 ∧ 0 <= gt_CreateBySuicide gt <= 2 ^ 20;
  to_hash : 0 <= gt_ExtcodeHash gt <= 2 ^ 20
}.

Lemma GasTable_ok x n : table_ok (GasTable_of x n).
Proof. unfold GasTable_of. repeat case_match; split; cbn; lia. Qed.

Lemma wp_gasSStore gt msize x y sc m pc st mem c e : protected sc = false → evm_ok sc (c_Gas c + m) e →
  wp (gasSStore gt msize) (gas_post sc m pc (x :: y :: st) mem c (λ cost _, 1 <= cost)) (mkFrame pc (x :: y :: st) mem c e).
Proof.
  intros Hro He. unfold gasSStore. wp_steps. eapply wp_Back; [done|]. wp_steps. eapply wp_Back; [done|]. wp_steps.
  eapply wp_state_read; [apply vl_GetState|exact He|]. intros v g e' He' _.
  destruct (_ && _); [apply const_gas; try done; unfold in_u64, SstoreSetGas; lia|].
  destruct (_ && _); [|apply const_gas; try done; unfold in_u64, SstoreResetGas; lia].
  wp_steps. eapply wp_state_act; [apply vl_AddRefund|exact He'|done|intros ? ? ? ?; by apply since_write, vs_moved_same|]. intros [] g1 g2 e2 He2 _.
  apply const_gas; try done; unfold in_u64, SstoreClearGas; lia.
Qed.

Lemma wp_makeGasLog n gt msize x y sc m pc st mem c e : (n <= 4)%nat → evm_ok sc (c_Gas c + m) e → 0 <= y → 0 <= msize →
  wp (makeGasLog (Z.of_nat n) gt msize) (gas_post sc m pc (x :: y :: st) mem c (λ cost _, 1 <= cost ∧ msize <= mem_limit))
    (mkFrame pc (x :: y :: st) mem c e).
Proof.
  intros Hn He Hy Hm. unfold makeGasLog. wp_steps. eapply wp_Back; [done|].
  apply wp_ebind, wp_big_uint64; [done|]. intros [w|] Hw; [|by apply gas_done]. destruct Hw as [-> Hw].
  apply wp_ebind, wp_memoryGasCost; [done|]. intros [g1|] mem' Hm' Hg1; [|by apply gas_done]. destruct Hg1 as [Hg1 Hlim].
  apply wp_ebind, wp_safe_add; [done|unfold in_u64, LogGas; lia|].
  intros [g2|] Hg2; [|by apply gas_done]. destruct Hg2 as [-> Hg2].
  apply wp_ebind, wp_safe_add; [done|apply u64_range|]. intros [g3|] Hg3; [|by apply gas_done]. destruct Hg3 as [-> Hg3].
  apply wp_ebind, wp_safe_mul; [done|unfold in_u64, LogDataGas; lia|].
  intros [g4|] Hg4; [|by apply gas_done]. destruct Hg4 as [Hg4' Hg4].
  apply wp_safe_add; [done..|]. intros [g5|] Hg5; [|by apply gas_done]. destruct Hg5 as [-> Hg5].
  pose proof (u64_range (Z.of_nat n * LogTopicGas)) as Hu.
  apply gas_done; try done. cbn. unfold in_u64, LogGas in *. lia.
Qed.

Lemma wp_gasExp gt msize x y sc m pc st mem c e : evm_ok sc (c_Gas c + m) e →
  wp (gasExp gt msize) (gas_post sc m pc (x :: y :: st) mem c (λ cost _, 1 <= cost)) (mkFrame pc (x :: y :: st) mem c e).
Proof.
  intros He. unfold gasExp. wp_steps. eapply wp_Back; [done|].
  apply wp_safe_add; [apply u64_range|unfold in_u64, GasSlowStep; lia|].
  intros [g|] Hg; [|by apply gas_done]. destruct Hg as [-> Hg]. apply gas_done; try done. cbn. split; [done|].
  pose proof (u64_range ((BitLen y + 7) / 8 * gt_ExpByte gt)). unfold in_u64, GasSlowStep in *. lia.
Qed.

(** What a call pays on top of the gas that it hands over. *)
Definition call_price (value : Z) (msize : Z) (cost : Z) (e : EVM S) : Prop :=
  e_callGasTemp e + (if value =? 0 then 0 else CallValueTransferGas) + 1 <= cost ∧ msize <= mem_limit.

Lemma wp_call_end gt gas value msize req sc m pc st mem c e :
  evm_ok sc (c_Gas c + m) e → 0 <= msize → in_u64 gas →
  (if value =? 0 then 0 else CallValueTransferGas) + 1 <= gas → st !! 0%nat = Some req →
  wp (memoryGas ←! memoryGasCost msize; gas ←! safe_add gas memoryGas; call_gas gt gas)
    (gas_post sc m pc st mem c (call_price value msize)) (mkFrame pc st mem c e).
Proof.
  intros He Hm Hg Hv Hreq. apply wp_ebind, wp_memoryGasCost; [done|].
  intros [g1|] mem' Hm' Hg1; [|by apply gas_done]. destruct Hg1 as [Hg1 Hlim].
  apply wp_ebind, wp_safe_add; [done..|]. intros [g2|] Hg2; [|by apply gas_done]. destruct Hg2 as [-> Hg2].
  eapply wp_mono; [by eapply wp_call_gas|]. intros r f (mem2 & e2 & -> & Hm2 & He2 & Hr).
  apply gas_done; [done..|]. destruct r as [cost|]; [|done]. destruct Hr as [Hr ->]. split; [done|].
  unfold call_price, in_u64 in *. lia.
Qed.
Lemma wp_gasCall gt msize req addr value sc m pc st mem c e : table_ok gt → evm_ok sc (c_Gas c + m) e → 0 <= msize →
  wp (gasCall gt msize) (gas_post sc m pc (req :: addr :: value :: st) mem c (call_price value msize))
    (mkFrame pc (req :: addr :: value :: st) mem c e).
Proof.
  intros Hgt He Hm. unfold gasCall. wp_steps. eapply wp_Back; [done|]. wp_steps. eapply wp_Back; [done|]. wp_steps.
  assert (∀ (fresh : bool) e, evm_ok sc (c_Gas c + m) e →
    let gas := if fresh then u64 (gt_Calls gt + CallNewAccountGas) else gt_Calls gt in
    let gas := if negb (value =? 0) then u64 (gas + CallValueTransferGas) else gas in
    wp (memoryGas ←! memoryGasCost msize; gas ←! safe_add gas memoryGas; call_gas gt gas)
      (gas_post sc m pc (req :: addr :: value :: st) mem c (call_price value msize))
      (mkFrame pc (req :: addr :: value :: st) mem c e)) as Hend.
  { intros fresh e' He' gas1 gas2. destruct (to_load _ Hgt). unfold CallNewAccountGas, CallValueTransferGas in *.
    assert (gt_Calls gt <= gas1 <= 2 ^ 20 + 25000) by
      (unfold gas1; destruct fresh; [rewrite u64_small by (unfold in_u64; lia)|]; lia).
    eapply wp_call_end; [done|done| | |done].
    - unfold gas2. destruct (negb _); [apply u64_range|]. unfold in_u64. lia.
    - unfold gas2, CallValueTransferGas. destruct (value =? 0); cbn [negb]; [lia|]. rewrite u64_small by (unfold in_u64; lia). lia. }
  destruct (is_rule IsEIP158 (e_ctx e)).
  - destruct (negb (value =? 0)) eqn:Ev.
    + eapply wp_state_read; [apply vl_Empty|exact He|]. intros b g e' He' _. by apply Hend.
    + wp_steps. by apply (Hend false).
  - wp_steps. eapply wp_state_read; [apply vl_Exist|exact He|]. intros b g e' He' _. wp_steps. by apply Hend.
Qed.

Lemma wp_gasCallCode gt msize req addr value sc m pc st mem c e : table_ok gt → evm_ok sc (c_Gas c + m) e → 0 <= msize →
  wp (gasCallCode gt msize) (gas_post sc m pc (req :: addr :: value :: st) mem c (call_price value msize))
    (mkFrame pc (req :: addr :: value :: st) mem c e).
Proof.
  intros Hgt He Hm. unfold gasCallCode. wp_steps. eapply wp_Back; [done|].
  destruct (to_load _ Hgt). unfold CallValueTransferGas in *.
  eapply wp_call_end; [done|done| | |done]; unfold CallValueTransferGas; destruct (value =? 0); unfold in_u64;
    rewrite ?u64_small by (unfold in_u64; lia); lia.
Qed.

Lemma wp_gasDelegateCall gt msize req sc m pc st mem c e : table_ok gt → evm_ok sc (c_Gas c + m) e → 0 <= msize →
  wp (gasDelegateCall gt msize) (gas_post sc m pc (req :: st) mem c (call_price 0 msize)) (mkFrame pc (req :: st) mem c e).
Proof.
  intros Hgt He Hm. unfold gasDelegateCall. apply wp_ebind, wp_memoryGasCost; [done|].
  intros [g1|] mem' Hm' Hg1; [|by apply gas_done]. destruct Hg1 as [Hg1 Hlim]. destruct (to_load _ Hgt).
  apply wp_ebind, wp_safe_add; [done|unfold in_u64; lia|]. intros [g2|] Hg2; [|by apply gas_done]. destruct Hg2 as [-> Hg2].
  eapply wp_mono; [by eapply wp_call_gas|]. intros r f (mem2 & e2 & -> & Hm2 & He2 & Hr).
  apply gas_done; [done..|]. destruct r as [cost|]; [|done]. destruct Hr as [Hr ->]. split; [done|].
  unfold call_price, in_u64 in *. cbn. lia.
Qed.

Lemma wp_gasSuicide gt msize x sc m pc st mem c e : table_ok gt → protected sc = false → evm_ok sc (c_Gas c + m) e →
  wp (gasSuicide gt msize) (gas_post sc m pc (x :: st) mem c (λ _ _, True)) (mkFrame pc (x :: st) mem c e).
Proof.
  intros Hgt Hro He. unfold gasSuicide. wp_steps. cbn [f_contract].
  assert (∀ gas e, in_u64 gas → evm_ok sc (c_Gas c + m) e →
    wp (state_op (v_HasSuicided (c_self c)))
      (λ gone, wp ((if gone : bool then mret () else state_op (v_AddRefund SuicideRefundGas));; ok gas)
        (gas_post sc m pc (x :: st) mem c (λ _ _, True))) (mkFrame pc (x :: st) mem c e)) as Hend.
  { intros gas e1 Hg He1. eapply wp_state_read; [apply vl_HasSuicided|exact He1|]. intros b g e2 He2 _. wp_steps.
    destruct b; [wp_steps; by apply const_gas|].
    eapply wp_state_act; [apply vl_AddRefund|exact He2|done|intros ? ? ? ?; by apply since_write, vs_moved_same|]. intros [] g1 g2 e3 He3 _. by apply const_gas. }
  assert (∀ fresh : bool, in_u64 (if fresh then u64 (gt_Suicide gt + gt_CreateBySuicide gt) else gt_Suicide gt)) as Hr.
  { intros []; [apply u64_range|]. destruct (to_other _ Hgt). unfold in_u64. lia. }
  destruct (is_rule IsEIP150 _); [|wp_steps; apply Hend; [unfold in_u64; lia|done]].
  wp_steps. eapply wp_Back; [done|]. wp_steps. destruct (is_rule IsEIP158 _).
  - wp_steps. eapply wp_state_read; [apply vl_Empty|exact He|]. intros b g e1 He1 _.
    destruct b; wp_steps; [|by apply (Hend _ _ (Hr false))].
    eapply wp_state_read; [apply vl_GetBalance|exact He1|]. intros bal g1 e2 He2 _. wp_steps. by apply Hend.
  - wp_steps. eapply wp_state_read; [apply vl_Exist|exact He|]. intros b g e1 He1 _. wp_steps. by apply Hend.
Qed.
(** ** The price of every instruction *)

(** The instructions that always cost something: neither those that end a run nor
    [EXTCODEHASH], whose price is zero in all gas tables. *)
Definition priced (o : Op.t) : bool :=
  match o with Op.STOP | Op.RETURN | Op.REVERT | Op.SELFDESTRUCT | Op.EXTCODEHASH => false | _ => true end.

Definition uses_mem (o : Op.t) : bool :=
  match o with
  | Op.SHA3 | Op.CALLDATACOPY | Op.CODECOPY | Op.EXTCODECOPY | Op.RETURNDATACOPY | Op.MLOAD | Op.MSTORE | Op.MSTORE8
  | Op.LOG _ | Op.CREATE | Op.CALL | Op.CALLCODE | Op.RETURN | Op.DELEGATECALL | Op.CREATE2 | Op.STATICCALL
  | Op.REVERT => true
  | _ => false
  end.

Definition price (o : Op.t) (st : list Z) (msize cost : Z) (e : EVM S) : Prop :=
  (priced o = true → 1 <= cost) ∧ (uses_mem o = true → msize <= mem_limit) ∧
  match o with
  | Op.CALL | Op.CALLCODE => call_price (st_at st 2) msize cost e
  | Op.DELEGATECALL | Op.STATICCALL => call_price 0 msize cost e
  | _ => True
  end.

Lemma gas_post_mono sc m pc st mem c (P P' : Z → EVM S → Prop) g f : wp g (gas_post sc m pc st mem c P) f →
  (∀ cost e, in_u64 cost → evm_ok sc (c_Gas c + m) e → P cost e → P' cost e) → wp g (gas_post sc m pc st mem c P') f.
Proof.
  intros Hg HP. eapply wp_mono; [exact Hg|]. intros r f' (mem' & e' & -> & Hm & He & Hr).
  exists mem', e'. split_and!; try done. destruct r as [cost|]; [|done]. destruct Hr. split; [done|]. by apply HP.
Qed.

Lemma call_price_pos value msize cost e sc k : evm_ok sc k e → call_price value msize cost e → 1 <= cost ∧ msize <= mem_limit.
Proof.
  intros (g & l & []) [H ?]. unfold in_u64, CallValueTransferGas in *. destruct (value =? 0); lia.
Qed.

Lemma plain_price o st msize cost e : uses_mem o = false → calls o = false → (priced o = true → 1 <= cost) →
  price o st msize cost e.
Proof. intros Hu Hc Hf. split; [done|]. split; [by rewrite Hu|]. by destruct o. Qed.

Lemma mem_price o st msize cost e : calls o = false ∨ o = Op.CREATE ∨ o = Op.CREATE2 →
  (priced o = true → 1 <= cost) → msize <= mem_limit → price o st msize cost e.
Proof. intros Hc Hf Hm. split; [done|]. split; [done|]. destruct o; naive_solver. Qed.

(** Memory and a price for every word, or only memory. *)
Lemma words_price o sc m pc st mem c e base per n size msize :
  calls o = false → evm_ok sc (c_Gas c + m) e → 1 <= base <= 2 ^ 20 → in_u64 per → st !! n = Some size → 0 <= size → 0 <= msize →
  wp (words_gas base per n msize) (gas_post sc m pc st mem c (price o st msize)) (mkFrame pc st mem c e).
Proof.
  intros Hc He Hb Hp Hn Hs Hm. eapply gas_post_mono; [eapply wp_words_gas; try done; unfold in_u64; lia|].
  intros cost e' _ _ [? ?]. apply mem_price; [by left|lia|done].
Qed.

Lemma memory_price o sc m pc st mem c e base msize :
  calls o = false ∨ o = Op.CREATE ∨ o = Op.CREATE2 → evm_ok sc (c_Gas c + m) e → 1 <= base <= 2 ^ 20 → 0 <= msize →
  wp (memory_gas base msize) (gas_post sc m pc st mem c (price o st msize)) (mkFrame pc st mem c e).
Proof.
  intros Hc He Hb Hm. eapply gas_post_mono; [apply wp_memory_gas; try done; unfold in_u64; lia|].
  intros cost e' _ _ [? ?]. apply mem_price; [done|lia|done].
Qed.

Lemma return_price o sc m pc st mem c e msize : o = Op.RETURN ∨ o = Op.REVERT → evm_ok sc (c_Gas c + m) e → 0 <= msize →
  wp (memoryGasCost msize) (gas_post sc m pc st mem c (price o st msize)) (mkFrame pc st mem c e).
Proof.
  intros Ho He Hm. apply wp_memoryGasCost; [done|]. intros r mem' Hm' Hr. apply gas_done; [done..|].
  destruct r; [|done]. destruct Hr. split; [done|]. destruct Ho as [-> | ->]; (apply mem_price; [by left|done|done]).
Qed.

Lemma calls_price o sc m pc st mem c gas value msize f :
  (o = Op.CALL ∨ o = Op.CALLCODE) ∧ value = st_at st 2 ∨ (o = Op.DELEGATECALL ∨ o = Op.STATICCALL) ∧ value = 0 →
  wp gas (gas_post sc m pc st mem c (call_price value msize)) f → wp gas (gas_post sc m pc st mem c (price o st msize)) f.
Proof.
  intros Ho Hg. eapply gas_post_mono; [exact Hg|]. intros cost e Hc He Hp.
  destruct (call_price_pos _ _ _ _ _ _ He Hp). split; [done|]. split; [done|]. naive_solver.
Qed.

Lemma gas_ok run sc m o pc st mem c e msize x n :
  op_wf o → (writes (operation_of run o) = true → protected sc = false) →
  ((arity o).1 <= length st)%nat → Forall (Z.le 0) st → evm_ok sc (c_Gas c + m) e → 0 <= msize →
  wp (gasCost (operation_of run o) (GasTable_of x n) msize) (gas_post sc m pc st mem c (price o st msize)) (mkFrame pc st mem c e).
Proof.
  intros Hwf Hw Hl Hst He Hm. pose proof (GasTable_ok x n) as Hgt. set (gt := GasTable_of x n) in *.
  destruct Hgt as [(? & ? & ?) (? & ?) (? & ?) ?] eqn:Egt. clear Egt.
  destruct o; try done; cbn [arity fst] in Hl; args st; decompose_Forall_hyps;
    try match goal with
    | |- wp (constGasFunc _ _ _) _ _ =>
        refine (const_gas _ _ _ _ _ _ _ _ _ He _ _); [by (split; [|vm_compute])|by apply plain_price]
    end.
  - eapply gas_post_mono; [by apply wp_gasExp|]. intros. by apply plain_price.
  - eapply words_price; done.
  - refine (const_gas _ _ _ _ _ _ _ _ _ He _ _); [unfold in_u64; lia|]. by apply plain_price; [| |lia].
  - eapply words_price; done.
  - eapply words_price; done.
  - refine (const_gas _ _ _ _ _ _ _ _ _ He _ _); [unfold in_u64; lia|]. by apply plain_price; [| |lia].
  - eapply words_price; done.
  - eapply words_price; done.
  - refine (const_gas _ _ _ _ _ _ _ _ _ He _ _); [unfold in_u64; lia|]. by apply plain_price.
  - apply memory_price; [by left|done..].
  - apply memory_price; [by left|done..].
  - apply memory_price; [by left|done..].
  - refine (const_gas _ _ _ _ _ _ _ _ _ He _ _); [unfold in_u64; lia|]. by apply plain_price; [| |lia].
  - eapply gas_post_mono; [apply wp_gasSStore; auto|]. intros. by apply plain_price.
  - by refine (const_gas _ _ _ _ _ _ _ _ _ He _ (plain_price _ _ _ _ _ _ _ _)).
  - by refine (const_gas _ _ _ _ _ _ _ _ _ He _ (plain_price _ _ _ _ _ _ _ _)).
  - by refine (const_gas _ _ _ _ _ _ _ _ _ He _ (plain_price _ _ _ _ _ _ _ _)).
  - destruct st as [|x0 [|x1 st]]; cbn in Hl; [lia..|]. decompose_Forall_hyps.
    eapply gas_post_mono; [by apply wp_makeGasLog|]. intros cost e' _ _ [? ?]. by apply mem_price; [left|..].
  - apply memory_price; [by right; left|done..].
  - eapply calls_price; [by left; split; [left|]|]. by apply wp_gasCall.
  - eapply calls_price; [by left; split; [right|]|]. by apply wp_gasCallCode.
  - apply return_price; [by left|done..].
  - eapply calls_price; [by right; split; [left|]|]. by apply wp_gasDelegateCall.
  - apply memory_price; [by right; right|done..].
  - eapply calls_price; [by right; split; [right|]|]. by apply wp_gasDelegateCall.
  - apply return_price; [by right|done..].
  - eapply gas_post_mono; [apply wp_gasSuicide; auto|]. intros. by apply plain_price.
Qed.
End gas.
