(* ===== verification/VmSafePre.v ===== *)
(** * Precompiled contracts are safe (core/vm/contracts.go)

    A precompiled contract that can be paid for does not panic, whatever its input: the
    price of modular exponentiation keeps the lengths that it reads from its input away
    from the overflow of [getData]. *)

From Stdlib Require Import ZArith Lia ZifyBool Zpow_facts.
From stdpp Require Import base tactics strings numbers gmap list.
From S2P Require Import Prelude Rlp Trie TrieDb.
From S2P Require Import StateObject VmBase VmMachine VmContracts VmInstr VmRun VmWords VmJumps VmLogic VmSafeOps VmSafeGas.

Local Open Scope Z_scope.

Lemma getData_run data start size : gobytes data → 0 <= start → 0 <= size <= maxAlloc →
  ∃ d, getData data start size = Ret d ∧ Forall is_byte d ∧ lenZ d = size.
Proof.
  intros [Hb Hl] Hs Hz. unfold maxAlloc in Hz. unfold getData. set (s := if _ <? start then _ else _).
  assert (s = Z.min start (lenZ data)) as Es by (unfold s; case_match; lia). pose proof (lenZ_pos data).
  rewrite u64_small by (unfold in_u64; lia). set (e := if _ <? _ then _ else _).
  destruct (slice_run data s e) as (d & -> & Hd & HF); [unfold e; case_match; lia..|]. cbn.
  rewrite i64_small by (unfold in_i64; lia). assert (lenZ d <= size) by (unfold e in *; case_match; lia).
  destruct (pad_run d size) as [(d' & -> & Hd' & El) _]; [auto|unfold maxAlloc; lia|]. exists d'. split_and!; [done..|lia].
Qed.

(** [getData] is not safe for all arguments: its sum can wrap around, and the padding can be
    too long to be made. *)
Lemma getData_overflow : getData [7] 1 (2 ^ 64 - 1) = Panic "slice bounds out of range" ∧
  getData [7] 1 (2 ^ 50) = Panic "makeslice: len out of range".
Proof. split; reflexivity. Qed.

Lemma minimal_length b n : minimal b → be_val b < 256 ^ n → 0 <= n → lenZ b <= n.
Proof.
  intros Hm Hv Hn. destruct b as [|x b]; [done|]. pose proof (minimal_lower x b Hm).
  destruct (decide (lenZ (x :: b) <= n)) as [|Hgt]; [done|]. exfalso.
  assert (256 ^ n <= 256 ^ lenZ b); [|lia]. apply Z.pow_le_mono_r; [lia|]. unfold lenZ in *. cbn [length] in Hgt. lia.
Qed.

Lemma after_header_bytes input : gobytes input → gobytes (after_header input).
Proof.
  intros [Hb Hl]. unfold after_header. case_match; [|apply gobytes_nil]. split; [by apply Forall_drop|].
  unfold lenZ in *. rewrite length_drop. lia.
Qed.

(** The three lengths at the start of the input of the exponentiation. *)
Lemma modexp_header input : gobytes input → ∃ b e m,
  getData input 0 32 = Ret b ∧ getData input 32 32 = Ret e ∧ getData input 64 32 = Ret m ∧
  0 <= be_val b ∧ 0 <= be_val e ∧ 0 <= be_val m.
Proof.
  intros Hi. pose proof (lenZ_pos input).
  destruct (getData_run input 0 32) as (b & -> & Hb & _); [done|unfold maxAlloc in *; lia..|].
  destruct (getData_run input 32 32) as (e & -> & He & _); [done|unfold maxAlloc in *; lia..|].
  destruct (getData_run input 64 32) as (m & -> & Hm & _); [done|unfold maxAlloc in *; lia..|].
  exists b, e, m. split_and!; try done; by apply be_val_pos.
Qed.

Lemma complexity_lower x : 0 <= x → (1 <= x → 1 <= modexp_complexity x) ∧ (2 ^ 40 <= x → 2 ^ 76 <= modexp_complexity x).
Proof.
  intros Hx. unfold modexp_complexity. destruct (x <=? 64) eqn:E1; [split; nia|]. destruct (x <=? 1024) eqn:E2.
  - split; [|lia]. intros _. pose proof (Z.div_le_lower_bound (x * x) 4 1024). nia.
  - split; intros H.
    + assert (65536 <= x * x / 16) by (apply Z.div_le_lower_bound; nia). lia.
    + assert (2 ^ 76 <= x * x / 16) by (apply Z.div_le_lower_bound; nia). lia.
Qed.

(** A price below the cap bounds the lengths. *)
Lemma modexp_gas_run input : gobytes input → ∃ gas b e m,
  modexp_gas input = Ret gas ∧ in_u64 gas ∧
  getData input 0 32 = Ret b ∧ getData input 32 32 = Ret e ∧ getData input 64 32 = Ret m ∧
  0 <= be_val b ∧ 0 <= be_val e ∧ 0 <= be_val m ∧
  (gas <= gas_cap → be_val b < 2 ^ 40 ∧ be_val m < 2 ^ 40 ∧ (be_val b = 0 ∧ be_val m = 0 ∨ be_val e <= maxAlloc)).
Proof.
  intros Hi. destruct (modexp_header input Hi) as (b & e & m & Eb & Ee & Em & Hb & He & Hm).
  unfold modexp_gas. rewrite Eb, Ee, Em. cbn [mbind outcome_bind]. pose proof (after_header_bytes input Hi) as Ha.
  set (B := be_val b) in *. set (E := be_val e) in *. set (M := be_val m) in *. pose proof (lenZ_pos (after_header input)).
  assert (∃ h, (if lenZ (after_header input) <=? B then Ret 0
    else h ← getData (after_header input) (Uint64 B) (if 32 <? E then 32 else Uint64 E); Ret (be_val h)) = Ret h ∧ 0 <= h)
    as (h & -> & Hh).
  { destruct (_ <=? B) eqn:EB; [exists 0; done|]. destruct Ha as [Ha1 Ha2]. rewrite Uint64_small by (unfold in_u64; lia).
    destruct (getData_run (after_header input) B (if 32 <? E then 32 else Uint64 E)) as (d & -> & Hd & _).
    - done.
    - done.
    - unfold maxAlloc. destruct (32 <? E) eqn:E32; [lia|]. rewrite Uint64_small; unfold in_u64; lia.
    - cbn. eexists. split; [done|]. by apply be_val_pos. }
  cbn [mbind outcome_bind]. set (x := BigMax M B). set (adj := _ + (if 0 <? BitLen h then _ else _)).
  assert (0 <= x ∧ M <= x ∧ B <= x ∧ (x = M ∨ x = B)) as (Hx0 & HxM & HxB & Hx) by (unfold x, BigMax; case_match; lia).
  assert (0 <= adj ∧ 8 * (E - 32) <= adj) as [Hadj0 Hadj] by (unfold adj; repeat case_match; lia).
  set (a := BigMax adj 1). assert (1 <= a ∧ adj <= a) as [Ha1 Haa] by (unfold a, BigMax; case_match; lia).
  destruct (complexity_lower x Hx0) as [Hc1 Hc2].
  assert (0 <= modexp_complexity x) as Hc0 by (destruct (decide (x = 0)) as [->|]; [done|lia]).
  eexists _, b, e, m. split; [done|]. split_and!; try done.
  { destruct (64 <? _); unfold in_u64, MaxUint64; [lia|apply u64_range]. }
  set (G := _ / ModExpQuadCoeffDiv). assert (0 <= G) as HG0 by (apply Z.div_pos; [nia|done]).
  intros HG. assert (G <= 2 ^ 46) as HG1.
  { destruct (64 <? BitLen G) eqn:EG; unfold MaxUint64, gas_cap in HG; [lia|].
    pose proof (proj1 (BitLen_bound G 64 HG0)). rewrite Uint64_small in HG by (unfold in_u64; lia). done. }
  assert (modexp_complexity x * a < 20 * (2 ^ 46 + 1)) as Hprod.
  { unfold G, ModExpQuadCoeffDiv in HG1. pose proof (Z.mul_succ_div_gt (modexp_complexity x * a) 20). lia. }
  assert (x < 2 ^ 40) by (destruct (decide (x < 2 ^ 40)) as [|Hge]; [done|]; nia).
  split; [lia|]. split; [lia|]. destruct (decide (1 <= x)) as [H1|]; [right|left; lia].
  specialize (Hc1 H1). assert (a < 20 * (2 ^ 46 + 1)) by nia. unfold maxAlloc. lia.
Qed.

Section precompiled.
  Context {KL : KeccakLib} {KLaws : KeccakLaws} {CL : CryptoLib} {CLaws : CryptoLaws}.

Lemma LeftPad_gobytes b n : gobytes b → n <= maxAlloc → ∃ d, LeftPadBytes b n = Ret d ∧ gobytes d.
Proof.
  intros [Hb Hl] Hn. destruct (pad_run b n) as [_ (d & E & Hd & El)]; [done..|]. exists d. split; [done|].
  split; [done|]. unfold maxAlloc in Hn. lia.
Qed.

Lemma run_modexp_run input gas : gobytes input → modexp_gas input = Ret gas → gas <= gas_cap →
  ∃ r, run_modexp input = Ret r ∧ yields gobytes r.
Proof.
  intros Hi Hg Hcap. destruct (modexp_gas_run input Hi) as (gas' & b & e & m & Eg & _ & Eb & Ee & Em & Hb & He & Hm & Hsz).
  rewrite Hg in Eg. injection Eg as <-. destruct (Hsz Hcap) as (Hb' & Hm' & He'). unfold run_modexp.
  rewrite Eb, Ee, Em. cbn [mbind outcome_bind]. pose proof (after_header_bytes input Hi) as Ha.
  set (B := be_val b) in *. set (E := be_val e) in *. set (M := be_val m) in *. destruct (Ha) as [_ Hal].
  rewrite !(Uint64_small B), !(Uint64_small M) by (unfold in_u64; lia).
  destruct ((B =? 0) && (M =? 0)) eqn:E0; [eexists; split; [done|apply gobytes_nil]|].
  assert (E <= maxAlloc) by lia. assert (B <= maxAlloc ∧ M <= maxAlloc) as [? ?] by (unfold maxAlloc; lia).
  rewrite (Uint64_small E) by (unfold in_u64, maxAlloc in *; lia). set (inp := after_header input) in *. pose proof (lenZ_pos inp).
  destruct (getData_run inp 0 B) as (db & -> & Hdb & _); [done|unfold maxAlloc in *; lia..|].
  destruct (getData_run inp B E) as (de & -> & Hde & _); [done|unfold maxAlloc in *; lia..|].
  destruct (getData_run inp (u64 (B + E)) M) as (dm & -> & Hdm & Hlm); [done|apply u64_range|done|].
  cbn [mbind outcome_bind]. rewrite i64_small by (unfold in_i64; lia).
  destruct (be_val dm =? 0) eqn:Em0.
  { destruct (LeftPad_gobytes [] M) as (r & -> & Hr); [apply gobytes_nil|done|]. by eexists. }
  pose proof (be_val_bound dm Hdm) as Hv. rewrite Hlm in Hv.
  set (v := _ mod be_val dm). assert (0 <= v < be_val dm) by (apply Z.mod_pos_bound; lia).
  destruct (big_Bytes_spec v) as [Hmin Hval]; [lia|].
  destruct (LeftPad_gobytes (big_Bytes v) M) as (r & -> & Hr); [split; [apply Hmin|]|done|by eexists].
  pose proof (minimal_length _ M Hmin). lia.
Qed.

Lemma keccak_gobytes b : gobytes (keccak256 b).
Proof. split; [apply keccak_bytes|]. unfold lenZ. rewrite keccak_length. lia. Qed.

Lemma run_ecrecover_run input : gobytes input → ∃ r, run_ecrecover input = Ret r ∧ yields gobytes r.
Proof.
  intros [Hb Hl]. unfold run_ecrecover. destruct (pad_run input 128) as [(inp & -> & Hi & Hli') _]; [done..|].
  assert (128 <= lenZ inp) as Hli by lia. clear Hli'. cbn [mbind outcome_bind].
  destruct (slice_run inp 64 96) as (rb & -> & _); [lia..|]. destruct (slice_run inp 96 128) as (sb & -> & _); [lia..|].
  cbn [mbind outcome_bind]. destruct (slice_get_lookup inp 63) as (v & -> & _); [unfold lenZ in Hli; lia|].
  destruct (slice_run inp 32 63) as (pad & -> & _); [lia..|]. cbn [mbind outcome_bind].
  destruct (_ || _); [eexists; split; [done|apply gobytes_nil]|].
  destruct (slice_run inp 0 32) as (hash & -> & _); [lia..|]. destruct (slice_run inp 64 128) as (sig & -> & _); [lia..|].
  cbn [mbind outcome_bind]. destruct (crypto_Ecrecover _ _) as [pk|] eqn:Ep; [|eexists; split; [done|apply gobytes_nil]].
  destruct (ecrecover_bytes _ _ _ Ep) as [[Hpb Hpl] Hne].
  destruct (slice_run pk 1 (lenZ pk)) as (p & -> & _); [destruct pk; [done|]; unfold lenZ; cbn [length]; lia|lia|].
  cbn [mbind outcome_bind]. assert (lenZ (keccak256 p) = 32) as Hk by (unfold lenZ; by rewrite keccak_length).
  destruct (slice_run (keccak256 p) 12 (lenZ (keccak256 p))) as (h & -> & Hhl & Hh); [lia..|]. cbn [mbind outcome_bind].
  destruct (LeftPad_gobytes h 32) as (r & -> & Hr); [split; [apply Hh, keccak_bytes|lia]|done|by eexists].
Qed.

Lemma run_bn256_run input : gobytes input →
  (∃ r, run_bn256Add input = Ret r ∧ yields gobytes r) ∧ (∃ r, run_bn256ScalarMul input = Ret r ∧ yields gobytes r).
Proof.
  intros Hi. pose proof (proj2 Hi). pose proof (lenZ_pos input). split.
  - unfold run_bn256Add. destruct (getData_run input 0 64) as (x & -> & _); [done|unfold maxAlloc in *; lia..|].
    destruct (getData_run input 64 64) as (y & -> & _); [done|unfold maxAlloc in *; lia..|]. cbn.
    case_match; eexists; (split; [done|]); [apply bn256_Add_bytes|done].
  - unfold run_bn256ScalarMul. destruct (getData_run input 0 64) as (x & -> & _); [done|unfold maxAlloc in *; lia..|]. cbn.
    case_match; [|eexists; split; done]. destruct (getData_run input 64 32) as (k & -> & _); [done|unfold maxAlloc in *; lia..|]. cbn.
    eexists. split; [done|]. apply bn256_ScalarMult_bytes.
Qed.

Lemma run_pairing_run input : ∃ r, run_pairing input = Ret r ∧ yields gobytes r.
Proof.
  unfold run_pairing. case_match; [eexists; split; done|]. destruct (pairing_points _ _) as [[cs ts]|]; eexists; (split; [done|]); [|done].
  split; [|unfold lenZ; rewrite length_app, length_replicate; cbn; lia].
  apply Forall_app. split; [apply zeros_bytes|]. repeat constructor; case_match; lia.
Qed.

Lemma precompile_ok p input : gobytes input →
  ∃ gas, RequiredGas p input = Ret gas ∧ in_u64 gas ∧
    (gas <= gas_cap → ∃ r, precompile_Run p input = Ret r ∧ yields gobytes r).
Proof.
  intros Hi. assert (∀ z, in_u64 (u64 z)) as Hu by apply u64_range. destruct p; cbn [RequiredGas precompile_Run].
  - eexists. split; [done|]. split; [by (split; [|vm_compute])|]. intros _. by apply run_ecrecover_run.
  - eexists. split; [done|]. split; [apply Hu|]. intros _. eexists. split; [done|]. apply sha256_bytes.
  - eexists. split; [done|]. split; [apply Hu|]. intros _.
    destruct (LeftPad_gobytes (ripemd160_Sum input) 32) as (r & -> & Hr); [apply ripemd160_bytes|done|by eexists].
  - eexists. split; [done|]. split; [apply Hu|]. intros _. by eexists.
  - destruct (modexp_gas_run input Hi) as (gas & b & e & m & E & Hg & _). rewrite E. exists gas. split; [done|]. split; [done|].
    intros Hcap. by eapply run_modexp_run.
  - eexists. split; [done|]. split; [by (split; [|vm_compute])|]. intros _. by apply run_bn256_run.
  - eexists. split; [done|]. split; [by (split; [|vm_compute])|]. intros _. by apply run_bn256_run.
  - eexists. split; [done|]. split; [apply Hu|]. intros _. apply run_pairing_run.
Qed.
End precompiled.
