(* ===== verification/VmSafeRun.v ===== *)
(** * Calls, creations and the interpreter are safe (core/vm/evm.go, interpreter.go)

    With enough fuel, every run ends without a panic, with no more gas than it started
    with; a call that fails leaves the state as it was; and a static call leaves it as it
    was but for empty accounts.  The fuel is one unit per level of calls, of which there
    are at most 1025, and per level one unit per round: there are no more rounds than gas, or,
    where [EXTCODEHASH] is free, than gas times the length of the code. *)

From Stdlib Require Import ZArith Lia ZifyBool.
From stdpp Require Import base tactics strings numbers gmap list.
From S2P Require Import Prelude Rlp Trie TrieDb.
From S2P Require Import StateObject VmBase VmMachine VmContracts VmInstr VmRun VmWords VmJumps.
From S2P Require Import VmLogic VmSafeOps VmSafeGas VmSafePre.

Local Open Scope Z_scope.
Local Open Scope record_scope.
Local Open Scope vm_scope.

Section calls.
  Context {S : Type} {VS : VmState S} {VF : VmSafe S} {KL : KeccakLib} {VL : VmSafeLaws S}.
  Context {KLaws : KeccakLaws} {CL : CryptoLib} {CLaws : CryptoLaws}.
  Implicit Types (e : EVM S) (sc : scope S).

(** ** Rules *)

Lemma evm_at_state sc k k' g g' l l' e s : evm_at sc k g l e → vs_ok s g' (sc_snaps sc ++ l') k' →
  since sc g g' → evm_at sc k' g' l' (e<| e_state := s |>).
Proof. intros [] Hs Hq. constructor; try done. by etransitivity. Qed.

Lemma wp_estate {A} (m : stM S A) P R sc k g l e (Q : A → EVM S → Prop) :
  acts m P R → evm_at sc k g l e → P g → (∀ a g', R g a g' → since sc g g') →
  (∀ a g' e', evm_at sc k g' l e' → R g a g' → Q a e') → wp (estate_op m) Q e.
Proof.
  intros Hm He HP Hq HQ. unfold wp, estate_op.
  destruct (Hm _ _ _ _ (eo_state _ _ _ _ _ He) HP) as (a & s' & g' & -> & Hs & HR).
  eapply HQ; [|exact HR]. eapply evm_at_state; [exact He|exact Hs|by eapply Hq].
Qed.

Lemma wp_eread {A} (m : stM S A) R sc k g l e (Q : A → EVM S → Prop) :
  reads m R → evm_at sc k g l e → (∀ a e', evm_at sc k g l e' → R g a → Q a e') → wp (estate_op m) Q e.
Proof.
  intros Hm He HQ. eapply wp_estate; [exact Hm|exact He|done| |].
  - by intros a g' [-> _].
  - intros a g' e' He' [-> HR]. by apply HQ.
Qed.

Lemma evm_at_less sc k k' g l e : evm_at sc k g l e → k' <= k → evm_at sc k' g l e.
Proof. intros [] Hk. constructor; try done. by eapply vs_less. Qed.

Lemma wp_snapshot sc k g l e (Q : Z → EVM S → Prop) : evm_at sc k g l e → 0 < k →
  (∀ id e', evm_at sc (k - 1) g (l ++ [(id, g)]) e' → Q id e') → wp (estate_op v_Snapshot) Q e.
Proof.
  intros He Hk HQ. unfold wp, estate_op. destruct (vl_Snapshot _ _ _ _ (eo_state _ _ _ _ _ He) Hk) as (id & s' & -> & Hs).
  apply HQ. eapply evm_at_state; [exact He|by rewrite app_assoc|done].
Qed.

Lemma wp_revert sc k g l id g0 l' e (Q : () → EVM S → Prop) : evm_at sc k g (l ++ (id, g0) :: l') e →
  since sc (sc_start sc) g0 →
  (∀ e', evm_at sc k g0 l e' → Q () e') → wp (estate_op (v_RevertToSnapshot id)) Q e.
Proof.
  intros He Hq HQ. unfold wp, estate_op. pose proof (eo_state _ _ _ _ _ He) as Hs. rewrite app_assoc in Hs.
  destruct (vl_Revert _ _ _ _ _ _ _ Hs) as (s' & -> & Hs'). apply HQ. destruct He. by constructor.
Qed.

Lemma wp_erule r e (Q : bool → EVM S → Prop) : Q (is_rule r (e_ctx e)) e → wp (erule r) Q e.
Proof. done. Qed.

Lemma CanTransfer_reads a v : reads (CanTransfer a v) (λ g b, b = (v <=? vs_bal g a)).
Proof.
  intros s g l k Hs _. destruct (vl_GetBalance a s g l k Hs I) as (b & s' & g' & E & Hs' & -> & -> & _).
  unfold CanTransfer. eexists _, s', g. split; [by srun|]. split; [done|]. by split.
Qed.

Lemma Transfer_acts a b v : acts (Transfer a b v) (λ g, 0 <= v <= vs_bal g a)
  (λ g _ g', vs_moved 0 g g' ∧ (v = 0 → vs_quiet g g')).
Proof.
  intros s g l k Hs Hv. destruct (vl_SubBalance a v s g l k Hs Hv) as ([] & s1 & g1 & E1 & Hs1 & Hm1 & Hq1).
  destruct (vl_AddBalance b v s1 g1 l k Hs1 (proj1 Hv)) as ([] & s2 & g2 & E2 & Hs2 & Hm2 & _ & Hq2).
  unfold Transfer. exists (), s2, g2. split; [by srun|]. split; [done|].
  split; [eapply vs_moved_less; [by eapply vs_moved_trans|lia]|]. intros H0. etransitivity; [by apply Hq1|by apply Hq2].
Qed.

(** The scope that counts some snapshots as those of callers. *)
Definition sc_more sc (l : list (Z * vs_abs)) : scope S :=
  mkScope (sc_ctx sc) (sc_depth sc) (sc_ro sc) (sc_snaps sc ++ l) (sc_start sc).

Lemma evm_at_more sc k g l l' e : evm_at (sc_more sc l) k g l' e ↔ evm_at sc k g (l ++ l') e.
Proof.
  split; intros [? ? ? ? ? ? Hs ?]; constructor; try done; cbn in *; [by rewrite app_assoc|by rewrite <-app_assoc].
Qed.

(** ** What a run promises *)

Section runner.
Context (run : run_type S) (dmin gmax : Z) (free : bool).

(** [free]: whether there may be an instruction that costs nothing, [EXTCODEHASH] of
    Constantinople. *)
Definition run_ctx (x : Context) : Prop := ctx_ok x ∧ (is_rule IsConstantinople x = true → free = true).

Definition run_post sc (m : Z) (g : vs_abs) (c : Contract) (ro : bool) (r : bytes * option vmErr * Contract) e : Prop :=
  let '(ret, err, c') := r in
  gobytes ret ∧ 0 <= c_Gas c' <= c_Gas c ∧
  ∃ g' l', evm_at sc (c_Gas c' + m) g' l' e ∧ vs_moved 0 g g' ∧ (ro = true → is_rule IsByzantium (sc_ctx sc) = true → vs_quiet g g').

(** From depth [dmin] on, with at most [gmax] gas. *)
Definition run_ok : Prop := ∀ sc m g c input ro e,
  run_ctx (sc_ctx sc) → dmin <= sc_depth sc <= CallCreateDepth → contract_ok c → c_Gas c <= gmax → gobytes input →
  0 <= m → evm_at sc (c_Gas c + m) g [] e → wp (run c input ro) (run_post sc m g c ro) e.

Context (Hrun : run_ok) (Hgmax : gmax <= gas_cap).

(** What a call promises: [st] for a static one. *)
Definition call_post sc (m : Z) (g : vs_abs) (gas : Z) (st : bool) (r : bytes * Z * option vmErr) e : Prop :=
  let '(ret, gas', err) := r in
  gobytes ret ∧ 0 <= gas' <= gas ∧
  ∃ g' l', evm_at sc (gas' + m) g' l' e ∧ vs_moved 0 g g' ∧ (err ≠ None → g' = g) ∧
    (st = true → is_rule IsByzantium (sc_ctx sc) = true → vs_quiet g g').

Lemma call_refused sc m g l gas st err e : evm_at sc (gas + 1 + m) g l e → 0 <= gas → call_post sc m g gas st ([], gas, err) e.
Proof.
  intros He Hg. split; [apply gobytes_nil|]. split; [lia|]. exists g, l. split; [eapply evm_at_less; [exact He|lia]|].
  split; [by apply vs_moved_same|done].
Qed.

Lemma finish_safe sc m g l g1 id c input ro e :
  run_ctx (sc_ctx sc) → dmin <= sc_depth sc <= CallCreateDepth → contract_ok c → c_Gas c <= gmax → gobytes input →
  since sc (sc_start sc) g → vs_moved 0 g g1 → (ro = true → g1 = g) → 0 <= m →
  evm_at sc (c_Gas c + m) g1 (l ++ [(id, g)]) e →
  wp (finish run id c input ro) (call_post sc m g (c_Gas c) ro) e.
Proof.
  intros Hx Hd Hc Hg Hi Hq Hmv Hro Hm He. unfold finish. wp_steps.
  eapply wp_mono; [apply (Hrun (sc_more sc (l ++ [(id, g)])) m g1); try done; by apply evm_at_more; rewrite app_nil_r|].
  intros [[ret err] c'] e1 (Hret & Hgas & g2 & l2 & He2 & Hmv2 & Hst). apply evm_at_more in He2. wp_steps.
  assert (ro = true → is_rule IsByzantium (sc_ctx sc) = true → vs_quiet g g2) as Hst' by (intros Hr; rewrite <-(Hro Hr); auto).
  unfold on_error. destruct err as [err|]; wp_steps.
  - rewrite <-app_assoc in He2. eapply wp_revert; [exact He2|done|]. intros e2 He3. wp_steps.
    assert (∀ c2, 0 <= c_Gas c2 <= c_Gas c' → call_post sc m g (c_Gas c) ro (ret, c_Gas c2, Some err) e2) as Hend.
    { intros c2 Hc2. split; [done|]. split; [lia|]. exists g, l. split; [eapply evm_at_less; [exact He3|lia]|].
      split; [by apply vs_moved_same|by split]. }
    case_bool_decide; apply Hend; cbn; lia.
  - split; [done|]. split; [done|]. eexists g2, _. split; [exact He2|]. split; [by apply (vs_moved_trans 0 0 g g1)|]. by split.
Qed.
(** ** Calls *)

Lemma new_contract_ok caller addr value gas : Forall is_byte (ref_Address caller) → Forall is_byte addr → 0 <= value →
  0 <= gas <= gmax → contract_ok (NewContract caller addr value gas).
Proof. intros. constructor; cbn; try done; try apply gobytes_nil; try (by intros []); lia. Qed.

Lemma wp_enter caller sc k g l e (Q : () → EVM S → Prop) : evm_at sc k g l e →
  (∀ e', evm_at sc k g l e' → Q () e') → wp (enter caller) Q e.
Proof.
  intros He HQ. destruct caller; apply HQ; [|done]. destruct He. by constructor.
Qed.

Lemma wp_with_code addr c sc k g l e (Q : Contract → EVM S → Prop) : evm_at sc k g l e → contract_ok c →
  (∀ c' e', evm_at sc k g l e' → contract_ok c' → c_Gas c' = c_Gas c → Q c' e') → wp (with_code addr c) Q e.
Proof.
  intros He Hc HQ. unfold with_code. wp_steps. eapply wp_eread; [apply vl_GetCodeHash|exact He|]. intros h e1 He1 [_ Hh].
  wp_steps. eapply wp_eread; [apply vl_GetCode|exact He1|]. intros code e2 He2 [Hcode Hv]. wp_steps.
  apply HQ; [done| |done]. destruct Hc. constructor; cbn; try done. by rewrite Hv.
Qed.

Lemma wp_call_target caller addr value sc k g l e (Q : bool → EVM S → Prop) :
  evm_at sc k g l e → 0 <= value <= vs_bal g (ref_Address caller) → (protected sc = true → value = 0) →
  (∀ g' e', evm_at sc k g' l e' → vs_moved 0 g g' → Q true e') → (∀ e', evm_at sc k g l e' → Q false e') →
  wp (call_target caller addr value) Q e.
Proof.
  intros He Hv Hp HT HF. unfold call_target. wp_steps. eapply wp_eread; [apply vl_Exist|exact He|]. intros ex e1 He1 Hex. wp_steps.
  assert (∀ g1 e1, evm_at sc k g1 l e1 → (∀ a, vs_bal g1 a = vs_bal g a) →
    wp (estate_op (Transfer (ref_Address caller) addr value)) (λ _, wp (mret true) Q) e1) as Hend.
  { intros g1 e2 He2 Hb. eapply wp_estate; [apply Transfer_acts|exact He2|cbv beta; by rewrite Hb|intros ? ? [Hmv HR]; split; [done|]; intros Hpr; apply HR, Hp, Hpr|].
    intros [] g2 e3 He3 [Hmv _]. wp_steps. eapply HT; [exact He3|]. apply (vs_moved_trans 0 0 g g1); [by apply vs_moved_same|done]. }
  destruct ex; [wp_steps; by eapply Hend|]. unfold precompiled. wp_steps. apply wp_erule. wp_steps. apply wp_erule.
  destruct (_ && _); [wp_steps; by apply HF|].
  wp_steps. eapply wp_estate; [apply vl_CreateAccount|exact He1|done|intros [] g1 [Hb Hq]; split; [by apply vs_moved_same|intros _; by apply Hq]|].
  intros [] g1 e2 He2 [Hb _]. wp_steps. by eapply Hend.
Qed.

Lemma Call_ok caller addr input gas value sc m g l e :
  run_ctx (sc_ctx sc) → dmin <= sc_depth sc → Forall is_byte (ref_Address caller) → Forall is_byte addr → gobytes input →
  0 <= gas <= gmax → 0 <= value → (protected sc = true → value = 0) → evm_at sc (gas + 1 + m) g l e → 0 <= m →
  wp (Call run caller addr input gas value) (call_post sc m g gas false) e.
Proof.
  intros Hx Hd Hcb Hab Hi Hg Hv Hp He Hm. unfold Call. wp_steps. rewrite (eo_depth _ _ _ _ _ He).
  destruct (_ && _); [wp_steps; eapply call_refused; [exact He|lia]|].
  destruct (CallCreateDepth <? sc_depth sc) eqn:Ed; [wp_steps; eapply call_refused; [exact He|lia]|].
  wp_steps. eapply wp_eread; [apply CanTransfer_reads|exact He|]. intros b e1 He1 ->.
  destruct (value <=? _) eqn:Eb; cbn [negb]; [|wp_steps; eapply call_refused; [exact He1|lia]].
  wp_steps. eapply wp_snapshot; [exact He1|lia|]. intros id e2 He2. replace (gas + 1 + m - 1) with (gas + m) in He2 by lia. wp_steps.
  eapply wp_call_target; [exact He2|lia|done| |].
  - intros g1 e3 He3 Hmv. cbn [negb]. wp_steps. eapply wp_enter; [exact He3|]. intros e4 He4. wp_steps.
    eapply wp_with_code; [exact He4|by apply new_contract_ok|]. intros c e5 He5 Hc Hcg. change (c_Gas c = gas) in Hcg. subst gas.
    eapply finish_safe; [| | | | | | | | |exact He5]; [done|lia|done|lia|done|apply (eo_since _ _ _ _ _ He)|done|done|done].
  - intros e3 He3. cbn [negb]. wp_steps. split; [apply gobytes_nil|]. split; [lia|]. eexists g, _.
    split; [exact He3|]. split; [by apply vs_moved_same|done].
Qed.

Lemma CallCode_ok caller addr input gas value sc m g l e :
  run_ctx (sc_ctx sc) → dmin <= sc_depth sc → Forall is_byte (ref_Address caller) → gobytes input →
  0 <= gas <= gmax → 0 <= value → evm_at sc (gas + 1 + m) g l e → 0 <= m →
  wp (CallCode run caller addr input gas value) (call_post sc m g gas false) e.
Proof.
  intros Hx Hd Hcb Hi Hg Hv He Hm. unfold CallCode. wp_steps. rewrite (eo_depth _ _ _ _ _ He).
  destruct (_ && _); [wp_steps; eapply call_refused; [exact He|lia]|].
  destruct (CallCreateDepth <? sc_depth sc) eqn:Ed; [wp_steps; eapply call_refused; [exact He|lia]|].
  wp_steps. eapply wp_eread; [apply CanTransfer_reads|exact He|]. intros b e1 He1 ->.
  destruct (value <=? _) eqn:Eb; cbn [negb]; [|wp_steps; eapply call_refused; [exact He1|lia]].
  wp_steps. eapply wp_snapshot; [exact He1|lia|]. intros id e2 He2. replace (gas + 1 + m - 1) with (gas + m) in He2 by lia. wp_steps.
  eapply wp_enter; [exact He2|]. intros e4 He4. wp_steps.
  eapply wp_with_code; [exact He4|by apply new_contract_ok|]. intros c e5 He5 Hc Hcg. change (c_Gas c = gas) in Hcg. subst gas.
  eapply finish_safe; [| | | | | | | | |exact He5]; [done|lia|done|lia|done|apply (eo_since _ _ _ _ _ He)|by apply vs_moved_same|done|done].
Qed.

Lemma DelegateCall_ok parent addr input gas sc m g l e :
  run_ctx (sc_ctx sc) → dmin <= sc_depth sc → contract_ok parent → gobytes input →
  0 <= gas <= gmax → evm_at sc (gas + 1 + m) g l e → 0 <= m →
  wp (DelegateCall run (ContractOf parent) addr input gas) (call_post sc m g gas false) e.
Proof.
  intros Hx Hd Hpc Hi Hg He Hm. unfold DelegateCall. wp_steps. rewrite (eo_depth _ _ _ _ _ He).
  destruct (_ && _); [wp_steps; eapply call_refused; [exact He|lia]|].
  destruct (CallCreateDepth <? sc_depth sc) eqn:Ed; [wp_steps; eapply call_refused; [exact He|lia]|].
  wp_steps. eapply wp_snapshot; [exact He|lia|]. intros id e2 He2. replace (gas + 1 + m - 1) with (gas + m) in He2 by lia. wp_steps.
  eapply wp_enter; [exact He2|]. intros e4 He4. wp_steps. apply wp_rlift. eexists. split; [done|]. wp_steps.
  eapply wp_with_code; [exact He4|destruct Hpc; constructor; cbn; try done; try apply gobytes_nil; try (by intros []); lia|].
  intros c e5 He5 Hc Hcg. change (c_Gas c = gas) in Hcg. subst gas.
  eapply finish_safe; [| | | | | | | | |exact He5]; [done|lia|done|lia|done|apply (eo_since _ _ _ _ _ He)|by apply vs_moved_same|done|done].
Qed.

Lemma StaticCall_ok caller addr input gas sc m g l e :
  run_ctx (sc_ctx sc) → dmin <= sc_depth sc → Forall is_byte (ref_Address caller) → Forall is_byte addr → gobytes input →
  0 <= gas <= gmax → evm_at sc (gas + 1 + m) g l e → 0 <= m →
  wp (StaticCall run caller addr input gas) (call_post sc m g gas true) e.
Proof.
  intros Hx Hd Hcb Hab Hi Hg He Hm. unfold StaticCall. wp_steps. rewrite (eo_depth _ _ _ _ _ He).
  destruct (_ && _); [wp_steps; eapply call_refused; [exact He|lia]|].
  destruct (CallCreateDepth <? sc_depth sc) eqn:Ed; [wp_steps; eapply call_refused; [exact He|lia]|].
  wp_steps. eapply wp_snapshot; [exact He|lia|]. intros id e2 He2. replace (gas + 1 + m - 1) with (gas + m) in He2 by lia. wp_steps.
  eapply wp_enter; [exact He2|]. intros e4 He4. wp_steps.
  eapply wp_with_code; [exact He4|by apply new_contract_ok|]. intros c e5 He5 Hc Hcg. change (c_Gas c = gas) in Hcg. subst gas.
  eapply finish_safe; [| | | | | | | | |exact He5]; [done|lia|done|lia|done|apply (eo_since _ _ _ _ _ He)|by apply vs_moved_same|done|done].
Qed.
(** ** Creations *)

(** A creation that fails changes at most the nonce of the caller; before Homestead, a
    contract whose code can not be stored is not a failure. *)
Definition create_post sc (m : Z) (g : vs_abs) (gas : Z) (caller : bytes) (r : bytes * bytes * Z * option vmErr) e : Prop :=
  let '(ret, addr, gas', err) := r in
  gobytes ret ∧ Forall is_byte addr ∧ 0 <= gas' <= gas ∧
  ∃ g' l', evm_at sc (gas' + m) g' l' e ∧ vs_moved 0 g g' ∧
    (err ≠ None → err = Some ErrCodeStoreOutOfGas ∧ is_rule IsHomestead (sc_ctx sc) = false ∨ g' = g ∨ vs_bumped caller g g').

Lemma create_refused sc m g g1 l gas gas' caller err e : evm_at sc (gas + 1 + m) g1 l e → 0 <= gas' <= gas →
  vs_moved 0 g g1 → g1 = g ∨ vs_bumped caller g g1 → create_post sc m g gas caller ([], zeroHash, gas', err) e.
Proof.
  intros He Hg Hm Hb. split; [apply gobytes_nil|]. split; [apply zeros_bytes|]. split; [lia|]. exists g1, l.
  split; [eapply evm_at_less; [exact He|lia]|]. split; [done|by right].
Qed.

Lemma wp_store_code address ret err tooLong c sc m g l e (Q : option vmErr * Contract → EVM S → Prop) :
  protected sc = false → gobytes ret → 0 <= c_Gas c <= gas_cap → evm_at sc (c_Gas c + m) g l e →
  (∀ err' c' g' e', evm_at sc (c_Gas c' + m) g' l e' → 0 <= c_Gas c' <= c_Gas c → vs_moved 0 g g' → Q (err', c') e') →
  wp (store_code address ret err tooLong c) Q e.
Proof.
  intros Hp Hret Hg He HQ. unfold store_code. pose proof (vs_moved_same g g ltac:(done)).
  destruct err as [err|]; [wp_steps; by eapply HQ; [|lia|]|].
  destruct tooLong; [wp_steps; by eapply HQ; [|lia|]|]. unfold UseGas. destruct (_ <? _) eqn:Eg; [wp_steps; by eapply HQ; [|lia|]|].
  pose proof (u64_range (lenZ ret * CreateDataGas)) as Hu. unfold gas_cap, in_u64 in *.
  wp_steps. eapply wp_estate; [apply vl_SetCode|exact He|done|intros ? ? ?; by apply since_write, vs_moved_same|]. intros [] g' e' He' Hb. wp_steps.
  eapply HQ; cbn; rewrite ?u64_small by (unfold in_u64; lia); [|lia|by apply vs_moved_same]. eapply evm_at_less; [exact He'|lia].
Qed.

Lemma wp_settle_create id err tooLong h c sc m g g1 l l' e (Q : option vmErr * Contract → EVM S → Prop) :
  protected sc = false → vs_moved 0 (sc_start sc) g1 → 0 <= c_Gas c → evm_at sc (c_Gas c + m) g (l ++ (id, g1) :: l') e →
  (∀ err' c' g' l' e', evm_at sc (c_Gas c' + m) g' l' e' → 0 <= c_Gas c' <= c_Gas c →
     g' = g ∨ g' = g1 → (err' ≠ None → err' = Some ErrCodeStoreOutOfGas ∧ h = false ∨ g' = g1) → Q (err', c') e') →
  wp (settle_create id err tooLong h c) Q e.
Proof.
  intros Hp Hs Hg He HQ. unfold settle_create. wp_steps. set (failed := match err with None => false | Some _ => _ end).
  destruct (tooLong || failed) eqn:Ef; wp_steps.
  - eapply wp_revert; [exact He|by apply since_write|]. intros e1 He1. wp_steps.
    eapply HQ; [| |by right|by right]; case_bool_decide; cbn; try lia; [exact He1|]. eapply evm_at_less; [exact He1|lia].
  - apply orb_false_iff in Ef as [-> Ef]. cbn [andb]. eapply HQ; [exact He|lia|by left|]. intros Herr. left.
    destruct err as [err|]; [|done]. unfold failed in Ef. apply orb_false_iff in Ef as [-> Ef]. split; [|done].
    apply negb_false_iff, bool_decide_eq_true in Ef. by subst.
Qed.

Lemma run_init_ok caller code gas value address eip158 noRun id sc m g g1 g3 l e :
  run_ctx (sc_ctx sc) → dmin <= sc_depth sc <= CallCreateDepth → Forall is_byte (ref_Address caller) → Forall is_byte address →
  gobytes code → 0 <= gas <= gmax → 0 <= value <= vs_bal g3 (ref_Address caller) → protected sc = false →
  vs_bumped (ref_Address caller) g g1 → vs_moved 0 (sc_start sc) g1 → vs_moved 0 g g1 → vs_moved 0 g g3 → 0 <= m →
  evm_at sc (gas + m) g3 (l ++ [(id, g1)]) e →
  wp (run_init run caller code gas value address eip158 noRun id) (create_post sc m g gas (ref_Address caller)) e.
Proof.
  intros Hx Hd Hcb Hab Hcode Hg Hv Hp Hbump Hs1 Hmv1 Hmv3 Hm He. unfold run_init. wp_steps.
  eapply wp_estate; [apply Transfer_acts|exact He|done|intros ? ? [? _]; by apply since_write|]. intros [] g4 e1 He1 [Hmv4 _]. wp_steps.
  pose proof (vs_moved_trans 0 0 g g3 g4 Hmv3 Hmv4) as Hmv. eapply wp_enter; [exact He1|]. intros e2 He2. destruct noRun.
  { wp_steps. split; [apply gobytes_nil|]. split; [done|]. split; [lia|]. by eexists g4, _. }
  wp_steps. eapply wp_mono; [apply (Hrun (sc_more sc (l ++ [(id, g1)])) m g4); try done|].
  - destruct (new_contract_ok caller address value gas Hcb Hab (proj1 Hv) Hg). by constructor.
  - cbn. lia.
  - by apply evm_at_more; rewrite app_nil_r.
  - intros [[ret err] c] e3 (Hret & Hcg & g5 & l5 & He3 & Hmv5 & _). cbn in Hcg. apply evm_at_more in He3. rewrite <-app_assoc in He3. wp_steps.
    eapply wp_store_code; [done|done|lia|exact He3|]. intros err1 c1 g6 e4 He4 Hc1 Hmv6. wp_steps. apply wp_erule. wp_steps.
    rewrite (eo_ctx _ _ _ _ _ He4). eapply wp_settle_create; [done|done|lia|exact He4|].
    intros err2 c2 g7 l7 e5 He5 Hc2 Hor Herr. wp_steps. split; [done|]. split; [done|]. split; [lia|]. exists g7, l7. split; [done|].
    split; [destruct Hor as [-> | ->]; [|done]; apply (vs_moved_trans 0 0 g g5), Hmv6; by apply (vs_moved_trans 0 0 g g4)|].
    intros Hne. destruct (Herr Hne) as [?| ->]; auto.
Qed.

Lemma create_ok caller code gas value address sc m g l e :
  run_ctx (sc_ctx sc) → dmin <= sc_depth sc → Forall is_byte (ref_Address caller) → Forall is_byte address → gobytes code →
  0 <= gas <= gmax → 0 <= value → protected sc = false → evm_at sc (gas + 1 + m) g l e → 0 <= m →
  wp (create run caller code gas value address) (create_post sc m g gas (ref_Address caller)) e.
Proof.
  intros Hx Hd Hcb Hab Hcode Hg Hv Hp He Hm. unfold create. wp_steps. rewrite (eo_depth _ _ _ _ _ He).
  destruct (CallCreateDepth <? sc_depth sc) eqn:Ed; [wp_steps; eapply create_refused; [exact He|lia|by apply vs_moved_same|by left]|].
  wp_steps. eapply wp_eread; [apply CanTransfer_reads|exact He|]. intros b e1 He1 ->.
  destruct (value <=? _) eqn:Eb; cbn [negb]; [|wp_steps; eapply create_refused; [exact He1|lia|by apply vs_moved_same|by left]].
  wp_steps. eapply wp_eread; [apply vl_GetNonce|exact He1|]. intros nonce e2 He2 _. wp_steps.
  eapply wp_estate; [apply vl_SetNonce|exact He2|done|intros ? ? [? _]; by apply since_write, vs_moved_same|]. intros [] g1 e3 He3 [Hb1 Hbump]. wp_steps.
  pose proof (proj1 (eo_since _ _ _ _ _ He3)) as Hs1.
  eapply wp_eread; [apply vl_GetCodeHash|exact He3|]. intros h e4 He4 _. wp_steps.
  eapply wp_eread; [apply vl_GetNonce|exact He4|]. intros n e5 He5 _.
  destruct (_ || _); [wp_steps; eapply create_refused; [exact He5|lia|by apply vs_moved_same|by right]|].
  wp_steps. eapply wp_snapshot; [exact He5|lia|]. intros id e6 He6. replace (gas + 1 + m - 1) with (gas + m) in He6 by lia. wp_steps.
  eapply wp_estate; [apply vl_CreateAccount|exact He6|done|intros ? ? [? _]; by apply since_write, vs_moved_same|]. intros [] g2 e7 He7 [Hb2 _]. wp_steps.
  apply wp_erule. wp_steps. destruct (is_rule _ _).
  - eapply wp_estate; [apply vl_SetNonce|exact He7|done|intros ? ? [? _]; by apply since_write, vs_moved_same|]. intros [] g3 e8 He8 [Hb3 _].
    eapply run_init_ok; try done; rewrite ?Hb3, ?Hb2, ?Hb1; try lia; apply vs_moved_same; intros b; congruence.
  - wp_steps. eapply run_init_ok; try done; rewrite ?Hb2, ?Hb1; try lia; apply vs_moved_same; intros b; congruence.
Qed.
(** ** The instructions that call *)

(** What an instruction leaves: no more than [gas], and [n] items on the stack. *)
Definition exec_post sc (m gas : Z) (n : nat) (r : bytes * option vmErr) (f : frame S) : Prop :=
  frame_ok sc m f ∧ gobytes r.1 ∧ c_Gas (f_contract f) <= gas ∧ (r.2 = None → length (f_stack f) = n).

Lemma wp_evm_op {A} (o : rM (EVM S) A) pc st mem c e (Q : A → frame S → Prop) :
  wp o (λ a e', Q a (mkFrame pc st mem c e')) e → wp (evm_op o) Q (mkFrame pc st mem c e).
Proof. unfold wp, evm_op. cbn. by destruct (o e) as [[? ?]| | |]. Qed.

Lemma wp_set_gas h pc st mem c e (Q : () → frame S → Prop) :
  Q () (mkFrame pc st mem (c<| c_Gas := h (c_Gas c) |>) e) → wp (set_gas h) Q (mkFrame pc st mem c e).
Proof. done. Qed.

Lemma contract_ok_gas c gas : contract_ok c → 0 <= gas <= gas_cap → contract_ok (c<| c_Gas := gas |>).
Proof. intros [] Hg. by constructor. Qed.

(** The common situation of these instructions: [cost] has been paid, [st] is left. *)
Record call_frame sc (m cost pc : Z) (st : list Z) (mem : Memory) (c : Contract) e : Prop := {
  cf_frame : frame_ok sc (m + cost) (mkFrame pc st mem c e);
  cf_gas : c_Gas c + cost <= gmax;
  cf_ctx : run_ctx (sc_ctx sc);
  cf_depth : dmin <= sc_depth sc;
  cf_m : 0 <= m
}.

Lemma after_call_ok sc m cost gas pc st mem c e0 off size r e :
  call_frame sc m cost pc st mem c e0 → calcMemSize off size <= mem_Len mem → 0 <= off → 0 <= size → gas + 1 <= cost →
  ∀ g b, call_post sc (c_Gas c + m) g gas b r e →
  wp (after_call off size r) (exec_post sc m (c_Gas c + cost - 1) (1 + length st)) (mkFrame pc st mem c e).
Proof.
  intros [Hf Hg _ _ _] Ht Ho Hs Hc g b Hr. destruct r as [[ret gas'] err]. destruct Hr as (Hret & Hgas & g' & l' & He & _).
  pose proof Hf as [Hst Hm Hk _ Hpc]. cbn in *. destruct (ko_gas _ Hk).
  assert (∀ mem', mem_ok mem' → wp (add_gas gas';; done_data ret) (exec_post sc m (c_Gas c + cost - 1) (1 + length st))
    (mkFrame pc (match err with Some _ => 0 | None => 1 end :: st) mem' c e)) as Hend.
  { intros mem' Hm'. unfold add_gas, set_gas. wp_steps. assert (u64 (c_Gas c + gas') = c_Gas c + gas') as Eu
      by (apply u64_small; unfold in_u64, gas_cap in *; lia).
    split; [|split; [done|split; [change (u64 (c_Gas c + gas') <= c_Gas c + cost - 1); lia|done]]].
    constructor; cbn; try done; [constructor; [by destruct err|done]| |exists g', l'; rewrite Eu; eapply evm_at_less; [exact He|lia]].
    apply contract_ok_gas; [done|]. lia. }
  unfold after_call. wp_steps. destruct (_ || _); [|wp_steps; by apply Hend].
  apply wp_mem_update. destruct (mem_Set_run mem off size ret) as (mem' & E & Hm'); try done; [apply Hret|].
  exists mem'. split; [exact E|]. by apply Hend.
Qed.
Lemma call_frame_st sc m cost pc st st' mem c e :
  call_frame sc m cost pc st mem c e → Forall (Z.le 0) st' → call_frame sc m cost pc st' mem c e.
Proof. intros [] Hst. constructor; try done. by eapply frame_ok_st. Qed.

Lemma BigToAddress_bytes x : Forall is_byte (BigToAddress x).
Proof. apply BytesToHash_bytes, big_bytes. Qed.

(** The gas of a call with value, with the stipend. *)
Lemma stipend_ok temp value cost : in_u64 temp → cost <= gas_cap →
  temp + (if value =? 0 then 0 else CallValueTransferGas) + 1 <= cost →
  let gas := if U256 value =? 0 then temp else u64 (temp + CallStipend) in 0 <= gas ∧ gas + 1 <= cost.
Proof.
  intros Ht Hc Hp gas. unfold in_u64, CallValueTransferGas, CallStipend, gas_cap in *.
  destruct (value =? 0) eqn:E.
  { apply Z.eqb_eq in E as ->. change gas with temp. lia. }
  subst gas. destruct (U256 value =? 0); [lia|]. rewrite u64_small by (unfold in_u64; lia). lia.
Qed.

Lemma BigMax_le x y n : BigMax x y <= n → x <= n ∧ y <= n.
Proof. unfold BigMax. case_match; lia. Qed.

Lemma opCall_ok sc m cost pc req addr value i isz r rsz st mem c e msize :
  let st0 := req :: addr :: value :: i :: isz :: r :: rsz :: st in
  call_frame sc m cost pc st0 mem c e → touched Op.CALL st0 <= mem_Len mem → call_price value msize cost e →
  (protected sc = true → value = 0) →
  wp (opCall run) (exec_post sc m (c_Gas c + cost - 1) (1 + length st)) (mkFrame pc st0 mem c e).
Proof.
  intros st0 Hf Ht [Hcp _] Hp. pose proof Hf as [[Hst Hm Hk He Hpc] Hg Hx Hd Hm0]. cbn in *. subst st0. decompose_Forall_hyps.
  destruct (BigMax_le _ _ _ Ht) as [Htr Hti]. unfold opCall. wp_steps. apply wp_rlift.
  destruct (mem_Get_run mem i isz) as (args & E & Hargs); try done. exists args. split; [exact E|]. wp_steps.
  destruct He as (g & l & He). pose proof (eo_temp _ _ _ _ _ He) as Htemp. destruct (ko_gas _ Hk).
  destruct (stipend_ok (e_callGasTemp e) value cost) as [Hg0 Hg1]; [done|lia|done|].
  apply wp_evm_op. eapply wp_mono; [apply (Call_ok _ _ _ _ _ sc (c_Gas c + m) g l); try done|].
  - apply Hk.
  - apply BigToAddress_bytes.
  - lia.
  - apply U256_pos.
  - intros Hpr. by rewrite (Hp Hpr).
  - eapply evm_at_less; [exact He|lia].
  - lia.
  - intros res e' Hres. eapply after_call_ok; [by eapply call_frame_st|done|done|done|exact Hg1|exact Hres].
Qed.

Lemma opCallCode_ok sc m cost pc req addr value i isz r rsz st mem c e msize :
  let st0 := req :: addr :: value :: i :: isz :: r :: rsz :: st in
  call_frame sc m cost pc st0 mem c e → touched Op.CALL st0 <= mem_Len mem → call_price value msize cost e →
  wp (opCallCode run) (exec_post sc m (c_Gas c + cost - 1) (1 + length st)) (mkFrame pc st0 mem c e).
Proof.
  intros st0 Hf Ht [Hcp _]. pose proof Hf as [[Hst Hm Hk He Hpc] Hg Hx Hd Hm0]. cbn in *. subst st0. decompose_Forall_hyps.
  destruct (BigMax_le _ _ _ Ht) as [Htr Hti]. unfold opCallCode. wp_steps. apply wp_rlift.
  destruct (mem_Get_run mem i isz) as (args & E & Hargs); try done. exists args. split; [exact E|]. wp_steps.
  destruct He as (g & l & He). pose proof (eo_temp _ _ _ _ _ He) as Htemp. destruct (ko_gas _ Hk).
  destruct (stipend_ok (e_callGasTemp e) value cost) as [Hg0 Hg1]; [done|lia|done|].
  apply wp_evm_op. eapply wp_mono; [apply (CallCode_ok _ _ _ _ _ sc (c_Gas c + m) g l); try done|].
  - apply Hk.
  - lia.
  - apply U256_pos.
  - eapply evm_at_less; [exact He|lia].
  - lia.
  - intros res e' Hres. eapply after_call_ok; [by eapply call_frame_st|done|done|done|exact Hg1|exact Hres].
Qed.

Lemma opDelegateCall_ok sc m cost pc req addr i isz r rsz st mem c e msize :
  let st0 := req :: addr :: i :: isz :: r :: rsz :: st in
  call_frame sc m cost pc st0 mem c e → touched Op.DELEGATECALL st0 <= mem_Len mem → call_price 0 msize cost e →
  wp (opDelegateCall run) (exec_post sc m (c_Gas c + cost - 1) (1 + length st)) (mkFrame pc st0 mem c e) ∧
  wp (opStaticCall run) (exec_post sc m (c_Gas c + cost - 1) (1 + length st)) (mkFrame pc st0 mem c e).
Proof.
  intros st0 Hf Ht [Hcp _]. pose proof Hf as [[Hst Hm Hk He Hpc] Hg Hx Hd Hm0]. cbn in *. subst st0. decompose_Forall_hyps.
  destruct (BigMax_le _ _ _ Ht) as [Htr Hti]. destruct (mem_Get_run mem i isz) as (args & E & Hargs); try done.
  destruct He as (g & l & He). pose proof (eo_temp _ _ _ _ _ He) as Htemp. unfold in_u64 in Htemp. destruct (ko_gas _ Hk).
  unfold opDelegateCall, opStaticCall.
  split; wp_steps; apply wp_rlift; (exists args; split; [exact E|]); wp_steps; apply wp_evm_op.
  - eapply wp_mono; [apply (DelegateCall_ok _ _ _ _ sc (c_Gas c + m) g l); try done; [lia|eapply evm_at_less; [exact He|lia]|lia]|].
    intros res e' Hres. eapply after_call_ok; [by eapply call_frame_st|done|done|done| |exact Hres]; lia.
  - eapply wp_mono; [apply (StaticCall_ok _ _ _ _ sc (c_Gas c + m) g l); try done|];
      [apply Hk|apply BigToAddress_bytes|lia|eapply evm_at_less; [exact He|lia]|lia|].
    intros res e' Hres. eapply after_call_ok; [by eapply call_frame_st|done|done|done| |exact Hres]; lia.
Qed.
Lemma CreateAddress_bytes b n : Forall is_byte (CreateAddress b n).
Proof. apply BytesToHash_bytes, script_addr_bytes. Qed.

Lemma CreateAddress2_bytes b salt code : Forall is_byte (CreateAddress2 b salt code).
Proof. apply BytesToHash_bytes, script_addr_bytes. Qed.

Lemma gas_share g : 0 <= g → 0 <= g - g / 64 <= g.
Proof. intros Hg. dlia. Qed.

(** The end of the two instructions: the flag or the address, and the gas that is left. *)
Lemma after_create_ok sc m cost gas pc st mem c e0 v b caller res addr gas' err g e :
  call_frame sc m cost pc st mem c e0 → 0 <= gas <= c_Gas c → 1 <= cost → 0 <= v →
  create_post sc (c_Gas c - gas + m) g gas caller (res, addr, gas', err) e →
  wp (push v;; add_gas gas';; if b : bool then done_data res else done_nil)
    (exec_post sc m (c_Gas c + cost - 1) (1 + length st)) (mkFrame pc st mem (c<| c_Gas := c_Gas c - gas |>) e).
Proof.
  intros [[Hst Hm Hk _ Hpc] Hg _ _ _] Hgas Hc Hv (Hret & _ & Hg' & g' & l' & He & _). cbn in *. destruct (ko_gas _ Hk).
  unfold add_gas. wp_steps. apply wp_set_gas. cbn [c_Gas]. set (c' := _<| c_Gas := _ |>).
  assert (c_Gas c' = c_Gas c - gas + gas') as Ec by (apply u64_small; unfold in_u64, gas_cap in *; lia).
  assert (contract_ok c') as Hk' by (destruct Hk; constructor; try done; rewrite Ec; lia).
  destruct b; wp_steps; (split; [constructor; cbn [f_stack f_mem f_contract f_evm f_pc]; try done; [by constructor|]|]).
  all: try (exists g', l'; rewrite Ec; eapply evm_at_less; [exact He|lia]).
  all: (split; [first [exact Hret|apply gobytes_nil]|]); cbn [f_contract f_stack]; rewrite Ec; (split; [lia|done]).
Qed.

Lemma opCreate_ok sc m cost pc value off size st mem c e :
  let st0 := value :: off :: size :: st in
  call_frame sc m cost pc st0 mem c e → touched Op.CREATE st0 <= mem_Len mem → protected sc = false → 1 <= cost →
  wp (opCreate run) (exec_post sc m (c_Gas c + cost - 1) (1 + length st)) (mkFrame pc st0 mem c e).
Proof.
  intros st0 Hf Ht Hp Hc. pose proof Hf as [[Hst Hm Hk He Hpc] Hg Hx Hd Hm0]. cbn in *. subst st0. decompose_Forall_hyps.
  unfold opCreate. wp_steps. apply wp_rlift.
  destruct (mem_Get_run mem off size) as (code & E & Hcode); try done. exists code. split; [exact E|]. wp_steps.
  destruct He as (g & l & He). destruct (ko_gas _ Hk). set (gas := if is_rule _ _ then _ else _).
  assert (0 <= gas <= c_Gas c) as Hgas by (unfold gas; case_match; [apply gas_share|]; lia).
  apply wp_set_gas. wp_steps. rewrite u64_small by (unfold in_u64, gas_cap in *; lia). unfold Create. apply wp_evm_op. wp_steps. eapply wp_eread; [apply vl_GetNonce|exact He|]. intros n e1 He1 _.
  eapply wp_mono; [apply (create_ok _ _ _ _ _ sc (c_Gas c - gas + m) g l); try done|];
    [apply Hk|apply CreateAddress_bytes|lia|eapply evm_at_less; [exact He1|lia]|lia|].
  intros [[[res addr] gas'] err] e2 Hpost. wp_steps. cbn [f_evm f_contract f_stack f_mem f_pc].
  eapply after_create_ok; [by eapply call_frame_st|exact Hgas|done| |exact Hpost].
  case_match; [done|]. apply be_val_pos, Hpost.
Qed.

Lemma opCreate2_ok sc m cost pc value off size salt st mem c e :
  let st0 := value :: off :: size :: salt :: st in
  call_frame sc m cost pc st0 mem c e → touched Op.CREATE2 st0 <= mem_Len mem → protected sc = false → 1 <= cost →
  wp (opCreate2 run) (exec_post sc m (c_Gas c + cost - 1) (1 + length st)) (mkFrame pc st0 mem c e).
Proof.
  intros st0 Hf Ht Hp Hc. pose proof Hf as [[Hst Hm Hk He Hpc] Hg Hx Hd Hm0]. cbn in *. subst st0. decompose_Forall_hyps.
  unfold opCreate2. wp_steps. apply wp_rlift.
  destruct (mem_Get_run mem off size) as (code & E & Hcode); try done. exists code. split; [exact E|]. wp_steps.
  destruct He as (g & l & He). destruct (ko_gas _ Hk). set (gas := c_Gas c - c_Gas c / 64).
  assert (0 <= gas <= c_Gas c) as Hgas by (apply gas_share; lia).
  apply wp_set_gas. wp_steps. rewrite u64_small by (unfold in_u64, gas_cap in *; lia). unfold Create2. apply wp_evm_op.
  eapply wp_mono; [apply (create_ok _ _ _ _ _ sc (c_Gas c - gas + m) g l); try done|];
    [apply Hk|apply CreateAddress2_bytes|lia|eapply evm_at_less; [exact He|lia]|lia|].
  intros [[[res addr] gas'] err] e2 Hpost. wp_steps. cbn [f_evm f_contract f_stack f_mem f_pc].
  eapply after_create_ok; [by eapply call_frame_st|exact Hgas|done| |exact Hpost].
  case_match; [done|]. apply be_val_pos, Hpost.
Qed.
(** ** All instructions *)

Lemma frame_ok_less sc m m' f : frame_ok sc m f → m' <= m → frame_ok sc m' f.
Proof. intros [? ? ? (g & l & He) ?] Hm. constructor; try done. exists g, l. eapply evm_at_less; [exact He|lia]. Qed.

Lemma exec_calls sc m cost o pc st mem c e msize :
  calls o = true → call_frame sc m cost pc st mem c e → ((arity o).1 <= length st)%nat →
  (writes (operation_of run o) = true → protected sc = false) → (o = Op.CALL → protected sc = true → st_at st 2 = 0) →
  touched o st <= mem_Len mem → price o st msize cost e →
  wp (execute (operation_of run o)) (exec_post sc m (c_Gas c + cost - 1) (length st - (arity o).1 + (arity o).2))
    (mkFrame pc st mem c e).
Proof.
  intros Hcl Hf Hl Hw Hp Ht (H1 & _ & Hpr). destruct o; try discriminate Hcl; cbn [arity fst snd priced] in *; args st.
  - exact (opCreate_ok _ _ _ _ _ _ _ _ _ _ _ Hf Ht (Hw eq_refl) (H1 eq_refl)).
  - exact (opCall_ok _ _ _ _ _ _ _ _ _ _ _ _ _ _ _ _ Hf Ht Hpr (Hp eq_refl)).
  - exact (opCallCode_ok _ _ _ _ _ _ _ _ _ _ _ _ _ _ _ _ Hf Ht Hpr).
  - exact (proj1 (opDelegateCall_ok _ _ _ _ _ _ _ _ _ _ _ _ _ _ _ Hf Ht Hpr)).
  - exact (opCreate2_ok _ _ _ _ _ _ _ _ _ _ _ _ Hf Ht (Hw eq_refl) (H1 eq_refl)).
  - exact (proj2 (opDelegateCall_ok _ _ _ _ _ _ _ _ _ _ _ _ _ _ _ Hf Ht Hpr)).
Qed.

Lemma exec_ok sc m cost o pc st mem c e msize :
  op_wf o → call_frame sc m cost pc st mem c e → 0 <= cost → ((arity o).1 <= length st)%nat →
  (writes (operation_of run o) = true → protected sc = false) → (o = Op.CALL → protected sc = true → st_at st 2 = 0) →
  touched o st <= mem_Len mem → price o st msize cost e → (pc < lenZ (c_Code c) ∨ o = Op.STOP) →
  wp (execute (operation_of run o)) (exec_post sc m (c_Gas c + Z.max 0 (cost - 1)) (length st - (arity o).1 + (arity o).2))
    (mkFrame pc st mem c e).
Proof.
  intros Hwf Hf Hc0 Hl Hw Hp Ht Hpr Hpc. destruct (calls o) eqn:Ecl.
  - eapply wp_mono; [by eapply exec_calls|]. intros r f (Hfo & Hret & Hg & Hn). split; [done|]. split; [done|]. split; [lia|done].
  - destruct Hf as [Hf Hg [Hx _] Hd Hm0]. eapply wp_mono; [by apply (exec_simple run sc (m + cost))|].
    intros r f (Hfo & Hret & Ec & Hn). split; [eapply frame_ok_less; [exact Hfo|lia]|]. split; [done|]. split; [rewrite Ec; lia|done].
Qed.

Lemma wp_enforce sc m o pc st mem c e : frame_ok sc m (mkFrame pc st mem c e) → ((arity o).1 <= length st)%nat →
  wp (enforceRestrictions o (operation_of run o)) (λ r f, f = mkFrame pc st mem c e ∧
    (r = None → (writes (operation_of run o) = true → protected sc = false) ∧
       (o = Op.CALL → protected sc = true → st_at st 2 = 0))) (mkFrame pc st mem c e).
Proof.
  intros Hf Hl. pose proof Hf as [Hst _ _ (g & l & He) _]. cbn in *. unfold enforceRestrictions, protected. wp_steps. cbn [f_evm].
  rewrite (eo_ctx _ _ _ _ _ He), (eo_ro _ _ _ _ _ He). destruct (_ && _) eqn:Ep; [|by wp_steps].
  destruct (writes _) eqn:Ew; [by wp_steps|]. destruct (is_CALL o) eqn:Ec; [|wp_steps; split; [done|]; intros _; split; [done|]; by intros ->].
  destruct o; try discriminate Ec. cbn in Hl. args st. wp_steps. eapply wp_Back; [done|]. wp_steps. split; [done|].
  intros Hn. split; [done|]. intros _ _. decompose_Forall_hyps. destruct (0 <? BitLen x1) eqn:Eb; [done|].
  pose proof (proj1 (BitLen_bound x1 0 ltac:(lia)) ltac:(lia)). cbn. lia.
Qed.
(** ** One round of the loop *)

Lemma decode_wf b o : decode_op b = Some o → op_wf o ∧ (b = 0 → o = Op.STOP).
Proof.
  intros H. split.
  - unfold decode_op in H. repeat case_match; simplify_eq; try done; cbn; try lia.
    all: match goal with E : ?l !! _ = Some _ |- _ => apply list_elem_of_lookup_2 in E; unfold l in E; set_solver end.
  - intros ->. vm_compute in H. congruence.
Qed.

Lemma JumpTable_wf x b o : run_ctx x → JumpTable x b = Some o →
  op_wf o ∧ (o = Op.EXTCODEHASH → free = true) ∧ (b = 0 → o = Op.STOP).
Proof.
  intros [_ Hc] H. unfold JumpTable in H. destruct (decode_op b) as [o'|] eqn:E; [|done].
  destruct (_ <=? _)%nat eqn:El; [|done]. injection H as ->. destruct (decode_wf b o E). split_and!; try done.
  intros ->. apply Hc. unfold instruction_set in El. unfold is_rule. destruct (IsConstantinople _ _); [done|].
  repeat case_match; cbn in El; discriminate.
Qed.
(** The memory that the jump table computes is the memory that is touched. *)
Lemma wp_mem_size i j pc st mem c e (Q : Z → frame S → Prop) : (i < length st)%nat → (j < length st)%nat →
  Q (calcMemSize (st_at st i) (st_at st j)) (mkFrame pc st mem c e) → wp (mem_size i j) Q (mkFrame pc st mem c e).
Proof.
  intros Hi Hj HQ. destruct (lookup_lt_is_Some_2 st i Hi) as [x Hx]. destruct (lookup_lt_is_Some_2 st j Hj) as [y Hy].
  unfold st_at in HQ. rewrite Hx, Hy in HQ. unfold mem_size. wp_steps. eapply wp_Back; [exact Hx|]. wp_steps. by eapply wp_Back; [exact Hy|].
Qed.

Lemma memorySize_ok o pc st mem c e : ((arity o).1 <= length st)%nat →
  match memorySize (operation_of run o) with
  | Some ms => uses_mem o = true ∧ wp ms (λ n f, f = mkFrame pc st mem c e ∧ n = touched o st) (mkFrame pc st mem c e)
  | None => uses_mem o = false ∧ touched o st = 0
  end.
Proof.
  intros Hl. destruct o; try done; (split; [done|]); cbn [arity fst] in Hl;
    try (apply wp_mem_size; [lia|lia|done]);
    try (unfold memoryCall, memoryDelegateCall, memoryStaticCall; wp_steps; apply wp_mem_size; [lia|lia|]; wp_steps;
         apply wp_mem_size; [lia|lia|done]);
    (destruct (lookup_lt_is_Some_2 st 0) as [x Hx]; [lia|]); unfold touched, st_at; rewrite Hx;
    unfold memoryMLoad, memoryMStore, memoryMStore8; wp_steps; by eapply wp_Back.
Qed.

Lemma touched_pos o st : Forall (Z.le 0) st → 0 <= touched o st.
Proof.
  intros Hst. assert (∀ n, 0 <= st_at st n) as Hn.
  { intros n. unfold st_at. destruct (st !! n) eqn:E; [|done]. by eapply Forall_lookup_1 in E. }
  assert (∀ i j, 0 <= i → 0 <= j → 0 <= calcMemSize i j) as Hc by (intros; unfold calcMemSize; case_match; lia).
  assert (∀ x y, 0 <= x → 0 <= y → 0 <= BigMax x y) as Hb by (intros; unfold BigMax; case_match; lia).
  destruct o; unfold touched; try done; repeat first [apply Hb|apply Hc|apply Hn|lia].
Qed.

Lemma wp_required_memory o pc st mem c e : ((arity o).1 <= length st)%nat → Forall (Z.le 0) st →
  wp (required_memory (operation_of run o)) (λ r f, f = mkFrame pc st mem c e ∧
    yields (λ msize, in_u64 msize ∧ touched o st <= msize ∧ (uses_mem o = false → msize = 0)) r) (mkFrame pc st mem c e).
Proof.
  intros Hl Hst. pose proof (memorySize_ok o pc st mem c e Hl) as Hm. pose proof (touched_pos o st Hst) as Ht.
  unfold required_memory. destruct (memorySize _) as [ms|].
  - destruct Hm as [Hu Hm]. apply wp_bind. eapply wp_mono; [exact Hm|]. intros n f [-> ->].
    apply wp_ebind, wp_big_uint64; [done|]. intros [w|] Hw; [|done]. destruct Hw as [-> Hw].
    destruct (toWordSize_bound _ Hw) as (Hb & Hr & _).
    apply wp_safe_mul; [done|unfold in_u64; lia|]. intros [v|] Hv; [|done]. destruct Hv as [-> Hv].
    split; [done|]. split; [done|]. split; [lia|]. by rewrite Hu.
  - destruct Hm as [Hu ->]. apply wp_ret. split; [done|]. cbn. unfold in_u64. lia.
Qed.

(** The rounds that are left: the gas, or, where an instruction may be free, the gas and then
    the rest of the code, which is not longer than [2 ^ 62]. *)
Definition progress (gas pc : Z) : Z := if free then gas * (2 ^ 62 + 1) + Z.max 0 (2 ^ 62 - pc) else gas.

Lemma progress_gas gas gas' pc pc' : gas' + 1 <= gas → 0 <= pc' → progress gas' pc' < progress gas pc.
Proof. unfold progress. destruct free; lia. Qed.

Lemma progress_pc gas gas' pc : free = true → gas' <= gas → pc < 2 ^ 62 → progress gas' (pc + 1) < progress gas pc.
Proof. unfold progress. intros ->. lia. Qed.

Definition step_post sc (m gas pc : Z) (r : option (bytes * option vmErr)) (f : frame S) : Prop :=
  frame_ok sc m f ∧ c_Gas (f_contract f) <= gas ∧
  match r with
  | None => progress (c_Gas (f_contract f)) (f_pc f) < progress gas pc
  | Some (ret, _) => gobytes ret
  end.

Lemma step_stop sc m pc err f : frame_ok sc m f → step_post sc m (c_Gas (f_contract f)) pc (Some ([], err)) f.
Proof. intros Hf. split; [done|]. split; [lia|apply gobytes_nil]. Qed.

Lemma frame_ok_data sc m f d : frame_ok sc m f → gobytes d → frame_ok sc m (f<| f_evm ::= λ e, e<| e_returnData := d |> |>).
Proof. intros [? ? ? (g & l & []) ?] Hd. constructor; try done. exists g, l. by constructor. Qed.

Lemma frame_ok_pc sc m f h : frame_ok sc m f → in_u64 (h (f_pc f)) → frame_ok sc m (f<| f_pc ::= h |>).
Proof. intros [] Hh. by constructor. Qed.

Lemma priced_flags o : reverts (operation_of run o) = false → halts (operation_of run o) = false →
  priced o = true ∨ o = Op.EXTCODEHASH ∧ jumps (operation_of run o) = false.
Proof. destruct o; intros; try done; auto. Qed.

(** The free instruction does not jump. *)
Lemma extcodehash_pc o f Q : wp (execute (operation_of run o)) Q f →
  wp (execute (operation_of run o)) (λ r f', Q r f' ∧ (o = Op.EXTCODEHASH → f_pc f' = f_pc f)) f.
Proof.
  unfold wp. destruct (execute _ f) as [[r f']| | |] eqn:E; try done. intros H. split; [done|]. intros ->.
  cbn in E. destruct f as [pc [|x st] mem c e]; unfold opExtCodeHash, pop, mbind, rM_bind in E; [done|]. cbn in E. unfold state_op in E.
  cbn in E. destruct (v_GetCodeHash (BigToAddress x) (e_state e)) as [[h s]|]; cbn in E; [|done]. by injection E as <- <-.
Qed.

(** After the price is paid. *)
Lemma dispatch_ok sc m gas n cost o f :
  wp (execute (operation_of run o)) (exec_post sc m (gas - cost + Z.max 0 (cost - 1)) n) f → 0 <= cost → (priced o = true → 1 <= cost) →
  (o = Op.EXTCODEHASH → free = true ∧ 0 <= f_pc f < 2 ^ 62) →
  wp (dispatch (operation_of run o)) (step_post sc m gas (f_pc f)) f.
Proof.
  intros Hex Hc Hfin Hfree. unfold dispatch. apply wp_bind. eapply wp_mono; [apply extcodehash_pc; exact Hex|]. clear Hex.
  intros [res err] f1 [(Hf & Hres & Hg & _) Hpc1]. cbn [fst] in Hres. apply wp_bind.
  assert (∀ f2, frame_ok sc m f2 → c_Gas (f_contract f2) = c_Gas (f_contract f1) → f_pc f2 = f_pc f1 →
    wp match err with
       | Some e => mret (Some ([], Some e))
       | None =>
           if reverts (operation_of run o) then mret (Some (res, Some errExecutionReverted))
           else if halts (operation_of run o) then mret (Some (res, None))
           else (if jumps (operation_of run o) then mret () else rmod (λ f, f<| f_pc ::= λ pc, u64 (pc + 1) |>));; mret None
       end (step_post sc m gas (f_pc f)) f2) as Hend.
  { intros f2 Hf2 Eg Epc. destruct err as [err|]; [wp_steps; split; [done|]; split; [lia|apply gobytes_nil]|].
    destruct (reverts _) eqn:Er; [wp_steps; split; [done|]; split; [lia|done]|].
    destruct (halts _) eqn:Eh; [wp_steps; split; [done|]; split; [lia|done]|].
    pose proof (u64_range (f_pc f2 + 1)). wp_steps. destruct (priced_flags o Er Eh) as [Hp|[-> Hj]].
    - specialize (Hfin Hp). pose proof (fo_pc _ _ _ Hf2). unfold in_u64 in *.
      destruct (jumps _); wp_steps; (split; [|split; [cbn; lia|apply progress_gas; cbn; lia]]); [done|by apply frame_ok_pc].
    - rewrite Hj. wp_steps. destruct (Hfree eq_refl) as [Hfr Hlt]. split; [by apply frame_ok_pc|]. split; [cbn; lia|]. cbn.
      rewrite Epc, (Hpc1 eq_refl), u64_small by (unfold in_u64; lia). apply progress_pc; [done|lia|lia]. }
  destruct (returns _); wp_steps; apply Hend; try done. by apply frame_ok_data.
Qed.

Lemma mem_Resize_ok mem n : mem_ok mem → n <= mem_limit → mem_ok (mem_Resize mem n) ∧ n <= mem_Len (mem_Resize mem n).
Proof.
  intros [Hb Hl] Hn. unfold mem_Resize. destruct (_ <? _) eqn:E; [|split; [done|lia]].
  assert (mem_Len (mkMemory (m_store mem ++ replicate (Z.to_nat (n - mem_Len mem)) 0) (m_lastGasCost mem)) = n) as En.
  { unfold mem_Len, lenZ in *. cbn. rewrite length_app, length_replicate. lia. }
  split; [|lia]. constructor; [|rewrite En; unfold mem_limit in Hn; lia]. cbn. apply Forall_app. split; [done|apply zeros_bytes].
Qed.
Lemma wp_pay cost sc m pc st mem c e (Q : bool → frame S → Prop) :
  frame_ok sc m (mkFrame pc st mem c e) → yields in_u64 cost →
  Q false (mkFrame pc st mem c e) →
  (∀ v, cost = inl v → v <= c_Gas c → frame_ok sc (m + v) (mkFrame pc st mem (c<| c_Gas := c_Gas c - v |>) e) →
     Q true (mkFrame pc st mem (c<| c_Gas := c_Gas c - v |>) e)) →
  wp (pay cost) Q (mkFrame pc st mem c e).
Proof.
  intros [Hst Hm Hk He Hpc] Hc HF HT. unfold pay. destruct cost as [v|]; [|done]. wp_steps. cbn [f_contract]. unfold UseGas.
  destruct (c_Gas c <? v) eqn:E; [done|]. wp_steps. cbn in *. destruct (ko_gas _ Hk) as [Hk0 Hk1]. unfold in_u64, gas_cap in *.
  rewrite u64_small by (unfold in_u64; lia). apply HT; [done|lia|]. constructor; cbn; try done.
  - apply contract_ok_gas; [done|]. unfold gas_cap. lia.
  - by replace (c_Gas c - v + (m + v)) with (c_Gas c + m) by lia.
Qed.

(** The end of a round: memory grows, the instruction runs. *)
Lemma run_insn sc m o pc st mem c e msize cost gas :
  op_wf o → call_frame sc m cost pc st mem c e → 0 <= cost → ((arity o).1 <= length st)%nat → gas = c_Gas c + cost →
  (writes (operation_of run o) = true → protected sc = false) → (o = Op.CALL → protected sc = true → st_at st 2 = 0) →
  0 <= msize → touched o st <= msize → (uses_mem o = false → msize = 0) → price o st msize cost e →
  (pc < lenZ (c_Code c) ∨ o = Op.STOP) → (o = Op.EXTCODEHASH → free = true) →
  wp ((if 0 <? msize then rmod (λ f, f<| f_mem ::= λ m, mem_Resize m msize |>) else mret ());; dispatch (operation_of run o))
    (step_post sc m gas pc) (mkFrame pc st mem c e).
Proof.
  intros Hwf Hf Hc Hl -> Hw Hp Hms Ht Hu Hpr Hpc Hfr. apply wp_bind.
  assert (∀ mem', mem_ok mem' → touched o st <= mem_Len mem' →
    wp (dispatch (operation_of run o)) (step_post sc m (c_Gas c + cost) pc) (mkFrame pc st mem' c e)) as Hend.
  { intros mem' Hm' Ht'. eapply (dispatch_ok sc m _ _ cost _ (mkFrame pc st mem' c e)); [|exact Hc|exact (proj1 Hpr)|].
    2: { intros ->. split; [by apply Hfr|]. destruct Hf as [[_ _ Hk _ Hu64] _ _ _ _]. cbn in *. destruct (ko_code _ Hk).
         unfold in_u64 in Hu64. destruct Hpc; [lia|done]. }
    replace (c_Gas c + cost - cost) with (c_Gas c) by lia.
    eapply exec_ok; try done. destruct Hf as [[? ? ? ? ?] ? ? ? ?]. by constructor. }
  pose proof (fo_mem _ _ _ (cf_frame _ _ _ _ _ _ _ _ Hf)) as Hm. cbn in Hm.
  destruct (0 <? msize) eqn:E; wp_steps.
  - destruct Hpr as (_ & Hlim & _). assert (uses_mem o = true) as Hum by (destruct (uses_mem o); [done|]; lia).
    destruct (mem_Resize_ok mem msize Hm (Hlim Hum)). apply (Hend (mem_Resize mem msize)); [done|lia].
  - apply Hend; [done|]. pose proof (lenZ_pos (m_store mem)). unfold mem_Len. lia.
Qed.

Lemma step_ok sc m f : run_ctx (sc_ctx sc) → dmin <= sc_depth sc → 0 <= m →
  frame_ok sc m f → c_Gas (f_contract f) <= gmax → wp (step run) (step_post sc m (c_Gas (f_contract f)) (f_pc f)) f.
Proof.
  intros Hx Hd Hm0 Hf Hg. unfold step. wp_steps. rewrite (frame_ctx _ _ _ Hf).
  destruct (JumpTable _ _) as [o|] eqn:Ej; [|wp_steps; by apply step_stop].
  destruct (JumpTable_wf _ _ _ Hx Ej) as (Hwf & Hfr & H0).
  assert (f_pc f < lenZ (c_Code (f_contract f)) ∨ o = Op.STOP) as Hpc.
  { destruct (f_pc f <? lenZ (c_Code (f_contract f))) eqn:E; [left; lia|right]. apply H0. unfold GetOp, GetByte. by rewrite E. }
  destruct (validateStack _ _ _) eqn:Ev; [wp_steps; by apply step_stop|].
  assert ((arity o).1 <= length (f_stack f))%nat as Hl.
  { unfold validateStack in Ev. rewrite (proj1 (arity_ok run o)) in Ev. destruct (_ <? _) eqn:E in Ev; [done|]. unfold lenZ in E. lia. }
  destruct f as [pc st mem c e]. cbn [f_pc f_stack f_mem f_contract f_evm] in *.
  apply wp_bind. eapply wp_mono; [by apply (wp_enforce sc m)|]. intros [err|] f [-> Henf]; [wp_steps; by apply step_stop|].
  destruct (Henf eq_refl) as [Hw Hp]. apply wp_bind.
  eapply wp_mono; [apply wp_required_memory; [done|apply Hf]|]. intros [msize|] f [-> Hms]; [|wp_steps; by apply step_stop].
  destruct Hms as (Hmr & Htm & Hu). apply wp_bind. unfold in_u64 in Hmr.
  eapply wp_mono; [apply (gas_ok run sc m); try done; [apply Hf|apply Hf|lia]|].
  intros r f (mem' & e' & -> & Hmem & He' & Hr).
  assert (frame_ok sc m (mkFrame pc st mem' c e')) as Hf'.
  { destruct Hf as [? [? ?] ? ? ?]. constructor; try done. cbn. constructor; [by rewrite Hmem|]. unfold mem_Len in *. by rewrite Hmem. }
  apply wp_bind. eapply wp_pay; [exact Hf'|destruct r; [apply Hr|done]|apply wp_ret; exact (step_stop sc m pc (Some ErrOutOfGas) _ Hf')|].
  intros v -> Hv Hfv. cbn [negb]. destruct Hr as [Hvr Hpr]. unfold in_u64 in Hvr.
  eapply (run_insn sc m o pc st mem' _ e' msize v); try done; [constructor; try done; cbn; lia|lia|cbn; lia|lia].
Qed.
(** ** The loop *)

Definition loop_post sc (m gas : Z) (r : bytes * option vmErr) (f : frame S) : Prop :=
  frame_ok sc m f ∧ gobytes r.1 ∧ c_Gas (f_contract f) <= gas.

Lemma loop_ok sc m fuel : run_ctx (sc_ctx sc) → dmin <= sc_depth sc → 0 <= m →
  ∀ f, frame_ok sc m f → c_Gas (f_contract f) <= gmax → progress (c_Gas (f_contract f)) (f_pc f) < Z.of_nat fuel →
  wp (loop fuel run) (loop_post sc m (c_Gas (f_contract f))) f.
Proof.
  intros Hx Hd Hm. induction fuel as [|fuel IH]; intros f Hf Hg Hfuel.
  { destruct (ko_gas _ (fo_contract _ _ _ Hf)). unfold progress in Hfuel. destruct free; lia. }
  cbn [loop]. apply wp_bind. unfold load_abort, wp. cbn zeta. set (f1 := f<| f_evm := _ |>).
  assert (frame_ok sc m f1) as Hf1 by (destruct Hf as [? ? ? (g & l & []) ?]; constructor; try done; exists g, l; by constructor).
  change (c_Gas (f_contract f)) with (c_Gas (f_contract f1)) in *. change (f_pc f) with (f_pc f1) in *. destruct (match e_aborts _ with [] => false | _ => _ end).
  { split; [done|]. split; [apply gobytes_nil|lia]. }
  fold (wp (r ← step run; match r with Some r => mret r | None => loop fuel run end)
    (loop_post sc m (c_Gas (f_contract f1))) f1). apply wp_bind.
  eapply wp_mono; [by apply step_ok|]. intros [[ret err]|] f2 (Hf2 & Hg2 & Hr); [by wp_steps|].
  eapply wp_mono; [apply IH; [done|lia|lia]|]. intros r f3 (? & ? & ?). split; [done|]. split; [done|lia].
Qed.
End runner.

(** ** The interpreter *)

(** The scope of the code that a run starts. *)
Definition sc_inner sc (ro : bool) (g : vs_abs) : scope S :=
  mkScope (sc_ctx sc) (sc_depth sc + 1) (sc_ro sc || ro) (sc_snaps sc) g.

Lemma run_enter_ok sc k g ro e : evm_at sc k g [] e →
  evm_at (sc_inner sc ro g) k g [] (run_enter (ro && negb (e_readOnly e)) e).
Proof.
  intros []. constructor; cbn; try done; [by rewrite eo_depth|].
  rewrite eo_ro. by destruct (sc_ro sc), ro.
Qed.

Lemma run_leave_ok sc k k0 g g' l' ro e e' : evm_at sc k0 g [] e → evm_at (sc_inner sc ro g) k g' l' e' →
  evm_at sc k g' l' (run_leave (ro && negb (e_readOnly e)) e') ∧ vs_moved 0 g g' ∧
  (ro = true → is_rule IsByzantium (sc_ctx sc) = true → vs_quiet g g').
Proof.
  intros He [Hctx Hdep Hro Hdat Htmp Hdst Hst [Hmv Hq]]. cbn in *. pose proof (eo_ro _ _ _ _ _ He) as Ero. split; [|split; [done|]].
  - unfold run_leave. rewrite Ero. constructor; try (by destruct (ro && _)).
    + destruct (ro && _); cbn; lia.
    + destruct (sc_ro sc), ro; cbn; rewrite ?Hro; done.
    + etransitivity; [apply (eo_since _ _ _ _ _ He)|]. split; [done|]. intros Hp. apply Hq. unfold protected in *. cbn.
      by apply andb_true_iff in Hp as [-> ->].
  - intros -> Hb. apply Hq. unfold protected. cbn. by rewrite Hb, orb_true_r.
Qed.

(** The rounds that a run with some gas may take. *)
Definition rounds (free : bool) (gas : Z) : Z := progress free gas 0.

Lemma rounds_mono free gas gas' : gas <= gas' → rounds free gas <= rounds free gas'.
Proof. unfold rounds, progress. destruct free; lia. Qed.

Lemma Run_ok run dmin gmax free fuel : run_ok run (dmin + 1) gmax free → gmax <= gas_cap → rounds free gmax < Z.of_nat fuel →
  run_ok (Run fuel run) dmin gmax free.
Proof.
  intros Hrun Hcap Hfuel sc m g c input ro e Hx Hd Hc Hg Hi Hm He. unfold wp, Run.
  pose proof (run_enter_ok sc _ g ro e He) as He1. set (e1 := run_enter _ e) in *. destruct (ko_gas _ Hc).
  destruct (c_Code c) as [|b0 code] eqn:Ecode.
  { destruct (run_leave_ok _ _ _ _ _ _ _ _ _ He He1) as [? ?]. split; [apply gobytes_nil|]. split; [lia|]. by eexists g, _. }
  assert (frame_ok (sc_inner sc ro g) m (mkFrame 0 [] NewMemory (c<| c_Input := input |>) e1)) as Hf.
  { constructor; cbn; try done; [destruct Hc; by constructor|by exists g, []]. }
  pose proof (loop_ok run (dmin + 1) gmax free Hrun Hcap (sc_inner sc ro g) m fuel Hx ltac:(cbn; lia) Hm
    _ Hf Hg (Z.le_lt_trans _ _ _ (rounds_mono free _ _ Hg) Hfuel)) as Hloop. unfold wp in Hloop.
  destruct (loop _ _ _) as [[[ret err] f]| | |]; try done. destruct Hloop as ([_ _ Hk (g' & l' & He') _] & Hret & Hgas).
  cbn in Hret, Hgas. destruct (ko_gas _ Hk). destruct (run_leave_ok _ _ _ _ _ _ _ _ _ He He') as [? ?].
  split; [done|]. split; [done|]. by exists g', l'.
Qed.

Lemma precompiled_ok p input c sc m g ro e : contract_ok c → gobytes input → evm_at sc (c_Gas c + m) g [] e →
  wp (RunPrecompiledContract p input c) (run_post sc m g c ro) e.
Proof.
  intros Hc Hi He. unfold RunPrecompiledContract. destruct (precompile_ok p input Hi) as (gas & Eg & Hg & Hrun).
  destruct (ko_gas _ Hc) as [Hc0 Hc1]. unfold in_u64, gas_cap in *. wp_steps. apply wp_rlift. exists gas. split; [exact Eg|].
  assert (vs_moved 0 g g) as Hmv by (by apply vs_moved_same).
  unfold UseGas. destruct (c_Gas c <? gas) eqn:E.
  { wp_steps. split; [apply gobytes_nil|]. split; [lia|]. by exists g, []. }
  wp_steps. apply wp_rlift. destruct Hrun as (r & Er & Hr); [lia|]. exists r. split; [exact Er|].
  set (c' := c<| c_Gas := _ |>). assert (c_Gas c' = c_Gas c - gas) as Ec by (apply u64_small; unfold in_u64; lia).
  assert (∀ d err, gobytes d → run_post sc m g c ro (d, err, c') e) as Hend.
  { intros d err Hd. split; [done|]. rewrite Ec. split; [lia|]. exists g, []. split; [eapply evm_at_less; [exact He|lia]|done]. }
  wp_steps. destruct r; apply Hend; [exact Hr|apply gobytes_nil].
Qed.

(** Every run ends well, given a unit of fuel for every level of calls that is left and
    more fuel than rounds. *)
Lemma run_total depth fuel gmax free : gmax <= gas_cap → rounds free gmax < Z.of_nat fuel →
  run_ok (run depth fuel) (1025 - Z.of_nat depth) gmax free.
Proof.
  intros Hcap Hfuel. induction depth as [|depth IH]; intros sc m g c input ro e Hx Hd Hc Hg Hi Hm He.
  { unfold CallCreateDepth in Hd. lia. }
  cbn [run]. apply wp_bind.
  assert (∀ o, wp (match o with
                   | Some p => RunPrecompiledContract p input c
                   | None => Run fuel (run depth fuel) c input ro
                   end) (run_post sc m g c ro) e) as Hend.
  { intros [p|]; [by apply precompiled_ok|]. refine (Run_ok _ _ _ _ _ _ Hcap Hfuel sc m g c input ro e Hx Hd Hc Hg Hi Hm He).
    by replace (1025 - Z.of_nat (Datatypes.S depth) + 1) with (1025 - Z.of_nat depth) by lia. }
  destruct (c_CodeAddr c); [|wp_steps; apply (Hend None)]. unfold precompiled. wp_steps. apply wp_erule. wp_steps. apply Hend.
Qed.
End calls.
