(* ===== verification/VmStateSafe.v ===== *)
(** * The state database serves the virtual machine (core/state, core/vm)

    The refinement of StateRefine gives the laws that VmLogic asks of a state database:
    the abstract state is what the database stands for, and the snapshots are its copies. *)

From Stdlib Require Import ZArith Lia ZifyBool.
From stdpp Require Import base tactics strings numbers gmap functions list.
From S2P Require Import Prelude Rlp RlpDecode Trie TrieNodes TrieDb TrieHash.
From S2P Require Import StateObject StateDb StateSpec StateTrie StateRefine.
From S2P Require Import VmBase VmMachine VmContracts VmInstr VmRun VmStateDb VmWords VmJumps.
From S2P Require Import VmLogic VmSafeOps VmSafeGas VmSafePre VmSafeRun.

Local Open Scope Z_scope.
Local Open Scope record_scope.

(** ** Abstract states that a run keeps *)

(** Balances are not negative, what the account holds are byte slices, and a code is kept
    with its hash. *)
Record acct_good `{KeccakLib} (aa : aacct) : Prop := {
  ag_balance : 0 <= acc_Balance (a_data aa);
  ag_code : gobytes (default [] (a_code aa));
  ag_hash : gobytes (default [] (acc_CodeHash (a_data aa)));
  ag_hashed : hashed (default [] (acc_CodeHash (a_data aa))) (default [] (a_code aa));
  ag_storage k : gobytes (a_storage aa k)
}.

Record state_good `{KeccakLib} (a : astate) : Prop := {
  sg_acct addr aa : as_acct a addr = Some aa → acct_good aa;
  sg_refund : in_u64 (as_refund a)
}.

Section good.
  Context {KL : KeccakLib} {KLaws : KeccakLaws}.

(** The same but for accounts that appear, empty, and for preimages. *)
Record st_quiet (a a' : astate) : Prop := {
  sq_acct addr : get_or_new a' addr = get_or_new a addr;
  sq_exists addr : is_Some (as_acct a addr) → is_Some (as_acct a' addr);
  sq_refund : as_refund a' = as_refund a;
  sq_logs : as_logs a' = as_logs a
}.

#[global] Instance st_quiet_preorder : PreOrder st_quiet.
Proof.
  split; [by constructor|]. intros a b c [] []. constructor; intros; try congruence; auto.
Qed.

Lemma quiet_set addr aa a : aa = get_or_new a addr → st_quiet a (set_acct addr (Some aa) a).
Proof.
  intros ->. constructor; try done.
  - intros x. rewrite get_or_new_set. by destruct (decide _) as [->|].
  - intros x Hx. destruct (decide (x = addr)) as [->|Hne]; [rewrite set_acct_lookup; eauto|by rewrite set_acct_other].
Qed.

Lemma zeroHash_bytes : gobytes zeroHash.
Proof. split; [apply zeros_bytes|done]. Qed.

Lemma new_acct_good : acct_good new_acct.
Proof. constructor; cbn; [done|apply gobytes_nil|apply keccak_gobytes|by intros []|intros _; apply zeroHash_bytes]. Qed.

Lemma get_or_new_good a addr : state_good a → acct_good (get_or_new a addr).
Proof. intros Ha. unfold get_or_new. destruct (as_acct a addr) eqn:E; [by eapply (sg_acct a Ha)|apply new_acct_good]. Qed.

Lemma with_code_good code aa : gobytes code → acct_good aa → acct_good (StateSpec.with_code (keccak256 code) (Some code) aa).
Proof. intros Hc []. constructor; cbn; try done. apply keccak_gobytes. Qed.

Lemma set_acct_good addr aa a : state_good a → acct_good aa → state_good (set_acct addr (Some aa) a).
Proof.
  intros [Ha Hr] Haa. constructor; [|done]. intros x ax.
  destruct (decide (x = addr)) as [->|Hne]; [rewrite set_acct_lookup; by intros [= <-]|].
  rewrite set_acct_other by done. apply Ha.
Qed.

(** ** The money supply *)

Definition balance (g : astate) (a : bytes) : Z := acc_Balance (a_data (get_or_new g a)).

(** [n] is what all accounts hold together; finitely many hold something. *)
Definition supply (g : astate) (n : Z) : Prop :=
  ∃ L, NoDup L ∧ (∀ a, balance g a ≠ 0 → a ∈ L) ∧ n = sum_over (balance g) L.

(** The second state holds at most [d] more than the first. *)
Definition moved (d : Z) (g g' : astate) : Prop := ∀ n, supply g n → ∃ n', supply g' n' ∧ n' <= n + d.

Lemma supply_unique g n n' : supply g n → supply g n' → n' = n.
Proof.
  intros (L & HL & Hs & ->) (L' & HL' & Hs' & ->).
  rewrite <-(sum_over_nonzero _ L), <-(sum_over_nonzero _ L'). apply sum_over_perm, NoDup_Permutation.
  1,2: by apply NoDup_filter.
  intros a. rewrite !list_elem_of_filter. naive_solver.
Qed.

Lemma balance_set a aa g b : balance (set_acct a (Some aa) g) b = if decide (b = a) then acc_Balance (a_data aa) else balance g b.
Proof. unfold balance. rewrite get_or_new_set. by destruct (decide _). Qed.

(** One account changes. *)
Lemma moved_at a d g g' : (∀ b, b ≠ a → balance g' b = balance g b) → balance g' a <= balance g a + d → moved d g g'.
Proof.
  intros Hb Ha n (L & HL & Hs & ->).
  assert (∃ L', NoDup (a :: L') ∧ (∀ b, balance g b ≠ 0 → b ∈ a :: L') ∧ sum_over (balance g) L = sum_over (balance g) (a :: L'))
    as (L' & [Ha' HL']%NoDup_cons & Hs' & ->).
  { destruct (decide (a ∈ L)) as [Hin|Hin].
    - apply elem_of_Permutation in Hin as (L' & Hp). exists L'. rewrite <-Hp. split; [done|]. split; [|done].
      intros b Hne. rewrite <-Hp. auto.
    - exists L. split; [by constructor|]. split; [set_solver|]. cbn.
      destruct (decide (balance g a = 0)) as [->|Hne]; [lia|by destruct Hin; apply Hs]. }
  exists (sum_over (balance g') (a :: L')). split.
  - exists (a :: L'). split; [by constructor|]. split; [|done]. intros b Hne.
    destruct (decide (b = a)) as [->|Hba]; [set_solver|]. apply Hs'. by rewrite <-Hb.
  - cbn. rewrite (sum_over_ext (balance g) (balance g') L'); [lia|]. intros b Hin. apply Hb. by intros ->.
Qed.

Lemma moved_trans d d' g g1 g2 : moved d g g1 → moved d' g1 g2 → moved (d + d') g g2.
Proof.
  intros H1 H2 n Hn. destruct (H1 n Hn) as (n1 & Hn1 & ?). destruct (H2 n1 Hn1) as (n2 & Hn2 & ?).
  exists n2. split; [done|lia].
Qed.

Lemma moved_less d d' g g' : moved d g g' → d <= d' → moved d' g g'.
Proof. intros H Hd n Hn. destruct (H n Hn) as (n' & ? & ?). exists n'. split; [done|lia]. Qed.

Lemma moved_same g g' : (∀ b, balance g' b = balance g b) → moved 0 g g'.
Proof. intros H. apply (moved_at []); [auto|]. rewrite H. lia. Qed.
End good.

(** ** The laws *)

Section laws.
  Context {DB T : Type} {SD : StateDatabase DB T} {SR : StateReads SD} {KL : KeccakLib} {KLaws : KeccakLaws}.

Local Abbreviation DM := (stM (StateDB DB T)).

(** Every code hash can be looked up without a panic. *)
Definition db_codes (db : DB) : Prop := ∀ h, ∃ c, ContractCode db h = Ret c.

Definition st_ok (s : StateDB DB T) (g : astate) (l : list (Z * astate)) (k : Z) : Prop :=
  ∃ n, related s (mkSpec g l n) ∧ state_good g ∧ Forall state_good l.*2 ∧ k <= 2 ^ 63 - 1 - n ∧ db_codes (s_db s).

#[global] Instance StateDB_safe : VmSafe (StateDB DB T) := {|
  vs_abs := astate;
  vs_ok := st_ok;
  vs_bal := balance;
  vs_exists g a := bool_decide (is_Some (as_acct g a));
  vs_code g a := default [] (a_code (get_or_new g a));
  vs_quiet := st_quiet;
  vs_moved := moved;
  vs_bumped a g g' := ∃ n, g' = upd_acct a (on_data (λ d, d<| acc_Nonce := n |>)) g
|}.

Lemma st_ok_less s g l k k' : st_ok s g l k → k' <= k → st_ok s g l k'.
Proof. intros (n & ? & ? & ? & ? & ?) Hk. exists n. split_and!; try done. lia. Qed.

(** An operation of the specification, seen by the machine. *)
Lemma st_ok_op o s g l k r g' : st_ok s g l k → ok_op o → spec_op o g = Some (Ret (r, g')) → state_good g' →
  ∃ s', exec o s = Ret (r, s') ∧ st_ok s' g' l k.
Proof.
  intros (n & Hr & Hg & Hl & Hk & Hc) Ho Hs Hg'. destruct (related_op o s _ r g' Hr Ho Hs) as (s' & E & Hr' & Hd).
  exists s'. split; [done|]. exists n. split_and!; try done. unfold db_codes in *. by rewrite Hd.
Qed.

Lemma runit_inv (m : DM ()) s s' : runit m s = Ret (RUnit, s') → m s = Ret ((), s').
Proof. unfold runit, mbind, stM_bind. destruct (m s) as [[[] ?]|]; [|done]. by intros [= <-]. Qed.

Lemma rz_inv (m : DM Z) s z s' : rz m s = Ret (RZ z, s') → m s = Ret (z, s').
Proof. unfold rz, mbind, stM_bind. destruct (m s) as [[? ?]|]; [|done]. by intros [= <- <-]. Qed.

Lemma rbool_inv (m : DM bool) s b s' : rbool m s = Ret (RBool b, s') → m s = Ret (b, s').
Proof. unfold rbool, mbind, stM_bind. destruct (m s) as [[? ?]|]; [|done]. by intros [= <- <-]. Qed.

Lemma rbytes_inv (m : DM bytes) s b s' : rbytes m s = Ret (RBytes b, s') → m s = Ret (b, s').
Proof. unfold rbytes, mbind, stM_bind. destruct (m s) as [[? ?]|]; [|done]. by intros [= <- <-]. Qed.

Lemma rcode_inv (m : DM (option bytes)) s b s' : (c ← m; mret (RCode c)) s = Ret (RCode b, s') → m s = Ret (b, s').
Proof. unfold mbind, stM_bind. destruct (m s) as [[? ?]|]; [|done]. by intros [= <- <-]. Qed.

Context (Hkeys : ∀ k, key_ok k).

Lemma ok_op_all o : ok_op o.
Proof using All. apply Forall_forall. auto. Qed.

(** Methods that change the state. *)
Lemma acts_unit (m : DM ()) o (P : astate → Prop) (R : astate → () → astate → Prop) (h : astate → astate) :
  exec o = runit m → (∀ g, spec_op o g = Some (Ret (RUnit, h g))) →
  (∀ g, state_good g → P g → state_good (h g) ∧ R g () (h g)) → acts m P R.
Proof using All.
  intros He Ho Hh s g l k Hs HP. pose proof Hs as (_ & _ & Hg & _). destruct (Hh g Hg HP) as [Hg' HR].
  destruct (st_ok_op o s g l k RUnit (h g) Hs (ok_op_all o) (Ho g) Hg') as (s' & E & Hs').
  rewrite He in E. apply runit_inv in E. by exists (), s', (h g).
Qed.

(** Methods that read. *)
Lemma reads_res {A} (m : DM A) o (q : astate → A) (mk : A → res) :
  (∀ s r s', exec o s = Ret (mk r, s') → m s = Ret (r, s')) → (∀ g, spec_op o g = Some (Ret (mk (q g), g))) →
  ∀ Q : astate → A → Prop, (∀ g, state_good g → Q g (q g)) → reads m Q.
Proof using All.
  intros Hm Ho Q HQ s g l k Hs _. pose proof Hs as (_ & _ & Hg & _).
  destruct (st_ok_op o s g l k _ g Hs (ok_op_all o) (Ho g) Hg) as (s' & E & Hs').
  exists (q g), s', g. split; [by apply Hm|]. split; [done|]. by split; [|apply HQ].
Qed.

Lemma st_ok_same s s' g l k : st_ok s g l k → abs s' g → unmoved s s' → st_ok s' g l k.
Proof using All.
  intros (n & [] & Hg & Hl & Hk & Hc) Ha [(Hd & Hv & Hn) Hj]. exists n.
  split; [|unfold db_codes; rewrite Hd; done]. constructor; cbn in *; rewrite ?Hv, ?Hn, ?Hd, ?Hj; done.
Qed.

(** Reads of an account that no operation of the specification stands for. *)
Lemma reads_object {A} addr (dflt : A) (m : stateObject T → DM A) :
  (∀ o s g, abs s g → db_codes (s_db s) → ∃ r s', m o s = Ret (r, s') ∧ abs s' g ∧ unmoved s s') →
  reads (if_exists addr dflt m) (λ _ _, True).
Proof using All.
  intros Hm s g l k Hs _. pose proof Hs as (n & Hr & _ & _ & _ & Hc).
  destruct (getStateObject_run s g addr (rl_abs _ _ Hr) (Hkeys addr)) as (s1 & oo & E1 & Ha1 & Hu & _).
  pose proof (st_ok_same s s1 g l k Hs Ha1 Hu) as Hs1. unfold if_exists. srun. destruct oo as [o|]; [|by exists dflt, s1, g].
  pose proof Hs1 as (_ & _ & _ & _ & _ & Hc1).
  destruct (Hm o s1 g Ha1 Hc1) as (r & s2 & E2 & Ha2 & Hu2). exists r, s2, g. split; [done|].
  split; [by eapply st_ok_same|done].
Qed.

Lemma safe_Empty addr : reads (StateDb.Empty addr) (λ _ _, True).
Proof using All. apply reads_object. intros o s g Ha _. by exists (empty o), s. Qed.

Lemma safe_GetCodeSize addr : reads (StateDb.GetCodeSize addr) (λ _ _, True).
Proof using All.
  apply reads_object. intros o s g Ha Hc. destruct (so_code o) as [c|]; [by exists (lenZ c), s|].
  srun. destruct (Hc (BytesToHash (CodeHash o))) as [c Ec]. unfold slift. rewrite Ec. srun.
  destruct c as [c|]; [by exists (lenZ c), s|]. unfold setError. srun.
  eexists _, _. split; [done|]. destruct (s_dbErr s); [done|].
  split; [by eapply abs_frame|done].
Qed.

(** The rest follows the specification. *)

Lemma upd_good x f g : state_good g → (∀ aa, acct_good aa → acct_good (f aa)) → state_good (upd_acct x f g).
Proof using All. intros Hg Hf. apply set_acct_good; [done|]. by apply Hf, get_or_new_good. Qed.

Lemma balance_upd x f g b : (∀ aa, acc_Balance (a_data (f aa)) = acc_Balance (a_data aa)) →
  balance (upd_acct x f g) b = balance g b.
Proof. intros Hf. unfold upd_acct. rewrite balance_set. destruct (decide _) as [->|]; [apply Hf|done]. Qed.

Lemma query_read g addr {A} (dflt : A) (f : aacct → A) (mk : A → res) :
  query addr (mk dflt) (λ aa, mk (f aa)) g =
  Some (Ret (mk (match as_acct g addr with Some aa => f aa | None => dflt end), g)).
Proof. unfold query. by destruct (as_acct g addr). Qed.

Lemma safe_CreateAccount a : acts (StateDb.CreateAccount a) (λ _, True)
  (λ g _ g', (∀ b, vs_bal g' b = vs_bal g b) ∧ (vs_exists g a = false → vs_quiet g g')).
Proof using All.
  eapply (acts_unit _ (OCreateAccount a)); [done|done|]. intros g Hg _. split; [|split].
  - apply set_acct_good; [done|]. destruct new_acct_good. constructor; cbn; try done.
    destruct (as_acct g a) as [p|] eqn:E; [apply (ag_balance p (sg_acct g Hg a p E))|done].
  - intros b. cbn -[set_acct]. rewrite balance_set. destruct (decide (b = a)) as [->|]; [|done].
    cbn. unfold balance, get_or_new. by destruct (as_acct g a).
  - cbn. intros Hn%bool_decide_eq_false. destruct (as_acct g a) eqn:E; [destruct Hn; eauto|].
    apply quiet_set. unfold get_or_new. by rewrite E.
Qed.

Lemma on_balance_id aa f : f (acc_Balance (a_data aa)) = acc_Balance (a_data aa) →
  on_data (λ d, d<| acc_Balance ::= f |>) aa = aa.
Proof. intros E. destruct aa as [[] ]. unfold on_data, rec_upd. cbn in *. by rewrite E. Qed.

Lemma safe_AddBalance a v : acts (StateDb.AddBalance a v) (λ _, 0 <= v)
  (λ g _ g', vs_moved v g g' ∧ (∀ b, vs_bal g b <= vs_bal g' b) ∧ (v = 0 → vs_quiet g g')).
Proof using All.
  eapply (acts_unit _ (OAddBalance a v)); [done|done|]. intros g Hg Hv. split; [|split; [|split]].
  - apply upd_good; [done|]. intros aa []. constructor; cbn; [lia|done..].
  - apply (moved_at a); intros; unfold upd_acct; rewrite balance_set.
    + by rewrite decide_False.
    + rewrite decide_True by done. done.
  - intros b. cbn -[upd_acct]. unfold upd_acct. rewrite balance_set. destruct (decide _) as [->|]; [|done].
    unfold balance. cbn. lia.
  - intros ->. apply quiet_set, on_balance_id. lia.
Qed.

Lemma safe_SubBalance a v : acts (StateDb.SubBalance a v) (λ g, 0 <= v <= vs_bal g a)
  (λ g _ g', vs_moved (- v) g g' ∧ (v = 0 → vs_quiet g g')).
Proof using All.
  eapply (acts_unit _ (OSubBalance a v)); [done|done|]. intros g Hg Hv. cbn in Hv. split; [|split].
  - apply set_acct_good; [done|]. pose proof (get_or_new_good g a Hg) as []. constructor; cbn; [unfold balance in Hv; lia|done..].
  - apply (moved_at a); intros; unfold upd_acct; rewrite balance_set.
    + by rewrite decide_False.
    + rewrite decide_True by done. unfold balance. cbn. lia.
  - intros ->. apply quiet_set, on_balance_id. lia.
Qed.

Lemma safe_SetNonce a n : acts (StateDb.SetNonce a n) (λ _, True)
  (λ g _ g', (∀ b, vs_bal g' b = vs_bal g b) ∧ vs_bumped a g g').
Proof using All.
  eapply (acts_unit _ (OSetNonce a n)); [done|done|]. intros g Hg _. split; [|split].
  - apply upd_good; [done|]. by intros aa [].
  - intros b. by apply balance_upd.
  - by exists n.
Qed.

Lemma safe_SetCode a c : acts (StateDb.SetCode a (Some c)) (λ _, gobytes c) same_balances.
Proof using All.
  eapply (acts_unit _ (OSetCode a (Some c))); [done|done|]. intros g Hg Hc. split; [|intros b; by apply balance_upd].
  apply upd_good; [done|]. intros aa. by apply with_code_good.
Qed.

Lemma safe_SetState a k v : acts (StateDb.SetState a k v) (λ _, gobytes v) same_balances.
Proof using All.
  eapply (acts_unit _ (OSetState a k v)); [done|done|]. intros g Hg Hv. split; [|intros b; by apply balance_upd].
  apply upd_good; [done|]. intros aa []. constructor; cbn; try done. intros x.
  destruct (decide (x = k)) as [->|]; [by rewrite fn_lookup_insert|by rewrite fn_lookup_insert_ne].
Qed.

Lemma safe_AddRefund v : acts (StateDb.AddRefund v) (λ _, True) same_balances.
Proof using All.
  eapply (acts_unit _ (OAddRefund v)); [done|done|]. intros g [] _. split; [|done]. constructor; [done|]. apply u64_range.
Qed.

Lemma safe_AddLog log : acts (StateDb.AddLog log) (λ _, True) same_balances.
Proof using All. eapply (acts_unit _ (OAddLog log)); [done|done|]. intros g [] _. split; [by constructor|done]. Qed.

Lemma safe_AddPreimage h p : acts (StateDb.AddPreimage h p) (λ _, True)
  (λ g _ g', (∀ b, vs_bal g' b = vs_bal g b) ∧ vs_quiet g g').
Proof using All.
  eapply (acts_unit _ (OAddPreimage h p)); [done|done|]. intros g Hg _.
  cbv beta. destruct (as_preimages g !! h); [by split|].
  split; [by destruct Hg|]. by split; [|constructor].
Qed.

Lemma safe_Suicide a : acts (StateDb.Suicide a) (λ _, True) (λ g _ g', vs_moved (- vs_bal g a) g g').
Proof using All.
  intros s g l k Hs _. pose proof Hs as (_ & _ & Hg & _).
  destruct (as_acct g a) as [aa|] eqn:E.
  - destruct (st_ok_op (OSuicide a) s g l k (RBool true)
      (set_acct a (Some (on_data (λ d, d<| acc_Balance := 0 |>) aa<| a_suicided := true |>)) g) Hs (ok_op_all _)) as (s' & E' & Hs').
    + cbn. by rewrite E.
    + apply set_acct_good; [done|]. destruct (sg_acct g Hg a aa E). by constructor.
    + exists true, s'. eexists. split; [by apply rbool_inv|]. split; [exact Hs'|]. apply (moved_at a); intros; rewrite balance_set.
      * by rewrite decide_False.
      * rewrite decide_True by done. cbn. lia.
  - destruct (st_ok_op (OSuicide a) s g l k (RBool false) g Hs (ok_op_all _)) as (s' & E' & Hs'); [cbn; by rewrite E|done|].
    exists false, s', g. split; [by apply rbool_inv|]. split; [done|]. apply (moved_at a); [done|].
    assert (balance g a = 0) as H0 by (unfold balance, get_or_new; by rewrite E). cbn. lia.
Qed.

Lemma safe_Snapshot s g l k : st_ok s g l k → 0 < k →
  ∃ id s', StateDb.Snapshot s = Ret (id, s') ∧ st_ok s' g (l ++ [(id, g)]) (k - 1).
Proof using All.
  intros (n & Hr & Hg & Hl & Hk & Hc) Hpos. destruct (related_snapshot s _ Hr) as (s' & E & Hr' & Hd); [cbn; lia|].
  exists n, s'. split; [by apply rz_inv|]. exists (n + 1). split_and!; [done|done| |lia|].
  - rewrite fmap_app. apply Forall_app. split; [done|]. by apply Forall_cons.
  - unfold db_codes in *. by rewrite Hd.
Qed.

Lemma safe_Revert s g l id g0 l' k : st_ok s g (l ++ (id, g0) :: l') k →
  ∃ s', StateDb.RevertToSnapshot id s = Ret ((), s') ∧ st_ok s' g0 l k.
Proof using All.
  intros (n & Hr & Hg & Hl & Hk & Hc).
  assert (Hf : find_snap id (l ++ (id, g0) :: l') = Some (l, g0)).
  { rewrite (find_snap_found _ (length l) id g0); [by rewrite take_app_length|by rewrite list_lookup_middle|].
    intros i x Hi Hx ->. pose proof (snaps_ok_ids _ _ _ _ _ (rl_snaps _ _ Hr)) as Hids. cbn in Hids.
    rewrite <-Hids in Hx. apply list_lookup_fmap_Some in Hx as (r & E & Hx).
    assert (Hm : (rev_id <$> s_validRevisions s) !! length l = Some id).
    { rewrite Hids, fmap_app, lookup_app_r, length_fmap, Nat.sub_diag; [done|rewrite length_fmap; lia]. }
    apply list_lookup_fmap_Some in Hm as (r' & E' & Hm). pose proof (rl_ids _ _ Hr i (length l) r r' Hi Hx Hm). lia. }
  destruct (related_revert s _ id l g0 Hr Hf) as (s' & E & Hr' & Hd). exists s'. split; [by apply runit_inv|].
  rewrite fmap_app, fmap_cons in Hl. apply Forall_app in Hl as [Hl1 Hl2]. apply Forall_cons in Hl2 as [Hg0 _].
  exists n. split_and!; try done. unfold db_codes in *. by rewrite Hd.
Qed.

Lemma reads_query {A} (m : DM A) o addr (dflt : A) (f : aacct → A) (mk : A → res) (Q : astate → A → Prop) :
  (∀ s r s', exec o s = Ret (mk r, s') → m s = Ret (r, s')) → spec_op o = query addr (mk dflt) (λ aa, mk (f aa)) →
  (∀ g, state_good g → Q g (match as_acct g addr with Some aa => f aa | None => dflt end)) → reads m Q.
Proof using All.
  intros Hm Ho HQ. eapply reads_res; [exact Hm| |exact HQ]. intros g. rewrite Ho. apply query_read.
Qed.

#[global] Instance StateDB_laws : VmSafeLaws (StateDB DB T).
Proof using All.
  constructor.
  - apply st_quiet_preorder.
  - apply moved_same.
  - apply moved_trans.
  - apply moved_less.
  - apply st_ok_less.
  - intros a. eapply (reads_query _ (OGetBalance a) a 0 _ RZ); [intros s r s'; apply rz_inv|done|].
    intros g Hg. cbn. unfold balance, get_or_new. destruct (as_acct g a) as [aa|] eqn:E; [|done].
    split; [done|]. apply (sg_acct g Hg a aa E).
  - intros a. eapply (reads_query _ (OExist a) a false _ RBool); [intros s r s'; apply rbool_inv|done|].
    intros g Hg. cbn. by destruct (as_acct g a).
  - intros a. by eapply (reads_query _ (OGetNonce a) a 0 _ RZ); [intros s r s'; apply rz_inv|..].
  - intros a. eapply (reads_query _ (OGetCodeHash a) a zeroHash _ RBytes); [intros s r s'; apply rbytes_inv|done|].
    intros g Hg. cbn. unfold get_or_new. destruct (as_acct g a) as [aa|] eqn:E; cbn.
    + split; apply (sg_acct g Hg a aa E).
    + split; [apply zeroHash_bytes|by intros []].
  - intros a. eapply (reads_query _ (OGetCode a) a None _ RCode); [intros s r s'; apply rcode_inv|done|].
    intros g Hg. cbn. unfold get_or_new. destruct (as_acct g a) as [aa|] eqn:E; [|done].
    split; [apply (sg_acct g Hg a aa E)|done].
  - apply safe_GetCodeSize.
  - intros a k. eapply (reads_query _ (OGetState a k) a zeroHash _ RBytes); [intros s r s'; apply rbytes_inv|done|].
    intros g Hg. destruct (as_acct g a) as [aa|] eqn:E; [apply (sg_acct g Hg a aa E)|apply zeroHash_bytes].
  - intros a. by eapply (reads_query _ (OHasSuicided a) a false _ RBool); [intros s r s'; apply rbool_inv|..].
  - apply safe_Empty.
  - apply safe_CreateAccount.
  - apply safe_SubBalance.
  - apply safe_AddBalance.
  - apply safe_SetNonce.
  - apply safe_SetCode.
  - apply safe_AddRefund.
  - apply safe_SetState.
  - apply safe_Suicide.
  - apply safe_AddLog.
  - apply safe_AddPreimage.
  - apply safe_Snapshot.
  - apply safe_Revert.
Qed.
End laws.
