(* ===== verification/VmTheorems.v ===== *)
(** * What the virtual machine promises over the state database (core/vm, core/state)

    The invariants of VmSafeRun, with the state database of StateDb over secure tries:
    calls end, a call that fails leaves no trace, and a static call changes nothing. *)

From Stdlib Require Import ZArith Lia ZifyBool.
From stdpp Require Import base tactics strings numbers gmap functions list.
From S2P Require Import Prelude Rlp RlpDecode Trie TrieNodes TrieDb TrieHash.
From S2P Require Import StateObject StateDb StateSpec StateTrie StateRefine StateFacts.
From S2P Require Import VmBase VmMachine VmContracts VmInstr VmRun VmStateDb VmWords VmJumps.
From S2P Require Import VmLogic VmSafeOps VmSafeGas VmSafePre VmSafeRun VmStateSafe.

Local Open Scope Z_scope.
Local Open Scope record_scope.

(** The state database of a node. *)
Abbreviation State := (StateDB Database SecureTrie).

Section machine.
  Context {KL : KeccakLib} {KLaws : KeccakLaws} {CL : CryptoLib} {CLaws : CryptoLaws}.

#[global] Instance State_laws : VmSafeLaws State := StateDB_laws (λ _, I).

(** The machine between calls: the state stands for [g], and [k] more snapshots can be
    taken. *)
Definition idle (x : Context) (k : Z) (g : astate) (e : EVM State) : Prop :=
  ∃ l, evm_at (mkScope x 0 false l g) k g [] e.

Lemma idle_again x k g g' l l' e : evm_at (mkScope x 0 false l g) k g' l' e → idle x k g' e.
Proof.
  intros []. exists (l ++ l'). constructor; cbn in *; try done. by rewrite app_nil_r.
Qed.

Lemma idle_state x k g e : idle x k g e → ∃ l, st_ok (e_state e) g l k.
Proof. intros (l & []). cbn in *. rewrite app_nil_r in eo_state. by exists l. Qed.

(** A new machine, with a state that leaves room for the snapshots that [gas] pays for. *)
Record starts (x : Context) (s : State) (g : astate) (gas : Z) : Prop := {
  sr_ctx : ctx_ok x;
  sr_state : st_ok s g [] (gas + 1);
  sr_gas : 0 <= gas <= gas_cap
}.

Lemma starts_idle x s g gas aborts : starts x s g gas → idle x (gas + 1) g (NewEVM x s aborts).
Proof. intros []. exists []. by constructor. Qed.

(** The levels of calls: [CallCreateDepth] and one more. *)
Definition levels : nat := 1025.

(** Fuel for the rounds of a run: more than its gas; where [EXTCODEHASH] exists, which is
    free, more than its gas times the longest code. *)
Definition enough (x : Context) (gas : Z) (fuel : nat) : Prop := rounds (is_rule IsConstantinople x) gas < Z.of_nat fuel.

Lemma enough_less x gas gas' fuel : enough x gas' fuel → gas <= gas' → enough x gas fuel.
Proof. unfold enough. intros H Hg. pose proof (rounds_mono (is_rule IsConstantinople x) gas gas' Hg). lia. Qed.

Lemma run_levels x fuel gas : 0 <= gas <= gas_cap → enough x gas fuel →
  run_ok (S := State) (run levels fuel) 0 gas (is_rule IsConstantinople x).
Proof. intros Hg Hf. exact (run_total levels fuel gas _ (proj2 Hg) Hf). Qed.

Lemma ctx_ok_run x : ctx_ok x → run_ctx (is_rule IsConstantinople x) x.
Proof. by split. Qed.

Lemma unprotected x l g : protected (mkScope (S := State) x 0 false l g) = false.
Proof. apply andb_false_r. Qed.

Lemma Call_idle x g gas caller addr input value fuel e :
  ctx_ok x → idle x (gas + 1) g e → 0 <= gas <= gas_cap → Forall is_byte caller → Forall is_byte addr → gobytes input →
  0 <= value → enough x gas fuel →
  wp (Call (run levels fuel) (AccountRef caller) addr input gas value) (λ r e',
    let '(ret, rest, err) := r in
    gobytes ret ∧ 0 <= rest <= gas ∧ ∃ g', idle x rest g' e' ∧ moved 0 g g' ∧ (err ≠ None → g' = g)) e.
Proof.
  intros Hx%ctx_ok_run (l & He) Hg Hc Ha Hi Hv Hf. rewrite <-(Z.add_0_r (gas + 1)) in He.
  eapply wp_mono; [eapply (Call_ok _ 0 gas _ (run_levels x fuel gas Hg Hf)); try exact He; try done; try apply Hg; cbn; try lia|].
  - by rewrite unprotected.
  - intros [[ret rest] err] e' (? & ? & g' & l' & He' & Hm & Herr & _). split; [done|]. split; [done|]. exists g'.
    rewrite Z.add_0_r in He'. split; [by eapply idle_again|]. by split.
Qed.


Lemma Create_idle x g gas caller code value fuel e :
  ctx_ok x → idle x (gas + 1) g e → 0 <= gas <= gas_cap → Forall is_byte caller → gobytes code →
  0 <= value → enough x gas fuel →
  wp (Create (run levels fuel) (AccountRef caller) code gas value) (λ r e',
    let '(ret, created, rest, err) := r in
    gobytes ret ∧ Forall is_byte created ∧ 0 <= rest <= gas ∧ ∃ g', idle x rest g' e' ∧ moved 0 g g') e.
Proof.
  intros Hx%ctx_ok_run (l & He) Hg Hc Hi Hv Hf. rewrite <-(Z.add_0_r (gas + 1)) in He. unfold Create. wp_steps.
  eapply wp_eread; [apply vl_GetNonce|exact He|]. intros nonce e1 He1 _. wp_steps.
  eapply wp_mono; [eapply (create_ok _ 0 gas _ (run_levels x fuel gas Hg Hf)); try exact He1; try done; try apply Hg; cbn; try lia|].
  - apply CreateAddress_bytes.
  - apply unprotected.
  - intros [[[ret created] rest] err] e' (? & ? & ? & g' & l' & He' & Hm & _). split; [done|]. split; [done|]. split; [done|].
    exists g'. rewrite Z.add_0_r in He'. split; [by eapply idle_again|done].
Qed.
End machine.

(** ** Reading the state after a call *)

Section reading.
  Context {KL : KeccakLib} {KLaws : KeccakLaws}.

Lemma State_ops q : ok_op (SD := cachingDB) q.
Proof. apply Forall_forall. done. Qed.

(** Queries return the same from states that stand for the same. *)
Lemma same_results s s' (g : astate) l l' k k' qs y : st_ok s g l k → st_ok s' g l' k' →
  Forall (λ q, plain q = true) qs → spec_run qs (mkSpec g [] 0) = Some y →
  results (exec_all qs s') = results (exec_all qs s).
Proof.
  intros (n & Hr & _) (n' & Hr' & _) Hp Hy.
  destruct (spec_run_plain qs (mkSpec g [] 0) (mkSpec g l n) y Hp eq_refl Hy) as (y' & Hy' & _).
  eapply plain_results; [exact Hr|exact Hr'|done| |done|exact Hy']. apply Forall_forall. intros q _. apply State_ops.
Qed.




End reading.

(** ** The promises *)

(** C5. Calls end, under the rules of every fork. Of a machine whose state stands for a
    good one, a call and a creation with at most 2^46 gas return: no panic of the
    machine, of a precompiled contract or of the state database, whatever the code, the
    input and the accounts. 1025 levels of calls are enough, and in each one round of
    the interpreter for every unit of gas; where EXTCODEHASH exists, which is free, 2^62
    + 1 rounds for every unit and 2^62 more, as no code is longer than 2^62. What they
    return are bytes and no more gas than they were given. The only other outcome is a
    pair of codes with the same Keccak hash. *)
Theorem calls_end `{KLaws : KeccakLaws} `{CLaws : CryptoLaws} x (s : State) g gas aborts caller addr input value fuel :
  starts x s g gas → Forall is_byte caller → Forall is_byte addr → gobytes input → 0 <= value → enough x gas fuel →
  match Call (run levels fuel) (AccountRef caller) addr input gas value (NewEVM x s aborts) with
  | Done ((ret, rest, _), _) => gobytes ret ∧ 0 <= rest <= gas
  | Collision => code_collision
  | _ => False
  end ∧
  match Create (run levels fuel) (AccountRef caller) input gas value (NewEVM x s aborts) with
  | Done ((ret, created, rest, _), _) => gobytes ret ∧ Forall is_byte created ∧ 0 <= rest <= gas
  | Collision => code_collision
  | _ => False
  end.
Proof.
  intros Hs Hc Ha Hi Hv Hf. pose proof (starts_idle x s g gas aborts Hs) as He. destruct Hs as [Hx _ Hg]. split.
  - pose proof (Call_idle x g gas caller addr input value fuel _ Hx He Hg Hc Ha Hi Hv Hf) as Hw. unfold wp in Hw.
    destruct (Call _ _ _ _ _ _ _) as [[[[ret rest] err] e]| | |]; try done. by destruct Hw as (? & ? & _).
  - pose proof (Create_idle x g gas caller input value fuel _ Hx He Hg Hc Hi Hv Hf) as Hw. unfold wp in Hw.
    destruct (Create _ _ _ _ _ _) as [[[[[ret created] rest] err] e]| | |]; try done. by destruct Hw as (? & ? & ? & _).
Qed.

(** C10. A failed call leaves the accounts as they were. When a call returns an error,
    every sequence of the plain methods of the state (the reads and writes of accounts,
    storage, stakes, logs, preimages and refunds, on which the specification is defined)
    returns what it would have returned before the call, also when contracts that it
    called had succeeded. Not claimed is the same of Empty, Finalise and Commit, which
    can still tell. *)
Theorem failed_call_leaves_no_trace `{KLaws : KeccakLaws} `{CLaws : CryptoLaws}
    x (s : State) g gas aborts caller addr input value fuel ret rest err e qs y :
  starts x s g gas → Forall is_byte caller → Forall is_byte addr → gobytes input → 0 <= value → enough x gas fuel →
  Call (run levels fuel) (AccountRef caller) addr input gas value (NewEVM x s aborts) = Done ((ret, rest, Some err), e) →
  Forall (λ q, plain q = true) qs → spec_run qs (mkSpec g [] 0) = Some y →
  results (exec_all qs (e_state e)) = results (exec_all qs s).
Proof.
  intros Hs Hc Ha Hi Hv Hf E Hp Hy. pose proof (starts_idle x s g gas aborts Hs) as He. destruct Hs as [Hx Hst Hg].
  pose proof (Call_idle x g gas caller addr input value fuel _ Hx He Hg Hc Ha Hi Hv Hf) as Hw. unfold wp in Hw. rewrite E in Hw.
  destruct Hw as (_ & _ & g' & He' & _ & Herr). rewrite (Herr ltac:(done)) in He'.
  destruct (idle_state _ _ _ _ He') as (l & Hst'). by eapply same_results.
Qed.


(** ** A small chain *)

#[local] Existing Instance toy_keccak.
#[local] Existing Instance toy_crypto.
#[local] Existing Instance toy_keccak_laws.

#[global] Instance toy_crypto_laws : CryptoLaws.
Proof.
  constructor; intros.
  - apply (keccak_gobytes (1 :: b)).
  - split; [apply Forall_take, (keccak_bytes (2 :: b))|].
    unfold lenZ, ripemd160_Sum, toy_crypto. rewrite length_take. change (2 ^ 62) with 4611686018427387904. lia.
  - done.
  - apply (keccak_gobytes (4 :: x ++ y)).
  - apply (keccak_gobytes (5 :: x)).
  - apply (keccak_bytes (3 :: b)).
Qed.

Lemma toy_ctx_ok : ctx_ok toy_ctx.
Proof.
  constructor; intros; [apply zeros_bytes| | |done]; by apply Forall_replicate.
Qed.

Lemma fresh_codes : db_codes (s_db fresh).
Proof.
  intros h. change (∃ c, db_Node (NewDatabase ∅) h = Ret c). unfold db_Node, NewDatabase. cbn [dirties diskdb].
  case_bool_decide; [eauto|]. rewrite lookup_singleton_ne by done. eauto.
Qed.

Definition empty_state : astate := mkAstate demo_base demo_acct 0 zeroHash zeroHash 0 ∅ 0 ∅ (toy_pre fresh) new_sets.

Lemma fresh_ok : st_ok fresh empty_state [] (2 ^ 62).
Proof.
  exists 0. destruct toy_den as ([r c] & Ht & E1 & E2). cbn in E1, E2. subst r c. split_and!.
  - by eapply (New_related zeroHash (NewDatabase ∅) fresh demo_base demo_acct).
  - by constructor.
  - constructor.
  - lia.
  - apply fresh_codes.
Qed.

(** An account with code, and one with money. *)
Definition after (o : op) (s : State) : State := match exec o s with Ret (_, s') => s' | Panic _ => s end.

Definition toy_state (code : bytes) : State := after (OAddBalance user1 1000000) (after (OSetCode acc1 (Some code)) fresh).

Definition toy_abs (code : bytes) : astate :=
  upd_acct user1 (on_data (λ d, d<| acc_Balance ::= λ b, b + 1000000 |>))
    (upd_acct acc1 (StateSpec.with_code (keccak256 code) (Some code)) empty_state).

Lemma toy_ok code : gobytes code → st_ok (toy_state code) (toy_abs code) [] (2 ^ 62).
Proof.
  intros Hc. unfold toy_state, after.
  destruct (st_ok_op (OSetCode acc1 (Some code)) fresh empty_state [] (2 ^ 62) RUnit
    (upd_acct acc1 (StateSpec.with_code (keccak256 code) (Some code)) empty_state) fresh_ok (State_ops _) eq_refl) as (s1 & E1 & Hs1).
  { apply set_acct_good; [by constructor|]. apply with_code_good; [done|]. apply new_acct_good. }
  destruct (st_ok_op (OAddBalance user1 1000000) s1 _ [] (2 ^ 62) RUnit (toy_abs code) Hs1 (State_ops _) eq_refl) as (s2 & E2 & Hs2).
  { destruct Hs1 as (_ & _ & Hg & _). apply upd_good; [by intros ?|done|]. intros aa []. constructor; cbn; [lia|done..]. }
  rewrite E1, E2. exact Hs2.
Qed.

Lemma toy_starts code gas : gobytes code → 0 <= gas <= gas_cap → starts toy_ctx (toy_state code) (toy_abs code) gas.
Proof.
  intros Hc Hg. constructor; [apply toy_ctx_ok| |done]. eapply st_ok_less; [by apply toy_ok|].
  unfold gas_cap in Hg. lia.
Qed.

(** Writes to storage, and then an invalid instruction. *)
Definition bad_code : bytes := [96; 1; 96; 0; 85; 254].

(** Returns what is stored at zero. *)
Definition read_code : bytes := [96; 0; 84; 96; 0; 82; 96; 32; 96; 0; 243].

Definition toy_call (code : bytes) (gas : Z) := 
  Call (run levels (Z.to_nat (gas + 1))) (AccountRef user1) acc1 [] gas 7 (NewEVM toy_ctx (toy_state code) []).

Definition call_result {A} (r : vres (bytes * Z * option vmErr * A)) : option (Z * Z * option vmErr) :=
  match r with Done ((ret, gas, err), _) => Some (be_val ret, gas, err) | _ => None end.

Ltac bytes_tac := repeat first [apply Forall_nil_2|apply Forall_cons_2; [unfold is_byte; lia|]].

Lemma codes_ok : gobytes add_code ∧ gobytes bad_code ∧ gobytes read_code.
Proof. split_and!; (split; [bytes_tac|done]). Qed.

Lemma toy_addresses : Forall is_byte user1 ∧ Forall is_byte acc1.
Proof. by split; apply Forall_replicate. Qed.

Lemma toy_enough gas : 0 <= gas → enough toy_ctx gas (Z.to_nat (gas + 1)).
Proof. intros Hg. unfold enough, rounds, progress. change (is_rule IsConstantinople toy_ctx) with false. cbv iota. lia. Qed.

Lemma calls_end_witness :
  starts toy_ctx (toy_state add_code) (toy_abs add_code) 1000 ∧ call_result (toy_call add_code 1000) = Some (5, 976, None) ∧
  match toy_call add_code 1000 with
  | Done ((ret, rest, _), _) => gobytes ret ∧ 0 <= rest <= 1000
  | Collision => code_collision
  | _ => False
  end.
Proof.
  assert (starts toy_ctx (toy_state add_code) (toy_abs add_code) 1000) as Hs
    by (apply toy_starts; [apply codes_ok|unfold gas_cap; lia]).
  split; [exact Hs|]. split; [vm_compute; reflexivity|].
  pose proof (calls_end toy_ctx (toy_state add_code) (toy_abs add_code) 1000 [] user1 acc1 [] 7 (Z.to_nat (1000 + 1))
    Hs (proj1 toy_addresses) (proj2 toy_addresses) gobytes_nil) as Hw.
  destruct Hw as [Hw _]; [lia|by apply toy_enough|exact Hw].
Defined.

Definition toy_queries : list op := [OGetState acc1 zeroHash; OGetBalance user1; OGetBalance acc1; OExist acc1].

Lemma failed_call_leaves_no_trace_witness : ∃ e rest,
  call_result (toy_call bad_code 50000) = Some (0, rest, Some (errInvalidOpcode 254)) ∧
  results (exec_all toy_queries e) = results (exec_all toy_queries (toy_state bad_code)) ∧
  results (exec_all toy_queries e) = Ret [RBytes zeroHash; RZ 1000000; RZ 0; RBool true].
Proof.
  destruct (toy_call bad_code 50000) as [[[[ret rest] err] e]| | |] eqn:E;
    assert (call_result (toy_call bad_code 50000) = Some (0, 0, Some (errInvalidOpcode 254))) as Hr by (vm_compute; reflexivity);
    rewrite E in Hr; try discriminate Hr.
  exists (e_state e), 0. split; [exact Hr|]. injection Hr as _ _ ->.
  pose proof (failed_call_leaves_no_trace toy_ctx (toy_state bad_code) (toy_abs bad_code) 50000 [] user1 acc1 [] 7
    (Z.to_nat (50000 + 1)) ret rest (errInvalidOpcode 254) e toy_queries
    (default (Panic EmptyString) (spec_run toy_queries (mkSpec (toy_abs bad_code) [] 0)))) as Hw.
  assert (results (exec_all toy_queries (e_state e)) = results (exec_all toy_queries (toy_state bad_code))) as Hq.
  { apply Hw; [apply toy_starts; [apply codes_ok|unfold gas_cap; lia]|apply toy_addresses|apply toy_addresses|apply gobytes_nil|lia|by apply toy_enough|
      exact E|repeat constructor|reflexivity]. }
  split; [exact Hq|]. rewrite Hq. vm_compute. reflexivity.
Defined.

