(* ===== verification/StateTransition.v ===== *)
(** * Messages applied to the state (core/state_transition.go, state_transition1.go,
      gaspool.go)

    A message pays for its gas, runs in the machine and gets back what it did not use.
    [TransitionDb] credits the fees to the coinbase; [TransitionDbEx] reports them, for the
    consensus engine to distribute.  The theorems are over the state database of StateDb:
    a message that fails in the machine moves the fee and the nonce and nothing else, and
    no message makes money. *)

From Stdlib Require Import ZArith Lia ZifyBool.
From stdpp Require Import base tactics strings numbers gmap functions list.
From S2P Require Import Prelude Rlp RlpDecode Trie TrieNodes TrieDb TrieHash.
From S2P Require Import StateObject StateDb StateSpec StateTrie StateRefine StateFacts.
From S2P Require Import VmBase VmMachine VmContracts VmInstr VmRun VmStateDb VmWords VmJumps.
From S2P Require Import VmLogic VmSafeOps VmSafeGas VmSafePre VmSafeRun VmStateSafe VmTheorems.

Local Open Scope Z_scope.
Local Open Scope record_scope.

(** ** The gas pool *)

Definition MaxUint64 : Z := 2 ^ 64 - 1.

Definition gp_AddGas (gp amount : Z) : outcome Z :=
  if MaxUint64 - amount <? gp then Panic "gas pool pushed above uint64" else Ret (u64 (gp + amount)).

(** [None]: [ErrGasLimitReached] *)
Definition gp_SubGas (gp amount : Z) : option Z := if gp <? amount then None else Some (u64 (gp - amount)).

(** ** Messages *)

Record Message := mkMessage {
  msg_From : bytes;
  msg_To : option bytes;
  msg_GasPrice : Z;
  msg_Gas : Z;
  msg_Value : Z;
  msg_Nonce : Z;
  msg_CheckNonce : bool;
  msg_Data : bytes
}.

Inductive coreErr :=
| errInsufficientBalanceForGas
| ErrGasLimitReached
| ErrNonceTooHigh
| ErrNonceTooLow
| coreVm (e : vmErr).

Definition TxGas : Z := 21000.
Definition TxGasContractCreation : Z := 53000.
Definition TxDataZeroGas : Z := 4.
Definition TxDataNonZeroGasFrontier : Z := 68.

(** [for _, byt := range data { if byt != 0 { nz++ } }] *)
Definition count_nonzero (data : bytes) : Z := foldl (λ nz byt, if byt =? 0 then nz else u64 (nz + 1)) 0 data.

Definition IntrinsicGas (data : bytes) (contractCreation homestead : bool) : Z + vmErr :=
  let gas := if contractCreation && homestead then TxGasContractCreation else TxGas in
  if 0 <? lenZ data then
    let nz := count_nonzero data in
    if (MaxUint64 - gas) / TxDataNonZeroGasFrontier <? nz then inr ErrOutOfGas
    else
      let gas := u64 (gas + u64 (nz * TxDataNonZeroGasFrontier)) in
      let z := u64 (lenZ data - nz) in
      if (MaxUint64 - gas) / TxDataZeroGas <? z then inr ErrOutOfGas
      else inl (u64 (gas + u64 (z * TxDataZeroGas)))
  else inl gas.

(** ** State transitions *)

(** [state] is the state database of the machine; the message does not change. *)
Record StateTransition (S : Type) := mkTransition {
  st_gp : Z;
  st_gas : Z;
  st_initialGas : Z;
  st_evm : EVM S
}.
Arguments mkTransition {S}.
Arguments st_gp {S}.
Arguments st_gas {S}.
Arguments st_initialGas {S}.
Arguments st_evm {S}.

#[global] Instance StateTransition_set {S} : Settable (StateTransition S) := {| rec_eta := λ t,
  mkTransition (st_gp t) (st_gas t) (st_initialGas t) (st_evm t) |}.

Section transition.
  Context {S : Type} {VS : VmState S} {KL : KeccakLib} {CL : CryptoLib}.
  Context (run : run_type S) (msg : Message).

Local Abbreviation TM := (rM (StateTransition S)).

Definition NewStateTransition (evm : EVM S) (gp : Z) : StateTransition S := mkTransition gp 0 0 evm.

(** A method of the machine, or of its state. *)
Definition tevm {A} (m : rM (EVM S) A) : TM A := λ t,
  match m (st_evm t) with
  | Done (a, e) => Done (a, t<| st_evm := e |>)
  | Crash w => Crash w
  | Fuel => Fuel
  | Collision => Collision
  end.

Definition tstate {A} (m : stM S A) : TM A := tevm (estate_op m).

(** [if !st.state.Exist(a) { st.state.CreateAccount(a) }] *)
Definition ensure (a : bytes) : TM () :=
  ex ← tstate (v_Exist a);
  if ex : bool then mret () else tstate (v_CreateAccount a).

Definition from : TM bytes := ensure (msg_From msg);; mret (msg_From msg).

Definition to : TM bytes :=
  match msg_To msg with
  | None => mret (replicate 32 0)
  | Some to => ensure to;; mret to
  end.

Definition useGas (amount : Z) : TM (option vmErr) :=
  t ← rget;
  if st_gas t <? amount then mret (Some ErrOutOfGas)
  else rmod (λ t, t<| st_gas := u64 (st_gas t - amount) |>);; mret None.

Definition buyGas : TM (option coreErr) :=
  sender ← from;
  let mgval := msg_Gas msg * msg_GasPrice msg in
  balance ← tstate (v_GetBalance sender);
  if balance <? mgval then mret (Some errInsufficientBalanceForGas)
  else
    t ← rget;
    match gp_SubGas (st_gp t) (msg_Gas msg) with
    | None => mret (Some ErrGasLimitReached)
    | Some gp =>
        rmod (λ t, t<| st_gp := gp |><| st_gas := u64 (st_gas t + msg_Gas msg) |><| st_initialGas := msg_Gas msg |>);;
        tstate (v_SubBalance sender mgval);;
        mret None
    end.

Definition preCheck : TM (option coreErr) :=
  sender ← from;
  if msg_CheckNonce msg then
    nonce ← tstate (v_GetNonce sender);
    if nonce <? msg_Nonce msg then mret (Some ErrNonceTooHigh)
    else if msg_Nonce msg <? nonce then mret (Some ErrNonceTooLow)
    else buyGas
  else buyGas.

Definition gasUsed (t : StateTransition S) : Z := u64 (st_initialGas t - st_gas t).

Definition refundGas : TM () :=
  t ← rget;
  let refund := gasUsed t / 2 in
  counter ← tstate v_GetRefund;
  rmod (λ t, t<| st_gas := u64 (st_gas t + Z.min refund counter) |>);;
  sender ← from;
  t ← rget;
  tstate (v_AddBalance sender (st_gas t * msg_GasPrice msg));;
  gp ← rlift (gp_AddGas (st_gp t) (st_gas t));
  rmod (λ t, t<| st_gp := gp |>).

(** The part of [TransitionDb] and [TransitionDbEx] up to the refund: the data, and the
    error of the machine; or the error of the message. *)
Definition execute : TM (bytes * option vmErr + coreErr) :=
  err ← preCheck;
  match err with
  | Some err => mret (inr err)
  | None =>
      sender ← from;
      homestead ← tevm (erule IsHomestead);
      match IntrinsicGas (msg_Data msg) (bool_decide (msg_To msg = None)) homestead with
      | inr err => mret (inr (coreVm err))
      | inl gas =>
          err ← useGas gas;
          match err with
          | Some err => mret (inr (coreVm err))
          | None =>
              t ← rget;
              r ← (match msg_To msg with
                   | None =>
                       r ← tevm (Create run (AccountRef sender) (msg_Data msg) (st_gas t) (msg_Value msg));
                       let '(ret, _, gas, vmerr) := r in
                       mret (ret, gas, vmerr)
                   | Some _ =>
                       nonce ← tstate (v_GetNonce sender);
                       tstate (v_SetNonce sender (u64 (nonce + 1)));;
                       to ← to;
                       tevm (Call run (AccountRef sender) to (msg_Data msg) (st_gas t) (msg_Value msg))
                   end);
              let '(ret, gas, vmerr) := r in
              rmod (λ t, t<| st_gas := gas |>);;
              if bool_decide (vmerr = Some ErrInsufficientBalance) then mret (inr (coreVm ErrInsufficientBalance))
              else mret (inl (ret, vmerr))
          end
      end
  end.

(** The data, the gas used, whether the machine failed; or an error. *)
Definition TransitionDb : TM (bytes * Z * bool + coreErr) :=
  r ← execute;
  match r with
  | inr err => mret (inr err)
  | inl (ret, vmerr) =>
      refundGas;;
      t ← rget;
      tstate (v_AddBalance (x_Coinbase (e_ctx (st_evm t))) (gasUsed t * msg_GasPrice msg));;
      t ← rget;
      mret (inl (ret, gasUsed t, bool_decide (vmerr ≠ None)))
  end.

(** The money used is returned too, and nobody gets it yet. *)
Definition TransitionDbEx : TM (bytes * Z * Z * bool + coreErr) :=
  r ← execute;
  match r with
  | inr err => mret (inr err)
  | inl (ret, vmerr) =>
      refundGas;;
      t ← rget;
      mret (inl (ret, gasUsed t, gasUsed t * msg_GasPrice msg, bool_decide (vmerr ≠ None)))
  end.

Definition ApplyMessage (evm : EVM S) (gp : Z) : vres ((bytes * Z * bool + coreErr) * StateTransition S) :=
  TransitionDb (NewStateTransition evm gp).

Definition ApplyMessageEx (evm : EVM S) (gp : Z) : vres ((bytes * Z * Z * bool + coreErr) * StateTransition S) :=
  TransitionDbEx (NewStateTransition evm gp).
End transition.

(** ** Facts *)

Lemma gp_SubGas_Some gp amount gp' : in_u64 gp → 0 <= amount → gp_SubGas gp amount = Some gp' → gp' = gp - amount ∧ 0 <= gp'.
Proof.
  unfold gp_SubGas, in_u64. destruct (_ <? _) eqn:E; [done|]. intros Hg Ha [= <-]. rewrite u64_small by (unfold in_u64; lia). lia.
Qed.

Lemma gp_AddGas_Ret gp amount : 0 <= gp → 0 <= amount → gp + amount < 2 ^ 64 → gp_AddGas gp amount = Ret (gp + amount).
Proof.
  intros. unfold gp_AddGas, MaxUint64. destruct (_ <? _) eqn:E; [lia|]. by rewrite u64_small by (unfold in_u64; lia).
Qed.

Lemma foldl_count data : ∀ n, 0 <= n → n + lenZ data < 2 ^ 64 →
  foldl (λ nz byt, if byt =? 0 then nz else u64 (nz + 1)) n data = n + lenZ (filter (λ b : Z, b ≠ 0) data).
Proof.
  unfold lenZ. induction data as [|b data IH]; intros n Hn Hl; cbn [foldl length] in *; [cbn; lia|].
  rewrite filter_cons. destruct (Z.eqb_spec b 0).
  - rewrite IH, decide_False by (tauto || lia). done.
  - rewrite u64_small, IH, decide_True by (done || unfold in_u64; lia). cbn. lia.
Qed.

(** The price of the data of a message, without wrap-around. *)
Definition data_gas (data : bytes) : Z :=
  68 * lenZ (filter (λ b : Z, b ≠ 0) data) + 4 * lenZ (filter (λ b : Z, b = 0) data).

Lemma filter_split data : lenZ (filter (λ b : Z, b = 0) data) = lenZ data - lenZ (filter (λ b : Z, b ≠ 0) data).
Proof.
  unfold lenZ. induction data as [|b data IH]; [done|]. rewrite !filter_cons.
  destruct (decide (b = 0)); [rewrite decide_False by tauto|rewrite decide_True by done]; cbn [length]; lia.
Qed.

Lemma IntrinsicGas_run data creation homestead : lenZ data <= 2 ^ 62 →
  let gas := (if creation && homestead then 53000 else 21000) + data_gas data in
  IntrinsicGas data creation homestead = if gas <? 2 ^ 64 then inl gas else inr ErrOutOfGas.
Proof.
  intros Hl. unfold data_gas. rewrite filter_split. set (nz := lenZ (filter (λ b : Z, b ≠ 0) data)).
  assert (0 <= nz <= lenZ data) as Hnz by (unfold nz, lenZ; pose proof (length_filter (λ b : Z, b ≠ 0) data); lia).
  set (g1 := if creation && homestead then 53000 else 21000). assert (21000 <= g1 <= 53000) as Hg by (unfold g1; destruct (_ && _); lia).
  set (gas := g1 + _). unfold IntrinsicGas. change (if creation && homestead then TxGasContractCreation else TxGas) with g1.
  clearbody g1. destruct (0 <? lenZ data) eqn:E.
  2: { assert (gas = g1) as Eg by (unfold gas; lia). rewrite Eg. destruct (Z.ltb_spec g1 (2 ^ 64)); [done|lia]. }
  unfold count_nonzero. rewrite foldl_count by lia. fold nz. rewrite Z.add_0_l.
  unfold MaxUint64, TxDataNonZeroGasFrontier, TxDataZeroGas. destruct (_ <? nz) eqn:E1.
  { destruct (gas <? _) eqn:E2; [unfold gas in *; dlia|done]. }
  assert (g1 + nz * 68 < 2 ^ 64) by dlia.
  rewrite (u64_small (nz * 68)), (u64_small (g1 + _)), (u64_small (lenZ data - nz)) by (unfold in_u64; lia).
  destruct (_ <? lenZ data - nz) eqn:E2.
  { destruct (gas <? _) eqn:E3; [unfold gas in *; dlia|done]. }
  assert (g1 + nz * 68 + (lenZ data - nz) * 4 < 2 ^ 64) by dlia.
  rewrite (u64_small (_ * 4)), u64_small by (unfold in_u64; lia). destruct (gas <? _) eqn:E3; [f_equal; unfold gas|unfold gas in *]; lia.
Qed.

(** ** Runs of a transition *)

Section runs.
  Context {KL : KeccakLib} {KLaws : KeccakLaws} {CL : CryptoLib} {CLaws : CryptoLaws}.
  Implicit Types (e : EVM State) (g : astate).

Lemma wp_tevm {A} (m : rM (EVM State) A) gp gas ig e (Q : A → StateTransition State → Prop) :
  wp m (λ a e', Q a (mkTransition gp gas ig e')) e → wp (tevm m) Q (mkTransition gp gas ig e).
Proof. unfold wp, tevm. cbn. by destruct (m e) as [[a e']| | |]. Qed.

Lemma idle_good x k g e : idle x k g e → state_good g.
Proof. intros (l & (n & _ & Hg & _))%idle_state. exact Hg. Qed.

Lemma idle_unit (m : stM State ()) o x k g h e (Q : () → EVM State → Prop) :
  exec o = runit m → spec_op o g = Some (Ret (RUnit, h)) → state_good h → idle x k g e →
  (∀ e', idle x k h e' → Q () e') → wp (estate_op m) Q e.
Proof.
  intros Ho Hs Hh (l & He) HQ. destruct (st_ok_op o _ _ _ _ _ _ (eo_state _ _ _ _ _ He) (State_ops o) Hs Hh) as (s' & E & Hs').
  rewrite Ho in E. apply runit_inv in E. unfold wp, estate_op. rewrite E. apply HQ. exists l.
  destruct He. by constructor.
Qed.

Lemma idle_read {A} (m : stM State A) R x k g e (Q : A → EVM State → Prop) :
  reads m R → idle x k g e → (∀ a e', idle x k g e' → R g a → Q a e') → wp (estate_op m) Q e.
Proof. intros Hm (l & He) HQ. eapply wp_eread; [exact Hm|exact He|]. intros a e' He' HR. apply HQ; [by exists l|done]. Qed.

Lemma idle_refund x k g e (Q : Z → EVM State → Prop) :
  idle x k g e → (∀ e', idle x k g e' → Q (as_refund g) e') → wp (estate_op v_GetRefund) Q e.
Proof.
  intros (l & He) HQ. destruct (st_ok_op OGetRefund _ _ _ _ _ _ (eo_state _ _ _ _ _ He) (State_ops _) eq_refl (idle_good _ _ _ _ (ex_intro _ l He)))
    as (s' & E & Hs').
  apply rz_inv in E. unfold wp, estate_op. cbn [v_GetRefund StateDB_vm]. rewrite E. apply HQ. exists l. destruct He. by constructor.
Qed.

(** The account exists from now on. *)
Definition touch (a : bytes) (g : astate) : astate := set_acct a (Some (get_or_new g a)) g.

Lemma touch_good a g : state_good g → state_good (touch a g).
Proof. intros Hg. apply set_acct_good; [done|]. by apply get_or_new_good. Qed.

Lemma wp_ensure a x k g gp gas ig e (Q : () → StateTransition State → Prop) : idle x k g e →
  (∀ e', idle x k (touch a g) e' → Q () (mkTransition gp gas ig e')) →
  wp (ensure a) Q (mkTransition gp gas ig e).
Proof.
  intros He HQ. unfold ensure. apply wp_bind, wp_tevm. eapply idle_read; [apply vl_Exist|exact He|]. intros ex e1 He1 ->. cbn.
  case_bool_decide as Hex.
  - apply HQ. unfold touch, get_or_new. destruct (as_acct g a) as [aa|] eqn:E; [|by destruct Hex].
    cbn. by rewrite (set_acct_id a (Some aa) g E).
  - apply wp_tevm. assert (as_acct g a = None) as E by (by apply eq_None_not_Some).
    eapply (idle_unit _ (OCreateAccount a)); [done|cbn [spec_op]; rewrite E; reflexivity| |exact He1|].
    + apply set_acct_good; [by eapply idle_good|]. apply new_acct_good.
    + intros e' He'. apply HQ. unfold touch, get_or_new. rewrite E. exact He'.
Qed.

Context (msg : Message).

(** What a message must be for the theorems: bytes, amounts that are not negative, and a
    limit of gas that the machine can run. *)
Record msg_ok : Prop := {
  mk_from : Forall is_byte (msg_From msg);
  mk_to to : msg_To msg = Some to → Forall is_byte to;
  mk_data : gobytes (msg_Data msg);
  mk_price : 0 <= msg_GasPrice msg;
  mk_value : 0 <= msg_Value msg;
  mk_gas : 0 <= msg_Gas msg <= gas_cap
}.

(** The state when the message has paid for its gas. *)
Definition after_buy (g : astate) : astate :=
  upd_acct (msg_From msg) (on_data (λ d, d<| acc_Balance ::= λ b, b - msg_Gas msg * msg_GasPrice msg |>)) (touch (msg_From msg) g).

Lemma wp_from x k g gp gas ig e (Q : bytes → StateTransition State → Prop) : idle x k g e →
  (∀ e', idle x k (touch (msg_From msg) g) e' → Q (msg_From msg) (mkTransition gp gas ig e')) →
  wp (from msg) Q (mkTransition gp gas ig e).
Proof. intros He HQ. unfold from. wp_steps. eapply wp_ensure; [exact He|]. intros e' He'. wp_steps. by apply HQ. Qed.

Lemma touch_twice a g : touch a (touch a g) = touch a g.
Proof. unfold touch. rewrite set_acct_twice. unfold get_or_new at 1. by rewrite set_acct_lookup. Qed.

Lemma get_or_new_touch a g b : get_or_new (touch a g) b = get_or_new g b.
Proof. unfold touch. rewrite get_or_new_set. by destruct (decide _) as [->|]. Qed.

Lemma balance_touch a g b : balance (touch a g) b = balance g b.
Proof. unfold balance. by rewrite get_or_new_touch. Qed.

Lemma after_buy_moved g : moved (- (msg_Gas msg * msg_GasPrice msg)) g (after_buy g).
Proof.
  apply (moved_at (msg_From msg)); unfold after_buy, upd_acct; intros; rewrite balance_set.
  - by rewrite decide_False, balance_touch.
  - rewrite decide_True, get_or_new_touch by done. unfold balance. cbn. lia.
Qed.

Lemma buyGas_ok x k g gp e : msg_ok → in_u64 gp → idle x k g e →
  wp (buyGas msg) (λ r t', match r with
    | Some _ => True
    | None => ∃ e', idle x k (after_buy g) e' ∧ msg_Gas msg <= gp ∧
        msg_Gas msg * msg_GasPrice msg <= balance g (msg_From msg) ∧
        t' = mkTransition (gp - msg_Gas msg) (msg_Gas msg) (msg_Gas msg) e'
    end) (mkTransition gp 0 0 e).
Proof.
  intros Hmsg Hgp He. unfold buyGas. wp_steps. eapply wp_from; [exact He|]. intros e1 He1. wp_steps.
  apply wp_tevm. eapply idle_read; [apply vl_GetBalance|exact He1|]. intros b e2 He2 [-> Hb].
  destruct (_ <? _) eqn:Eb; [by wp_steps|]. wp_steps. cbn. cbn in Eb, Hb. rewrite balance_touch in Eb, Hb.
  destruct Hmsg. unfold gas_cap in *.
  destruct (gp_SubGas gp (msg_Gas msg)) as [gp'|] eqn:Eg; [|by wp_steps].
  destruct (gp_SubGas_Some _ _ _ Hgp (proj1 mk_gas0) Eg) as [-> ?]. wp_steps. cbn. rewrite u64_small by (unfold in_u64; lia).
  apply wp_tevm. eapply (idle_unit _ (OSubBalance _ _)); [done|done| |exact He2|].
  - pose proof (idle_good _ _ _ _ He2) as Hg2. apply set_acct_good; [done|].
    rewrite get_or_new_touch. pose proof (get_or_new_good _ (msg_From msg) (idle_good _ _ _ _ He)) as [].
    constructor; cbn; try done. unfold balance in Eb. lia.
  - intros e3 He3. wp_steps. exists e3. split; [exact He3|]. split; [lia|]. split; [lia|done].
Qed.

Definition nonce (g : astate) (a : bytes) : Z := acc_Nonce (a_data (get_or_new g a)).

Lemma GetNonce_reads a : reads (S := State) (VF := StateDB_safe) (v_GetNonce a) (λ g n, n = nonce g a).
Proof.
  eapply (reads_query (SR := secure_reads) (λ _, I) _ (OGetNonce a) a 0 _ RZ); [intros s0 r s'; apply rz_inv|done|].
  intros g _. unfold nonce, get_or_new. by destruct (as_acct g a).
Qed.

(** A message that is accepted has the next nonce of its sender, and can pay for all of
    its gas, which the block has left. *)
Definition accepted (g : astate) (gp : Z) : Prop :=
  (msg_CheckNonce msg = true → nonce g (msg_From msg) = msg_Nonce msg) ∧ msg_Gas msg <= gp ∧
  msg_Gas msg * msg_GasPrice msg <= balance g (msg_From msg).

Lemma preCheck_ok x k g gp e : msg_ok → in_u64 gp → idle x k g e →
  wp (preCheck msg) (λ r t', match r with
    | Some _ => True
    | None => accepted g gp ∧ ∃ e', idle x k (after_buy g) e' ∧ t' = mkTransition (gp - msg_Gas msg) (msg_Gas msg) (msg_Gas msg) e'
    end) (mkTransition gp 0 0 e).
Proof.
  intros Hmsg Hgp He. unfold preCheck. wp_steps. eapply wp_from; [exact He|]. intros e1 He1.
  assert (∀ e2, idle x k (touch (msg_From msg) g) e2 → (msg_CheckNonce msg = true → nonce g (msg_From msg) = msg_Nonce msg) →
    wp (buyGas msg) (λ r t', match r with
      | Some _ => True
      | None => accepted g gp ∧ ∃ e', idle x k (after_buy g) e' ∧ t' = mkTransition (gp - msg_Gas msg) (msg_Gas msg) (msg_Gas msg) e'
      end) (mkTransition gp 0 0 e2)) as Hbuy.
  { intros e2 He2 Hn. eapply wp_mono; [by eapply buyGas_ok|]. intros [err|] t'; [done|].
    unfold after_buy. rewrite touch_twice, balance_touch. intros (e' & ? & ? & ? & ->). split; [done|]. by exists e'. }
  destruct (msg_CheckNonce msg) eqn:Ec; [|by apply Hbuy]. wp_steps. apply wp_tevm.
  eapply idle_read; [apply GetNonce_reads|exact He1|]. intros n e2 He2 ->. unfold nonce in *. rewrite get_or_new_touch.
  destruct (_ <? _) eqn:E1; [by wp_steps|]. destruct (msg_Nonce msg <? _) eqn:E2; [by wp_steps|]. apply Hbuy; [done|]. lia.
Qed.

(** The state when a call starts. *)
Definition next_nonce (g : astate) : astate :=
  upd_acct (msg_From msg) (on_data (λ d, d<| acc_Nonce := u64 (acc_Nonce d + 1) |>)) g.

Definition before_call (to : bytes) (g : astate) : astate := touch to (next_nonce (after_buy g)).

Lemma idle_less x k k' g e : idle x k g e → k' <= k → idle x k' g e.
Proof. intros (l & He) Hk. exists l. by eapply evm_at_less. Qed.

Lemma touch_after_buy g : touch (msg_From msg) (after_buy g) = after_buy g.
Proof.
  unfold touch at 1. unfold after_buy, upd_acct. rewrite set_acct_twice. unfold get_or_new at 1. by rewrite set_acct_lookup.
Qed.

Lemma before_call_moved to g : moved (- (msg_Gas msg * msg_GasPrice msg)) g (before_call to g).
Proof.
  rewrite <-(Z.add_0_r (- _)). eapply moved_trans; [apply after_buy_moved|]. apply moved_same. intros b.
  unfold before_call. rewrite balance_touch. by apply balance_upd.
Qed.

(** The gas that a message costs before it runs. *)
Definition intrinsic (x : Context) : Z :=
  (if bool_decide (msg_To msg = None) && is_rule IsHomestead x then 53000 else 21000) + data_gas (msg_Data msg).

Lemma data_gas_pos data : 0 <= data_gas data.
Proof. unfold data_gas, lenZ. lia. Qed.

Lemma intrinsic_pos x : 21000 <= intrinsic x.
Proof. unfold intrinsic. pose proof (data_gas_pos (msg_Data msg)). destruct (_ && _); lia. Qed.

Lemma intrinsic_gas x : lenZ (msg_Data msg) <= 2 ^ 62 → intrinsic x < 2 ^ 64 →
  IntrinsicGas (msg_Data msg) (bool_decide (msg_To msg = None)) (is_rule IsHomestead x) = inl (intrinsic x).
Proof. intros Hl Hlt. rewrite IntrinsicGas_run by done. cbv zeta. fold (intrinsic x). by replace (_ <? _) with true by lia. Qed.

(** What [execute] leaves. *)
Definition executed (x : Context) (g : astate) (gp : Z) (r : bytes * option vmErr + coreErr) (t' : StateTransition State) : Prop :=
  match r with
  | inr _ => True
  | inl (ret, vmerr) =>
      accepted g gp ∧ gobytes ret ∧ ∃ g' rest e',
        t' = mkTransition (gp - msg_Gas msg) rest (msg_Gas msg) e' ∧ idle x rest g' e' ∧
        0 <= rest <= msg_Gas msg - intrinsic x ∧ moved (- (msg_Gas msg * msg_GasPrice msg)) g g' ∧
        (∀ to, msg_To msg = Some to → vmerr ≠ None → g' = before_call to g)
  end.

Lemma call_part_ok x g gp gas fuel e : msg_ok → ctx_ok x → accepted g gp → idle x (gas + 1) (after_buy g) e →
  0 <= gas <= msg_Gas msg - intrinsic x → enough x gas fuel →
  ∀ dst, msg_To msg = Some dst →
  wp (nonce ← tstate (v_GetNonce (msg_From msg));
      tstate (v_SetNonce (msg_From msg) (u64 (nonce + 1)));;
      dst ← to msg;
      tevm (Call (run levels fuel) (AccountRef (msg_From msg)) dst (msg_Data msg) gas (msg_Value msg)))
    (λ r t', let '(ret, rest, vmerr) := r in ∃ gas', executed x g gp (inl (ret, vmerr)) (mkTransition (st_gp t') rest (st_initialGas t') (st_evm t'))
       ∧ t' = mkTransition (gp - msg_Gas msg) gas' (msg_Gas msg) (st_evm t'))
    (mkTransition (gp - msg_Gas msg) gas (msg_Gas msg) e).
Proof.
  intros Hmsg Hx Hacc He Hgas Hf dst Hto. pose proof (intrinsic_pos x). wp_steps. apply wp_tevm.
  eapply idle_read; [apply GetNonce_reads|exact He|]. intros n e1 He1 ->. wp_steps. apply wp_tevm.
  eapply (idle_unit _ (OSetNonce _ _) x _ _ (next_nonce (after_buy g))); [done| | |exact He1|].
  - cbn [spec_op]. unfold next_nonce, upd_acct, done_unit. do 4 f_equal.
  - apply upd_good; [by intros ?|by eapply idle_good|]. by intros aa [].
  - intros e2 He2. wp_steps. unfold to. rewrite Hto. wp_steps. eapply wp_ensure; [exact He2|]. intros e3 He3. wp_steps.
    apply wp_tevm. destruct Hmsg. eapply wp_mono; [eapply (Call_idle x); try done; eauto; unfold gas_cap in *; lia|].
    intros [[ret rest] vmerr] e4 (Hret & Hrest & g' & He4 & Hm & Herr). exists gas. split; [|done]. split; [done|]. split; [done|].
    exists g', rest, e4. cbn. split; [done|]. split; [done|]. split; [lia|]. split.
    + rewrite <-(Z.add_0_r (- _)). eapply moved_trans; [apply (before_call_moved dst)|done].
    + intros to' E Hne. rewrite Hto in E. injection E as <-. by apply Herr.
Qed.

Lemma create_part_ok x g gp gas fuel e : msg_ok → ctx_ok x → accepted g gp → idle x (gas + 1) (after_buy g) e →
  0 <= gas <= msg_Gas msg - intrinsic x → enough x gas fuel →
  msg_To msg = None →
  wp (r ← tevm (Create (run levels fuel) (AccountRef (msg_From msg)) (msg_Data msg) gas (msg_Value msg));
      let '(ret, _, gas, vmerr) := r in mret (ret, gas, vmerr))
    (λ r t', let '(ret, rest, vmerr) := r in ∃ gas', executed x g gp (inl (ret, vmerr)) (mkTransition (st_gp t') rest (st_initialGas t') (st_evm t'))
       ∧ t' = mkTransition (gp - msg_Gas msg) gas' (msg_Gas msg) (st_evm t'))
    (mkTransition (gp - msg_Gas msg) gas (msg_Gas msg) e).
Proof.
  intros Hmsg Hx Hacc He Hgas Hf Hto. pose proof (intrinsic_pos x). wp_steps. apply wp_tevm. destruct Hmsg.
  eapply wp_mono; [eapply (Create_idle x); try done; eauto; unfold gas_cap in *; lia|].
  intros [[[ret created] rest] vmerr] e4 (Hret & _ & Hrest & g' & He4 & Hm). wp_steps. exists gas. split; [|done]. split; [done|].
  split; [done|]. exists g', rest, e4. cbn. split; [done|]. split; [done|]. split; [lia|]. split.
  - rewrite <-(Z.add_0_r (- _)). eapply moved_trans; [apply after_buy_moved|done].
  - intros to E. congruence.
Qed.

Lemma execute_ok x g gp fuel e : msg_ok → ctx_ok x → in_u64 gp → idle x (msg_Gas msg + 1) g e → enough x (msg_Gas msg) fuel →
  wp (execute (run levels fuel) msg) (executed x g gp) (mkTransition gp 0 0 e).
Proof.
  intros Hmsg Hx Hgp He Hf. unfold execute. wp_steps. eapply wp_mono; [by eapply preCheck_ok|].
  intros [err|] t'; [by intros _; wp_steps|]. intros (Hacc & e1 & He1 & ->). wp_steps. eapply wp_from; [exact He1|].
  rewrite touch_after_buy. intros e2 He2. wp_steps. apply wp_tevm, wp_erule.
  pose proof (intrinsic_pos x). rewrite IntrinsicGas_run by apply Hmsg. pose proof He2 as (l & Hat).
  rewrite (eo_ctx _ _ _ _ _ Hat). cbv zeta. cbn [sc_ctx]. fold (intrinsic x).
  destruct (_ <? 2 ^ 64) eqn:Ei; [|by wp_steps]. unfold useGas. wp_steps. cbn [st_gas].
  destruct (msg_Gas msg <? _) eqn:Eg; [exact I|]. wp_steps. cbn [st_gas].
  destruct (mk_gas Hmsg) as [Hg0 Hg1]. unfold gas_cap in Hg1. rewrite u64_small by (unfold in_u64; lia).
  set (gas := msg_Gas msg - intrinsic x). assert (0 <= gas <= msg_Gas msg - intrinsic x) by (unfold gas; lia).
  assert (enough x gas fuel) by (eapply enough_less; [exact Hf|lia]). assert (idle x (gas + 1) (after_buy g) e2) as He3 by (eapply idle_less; [exact He2|lia]).
  eapply wp_mono; [destruct (msg_To msg) as [dst|] eqn:Et; [by eapply call_part_ok|by eapply create_part_ok]|].
  intros [[ret rest] vmerr] [gp' gas' ig' e4] (gas0 & Hex & [= -> -> ->]). wp_steps. cbn in Hex |- *. case_bool_decide; by wp_steps.
Qed.

(** An account gets an amount. *)
Definition credit (a : bytes) (v : Z) (g : astate) : astate := upd_acct a (on_data (λ d, d<| acc_Balance ::= λ b, b + v |>)) g.

Lemma wp_credit a v x k g gp gas ig e (Q : () → StateTransition State → Prop) : 0 <= v → idle x k g e →
  (∀ e', idle x k (credit a v g) e' → Q () (mkTransition gp gas ig e')) → wp (tstate (v_AddBalance a v)) Q (mkTransition gp gas ig e).
Proof.
  intros Hv He HQ. apply wp_tevm. eapply (idle_unit _ (OAddBalance a v)); [done|done| |exact He|exact HQ].
  apply upd_good; [by intros ?|by eapply idle_good|]. intros aa []. constructor; cbn; [lia|done..].
Qed.

Lemma credit_moved a v g : moved v g (credit a v g).
Proof.
  apply (moved_at a); intros; unfold credit, upd_acct; rewrite balance_set; [by rewrite decide_False|].
  rewrite decide_True by done. unfold balance. cbn. lia.
Qed.

(** What is left after the refund, at most half of the gas used. *)
Definition with_refund (g : astate) (rest : Z) : Z := rest + Z.min ((msg_Gas msg - rest) / 2) (as_refund g).

Lemma with_refund_bounds g rest : in_u64 (as_refund g) → 0 <= rest <= msg_Gas msg →
  rest <= with_refund g rest ∧ (msg_Gas msg - rest) <= 2 * (msg_Gas msg - with_refund g rest).
Proof. unfold with_refund, in_u64. intros. dlia. Qed.

Lemma refundGas_ok x g gp rest e : msg_ok → in_u64 gp → msg_Gas msg <= gp → 0 <= rest <= msg_Gas msg → idle x rest g e →
  let rest' := with_refund g rest in
  wp (refundGas msg) (λ _ t', ∃ e', idle x rest (credit (msg_From msg) (rest' * msg_GasPrice msg) (touch (msg_From msg) g)) e' ∧
      t' = mkTransition (gp - msg_Gas msg + rest') rest' (msg_Gas msg) e')
    (mkTransition (gp - msg_Gas msg) rest (msg_Gas msg) e).
Proof.
  intros [] Hgp Hle Hrest He rest'. pose proof (sg_refund g (idle_good _ _ _ _ He)) as Hr. unfold in_u64, gas_cap in *.
  destruct (with_refund_bounds g rest Hr Hrest) as [Hr1 Hr2]. fold rest' in Hr1, Hr2.
  unfold refundGas. wp_steps. apply wp_tevm. eapply idle_refund; [exact He|]. intros e1 He1. wp_steps.
  unfold gasUsed. cbn [st_initialGas st_gas]. rewrite (u64_small (msg_Gas msg - rest)) by (unfold in_u64; lia).
  fold (with_refund g rest). fold rest'. eapply wp_from; [exact He1|]. intros e2 He2. wp_steps.
  cbn [st_gas st_gp]. change (rest + Z.min ((msg_Gas msg - rest) / 2) (as_refund g)) with rest'.
  rewrite (u64_small rest') by (unfold in_u64; lia). eapply wp_credit; [nia|exact He2|]. intros e3 He3. wp_steps.
  apply wp_rlift. exists (gp - msg_Gas msg + rest'). split; [apply gp_AddGas_Ret; lia|]. wp_steps. by exists e3.
Qed.

(** What the two transitions share: the state when the sender has its refund. *)
Definition settled (x : Context) (g : astate) (gp used : Z) (failed : bool) (g' : astate) (t' : StateTransition State) : Prop :=
  accepted g gp ∧ intrinsic x <= 2 * used ∧ intrinsic x <= msg_Gas msg ∧ used <= msg_Gas msg ∧
  moved (- (used * msg_GasPrice msg)) g g' ∧
  (∀ dst, msg_To msg = Some dst → failed = true → ∃ rest, g' = credit (msg_From msg) (rest * msg_GasPrice msg)
     (touch (msg_From msg) (before_call dst g)) ∧ used = msg_Gas msg - rest) ∧
  ∃ k e', idle x k g' e' ∧ t' = mkTransition (gp - used) (msg_Gas msg - used) (msg_Gas msg) e'.

Lemma execute_refund x g gp fuel e {A} (k : bytes → option vmErr → rM (StateTransition State) (A + coreErr))
    (Q : A + coreErr → StateTransition State → Prop) :
  msg_ok → ctx_ok x → in_u64 gp → idle x (msg_Gas msg + 1) g e → enough x (msg_Gas msg) fuel →
  (∀ err t, Q (inr err) t) →
  (∀ ret vmerr used g' t', gobytes ret → settled x g gp used (bool_decide (vmerr ≠ None)) g' t' → wp (k ret vmerr) Q t') →
  wp (r ← execute (run levels fuel) msg;
      match r with inr err => mret (inr err) | inl (ret, vmerr) => refundGas msg;; k ret vmerr end) Q (mkTransition gp 0 0 e).
Proof.
  intros Hmsg Hx Hgp He Hf Herr HQ. wp_steps. eapply wp_mono; [by apply execute_ok|].
  intros [[ret vmerr]|err] t'; [|intros _; wp_steps; apply Herr].
  intros (Hacc & Hret & g' & rest & e' & -> & He' & Hrest & Hm & Hfail). wp_steps.
  pose proof (intrinsic_pos x). pose proof (sg_refund g' (idle_good _ _ _ _ He')) as Hr.
  destruct (with_refund_bounds g' rest Hr ltac:(lia)) as [Hr1 Hr2].
  eapply wp_mono; [apply (refundGas_ok x g'); try done; [apply Hacc|lia]|]. intros [] t (e1 & He1 & ->).
  set (rest' := with_refund g' rest) in *. eapply (HQ ret vmerr (msg_Gas msg - rest')); [done|]. split; [done|]. split; [lia|]. split; [lia|].
  split; [lia|]. split; [|split].
  - replace (- _) with (- (msg_Gas msg * msg_GasPrice msg) + rest' * msg_GasPrice msg) by lia.
    eapply moved_trans; [exact Hm|]. rewrite <-(Z.add_0_l (rest' * _)).
    eapply moved_trans; [|apply credit_moved]. apply moved_same, balance_touch.
  - intros dst Hdst Hb%bool_decide_eq_true. exists rest'. rewrite <-(Hfail dst Hdst Hb). split; [done|lia].
  - eexists rest, e1. split; [exact He1|]. f_equal; lia.
Qed.

Lemma TransitionDbEx_ok x g gp fuel e :
  msg_ok → ctx_ok x → in_u64 gp → idle x (msg_Gas msg + 1) g e → enough x (msg_Gas msg) fuel →
  wp (TransitionDbEx (run levels fuel) msg) (λ r t', match r with
    | inr _ => True
    | inl (ret, used, money, failed) =>
        gobytes ret ∧ money = used * msg_GasPrice msg ∧ ∃ g', settled x g gp used failed g' t'
    end) (mkTransition gp 0 0 e).
Proof.
  intros Hmsg Hx Hgp He Hf. unfold TransitionDbEx. eapply execute_refund; [done|done|done|done|done|done|].
  intros ret vmerr used g' t' Hret Hs. wp_steps. pose proof Hs as (_ & Hu1 & _ & Hu2 & _ & _ & _ & e' & _ & ->).
  unfold gasUsed. cbn [st_initialGas st_gas]. destruct Hmsg. unfold gas_cap in *. pose proof (intrinsic_pos x).
  replace (msg_Gas msg - (msg_Gas msg - used)) with used by lia. rewrite u64_small by (unfold in_u64; lia).
  split; [done|]. split; [done|]. by exists g'.
Qed.

Lemma TransitionDb_ok x g gp fuel e :
  msg_ok → ctx_ok x → in_u64 gp → idle x (msg_Gas msg + 1) g e → enough x (msg_Gas msg) fuel →
  wp (TransitionDb (run levels fuel) msg) (λ r t', match r with
    | inr _ => True
    | inl (ret, used, failed) =>
        gobytes ret ∧ ∃ g' t1 k, settled x g gp used failed g' t1 ∧ st_gp t' = st_gp t1 ∧
          idle x k (credit (x_Coinbase x) (used * msg_GasPrice msg) g') (st_evm t')
    end) (mkTransition gp 0 0 e).
Proof.
  intros Hmsg Hx Hgp He Hf. unfold TransitionDb. eapply execute_refund; [done|done|done|done|done|done|].
  intros ret vmerr used g' t' Hret Hs. wp_steps. pose proof Hs as (_ & Hu1 & _ & Hu2 & _ & _ & k & e' & He' & ->).
  destruct Hmsg. unfold gas_cap in *. pose proof (intrinsic_pos x).
  assert (∀ e1, gasUsed (mkTransition (gp - used) (msg_Gas msg - used) (msg_Gas msg) e1) = used) as Hgu.
  { intros e1. unfold gasUsed. cbn [st_initialGas st_gas].
    replace (msg_Gas msg - (msg_Gas msg - used)) with used by lia. apply u64_small. unfold in_u64. lia. }
  rewrite Hgu. pose proof He' as (l & Hat). cbn [st_evm]. rewrite (eo_ctx _ _ _ _ _ Hat). cbn [sc_ctx].
  eapply wp_credit; [|exact He'|]; [assert (0 <= used) by lia; nia|]. intros e2 He2. wp_steps. rewrite Hgu.
  split; [done|]. eexists g', _, k. split; [exact Hs|]. by split.
Qed.

(** The accounts after a message to [dst] that fails: the sender has paid the fee and has the
    next nonce, the coinbase has the fee, and these two and [dst] exist. *)
Definition charged (dst coinbase : bytes) (fee : Z) (g : astate) (a : bytes) : option aacct :=
  let sent := bool_decide (a = msg_From msg) in
  if sent || bool_decide (a = dst) || bool_decide (a = coinbase) then
    Some (on_data (λ d, d<| acc_Balance ::= λ b, b - (if sent then fee else 0) + (if bool_decide (a = coinbase) then fee else 0) |>
                         <| acc_Nonce ::= λ n, if sent then u64 (n + 1) else n |>) (get_or_new g a))
  else as_acct g a.

Lemma on_data_on_data f1 f2 aa : on_data f1 (on_data f2 aa) = on_data (λ d, f1 (f2 d)) aa.
Proof. by destruct aa. Qed.

Lemma as_acct_upd a f g b : as_acct (upd_acct a f g) b = if decide (b = a) then Some (f (get_or_new g a)) else as_acct g b.
Proof. unfold upd_acct. destruct (decide (b = a)) as [->|]; [apply set_acct_lookup|by apply set_acct_other]. Qed.

Lemma as_acct_touch a g b : as_acct (touch a g) b = if decide (b = a) then Some (get_or_new g a) else as_acct g b.
Proof. unfold touch. destruct (decide (b = a)) as [->|]; [apply set_acct_lookup|by apply set_acct_other]. Qed.

Lemma failed_state coinbase dst rest g :
  let g' := credit coinbase ((msg_Gas msg - rest) * msg_GasPrice msg)
    (credit (msg_From msg) (rest * msg_GasPrice msg) (touch (msg_From msg) (before_call dst g))) in
  (∀ a, as_acct g' a = charged dst coinbase ((msg_Gas msg - rest) * msg_GasPrice msg) g a) ∧ g' = g<| as_acct := as_acct g' |>.
Proof.
  intros g'. split; [|by destruct g]. intros a. subst g'.
  unfold before_call, next_nonce, after_buy, credit, charged. repeat rewrite ?as_acct_upd, ?as_acct_touch, ?get_or_new_upd, ?get_or_new_touch.
  rewrite !(decide_True (P := msg_From msg = msg_From msg)) by done.
  destruct (decide (a = coinbase)), (decide (coinbase = msg_From msg)), (decide (a = msg_From msg)), (decide (a = dst)),
    (decide (dst = msg_From msg)); try congruence;
    repeat case_bool_decide; try congruence; cbn [orb]; try done; f_equal;
    repeat match goal with H : a = _ |- _ => rewrite <-H end; rewrite ?on_data_on_data;
    destruct (get_or_new g _) as [[] ]; unfold on_data, rec_upd; cbn; f_equal; f_equal; lia.
Qed.
End runs.

(** ** The theorems *)


(** C6. The accounts of a message with a gas limit of at most 2^46. Applying it ends,
    without a panic; the only other outcome is a pair of codes with the same Keccak
    hash. If the message is accepted, then its nonce was the next one of the sender, if
    it asks for that check, the sender could pay for all of its gas, and the block had
    that much left. It uses at least half of its intrinsic gas, that of a creation or of
    a call with its data, and at most its limit, the block has that much less, and what
    all accounts hold together shrinks by at least the money that is reported as used:
    nothing that a contract does makes money. *)
Theorem ApplyMessageEx_accounts `{KLaws : KeccakLaws} `{CLaws : CryptoLaws} x (s : State) g msg gp aborts fuel :
  starts x s g (msg_Gas msg) → msg_ok msg → in_u64 gp → enough x (msg_Gas msg) fuel →
  match ApplyMessageEx (run levels fuel) msg (NewEVM x s aborts) gp with
  | Done (inl (ret, used, money, _), t) =>
      accepted msg g gp ∧
      (∃ i, IntrinsicGas (msg_Data msg) (bool_decide (msg_To msg = None)) (is_rule IsHomestead x) = inl i ∧ i <= 2 * used) ∧
      used <= msg_Gas msg ∧ money = used * msg_GasPrice msg ∧ st_gp t = gp - used ∧
      ∃ g' l k, st_ok (e_state (st_evm t)) g' l k ∧ ∀ n, supply g n → ∃ n', supply g' n' ∧ n' <= n - money
  | Done (inr _, _) => True
  | Collision => code_collision
  | _ => False
  end.
Proof.
  intros Hs Hm Hgp Hf. pose proof (starts_idle x s g (msg_Gas msg) aborts Hs) as He.
  pose proof (TransitionDbEx_ok msg x g gp fuel _ Hm (sr_ctx _ _ _ _ Hs) Hgp He Hf) as Hw. unfold wp in Hw.
  unfold ApplyMessageEx, NewStateTransition. destruct (TransitionDbEx _ _ _) as [[[[[[ret used] money] failed]|err] t]| | |]; try done.
  destruct Hw as (_ & -> & g' & Hacc & Hu1 & Hu2 & Hu3 & Hmv & _ & k & e' & He' & ->). split; [done|]. split.
  { exists (intrinsic msg x). split; [|done]. destruct Hm. unfold gas_cap in *. apply intrinsic_gas; [apply mk_data0|lia]. }
  split; [done|]. split; [done|]. split; [done|]. destruct (idle_state _ _ _ _ He') as (l & Hst). by exists g', l, k.
Qed.

(** C7. A message to an account that fails in the machine costs its gas and nothing
    else. Afterwards the sender has paid for the gas used and has the next nonce, the
    coinbase has got the fee, and these two and the recipient exist if they did not;
    every other account is what it was, also in whether it exists, and so are the logs,
    the refund counter, the preimages and the address sets. Of the value, of what the
    code did and of the accounts that it created nothing is left. The message has at
    most 2^46 gas; messages that create a contract are not meant. *)
Theorem failed_message_costs_its_gas `{KLaws : KeccakLaws} `{CLaws : CryptoLaws}
    x (s : State) g msg gp aborts fuel dst ret used t :
  starts x s g (msg_Gas msg) → msg_ok msg → in_u64 gp → enough x (msg_Gas msg) fuel → msg_To msg = Some dst →
  ApplyMessage (run levels fuel) msg (NewEVM x s aborts) gp = Done (inl (ret, used, true), t) →
  st_gp t = gp - used ∧
  ∃ g' l k, st_ok (e_state (st_evm t)) g' l k ∧
    (∀ a, as_acct g' a = charged msg dst (x_Coinbase x) (used * msg_GasPrice msg) g a) ∧ g' = g<| as_acct := as_acct g' |>.
Proof.
  intros Hs Hm Hgp Hf Hto E. pose proof (starts_idle x s g (msg_Gas msg) aborts Hs) as He.
  pose proof (TransitionDb_ok msg x g gp fuel _ Hm (sr_ctx _ _ _ _ Hs) Hgp He Hf) as Hw. unfold wp in Hw.
  unfold ApplyMessage, NewStateTransition in E. rewrite E in Hw.
  destruct Hw as (_ & g' & t1 & k & (_ & _ & _ & _ & _ & Hfail & k1 & e1 & _ & ->) & Hgp' & He').
  split; [exact Hgp'|]. destruct (Hfail dst Hto eq_refl) as (rest & -> & ->).
  destruct (idle_state _ _ _ _ He') as (l & Hst). eexists _, l, k. split; [exact Hst|]. apply failed_state.
Qed.

(** ** Sample messages *)

#[local] Existing Instance toy_keccak.
#[local] Existing Instance toy_crypto.
#[local] Existing Instance toy_keccak_laws.

Definition toy_msg : Message := mkMessage user1 (Some acc1) 2 60000 7 0 true [].

Lemma toy_msg_ok : msg_ok toy_msg.
Proof.
  constructor; cbn; try lia; try apply toy_addresses; try apply gobytes_nil.
  - intros to [= <-]. apply toy_addresses.
  - unfold gas_cap. lia.
Qed.

Definition message_result {A} (r : vres ((A + coreErr) * StateTransition State)) : option A :=
  match r with Done (inl a, _) => Some a | _ => None end.


Lemma toy_supply code : supply (toy_abs code) 1000000.
Proof.
  assert (∀ a, balance (toy_abs code) a = if decide (a = user1) then 1000000 else 0) as Hb.
  { intros a. unfold toy_abs, balance. rewrite get_or_new_upd. destruct (decide (a = user1)).
    - rewrite get_or_new_upd. by destruct (decide (user1 = acc1)).
    - rewrite get_or_new_upd. by destruct (decide (a = acc1)). }
  exists [user1]. split; [apply NoDup_singleton|]. split.
  - intros a. rewrite Hb. destruct (decide _) as [->|]; [set_solver|done].
  - cbn [sum_over]. by rewrite Hb, decide_True.
Qed.

Lemma ApplyMessageEx_accounts_witness : ∃ t, 
  (∃ ret, ApplyMessageEx (run levels (Z.to_nat 60001)) toy_msg (NewEVM toy_ctx (toy_state add_code) []) 100000 =
     Done (inl (ret, 21024, 42048, false), t)) ∧ st_gp t = 78976 ∧
  ∃ g' l k n', st_ok (e_state (st_evm t)) g' l k ∧ supply g' n' ∧ n' <= 957952.
Proof.
  assert (starts toy_ctx (toy_state add_code) (toy_abs add_code) 60000) as Hs
    by (apply toy_starts; [apply codes_ok|unfold gas_cap; lia]).
  pose proof (ApplyMessageEx_accounts toy_ctx (toy_state add_code) (toy_abs add_code) toy_msg 100000 [] (Z.to_nat 60001)
    Hs toy_msg_ok) as Hw.
  set (r := ApplyMessageEx _ _ _ _) in *.
  assert ((λ x : bytes * Z * Z * bool, (x.1.1.2, x.1.2, x.2)) <$> message_result r = Some (21024, 42048, false)) as Hr
    by (vm_compute; reflexivity).
  destruct r as [[[[[[ret used] money] failed]|err] t]| | |]; try discriminate Hr. cbn in Hr. injection Hr as -> -> ->.
  destruct Hw as (_ & _ & _ & _ & Hgp & g' & l & k & Hst & Hn); [unfold in_u64; lia|by apply (toy_enough 60000)|].
  exists t. split; [by exists ret|]. split; [exact Hgp|]. destruct (Hn _ (toy_supply add_code)) as (n' & Hn' & Hle).
  exists g', l, k, n'. split; [exact Hst|]. split; [exact Hn'|lia].
Defined.

Lemma failed_message_costs_its_gas_witness : ∃ t ret,
  ApplyMessage (run levels (Z.to_nat 60001)) toy_msg (NewEVM toy_ctx (toy_state bad_code) []) 100000 =
    Done (inl (ret, 60000, true), t) ∧ st_gp t = 40000 ∧
  ∃ g' l k, st_ok (e_state (st_evm t)) g' l k ∧ balance g' acc1 = 0 ∧ nonce g' user1 = 1.
Proof.
  pose proof (failed_message_costs_its_gas toy_ctx (toy_state bad_code) (toy_abs bad_code) toy_msg 100000 [] (Z.to_nat 60001) acc1) as Hw.
  set (r := ApplyMessage _ _ _ _) in *.
  assert ((λ x : bytes * Z * bool, (x.1.2, x.2)) <$> message_result r = Some (60000, true)) as Hr by (vm_compute; reflexivity).
  destruct r as [[[[[ret used] failed]|err] t]| | |]; try discriminate Hr. cbn in Hr. injection Hr as -> ->.
  destruct (Hw ret 60000 t) as (Hgp & g' & l & k & Hst & Ha & _);
    [apply toy_starts; [apply codes_ok|unfold gas_cap; cbn [toy_msg msg_Gas]; lia]|apply toy_msg_ok|unfold in_u64; lia|by apply (toy_enough 60000)|
     reflexivity|reflexivity|].
  exists t, ret. split; [reflexivity|]. split; [exact Hgp|]. exists g', l, k. split; [exact Hst|].
  unfold balance, nonce, get_or_new. rewrite !Ha. split; vm_compute; reflexivity.
Defined.
